(* ===== verification/_CoqProject ===== *)
-Q . S2P
Prelude.v
DbIter.v
ListHelper.v
MergeIter.v
Mvcc.v
MvccTheorems.v
Types.v
Address.v
Api.v
KVStore.v
Account.v
Ledger.v
LedgerInv.v
LedgerTheorems.v
StateDB.v
LedgerTx.v
LocalDB.v
Rollback.v
MavlSpec.v
Mavl.v
MavlTree.v
MavlProof.v
MavlIter.v
MavlTheorems.v
MavlStore.v
MavlStoreTheorems.v
Fork.v
Coins.v
Manage.v
CoinsTheorems.v
SkipList.v
SkipListTheorems.v
ListMap.v
Mempool.v
MempoolTheorems.v
Difficulty.v
Merkle.v
MerkleBranch.v
Tx.v
TxTheorems.v
Block.v
Consensus.v
ConsensusTheorems.v
Table.v
TableTheorems.v
Executor.v
ExecutorTheorems.v
GroupAtomic.v
Drivers.v
ExecutorDemo.v
Plugins.v
PluginTheorems.v
BlockStore.v
BlockStoreLemmas.v
BlockIndex.v
OrphanPool.v
OrphanTheorems.v
BlockCache.v
DupTx.v
ChainView.v
Chain.v
ChainMono.v
ChainInv.v
ChainSteps.v
ChainTheorems.v
OrphanAdopt.v
ChainDemo.v
