(* ===== verification/Prelude.v ===== *)
(** * A verification development for chain33

    chain33 is a blockchain framework in Go.  A node is a set of modules that exchange
    messages: consensus produces blocks from the transactions of the mempool; the
    blockchain module orders blocks; the executor runs the transactions of a block
    against a state database in front of the state store (a Merkle-AVL tree), and against
    a local database for indices; executors ("dapps") such as coins move assets through
    the account ledger; fork heights decide which rules are active.  This development
    models the deterministic core that every node must compute in the same way.

    ** Conventions

    - An operation that can fail is a function into [outcome] (a value, an error, or a
      panic); one that changes a store is in the state monad [M S], which keeps what was
      written before an error.  Both are below.
    - Machine integers are [Z] with explicit wrap-around ([wrap64], [wrap32]) wherever the
      code computes with them; byte strings and Go strings are [string] ([bytes]), and a
      nil slice that is told apart from an empty one is [option bytes].
    - Code outside the repository, and cryptography and encodings, are parameters (type
      classes [LedgerCodecs], [MavlEnv], [TxOps], [MerkleEnv], [TxEnv], [BlockEnv],
      [StoreEnv], [ChainEnv], [ExecEnv], [PluginEnv], [RowMeta], [AddressEnv], [LRU], [BlockSize],
      [RollbackEnv], [LocalApi], the record of backend functions of [StateDB])
      with their documented properties; every theorem that uses one has a witness with a
      concrete instance.
    - Modules talk by messages.  A module that is asked is a record of functions
      ([Services] in [Block]) that may answer anything, at each call something else.  What a
      theorem needs of the answers is a class that its comment names: for chains
      [LocalData] (local data is there for every executed block, and the batch of a block
      that is connected is written), for the executor [QueueErrors] (requests of the local
      database are answered or fail with errors of the queue).  [ExecutorTheorems] puts the
      executor in the place of one of the services.  The consensus asks the interface [Neighbours]; what its
      liveness needs of the other modules is the class [Obliging].  A module takes one
      request at a time; the state store starts a goroutine for each, whose interleavings
      are not modelled.
    - Go maps are finite maps; where the code's result depends on iteration order the
      order is an argument or the theorem is stated for every order.
    - Recursions that follow the database are given fuel.  Tree operations get fuel from
      the height stored in the root, and every theorem of [Mavl], [MavlTree], [MavlProof]
      and [MavlIter] shows the result for any fuel above the height of the tree, so that
      running out of fuel is excluded.  The loops of [Merkle] and [Mempool] get the length
      of their input, which bounds the number of passes.  The loops over orphans get the
      number of orphans filed, and C37 shows that it is enough; walks along parents get the
      number of nodes, since a parent is older than its child.  Walks along the skip list
      get the number of nodes allocated and loops over iterators the number of pairs; C35
      and C5 give the results, not only the results of runs that end.  The one-pass Merkle
      computation climbs at most 64 levels, enough for the 2^31 leaves C21 allows, and the
      pages of C9 are as many as the pairs of the range.

    ** Files

    - [Prelude]: machine integers, [outcome], [M], byte strings, generic lemmas.
    - [DbIter]: iterators of the database layer: the cursor of the ordered memory database,
      [goLevelDBIt] with its bounds and directions ([common/db/db.go], [go_level_db.go]),
      the class [Iter] with its laws [IterSpec] (an iterator is a position in a sorted
      listing), databases with iterators ([IterDB]), and [GoMemDB] ([go_mem_db.go]).
    - [ListHelper]: listing by prefix, key, count and direction ([list_helper.go]) over any
      [IterDB], and its reference [list_ref]; [MergeIter]: the iterator over several
      databases at once ([merge_iter.go]), an instance of [IterSpec] for the union.
    - [Mvcc]: multi-version storage ([mvcc.go], [mvcc_iter.go]) over any listing database;
      [MvccTheorems]: C36 (while every version has a hash of its own and no key continues
      another with a dot, it refines a history of versions), the iterator over the last
      values, which walks over the current state, and runs without these conditions.
    - [Table]: tables of rows with a primary key and indices ([common/db/table]): the cache
      of changes, saving, queries; [TableTheorems]: C17 (a table is a map from primary keys
      to payloads, as long as a batch does not come back to a row it deleted), C28 (listing
      by an index), and runs in which the cache goes wrong.
    - [SkipList]: the skip list of [common/skiplist] as a heap of nodes with the levels drawn
      as an argument; [SkipListTheorems]: C35 (it refines a sorted list).
    - [Types]: amounts and executor names ([types/types.go], [types/config.go]).
    - [Address]: addresses, their text and checks, and the caches in front of them
      ([common/address]): C13 (the caches never show, and an address is what its text says).
    - [KVStore]: the interface [db.KV] as a class [KV] with laws (what a store promises to
      the ledger), the equivalence it induces and a finite-map instance.
    - [Account]: the account ledger ([account/account.go], [execaccount.go],
      [genesis.go]), every operation that changes an account, over any [KV] store.
    - [Ledger]: the abstract ledger over exact integers and the refinement of each
      operation; [LedgerInv]: supply, non-negativity and custody as an invariant of
      sequences of operations; [LedgerTheorems]: C1 (invariant), C2 (refinement).
    - [StateDB]: the executor's state database ([executor/statedb.go]) and its [KV]
      instance; [LedgerTx]: C3 (transactions of the database) and C4 (lists of ledger
      operations, each in a transaction, follow an all-or-nothing contract over exact
      integers), proved through the interface [KV] and the refinement of [Ledger].
    - [LocalDB]: the local database ([executor/localdb.go]) with its counterpart in the
      blockchain module ([common/db/localdb.go], [blockchain/localdb.go]), to which every
      request may fail ([LocalApi]): C5 (listing and reading see one map), what commit and
      rollback keep, and a rollback that leaks.
    - [Rollback]: local data with a log of what it replaced ([system/dapp/util.go] and the
      base driver), over the interface [LocalKV], which the executor's [LocalDB] satisfies:
      C29 (the log restores what was there, empty values apart).
    - [MavlSpec]: the pure AVL tree with data in the leaves and its contract over finite
      maps; [Mavl]: the nodes of [system/store/mavl/db/node.go], loaded on demand, and the
      simulation by [MavlSpec]; [MavlTree]: hashing, saving and the [Tree] object of
      [tree.go] with the entry points [SetKVPair], [GetKVPair], [DelKVPair]; [MavlProof]:
      membership proofs ([proof.go]); [MavlIter]: range iteration; [MavlTheorems]: C7 (the
      tree is a finite map), C10 and C11 (proofs: completeness, soundness), and lemmas on
      writing, deleting and iterating and a forged proof.
    - [MavlStore], [MavlStoreTheorems]: the state store module over the tree
      ([system/store/mavl/mavl.go], [system/store/base.go]): C6 (its replies are those of a
      contract over states as finite maps, also when the database refuses writes), C9
      (listing a state by pages), and runs in which a pending state is lost and in which a
      commit that is tried again panics.
    - [Fork]: fork tables and their configuration ([types/fork.go]): C14.
    - [Coins], [CoinsTheorems]: the coins executor ([system/dapp/coins/executor]) on the
      ledger and the fork table: C16 (ledger invariants along transactions), and the
      received totals with their undo.
    - [Manage]: the manage executor ([system/dapp/manage]) on any state database, the fork
      table and the address checks: C12 (configuration lists that only super managers
      change).
    - [ListMap]: the linked list with index of [common/listmap]; [Mempool],
      [MempoolTheorems]: the transaction pool ([system/mempool]) over any queue that
      satisfies the class [QueueCache], which [SimpleQueue] does: C18-C20.
    - [Difficulty]: compact targets and work ([common/difficulty]): C22.
    - [Merkle]: the Merkle root of a block's transactions ([common/merkle]), sequential
      and parallel: C24; [MerkleBranch]: root and branch in one pass ([Computation]): C21.
    - [Api]: errors of the interfaces between modules ([client/api/api.go]).
    - [Tx], [TxTheorems]: transactions and transaction groups ([types/tx.go]): C25 (a
      header names one group), C27 (packing), the making of groups and the
      transaction cache.
    - [Block]: blocks ([types/block.go]) and [ExecBlock] with the removal of duplicates
      ([util/util.go], [util/exec.go]): C30.
    - [Consensus]: the consensus client and the solo miner ([system/consensus/base.go],
      [solo/solo.go]); [ConsensusTheorems]: C8 (mining empties the pool), C40 (what a mined
      block holds, and that it passes the check).
    - [Executor]: the executor service ([executor/execenv.go], [executor.go],
      [allow.go]) and the loading of drivers ([system/dapp/register.go]), over any
      drivers; [ExecutorTheorems]: C38 (what a block writes to the store is what its
      transactions left in the state database); [GroupAtomic]: C39 (groups are atomic in the
      state and in what is read from the local database); [Drivers]: the base driver, [none]
      and [coins] as drivers and that they satisfy the law [lawful] of C38;
      [ExecutorDemo]: a concrete chain with these drivers, and the witnesses.  Both theorems are about heights
      at which [ForkExecRollback], [ForkStateDBSet] and [ForkResetTx0] are active
      ([forks_on]); some of the repository's configurations switch [ForkStateDBSet] off.
    - [Plugins]: the local data of a block: keys ([types/localkv.go]), the plugins for
      transactions, addresses, fees, statistics and versions ([executor/plugin*.go]), and
      the handlers for connected and disconnected blocks ([executor/executor.go]);
      [PluginTheorems]: C15 (disconnecting undoes connecting, for any drivers that do so),
      C23 (what is found after a block is connected).
    - [BlockStore], [BlockStoreLemmas]: the block store ([blockchain/blockstore.go]) and
      what it holds for a chain of blocks; [BlockIndex]: nodes, index and the view of the
      main chain ([blockindex.go], [chainview.go]); [BlockCache]: [cache.go];
      [OrphanPool], [OrphanTheorems]: blocks whose parent is unknown ([orphanpool.go]),
      C34 (the pool is bounded).
    - [DupTx]: which transactions are already in the chain ([blockchain/query_tx.go]), by
      the cache and by the index that the plugin [txindex] of [Plugins] writes: C26 (the
      removal of duplicates keeps what is not in the chain, when the transactions that carry
      their height come last and the cache covers the newest blocks), and a run in which an
      old transaction is missed.
    - [Chain]: [ProcessBlock] and everything it calls ([blockchain/process.go]), with the
      start-up of [chain.go].  [ChainView], [ChainMono], [ChainInv] and [ChainSteps] carry
      the invariant [Inv] through connection, disconnection, reorganisation and the
      handling of orphans; [ChainTheorems]: C31 (the invariant in every reachable state),
      C32 (reads of the store), C33 (the tip is the heaviest block); [OrphanAdopt]: C37
      (orphans are adopted and the loops end); [ChainDemo]: a concrete chain, the
      witnesses, and runs that go wrong.

    The theorems about chains hold up to three bounds, collected in [within]: no node has
    been dropped from the index (it keeps 102400 nodes, and forgets a node of an own block
    whose execution could not be asked for), less than 2^63 calls and heights; and under
    [LocalData].  [ChainDemo] has the runs in which [LocalData] does not hold and the store
    then disagrees with the cache or the index.

    ** Not modelled

    Networking, RPC, wallet, command line, cryptography and disk databases are I/O or
    external code.  Within the modelled parts: ledger queries over the message queue; the
    memory tree, caches, key prefixes and pruning of the Merkle-AVL store (the model is
    its default configuration, and pruning is a background pass over the disk database);
    the goroutine pipeline, signature and balance checks of the mempool; the
    synchronisation with peers, the push service and the queries of the blockchain module,
    which are timers and messages to peers; joined tables; queries to drivers, and the
    reflection by which drivers find the method of an action and the configuration files
    are read.  The message queue is Go channels: the model has the answers, not the
    delivery.  The values of receipts are byte strings: a receipt that deletes a key is not
    represented.

    ** What would come next

    The restart from a stored chain; the covering of the newest blocks by the cache, which
    reads can break; instances of [Obliging] made of the models of the mempool and the chain; joined
    tables ([common/db/table/join.go]); pruning of the Merkle-AVL store. *)

From Stdlib Require Export ZArith Lia.
From Stdlib Require Import Ascii String.
From stdpp Require Export base gmap strings list fin_maps option.

Set Default Goal Selector "!".

Declare Scope go_scope.
Delimit Scope go_scope with go.
Open Scope go_scope.

(** ** Machine integers: a w-bit Go integer is a [Z] together with its wrap-around. *)

Definition wrap64 (z : Z) : Z := ((z + 2 ^ 63) mod 2 ^ 64 - 2 ^ 63)%Z.
Definition wrap32 (z : Z) : Z := ((z + 2 ^ 31) mod 2 ^ 32 - 2 ^ 31)%Z.

Definition in64 (z : Z) : Prop := (- 2 ^ 63 <= z < 2 ^ 63)%Z.
Definition in32 (z : Z) : Prop := (- 2 ^ 31 <= z < 2 ^ 31)%Z.

Notation "x +₆₄ y" := (wrap64 (x + y)) (at level 50, left associativity) : go_scope.
Notation "x -₆₄ y" := (wrap64 (x - y)) (at level 50, left associativity) : go_scope.
Notation "x +₃₂ y" := (wrap32 (x + y)) (at level 50, left associativity) : go_scope.
Notation "x -₃₂ y" := (wrap32 (x - y)) (at level 50, left associativity) : go_scope.

Lemma wrap64_id z : in64 z → wrap64 z = z.
Proof. unfold in64, wrap64. intros H. rewrite Z.mod_small; lia. Qed.

Lemma wrap32_id z : in32 z → wrap32 z = z.
Proof. unfold in32, wrap32. intros H. rewrite Z.mod_small; lia. Qed.

Lemma wrap64_range z : in64 (wrap64 z).
Proof.
  unfold in64, wrap64.
  pose proof (Z.mod_pos_bound (z + 2 ^ 63) (2 ^ 64) ltac:(lia)). lia.
Qed.

Lemma wrap32_range z : in32 (wrap32 z).
Proof.
  unfold in32, wrap32.
  pose proof (Z.mod_pos_bound (z + 2 ^ 31) (2 ^ 32) ltac:(lia)). lia.
Qed.

(** The wrapped value differs from the exact one by a multiple of [2^64]. *)
Lemma wrap64_eq z : ∃ k, wrap64 z = (z + k * 2 ^ 64)%Z.
Proof.
  exists (- ((z + 2 ^ 63) / 2 ^ 64))%Z. unfold wrap64.
  pose proof (Z.div_mod (z + 2 ^ 63) (2 ^ 64) ltac:(lia)). lia.
Qed.

(** ** Go errors (the variables of [types/error.go] the modelled code returns). *)

Inductive error :=
  | ErrNotFound | ErrAmount | ErrNoBalance | ErrSendSameToRecv
  | ErrNotAllowDeposit | ErrExecNameNotAllow | ErrSymbolNameNotAllow
  | ErrTypeAsset | ErrActionNotSupport | ErrToAddrNotSameToExecAddr
  | ErrReRunGenesis | ErrDisableRead | ErrDisableWrite
  | ErrTxExist | ErrMemFull | ErrManyTx | ErrTxExpire | ErrInvalidAddress
  | ErrHeaderNotSet | ErrNodeNotExist | ErrSize
  | ErrTxGroupCountLessThanTwo | ErrTxGroupEmpty | ErrTxGroupParaCount
  | ErrTxGroupParaMainMixed | ErrTxGroupFeeNotZero | ErrTxFeeTooLow | ErrTxFeeTooHigh
  | ErrTxGroupHeader | ErrTxGroupCountBigThanMaxSize | ErrTxGroupCount | ErrTxGroupNext
  | ErrTxMsgSizeTooBig | ErrNomalTx
  | ErrOther (s : string).

#[export] Instance error_eq_dec : EqDecision error.
Proof. solve_decision. Defined.

(** ** Outcomes: a Go call returns a value, returns an error, or panics. *)

Inductive outcome (A : Type) :=
  | Ret (a : A)
  | Err (e : error)
  | Panic.
Arguments Ret {A} a.
Arguments Err {A} e.
Arguments Panic {A}.

(** An early return of an error when a condition fails. *)
Definition check_that (b : bool) (e : error) : outcome unit := if b then Ret tt else Err e.

Lemma check_that_Ret b e u : check_that b e = Ret u ↔ b = true.
Proof. unfold check_that. destruct b, u; split; done. Qed.

#[export] Instance outcome_ret : MRet outcome := @Ret.
#[export] Instance outcome_bind : MBind outcome := λ A B f m,
  match m with Ret a => f a | Err e => Err e | Panic => Panic end.

(** Stateful Go code: the state survives an error return (nothing is undone). *)
Definition M (S A : Type) : Type := S → outcome A * S.

#[export] Instance M_ret S : MRet (M S) := λ A a s, (Ret a, s).
#[export] Instance M_bind S : MBind (M S) := λ A B f m s,
  match m s with
  | (Ret a, s') => f a s'
  | (Err e, s') => (Err e, s')
  | (Panic, s') => (Panic, s')
  end.

Definition throw {S A} (e : error) : M S A := λ s, (Err e, s).
Definition panic {S A} : M S A := λ s, (Panic, s).

(** [v, err := m; if err != nil { panic(err) }]. *)
Definition must {S A} (m : M S A) : M S A := λ s,
  match m s with
  | (Err _, s') => (Panic, s')
  | r => r
  end.

(** [if c { return e }] before the rest of a function. *)
Definition guard_err {S} (c : bool) (e : error) : M S unit :=
  if c then throw e else mret tt.

Lemma bind_Ret {S A B} (m : M S A) (f : A → M S B) s a s' :
  m s = (Ret a, s') → (m ≫= f) s = f a s'.
Proof. intros H. unfold mbind, M_bind. by rewrite H. Qed.

Lemma bind_Err {S A B} (m : M S A) (f : A → M S B) s e s' :
  m s = (Err e, s') → (m ≫= f) s = (Err e, s').
Proof. intros H. unfold mbind, M_bind. by rewrite H. Qed.

Lemma bind_inv {S A B} (m : M S A) (f : A → M S B) s b s'' :
  (m ≫= f) s = (Ret b, s'') → ∃ a s', m s = (Ret a, s') ∧ f a s' = (Ret b, s'').
Proof.
  unfold mbind, M_bind. destruct (m s) as [[a|e|] s'] eqn:E; intros H; simplify_eq; eauto.
Qed.

Lemma must_inv {S A} (m : M S A) s a s' :
  must m s = (Ret a, s') → m s = (Ret a, s').
Proof. unfold must. destruct (m s) as [[?|?|] ?]; naive_solver. Qed.

Lemma guard_err_inv {S} c e (s : S) u s' :
  guard_err c e s = (Ret u, s') → c = false ∧ s' = s.
Proof. destruct c; cbv; naive_solver. Qed.

(** Break a successful run into the successful runs of its parts. *)
Ltac run_inv :=
  repeat match goal with
  | H : (_ ≫= _) _ = (Ret _, _) |- _ =>
      let a := fresh "a" in let s := fresh "s" in
      let H1 := fresh "Hrun" in
      apply bind_inv in H as (a & s & H1 & H)
  | H : guard_err _ _ _ = (Ret _, _) |- _ =>
      let Hc := fresh "Hg" in apply guard_err_inv in H as [Hc ->]
  | H : must _ _ = (Ret _, _) |- _ => apply must_inv in H
  | H : mret _ _ = (Ret _, _) |- _ => unfold mret, M_ret in H; simplify_eq
  | H : throw _ _ = (Ret _, _) |- _ => unfold throw in H; simplify_eq
  | H : panic _ = (Ret _, _) |- _ => unfold panic in H; simplify_eq
  end.

(** Split the boolean comparisons left by the guards of the code. *)
Ltac bool_to_prop :=
  repeat match goal with
  | H : orb _ _ = false |- _ => apply orb_false_iff in H as [??]
  | H : andb _ _ = true |- _ => apply andb_true_iff in H as [??]
  | H : negb _ = false |- _ => apply negb_false_iff in H
  | H : negb _ = true |- _ => apply negb_true_iff in H
  | H : bool_decide _ = true |- _ => apply bool_decide_eq_true in H
  | H : bool_decide _ = false |- _ => apply bool_decide_eq_false in H
  | H : (_ <? _)%Z = true |- _ => apply Z.ltb_lt in H
  | H : (_ <? _)%Z = false |- _ => apply Z.ltb_ge in H
  | H : (_ <=? _)%Z = true |- _ => apply Z.leb_le in H
  | H : (_ <=? _)%Z = false |- _ => apply Z.leb_gt in H
  | H : (_ =? _)%Z = true |- _ => apply Z.eqb_eq in H
  | H : (_ =? _)%Z = false |- _ => apply Z.eqb_neq in H
  end.

(** ** Serialisation: what the protobuf library promises to its clients. *)

Class Codec (A : Type) := {
  Encode : A → string;
  Decode : string → option A;
  Decode_Encode : ∀ a, Decode (Encode a) = Some a
}.

(** A concrete codec for every countable type: the binary digits of the
    element's number, as a string.  It shows that the law is satisfiable and
    lets examples evaluate. *)
Section CountableCodec.
Context {A : Type} `{Countable A}.

Fixpoint digits (p : positive) : string :=
  match p with
  | xH => EmptyString
  | xO p => String "0" (digits p)
  | xI p => String "1" (digits p)
  end.

Fixpoint undigits (s : string) : positive :=
  match s with
  | EmptyString => xH
  | String c s => if Ascii.eqb c "0" then xO (undigits s) else xI (undigits s)
  end.

Lemma undigits_digits p : undigits (digits p) = p.
Proof. induction p; simpl; congruence. Qed.

Definition countable_codec : Codec A.
Proof using Type*.
  refine {| Encode a := digits (encode a); Decode s := decode (undigits s) |}.
  intros a. rewrite undigits_digits. apply decode_encode.
Defined.
End CountableCodec.

(** ** Byte strings: [bytes.Compare] is the lexicographic order on bytes. *)

Abbreviation bytes := string.

Definition bytes_Compare (a b : bytes) : Z :=
  match String.compare a b with Lt => (-1)%Z | Eq => 0%Z | Gt => 1%Z end.

Definition bytes_lt (a b : bytes) : Prop := String.compare a b = Lt.

Lemma ascii_compare_eq a b : Ascii.compare a b = Eq ↔ a = b.
Proof.
  unfold Ascii.compare. rewrite N.compare_eq_iff. split; [|by intros ->].
  intros H. by rewrite <-(ascii_N_embedding a), <-(ascii_N_embedding b), H.
Qed.

Lemma string_compare_eq a b : String.compare a b = Eq ↔ a = b.
Proof.
  split; [apply String.compare_eq_iff|intros <-].
  induction a as [|c a IH]; simpl; [done|].
  by rewrite (proj2 (ascii_compare_eq c c) eq_refl).
Qed.

#[export] Instance bytes_lt_trans : Transitive bytes_lt.
Proof.
  unfold bytes_lt. intros x. induction x as [|a x IH]; intros [|b y] [|c z]; simpl; try done.
  destruct (Ascii.compare a b) eqn:Eab; destruct (Ascii.compare b c) eqn:Ebc; try done;
    repeat match goal with H : Ascii.compare _ _ = Eq |- _ => apply ascii_compare_eq in H; subst end.
  - rewrite (proj2 (ascii_compare_eq c c) eq_refl). apply IH.
  - by rewrite Ebc.
  - by rewrite Eab.
  - unfold Ascii.compare in *. rewrite N.compare_lt_iff in *.
    intros _ _. rewrite (proj2 (N.compare_lt_iff _ _)); [done|lia].
Qed.

#[export] Instance bytes_lt_irrefl : Irreflexive bytes_lt.
Proof. intros x H. unfold bytes_lt in H. by rewrite (proj2 (string_compare_eq x x) eq_refl) in H. Qed.

Lemma bytes_compare_gt a b : String.compare a b = Gt ↔ bytes_lt b a.
Proof.
  unfold bytes_lt. rewrite String.compare_antisym. destruct (String.compare b a); simpl; naive_solver.
Qed.

Lemma bytes_lt_trichotomy a b : bytes_lt a b ∨ a = b ∨ bytes_lt b a.
Proof.
  destruct (String.compare a b) eqn:E.
  - right; left. by apply string_compare_eq.
  - by left.
  - right; right. by apply bytes_compare_gt.
Qed.

(** [bytes.Compare(a, b) < 0]. *)
Definition ltb (a b : bytes) : bool := (bytes_Compare a b <? 0)%Z.

Lemma ltb_true a b : ltb a b = true ↔ bytes_lt a b.
Proof. unfold ltb, bytes_Compare, bytes_lt. destruct (String.compare a b); simpl; naive_solver. Qed.
Lemma ltb_false a b : ltb a b = false ↔ a = b ∨ bytes_lt b a.
Proof.
  split.
  - intros H. destruct (bytes_lt_trichotomy a b) as [H1|H1]; [|done].
    apply ltb_true in H1. congruence.
  - intros H. destruct (ltb a b) eqn:E; [|done]. apply ltb_true in E.
    destruct H as [->|H]; [by apply bytes_lt_irrefl in E|].
    by destruct (bytes_lt_irrefl a); etrans.
Qed.

Lemma bytes_Compare_cases a b :
  (bytes_Compare a b = (-1)%Z ∧ bytes_lt a b) ∨ (bytes_Compare a b = 0%Z ∧ a = b) ∨
  (bytes_Compare a b = 1%Z ∧ bytes_lt b a).
Proof.
  unfold bytes_Compare. destruct (String.compare a b) eqn:E.
  - right; left. split; [done|]. by apply string_compare_eq.
  - by left.
  - right; right. split; [done|]. by apply bytes_compare_gt.
Qed.

(** ** Strings: the operations of package [strings]/[bytes] the code uses. *)

Fixpoint has_char (c : ascii) (s : string) : bool :=
  match s with
  | EmptyString => false
  | String d s => Ascii.eqb d c || has_char c s
  end.

Lemma has_char_app c a b : has_char c (a ++ b) = has_char c a || has_char c b.
Proof. induction a as [|d a IH]; simpl; [done|]. by rewrite IH, orb_assoc. Qed.

(** [strings.Count(s, "c")] for a one-byte separator. *)
Fixpoint count_char (c : ascii) (s : string) : nat :=
  match s with
  | EmptyString => 0
  | String d s => (if Ascii.eqb d c then 1 else 0) + count_char c s
  end.

(** [s[n:]]. *)
Fixpoint str_drop (n : nat) (s : string) : string :=
  match n, s with
  | O, _ => s
  | S n, String _ s => str_drop n s
  | S _, EmptyString => EmptyString
  end.

(** [s[:n]]. *)
Fixpoint str_take (n : nat) (s : string) : string :=
  match n, s with
  | O, _ => EmptyString
  | S n, String c s => String c (str_take n s)
  | S _, EmptyString => EmptyString
  end.

(** [s[i:j]]. *)
Definition str_slice (i j : nat) (s : string) : string := str_take (j - i) (str_drop i s).

(** The last [n] bytes of [s]: [s[len(s)-n:]]. *)
Definition str_last (n : nat) (s : string) : string := str_drop (String.length s - n) s.

#[global] Arguments String.append !_ _ / : simpl nomatch.

Lemma str_app_assoc (a b c : string) : ((a +:+ b) +:+ c = a +:+ b +:+ c)%string.
Proof. induction a as [|x a IH]; simpl; [done|by rewrite IH]. Qed.

Lemma str_app_nil_r (a : string) : (a +:+ "" = a)%string.
Proof. induction a as [|x a IH]; simpl; [done|by rewrite IH]. Qed.

Lemma str_length_app a b : String.length (a +:+ b) = String.length a + String.length b.
Proof. induction a as [|x a IH]; simpl; [done|by rewrite IH]. Qed.

Lemma str_drop_app a b : str_drop (String.length a) (a +:+ b) = b.
Proof. by induction a. Qed.

Lemma str_drop_app_plus n a b : str_drop (String.length a + n) (a +:+ b) = str_drop n b.
Proof. by induction a. Qed.

Lemma str_take_all s n : (String.length s ≤ n)%nat → str_take n s = s.
Proof. revert n. induction s as [|c s IH]; intros [|n] H; simpl in *; try done; try lia. f_equal. apply IH. lia. Qed.

Lemma str_drop_all s n : (String.length s ≤ n)%nat → str_drop n s = ""%string.
Proof. revert n. induction s as [|c s IH]; intros [|n] H; simpl in *; try done; try lia. apply IH. lia. Qed.

Lemma str_length_drop n s : String.length (str_drop n s) = (String.length s - n)%nat.
Proof. revert n. induction s as [|c s IH]; intros [|n]; simpl; done. Qed.

Lemma str_length_take n s : String.length (str_take n s) = Nat.min n (String.length s).
Proof. revert n. induction s as [|c s IH]; intros [|n]; simpl; auto. Qed.

Lemma str_take_app a b : str_take (String.length a) (a +:+ b) = a.
Proof. induction a; simpl; [by destruct b|congruence]. Qed.

Lemma str_slice_app a b c :
  str_slice (String.length a) (String.length a + String.length b) (a +:+ b +:+ c) = b.
Proof.
  unfold str_slice. rewrite str_drop_app, Nat.add_comm, Nat.add_sub. apply str_take_app.
Qed.

Lemma str_prefix_app a b : String.prefix a (a +:+ b) = true.
Proof.
  induction a as [|x a IH]; simpl; [by destruct b|].
  destruct (ascii_dec x x); [done|congruence].
Qed.

Lemma str_prefix_drop a s : String.prefix a s = true → s = a +:+ str_drop (String.length a) s.
Proof.
  revert s. induction a as [|x a IH]; intros [|y s]; simpl; try done.
  destruct (ascii_dec x y) as [->|]; [|done]. intros H. by rewrite <-IH.
Qed.

Lemma str_app_inj_l (a b c : string) : (a +:+ b = a +:+ c)%string → b = c.
Proof. induction a; simpl; [done|]. intros H. inversion H. auto. Qed.

(** Two texts that end at the first separator [x] agree on both sides of it. *)
Lemma str_split_inj (x : ascii) (a b a' b' : string) :
  has_char x a = false → has_char x a' = false →
  (a +:+ String x b = a' +:+ String x b')%string → a = a' ∧ b = b'.
Proof.
  revert a'. induction a as [|c a IH]; intros [|d a']; simpl; intros Ha Ha' E; simplify_eq.
  - done.
  - by rewrite Ascii.eqb_refl in Ha'.
  - by rewrite Ascii.eqb_refl in Ha.
  - apply orb_false_iff in Ha as [_ Ha], Ha' as [_ Ha'].
    by destruct (IH a' Ha Ha' ltac:(assumption)) as [-> ->].
Qed.

Lemma str_last_short n s : String.length s ≤ n → str_last n s = s.
Proof. intros H. unfold str_last. by replace (String.length s - n) with 0 by lia. Qed.

(** ** Sums over a duplicate-free list of indices *)

(** ** Filters *)

Lemma filter_ext_in {A} (P R : A → Prop) `{∀ x, Decision (P x)} `{∀ x, Decision (R x)} (l : list A) :
  (∀ x, x ∈ l → P x ↔ R x) → filter P l = filter R l.
Proof.
  induction l as [|a l IH]; intros H1; [done|]. rewrite !filter_cons.
  rewrite IH by (intros x Hx; apply H1; set_solver).
  pose proof (H1 a ltac:(set_solver)). repeat case_decide; tauto.
Qed.

Lemma filter_all {A} (P : A → Prop) `{∀ x, Decision (P x)} (l : list A) : (∀ x, x ∈ l → P x) → filter P l = l.
Proof.
  induction l as [|a l IH]; intros H1; [done|]. rewrite filter_cons_True by (apply H1; set_solver).
  f_equal. apply IH. intros x Hx. apply H1. set_solver.
Qed.

Lemma filter_none {A} (P : A → Prop) `{∀ x, Decision (P x)} l : (∀ x, P x → x ∈ l → False) → filter P l = [].
Proof.
  induction l as [|a l IH]; intros Hn; [done|]. rewrite filter_cons_False.
  - apply IH. intros x Hx Hin. apply (Hn x Hx). set_solver.
  - intros Ha. apply (Hn a Ha). set_solver.
Qed.

Definition sumZ {A} (f : A → Z) (U : list A) : Z := foldr (λ a z, (f a + z)%Z) 0%Z U.

Lemma sumZ_ext {A} (f g : A → Z) U : (∀ a, a ∈ U → f a = g a) → sumZ f U = sumZ g U.
Proof.
  induction U as [|a U IH]; intros H; simpl; [done|].
  rewrite IH; [|set_solver]. by rewrite H; [|set_solver].
Qed.

(** Changing [f] at one index changes the sum by the difference. *)
Lemma sumZ_perm {A} (f : A → Z) U V : U ≡ₚ V → sumZ f U = sumZ f V.
Proof. induction 1; simpl; lia. Qed.

Lemma sumZ_update {A} (f g : A → Z) U a :
  NoDup U → a ∈ U → (∀ b, b ∈ U → b ≠ a → g b = f b) →
  sumZ g U = (sumZ f U - f a + g a)%Z.
Proof.
  induction U as [|b U IH]; intros Hnd Ha H; [set_solver|].
  apply list.NoDup_cons in Hnd as [Hb Hnd]. simpl.
  apply elem_of_cons in Ha as [->|Ha].
  - rewrite (sumZ_ext g f U); [lia|]. intros c Hc. apply H; set_solver.
  - rewrite IH; [|done|done|set_solver]. rewrite (H b); [lia|set_solver|set_solver].
Qed.

Lemma sumZ_nonneg {A} (f : A → Z) U : (∀ a, a ∈ U → 0 ≤ f a)%Z → (0 ≤ sumZ f U)%Z.
Proof.
  induction U as [|a U IH]; intros H; simpl; [done|].
  pose proof (H a ltac:(set_solver)). pose proof (IH ltac:(set_solver)). lia.
Qed.

Lemma sumZ_member {A} (f : A → Z) U a :
  (∀ b, b ∈ U → 0 ≤ f b)%Z → a ∈ U → (f a ≤ sumZ f U)%Z.
Proof.
  induction U as [|b U IH]; intros H Ha; [set_solver|]. simpl.
  pose proof (H b ltac:(set_solver)). apply elem_of_cons in Ha as [->|Ha].
  - pose proof (sumZ_nonneg f U ltac:(set_solver)). lia.
  - pose proof (IH ltac:(set_solver) Ha). lia.
Qed.
