(* ===== verification/DbIter.v ===== *)
(** Ordered databases and their iterators: the sorted listing of a finite map, the cursor of
    the goleveldb library, its wrapper [goLevelDBIt] ([common/db/go_level_db.go], shared with
    the memory database [common/db/go_mem_db.go]) and the interface [Iterator] of
    [common/db/db.go] with what an iterator promises to its clients. *)

From Stdlib Require Import Ascii String.
From Stdlib Require Import Sorted.
From stdpp Require Import sorting.
From S2P Require Import Prelude.

(** ** Key order, in both directions of iteration *)

Definition dlt (rev : bool) (a b : bytes) : Prop := if rev then bytes_lt b a else bytes_lt a b.
Definition klt (rev : bool) (p q : bytes * bytes) : Prop := dlt rev p.1 q.1.

#[export] Instance dlt_trans rev : Transitive (dlt rev).
Proof. intros x y z. destruct rev; simpl; intros H1 H2; by etrans. Qed.
#[export] Instance dlt_irrefl rev : Irreflexive (dlt rev).
Proof. intros x. destruct rev; apply bytes_lt_irrefl. Qed.
#[export] Instance klt_trans rev : Transitive (klt rev).
Proof. intros x y z. unfold klt. apply dlt_trans. Qed.
#[export] Instance klt_irrefl rev : Irreflexive (klt rev).
Proof. intros x. unfold klt. apply dlt_irrefl. Qed.
#[export] Instance bytes_lt_dec a b : Decision (bytes_lt a b).
Proof. unfold bytes_lt. apply _. Defined.
#[export] Instance dlt_dec rev a b : Decision (dlt rev a b).
Proof. unfold dlt. destruct rev; apply _. Defined.

Lemma dlt_trichotomy rev a b : dlt rev a b ∨ a = b ∨ dlt rev b a.
Proof. unfold dlt. destruct rev; destruct (bytes_lt_trichotomy a b) as [?|[?|?]]; auto. Qed.

Lemma dlt_not rev a b : ¬ dlt rev a b → a = b ∨ dlt rev b a.
Proof. destruct (dlt_trichotomy rev a b) as [?|[?|?]]; naive_solver. Qed.

(** Lists in strict key order are determined by their elements. *)
Lemma sorted_unique rev l1 l2 :
  StronglySorted (klt rev) l1 → StronglySorted (klt rev) l2 → (∀ p, p ∈ l1 ↔ p ∈ l2) → l1 = l2.
Proof.
  revert l2. induction l1 as [|p l1 IH]; intros [|q l2] H1 H2 H.
  - done.
  - exfalso. assert (q ∈ []) as Hq; [apply H; left|by apply elem_of_nil in Hq].
  - exfalso. assert (p ∈ []) as Hq; [apply H; left|by apply elem_of_nil in Hq].
  - inversion H1 as [|? ? S1 F1]; inversion H2 as [|? ? S2 F2]; subst.
    rewrite list.Forall_forall in F1, F2.
    assert (p = q) as ->.
    { assert (p ∈ q :: l2) as Hp by (apply H; left). assert (q ∈ p :: l1) as Hq by (apply H; left).
      apply elem_of_cons in Hp as [?|Hp]; [done|]. apply elem_of_cons in Hq as [?|Hq]; [done|].
      destruct (klt_irrefl rev p). etrans; [by apply F1|by apply F2]. }
    f_equal. apply IH; [done|done|]. intros p.
    assert (p ∈ q :: l1 ↔ p ∈ q :: l2) as Hp by apply H. rewrite !elem_of_cons in Hp.
    split; intros Hin.
    + destruct (proj1 Hp (or_intror Hin)) as [->|?]; [|done]. by destruct (klt_irrefl rev q); apply F1.
    + destruct (proj2 Hp (or_intror Hin)) as [->|?]; [|done]. by destruct (klt_irrefl rev q); apply F2.
Qed.

Lemma sorted_filter rev (P : bytes * bytes → Prop) `{∀ p, Decision (P p)} l :
  StronglySorted (klt rev) l → StronglySorted (klt rev) (filter P l).
Proof.
  induction 1 as [|p l Hs IH Hf]; [constructor|]. rewrite filter_cons. case_decide; [|done].
  constructor; [done|]. rewrite list.Forall_forall in *. intros q [_ Hq]%list_elem_of_filter. by apply Hf.
Qed.

Lemma sorted_reverse rev l : StronglySorted (klt rev) l → StronglySorted (klt (negb rev)) (reverse l).
Proof.
  induction 1 as [|p l Hs IH Hf]; [constructor|]. rewrite reverse_cons. apply StronglySorted_app.
  split; [|split; [done|repeat constructor]]. intros q p' Hq ->%list_elem_of_singleton.
  rewrite list.Forall_forall in Hf. apply elem_of_reverse, Hf in Hq. unfold klt, dlt in *. by destruct rev.
Qed.

Lemma sorted_drop rev n l : StronglySorted (klt rev) l → StronglySorted (klt rev) (drop n l).
Proof.
  intros H. revert n. induction H as [|p l H IH Hf]; intros [|n]; simpl; [constructor|constructor| |apply IH].
  by constructor.
Qed.

Lemma sorted_take rev n l : StronglySorted (klt rev) l → StronglySorted (klt rev) (take n l).
Proof.
  intros H. rewrite <-(take_drop n l) in H. apply StronglySorted_app in H as (_ & H & _). done.
Qed.

Lemma sorted_nodup rev l : StronglySorted (klt rev) l → NoDup l.*1.
Proof.
  induction 1 as [|p l Hs IH Hf]; simpl; constructor; [|done].
  intros (q & E & Hq)%list_elem_of_fmap. rewrite list.Forall_forall in Hf.
  apply Hf in Hq. unfold klt in Hq. rewrite E in Hq. by apply dlt_irrefl in Hq.
Qed.

(** ** The sorted listing of a finite map *)

Fixpoint kv_insert (p : bytes * bytes) (l : list (bytes * bytes)) : list (bytes * bytes) :=
  match l with
  | [] => [p]
  | q :: l' => if ltb p.1 q.1 then p :: l else q :: kv_insert p l'
  end.

Definition sorted_kvs (m : gmap bytes bytes) : list (bytes * bytes) := foldr kv_insert [] (map_to_list m).
Definition dsorted (rev : bool) (m : gmap bytes bytes) : list (bytes * bytes) :=
  if rev then reverse (sorted_kvs m) else sorted_kvs m.

Lemma kv_insert_perm p l : kv_insert p l ≡ₚ p :: l.
Proof.
  induction l as [|q l IH]; simpl; [done|]. destruct (ltb p.1 q.1); [done|].
  rewrite IH. apply Permutation_swap.
Qed.

Lemma kv_insert_sorted p l :
  p.1 ∉ l.*1 → StronglySorted (klt false) l → StronglySorted (klt false) (kv_insert p l).
Proof.
  induction l as [|q l IH]; intros Hp Hs; simpl; [repeat constructor|].
  inversion Hs as [|? ? Hs' Hf]; subst. rewrite fmap_cons, not_elem_of_cons in Hp. destruct Hp as [Hne Hp].
  destruct (ltb p.1 q.1) eqn:E.
  - apply ltb_true in E. constructor; [done|]. constructor; [done|].
    revert Hf. apply Forall_impl. intros x Hx. unfold klt in *. simpl in *. by etrans.
  - apply ltb_false in E as [E|E]; [done|]. constructor; [by apply IH|].
    rewrite list.Forall_forall in *. intros x. rewrite kv_insert_perm.
    intros [->|Hx]%elem_of_cons; [done|by apply Hf].
Qed.

Lemma sorted_kvs_perm m : sorted_kvs m ≡ₚ map_to_list m.
Proof.
  unfold sorted_kvs. induction (map_to_list m) as [|p l IH]; simpl; [done|]. by rewrite kv_insert_perm, IH.
Qed.

Lemma sorted_kvs_sorted m : StronglySorted (klt false) (sorted_kvs m).
Proof.
  unfold sorted_kvs. pose proof (NoDup_fst_map_to_list m) as Hn. revert Hn.
  induction (map_to_list m) as [|p l IH]; simpl; [constructor|]. intros [Hp Hn]%list.NoDup_cons.
  apply kv_insert_sorted; [|by apply IH]. intros (q & E & Hq)%list_elem_of_fmap. apply Hp. rewrite E.
  apply list_elem_of_fmap. exists q. split; [done|].
  assert (foldr kv_insert [] l ≡ₚ l) as Hl; [|by rewrite Hl in Hq].
  clear. induction l as [|x l IH]; simpl; [done|]. by rewrite kv_insert_perm, IH.
Qed.

Lemma dsorted_sorted rev m : StronglySorted (klt rev) (dsorted rev m).
Proof. destruct rev; [apply (sorted_reverse false)|]; apply sorted_kvs_sorted. Qed.

Lemma elem_of_dsorted rev m p : p ∈ dsorted rev m ↔ m !! p.1 = Some p.2.
Proof.
  assert (p ∈ dsorted rev m ↔ p ∈ sorted_kvs m) as ->.
  { destruct rev; simpl; [apply elem_of_reverse|done]. }
  rewrite sorted_kvs_perm. destruct p as [k v]. apply elem_of_map_to_list.
Qed.

Lemma length_dsorted rev m : length (dsorted rev m) = size m.
Proof.
  unfold dsorted. rewrite <-length_map_to_list.
  destruct rev; rewrite ?length_reverse; by rewrite sorted_kvs_perm.
Qed.

Lemma dsorted_spec rev l m :
  StronglySorted (klt rev) l → (∀ k v, (k, v) ∈ l ↔ m !! k = Some v) → l = dsorted rev m.
Proof.
  intros Hs H. apply (sorted_unique rev); [done|apply dsorted_sorted|].
  intros [k v]. rewrite H, elem_of_dsorted. done.
Qed.

Lemma dsorted_filter rev m (P : bytes * bytes → Prop) `{∀ p, Decision (P p)} :
  filter P (dsorted rev m) = dsorted rev (filter P m).
Proof.
  apply dsorted_spec; [apply sorted_filter, dsorted_sorted|]. intros k v.
  rewrite list_elem_of_filter, elem_of_dsorted, map_lookup_filter_Some. simpl. tauto.
Qed.

Lemma dsorted_reverse rev m : reverse (dsorted rev m) = dsorted (negb rev) m.
Proof. destruct rev; simpl; [apply reverse_involutive|done]. Qed.

(** ** Ranges *)

(** [bytesPrefix]: the least key above every key with the given prefix, nil if there is
    none; the last byte below 0xff is incremented and what follows it is cut. *)
Fixpoint bytesPrefix (prefix : bytes) : option bytes :=
  match prefix with
  | EmptyString => None
  | String c p =>
      match bytesPrefix p with
      | Some limit => Some (String c limit)
      | None => if (N_of_ascii c <? 255)%N then Some (String (ascii_of_N (N_of_ascii c + 1)) EmptyString) else None
      end
  end.

(** [types.EmptyValue] given as the end of a range means no end. *)
Definition EmptyValue : bytes := "FFFFFFFFemptyBVBiCj5jvE15pEiwro8TQRGnJSNsJF"%string.

(** The limit of the range of [Iterator(start, end, _)]. *)
Definition range_limit (start end_ : option bytes) : option bytes :=
  let e := match end_ with None => bytesPrefix (default ""%string start) | Some e => Some e end in
  if decide (e = Some EmptyValue) then None else e.

Definition in_slice (start limit : option bytes) (k : bytes) : bool :=
  (match start with Some s => negb (ltb k s) | None => true end) &&
  (match limit with Some l => ltb k l | None => true end).

Definition in_slice_P (start limit : option bytes) (p : bytes * bytes) : Prop := in_slice start limit p.1 = true.
#[export] Instance in_slice_dec start limit p : Decision (in_slice_P start limit p).
Proof. unfold in_slice_P. apply _. Defined.

Lemma bytes_lt_cons c d a b :
  bytes_lt (String c a) (String d b) ↔ (N_of_ascii c < N_of_ascii d)%N ∨ c = d ∧ bytes_lt a b.
Proof.
  unfold bytes_lt. simpl. unfold Ascii.compare. destruct (N.compare_spec (N_of_ascii c) (N_of_ascii d)) as [E|E|E].
  - apply (f_equal ascii_of_N) in E. rewrite !ascii_N_embedding in E. subst d.
    split; [by right|]. intros [H|[_ H]]; [lia|done].
  - split; [by left|done].
  - split; [done|]. intros [H|[-> H]]; lia.
Qed.

Lemma bytes_lt_nil a : ¬ bytes_lt a "".
Proof. by destruct a. Qed.

Lemma N_of_ascii_lt c : (N_of_ascii c < 256)%N.
Proof. apply N_ascii_bounded. Qed.

Lemma bytesPrefix_None p k : bytesPrefix p = None → (k = p ∨ bytes_lt p k) → String.prefix p k = true.
Proof.
  revert k. induction p as [|c p IH]; intros k; [by destruct k|]. simpl.
  destruct (bytesPrefix p) eqn:E; [done|]. destruct (N.ltb_spec (N_of_ascii c) 255) as [|Hc]; [done|]. intros _ Hk.
  destruct k as [|d k]; [destruct Hk as [?|Hk]; [done|by apply bytes_lt_nil in Hk]|].
  assert (c = d ∧ (k = p ∨ bytes_lt p k)) as [<- Hk'].
  { destruct Hk as [[= -> ->]|[Hk|[-> Hk]]%bytes_lt_cons]; auto. pose proof (N_of_ascii_lt d). lia. }
  cbn [String.prefix]. destruct (ascii_dec c c); [by apply IH|done].
Qed.

(** The keys with prefix [p] are those from [p] up to [bytesPrefix p]. *)
Lemma bytesPrefix_spec p k : in_slice (Some p) (bytesPrefix p) k = String.prefix p k.
Proof.
  apply eq_true_iff_eq. unfold in_slice. rewrite andb_true_iff, negb_true_iff, ltb_false.
  revert k. induction p as [|c p IH]; intros k.
  { simpl. split; [by destruct k|]. intros _. split; [|done]. destruct k; [by left|by right]. }
  destruct k as [|d k].
  { simpl. split; [|done]. intros [[?|H] _]; [done|by apply bytes_lt_nil in H]. }
  cbn [String.prefix]. destruct (ascii_dec c d) as [<-|Hne].
  - rewrite <-IH. simpl. assert (∀ a b, bytes_lt (String c a) (String c b) ↔ bytes_lt a b) as Hc.
    { intros a b. rewrite bytes_lt_cons. split; [intros [H|[_ H]]; [lia|done]|auto]. }
    rewrite Hc. destruct (bytesPrefix p) as [l|] eqn:E.
    + rewrite !ltb_true, Hc. split; intros [[H|H] ?]; auto; split; auto; [left; by simplify_eq|left; by subst].
    + split; intros [H Hl]; (split; [destruct H as [H|H]; [left; by simplify_eq|by right]|done]) || idtac.
      split; [destruct H as [->|H]; auto|].
      destruct (N.ltb_spec (N_of_ascii c) 255); [|done]. apply ltb_true, bytes_lt_cons. left.
      rewrite N_ascii_embedding by lia. lia.
  - split; [|done]. intros [[[= -> ->]|[H|[-> _]]%bytes_lt_cons] Hl]; [done| |done]. exfalso. simpl in Hl.
    destruct (bytesPrefix p) as [l|].
    + apply ltb_true, bytes_lt_cons in Hl as [Hl|[-> _]]; [lia|done].
    + destruct (N.ltb_spec (N_of_ascii c) 255); [|pose proof (N_of_ascii_lt d); lia].
      apply ltb_true, bytes_lt_cons in Hl as [Hl|[-> Hl]]; [|by apply bytes_lt_nil in Hl].
      rewrite N_ascii_embedding in Hl by lia. lia.
Qed.

(** ** The cursor of goleveldb

    A cursor stands before the first pair, on a pair, or after the last one.  [First],
    [Last], [Seek], [Next] and [Prev] report whether they ended on a pair. *)

Inductive cpos := CSOI | CAt (i : nat) | CEOI.
Record cursor := mkCursor { c_kvs : list (bytes * bytes); c_pos : cpos }.

Definition c_Valid (c : cursor) : bool := match c_pos c with CAt _ => true | _ => false end.
Definition c_to (c : cursor) (p : cpos) : bool * cursor :=
  let c' := mkCursor (c_kvs c) p in (c_Valid c', c').

Definition c_First (c : cursor) : bool * cursor :=
  match c_kvs c with [] => c_to c CEOI | _ => c_to c (CAt 0) end.
Definition c_Last (c : cursor) : bool * cursor :=
  match c_kvs c with [] => c_to c CSOI | l => c_to c (CAt (length l - 1)) end.

(** The position of the first pair whose key is not below [key]. *)
Fixpoint seek_index (key : bytes) (l : list (bytes * bytes)) : option nat :=
  match l with
  | [] => None
  | p :: l => if ltb p.1 key then S <$> seek_index key l else Some 0
  end.

Definition c_Seek (key : bytes) (c : cursor) : bool * cursor :=
  match seek_index key (c_kvs c) with Some i => c_to c (CAt i) | None => c_to c CEOI end.
Definition c_Next (c : cursor) : bool * cursor :=
  match c_pos c with
  | CSOI => c_First c
  | CAt i => if (S i <? length (c_kvs c))%nat then c_to c (CAt (S i)) else c_to c CEOI
  | CEOI => (false, c)
  end.
Definition c_Prev (c : cursor) : bool * cursor :=
  match c_pos c with
  | CEOI => c_Last c
  | CAt (S i) => c_to c (CAt i)
  | CAt O => c_to c CSOI
  | CSOI => (false, c)
  end.
Definition c_cur (c : cursor) : option (bytes * bytes) :=
  match c_pos c with CAt i => c_kvs c !! i | _ => None end.

(** ** The interface [Iterator] *)

Class Iter (I : Type) := {
  it_Rewind : I → bool * I;
  it_Seek : bytes → I → bool * I;
  it_Next : I → bool * I;
  it_Valid : I → bool;
  it_Key : I → option bytes;
  it_Value : I → bytes;
  it_Error : I → option error;
  it_IsReverse : I → bool
}.

(** What is left of a listing in direction [rev] after a seek of [key]: it goes to the least
    key not below [key], in both directions. *)
Definition seek_rest (rev : bool) (key : bytes) (l : list (bytes * bytes)) : list (bytes * bytes) :=
  if rev then
    match list.last (filter (λ p, ltb p.1 key = false) l) with
    | Some p => p :: filter (λ p, ltb p.1 key = true) l
    | None => []
    end
  else filter (λ p, ltb p.1 key = false) l.

Definition nonempty {A} (l : list A) : bool := match l with [] => false | _ => true end.

(** The promise to a client: [it_all] is the listing in the direction of the iterator,
    [it_rest] what is left of it from the current pair on. *)
Class IterSpec (I : Type) `{!Iter I} := {
  it_ok : I → Prop;
  it_rev : I → bool;
  it_all : I → list (bytes * bytes);
  it_rest : I → list (bytes * bytes);
  it_same (i i' : I) : Prop := it_ok i' ∧ it_rev i' = it_rev i ∧ it_all i' = it_all i;
  it_lands (i : I) (r : bool * I) (l : list (bytes * bytes)) : Prop :=
    it_same i r.2 ∧ it_rest r.2 = l ∧ r.1 = nonempty l;
  it_sorted i : it_ok i → StronglySorted (klt (it_rev i)) (it_all i);
  it_rest_sorted i : it_ok i → StronglySorted (klt (it_rev i)) (it_rest i);
  it_valid i : it_ok i → it_Valid i = nonempty (it_rest i);
  it_current i p l : it_ok i → it_rest i = p :: l → it_Key i = Some p.1 ∧ it_Value i = p.2;
  it_no_error i : it_ok i → it_Error i = None;
  it_rewind i : it_ok i → it_lands i (it_Rewind i) (it_all i);
  it_next i p l : it_ok i → it_rest i = p :: l → it_lands i (it_Next i) l;
  it_seek i key : it_ok i → it_lands i (it_Seek key i) (seek_rest (it_rev i) key (it_all i));
  it_seek_next i key : it_ok i → it_rev i = true → seek_rest true key (it_all i) = [] →
    it_lands i (it_Next (it_Seek key i).2) (it_all i)
}.

(** ** [goLevelDBIt] *)

Record itBase := mkItBase { b_start : option bytes; b_end : option bytes; b_reverse : bool }.

Definition checkKey (it : itBase) (key : bytes) : bool :=
  (match b_start it with Some s => 0 <=? bytes_Compare key s | None => true end)%Z &&
  (match b_end it with Some e => bytes_Compare key e <=? 0 | None => true end)%Z.

Record goLevelDBIt := mkIt { g_cur : cursor; g_base : itBase }.

Definition g_Key (it : goLevelDBIt) : option bytes := fst <$> c_cur (g_cur it).
Definition g_Value (it : goLevelDBIt) : bytes := default ""%string (snd <$> c_cur (g_cur it)).
Definition g_Valid (it : goLevelDBIt) : bool :=
  c_Valid (g_cur it) && checkKey (g_base it) (default ""%string (g_Key it)).

(** [move() && dbit.Valid()]. *)
Definition g_moved (it : goLevelDBIt) (r : bool * cursor) : bool * goLevelDBIt :=
  let it' := mkIt r.2 (g_base it) in (r.1 && g_Valid it', it').

Definition g_Next (it : goLevelDBIt) : bool * goLevelDBIt :=
  g_moved it (if b_reverse (g_base it) then c_Prev (g_cur it) else c_Next (g_cur it)).
Definition g_Rewind (it : goLevelDBIt) : bool * goLevelDBIt :=
  g_moved it (if b_reverse (g_base it) then c_Last (g_cur it) else c_First (g_cur it)).
Definition g_Seek (key : bytes) (it : goLevelDBIt) : bool * goLevelDBIt :=
  let r := c_Seek key (g_cur it) in (r.1, mkIt r.2 (g_base it)).

#[export] Instance goLevelDBIt_Iter : Iter goLevelDBIt := {|
  it_Rewind := g_Rewind;
  it_Seek := g_Seek;
  it_Next := g_Next;
  it_Valid := g_Valid;
  it_Key := g_Key;
  it_Value := g_Value;
  it_Error _ := None;
  it_IsReverse it := b_reverse (g_base it)
|}.

(** [Iterator(start, end, reverse)] of the memory database (and of leveldb). *)
Definition mem_Iterator (m : gmap bytes bytes) (start end_ : option bytes) (reverse : bool) : goLevelDBIt :=
  let limit := range_limit start end_ in
  mkIt (mkCursor (filter (in_slice_P start limit) (sorted_kvs m)) CSOI) (mkItBase start limit reverse).

(** *** It keeps its promise *)

Lemma seek_index_filter key l :
  StronglySorted (klt false) l →
  match seek_index key l with
  | Some i => (i < length l)%nat ∧ drop i l = filter (λ p, ltb p.1 key = false) l ∧
              take i l = filter (λ p, ltb p.1 key = true) l
  | None => filter (λ p, ltb p.1 key = false) l = [] ∧ filter (λ p, ltb p.1 key = true) l = l
  end.
Proof.
  induction 1 as [|p l Hs IH Hf]; [done|]. cbn [seek_index]. rewrite !filter_cons.
  destruct (ltb p.1 key) eqn:E.
  - rewrite decide_False, decide_True by done. destruct (seek_index key l) as [i|]; simpl.
    + destruct IH as (H1 & H2 & H3). split; [lia|]. by rewrite H2, H3.
    + destruct IH as [H1 H2]. by rewrite H2.
  - rewrite decide_True, decide_False by done. simpl. rewrite list.Forall_forall in Hf.
    assert (∀ q, q ∈ l → ltb q.1 key = false) as Hl.
    { intros q Hq. apply ltb_false. right. apply Hf in Hq. unfold klt in Hq. simpl in Hq.
      apply ltb_false in E as [E|E]; [by rewrite E in Hq|by etrans]. }
    split; [lia|]. rewrite filter_all by done. rewrite filter_none; [done|].
    intros q Hq Hin. by rewrite Hl in Hq.
Qed.

Section GoLevelDBIt.
Implicit Types it : goLevelDBIt.

Definition g_kvs it := c_kvs (g_cur it).
Definition g_rev it := b_reverse (g_base it).
Definition g_ok it : Prop :=
  StronglySorted (klt false) (g_kvs it) ∧ (∀ p, p ∈ g_kvs it → checkKey (g_base it) p.1 = true) ∧
  match c_pos (g_cur it) with CAt i => (i < length (g_kvs it))%nat | _ => True end.
Definition g_all it := if g_rev it then reverse (g_kvs it) else g_kvs it.
Definition g_rest it :=
  match c_pos (g_cur it) with
  | CAt i => if g_rev it then reverse (take (S i) (g_kvs it)) else drop i (g_kvs it)
  | _ => []
  end.

Lemma g_cur_at it i :
  g_ok it → c_pos (g_cur it) = CAt i →
  ∃ p, g_kvs it !! i = Some p ∧ c_cur (g_cur it) = Some p ∧
       g_rest it = p :: (if g_rev it then reverse (take i (g_kvs it)) else drop (S i) (g_kvs it)).
Proof.
  intros (_ & _ & Hi) E. rewrite E in Hi. apply lookup_lt_is_Some in Hi as [p Hp].
  exists p. split; [done|]. unfold c_cur, g_rest. rewrite E. split; [done|]. destruct (g_rev it).
  - by rewrite (take_S_r _ _ _ Hp), reverse_app.
  - by apply drop_S.
Qed.

Lemma g_valid_pos it : g_ok it → g_Valid it = c_Valid (g_cur it).
Proof.
  intros Ho. unfold g_Valid. destruct (c_Valid (g_cur it)) eqn:E; [|done]. simpl. unfold c_Valid in E.
  destruct (c_pos (g_cur it)) as [|i|] eqn:Ep; try done. destruct (g_cur_at it i Ho Ep) as (p & Hp & Hc & _).
  unfold g_Key. rewrite Hc. simpl. destruct Ho as (_ & Hk & _). apply Hk. by eapply list_elem_of_lookup_2.
Qed.

(** Moving the cursor to a position within the listing. *)
Lemma g_lands it b c l :
  g_ok it → c_kvs c = g_kvs it → b = c_Valid c →
  match c_pos c with CAt i => (i < length (g_kvs it))%nat | _ => True end →
  g_rest (mkIt c (g_base it)) = l →
  let it' := mkIt c (g_base it) in
  (g_ok it' ∧ g_rev it' = g_rev it ∧ g_all it' = g_all it) ∧ g_rest it' = l ∧
  b = nonempty l ∧ b && g_Valid it' = nonempty l.
Proof.
  intros (Hs & Hk & _) Hc -> Hp Hl it'.
  assert (g_ok it') as Ho by (unfold g_ok, g_kvs, it'; simpl; by rewrite Hc).
  assert (c_Valid c = nonempty l) as Hn.
  { rewrite <-Hl. unfold c_Valid. destruct (c_pos c) as [|i|] eqn:E.
    - unfold g_rest. simpl. by rewrite E.
    - destruct (g_cur_at it' i Ho E) as (p & _ & _ & H). unfold it' in H. by rewrite H.
    - unfold g_rest. simpl. by rewrite E. }
  split_and!; [done|done|by unfold g_all, g_kvs, it'; simpl; rewrite Hc|done|done|].
  rewrite (g_valid_pos it' Ho). simpl. by rewrite andb_diag.
Qed.

Lemma g_step_next it p l : g_ok it → g_rest it = p :: l →
  let r := if g_rev it then c_Prev (g_cur it) else c_Next (g_cur it) in
  c_kvs r.2 = g_kvs it ∧ r.1 = c_Valid r.2 ∧
  match c_pos r.2 with CAt i => (i < length (g_kvs it))%nat | _ => True end ∧
  g_rest (mkIt r.2 (g_base it)) = l.
Proof.
  intros Ho Hr. destruct (c_pos (g_cur it)) as [|i|] eqn:E; try (unfold g_rest in Hr; by rewrite E in Hr).
  destruct (g_cur_at it i Ho E) as (q & Hq & _ & H). rewrite Hr in H. injection H as <- ->.
  pose proof (lookup_lt_Some _ _ _ Hq) as Hi. unfold c_Prev, c_Next. rewrite E. unfold g_rest, g_rev at 2 3.
  destruct (g_rev it) eqn:Er; unfold g_rev in Er; simpl; rewrite ?Er.
  - destruct i as [|i]; simpl; [done|]. split_and!; [done|done|lia|].
    unfold g_rev. simpl. by rewrite Er.
  - fold (g_kvs it). destruct (Nat.ltb_spec (S i) (length (g_kvs it))); simpl.
    + unfold g_rev. simpl. by rewrite Er.
    + split_and!; [done|done|done|]. symmetry. apply drop_ge. lia.
Qed.

Lemma g_step_rewind it : g_ok it →
  let r := if g_rev it then c_Last (g_cur it) else c_First (g_cur it) in
  c_kvs r.2 = g_kvs it ∧ r.1 = c_Valid r.2 ∧
  match c_pos r.2 with CAt i => (i < length (g_kvs it))%nat | _ => True end ∧
  g_rest (mkIt r.2 (g_base it)) = g_all it.
Proof.
  intros Ho. unfold c_Last, c_First, g_all, g_rest, g_rev. fold (g_kvs it).
  destruct (b_reverse (g_base it)) eqn:Er; destruct (g_kvs it) as [|p l] eqn:El; simpl;
    unfold g_kvs; simpl; rewrite ?Er; unfold g_kvs in El; rewrite ?El; simpl; try done.
  - split_and!; [done|done|lia|]. rewrite firstn_all2; [done|]. simpl. lia.
  - split_and!; [done|done|lia|done].
Qed.

Lemma g_step_seek it key : g_ok it →
  let r := c_Seek key (g_cur it) in
  c_kvs r.2 = g_kvs it ∧ r.1 = c_Valid r.2 ∧
  match c_pos r.2 with CAt i => (i < length (g_kvs it))%nat | _ => True end ∧
  g_rest (mkIt r.2 (g_base it)) = seek_rest (g_rev it) key (g_all it).
Proof.
  intros (Hs & _). unfold c_Seek. fold (g_kvs it). pose proof (seek_index_filter key _ Hs) as H.
  unfold g_all, seek_rest, g_rest. destruct (seek_index key (g_kvs it)) as [i|]; simpl.
  - destruct H as (Hi & Hd & Ht). split_and!; [done|done|done|]. unfold g_rev, g_kvs in *. simpl.
    destruct (b_reverse (g_base it)); [|done]. apply lookup_lt_is_Some in Hi as [p Hp].
    rewrite !filter_reverse, last_reverse, <-Hd, <-Ht, (drop_S _ _ _ Hp). simpl.
    by rewrite (take_S_r _ _ _ Hp), reverse_app.
  - destruct H as [Hd Ht]. split_and!; [done|done|done|]. unfold g_rev, g_kvs in *. simpl.
    destruct (b_reverse (g_base it)); [|by rewrite Hd]. by rewrite filter_reverse, last_reverse, Hd.
Qed.
End GoLevelDBIt.

#[export] Program Instance goLevelDBIt_Spec : IterSpec goLevelDBIt := {|
  it_ok := g_ok; it_rev := g_rev; it_all := g_all; it_rest := g_rest
|}.
Next Obligation.
  intros it (Hs & _). unfold g_all. destruct (g_rev it); [by apply (sorted_reverse false)|done].
Qed.
Next Obligation.
  intros it (Hs & _). unfold g_rest. destruct (c_pos (g_cur it)) as [|i|]; [constructor| |constructor].
  destruct (g_rev it); [by apply (sorted_reverse false), sorted_take|by apply sorted_drop].
Qed.
Next Obligation.
  intros it Ho. simpl. rewrite (g_valid_pos it Ho). unfold c_Valid.
  destruct (c_pos (g_cur it)) as [|i|] eqn:E.
  - unfold g_rest. by rewrite E.
  - destruct (g_cur_at it i Ho E) as (p & _ & _ & H). by rewrite H.
  - unfold g_rest. by rewrite E.
Qed.
Next Obligation.
  intros it p l Ho Hr. simpl. destruct (c_pos (g_cur it)) as [|i|] eqn:E;
    try (unfold g_rest in Hr; by rewrite E in Hr).
  destruct (g_cur_at it i Ho E) as (q & _ & Hc & H). rewrite Hr in H. injection H as <- _.
  unfold g_Key, g_Value. by rewrite Hc.
Qed.
Next Obligation. done. Qed.
Next Obligation.
  intros it Ho. simpl. destruct (g_step_rewind it Ho) as (H1 & H2 & H3 & H4).
  unfold g_Rewind, g_moved. fold (g_rev it).
  destruct (g_lands it _ _ _ Ho H1 H2 H3 H4) as (Hs & Hr & _ & Hb). done.
Qed.
Next Obligation.
  intros it p l Ho Hl. simpl. destruct (g_step_next it p l Ho Hl) as (H1 & H2 & H3 & H4).
  unfold g_Next, g_moved. fold (g_rev it).
  destruct (g_lands it _ _ _ Ho H1 H2 H3 H4) as (Hs & Hr & _ & Hb). done.
Qed.
Next Obligation.
  intros it key Ho. simpl. destruct (g_step_seek it key Ho) as (H1 & H2 & H3 & H4).
  unfold g_Seek. destruct (g_lands it _ _ _ Ho H1 H2 H3 H4) as (Hs & Hr & Hb & _). done.
Qed.
Next Obligation.
  intros it key Ho Hrev Hn. simpl in *.
  assert (c_Seek key (g_cur it) = (false, mkCursor (g_kvs it) CEOI)) as ->.
  { unfold c_Seek. fold (g_kvs it). pose proof (seek_index_filter key _ (proj1 Ho)) as H.
    revert Hn. unfold g_all. rewrite Hrev, !filter_reverse, last_reverse.
    destruct (seek_index key (g_kvs it)) as [i|]; [|done]. destruct H as (Hi & <- & _).
    apply lookup_lt_is_Some in Hi as [p Hp]. by rewrite (drop_S _ _ _ Hp). }
  destruct (g_step_rewind it Ho) as (H1 & H2 & H3 & H4). rewrite Hrev in H1, H2, H3, H4.
  fold (g_rev it). rewrite Hrev. simpl snd.
  change (c_Prev (mkCursor (g_kvs it) CEOI)) with (c_Last (g_cur it)).
  destruct (g_lands it _ _ _ Ho H1 H2 H3 H4) as (Hs & Hr & _ & Hb). by rewrite Hrev in Hs.
Qed.

#[global] Arguments seek_rest : simpl never.

(** ** Databases that can be iterated: [IteratorDB] *)

Class IterDB (D I : Type) := {
  db_Iterator : D → option bytes → option bytes → bool → I;
  db_size : D → nat   (* a bound on the number of pairs, the fuel of loops *)
}.

(** What [Iterator] promises: the pairs of the database in the range, in key order. *)
Definition slice_of (rev : bool) (start end_ : option bytes) (m : gmap bytes bytes) : list (bytes * bytes) :=
  filter (in_slice_P start (range_limit start end_)) (dsorted rev m).

Class IterDBSpec (D I : Type) `{!IterDB D I, !Iter I, !IterSpec I} := {
  db_ok : D → Prop;
  db_map : D → gmap bytes bytes;
  db_iterator d start end_ rev : db_ok d →
    let it := db_Iterator d start end_ rev in
    it_ok it ∧ it_rev it = rev ∧ it_rest it = [] ∧ it_all it = slice_of rev start end_ (db_map d);
  db_size_bound d : (size (db_map d) ≤ db_size d)%nat
}.

#[export] Instance mem_IterDB : IterDB (gmap bytes bytes) goLevelDBIt := {|
  db_Iterator := mem_Iterator; db_size := size |}.

Lemma checkKey_slice start limit rev k :
  in_slice start limit k = true → checkKey (mkItBase start limit rev) k = true.
Proof.
  unfold in_slice, checkKey. simpl. intros [H1 H2]%andb_true_iff. apply andb_true_iff. split.
  - destruct start as [s|]; [|done]. apply negb_true_iff, ltb_false in H1. apply Z.leb_le.
    destruct (bytes_Compare_cases k s) as [[-> H]|[[-> _]|[-> _]]]; [|lia|lia].
    destruct H1 as [->|H1]; [by apply bytes_lt_irrefl in H|]. exfalso. apply (bytes_lt_irrefl k). by etrans.
  - destruct limit as [l|]; [|done]. apply ltb_true in H2. apply Z.leb_le.
    destruct (bytes_Compare_cases k l) as [[-> H]|[[-> _]|[-> H]]]; [lia|lia|].
    exfalso. apply (bytes_lt_irrefl k). by etrans.
Qed.

#[export] Program Instance mem_IterDBSpec : IterDBSpec (gmap bytes bytes) goLevelDBIt := {|
  db_ok _ := True; db_map m := m |}.
Next Obligation.
  intros m start end_ rev _ it. unfold it. simpl. unfold mem_Iterator, g_ok, g_all, g_kvs, slice_of, g_rev. simpl.
  split_and!; [apply sorted_filter, sorted_kvs_sorted| |done|done|done|].
  - intros p [Hp _]%list_elem_of_filter. by apply checkKey_slice.
  - destruct rev; [by rewrite <-filter_reverse|done].
Qed.
Next Obligation. done. Qed.

(** ** The memory database ([common/db/go_mem_db.go]) *)

Module GoMemDB.
Abbreviation DB := (gmap bytes bytes).

Definition Get (key : bytes) (db : DB) : outcome bytes :=
  match db !! key with Some v => Ret v | None => Err ErrNotFound end.
Definition Set_ (key value : bytes) : M DB unit := λ db, (Ret tt, <[key := value]> db).
Definition SetSync := Set_.

(** [memdb.Delete] reports a key that is not there. *)
Definition Delete (key : bytes) : M DB unit := λ db,
  match db !! key with Some _ => (Ret tt, delete key db) | None => (Err ErrNotFound, db) end.
Definition DeleteSync := Delete.

(** A batch: the writes in order, a nil value deletes. *)
Record memBatch := mkBatch { writes : list (bytes * option bytes); b_size : Z; b_len : Z }.

Definition len (s : bytes) : Z := Z.of_nat (String.length s).
Definition NewBatch : memBatch := mkBatch [] 0 0.
Definition batch_Set (key value : bytes) (b : memBatch) : memBatch :=
  mkBatch (writes b ++ [(key, Some value)]) (b_size b +₆₄ (len value) +₆₄ (len key)) (b_len b +₆₄ len value).
Definition batch_Delete (key : bytes) (b : memBatch) : memBatch :=
  mkBatch (writes b ++ [(key, None)]) (b_size b +₆₄ len key) (b_len b +₆₄ 1).

(** Every write is made; the error is that of the last one. *)
Fixpoint write_all (l : list (bytes * option bytes)) (err : outcome unit) : DB → outcome unit * DB := λ db,
  match l with
  | [] => (err, db)
  | (k, None) :: l => let '(err, db) := Delete k db in write_all l err db
  | (k, Some v) :: l => let '(err, db) := Set_ k v db in write_all l err db
  end.
Definition Write (b : memBatch) : M DB unit := write_all (writes b) (Ret tt).

Definition ValueSize (b : memBatch) : Z := b_size b.
Definition ValueLen (b : memBatch) : Z := b_len b.

(** [Reset] resets the database of the batch and keeps the writes. *)
Definition Reset (b : memBatch) (db : DB) : memBatch * DB := (mkBatch (writes b) 0 0, ∅).

(** The pairs [kvs], nil values deleting, applied to a finite map. *)
Definition apply_kvs (kvs : list (bytes * option bytes)) (m : DB) : DB :=
  foldl (λ m kv, match kv.2 with Some v => <[kv.1 := v]> m | None => delete kv.1 m end) m kvs.

Lemma Write_spec b db : (Write b db).2 = apply_kvs (writes b) db.
Proof.
  unfold Write, apply_kvs. generalize (Ret tt : outcome unit). revert db.
  induction (writes b) as [|[k [v|]] l IH]; intros db err; simpl; [done|apply IH|].
  unfold Delete. destruct (db !! k) eqn:E; rewrite IH; [done|]. simpl. by rewrite delete_id.
Qed.

Lemma apply_kvs_app a b m : apply_kvs (a ++ b) m = apply_kvs b (apply_kvs a m).
Proof. unfold apply_kvs. by rewrite foldl_app. Qed.

(** The last write of a key decides. *)
Fixpoint last_write (k : bytes) (kvs : list (bytes * option bytes)) : option (option bytes) :=
  match kvs with
  | [] => None
  | (k', v) :: kvs => match last_write k kvs with Some w => Some w | None => if decide (k = k') then Some v else None end
  end.

Lemma lookup_apply_kvs kvs m k :
  apply_kvs kvs m !! k = match last_write k kvs with Some w => w | None => m !! k end.
Proof.
  revert m. induction kvs as [|[k' v] kvs IH]; intros m; simpl; [done|]. unfold apply_kvs in *. simpl. rewrite IH.
  destruct (last_write k kvs) as [w|]; [done|]. case_decide as E; subst; destruct v;
    rewrite ?lookup_insert_eq, ?lookup_delete_eq; try done.
  - by rewrite lookup_insert_ne.
  - by rewrite lookup_delete_ne.
Qed.

Lemma last_write_app k a b :
  last_write k (a ++ b) = match last_write k b with Some w => Some w | None => last_write k a end.
Proof. induction a as [|[k' v] a IH]; simpl; [by destruct (last_write k b)|]. rewrite IH. by destruct (last_write k b). Qed.

Lemma last_write_None k kvs : last_write k kvs = None ↔ k ∉ kvs.*1.
Proof.
  induction kvs as [|[k' v] kvs IH]; simpl; [set_solver|]. rewrite not_elem_of_cons.
  destruct (last_write k kvs); [|case_decide]; naive_solver.
Qed.

Lemma last_write_Some k w kvs : last_write k kvs = Some w → (k, w) ∈ kvs.
Proof.
  induction kvs as [|[k' v] kvs IH]; simpl; [done|]. destruct (last_write k kvs); [intros [= ->]; right; by apply IH|].
  case_decide; [|done]. intros [= ->]. subst. left.
Qed.
End GoMemDB.
