(* ===== verification/ListHelper.v ===== *)
(** Listing the pairs of a database: [ListHelper] of [common/db/list_helper.go] over any
    iterable database, and the interface [KVDB] with its plain implementation [KVDBList]
    ([common/db/db.go]).  The specification [list_ref] says what [List] returns in terms of
    the sorted listing of the database. *)

From Stdlib Require Import Ascii String.
From Stdlib Require Import Sorted.
From stdpp Require Import sorting.
From S2P Require Import Prelude DbIter.
Local Open Scope Z_scope.

Definition ListDESC : Z := 0.
Definition ListASC : Z := 1.
Definition ListSeek : Z := 2.

Section ListHelper.
Context {D I : Type} `{!IterDB D I, !Iter I}.

(** [for ; it.Valid(); it.Next() { ... }]: the body may leave the loop. *)
Fixpoint for_each {St} (fuel : nat) (body : I → St → bool * St) (it : I) (s : St) : St :=
  match fuel with
  | O => s
  | S fuel =>
      if it_Valid it then
        let '(stop, s) := body it s in
        if (stop : bool) then s else for_each fuel body (it_Next it).2 s
      else s
  end.

(** The bodies of the loops: an error of the iterator gives up with nothing. *)
Definition collect (it : I) (values : list bytes) : bool * list bytes :=
  match it_Error it with
  | Some _ => (true, [])
  | None => (false, values ++ [it_Value it])
  end.

Definition collect_count (count : Z) (it : I) (s : Z * list bytes) : bool * (Z * list bytes) :=
  match it_Error it with
  | Some _ => (true, (s.1, []))
  | None => let i := s.1 +₃₂ 1 in (i =? count, (i, s.2 ++ [it_Value it]))
  end.

Definition PrefixScan (d : D) (prefix : bytes) : list bytes :=
  let it := db_Iterator d (Some prefix) None false in
  for_each (S (db_size d)) collect (it_Rewind it).2 [].

Definition IteratorScan (d : D) (prefix key : bytes) (count direction : Z) : list bytes :=
  let it := db_Iterator d (Some prefix) None (direction =? 0) in
  let it := (it_Seek key it).2 in
  if negb (it_Valid it) then []
  else (for_each (S (db_size d)) (collect_count count) (it_Next it).2 (0, [])).2.

Definition IteratorScanFromFirst (d : D) (prefix : bytes) (count : Z) : list bytes :=
  let it := db_Iterator d (Some prefix) None false in
  (for_each (S (db_size d)) (collect_count count) (it_Rewind it).2 (0, [])).2.

Definition IteratorScanFromLast (d : D) (prefix : bytes) (count : Z) : list bytes :=
  let it := db_Iterator d (Some prefix) None true in
  (for_each (S (db_size d)) (collect_count count) (it_Rewind it).2 (0, [])).2.

(** A nil and an empty result are the same list: every branch returns nil exactly when it
    has nothing. *)
Definition List (d : D) (prefix key : bytes) (count direction : Z) : list bytes :=
  if decide (key = ""%string) then
    if direction =? ListASC then IteratorScanFromFirst d prefix count
    else IteratorScanFromLast d prefix count
  else if (count =? 1) && (direction =? ListSeek) then
    let it := db_Iterator d (Some prefix) None true in
    let '(flag, it) := it_Seek key it in
    if negb flag || negb (bool_decide (it_Key it = Some key)) then
      let it := (it_Next it).2 in
      if negb (it_Valid it) then [] else [default ""%string (it_Key it); it_Value it]
    else [default ""%string (it_Key it); it_Value it]
  else IteratorScan d prefix key count direction.

Definition count_body (it : I) (count : Z) : bool * Z :=
  match it_Error it with Some _ => (true, 0) | None => (false, count +₆₄ 1) end.

Definition PrefixCount (d : D) (prefix : bytes) : Z :=
  let it := db_Iterator d (Some prefix) None true in
  for_each (S (db_size d)) count_body (it_Rewind it).2 0.

(** [IteratorCallback]: [fn] may stop the loop and has a state of its own. *)
Definition callback_body {St} (end_ : option bytes) (reserse : bool) (count : Z)
    (fn : bytes → bytes → St → bool * St) (it : I) (s : Z * St) : bool * (Z * St) :=
  match it_Error it with
  | Some _ => (true, s)
  | None =>
      let key := default ""%string (it_Key it) in
      if match end_ with
         | Some e => let cmp := bytes_Compare key e in
                     (negb reserse && (0 <? cmp)) || (reserse && (cmp <? 0))
         | None => false
         end
      then (true, s)
      else
        let '(stop, st) := fn key (it_Value it) s.2 in
        if (stop : bool) then (true, (s.1, st)) else let i := s.1 +₃₂ 1 in (i =? count, (i, st))
  end.

Definition IteratorCallback {St} (d : D) (start end_ : option bytes) (count direction : Z)
    (fn : bytes → bytes → St → bool * St) (st : St) : St :=
  let reserse := direction =? 0 in
  let it := db_Iterator d start end_ reserse in
  (for_each (S (db_size d)) (callback_body end_ reserse count fn) (it_Rewind it).2 (0, st)).2.
End ListHelper.

(** ** Reference: listing by filtering the sorted pairs *)

Definition take_count {A} (count : Z) (l : list A) : list A := if 0 <? count then take (Z.to_nat count) l else l.

Definition list_ref (m : gmap bytes bytes) (prefix key : bytes) (count direction : Z) : list bytes :=
  let listing rev := slice_of rev (Some prefix) None m in
  if decide (key = ""%string) then take_count count (listing (negb (direction =? ListASC))).*2
  else if (count =? 1) && (direction =? ListSeek) then
    match filter (λ p, ltb key p.1 = false) (listing true) with
    | p :: _ => [p.1; p.2]
    | [] => []
    end
  else
    let rev := direction =? ListDESC in
    take_count count (tail (seek_rest rev key (listing rev))).*2.

(** ** [ListHelper] meets it *)

Fixpoint each {A St} (fn : A → St → bool * St) (l : list A) (s : St) : St :=
  match l with
  | [] => s
  | p :: l => let '(stop, s) := fn p s in if (stop : bool) then s else each fn l s
  end.

Lemma each_collect (l : list (bytes * bytes)) vals :
  each (λ (p : bytes * bytes) vals, (false, vals ++ [p.2])) l vals = vals ++ l.*2.
Proof.
  revert vals. induction l as [|p l IH]; intros vals; simpl; [by rewrite app_nil_r|].
  rewrite IH. by rewrite <-app_assoc.
Qed.

Lemma each_collect_count (l : list (bytes * bytes)) count i vals :
  0 <= i → i + Z.of_nat (length l) < 2 ^ 31 → (0 < count → i < count) →
  (each (λ (p : bytes * bytes) (s : Z * list bytes),
           let i := s.1 +₃₂ 1 in (i =? count, (i, s.2 ++ [p.2]))) l (i, vals)).2 =
    vals ++ (if 0 <? count then take (Z.to_nat (count - i)) l.*2 else l.*2).
Proof.
  revert i vals. induction l as [|p l IH]; intros i vals Hi Hl Hc.
  { simpl. destruct (0 <? count); [rewrite take_nil|]; by rewrite app_nil_r. }
  simpl length in Hl. cbn [each fst snd]. rewrite wrap32_id by (unfold in32; lia).
  cbv zeta. destruct (Z.eqb_spec (i + 1) count) as [E|E].
  - simpl. rewrite (proj2 (Z.ltb_lt _ _)) by lia. by replace (Z.to_nat (count - i)) with 1%nat by lia.
  - rewrite IH by lia. rewrite <-app_assoc. f_equal. simpl.
    destruct (Z.ltb_spec 0 count); [|done].
    by replace (Z.to_nat (count - i)) with (S (Z.to_nat (count - (i + 1)))) by lia.
Qed.

Section Spec.
Context {D I : Type} `{!IterDB D I, !Iter I, !IterSpec I, !IterDBSpec D I}.

Lemma for_each_spec {St} fuel (body : I → St → bool * St) (fn : bytes * bytes → St → bool * St) it s :
  it_ok it → (length (it_rest it) ≤ fuel)%nat →
  (∀ it p l s, it_ok it → it_rest it = p :: l → body it s = fn p s) →
  for_each fuel body it s = each fn (it_rest it) s.
Proof using Type*.
  intros Ho Hf Hb. revert it s Ho Hf. induction fuel as [|fuel IH]; intros it s Ho Hf; simpl.
  { destruct (it_rest it); [done|simpl in Hf; lia]. }
  rewrite (it_valid it Ho). destruct (it_rest it) as [|p l] eqn:E; [done|]. simpl.
  rewrite (Hb it p l s Ho E). destruct (fn p s) as [[] s']; [done|].
  destruct (it_next it p l Ho E) as ((Ho' & _) & Hr & _). rewrite IH, Hr; [done|done|simpl in Hf; rewrite Hr; lia].
Qed.

Lemma db_slice_length d rev start end_ : (length (slice_of rev start end_ (db_map d)) ≤ db_size d)%nat.
Proof using Type*.
  pose proof (db_size_bound d). unfold slice_of.
  etrans; [apply length_filter|]. by rewrite length_dsorted.
Qed.

(** Scanning from where the iterator stands. *)
Lemma scan_count d (it : I) count l :
  it_ok it → it_rest it = l → (length l ≤ db_size d)%nat → Z.of_nat (db_size d) < 2 ^ 31 →
  (for_each (S (db_size d)) (collect_count count) it (0, [])).2 = take_count count l.*2.
Proof using Type*.
  intros Ho Hl Hd H31. rewrite (for_each_spec _ _ (λ p (s : Z * list bytes),
    let i := s.1 +₃₂ 1 in (i =? count, (i, s.2 ++ [p.2])))); [|done|rewrite Hl; lia|].
  - rewrite Hl. rewrite each_collect_count by lia. unfold take_count.
    by rewrite Z.sub_0_r.
  - intros it' p l' s Ho' Hr. unfold collect_count. rewrite (it_no_error it' Ho').
    by destruct (it_current it' p l' Ho' Hr) as [_ ->].
Qed.

(** The largest key not above [key] comes first among those not above it. *)
Lemma filter_le_split key l :
  StronglySorted (klt true) l →
  filter (λ p, ltb key p.1 = false) l =
    filter (λ p, p.1 = key) l ++ filter (λ p, ltb p.1 key = true) l.
Proof using Type.
  intros Hs. apply (sorted_unique true).
  - by apply sorted_filter.
  - apply StronglySorted_app. split_and!; [|by apply sorted_filter..].
    intros x y [Hx _]%list_elem_of_filter [Hy _]%list_elem_of_filter. unfold klt. simpl. rewrite Hx.
    by apply ltb_true.
  - intros p. rewrite elem_of_app, !list_elem_of_filter, ltb_true, ltb_false. naive_solver.
Qed.

Lemma seek_rest_true key l :
  StronglySorted (klt true) l →
  match seek_rest true key l with
  | [] => filter (λ p, ltb key p.1 = false) l = l
  | p :: l' => l' = filter (λ p, ltb p.1 key = true) l ∧
      filter (λ q, ltb key q.1 = false) l = (if decide (p.1 = key) then [p] else []) ++ l'
  end.
Proof using Type.
  intros Hs. unfold seek_rest. destruct (list.last (filter (λ p, ltb p.1 key = false) l)) as [p|] eqn:E.
  - split; [done|]. rewrite filter_le_split by done. f_equal.
    apply last_Some in E as (l0 & E).
    assert (p ∈ filter (λ p, ltb p.1 key = false) l) as [Hp Hin]%list_elem_of_filter by (rewrite E; set_solver).
    assert (∀ q, q ∈ l → q.1 = key → q = p) as Hu.
    { intros q Hq Hk. assert (q ∈ filter (λ p, ltb p.1 key = false) l) as Hq'.
      { apply list_elem_of_filter. split; [|done]. rewrite Hk. apply ltb_false. by left. }
      rewrite E in Hq'. apply elem_of_app in Hq' as [Hq'|Hq']; [|set_solver]. exfalso.
      pose proof (sorted_filter true (λ p, ltb p.1 key = false) l Hs) as Hs'. rewrite E in Hs'.
      apply StronglySorted_app in Hs' as (Hs' & _). assert (klt true q p) as Hqp by (apply Hs'; [done|set_solver]).
      unfold klt in Hqp. simpl in Hqp. rewrite Hk in Hqp. apply ltb_true in Hqp. congruence. }
    apply (sorted_unique true); [by apply sorted_filter|case_decide; repeat constructor|].
    intros q. rewrite list_elem_of_filter. case_decide as Hk.
    + rewrite list_elem_of_singleton. split; [intros [? ?]; by apply Hu|by intros ->].
    + split; [|by intros ?%elem_of_nil]. intros [Hq Hin']. by rewrite (Hu q Hin' Hq) in Hq.
  - apply last_None in E. apply filter_all. intros p Hp. apply ltb_false. right. apply ltb_true.
    destruct (ltb p.1 key) eqn:El; [done|]. exfalso.
    assert (p ∈ filter (λ p, ltb p.1 key = false) l) as Hin by (by apply list_elem_of_filter).
    rewrite E in Hin. by apply elem_of_nil in Hin.
Qed.

(** What [List] returns, on every branch. *)
Lemma List_spec d prefix key count direction :
  db_ok d → Z.of_nat (db_size d) < 2 ^ 31 →
  List d prefix key count direction = list_ref (db_map d) prefix key count direction.
Proof using Type*.
  intros Hdb H31. unfold List, list_ref.
  assert (∀ rev, let it := db_Iterator d (Some prefix) None rev in
            (for_each (S (db_size d)) (collect_count count) (it_Rewind it).2 (0, [])).2 =
            take_count count (slice_of rev (Some prefix) None (db_map d)).*2) as Hscan.
  { intros rev it. destruct (db_iterator d (Some prefix) None rev Hdb) as (Ho & _ & _ & Ha). fold it in Ho, Ha.
    destruct (it_rewind it Ho) as ((Ho' & _) & Hr & _). rewrite Ha in Hr.
    apply scan_count; [done|done|apply db_slice_length|done]. }
  case_decide as Hk; [destruct (direction =? ListASC); apply Hscan|].
  destruct ((count =? 1) && (direction =? ListSeek)).
  - set (it := db_Iterator d (Some prefix) None true).
    destruct (db_iterator d (Some prefix) None true Hdb) as (Ho & Hrev & _ & Ha). fold it in Ho, Hrev, Ha.
    pose proof (it_seek it key Ho) as Hseek. pose proof (it_seek_next it key Ho Hrev) as Hmiss.
    pose proof (it_sorted it Ho) as Hs. rewrite Hrev, Ha in *.
    pose proof (seek_rest_true key _ Hs) as Hf. destruct (it_Seek key it) as [flag it1]. simpl in Hmiss.
    destruct Hseek as ((Ho1 & _) & Hr1 & Hb). simpl in Ho1, Hr1, Hb.
    destruct (seek_rest true key (slice_of true (Some prefix) None (db_map d))) as [|p l']; simpl in Hb; subst flag; simpl.
    + destruct (Hmiss eq_refl) as ((Ho2 & _) & Hr2 & _). rewrite Hf, (it_valid _ Ho2), Hr2.
      destruct (slice_of _ _ _ _) as [|q l]; [done|]. simpl.
      by destruct (it_current _ _ _ Ho2 Hr2) as [-> ->].
    + destruct (it_current _ _ _ Ho1 Hr1) as [Hkey Hval]. rewrite Hkey, Hval. destruct Hf as [_ ->].
      destruct (decide (p.1 = key)) as [<-|Hne].
      * by rewrite bool_decide_true.
      * rewrite bool_decide_false by naive_solver. simpl.
        destruct (it_next _ _ _ Ho1 Hr1) as ((Ho2 & _) & Hr2 & _). rewrite (it_valid _ Ho2), Hr2.
        destruct l' as [|q l]; [done|]. simpl. by destruct (it_current _ _ _ Ho2 Hr2) as [-> ->].
  - unfold IteratorScan. change (direction =? ListDESC) with (direction =? 0).
    set (rev := direction =? 0). set (it := db_Iterator d (Some prefix) None rev).
    destruct (db_iterator d (Some prefix) None rev Hdb) as (Ho & Hrev & _ & Ha). fold it in Ho, Hrev, Ha.
    destruct (it_seek it key Ho) as ((Ho1 & _) & Hr1 & _). rewrite Hrev, Ha in Hr1.
    pose proof (it_sorted it Ho) as Hs. rewrite Hrev, Ha in Hs.
    rewrite (it_valid _ Ho1), Hr1. destruct (seek_rest rev key _) as [|p l] eqn:E.
    { unfold take_count. simpl. by destruct (0 <? count), (Z.to_nat count). }
    destruct (it_next _ _ _ Ho1 Hr1) as ((Ho2 & _) & Hr2 & _).
    cbn [tail nonempty negb]. apply scan_count; [done|done| |done].
    assert (length (seek_rest rev key (slice_of rev (Some prefix) None (db_map d))) ≤ S (db_size d))%nat as Hlen;
      [|rewrite E in Hlen; simpl in Hlen; lia].
    pose proof (db_slice_length d rev (Some prefix) None).
    unfold seek_rest. destruct rev; [destruct (list.last _); simpl|]; 
      pose proof (length_filter (λ p, ltb p.1 key = true) (slice_of true (Some prefix) None (db_map d)));
      pose proof (length_filter (λ p, ltb p.1 key = false) (slice_of false (Some prefix) None (db_map d))); lia.
Qed.

Lemma PrefixScan_spec d prefix :
  db_ok d → PrefixScan d prefix = (slice_of false (Some prefix) None (db_map d)).*2.
Proof using Type*.
  intros Hdb. unfold PrefixScan. set (it := db_Iterator d (Some prefix) None false).
  destruct (db_iterator d (Some prefix) None false Hdb) as (Ho & _ & _ & Ha). fold it in Ho, Ha.
  destruct (it_rewind it Ho) as ((Ho' & _) & Hr & _). rewrite Ha in Hr.
  rewrite (for_each_spec _ _ (λ p vals, (false, vals ++ [p.2]))); [|done| |].
  - by rewrite Hr, each_collect.
  - rewrite Hr. pose proof (db_slice_length d false (Some prefix) None). lia.
  - intros it' p l' s Ho'' Hr'. unfold collect. rewrite (it_no_error it' Ho'').
    by destruct (it_current it' p l' Ho'' Hr') as [_ ->].
Qed.

Lemma PrefixCount_spec d prefix :
  db_ok d → Z.of_nat (db_size d) < 2 ^ 31 →
  PrefixCount d prefix = Z.of_nat (length (slice_of true (Some prefix) None (db_map d))).
Proof using Type*.
  intros Hdb H31. unfold PrefixCount. set (it := db_Iterator d (Some prefix) None true).
  destruct (db_iterator d (Some prefix) None true Hdb) as (Ho & _ & _ & Ha). fold it in Ho, Ha.
  destruct (it_rewind it Ho) as ((Ho' & _) & Hr & _). rewrite Ha in Hr.
  pose proof (db_slice_length d true (Some prefix) None) as Hlen.
  rewrite (for_each_spec _ _ (λ _ count, (false, count +₆₄ 1))); [|done|rewrite Hr; lia|].
  - rewrite Hr. revert Hlen. generalize (slice_of true (Some prefix) None (db_map d)). intros l Hl.
    assert (∀ c, 0 <= c → c + Z.of_nat (length l) < 2 ^ 63 →
              each (λ _ count, (false, count +₆₄ 1)) l c = c + Z.of_nat (length l)) as H; [|rewrite H; lia].
    clear Hl. induction l as [|p l IH]; intros c Hc H63; simpl in *; [lia|].
    rewrite wrap64_id by (unfold in64; lia). rewrite IH; lia.
  - intros it' p l' s Ho'' Hr'. unfold count_body. by rewrite (it_no_error it' Ho'').
Qed.
End Spec.

(** A range given by a prefix is the set of the keys with that prefix. *)
Lemma slice_prefix rev p m :
  bytesPrefix p ≠ Some EmptyValue →
  slice_of rev (Some p) None m = filter (λ q, String.prefix p q.1 = true) (dsorted rev m).
Proof.
  intros Hp. unfold slice_of, range_limit. simpl. rewrite decide_False by done.
  apply filter_ext_in. intros q _. unfold in_slice_P. by rewrite bytesPrefix_spec.
Qed.

(** ** [KVDB] *)

(** A key-value database with listing, read without changing it. *)
Class KVDB (D : Type) := {
  kvdb_Get : D → bytes → outcome bytes;
  kvdb_List : D → bytes → bytes → Z → Z → outcome (list bytes)
}.

(** It is a finite map [m]: an empty listing may be reported as an error. *)
Class KVDBSpec (D : Type) `{!KVDB D} := {
  kvdb_is : D → gmap bytes bytes → Prop;
  kvdb_get d m k : kvdb_is d m → kvdb_Get d k = match m !! k with Some v => Ret v | None => Err ErrNotFound end;
  kvdb_list d m prefix key count direction : kvdb_is d m →
    kvdb_List d prefix key count direction =
      match list_ref m prefix key count direction with [] => Err ErrNotFound | l => Ret l end
}.

(** [KVDBList] of [common/db/db.go] over the memory database. *)
#[export] Instance KVDBList : KVDB (gmap bytes bytes) := {|
  kvdb_Get d k := GoMemDB.Get k d;
  kvdb_List d prefix key count direction :=
    match List d prefix key count direction with [] => Err ErrNotFound | vals => Ret vals end
|}.

#[export] Program Instance KVDBList_Spec : KVDBSpec (gmap bytes bytes) := {|
  kvdb_is d m := d = m ∧ Z.of_nat (size m) < 2 ^ 31
|}.
Next Obligation. by intros d m k [-> _]. Qed.
Next Obligation. intros d m prefix key count direction [-> H]. simpl. by rewrite (List_spec m). Qed.
