(* ===== verification/MergeIter.v ===== *)
(** Merging databases: [mergedIterator] and [mergedIteratorDB] of [common/db/merge_iter.go]
    over any iterators, and that merging is the union of the databases in which the earlier
    database hides the later ones. *)

From Stdlib Require Import Ascii String.
From Stdlib Require Import Sorted.
From stdpp Require Import sorting.
From S2P Require Import Prelude DbIter ListHelper.

Inductive mdir := dirReleased | dirSOI | dirEOI | dirForward | dirSeek.

Definition ErrIterReleased : error := ErrOther "ErrIterReleased".

Section MergedIterator.
Context {I : Type} `{!Iter I}.

Record mergedIterator := mkMerged {
  m_iters : list I;
  m_reverse : bool;
  m_keys : list (option bytes);
  m_prevKey : option bytes;
  m_index : nat;
  m_dir : mdir;
  m_err : option error
}.
Implicit Types i : mergedIterator.

Definition set_dir i (d : mdir) : mergedIterator :=
  mkMerged (m_iters i) (m_reverse i) (m_keys i) (m_prevKey i) (m_index i) d (m_err i).
Definition set_err i (e : option error) : mergedIterator :=
  mkMerged (m_iters i) (m_reverse i) (m_keys i) (m_prevKey i) (m_index i) (m_dir i) e.
Definition set_prevKey i (k : option bytes) : mergedIterator :=
  mkMerged (m_iters i) (m_reverse i) (m_keys i) k (m_index i) (m_dir i) (m_err i).
Definition set_iters i (r : list I * list (option bytes) * option error) : mergedIterator :=
  mkMerged r.1.1 (m_reverse i) r.1.2 (m_prevKey i) (m_index i) (m_dir i) r.2.

Definition m_Valid i : bool :=
  match m_err i, m_dir i with None, (dirForward | dirSeek) => true | _, _ => false end.

Definition m_Key i : option bytes :=
  if m_Valid i then default None (m_keys i !! m_index i) else None.

Definition m_Value i : bytes :=
  if m_Valid i then match m_iters i !! m_index i with Some it => it_Value it | None => ""%string end
  else ""%string.

Definition compare (reverse : bool) (tkey key : option bytes) (ignoreReverse : bool) : Z :=
  let cmp := bytes_Compare (default ""%string tkey) (default ""%string key) in
  if ignoreReverse then cmp
  else match tkey, key with
       | None, Some _ => 1
       | Some _, None => -1
       | _, _ => if reverse then - cmp else cmp
       end.

(** The loop of [next]: the first least key. *)
Fixpoint pick (reverse ignoreReverse : bool) (keys : list (option bytes)) (x : nat) (key : option bytes) (index : nat)
  : option bytes * nat :=
  match keys with
  | [] => (key, index)
  | tkey :: keys =>
      if bool_decide (tkey ≠ None) && (bool_decide (key = None) || (compare reverse tkey key ignoreReverse <? 0)%Z)
      then pick reverse ignoreReverse keys (S x) tkey x
      else pick reverse ignoreReverse keys (S x) key index
  end.

Definition next (ignoreReverse : bool) i : bool * mergedIterator :=
  let '(key, index) := pick (m_reverse i) ignoreReverse (m_keys i) 0 None (m_index i) in
  let i := mkMerged (m_iters i) (m_reverse i) (m_keys i) (m_prevKey i) index (m_dir i) (m_err i) in
  match key with
  | None => (false, set_dir i dirEOI)
  | Some _ =>
      let i := match m_dir i with dirSOI => set_prevKey i key | _ => i end in
      (true, set_dir i dirForward)
  end.

(** The loops over the merged iterators: those selected are moved and their key is noted,
    nil when they are exhausted; an error of one stops the loop.  ([assertKey] panics on a
    nil key of an iterator that has just moved onto a pair; no iterator has one.) *)
Fixpoint reposition (move : I → bool * I) (sel : nat → bool) (x : nat) (iters : list I) (keys : list (option bytes))
  : list I * list (option bytes) * option error :=
  match iters, keys with
  | it :: iters, k :: keys =>
      if sel x then
        let '(b, it) := move it in
        if (b : bool) then
          let '(iters, keys, e) := reposition move sel (S x) iters keys in (it :: iters, it_Key it :: keys, e)
        else match it_Error it with
             | Some e => (it :: iters, k :: keys, Some e)
             | None => let '(iters, keys, e) := reposition move sel (S x) iters keys in (it :: iters, None :: keys, e)
             end
      else let '(iters, keys, e) := reposition move sel (S x) iters keys in (it :: iters, k :: keys, e)
  | _, _ => (iters, keys, None)
  end.

Definition moved (move : I → bool * I) (sel : nat → bool) i : mergedIterator :=
  set_iters i (reposition move sel 0 (m_iters i) (m_keys i)).

(** [if i.err != nil { ... } else if i.dir == dirReleased { ... }]: may the iterator move? *)
Definition usable i : bool * mergedIterator :=
  match m_err i, m_dir i with
  | Some _, _ => (false, i)
  | None, dirReleased => (false, set_err i (Some ErrIterReleased))
  | None, _ => (true, i)
  end.

Definition m_Rewind i : bool * mergedIterator :=
  let '(ok, i) := usable i in
  if negb ok then (false, i)
  else
    let i := moved it_Rewind (λ _, true) i in
    match m_err i with Some _ => (false, i) | None => next false (set_dir i dirSOI) end.

Definition m_Seek (key : bytes) i : bool * mergedIterator :=
  let '(ok, i) := usable i in
  if negb ok then (false, i)
  else
    let i := moved (it_Seek key) (λ _, true) i in
    match m_err i with
    | Some _ => (false, i)
    | None =>
        let '(b, i) := next true (set_dir i dirSOI) in
        if (b : bool) then (true, set_dir i dirSeek) else (false, set_dir i dirSOI)
    end.

(** After a seek in reverse the other iterators are taken below the key. *)
Definition below (key : bytes) (it : I) : bool * I :=
  let '(seek, it) := it_Seek key it in
  if (seek : bool) then it_Next it else it_Rewind it.

(** Moved, and whether by a rewind. *)
Definition nextInternal i : (bool * bool) * mergedIterator :=
  match m_dir i with
  | dirEOI => ((false, false), i)
  | _ =>
      let '(ok, i) := usable i in
      if negb ok then ((false, false), i)
      else
        match m_dir i with
        | dirSOI => let '(b, i) := m_Rewind i in ((b, true), i)
        | _ =>
            let i := match m_dir i with
                     | dirSeek =>
                         if m_reverse i then
                           let key := default ""%string (default None (m_keys i !! m_index i)) in
                           moved (below key) (λ x, negb (x =? m_index i)%nat) i
                         else i
                     | _ => i
                     end in
            match m_err i with
            | Some _ => ((false, false), i)
            | None =>
                let i := moved it_Next (λ x, (x =? m_index i)%nat) i in
                match m_err i with
                | Some _ => ((false, false), i)
                | None => let '(b, i) := next false i in ((b, false), i)
                end
            end
        end
  end.

(** Keys already seen are skipped; each pass advances an iterator that stands on the key
    seen last, so that as many passes as there are iterators are enough. *)
Fixpoint next_loop (fuel : nat) i : bool * mergedIterator :=
  match fuel with
  | O => (false, i)
  | S fuel =>
      let '((ok, isrewind), i) := nextInternal i in
      if negb ok then (false, i)
      else if (isrewind : bool) then (true, i)
      else if negb (compare (m_reverse i) (m_Key i) (m_prevKey i) true =? 0)%Z
           then (true, set_prevKey i (m_Key i))
           else next_loop fuel i
  end.
Definition m_Next i : bool * mergedIterator := next_loop (S (length (m_iters i))) i.

Definition m_Close i : mergedIterator :=
  match m_dir i with
  | dirReleased => i
  | _ => mkMerged [] (m_reverse i) [] (m_prevKey i) (m_index i) dirReleased (m_err i)
  end.

(** [NewMergedIterator]: the directions must agree.  The embedded [itBase] is left at its
    zero value, so that [IsReverse] of the result is false. *)
Definition NewMergedIterator (iters : list I) : outcome mergedIterator :=
  let new reverse := mkMerged iters reverse (replicate (length iters) None) None 0 dirSOI None in
  match iters with
  | it0 :: it1 :: _ =>
      if forallb (λ it, eqb (it_IsReverse it0) (it_IsReverse it)) (tail iters) then Ret (new (it_IsReverse it0))
      else Panic
  | _ => Ret (new true)
  end.

#[export] Instance mergedIterator_Iter : Iter mergedIterator := {|
  it_Rewind := m_Rewind;
  it_Seek := m_Seek;
  it_Next := m_Next;
  it_Valid := m_Valid;
  it_Key := m_Key;
  it_Value := m_Value;
  it_Error := m_err;
  it_IsReverse _ := false
|}.
End MergedIterator.
Arguments mergedIterator : clear implicits.

(** ** The union of listings *)

Definition umap (ls : list (list (bytes * bytes))) : gmap bytes bytes :=
  foldr (λ l m, list_to_map l ∪ m) ∅ ls.

Lemma lookup_umap_cons l ls k :
  umap (l :: ls) !! k = match (list_to_map l : gmap bytes bytes) !! k with Some v => Some v | None => umap ls !! k end.
Proof. simpl. rewrite lookup_union. by destruct (list_to_map l !! k), (umap ls !! k). Qed.

Lemma umap_Some ls k v : umap ls !! k = Some v → ∃ x l, ls !! x = Some l ∧ (k, v) ∈ l.
Proof.
  induction ls as [|l ls IH]; [done|]. rewrite lookup_umap_cons.
  destruct (list_to_map l !! k) as [w|] eqn:E.
  - intros [= ->]. exists 0, l. split; [done|]. by apply elem_of_list_to_map_2.
  - intros H. destruct (IH H) as (x & l' & ? & ?). by exists (S x), l'.
Qed.

Lemma umap_None ls k : umap ls !! k = None ↔ ∀ x l, ls !! x = Some l → k ∉ l.*1.
Proof.
  induction ls as [|l ls IH]; [done|]. rewrite lookup_umap_cons.
  destruct (list_to_map l !! k) as [w|] eqn:E.
  - split; [done|]. intros H. destruct (H 0 l eq_refl).
    apply elem_of_list_to_map_2 in E. apply list_elem_of_fmap. by exists (k, w).
  - apply not_elem_of_list_to_map_2 in E. rewrite IH. split.
    + intros H [|x] l' Hx; simpl in Hx; [by simplify_eq|by eapply H].
    + intros H x l' Hx. by apply (H (S x)).
Qed.

(** The first listing that has the key decides. *)
Lemma umap_first ls x l k v :
  Forall (λ l, NoDup l.*1) ls → ls !! x = Some l → (k, v) ∈ l →
  (∀ y l', (y < x)%nat → ls !! y = Some l' → k ∉ l'.*1) → umap ls !! k = Some v.
Proof.
  revert x. induction ls as [|l0 ls IH]; intros x Hn Hx Hin Hfirst; [done|].
  apply Forall_cons_1 in Hn as [Hn0 Hn]. rewrite lookup_umap_cons. destruct x as [|x]; simpl in Hx.
  - simplify_eq. by rewrite (elem_of_list_to_map_1 l k v Hn0 Hin).
  - rewrite not_elem_of_list_to_map_1 by (apply (Hfirst 0); [lia|done]).
    apply (IH x); [done|done|done|]. intros y l' Hy Hl. apply (Hfirst (S y)); [lia|done].
Qed.

Lemma umap_ext ls ls' k :
  length ls = length ls' →
  (∀ x l l', ls !! x = Some l → ls' !! x = Some l' →
     (list_to_map l : gmap bytes bytes) !! k = (list_to_map l' : gmap bytes bytes) !! k) →
  umap ls !! k = umap ls' !! k.
Proof.
  revert ls'. induction ls as [|l ls IH]; intros [|l' ls'] Hlen H; try done.
  rewrite !lookup_umap_cons, (H 0 l l' eq_refl eq_refl). rewrite (IH ls'); [done|by injection Hlen|].
  intros x. apply (H (S x)).
Qed.

Lemma list_to_map_filter (P : bytes * bytes → Prop) `{∀ p, Decision (P p)} (l : list (bytes * bytes)) :
  NoDup l.*1 → (list_to_map (filter P l) : gmap bytes bytes) = filter P (list_to_map l : gmap bytes bytes).
Proof.
  intros Hn. apply map_eq. intros k. apply option_eq. intros v.
  rewrite map_lookup_filter_Some. rewrite <-!elem_of_list_to_map.
  - rewrite list_elem_of_filter. tauto.
  - done.
  - apply (sublist_NoDup _ (l.*1)); [done|]. apply fmap_sublist, sublist_filter.
Qed.

(** Restricting by keys commutes with the union. *)
Lemma umap_filter (P : bytes * bytes → Prop) `{∀ p, Decision (P p)} ls :
  (∀ k v w, P (k, v) → P (k, w)) → Forall (λ l, NoDup l.*1) ls →
  umap (filter P <$> ls) = filter P (umap ls).
Proof.
  intros HP Hn. apply map_eq. intros k. induction Hn as [|l ls Hl Hls IH]; [done|].
  rewrite fmap_cons, lookup_umap_cons, IH, list_to_map_filter by done.
  apply option_eq. intros v. rewrite map_lookup_filter_Some, lookup_umap_cons.
  destruct (decide (P (k, v))) as [Hk|Hk].
  - destruct (list_to_map l !! k) as [w|] eqn:E.
    + rewrite (proj2 (map_lookup_filter_Some _ _ _ w)) by (split; [done|by eapply HP]). naive_solver.
    + rewrite map_lookup_filter_None_2 by (by left). rewrite map_lookup_filter_Some. tauto.
  - rewrite map_lookup_filter_None_2 by (right; intros w _ Hw; apply Hk; by eapply HP).
    rewrite map_lookup_filter_None_2 by (right; intros w _ Hw; apply Hk; by eapply HP).
    naive_solver.
Qed.

Lemma dsorted_head rev (m : gmap bytes bytes) k v :
  m !! k = Some v → (∀ k' v', m !! k' = Some v' → k' = k ∨ dlt rev k k') →
  dsorted rev m = (k, v) :: dsorted rev (delete k m).
Proof.
  intros Hk Hmin. symmetry. apply dsorted_spec.
  - constructor; [apply dsorted_sorted|]. apply list.Forall_forall. intros [k' v'].
    rewrite elem_of_dsorted, lookup_delete_Some. simpl. intros [Hne Hk'].
    destruct (Hmin k' v' Hk') as [->|H]; done.
  - intros k' v'. rewrite elem_of_cons, elem_of_dsorted, lookup_delete_Some. simpl.
    split; [intros [[= -> ->]|[_ H]]; done|].
    intros H. destruct (decide (k' = k)) as [->|Hne]; [left; congruence|right; split; [congruence|done]].
Qed.

Lemma dsorted_empty rev m : dsorted rev m = [] ↔ m = ∅.
Proof.
  rewrite <-length_zero_iff_nil, length_dsorted. apply map_size_empty_iff.
Qed.

(** ** Choosing the least key *)

Definition order (reverse ignoreReverse : bool) : bool := if ignoreReverse then false else reverse.

Lemma compare_lt r a b ign :
  (compare r (Some a) (Some b) ign <? 0)%Z = bool_decide (dlt (order r ign) a b).
Proof.
  apply eq_true_iff_eq. rewrite Z.ltb_lt, bool_decide_eq_true. unfold compare, order, dlt. simpl.
  destruct (bytes_Compare_cases a b) as [[E H]|[[E ->]|[E H]]]; rewrite E; destruct ign, r; simpl;
    (split; [intros ?; (lia || done)|]); intros H'; try lia;
    exfalso; try (by apply bytes_lt_irrefl in H'); apply (bytes_lt_irrefl a); by etrans.
Qed.

Lemma compare_eq r a b : compare r (Some a) (Some b) true = 0%Z ↔ a = b.
Proof.
  unfold compare. simpl. destruct (bytes_Compare_cases a b) as [[E H]|[[E ->]|[E H]]]; rewrite E; split; try done; try lia;
    intros ->; by apply bytes_lt_irrefl in H.
Qed.

(** [k] is least among [keys] and [x] its first position. *)
Definition least (o : bool) (keys : list (option bytes)) (k : bytes) (x : nat) : Prop :=
  keys !! x = Some (Some k) ∧
  (∀ y k', keys !! y = Some (Some k') → k' = k ∨ dlt o k k') ∧
  (∀ y, (y < x)%nat → keys !! y ≠ Some (Some k)).

Lemma pick_from r ign keys : ∀ pre key index,
  match key with
  | None => Forall (λ k, k = None) pre
  | Some k => least (order r ign) pre k index
  end →
  match pick r ign keys (length pre) key index with
  | (None, j) => Forall (λ k, k = None) (pre ++ keys)
  | (Some k, j) => least (order r ign) (pre ++ keys) k j
  end.
Proof.
  induction keys as [|tk keys IH]; intros pre key index Hpre; simpl.
  { rewrite app_nil_r. by destruct key. }
  assert (length (pre ++ [tk]) = S (length pre)) as Hlen by (rewrite length_app; simpl; lia).
  assert (pre ++ tk :: keys = (pre ++ [tk]) ++ keys) as -> by (by rewrite <-app_assoc).
  assert ((pre ++ [tk]) !! length pre = Some tk) as Hat by (by apply list_lookup_middle).
  rewrite <-Hlen.
  destruct (bool_decide (tk ≠ None) && (bool_decide (key = None) || (compare r tk key ign <? 0)%Z)) eqn:E.
  - apply IH. destruct tk as [k|]; [|done]. split; [done|]. destruct key as [k0|].
    + simpl in E. rewrite compare_lt in E. apply bool_decide_eq_true in E. destruct Hpre as (_ & Hm & _). split.
      * intros y k' Hy. apply lookup_app_Some in Hy as [Hy|[_ Hy]].
        -- apply Hm in Hy as [->|Hy]; right; [done|by etrans].
        -- apply list_lookup_singleton_Some in Hy as [_ [= ->]]. by left.
      * intros y Hy Hyk. rewrite lookup_app_l in Hyk by done. destruct (Hm y k Hyk) as [->|H].
        -- by apply dlt_irrefl in E.
        -- apply (dlt_irrefl (order r ign) k). by etrans.
    + split.
      * intros y k' Hy. apply lookup_app_Some in Hy as [Hy|[_ Hy]].
        -- rewrite list.Forall_forall in Hpre. apply list_elem_of_lookup_2, Hpre in Hy. done.
        -- apply list_lookup_singleton_Some in Hy as [_ [= ->]]. by left.
      * intros y Hy Hyk. rewrite lookup_app_l in Hyk by done.
        rewrite list.Forall_forall in Hpre. apply list_elem_of_lookup_2, Hpre in Hyk. done.
  - apply IH. destruct key as [k|].
    + destruct Hpre as (Hx & Hm & Hf). pose proof (lookup_lt_Some _ _ _ Hx).
      split; [by rewrite lookup_app_l|]. split.
      * intros y k' Hy. apply lookup_app_Some in Hy as [Hy|[_ Hy]]; [by eapply Hm|].
        apply list_lookup_singleton_Some in Hy as [_ ->]. simpl in E.
        rewrite compare_lt in E. apply bool_decide_eq_false, dlt_not in E as [->|?]; auto.
      * intros y Hy. rewrite lookup_app_l by lia. by apply Hf.
    + apply Forall_app. split; [done|]. destruct tk; [done|by repeat constructor].
Qed.

Lemma pick_spec r ign keys index :
  match pick r ign keys 0 None index with
  | (None, j) => Forall (λ k, k = None) keys
  | (Some k, j) => least (order r ign) keys k j
  end.
Proof. apply (pick_from r ign keys []). constructor. Qed.

Lemma least_unique o keys k x k' x' : least o keys k x → least o keys k' x' → k = k' ∧ x = x'.
Proof.
  intros (H1 & H2 & H3) (G1 & G2 & G3).
  assert (k = k') as ->.
  { destruct (H2 _ _ G1) as [->|A]; [done|]. destruct (G2 _ _ H1) as [->|B]; [done|].
    destruct (dlt_irrefl o k). by etrans. }
  split; [done|]. destruct (lt_eq_lt_dec x x') as [[?|?]|?]; [|done|]; [by destruct (G3 x)|by destruct (H3 x')].
Qed.

(** ** Seeking in a sorted listing *)

Lemma seek_rest_ext rev t k l :
  (∀ p, p ∈ l → ltb p.1 t = ltb p.1 k) → seek_rest rev t l = seek_rest rev k l.
Proof.
  intros H. unfold seek_rest.
  rewrite (filter_ext_in (λ p, ltb p.1 t = false) (λ p, ltb p.1 k = false)) by (intros p Hp; by rewrite (H p Hp)).
  rewrite (filter_ext_in (λ p, ltb p.1 t = true) (λ p, ltb p.1 k = true)) by (intros p Hp; by rewrite (H p Hp)).
  done.
Qed.

Lemma seek_rest_nil rev t l : seek_rest rev t l = [] → ∀ p, p ∈ l → ltb p.1 t = true.
Proof.
  intros H p Hp. destruct (ltb p.1 t) eqn:E; [done|]. exfalso.
  assert (p ∈ filter (λ p, ltb p.1 t = false) l) as Hin by (by apply list_elem_of_filter).
  unfold seek_rest in H. destruct rev; [|rewrite H in Hin; by apply elem_of_nil in Hin].
  destruct (list.last _) eqn:El; [done|]. apply last_None in El. rewrite El in Hin. by apply elem_of_nil in Hin.
Qed.

(** The pair found is not below the key sought and least among those. *)
Lemma seek_rest_found t l p r :
  StronglySorted (klt true) l → seek_rest true t l = p :: r →
  p ∈ l ∧ r = filter (λ q, ltb q.1 t = true) l ∧ ∀ q, q ∈ l → ltb q.1 t = ltb q.1 p.1.
Proof.
  intros Hs H. unfold seek_rest in H. destruct (list.last _) as [p'|] eqn:E; [|done]. injection H as -> <-.
  apply last_Some in E as (l0 & E).
  assert (p ∈ filter (λ p, ltb p.1 t = false) l) as [Hp Hin]%list_elem_of_filter by (rewrite E; set_solver).
  split; [done|]. split; [done|]. intros q Hq. destruct (ltb q.1 t) eqn:Eq.
  - symmetry. apply ltb_true. apply ltb_true in Eq. apply ltb_false in Hp as [->|Hp]; [done|by etrans].
  - symmetry. apply ltb_false. assert (q ∈ filter (λ p, ltb p.1 t = false) l) as Hf by (by apply list_elem_of_filter).
    rewrite E in Hf. apply elem_of_app in Hf as [Hf|Hf]; [|set_solver].
    apply (sorted_filter true (λ p, ltb p.1 t = false)) in Hs. rewrite E in Hs.
    apply StronglySorted_app in Hs as (Hs & _). right. by apply (Hs q p Hf (list_elem_of_here _ _)).
Qed.

Lemma seek_rest_at k v l :
  StronglySorted (klt true) l → (k, v) ∈ l → seek_rest true k l = (k, v) :: filter (λ q, ltb q.1 k = true) l.
Proof.
  intros Hs Hin. destruct (seek_rest true k l) as [|p r] eqn:E.
  - apply (seek_rest_nil _ _ _ E) in Hin. simpl in Hin. apply ltb_true, bytes_lt_irrefl in Hin. done.
  - destruct (seek_rest_found _ _ _ _ Hs E) as (Hp & -> & Hq). f_equal.
    assert (p.1 = k) as Hk.
    { assert (ltb k k = false) as Hkk by (apply ltb_false; by left).
      assert (p ∈ seek_rest true k l) as Hpk by (rewrite E; left).
      pose proof (Hq _ Hin) as H1. simpl in H1. rewrite Hkk in H1. symmetry in H1.
      pose proof (Hq _ Hp) as H2. rewrite (proj2 (ltb_false p.1 p.1)) in H2 by (by left).
      apply ltb_false in H1 as [->|H1]; [done|]. apply ltb_false in H2 as [->|H2]; [done|].
      exfalso. apply (bytes_lt_irrefl k). by etrans. }
    pose proof (sorted_nodup _ _ Hs) as Hn. destruct p as [k' v']. simpl in Hk. subst k'. f_equal.
    apply (elem_of_list_to_map_1 (M:=gmap bytes) _ _ _ Hn) in Hin.
    apply (elem_of_list_to_map_1 (M:=gmap bytes) _ _ _ Hn) in Hp. congruence.
Qed.

Lemma count_insert {A} (P : A → Prop) `{∀ a, Decision (P a)} (l : list A) x a b :
  l !! x = Some a → P a → ¬ P b → S (length (filter P (<[x:=b]> l))) = length (filter P l).
Proof.
  intros Hx Ha Hb. pose proof (lookup_lt_Some _ _ _ Hx). rewrite insert_take_drop by done.
  rewrite <-(take_drop_middle l x a Hx) at 3. rewrite !list.filter_app, !filter_cons.
  rewrite decide_False, decide_True by done. rewrite !length_app. simpl. lia.
Qed.

(** ** The merged iterator keeps the promise of an iterator *)

Section Spec.
Context {I : Type} `{!Iter I, !IterSpec I}.
Implicit Types i : mergedIterator I.

Definition head_key (it : I) : option bytes := fst <$> head (it_rest it).

Definition sel_rest (R : I → list (bytes * bytes)) (sel : nat → bool) (x : nat) (it : I) : list (bytes * bytes) :=
  if sel x then R it else it_rest it.

Lemma reposition_spec move (sel : nat → bool) (R : I → list (bytes * bytes)) its : ∀ x keys,
  Forall it_ok its → length keys = length its →
  (∀ y it, its !! y = Some it →
     if sel (x + y) then it_lands it (move it) (R it) else keys !! y = Some (head_key it)) →
  ∃ its', reposition move sel x its keys = (its', head_key <$> its', None) ∧
    Forall2 it_same its its' ∧ it_rest <$> its' = imap (λ y, sel_rest R sel (x + y)) its.
Proof using Type*.
  induction its as [|it its IH]; intros x [|k keys] Hok Hlen H; try done.
  { exists []. by repeat constructor. }
  apply Forall_cons_1 in Hok as [Ho Hok]. injection Hlen as Hlen. pose proof (H 0 it eq_refl) as H0.
  destruct (IH (S x) keys Hok Hlen) as (its' & E & Hs & Hr).
  { intros y it' Hy. pose proof (H (S y) it' Hy) as HS. by rewrite Nat.add_succ_r in HS. }
  assert (imap (λ y, sel_rest R sel (S x + y)) its = imap ((λ y, sel_rest R sel (x + y)) ∘ S) its) as Him.
  { apply imap_ext. intros y it' _. simpl. by rewrite Nat.add_succ_r. }
  cbn [reposition]. rewrite imap_cons. unfold sel_rest at 1. rewrite Nat.add_0_r in *. destruct (sel x).
  - destruct H0 as (Hsame & Hrest & Hb). destruct (move it) as [b it']. simpl in Hsame, Hrest, Hb.
    destruct Hsame as (Ho' & ?). exists (it' :: its'). split; [|split; [by constructor|by rewrite fmap_cons, Hrest, Hr, Him]].
    rewrite E, (it_no_error it' Ho'), fmap_cons. unfold head_key. subst b.
    destruct (it_rest it') as [|p l] eqn:Er; rewrite <-Hrest; simpl; [done|].
    by destruct (it_current it' p l Ho' Er) as [-> _].
  - exists (it :: its'). rewrite E. simpl in H0. injection H0 as ->.
    split; [done|]. split; [by repeat constructor|]. by rewrite fmap_cons, Hr, Him.
Qed.

Definition rests (its : list I) : list (list (bytes * bytes)) := it_rest <$> its.
Definition alls (its : list I) : list (list (bytes * bytes)) := it_all <$> its.

Definition inner_ok i : Prop := Forall (λ it, it_ok it ∧ it_rev it = m_reverse i) (m_iters i).

(** On a pair: [k] is the least key left, [m_index] the first iterator that has it. *)
Definition standing i : Prop :=
  m_keys i = head_key <$> m_iters i ∧
  ∃ k, least (m_reverse i) (m_keys i) k (m_index i) ∧ m_prevKey i = Some k.

(** After a seek in reverse: every iterator is where the seek of [t] took it. *)
Definition sought i : Prop :=
  m_keys i = head_key <$> m_iters i ∧
  ∃ k t, least false (m_keys i) k (m_index i) ∧ m_prevKey i = Some k ∧
    rests (m_iters i) = seek_rest true t <$> alls (m_iters i).

Definition m_ok i : Prop :=
  m_err i = None ∧ inner_ok i ∧ length (m_keys i) = length (m_iters i) ∧
  match m_dir i with
  | dirReleased => False
  | dirSOI | dirEOI => True
  | dirForward => standing i
  | dirSeek => if m_reverse i then sought i else standing i
  end.

Definition m_all i : list (bytes * bytes) := dsorted (m_reverse i) (umap (alls (m_iters i))).
Definition m_rest i : list (bytes * bytes) :=
  match m_dir i with
  | dirForward => dsorted (m_reverse i) (umap (rests (m_iters i)))
  | dirSeek =>
      if m_reverse i then seek_rest true (default ""%string (m_prevKey i)) (m_all i)
      else dsorted (m_reverse i) (umap (rests (m_iters i)))
  | _ => []
  end.

(** The merged iterators keep their listings. *)
Lemma same_alls its its' : Forall2 it_same its its' → alls its' = alls its.
Proof using Type*.
  unfold alls. induction 1 as [|it it' its its' (_ & _ & H) _ IH]; [done|]. by rewrite !fmap_cons, H, IH.
Qed.

Lemma same_inner i its' : inner_ok i → Forall2 it_same (m_iters i) its' →
  Forall (λ it, it_ok it ∧ it_rev it = m_reverse i) its'.
Proof using Type*.
  unfold inner_ok. intros H. induction 1 as [|it it' its its' (Ho & Hr & _) _ IH]; [constructor|].
  apply Forall_cons_1 in H as [[_ H1] H2]. constructor; [|by apply IH]. by rewrite Hr.
Qed.

Lemma inner_rests_sorted i : inner_ok i → Forall (StronglySorted (klt (m_reverse i))) (rests (m_iters i)).
Proof using Type*.
  intros H. unfold rests. apply Forall_fmap. revert H. apply Forall_impl. intros it [Ho <-].
  by apply it_rest_sorted.
Qed.

Lemma inner_alls_sorted i : inner_ok i → Forall (StronglySorted (klt (m_reverse i))) (alls (m_iters i)).
Proof using Type*.
  intros H. unfold alls. apply Forall_fmap. revert H. apply Forall_impl. intros it [Ho <-].
  by apply it_sorted.
Qed.

Lemma sorted_nodups rev ls : Forall (StronglySorted (klt rev)) ls → Forall (λ l : list (bytes * bytes), NoDup l.*1) ls.
Proof using Type. apply Forall_impl. intros l. apply sorted_nodup. Qed.

(** A least head is the least key of all that is left, with the value of the iterator that
    has it first. *)
Lemma least_head rev (its : list I) k x :
  Forall (StronglySorted (klt rev)) (rests its) →
  least rev (head_key <$> its) k x →
  ∃ it v l, its !! x = Some it ∧ it_rest it = (k, v) :: l ∧
    umap (rests its) !! k = Some v ∧ (∀ k' v', umap (rests its) !! k' = Some v' → k' = k ∨ dlt rev k k').
Proof using Type*.
  intros Hs (Hx & Hmin & Hfirst). apply list_lookup_fmap_Some in Hx as (it & Hk & Hx).
  assert (∀ y it' p l, its !! y = Some it' → it_rest it' = p :: l → ∀ q, q ∈ l → dlt rev p.1 q.1) as Hlater.
  { intros y it' p l Hy Hr q Hq. rewrite list.Forall_forall in Hs. specialize (Hs (it_rest it')). rewrite Hr in Hs.
    assert (StronglySorted (klt rev) (p :: l)) as HS.
    { apply Hs. rewrite <-Hr. apply list_elem_of_fmap. exists it'. split; [done|]. by eapply list_elem_of_lookup_2. }
    inversion HS as [|? ? _ HF]; subst. rewrite list.Forall_forall in HF. by apply HF. }
  assert (∀ y it' p, its !! y = Some it' → p ∈ it_rest it' → p.1 = k ∨ dlt rev k p.1) as Hall.
  { intros y it' p Hy Hp. destruct (it_rest it') as [|q l] eqn:Er; [by apply elem_of_nil in Hp|].
    assert ((head_key <$> its) !! y = Some (Some q.1)) as Hq.
    { rewrite list_lookup_fmap, Hy. simpl. unfold head_key. by rewrite Er. }
    apply elem_of_cons in Hp as [->|Hp]; [by apply (Hmin y)|].
    pose proof (Hlater y it' q l Hy Er p Hp). right. apply Hmin in Hq as [<-|Hq]; [done|by etrans]. }
  unfold head_key in Hk. destruct (it_rest it) as [|[k0 v] l] eqn:Er; [done|]. simpl in Hk. injection Hk as <-.
  exists it, v, l. split; [done|]. split; [done|]. split.
  - apply (umap_first (rests its) x ((k, v) :: l)).
    + by eapply sorted_nodups.
    + unfold rests. by rewrite list_lookup_fmap, Hx, <-Er.
    + by left.
    + intros y l' Hy Hl' Hin. apply list_lookup_fmap_Some in Hl' as (it' & -> & Hy').
      apply list_elem_of_fmap in Hin as ([k' v'] & E & Hin). simpl in E. subst k'.
      apply (Hfirst y Hy). rewrite list_lookup_fmap, Hy'. simpl. unfold head_key.
      destruct (it_rest it') as [|q l'] eqn:Er'; [by apply elem_of_nil in Hin|]. simpl.
      apply elem_of_cons in Hin as [<-|Hin]; [done|]. exfalso.
      pose proof (Hlater y it' q l' Hy' Er' _ Hin) as Hlt. simpl in Hlt.
      destruct (Hall y it' q Hy') as [Eq|Hq]; [rewrite Er'; by left| |].
      * rewrite Eq in Hlt. by apply dlt_irrefl in Hlt.
      * apply (dlt_irrefl rev k). by etrans.
  - intros k' v' (y & l' & Hl' & Hin)%umap_Some. apply list_lookup_fmap_Some in Hl' as (it' & -> & Hy').
    by apply (Hall y it' (k', v')).
Qed.

Lemma heads_none (its : list I) : Forall (λ k, k = None) (head_key <$> its) → umap (rests its) = ∅.
Proof using Type*.
  intros H. apply map_empty. intros k. apply umap_None. intros x l Hl.
  apply list_lookup_fmap_Some in Hl as (it & -> & Hx). rewrite list.Forall_forall in H.
  assert (head_key it = None) as Hn by (apply H, list_elem_of_fmap; exists it; split; [done|by eapply list_elem_of_lookup_2]).
  unfold head_key in Hn. destruct (it_rest it); [|done]. simpl. intros Hk. by apply elem_of_nil in Hk.
Qed.

Lemma next_cases ign i :
  m_keys i = head_key <$> m_iters i →
  (Forall (λ k, k = None) (m_keys i) ∧ ∃ j,
     next ign i = (false, mkMerged (m_iters i) (m_reverse i) (m_keys i) (m_prevKey i) j dirEOI (m_err i))) ∨
  (∃ k j, least (order (m_reverse i) ign) (m_keys i) k j ∧
     next ign i = (true, mkMerged (m_iters i) (m_reverse i) (m_keys i)
       (match m_dir i with dirSOI => Some k | _ => m_prevKey i end) j dirForward (m_err i))).
Proof using Type*.
  intros Hk. unfold next. pose proof (pick_spec (m_reverse i) ign (m_keys i) (m_index i)) as H.
  destruct (pick (m_reverse i) ign (m_keys i) 0 None (m_index i)) as [[k|] j].
  - right. exists k, j. split; [done|]. simpl. destruct (m_dir i); done.
  - left. split; [done|]. by exists j.
Qed.

(** The iterators have been moved to [ls] and the least key is chosen. *)
Definition placed i its' (p : option bytes) (j : nat) (d : mdir) : mergedIterator I :=
  mkMerged its' (m_reverse i) (head_key <$> its') p j d None.

Definition m_same i i' : Prop := m_ok i' ∧ m_reverse i' = m_reverse i ∧ m_all i' = m_all i.
Definition m_lands i (r : bool * mergedIterator I) (l : list (bytes * bytes)) : Prop :=
  m_same i r.2 ∧ m_rest r.2 = l ∧ r.1 = nonempty l.

Lemma placed_same i its' p j d :
  inner_ok i → Forall2 it_same (m_iters i) its' →
  (match d with
   | dirReleased => False
   | dirSOI | dirEOI => True
   | dirForward => standing (placed i its' p j d)
   | dirSeek => if m_reverse i then sought (placed i its' p j d) else standing (placed i its' p j d)
   end) →
  m_same i (placed i its' p j d).
Proof using Type*.
  intros Hi Hs Hd. split; [|split; [done|]].
  - split; [done|]. split; [by apply (same_inner i)|]. split; [by simpl; rewrite length_fmap|done].
  - unfold m_all. simpl. by rewrite (same_alls _ _ Hs).
Qed.

Lemma nonempty_dsorted rev m k v : m !! k = Some v → nonempty (dsorted rev m) = true.
Proof using Type.
  intros H. destruct (dsorted rev m) as [|p l] eqn:E; [|done]. apply dsorted_empty in E. subst. done.
Qed.

Lemma choose_forward ign i its' p :
  inner_ok i → Forall2 it_same (m_iters i) its' → order (m_reverse i) ign = m_reverse i →
  m_lands i (next ign (placed i its' p (m_index i) dirSOI)) (dsorted (m_reverse i) (umap (rests its'))).
Proof using Type*.
  intros Hi Hs Ho.
  destruct (next_cases ign (placed i its' p (m_index i) dirSOI) eq_refl) as [(Hn & j & ->)|(k & j & Hl & ->)];
    simpl in *.
  - rewrite (heads_none _ Hn), (proj2 (dsorted_empty _ _) eq_refl). split; [|done]. by apply placed_same.
  - rewrite Ho in Hl. split; [apply placed_same; [done|done|]|split; [done|]].
    + split; [done|]. by exists k.
    + simpl. symmetry. destruct (least_head (m_reverse i) its' k j) as (it & v & l & _ & _ & Hv & _); [|done|].
      * apply (inner_rests_sorted (placed i its' p j dirSOI)). by apply (same_inner i).
      * by eapply nonempty_dsorted.
Qed.

Lemma inner_ok_all i : inner_ok i → Forall it_ok (m_iters i).
Proof using Type*. apply Forall_impl. tauto. Qed.

Lemma imap_const {A B} (f : A → B) (l : list A) : imap (λ _, f) l = f <$> l.
Proof using Type. induction l as [|a l IH]; [done|]. rewrite imap_cons, fmap_cons. by f_equal. Qed.

(** All iterators moved, from any position. *)
Lemma moved_all move i (R : I → list (bytes * bytes)) :
  inner_ok i → length (m_keys i) = length (m_iters i) →
  (∀ it, it_ok it → it_rev it = m_reverse i → it_lands it (move it) (R it)) →
  ∃ its', Forall2 it_same (m_iters i) its' ∧ rests its' = R <$> m_iters i ∧
    moved move (λ _, true) i = placed i its' (m_prevKey i) (m_index i) (m_dir i).
Proof using Type*.
  intros Hi Hlen Hm. unfold moved.
  destruct (reposition_spec move (λ _, true) R (m_iters i) 0 (m_keys i)) as (its' & E & Hs & Hr);
    [by apply inner_ok_all|done| |].
  - intros y it Hy. unfold inner_ok in Hi. rewrite list.Forall_forall in Hi.
    apply list_elem_of_lookup_2, Hi in Hy as [Ho Hv]. by apply Hm.
  - exists its'. split; [done|]. split; [|by rewrite E].
    unfold rests. rewrite Hr. apply (imap_const R).
Qed.

Lemma m_usable i : m_ok i → usable i = (true, i).
Proof using Type*. intros (He & _ & _ & Hd). unfold usable. rewrite He. by destruct (m_dir i). Qed.

Lemma rewind_lands i : m_ok i → m_lands i (m_Rewind i) (m_all i).
Proof using Type*.
  intros Ho. unfold m_Rewind. rewrite (m_usable i Ho). destruct Ho as (He & Hi & Hlen & _). cbn [negb].
  destruct (moved_all it_Rewind i it_all Hi Hlen) as (its' & Hs & Hr & ->).
  { intros it Hit _. by apply it_rewind. }
  simpl. pose proof (choose_forward false i its' (m_prevKey i) Hi Hs eq_refl) as H. rewrite Hr in H.
  exact H.
Qed.

(** No key of the union lies between a key sought and the least of the heads. *)
Lemma heads_no_gap (ls : list (list (bytes * bytes))) t k j :
  Forall (StronglySorted (klt true)) ls →
  least false ((λ l, fst <$> head (seek_rest true t l)) <$> ls) k j →
  ltb k t = false ∧ ∀ x l p, ls !! x = Some l → p ∈ l → ltb p.1 t = ltb p.1 k.
Proof using Type.
  intros Hs (Hj & Hmin & _).
  assert (∀ x l q r, ls !! x = Some l → seek_rest true t l = q :: r → ltb q.1 t = false) as Hge.
  { intros x l q r Hx E. rewrite list.Forall_forall in Hs.
    destruct (seek_rest_found t l q r) as (Hq & _ & Hgap); [apply Hs; by eapply list_elem_of_lookup_2|done|].
    rewrite (Hgap q Hq). apply ltb_false. by left. }
  assert (ltb k t = false) as Hk.
  { apply list_lookup_fmap_Some in Hj as (l & E & Hj). destruct (seek_rest true t l) as [|q r] eqn:El; [done|].
    injection E as ->. by eapply Hge. }
  split; [done|]. intros x l p Hx Hp. destruct (ltb p.1 t) eqn:E.
  - symmetry. apply ltb_true. apply ltb_true in E. apply ltb_false in Hk as [->|Hk]; [done|by etrans].
  - destruct (seek_rest true t l) as [|q r] eqn:El; [by rewrite (seek_rest_nil _ _ _ El p Hp) in E|].
    rewrite list.Forall_forall in Hs.
    destruct (seek_rest_found t l q r) as (Hq & _ & Hgap); [apply Hs; by eapply list_elem_of_lookup_2|done|].
    rewrite (Hgap p Hp) in E. symmetry. apply ltb_false.
    assert (q.1 = k ∨ dlt false k q.1) as Hkq by (apply (Hmin x); rewrite list_lookup_fmap, Hx; simpl; by rewrite El).
    simpl in Hkq. apply ltb_false in E as [E|E]; destruct Hkq as [Hkq|Hkq];
      [left; congruence|right; by rewrite E|right; by rewrite <-Hkq|right; by etrans].
Qed.

(** The pairs of the merged listing are pairs of the iterators' listings. *)
Lemma m_all_elem i p : p ∈ m_all i → ∃ x l, alls (m_iters i) !! x = Some l ∧ p ∈ l.
Proof using Type*.
  unfold m_all. rewrite elem_of_dsorted. destruct p as [k v]. apply umap_Some.
Qed.

Lemma heads_of_rests (f : list (bytes * bytes) → list (bytes * bytes)) (its : list I) ls :
  rests its = f <$> ls → head_key <$> its = (λ l, fst <$> head (f l)) <$> ls.
Proof using Type*.
  unfold rests. revert ls. induction its as [|it its IH]; intros [|l ls] H; try done.
  rewrite !fmap_cons in *. injection H as H1 H2. f_equal; [unfold head_key; by rewrite H1|by apply IH].
Qed.

Lemma m_all_sorted i : StronglySorted (klt (m_reverse i)) (m_all i).
Proof using Type*. apply dsorted_sorted. Qed.

(** The pair a reverse seek found, seen in the union. *)
Lemma sought_value i k t :
  inner_ok i → m_reverse i = true → m_keys i = head_key <$> m_iters i →
  rests (m_iters i) = seek_rest true t <$> alls (m_iters i) →
  least false (m_keys i) k (m_index i) →
  ∃ it v l, m_iters i !! m_index i = Some it ∧ it_rest it = (k, v) :: l ∧ l = filter (λ q, ltb q.1 k = true) (it_all it) ∧
    seek_rest true k (m_all i) = (k, v) :: filter (λ q, ltb q.1 k = true) (m_all i) ∧
    seek_rest true t (m_all i) = seek_rest true k (m_all i).
Proof using Type*.
  intros Hi Hrev Hk Hr Hl. pose proof (inner_alls_sorted i Hi) as Hs. rewrite Hrev in Hs.
  pose proof Hl as Hl'. rewrite Hk, (heads_of_rests (seek_rest true t) _ _ Hr) in Hl'.
  destruct (heads_no_gap _ _ _ _ Hs Hl') as [Hkt Hgap]. destruct Hl' as (Hj & _ & Hfirst).
  apply list_lookup_fmap_Some in Hj as (all & E & Hj). destruct (seek_rest true t all) as [|[k0 v] l] eqn:El; [done|].
  injection E as <-. unfold alls in Hj. apply list_lookup_fmap_Some in Hj as (it & -> & Hj).
  assert (it_rest it = (k, v) :: l) as Hit.
  { assert (rests (m_iters i) !! m_index i = Some (it_rest it)) as H1 by (unfold rests; by rewrite list_lookup_fmap, Hj).
    rewrite Hr in H1. unfold alls in H1. rewrite !list_lookup_fmap, Hj in H1. simpl in H1. rewrite El in H1. congruence. }
  assert (alls (m_iters i) !! m_index i = Some (it_all it)) as Hall by (unfold alls; by rewrite list_lookup_fmap, Hj).
  assert (StronglySorted (klt true) (it_all it)) as Hsit.
  { rewrite list.Forall_forall in Hs. apply Hs. by eapply list_elem_of_lookup_2. }
  destruct (seek_rest_found _ _ _ _ Hsit El) as (Hin & Hlt & _).
  exists it, v, l. split; [done|]. split; [done|]. split; [|split].
  - rewrite Hlt. apply filter_ext_in. intros q Hq. by rewrite (Hgap _ _ q Hall Hq).
  - apply seek_rest_at; [rewrite <-Hrev; apply m_all_sorted|]. unfold m_all. apply elem_of_dsorted. simpl.
    apply (umap_first _ (m_index i) (it_all it)); [by eapply sorted_nodups|done|done|].
    intros y l' Hy Hl'' Hin'. apply (Hfirst y Hy). rewrite list_lookup_fmap, Hl''. simpl.
    apply list_elem_of_fmap in Hin' as ([k' v'] & E & Hin'). simpl in E. subst k'.
    assert (StronglySorted (klt true) l') as Hsl.
    { rewrite list.Forall_forall in Hs. apply Hs. by eapply list_elem_of_lookup_2. }
    rewrite (seek_rest_ext true t k l'); [by rewrite (seek_rest_at k v' l' Hsl Hin')|].
    intros q Hq. by eapply Hgap.
  - apply seek_rest_ext. intros q (x & l' & Hx & Hq)%m_all_elem. by eapply Hgap.
Qed.

Lemma umap_filter_ge i t :
  inner_ok i → umap ((λ l, filter (λ p, ltb p.1 t = false) l) <$> alls (m_iters i)) =
    filter (λ p, ltb p.1 t = false) (umap (alls (m_iters i))).
Proof using Type*.
  intros Hi. apply umap_filter; [done|]. eapply sorted_nodups. by apply inner_alls_sorted.
Qed.

Lemma seek_lands i t : m_ok i → m_lands i (m_Seek t i) (seek_rest (m_reverse i) t (m_all i)).
Proof using Type*.
  intros Ho. unfold m_Seek. rewrite (m_usable i Ho). destruct Ho as (He & Hi & Hlen & _). cbn [negb].
  destruct (moved_all (it_Seek t) i (λ it, seek_rest (m_reverse i) t (it_all it)) Hi Hlen) as (its' & Hs & Hr & ->).
  { intros it Hit <-. by apply it_seek. }
  assert (rests its' = seek_rest (m_reverse i) t <$> alls its') as Hr'.
  { rewrite (same_alls _ _ Hs), Hr. unfold alls. by rewrite <-list_fmap_compose. }
  cbn [m_err placed].
  change (set_dir (placed i its' (m_prevKey i) (m_index i) (m_dir i)) dirSOI)
    with (placed i its' (m_prevKey i) (m_index i) dirSOI).
  destruct (m_reverse i) eqn:Hrev.
  - destruct (next_cases true (placed i its' (m_prevKey i) (m_index i) dirSOI) eq_refl) as [(Hn & j & ->)|(k & j & Hl & ->)].
    + assert (seek_rest true t (m_all i) = []) as ->.
      { unfold seek_rest. rewrite filter_none; [done|]. intros p Hp (x & l & Hx & Hin)%m_all_elem.
        simpl in Hn. rewrite list.Forall_forall in Hn. rewrite (heads_of_rests _ _ _ Hr') in Hn.
        rewrite (same_alls _ _ Hs) in Hn.
        assert ((λ l, fst <$> head (seek_rest true t l)) l = None) as Hnil.
        { apply Hn, list_elem_of_fmap. exists l. split; [done|]. by eapply list_elem_of_lookup_2. }
        simpl in Hnil. destruct (seek_rest true t l) eqn:El; [|done].
        by rewrite (seek_rest_nil _ _ _ El p Hin) in Hp. }
      split; [|done]. by apply (placed_same i its' (m_prevKey i) j dirSOI).
    + set (i' := placed i its' (Some k) j dirSeek).
      destruct (sought_value i' k t) as (it & v & l & _ & _ & _ & Hv & Ht);
        [by apply (same_inner i)|done|done|done|exact Hl|].
      assert (m_all i' = m_all i) as Ha by (unfold m_all; simpl; by rewrite (same_alls _ _ Hs)).
      rewrite Ha in *. split; [|split].
      * apply (placed_same i its' (Some k) j dirSeek); [done|done|]. rewrite Hrev. split; [done|]. exists k, t. by split_and!.
      * assert (m_rest i' = seek_rest true k (m_all i')) as Hm by (unfold m_rest, i'; simpl; by rewrite Hrev).
        rewrite Ht, <-Ha. exact Hm.
      * by rewrite Ht, Hv.
  - assert (m_lands i (next true (placed i its' (m_prevKey i) (m_index i) dirSOI)) (seek_rest false t (m_all i))) as H.
    { pose proof (choose_forward true i its' (m_prevKey i) Hi Hs) as H. rewrite Hrev in H. specialize (H eq_refl).
      rewrite Hr', (same_alls _ _ Hs) in H. unfold seek_rest in H at 1. rewrite umap_filter_ge in H by done.
      unfold seek_rest, m_all. rewrite Hrev, dsorted_filter. exact H. }
    clear Hr Hr'. destruct (next true (placed i its' (m_prevKey i) (m_index i) dirSOI)) as [b i'] eqn:E.
    destruct H as ((Ho & Hv & Ha) & Hrest & Hb). simpl in Ho, Hv, Ha, Hrest, Hb.
    assert (m_dir i' = if b then dirForward else dirEOI) as Hd.
    { unfold next in E. destruct (pick _ _ _ _ _ _) as [[k|] j]; by injection E as <- <-. }
    rewrite Hrev in Hv. destruct Ho as (He' & Hi' & Hlen' & Hdir). unfold m_rest in Hrest. rewrite Hd in Hdir, Hrest.
    destruct b; (split; [|split; [|done]]).
    + split; [|split; [exact (eq_trans Hv (eq_sym Hrev))|exact Ha]]. do 3 (split; [done|]). simpl. by rewrite Hv.
    + unfold m_rest. simpl. by rewrite Hv in *.
    + split; [by split|split; [exact (eq_trans Hv (eq_sym Hrev))|exact Ha]].
    + by rewrite <-Hrest.
Qed.

(** The iterator that has the current key moves on. *)
Lemma moved_one i it p l :
  inner_ok i → m_keys i = head_key <$> m_iters i → m_iters i !! m_index i = Some it → it_rest it = p :: l →
  ∃ its', Forall2 it_same (m_iters i) its' ∧ rests its' = <[m_index i := l]> (rests (m_iters i)) ∧
    moved it_Next (λ x, (x =? m_index i)%nat) i = placed i its' (m_prevKey i) (m_index i) (m_dir i).
Proof using Type*.
  intros Hi Hk Hx Hr. unfold moved.
  destruct (reposition_spec it_Next (λ x, (x =? m_index i)%nat) (λ it, tail (it_rest it)) (m_iters i) 0 (m_keys i))
    as (its' & E & Hs & Hrs).
  - by apply inner_ok_all.
  - by rewrite Hk, length_fmap.
  - intros y it' Hy. simpl. destruct (Nat.eqb_spec y (m_index i)) as [->|Hne].
    + simplify_eq. rewrite Hr. apply (it_next it p l); [|done].
      pose proof (inner_ok_all i Hi) as H. rewrite list.Forall_forall in H. apply H. by eapply list_elem_of_lookup_2.
    + by rewrite Hk, list_lookup_fmap, Hy.
  - exists its'. split; [done|]. split; [|by rewrite E]. unfold rests in *. rewrite Hrs.
    apply list_eq. intros y. rewrite list_lookup_imap. unfold sel_rest. simpl.
    destruct (decide (y = m_index i)) as [->|Hne].
    + rewrite Hx, list_lookup_insert_eq by (rewrite length_fmap; by eapply lookup_lt_Some).
      simpl. by rewrite Nat.eqb_refl, Hr.
    + rewrite list_lookup_insert_ne, list_lookup_fmap by done. destruct (m_iters i !! y); [|done]. simpl.
      by rewrite (proj2 (Nat.eqb_neq y (m_index i))).
Qed.

Lemma heads_rests (its : list I) : head_key <$> its = (λ l, fst <$> head l) <$> rests its.
Proof using Type*. unfold rests. by rewrite <-list_fmap_compose. Qed.

(** Taking a key off the front of one listing does not change the others. *)
Lemma delete_pop (ls : list (list (bytes * bytes))) j k v l :
  ls !! j = Some ((k, v) :: l) → delete k (umap (<[j := l]> ls)) = delete k (umap ls).
Proof using Type.
  intros Hj. apply map_eq. intros k'. destruct (decide (k' = k)) as [->|Hne]; [by rewrite !lookup_delete_eq|].
  rewrite !lookup_delete_ne by done. apply umap_ext; [apply length_insert|]. intros x l1 l2 H1 H2.
  destruct (decide (x = j)) as [->|Hx].
  - rewrite list_lookup_insert_eq in H1 by (by eapply lookup_lt_Some). simplify_eq. simpl.
    by rewrite lookup_insert_ne.
  - rewrite list_lookup_insert_ne in H1 by done. by simplify_eq.
Qed.

(** A state from which the merged iterator goes on without a new seek. *)
Definition going i (k : bytes) : Prop :=
  m_err i = None ∧ inner_ok i ∧ m_keys i = head_key <$> m_iters i ∧
  (m_dir i = dirForward ∨ m_dir i = dirSeek ∧ m_reverse i = false) ∧
  least (m_reverse i) (m_keys i) k (m_index i) ∧ m_prevKey i = Some k.

Lemma going_same i its' k j :
  inner_ok i → Forall2 it_same (m_iters i) its' → least (m_reverse i) (head_key <$> its') k j →
  m_lands i (true, placed i its' (Some k) j dirForward) (dsorted (m_reverse i) (umap (rests its'))).
Proof using Type*.
  intros Hi Hs Hl. split; [apply placed_same; [done|done|]|split; [done|]].
  - split; [done|]. by exists k.
  - destruct (least_head (m_reverse i) its' k j) as (it & v & l & _ & _ & Hv & _); [|done|].
    + apply (inner_rests_sorted (placed i its' (Some k) j dirForward)). by apply (same_inner i).
    + symmetry. by eapply nonempty_dsorted.
Qed.

Lemma loop_going fuel : ∀ i k,
  going i k → (length (filter (λ o, o = Some k) (m_keys i)) ≤ fuel)%nat →
  m_lands i (next_loop fuel i) (dsorted (m_reverse i) (delete k (umap (rests (m_iters i))))).
Proof using Type*.
  induction fuel as [|fuel IH]; intros i k (He & Hi & Hk & Hd & Hl & Hp) Hc.
  { exfalso. destruct Hl as (Hx & _). assert (Some k ∈ filter (λ o, o = Some k) (m_keys i)) as Hin.
    { apply list_elem_of_filter. split; [done|]. by eapply list_elem_of_lookup_2. }
    destruct (filter (λ o, o = Some k) (m_keys i)); [by apply elem_of_nil in Hin|simpl in Hc; lia]. }
  pose proof (inner_rests_sorted i Hi) as Hsr.
  pose proof Hl as Hl'. rewrite Hk in Hl'.
  destruct (least_head _ _ _ _ Hsr Hl') as (it & v & l & Hx & Hr & Hv & Hmin). clear Hl'.
  destruct (moved_one i it (k, v) l Hi Hk Hx Hr) as (its' & Hs & Hrs & Hmv).
  assert (rests (m_iters i) !! m_index i = Some ((k, v) :: l)) as Hat by (unfold rests; by rewrite list_lookup_fmap, Hx, <-Hr).
  pose proof (delete_pop _ _ _ _ _ Hat) as Hdel. rewrite <-Hrs in Hdel.
  assert (nextInternal i = let '(b, i) := next false (placed i its' (Some k) (m_index i) (m_dir i)) in ((b, false), i)) as Hni.
  { unfold nextInternal, usable. rewrite He. destruct Hd as [Ed|[Ed Hrev]]; rewrite ?Ed, ?Hrev; cbn [negb].
    - rewrite He, Hmv, Hp, Ed. done.
    - rewrite He, Hmv, Hp, Ed. done. }
  cbn [next_loop]. rewrite Hni. clear Hni. rewrite <-Hdel.
  assert (m_dir i ≠ dirSOI) as Hnsoi by (destruct Hd as [->|[-> _]]; done).
  destruct (next_cases false (placed i its' (Some k) (m_index i) (m_dir i)) eq_refl) as [(Hn & j & ->)|(k' & j & Hl' & ->)].
  - cbn [negb m_iters placed] in *. rewrite (heads_none _ Hn), delete_empty, (proj2 (dsorted_empty _ _) eq_refl).
    split; [|done]. by apply (placed_same i its' (Some k) j dirEOI).
  - cbn [m_dir m_iters m_reverse m_keys m_prevKey m_err placed negb order] in *.
    assert (match m_dir i with dirSOI => Some k' | _ => Some k end = Some k) as -> by (by destruct (m_dir i)).
    fold (placed i its' (Some k) j dirForward).
    assert (m_Key (placed i its' (Some k) j dirForward) = Some k') as ->.
    { unfold m_Key. simpl. destruct Hl' as (-> & _). done. }
    cbn [m_prevKey placed]. destruct (Z.eqb_spec (compare (m_reverse i) (Some k') (Some k) true) 0) as [E|E].
    + apply compare_eq in E. subst k'. cbn [negb].
      assert (going (placed i its' (Some k) j dirForward) k) as Hg.
      { split_and!; [done|by apply (same_inner i)|done|by left|done|done]. }
      destruct (IH _ _ Hg) as ((Ho & Hv' & Ha) & Hres & Hb).
      * cbn [m_keys placed]. rewrite heads_rests, Hrs, list_fmap_insert, <-heads_rests, <-Hk.
        pose proof (proj1 Hl) as Hxk.
        assert (fst <$> head l ≠ Some k) as Hnk.
        { unfold rests in Hat. assert (StronglySorted (klt (m_reverse i)) ((k, v) :: l)) as HS.
          { rewrite list.Forall_forall in Hsr. apply Hsr. by eapply list_elem_of_lookup_2. }
          inversion HS as [|? ? _ HF]; subst. destruct l as [|q l]; [done|]. simpl. intros [= Hq].
          apply Forall_cons_1 in HF as [HF _]. unfold klt in HF. simpl in HF. rewrite Hq in HF. by apply dlt_irrefl in HF. }
        pose proof (count_insert (λ o, o = Some k) (m_keys i) _ _ (fst <$> head l) Hxk eq_refl Hnk). lia.
      * split; [|done]. split; [done|]. split; [done|]. rewrite Ha. unfold m_all. simpl. by rewrite (same_alls _ _ Hs).
    + cbn [negb]. assert (k' ≠ k) as Hne by (intros ->; by apply E, compare_eq).
      assert (delete k (umap (rests its')) = umap (rests its')) as ->; [|by apply (going_same i its')].
      apply delete_id. destruct (umap (rests its') !! k) as [w|] eqn:Ew; [|done]. exfalso.
      pose proof (inner_rests_sorted (placed i its' (Some k) j dirForward) (same_inner i its' Hi Hs)) as Hsr'.
      destruct (least_head _ _ _ _ Hsr' Hl') as (it' & v' & l' & _ & _ & Hv' & Hmin').
      destruct (Hmin' _ _ Ew) as [->|H1]; [done|]. cbn [m_iters placed m_reverse] in *.
      assert (umap (rests (m_iters i)) !! k' = Some v') as Hk'.
      { assert (delete k (umap (rests its')) !! k' = Some v') as H2 by (by rewrite lookup_delete_ne).
        rewrite Hdel, lookup_delete_ne in H2 by done. done. }
      destruct (Hmin _ _ Hk') as [->|H2]; [done|]. apply (dlt_irrefl (m_reverse i) k). by etrans.
Qed.

Lemma below_lands it k :
  it_ok it → it_rev it = true → it_lands it (below k it) (filter (λ q, ltb q.1 k = true) (it_all it)).
Proof using Type*.
  intros Ho Hrev. unfold below. destruct (it_seek it k Ho) as ((Ho1 & Hrev1 & Ha1) & Hr1 & Hb).
  pose proof (it_sorted it Ho) as Hs. rewrite Hrev in *.
  destruct (it_Seek k it) as [b it1]. simpl in *. subst b.
  destruct (seek_rest true k (it_all it)) as [|p r] eqn:E; cbn [nonempty].
  - rewrite filter_all by (intros q Hq; by apply (seek_rest_nil _ _ _ E)). rewrite <-Ha1.
    destruct (it_rewind it1 Ho1) as ((Ho2 & Hrev2 & Ha2) & Hr2 & Hb2).
    split; [|done]. split; [done|]. split; [by rewrite Hrev2, Hrev1, Hrev|by rewrite Ha2, Ha1].
  - destruct (seek_rest_found _ _ _ _ Hs E) as (_ & <- & _).
    destruct (it_next it1 p r Ho1 Hr1) as ((Ho2 & Hrev2 & Ha2) & Hr2 & Hb2).
    split; [|done]. split; [done|]. split; [by rewrite Hrev2, Hrev1, Hrev|by rewrite Ha2, Ha1].
Qed.

Lemma same_trans (a b c : list I) : Forall2 it_same a b → Forall2 it_same b c → Forall2 it_same a c.
Proof using Type*.
  intros H. revert c. induction H as [|x y a b (H1 & H2 & H3) H IH]; intros c Hc; inversion Hc as [|? z ? c' (G1 & G2 & G3) G]; subst;
    [constructor|]. constructor; [|by apply IH]. split; [done|]. by rewrite G2, G3.
Qed.

(** After a seek in reverse, [Next] takes every iterator below the key found. *)
Lemma moved_below i k it v l :
  inner_ok i → m_reverse i = true → m_keys i = head_key <$> m_iters i → m_keys i !! m_index i = Some (Some k) →
  m_iters i !! m_index i = Some it → it_rest it = (k, v) :: l → l = filter (λ q, ltb q.1 k = true) (it_all it) →
  ∃ its1 its', Forall2 it_same (m_iters i) its' ∧
    rests its' = filter (λ q, ltb q.1 k = true) <$> alls (m_iters i) ∧
    moved (below k) (λ x, negb (x =? m_index i)%nat) i = placed i its1 (m_prevKey i) (m_index i) (m_dir i) ∧
    moved it_Next (λ x, (x =? m_index i)%nat) (placed i its1 (m_prevKey i) (m_index i) (m_dir i))
      = placed i its' (m_prevKey i) (m_index i) (m_dir i).
Proof using Type*.
  intros Hi Hrev Hk Hxk Hx Hr Hl. unfold moved at 1.
  destruct (reposition_spec (below k) (λ x, negb (x =? m_index i)%nat) (λ it, filter (λ q, ltb q.1 k = true) (it_all it))
    (m_iters i) 0 (m_keys i)) as (its1 & E & Hs & Hrs).
  - by apply inner_ok_all.
  - by rewrite Hk, length_fmap.
  - intros y it' Hy. simpl. destruct (Nat.eqb_spec y (m_index i)) as [->|Hne]; simpl.
    + by rewrite Hk, list_lookup_fmap, Hy.
    + unfold inner_ok in Hi. rewrite list.Forall_forall in Hi. apply list_elem_of_lookup_2, Hi in Hy as [Ho Hv].
      apply below_lands; [done|by rewrite Hv].
  - rewrite E. clear E.
    change (set_iters i (its1, head_key <$> its1, None)) with (placed i its1 (m_prevKey i) (m_index i) (m_dir i)).
    assert (rests its1 !! m_index i = Some ((k, v) :: l)) as Hat.
    { unfold rests. rewrite Hrs, list_lookup_imap, Hx. simpl. unfold sel_rest. rewrite Nat.eqb_refl. simpl. by rewrite Hr. }
    unfold rests in Hat. apply list_lookup_fmap_Some in Hat as (it1 & Hr1 & Hx1). symmetry in Hr1.
    destruct (moved_one (placed i its1 (m_prevKey i) (m_index i) (m_dir i)) it1 (k, v) l) as (its2 & Hs2 & Hrs2 & E2);
      [by apply (same_inner i)|done|done|done|].
    exists its1, its2. split; [|split; [|split; [done|exact E2]]].
    + by eapply same_trans.
    + rewrite Hrs2. simpl. unfold rests, alls. rewrite Hrs. apply list_eq. intros y.
      destruct (decide (y = m_index i)) as [->|Hne].
      * rewrite list_lookup_insert_eq; [by rewrite !list_lookup_fmap, Hx, Hl|].
        rewrite length_imap. by eapply lookup_lt_Some.
      * rewrite list_lookup_insert_ne, list_lookup_imap, !list_lookup_fmap by done.
        destruct (m_iters i !! y); [|done]. simpl. unfold sel_rest. by rewrite (proj2 (Nat.eqb_neq y (m_index i))).
Qed.

Lemma next_sought i p l :
  m_ok i → m_dir i = dirSeek → m_reverse i = true → m_rest i = p :: l → m_lands i (m_Next i) l.
Proof using Type*.
  intros (He & Hi & Hlen & Hd) Ed Hrev Hrest. rewrite Ed, Hrev in Hd. destruct Hd as (Hk & k & t & Hl & Hp & Hr).
  destruct (sought_value i k t Hi Hrev Hk Hr Hl) as (it & v & l' & Hx & Hit & Hl' & Hsk & _).
  unfold m_rest in Hrest. rewrite Ed, Hrev, Hp in Hrest. simpl in Hrest. rewrite Hsk in Hrest. injection Hrest as <- <-.
  destruct (moved_below i k it v l' Hi Hrev Hk (proj1 Hl) Hx Hit Hl') as (its1 & its' & Hs & Hrs & Hmv1 & Hmv2).
  assert (filter (λ q, ltb q.1 k = true) (m_all i) = dsorted true (umap (rests its'))) as Hres.
  { unfold m_all. rewrite Hrev, dsorted_filter, Hrs. f_equal. symmetry. apply umap_filter; [done|].
    eapply sorted_nodups. by apply inner_alls_sorted. }
  unfold m_Next. cbn [next_loop].
  assert (nextInternal i = let '(b, i) := next false (placed i its' (Some k) (m_index i) dirSeek) in ((b, false), i)) as ->.
  { unfold nextInternal, usable. rewrite Ed, He. cbn [negb]. rewrite Ed, Hrev, (proj1 Hl). simpl default.
    rewrite Hmv1. cbn [m_err placed m_index]. fold (placed i its1 (m_prevKey i) (m_index i) (m_dir i)).
    rewrite Hmv2, Ed, Hp. done. }
  destruct (next_cases false (placed i its' (Some k) (m_index i) dirSeek) eq_refl) as [(Hn & j & ->)|(k' & j & Hl2 & ->)].
  - cbn [negb m_iters placed] in *. rewrite Hres, (heads_none _ Hn), (proj2 (dsorted_empty _ _) eq_refl).
    split; [|done]. by apply (placed_same i its' (Some k) j dirEOI).
  - cbn [m_dir m_iters m_reverse m_keys m_prevKey m_err placed negb order] in *.
    fold (placed i its' (Some k) j dirForward).
    assert (m_Key (placed i its' (Some k) j dirForward) = Some k') as ->.
    { unfold m_Key. simpl. by rewrite (proj1 Hl2). }
    cbn [m_prevKey placed]. destruct (Z.eqb_spec (compare (m_reverse i) (Some k') (Some k) true) 0) as [E|E].
    + exfalso. apply compare_eq in E. subst k'.
      destruct (least_head _ its' _ _ (inner_rests_sorted (placed i its' (Some k) j dirForward) (same_inner i its' Hi Hs)) Hl2)
        as (_ & w & _ & _ & _ & Hw & _).
      assert ((k, w) ∈ filter (λ q, ltb q.1 k = true) (m_all i)) as [Hlt _]%list_elem_of_filter.
      { rewrite Hres. by apply elem_of_dsorted. }
      simpl in Hlt. apply ltb_true, bytes_lt_irrefl in Hlt. done.
    + cbn [negb]. pose proof (going_same i its' k' j Hi Hs Hl2) as H. rewrite Hrev in H. rewrite Hres. exact H.
Qed.

Lemma next_lands i p l : m_ok i → m_rest i = p :: l → m_lands i (m_Next i) l.
Proof using Type*.
  intros Ho Hr. pose proof Ho as (He & Hi & Hlen & Hd). unfold m_rest in Hr.
  assert (standing i → m_rest i = dsorted (m_reverse i) (umap (rests (m_iters i))) →
          (m_dir i = dirForward ∨ m_dir i = dirSeek ∧ m_reverse i = false) → m_lands i (m_Next i) l) as Hst.
  { intros (Hk & k & Hl & Hp) Hrest Hdir. pose proof (inner_rests_sorted i Hi) as Hsr.
    pose proof Hl as Hl'. rewrite Hk in Hl'. destruct (least_head _ _ _ _ Hsr Hl') as (it & v & l' & _ & _ & Hv & Hmin).
    fold (m_rest i) in Hr. rewrite Hrest, (dsorted_head _ _ k v Hv Hmin) in Hr. injection Hr as _ <-.
    apply loop_going; [by split_and!|]. etrans; [apply length_filter|]. lia. }
  destruct (m_dir i) eqn:Ed; try done.
  - apply Hst; [done|unfold m_rest; by rewrite Ed|by left].
  - destruct (m_reverse i) eqn:Hrev.
    + apply (next_sought i p); [done|done|done|]. unfold m_rest. by rewrite Ed, Hrev.
    + apply Hst; [done|unfold m_rest; by rewrite Ed, Hrev|by right].
Qed.

Lemma current_pair i p l : m_ok i → m_rest i = p :: l → m_Key i = Some p.1 ∧ m_Value i = p.2.
Proof using Type*.
  intros (He & Hi & Hlen & Hd) Hr. unfold m_rest in Hr. unfold m_Key, m_Value, m_Valid. rewrite He.
  assert (∀ k v it l', m_keys i !! m_index i = Some (Some k) → m_iters i !! m_index i = Some it →
            it_rest it = (k, v) :: l' → p = (k, v) →
            default None (m_keys i !! m_index i) = Some p.1 ∧
            match m_iters i !! m_index i with Some it => it_Value it | None => ""%string end = p.2) as Hfin.
  { intros k v it l' -> Hx Hit ->. rewrite Hx. split; [done|].
    assert (it_ok it) as Ho.
    { pose proof (inner_ok_all i Hi) as H. rewrite list.Forall_forall in H. apply H. by eapply list_elem_of_lookup_2. }
    by destruct (it_current _ _ _ Ho Hit) as [_ ->]. }
  assert (standing i → dsorted (m_reverse i) (umap (rests (m_iters i))) = p :: l →
          default None (m_keys i !! m_index i) = Some p.1 ∧
            match m_iters i !! m_index i with Some it => it_Value it | None => ""%string end = p.2) as Hst.
  { intros (Hk & k & Hl & _) Hrest. pose proof Hl as Hl'. rewrite Hk in Hl'.
    destruct (least_head _ _ _ _ (inner_rests_sorted i Hi) Hl') as (it & v & l' & Hx & Hit & Hv & Hmin).
    rewrite (dsorted_head _ _ k v Hv Hmin) in Hrest. injection Hrest as <- _.
    apply (Hfin k v it l'); [apply Hl|done|done|done]. }
  destruct (m_dir i) eqn:Ed; try done; [by apply Hst|]. destruct (m_reverse i) eqn:Hrev; [|by apply Hst].
  destruct Hd as (Hk & k & t & Hl & Hp & Hrs).
  destruct (sought_value i k t Hi Hrev Hk Hrs Hl) as (it & v & l' & Hx & Hit & _ & Hsk & _).
  rewrite Hp in Hr. simpl in Hr. rewrite Hsk in Hr. injection Hr as <- _.
  apply (Hfin k v it l'); [apply Hl|done|done|done].
Qed.
End Spec.

#[export] Program Instance mergedIterator_Spec {I} `{!Iter I, !IterSpec I} : IterSpec (mergedIterator I) := {|
  it_ok := m_ok; it_rev := m_reverse; it_all := m_all; it_rest := m_rest
|}.
Next Obligation. intros I ?? i _. apply m_all_sorted. Qed.
Next Obligation.
  intros I ?? i Ho. unfold m_rest. destruct (m_dir i) eqn:Ed; try constructor; [apply dsorted_sorted|].
  destruct (m_reverse i) eqn:Hrev; [|apply dsorted_sorted]. destruct Ho as (_ & Hi & _ & Hd).
  rewrite Ed, Hrev in Hd. destruct Hd as (Hk & k & t & Hl & Hp & Hrs).
  destruct (sought_value i k t Hi Hrev Hk Hrs Hl) as (_ & v & _ & _ & _ & _ & Hsk & _).
  rewrite Hp. simpl. rewrite Hsk. constructor.
  - rewrite <-Hrev. apply sorted_filter, m_all_sorted.
  - apply list.Forall_forall. intros q [Hq _]%list_elem_of_filter. unfold klt. simpl. by apply ltb_true.
Qed.
Next Obligation.
  intros I ?? i Ho. simpl. destruct (m_rest i) as [|p l] eqn:Er; simpl.
  - unfold m_Valid. destruct Ho as (He & Hi & _ & Hd). rewrite He.
    assert (standing i → dsorted (m_reverse i) (umap (rests (m_iters i))) = [] → False) as Hst.
    { intros (Hk & k & Hl & _) E. rewrite Hk in Hl.
      destruct (least_head _ _ _ _ (inner_rests_sorted i Hi) Hl) as (_ & v & _ & _ & _ & Hv & _).
      apply dsorted_empty in E. by rewrite E in Hv. }
    unfold m_rest in Er. destruct (m_dir i); try done; [by destruct (Hst Hd Er)|].
    destruct (m_reverse i) eqn:Hrev; [|by destruct (Hst Hd Er)]. destruct Hd as (Hk & k & t & Hl & Hp & Hrs).
    destruct (sought_value i k t Hi Hrev Hk Hrs Hl) as (_ & v & _ & _ & _ & _ & Hsk & _).
    rewrite Hp in Er. simpl in Er. by rewrite Hsk in Er.
  - destruct (current_pair i p l Ho Er) as [Hk _]. unfold m_Key in Hk. by destruct (m_Valid i).
Qed.
Next Obligation. intros I ?? i p l. apply current_pair. Qed.
Next Obligation. by intros I ?? i (He & _). Qed.
Next Obligation. intros I ?? i. apply rewind_lands. Qed.
Next Obligation. intros I ?? i p l. apply next_lands. Qed.
Next Obligation. intros I ?? i key. apply seek_lands. Qed.
Next Obligation.
  intros I ?? i key Ho Hrev Hn. simpl in *. destruct (seek_lands i key Ho) as ((Ho' & Hrev' & Ha) & Hr & Hb).
  rewrite Hrev, Hn in *. destruct (m_Seek key i) as [b i'] eqn:E. simpl in *. subst b.
  assert (m_dir i' = dirSOI) as Hd.
  { revert E. unfold m_Seek. rewrite (m_usable i Ho). cbn [negb]. destruct (m_err _) eqn:Ee.
    - intros [= <-]. destruct Ho' as (He & _). by rewrite Ee in He.
    - destruct (next true _) as [[] i1]; intros [= <-]. done. }
  unfold m_Next. cbn [next_loop]. unfold nextInternal. rewrite Hd, (m_usable i' Ho'). cbn [negb]. rewrite Hd.
  destruct (rewind_lands i' Ho') as ((Ho2 & Hrev2 & Ha2) & Hr2 & Hb2). destruct (m_Rewind i') as [b i2]. simpl in *.
  subst b. rewrite Ha in *. destruct (nonempty (m_all i)) eqn:En; simpl; (split; [|done]);
    (split; [done|]); by rewrite Hrev2, Hrev', Ha2.
Qed.

(** ** Merged databases *)

Lemma size_union_le (m1 m2 : gmap bytes bytes) : (size (m1 ∪ m2) ≤ size m1 + size m2)%nat.
Proof.
  rewrite <-!(size_dom (D:=gset bytes)), dom_union, size_union_alt.
  pose proof (subseteq_size (dom m2 ∖ dom m1 : gset bytes) (dom m2) ltac:(set_solver)). lia.
Qed.

Section MergedDB.
Context {D I : Type} `{!IterDB D I, !Iter I}.

Definition mergedIteratorDB : Type := list D.

Definition merge_Iterator (dbs : mergedIteratorDB) (start end_ : option bytes) (reverse : bool)
  : outcome (mergedIterator I) :=
  NewMergedIterator ((λ d, db_Iterator d start end_ reverse) <$> dbs).

#[export] Instance merged_IterDB : IterDB mergedIteratorDB (mergedIterator I) := {|
  db_Iterator dbs start end_ reverse :=
    match merge_Iterator dbs start end_ reverse with
    | Ret it => it
    | _ => mkMerged [] true [] None 0 dirReleased None   (* unreachable: [merge_Iterator_Ret] *)
    end;
  db_size dbs := sum_list (db_size <$> dbs)
|}.
End MergedDB.
Arguments mergedIteratorDB : clear implicits.

(** Iterators that report their direction. *)
Class Honest (I : Type) `{!Iter I, !IterSpec I} := honest i : it_ok i → it_IsReverse i = it_rev i.
#[export] Instance goLevelDBIt_Honest : Honest goLevelDBIt.
Proof. done. Qed.

Section MergedDBSpec.
Context {D I : Type} `{!IterDB D I, !Iter I, !IterSpec I, !IterDBSpec D I, !Honest I}.

Definition dbs_ok (dbs : mergedIteratorDB D) : Prop := (2 ≤ length dbs)%nat ∧ Forall db_ok dbs.

Lemma merge_Iterator_Ret dbs start end_ rev :
  dbs_ok dbs →
  let its := (λ d, db_Iterator d start end_ rev) <$> dbs in
  merge_Iterator dbs start end_ rev = Ret (mkMerged its rev (replicate (length its) None) None 0 dirSOI None).
Proof using Type*.
  intros [H2 Hok]. destruct dbs as [|d0 [|d1 dbs]]; simpl in H2; try lia.
  assert (∀ d, d ∈ d0 :: d1 :: dbs → it_IsReverse (db_Iterator d start end_ rev) = rev) as Hr.
  { intros d Hd. rewrite list.Forall_forall in Hok. destruct (db_iterator d start end_ rev (Hok d Hd)) as (Ho & Hv & _).
    by rewrite (honest _ Ho). }
  unfold merge_Iterator, NewMergedIterator. rewrite !fmap_cons. cbn [tail].
  rewrite (Hr d0) by set_solver. rewrite (proj2 (forallb_forall _ _)); [done|].
  intros it Hin. apply list_elem_of_In in Hin.
  change (it ∈ (λ d, db_Iterator d start end_ rev) <$> d1 :: dbs) in Hin.
  apply list_elem_of_fmap in Hin as (d & -> & Hd). rewrite Hr by set_solver. by destruct rev.
Qed.

Definition union_map (dbs : mergedIteratorDB D) : gmap bytes bytes := foldr (λ d m, db_map d ∪ m) ∅ dbs.

Lemma list_to_map_dsorted rev (m : gmap bytes bytes) : (list_to_map (dsorted rev m) : gmap bytes bytes) = m.
Proof using Type.
  apply map_eq. intros k. apply option_eq. intros v.
  rewrite <-elem_of_list_to_map by (eapply sorted_nodup; apply dsorted_sorted). apply (elem_of_dsorted rev m (k, v)).
Qed.

Lemma umap_slices rev start end_ dbs :
  umap ((λ d, slice_of rev start end_ (db_map d)) <$> dbs) =
    filter (in_slice_P start (range_limit start end_)) (union_map dbs).
Proof using Type*.
  unfold slice_of.
  transitivity (umap (filter (in_slice_P start (range_limit start end_)) <$> ((λ d : D, dsorted rev (db_map d)) <$> dbs)));
    [by rewrite <-list_fmap_compose|].
  rewrite umap_filter.
  - f_equal. induction dbs as [|d dbs IH]; [done|]. rewrite fmap_cons. simpl. rewrite list_to_map_dsorted. by f_equal.
  - by intros k v w.
  - apply list.Forall_forall. intros l (d & -> & _)%list_elem_of_fmap. eapply sorted_nodup, dsorted_sorted.
Qed.

#[export] Program Instance merged_IterDBSpec : IterDBSpec (mergedIteratorDB D) (mergedIterator I) := {|
  db_ok := dbs_ok; db_map := union_map
|}.
Next Obligation.
  intros dbs start end_ rev Hok it. unfold it. simpl. rewrite (merge_Iterator_Ret dbs start end_ rev Hok).
  destruct Hok as [_ Hok]. unfold m_ok, m_all, m_rest, inner_ok. simpl. split_and!; try done.
  - apply Forall_fmap. revert Hok. apply Forall_impl. intros d Hd. simpl.
    by destruct (db_iterator d start end_ rev Hd) as (? & ? & _).
  - apply length_replicate.
  - unfold slice_of at 1. rewrite dsorted_filter. f_equal. rewrite <-(umap_slices rev). f_equal.
    unfold alls. rewrite <-list_fmap_compose. apply list_fmap_ext. intros x d Hx. simpl.
    rewrite list.Forall_forall in Hok. apply list_elem_of_lookup_2, Hok in Hx.
    by destruct (db_iterator d start end_ rev Hx) as (_ & _ & _ & ?).
Qed.
Next Obligation.
  intros dbs. simpl. induction dbs as [|d dbs IH]; [done|]. simpl. etrans; [apply size_union_le|].
  apply Nat.add_le_mono; [apply db_size_bound|exact IH].
Qed.
End MergedDBSpec.
