(* ===== verification/Mvcc.v ===== *)
(** Multi-version storage: [SimpleMVCC] and [MVCCHelper] of [common/db/mvcc.go] and
    [MVCCIter] of [common/db/mvcc_iter.go].  Every version of a key has a database key of its
    own; a version is named by a state hash and is added and removed as a list of pairs to
    write. *)

From Stdlib Require Import Ascii String.
From S2P Require Import Prelude DbIter ListHelper.
Local Open Scope string_scope.
Local Open Scope Z_scope.

Definition ErrVersion : error := ErrOther "ErrVersionNoSupport".
Definition ErrPrevVersion : error := ErrOther "ErrPrevVersion".
Definition ErrCanOnlyDelTopVersion : error := ErrOther "ErrCanOnlyDelTopVersion".

(** ** Numbers in keys *)

Definition digit (d : Z) : ascii := ascii_of_N (48 + Z.to_N d).

(** [w] decimal digits of [z]. *)
Fixpoint decw (w : nat) (z : Z) : string :=
  match w with
  | O => ""
  | S w => String (digit (z / 10 ^ Z.of_nat w mod 10)) (decw w z)
  end.

(** [%020d] of an int64: the sign takes one of the twenty places. *)
Definition pad (version : Z) : bytes :=
  if version <? 0 then String "-" (decw 19 (- version)) else decw 20 version.

Definition digit_value (c : ascii) : option Z :=
  let n := Z.of_N (N_of_ascii c) in if (48 <=? n) && (n <=? 57) then Some (n - 48) else None.

Fixpoint parse_digits (s : string) (acc : Z) : option Z :=
  match s with
  | EmptyString => Some acc
  | String c s => d ← digit_value c; parse_digits s (acc * 10 + d)
  end.

Definition ErrSyntax : error := ErrOther "strconv.ErrSyntax".
Definition ErrRange : error := ErrOther "strconv.ErrRange".

(** [strconv.ParseInt(s, 10, 64)]. *)
Definition ParseInt (s : string) : outcome Z :=
  let body (neg : bool) (s : string) : outcome Z :=
    match s with
    | EmptyString => Err ErrSyntax
    | _ => match parse_digits s 0 with
           | None => Err ErrSyntax
           | Some n => if neg then (if 2 ^ 63 <? n then Err ErrRange else Ret (- n))
                       else (if 2 ^ 63 <=? n then Err ErrRange else Ret n)
           end
    end in
  match s with
  | String "-" s => body true s
  | String "+" s => body false s
  | _ => body false s
  end.

(** ** Keys *)

Definition mvccPrefix : bytes := ".-mvcc-.".
Definition mvccMeta : bytes := mvccPrefix +:+ "m.".
Definition mvccData : bytes := mvccPrefix +:+ "d.".
Definition mvccLast : bytes := mvccPrefix +:+ "l.".
Definition mvccMetaVersion : bytes := mvccMeta +:+ "version.".
Definition mvccMetaVersionKeyList : bytes := mvccMeta +:+ "versionkl.".

Fixpoint after_last (c : ascii) (s : string) : option string :=
  match s with
  | EmptyString => None
  | String d s' => match after_last c s' with
                   | Some r => Some r
                   | None => if Ascii.eqb d c then Some s' else None
                   end
  end.
Fixpoint before_last (c : ascii) (s : string) : option string :=
  match s with
  | EmptyString => None
  | String d s' => match before_last c s' with
                   | Some r => Some (String d r)
                   | None => if Ascii.eqb d c then Some "" else None
                   end
  end.

Definition getVersionString (key : bytes) : outcome string :=
  match after_last "." key with Some s => Ret s | None => Err ErrVersion end.
(** What is before the last dot (the copy leaves the dot out). *)
Definition cutVersion (key : bytes) : option bytes := before_last "." key.
Definition getVersion (key : bytes) : outcome Z := s ← getVersionString key; ParseInt s.

Definition GetKeyPerfix (key : bytes) : bytes := mvccData +:+ key +:+ ".".
Definition GetKey (key : bytes) (version : Z) : bytes := GetKeyPerfix key +:+ pad version.
Definition getLastKey (key : bytes) : bytes := mvccLast +:+ key.
Definition getVersionHashKey (hash : bytes) : bytes := mvccMeta +:+ hash.
Definition getVersionKey (version : Z) : bytes := mvccMetaVersion +:+ pad version.
Definition getVersionKeyListKey (version : Z) : bytes := mvccMetaVersionKeyList +:+ pad version.

(** [types.KeyValue]; a nil value asks for a deletion. *)
Abbreviation KV := (bytes * option bytes)%type.

(** ** [SimpleMVCC], over any [KVDB].  [types.Int64] and the list of keys of a version
    ([types.LocalDBSet] with keys only) are encoded by protobuf. *)

Section SimpleMVCC.
Context {D : Type} `{!KVDB D} {Int64 : Codec Z} {KeyList : Codec (list bytes)}.

Definition GetVersion (m : D) (hash : bytes) : outcome Z :=
  value ← kvdb_Get m (getVersionHashKey hash);
  match Decode value with
  | None => Err (ErrOther "proto")
  | Some data => if data <? 0 then Err ErrVersion else Ret data
  end.

Definition GetVersionHash (m : D) (version : Z) : outcome bytes := kvdb_Get m (getVersionKey version).

Definition GetMaxVersion (m : D) : outcome Z :=
  vals ← kvdb_List m mvccMetaVersion "" 1 ListDESC;
  match vals with
  | hash :: _ => GetVersion m hash
  | [] => Panic
  end.

Definition GetSaveKV (key : bytes) (value : option bytes) (version : Z) : KV := (GetKey key version, value).
Definition GetDelKV (key : bytes) (version : Z) : KV := (GetKey key version, None).

Definition GetDelKVList (m : D) (version : Z) : outcome (list bytes) :=
  data ← kvdb_Get m (getVersionKeyListKey version);
  match Decode data with Some kvlist => Ret kvlist | None => Err (ErrOther "proto") end.

Definition SetVersionKV (hash : bytes) (version : Z) : outcome (list KV) :=
  if version <? 0 then Err ErrVersion
  else Ret [(mvccMeta +:+ hash, Some (Encode version)); (mvccMetaVersion +:+ pad version, Some hash)].

Definition DelVersionKV (hash : bytes) (version : Z) : outcome (list KV) :=
  kvs ← SetVersionKV hash version;
  Ret (map (λ kv : KV, (kv.1, None)) kvs).

Definition GetV (m : D) (key : bytes) (version : Z) : outcome bytes :=
  vals ← kvdb_List m (GetKeyPerfix key) (GetKey key version) 1 ListSeek;
  match vals with
  | k :: val :: _ =>
      v ← getVersion k;
      if version <? v then Err ErrVersion else Ret val
  | _ => Panic
  end.

(** [AddMVCC]: the version before must be named, and be the one before. *)
Definition AddMVCC (m : D) (kvs : list KV) (hash : bytes) (prevHash : option bytes) (version : Z) : outcome (list KV) :=
  _ ← (if 0 <? version then
         match prevHash with
         | None => Err ErrPrevVersion
         | Some prevHash =>
             v ← GetVersion m prevHash;
             if v =? version -₆₄ 1 then Ret tt else Err ErrPrevVersion
         end
       else Ret tt);
  versionlist ← SetVersionKV hash version;
  Ret (versionlist ++ map (λ kv : KV, GetSaveKV kv.1 kv.2 version) kvs ++
       [(getVersionKeyListKey version, Some (Encode (map fst kvs)))])%list.

Definition delMVCC (m : D) (kvs : list bytes) (hash : bytes) (version : Z) (strict : bool) : outcome (list KV) :=
  _ ← (if strict then
         maxv ← GetMaxVersion m;
         if maxv =? version then Ret tt else Err ErrCanOnlyDelTopVersion
       else Ret tt);
  vdb ← GetVersion m hash;
  if negb (vdb =? version) then Err ErrVersion
  else
    kv ← DelVersionKV hash version;
    Ret (kv ++ map (λ k, GetDelKV k version) kvs)%list.

Definition DelMVCC (m : D) (hash : bytes) (version : Z) (strict : bool) : outcome (list KV) :=
  kvs ← GetDelKVList m version;
  delMVCC m kvs hash version strict.
End SimpleMVCC.

(** ** [MVCCHelper]: the operations that write to the database *)

Module MVCCHelper.
Section MVCCHelper.
Context {Int64 : Codec Z}.
Abbreviation DB := (gmap bytes bytes).

Definition SetV (key : bytes) (value : bytes) (version : Z) : M DB unit :=
  GoMemDB.Set_ (GetKey key version) value.
Definition DelV (key : bytes) (version : Z) : M DB unit :=
  GoMemDB.Delete (GetDelKV key version).1.

Definition write_batch (b : GoMemDB.memBatch) : M DB unit := GoMemDB.Write b.

Definition DelVersion (hash : bytes) : M DB unit := λ m,
  match (version ← GetVersion m hash; DelVersionKV hash version) with
  | Ret kvs => write_batch (foldl (λ b (kv : KV), GoMemDB.batch_Delete kv.1 b) GoMemDB.NewBatch kvs) m
  | Err e => (Err e, m)
  | Panic => (Panic, m)
  end.

Definition SetVersion (hash : bytes) (version : Z) : M DB unit := λ m,
  match SetVersionKV hash version with
  | Ret kvs => write_batch (foldl (λ b (kv : KV), GoMemDB.batch_Set kv.1 (default "" kv.2) b) GoMemDB.NewBatch kvs) m
  | Err e => (Err e, m)
  | Panic => (Panic, m)
  end.

(** [Trash]: going down the data keys, the first key of each group is kept; a group is the
    keys that begin with the key of the group without its version. *)
Definition trash_body (version : Z) (key : bytes) (s : bytes * DB) : bytes * DB :=
  let '(perfixkey, m) := s in
  if negb (String.prefix perfixkey key) then (default "--.xxx.--" (cutVersion key), m)
  else match getVersion key with
       | Ret v => if v <=? version then (perfixkey, (GoMemDB.Delete key m).2) else s
       | _ => s
       end.

(** The iterator of the memory database moves by key, so that deleting the current pair
    does not disturb it: the loop sees the listing made at its start. *)
Definition Trash (version : Z) : M DB unit := λ m,
  let it := db_Iterator m (Some mvccData) None true in
  (Ret tt, (for_each (S (db_size m)) (λ it s, (false, trash_body version (default "" (it_Key it)) s))
              (it_Rewind it).2 ("--.xxx.--", m)).2).
End MVCCHelper.
End MVCCHelper.

(** ** [MVCCIter]: the last value of every key is kept under a key of its own *)

Module MVCCIter.
Section MVCCIter.
Context {D : Type} `{!KVDB D} {Int64 : Codec Z} {KeyList : Codec (list bytes)}.

Definition AddMVCC (m : D) (kvs : list KV) (hash : bytes) (prevHash : option bytes) (version : Z) : outcome (list KV) :=
  kvlist ← Mvcc.AddMVCC m kvs hash prevHash version;
  Ret (kvlist ++ map (λ kv : KV, (getLastKey kv.1, kv.2)) kvs)%list.

(** The last value becomes that of the version before; nothing is done for version 0. *)
Fixpoint restore_last (m : D) (kvs : list bytes) (version : Z) : outcome (list KV) :=
  match kvs with
  | [] => Ret []
  | k :: kvs =>
      kv ← (if 0 <? version then
              match GetV m k (version -₆₄ 1) with
              | Ret lastv => Ret [(getLastKey k, Some lastv)]
              | Err e => if decide (e = ErrNotFound) then Ret [(getLastKey k, None)] else Err e
              | Panic => Panic
              end
            else Ret []);
      rest ← restore_last m kvs version;
      Ret (kv ++ rest)%list
  end.

Definition DelMVCC (m : D) (hash : bytes) (version : Z) (strict : bool) : outcome (list KV) :=
  kvs ← GetDelKVList m version;
  kvlist ← delMVCC m kvs hash version strict;
  last ← restore_last m kvs version;
  Ret (kvlist ++ last)%list.

(** [mvccIt]: an iterator over the last values that hides the prefix of the keys.  [Seek]
    is the one of the iterator inside: it takes a key with the prefix. *)
Section It.
Context {I : Type} `{!Iter I}.

Record mvccIt := mkMvccIt { inner : I }.

Definition mvccIt_Key (it : mvccIt) : option bytes :=
  key ← it_Key (inner it);
  if String.prefix mvccLast key then Some (str_drop (String.length mvccLast) key) else None.
Definition mvccIt_Valid (it : mvccIt) : bool :=
  if negb (it_Valid (inner it)) then false else bool_decide (is_Some (mvccIt_Key it)).

Definition lift_it (r : bool * I) : bool * mvccIt := (r.1, mkMvccIt r.2).

#[global] Instance mvccIt_Iter : Iter mvccIt := {|
  it_Rewind it := lift_it (it_Rewind (inner it));
  it_Seek key it := lift_it (it_Seek key (inner it));
  it_Next it := lift_it (it_Next (inner it));
  it_Valid := mvccIt_Valid;
  it_Key := mvccIt_Key;
  it_Value it := it_Value (inner it);
  it_Error it := it_Error (inner it);
  it_IsReverse it := it_IsReverse (inner it)
|}.
End It.
Arguments mvccIt : clear implicits.

Definition Iterator {DB I} `{!IterDB DB I} (db : DB) (start end_ : option bytes) (reserver : bool) : mvccIt I :=
  let start := match start with None => mvccLast | Some s => getLastKey s end in
  let end_ := match end_ with Some e => Some (getLastKey e) | None => bytesPrefix start end in
  mkMvccIt (db_Iterator db (Some start) end_ reserver).
End MVCCIter.
End MVCCIter.
