(* ===== verification/MvccTheorems.v ===== *)
(** Correctness of multi-version storage: the database refines a history of versions. *)

From Stdlib Require Import Ascii String.
From Stdlib Require Import Sorted.
From S2P Require Import Prelude DbIter ListHelper Mvcc.
Local Open Scope string_scope.
Local Open Scope Z_scope.
Local Open Scope list_scope.

(** ** Versions in keys *)

Definition is_version (v : Z) : Prop := 0 <= v < 2 ^ 63.

Lemma decw_length w z : String.length (decw w z) = w.
Proof. induction w as [|w IH]; simpl; [done|by rewrite IH]. Qed.

Lemma digit_range z : 0 <= z mod 10 < 10.
Proof. apply Z.mod_pos_bound. lia. Qed.

Lemma N_of_digit d : 0 <= d < 10 → N_of_ascii (digit d) = (48 + Z.to_N d)%N.
Proof. intros H. apply N_ascii_embedding. lia. Qed.

Lemma decw_mod w z : decw w (z mod 10 ^ Z.of_nat w) = decw w z.
Proof.
  assert (∀ n w, (w ≤ n)%nat → decw w (z mod 10 ^ Z.of_nat n) = decw w z) as H; [|by apply H].
  clear w. intros n w. induction w as [|w IH]; intros Hw; [done|]. cbn [decw]. rewrite IH by lia. f_equal. f_equal.
  replace (10 ^ Z.of_nat n) with (10 ^ Z.of_nat w * 10 ^ (Z.of_nat n - Z.of_nat w))
    by (rewrite <-Z.pow_add_r by lia; f_equal; lia).
  rewrite Z.rem_mul_r by lia. rewrite Z.mul_comm, Z.div_add by lia.
  rewrite Z.div_small by (apply Z.mod_pos_bound; lia). rewrite Z.add_0_l.
  replace (Z.of_nat n - Z.of_nat w) with (1 + (Z.of_nat n - Z.of_nat w - 1)) by lia.
  rewrite Z.pow_add_r by lia. rewrite Z.pow_1_r, Z.rem_mul_r by lia.
  by rewrite Z.mul_comm, Z.mod_add, Z.mod_mod by lia.
Qed.

(** Padded numbers are ordered as strings the way they are as numbers. *)
Lemma decw_lt w a b :
  0 <= a < 10 ^ Z.of_nat w → 0 <= b < 10 ^ Z.of_nat w → bytes_lt (decw w a) (decw w b) ↔ a < b.
Proof.
  revert a b. induction w as [|w IH]; intros a b Ha Hb.
  { simpl in *. split; [intros H; by apply bytes_lt_irrefl in H|lia]. }
  rewrite Nat2Z.inj_succ, Z.pow_succ_r in Ha, Hb by lia. set (p := 10 ^ Z.of_nat w) in *.
  assert (0 < p) as Hp by (unfold p; lia).
  cbn [decw]. fold p. rewrite bytes_lt_cons.
  rewrite <-(decw_mod w a), <-(decw_mod w b). fold p.
  rewrite IH by (apply Z.mod_pos_bound; lia).
  assert (0 <= a / p < 10) as Ha' by (split; [apply Z.div_pos; lia|apply Z.div_lt_upper_bound; lia]).
  assert (0 <= b / p < 10) as Hb' by (split; [apply Z.div_pos; lia|apply Z.div_lt_upper_bound; lia]).
  rewrite !(Z.mod_small _ 10) by lia. rewrite !N_of_digit by lia.
  pose proof (Z.div_mod a p). pose proof (Z.div_mod b p).
  pose proof (Z.mod_pos_bound a p Hp). pose proof (Z.mod_pos_bound b p Hp).
  split.
  - intros [H3|[H3 H4]]; [nia|]. apply (f_equal N_of_ascii) in H3. rewrite !N_of_digit in H3 by lia. nia.
  - intros H3. destruct (decide (a / p = b / p)) as [E|E]; [right|left; nia]. split; [by rewrite E|nia].
Qed.

Lemma decw_nodot w z : has_char "." (decw w z) = false.
Proof.
  induction w as [|w IH]; [done|]. cbn [decw has_char]. rewrite IH, orb_false_r.
  destruct (Ascii.eqb_spec (digit (z / 10 ^ Z.of_nat w mod 10)) ".") as [E|]; [|done].
  apply (f_equal N_of_ascii) in E. rewrite N_of_digit in E by apply digit_range. simpl in E. lia.
Qed.

Lemma pad_length v : is_version v → String.length (pad v) = 20%nat.
Proof. intros H. unfold pad, is_version in *. rewrite (proj2 (Z.ltb_ge _ _)) by lia. apply decw_length. Qed.
Lemma pad_nodot v : is_version v → has_char "." (pad v) = false.
Proof. intros H. unfold pad, is_version in *. rewrite (proj2 (Z.ltb_ge _ _)) by lia. apply decw_nodot. Qed.
Lemma pad_lt v w : is_version v → is_version w → bytes_lt (pad v) (pad w) ↔ v < w.
Proof.
  intros Hv Hw. unfold pad, is_version in *. rewrite !(proj2 (Z.ltb_ge _ _)) by lia. apply decw_lt; lia.
Qed.
Lemma pad_inj v w : is_version v → is_version w → pad v = pad w → v = w.
Proof.
  intros Hv Hw E. destruct (Z.lt_trichotomy v w) as [H|[H|H]]; [|done|];
    apply pad_lt in H; try done; rewrite E in H; by apply bytes_lt_irrefl in H.
Qed.

Lemma parse_decw w z acc : 0 <= z < 10 ^ Z.of_nat w → parse_digits (decw w z) acc = Some (acc * 10 ^ Z.of_nat w + z).
Proof.
  revert z acc. induction w as [|w IH]; intros z acc H.
  { simpl in *. f_equal. lia. }
  rewrite Nat2Z.inj_succ, Z.pow_succ_r in * by lia. cbn [decw parse_digits].
  set (p := 10 ^ Z.of_nat w) in *. assert (0 < p) as Hp by (unfold p; lia).
  assert (0 <= z / p < 10) as Hd by (split; [apply Z.div_pos; lia|apply Z.div_lt_upper_bound; lia]).
  unfold digit_value. rewrite N_of_digit by apply digit_range. rewrite (Z.mod_small _ 10) by lia.
  rewrite (proj2 (Z.leb_le 48 _)), (proj2 (Z.leb_le _ 57)) by lia. cbn [andb mbind option_bind].
  rewrite <-decw_mod. fold p. rewrite IH by (apply Z.mod_pos_bound; lia).
  f_equal. fold p. pose proof (Z.div_mod z p). nia.
Qed.

Lemma ParseInt_pad v : is_version v → ParseInt (pad v) = Ret v.
Proof.
  intros H. unfold pad, is_version in *. rewrite (proj2 (Z.ltb_ge _ _)) by lia.
  pose proof (parse_decw 20 v 0 ltac:(lia)) as Hp. rewrite Z.mul_0_l, Z.add_0_l in Hp.
  assert (∃ c s, decw 20 v = String c s ∧ c ≠ "-"%char ∧ c ≠ "+"%char) as (c & s & E & H1 & H2).
  { eexists _, _. split; [reflexivity|]. set (d := v / 10 ^ Z.of_nat 19 mod 10).
    assert (0 <= d < 10) as Hd by apply digit_range.
    split; intros E; apply (f_equal N_of_ascii) in E; rewrite N_of_digit in E by done; simpl in E; lia. }
  rewrite E in *. unfold ParseInt. rewrite Hp. rewrite (proj2 (Z.leb_gt _ _)) by lia.
  destruct c as [[] [] [] [] [] [] [] []]; try done; by destruct H1 || by destruct H2.
Qed.

Lemma after_last_app c a s : has_char c s = false → after_last c (a +:+ String c s) = Some s.
Proof.
  intros Hs. assert (after_last c s = None) as Hn.
  { induction s as [|d s IH]; [done|]. simpl in *. apply orb_false_iff in Hs as [-> Hs]. by rewrite IH. }
  induction a as [|d a IH]; simpl; [by rewrite Hn, Ascii.eqb_refl|by rewrite IH].
Qed.

(** ** The data keys *)

Definition dkey (k : bytes) (v : Z) : bytes := GetKey k v.

Lemma dkey_eq k v : dkey k v = (mvccData +:+ k) +:+ String "." (pad v).
Proof. unfold dkey, GetKey, GetKeyPerfix. by rewrite !str_app_assoc. Qed.

Lemma getVersion_dkey k v : is_version v → getVersion (dkey k v) = Ret v.
Proof.
  intros Hv. unfold getVersion, getVersionString. rewrite dkey_eq, after_last_app by (by apply pad_nodot).
  by apply ParseInt_pad.
Qed.

Lemma str_app_inj_len (a b c d : string) :
  String.length b = String.length d → a +:+ b = c +:+ d → a = c ∧ b = d.
Proof.
  revert c. induction a as [|x a IH]; intros [|y c] Hl E; simpl in *.
  - done.
  - exfalso. apply (f_equal String.length) in E. simpl in E. rewrite str_length_app in E. lia.
  - exfalso. apply (f_equal String.length) in E. simpl in E. rewrite str_length_app in E. lia.
  - injection E as -> E. by destruct (IH c Hl E) as [-> ->].
Qed.

Lemma dkey_inj k v k' v' : is_version v → is_version v' → dkey k v = dkey k' v' → k = k' ∧ v = v'.
Proof.
  intros Hv Hv' E. rewrite !dkey_eq in E.
  apply str_app_inj_len in E as [E1 E2]; [|simpl; by rewrite !pad_length].
  injection E2 as E2. split; [by apply str_app_inj_l in E1|by apply pad_inj].
Qed.

(** A data key begins with the prefix of [k] only if it belongs to [k] or to a key that
    continues [k] with a dot. *)
Lemma dkey_prefix k k' v :
  is_version v → String.prefix (GetKeyPerfix k) (dkey k' v) = true →
  k' = k ∨ ∃ s, k' = k +:+ String "." s.
Proof.
  intros Hv H. apply str_prefix_drop in H. revert H. generalize (str_drop (String.length (GetKeyPerfix k)) (dkey k' v)).
  intros r E. unfold dkey, GetKey, GetKeyPerfix in E. rewrite !str_app_assoc in E. apply str_app_inj_l in E.
  cbn [String.append] in E. revert k' E. induction k as [|x k IH]; intros [|y k'] E; cbn [String.append] in *.
  - by left.
  - injection E as -> E. right. by exists k'.
  - exfalso. injection E as <- E. assert (has_char "." (pad v) = true) as Hd; [|by rewrite pad_nodot in Hd].
    rewrite E, has_char_app. simpl. by rewrite orb_true_r.
  - injection E as <- E. destruct (IH k' E) as [->|(s & ->)]; [by left|right; by exists s].
Qed.

Lemma dkey_lt k v w : is_version v → is_version w → ltb (dkey k v) (dkey k w) = true ↔ v < w.
Proof.
  intros Hv Hw. rewrite ltb_true, !dkey_eq, <-(pad_lt v w Hv Hw).
  generalize (mvccData +:+ k). intros a.
  assert (∀ c x y, bytes_lt (String c x) (String c y) ↔ bytes_lt x y) as Hc.
  { intros c x y. rewrite bytes_lt_cons. split; [intros [H|[_ H]]; [lia|done]|auto]. }
  induction a as [|x a IH]; cbn [String.append]; rewrite Hc; done.
Qed.

(** ** Key families *)

Lemma meta_data a b : mvccMeta +:+ a ≠ mvccData +:+ b.
Proof. cbn [mvccMeta mvccData mvccPrefix String.append]. congruence. Qed.
Lemma meta_last a b : mvccMeta +:+ a ≠ mvccLast +:+ b.
Proof. cbn [mvccMeta mvccLast mvccPrefix String.append]. congruence. Qed.
Lemma data_last a b : mvccData +:+ a ≠ mvccLast +:+ b.
Proof. cbn [mvccData mvccLast mvccPrefix String.append]. congruence. Qed.

Definition vkey (v : Z) : bytes := getVersionKey v.
Definition hkey (hash : bytes) : bytes := getVersionHashKey hash.
Definition klkey (v : Z) : bytes := getVersionKeyListKey v.

Lemma vkey_eq v : vkey v = mvccMeta +:+ "version." +:+ pad v.
Proof. unfold vkey, getVersionKey, mvccMetaVersion. by rewrite str_app_assoc. Qed.
Lemma klkey_eq v : klkey v = mvccMeta +:+ "versionkl." +:+ pad v.
Proof. unfold klkey, getVersionKeyListKey, mvccMetaVersionKeyList. by rewrite str_app_assoc. Qed.
Lemma dkey_eq' k v : dkey k v = mvccData +:+ k +:+ String "." (pad v).
Proof. by rewrite dkey_eq, str_app_assoc. Qed.

(** A state hash does not look like a version. *)
Definition plain (hash : bytes) : Prop := String.prefix "version" hash = false.

Lemma hkey_vkey hash v : plain hash → hkey hash ≠ vkey v.
Proof. intros H E. rewrite vkey_eq in E. apply str_app_inj_l in E. subst hash. done. Qed.
Lemma hkey_klkey hash v : plain hash → hkey hash ≠ klkey v.
Proof. intros H E. rewrite klkey_eq in E. apply str_app_inj_l in E. subst hash. done. Qed.
Lemma vkey_klkey v w : vkey v ≠ klkey w.
Proof. rewrite vkey_eq, klkey_eq. intros E. by apply str_app_inj_l in E. Qed.
Lemma hkey_inj a b : hkey a = hkey b → a = b.
Proof. apply str_app_inj_l. Qed.
Lemma vkey_inj v w : is_version v → is_version w → vkey v = vkey w → v = w.
Proof. intros Hv Hw E. apply str_app_inj_l in E. by apply pad_inj. Qed.
Lemma klkey_inj v w : is_version v → is_version w → klkey v = klkey w → v = w.
Proof. intros Hv Hw E. apply str_app_inj_l in E. by apply pad_inj. Qed.
Lemma dkey_hkey k v hash : dkey k v ≠ hkey hash.
Proof. rewrite dkey_eq'. apply not_eq_sym, meta_data. Qed.
Lemma dkey_vkey k v w : dkey k v ≠ vkey w.
Proof. rewrite dkey_eq', vkey_eq. apply not_eq_sym, meta_data. Qed.
Lemma dkey_klkey k v w : dkey k v ≠ klkey w.
Proof. rewrite dkey_eq', klkey_eq. apply not_eq_sym, meta_data. Qed.

Create HintDb mvcc.
#[export] Hint Resolve hkey_vkey hkey_klkey vkey_klkey dkey_hkey dkey_vkey dkey_klkey not_eq_sym : mvcc.

(** ** Lists of writes *)

Lemma last_write_fmap (f : bytes → bytes) (g : option bytes → option bytes) kvs key k :
  f k = key → (∀ k', k' ∈ kvs.*1 → f k' = key → k' = k) →
  GoMemDB.last_write key (map (λ kv : KV, (f kv.1, g kv.2)) kvs) = g <$> GoMemDB.last_write k kvs.
Proof.
  intros <- Hf. induction kvs as [|[k' v] kvs IH]; simpl; [done|].
  rewrite IH by (intros; apply Hf; set_solver). destruct (GoMemDB.last_write k kvs); [done|]. simpl.
  destruct (decide (k = k')) as [->|Hne]; [by rewrite decide_True|].
  rewrite decide_False; [done|]. intros E. destruct Hne. symmetry. apply Hf; [set_solver|done].
Qed.

Lemma last_write_other key (kvs : list KV) : (∀ kv, kv ∈ kvs → kv.1 ≠ key) → GoMemDB.last_write key kvs = None.
Proof.
  intros H. apply GoMemDB.last_write_None. intros (kv & E & Hin)%list_elem_of_fmap. by apply (H kv Hin).
Qed.

(** ** Histories: the versions in order, each with its hash and its writes *)

Abbreviation history := (list (bytes * list KV)).

(** What version [n] wrote to [k]: a nil value wrote nothing. *)
Definition entry (h : history) (k : bytes) (n : nat) : option bytes :=
  match h !! n with Some e => default None (GoMemDB.last_write k e.2) | None => None end.

(** The value of [k] at version [v]: the newest write at a version not above [v]. *)
Definition newest (k : bytes) (h : history) : option bytes :=
  foldl (λ acc e, match GoMemDB.last_write k e.2 with Some (Some x) => Some x | _ => acc end) None h.
Definition hist_get (h : history) (k : bytes) (v : Z) : option bytes :=
  newest k (take (Z.to_nat (Z.min (v + 1) (Z.of_nat (length h)))) h).

Lemma newest_snoc k h e :
  newest k (h ++ [e]) = match GoMemDB.last_write k e.2 with Some (Some x) => Some x | _ => newest k h end.
Proof. unfold newest. by rewrite foldl_app. Qed.

Lemma newest_spec k h :
  match newest k h with
  | Some x => ∃ n, entry h k n = Some x ∧ ∀ n', (n < n')%nat → entry h k n' = None
  | None => ∀ n, entry h k n = None
  end.
Proof.
  induction h as [|e h IH] using rev_ind; [by intros []|]. rewrite newest_snoc.
  assert (∀ n, entry (h ++ [e]) k n = if decide (n = length h) then default None (GoMemDB.last_write k e.2) else entry h k n) as He.
  { intros n. unfold entry. case_decide as E; [subst n; by rewrite list_lookup_middle|].
    destruct (decide (n < length h)%nat); [by rewrite lookup_app_l|].
    rewrite (lookup_ge_None_2 (h ++ [e])) by (rewrite length_app; simpl; lia).
    by rewrite (lookup_ge_None_2 h) by lia. }
  assert (∀ n, (length h ≤ n)%nat → entry h k n = None) as Hout.
  { intros n Hn. unfold entry. by rewrite lookup_ge_None_2. }
  destruct (GoMemDB.last_write k e.2) as [[x|]|] eqn:E.
  - exists (length h). rewrite He, decide_True by done. split; [done|]. intros n' Hn'.
    rewrite He, decide_False by lia. apply Hout. lia.
  - destruct (newest k h) as [x|].
    + destruct IH as (n & Hn & Hlast). exists n. split; [|intros n' Hn'; rewrite He; case_decide; [done|by apply Hlast]].
      rewrite He. case_decide; [|done]. subst. by rewrite Hout in Hn by lia.
    + intros n. rewrite He. by case_decide.
  - destruct (newest k h) as [x|].
    + destruct IH as (n & Hn & Hlast). exists n. split; [|intros n' Hn'; rewrite He; case_decide; [done|by apply Hlast]].
      rewrite He. case_decide; [|done]. subst. by rewrite Hout in Hn by lia.
    + intros n. rewrite He. by case_decide.
Qed.

Lemma entry_take h k n j : entry (take j h) k n = if decide (n < j)%nat then entry h k n else None.
Proof. unfold entry. case_decide; [by rewrite lookup_take_lt|by rewrite lookup_take_ge by lia]. Qed.

Lemma hist_get_spec h k v :
  0 <= v →
  match hist_get h k v with
  | Some x => ∃ n, Z.of_nat n <= v ∧ entry h k n = Some x ∧ ∀ n', (n < n')%nat → Z.of_nat n' <= v → entry h k n' = None
  | None => ∀ n, Z.of_nat n <= v → entry h k n = None
  end.
Proof.
  intros Hv. unfold hist_get. set (j := Z.to_nat _). pose proof (newest_spec k (take j h)) as H.
  assert (∀ n, (n < length h)%nat → (n < j)%nat ↔ Z.of_nat n <= v) as Hj by (unfold j; lia).
  assert (∀ n, (length h ≤ n)%nat → entry h k n = None) as Hout.
  { intros n Hn. unfold entry. by rewrite lookup_ge_None_2. }
  destruct (newest k (take j h)) as [x|].
  - destruct H as (n & Hn & Hlast). rewrite entry_take in Hn. destruct (decide (n < j)%nat) as [Hnj|]; [|done].
    exists n. split; [|split; [done|]].
    + apply Hj; [|done]. destruct (decide (n < length h)%nat); [done|]. by rewrite Hout in Hn by lia.
    + intros n' Hlt Hle. specialize (Hlast n' Hlt). rewrite entry_take in Hlast.
      destruct (decide (n' < length h)%nat) as [Hn'|]; [|apply Hout; lia].
      rewrite decide_True in Hlast; [done|]. by apply Hj.
  - intros n Hle. specialize (H n). rewrite entry_take in H.
    destruct (decide (n < length h)%nat) as [Hn'|]; [|apply Hout; lia].
    rewrite decide_True in H; [done|]. by apply Hj.
Qed.

(** ** The invariant: the database holds exactly the history *)

Section Refinement.
Context {Int64 : Codec Z} {KeyList : Codec (list bytes)}.
Context (K : bytes → Prop).   (* the keys the client uses *)
Implicit Types (m : gmap bytes bytes) (h : history).

Local Notation "# n" := (Z.of_nat n) (at level 1, format "# n").

Record Inv m h : Prop := {
  inv_data k n : K k → is_version #n → m !! dkey k #n = entry h k n;
  inv_keys key x : String.prefix mvccData key = true → m !! key = Some x →
    ∃ k n, K k ∧ (n < length h)%nat ∧ key = dkey k #n;
  inv_version n : is_version #n → m !! vkey #n = fst <$> h !! n;
  inv_versions key x : String.prefix mvccMetaVersion key = true → m !! key = Some x →
    ∃ n, (n < length h)%nat ∧ key = vkey #n;
  inv_hash n e : h !! n = Some e → m !! hkey e.1 = Some (Encode #n);
  inv_nohash hash : plain hash → hash ∉ h.*1 → m !! hkey hash = None;
  inv_list n e : h !! n = Some e → m !! klkey #n = Some (Encode (map fst e.2));
  inv_ok e : e ∈ h → plain e.1 ∧ Forall (λ kv : KV, K kv.1) e.2;
  inv_nodup : NoDup h.*1;
  inv_length : #(length h) < 2 ^ 63
}.

Lemma inv_empty : Inv ∅ [].
Proof using Type. split; try done; [intros e He; by apply elem_of_nil in He|constructor]. Qed.

Definition add_kvs (kvs : list KV) (hash : bytes) (n : Z) : list KV :=
  [(hkey hash, Some (Encode n)); (vkey n, Some hash)] ++ map (λ kv : KV, (dkey kv.1 n, kv.2)) kvs ++
  [(klkey n, Some (Encode (map fst kvs)))].
Definition del_kvs (kvs : list KV) (hash : bytes) (n : Z) : list KV :=
  [(hkey hash, None); (vkey n, None)] ++ map (λ kv : KV, (dkey kv.1 n, None)) kvs.

(** What a write list of a version does to each kind of key. *)
Lemma write_data kvs (pre post : list KV) (g : option bytes → option bytes) m k n v :
  is_version n → is_version v →
  (∀ kv, kv ∈ pre ++ post → ∃ r, kv.1 = mvccMeta +:+ r) →
  GoMemDB.apply_kvs (pre ++ map (λ kv : KV, (dkey kv.1 n, g kv.2)) kvs ++ post) m !! dkey k v =
    if decide (v = n) then match GoMemDB.last_write k kvs with Some w => g w | None => m !! dkey k v end
    else m !! dkey k v.
Proof using Type.
  intros Hn Hv Hmeta. rewrite GoMemDB.lookup_apply_kvs, !GoMemDB.last_write_app.
  assert (∀ l, (∀ kv, kv ∈ l → ∃ r, kv.1 = mvccMeta +:+ r) → GoMemDB.last_write (dkey k v) l = None) as Hno.
  { intros l Hl. apply last_write_other. intros kv Hkv E. destruct (Hl kv Hkv) as (r & Er).
    rewrite Er, dkey_eq' in E. by apply meta_data in E. }
  rewrite (Hno pre), (Hno post) by (intros kv Hkv; apply Hmeta, elem_of_app; auto).
  case_decide as E.
  - subst v. rewrite (last_write_fmap (λ k, dkey k n) g kvs _ k eq_refl).
    + by destruct (GoMemDB.last_write k kvs).
    + intros k' _ E. by apply dkey_inj in E as [-> _].
  - rewrite last_write_other; [done|]. intros kv Hkv Ek.
    apply list_elem_of_fmap in Hkv as (kv' & -> & _). simpl in Ek. by apply dkey_inj in Ek as [_ ->].
Qed.

Lemma meta_writes_add (kvs : list KV) hash n (kv : KV) :
  kv ∈ [(hkey hash, Some (Encode n)); (vkey n, Some hash)] ++ [(klkey n, Some (Encode (map fst kvs)))] →
  ∃ r, kv.1 = mvccMeta +:+ r.
Proof using Type.
  intros [[->|[->|H]%elem_of_cons]%elem_of_cons|H]%elem_of_app.
  - by exists hash.
  - exists ("version." +:+ pad n). apply vkey_eq.
  - by apply elem_of_nil in H.
  - apply list_elem_of_singleton in H as ->. exists ("versionkl." +:+ pad n). apply klkey_eq.
Qed.

Lemma meta_writes_del hash n (kv : KV) :
  kv ∈ [(hkey hash, None : option bytes); (vkey n, None)] ++ [] → ∃ r, kv.1 = mvccMeta +:+ r.
Proof using Type.
  rewrite app_nil_r. intros [->|[->|H]%elem_of_cons]%elem_of_cons.
  - by exists hash.
  - exists ("version." +:+ pad n). apply vkey_eq.
  - by apply elem_of_nil in H.
Qed.

(** The writes to keys of other families do not matter for a meta key. *)
Lemma write_meta kvs (pre post : list KV) (g : option bytes → option bytes) m n key :
  (∃ r, key = mvccMeta +:+ r) →
  GoMemDB.apply_kvs (pre ++ map (λ kv : KV, (dkey kv.1 n, g kv.2)) kvs ++ post) m !! key =
    match GoMemDB.last_write key (pre ++ post) with Some w => w | None => m !! key end.
Proof using Type.
  intros (r & ->). rewrite GoMemDB.lookup_apply_kvs, !GoMemDB.last_write_app.
  rewrite (last_write_other _ (map _ kvs)); [by destruct (GoMemDB.last_write _ post)|].
  intros kv Hkv E. apply list_elem_of_fmap in Hkv as (kv' & -> & _). simpl in E. rewrite dkey_eq' in E.
  symmetry in E. by apply meta_data in E.
Qed.

Lemma str_prefix_split a b s : String.prefix (a +:+ b) s = true → ∃ r, s = a +:+ r.
Proof using Type. intros H. apply str_prefix_drop in H. rewrite str_app_assoc in H. eauto. Qed.

Lemma vkey_prefix v : String.prefix mvccMetaVersion (vkey v) = true.
Proof using Type. apply str_prefix_app. Qed.
Lemma not_version_prefix hash : plain hash → String.prefix mvccMetaVersion (hkey hash) = false.
Proof using Type.
  intros H. destruct (String.prefix mvccMetaVersion (hkey hash)) eqn:E; [|done].
  apply str_prefix_drop in E. unfold mvccMetaVersion, hkey, getVersionHashKey in E.
  rewrite str_app_assoc in E. apply str_app_inj_l in E.
  unfold plain in H. rewrite E in H. done.
Qed.
Lemma klkey_prefix v : String.prefix mvccMetaVersion (klkey v) = false.
Proof using Type. by rewrite klkey_eq. Qed.

Lemma lw2 key (a b : bytes) (x y : option bytes) :
  GoMemDB.last_write key [(a, x); (b, y)] =
    if decide (key = b) then Some y else if decide (key = a) then Some x else None.
Proof using Type. simpl. by case_decide. Qed.

Lemma lw3 key (a b c : bytes) (x y z : option bytes) :
  GoMemDB.last_write key ([(a, x); (b, y)] ++ [(c, z)]) =
    if decide (key = c) then Some z else if decide (key = b) then Some y else if decide (key = a) then Some x else None.
Proof using Type. simpl. by repeat case_decide. Qed.

Lemma add_meta kvs hash n m key :
  (∃ r, key = mvccMeta +:+ r) →
  GoMemDB.apply_kvs (add_kvs kvs hash n) m !! key =
    if decide (key = klkey n) then Some (Encode (map fst kvs))
    else if decide (key = vkey n) then Some hash
    else if decide (key = hkey hash) then Some (Encode n) else m !! key.
Proof using Type.
  intros Hk. unfold add_kvs.
  rewrite (write_meta kvs [(hkey hash, Some (Encode n)); (vkey n, Some hash)] _ (λ x, x) m n key Hk), lw3.
  by repeat case_decide.
Qed.

Lemma del_kvs_eq kvs hash n :
  del_kvs kvs hash n = [(hkey hash, None); (vkey n, None)] ++ map (λ kv : KV, (dkey kv.1 n, None)) kvs ++ [].
Proof using Type. unfold del_kvs. by rewrite app_nil_r. Qed.

Lemma del_meta kvs hash n m key :
  (∃ r, key = mvccMeta +:+ r) →
  GoMemDB.apply_kvs (del_kvs kvs hash n) m !! key =
    if decide (key = vkey n) then None else if decide (key = hkey hash) then None else m !! key.
Proof using Type.
  intros Hk. rewrite del_kvs_eq.
  rewrite (write_meta kvs [(hkey hash, None); (vkey n, None)] [] (λ _, None) m n key Hk), app_nil_r, lw2.
  by repeat case_decide.
Qed.

Lemma vkey_meta v : ∃ r, vkey v = mvccMeta +:+ r.
Proof using Type. eexists. apply vkey_eq. Qed.
Lemma klkey_meta v : ∃ r, klkey v = mvccMeta +:+ r.
Proof using Type. eexists. apply klkey_eq. Qed.
Lemma hkey_meta hash : ∃ r, hkey hash = mvccMeta +:+ r.
Proof using Type. by exists hash. Qed.

Lemma data_not_meta key : String.prefix mvccData key = true → ¬ ∃ r, key = mvccMeta +:+ r.
Proof using Type. intros H%str_prefix_drop (r & E). rewrite E in H. by apply meta_data in H. Qed.

(** Of the data keys, a write list of a version touches only its own. *)
Lemma data_written kvs (pre post : list KV) (g : option bytes → option bytes) m n key x :
  String.prefix mvccData key = true →
  (∀ kv, kv ∈ pre ++ post → ∃ r, kv.1 = mvccMeta +:+ r) →
  GoMemDB.apply_kvs (pre ++ map (λ kv : KV, (dkey kv.1 n, g kv.2)) kvs ++ post) m !! key = Some x →
  (∃ kv, kv ∈ kvs ∧ key = dkey kv.1 n ∧ g kv.2 = Some x) ∨ m !! key = Some x.
Proof using Type.
  intros Hd Hmeta. rewrite GoMemDB.lookup_apply_kvs, !GoMemDB.last_write_app.
  assert (∀ l, (∀ kv, kv ∈ l → ∃ r, kv.1 = mvccMeta +:+ r) → GoMemDB.last_write key l = None) as Hno.
  { intros l Hl. apply last_write_other. intros kv Hkv E. apply (data_not_meta key Hd). rewrite <-E. by apply Hl. }
  rewrite (Hno pre), (Hno post) by (intros kv Hkv; apply Hmeta, elem_of_app; auto).
  destruct (GoMemDB.last_write key (map _ kvs)) as [w|] eqn:E; [|auto]. intros ->. left.
  apply GoMemDB.last_write_Some in E. apply list_elem_of_fmap in E as (kv & [= -> E] & Hin). by exists kv.
Qed.

(** Adding a version. *)
Lemma inv_add m h hash kvs :
  Inv m h → plain hash → hash ∉ h.*1 → Forall (λ kv : KV, K kv.1) kvs → #(length h) + 1 < 2 ^ 63 →
  Inv (GoMemDB.apply_kvs (add_kvs kvs hash #(length h)) m) (h ++ [(hash, kvs)]).
Proof using Type.
  intros [I1 I2 I3 I4 I5 I6 I7 I8 I9 I10] Hp Hf HK Hlen.
  assert (is_version #(length h)) as Hv by (unfold is_version; lia).
  assert (∀ n, (n < length h)%nat → is_version #n) as Hvn by (unfold is_version; lia).
  split.
  - intros k n Hk Hn. unfold add_kvs.
    rewrite (write_data kvs [(hkey hash, Some (Encode #(length h))); (vkey #(length h), Some hash)] _ (λ x, x));
      [|done|done|apply meta_writes_add].
    unfold entry. case_decide as E.
    + assert (n = length h) as -> by lia. rewrite list_lookup_middle by done. simpl.
      destruct (GoMemDB.last_write k kvs); [done|]. rewrite I1 by done. unfold entry. by rewrite lookup_ge_None_2.
    + rewrite I1 by done. unfold entry. destruct (decide (n < length h)%nat); [by rewrite lookup_app_l|].
      rewrite !(lookup_ge_None_2 _ n); [done|rewrite length_app; simpl; lia|lia].
  - intros key x Hd. unfold add_kvs.
    intros [(kv & Hin & -> & _)|Hx]%(data_written kvs [_; _] [_] (λ x, x)); [| |done|apply meta_writes_add].
    + exists kv.1, (length h). rewrite list.Forall_forall in HK. rewrite length_app. simpl. split_and!; [by apply HK|lia|done].
    + destruct (I2 _ _ Hd Hx) as (k & n & ? & ? & ?). exists k, n. rewrite length_app. split_and!; [done|lia|done].
  - intros n Hn. rewrite add_meta by apply vkey_meta. rewrite decide_False by apply vkey_klkey.
    case_decide as E.
    + apply vkey_inj in E; [|done|done]. assert (n = length h) as -> by lia. by rewrite list_lookup_middle.
    + rewrite decide_False by (apply not_eq_sym; by apply hkey_vkey). rewrite I3 by done.
      destruct (decide (n < length h)%nat); [by rewrite lookup_app_l|].
      rewrite !(lookup_ge_None_2 _ n); [done|rewrite length_app; simpl|lia].
      assert (n ≠ length h) by (intros ->; done). lia.
  - intros key x Hpre. destruct (str_prefix_split _ _ _ Hpre) as (r & ->). rewrite add_meta by eauto.
    rewrite length_app. cbn [length].
    case_decide as E; [rewrite E, klkey_prefix in Hpre; done|]. clear E.
    case_decide as E; [intros _; exists (length h); split; [lia|done]|]. clear E.
    case_decide as E; [by rewrite E, not_version_prefix in Hpre|]. intros Hx.
    destruct (I4 _ _ Hpre Hx) as (n & ? & ->). exists n. split; [lia|done].
  - intros n e Hn. assert (plain e.1) as Hpe.
    { apply list_elem_of_lookup_2, elem_of_app in Hn as [Hn|Hn]; [by apply I8|]. by apply list_elem_of_singleton in Hn as ->. }
    rewrite add_meta by apply hkey_meta. rewrite decide_False by (by apply hkey_klkey).
    rewrite decide_False by (by apply hkey_vkey). apply lookup_app_Some in Hn as [Hn|[Hl Hn]].
    + rewrite decide_False; [by apply I5|]. intros E%hkey_inj. apply Hf. rewrite <-E.
      apply list_elem_of_fmap. exists e. split; [done|]. by eapply list_elem_of_lookup_2.
    + apply list_lookup_singleton_Some in Hn as [Hn <-]. simpl. rewrite decide_True by done. do 2 f_equal. lia.
  - intros hash' Hp' Hnin. rewrite fmap_app in Hnin. rewrite add_meta by apply hkey_meta.
    rewrite decide_False by (by apply hkey_klkey). rewrite decide_False by (by apply hkey_vkey).
    rewrite decide_False; [apply I6; set_solver|]. intros E%hkey_inj. subst. set_solver.
  - intros n e Hn. rewrite add_meta by apply klkey_meta. apply lookup_app_Some in Hn as [Hn|[Hl Hn]].
    + pose proof (lookup_lt_Some _ _ _ Hn). rewrite decide_False.
      2: { intros E. apply klkey_inj in E; [lia|by apply Hvn|done]. }
      rewrite decide_False by (apply not_eq_sym, vkey_klkey).
      rewrite decide_False by (apply not_eq_sym; by apply hkey_klkey). by apply I7.
    + apply list_lookup_singleton_Some in Hn as [Hn <-]. rewrite decide_True; [done|]. f_equal. lia.
  - intros e [He|He]%elem_of_app; [by apply I8|]. apply list_elem_of_singleton in He as ->. done.
  - rewrite fmap_app. apply list.NoDup_app. split; [done|]. split; [|repeat constructor; set_solver].
    intros x Hx Hx'. simpl in Hx'. apply list_elem_of_singleton in Hx' as ->. done.
  - rewrite length_app. simpl. lia.
Qed.

(** Removing the last version. *)
Lemma inv_del m h hash kvs :
  Inv m (h ++ [(hash, kvs)]) → Inv (GoMemDB.apply_kvs (del_kvs kvs hash #(length h)) m) h.
Proof using Type.
  intros [I1 I2 I3 I4 I5 I6 I7 I8 I9 I10]. rewrite length_app in *. cbn [length] in *.
  assert (is_version #(length h)) as Hv by (unfold is_version; lia).
  assert (∀ n, (n < length h)%nat → is_version #n) as Hvn by (unfold is_version; lia).
  destruct (I8 (hash, kvs) ltac:(set_solver)) as [Hp _]. simpl in Hp.
  rewrite fmap_app in *. apply list.NoDup_app in I9 as (Hnd & Hdisj & _).
  assert (hash ∉ h.*1) as Hf by (intros H; apply (Hdisj _ H); left).
  split.
  - intros k n Hk Hn. rewrite del_kvs_eq.
    rewrite (write_data kvs [(hkey hash, None); (vkey #(length h), None)] [] (λ _, None));
      [|done|done|apply meta_writes_del]. rewrite I1 by done. unfold entry. case_decide as E.
    + assert (n = length h) as -> by lia. rewrite list_lookup_middle by done. simpl.
      rewrite (lookup_ge_None_2 h) by lia. by destruct (GoMemDB.last_write k kvs).
    + destruct (decide (n < length h)%nat); [by rewrite lookup_app_l|].
      rewrite !(lookup_ge_None_2 _ n); [done|lia|rewrite length_app; simpl; lia].
  - intros key x Hd. rewrite del_kvs_eq. intros Hx.
    destruct (I2 key x Hd) as (k & n & Hk & Hn & ->).
    { apply (data_written kvs [_; _] [] (λ _, None)) in Hx as [(kv & _ & _ & ?)|Hx]; [done|done|done|apply meta_writes_del]. }
    exists k, n. split; [done|]. split; [|done]. destruct (decide (n = length h)) as [->|]; [|lia]. exfalso.
    assert (is_version #(length h)) as Hv' by done.
    rewrite (write_data kvs [(hkey hash, None); (vkey #(length h), None)] [] (λ _, None)) in Hx;
      [|done|done|apply meta_writes_del].
    rewrite decide_True in Hx by done. rewrite I1 in Hx by done. unfold entry in Hx. rewrite list_lookup_middle in Hx by done.
    simpl in Hx. by destruct (GoMemDB.last_write k kvs).
  - intros n Hn. rewrite del_meta by apply vkey_meta. case_decide as E.
    + apply vkey_inj in E; [|done|done]. assert (n = length h) as -> by lia. by rewrite (lookup_ge_None_2 h).
    + rewrite decide_False by (apply not_eq_sym; by apply hkey_vkey). rewrite I3 by done.
      destruct (decide (n < length h)%nat); [by rewrite lookup_app_l|].
      rewrite !(lookup_ge_None_2 _ n); [done|lia|rewrite length_app; simpl].
      assert (n ≠ length h) by (intros ->; done). lia.
  - intros key x Hpre. destruct (str_prefix_split _ _ _ Hpre) as (r & ->). rewrite del_meta by eauto.
    case_decide as Ev; [done|]. case_decide; [done|]. intros Hx.
    destruct (I4 _ _ Hpre Hx) as (n & Hn & E). exists n. split; [|done].
    destruct (decide (n = length h)) as [->|]; [done|lia].
  - intros n e Hn. pose proof (lookup_lt_Some _ _ _ Hn). assert (e ∈ h) as He by (by eapply list_elem_of_lookup_2).
    destruct (I8 e) as [Hpe _]; [set_solver|].
    rewrite del_meta by apply hkey_meta. rewrite decide_False by (by apply hkey_vkey). rewrite decide_False.
    + apply I5. by rewrite lookup_app_l.
    + intros E%hkey_inj. apply Hf. rewrite <-E. apply list_elem_of_fmap. eauto.
  - intros hash' Hp' Hnin. rewrite del_meta by apply hkey_meta. rewrite decide_False by (by apply hkey_vkey).
    case_decide as E; [done|]. apply I6; [done|]. simpl. intros [H|H]%elem_of_app; [done|].
    apply list_elem_of_singleton in H as ->. done.
  - intros n e Hn. pose proof (lookup_lt_Some _ _ _ Hn). rewrite del_meta by apply klkey_meta.
    rewrite decide_False by (apply not_eq_sym, vkey_klkey).
    rewrite decide_False by (apply not_eq_sym; by apply hkey_klkey). apply I7. by rewrite lookup_app_l.
  - intros e He. apply I8. set_solver.
  - done.
  - lia.
Qed.

(** The keys of [MVCCIter] are of another family. *)
Lemma inv_last m h (l : list KV) :
  (∀ kv, kv ∈ l → ∃ k, kv.1 = getLastKey k) → Inv m h → Inv (GoMemDB.apply_kvs l m) h.
Proof using Type.
  intros Hl [I1 I2 I3 I4 I5 I6 I7 I8 I9 I10].
  assert (∀ key, (∀ k, key ≠ getLastKey k) → GoMemDB.apply_kvs l m !! key = m !! key) as Hsame.
  { intros key Hkey. rewrite GoMemDB.lookup_apply_kvs, last_write_other; [done|].
    intros kv Hkv E. destruct (Hl kv Hkv) as (k & Ek). by apply (Hkey k); rewrite <-Ek. }
  assert (∀ key, (∃ r, key = mvccMeta +:+ r) → GoMemDB.apply_kvs l m !! key = m !! key) as Hm.
  { intros key (r & ->). apply Hsame. intros k. apply meta_last. }
  assert (∀ key, (∃ r, key = mvccData +:+ r) → GoMemDB.apply_kvs l m !! key = m !! key) as Hd.
  { intros key (r & ->). apply Hsame. intros k. apply data_last. }
  split; try done.
  - intros k n Hk Hn. rewrite Hd; [by apply I1|]. eexists. apply dkey_eq'.
  - intros key x Hpre. rewrite Hd; [by apply I2|]. eexists. by apply str_prefix_drop.
  - intros n Hn. rewrite Hm by apply vkey_meta. by apply I3.
  - intros key x Hpre. destruct (str_prefix_split _ _ _ Hpre) as (r & ->). rewrite Hm by eauto. by apply I4.
  - intros n e He. rewrite Hm by apply hkey_meta. by apply I5.
  - intros hash Hp Hn. rewrite Hm by apply hkey_meta. by apply I6.
  - intros n e He. rewrite Hm by apply klkey_meta. by apply I7.
Qed.

(** *** Reads *)

Definition small m : Prop := #(size m) < 2 ^ 31.

Lemma kvdb_list_small m prefix key count direction :
  small m →
  kvdb_List m prefix key count direction =
    match list_ref m prefix key count direction with [] => Err ErrNotFound | l => Ret l end.
Proof using Type. intros H. by apply kvdb_list. Qed.

Lemma mvcc_limit p : bytesPrefix (String "." p) ≠ Some EmptyValue.
Proof using Type.
  cbn [bytesPrefix]. destruct (bytesPrefix p) as [l|]; [intros H; inversion H|].
  destruct (_ <? _)%N; [intros H; inversion H|done].
Qed.

Lemma mvcc_slice rev p m :
  slice_of rev (Some (String "." p)) None m = filter (λ q, String.prefix (String "." p) q.1 = true) (dsorted rev m).
Proof using Type. apply slice_prefix, mvcc_limit. Qed.

Lemma GetVersion_hash m h n e : Inv m h → h !! n = Some e → GetVersion m e.1 = Ret #n.
Proof using Type.
  intros HI He. unfold GetVersion. simpl kvdb_Get. unfold GoMemDB.Get.
  pose proof (inv_hash _ _ HI n e He) as H. unfold hkey in H. rewrite H. simpl.
  rewrite Decode_Encode, (proj2 (Z.ltb_ge _ _)) by lia. done.
Qed.

Lemma GetVersion_nohash m h hash : Inv m h → plain hash → hash ∉ h.*1 → GetVersion m hash = Err ErrNotFound.
Proof using Type.
  intros HI Hp Hn. unfold GetVersion. simpl kvdb_Get. unfold GoMemDB.Get.
  pose proof (inv_nohash _ _ HI hash Hp Hn) as H. unfold hkey in H. by rewrite H.
Qed.

Lemma GetMaxVersion_spec m h :
  Inv m h → small m → GetMaxVersion m = match h with [] => Err ErrNotFound | _ => Ret (#(length h) - 1) end.
Proof using Type.
  intros HI Hs. unfold GetMaxVersion. rewrite kvdb_list_small by done. unfold list_ref.
  rewrite decide_True by done. cbn [Z.eqb ListDESC ListASC negb].
  change mvccMetaVersion with (String "." (str_drop 1 mvccMetaVersion)). rewrite mvcc_slice.
  change (String "." (str_drop 1 mvccMetaVersion)) with mvccMetaVersion.
  pose proof (sorted_filter true (λ q, String.prefix mvccMetaVersion q.1 = true) _ (dsorted_sorted true m)) as Hsort.
  assert (∀ q, q ∈ filter (λ q, String.prefix mvccMetaVersion q.1 = true) (dsorted true m) ↔
    String.prefix mvccMetaVersion q.1 = true ∧ m !! q.1 = Some q.2) as Hin.
  { intros q. by rewrite list_elem_of_filter, elem_of_dsorted. }
  set (l := filter (λ q, String.prefix mvccMetaVersion q.1 = true) (dsorted true m)) in *.
  destruct (decide (h = [])) as [->|Hne].
  - destruct l as [|q l']; [done|]. exfalso.
    destruct (Hin q) as [[Hq Hx] _]; [left|]. by destruct (inv_versions _ _ HI _ _ Hq Hx) as (n & ? & _); simpl in *; lia.
  - destruct (exists_last Hne) as (h' & e & ->). pose proof (inv_length _ _ HI) as Hlen. rewrite length_app in *. cbn [length] in *.
    assert (is_version #(length h')) as Hv by (unfold is_version; lia).
    assert ((vkey #(length h'), e.1) ∈ l) as Htop.
    { apply Hin. split; [apply vkey_prefix|]. simpl. rewrite (inv_version _ _ HI) by done. by rewrite list_lookup_middle. }
    destruct l as [|q l']; [by apply elem_of_nil in Htop|].
    assert (q = (vkey #(length h'), e.1)) as ->.
    { destruct (Hin q) as [[Hq Hx] _]; [left|]. destruct (inv_versions _ _ HI _ _ Hq Hx) as (n & Hn & Ek).
      rewrite length_app in Hn. cbn [length] in Hn.
      assert (is_version #n) as Hvn by (unfold is_version; lia).
      apply elem_of_cons in Htop as [E|Htop]; [done|]. exfalso.
      inversion Hsort as [|? ? _ HF]; subst. rewrite list.Forall_forall in HF. apply HF in Htop. unfold klt in Htop. simpl in Htop.
      rewrite Ek in Htop. rewrite !vkey_eq in Htop.
      assert (bytes_lt (pad #(length h')) (pad #n)) as Hlt.
      { revert Htop. generalize mvccMeta. intros a. assert (∀ c x y, bytes_lt (String c x) (String c y) → bytes_lt x y) as Hc.
        { intros c x y. rewrite bytes_lt_cons. intros [?|[_ ?]]; [lia|done]. }
        induction a as [|c a IH]; cbn [String.append]; [by repeat intros ?%Hc|intros ?%Hc; by apply IH]. }
      apply pad_lt in Hlt; [lia|done|done]. }
    change (take_count 1 (((vkey #(length h'), e.1) :: l').*2)) with [e.1]. cbn [mbind outcome_bind].
    assert ((h' ++ [e]) !! length h' = Some e) as He by (by rewrite list_lookup_middle).
    rewrite (GetVersion_hash _ _ _ _ HI He). destruct (h' ++ [e]) eqn:E; [done|]. f_equal. lia.
Qed.

Section Separated.
Context (sep : ∀ k s, K k → ¬ K (k +:+ String "." s)).

Lemma GetV_spec m h k v :
  Inv m h → small m → K k → is_version v →
  GetV m k v = match hist_get h k v with Some x => Ret x | None => Err ErrNotFound end.
Proof using sep.
  intros HI Hs Hk Hv. unfold GetV. rewrite kvdb_list_small by done.
  assert (GetKey k v ≠ "") as Hnn by done. unfold list_ref. rewrite decide_False by done.
  change ((1 =? 1) && (ListSeek =? ListSeek)) with true. cbv beta iota zeta.
  assert (GetKeyPerfix k = String "." (str_drop 1 (GetKeyPerfix k))) as Ep by done.
  rewrite Ep, mvcc_slice, <-Ep. clear Ep.
  pose proof (sorted_filter true (λ q, String.prefix (GetKeyPerfix k) q.1 = true) _ (dsorted_sorted true m)) as Hsort.
  apply (sorted_filter true (λ p, ltb (GetKey k v) p.1 = false)) in Hsort.
  assert (∀ q, q ∈ filter (λ p, ltb (GetKey k v) p.1 = false)
      (filter (λ q, String.prefix (GetKeyPerfix k) q.1 = true) (dsorted true m)) ↔
    ltb (GetKey k v) q.1 = false ∧ String.prefix (GetKeyPerfix k) q.1 = true ∧ m !! q.1 = Some q.2) as Hin.
  { intros q. by rewrite !list_elem_of_filter, elem_of_dsorted. }
  revert Hsort Hin. generalize (filter (λ p, ltb (GetKey k v) p.1 = false)
      (filter (λ q, String.prefix (GetKeyPerfix k) q.1 = true) (dsorted true m))). intros l Hsort Hin.
  assert (∀ n, Z.of_nat n <= v → is_version #n) as Hvn by (unfold is_version in *; lia).
  assert (∀ n x, #n <= v → entry h k n = Some x → (dkey k #n, x) ∈ l) as Hmem.
  { intros n x Hn Hx. apply Hin. simpl. split_and!.
    - destruct (ltb (GetKey k v) (dkey k #n)) eqn:E; [|done]. apply dkey_lt in E; [lia|done|by apply Hvn].
    - apply str_prefix_app.
    - rewrite (inv_data _ _ HI); [done|done|by apply Hvn]. }
  pose proof (hist_get_spec h k v ltac:(unfold is_version in Hv; lia)) as Hspec.
  destruct l as [|q l].
  - destruct (hist_get h k v) as [x|]; [|done]. destruct Hspec as (n & Hn & Hx & _).
    apply (Hmem n x) in Hx; [|done]. by apply elem_of_nil in Hx.
  - destruct (Hin q) as [(Hle & Hpre & Hq) _]; [left|].
    destruct (inv_keys _ _ HI q.1 q.2) as (k' & n & Hk' & Hn & Ek); [|done|].
    { apply str_prefix_drop in Hpre. rewrite Hpre. unfold GetKeyPerfix. rewrite str_app_assoc. apply str_prefix_app. }
    assert (is_version #n) as Hvn' by (pose proof (inv_length _ _ HI); unfold is_version; lia).
    rewrite Ek in Hpre. destruct (dkey_prefix _ _ _ Hvn' Hpre) as [->|(s & ->)]; [|by destruct (sep k s Hk)].
    assert (#n <= v) as Hnv.
    { rewrite Ek in Hle. destruct (Z.le_gt_cases #n v) as [|Hlt]; [done|]. apply (dkey_lt k v #n Hv Hvn') in Hlt.
      unfold dkey in *. congruence. }
    rewrite Ek in Hq. rewrite (inv_data _ _ HI) in Hq by done.
    cbn [mbind outcome_bind]. rewrite Ek, (getVersion_dkey k #n Hvn'). cbn [mbind outcome_bind].
    rewrite (proj2 (Z.ltb_ge _ _)) by done.
    destruct (hist_get h k v) as [x|]; [|by rewrite Hspec in Hq].
    destruct Hspec as (n0 & Hn0 & Hx & Hlast). f_equal.
    destruct (lt_eq_lt_dec n n0) as [[Hlt| ->]|Hlt]; [|congruence|by rewrite (Hlast n Hlt Hnv) in Hq].
    exfalso. pose proof (Hmem n0 x Hn0 Hx) as Hm0. apply elem_of_cons in Hm0 as [E|Hm0].
    + rewrite <-E in Ek. simpl in Ek. apply dkey_inj in Ek as [_ E']; [lia|by apply Hvn|done].
    + inversion Hsort as [|? ? _ HF]; subst. rewrite list.Forall_forall in HF. apply HF in Hm0. unfold klt in Hm0. simpl in Hm0.
      rewrite Ek in Hm0. apply ltb_true, dkey_lt in Hm0; [lia|by apply Hvn|done].
Qed.

(** *** Runs of the two implementations *)

Definition add_version (iter : bool) m kvs hash prevHash version : outcome (list KV) :=
  if iter then MVCCIter.AddMVCC m kvs hash prevHash version else AddMVCC m kvs hash prevHash version.
Definition del_version (iter : bool) m hash version : outcome (list KV) :=
  if iter then MVCCIter.DelMVCC m hash version true else DelMVCC m hash version true.

(** Versions are added at the end and removed, strictly, by naming a hash and a version; the
    pairs that are returned are written to the database.  With [iter], the writes have
    values and version 0 stays. *)
Inductive reach (iter : bool) : gmap bytes bytes → history → Prop :=
  | reach_new : reach iter ∅ []
  | reach_add m h kvs hash prevHash kvlist :
      reach iter m h → small m → plain hash → hash ∉ h.*1 → Forall (λ kv : KV, K kv.1) kvs →
      #(length h) + 1 < 2 ^ 63 → (iter = true → Forall (λ kv : KV, is_Some kv.2) kvs) →
      add_version iter m kvs hash prevHash #(length h) = Ret kvlist →
      reach iter (GoMemDB.apply_kvs kvlist m) (h ++ [(hash, kvs)])
  | reach_del m h hash version kvlist :
      reach iter m h → small m → plain hash → (iter = true → 0 < version) →
      del_version iter m hash version = Ret kvlist →
      reach iter (GoMemDB.apply_kvs kvlist m) (removelast h).

(** When a version may be added, and what is written. *)
Lemma AddMVCC_spec m h kvs hash prevHash :
  Inv m h → #(length h) + 1 < 2 ^ 63 → (∀ p, prevHash = Some p → plain p) →
  AddMVCC m kvs hash prevHash #(length h) =
    match h with
    | [] => Ret (add_kvs kvs hash #(length h))
    | _ => match prevHash with
           | None => Err ErrPrevVersion
           | Some p => if decide (list.last h.*1 = Some p) then Ret (add_kvs kvs hash #(length h))
                       else if decide (p ∈ h.*1) then Err ErrPrevVersion else Err ErrNotFound
           end
    end.
Proof using Type.
  intros HI Hlen Hplain. unfold AddMVCC, SetVersionKV. rewrite (proj2 (Z.ltb_ge #(length h) 0)) by lia.
  destruct (decide (h = [])) as [->|Hne]; [done|].
  assert (∀ (A B : outcome (list KV)), match h with [] => A | _ => B end = B) as -> by (by destruct h).
  assert (0 < length h)%nat as Hpos by (destruct h; [done|simpl; lia]).
  rewrite (proj2 (Z.ltb_lt 0 _)) by lia. destruct prevHash as [p|]; [|done].
  rewrite wrap64_id by (unfold in64; lia).
  destruct (exists_last Hne) as (h' & e & Eh).
  assert (list.last h.*1 = Some e.1) as -> by (rewrite Eh, fmap_app; apply last_snoc).
  destruct (decide (p ∈ h.*1)) as [Hin|Hnin].
  - apply list_elem_of_fmap in Hin as (e' & -> & Hin). apply list_elem_of_lookup in Hin as (n & Hn).
    rewrite (GetVersion_hash _ _ _ _ HI Hn). cbn [mbind outcome_bind].
    pose proof (lookup_lt_Some _ _ _ Hn) as Hlt. assert (length h = S (length h')) as El by (rewrite Eh, length_app; simpl; lia).
    destruct (Z.eqb_spec #n (#(length h) - 1)) as [E|E].
    + assert (n = length h') as -> by lia. rewrite Eh, list_lookup_middle in Hn by done. injection Hn as <-.
      by rewrite decide_True.
    + rewrite decide_False; [done|]. intros [= Ee]. apply E.
      assert (n = length h') as ->; [|lia].
      apply (NoDup_lookup h.*1 n (length h') e'.1); [apply (inv_nodup _ _ HI)| |].
      * by rewrite list_lookup_fmap, Hn.
      * rewrite list_lookup_fmap, Eh, list_lookup_middle by done. simpl. by rewrite Ee.
  - rewrite (GetVersion_nohash _ _ _ HI); [|by apply Hplain|done]. cbn [mbind outcome_bind].
    rewrite decide_False; [done|]. intros [= <-]. apply Hnin. rewrite Eh, fmap_app. apply elem_of_app. right. left.
Qed.

(** What can be removed is the last version, under its own hash. *)
Lemma delMVCC_inv m h ks hash version kvlist :
  Inv m h → small m → plain hash → delMVCC m ks hash version true = Ret kvlist →
  ∃ h' kvs, h = h' ++ [(hash, kvs)] ∧ version = #(length h') ∧
    kvlist = [(hkey hash, None); (vkey version, None)] ++ map (λ k, (dkey k version, None)) ks.
Proof using Type.
  intros HI Hs Hp. unfold delMVCC. rewrite (GetMaxVersion_spec m h HI Hs).
  destruct (decide (h = [])) as [->|Hne]; [done|]. destruct (exists_last Hne) as (h' & [hash' kvs] & ->).
  assert (match h' ++ [(hash', kvs)] with [] => Err ErrNotFound | _ => Ret (#(length (h' ++ [(hash', kvs)])) - 1) end
          = Ret #(length h')) as ->.
  { rewrite length_app. simpl. destruct (h' ++ _) eqn:E; [by destruct h'|]. f_equal. lia. }
  cbn [mbind outcome_bind]. destruct (Z.eqb_spec #(length h') version) as [<-|]; [|done]. cbn [mbind outcome_bind].
  destruct (decide (hash ∈ (h' ++ [(hash', kvs)]).*1)) as [Hin|Hnin].
  2: { by rewrite (GetVersion_nohash _ _ _ HI Hp Hnin). }
  apply list_elem_of_fmap in Hin as (e & -> & Hin). apply list_elem_of_lookup in Hin as (n & Hn).
  rewrite (GetVersion_hash _ _ _ _ HI Hn). cbn [mbind outcome_bind].
  destruct (Z.eqb_spec #n #(length h')) as [E|]; [|done]. assert (n = length h') as -> by lia.
  rewrite list_lookup_middle in Hn by done. injection Hn as <-. cbn [negb fst].
  unfold DelVersionKV, SetVersionKV. rewrite (proj2 (Z.ltb_ge #(length h') 0)) by lia. cbn [mbind outcome_bind].
  intros [= <-]. exists h', kvs. done.
Qed.

Lemma GetDelKVList_top m h' hash kvs :
  Inv m (h' ++ [(hash, kvs)]) → GetDelKVList m #(length h') = Ret (map fst kvs).
Proof using Type.
  intros HI. unfold GetDelKVList. simpl kvdb_Get. unfold GoMemDB.Get.
  pose proof (inv_list _ _ HI (length h') (hash, kvs) ltac:(by rewrite list_lookup_middle)) as H.
  unfold klkey in H. rewrite H. simpl. by rewrite Decode_Encode.
Qed.


Lemma AddMVCC_kvs m kvs hash prevHash version kvlist :
  AddMVCC m kvs hash prevHash version = Ret kvlist → kvlist = add_kvs kvs hash version.
Proof using Type.
  unfold AddMVCC, SetVersionKV. destruct (if 0 <? version then _ else _) as [[]|e|]; [|done|done]. simpl.
  destruct (version <? 0); [done|]. cbn [mbind outcome_bind]. intros [= <-]. done.
Qed.

Lemma add_version_kvs iter m kvs hash prevHash version kvlist :
  add_version iter m kvs hash prevHash version = Ret kvlist →
  kvlist = add_kvs kvs hash version ++ (if iter then map (λ kv : KV, (getLastKey kv.1, kv.2)) kvs else []).
Proof using Type.
  unfold add_version, MVCCIter.AddMVCC. destruct iter; [|rewrite app_nil_r; apply AddMVCC_kvs].
  destruct (AddMVCC m kvs hash prevHash version) as [l|e|] eqn:E; [|done|done]. apply AddMVCC_kvs in E. subst l.
  cbn [mbind outcome_bind]. by intros [= <-].
Qed.

Lemma restore_last_keys m ks version l :
  MVCCIter.restore_last m ks version = Ret l → ∀ kv, kv ∈ l → ∃ k, kv.1 = getLastKey k.
Proof using Type.
  revert l. induction ks as [|k ks IH]; intros l; cbn [MVCCIter.restore_last].
  { intros [= <-] kv Hkv. by apply elem_of_nil in Hkv. }
  destruct (if 0 <? version then _ else _) as [kv0|e|] eqn:E0; [|done|done]. cbn [mbind outcome_bind].
  destruct (MVCCIter.restore_last m ks version) as [rest|e|]; [|done|done]. cbn [mbind outcome_bind]. intros [= <-].
  intros kv [Hkv|Hkv]%elem_of_app; [|by apply (IH rest eq_refl)].
  destruct (0 <? version); [|simplify_eq; by apply elem_of_nil in Hkv].
  exists k. destruct (GetV m k (version -₆₄ 1)) as [x|e|]; [| |done].
  - simplify_eq. by apply list_elem_of_singleton in Hkv as ->.
  - destruct (decide (e = ErrNotFound)); [|done]. simplify_eq. by apply list_elem_of_singleton in Hkv as ->.
Qed.

Lemma del_version_kvs iter m h hash version kvlist :
  Inv m h → small m → plain hash → del_version iter m hash version = Ret kvlist →
  ∃ h' kvs last, h = h' ++ [(hash, kvs)] ∧ version = #(length h') ∧ kvlist = del_kvs kvs hash version ++ last ∧
    (if iter then MVCCIter.restore_last m (map fst kvs) version = Ret last else last = []).
Proof using Type.
  intros HI Hs Hp. unfold del_version, MVCCIter.DelMVCC, DelMVCC.
  destruct (GetDelKVList m version) as [ks|e|] eqn:Ek; [|by destruct iter..]. cbn [mbind outcome_bind].
  destruct (delMVCC m ks hash version true) as [l|e|] eqn:El; [|by destruct iter..].
  destruct (delMVCC_inv _ _ _ _ _ _ HI Hs Hp El) as (h' & kvs & -> & -> & ->).
  rewrite (GetDelKVList_top _ _ _ _ HI) in Ek. injection Ek as <-.
  assert ([(hkey hash, None); (vkey #(length h'), None)] ++ map (λ k, (dkey k #(length h'), None)) (map fst kvs)
          = del_kvs kvs hash #(length h')) as Edel by (unfold del_kvs; by rewrite map_map).
  rewrite Edel. destruct iter; cbn [mbind outcome_bind].
  - destruct (MVCCIter.restore_last m (map fst kvs) #(length h')) as [last|e|] eqn:Er; [|done|done].
    cbn [mbind outcome_bind]. intros [= <-]. exists h', kvs, last. done.
  - intros [= <-]. exists h', kvs, []. by rewrite app_nil_r.
Qed.

Lemma reach_inv iter m h : reach iter m h → Inv m h.
Proof using Type.
  induction 1 as [|m h kvs hash prevHash kvlist _ HI Hs Hp Hf HK Hlen _ Hadd|m h hash version kvlist _ HI Hs Hp _ Hdel].
  - apply inv_empty.
  - apply add_version_kvs in Hadd as ->. rewrite GoMemDB.apply_kvs_app. apply inv_last; [|by apply inv_add].
    destruct iter; [|intros kv Hkv; by apply elem_of_nil in Hkv].
    intros kv Hkv. apply list_elem_of_fmap in Hkv as (kv' & -> & _). eauto.
  - destruct (del_version_kvs _ _ _ _ _ _ HI Hs Hp Hdel) as (h' & kvs & last & -> & -> & -> & Hlast).
    rewrite GoMemDB.apply_kvs_app, removelast_last. apply inv_last; [|by apply inv_del].
    destruct iter; [by eapply restore_last_keys|subst last]. intros kv Hkv. by apply elem_of_nil in Hkv.
Qed.

Lemma hist_get_below h' e k : hist_get (h' ++ [e]) k (#(length h') - 1) = newest k h'.
Proof using Type.
  unfold hist_get. rewrite length_app. cbn [length].
  replace (Z.to_nat _) with (length h') by lia. by rewrite take_app_length.
Qed.

Lemma restore_last_spec m h' e ks :
  Inv m (h' ++ [e]) → small m → Forall K ks →
  MVCCIter.restore_last m ks #(length h') =
    Ret (if 0 <? #(length h') then map (λ k, (getLastKey k, newest k h')) ks else []).
Proof using sep.
  intros HI Hs HK. pose proof (inv_length _ _ HI) as Hlen. rewrite length_app in Hlen. simpl in Hlen.
  destruct (Z.ltb_spec 0 #(length h')) as [H0|H0].
  - induction HK as [|k ks Hk HK IH]; cbn [MVCCIter.restore_last]; [done|].
    rewrite (proj2 (Z.ltb_lt _ _)) by done. rewrite wrap64_id by (unfold in64; lia).
    rewrite (GetV_spec m (h' ++ [e])) by (try done; unfold is_version; lia). rewrite hist_get_below, IH.
    cbn [map]. destruct (newest k h'); cbn [mbind outcome_bind]; [done|].
    rewrite decide_True by done. done.
  - induction HK as [|k ks Hk HK IH]; cbn [MVCCIter.restore_last]; [done|].
    rewrite (proj2 (Z.ltb_ge _ _)) by lia. cbn [mbind outcome_bind]. by rewrite IH.
Qed.

(** The last version can always be removed. *)
Lemma del_top iter m h' hash kvs :
  Inv m (h' ++ [(hash, kvs)]) → small m → ∃ kvlist, del_version iter m hash #(length h') = Ret kvlist.
Proof using sep.
  intros HI Hs. unfold del_version, MVCCIter.DelMVCC, DelMVCC. rewrite (GetDelKVList_top _ _ _ _ HI).
  assert (∃ l, delMVCC m (map fst kvs) hash #(length h') true = Ret l) as (l & El).
  { unfold delMVCC. rewrite (GetMaxVersion_spec _ _ HI Hs).
    assert (match h' ++ [(hash, kvs)] with [] => Err ErrNotFound | _ => Ret (#(length (h' ++ [(hash, kvs)])) - 1) end
            = Ret #(length h')) as ->.
    { rewrite length_app. simpl. destruct (h' ++ _) eqn:E; [by destruct h'|]. f_equal. lia. }
    cbn [mbind outcome_bind]. rewrite Z.eqb_refl. cbn [mbind outcome_bind].
    pose proof (GetVersion_hash _ _ (length h') (hash, kvs) HI ltac:(by rewrite list_lookup_middle)) as Hg.
    cbn [fst] in Hg. rewrite Hg.
    cbn [mbind outcome_bind]. rewrite Z.eqb_refl. unfold DelVersionKV, SetVersionKV.
    rewrite (proj2 (Z.ltb_ge #(length h') 0)) by lia. cbn [mbind outcome_bind negb]. eauto. }
  cbn [mbind outcome_bind]. rewrite El. destruct iter; [|eauto]. cbn [mbind outcome_bind].
  rewrite (restore_last_spec _ _ _ _ HI Hs); [cbn [mbind outcome_bind]; eauto|].
  destruct (inv_ok _ _ HI (hash, kvs)) as [_ HK]; [apply elem_of_app; right; left|]. simpl in HK.
  apply Forall_fmap. exact HK.
Qed.

(** *** The last values *)

Definition has_values (kvs : list KV) : Prop := Forall (λ kv : KV, is_Some kv.2) kvs.

(** The state after all versions. *)
Definition state h : gmap bytes bytes := foldl (λ s e, GoMemDB.apply_kvs e.2 s) ∅ h.

Lemma state_newest h k : Forall (λ e, has_values e.2) h → state h !! k = newest k h.
Proof using Type.
  induction h as [|e h IH] using rev_ind; [done|]. intros [Hh He]%Forall_app. apply Forall_cons_1 in He as [He _].
  unfold state in *. rewrite foldl_app. simpl. rewrite GoMemDB.lookup_apply_kvs, newest_snoc, <-IH by done.
  destruct (GoMemDB.last_write k e.2) as [[x|]|] eqn:E; [done| |done].
  apply GoMemDB.last_write_Some in E. unfold has_values in He. rewrite list.Forall_forall in He.
  apply He in E as [x Hx]. done.
Qed.

Record LastInv m h : Prop := {
  li_values : Forall (λ e, has_values e.2) h;
  li_last k : K k → m !! getLastKey k = newest k h;
  li_keys key x : String.prefix mvccLast key = true → m !! key = Some x → ∃ k, K k ∧ key = getLastKey k
}.

Lemma last_key_other (l : list KV) m k :
  (∀ kv, kv ∈ l → (∃ r, kv.1 = mvccMeta +:+ r) ∨ ∃ r, kv.1 = mvccData +:+ r) →
  GoMemDB.apply_kvs l m !! getLastKey k = m !! getLastKey k.
Proof using Type.
  intros Hl. rewrite GoMemDB.lookup_apply_kvs, last_write_other; [done|]. intros kv Hkv E.
  destruct (Hl kv Hkv) as [(r & Er)|(r & Er)]; rewrite Er in E; [by apply meta_last in E|by apply data_last in E].
Qed.

Lemma add_kvs_families kvs hash n kv :
  kv ∈ add_kvs kvs hash n → (∃ r, kv.1 = mvccMeta +:+ r) ∨ ∃ r, kv.1 = mvccData +:+ r.
Proof using Type.
  unfold add_kvs. intros [H|[H|H]%elem_of_app]%elem_of_app.
  - left. apply (meta_writes_add kvs hash n kv). apply elem_of_app. by left.
  - right. apply list_elem_of_fmap in H as (kv' & -> & _). eexists. apply dkey_eq'.
  - left. apply (meta_writes_add kvs hash n kv). apply elem_of_app. by right.
Qed.

Lemma del_kvs_families kvs hash n kv :
  kv ∈ del_kvs kvs hash n → (∃ r, kv.1 = mvccMeta +:+ r) ∨ ∃ r, kv.1 = mvccData +:+ r.
Proof using Type.
  unfold del_kvs. intros [H|H]%elem_of_app.
  - left. apply (meta_writes_del hash n kv). by rewrite app_nil_r.
  - right. apply list_elem_of_fmap in H as (kv' & -> & _). eexists. apply dkey_eq'.
Qed.

Lemma last_lookup (l : list (bytes * option bytes)) m k :
  GoMemDB.apply_kvs (map (λ kv : KV, (getLastKey kv.1, kv.2)) l) m !! getLastKey k =
    match GoMemDB.last_write k l with Some w => w | None => m !! getLastKey k end.
Proof using Type.
  rewrite GoMemDB.lookup_apply_kvs, (last_write_fmap getLastKey (λ x, x) l _ k eq_refl).
  - by destruct (GoMemDB.last_write k l).
  - intros k' _. apply str_app_inj_l.
Qed.

(** New keys of the family come from the list written. *)
Lemma last_keys_written (l : list KV) m key x :
  GoMemDB.apply_kvs l m !! key = Some x → m !! key = Some x ∨ ∃ kv, kv ∈ l ∧ kv.1 = key.
Proof using Type.
  rewrite GoMemDB.lookup_apply_kvs. destruct (GoMemDB.last_write key l) as [w|] eqn:E; [|auto].
  intros ->. right. apply GoMemDB.last_write_Some in E. by exists (key, Some x).
Qed.

Lemma reach_last m h : reach true m h → LastInv m h.
Proof using sep.
  induction 1 as [|m h kvs hash prevHash kvlist Hr HL Hs Hp Hf HK Hlen Hval Hadd|m h hash version kvlist Hr HL Hs Hp H0 Hdel].
  - split; [constructor|done|done].
  - destruct HL as [L1 L2 L3]. apply add_version_kvs in Hadd as ->. rewrite GoMemDB.apply_kvs_app.
    pose proof (Hval eq_refl) as Hv. split.
    + apply Forall_app. split; [done|]. by repeat constructor.
    + intros k Hk. rewrite last_lookup, newest_snoc, last_key_other by apply add_kvs_families. rewrite L2 by done.
      destruct (GoMemDB.last_write k kvs) as [[x|]|] eqn:E; simpl; rewrite ?E; [done| |done].
      apply GoMemDB.last_write_Some in E. rewrite list.Forall_forall in Hv. by apply Hv in E as [??].
    + intros key x Hpre [Hx|(kv & Hin & <-)]%last_keys_written.
      * apply last_keys_written in Hx as [Hx|(kv & Hin & <-)]; [by eapply L3|].
        apply str_prefix_drop in Hpre. exfalso.
        destruct (add_kvs_families _ _ _ _ Hin) as [(r & Er)|(r & Er)]; rewrite Er in Hpre;
          [by apply meta_last in Hpre|by apply data_last in Hpre].
      * apply list_elem_of_fmap in Hin as (kv' & -> & Hin). exists kv'.1. split; [|done].
        rewrite list.Forall_forall in HK. by apply HK.
  - pose proof (reach_inv _ _ _ Hr) as HI. destruct HL as [L1 L2 L3].
    destruct (del_version_kvs _ _ _ _ _ _ HI Hs Hp Hdel) as (h' & kvs & last & -> & -> & -> & Hlast).
    apply Forall_app in L1 as [L1 _]. rewrite GoMemDB.apply_kvs_app, removelast_last.
    destruct (inv_ok _ _ HI (hash, kvs)) as [_ HK]; [apply elem_of_app; right; left|]. simpl in HK.
    rewrite (restore_last_spec _ _ _ _ HI Hs) in Hlast by (by apply Forall_fmap).
    rewrite (proj2 (Z.ltb_lt _ _)) in Hlast by (by apply H0). injection Hlast as <-.
    assert (map (λ k, (getLastKey k, newest k h')) (map fst kvs) =
            map (λ kv : KV, (getLastKey kv.1, kv.2)) (map (λ kv : KV, (kv.1, newest kv.1 h')) kvs)) as ->
      by (by rewrite !map_map).
    split; [done| |].
    + intros k Hk. rewrite last_lookup, last_key_other by apply del_kvs_families. rewrite L2, newest_snoc by done. simpl.
      destruct (GoMemDB.last_write k (map (λ kv : KV, (kv.1, newest kv.1 h')) kvs)) as [w|] eqn:E.
      * apply GoMemDB.last_write_Some, list_elem_of_fmap in E as (kv & [= -> ->] & _). done.
      * apply GoMemDB.last_write_None in E. assert (GoMemDB.last_write k kvs = None) as ->; [|done].
        apply GoMemDB.last_write_None. intros Hin. apply E. apply list_elem_of_fmap in Hin as (kv & -> & Hin).
        apply list_elem_of_fmap. exists (kv.1, newest kv.1 h'). split; [done|]. apply list_elem_of_fmap. by exists kv.
    + intros key x Hpre [Hx|(kv & Hin & <-)]%last_keys_written.
      * apply last_keys_written in Hx as [Hx|(kv & Hin & <-)]; [by eapply L3|].
        apply str_prefix_drop in Hpre. exfalso.
        destruct (del_kvs_families _ _ _ _ Hin) as [(r & Er)|(r & Er)]; rewrite Er in Hpre;
          [by apply meta_last in Hpre|by apply data_last in Hpre].
      * rewrite map_map in Hin. apply list_elem_of_fmap in Hin as (kv' & -> & Hin). exists kv'.1. split; [|done].
        rewrite list.Forall_forall in HK. by apply HK.
Qed.
End Separated.
End Refinement.

(** ** Walking over the last values *)

(** [for it.Rewind(); it.Valid(); it.Next()], collecting keys and values. *)
Definition walk {I} `{!Iter I} (fuel : nat) (it : I) : list (bytes * bytes) :=
  for_each fuel (λ it acc, (false, acc ++ [(default "" (it_Key it), it_Value it)])) (it_Rewind it).2 [].

Definition strip (p : bytes * bytes) : bytes * bytes := (str_drop (String.length mvccLast) p.1, p.2).

Lemma walk_last {I} `{!Iter I, !IterSpec I} fuel (it : I) acc :
  it_ok it → (∀ p, p ∈ it_rest it → String.prefix mvccLast p.1 = true) → (length (it_rest it) ≤ fuel)%nat →
  for_each fuel (λ it acc, (false, acc ++ [(default "" (it_Key it), it_Value it)])) (MVCCIter.mkMvccIt it) acc =
    acc ++ map strip (it_rest it).
Proof.
  revert it acc. induction fuel as [|fuel IH]; intros it acc Ho Hp Hf; simpl.
  { destruct (it_rest it); [by rewrite app_nil_r|simpl in Hf; lia]. }
  unfold MVCCIter.mvccIt_Valid, MVCCIter.mvccIt_Key. cbn [MVCCIter.inner]. rewrite (it_valid it Ho).
  destruct (it_rest it) as [|p l] eqn:E; [by rewrite app_nil_r|].
  destruct (it_current it p l Ho E) as [Hk Hv]. rewrite Hk. cbn [nonempty negb mbind option_bind].
  rewrite (Hp p) by left. rewrite bool_decide_true by eauto. rewrite Hv. cbn [default fst snd].
  destruct (it_next it p l Ho E) as ((Ho' & _) & Hr & _).
  rewrite IH; [|done|rewrite Hr; intros q Hq; apply Hp; by right|rewrite Hr; simpl in Hf; lia].
  rewrite Hr. cbn [map]. by rewrite <-app_assoc.
Qed.

(** The iterator of [MVCCIter], from its start: the pairs under the prefix of the last
    values, without the prefix. *)
Lemma walk_iterator m rev :
  walk (S (size m)) (MVCCIter.Iterator m None None rev) =
    map strip (filter (λ q, String.prefix mvccLast q.1 = true) (dsorted rev m)).
Proof.
  unfold walk. assert (db_ok (I:=goLevelDBIt) m) as Hdb by done.
  destruct (db_iterator m (Some mvccLast) (bytesPrefix mvccLast) rev Hdb) as (Ho & _ & _ & Ha).
  change (db_map m) with m in Ha.
  change (slice_of rev (Some mvccLast) (bytesPrefix mvccLast) m) with (slice_of rev (Some mvccLast) None m) in Ha.
  rewrite slice_prefix in Ha by done. destruct (it_rewind _ Ho) as ((Ho' & _) & Hrest & _). rewrite Ha in Hrest.
  change ((it_Rewind (MVCCIter.Iterator m None None rev)).2) with
    (MVCCIter.mkMvccIt (it_Rewind (db_Iterator m (Some mvccLast) (bytesPrefix mvccLast) rev)).2).
  rewrite walk_last; [by rewrite app_nil_l, Hrest|done| |].
  - intros p Hp. rewrite Hrest in Hp. by apply list_elem_of_filter in Hp as [? _].
  - rewrite Hrest. etrans; [apply length_filter|]. rewrite length_dsorted. lia.
Qed.

Lemma dlt_append rev p a b : dlt rev (p +:+ a) (p +:+ b) → dlt rev a b.
Proof.
  induction p as [|c p IH]; [done|]. cbn [String.append]. intros H. apply IH. revert H.
  unfold dlt. destruct rev; rewrite bytes_lt_cons; (intros [?|[_ ?]]; [lia|done]).
Qed.

(** Taking off the common prefix keeps the order. *)
Lemma strip_sorted rev l :
  StronglySorted (klt rev) l → (∀ q, q ∈ l → String.prefix mvccLast q.1 = true) → StronglySorted (klt rev) (map strip l).
Proof.
  assert (∀ q : bytes * bytes, String.prefix mvccLast q.1 = true → q.1 = mvccLast +:+ (strip q).1) as Hq
    by (intros q ?; by apply str_prefix_drop).
  induction 1 as [|p l Hl IH HF]; intros Hp; cbn [map]; constructor; [apply IH; intros q ?; apply Hp; by right|].
  apply list.Forall_forall. intros q' (q & -> & Hin)%list_elem_of_fmap. rewrite list.Forall_forall in HF.
  pose proof (HF q Hin) as Hlt. unfold klt in *. rewrite (Hq p), (Hq q) in Hlt by (apply Hp; by left || by right).
  by apply dlt_append in Hlt.
Qed.

(** ** What the store promises *)

(** C36. Multi-version storage refines a history of versions.  Take a set [K] of keys in
    which no key continues another one with a dot (else [dotted_key_read]), and a run in
    which versions are added at the end and the last ones removed ([AddMVCC] and [DelMVCC],
    of [SimpleMVCC] or of [MVCCIter], their pairs being written to the database), each
    version with a hash that no version present has (else [repeated_hash]) and that does not
    start with ["version"], and, with [MVCCIter], with values in all writes and version 0
    never removed; the database has fewer than 2^31 pairs ([reach], [small]).  Then [GetV]
    returns the newest value written at a version not above the one asked for (writing nil
    is not a value, [deleted_key_read]), or that there is none; hashes and versions name
    each other and [GetMaxVersion] is the last version; a version is accepted exactly when
    the hash given for its predecessor is that of the last version; and [DelMVCC], asked
    strictly, accepts exactly the hash and the number of the last version. *)
Theorem mvcc_refines {Int64 : Codec Z} {KeyList : Codec (list bytes)} (K : bytes → Prop) iter m (h : history) :
  (∀ k s, K k → ¬ K (k +:+ String "." s)) → reach K iter m h → small m →
  (∀ k v, K k → is_version v →
     GetV m k v = match hist_get h k v with Some x => Ret x | None => Err ErrNotFound end) ∧
  (∀ n e, h !! n = Some e → GetVersion m e.1 = Ret (Z.of_nat n) ∧ GetVersionHash m (Z.of_nat n) = Ret e.1) ∧
  GetMaxVersion m = match h with [] => Err ErrNotFound | _ => Ret (Z.of_nat (length h) - 1) end ∧
  (∀ kvs hash p, plain p → Z.of_nat (length h) + 1 < 2 ^ 63 → h ≠ [] →
     (∃ kvlist, add_version iter m kvs hash (Some p) (Z.of_nat (length h)) = Ret kvlist) ↔ list.last h.*1 = Some p) ∧
  (∀ hash version, plain hash →
     (∃ kvlist, del_version iter m hash version = Ret kvlist) ↔
     ∃ h' kvs, h = h' ++ [(hash, kvs)] ∧ version = Z.of_nat (length h')).
Proof.
  intros sep Hr Hs. pose proof (reach_inv K iter m h Hr) as HI. split_and!.
  - intros k v. by apply GetV_spec with (K := K).
  - intros n e He. split; [by eapply GetVersion_hash|]. unfold GetVersionHash. simpl kvdb_Get. unfold GoMemDB.Get.
    pose proof (lookup_lt_Some _ _ _ He). pose proof (inv_length _ _ _ HI).
    pose proof (inv_version _ _ _ HI n ltac:(unfold is_version; lia)) as H1. unfold vkey in H1. rewrite H1, He. done.
  - by eapply GetMaxVersion_spec.
  - intros kvs hash p Hp Hlen Hne. unfold add_version, MVCCIter.AddMVCC.
    rewrite (AddMVCC_spec K m h kvs hash (Some p) HI Hlen) by (intros ? [= <-]; done).
    assert (∀ (A B : outcome (list KV)), match h with [] => A | _ => B end = B) as -> by (by destruct h).
    destruct (decide (list.last h.*1 = Some p)) as [E|E]; [split; [done|intros _; destruct iter; eexists; reflexivity]|].
    split; [|done]. intros (l & Hl). by destruct iter, (decide (p ∈ h.*1)).
  - intros hash version Hp. split.
    + intros (l & Hl). destruct (del_version_kvs _ _ _ _ _ _ _ HI Hs Hp Hl) as (h' & kvs & _ & ? & ? & _). eauto.
    + intros (h' & kvs & -> & ->). by eapply del_top.
Qed.

(** The iterator over the last values ([MVCCIter]) walks over the current state: after
    any run, going through it from either end gives, in key order, exactly the keys and values
    that the writes of the versions in the history leave when they are applied in order, and
    [GetV] at the last version agrees with it. *)
Lemma mvcc_iter_state {Int64 : Codec Z} {KeyList : Codec (list bytes)} (K : bytes → Prop) m (h : history) :
  (∀ k s, K k → ¬ K (k +:+ String "." s)) → reach K true m h → small m →
  (∀ rev, walk (S (size m)) (MVCCIter.Iterator m None None rev) = dsorted rev (state h)) ∧
  (∀ k, K k → h ≠ [] →
     GetV m k (Z.of_nat (length h) - 1) = match state h !! k with Some x => Ret x | None => Err ErrNotFound end).
Proof.
  intros sep Hr Hs. pose proof (reach_inv K true m h Hr) as HI. destruct (reach_last K sep m h Hr) as [L1 L2 L3].
  pose proof (inv_length _ _ _ HI) as Hlen.
  assert (∀ k x, state h !! k = Some x → K k) as HK.
  { intros k x. rewrite state_newest by done. intros Hx. pose proof (newest_spec k h) as Hn. rewrite Hx in Hn.
    destruct Hn as (n & Hn & _). unfold entry in Hn. destruct (h !! n) as [e|] eqn:E; [|done].
    destruct (GoMemDB.last_write k e.2) as [w|] eqn:Ew; [|done]. apply GoMemDB.last_write_Some in Ew.
    apply list_elem_of_lookup_2 in E. destruct (inv_ok _ _ _ HI e E) as [_ HF]. rewrite list.Forall_forall in HF.
    by apply HF in Ew. }
  split.
  - intros rev. rewrite walk_iterator. apply dsorted_spec.
    { apply strip_sorted; [apply sorted_filter, dsorted_sorted|]. by intros q [? _]%list_elem_of_filter. }
    intros k x. rewrite state_newest by done. split.
    + intros (q & Eq & [Hq Hin]%list_elem_of_filter)%list_elem_of_fmap. apply elem_of_dsorted in Hin.
      destruct (L3 _ _ Hq Hin) as (k' & Hk' & Ek). unfold strip in Eq. rewrite Ek in Eq, Hin.
      unfold getLastKey in Eq. rewrite str_drop_app in Eq. injection Eq as -> ->. by rewrite <-L2.
    + intros Hx. assert (K k) as Hk by (apply (HK k x); by rewrite state_newest).
      apply list_elem_of_fmap. exists (getLastKey k, x). unfold strip. cbn [fst snd]. unfold getLastKey. rewrite str_drop_app.
      split; [done|]. apply list_elem_of_filter. split; [apply str_prefix_app|]. apply elem_of_dsorted. simpl.
      change (m !! getLastKey k = Some x). by rewrite L2.
  - intros k Hk Hne. assert (0 < length h)%nat by (destruct h; [done|simpl; lia]).
    rewrite (GetV_spec K sep m h) by (try done; unfold is_version; lia). rewrite state_newest by done.
    unfold hist_get. replace (Z.to_nat _) with (length h) by lia. by rewrite firstn_all.
Qed.

(** ** A concrete run *)

Module MvccDemo.
#[local] Instance Int64 : Codec Z := countable_codec.
#[local] Instance KeyList : Codec (list bytes) := countable_codec.

Definition K (k : bytes) : Prop := k = "a" ∨ k = "b-c".

Lemma K_sep k s : K k → ¬ K (k +:+ String "." s).
Proof. intros [->| ->] [H|H]; discriminate. Qed.

Definition pairs (o : outcome (list KV)) : list KV := match o with Ret l => l | _ => [] end.

Definition kvs0 : list KV := [("a", Some "1")].
Definition kvs1 : list KV := [("b-c", Some "2"); ("a", Some "3")].
Definition kvs1' : list KV := [("a", Some "9")].

Definition m0 (iter : bool) := GoMemDB.apply_kvs (pairs (add_version iter ∅ kvs0 "h0" None 0)) ∅.
Definition m1 iter := GoMemDB.apply_kvs (pairs (add_version iter (m0 iter) kvs1 "h1" (Some "h0") 1)) (m0 iter).
Definition m2 iter := GoMemDB.apply_kvs (pairs (del_version iter (m1 iter) "h1" 1)) (m1 iter).
Definition m3 iter := GoMemDB.apply_kvs (pairs (add_version iter (m2 iter) kvs1' "h1'" (Some "h0") 1)) (m2 iter).

Lemma K_all : Forall (λ kv : KV, K kv.1) kvs0 ∧ Forall (λ kv : KV, K kv.1) kvs1 ∧ Forall (λ kv : KV, K kv.1) kvs1'.
Proof. unfold K. split_and!; repeat (constructor; [first [by left|by right]|]); constructor. Qed.

(** Two versions, the second removed, another one in its place. *)
Lemma demo_reach iter : reach K iter (m3 iter) [("h0", kvs0); ("h1'", kvs1')].
Proof.
  destruct K_all as (K0 & K1 & K1').
  assert (∀ kvs : list KV, forallb (λ kv, match kv.2 with Some _ => true | None => false end) kvs = true →
            Forall (λ kv : KV, is_Some kv.2) kvs) as Hval.
  { induction kvs as [|[k [v|]] kvs IH]; simpl; [constructor|constructor; [by eexists|by apply IH]|done]. }
  assert (reach K iter (m0 iter) [("h0", kvs0)]) as R0.
  { apply (reach_add K iter ∅ [] kvs0 "h0" None); [constructor|vm_compute; done|done|set_solver|done|vm_compute; done|intros _; by apply Hval|].
    destruct iter; vm_compute; reflexivity. }
  assert (reach K iter (m1 iter) [("h0", kvs0); ("h1", kvs1)]) as R1.
  { apply (reach_add K iter (m0 iter) [("h0", kvs0)] kvs1 "h1" (Some "h0"));
      [done|destruct iter; vm_compute; done|done|apply (bool_decide_unpack _); vm_compute; done|done|vm_compute; done|intros _; by apply Hval|].
    destruct iter; vm_compute; reflexivity. }
  assert (reach K iter (m2 iter) [("h0", kvs0)]) as R2.
  { apply (reach_del K iter (m1 iter) [("h0", kvs0); ("h1", kvs1)] "h1" 1);
      [done|destruct iter; vm_compute; done|done|intros _; lia|]. destruct iter; vm_compute; reflexivity. }
  apply (reach_add K iter (m2 iter) [("h0", kvs0)] kvs1' "h1'" (Some "h0"));
    [done|destruct iter; vm_compute; done|done|apply (bool_decide_unpack _); vm_compute; done|done|vm_compute; done|intros _; by apply Hval|].
  destruct iter; vm_compute; reflexivity.
Qed.

Lemma demo_small iter : small (m3 iter).
Proof. destruct iter; vm_compute; done. Qed.

Lemma mvcc_refines_witness :
  GetV (m3 false) "a" 0 = Ret "1" ∧ GetV (m3 false) "a" 5 = Ret "9" ∧ GetV (m3 false) "b-c" 5 = Err ErrNotFound ∧
  GetMaxVersion (m3 false) = Ret 1 ∧ ∃ kvlist, del_version false (m3 false) "h1'" 1 = Ret kvlist.
Proof.
  destruct (mvcc_refines K false (m3 false) [("h0", kvs0); ("h1'", kvs1')] K_sep (demo_reach false) (demo_small false))
    as (H1 & _ & H3 & _ & H5).
  assert (K "a") as Ka by (by left). assert (K "b-c") as Kb by (by right).
  split; [rewrite H1; [reflexivity|exact Ka|unfold is_version; lia]|].
  split; [rewrite H1; [reflexivity|exact Ka|unfold is_version; lia]|].
  split; [rewrite H1; [reflexivity|exact Kb|unfold is_version; lia]|].
  split; [rewrite H3; reflexivity|].
  exact (proj2 (H5 "h1'" 1 eq_refl) (ex_intro _ [("h0", kvs0)] (ex_intro _ kvs1' (conj eq_refl eq_refl)))).
Defined.

Lemma mvcc_iter_state_witness :
  walk 100 (MVCCIter.Iterator (m3 true) None None true) = [("a", "9")] ∧ GetV (m3 true) "a" 1 = Ret "9".
Proof.
  destruct (mvcc_iter_state K (m3 true) [("h0", kvs0); ("h1'", kvs1')] K_sep (demo_reach true) (demo_small true)) as [H1 H2].
  split.
  - etrans; [|etrans; [exact (H1 true)|reflexivity]]. vm_compute. reflexivity.
  - exact (H2 "a" (or_introl eq_refl) ltac:(discriminate)).
Defined.

(** Without the condition on dots a read goes wrong: no version of ["a"] was written, and
    the read of ["a"] returns the value of ["a.0"]. *)
Example dotted_key_read :
  GetV (GoMemDB.apply_kvs (pairs (AddMVCC (∅ : gmap bytes bytes) [("a.0", Some "x")] "h0" None 0)) ∅) "a" 5 = Ret "x".
Proof. vm_compute. reflexivity. Qed.

(** A deletion is not a version: after the nil value of version 1 the read at version 1
    still returns the value of version 0. *)
Example deleted_key_read :
  let m := GoMemDB.apply_kvs (pairs (AddMVCC (m0 false) [("a", None)] "h1" (Some "h0") 1)) (m0 false) in
  GetV m "a" 1 = Ret "1".
Proof. vm_compute. reflexivity. Qed.

(** A version that has the hash of its predecessor takes its entry over: when it is removed,
    the predecessor is not found by its hash, and nothing can be added after it. *)
Example repeated_hash :
  let m := GoMemDB.apply_kvs (pairs (AddMVCC (m0 false) [("a", Some "2")] "h0" (Some "h0") 1)) (m0 false) in
  let m' := GoMemDB.apply_kvs (pairs (DelMVCC m "h0" 1 true)) m in
  GetVersion m "h0" = Ret 1%Z ∧ GetVersionHash m' 0 = Ret "h0" ∧ GetVersion m' "h0" = Err ErrNotFound ∧
  AddMVCC m' [("a", Some "2")] "h1" (Some "h0") 1 = Err ErrNotFound.
Proof. split_and!; vm_compute; reflexivity. Qed.

(** [Trash] takes ["a-b"] for a version of ["a"]: its only version is deleted. *)
Example trash_loses_key :
  let m := GoMemDB.apply_kvs (pairs (AddMVCC (∅ : gmap bytes bytes) [("a", Some "1"); ("a-b", Some "2")] "h0" None 0)) ∅ in
  GetV m "a-b" 0 = Ret "2" ∧ GetV (MVCCHelper.Trash 0 m).2 "a-b" 0 = Err ErrNotFound ∧
  GetV (MVCCHelper.Trash 0 m).2 "a" 0 = Ret "1".
Proof. split_and!; vm_compute; reflexivity. Qed.
End MvccDemo.
