(* ===== verification/Types.v ===== *)
(** Executor names, executor keys and amounts: [types/types.go] and the
    parallel-chain predicates of [types/config.go].

    The process-wide configuration those functions read (the chain title, the
    list of executors users may create) is an explicit argument. *)

From Stdlib Require Import Ascii String.
From S2P Require Import Prelude.
Local Open Scope string_scope.

(** ** Constants of [types/config.go] and [types/const.go] *)

Definition Coin : Z := 100000000.
Definition MaxCoin : Z := 100000000000000000.
Definition TokenPrecision : Z := 100000000.
Definition MaxTokenBalance : Z := 900 * 100000000 * TokenPrecision.
Definition MaxExecNameLength : nat := 100.

Definition UserKeyX : string := "user.".
Definition ParaKeyX : string := "user.p.".
Definition bytesExec : string := "exec-".
Definition commonPrefix : string := "mavl-".

Definition CheckAmount (amount : Z) : bool :=
  if (amount <=? 0)%Z || (MaxCoin <=? amount)%Z then false else true.

Section Config.
(** [title] is the chain title; [AllowUserExec] the executors of the configuration. *)
Context (title : string) (AllowUserExec : list string).

Definition isPara : bool :=
  (count_char "." title =? 3)%nat && String.prefix ParaKeyX title.

Definition IsParaExecName (exec : string) : bool := String.prefix ParaKeyX exec.

Definition IsMyParaExecName (exec : string) : bool :=
  IsParaExecName exec && String.prefix title exec.

Definition ExecName (name : string) : string :=
  if (1 <? String.length name)%nat && String.prefix "#" name then str_drop 1 name
  else if IsParaExecName name then name
  else if isPara then title +:+ name
  else name.

Definition GetParaExec (execer : string) : string :=
  if negb isPara then execer
  else if negb (String.prefix title execer) then execer
  else str_drop (String.length title) execer.

(** The loop of [GetParaExecName]: [rest] is [execer[i:]]. *)
Fixpoint para_exec_loop (execer rest : string) (count : nat) : string :=
  match rest with
  | EmptyString => execer
  | String c rest' =>
      let count := if Ascii.eqb c "." then S count else count in
      if (count =? 3)%nat && negb (String.eqb rest' "") then rest'
      else para_exec_loop execer rest' count
  end.

Definition GetParaExecName (execer : string) : string :=
  if negb (String.prefix ParaKeyX execer) then execer
  else para_exec_loop execer execer 0.

(** The loop of [GetRealExecName] returns the final [index]. *)
Fixpoint user_exec_loop (rest : string) (i count index : nat) : nat :=
  match rest with
  | EmptyString => index
  | String c rest' =>
      let count := if Ascii.eqb c "." then S count else count in
      let index := i in
      if (count =? 2)%nat then index - 1
      else user_exec_loop rest' (S i) count index
  end.

Definition GetRealExecName (execer : string) : string :=
  let execer := GetParaExecName execer in
  if String.prefix ParaKeyX execer then execer
  else if String.prefix UserKeyX execer then
    let index := user_exec_loop execer 0 0 0 in
    let e := str_slice (String.length UserKeyX) (index + 1) execer in
    if (0 <? String.length e)%nat then e else execer
  else execer.

Definition IsAllowExecName (name execer : string) : bool :=
  if (MaxExecNameLength <? String.length name)%nat
     || (MaxExecNameLength <? String.length execer)%nat then false
  else if (String.length name <? 3)%nat || (String.length execer <? 3)%nat then false
  else if has_char "-" name || has_char "#" name then false
  else if negb (String.eqb name execer)
          && negb (String.eqb name (GetRealExecName execer)) then false
  else if String.prefix UserKeyX name then true
  else existsb (String.eqb name) AllowUserExec.
End Config.

(** ** State keys: ["mavl-" execer "-" ...] *)

(** The first loop of [GetExecKey] over [key[len(commonPrefix):]]:
    [n] counts the dashes seen, the result is ([start], [end]). *)
Fixpoint exec_key_scan (rest : string) (i n start : nat) : nat * nat :=
  match rest with
  | EmptyString => (start, 0)
  | String c rest' =>
      if Ascii.eqb c "-" then
        let n := S n in
        let start := if (n =? 2)%nat then i + 1 else start in
        if (n =? 3)%nat then (start, i) else exec_key_scan rest' (S i) n start
      else exec_key_scan rest' (S i) n start
  end.

(** The second loop: the position of the first [':'] at or after [k]. *)
Fixpoint find_colon (rest : string) (k : nat) : option nat :=
  match rest with
  | EmptyString => None
  | String c rest' => if Ascii.eqb c ":" then Some k else find_colon rest' (S k)
  end.

Definition GetExecKey (key : bytes) : string * bool :=
  let plen := String.length commonPrefix in
  let '(start, end_) := exec_key_scan (str_drop plen key) plen 0 0 in
  if (0 <? start)%nat && (0 <? end_)%nat then
    if String.eqb (str_slice start (end_ + 1) key) bytesExec then
      let start := end_ + 1 in
      match find_colon (str_drop end_ key) end_ with
      | Some k => (str_slice start k key, true)
      | None => ("", false)
      end
    else ("", false)
  else ("", false).

(** The loop of [FindExecer]: the position of the first ['-'] at or after [i]. *)
Fixpoint find_dash (rest : string) (i : nat) : option nat :=
  match rest with
  | EmptyString => None
  | String c rest' => if Ascii.eqb c "-" then Some i else find_dash rest' (S i)
  end.

Definition FindExecer (key : bytes) : outcome bytes :=
  if negb (String.prefix commonPrefix key) then Err (ErrOther "ErrMavlKeyNotStartWithMavl")
  else
    let plen := String.length commonPrefix in
    match find_dash (str_drop plen key) plen with
    | Some i => Ret (str_slice plen i key)
    | None => Err (ErrOther "ErrNoExecerInMavlKey")
    end.

(** ** Lemmas *)

Lemma CheckAmount_true amount : CheckAmount amount = true ↔ (0 < amount < MaxCoin)%Z.
Proof.
  unfold CheckAmount.
  destruct (Z.leb_spec amount 0), (Z.leb_spec MaxCoin amount); simpl; split; try done; lia.
Qed.

(** Scanning a text without the separator only moves the position. *)
Lemma find_dash_app a b i :
  has_char "-" a = false → find_dash (a +:+ String "-" b) i = Some (i + String.length a).
Proof.
  revert i. induction a as [|c a IH]; intros i H; simpl in *.
  - f_equal. lia.
  - apply orb_false_iff in H as [-> H]. rewrite IH by done. f_equal. lia.
Qed.

Lemma find_colon_app a b k :
  has_char ":" a = false → find_colon (a +:+ String ":" b) k = Some (k + String.length a).
Proof.
  revert k. induction a as [|c a IH]; intros k H; simpl in *.
  - f_equal. lia.
  - apply orb_false_iff in H as [-> H]. rewrite IH by done. f_equal. lia.
Qed.

Lemma exec_key_scan_skip a b i n start :
  has_char "-" a = false →
  exec_key_scan (a +:+ b) i n start = exec_key_scan b (i + String.length a) n start.
Proof.
  revert i. induction a as [|c a IH]; intros i H; simpl in *.
  - by rewrite Nat.add_0_r.
  - apply orb_false_iff in H as [-> H]. rewrite IH by done. f_equal. lia.
Qed.

(** The title-dot count: a parallel-chain executor name loses its title. *)
Lemma para_exec_loop_skip execer a b n :
  has_char "." a = false → n < 3 →
  para_exec_loop execer (a +:+ b) n = para_exec_loop execer b n.
Proof.
  intros H Hn. induction a as [|c a IH]; simpl in *; [done|].
  apply orb_false_iff in H as [-> H].
  destruct (Nat.eqb_spec n 3); [lia|]. simpl. auto.
Qed.

Lemma para_exec_name_strip t n :
  has_char "." t = false → n ≠ "" → GetParaExecName (ParaKeyX +:+ t +:+ "." +:+ n) = n.
Proof.
  intros Ht Hn. unfold GetParaExecName. rewrite str_prefix_app. simpl negb. cbv iota.
  generalize (ParaKeyX +:+ t +:+ "." +:+ n) at 1. intros e.
  simpl. rewrite para_exec_loop_skip by (done || lia). simpl.
  destruct (String.eqb_spec n ""); [done|]. done.
Qed.
