(* ===== verification/Address.v ===== *)
(** Addresses ([common/address/address.go]): a version byte, a 20-byte hash of a public key and
    four bytes of checksum in base 58, with the caches in front of the computations. *)

From Stdlib Require Import Ascii String.
From S2P Require Import Prelude.
Local Open Scope string_scope.
Local Open Scope Z_scope.

(** The digests and [decred/base58].  [None] is a nil slice. *)
Class AddressEnv := {
  Sum256 : bytes → bytes;
  Sum256_length : ∀ b, String.length (Sum256 b) = 32%nat;
  ripemd160 : bytes → bytes;
  ripemd160_length : ∀ b, String.length (ripemd160 b) = 20%nat;
  b58_Encode : bytes → string;
  b58_Decode : string → option bytes;
  b58_law : ∀ b, b58_Decode (b58_Encode b) = Some b
}.

(** [golang-lru]: adding an entry may drop others ([kept]). *)
Class LRU := {
  kept : ∀ {V : Type}, gmap string V → gmap string V;
  kept_sub : ∀ {V} (m : gmap string V), kept m ⊆ m
}.

Definition ErrCheckVersion : error := ErrOther "check version error".
Definition ErrCheckChecksum : error := ErrOther "Address Checksum error".
Definition ErrAddressChecksum : error := ErrOther "address checksum error".
(** [hex.EncodeToString]. *)
Definition nibble (n : nat) : ascii := default "?"%char (list_ascii_of_string "0123456789abcdef" !! n).
Fixpoint EncodeToString (b : bytes) : string :=
  match b with
  | EmptyString => ""
  | String c b => String (nibble (nat_of_ascii c / 16)) (String (nibble (nat_of_ascii c mod 16)) (EncodeToString b))
  end.
Definition ErrB58 (addr : string) : error := ErrOther ("Cannot decode b58 string '" +:+ addr +:+ "'").
Definition ErrShort (dec : bytes) : error := ErrOther ("Address too short " +:+ EncodeToString dec).
Definition MaxExecNameLength : nat := 100.
Definition NormalVer : ascii := "000".
Definition MultiSignVer : ascii := "005".
Definition addrSeed : bytes := "address seed bytes for public key".

Record Address := mkAddress { Version : ascii; Hash160 : bytes; Checksum : option bytes; Pubkey : bytes; Enc58str : string }.

(** [addressCache], [multisignCache], [pubkeyCache], [checkAddressCache], [multiCheckAddressCache]. *)
Record Caches := mkCaches {
  addressCache : gmap string string; multisignCache : gmap string string; pubkeyCache : gmap string string;
  checkAddressCache : gmap string (option error); multiCheckAddressCache : gmap string (option error) }.

Section Address.
Context {ENV : AddressEnv} {EVICT : LRU}.

(** [common.Sha2Sum] and [common.Rimp160] of [common/hash.go]. *)
Definition addr_Sha2Sum (b : bytes) : bytes := Sum256 (Sum256 b).
Definition Rimp160 (b : bytes) : bytes := ripemd160 (Sum256 b).

(** [copy] into an array of [n] zero bytes. *)
Definition into_array (n : nat) (b : bytes) : bytes :=
  str_take n b +:+ String.concat "" (replicate (n - String.length b) (String "000" "")).

Definition ExecPubKey (name : string) : outcome bytes :=
  if (MaxExecNameLength <? String.length name)%nat then Panic else Ret (addr_Sha2Sum (addrSeed +:+ name)).
Definition ExecPubkey (name : string) : outcome bytes :=
  if (MaxExecNameLength <? String.length name)%nat then Panic else Ret (addr_Sha2Sum (addrSeed +:+ name)).

Definition SetBytes (a : Address) (b : bytes) : Address := mkAddress (Version a) (into_array 20 b) (Checksum a) (Pubkey a) (Enc58str a).
Definition HashToAddress (version : ascii) (in_ : bytes) : Address :=
  SetBytes (mkAddress version (into_array 20 "") None in_ "") (Rimp160 in_).
Definition PubKeyToAddress (in_ : bytes) : Address := HashToAddress NormalVer in_.
Definition GetExecAddress (name : string) : outcome Address := hash ← ExecPubkey name; Ret (PubKeyToAddress hash).

(** [String] also fills in the checksum and the text. *)
Definition addr_String (a : Address) : string * Address :=
  if String.eqb (Enc58str a) "" then
    let ad := String (Version a) (Hash160 a) in
    let ck := match Checksum a with None => str_take 4 (addr_Sha2Sum ad) | Some c => c end in
    let s := b58_Encode (ad +:+ into_array 4 ck) in
    (s, mkAddress (Version a) (Hash160 a) (Some ck) (Pubkey a) s)
  else (Enc58str a, a).

Definition addr_checksum (input : bytes) : bytes := str_take 4 (Sum256 (Sum256 input)).

Definition add_check (addr : string) (e : option error) (c : Caches) : Caches :=
  mkCaches (addressCache c) (multisignCache c) (pubkeyCache c) (kept (<[addr := e]> (checkAddressCache c))) (multiCheckAddressCache c).

(** The error, nil if there is none; two of the errors are put into the cache at once. *)
Definition checkAddress (ver : ascii) (addr : string) : M Caches (option error) := λ c,
  match b58_Decode addr with
  | None => (Ret (Some (ErrB58 addr)), add_check addr (Some (ErrB58 addr)) c)
  | Some dec =>
      if (String.length dec <? 25)%nat then (Ret (Some (ErrShort dec)), add_check addr (Some (ErrShort dec)) c)
      else
        let len := String.length dec in
        (match dec with
         | EmptyString => Panic
         | String v _ =>
             if negb (Ascii.eqb v ver) then Ret (Some ErrCheckVersion)
             else if (len =? 25)%nat && negb (String.eqb (str_take 4 (addr_Sha2Sum (str_take 21 dec))) (str_drop 21 dec)) then Ret (Some ErrCheckChecksum)
             else if negb (String.eqb (addr_checksum (str_take (len - 4) dec)) (str_drop (len - 4) dec)) then Ret (Some ErrAddressChecksum)
             else Ret None
         end, c)
  end.

Definition CheckMultiSignAddress (addr : string) : M Caches (option error) := λ c,
  match multiCheckAddressCache c !! addr with
  | Some e => (Ret e, c)
  | None =>
      match checkAddress MultiSignVer addr c with
      | (Ret e, c) => (Ret e, mkCaches (addressCache c) (multisignCache c) (pubkeyCache c) (checkAddressCache c) (kept (<[addr := e]> (multiCheckAddressCache c))))
      | r => r
      end
  end.
Definition CheckAddress (addr : string) : M Caches (option error) := λ c,
  match checkAddressCache c !! addr with
  | Some e => (Ret e, c)
  | None => match checkAddress NormalVer addr c with (Ret e, c) => (Ret e, add_check addr e c) | r => r end
  end.

(** A decoded string of more than 25 bytes gives neither an address nor an error. *)
Definition NewAddrFromString (hs : string) : outcome (option Address) :=
  match b58_Decode hs with
  | None => Err (ErrB58 hs)
  | Some dec =>
      if (String.length dec <? 25)%nat then Err (ErrShort dec)
      else if (String.length dec =? 25)%nat then
        if negb (String.eqb (str_take 4 (addr_Sha2Sum (str_take 21 dec))) (str_drop 21 dec)) then Err ErrCheckChecksum
        else match dec with
             | EmptyString => Panic
             | String v _ => Ret (Some (mkAddress v (str_slice 1 21 dec) (Some (str_slice 21 25 dec)) "" hs))
             end
      else Ret None
  end.

Definition ExecAddress (name : string) : M Caches string := λ c,
  match addressCache c !! name with
  | Some s => (Ret s, c)
  | None =>
      match GetExecAddress name with
      | Ret addr =>
          let s := (addr_String addr).1 in
          (Ret s, mkCaches (kept (<[name := s]> (addressCache c))) (multisignCache c) (pubkeyCache c) (checkAddressCache c) (multiCheckAddressCache c))
      | Err e => (Err e, c)
      | Panic => (Panic, c)
      end
  end.
Definition MultiSignAddress (pubkey : bytes) : M Caches string := λ c,
  match multisignCache c !! pubkey with
  | Some s => (Ret s, c)
  | None =>
      let s := (addr_String (HashToAddress MultiSignVer pubkey)).1 in
      (Ret s, mkCaches (addressCache c) (kept (<[pubkey := s]> (multisignCache c))) (pubkeyCache c) (checkAddressCache c) (multiCheckAddressCache c))
  end.
Definition PubKeyToAddr (in_ : bytes) : M Caches string := λ c,
  match pubkeyCache c !! in_ with
  | Some s => (Ret s, c)
  | None =>
      let s := (addr_String (HashToAddress NormalVer in_)).1 in
      (Ret s, mkCaches (addressCache c) (multisignCache c) (kept (<[in_ := s]> (pubkeyCache c))) (checkAddressCache c) (multiCheckAddressCache c))
  end.

(** ** Without the caches *)

Definition text_of (ver : ascii) (pubkey : bytes) : string :=
  let ad := String ver (Rimp160 pubkey) in b58_Encode (ad +:+ str_take 4 (addr_Sha2Sum ad)).

(** What the check answers: text that decodes, is long enough, has the version and the checksum. *)
Definition check_spec (ver : ascii) (addr : string) : option error :=
  match b58_Decode addr with
  | None => Some (ErrB58 addr)
  | Some dec =>
      let body := str_take (String.length dec - 4) dec in
      let good := String.eqb (addr_checksum body) (str_drop (String.length dec - 4) dec) in
      if (String.length dec <? 25)%nat then Some (ErrShort dec)
      else if negb (String.prefix (String ver "") dec) then Some ErrCheckVersion
      else if good then None
      else Some (if (String.length dec =? 25)%nat then ErrCheckChecksum else ErrAddressChecksum)
  end.

Inductive addr_call := CExec (name : string) | CMulti (pubkey : bytes) | CPub (pubkey : bytes) | CCheck (addr : string) | CCheckMulti (addr : string).
Inductive addr_answer := AText (s : string) | AError (e : option error).

Definition run_call (q : addr_call) : M Caches addr_answer :=
  match q with
  | CExec name => s ← ExecAddress name; mret (AText s)
  | CMulti k => s ← MultiSignAddress k; mret (AText s)
  | CPub k => s ← PubKeyToAddr k; mret (AText s)
  | CCheck a => e ← CheckAddress a; mret (AError e)
  | CCheckMulti a => e ← CheckMultiSignAddress a; mret (AError e)
  end.
Definition pure_call (q : addr_call) : outcome addr_answer :=
  match q with
  | CExec name => if (MaxExecNameLength <? String.length name)%nat then Panic else Ret (AText (text_of NormalVer (addr_Sha2Sum (addrSeed +:+ name))))
  | CMulti k => Ret (AText (text_of MultiSignVer k))
  | CPub k => Ret (AText (text_of NormalVer k))
  | CCheck a => Ret (AError (check_spec NormalVer a))
  | CCheckMulti a => Ret (AError (check_spec MultiSignVer a))
  end.
Fixpoint run_calls (qs : list addr_call) (c : Caches) : list (outcome addr_answer) * Caches :=
  match qs with
  | [] => ([], c)
  | q :: qs => let '(r, c) := run_call q c in let '(rs, c) := run_calls qs c in (r :: rs, c)
  end.

(** ** The text of an address *)

Lemma into_array_exact b n : String.length b = n → into_array n b = b.
Proof using Type. intros <-. unfold into_array. rewrite str_take_all, Nat.sub_diag by lia. simpl. apply str_app_nil_r. Qed.

Lemma take4_length b : String.length (str_take 4 (addr_Sha2Sum b)) = 4%nat.
Proof using Type. rewrite str_length_take. unfold addr_Sha2Sum. by rewrite Sum256_length. Qed.

Lemma addr_String_text ver pubkey : (addr_String (HashToAddress ver pubkey)).1 = text_of ver pubkey.
Proof using Type.
  unfold addr_String, HashToAddress, text_of. cbn [SetBytes Enc58str Version Hash160 Checksum Pubkey String.eqb fst].
  rewrite (into_array_exact (Rimp160 pubkey)) by apply ripemd160_length. by rewrite (into_array_exact (str_take 4 _)) by apply take4_length.
Qed.

(** The decoded parts of an address. *)
Lemma text_parts ver pubkey :
  let ad := String ver (Rimp160 pubkey) in
  let dec := ad +:+ str_take 4 (addr_Sha2Sum ad) in
  b58_Decode (text_of ver pubkey) = Some dec ∧ String.length dec = 25%nat ∧ str_take 21 dec = ad ∧
  str_drop 21 dec = str_take 4 (addr_Sha2Sum ad).
Proof using Type.
  intros ad dec. assert (String.length ad = 21%nat) as Had by (unfold ad, Rimp160; simpl; by rewrite ripemd160_length).
  split; [apply b58_law|]. split; [unfold dec; by rewrite str_length_app, Had, take4_length|].
  unfold dec. rewrite <-Had. split; [apply str_take_app|apply str_drop_app].
Qed.

Lemma check_own ver ver' pubkey : check_spec ver' (text_of ver pubkey) = if Ascii.eqb ver ver' then None else Some ErrCheckVersion.
Proof using Type.
  unfold check_spec. destruct (text_parts ver pubkey) as (-> & -> & H1 & H2). cbn [Nat.sub Nat.ltb Nat.leb]. rewrite H1, H2.
  unfold addr_checksum. fold (addr_Sha2Sum (String ver (Rimp160 pubkey))). rewrite String.eqb_refl. simpl.
  destruct (Ascii.eqb_spec ver ver') as [->|Hne].
  - destruct (ascii_dec ver' ver'); [|done]. by destruct (Rimp160 pubkey +:+ _).
  - destruct (ascii_dec ver' ver); [congruence|done].
Qed.

Lemma parse_own ver pubkey :
  NewAddrFromString (text_of ver pubkey) =
    Ret (Some (mkAddress ver (Rimp160 pubkey) (Some (str_take 4 (addr_Sha2Sum (String ver (Rimp160 pubkey))))) "" (text_of ver pubkey))).
Proof using Type.
  unfold NewAddrFromString. destruct (text_parts ver pubkey) as (-> & -> & H1 & H2). cbn [Nat.ltb Nat.leb Nat.eqb]. rewrite H1, H2, String.eqb_refl.
  cbn [negb]. change (String ver (Rimp160 pubkey) +:+ ?x) with (String ver (Rimp160 pubkey +:+ x)) at 1. cbn [String.append].
  do 2 f_equal. f_equal.
  - unfold str_slice. cbn [str_drop Nat.sub]. assert (String.length (Rimp160 pubkey) = 20%nat) as E by apply ripemd160_length.
    rewrite <-E. apply str_take_app.
  - f_equal. unfold str_slice. change (String ver (Rimp160 pubkey +:+ ?x)) with (String ver (Rimp160 pubkey) +:+ x). rewrite H2.
    cbn [Nat.sub]. apply str_take_all. by rewrite take4_length.
Qed.

Lemma text_inj ver ver' k k' : text_of ver k = text_of ver' k' ↔ ver = ver' ∧ Rimp160 k = Rimp160 k'.
Proof using Type.
  split; [|by intros [-> E]; unfold text_of; rewrite E]. intros E.
  pose proof (parse_own ver k) as H1. pose proof (parse_own ver' k') as H2. rewrite E, H2 in H1. by simplify_eq.
Qed.

(** The code's check is the specification. *)
Lemma checkAddress_spec ver addr c :
  ∃ c', checkAddress ver addr c = (Ret (check_spec ver addr), c') ∧
    (c' = c ∨ (∃ e, c' = add_check addr (Some e) c ∧ ∀ v, check_spec v addr = Some e)).
Proof using Type.
  unfold checkAddress, check_spec. destruct (b58_Decode addr) as [dec|]; [|eexists; split; [done|]; right; by eexists].
  destruct (Nat.ltb_spec (String.length dec) 25) as [Hlt|Hge]; [eexists; split; [done|]; right; by eexists|].
  eexists. split; [|by left]. f_equal. destruct dec as [|v rest]; [simpl in Hge; lia|]. set (dec := String v rest) in *.
  assert (String.prefix (String ver "") dec = Ascii.eqb v ver) as ->.
  { unfold dec. simpl. destruct (Ascii.eqb_spec v ver) as [->|Hne]; [|destruct (ascii_dec ver v); congruence].
    destruct (ascii_dec ver ver); [|done]. by destruct rest. }
  destruct (Ascii.eqb v ver); cbn [negb]; [|done]. destruct (Nat.eqb_spec (String.length dec) 25) as [E|E].
  - rewrite E. cbn [Nat.sub]. unfold addr_checksum. fold (addr_Sha2Sum (str_take 21 dec)). cbn [andb]. by destruct (String.eqb _ _).
  - cbn [andb]. by destruct (String.eqb _ _).
Qed.

(** ** The caches *)

Record caches_ok (c : Caches) : Prop := {
  co_exec : ∀ k s, addressCache c !! k = Some s → pure_call (CExec k) = Ret (AText s);
  co_multi : ∀ k s, multisignCache c !! k = Some s → s = text_of MultiSignVer k;
  co_pub : ∀ k s, pubkeyCache c !! k = Some s → s = text_of NormalVer k;
  co_check : ∀ k e, checkAddressCache c !! k = Some e → e = check_spec NormalVer k;
  co_checkm : ∀ k e, multiCheckAddressCache c !! k = Some e → e = check_spec MultiSignVer k
}.

Lemma kept_insert {V} (m : gmap string V) k v (P : string → V → Prop) :
  (∀ k v, m !! k = Some v → P k v) → P k v → ∀ k' v', kept (<[k := v]> m) !! k' = Some v' → P k' v'.
Proof using Type.
  intros Hm Hk k' v' H. eapply lookup_weaken in H; [|apply kept_sub]. destruct (decide (k' = k)) as [->|Hne].
  - rewrite lookup_insert_eq in H. by simplify_eq.
  - rewrite lookup_insert_ne in H by done. by apply Hm.
Qed.

Lemma add_check_ok addr c : caches_ok c → caches_ok (add_check addr (check_spec NormalVer addr) c).
Proof using Type.
  intros []. split; try done. cbn [add_check checkAddressCache]. by apply (kept_insert _ _ _ (λ k e, e = check_spec NormalVer k)).
Qed.

Lemma checkAddress_ok ver addr c : caches_ok c → ∃ c', checkAddress ver addr c = (Ret (check_spec ver addr), c') ∧ caches_ok c'.
Proof using Type.
  intros H. destruct (checkAddress_spec ver addr c) as (c' & E & Hc). exists c'. split; [done|].
  destruct Hc as [->|(e & -> & He)]; [done|]. rewrite <-(He NormalVer). by apply add_check_ok.
Qed.

Lemma call_ok q c : caches_ok c → ∃ c', run_call q c = (pure_call q, c') ∧ caches_ok c'.
Proof using Type.
  intros H. pose proof H as [H1 H2 H3 H4 H5]. destruct q as [name|k|k|a|a]; cbn [run_call]; unfold mbind, M_bind.
  - unfold ExecAddress. destruct (addressCache c !! name) as [s|] eqn:E.
    { exists c. split; [|done]. by rewrite (H1 _ _ E). }
    unfold GetExecAddress, ExecPubkey. cbn [pure_call]. destruct (MaxExecNameLength <? String.length name)%nat eqn:El; [by exists c|].
    cbn [mbind outcome_bind]. unfold PubKeyToAddress. rewrite addr_String_text. eexists. split; [done|]. split; try done.
    cbn [addressCache]. apply (kept_insert _ _ _ (λ k s, pure_call (CExec k) = Ret (AText s))); [done|]. cbn [pure_call]. by rewrite El.
  - unfold MultiSignAddress. destruct (multisignCache c !! k) as [s|] eqn:E; [exists c; by rewrite (H2 _ _ E)|].
    rewrite addr_String_text. eexists. split; [done|]. split; try done. by apply (kept_insert _ _ _ (λ k s, s = text_of MultiSignVer k)).
  - unfold PubKeyToAddr. destruct (pubkeyCache c !! k) as [s|] eqn:E; [exists c; by rewrite (H3 _ _ E)|].
    rewrite addr_String_text. eexists. split; [done|]. split; try done. by apply (kept_insert _ _ _ (λ k s, s = text_of NormalVer k)).
  - unfold CheckAddress. destruct (checkAddressCache c !! a) as [e|] eqn:E; [exists c; by rewrite (H4 _ _ E)|].
    destruct (checkAddress_ok NormalVer a c H) as (c' & -> & Hc'). eexists. split; [done|]. by apply add_check_ok.
  - unfold CheckMultiSignAddress. destruct (multiCheckAddressCache c !! a) as [e|] eqn:E; [exists c; by rewrite (H5 _ _ E)|].
    destruct (checkAddress_ok MultiSignVer a c H) as (c' & -> & []). eexists. split; [done|]. split; try done.
    by apply (kept_insert _ _ _ (λ k e, e = check_spec MultiSignVer k)).
Qed.

Lemma CheckAddress_ok a c : caches_ok c → ∃ c', CheckAddress a c = (Ret (check_spec NormalVer a), c') ∧ caches_ok c'.
Proof using Type.
  intros H. destruct (call_ok (CCheck a) c H) as (c' & E & Hc'). exists c'. split; [|done]. revert E. cbn [run_call pure_call].
  unfold mbind, M_bind. destruct (CheckAddress a c) as [[e|e|] c1]; intros E; unfold mret, M_ret in *; by simplify_eq.
Qed.

Lemma ExecAddress_ok name c : caches_ok c →
  ∃ c', ExecAddress name c =
    ((if (MaxExecNameLength <? String.length name)%nat then Panic else Ret (text_of NormalVer (addr_Sha2Sum (addrSeed +:+ name)))), c') ∧ caches_ok c'.
Proof using Type.
  intros H. destruct (call_ok (CExec name) c H) as (c' & E & Hc'). exists c'. split; [|done]. revert E. cbn [run_call pure_call].
  unfold mbind, M_bind. destruct (ExecAddress name c) as [[e|e|] c1]; intros E; unfold mret, M_ret in *; case_match; by simplify_eq.
Qed.

(** C13: whatever the caches drop, every sequence of calls answers as if each answer were
    computed afresh.  The text of an address is accepted by the check for its version and by no
    other, parses back to its version and hash, and determines them. *)
Theorem address_caches qs c : caches_ok c →
  (run_calls qs c).1 = pure_call <$> qs ∧
  ∀ ver k, check_spec ver (text_of ver k) = None ∧
    (∀ ver', ver' ≠ ver → check_spec ver' (text_of ver k) = Some ErrCheckVersion) ∧
    (∃ ck, NewAddrFromString (text_of ver k) = Ret (Some (mkAddress ver (Rimp160 k) (Some ck) "" (text_of ver k)))) ∧
    ∀ ver' k', text_of ver k = text_of ver' k' ↔ ver = ver' ∧ Rimp160 k = Rimp160 k'.
Proof using Type.
  intros H. split.
  - revert c H. induction qs as [|q qs IH]; intros c H; [done|]. cbn [run_calls fmap list_fmap].
    destruct (call_ok q c H) as (c' & -> & H'). specialize (IH c' H'). destruct (run_calls qs c'). simpl in *. by rewrite IH.
  - intros ver k. rewrite check_own, Ascii.eqb_refl. split; [done|]. split; [|split; [eexists; apply parse_own|intros; apply text_inj]].
    intros ver' Hne. rewrite check_own. by destruct (Ascii.eqb_spec ver ver').
Qed.
End Address.

(** ** A witness *)

Module AddressDemo.
(** A toy digest of [n] bytes, a letter in front for base 58, and caches that drop nothing. *)
Fixpoint toy (n : nat) (b : bytes) : bytes :=
  match n, b with
  | O, _ => ""
  | S n, EmptyString => String "#" (toy n "")
  | S n, String c b => String c (toy n b)
  end.
Lemma toy_length n b : String.length (toy n b) = n.
Proof. revert b. induction n as [|n IH]; intros [|c b]; simpl; auto. Qed.

#[local] Instance env : AddressEnv.
Proof.
  refine {| Sum256 := toy 32; Sum256_length := toy_length 32; ripemd160 := toy 20; ripemd160_length := toy_length 20;
            b58_Encode b := String "b" b; b58_Decode s := match s with String "b" b => Some b | _ => None end |}. done.
Defined.
#[local] Instance evict : LRU.
Proof. refine {| kept V m := m |}. done. Defined.

Definition none : Caches := mkCaches ∅ ∅ ∅ ∅ ∅.
Lemma none_ok : caches_ok none.
Proof. split; intros k x Hx; cbn [none addressCache multisignCache pubkeyCache checkAddressCache multiCheckAddressCache] in Hx; by rewrite lookup_empty in Hx. Qed.

Lemma address_caches_witness :
  (run_calls [CPub "key"; CCheck (text_of NormalVer "key"); CCheckMulti (text_of NormalVer "key"); CCheck "x"; CCheckMulti "x"; CCheck "x"] none).1 =
    [Ret (AText (text_of NormalVer "key")); Ret (AError None); Ret (AError (Some ErrCheckVersion)); Ret (AError (Some (ErrB58 "x")));
     Ret (AError (Some (ErrB58 "x"))); Ret (AError (Some (ErrB58 "x")))].
Proof.
  rewrite (proj1 (address_caches [CPub "key"; CCheck (text_of NormalVer "key"); CCheckMulti (text_of NormalVer "key"); CCheck "x"; CCheckMulti "x"; CCheck "x"] none none_ok)).
  vm_compute. reflexivity.
Defined.

(** A text that decodes to more than 25 bytes is neither an address nor an error. *)
Lemma long_address_nil : NewAddrFromString (String "b" (toy 26 "")) = Ret None.
Proof. vm_compute. reflexivity. Qed.
End AddressDemo.
