(* ===== verification/Api.v ===== *)
(** Errors of the interfaces between modules ([client/api/api.go]): not the verdict of the
    called module but a failure to reach it. *)

From Stdlib Require Import Ascii String.
From S2P Require Import Prelude.

Section Api.
(** [grpc.Code(err) != codes.Unknown] *)
Context (grpc_status : error → bool).

Definition IsGrpcError (e : error) : bool := bool_decide (e = ErrOther "ErrAPIEnv") || grpc_status e.
Definition IsQueueError (e : error) : bool :=
  bool_decide (e = ErrOther "ErrAPIEnv") || bool_decide (e = ErrOther "ErrQueueTimeout") ||
  bool_decide (e = ErrOther "ErrQueueChannelFull") || bool_decide (e = ErrOther "ErrIsQueueClosed").
Definition IsAPIEnvError (e : error) : bool := IsGrpcError e || IsQueueError e.
End Api.
