(* ===== verification/KVStore.v ===== *)
(** The key-value interface [db.KV] of [common/db/db.go]: what a state store
    promises to its clients (the account ledger, the executors), the
    observational equivalence it induces, and a plain finite-map instance. *)

From S2P Require Import Prelude.

(** [kv_view s k] is the value a read of [k] would see.  A read may change the
    representation (an implementation caches it) but not the view; a write of a
    non-nil value changes the view at its key only. *)
Class KV (S : Type) := {
  kv_Get : bytes → M S bytes;
  kv_Set : bytes → bytes → M S unit;
  kv_view : S → bytes → option bytes;
  kv_Get_law : ∀ k s, ∃ r s', kv_Get k s = (r, s') ∧
    (match r with
     | Ret v => kv_view s k = Some v
     | Err _ => kv_view s k = None
     | Panic => False
     end) ∧ (∀ k', kv_view s' k' = kv_view s k');
  kv_Set_law : ∀ k v s, ∃ s', kv_Set k v s = (Ret tt, s') ∧
    (∀ k', kv_view s' k' = if decide (k' = k) then Some v else kv_view s k')
}.

(** ** States that no read can tell apart *)

Definition kv_equiv {S} `{!KV S} : relation S := λ s s', ∀ k, kv_view s k = kv_view s' k.
Infix "≈" := kv_equiv (at level 70, no associativity) : go_scope.

#[export] Instance kv_equiv_equivalence {S} `{!KV S} : Equivalence (@kv_equiv S _).
Proof.
  split; [by intros s k|by intros s s' H k; symmetry|].
  intros s1 s2 s3 H1 H2 k. etrans; [apply H1|apply H2].
Qed.

#[export] Instance kv_view_proper {S} `{!KV S} : Proper (kv_equiv ==> eq ==> eq) (@kv_view S _).
Proof. intros s s' H k ? <-. apply H. Qed.

(** The list of key-value pairs [kvs] turns view [f] into the view [kvs_apply kvs f]. *)
Definition kvs_apply {V} (kvs : list (bytes * V)) (f : bytes → option V) : bytes → option V :=
  foldl (λ f kv k', if decide (k' = kv.1) then Some kv.2 else f k') f kvs.

Lemma kvs_apply_ext {V} (kvs : list (bytes * V)) f g :
  (∀ k, f k = g k) → ∀ k, kvs_apply kvs f k = kvs_apply kvs g k.
Proof.
  unfold kvs_apply. revert f g. induction kvs as [|[k0 v0] kvs IH]; simpl; [done|].
  intros f g H. apply IH. intros k. by case_decide.
Qed.

Lemma kvs_apply_at {V} (kvs : list (bytes * V)) f g k : f k = g k → kvs_apply kvs f k = kvs_apply kvs g k.
Proof.
  unfold kvs_apply. revert f g. induction kvs as [|kv kvs IH]; intros f g H; simpl; [done|]. apply IH. by case_decide.
Qed.

Lemma kvs_apply_notin {V} (kvs : list (bytes * V)) f k : (k ∉ kvs.*1) → kvs_apply kvs f k = f k.
Proof.
  intros H. revert f. induction kvs as [|kv kvs IH]; intros f; [done|].
  unfold kvs_apply in *. simpl. rewrite IH by set_solver. rewrite decide_False; set_solver.
Qed.

Lemma kvs_apply_app {V} (a b : list (bytes * V)) f k : kvs_apply (a ++ b) f k = kvs_apply b (kvs_apply a f) k.
Proof. unfold kvs_apply. by rewrite foldl_app. Qed.

Lemma kvs_apply_one {V} k0 (v : V) f k : kvs_apply [(k0, v)] f k = if decide (k = k0) then Some v else f k.
Proof. done. Qed.

(** What was there before does not matter at the keys written. *)
Lemma kvs_apply_agree {V} (kvs : list (bytes * V)) f g k : (k ∉ kvs.*1 → f k = g k) → kvs_apply kvs f k = kvs_apply kvs g k.
Proof.
  revert f g. induction kvs as [|[k0 v] kvs IH]; intros f g H; simpl.
  - apply H. simpl. intros Hn. by apply elem_of_nil in Hn.
  - unfold kvs_apply in *. simpl. apply IH. intros Hk. case_decide; [done|]. apply H. simpl. set_solver.
Qed.

(** [wrote kvs s s']: the store [s'] is [s] after writing [kvs] in order. *)
Definition wrote {S} `{!KV S} (kvs : list (bytes * bytes)) (s s' : S) : Prop :=
  ∀ k, kv_view s' k = kvs_apply kvs (kv_view s) k.

#[export] Instance wrote_proper {S} `{!KV S} :
  Proper (eq ==> kv_equiv ==> kv_equiv ==> iff) (@wrote S _).
Proof.
  intros kvs ? <- s1 s2 H12 t1 t2 Ht. unfold wrote. split; intros H k.
  - rewrite <-Ht, H. by apply kvs_apply_ext.
  - rewrite Ht, H. by apply kvs_apply_ext.
Qed.

Lemma wrote_nil {S} `{!KV S} (s s' : S) : s' ≈ s → wrote [] s s'.
Proof. by intros H k. Qed.

Lemma wrote_app {S} `{!KV S} kvs1 kvs2 (s1 s2 s3 : S) :
  wrote kvs1 s1 s2 → wrote kvs2 s2 s3 → wrote (kvs1 ++ kvs2) s1 s3.
Proof.
  unfold wrote. intros H1 H2 k. rewrite H2. unfold kvs_apply at 2. rewrite foldl_app.
  by apply kvs_apply_ext.
Qed.

Section Client.
Context {S : Type} `{!KV S}.

Lemma kv_Get_Some k v s :
  kv_view s k = Some v → ∃ s', kv_Get k s = (Ret v, s') ∧ s' ≈ s.
Proof.
  intros H. destruct (kv_Get_law k s) as (r & s' & E & Hr & Hv).
  rewrite H in Hr. destruct r as [v'|e|]; [|done|done]. simplify_eq.
  exists s'. split; [done|]. by intros ?.
Qed.

Lemma kv_Get_None k s :
  kv_view s k = None → ∃ e s', kv_Get k s = (Err e, s') ∧ s' ≈ s.
Proof.
  intros H. destruct (kv_Get_law k s) as (r & s' & E & Hr & Hv).
  rewrite H in Hr. destruct r as [v'|e|]; [done| |done]. exists e, s'. split; [done|]. by intros ?.
Qed.
End Client.

(** ** A finite map as a store *)

#[export] Program Instance gmap_kv : KV (gmap bytes bytes) := {|
  kv_Get k m := (match m !! k with Some v => Ret v | None => Err ErrNotFound end, m);
  kv_Set k v m := (Ret tt, <[k := v]> m);
  kv_view m k := m !! k
|}.
Next Obligation. intros k m. eexists _, _. split; [done|]. by destruct (m !! k). Qed.
Next Obligation.
  intros k v m. eexists _. split; [done|]. intros k'. case_decide as E; subst.
  - apply lookup_insert_eq.
  - by apply lookup_insert_ne.
Qed.
