(* ===== verification/Account.v ===== *)
(** The asset ledger: package [account] ([account.go], [execaccount.go],
    [genesis.go]).

    Every operation of the ledger is a definition in the monad [M S] over a
    store [S] with the [KV] interface: it may return a receipt, return an error
    or panic, and what it wrote before an error stays written. *)

From Stdlib Require Import Ascii String.
From S2P Require Import Prelude KVStore Types.
Local Open Scope string_scope.

(** ** Messages *)

Record Account := mkAccount {
  Currency : Z; Balance : Z; Frozen : Z; Addr : string }.

Record ReceiptAccountTransfer := { rat_Prev : Account; rat_Current : Account }.
Record ReceiptExecAccountTransfer := {
  reat_ExecAddr : string; reat_Prev : Account; reat_Current : Account }.
Record ReceiptAccountMint := { ram_Prev : Account; ram_Current : Account }.
Record ReceiptAccountBurn := { rab_Prev : Account; rab_Current : Account }.

Definition KeyValue : Type := bytes * bytes.
Record ReceiptLog := { rl_Ty : Z; rl_Log : bytes }.
Record Receipt := { Ty : Z; KVs : list KeyValue; Logs : list ReceiptLog }.

Definition ExecErr : Z := 0.
Definition ExecPack : Z := 1.
Definition ExecOk : Z := 2.
Definition TyLogTransfer : Z := 3.
Definition TyLogDeposit : Z := 5.
Definition TyLogExecTransfer : Z := 6.
Definition TyLogExecWithdraw : Z := 7.
Definition TyLogExecDeposit : Z := 8.
Definition TyLogExecFrozen : Z := 9.
Definition TyLogExecActive : Z := 10.
Definition TyLogGenesisTransfer : Z := 11.
Definition TyLogGenesisDeposit : Z := 12.
Definition TyLogMint : Z := 14.
Definition TyLogBurn : Z := 15.

#[export] Instance Account_eq_dec : EqDecision Account.
Proof. solve_decision. Defined.

#[export] Instance Account_countable : Countable Account.
Proof.
  refine (inj_countable' (λ a, (Currency a, Balance a, Frozen a, Addr a))
            (λ '(c, b, f, d), mkAccount c b f d) _).
  by intros [].
Defined.

Definition set_Balance (a : Account) (b : Z) : Account :=
  mkAccount (Currency a) b (Frozen a) (Addr a).
Definition set_Frozen (a : Account) (f : Z) : Account :=
  mkAccount (Currency a) (Balance a) f (Addr a).

(** The serialisations the ledger uses: the protobuf messages it stores and logs. *)
Class LedgerCodecs := {
  codec_Account :: Codec Account;
  codec_rat :: Codec ReceiptAccountTransfer;
  codec_reat :: Codec ReceiptExecAccountTransfer;
  codec_ram :: Codec ReceiptAccountMint;
  codec_rab :: Codec ReceiptAccountBurn
}.

(** ** The ledger handle: [type DB struct] *)

Record DB := mkDB {
  accountKeyPerfix : bytes;
  execAccountKeyPerfix : bytes;
  execer : string;
  symbol : string;
  accountKeyBuffer : bytes
}.

Definition symbolPrefix (execer symbol : string) : string :=
  "mavl-" +:+ execer +:+ "-" +:+ symbol +:+ "-".
Definition symbolExecPrefix (execer symbol : string) : string :=
  "mavl-" +:+ execer +:+ "-" +:+ symbol +:+ "-exec".

Definition newAccountDB (prefix : string) : DB :=
  mkDB prefix (prefix +:+ "exec-") "" "" prefix.

Definition NewCoinsAccount (coinSymbol : string) : DB :=
  newAccountDB ("mavl-coins-" +:+ coinSymbol +:+ "-").

Definition NewAccountDB (execer symbol : string) : outcome DB :=
  if has_char "-" execer then Err ErrExecNameNotAllow
  else if has_char "-" symbol then Err ErrSymbolNameNotAllow
  else
    let d := newAccountDB (symbolPrefix execer symbol) in
    Ret (mkDB (accountKeyPerfix d) (execAccountKeyPerfix d) execer symbol (accountKeyBuffer d)).

(** The key buffer is cut back to the prefix and extended; the key is the new buffer. *)
Definition accountReadKey (acc : DB) (addr : string) : bytes * DB :=
  let buf := str_take (String.length (accountKeyPerfix acc)) (accountKeyBuffer acc) +:+ addr in
  (buf, mkDB (accountKeyPerfix acc) (execAccountKeyPerfix acc) (execer acc) (symbol acc) buf).

Definition AccountKey (acc : DB) (address : string) : bytes :=
  accountKeyPerfix acc +:+ address.

Definition execAccountKey (acc : DB) (address execaddr : string) : bytes :=
  execAccountKeyPerfix acc +:+ execaddr +:+ ":" +:+ address.

Definition safeAdd (balance amount : Z) : outcome Z :=
  if (balance +₆₄ amount <? amount)%Z || (MaxTokenBalance <? balance +₆₄ amount)%Z
  then Err ErrAmount else Ret (balance +₆₄ amount).

Definition mergeReceipt (receipt receipt2 : Receipt) : Receipt :=
  {| Ty := Ty receipt; KVs := KVs receipt ++ KVs receipt2;
     Logs := Logs receipt ++ Logs receipt2 |}.

Section Ops.
Context {S : Type} `{!KV S} `{!LedgerCodecs}.
(** The address of an executor, and the miner executors of the configuration
    with their names completed by [types.ExecName]. *)
Context (ExecAddress : string → string) (title : string) (MinerExecs : list string).

Implicit Types acc : DB.

(** Read the record at [key]; an absent record is the empty account of [addr];
    an undecodable one panics. *)
Definition load_at (key : bytes) (addr : string) : M S Account := λ s,
  match kv_Get key s with
  | (Err _, s') => (Ret (mkAccount 0 0 0 addr), s')
  | (Panic, s') => (Panic, s')
  | (Ret value, s') =>
      match Decode value with
      | Some acc1 => (Ret acc1, s')
      | None => (Panic, s')
      end
  end.

Definition LoadAccount acc (addr : string) : M S Account :=
  load_at (accountReadKey acc addr).1 addr.

Definition LoadExecAccount acc (addr execaddr : string) : M S Account :=
  load_at (execAccountKey acc addr execaddr) addr.

Definition GetKVSet acc (acc1 : Account) : list KeyValue :=
  [(AccountKey acc (Addr acc1), Encode acc1)].

Definition GetExecKVSet acc (execaddr : string) (acc1 : Account) : list KeyValue :=
  [(execAccountKey acc (Addr acc1) execaddr, Encode acc1)].

Fixpoint SaveKVSet (set : list KeyValue) : M S unit :=
  match set with
  | [] => mret tt
  | kv :: set => _ ← must (kv_Set kv.1 kv.2); SaveKVSet set
  end.

Definition SaveAccount acc (acc1 : Account) : M S unit := SaveKVSet (GetKVSet acc acc1).
Definition SaveExecAccount acc (execaddr : string) (acc1 : Account) : M S unit :=
  SaveKVSet (GetExecKVSet acc execaddr acc1).

Fixpoint LoadAccountsDB acc (addrs : list string) : M S (list Account) :=
  match addrs with
  | [] => mret []
  | a :: addrs => acc1 ← LoadAccount acc a; accs ← LoadAccountsDB acc addrs; mret (acc1 :: accs)
  end.

Definition CheckTransfer acc (from to : string) (amount : Z) : M S unit :=
  _ ← guard_err (negb (CheckAmount amount)) ErrAmount;
  accFrom ← LoadAccount acc from;
  let b := Balance accFrom -₆₄ amount in
  guard_err (b <? 0)%Z ErrNoBalance.

Definition transferReceipt (fromkv tokv : list KeyValue)
    (receiptFrom receiptTo : ReceiptAccountTransfer) : Receipt :=
  {| Ty := ExecOk; KVs := fromkv ++ tokv;
     Logs := [ {| rl_Ty := TyLogTransfer; rl_Log := Encode receiptFrom |};
               {| rl_Ty := TyLogTransfer; rl_Log := Encode receiptTo |} ] |}.

Definition Transfer acc (from to : string) (amount : Z) : M S Receipt :=
  _ ← guard_err (negb (CheckAmount amount)) ErrAmount;
  accFrom ← LoadAccount acc from;
  accTo ← LoadAccount acc to;
  _ ← guard_err (String.eqb (Addr accFrom) (Addr accTo)) ErrSendSameToRecv;
  if (0 <=? Balance accFrom -₆₄ amount)%Z then
    let accFrom' := set_Balance accFrom (Balance accFrom -₆₄ amount) in
    let accTo' := set_Balance accTo (Balance accTo +₆₄ amount) in
    let receiptBalanceFrom := {| rat_Prev := accFrom; rat_Current := accFrom' |} in
    let receiptBalanceTo := {| rat_Prev := accTo; rat_Current := accTo' |} in
    let fromkv := GetKVSet acc accFrom' in
    let tokv := GetKVSet acc accTo' in
    _ ← SaveKVSet fromkv;
    _ ← SaveKVSet tokv;
    mret (transferReceipt fromkv tokv receiptBalanceFrom receiptBalanceTo)
  else throw ErrNoBalance.

Definition depositBalance acc (execaddr : string) (amount : Z) : M S Receipt :=
  _ ← guard_err (negb (CheckAmount amount)) ErrAmount;
  acc1 ← LoadAccount acc execaddr;
  let acc1' := set_Balance acc1 (Balance acc1 +₆₄ amount) in
  let receiptBalance := {| rat_Prev := acc1; rat_Current := acc1' |} in
  let kv := GetKVSet acc acc1' in
  _ ← SaveKVSet kv;
  mret {| Ty := ExecOk; KVs := kv;
          Logs := [ {| rl_Ty := TyLogDeposit; rl_Log := Encode receiptBalance |} ] |}.

Definition lift_outcome {A} (o : outcome A) : M S A := λ s, (o, s).

Definition mintReceipt (kv : list KeyValue) (receipt : ReceiptAccountMint) : Receipt :=
  {| Ty := ExecOk; KVs := kv;
     Logs := [ {| rl_Ty := TyLogMint; rl_Log := Encode receipt |} ] |}.

Definition Mint acc (addr : string) (amount : Z) : M S Receipt :=
  _ ← guard_err (negb (CheckAmount amount)) ErrAmount;
  accTo ← LoadAccount acc addr;
  balance ← lift_outcome (safeAdd (Balance accTo) amount);
  let accTo' := set_Balance accTo balance in
  let receipt := {| ram_Prev := accTo; ram_Current := accTo' |} in
  let kv := GetKVSet acc accTo' in
  _ ← SaveKVSet kv;
  mret (mintReceipt kv receipt).

Definition burnReceipt (kv : list KeyValue) (receipt : ReceiptAccountBurn) : Receipt :=
  {| Ty := ExecOk; KVs := kv;
     Logs := [ {| rl_Ty := TyLogBurn; rl_Log := Encode receipt |} ] |}.

Definition Burn acc (addr : string) (amount : Z) : M S Receipt :=
  _ ← guard_err (negb (CheckAmount amount)) ErrAmount;
  accTo ← LoadAccount acc addr;
  _ ← guard_err (Balance accTo <? amount)%Z ErrNoBalance;
  let accTo' := set_Balance accTo (Balance accTo -₆₄ amount) in
  let receipt := {| rab_Prev := accTo; rab_Current := accTo' |} in
  let kv := GetKVSet acc accTo' in
  _ ← SaveKVSet kv;
  mret (burnReceipt kv receipt).

(** *** Sub-accounts: the balances of an address inside an executor *)

Definition execReceipt acc (ty : Z) (acc1 : Account) (r : ReceiptExecAccountTransfer) : Receipt :=
  {| Ty := ExecOk; KVs := GetExecKVSet acc (reat_ExecAddr r) acc1;
     Logs := [ {| rl_Ty := ty; rl_Log := Encode r |} ] |}.

Definition execReceipt2 acc (acc1 acc2 : Account) (r1 r2 : ReceiptExecAccountTransfer) : Receipt :=
  {| Ty := ExecOk;
     KVs := GetExecKVSet acc (reat_ExecAddr r1) acc1 ++ GetExecKVSet acc (reat_ExecAddr r2) acc2;
     Logs := [ {| rl_Ty := TyLogExecTransfer; rl_Log := Encode r1 |};
               {| rl_Ty := TyLogExecTransfer; rl_Log := Encode r2 |} ] |}.

(** Save the changed sub-account and build its receipt. *)
Definition save_exec acc (ty : Z) (execaddr : string) (prev cur : Account) : M S Receipt :=
  _ ← SaveExecAccount acc execaddr cur;
  mret (execReceipt acc ty cur
          {| reat_ExecAddr := execaddr; reat_Prev := prev; reat_Current := cur |}).

Definition ExecFrozen acc (addr execaddr : string) (amount : Z) : M S Receipt :=
  _ ← guard_err (String.eqb addr execaddr) ErrSendSameToRecv;
  _ ← guard_err (negb (CheckAmount amount)) ErrAmount;
  acc1 ← LoadExecAccount acc addr execaddr;
  _ ← guard_err (Balance acc1 -₆₄ amount <? 0)%Z ErrNoBalance;
  let cur := set_Frozen (set_Balance acc1 (Balance acc1 -₆₄ amount)) (Frozen acc1 +₆₄ amount) in
  save_exec acc TyLogExecFrozen execaddr acc1 cur.

Definition ExecActive acc (addr execaddr : string) (amount : Z) : M S Receipt :=
  _ ← guard_err (String.eqb addr execaddr) ErrSendSameToRecv;
  _ ← guard_err (negb (CheckAmount amount)) ErrAmount;
  acc1 ← LoadExecAccount acc addr execaddr;
  _ ← guard_err (Frozen acc1 -₆₄ amount <? 0)%Z ErrNoBalance;
  let cur := set_Frozen (set_Balance acc1 (Balance acc1 +₆₄ amount)) (Frozen acc1 -₆₄ amount) in
  save_exec acc TyLogExecActive execaddr acc1 cur.

Definition ExecTransfer acc (from to execaddr : string) (amount : Z) : M S Receipt :=
  _ ← guard_err (String.eqb from to) ErrSendSameToRecv;
  _ ← guard_err (negb (CheckAmount amount)) ErrAmount;
  accFrom ← LoadExecAccount acc from execaddr;
  accTo ← LoadExecAccount acc to execaddr;
  _ ← guard_err (Balance accFrom -₆₄ amount <? 0)%Z ErrNoBalance;
  let accFrom' := set_Balance accFrom (Balance accFrom -₆₄ amount) in
  let accTo' := set_Balance accTo (Balance accTo +₆₄ amount) in
  _ ← SaveExecAccount acc execaddr accFrom';
  _ ← SaveExecAccount acc execaddr accTo';
  mret (execReceipt2 acc accFrom' accTo'
    {| reat_ExecAddr := execaddr; reat_Prev := accFrom; reat_Current := accFrom' |}
    {| reat_ExecAddr := execaddr; reat_Prev := accTo; reat_Current := accTo' |}).

Definition ExecTransferFrozen acc (from to execaddr : string) (amount : Z) : M S Receipt :=
  _ ← guard_err (String.eqb from to) ErrSendSameToRecv;
  _ ← guard_err (negb (CheckAmount amount)) ErrAmount;
  accFrom ← LoadExecAccount acc from execaddr;
  accTo ← LoadExecAccount acc to execaddr;
  let b := Frozen accFrom -₆₄ amount in
  _ ← guard_err (b <? 0)%Z ErrNoBalance;
  let accFrom' := set_Frozen accFrom (Frozen accFrom -₆₄ amount) in
  let accTo' := set_Balance accTo (Balance accTo +₆₄ amount) in
  _ ← SaveExecAccount acc execaddr accFrom';
  _ ← SaveExecAccount acc execaddr accTo';
  mret (execReceipt2 acc accFrom' accTo'
    {| reat_ExecAddr := execaddr; reat_Prev := accFrom; reat_Current := accFrom' |}
    {| reat_ExecAddr := execaddr; reat_Prev := accTo; reat_Current := accTo' |}).

Definition ExecDeposit acc (addr execaddr : string) (amount : Z) : M S Receipt :=
  _ ← guard_err (String.eqb addr execaddr) ErrSendSameToRecv;
  _ ← guard_err (negb (CheckAmount amount)) ErrAmount;
  acc1 ← LoadExecAccount acc addr execaddr;
  let cur := set_Balance acc1 (Balance acc1 +₆₄ amount) in
  save_exec acc TyLogExecDeposit execaddr acc1 cur.

Definition ExecWithdraw acc (execaddr addr : string) (amount : Z) : M S Receipt :=
  _ ← guard_err (String.eqb addr execaddr) ErrSendSameToRecv;
  _ ← guard_err (negb (CheckAmount amount)) ErrAmount;
  acc1 ← LoadExecAccount acc addr execaddr;
  _ ← guard_err (Balance acc1 -₆₄ amount <? 0)%Z ErrNoBalance;
  let cur := set_Balance acc1 (Balance acc1 -₆₄ amount) in
  save_exec acc TyLogExecWithdraw execaddr acc1 cur.

Definition execDepositFrozen acc (addr execaddr : string) (amount : Z) : M S Receipt :=
  _ ← guard_err (String.eqb addr execaddr) ErrSendSameToRecv;
  _ ← guard_err (negb (CheckAmount amount)) ErrAmount;
  acc1 ← LoadExecAccount acc addr execaddr;
  let cur := set_Frozen acc1 (Frozen acc1 +₆₄ amount) in
  save_exec acc TyLogExecDeposit execaddr acc1 cur.

Definition ExecIssueCoins acc (execaddr : string) (amount : Z) : M S Receipt :=
  let allow := existsb (λ exec, String.eqb (ExecAddress (ExecName title exec)) execaddr)
                 MinerExecs in
  _ ← guard_err (negb allow) ErrNotAllowDeposit;
  depositBalance acc execaddr amount.

Definition ExecDepositFrozen acc (addr execaddr : string) (amount : Z) : M S Receipt :=
  _ ← guard_err (String.eqb addr execaddr) ErrSendSameToRecv;
  receipt1 ← ExecIssueCoins acc execaddr amount;
  receipt2 ← execDepositFrozen acc addr execaddr amount;
  mret (mergeReceipt receipt1 receipt2).

Definition TransferToExec acc (from to : string) (amount : Z) : M S Receipt :=
  receipt ← Transfer acc from to amount;
  receipt2 ← must (ExecDeposit acc from to amount);
  mret (mergeReceipt receipt receipt2).

Definition TransferWithdraw acc (from to : string) (amount : Z) : M S Receipt :=
  _ ← CheckTransfer acc to from amount;
  receipt ← ExecWithdraw acc to from amount;
  receipt2 ← must (Transfer acc to from amount);
  mret (mergeReceipt receipt receipt2).

(** *** Genesis *)

Definition genesisReceipt acc (accTo : Account) (receiptTo : ReceiptAccountTransfer) : Receipt :=
  {| Ty := ExecOk; KVs := GetKVSet acc accTo;
     Logs := [ {| rl_Ty := TyLogGenesisTransfer; rl_Log := Encode receiptTo |} ] |}.

Definition GenesisInit acc (addr : string) (amount : Z) : M S Receipt :=
  accTo ← LoadAccount acc addr;
  balance ← lift_outcome (safeAdd (Balance accTo) amount);
  let accTo' := set_Balance accTo balance in
  _ ← SaveAccount acc accTo';
  mret (genesisReceipt acc accTo' {| rat_Prev := accTo; rat_Current := accTo' |}).

Definition GenesisInitExec acc (addr : string) (amount : Z) (execaddr : string) : M S Receipt :=
  accTo ← LoadAccount acc execaddr;
  balance ← lift_outcome (safeAdd (Balance accTo) amount);
  let accTo' := set_Balance accTo balance in
  _ ← SaveAccount acc accTo';
  let receipt := genesisReceipt acc accTo' {| rat_Prev := accTo; rat_Current := accTo' |} in
  receipt2 ← must (ExecDeposit acc addr execaddr amount);
  let receipt2 := {| Ty := TyLogGenesisDeposit; KVs := KVs receipt2; Logs := Logs receipt2 |} in
  mret (mergeReceipt receipt receipt2).
End Ops.

(** The end key of a prefix scan: the last byte below [0xff] is incremented,
    the bytes after it are kept (not cleared). *)
Fixpoint incr_last (rs : list ascii) : list ascii :=
  match rs with
  | [] => []
  | c :: rs => if (N_of_ascii c <? 255)%N then ascii_of_N (N_of_ascii c + 1) :: rs
               else c :: incr_last rs
  end.

Definition genPrefixEdge (prefix : bytes) : bytes :=
  string_of_list_ascii (rev (incr_last (rev (list_ascii_of_string prefix)))).
