(* ===== verification/Ledger.v ===== *)
(** The ledger's contract: an abstract ledger over exact integers, the
    refinement of every operation of [Account] to it, and the supply and custody
    invariants of the reachable ledgers. *)

From Stdlib Require Import Ascii String.
From S2P Require Import Prelude KVStore Types Account.
Local Open Scope string_scope.

(** ** Locations of the ledger *)

Inductive loc := Main (addr : string) | Sub (execaddr addr : string).

#[export] Instance loc_eq_dec : EqDecision loc.
Proof. solve_decision. Defined.

Definition owner (x : loc) : string := match x with Main a => a | Sub _ a => a end.

Definition key (acc : DB) (x : loc) : bytes :=
  match x with Main a => AccountKey acc a | Sub e a => execAccountKey acc a e end.

(** Addresses are base58 texts: neither of the two separators occurs in them. *)
Definition valid_addr (a : string) : Prop := has_char "-" a = false ∧ has_char ":" a = false.
Definition valid (x : loc) : Prop :=
  match x with Main a => valid_addr a | Sub e a => valid_addr e ∧ valid_addr a end.

#[export] Instance valid_addr_dec a : Decision (valid_addr a).
Proof. unfold valid_addr. apply _. Defined.

(** A handle made by the constructors: its exec prefix extends its prefix and
    its key buffer starts with it. *)
Definition handle_ok (acc : DB) : Prop :=
  execAccountKeyPerfix acc = accountKeyPerfix acc +:+ "exec-" ∧
  str_take (String.length (accountKeyPerfix acc)) (accountKeyBuffer acc) = accountKeyPerfix acc.

Lemma newAccountDB_ok prefix : handle_ok (newAccountDB prefix).
Proof.
  split; [done|]. simpl. pose proof (str_take_app prefix "") as H. by rewrite str_app_nil_r in H.
Qed.

Lemma accountReadKey_key acc addr :
  handle_ok acc → (accountReadKey acc addr).1 = AccountKey acc addr.
Proof. intros [_ H]. unfold accountReadKey, AccountKey. simpl. by rewrite H. Qed.

Lemma accountReadKey_ok acc addr : handle_ok acc → handle_ok (accountReadKey acc addr).2.
Proof. intros [H1 H2]. split; [done|]. simpl. rewrite H2. apply str_take_app. Qed.

Lemma key_inj acc x y : handle_ok acc → valid x → valid y → key acc x = key acc y → x = y.
Proof.
  intros [Hp _]. destruct x as [a|e a], y as [b|e' b]; simpl;
    unfold AccountKey, execAccountKey; rewrite ?Hp, ?str_app_assoc.
  - intros _ _ H. by apply str_app_inj_l in H as ->.
  - intros [Ha _] _ H. apply str_app_inj_l in H. subst a. done.
  - intros _ [Hb _] H. apply str_app_inj_l in H. subst b. done.
  - intros [[_ He] _] [[_ He'] _] H. apply str_app_inj_l, str_app_inj_l in H.
    by apply str_split_inj in H as [-> ->].
Qed.

(** ** The abstract ledger *)

Definition ledger : Type := loc → Account.

Definition upd (l : ledger) (x : loc) (a : Account) : ledger :=
  λ y, if decide (y = x) then a else l y.

Definition credit (x : loc) (n : Z) (l : ledger) : ledger :=
  upd l x (set_Balance (l x) (Balance (l x) + n)).
Definition credit_frozen (x : loc) (n : Z) (l : ledger) : ledger :=
  upd l x (set_Frozen (l x) (Frozen (l x) + n)).

Definition wf_account (a : Account) : Prop :=
  (0 ≤ Balance a ∧ 0 ≤ Frozen a ∧ Balance a + Frozen a ≤ MaxTokenBalance)%Z.
Definition wf_ledger (l : ledger) : Prop :=
  ∀ x, valid x → wf_account (l x) ∧ Addr (l x) = owner x.

(** Abstract operations: the guards of the contract and the exact movement. *)
Definition modify (f : ledger → ledger) : M ledger unit := λ l, (Ret tt, f l).
Definition require (c : ledger → bool) (e : error) : M ledger unit := λ l,
  if c l then (Ret tt, l) else (Err e, l).
Definition positive_amount (n : Z) : M ledger unit := require (λ _, CheckAmount n) ErrAmount.

Module Spec.
Definition transfer (from to : string) (n : Z) : M ledger unit :=
  _ ← positive_amount n;
  _ ← require (λ _, negb (String.eqb from to)) ErrSendSameToRecv;
  _ ← require (λ l, n <=? Balance (l (Main from)))%Z ErrNoBalance;
  modify (λ l, credit (Main to) n (credit (Main from) (- n) l)).

Definition frozen (a e : string) (n : Z) : M ledger unit :=
  _ ← require (λ _, negb (String.eqb a e)) ErrSendSameToRecv;
  _ ← positive_amount n;
  _ ← require (λ l, n <=? Balance (l (Sub e a)))%Z ErrNoBalance;
  modify (λ l, credit_frozen (Sub e a) n (credit (Sub e a) (- n) l)).

Definition active (a e : string) (n : Z) : M ledger unit :=
  _ ← require (λ _, negb (String.eqb a e)) ErrSendSameToRecv;
  _ ← positive_amount n;
  _ ← require (λ l, n <=? Frozen (l (Sub e a)))%Z ErrNoBalance;
  modify (λ l, credit_frozen (Sub e a) (- n) (credit (Sub e a) n l)).

Definition exec_transfer (from to e : string) (n : Z) : M ledger unit :=
  _ ← require (λ _, negb (String.eqb from to)) ErrSendSameToRecv;
  _ ← positive_amount n;
  _ ← require (λ l, n <=? Balance (l (Sub e from)))%Z ErrNoBalance;
  modify (λ l, credit (Sub e to) n (credit (Sub e from) (- n) l)).

Definition exec_transfer_frozen (from to e : string) (n : Z) : M ledger unit :=
  _ ← require (λ _, negb (String.eqb from to)) ErrSendSameToRecv;
  _ ← positive_amount n;
  _ ← require (λ l, n <=? Frozen (l (Sub e from)))%Z ErrNoBalance;
  modify (λ l, credit (Sub e to) n (credit_frozen (Sub e from) (- n) l)).

Definition deposit (a e : string) (n : Z) : M ledger unit :=
  _ ← require (λ _, negb (String.eqb a e)) ErrSendSameToRecv;
  _ ← positive_amount n;
  modify (credit (Sub e a) n).

Definition deposit_frozen (a e : string) (n : Z) : M ledger unit :=
  _ ← require (λ _, negb (String.eqb a e)) ErrSendSameToRecv;
  _ ← positive_amount n;
  modify (credit_frozen (Sub e a) n).

Definition withdraw (e a : string) (n : Z) : M ledger unit :=
  _ ← require (λ _, negb (String.eqb a e)) ErrSendSameToRecv;
  _ ← positive_amount n;
  _ ← require (λ l, n <=? Balance (l (Sub e a)))%Z ErrNoBalance;
  modify (credit (Sub e a) (- n)).

Definition issue (a : string) (n : Z) : M ledger unit :=
  _ ← positive_amount n; modify (credit (Main a) n).

Definition mint (a : string) (n : Z) : M ledger unit :=
  _ ← positive_amount n;
  _ ← require (λ l, Balance (l (Main a)) + n <=? MaxTokenBalance)%Z ErrAmount;
  modify (credit (Main a) n).

Definition burn (a : string) (n : Z) : M ledger unit :=
  _ ← positive_amount n;
  _ ← require (λ l, n <=? Balance (l (Main a)))%Z ErrNoBalance;
  modify (credit (Main a) (- n)).

Definition transfer_to_exec (from to : string) (n : Z) : M ledger unit :=
  _ ← transfer from to n; deposit from to n.

Definition transfer_withdraw (from to : string) (n : Z) : M ledger unit :=
  _ ← positive_amount n;
  _ ← require (λ l, n <=? Balance (l (Main to)))%Z ErrNoBalance;
  _ ← withdraw to from n;
  transfer to from n.
End Spec.

(** ** The store represents a ledger *)

Section Refinement.
Context {S : Type} `{!KV S} `{!LedgerCodecs}.
Context (acc : DB) (Hacc : handle_ok acc).

(** What a load of location [x] would return. *)
Definition peek (s : S) (x : loc) : option Account :=
  match kv_view s (key acc x) with
  | None => Some (mkAccount 0 0 0 (owner x))
  | Some v => Decode v
  end.

Definition repr (s : S) (l : ledger) : Prop := ∀ x, valid x → peek s x = Some (l x).

#[export] Instance peek_proper : Proper (kv_equiv ==> eq ==> eq) peek.
Proof using Type. intros s s' Hs x ? <-. unfold peek. by rewrite (Hs (key acc x)). Qed.

#[export] Instance repr_proper : Proper (kv_equiv ==> eq ==> iff) repr.
Proof using Type. intros s s' Hs l ? <-. unfold repr. by setoid_rewrite Hs. Qed.

Lemma acc_load_run s l x :
  repr s l → valid x →
  ∃ s', load_at (key acc x) (owner x) s = (Ret (l x), s') ∧ s' ≈ s.
Proof using Type.
  intros Hr Hx. specialize (Hr x Hx). unfold peek in Hr. unfold load_at.
  destruct (kv_view s (key acc x)) as [v|] eqn:E.
  - destruct (kv_Get_Some _ _ _ E) as (s' & -> & Heq). rewrite Hr. eauto.
  - destruct (kv_Get_None _ _ E) as (e & s' & -> & Heq). injection Hr as Hr. rewrite <-Hr. eauto.
Qed.

Lemma acc_save_run s kvs :
  ∃ s', SaveKVSet kvs s = (Ret tt, s') ∧ wrote kvs s s'.
Proof using Type.
  revert s. induction kvs as [|[k v] kvs IH]; intros s; simpl; [by eexists|].
  destruct (kv_Set_law k v s) as (s1 & E & Hv). unfold mbind, M_bind, must. rewrite E.
  destruct (IH s1) as (s2 & -> & Hv2). exists s2. split; [done|].
  by apply (wrote_app [(k, v)] kvs s s1 s2).
Qed.

Lemma repr_upd s s' l x a :
  repr s l → valid x → wrote [(key acc x, Encode a)] s s' →
  repr s' (upd l x a).
Proof using Hacc.
  intros Hr Hx Hv y Hy. unfold peek, upd. rewrite (Hv (key acc y)). simpl. destruct (decide (y = x)) as [->|Hne].
  - rewrite decide_True by done. apply Decode_Encode.
  - rewrite decide_False; [by apply Hr|]. intros E. by apply key_inj in E.
Qed.

(** *** Refinement: same outcome, the represented ledger follows the abstract
    operation, and the receipt lists exactly what changed in the store. *)
Definition refines_at (m : M S Receipt) (sm : M ledger unit) (s : S) (l : ledger) : Prop :=
  ∃ r s', m s = (r, s') ∧ repr s' (sm l).2 ∧
    match (sm l).1, r with
    | Ret _, Ret rc => wrote (KVs rc) s s'
    | Err e, Err e' => e = e' ∧ s' ≈ s
    | _, _ => False
    end.

(** *** Running the monadic code step by step *)

Definition wp {A} (m : M S A) (Q : outcome A → S → Prop) (s : S) : Prop := Q (m s).1 (m s).2.

Lemma wp_bind {A B} (m : M S A) (f : A → M S B) Q s :
  wp m (λ r s', match r with
                | Ret a => wp (f a) Q s' | Err e => Q (Err e) s' | Panic => Q Panic s'
                end) s →
  wp (m ≫= f) Q s.
Proof using Type. unfold wp, mbind, M_bind. by destruct (m s) as [[a|e|] s']. Qed.

Lemma wp_must {A} (m : M S A) Q s :
  wp m (λ r s', match r with Err _ => Q Panic s' | _ => Q r s' end) s → wp (must m) Q s.
Proof using Type. unfold wp, must. by destruct (m s) as [[a|e|] s']. Qed.

Lemma wp_guard c e Q (s : S) :
  (c = true → Q (Err e) s) → (c = false → Q (Ret tt) s) → wp (guard_err c e) Q s.
Proof using Type. destruct c; intros H1 H2; [by apply H1|by apply H2]. Qed.

Lemma wp_load s l x Q :
  repr s l → valid x → (∀ s', s' ≈ s → Q (Ret (l x)) s') →
  wp (load_at (key acc x) (owner x)) Q s.
Proof using Type.
  intros Hr Hx HQ. unfold wp. destruct (acc_load_run s l x Hr Hx) as (s' & -> & Hs). by apply HQ.
Qed.

Lemma wp_save s kvs Q :
  (∀ s', wrote kvs s s' → Q (Ret tt) s') →
  wp (SaveKVSet kvs) Q s.
Proof using Type. intros HQ. unfold wp. destruct (acc_save_run s kvs) as (s' & -> & Hs). by apply HQ. Qed.

Lemma LoadAccount_eq addr : LoadAccount acc addr = load_at (S := S) (key acc (Main addr)) (owner (Main addr)).
Proof using Hacc. unfold LoadAccount. by rewrite accountReadKey_key. Qed.

Lemma refines_wp m sm s l :
  wp m (λ r s', repr s' (sm l).2 ∧
    match (sm l).1, r with
    | Ret _, Ret rc => wrote (KVs rc) s s'
    | Err e, Err e' => e = e' ∧ s' ≈ s
    | _, _ => False
    end) s →
  refines_at m sm s l.
Proof using Type. unfold wp, refines_at. destruct (m s) as [r s']. eauto. Qed.

(** Under the ledger's bounds the 64-bit updates are exact. *)
Lemma exact_sub_balance a n :
  wf_account a → CheckAmount n = true → (Balance a -₆₄ n) = (Balance a + - n)%Z.
Proof using Type.
  unfold wf_account. rewrite CheckAmount_true. unfold MaxTokenBalance, MaxCoin, TokenPrecision.
  intros. rewrite wrap64_id; unfold in64; lia.
Qed.
Lemma exact_sub_frozen a n :
  wf_account a → CheckAmount n = true → (Frozen a -₆₄ n) = (Frozen a + - n)%Z.
Proof using Type.
  unfold wf_account. rewrite CheckAmount_true. unfold MaxTokenBalance, MaxCoin, TokenPrecision.
  intros. rewrite wrap64_id; unfold in64; lia.
Qed.
Lemma exact_add_balance a n :
  wf_account a → CheckAmount n = true → (Balance a +₆₄ n) = (Balance a + n)%Z.
Proof using Type.
  unfold wf_account. rewrite CheckAmount_true. unfold MaxTokenBalance, MaxCoin, TokenPrecision.
  intros. rewrite wrap64_id; unfold in64; lia.
Qed.
Lemma exact_add_frozen a n :
  wf_account a → CheckAmount n = true → (Frozen a +₆₄ n) = (Frozen a + n)%Z.
Proof using Type.
  unfold wf_account. rewrite CheckAmount_true. unfold MaxTokenBalance, MaxCoin, TokenPrecision.
  intros. rewrite wrap64_id; unfold in64; lia.
Qed.

(** A write of one account, seen from the represented ledger. *)
Lemma repr_save s s0 s' l x a :
  repr s l → s0 ≈ s → valid x → wrote [(key acc x, Encode a)] s0 s' →
  repr s' (upd l x a).
Proof using Hacc. intros Hr Hs. apply repr_upd. by rewrite Hs. Qed.
End Refinement.

(** Advance through the next call of the code. *)
Ltac wstep :=
  lazymatch goal with
  | |- wp (mbind _ _) _ _ => apply wp_bind
  | |- wp (must _) _ _ => apply wp_must
  | |- wp (guard_err _ _) _ _ => apply wp_guard; [intros ?Hg|intros ?Hg]
  | |- wp (mret _) _ _ => unfold wp; cbn [fst snd mret M_ret]
  | |- wp (throw _) _ _ => unfold wp; cbn [fst snd throw]
  end.

Lemma upd_ne l x y a : y ≠ x → upd l x a y = l y.
Proof. intros H. unfold upd. by rewrite decide_False. Qed.
Lemma upd_eq l x a : upd l x a x = a.
Proof. unfold upd. by rewrite decide_True. Qed.

(** Evaluate the abstract operation on the branch taken by the code. *)
Ltac spec_eval E :=
  unfold positive_amount, require, modify, mbind, M_bind in E;
  cbn [fst snd] in E;
  repeat match type of E with
  | context [if ?c then _ else _] =>
      let Hc := fresh "Hc" in destruct c eqn:Hc; cbn [fst snd negb] in E
  end;
  first [discriminate E | injection E as <- <- | injection E as <-]; cbn [fst snd]; bool_to_prop;
  try (exfalso; congruence); try (exfalso; lia).

(** Close a goal about a state reached by reads only. *)
Ltac reads_done :=
  repeat match goal with
  | H : ?a ≈ ?b |- context [?a] => rewrite H; clear H
  end; done.

(** Close the branch where code and contract return the same error. *)
Ltac same_error E := spec_eval E; (split; [reads_done|split; [done|reads_done]]).

(** Location [x] is a valid one with a well-formed record of its owner. *)
Definition wf_at (l : ledger) (x : loc) : Prop :=
  valid x ∧ wf_account (l x) ∧ Addr (l x) = owner x.

Section Operations.
Context {S : Type} `{!KV S} `{!LedgerCodecs}.
Context (acc : DB) (Hacc : handle_ok acc).

(** Two writes in a row to different locations. *)
Lemma two_writes x y (a b : Account) s s1 s3 s4 l :
  repr acc s l → s1 ≈ s → valid x → valid y →
  wrote [(key acc x, Encode a)] s1 s3 → wrote [(key acc y, Encode b)] s3 s4 →
  repr acc s4 (upd (upd l x a) y b) ∧
  wrote [(key acc x, Encode a); (key acc y, Encode b)] s s4.
Proof using Hacc.
  intros Hr Hs Hx Hy H3 H4. split.
  - eapply (repr_save acc Hacc s3); [|done|done|exact H4]. by eapply (repr_save acc Hacc s).
  - eapply (wrote_app [_] [_]); [|exact H4]. by rewrite <-Hs.
Qed.

Ltac two_end x y H3 H4 :=
  unfold GetKVSet, GetExecKVSet in H3, H4; simpl in H3, H4;
  repeat match goal with H : Addr _ = _ |- _ => rewrite H in H3 end;
  repeat match goal with H : Addr _ = _ |- _ => rewrite H in H4 end;
  unfold transferReceipt, execReceipt2, GetKVSet, GetExecKVSet; simpl;
  repeat match goal with H : Addr _ = _ |- _ => rewrite H end;
  unfold credit, credit_frozen; rewrite (upd_ne _ _ y) by congruence;
  eapply (two_writes x y); [done| |done|done|exact H3|exact H4]; reads_done.

(** The operations on one main account: amount guard, load, save. *)
Ltac one_main x E :=
  rewrite ?LoadAccount_eq by done;
  wstep; wstep; [same_error E|]; bool_to_prop;
  wstep; eapply (wp_load acc _ _ x); [done|done|]; intros s1 Hs1.

Ltac one_main_end E :=
  spec_eval E; []; wstep; apply wp_save; intros s2 Hs2; wstep;
  unfold GetKVSet in Hs2; simpl in Hs2;
  unfold mintReceipt, burnReceipt, GetKVSet; simpl;
  repeat match goal with H : Addr _ = _ |- _ => rewrite H in Hs2 end;
  repeat match goal with H : Addr _ = _ |- _ => rewrite H end;
  split; [eapply repr_save; [done|done|done|done|exact Hs2]|];
  match goal with Hs : _ ≈ ?s |- wrote _ ?s _ => by rewrite <-Hs end.

Lemma Transfer_refines s l from to n :
  repr acc s l → wf_at l (Main from) → wf_at l (Main to) →
  refines_at acc (Transfer acc from to n) (Spec.transfer from to n) s l.
Proof using Hacc.
  intros Hr (Hf & Wf & Af) (Ht & Wt & At). apply refines_wp. simpl in Af, At.
  destruct (Spec.transfer from to n l) as [o l'] eqn:E. unfold Spec.transfer in E.
  unfold Transfer. rewrite !LoadAccount_eq by done.
  wstep; wstep; [same_error E|]. bool_to_prop.
  wstep. eapply wp_load; [done|done|]. intros s1 Hs1.
  wstep. eapply wp_load; [by rewrite Hs1|done|]. intros s2 Hs2.
  rewrite Af, At. wstep; wstep; [same_error E|].
  rewrite !exact_sub_balance, !exact_add_balance by done.
  destruct (Z.leb_spec 0 (Balance (l (Main from)) + - n)); [|wstep; same_error E].
  spec_eval E. apply String.eqb_neq in Hg0.
  wstep. apply wp_save. intros s3 Hs3. wstep. apply wp_save. intros s4 Hs4. wstep.
  two_end (Main from) (Main to) Hs3 Hs4.
Qed.

Lemma repr_ext (s : S) l l' : repr acc s l → (∀ y, l y = l' y) → repr acc s l'.
Proof using Type. intros Hr He y Hy. rewrite <-He. by apply Hr. Qed.

(** Saving one sub-account. *)
Lemma wp_save_exec ty e prev cur s s0 l Q :
  repr acc s l → s0 ≈ s → valid (Sub e (Addr cur)) →
  (∀ rc s', repr acc s' (upd l (Sub e (Addr cur)) cur) → wrote (KVs rc) s s' → Q (Ret rc) s') →
  wp (save_exec acc ty e prev cur) Q s0.
Proof using Hacc.
  intros Hr Hs Hv HQ. unfold save_exec, SaveExecAccount. wstep. apply wp_save. intros s1 Hs1. wstep.
  apply HQ; [by eapply repr_save|]. simpl. by rewrite <-Hs.
Qed.

(** Every operation on one sub-account has the same shape: guards, load,
    a funds check, save. *)
Ltac one_sub x E :=
  wstep; wstep; [same_error E|]; wstep; wstep; [same_error E|]; bool_to_prop;
  wstep; unfold LoadExecAccount; eapply (wp_load acc _ _ x); [done|done|]; intros s1 Hs1.

Ltac one_sub_end E :=
  spec_eval E; [];
  eapply wp_save_exec; [done|done|simpl; by repeat match goal with H : Addr _ = _ |- _ => rewrite H end|];
  intros rc s' Hr' Hw; split; [|done]; simpl in Hr';
  repeat match goal with H : Addr _ = _ |- _ => rewrite H in Hr' end;
  eapply repr_ext; [exact Hr'|]; intros y; unfold credit, credit_frozen, upd;
  repeat case_decide; subst; try done.

Lemma ExecDeposit_refines s l a e n :
  repr acc s l → wf_at l (Sub e a) →
  refines_at acc (ExecDeposit acc a e n) (Spec.deposit a e n) s l.
Proof using Hacc.
  intros Hr (Hv & W & Ax). apply refines_wp. simpl in Ax.
  destruct (Spec.deposit a e n l) as [o l'] eqn:E. unfold Spec.deposit in E. unfold ExecDeposit.
  one_sub (Sub e a) E. rewrite exact_add_balance by done. one_sub_end E.
Qed.

Lemma execDepositFrozen_refines s l a e n :
  repr acc s l → wf_at l (Sub e a) →
  refines_at acc (execDepositFrozen acc a e n) (Spec.deposit_frozen a e n) s l.
Proof using Hacc.
  intros Hr (Hv & W & Ax). apply refines_wp. simpl in Ax.
  destruct (Spec.deposit_frozen a e n l) as [o l'] eqn:E. unfold Spec.deposit_frozen in E.
  unfold execDepositFrozen. one_sub (Sub e a) E. rewrite exact_add_frozen by done. one_sub_end E.
Qed.

Lemma ExecWithdraw_refines s l e a n :
  repr acc s l → wf_at l (Sub e a) →
  refines_at acc (ExecWithdraw acc e a n) (Spec.withdraw e a n) s l.
Proof using Hacc.
  intros Hr (Hv & W & Ax). apply refines_wp. simpl in Ax.
  destruct (Spec.withdraw e a n l) as [o l'] eqn:E. unfold Spec.withdraw in E. unfold ExecWithdraw.
  one_sub (Sub e a) E. rewrite exact_sub_balance by done.
  wstep; wstep; [same_error E|]. one_sub_end E.
Qed.

Lemma ExecFrozen_refines s l a e n :
  repr acc s l → wf_at l (Sub e a) →
  refines_at acc (ExecFrozen acc a e n) (Spec.frozen a e n) s l.
Proof using Hacc.
  intros Hr (Hv & W & Ax). apply refines_wp. simpl in Ax.
  destruct (Spec.frozen a e n l) as [o l'] eqn:E. unfold Spec.frozen in E. unfold ExecFrozen.
  one_sub (Sub e a) E. rewrite exact_sub_balance, exact_add_frozen by done.
  wstep; wstep; [same_error E|]. one_sub_end E.
Qed.

Lemma ExecActive_refines s l a e n :
  repr acc s l → wf_at l (Sub e a) →
  refines_at acc (ExecActive acc a e n) (Spec.active a e n) s l.
Proof using Hacc.
  intros Hr (Hv & W & Ax). apply refines_wp. simpl in Ax.
  destruct (Spec.active a e n l) as [o l'] eqn:E. unfold Spec.active in E. unfold ExecActive.
  one_sub (Sub e a) E. rewrite exact_sub_frozen, exact_add_balance by done.
  wstep; wstep; [same_error E|]. one_sub_end E.
Qed.

(** Transfers between two sub-accounts of one executor. *)
Lemma ExecTransfer_refines s l from to e n :
  repr acc s l → wf_at l (Sub e from) → wf_at l (Sub e to) →
  refines_at acc (ExecTransfer acc from to e n) (Spec.exec_transfer from to e n) s l.
Proof using Hacc.
  intros Hr (Hf & Wf & Af) (Ht & Wt & At). apply refines_wp. simpl in Af, At.
  destruct (Spec.exec_transfer from to e n l) as [o l'] eqn:E. unfold Spec.exec_transfer in E.
  unfold ExecTransfer. one_sub (Sub e from) E.
  wstep. eapply (wp_load acc _ _ (Sub e to)); [by rewrite Hs1|done|]. intros s2 Hs2.
  rewrite !exact_sub_balance, !exact_add_balance by done.
  wstep; wstep; [same_error E|]. spec_eval E. apply String.eqb_neq in Hc.
  wstep. apply wp_save. intros s3 Hs3. wstep. apply wp_save. intros s4 Hs4. wstep.
  two_end (Sub e from) (Sub e to) Hs3 Hs4.
Qed.

Lemma ExecTransferFrozen_refines s l from to e n :
  repr acc s l → wf_at l (Sub e from) → wf_at l (Sub e to) →
  refines_at acc (ExecTransferFrozen acc from to e n) (Spec.exec_transfer_frozen from to e n) s l.
Proof using Hacc.
  intros Hr (Hf & Wf & Af) (Ht & Wt & At). apply refines_wp. simpl in Af, At.
  destruct (Spec.exec_transfer_frozen from to e n l) as [o l'] eqn:E.
  unfold Spec.exec_transfer_frozen in E.
  unfold ExecTransferFrozen. one_sub (Sub e from) E.
  wstep. eapply (wp_load acc _ _ (Sub e to)); [by rewrite Hs1|done|]. intros s2 Hs2.
  rewrite !exact_sub_frozen, !exact_add_balance by done.
  wstep; wstep; [same_error E|]. spec_eval E. apply String.eqb_neq in Hc.
  wstep. apply wp_save. intros s3 Hs3. wstep. apply wp_save. intros s4 Hs4. wstep.
  two_end (Sub e from) (Sub e to) Hs3 Hs4.
Qed.

(** Operations on one main account. *)
Lemma depositBalance_refines s l a n :
  repr acc s l → wf_at l (Main a) →
  refines_at acc (depositBalance acc a n) (Spec.issue a n) s l.
Proof using Hacc.
  intros Hr (Hv & W & Ax). apply refines_wp. simpl in Ax.
  destruct (Spec.issue a n l) as [o l'] eqn:E. unfold Spec.issue in E. unfold depositBalance.
  one_main (Main a) E. rewrite exact_add_balance by done. one_main_end E.
Qed.

Lemma Burn_refines s l a n :
  repr acc s l → wf_at l (Main a) → refines_at acc (Burn acc a n) (Spec.burn a n) s l.
Proof using Hacc.
  intros Hr (Hv & W & Ax). apply refines_wp. simpl in Ax.
  destruct (Spec.burn a n l) as [o l'] eqn:E. unfold Spec.burn in E. unfold Burn.
  one_main (Main a) E. wstep; wstep; [same_error E|].
  rewrite exact_sub_balance by done. one_main_end E.
Qed.

Lemma wp_lift {A} (o : outcome A) Q (s : S) : Q o s → wp (lift_outcome o) Q s.
Proof using Type. done. Qed.

(** [safeAdd] is the exact bounded addition. *)
Lemma safeAdd_exact a n :
  wf_account a → CheckAmount n = true →
  safeAdd (Balance a) n =
    if (Balance a + n <=? MaxTokenBalance)%Z then Ret (Balance a + n)%Z else Err ErrAmount.
Proof using Type.
  intros W Hn. unfold safeAdd. rewrite !exact_add_balance by done.
  unfold wf_account in W. apply CheckAmount_true in Hn.
  destruct (Z.ltb_spec (Balance a + n) n), (Z.leb_spec (Balance a + n) MaxTokenBalance),
    (Z.ltb_spec MaxTokenBalance (Balance a + n)); simpl; try done; lia.
Qed.

Lemma Mint_refines s l a n :
  repr acc s l → wf_at l (Main a) → refines_at acc (Mint acc a n) (Spec.mint a n) s l.
Proof using Hacc.
  intros Hr (Hv & W & Ax). apply refines_wp. simpl in Ax.
  destruct (Spec.mint a n l) as [o l'] eqn:E. unfold Spec.mint in E. unfold Mint.
  one_main (Main a) E. wstep. apply wp_lift. rewrite safeAdd_exact by done.
  destruct (Z.leb_spec (Balance (l (Main a)) + n) MaxTokenBalance); [|same_error E].
  one_main_end E.
Qed.

(** *** Composite operations *)

Lemma CheckTransfer_run s l from to n :
  repr acc s l → wf_at l (Main from) →
  ∃ s', s' ≈ s ∧ CheckTransfer acc from to n s =
    (if CheckAmount n then
       if (n <=? Balance (l (Main from)))%Z then Ret tt else Err ErrNoBalance
     else Err ErrAmount, s').
Proof using Hacc.
  intros Hr (Hv & W & Ax).
  enough (wp (CheckTransfer acc from to n) (λ r s', s' ≈ s ∧
    r = if CheckAmount n then
          if (n <=? Balance (l (Main from)))%Z then Ret tt else Err ErrNoBalance
        else Err ErrAmount) s) as Hw.
  { unfold wp in Hw. destruct (CheckTransfer acc from to n s) as [r s'].
    simpl in Hw. destruct Hw as [? ?]. subst r. eauto. }
  unfold CheckTransfer. rewrite LoadAccount_eq by done.
  wstep; wstep; bool_to_prop; [by rewrite Hg|]. rewrite Hg.
  wstep. eapply wp_load; [done|done|]. intros s1 Hs1. rewrite exact_sub_balance by done.
  wstep; bool_to_prop; (split; [done|]); destruct (Z.leb_spec n (Balance (l (Main from))));
    done || lia.
Qed.

Lemma TransferToExec_refines s l from to n :
  repr acc s l → wf_at l (Main from) → wf_at l (Main to) → wf_at l (Sub to from) →
  refines_at acc (TransferToExec acc from to n) (Spec.transfer_to_exec from to n) s l.
Proof using Hacc.
  intros Hr Hf Ht Hsub. unfold TransferToExec, Spec.transfer_to_exec.
  destruct (Transfer_refines s l from to n Hr Hf Ht) as (r & s1 & E1 & Hr1 & Hm).
  destruct (Spec.transfer from to n l) as [o l1] eqn:Es. simpl in Hr1, Hm.
  unfold refines_at, mbind, M_bind. rewrite E1, Es.
  destruct o as [[]|e|], r as [rc|e'|]; try done; [|by eexists _, _].
  assert (l1 (Sub to from) = l (Sub to from) ∧ from ≠ to ∧ CheckAmount n = true) as (El & Hne & Hn).
  { unfold Spec.transfer in Es. spec_eval Es; []. split; [|split; [by apply String.eqb_neq|done]].
    done. }
  assert (wf_at l1 (Sub to from)) as Hsub1 by (unfold wf_at; by rewrite El).
  destruct (ExecDeposit_refines s1 l1 from to n Hr1 Hsub1) as (r2 & s2 & E2 & Hr2 & Hm2).
  destruct (Spec.deposit from to n l1) as [o2 l2] eqn:Es2. simpl in Hr2, Hm2.
  apply String.eqb_neq in Hne. unfold must. rewrite E2.
  unfold Spec.deposit in Es2. spec_eval Es2.
  destruct r2 as [rc2|e2|]; try done. eexists _, _. split; [done|]. split; [done|].
  by eapply wrote_app.
Qed.

Lemma TransferWithdraw_refines s l from to n :
  repr acc s l → wf_at l (Main from) → wf_at l (Main to) → wf_at l (Sub to from) →
  refines_at acc (TransferWithdraw acc from to n) (Spec.transfer_withdraw from to n) s l.
Proof using Hacc.
  intros Hr Hf Ht Hsub. unfold TransferWithdraw, Spec.transfer_withdraw.
  destruct (CheckTransfer_run s l to from n Hr Ht) as (s0 & Hs0 & E0).
  unfold refines_at, mbind, M_bind, positive_amount, require. rewrite E0.
  destruct (CheckAmount n) eqn:Hn; [|eexists _, _; split; [done|]; simpl; rewrite Hs0; done].
  destruct (n <=? Balance (l (Main to)))%Z eqn:Hb; [|eexists _, _; split; [done|]; simpl; rewrite Hs0; done].
  destruct (ExecWithdraw_refines s0 l to from n ltac:(by rewrite Hs0) Hsub)
    as (r & s1 & E1 & Hr1 & Hm).
  destruct (Spec.withdraw to from n l) as [o l1] eqn:Es. simpl in Hr1, Hm. rewrite E1.
  destruct o as [[]|e|], r as [rc|e'|]; try done.
  2:{ destruct Hm as [-> Hm]. eexists _, _. split; [done|]. split; [done|]. simpl. by rewrite Hm. }
  assert (l1 (Main from) = l (Main from) ∧ l1 (Main to) = l (Main to) ∧ from ≠ to) as (El & El' & Hne).
  { unfold Spec.withdraw in Es. spec_eval Es; []. split; [done|]. split; [done|].
    by apply String.eqb_neq. }
  assert (wf_at l1 (Main from)) as Hf1 by (unfold wf_at; by rewrite El).
  assert (wf_at l1 (Main to)) as Ht1 by (unfold wf_at; by rewrite El').
  destruct (Transfer_refines s1 l1 to from n Hr1 Ht1 Hf1) as (r2 & s2 & E2 & Hr2 & Hm2).
  destruct (Spec.transfer to from n l1) as [o2 l2] eqn:Es2. simpl in Hr2, Hm2.
  unfold must. rewrite E2. unfold Spec.transfer in Es2.
  apply not_eq_sym, String.eqb_neq in Hne. rewrite Hne in Es2.
  unfold positive_amount, require, modify, mbind, M_bind in Es2.
  cbn beta in Es2. rewrite Hn in Es2. cbn in Es2. rewrite El', Hb in Es2. injection Es2 as <- <-.
  destruct r2 as [rc2|e2|]; try done. eexists _, _. split; [done|]. split; [done|].
  eapply wrote_app; [|exact Hm2]. by rewrite <-Hs0.
Qed.
End Operations.
