(* ===== verification/LedgerInv.v ===== *)
(** Invariants of the asset ledger: along every sequence of user operations the
    total supply is constant, no balance becomes negative, and every executor
    holds at least what it owes to its users. *)

From Stdlib Require Import Ascii String.
From S2P Require Import Prelude KVStore Types Account Ledger.
Local Open Scope string_scope.

(** ** The user operations of the ledger *)

Inductive op :=
  | OTransfer (from to : string) (n : Z)
  | OTransferToExec (from to : string) (n : Z)
  | OTransferWithdraw (from to : string) (n : Z)
  | OExecFrozen (addr execaddr : string) (n : Z)
  | OExecActive (addr execaddr : string) (n : Z)
  | OExecTransfer (from to execaddr : string) (n : Z)
  | OExecTransferFrozen (from to execaddr : string) (n : Z).

Definition run {S} `{!KV S} `{!LedgerCodecs} (acc : DB) (o : op) : M S Receipt :=
  match o with
  | OTransfer from to n => Transfer acc from to n
  | OTransferToExec from to n => TransferToExec acc from to n
  | OTransferWithdraw from to n => TransferWithdraw acc from to n
  | OExecFrozen a e n => ExecFrozen acc a e n
  | OExecActive a e n => ExecActive acc a e n
  | OExecTransfer from to e n => ExecTransfer acc from to e n
  | OExecTransferFrozen from to e n => ExecTransferFrozen acc from to e n
  end.

Definition spec (o : op) : M ledger unit :=
  match o with
  | OTransfer from to n => Spec.transfer from to n
  | OTransferToExec from to n => Spec.transfer_to_exec from to n
  | OTransferWithdraw from to n => Spec.transfer_withdraw from to n
  | OExecFrozen a e n => Spec.frozen a e n
  | OExecActive a e n => Spec.active a e n
  | OExecTransfer from to e n => Spec.exec_transfer from to e n
  | OExecTransferFrozen from to e n => Spec.exec_transfer_frozen from to e n
  end.

(** The locations an operation touches. *)
Definition touches (o : op) : list loc :=
  match o with
  | OTransfer from to _ => [Main from; Main to]
  | OTransferToExec from to _ | OTransferWithdraw from to _ => [Main from; Main to; Sub to from]
  | OExecFrozen a e _ | OExecActive a e _ => [Sub e a]
  | OExecTransfer from to e _ | OExecTransferFrozen from to e _ => [Sub e from; Sub e to]
  end.

Lemma run_refines {S} `{!KV S} `{!LedgerCodecs} acc (s : S) l o :
  handle_ok acc → repr acc s l → Forall (wf_at l) (touches o) →
  refines_at acc (run acc o) (spec o) s l.
Proof.
  intros Ha Hr Hw. destruct o; simpl in *; decompose_Forall_hyps.
  - by apply Transfer_refines.
  - by apply TransferToExec_refines.
  - by apply TransferWithdraw_refines.
  - by apply ExecFrozen_refines.
  - by apply ExecActive_refines.
  - by apply ExecTransfer_refines.
  - by apply ExecTransferFrozen_refines.
Qed.

(** ** Sums over the ledger *)

Definition supply (U : list string) (l : ledger) : Z := sumZ (λ a, Balance (l (Main a))) U.
Definition owed (U : list string) (e : string) (l : ledger) : Z :=
  sumZ (λ a, Balance (l (Sub e a)) + Frozen (l (Sub e a)))%Z U.

Section Sums.
Context (U : list string) (HU : NoDup U).
Local Open Scope Z_scope.

Lemma supply_credit_main l a n : a ∈ U → supply U (credit (Main a) n l) = supply U l + n.
Proof using HU.
  intros Ha. unfold supply.
  rewrite (sumZ_update (λ b, Balance (l (Main b))) _ U a HU Ha).
  - unfold credit. rewrite upd_eq. simpl. lia.
  - intros b _ Hne. unfold credit. rewrite upd_ne; [done|congruence].
Qed.

Lemma supply_credit_sub l e a n : supply U (credit (Sub e a) n l) = supply U l.
Proof using Type. apply sumZ_ext. intros b _. unfold credit. by rewrite upd_ne. Qed.

Lemma supply_credit_frozen_sub l e a n : supply U (credit_frozen (Sub e a) n l) = supply U l.
Proof using Type. apply sumZ_ext. intros b _. unfold credit_frozen. by rewrite upd_ne. Qed.

Lemma owed_credit_main l e a n : owed U e (credit (Main a) n l) = owed U e l.
Proof using Type. apply sumZ_ext. intros b _. unfold credit. by rewrite upd_ne. Qed.

Lemma owed_credit_sub l e e' a n :
  a ∈ U → owed U e (credit (Sub e' a) n l) = owed U e l + if decide (e = e') then n else 0.
Proof using HU.
  intros Ha. unfold owed, credit. case_decide; subst.
  - rewrite (sumZ_update (λ b, Balance (l (Sub e' b)) + Frozen (l (Sub e' b))) _ U a HU Ha).
    + rewrite upd_eq. simpl. lia.
    + intros b _ Hne. rewrite upd_ne; [done|congruence].
  - rewrite Z.add_0_r. apply sumZ_ext. intros b _. rewrite upd_ne; [done|congruence].
Qed.

Lemma owed_credit_frozen_sub l e e' a n :
  a ∈ U → owed U e (credit_frozen (Sub e' a) n l) = owed U e l + if decide (e = e') then n else 0.
Proof using HU.
  intros Ha. unfold owed, credit_frozen. case_decide; subst.
  - rewrite (sumZ_update (λ b, Balance (l (Sub e' b)) + Frozen (l (Sub e' b))) _ U a HU Ha).
    + rewrite upd_eq. simpl. lia.
    + intros b _ Hne. rewrite upd_ne; [done|congruence].
  - rewrite Z.add_0_r. apply sumZ_ext. intros b _. rewrite upd_ne; [done|congruence].
Qed.
End Sums.

Create Rewrite HintDb ledger.
#[export] Hint Rewrite supply_credit_sub supply_credit_frozen_sub owed_credit_main : ledger.

Lemma Balance_credit x y n l :
  Balance (credit x n l y) = (Balance (l y) + if decide (y = x) then n else 0)%Z.
Proof. unfold credit, upd. case_decide; subst; simpl; lia. Qed.
Lemma Frozen_credit x y n l : Frozen (credit x n l y) = Frozen (l y).
Proof. unfold credit, upd. by case_decide; subst. Qed.
Lemma Balance_credit_frozen x y n l : Balance (credit_frozen x n l y) = Balance (l y).
Proof. unfold credit_frozen, upd. by case_decide; subst. Qed.
Lemma Frozen_credit_frozen x y n l :
  Frozen (credit_frozen x n l y) = (Frozen (l y) + if decide (y = x) then n else 0)%Z.
Proof. unfold credit_frozen, upd. case_decide; subst; simpl; lia. Qed.
Lemma Addr_credit x y n l : Addr (credit x n l y) = Addr (l y).
Proof. unfold credit, upd. by case_decide; subst. Qed.
Lemma Addr_credit_frozen x y n l : Addr (credit_frozen x n l y) = Addr (l y).
Proof. unfold credit_frozen, upd. by case_decide; subst. Qed.

#[export] Hint Rewrite Balance_credit Frozen_credit Balance_credit_frozen Frozen_credit_frozen
  Addr_credit Addr_credit_frozen : ledger.

(** ** The invariant *)

Section Invariant.
(** [U]: the addresses in use; [E]: those of them that are executor addresses,
    for which nobody holds a key. *)
Context (U E : list string) (HU : NoDup U) (HUv : Forall valid_addr U) (HE : E ⊆ U).

Definition allowed (o : op) : Prop :=
  match o with
  | OTransfer from to _ => from ∈ U ∧ (from ∉ E) ∧ to ∈ U
  | OTransferToExec from to _ => from ∈ U ∧ (from ∉ E) ∧ to ∈ E
  | OTransferWithdraw from to _ => from ∈ U ∧ (from ∉ E) ∧ to ∈ E
  | OExecFrozen a e _ | OExecActive a e _ => a ∈ U ∧ e ∈ E
  | OExecTransfer from to e _ | OExecTransferFrozen from to e _ => from ∈ U ∧ to ∈ U ∧ e ∈ E
  end.

Record good (T : Z) (l : ledger) : Prop := {
  good_nonneg : ∀ x, valid x → (0 ≤ Balance (l x) ∧ 0 ≤ Frozen (l x))%Z;
  good_addr : ∀ x, valid x → Addr (l x) = owner x;
  good_main : ∀ a, valid_addr a → Frozen (l (Main a)) = 0%Z;
  good_supply : supply U l = T;
  good_custody : ∀ e, e ∈ E → (owed U e l ≤ Balance (l (Main e)))%Z
}.

Lemma U_valid a : a ∈ U → valid_addr a.
Proof using HUv. intros Ha. by apply (proj1 (list.Forall_forall _ _) HUv). Qed.
Lemma E_valid e : e ∈ E → valid_addr e.
Proof using HUv HE. intros He. by apply U_valid, HE. Qed.

(** The bounds of single accounts follow from supply and custody. *)
Lemma good_main_wf T l a :
  (T ≤ MaxTokenBalance)%Z → good T l → a ∈ U → wf_at l (Main a).
Proof using HUv.
  intros HT HG Ha. pose proof (U_valid a Ha) as Hv.
  destruct (good_nonneg _ _ HG (Main a) Hv) as [Hb Hf].
  split; [done|]. split; [|by apply HG]. split; [done|]. split; [done|].
  rewrite (good_main _ _ HG) by done. rewrite <-(good_supply _ _ HG) in HT.
  pose proof (sumZ_member (λ a, Balance (l (Main a))) U a) as Hm. simpl in Hm.
  unfold supply in HT. specialize (Hm ltac:(intros b Hb'; apply (good_nonneg _ _ HG (Main b)); by apply U_valid) Ha). lia.
Qed.

Lemma good_sub_wf T l e a :
  (T ≤ MaxTokenBalance)%Z → good T l → a ∈ U → e ∈ E → wf_at l (Sub e a).
Proof using HUv HE.
  intros HT HG Ha He. assert (valid (Sub e a)) as Hv by (split; [by apply E_valid|by apply U_valid]).
  destruct (good_nonneg _ _ HG (Sub e a) Hv) as [Hb Hf].
  split; [done|]. split; [|by apply HG]. split; [done|]. split; [done|].
  pose proof (good_custody _ _ HG e He) as Hc.
  destruct (good_main_wf T l e HT HG (HE e He)) as (_ & [_ [_ Hm]] & _).
  rewrite (good_main _ _ HG) in Hm by (by apply E_valid).
  pose proof (sumZ_member (λ a, Balance (l (Sub e a)) + Frozen (l (Sub e a)))%Z U a) as Hs.
  simpl in Hs. unfold owed in Hc.
  specialize (Hs ltac:(intros b Hb'; destruct (good_nonneg _ _ HG (Sub e b)) as [? ?]; [split; [by apply E_valid|by apply U_valid]|lia]) Ha). lia.
Qed.

Lemma allowed_wf T l o :
  (T ≤ MaxTokenBalance)%Z → good T l → allowed o → Forall (wf_at l) (touches o).
Proof using HUv HE.
  intros HT HG Ha. destruct o; simpl in *; destruct_and!; repeat constructor;
    solve [eapply good_main_wf; eauto | eapply good_sub_wf; eauto].
Qed.

(** One abstract operation keeps the invariant: the moved amount leaves one
    location and enters another. *)
Ltac good_case HG :=
  match goal with
  | HG : good _ ?l |- good _ ?l => exact HG
  | _ =>
    match goal with Hc : CheckAmount _ = true |- _ => apply CheckAmount_true in Hc end;
    destruct HG as [Hnn Had Hmain Hsup Hcus]; constructor;
    [ intros x Hx; pose proof (Hnn x Hx); autorewrite with ledger;
      repeat case_decide; subst; simplify_eq; lia
    | intros x Hx; autorewrite with ledger; by apply Had
    | intros a' Ha'; autorewrite with ledger; pose proof (Hmain a' Ha');
      repeat case_decide; simplify_eq; lia
    | autorewrite with ledger; rewrite ?supply_credit_main by auto;
      autorewrite with ledger; lia
    | intros e' He'; pose proof (Hcus e' He'); autorewrite with ledger;
      repeat (first [rewrite owed_credit_frozen_sub by auto | rewrite owed_credit_sub by auto];
              autorewrite with ledger);
      repeat case_decide; subst; simplify_eq; solve [lia | exfalso; auto] ]
  end.

Lemma spec_good T l o :
  good T l → allowed o → good T (spec o l).2.
Proof using HU HE.
  intros HG Ha. destruct (spec o l) as [r l'] eqn:Es. simpl.
  destruct o; simpl in Ha, Es; destruct_and!.
  - unfold Spec.transfer in Es. spec_eval Es; good_case HG.
  - unfold Spec.transfer_to_exec, Spec.transfer, Spec.deposit in Es. spec_eval Es; good_case HG.
  - unfold Spec.transfer_withdraw, Spec.transfer, Spec.withdraw in Es. spec_eval Es; good_case HG.
  - unfold Spec.frozen in Es. spec_eval Es; good_case HG.
  - unfold Spec.active in Es. spec_eval Es; good_case HG.
  - unfold Spec.exec_transfer in Es. spec_eval Es; good_case HG.
  - unfold Spec.exec_transfer_frozen in Es. spec_eval Es; good_case HG.
Qed.

(** ** Reachable stores *)
Context {S : Type} `{!KV S} `{!LedgerCodecs} (acc : DB) (Hacc : handle_ok acc).

(** One user operation, whatever its outcome. *)
Inductive lstep : relation S :=
  | lstep_op o s r s' : allowed o → run acc o s = (r, s') → lstep s s'.

(** The store represents a ledger of total supply [T] that satisfies the invariant. *)
Definition ledger_inv (T : Z) (s : S) : Prop := ∃ l, repr acc s l ∧ good T l.

Lemma lstep_inv T s s' :
  (T ≤ MaxTokenBalance)%Z → ledger_inv T s → lstep s s' → ledger_inv T s'.
Proof using HU HUv HE Hacc.
  intros HT (l & Hr & HG) Hs. destruct Hs as [o s r s' Ha E1].
  destruct (run_refines acc s l o Hacc Hr (allowed_wf T l o HT HG Ha)) as (r2 & s2 & E2 & Hr2 & _).
  rewrite E1 in E2. simplify_eq. eexists. split; [done|]. by apply spec_good.
Qed.

(** No operation of a reachable ledger panics. *)
Lemma run_no_panic T s o :
  (T ≤ MaxTokenBalance)%Z → ledger_inv T s → allowed o → (run acc o s).1 ≠ Panic.
Proof using HU HUv HE Hacc.
  intros HT (l & Hr & HG) Ha.
  destruct (run_refines acc s l o Hacc Hr (allowed_wf T l o HT HG Ha)) as (r2 & s2 & E2 & _ & Hm).
  rewrite E2. destruct (spec o l).1, r2; done.
Qed.
End Invariant.
