(* ===== verification/LedgerTheorems.v ===== *)
(** The theorems of the asset ledger, with concrete instances. *)

From Stdlib Require Import Ascii String.
From S2P Require Import Prelude KVStore Types Account Ledger LedgerInv.
Local Open Scope string_scope.

(** ** A concrete ledger for the examples: a finite-map store *)

#[export] Instance rat_eq_dec : EqDecision ReceiptAccountTransfer.
Proof. solve_decision. Defined.
#[export] Instance rat_countable : Countable ReceiptAccountTransfer.
Proof.
  refine (inj_countable' (λ r, (rat_Prev r, rat_Current r)) (λ '(p, c), {| rat_Prev := p; rat_Current := c |}) _).
  by intros [].
Defined.
#[export] Instance reat_eq_dec : EqDecision ReceiptExecAccountTransfer.
Proof. solve_decision. Defined.
#[export] Instance reat_countable : Countable ReceiptExecAccountTransfer.
Proof.
  refine (inj_countable' (λ r, (reat_ExecAddr r, reat_Prev r, reat_Current r))
    (λ '(e, p, c), {| reat_ExecAddr := e; reat_Prev := p; reat_Current := c |}) _).
  by intros [].
Defined.
#[export] Instance ram_eq_dec : EqDecision ReceiptAccountMint.
Proof. solve_decision. Defined.
#[export] Instance ram_countable : Countable ReceiptAccountMint.
Proof.
  refine (inj_countable' (λ r, (ram_Prev r, ram_Current r)) (λ '(p, c), {| ram_Prev := p; ram_Current := c |}) _).
  by intros [].
Defined.
#[export] Instance rab_eq_dec : EqDecision ReceiptAccountBurn.
Proof. solve_decision. Defined.
#[export] Instance rab_countable : Countable ReceiptAccountBurn.
Proof.
  refine (inj_countable' (λ r, (rab_Prev r, rab_Current r)) (λ '(p, c), {| rab_Prev := p; rab_Current := c |}) _).
  by intros [].
Defined.

Module Demo.
#[export] Instance codecs : LedgerCodecs := {|
  codec_Account := countable_codec; codec_rat := countable_codec;
  codec_reat := countable_codec; codec_ram := countable_codec; codec_rab := countable_codec |}.

Definition store := gmap bytes bytes.
Definition coins : DB := NewCoinsAccount "bty".
Definition users : list string := ["alice"; "bob"; "ticket"].
Definition execs : list string := ["ticket"].

Lemma coins_ok : handle_ok coins.
Proof. apply newAccountDB_ok. Qed.

(** The ledger after a genesis of 1000 coins to alice. *)
Definition empty_ledger : ledger := λ x, mkAccount 0 0 0 (owner x).
Definition genesis : ledger := credit (Main "alice") 1000 empty_ledger.
Definition s0 : gmap bytes bytes := (GenesisInit coins "alice" 1000 (∅ : gmap bytes bytes)).2.
End Demo.
#[local] Existing Instance Demo.codecs.

(** Genesis credits the account by the exact amount. *)
Lemma GenesisInit_run {S} `{!KV S} `{!LedgerCodecs} acc (s : S) l a n :
  handle_ok acc → repr acc s l → wf_at l (Main a) →
  (0 ≤ n ∧ Balance (l (Main a)) + n ≤ MaxTokenBalance)%Z →
  ∃ rc s', GenesisInit acc a n s = (Ret rc, s') ∧ repr acc s' (credit (Main a) n l) ∧
    wrote (KVs rc) s s'.
Proof.
  intros Ha Hr (Hv & W & Ax) Hn. simpl in Ax.
  enough (wp (GenesisInit acc a n) (λ r s', ∃ rc, r = Ret rc ∧ repr acc s' (credit (Main a) n l) ∧
    wrote (KVs rc) s s') s) as Hw.
  { unfold wp in Hw. destruct (GenesisInit acc a n s) as [r s']. destruct Hw as (rc & Hrc & ? & ?).
    simpl in Hrc. subst r. eauto. }
  unfold GenesisInit. rewrite LoadAccount_eq by done.
  wstep. eapply wp_load; [done|done|]. intros s1 Hs1.
  wstep. apply wp_lift.
  assert ((Balance (l (Main a)) +₆₄ n) = Balance (l (Main a)) + n)%Z as Hx.
  { apply wrap64_id. unfold in64. unfold wf_account, MaxTokenBalance, TokenPrecision in *. lia. }
  unfold safeAdd. rewrite Hx.
  destruct W as (? & ? & ?).
  rewrite (proj2 (Z.ltb_ge _ _)) by lia. rewrite (proj2 (Z.ltb_ge _ _)) by lia. simpl.
  wstep. apply wp_save. intros s2 Hs2. wstep. eexists. split; [done|].
  unfold GetKVSet in Hs2. simpl in Hs2. rewrite Ax in Hs2.
  split; [by eapply repr_save|]. unfold genesisReceipt, GetKVSet. simpl. rewrite Ax. by rewrite <-Hs1.
Qed.

Lemma Demo_empty_repr : repr Demo.coins (∅ : gmap bytes bytes) Demo.empty_ledger.
Proof. intros x Hx. unfold peek. simpl. by rewrite lookup_empty. Qed.

Lemma Demo_s0_repr : repr Demo.coins Demo.s0 Demo.genesis.
Proof.
  destruct (GenesisInit_run Demo.coins (∅ : gmap bytes bytes) Demo.empty_ledger "alice" 1000
    Demo.coins_ok Demo_empty_repr) as (rc & s' & E & Hr & _).
  - split; [done|]. split; [|done]. repeat split; done.
  - done.
  - unfold Demo.s0. by rewrite E.
Qed.

Lemma Demo_s0_good : good Demo.users Demo.execs 1000 Demo.genesis.
Proof.
  unfold Demo.genesis. constructor.
  - intros x _. autorewrite with ledger. simpl. case_decide; simpl; lia.
  - intros x _. by autorewrite with ledger.
  - intros a _. by autorewrite with ledger.
  - done.
  - intros e He. apply list_elem_of_singleton in He as ->. done.
Qed.

Lemma Demo_users : NoDup Demo.users ∧ Forall valid_addr Demo.users ∧ Demo.execs ⊆ Demo.users.
Proof. split; [|split]; [|by repeat constructor|set_solver]. by apply (bool_decide_unpack _). Qed.

(** ** C1 *)

(** C1. Along every sequence of ledger operations (transfers, deposits into and
    withdrawals from executors, freezes, activations, transfers inside an
    executor; successful or not) starting from a well-formed ledger whose supply
    is at most [MaxTokenBalance]: the total supply of the main accounts stays
    [T], every balance and frozen amount stays non-negative, every executor's
    main account covers the sum of its users' sub-accounts, and no operation
    panics. *)
Theorem ledger_reachable {S} `{!KV S} `{!LedgerCodecs} U E acc T (s s' : S) :
  NoDup U → Forall valid_addr U → E ⊆ U → handle_ok acc → (T ≤ MaxTokenBalance)%Z →
  ledger_inv U E acc T s → rtc (lstep U E acc) s s' →
  ledger_inv U E acc T s' ∧ ∀ o, allowed U E o → (run acc o s').1 ≠ Panic.
Proof.
  intros HU HUv HE Ha HT Hi Hs.
  assert (ledger_inv U E acc T s') as Hi'.
  { induction Hs as [|s1 s2 s3 H1 _ IH]; [done|]. apply IH. by eapply lstep_inv. }
  split; [done|]. intros o Ho. by eapply run_no_panic.
Qed.

Definition Demo_s1 : gmap bytes bytes :=
  (run Demo.coins (OTransferToExec "alice" "ticket" 400) Demo.s0).2.

Lemma ledger_reachable_witness :
  ledger_inv Demo.users Demo.execs Demo.coins 1000 Demo_s1 ∧
  (run Demo.coins (OTransferWithdraw "alice" "ticket" 100) Demo_s1).1 ≠ Panic.
Proof.
  destruct Demo_users as (H1 & H2 & H3).
  destruct (ledger_reachable Demo.users Demo.execs Demo.coins 1000 Demo.s0 Demo_s1 H1 H2 H3
    Demo.coins_ok) as [Hi Hp].
  - done.
  - exists Demo.genesis. split; [apply Demo_s0_repr|apply Demo_s0_good].
  - eapply rtc_once. eapply (lstep_op _ _ _ (OTransferToExec "alice" "ticket" 400)).
    + simpl. set_solver.
    + apply surjective_pairing.
  - split; [exact Hi|]. apply Hp. simpl. set_solver.
Defined.

(** ** C2 *)

(** C2. Every ledger operation refines its contract over exact integers: on a
    store that represents ledger [l], with well-formed records at the touched
    locations, it returns the contract's error and leaves the store unchanged, or
    succeeds, the store then represents the contract's ledger, and the receipt's
    key-value list is exactly what changed in the store. *)
Theorem ledger_refinement {S} `{!KV S} `{!LedgerCodecs} acc (s : S) l :
  handle_ok acc → repr acc s l →
  (∀ o, Forall (wf_at l) (touches o) → refines_at acc (run acc o) (spec o) s l) ∧
  (∀ a n, wf_at l (Main a) →
    refines_at acc (Mint acc a n) (Spec.mint a n) s l ∧
    refines_at acc (Burn acc a n) (Spec.burn a n) s l ∧
    refines_at acc (depositBalance acc a n) (Spec.issue a n) s l).
Proof.
  intros Ha Hr. split; [intros o Ho; by apply run_refines|].
  intros a n Hw. split; [by apply Mint_refines|]. split; [by apply Burn_refines|].
  by apply depositBalance_refines.
Qed.

Lemma ledger_refinement_witness :
  refines_at Demo.coins (run Demo.coins (OTransfer "alice" "bob" 7)) (spec (OTransfer "alice" "bob" 7))
    Demo.s0 Demo.genesis ∧
  refines_at Demo.coins (Burn Demo.coins "alice" 2000) (Spec.burn "alice" 2000) Demo.s0 Demo.genesis.
Proof.
  destruct (ledger_refinement Demo.coins Demo.s0 Demo.genesis Demo.coins_ok Demo_s0_repr) as [H1 H2].
  split.
  - apply H1. repeat constructor; done.
  - apply H2. repeat constructor; done.
Defined.
