(* ===== verification/StateDB.v ===== *)
(** The executor's state database: [executor/statedb.go].

    A block executes against a read-only backend (the state store at the parent
    state hash, or the MVCC view of it) through two layers: [cache], the writes of
    the block so far, and [txcache], the writes of the transaction in progress. *)

From Stdlib Require Import Ascii String.
From S2P Require Import Prelude KVStore.
Local Open Scope string_scope.

(** [type StateDB struct]; the queue client, the MVCC helper and the options are
    the parameters of the section below. *)
Record StateDB := mkStateDB {
  cache : gmap bytes bytes;
  txcache : option (gmap bytes bytes);
  keys : list bytes;
  intx : bool;
  stateHash : bytes;
  version : Z;
  height : Z
}.

(** [setmap]: a nil value deletes the entry. *)
Definition setmap (data : gmap bytes bytes) (key : bytes) (value : option bytes) : gmap bytes bytes :=
  match value with
  | None => delete key data
  | Some v => <[key := v]> data
  end.

(** What the database is connected to. *)
Record Backend := {
  (** [client.Send]/[client.Wait] of an [EventStoreGet] at a state hash: a send
      error, a wait error ([Panic]), or the reply's values ([None]: nil slice). *)
  storeGet : option (bytes → bytes → outcome (option (list (option bytes))));
  (** [local.GetV(key, version)] of the MVCC helper. *)
  localGetV : bytes → Z → outcome bytes;
  (** [local.GetVersion(hash)]. *)
  localGetVersion : bytes → outcome Z;
  (** [types.IsFork(height, fork)]. *)
  isFork : Z → string → bool
}.

Section Ops.
Context (B : Backend).

Definition NewStateDB (hash : bytes) (h : Z) : StateDB :=
  mkStateDB ∅ (Some ∅) [] false hash (-1) h.

Definition set_version (s : StateDB) (v : Z) : StateDB :=
  mkStateDB (cache s) (txcache s) (keys s) (intx s) (stateHash s) v (height s).

(** [enableMVCC]: [opt.EnableMVCC] and the hash (nil: the state hash) are arguments. *)
Definition enableMVCC (EnableMVCC : bool) (hash : option bytes) : M StateDB unit := λ s,
  if EnableMVCC then
    let hash := default (stateHash s) hash in
    match localGetVersion B hash with
    | Ret v =>
        if (0 <=? v)%Z then (Ret tt, set_version s v)
        else if (0 <? height s)%Z then (Panic, s) else (Ret tt, s)
    | Err _ => if (0 <? height s)%Z then (Panic, s) else (Ret tt, s)
    | Panic => (Panic, s)
    end
  else (Ret tt, s).

Definition resetTx (s : StateDB) : StateDB :=
  mkStateDB (cache s) None [] false (stateHash s) (version s) (height s).

Definition Begin (s : StateDB) : StateDB :=
  mkStateDB (cache s)
    (if isFork B (height s) "ForkExecRollback" then None else txcache s)
    [] true (stateHash s) (version s) (height s).

Definition Rollback (s : StateDB) : StateDB := resetTx s.

Definition Commit (s : StateDB) : StateDB :=
  let s1 := mkStateDB (default ∅ (txcache s) ∪ cache s) (txcache s) [] false
              (stateHash s) (version s) (height s) in
  if isFork B (height s) "ForkExecRollback" then resetTx s1 else s1.

(** The last step of [get]: ask the backend. *)
Definition get_backend (key : bytes) : M StateDB bytes := λ s,
  if (0 <=? version s)%Z then (localGetV B key (version s), s)
  else
    match storeGet B with
    | None => (Err ErrNotFound, s)
    | Some send =>
        match send (stateHash s) key with
        | Err e => (Err e, s)
        | Panic => (Panic, s)
        | Ret None => (Err ErrNotFound, s)
        | Ret (Some []) => (Panic, s)
        | Ret (Some (None :: _)) => (Err ErrNotFound, s)
        | Ret (Some (Some value :: _)) =>
            (Ret value,
             mkStateDB (<[key := value]> (cache s)) (txcache s) (keys s) (intx s)
               (stateHash s) (version s) (height s))
        end
    end.

Definition get (key : bytes) : M StateDB bytes := λ s,
  match (if intx s then txcache s ≫= lookup key else None) with
  | Some value => (Ret value, s)
  | None =>
      match cache s !! key with
      | Some value => (Ret value, s)
      | None => get_backend key s
      end
  end.

Definition Get (key : bytes) : M StateDB bytes := get key.

Definition StartTx (s : StateDB) : StateDB :=
  mkStateDB (cache s) (txcache s) [] (intx s) (stateHash s) (version s) (height s).

Definition GetSetKeys (s : StateDB) : list bytes := keys s.

Definition Set_ (key : bytes) (value : option bytes) : M StateDB unit := λ s,
  if intx s then
    (Ret tt, mkStateDB (cache s) (Some (setmap (default ∅ (txcache s)) key value))
               (keys s ++ [key]) (intx s) (stateHash s) (version s) (height s))
  else
    (Ret tt, mkStateDB (setmap (cache s) key value) (txcache s) (keys s) (intx s)
               (stateHash s) (version s) (height s)).

Fixpoint BatchGet (ks : list bytes) : M StateDB (list (option bytes)) := λ s,
  match ks with
  | [] => (Ret [], s)
  | k :: ks =>
      let continue v s' :=
        match BatchGet ks s' with
        | (Ret vs, s'') => (Ret (v :: vs), s'')
        | r => r
        end in
      match Get k s with
      | (Ret v, s') => continue (Some v) s'
      | (Err e, s') => if decide (e = ErrNotFound) then continue None s' else (Err e, s')
      | (Panic, s') => (Panic, s')
      end
  end.

(** ** The view of the database *)

(** The value the backend holds for a key, if any. *)
Definition backend_view (s : StateDB) (key : bytes) : option bytes :=
  match get_backend key s with (Ret v, _) => Some v | _ => None end.

Definition view (s : StateDB) (key : bytes) : option bytes :=
  match (if intx s then txcache s ≫= lookup key else None) with
  | Some v => Some v
  | None => match cache s !! key with Some v => Some v | None => backend_view s key end
  end.

(** The backend answers every query: no wait error, one value per key. *)
Definition backend_ok : Prop :=
  (∀ k v, localGetV B k v ≠ Panic) ∧
  (∀ send h k, storeGet B = Some send → send h k ≠ Panic ∧ send h k ≠ Ret (Some [])).

Lemma backend_view_same s s' k :
  stateHash s = stateHash s' → version s = version s' → backend_view s k = backend_view s' k.
Proof using Type.
  intros H1 H2. unfold backend_view, get_backend. rewrite H1, H2.
  repeat case_match; simplify_eq; done.
Qed.

Lemma get_backend_run s k :
  backend_ok →
  ∃ r s', get_backend k s = (r, s') ∧
    match r with Ret v => backend_view s k = Some v | Err _ => backend_view s k = None | Panic => False end ∧
    stateHash s' = stateHash s ∧ version s' = version s ∧ intx s' = intx s ∧ txcache s' = txcache s ∧
    keys s' = keys s ∧ height s' = height s ∧
    (s' = s ∨ ∃ v, backend_view s k = Some v ∧ cache s' = <[k := v]> (cache s)).
Proof using Type.
  intros [HL HS]. unfold backend_view, get_backend.
  destruct (0 <=? version s)%Z eqn:Ev.
  { specialize (HL k (version s)). destruct (localGetV B k (version s)); [| |done];
      do 2 eexists; (split; [reflexivity|]); split_and!; auto. }
  destruct (storeGet B) as [send|] eqn:Es; [|do 2 eexists; (split; [reflexivity|]); split_and!; auto].
  destruct (HS send (stateHash s) k eq_refl) as [H1 H2].
  destruct (send (stateHash s) k) as [[[|[v|] vs]|]|e|]; try done;
    do 2 eexists; (split; [reflexivity|]); split_and!; eauto.
Qed.

Lemma view_layers s k :
  view s k = match (if intx s then txcache s ≫= lookup k else None) with
             | Some v => Some v | None => match cache s !! k with Some v => Some v
             | None => backend_view s k end end.
Proof using Type. done. Qed.

(** A read returns what the view says and does not change the view. *)
Lemma Get_view s k :
  backend_ok →
  ∃ r s', Get k s = (r, s') ∧
    match r with Ret v => view s k = Some v | Err _ => view s k = None | Panic => False end ∧
    (∀ k', view s' k' = view s k').
Proof using Type.
  intros HB. unfold Get, get. rewrite view_layers.
  destruct (if intx s then txcache s ≫= lookup k else None) as [v|] eqn:Et; [by do 2 eexists|].
  destruct (cache s !! k) as [v|] eqn:Ec; [by do 2 eexists|].
  destruct (get_backend_run s k HB) as (r & s' & -> & Hr & Hh & Hv & Hi & Ht & _ & _ & Hc).
  exists r, s'. split; [done|]. split; [done|]. intros k'.
  destruct Hc as [->|(v & Hb & Hc)]; [done|].
  rewrite !view_layers, Hi, Ht, Hc, (backend_view_same s' s) by done.
  destruct (if intx s then txcache s ≫= lookup k' else None) as [w|]; [done|].
  destruct (decide (k' = k)) as [->|Hne].
  - by rewrite lookup_insert_eq, Ec.
  - by rewrite lookup_insert_ne.
Qed.

Lemma Set_view s k v :
  ∃ s', Set_ k (Some v) s = (Ret tt, s') ∧
    ∀ k', view s' k' = if decide (k' = k) then Some v else view s k'.
Proof using Type.
  unfold Set_. destruct (intx s) eqn:Ei; (eexists; split; [done|]); intros k';
    unfold view; simpl; rewrite Ei; simpl;
    rewrite (backend_view_same (mkStateDB _ _ _ _ _ _ _) s) by done.
  - case_decide as E; subst.
    + by rewrite lookup_insert_eq.
    + rewrite lookup_insert_ne by done. destruct (txcache s) as [t|]; simpl; [done|].
      by rewrite lookup_empty.
  - case_decide as E; subst.
    + by rewrite lookup_insert_eq.
    + by rewrite lookup_insert_ne.
Qed.

(** The state database implements the store interface of the ledger and the executors. *)
Definition StateDB_KV (HB : backend_ok) : KV StateDB := {|
  kv_Get := Get;
  kv_Set k v := Set_ k (Some v);
  kv_view := view;
  kv_Get_law k s := Get_view s k HB;
  kv_Set_law k v s := Set_view s k v
|}.

(** ** Transactions *)

(** What an executor does between [Begin] and [Commit]/[Rollback]. *)
Inductive access := AGet (k : bytes) | ASet (k : bytes) (v : option bytes).

Definition do_access (a : access) (s : StateDB) : StateDB :=
  match a with AGet k => (Get k s).2 | ASet k v => (Set_ k v s).2 end.
Definition do_accesses (l : list access) (s : StateDB) : StateDB :=
  foldl (λ s a, do_access a s) s l.

Definition set_keys (l : list access) : list bytes :=
  omap (λ a, match a with ASet k _ => Some k | _ => None end) l.

(** The block-level view: the view once no transaction is open. *)
Definition base_view (s : StateDB) (k : bytes) : option bytes :=
  match cache s !! k with Some v => Some v | None => backend_view s k end.

(** Inside a transaction an access only touches the transaction layer. *)
Lemma do_access_tx s a :
  backend_ok → intx s = true →
  let s' := do_access a s in
  intx s' = true ∧ stateHash s' = stateHash s ∧ version s' = version s ∧ height s' = height s ∧
  (∀ k, base_view s' k = base_view s k) ∧ keys s' = (keys s ++ set_keys [a])%list.
Proof using Type.
  intros HB Hi. destruct a as [k|k v]; simpl.
  - unfold Get, get. rewrite Hi.
    destruct (txcache s ≫= lookup k) as [w|]; [by rewrite app_nil_r|].
    destruct (cache s !! k) as [w|] eqn:Ec; [by rewrite app_nil_r|].
    destruct (get_backend_run s k HB) as (r & s' & -> & _ & Hh & Hv & Hi' & _ & Hk & Hht & Hc).
    simpl. rewrite app_nil_r. split_and!; try congruence. intros k'.
    destruct Hc as [->|(v & Hb & Hc)]; [done|].
    unfold base_view. rewrite Hc, (backend_view_same s' s) by done.
    destruct (decide (k' = k)) as [->|Hne]; [by rewrite lookup_insert_eq, Ec|].
    by rewrite lookup_insert_ne.
  - unfold Set_. rewrite Hi. simpl. split_and!; try done. intros k'. unfold base_view. simpl.
    by rewrite (backend_view_same (mkStateDB _ _ _ _ _ _ _) s).
Qed.

Lemma do_accesses_tx s l :
  backend_ok → intx s = true →
  let s' := do_accesses l s in
  intx s' = true ∧ stateHash s' = stateHash s ∧ version s' = version s ∧ height s' = height s ∧
  (∀ k, base_view s' k = base_view s k) ∧ keys s' = (keys s ++ set_keys l)%list.
Proof using Type.
  intros HB. revert s. induction l as [|a l IH]; intros s Hi; simpl.
  { rewrite app_nil_r. done. }
  destruct (do_access_tx s a HB Hi) as (H1 & H2 & H3 & H4 & H5 & H6).
  destruct (IH _ H1) as (G1 & G2 & G3 & G4 & G5 & G6).
  split; [done|]. split; [congruence|]. split; [congruence|]. split; [congruence|].
  split; [intros k; by rewrite G5, H5|].
  rewrite G6, H6, <-(assoc_L (++)%list). f_equal. by destruct a.
Qed.

(** After the fork, [Begin] opens a transaction with an empty layer. *)
Lemma Begin_view s k :
  isFork B (height s) "ForkExecRollback" = true → view (Begin s) k = base_view s k.
Proof using Type.
  intros Hf. unfold view, base_view, Begin. rewrite Hf. simpl.
  by rewrite (backend_view_same (mkStateDB _ _ _ _ _ _ _) s).
Qed.

Lemma Rollback_view s k : view (Rollback s) k = base_view s k.
Proof using Type.
  unfold view, base_view, Rollback, resetTx. simpl.
  by rewrite (backend_view_same (mkStateDB _ _ _ _ _ _ _) s).
Qed.

Lemma Commit_view s k : intx s = true → view (Commit s) k = view s k.
Proof using Type.
  intros Hi. unfold view, Commit, resetTx. rewrite Hi.
  destruct (isFork B (height s) "ForkExecRollback"); simpl;
    rewrite lookup_union, (backend_view_same (mkStateDB _ _ _ _ _ _ _) s) by done;
    destruct (txcache s) as [t|]; simpl; rewrite ?lookup_empty;
    try destruct (t !! k); destruct (cache s !! k); done.
Qed.
End Ops.
