(* ===== verification/LedgerTx.v ===== *)
(** Transactions of the state database, and the ledger running inside them: the
    client's theorems ([Ledger]) meet the implementation of the interface
    ([StateDB]). *)

From Stdlib Require Import Ascii String.
From S2P Require Import Prelude KVStore Types Account Ledger LedgerInv StateDB LedgerTheorems.
Local Open Scope string_scope.

(** ** Predicates every store access preserves are preserved by the ledger *)

Section Preserves.
Context {S : Type} `{!KV S} `{!LedgerCodecs} (P : S → Prop).
Context (HG : ∀ k s, P s → P (kv_Get k s).2) (HS : ∀ k v s, P s → P (kv_Set k v s).2).

Definition pres {A} (m : M S A) : Prop := ∀ s, P s → P (m s).2.

Lemma pres_bind {A C} (m : M S A) (f : A → M S C) : pres m → (∀ a, pres (f a)) → pres (m ≫= f).
Proof using Type.
  intros Hm Hf s Hs. unfold mbind, M_bind. specialize (Hm s Hs).
  destruct (m s) as [[a|e|] s']; [by apply Hf|done|done].
Qed.
Lemma pres_must {A} (m : M S A) : pres m → pres (must m).
Proof using Type. intros Hm s Hs. unfold must. specialize (Hm s Hs). by destruct (m s) as [[]?]. Qed.
Lemma pres_ret {A} (a : A) : pres (mret a).
Proof using Type. by intros s Hs. Qed.
Lemma pres_throw {A} e : pres (throw (A := A) e).
Proof using Type. by intros s Hs. Qed.
Lemma pres_guard c e : pres (guard_err c e).
Proof using Type. destruct c; by intros s Hs. Qed.
Lemma pres_load k a : pres (load_at k a).
Proof using HG.
  intros s Hs. unfold load_at. pose proof (HG k s Hs). destruct (kv_Get k s) as [[v|e|] s']; simpl in *; try done.
  by destruct (Decode v).
Qed.
Lemma pres_save kvs : pres (SaveKVSet kvs).
Proof using HS.
  induction kvs as [|kv kvs IH]; simpl; [apply pres_ret|].
  apply pres_bind; [|done]. apply pres_must. intros s Hs. by apply HS.
Qed.

Ltac pres_tac :=
  repeat first
    [ apply pres_load | apply pres_save | apply pres_guard | apply pres_ret | apply pres_throw
    | apply pres_bind; [|intros ?] | apply pres_must
    | match goal with |- pres (if ?c then _ else _) => destruct c end
    | progress unfold LoadAccount, LoadExecAccount, save_exec, SaveExecAccount, CheckTransfer,
        Transfer, ExecDeposit, ExecWithdraw ].

Lemma run_pres acc o : pres (run acc o).
Proof using HG HS.
  destruct o; simpl; unfold TransferToExec, TransferWithdraw, ExecFrozen, ExecActive,
    ExecTransfer, ExecTransferFrozen; pres_tac.
Qed.
End Preserves.

(** ** C3 *)

(** C3. A transaction on the state database, after the [ForkExecRollback] fork and
    with no transaction open: [Begin] changes nothing that can be read; after any
    sequence of reads, writes and deletes, [Rollback] restores every read of the
    state before [Begin], [Commit] keeps every read of the transaction, and the
    recorded keys are exactly the keys written, in order. *)
Theorem statedb_transaction B (s : StateDB) (l : list access) :
  backend_ok B → isFork B (height s) "ForkExecRollback" = true → intx s = false →
  let s1 := Begin B s in
  let s2 := do_accesses B l s1 in
  (∀ k, view B s1 k = view B s k) ∧
  (∀ k, view B (Rollback s2) k = view B s k) ∧
  (∀ k, view B (Commit B s2) k = view B s2 k) ∧
  GetSetKeys s2 = set_keys l.
Proof.
  intros HB Hf Hi s1 s2.
  assert (∀ k, view B s k = base_view B s k) as Hv by (intros k; unfold view; by rewrite Hi).
  destruct (do_accesses_tx B s1 l HB eq_refl) as (H1 & H2 & H3 & H4 & H5 & H6).
  split_and!.
  - intros k. unfold s1. by rewrite Hv, Begin_view.
  - intros k. rewrite Rollback_view, Hv. fold s2 in H5. rewrite H5. unfold base_view. simpl.
    by rewrite (backend_view_same B s1 s).
  - intros k. by apply Commit_view.
  - done.
Qed.

Definition demo_backend : Backend := {|
  storeGet := Some (λ _ k, Ret (Some [if String.eqb k "a" then Some "1" else None]));
  localGetV _ _ := Err ErrNotFound;
  localGetVersion _ := Err ErrNotFound;
  isFork h _ := (706531 <=? h)%Z
|}.

Lemma demo_backend_ok : backend_ok demo_backend.
Proof. split; [done|]. intros send h k [= <-]. done. Qed.

Lemma statedb_transaction_witness :
  let s := NewStateDB "hash" 800000 in
  let s2 := do_accesses demo_backend [AGet "a"; ASet "a" (Some "2"); ASet "b" (Some "3")]
              (Begin demo_backend s) in
  view demo_backend s2 "a" = Some "2" ∧ view demo_backend (Rollback s2) "a" = view demo_backend s "a" ∧
  GetSetKeys s2 = ["a"; "b"].
Proof.
  intros s s2.
  destruct (statedb_transaction demo_backend s
    [AGet "a"; ASet "a" (Some "2"); ASet "b" (Some "3")] demo_backend_ok eq_refl eq_refl)
    as (_ & Hr & _ & Hk).
  split; [vm_compute; reflexivity|]. split; [apply Hr|exact Hk].
Defined.

(** ** C4 *)

Section LedgerTx.
Context `{!LedgerCodecs} (B : Backend) (HB : backend_ok B) (acc : DB).
#[local] Instance db_kv : KV StateDB := StateDB_KV B HB.

(** One transaction: the operations run between [Begin] and the end; the first
    error stops it and rolls back, otherwise it is committed. *)
Fixpoint run_ops (os : list op) : M StateDB unit :=
  match os with [] => mret tt | o :: os => run acc o ≫= λ _, run_ops os end.

Definition run_tx (os : list op) (s : StateDB) : outcome unit * StateDB :=
  let '(r, s') := run_ops os (Begin B s) in
  (r, match r with Ret _ => Commit B s' | _ => Rollback s' end).

(** Its contract: all operations over exact integers, or none. *)
Fixpoint spec_ops (os : list op) : M ledger unit :=
  match os with [] => mret tt | o :: os => spec o ≫= λ _, spec_ops os end.

Definition spec_tx (os : list op) (l : ledger) : outcome unit * ledger :=
  match spec_ops os l with (Ret u, l') => (Ret u, l') | (r, _) => (r, l) end.

(** Transactions one after the other, with their results. *)
Fixpoint run_all {S} (f : list op → S → outcome unit * S) (txs : list (list op)) (s : S) :
    list (outcome unit) * S :=
  match txs with
  | [] => ([], s)
  | os :: txs =>
      let '(r, s1) := f os s in
      let '(rs, s2) := run_all f txs s1 in
      (r :: rs, s2)
  end.

(** The part of the database below the open transaction. *)
Definition below (s0 s : StateDB) : Prop :=
  intx s = true ∧ height s = height s0 ∧ ∀ k, base_view B s k = base_view B s0 k.

Lemma run_below s0 o s : below s0 s → below s0 (run acc o s).2.
Proof using Type.
  apply (run_pres (below s0)).
  - intros k s' (Hi & Hh & Hv). destruct (do_access_tx B s' (AGet k) HB Hi) as (? & _ & _ & Hh' & Hb & _).
    split; [done|]. split; [by rewrite <-Hh|]. intros k'. rewrite <-Hv. apply Hb.
  - intros k v s' (Hi & Hh & Hv).
    destruct (do_access_tx B s' (ASet k (Some v)) HB Hi) as (? & _ & _ & Hh' & Hb & _).
    split; [done|]. split; [by rewrite <-Hh|]. intros k'. rewrite <-Hv. apply Hb.
Qed.

Lemma run_ops_below s0 os s : below s0 s → below s0 (run_ops os s).2.
Proof using Type.
  revert s. induction os as [|o os IH]; intros s Hs; simpl; [done|].
  unfold mbind, M_bind. pose proof (run_below s0 o s Hs). destruct (run acc o s) as [[]?]; [by apply IH|done|done].
Qed.

Context (U E : list string) (HU : NoDup U) (HUv : Forall valid_addr U) (HE : E ⊆ U).
Context (Hacc : handle_ok acc) (T : Z) (HT : (T ≤ MaxTokenBalance)%Z).

(** Running the operations gives the answer and the ledger of the contract. *)
Lemma run_ops_refines os s l :
  repr acc s l → good U E T l → Forall (allowed U E) os →
  (run_ops os s).1 = (spec_ops os l).1 ∧ (run_ops os s).1 ≠ Panic ∧
  repr acc (run_ops os s).2 (spec_ops os l).2 ∧ good U E T (spec_ops os l).2.
Proof using HU HUv HE Hacc HT.
  revert s l. induction os as [|o os IH]; intros s l Hr HG Ha; simpl; [done|].
  decompose_Forall_hyps.
  destruct (run_refines acc s l o Hacc Hr) as (r & s' & Er & Hr' & Hm); [by eapply allowed_wf|].
  pose proof (spec_good U E HU HE T l o HG ltac:(done)) as HG'.
  unfold mbind, M_bind. rewrite Er. destruct (spec o l) as [r2 l2]. simpl in *.
  destruct r2, r; try done; [by apply IH|]. by destruct Hm as [-> _].
Qed.

Lemma run_tx_refines os s l :
  isFork B (height s) "ForkExecRollback" = true → intx s = false →
  repr acc s l → good U E T l → Forall (allowed U E) os →
  (run_tx os s).1 = (spec_tx os l).1 ∧ (run_tx os s).1 ≠ Panic ∧
  repr acc (run_tx os s).2 (spec_tx os l).2 ∧ good U E T (spec_tx os l).2 ∧
  intx (run_tx os s).2 = false ∧ height (run_tx os s).2 = height s.
Proof using HU HUv HE Hacc HT.
  intros Hf Hi Hr HG Ha.
  assert (Begin B s ≈ s) as Hb.
  { intros k. simpl. rewrite Begin_view by done. unfold view. by rewrite Hi. }
  assert (repr acc (Begin B s) l) as Hr1 by by rewrite Hb.
  destruct (run_ops_refines os (Begin B s) l Hr1 HG Ha) as (He & Hp & Hr2 & HG2).
  destruct (run_ops_below (Begin B s) os (Begin B s)) as (Hi2 & Hh2 & Hv2); [done|].
  unfold run_tx, spec_tx. destruct (run_ops os (Begin B s)) as [r s2], (spec_ops os l) as [r' l2].
  simpl in *. subst r'. destruct r as [[]|e|]; [| |done]; simpl; split_and!; try done.
  - assert (Commit B s2 ≈ s2) as -> by (intros k; by apply Commit_view). done.
  - unfold Commit. by rewrite Hh2, Hf.
  - unfold Commit. by rewrite Hh2, Hf.
  - assert (Rollback s2 ≈ s) as ->; [|done].
    intros k. simpl. rewrite Rollback_view, Hv2. unfold base_view, view. rewrite Hi. simpl.
    by rewrite (backend_view_same B (Begin B s) s).
Qed.

(** C4. Ledger operations grouped into transactions of the state database, after
    [ForkExecRollback] and with no transaction open: started on a database that
    represents a ledger satisfying the invariant of C1, any list of transactions
    gets the answers of a contract over exact integers in which a transaction
    takes effect as a whole or, when one of its operations fails, not at all. The
    database then represents the contract's ledger, in which supply, balances and
    custody are kept, and nothing panics. *)
Theorem ledger_tx_atomic txs (s : StateDB) l :
  isFork B (height s) "ForkExecRollback" = true → intx s = false →
  repr acc s l → good U E T l → Forall (Forall (allowed U E)) txs →
  let '(rs, s') := run_all run_tx txs s in
  let '(rs', l') := run_all spec_tx txs l in
  rs = rs' ∧ (Panic ∉ rs) ∧ repr acc s' l' ∧ good U E T l' ∧ intx s' = false.
Proof using HU HUv HE Hacc HT.
  intros Hf Hi Hr HG Ha. revert s l Hf Hi Hr HG.
  induction Ha as [|os txs Ho _ IH]; intros s l Hf Hi Hr HG; simpl; [set_solver|].
  destruct (run_tx_refines os s l Hf Hi Hr HG Ho) as (He & Hp & Hr' & HG' & Hi' & Hh').
  destruct (run_tx os s) as [r s2], (spec_tx os l) as [r' l2]. simpl in *. subst r'.
  specialize (IH s2 l2). rewrite Hh' in IH. specialize (IH Hf Hi' Hr' HG').
  destruct (run_all run_tx txs s2) as [rs s3], (run_all spec_tx txs l2) as [rs' l3].
  destruct IH as (-> & Hn & ?). set_solver.
Qed.
End LedgerTx.

(** A state store that holds the ledger after a genesis of 1000 coins to alice. *)
Definition coins_backend : Backend := {|
  storeGet := Some (λ _ k, Ret (Some [Demo.s0 !! k]));
  localGetV _ _ := Err ErrNotFound;
  localGetVersion _ := Err ErrNotFound;
  isFork h _ := (706531 <=? h)%Z
|}.

Lemma coins_backend_ok : backend_ok coins_backend.
Proof. split; [done|]. intros send h k [= <-]. done. Qed.

#[local] Instance coins_kv : KV StateDB := StateDB_KV coins_backend coins_backend_ok.

Lemma coins_state_repr :
  @repr _ coins_kv Demo.codecs Demo.coins (NewStateDB "hash" 800000) Demo.genesis.
Proof.
  intros x Hx. rewrite <-(Demo_s0_repr x Hx). unfold peek. simpl. unfold view, backend_view. simpl.
  rewrite lookup_empty. unfold get_backend. simpl. by destruct (Demo.s0 !! _).
Qed.

(** The first transaction deposits and transfers; the second one fails at its
    second operation, after its first one was carried out. *)
Definition demo_txs : list (list op) :=
  [[OTransferToExec "alice" "ticket" 400; OTransfer "alice" "bob" 100];
   [OTransfer "bob" "alice" 60; OTransfer "bob" "alice" 60]].

Lemma ledger_tx_atomic_witness :
  let '(rs, s') := run_all (@run_tx Demo.codecs coins_backend coins_backend_ok Demo.coins) demo_txs
                     (NewStateDB "hash" 800000) in
  let '(rs', l') := run_all spec_tx demo_txs Demo.genesis in
  rs = [Ret tt; Err ErrNoBalance] ∧ rs = rs' ∧ @repr _ coins_kv Demo.codecs Demo.coins s' l' ∧
  Balance (l' (Main "alice")) = 500%Z ∧ Balance (l' (Main "bob")) = 100%Z.
Proof.
  destruct Demo_users as (H1 & H2 & H3).
  pose proof (@ledger_tx_atomic Demo.codecs coins_backend coins_backend_ok Demo.coins
    Demo.users Demo.execs H1 H2 H3 Demo.coins_ok 1000 ltac:(done) demo_txs (NewStateDB "hash" 800000)
    Demo.genesis eq_refl eq_refl coins_state_repr Demo_s0_good) as H.
  assert (run_all spec_tx demo_txs Demo.genesis = ([Ret tt; Err ErrNoBalance],
    (run_all spec_tx demo_txs Demo.genesis).2)) as E by (vm_compute; reflexivity).
  rewrite E in H |- *. destruct (run_all (@run_tx _ _ _ _) _ _) as [rs s'].
  destruct H as (-> & _ & Hr & _); [repeat constructor; simpl; set_solver|].
  split; [done|]. split; [done|]. split; [exact Hr|]. by vm_compute.
Defined.
