(* ===== verification/LocalDB.v ===== *)
(** The local database of an executing block: the executor's write-through cache
    ([executor/localdb.go]) in front of the transactional cache the blockchain
    module keeps for it ([common/db/localdb.go], reached through the handlers of
    [blockchain/localdb.go]).  Neither is part of the chain's state. *)

From Stdlib Require Import Ascii String.
From S2P Require Import Prelude KVStore StateDB DbIter ListHelper MergeIter.
Local Open Scope string_scope.

(** ** The blockchain side: [common/db/localdb.go] *)

Module Remote.

Record LocalDB := mk {
  txcache : option (gmap bytes bytes);
  cache : gmap bytes bytes;
  maindb : gmap bytes bytes;
  intx : bool
}.

Definition NewLocalDB (main : gmap bytes bytes) : LocalDB := mk (Some ∅) ∅ main false.

Definition get (key : bytes) : M LocalDB bytes := λ l,
  match (if intx l then txcache l ≫= lookup key else None) with
  | Some v => (Ret v, l)
  | None =>
      match cache l !! key with
      | Some v => (Ret v, l)
      | None =>
          match maindb l !! key with
          | None => (Err ErrNotFound, l)
          | Some v => (Ret v, mk (txcache l) (<[key := v]> (cache l)) (maindb l) (intx l))
          end
      end
  end.

Definition Get (key : bytes) : M LocalDB bytes := get key.

(** [setdb] on an in-memory database: a nil value deletes. *)
Definition setdb (d : gmap bytes bytes) (key : bytes) (value : option bytes) : gmap bytes bytes :=
  match value with None => delete key d | Some v => <[key := v]> d end.

Definition Set_ (key : bytes) (value : option bytes) (l : LocalDB) : LocalDB :=
  if intx l then mk (Some (setdb (default ∅ (txcache l)) key value)) (cache l) (maindb l) (intx l)
  else mk (txcache l) (setdb (cache l) key value) (maindb l) (intx l).

Definition Begin (l : LocalDB) : LocalDB := mk None (cache l) (maindb l) true.
Definition resetTx (l : LocalDB) : LocalDB := mk None (cache l) (maindb l) false.
Definition Rollback (l : LocalDB) : LocalDB := resetTx l.

Definition Commit (l : LocalDB) : LocalDB :=
  match txcache l with
  | None => resetTx l
  | Some t => resetTx (mk (txcache l) (t ∪ cache l) (maindb l) (intx l))
  end.

(** [localSet]: the handler sets the pairs one by one. *)
Definition localSet (kvs : list (bytes * option bytes)) (l : LocalDB) : LocalDB :=
  foldl (λ l kv, Set_ kv.1 kv.2 l) l kvs.

(** [localGet] of one key: a missing value is replied as nil. *)
Definition localGet (key : bytes) (l : LocalDB) : option bytes * LocalDB :=
  match Get key l with (Ret v, l') => (Some v, l') | (_, l') => (None, l') end.

(** [List] and [PrefixCount] merge the three databases, the newest first. *)
Definition dblist (l : LocalDB) : mergedIteratorDB (gmap bytes bytes) :=
  (match txcache l with Some t => [t] | None => [] end ++ [cache l; maindb l])%list.
Definition List (prefix key : bytes) (count direction : Z) (l : LocalDB) : list bytes :=
  ListHelper.List (dblist l) prefix key count direction.
Definition PrefixCount (prefix : bytes) (l : LocalDB) : Z := ListHelper.PrefixCount (dblist l) prefix.

(** The handlers of [blockchain/localdb.go]: without a transaction id they read the store
    of the chain; [localPrefixCount] always does. *)
Definition localList (intx : bool) (prefix key : bytes) (count direction : Z) (l : LocalDB) : list bytes :=
  if intx then List prefix key count direction l
  else ListHelper.List (maindb l) prefix key count direction.
Definition localPrefixCount (prefix : bytes) (l : LocalDB) : Z := ListHelper.PrefixCount (maindb l) prefix.

Definition view (l : LocalDB) (key : bytes) : option bytes :=
  match (if intx l then txcache l ≫= lookup key else None) with
  | Some v => Some v
  | None => match cache l !! key with Some v => Some v | None => maindb l !! key end
  end.

Lemma localGet_view l k :
  (localGet k l).1 = view l k ∧ ∀ k', view (localGet k l).2 k' = view l k'.
Proof.
  unfold localGet, Get, get, view. destruct (if intx l then txcache l ≫= lookup k else None) as [v|] eqn:Et; [done|].
  destruct (cache l !! k) as [v|] eqn:Ec; [done|].
  destruct (maindb l !! k) as [v|] eqn:Em; [|done]. simpl. split; [done|]. intros k'.
  destruct (if intx l then txcache l ≫= lookup k' else None); [done|].
  destruct (decide (k' = k)) as [->|Hne]; [by rewrite lookup_insert_eq, Ec|by rewrite lookup_insert_ne].
Qed.

Lemma remote_Commit_view l k : intx l = true → view (Commit l) k = view l k.
Proof.
  intros Hi. unfold view, Commit. rewrite Hi. destruct (txcache l) as [t|]; simpl; [|done].
  rewrite lookup_union. destruct (t !! k), (cache l !! k); done.
Qed.

(** *** Reads and listings agree *)

Inductive op := OGet (k : bytes) | OSet (k : bytes) (v : option bytes) | OBegin | OCommit | ORollback.

Definition do_op (o : op) (l : LocalDB) : LocalDB :=
  match o with
  | OGet k => (Get k l).2
  | OSet k v => Set_ k v l
  | OBegin => Begin l
  | OCommit => Commit l
  | ORollback => Rollback l
  end.
Definition run_ops (ops : list op) (l : LocalDB) : LocalDB := foldl (λ l o, do_op o l) l ops.

(** Outside a transaction there is nothing in the transaction's cache. *)
Definition tidy (l : LocalDB) : Prop := intx l = false → ∀ k, txcache l ≫= lookup k = None.

Lemma run_ops_tidy ops l : tidy l → tidy (run_ops ops l).
Proof.
  unfold run_ops. revert l. induction ops as [|o ops IH]; intros l Hl; [done|]. simpl. apply IH. destruct o as [k|k v| | |]; simpl.
  - unfold Get, get. destruct (if intx l then txcache l ≫= lookup k else None); [done|].
    destruct (cache l !! k); [done|]. by destruct (maindb l !! k).
  - unfold Set_. destruct (intx l) eqn:E; [done|]. intros _. by apply Hl.
  - done.
  - unfold Commit. destruct (txcache l); done.
  - done.
Qed.

Lemma remote_Get_view l k :
  (Get k l).1 = match view l k with Some v => Ret v | None => Err ErrNotFound end.
Proof.
  unfold Get, get, view. destruct (if intx l then txcache l ≫= lookup k else None); [done|].
  destruct (cache l !! k); [done|]. by destruct (maindb l !! k).
Qed.

Lemma union_map_view l k : tidy l → union_map (dblist l) !! k = view l k.
Proof.
  intros Ht. assert (∀ m : gmap bytes bytes, (cache l ∪ (maindb l ∪ m)) !! k =
    match cache l !! k with Some v => Some v | None => match maindb l !! k with Some v => Some v | None => m !! k end end) as H.
  { intros m. rewrite !lookup_union. by destruct (cache l !! k), (maindb l !! k), (m !! k). }
  unfold union_map, dblist, view. destruct (txcache l) as [t|] eqn:E; simpl.
  - rewrite lookup_union, H, lookup_empty. destruct (intx l) eqn:Ei.
    + by destruct (t !! k), (cache l !! k), (maindb l !! k).
    + specialize (Ht Ei k). rewrite E in Ht. simpl in Ht. rewrite Ht. by destruct (cache l !! k), (maindb l !! k).
  - rewrite H, lookup_empty. by destruct (intx l), (cache l !! k), (maindb l !! k).
Qed.

Lemma dblist_ok l : db_ok (dblist l).
Proof. split; [unfold dblist; destruct (txcache l); simpl; lia|]. by apply list.Forall_forall. Qed.
End Remote.

(** C5. After any sequence of reads, writes and transactions on the local database of a
    block, reading and listing see the same map: there is a finite map [m] such that every
    [Get] answers by looking its key up in [m], and every [List] - in whatever direction, by
    prefix, from a key, or seeking the last key not above one - returns the pairs of [m] as
    [list_ref] says, and [PrefixCount] counts them: the merging of the transaction's cache,
    the cache and the database, with its skipping of hidden keys, is the union of the three,
    the upper ones first.  A nil value written removes the key from the cache it is written
    to, so that both the reads and the lists show the value below again.  While the three
    together have fewer than 2^31 pairs.  (The source's comment on [List] says that cached
    writes do not affect it; they do.) *)
Theorem localdb_list main ops :
  let l := Remote.run_ops ops (Remote.NewLocalDB main) in
  (Z.of_nat (db_size (Remote.dblist l)) < 2 ^ 31)%Z →
  ∃ m : gmap bytes bytes,
    (∀ k, (Remote.Get k l).1 = match m !! k with Some v => Ret v | None => Err ErrNotFound end) ∧
    (∀ prefix key count direction,
       Remote.List prefix key count direction l = list_ref m prefix key count direction) ∧
    (∀ prefix, Remote.PrefixCount prefix l = Z.of_nat (length (slice_of true (Some prefix) None m))).
Proof.
  intros l H31. exists (union_map (Remote.dblist l)).
  assert (Remote.tidy l) as Ht by (apply Remote.run_ops_tidy; intros _ k; apply lookup_empty).
  split; [|split].
  - intros k. by rewrite Remote.remote_Get_view, (Remote.union_map_view l k Ht).
  - intros prefix key count direction. exact (List_spec (Remote.dblist l) prefix key count direction (Remote.dblist_ok l) H31).
  - intros prefix. exact (PrefixCount_spec (Remote.dblist l) prefix (Remote.dblist_ok l) H31).
Qed.

Lemma localdb_list_witness :
  let l := Remote.run_ops [Remote.OSet "k1" (Some "a"); Remote.OBegin; Remote.OSet "k3" (Some "c"); Remote.OSet "k2" (Some "B")]
             (Remote.NewLocalDB (list_to_map [("k2", "b"); ("k4", "d"); ("x", "e")])) in
  Remote.List "k" "" 0 ListASC l = ["a"; "B"; "c"; "d"] ∧ Remote.List "k" "k3z" 1 ListSeek l = ["k3"; "c"] ∧
  ∃ m : gmap bytes bytes,
    (∀ k, (Remote.Get k l).1 = match m !! k with Some v => Ret v | None => Err ErrNotFound end) ∧
    (∀ prefix key count direction,
       Remote.List prefix key count direction l = list_ref m prefix key count direction) ∧
    (∀ prefix, Remote.PrefixCount prefix l = Z.of_nat (length (slice_of true (Some prefix) None m))).
Proof.
  split; [vm_compute; reflexivity|]. split; [vm_compute; reflexivity|].
  apply localdb_list. vm_compute. reflexivity.
Defined.

(** ** The executor side: [executor/localdb.go] *)

Record LocalDB := mkLocalDB {
  l_cache : gmap bytes (option bytes);
  l_txcache : option (gmap bytes bytes);
  l_keys : list bytes;
  l_intx : bool;
  l_hasbegin : bool;
  l_kvs : list (bytes * option bytes);
  l_disableread : bool;
  l_disablewrite : bool;
  l_remote : Remote.LocalDB
}.

Definition NewLocalDB (r : Remote.LocalDB) : LocalDB :=
  mkLocalDB ∅ None [] false false [] false false r.

Definition DisableRead (l : LocalDB) : LocalDB :=
  mkLocalDB (l_cache l) (l_txcache l) (l_keys l) (l_intx l) (l_hasbegin l) (l_kvs l) true (l_disablewrite l) (l_remote l).
Definition DisableWrite (l : LocalDB) : LocalDB :=
  mkLocalDB (l_cache l) (l_txcache l) (l_keys l) (l_intx l) (l_hasbegin l) (l_kvs l) (l_disableread l) true (l_remote l).
Definition EnableRead (l : LocalDB) : LocalDB :=
  mkLocalDB (l_cache l) (l_txcache l) (l_keys l) (l_intx l) (l_hasbegin l) (l_kvs l) false (l_disablewrite l) (l_remote l).
Definition EnableWrite (l : LocalDB) : LocalDB :=
  mkLocalDB (l_cache l) (l_txcache l) (l_keys l) (l_intx l) (l_hasbegin l) (l_kvs l) (l_disableread l) false (l_remote l).

(** [resetTx] closes the transaction; [l_kvs], the writes not yet sent, is kept. *)
Definition local_resetTx (l : LocalDB) : LocalDB :=
  mkLocalDB (l_cache l) None [] false false (l_kvs l) (l_disableread l) (l_disablewrite l) (l_remote l).

Definition local_Begin (l : LocalDB) : LocalDB :=
  mkLocalDB (l_cache l) None [] true false (l_kvs l) (l_disableread l) (l_disablewrite l) (l_remote l).

Definition set_cache (l : LocalDB) (c : gmap bytes (option bytes)) : LocalDB :=
  mkLocalDB c (l_txcache l) (l_keys l) (l_intx l) (l_hasbegin l) (l_kvs l) (l_disableread l)
    (l_disablewrite l) (l_remote l).
Definition set_remote (l : LocalDB) (r : Remote.LocalDB) : LocalDB :=
  mkLocalDB (l_cache l) (l_txcache l) (l_keys l) (l_intx l) (l_hasbegin l) (l_kvs l) (l_disableread l)
    (l_disablewrite l) r.

(** The requests that change the blockchain side go through the queue and may fail: the
    answer is an error, and the request was carried out or not. *)
Inductive request := RBegin | RSet (kvs : list (bytes * option bytes)) | RCommit | RRollback.
Class LocalApi := local_reply : request → Remote.LocalDB → option (error * bool).

Section Api.
Context `{API : !LocalApi}.

Definition remote_do (q : request) (r : Remote.LocalDB) : Remote.LocalDB :=
  match q with
  | RBegin => Remote.Begin r
  | RSet kvs => Remote.localSet kvs r
  | RCommit => Remote.Commit r
  | RRollback => Remote.Rollback r
  end.
Definition remote_call (q : request) (l : LocalDB) : option error * LocalDB :=
  match local_reply q (l_remote l) with
  | None => (None, set_remote l (remote_do q (l_remote l)))
  | Some (e, reached) => (Some e, if reached then set_remote l (remote_do q (l_remote l)) else l)
  end.

(** [begin] of the remote transaction panics on an error. *)
Definition remote_begin : M LocalDB unit := λ l,
  match remote_call RBegin l with (None, l') => (Ret tt, l') | (Some _, l') => (Panic, l') end.

Definition set_hasbegin (l : LocalDB) : LocalDB :=
  mkLocalDB (l_cache l) (l_txcache l) (l_keys l) (l_intx l) true (l_kvs l) (l_disableread l)
    (l_disablewrite l) (l_remote l).
Definition drop_kvs (l : LocalDB) : LocalDB :=
  mkLocalDB (l_cache l) (l_txcache l) (l_keys l) (l_intx l) (l_hasbegin l) [] (l_disableread l)
    (l_disablewrite l) (l_remote l).

(** The first [save] of a transaction opens the remote one; the pairs stay in the list
    when they could not be sent. *)
Definition save : M LocalDB unit := λ l,
  match l_kvs l with
  | [] => (Ret tt, l)
  | kvs =>
      match (if l_hasbegin l then (Ret tt, l) else remote_begin l) with
      | (Ret _, l1) =>
          match remote_call (RSet kvs) (set_hasbegin l1) with
          | (None, l2) => (Ret tt, drop_kvs l2)
          | (Some e, l2) => (Err e, l2)
          end
      | r => r
      end
  end.

(** When the pairs cannot be sent, [Commit] returns with the transaction still open; the
    error of the remote commit is returned after it is closed. *)
Definition local_Commit : M LocalDB unit := λ l,
  match save (set_cache l ((Some <$> default ∅ (l_txcache l)) ∪ l_cache l)) with
  | (Ret _, l1) =>
      if l_hasbegin l1 then
        match remote_call RCommit l1 with
        | (None, l2) => (Ret tt, local_resetTx l2)
        | (Some e, l2) => (Err e, local_resetTx l2)
        end
      else (Ret tt, local_resetTx l1)
  | r => r
  end.

Definition local_Rollback : M LocalDB unit := λ l,
  if l_hasbegin l then
    match remote_call RRollback l with
    | (None, l1) => (Ret tt, local_resetTx l1)
    | (Some _, l1) => (Panic, l1)
    end
  else (Ret tt, local_resetTx l).
End Api.

(** A read; the source marks the failure of its request as impossible. *)
Definition local_Get (key : bytes) : M LocalDB bytes := λ l,
  if l_disableread l then (Err ErrDisableRead, l)
  else
    match (if l_intx l then l_txcache l ≫= lookup key else None) with
    | Some v => (Ret v, l)
    | None =>
        match l_cache l !! key with
        | Some (Some v) => (Ret v, l)
        | Some None => (Err ErrNotFound, l)
        | None =>
            let '(value, r) := Remote.localGet key (l_remote l) in
            let l' := set_cache (set_remote l r) (<[key := value]> (l_cache l)) in
            match value with
            | None => (Err ErrNotFound, l')
            | Some v => (Ret v, l')
            end
        end
    end.

Definition local_Set (key : bytes) (value : option bytes) : M LocalDB unit := λ l,
  if l_disablewrite l then (Err ErrDisableWrite, l)
  else
    let kvs := (l_kvs l ++ [(key, value)])%list in
    if l_intx l then
      (Ret tt, mkLocalDB (l_cache l) (Some (setmap (default ∅ (l_txcache l)) key value))
                 (l_keys l ++ [key])%list (l_intx l) (l_hasbegin l) kvs (l_disableread l)
                 (l_disablewrite l) (l_remote l))
    else
      (Ret tt, mkLocalDB (match value with None => delete key (l_cache l)
                          | Some v => <[key := Some v]> (l_cache l) end)
                 (l_txcache l) (l_keys l) (l_intx l) (l_hasbegin l) kvs (l_disableread l)
                 (l_disablewrite l) (l_remote l)).

(** [List] first sends the pending writes. *)
Definition local_List `{!LocalApi} (prefix key : bytes) (count direction : Z) : M LocalDB (list bytes) := λ l,
  if l_disableread l then (Err ErrDisableRead, l)
  else
    match save l with
    | (Ret _, l) =>
        match Remote.List prefix key count direction (l_remote l) with
        | [] => (Err ErrNotFound, l)
        | values => (Ret values, l)
        end
    | (Err e, l) => (Err e, l)
    | (Panic, l) => (Panic, l)
    end.
Definition local_PrefixCount (prefix : bytes) : M LocalDB Z := panic.

(** ** Reads *)

Definition cached_view (l : LocalDB) (k : bytes) : option bytes :=
  match l_cache l !! k with
  | Some v => v
  | None => Remote.view (l_remote l) k
  end.

Definition local_view (l : LocalDB) (k : bytes) : option bytes :=
  match (if l_intx l then l_txcache l ≫= lookup k else None) with
  | Some v => Some v
  | None => cached_view l k
  end.

(** Reads and writes of a transaction before anything is sent. *)
Definition local_access (a : access) (l : LocalDB) : LocalDB :=
  match a with AGet k => (local_Get k l).2 | ASet k v => (local_Set k v l).2 end.
Definition local_accesses (acs : list access) (l : LocalDB) : LocalDB :=
  foldl (λ l a, local_access a l) l acs.

Lemma local_Get_view l k :
  l_disableread l = false →
  (∀ v, (local_Get k l).1 = Ret v ↔ local_view l k = Some v) ∧
  (∀ k', cached_view (local_Get k l).2 k' = cached_view l k').
Proof.
  intros Hd. unfold local_Get, local_view. rewrite Hd.
  destruct (if l_intx l then l_txcache l ≫= lookup k else None) as [v|] eqn:Et.
  { split; [|done]. intros w. split; intros [= ->]; done. }
  unfold cached_view. destruct (l_cache l !! k) as [[v|]|] eqn:Ec;
    [split; [|done]; intros w; split; intros [= ->]; done|done|].
  destruct (Remote.localGet_view (l_remote l) k) as [H1 H2].
  destruct (Remote.localGet k (l_remote l)) as [value r] eqn:Eg. simpl in H1, H2.
  assert (∀ k', match (set_cache (set_remote l r) (<[k:=value]> (l_cache l))).(l_cache) !! k' with
    | Some v => v | None => Remote.view r k' end =
    match l_cache l !! k' with Some v => v | None => Remote.view (l_remote l) k' end) as Hc.
  { intros k'. simpl. destruct (decide (k' = k)) as [->|Hne].
    - by rewrite lookup_insert_eq, Ec.
    - by rewrite lookup_insert_ne, H2. }
  rewrite <-H1. destruct value as [v|]; (split; [|exact Hc]); intros w; split; intros; simplify_eq/=; done.
Qed.

Lemma local_access_base l a :
  l_intx l = true →
  let l' := local_access a l in
  l_intx l' = true ∧ l_disableread l' = l_disableread l ∧ l_hasbegin l' = l_hasbegin l ∧
  ∀ k, cached_view l' k = cached_view l k.
Proof.
  intros Hi. destruct a as [k|k v]; simpl.
  - destruct (l_disableread l) eqn:Hd; [unfold local_Get; by rewrite Hd|].
    pose proof (proj2 (local_Get_view l k Hd)) as Hv. revert Hv. unfold local_Get. rewrite Hd.
    destruct (if l_intx l then l_txcache l ≫= lookup k else None); [done|].
    destruct (l_cache l !! k) as [[v|]|]; [done|done|].
    destruct (Remote.localGet k (l_remote l)) as [[v|] r]; done.
  - unfold local_Set. rewrite Hi. by destruct (l_disablewrite l).
Qed.

Lemma local_accesses_base l acs :
  l_intx l = true →
  let l' := local_accesses acs l in
  l_intx l' = true ∧ l_disableread l' = l_disableread l ∧ l_hasbegin l' = l_hasbegin l ∧
  ∀ k, cached_view l' k = cached_view l k.
Proof.
  revert l. induction acs as [|a acs IH]; intros l Hi; [done|]. simpl.
  destruct (local_access_base l a Hi) as (H1 & H2 & H3 & H4).
  destruct (IH _ H1) as (G1 & G2 & G3 & G4). split_and!; [done|congruence|congruence|].
  intros k. by rewrite G4, H4.
Qed.

(** Rolling back a transaction in which nothing was sent asks nothing and restores every
    read. *)
Lemma local_Rollback_reads `{!LocalApi} l : l_hasbegin l = false →
  local_Rollback l = (Ret tt, local_resetTx l) ∧ ∀ k, local_view (local_resetTx l) k = cached_view l k.
Proof. intros Hb. unfold local_Rollback. by rewrite Hb. Qed.

(** Rolling back a transaction of the executor's local database that only read
    and wrote (nothing sent to the blockchain module yet) restores every read as it
    was before [Begin]. *)
Lemma localdb_rollback_reads `{!LocalApi} l acs :
  l_disableread l = false → l_intx l = false →
  ∃ l2, local_Rollback (local_accesses acs (local_Begin l)) = (Ret tt, l2) ∧
  ∀ k v, (local_Get k l2).1 = Ret v ↔ (local_Get k l).1 = Ret v.
Proof.
  intros Hd Hi. destruct (local_accesses_base (local_Begin l) acs eq_refl) as (_ & Hd2 & Hb & Hv).
  destruct (local_Rollback_reads _ Hb) as [E Hr]. eexists. split; [exact E|]. intros k v.
  rewrite (proj1 (local_Get_view l k Hd) v), (proj1 (local_Get_view (local_resetTx _) k (eq_trans Hd2 Hd)) v), Hr, Hv.
  unfold local_view. by rewrite Hi.
Qed.

(** What a transaction wrote is read back once it is committed. *)
Lemma remote_call_keeps `{!LocalApi} q l o l' : remote_call q l = (o, l') →
  l_cache l' = l_cache l ∧ l_disableread l' = l_disableread l.
Proof. unfold remote_call. destruct (local_reply _ _) as [[e []]|]; by intros [= <- <-]. Qed.
Lemma save_keeps `{!LocalApi} l r l' : save l = (r, l') → l_cache l' = l_cache l ∧ l_disableread l' = l_disableread l.
Proof.
  unfold save. destruct (l_kvs l) as [|kv kvs]; [by intros [= <- <-]|].
  assert (∀ r1 l1, (if l_hasbegin l then (Ret tt, l) else remote_begin l) = (r1, l1) →
    l_cache l1 = l_cache l ∧ l_disableread l1 = l_disableread l) as H1.
  { intros r1 l1. destruct (l_hasbegin l); [by intros [= <- <-]|]. unfold remote_begin.
    destruct (remote_call RBegin l) as [o l2] eqn:E. apply remote_call_keeps in E. destruct o; by intros [= <- <-]. }
  destruct (if l_hasbegin l then _ else _) as [[u|x|] l1]; destruct (H1 _ l1 eq_refl) as [C1 D1]; [|by intros [= <- <-]..].
  destruct (remote_call (RSet (kv :: kvs)) (set_hasbegin l1)) as [o l2] eqn:E. apply remote_call_keeps in E as [C2 D2].
  simpl in C2, D2. destruct o; intros [= <- <-]; simpl; split; congruence.
Qed.
Lemma local_Commit_keeps `{!LocalApi} l u l' : local_Commit l = (Ret u, l') →
  l_intx l' = false ∧ l_disableread l' = l_disableread l ∧ l_cache l' = (Some <$> default ∅ (l_txcache l)) ∪ l_cache l.
Proof.
  intros H0. unfold local_Commit in H0. destruct (save _) as [r l1] eqn:E. apply save_keeps in E as [C1 D1]. simpl in C1, D1.
  assert (l_cache l' = l_cache l1 ∧ l_disableread l' = l_disableread l1 ∧ l_intx l' = false) as (C2 & D2 & I2).
  { destruct r as [u1|x|]; [|done..]. destruct (l_hasbegin l1); [|by injection H0 as _ <-].
    destruct (remote_call RCommit l1) as [[x|] l2] eqn:E2; [done|]. apply remote_call_keeps in E2 as [? ?]. by injection H0 as _ <-. }
  split_and!; congruence.
Qed.
Lemma local_Commit_reads `{!LocalApi} l u l' k v :
  local_Commit l = (Ret u, l') → l_disableread l = false → l_txcache l ≫= lookup k = Some v → (local_Get k l').1 = Ret v.
Proof.
  intros (I2 & D2 & C2)%local_Commit_keeps Hd Hk. unfold local_Get. rewrite D2, Hd, I2, C2. destruct (l_txcache l) as [t|]; [|done]. simpl in *.
  rewrite lookup_union, lookup_fmap, Hk. by destruct (l_cache l !! k).
Qed.

(** Deleting a key outside a transaction only forgets the cached value: the next read
    fetches the old value from the blockchain module, which has not been told yet. *)
Lemma local_delete_read main k v : main !! k = Some v →
  (local_Get k (local_Set k None (NewLocalDB (Remote.NewLocalDB main))).2).1 = Ret v.
Proof.
  intros Hk. unfold local_Get, Remote.localGet, Remote.Get, Remote.get. simpl. by rewrite lookup_delete_eq, lookup_empty, Hk.
Qed.

(** ** A write that comes back *)

(** A rolled-back write of the local database comes back: [Rollback] keeps the
    pending list [kvs], so the next committed transaction sends the rolled-back
    pairs to the blockchain module together with its own, and a later read of the
    key returns the value that was rolled back.  For all distinct keys [k], [k2]
    unknown to the database: *)
Lemma localdb_rollback_leak `{API : !LocalApi} main k v k2 v2 :
  (∀ q r, local_reply q r = None) → k ≠ k2 → main !! k = None →
  let l0 := NewLocalDB (Remote.NewLocalDB main) in
  let l1 := (local_Rollback (local_accesses [ASet k (Some v)] (local_Begin l0))).2 in
  let l2 := (local_Commit (local_accesses [ASet k2 (Some v2)] (local_Begin l1))).2 in
  (local_Get k l0).1 = Err ErrNotFound ∧ (local_Get k l1).1 = Err ErrNotFound ∧
  (local_Get k l2).1 = Ret v.
Proof.
  intros Hok Hne Hk l0 l1 l2. split_and!.
  - unfold local_Get, Remote.localGet, Remote.Get, Remote.get. simpl.
    by rewrite !lookup_empty, Hk.
  - unfold local_Get, Remote.localGet, Remote.Get, Remote.get. simpl.
    by rewrite !lookup_empty, Hk.
  - unfold l2, local_Commit, save, remote_begin, remote_call. simpl. rewrite Hok. simpl. rewrite Hok. simpl. rewrite Hok.
    unfold local_Get. simpl. rewrite lookup_union, lookup_fmap, lookup_insert_ne, !lookup_empty by done.
    simpl. unfold Remote.localGet, Remote.Get, Remote.get. simpl.
    by rewrite lookup_union, lookup_insert_ne, lookup_insert_eq.
Qed.

(** A local database whose requests are all answered. *)
Definition calm_api : LocalApi := λ _ _, None.

Lemma localdb_rollback_leak_witness :
  (local_Get "k" (local_Commit (API := calm_api) (local_accesses [ASet "k2" (Some "w")] (local_Begin
    (local_Rollback (API := calm_api) (local_accesses [ASet "k" (Some "v")]
      (local_Begin (NewLocalDB (Remote.NewLocalDB ∅))))).2))).2).1 = Ret "v".
Proof.
  apply (localdb_rollback_leak (API := calm_api) ∅ "k" "v" "k2" "w"); [reflexivity|discriminate|reflexivity].
Defined.
