(* ===== verification/Rollback.v ===== *)
(** Local data that undoes itself ([system/dapp/util.go], [AddRollbackKV] and [DelRollbackKV] of
    [system/dapp/driver.go]): while a driver writes local data, what was there before is noted
    in a log under the hash of the transaction, from which the disconnection restores it. *)

From Stdlib Require Import Ascii String.
From S2P Require Import Prelude Types KVStore Account StateDB DbIter MergeIter LocalDB.
Local Open Scope string_scope.
Local Open Scope Z_scope.

(** A pair without value deletes its key. *)
Definition KV_ : Type := bytes * option bytes.

(** The local database of a driver: a write of a value is read back; a write of nil forgets
    the value, so that the key then reads as absent or, as the local database of the executor
    does, as what lies below ([lk_base]), until it is written again.  The laws hold while the
    database can be read and written ([lk_ok]). *)
Class LocalKV (S : Type) := {
  lk_Get : bytes → M S bytes;
  lk_Set : bytes → option bytes → M S unit;
  lk_ok : S → Prop;
  lk_view : S → bytes → option bytes;
  lk_base : S → bytes → option bytes;
  lk_Get_law : ∀ k s, lk_ok s →
    ∃ s', lk_Get k s = (match lk_view s k with Some v => Ret v | None => Err ErrNotFound end, s') ∧ lk_ok s' ∧
      ∀ k', lk_view s' k' = lk_view s k' ∧ lk_base s' k' = lk_base s k';
  lk_Set_law : ∀ k v s, lk_ok s →
    ∃ s', lk_Set k v s = (Ret tt, s') ∧ lk_ok s' ∧ (∀ k', lk_base s' k' = lk_base s k') ∧
      (∀ k', k' ≠ k → lk_view s' k' = lk_view s k') ∧
      match v with
      | Some x => lk_view s' k = Some x
      | None => lk_view s' k = None ∨ lk_view s' k = lk_base s k
      end
}.

(** The messages: an empty value is not written and reads back as nil. *)
Definition nil_value (kv : KV_) : KV_ := (kv.1, match kv.2 with Some EmptyString => None | v => v end).
Class RollbackEnv := {
  set_Encode : list KV_ → bytes;
  set_Decode : bytes → option (list KV_);
  set_law : ∀ l, set_Decode (set_Encode l) = Some (nil_value <$> l);
  log_Encode : ReceiptLog → bytes;
  log_Decode : bytes → option ReceiptLog;
  log_law : ∀ l, log_Decode (log_Encode l) = Some l
}.

Definition TyLogRollback : Z := 13.
Definition CalcLocalPrefix (execer : bytes) : bytes := "LODB-" +:+ execer +:+ "-".
Definition CalcRollbackKey (execer hash : bytes) : bytes := CalcLocalPrefix execer +:+ "rollback-" +:+ hash.

(** [type KVCreator struct]; [autorollback] tells that there is a rollback key. *)
Record KVCreator := mkKVC { kvs : list KV_; c_prefix : option bytes; rollbackkey : option bytes; rollbackkvs : list KV_ }.
Definition autorollback (c : KVCreator) : bool := match rollbackkey c with Some _ => true | None => false end.
Definition put_kv (kv : KV_) (c : KVCreator) : KVCreator := mkKVC (kvs c ++ [kv])%list (c_prefix c) (rollbackkey c) (rollbackkvs c).
Definition put_rb (kv : KV_) (c : KVCreator) : KVCreator := mkKVC (kvs c) (c_prefix c) (rollbackkey c) (rollbackkvs c ++ [kv])%list.

Section Rollback.
Context {S : Type} {K : LocalKV S} {ENV : RollbackEnv}.

Abbreviation St := (KVCreator * S)%type.

Definition NewKVCreator (prefix rollbackkey : option bytes) : KVCreator := mkKVC [] prefix rollbackkey [].

Definition addPrefix (c : KVCreator) (key : bytes) : bytes := default "" (c_prefix c) +:+ key.

(** The pair is noted and, with [set], written; a failed write panics. *)
Definition record_kv (key : bytes) (value : option bytes) (set : bool) (c : KVCreator) (s : S) : outcome unit * St :=
  let c := put_kv (key, value) c in
  if set then match lk_Set key value s with (Ret _, s) => (Ret tt, (c, s)) | (_, s) => (Panic, (c, s)) end
  else (Ret tt, (c, s)).

Definition addnoprefix (key : bytes) (value : option bytes) (set : bool) : M St unit := λ '(c, s),
  if autorollback c then
    match lk_Get key s with
    | (Err ErrNotFound, s) =>
        match value with
        | None => (Ret tt, (c, s))
        | Some _ => record_kv key value set (put_rb (key, None) c) s
        end
    | (Ret prev, s) => record_kv key value set (put_rb (key, Some prev) c) s
    | (_, s) => (Panic, (c, s))
    end
  else record_kv key value set c s.
Definition add (key : bytes) (value : option bytes) (set : bool) : M St unit := λ cs,
  addnoprefix (match c_prefix cs.1 with Some _ => addPrefix cs.1 key | None => key end) value set cs.

Definition kvc_Get (key : bytes) : M St bytes := λ '(c, s),
  let '(r, s) := lk_Get (match c_prefix c with Some _ => addPrefix c key | None => key end) s in (r, (c, s)).
Definition GetNoPrefix (key : bytes) : M St bytes := λ '(c, s), let '(r, s) := lk_Get key s in (r, (c, s)).
Definition Add (key : bytes) (value : option bytes) : M St unit := add key value true.
Definition AddNoPrefix (key : bytes) (value : option bytes) : M St unit := addnoprefix key value true.

Fixpoint AddListNoPrefix (l : list KV_) : M St unit :=
  match l with
  | [] => mret tt
  | kv :: l => _ ← addnoprefix kv.1 kv.2 true; AddListNoPrefix l
  end.
Fixpoint add_list (set : bool) (l : list KV_) : M St unit :=
  match l with
  | [] => mret tt
  | kv :: l => _ ← add kv.1 kv.2 set; add_list set l
  end.
Definition AddList (l : list KV_) : M St unit := add_list true l.
Definition AddKVOnly (key : bytes) (value : option bytes) : M St unit := λ cs,
  if autorollback cs.1 then (Panic, cs) else add key value false cs.
Definition AddKVListOnly (l : list KV_) : M St unit := λ cs,
  if autorollback cs.1 then (Panic, cs) else add_list false l cs.

Definition rollbackLog (c : KVCreator) : option ReceiptLog :=
  if (length (rollbackkvs c) =? 0)%nat then None
  else Some {| rl_Ty := TyLogRollback; rl_Log := set_Encode (rollbackkvs c) |}.
Definition AddToLogs (c : KVCreator) (logs : list ReceiptLog) : list ReceiptLog :=
  match rollbackLog c with None => logs | Some log => (logs ++ [log])%list end.

Definition kvc_AddRollbackKV (c : KVCreator) : KVCreator :=
  match rollbackLog c with
  | Some rbLog => put_kv (default "" (rollbackkey c), Some (log_Encode rbLog)) c
  | None => c
  end.
Definition kvc_DelRollbackKV (c : KVCreator) : KVCreator :=
  if (0 <? length (kvs c))%nat then put_kv (default "" (rollbackkey c), None) c else c.

Definition parseRollback (log : ReceiptLog) : outcome (list KV_) :=
  if negb (rl_Ty log =? TyLogRollback) then Err (ErrOther "ErrInvalidParam")
  else match set_Decode (rl_Log log) with Some l => Ret l | None => Err (ErrOther "proto") end.
Definition GetRollbackKVList : M St (list KV_) := λ '(c, s),
  match lk_Get (default "" (rollbackkey c)) s with
  | (Err ErrNotFound, s) => (Ret [], (c, s))
  | (Err e, s) => (Err e, (c, s))
  | (Panic, s) => (Panic, (c, s))
  | (Ret data, s) =>
      (match log_Decode data with
       | None => Err (ErrOther "proto")
       | Some rollbacklog => l ← parseRollback rollbacklog; Ret (rev l)
       end, (c, s))
  end.

(** [AddRollbackKV] and [DelRollbackKV] of the base driver, on its local database; [execer] is
    the executor of the transaction and [hash] its hash. *)
Definition creator (execer hash : bytes) : KVCreator := NewKVCreator (Some (CalcLocalPrefix execer)) (Some (CalcRollbackKey (GetRealExecName execer) hash)).
Definition AddRollbackKV (execer hash : bytes) (l : list KV_) : M S (list KV_) := λ s,
  match AddListNoPrefix l (creator execer hash, s) with
  | (Ret _, (c, s)) => (Ret (kvs (kvc_AddRollbackKV c)), s)
  | (Err e, (_, s)) => (Err e, s)
  | (Panic, (_, s)) => (Panic, s)
  end.
Definition DelRollbackKV (execer hash : bytes) : M S (list KV_) := λ s,
  match (l ← GetRollbackKVList; AddListNoPrefix l) (creator execer hash, s) with
  | (Ret _, (c, s)) => (Ret (kvs (kvc_DelRollbackKV c)), s)
  | (Err e, (_, s)) => (Err e, s)
  | (Panic, (_, s)) => (Panic, s)
  end.

(** ** The effect of a list of pairs *)

Definition applies (l : list KV_) (f : bytes → option bytes) : bytes → option bytes :=
  foldl (λ f kv k', if decide (k' = kv.1) then kv.2 else f k') f l.

Lemma applies_ext l f g : (∀ k, f k = g k) → ∀ k, applies l f k = applies l g k.
Proof using Type. revert f g. induction l as [|kv l IH]; intros f g H k; simpl; [done|]. apply IH. intros k'. by case_decide. Qed.
Lemma applies_app a b f : applies (a ++ b) f = applies b (applies a f).
Proof using Type. apply foldl_app. Qed.
Lemma applies_other l f k : (k ∉ l.*1) → applies l f k = f k.
Proof using Type. revert f. induction l as [|kv l IH]; intros f H; simpl in *; [done|]. rewrite IH by set_solver. rewrite decide_False; set_solver. Qed.
(** What another key holds does not matter. *)
Lemma applies_at l f g k : f k = g k → applies l f k = applies l g k.
Proof using Type. revert f g. induction l as [|kv l IH]; intros f g H; simpl; [done|]. apply IH. by case_decide. Qed.

(** What [f] says of a key is what can be read, or that the key is absent. *)
Definition reads_as (s : S) (f : bytes → option bytes) (k : bytes) : Prop := f k = lk_view s k ∨ f k = None.

(** What noting the pairs [l] from [s] leads to: the pairs noted do what [l] does, and the
    rollback pairs in reverse order undo it. *)
Record noted (l : list KV_) (c : KVCreator) (s : S) (c' : KVCreator) (s' : S) (done back : list KV_) : Prop := {
  no_ok : lk_ok s';
  no_base : ∀ k, lk_base s' k = lk_base s k;
  no_kvs : kvs c' = (kvs c ++ done)%list;
  no_back : rollbackkvs c' = (rollbackkvs c ++ back)%list;
  no_key : rollbackkey c' = rollbackkey c;
  no_effect : ∀ k f, reads_as s f k → applies done f k = applies l f k;
  no_reads : ∀ k f, reads_as s f k → reads_as s' (applies l f) k;
  no_other : ∀ k, (k ∉ done.*1) → lk_view s' k = lk_view s k;
  no_source : ∀ k v, lk_view s' k = Some v → lk_view s k = Some v ∨ lk_base s k = Some v ∨ (k, Some v) ∈ l;
  no_undo : ∀ k f, applies (rev back) f k = if decide (k ∈ back.*1) then lk_view s k else f k;
  no_keys : ∀ k, k ∈ back.*1 → k ∈ l.*1;
  no_same : back.*1 = done.*1;
  no_values : ∀ k v, (k, Some v) ∈ back →
    lk_view s k = Some v ∨ lk_base s k = Some v ∨ (k, Some v) ∈ l;
  no_first : done = [] → ∀ kv, head l = Some kv → kv.2 = None ∧ lk_view s kv.1 = None;
  no_last : ∀ k, list.last back = Some (k, None) → ∀ f, reads_as s f k → applies l f k ≠ None
}.

Lemma noted_nil c s : lk_ok s → noted [] c s c s [] [].
Proof using Type. intros H. split; simpl; rewrite ?app_nil_r; try done. naive_solver. by intros k v ?%elem_of_nil. Qed.

Lemma noted_app l1 l2 c s c1 s1 c2 s2 d1 b1 d2 b2 :
  noted l1 c s c1 s1 d1 b1 → noted l2 c1 s1 c2 s2 d2 b2 → noted (l1 ++ l2) c s c2 s2 (d1 ++ d2) (b1 ++ b2).
Proof using Type.
  intros [O1 A0 A1 A2 A3 A4 A5 A6 A7 A8 A9 A10 A11 A12 A13] [O2 B0 B1 B2 B3 B4 B5 B6 B7 B8 B9 B10 B11 B12 B13]. split.
  - done.
  - intros k. by rewrite B0.
  - by rewrite B1, A1, app_assoc.
  - by rewrite B2, A2, app_assoc.
  - by rewrite B3.
  - intros k f Hf. rewrite !applies_app, <-B4 by (by apply A5). apply applies_at. by apply A4.
  - intros k f Hf. unfold reads_as. rewrite applies_app. by apply B5, A5.
  - intros k. rewrite fmap_app. intros [H1 H2]%not_elem_of_app. by rewrite B6, A6.
  - intros k v [H|[H|H]]%B7; [|rewrite A0 in H; auto|right; right; apply elem_of_app; auto].
    destruct (A7 k v H) as [?|[?|?]]; [by left|by right; left|right; right; apply elem_of_app; auto].
  - intros k f. rewrite rev_app_distr, applies_app, A8, fmap_app. destruct (decide (k ∈ b1.*1)) as [H1|H1].
    { rewrite decide_True; [done|]. apply elem_of_app. by left. }
    rewrite B8. destruct (decide (k ∈ b2.*1)) as [H2|H2].
    + rewrite decide_True by (apply elem_of_app; by right). apply A6. by rewrite <-A10.
    + rewrite decide_False; [done|]. by rewrite not_elem_of_app.
  - intros k. rewrite !fmap_app, !elem_of_app. intros [?|?]; auto.
  - by rewrite !fmap_app, A10, B10.
  - intros k v [H|H]%elem_of_app; [destruct (A11 k v H) as [?|[?|?]]; [by left|by right; left|right; right; apply elem_of_app; auto]|].
    destruct (B11 k v H) as [Hv|[Hv|?]]; [|rewrite A0 in Hv; auto|right; right; apply elem_of_app; auto].
    destruct (A7 k v Hv) as [?|[?|?]]; [by left|by right; left|right; right; apply elem_of_app; auto].
  - intros [-> ->]%app_nil kv Hh. destruct l1 as [|kv1 l1]; simpl in Hh; [|injection Hh as ->; by apply A12].
    destruct (B12 eq_refl kv Hh) as [? Hv]. rewrite A6 in Hv; [done|apply not_elem_of_nil].
  - intros k. rewrite last_app. destruct (list.last b2) as [x|] eqn:E; intros Hl f Hf; rewrite applies_app.
    + injection Hl as ->. by apply B13, A5.
    + apply last_None in E as ->. destruct d2; [|done]. rewrite <-B4 by (by apply A5). by apply A13.
Qed.

Lemma note_one k v c s : lk_ok s → autorollback c = true →
  ∃ c' s' d b, addnoprefix k v true (c, s) = (Ret tt, (c', s')) ∧ noted [(k, v)] c s c' s' d b.
Proof using Type.
  intros Hok Ha. unfold addnoprefix. rewrite Ha. destruct (lk_Get_law k s Hok) as (s1 & -> & Hok1 & H1).
  assert (∀ k', lk_view s1 k' = lk_view s k') as V1 by apply H1. assert (∀ k', lk_base s1 k' = lk_base s k') as W1 by apply H1. clear H1.
  assert (∀ rb : option bytes, lk_view s k = rb → (rb = None → v ≠ None) → ∃ c' s', record_kv k v true (put_rb (k, rb) c) s1 = (Ret tt, (c', s')) ∧ noted [(k, v)] c s c' s' [(k, v)] [(k, rb)]) as Hgo.
  { intros rb Hrb Hval. unfold record_kv. destruct (lk_Set_law k v s1 Hok1) as (s2 & -> & Hok2 & W2 & V2 & E2). eexists _, s2. split; [done|]. split; try done.
    - intros k'. by rewrite W2.
    - intros k' f Hf. unfold reads_as. simpl. case_decide as Hk; subst; [destruct v; [left; congruence|by right]|].
      destruct Hf as [Hf|Hf]; [left; by rewrite V2, V1|by right].
    - intros k' Hk. rewrite V2; [done|set_solver].
    - intros k' x Hx. destruct (decide (k' = k)) as [->|Hk]; [|left; by rewrite <-V1, <-V2].
      destruct v as [y|]; [right; right; rewrite E2 in Hx; injection Hx as <-; apply list_elem_of_singleton; done|].
      destruct E2 as [E2|E2]; [congruence|]. right; left. by rewrite <-W1, <-E2.
    - intros k' f. simpl. destruct (decide (k' = k)) as [->|Hk]; [rewrite decide_True by set_solver; done|rewrite decide_False by set_solver; done].
    - intros k' x Hx%list_elem_of_singleton. injection Hx as -> ->. left. done.
    - intros k' [= <- ->] f _. simpl. rewrite decide_True by done. by apply Hval. }
  destruct (lk_view s k) as [prev|] eqn:E.
  - destruct (Hgo (Some prev) eq_refl ltac:(done)) as (c' & s' & -> & H). eauto 6.
  - destruct v as [v|].
    + destruct (Hgo None eq_refl ltac:(done)) as (c' & s' & -> & H). eauto 6.
    + exists c, s1, [], []. split; [done|]. split; rewrite ?app_nil_r; try done.
      * intros k' f Hf. simpl. case_decide as Hk; [|done]. subst. destruct Hf as [Hf|Hf]; congruence.
      * intros k' f Hf. unfold reads_as. simpl. case_decide; [by right|]. by rewrite V1.
      * intros k' x Hx. left. by rewrite <-V1.
      * by intros k' ?%elem_of_nil.
      * by intros k' x ?%elem_of_nil.
      * by intros _ kv [= <-].
Qed.

Lemma note_list l c s : lk_ok s → autorollback c = true →
  ∃ c' s' d b, AddListNoPrefix l (c, s) = (Ret tt, (c', s')) ∧ noted l c s c' s' d b.
Proof using Type.
  revert c s. induction l as [|[k v] l IH]; intros c s Hok Ha.
  { exists c, s, [], []. split; [done|]. by apply noted_nil. }
  cbn [AddListNoPrefix fst snd]. destruct (note_one k v c s Hok Ha) as (c1 & s1 & d1 & b1 & E1 & H1). rewrite (bind_Ret _ _ _ _ _ E1).
  destruct (IH c1 s1) as (c2 & s2 & d2 & b2 & E2 & H2); [by apply H1|unfold autorollback in *; by rewrite (no_key _ _ _ _ _ _ _ H1)|].
  exists c2, s2, (d1 ++ d2)%list, (b1 ++ b2)%list. split; [done|]. exact (noted_app [(k, v)] l _ _ _ _ _ _ _ _ _ _ H1 H2).
Qed.

Lemma nil_value_id (l : list KV_) : (∀ kv : KV_, kv ∈ l → kv.2 ≠ Some "") → nil_value <$> l = l.
Proof using Type.
  intros H. induction l as [|[k v] l IH]; [done|]. rewrite fmap_cons, IH by set_solver. f_equal. unfold nil_value. simpl.
  specialize (H (k, v) ltac:(set_solver)). simpl in H. by destruct v as [[]|].
Qed.

(** What the rollback key holds is read back. *)
Lemma read_back c s rk (back : list KV_) : lk_ok s → rollbackkey c = Some rk → (∀ kv : KV_, kv ∈ back → kv.2 ≠ Some "") →
  lk_view s rk = match back with [] => None | _ => Some (log_Encode {| rl_Ty := TyLogRollback; rl_Log := set_Encode back |}) end →
  ∃ s', GetRollbackKVList (c, s) = (Ret (rev back), (c, s')) ∧ lk_ok s' ∧ ∀ k, lk_view s' k = lk_view s k.
Proof using Type.
  intros Hok Hr He Hv. unfold GetRollbackKVList. rewrite Hr. change (default "" (Some rk)) with rk.
  destruct (lk_Get_law rk s Hok) as (s' & -> & Hok' & Hs). exists s'.
  split; [|split; [done|apply Hs]]. rewrite Hv. destruct back as [|kv back]; [done|]. rewrite log_law. unfold parseRollback. cbn [rl_Ty rl_Log]. rewrite Z.eqb_refl. cbn [negb].
  by rewrite set_law, nil_value_id.
Qed.

(** C29: local data with a rollback log undoes itself, on any local database that reads a
    written value back and forgets a value when nil is written, as the one of the executor
    does.  While a driver writes pairs, the base driver returns pairs with the same effect
    and the log; from any database those pairs were saved to, the disconnection returns
    pairs that restore every key, the log's own included.  The key of the log is new, and
    no value that is read or written is empty, since the log would read it back as a
    deletion. *)
Theorem rollback_undo execer hash (l : list KV_) (s : S) :
  let rk := CalcRollbackKey (GetRealExecName execer) hash in
  lk_ok s → (rk ∉ l.*1) → lk_view s rk = None →
  (∀ k, lk_view s k ≠ Some "" ∧ lk_base s k ≠ Some "") → (∀ kv, kv ∈ l → kv.2 ≠ Some "") →
  ∃ out s', AddRollbackKV execer hash l s = (Ret out, s') ∧
    (∀ k, k ≠ rk → applies out (lk_view s) k = applies l (lk_view s) k) ∧
    ∀ t : S, lk_ok t → (∀ k, lk_view t k = applies out (lk_view s) k) →
      ∃ back t', DelRollbackKV execer hash t = (Ret back, t') ∧ ∀ k, applies back (lk_view t) k = lk_view s k.
Proof using Type.
  intros rk Hok Hrk Hnone Hv Hl. unfold AddRollbackKV.
  destruct (note_list l (creator execer hash) s Hok eq_refl) as (c & s' & d & b & -> & [_ _ H1 H2 H3 H4 _ _ _ H6 H7 H8 H9 _ H11]).
  cbn [creator NewKVCreator kvs rollbackkvs rollbackkey app] in H1, H2, H3.
  assert (∀ kv, kv ∈ b → kv.2 ≠ Some "") as Hb.
  { intros [k v] Hkv E. simpl in E. subst v. destruct (H9 k "" Hkv) as [?|[?|?]]; [by destruct (Hv k)..|by apply (Hl (k, Some ""))]. }
  assert (∀ k, applies d (lk_view s) k = applies l (lk_view s) k) as Hd by (intros k; apply H4; by left).
  set (log := match b with [] => None | _ => Some (log_Encode {| rl_Ty := TyLogRollback; rl_Log := set_Encode b |}) end).
  assert (∀ k, applies (kvs (kvc_AddRollbackKV c)) (lk_view s) k = if decide (k = rk) then log else applies l (lk_view s) k) as Hout.
  { intros k. unfold kvc_AddRollbackKV, rollbackLog, log. rewrite H2, H3. change (default "" (Some ?x)) with x. fold rk. destruct b as [|kv b]; cbn [length Nat.eqb].
    - rewrite H1, Hd. case_decide; [subst; by rewrite applies_other|done].
    - cbn [kvs put_kv]. rewrite H1, applies_app, <-Hd. done. }
  eexists _, s'. split; [done|]. split; [intros k Hk; by rewrite Hout, decide_False|].
  intros t Hokt Ht. assert (∀ k, lk_view t k = if decide (k = rk) then log else applies l (lk_view s) k) as Ht' by (intros k; by rewrite Ht, Hout). clear Ht.
  unfold DelRollbackKV. destruct (read_back (creator execer hash) t rk b Hokt eq_refl Hb) as (t1 & E1 & Hok1 & Ht1); [by rewrite Ht', decide_True|].
  rewrite (bind_Ret _ _ _ _ _ E1). destruct (note_list (rev b) (creator execer hash) t1 Hok1 eq_refl) as (c2 & t2 & d2 & b2 & -> & [_ _ G1 _ G3 G4 _ _ _ _ _ _ _ G10 _]).
  eexists _, t2. split; [done|]. cbn [creator NewKVCreator kvs rollbackkey app] in G1, G3.
  assert (rk ∉ b.*1) as Hrb by (intros ?; by apply Hrk, H7).
  assert (∀ k, k ≠ rk → applies d2 (lk_view t) k = lk_view s k) as Hback.
  { intros k Hk. rewrite (applies_ext _ _ (lk_view t1)) by (intros; by rewrite Ht1). rewrite G4 by (by left). rewrite H6.
    case_decide as Hin; [done|]. rewrite Ht1, Ht', decide_False, <-Hd by done. apply applies_other. by rewrite <-H8. }
  assert (d2 = [] → b = []) as Hempty.
  { intros E. destruct (list.last b) as [[k v]|] eqn:El; [exfalso|by apply last_None]. apply last_Some in El as [b' ->].
    rewrite rev_app_distr in G10. destruct (G10 E (k, v) eq_refl) as [Ev Hk]. cbn [fst snd] in Ev, Hk. subst v.
    rewrite fmap_app in Hrb. rewrite Ht1, Ht', decide_False in Hk by set_solver. by apply (H11 k eq_refl (lk_view s)); [left|]. }
  intros k. unfold kvc_DelRollbackKV. rewrite G1. destruct d2 as [|kv d2]; cbn [length Nat.ltb Nat.leb].
  - rewrite G1. simpl. destruct (decide (k = rk)) as [->|Hk]; [|by apply Hback]. rewrite Ht', decide_True, Hnone by done. unfold log. by rewrite Hempty.
  - cbn [kvs put_kv]. rewrite G1, G3, applies_app. change (default "" (Some ?x)) with x. fold rk. cbn [applies foldl fst snd].
    destruct (decide (k = rk)) as [->|Hk]; [done|by apply Hback].
Qed.
End Rollback.

(** ** The local database of the executor *)

(** Below its pending values lie the cache of the block inside a transaction, and what the
    blockchain module holds outside of one. *)
#[export] Instance LocalDB_kv : LocalKV LocalDB.
Proof.
  refine {| lk_Get := local_Get; lk_Set := local_Set;
    lk_ok l := l_disableread l = false ∧ l_disablewrite l = false;
    lk_view := local_view;
    lk_base l k := if l_intx l then cached_view l k else Remote.view (l_remote l) k |}.
  - intros k l [Hr Hw]. destruct (local_Get_view l k Hr) as [_ Hc]. revert Hc.
    unfold local_Get, local_view. rewrite Hr. destruct (if l_intx l then l_txcache l ≫= lookup k else None) as [v|] eqn:Et; [by eexists|].
    unfold cached_view at 3. destruct (l_cache l !! k) as [[v|]|] eqn:Ec; [by eexists..|].
    destruct (Remote.localGet_view (l_remote l) k) as [G1 G2]. destruct (Remote.localGet k (l_remote l)) as [value r]. simpl in G1, G2.
    rewrite <-G1. intros Hc. assert (∀ o : outcome bytes, ∃ s', (o, set_cache (set_remote l r) (<[k:=value]> (l_cache l))) = (o, s') ∧
      (l_disableread s' = false ∧ l_disablewrite s' = false) ∧ ∀ k', 
      match (if l_intx s' then l_txcache s' ≫= lookup k' else None) with Some v => Some v | None => cached_view s' k' end =
        match (if l_intx l then l_txcache l ≫= lookup k' else None) with Some v => Some v | None => cached_view l k' end ∧
      (if l_intx s' then cached_view s' k' else Remote.view (l_remote s') k') = if l_intx l then cached_view l k' else Remote.view (l_remote l) k') as Hgo.
    { intros o. eexists. split; [done|]. split; [done|]. intros k'. assert (cached_view (set_cache (set_remote l r) (<[k:=value]> (l_cache l))) k' = cached_view l k') as Hc'.
      { destruct value; apply Hc. }
      rewrite Hc'. simpl. split; [done|]. by destruct (l_intx l). }
    destruct value; apply Hgo.
  - intros k v l [Hr Hw]. unfold local_Set. rewrite Hw. destruct (l_intx l) eqn:Hi; (eexists; split; [done|]; split; [done|]; simpl; split; [done|]).
    + unfold local_view. rewrite Hi. simpl. split.
      * intros k' Hk. assert (setmap (default ∅ (l_txcache l)) k v !! k' = l_txcache l ≫= lookup k') as ->; [|done].
        unfold setmap. destruct v; [rewrite lookup_insert_ne by done|rewrite lookup_delete_ne by done];
          (destruct (l_txcache l); simpl; [done|by rewrite lookup_empty]).
      * unfold setmap. destruct v as [x|]; [by rewrite lookup_insert_eq|]. rewrite lookup_delete_eq. by right.
    + unfold local_view, cached_view. rewrite Hi. simpl. split.
      * intros k' Hk. destruct v; [by rewrite lookup_insert_ne|by rewrite lookup_delete_ne].
      * destruct v as [x|]; [by rewrite lookup_insert_eq|]. rewrite lookup_delete_eq. by right.
Defined.

(** ** A witness *)

Module RollbackDemo.
#[local] Instance env : RollbackEnv.
Proof.
  refine {| set_Encode l := @Encode _ countable_codec (nil_value <$> l : list (bytes * option bytes)); set_Decode := @Decode _ countable_codec;
    log_Encode l := @Encode _ countable_codec (rl_Ty l, rl_Log l); log_Decode b := (λ '(ty, log), {| rl_Ty := ty; rl_Log := log |}) <$> @Decode _ countable_codec b |}.
  - intros l. apply Decode_Encode.
  - intros l. rewrite Decode_Encode. by destruct l.
Defined.

(** On the local database of the executor: an update, an addition, a deletion, a second
    update of the same key, and the deleted key once more. *)
Definition db : gmap bytes bytes := {[ "a" := "1"; "b" := "2" ]}.
Definition local (m : gmap bytes bytes) : LocalDB := NewLocalDB (Remote.NewLocalDB m).
Definition writes : list KV_ := [("a", Some "3"); ("c", Some "4"); ("b", None); ("a", Some "5"); ("b", Some "6"); ("x", None)].

Lemma local_ok m : lk_ok (local m).
Proof. by split. Qed.
Lemma local_reads m k : lk_view (local m) k = m !! k ∧ lk_base (local m) k = m !! k.
Proof. simpl. unfold local_view, cached_view, Remote.view. simpl. by rewrite !lookup_empty. Qed.
Lemma key_free : CalcRollbackKey (GetRealExecName "coins") "h" ∉ writes.*1.
Proof. apply (bool_decide_unpack _). vm_compute. exact I. Qed.
Lemma key_absent : lk_view (local db) (CalcRollbackKey (GetRealExecName "coins") "h") = None.
Proof. vm_compute. reflexivity. Qed.
Lemma db_full k : lk_view (local db) k ≠ Some "" ∧ lk_base (local db) k ≠ Some "".
Proof.
  destruct (local_reads db k) as [-> ->]. assert (map_Forall (λ _ v, v ≠ "") db) as Hall by (apply (bool_decide_unpack _); vm_compute; exact I).
  assert (db !! k ≠ Some "") as H by (intros H; by apply (Hall k "")). done.
Qed.
Lemma writes_full : ∀ kv, kv ∈ writes → kv.2 ≠ Some "".
Proof.
  assert (Forall (λ kv : KV_, kv.2 ≠ Some "") writes) as H by (apply (bool_decide_unpack _); vm_compute; exact I). by apply list.Forall_forall.
Qed.

(** The pairs are saved to the chain's store, and the block is disconnected on a new local
    database over it. *)
Definition saved (out : list KV_) (m : gmap bytes bytes) : gmap bytes bytes :=
  foldl (λ m kv, match kv.2 with Some v => <[kv.1 := v]> m | None => delete kv.1 m end) m out.
Lemma saved_reads out m f k : (∀ k, m !! k = f k) → lk_view (local (saved out m)) k = applies out f k.
Proof.
  intros Hm. rewrite (proj1 (local_reads _ k)). unfold saved, applies. revert m f Hm. induction out as [|[k0 v] out IH]; intros m f Hm; simpl; [done|].
  apply IH. intros k'. destruct v; simpl; case_decide as E; subst;
    rewrite ?lookup_insert_eq, ?lookup_delete_eq, ?lookup_insert_ne, ?lookup_delete_ne by done; done.
Qed.

Lemma rollback_undo_witness : ∃ out s', AddRollbackKV "coins" "h" writes (local db) = (Ret out, s') ∧
  ∃ back t', DelRollbackKV "coins" "h" (local (saved out db)) = (Ret back, t') ∧
    ∀ k, saved back (saved out db) !! k = db !! k.
Proof.
  destruct (rollback_undo "coins" "h" writes (local db) (local_ok db) key_free key_absent db_full writes_full) as (out & s' & E & _ & H).
  exists out, s'. split; [exact E|].
  destruct (H (local (saved out db)) (local_ok _)) as (back & t' & E' & H').
  { intros k. apply saved_reads. intros k'. symmetry. apply (local_reads db k'). }
  exists back, t'. split; [exact E'|]. intros k. rewrite <-(proj1 (local_reads db k)), <-(H' k), <-(proj1 (local_reads _ k)).
  apply saved_reads. intros k'. symmetry. apply local_reads.
Defined.

(** A key that held an empty value is deleted by the rollback. *)
Lemma empty_value_lost : let m : gmap bytes bytes := {[ "a" := "" ]} in
  match AddRollbackKV "coins" "h" [("a", Some "3")] (local m) with
  | (Ret out, _) => match DelRollbackKV "coins" "h" (local (saved out m)) with (Ret back, _) => ("a", None) ∈ back | _ => False end
  | _ => False
  end.
Proof. vm_compute. left. Qed.
End RollbackDemo.
