(* ===== verification/MavlSpec.v ===== *)
(** The abstract Merkle-AVL tree: a pure search tree with data in the leaves, its
    operations with the rebalancing of [system/store/mavl/db/node.go], and their
    contract over finite maps.  [Mavl] refines the pointer-and-database code to it. *)

From Stdlib Require Import Ascii String.
From S2P Require Import Prelude.
Local Open Scope Z_scope.

Inductive tree :=
  | Leaf (k v : bytes)
  | Inner (k : bytes) (l r : tree).

Fixpoint theight (t : tree) : Z :=
  match t with Leaf _ _ => 0 | Inner _ l r => Z.max (theight l) (theight r) + 1 end.
Fixpoint tsize (t : tree) : Z :=
  match t with Leaf _ _ => 1 | Inner _ l r => tsize l + tsize r end.
Fixpoint elements (t : tree) : list (bytes * bytes) :=
  match t with Leaf k v => [(k, v)] | Inner _ l r => elements l ++ elements r end.
Fixpoint leftmost (t : tree) : bytes :=
  match t with Leaf k _ => k | Inner _ l _ => leftmost l end.

(** ** Operations *)

Definition t_rotR (t : tree) : tree :=
  match t with Inner k (Inner k' a b) c => Inner k' a (Inner k b c) | _ => t end.
Definition t_rotL (t : tree) : tree :=
  match t with Inner k a (Inner k' b c) => Inner k' (Inner k a b) c | _ => t end.
Definition t_bal (t : tree) : Z :=
  match t with Leaf _ _ => 0 | Inner _ l r => theight l - theight r end.

Definition t_balance (t : tree) : tree :=
  match t with
  | Leaf _ _ => t
  | Inner k l r =>
      if 1 <? t_bal t then
        if 0 <=? t_bal l then t_rotR t else t_rotR (Inner k (t_rotL l) r)
      else if t_bal t <? -1 then
        if t_bal r <=? 0 then t_rotL t else t_rotL (Inner k l (t_rotR r))
      else t
  end.

Fixpoint t_set (k v : bytes) (t : tree) : tree * bool :=
  match t with
  | Leaf k' v' =>
      let cmp := bytes_Compare k k' in
      if cmp <? 0 then (Inner k' (Leaf k v) (Leaf k' v'), false)
      else if cmp =? 0 then (Leaf k v, true)
      else (Inner k (Leaf k' v') (Leaf k v), false)
  | Inner k' l r =>
      if ltb k k' then
        let '(l', u) := t_set k v l in
        if u then (Inner k' l' r, true) else (t_balance (Inner k' l' r), false)
      else
        let '(r', u) := t_set k v r in
        if u then (Inner k' l r', true) else (t_balance (Inner k' l r'), false)
  end.

(** Result of a removal: not found, or the remaining tree ([None]: nothing left),
    the new leftmost key if it changed, and the removed value. *)
Inductive removal := NotFound | Removed (t : option tree) (newKey : option bytes) (v : bytes).

Fixpoint t_remove (k : bytes) (t : tree) : removal :=
  match t with
  | Leaf k' v' => if String.eqb k k' then Removed None None v' else NotFound
  | Inner k' l r =>
      if ltb k k' then
        match t_remove k l with
        | NotFound => NotFound
        | Removed None _ v => Removed (Some r) (Some k') v
        | Removed (Some l') nk v => Removed (Some (t_balance (Inner k' l' r))) nk v
        end
      else
        match t_remove k r with
        | NotFound => NotFound
        | Removed None _ v => Removed (Some l) None v
        | Removed (Some r') nk v => Removed (Some (t_balance (Inner (default k' nk) l r'))) None v
        end
  end.

Fixpoint t_get (k : bytes) (t : tree) : Z * option bytes :=
  match t with
  | Leaf k' v' =>
      let cmp := bytes_Compare k' k in
      if cmp =? 0 then (0, Some v') else if cmp =? -1 then (1, None) else (0, None)
  | Inner k' l r =>
      if ltb k k' then t_get k l
      else let '(i, v) := t_get k r in (i + (tsize (Inner k' l r) - tsize r), v)
  end.

(** ** Search-tree and balance invariants *)

Definition keys_of (t : tree) : list bytes := (elements t).*1.
Definition all_lt (t : tree) (k : bytes) : Prop := ∀ x, x ∈ keys_of t → bytes_lt x k.

Fixpoint bst (t : tree) : Prop :=
  match t with
  | Leaf _ _ => True
  | Inner k l r => bst l ∧ bst r ∧ all_lt l k ∧ leftmost r = k
  end.

Fixpoint balanced (t : tree) : Prop :=
  match t with
  | Leaf _ _ => True
  | Inner _ l r => balanced l ∧ balanced r ∧ -1 <= theight l - theight r <= 1
  end.

Definition tmap (t : tree) : gmap bytes bytes := list_to_map (elements t).

#[global] Arguments keys_of : simpl never.
#[global] Arguments tmap : simpl never.
#[global] Arguments t_balance : simpl never.

(** ** Basic facts *)

Lemma theight_nonneg t : 0 <= theight t.
Proof. induction t; simpl; lia. Qed.
Lemma tsize_pos t : 1 <= tsize t.
Proof. induction t; simpl; lia. Qed.
Lemma theight_lt_size t : theight t < tsize t.
Proof. induction t as [|k l IHl r IHr]; simpl; [lia|]. pose proof (tsize_pos l). pose proof (tsize_pos r). lia. Qed.
Lemma tsize_elements t : tsize t = Z.of_nat (length (elements t)).
Proof. induction t as [|k l IHl r IHr]; simpl; [done|]. rewrite length_app. lia. Qed.

Lemma leftmost_in t : leftmost t ∈ keys_of t.
Proof.
  unfold keys_of. induction t as [|k l IHl r IHr]; simpl; [set_solver|].
  rewrite fmap_app. set_solver.
Qed.

Lemma keys_of_inner k l r x : x ∈ keys_of (Inner k l r) ↔ x ∈ keys_of l ∨ x ∈ keys_of r.
Proof. unfold keys_of. simpl. rewrite fmap_app. set_solver. Qed.

(** In a search tree the leftmost key is the least one. *)
Lemma leftmost_least t x : bst t → x ∈ keys_of t → leftmost t = x ∨ bytes_lt (leftmost t) x.
Proof.
  induction t as [k v|k l IHl r IHr]; simpl.
  - unfold keys_of. simpl. set_solver.
  - intros (Hl & Hr & Hlt & Hk) Hx. apply keys_of_inner in Hx as [Hx|Hx]; [by apply IHl|].
    right. specialize (Hlt (leftmost l) (leftmost_in l)).
    destruct (IHr Hr Hx) as [<-|H]; [by rewrite Hk|]. etrans; [exact Hlt|]. by rewrite <-Hk.
Qed.

Lemma inner_sides k l r x :
  bst (Inner k l r) → (x ∈ keys_of l → bytes_lt x k) ∧ (x ∈ keys_of r → x = k ∨ bytes_lt k x).
Proof.
  intros (Hl & Hr & Hlt & Hk). split; [by apply Hlt|]. intros Hx.
  destruct (leftmost_least r x Hr Hx) as [<-|H]; [by left|]. right. by rewrite <-Hk.
Qed.

(** ** Rotations keep the contents and the search order *)

Lemma t_rotR_elements t : elements (t_rotR t) = elements t.
Proof. destruct t as [|k [|k' a b] c]; simpl; [done|done|]. by rewrite (assoc_L (++)). Qed.
Lemma t_rotL_elements t : elements (t_rotL t) = elements t.
Proof. destruct t as [|k a [|k' b c]]; simpl; [done|done|]. by rewrite (assoc_L (++)). Qed.
Lemma t_balance_elements t : elements (t_balance t) = elements t.
Proof.
  destruct t as [|k l r]; [done|]. unfold t_balance. repeat case_match; rewrite ?t_rotR_elements, ?t_rotL_elements;
    simpl; rewrite ?t_rotR_elements, ?t_rotL_elements; done.
Qed.

Lemma t_rotR_leftmost t : leftmost (t_rotR t) = leftmost t.
Proof. by destruct t as [|k [|k' a b] c]. Qed.
Lemma t_rotL_leftmost t : leftmost (t_rotL t) = leftmost t.
Proof. by destruct t as [|k a [|k' b c]]. Qed.

Lemma all_lt_inner k' l r k : all_lt (Inner k' l r) k ↔ all_lt l k ∧ all_lt r k.
Proof. unfold all_lt. setoid_rewrite keys_of_inner. naive_solver. Qed.

Lemma all_lt_trans t k k' : all_lt t k → bytes_lt k k' → all_lt t k'.
Proof. intros H Hk x Hx. etrans; [by apply H|done]. Qed.

Lemma t_rotR_bst t : bst t → bst (t_rotR t).
Proof.
  destruct t as [|k [|k' a b] c]; simpl; [done|done|].
  rewrite all_lt_inner. intros ((Ha & Hb & Hab & Hbk) & Hc & (Hak & Hbk2) & Hck). done.
Qed.

Lemma t_rotL_bst t : bst t → bst (t_rotL t).
Proof.
  destruct t as [|k a [|k' b c]]; simpl; [done|done|].
  rewrite all_lt_inner. intros (Ha & (Hb & Hc & Hbk & Hck) & Hak & Hk).
  split_and!; try done. apply (all_lt_trans a k); [done|].
  apply Hbk. rewrite <-Hk. apply leftmost_in.
Qed.

Lemma bst_replace_left k l l' r :
  bst (Inner k l r) → bst l' → (∀ x, x ∈ keys_of l' → bytes_lt x k) → bst (Inner k l' r).
Proof. by intros (Hl & Hr & Hlt & Hk). Qed.

Lemma elements_keys t t' : elements t = elements t' → keys_of t = keys_of t'.
Proof. unfold keys_of. by intros ->. Qed.

Lemma t_balance_bst t : bst t → bst (t_balance t).
Proof.
  destruct t as [|k l r]; [done|]. intros H. unfold t_balance.
  repeat case_match; try done.
  - by apply t_rotR_bst.
  - apply t_rotR_bst. destruct H as (Hl & Hr & Hlt & Hk). split_and!; [by apply t_rotL_bst|done| |done].
    unfold all_lt. by rewrite (elements_keys (t_rotL l) l (t_rotL_elements l)).
  - by apply t_rotL_bst.
  - apply t_rotL_bst. destruct H as (Hl & Hr & Hlt & Hk). split_and!; [done|by apply t_rotR_bst|done|].
    by rewrite t_rotR_leftmost.
Qed.

Lemma t_balance_leftmost t : leftmost (t_balance t) = leftmost t.
Proof.
  destruct t as [|k l r]; [done|]. unfold t_balance.
  repeat case_match; rewrite ?t_rotR_leftmost, ?t_rotL_leftmost; simpl; rewrite ?t_rotL_leftmost; done.
Qed.

(** ** Contents as a finite map *)

Lemma tmap_inner k l r : tmap (Inner k l r) = tmap l ∪ tmap r.
Proof. unfold tmap. simpl. apply list_to_map_app. Qed.

Lemma tmap_None t k : tmap t !! k = None ↔ k ∉ keys_of t.
Proof. symmetry. apply not_elem_of_list_to_map. Qed.

Lemma tmap_elements t t' : elements t = elements t' → tmap t = tmap t'.
Proof. unfold tmap. by intros ->. Qed.

Lemma not_in_left k l r x : bst (Inner k l r) → ltb x k = false → tmap l !! x = None.
Proof.
  intros H Hx. apply tmap_None. intros Hin. apply (inner_sides k l r x H) in Hin.
  apply ltb_true in Hin. congruence.
Qed.

Lemma not_in_right k l r x : bst (Inner k l r) → ltb x k = true → tmap r !! x = None.
Proof.
  intros H Hx. apply tmap_None. intros Hin. apply (inner_sides k l r x H), ltb_false in Hin. congruence.
Qed.

(** *** Insertion *)

Lemma t_set_keys k v t x : x ∈ keys_of (t_set k v t).1 ↔ x = k ∨ x ∈ keys_of t.
Proof.
  induction t as [k' v'|k' l IHl r IHr].
  - simpl. destruct (bytes_Compare_cases k k') as [[-> _]|[[-> ->]|[-> _]]]; simpl;
      unfold keys_of; simpl; set_solver.
  - simpl. destruct (ltb k k').
    + destruct (t_set k v l) as [l' u]. simpl in IHl.
      destruct u; simpl; rewrite ?(elements_keys _ _ (t_balance_elements _)), !keys_of_inner, IHl; tauto.
    + destruct (t_set k v r) as [r' u]. simpl in IHr.
      destruct u; simpl; rewrite ?(elements_keys _ _ (t_balance_elements _)), !keys_of_inner, IHr; tauto.
Qed.

Lemma t_set_leftmost k v t :
  bst t → leftmost (t_set k v t).1 = if ltb k (leftmost t) then k else leftmost t.
Proof.
  induction t as [k' v'|k' l IHl r IHr]; intros Hb.
  - unfold ltb. simpl. destruct (bytes_Compare_cases k k') as [[-> _]|[[-> ->]|[-> _]]]; done.
  - pose proof Hb as (Hl & Hr & Hlt & Hk). simpl. destruct (ltb k k') eqn:Ek.
    + specialize (IHl Hl). destruct (t_set k v l) as [l' u]. simpl in IHl.
      destruct u; simpl; rewrite ?t_balance_leftmost; done.
    + assert (ltb k (leftmost l) = false) as ->.
      { apply ltb_false. right. specialize (Hlt _ (leftmost_in l)).
        apply ltb_false in Ek as [->|Ek]; [done|]. by etrans. }
      destruct (t_set k v r) as [r' u]. destruct u; simpl; rewrite ?t_balance_leftmost; done.
Qed.

Lemma t_set_bst k v t : bst t → bst (t_set k v t).1.
Proof.
  induction t as [k' v'|k' l IHl r IHr]; intros Hb.
  - simpl. destruct (bytes_Compare_cases k k') as [[-> H]|[[-> ->]|[-> H]]]; simpl; [|done|];
      split_and!; try done; intros x; unfold keys_of; simpl; intros ->%list_elem_of_singleton; done.
  - pose proof Hb as (Hl & Hr & Hlt & Hk). simpl. destruct (ltb k k') eqn:Ek.
    + pose proof (t_set_keys k v l) as Hkeys. specialize (IHl Hl).
      destruct (t_set k v l) as [l' u]. simpl in IHl, Hkeys.
      assert (bst (Inner k' l' r)) as Hb'.
      { apply (bst_replace_left k' l); [done|done|]. intros x [->|Hx]%Hkeys; [by apply ltb_true|by apply Hlt]. }
      destruct u; simpl; [done|]. by apply t_balance_bst.
    + pose proof (t_set_leftmost k v r Hr) as Hlm. specialize (IHr Hr).
      destruct (t_set k v r) as [r' u]. simpl in IHr, Hlm. rewrite Hk, Ek in Hlm.
      assert (bst (Inner k' l r')) as Hb' by done.
      destruct u; simpl; [done|]. by apply t_balance_bst.
Qed.

Lemma t_set_map k v t : bst t → tmap (t_set k v t).1 = <[k := v]> (tmap t).
Proof.
  induction t as [k' v'|k' l IHl r IHr]; intros Hb.
  - simpl. destruct (bytes_Compare_cases k k') as [[-> H]|[[-> ->]|[-> H]]]; unfold tmap; simpl.
    + done.
    + by rewrite insert_insert_eq.
    + apply insert_insert_ne. intros <-. by apply bytes_lt_irrefl in H.
  - pose proof Hb as (Hl & Hr & Hlt & Hk). simpl. destruct (ltb k k') eqn:Ek.
    + specialize (IHl Hl). destruct (t_set k v l) as [l' u]. simpl in IHl.
      assert (tmap (Inner k' l' r) = <[k:=v]> (tmap (Inner k' l r))) as Hm.
      { by rewrite !tmap_inner, IHl, insert_union_l. }
      destruct u; simpl; [done|]. by rewrite (tmap_elements _ _ (t_balance_elements _)).
    + specialize (IHr Hr). destruct (t_set k v r) as [r' u]. simpl in IHr.
      assert (tmap (Inner k' l r') = <[k:=v]> (tmap (Inner k' l r))) as Hm.
      { rewrite !tmap_inner, IHr, insert_union_r; [done|]. by eapply not_in_left. }
      destruct u; simpl; [done|]. by rewrite (tmap_elements _ _ (t_balance_elements _)).
Qed.

Lemma t_set_size k v t : tsize (t_set k v t).1 = tsize t + if (t_set k v t).2 then 0 else 1.
Proof.
  assert (∀ t, tsize (t_balance t) = tsize t) as Hbal.
  { intros t'. by rewrite !tsize_elements, t_balance_elements. }
  induction t as [k' v'|k' l IHl r IHr]; simpl.
  - by destruct (bytes_Compare_cases k k') as [[-> H]|[[-> ->]|[-> H]]].
  - destruct (ltb k k').
    + destruct (t_set k v l) as [l' u]. simpl in IHl. destruct u; simpl; rewrite ?Hbal; simpl; lia.
    + destruct (t_set k v r) as [r' u]. simpl in IHr. destruct u; simpl; rewrite ?Hbal; simpl; lia.
Qed.

Lemma t_set_updated k v t : bst t → (t_set k v t).2 = true ↔ k ∈ keys_of t.
Proof.
  induction t as [k' v'|k' l IHl r IHr]; intros Hb.
  - simpl. unfold keys_of. simpl. rewrite list_elem_of_singleton.
    destruct (bytes_Compare_cases k k') as [[-> H]|[[-> ->]|[-> H]]]; simpl; [|done|];
      (split; [done|intros ->; by apply bytes_lt_irrefl in H]).
  - pose proof Hb as (Hl & Hr & Hlt & Hk). simpl. rewrite keys_of_inner. destruct (ltb k k') eqn:Ek.
    + specialize (IHl Hl). pose proof (not_in_right k' l r k Hb Ek) as Hn. apply tmap_None in Hn.
      destruct (t_set k v l) as [l' u]. destruct u; simpl in *; tauto.
    + specialize (IHr Hr). pose proof (not_in_left k' l r k Hb Ek) as Hn. apply tmap_None in Hn.
      destruct (t_set k v r) as [r' u]. destruct u; simpl in *; tauto.
Qed.

(** *** Balance *)

Lemma t_balance_ok k l r :
  balanced l → balanced r → -2 <= theight l - theight r <= 2 →
  let t' := t_balance (Inner k l r) in
  balanced t' ∧ Z.max (theight l) (theight r) <= theight t' <= Z.max (theight l) (theight r) + 1 ∧
  (-1 <= theight l - theight r <= 1 → theight t' = Z.max (theight l) (theight r) + 1).
Proof.
  intros Hl Hr Hd. unfold t_balance. simpl t_bal.
  destruct (Z.ltb_spec 1 (theight l - theight r)) as [H1|H1].
  - destruct l as [|k' a b]; simpl in *; [pose proof (theight_nonneg r); lia|].
    destruct Hl as (Ha & Hb & Hab). destruct (Z.leb_spec 0 (theight a - theight b)) as [H2|H2]; simpl.
    + split_and!; try done; lia.
    + destruct b as [|k'' b1 b2]; simpl in *; [pose proof (theight_nonneg a); lia|].
      destruct Hb as (Hb1 & Hb2 & Hb12). split_and!; try done; lia.
  - destruct (Z.ltb_spec (theight l - theight r) (-1)) as [H2|H2].
    + destruct r as [|k' a b]; simpl in *; [pose proof (theight_nonneg l); lia|].
      destruct Hr as (Ha & Hb & Hab). destruct (Z.leb_spec (theight a - theight b) 0) as [H3|H3]; simpl.
      * split_and!; try done; lia.
      * destruct a as [|k'' b1 b2]; simpl in *; [pose proof (theight_nonneg b); lia|].
        destruct Ha as (Hb1 & Hb2 & Hb12). split_and!; try done; lia.
    + simpl. split_and!; try done; lia.
Qed.

Lemma t_set_balanced k v t :
  balanced t →
  balanced (t_set k v t).1 ∧ theight t <= theight (t_set k v t).1 <= theight t + 1 ∧
  ((t_set k v t).2 = true → theight (t_set k v t).1 = theight t).
Proof.
  induction t as [k' v'|k' l IHl r IHr]; intros Hb.
  - simpl. destruct (bytes_Compare_cases k k') as [[-> H]|[[-> ->]|[-> H]]]; simpl; split_and!; done || lia.
  - destruct Hb as (Hl & Hr & Hd). simpl. destruct (ltb k k').
    + destruct (IHl Hl) as (H1 & H2 & H3). destruct (t_set k v l) as [l' u]. simpl in *.
      destruct u; simpl.
      * rewrite H3 by done. split_and!; try done; lia.
      * destruct (t_balance_ok k' l' r H1 Hr ltac:(lia)) as (G1 & G2 & G3). split_and!; [done|lia|lia|done].
    + destruct (IHr Hr) as (H1 & H2 & H3). destruct (t_set k v r) as [r' u]. simpl in *.
      destruct u; simpl.
      * rewrite H3 by done. split_and!; try done; lia.
      * destruct (t_balance_ok k' l r' Hl H1 ltac:(lia)) as (G1 & G2 & G3). split_and!; [done|lia|lia|done].
Qed.

(** The depth of a balanced tree is at most twice the logarithm of its size. *)
Lemma balanced_depth t : balanced t → 2 ^ theight t <= tsize t * tsize t.
Proof.
  enough (∀ n, ∀ t, theight t <= Z.of_nat n → balanced t → 2 ^ theight t <= tsize t * tsize t) as Hn.
  { apply (Hn (Z.to_nat (theight t))). pose proof (theight_nonneg t). lia. }
  clear t. induction n as [|n IH]; intros t Hh Hb.
  { destruct t as [|k l r]; simpl in *; [done|]. pose proof (theight_nonneg l). pose proof (theight_nonneg r). lia. }
  destruct t as [|k l r]; [done|]. destruct Hb as (Hl & Hr & Hd). simpl in Hh.
  pose proof (theight_nonneg l) as Nl. pose proof (theight_nonneg r) as Nr.
  pose proof (IH l ltac:(lia) Hl) as Il. pose proof (IH r ltac:(lia) Hr) as Ir.
  pose proof (tsize_pos l) as Pl. pose proof (tsize_pos r) as Pr. simpl.
  rewrite Z.pow_add_r by lia. change (2 ^ 1) with 2.
  assert (2 ^ (Z.max (theight l) (theight r)) <= 2 * 2 ^ (Z.min (theight l) (theight r))) as Hmm.
  { rewrite <-(Z.pow_succ_r 2) by lia. apply Z.pow_le_mono_r; lia. }
  assert (2 ^ Z.min (theight l) (theight r) <= tsize l * tsize l ∧
          2 ^ Z.min (theight l) (theight r) <= tsize r * tsize r) as [M1 M2].
  { split; etrans; [|exact Il| |exact Ir]; apply Z.pow_le_mono_r; lia. }
  assert (2 ^ Z.max (theight l) (theight r) <= tsize l * tsize l ∨
          2 ^ Z.max (theight l) (theight r) <= tsize r * tsize r) as HM.
  { destruct (Z.max_spec (theight l) (theight r)) as [[? ->]|[? ->]]; [by right|by left]. }
  set (M := 2 ^ Z.max _ _) in *. set (m := 2 ^ Z.min _ _) in *. clearbody M m.
  nia.
Qed.

(** *** Lookup *)

(** The number of keys below [k]. *)
Definition rank (k : bytes) (t : tree) : Z :=
  Z.of_nat (length (filter (λ kv : bytes * bytes, ltb kv.1 k = true) (elements t))).

Lemma rank_inner k k' l r : rank k (Inner k' l r) = rank k l + rank k r.
Proof. unfold rank. simpl. rewrite list.filter_app, length_app. lia. Qed.

Lemma rank_zero k t : (∀ x, x ∈ keys_of t → ltb x k = false) → rank k t = 0.
Proof.
  unfold rank, keys_of. intros H. induction (elements t) as [|kv l IH]; [done|].
  rewrite filter_cons_False.
  - apply IH. intros x Hx. apply H. set_solver.
  - rewrite H; [done|set_solver].
Qed.

Lemma rank_full k t : (∀ x, x ∈ keys_of t → ltb x k = true) → rank k t = tsize t.
Proof.
  unfold rank, keys_of. intros H. rewrite tsize_elements. do 2 f_equal. 
  induction (elements t) as [|kv l IH]; [done|]. rewrite filter_cons_True.
  - f_equal. apply IH. intros x Hx. apply H. set_solver.
  - apply H. set_solver.
Qed.

Lemma t_get_spec k t : bst t → t_get k t = (rank k t, tmap t !! k).
Proof.
  induction t as [k' v'|k' l IHl r IHr]; intros Hb.
  - simpl. unfold rank, tmap. simpl. unfold filter, list_filter, ltb. simpl.
    destruct (bytes_Compare_cases k' k) as [[E H]|[[E ->]|[E H]]]; rewrite E; simpl.
    + rewrite lookup_insert_ne, lookup_empty; [done|]. intros ->. by apply bytes_lt_irrefl in H.
    + by rewrite lookup_insert_eq.
    + rewrite lookup_insert_ne, lookup_empty; [done|]. intros ->. by apply bytes_lt_irrefl in H.
  - pose proof Hb as (Hl & Hr & Hlt & Hk). simpl. rewrite rank_inner, tmap_inner.
    destruct (ltb k k') eqn:Ek.
    + rewrite (IHl Hl), (rank_zero k r), Z.add_0_r.
      * rewrite lookup_union_l; [done|]. by eapply not_in_right.
      * intros x Hx. apply (inner_sides k' l r x Hb) in Hx. apply ltb_false. right.
        apply ltb_true in Ek. destruct Hx as [->|Hx]; [done|]. by etrans.
    + rewrite (IHr Hr), (rank_full k l).
      * rewrite lookup_union_r; [f_equal; lia|]. by eapply not_in_left.
      * intros x Hx. apply ltb_true. apply Hlt in Hx. apply ltb_false in Ek as [->|Ek]; [done|]. by etrans.
Qed.

(** *** Removal *)

(** What [t_remove] promises: the remaining tree holds the other keys, stays a
    balanced search tree, and its leftmost key is the announced one. *)
Definition remove_ok (k : bytes) (t : tree) (res : removal) : Prop :=
  match res with
  | NotFound => tmap t !! k = None
  | Removed None nk v => t = Leaf k v ∧ nk = None
  | Removed (Some t') nk v =>
      tmap t !! k = Some v ∧ tmap t' = delete k (tmap t) ∧ bst t' ∧
      leftmost t' = default (leftmost t) nk ∧ (∀ x, x ∈ keys_of t' → x ∈ keys_of t) ∧
      tsize t' = tsize t - 1 ∧
      (balanced t → balanced t' ∧ theight t - 1 <= theight t' <= theight t)
  end.

Lemma t_balance_size t : tsize (t_balance t) = tsize t.
Proof. by rewrite !tsize_elements, t_balance_elements. Qed.

Lemma all_lt_keys t t' k : (∀ x, x ∈ keys_of t' → x ∈ keys_of t) → all_lt t k → all_lt t' k.
Proof. intros H1 H2 x Hx. by apply H2, H1. Qed.

Lemma t_remove_spec k t : bst t → remove_ok k t (t_remove k t).
Proof.
  induction t as [k' v'|k' l IHl r IHr]; intros Hb.
  - simpl. destruct (String.eqb_spec k k') as [->|Hne]; [done|]. unfold remove_ok, tmap. simpl.
    by rewrite lookup_insert_ne, lookup_empty.
  - pose proof Hb as (Hl & Hr & Hlt & Hk). simpl. destruct (ltb k k') eqn:Ek.
    + pose proof (not_in_right _ _ _ _ Hb Ek) as Hnr. specialize (IHl Hl).
      destruct (t_remove k l) as [|[l'|] nk v]; simpl in IHl |- *.
      * rewrite tmap_inner. by apply lookup_union_None.
      * destruct IHl as (H1 & H2 & H3 & H4 & H5 & H6 & H7). rewrite t_balance_leftmost, t_balance_size.
        assert (tmap (t_balance (Inner k' l' r)) = delete k (tmap (Inner k' l r))) as Hm.
        { rewrite (tmap_elements _ _ (t_balance_elements _)), !tmap_inner, H2, delete_union.
          by rewrite (delete_id (tmap r)). }
        split_and!; [by rewrite tmap_inner; apply lookup_union_Some_l|done| |by simpl| |simpl; lia|].
        -- apply t_balance_bst. split_and!; [done|done| |done]. by eapply all_lt_keys.
        -- intros x. rewrite (elements_keys _ _ (t_balance_elements _)), !keys_of_inner. naive_solver.
        -- intros (Bl & Br & Bd). destruct (H7 Bl) as [B1 B2]. simpl in Bd |- *.
           destruct (t_balance_ok k' l' r B1 Br ltac:(lia)) as (G1 & G2 & G3). split; [done|].
           destruct (decide (-1 <= theight l' - theight r <= 1)) as [Hd|Hd]; [rewrite G3 by done; lia|lia].
      * destruct IHl as [-> ->]. simpl. split_and!.
        -- rewrite tmap_inner. apply lookup_union_Some_l. unfold tmap. simpl. by rewrite lookup_insert_eq.
        -- rewrite tmap_inner, delete_union, (delete_id (tmap r)) by done.
           unfold tmap at 2. simpl. rewrite delete_insert_eq, delete_empty. by rewrite (left_id_L ∅ (∪)).
        -- done.
        -- done.
        -- intros x Hx. rewrite keys_of_inner. by right.
        -- simpl. lia.
        -- intros (Bl & Br & Bd). split; [done|]. simpl in *. pose proof (theight_nonneg r). lia.
    + pose proof (not_in_left _ _ _ _ Hb Ek) as Hnl. specialize (IHr Hr).
      destruct (t_remove k r) as [|[r'|] nk v]; simpl in IHr |- *.
      * rewrite tmap_inner. by apply lookup_union_None.
      * destruct IHr as (H1 & H2 & H3 & H4 & H5 & H6 & H7). rewrite t_balance_leftmost, t_balance_size.
        assert (tmap (t_balance (Inner (default k' nk) l r')) = delete k (tmap (Inner k' l r))) as Hm.
        { rewrite (tmap_elements _ _ (t_balance_elements _)), !tmap_inner, H2, delete_union.
          by rewrite (delete_id (tmap l)). }
        split_and!; [|done| |by simpl| |simpl; lia|].
        -- rewrite tmap_inner. by rewrite lookup_union_r.
        -- apply t_balance_bst. rewrite Hk in H4. split_and!; [done|done| |done].
           rewrite <-H4. intros x Hx. apply Hlt in Hx.
           assert (leftmost r' ∈ keys_of r) as Hin by apply H5, leftmost_in.
           apply (inner_sides k' l r _ Hb) in Hin as [->|Hin]; [done|]. by etrans.
        -- intros x. rewrite (elements_keys _ _ (t_balance_elements _)), !keys_of_inner. naive_solver.
        -- intros (Bl & Br & Bd). destruct (H7 Br) as [B1 B2]. simpl in Bd |- *.
           destruct (t_balance_ok (default k' nk) l r' Bl B1 ltac:(lia)) as (G1 & G2 & G3). split; [done|].
           destruct (decide (-1 <= theight l - theight r' <= 1)) as [Hd|Hd]; [rewrite G3 by done; lia|lia].
      * destruct IHr as [-> ->]. simpl. split_and!.
        -- rewrite tmap_inner, lookup_union_r by done. unfold tmap. simpl. by rewrite lookup_insert_eq.
        -- rewrite tmap_inner, delete_union, (delete_id (tmap l)) by done.
           unfold tmap at 3. simpl. rewrite delete_insert_eq, delete_empty. by rewrite (right_id_L ∅ (∪)).
        -- done.
        -- done.
        -- intros x Hx. rewrite keys_of_inner. by left.
        -- simpl. lia.
        -- intros (Bl & Br & Bd). split; [done|]. simpl in *. pose proof (theight_nonneg l). lia.
Qed.
