(* ===== verification/Mavl.v ===== *)
(** The Merkle-AVL tree of the state store: [system/store/mavl/db/node.go] and the
    tree operations of [tree.go], with nodes that are loaded from the database on
    demand, and their refinement to [MavlSpec].

    The model is the default configuration (the [enableMavlPrefix], [enableMVCC],
    [enableMavlPrune] and [enableMemTree] options off).  The node cache and the
    orphan list of [nodeDB] are not observable (nodes are copied before they are
    changed and orphans are never deleted) and are left out. *)

From Stdlib Require Import Ascii String.
From S2P Require Import Prelude MavlSpec.
Local Open Scope Z_scope.

(** ** Messages and nodes *)

Record LeafNode := { ln_Key : bytes; ln_Value : bytes; ln_Height : Z; ln_Size : Z }.
Record InnerNode := { in_LeftHash : bytes; in_RightHash : bytes; in_Height : Z; in_Size : Z }.
Record StoreNode := {
  sn_Key : bytes; sn_Value : bytes; sn_LeftHash : bytes; sn_RightHash : bytes;
  sn_Height : Z; sn_Size : Z }.

Record MAVLProof := { mp_LeafHash : bytes; mp_InnerNodes : list InnerNode; mp_RootHash : bytes }.

(** [type Node struct]; [None] is nil. *)
Inductive node := mkNode {
  key : bytes;
  value : bytes;
  height : Z;
  size : Z;
  hash : option bytes;
  leftHash : option bytes;
  leftNode : option node;
  rightHash : option bytes;
  rightNode : option node;
  persisted : bool
}.

Definition sha256Len : nat := 32.

(** The wire formats and the hash function the tree uses. *)
Class MavlEnv := {
  env_leaf :: Codec LeafNode;
  env_inner :: Codec InnerNode;
  env_store :: Codec StoreNode;
  env_proof :: Codec MAVLProof;
  env_store_nonempty : ∀ n : StoreNode, sn_Size n ≠ 0 → Encode n ≠ "";
  Sha256 : bytes → bytes;
  Sha256_length : ∀ b, String.length (Sha256 b) = sha256Len
}.

(** An empty slice read back from a message is nil. *)
Definition nonnil (h : bytes) : option bytes := if String.eqb h "" then None else Some h.

Section Tree.
Context {ENV : MavlEnv}.

Definition LeafNode_Hash (n : LeafNode) : bytes := Sha256 (Encode n).

(** Child hashes longer than a digest are cut to their last 32 bytes. *)
Definition trim32 (h : bytes) : bytes :=
  if (sha256Len <? String.length h)%nat then str_last sha256Len h else h.

Definition InnerNode_Hash (n : InnerNode) : bytes :=
  Sha256 (Encode {| in_LeftHash := trim32 (in_LeftHash n); in_RightHash := trim32 (in_RightHash n);
                    in_Height := in_Height n; in_Size := in_Size n |}).

Definition NewNode (k v : bytes) : node := mkNode k v 0 1 None None None None None false.

Definition MakeNode (buf : bytes) : option node :=
  match Decode buf with
  | None => None
  | Some sn =>
      Some (if sn_Height sn =? 0
            then mkNode (sn_Key sn) (sn_Value sn) (sn_Height sn) (sn_Size sn) None None None None None false
            else mkNode (sn_Key sn) "" (sn_Height sn) (sn_Size sn) None
                   (nonnil (sn_LeftHash sn)) None (nonnil (sn_RightHash sn)) None false)
  end.

Definition copy_ (n : node) : outcome node :=
  if height n =? 0 then Panic
  else Ret (mkNode (key n) "" (height n) (size n) None (leftHash n) (leftNode n)
              (rightHash n) (rightNode n) false).

(** [nodeDB.GetNode]: a stored node comes back with its hash, marked persisted. *)
Definition GetNode (db : gmap bytes bytes) (h : bytes) : outcome node :=
  match db !! h with
  | None => Err ErrNodeNotExist
  | Some buf =>
      if String.eqb buf "" then Err ErrNodeNotExist
      else match MakeNode buf with
           | None => Panic
           | Some n => Ret (mkNode (key n) (value n) (height n) (size n) (Some h) (leftHash n)
                              (leftNode n) (rightHash n) (rightNode n) true)
           end
  end.

(** A child: in memory, or in the database under its hash (absent: panic). *)
Definition child (db : gmap bytes bytes) (h : option bytes) (n : option node) : outcome node :=
  match n with
  | Some n => Ret n
  | None => match GetNode db (default "" h) with Ret n => Ret n | _ => Panic end
  end.

Section WithDB.
Context (db : gmap bytes bytes).

Definition getLeftNode (n : node) : outcome node := child db (leftHash n) (leftNode n).
Definition getRightNode (n : node) : outcome node := child db (rightHash n) (rightNode n).

Fixpoint has (fuel : nat) (n : node) (k : bytes) : outcome bool :=
  match fuel with
  | O => Panic
  | S fuel =>
      if String.eqb (key n) k then Ret true
      else if height n =? 0 then Ret false
      else if bytes_Compare k (key n) <? 0 then l ← getLeftNode n; has fuel l k
      else r ← getRightNode n; has fuel r k
  end.

Fixpoint get (fuel : nat) (n : node) (k : bytes) : outcome (Z * option bytes) :=
  match fuel with
  | O => Panic
  | S fuel =>
      if height n =? 0 then
        let cmp := bytes_Compare (key n) k in
        if cmp =? 0 then Ret (0, Some (value n))
        else if cmp =? -1 then Ret (1, None)
        else Ret (0, None)
      else if bytes_Compare k (key n) <? 0 then l ← getLeftNode n; get fuel l k
      else
        r ← getRightNode n;
        '(index, v) ← get fuel r k;
        Ret (index +₃₂ (size n -₃₂ size r), v)
  end.

Fixpoint getHash (fuel : nat) (n : node) (k : bytes) : outcome (Z * option (option bytes)) :=
  match fuel with
  | O => Panic
  | S fuel =>
      if height n =? 0 then
        let cmp := bytes_Compare (key n) k in
        if cmp =? 0 then Ret (0, Some (hash n))
        else if cmp =? -1 then Ret (1, None)
        else Ret (0, None)
      else if bytes_Compare k (key n) <? 0 then l ← getLeftNode n; getHash fuel l k
      else
        r ← getRightNode n;
        '(index, v) ← getHash fuel r k;
        Ret (index +₃₂ (size n -₃₂ size r), v)
  end.

Fixpoint getByIndex (fuel : nat) (n : node) (index : Z) : outcome (bytes * bytes) :=
  match fuel with
  | O => Panic
  | S fuel =>
      if height n =? 0 then
        if index =? 0 then Ret (key n, value n) else Panic
      else
        l ← getLeftNode n;
        if index <? size l then getByIndex fuel l index
        else r ← getRightNode n; getByIndex fuel r (index -₃₂ size l)
  end.

Definition set_left (n : node) (h : option bytes) (c : option node) : node :=
  mkNode (key n) (value n) (height n) (size n) (hash n) h c (rightHash n) (rightNode n) (persisted n).
Definition set_right (n : node) (h : option bytes) (c : option node) : node :=
  mkNode (key n) (value n) (height n) (size n) (hash n) (leftHash n) (leftNode n) h c (persisted n).
Definition set_key (n : node) (k : bytes) : node :=
  mkNode k (value n) (height n) (size n) (hash n) (leftHash n) (leftNode n) (rightHash n)
    (rightNode n) (persisted n).

Definition calcHeightAndSize (n : node) : outcome node :=
  l ← getLeftNode n;
  r ← getRightNode n;
  Ret (mkNode (key n) (value n) (Z.max (height l) (height r) +₃₂ 1) (size l +₃₂ size r) (hash n)
         (leftHash n) (leftNode n) (rightHash n) (rightNode n) (persisted n)).

Definition calcBalance (n : node) : outcome Z :=
  l ← getLeftNode n;
  r ← getRightNode n;
  Ret (height l - height r).

Definition rotateRight (n : node) : outcome node :=
  n ← copy_ n;
  l ← getLeftNode n;
  l' ← copy_ l;
  let n1 := set_left n (rightHash l') (rightNode l') in
  n2 ← calcHeightAndSize n1;
  calcHeightAndSize (set_right l' (hash n) (Some n2)).

Definition rotateLeft (n : node) : outcome node :=
  n ← copy_ n;
  r ← getRightNode n;
  r' ← copy_ r;
  let n1 := set_right n (leftHash r') (leftNode r') in
  n2 ← calcHeightAndSize n1;
  calcHeightAndSize (set_left r' (hash n) (Some n2)).

Definition balance (n : node) : outcome node :=
  if persisted n then Panic
  else
    bal ← calcBalance n;
    if 1 <? bal then
      left_ ← getLeftNode n;
      lb ← calcBalance left_;
      if 0 <=? lb then rotateRight n
      else l' ← rotateLeft left_; rotateRight (set_left n None (Some l'))
    else if bal <? -1 then
      right_ ← getRightNode n;
      rb ← calcBalance right_;
      if rb <=? 0 then rotateLeft n
      else r' ← rotateRight right_; rotateLeft (set_right n None (Some r'))
    else Ret n.

(** The end of [set] on an inner node, after the child was replaced. *)
Definition set_finish (n : node) (updated : bool) : outcome (node * bool) :=
  if updated then Ret (n, updated)
  else
    n ← calcHeightAndSize n;
    n ← balance n;
    Ret (n, updated).

Fixpoint set (fuel : nat) (n : node) (k v : bytes) : outcome (node * bool) :=
  match fuel with
  | O => Panic
  | S fuel =>
      if height n =? 0 then
        let cmp := bytes_Compare k (key n) in
        if cmp <? 0 then
          Ret (mkNode (key n) "" 1 2 None None (Some (NewNode k v)) None (Some n) false, false)
        else if cmp =? 0 then Ret (NewNode k v, true)
        else Ret (mkNode k "" 1 2 None None (Some n) None (Some (NewNode k v)) false, false)
      else
        n ← copy_ n;
        (if bytes_Compare k (key n) <? 0 then
           l ← getLeftNode n;
           '(l', updated) ← set fuel l k v;
           set_finish (set_left n None (Some l')) updated
         else
           r ← getRightNode n;
           '(r', updated) ← set fuel r k v;
           set_finish (set_right n None (Some r')) updated)
  end.

(** [remove]: the new hash and node that replace [n], the new leftmost key if it
    changed, the removed value ([None]: not removed). *)
Definition removed_ref : Type := option bytes * option node * option bytes * option bytes.

Fixpoint remove (fuel : nat) (n : node) (k : bytes) : outcome removed_ref :=
  match fuel with
  | O => Panic
  | S fuel =>
      if height n =? 0 then
        if String.eqb k (key n) then Ret (None, None, None, Some (value n))
        else Ret (hash n, Some n, None, None)
      else if bytes_Compare k (key n) <? 0 then
        l ← getLeftNode n;
        '(newLeftHash, newLeftNode, newKey, v) ← remove fuel l k;
        match v, newLeftHash, newLeftNode with
        | None, _, _ => Ret (hash n, Some n, None, None)
        | Some _, None, None => Ret (rightHash n, rightNode n, Some (key n), v)
        | Some _, _, _ =>
            n1 ← copy_ n;
            n2 ← calcHeightAndSize (set_left n1 newLeftHash newLeftNode);
            n3 ← balance n2;
            Ret (hash n3, Some n3, newKey, v)
        end
      else
        r ← getRightNode n;
        '(newRightHash, newRightNode, newKey, v) ← remove fuel r k;
        match v, newRightHash, newRightNode with
        | None, _, _ => Ret (hash n, Some n, None, None)
        | Some _, None, None => Ret (leftHash n, leftNode n, None, v)
        | Some _, _, _ =>
            n1 ← copy_ n;
            let n2 := set_right n1 newRightHash newRightNode in
            let n3 := match newKey with Some nk => set_key n2 nk | None => n2 end in
            n4 ← calcHeightAndSize n3;
            n5 ← balance n4;
            Ret (hash n5, Some n5, None, v)
        end
  end.
End WithDB.

(** ** The node represents a tree *)

(** The hash of a tree, from the leaves up. *)
Fixpoint thash (t : tree) : bytes :=
  match t with
  | Leaf k v => LeafNode_Hash {| ln_Key := k; ln_Value := v; ln_Height := 0; ln_Size := 1 |}
  | Inner k l r =>
      InnerNode_Hash {| in_LeftHash := thash l; in_RightHash := thash r;
                        in_Height := theight (Inner k l r); in_Size := tsize (Inner k l r) |}
  end.

(** The record the database keeps for the root of a tree. *)
Definition store_of (t : tree) : StoreNode :=
  match t with
  | Leaf k v => {| sn_Key := k; sn_Value := v; sn_LeftHash := ""; sn_RightHash := "";
                   sn_Height := 0; sn_Size := 1 |}
  | Inner k l r =>
      {| sn_Key := k; sn_Value := ""; sn_LeftHash := thash l; sn_RightHash := thash r;
         sn_Height := theight (Inner k l r); sn_Size := tsize (Inner k l r) |}
  end.

(** Every node of the tree is in the database under its hash. *)
Fixpoint stored (db : gmap bytes bytes) (t : tree) : Prop :=
  db !! thash t = Some (Encode (store_of t)) ∧
  match t with Leaf _ _ => True | Inner _ l r => stored db l ∧ stored db r end.

Definition hash_ok (n : node) (t : tree) : Prop := hash n = None ∨ hash n = Some (thash t).

Definition kid_hashed (c : option node) : Prop :=
  match c with None => True | Some c => hash c ≠ None end.

(** [rep db n t]: node [n] over database [db] stands for [t].  A child is either
    in memory, or known by its hash and stored; below a hashed node everything in
    memory is hashed; a persisted node is stored and holds no child in memory. *)
Fixpoint rep (db : gmap bytes bytes) (n : node) (t : tree) {struct t} : Prop :=
  height n = theight t ∧ size n = tsize t ∧ hash_ok n t ∧
  (persisted n = true →
     hash n = Some (thash t) ∧ stored db t ∧ leftNode n = None ∧ rightNode n = None) ∧
  match t with
  | Leaf k v => key n = k ∧ value n = v ∧ leftNode n = None ∧ rightNode n = None
  | Inner k l r =>
      key n = k ∧
      (hash n ≠ None →
         leftHash n = Some (thash l) ∧ rightHash n = Some (thash r) ∧
         kid_hashed (leftNode n) ∧ kid_hashed (rightNode n)) ∧
      match leftNode n with None => leftHash n = Some (thash l) ∧ stored db l | Some c => rep db c l end ∧
      match rightNode n with None => rightHash n = Some (thash r) ∧ stored db r | Some c => rep db c r end
  end.

Definition ref (db : gmap bytes bytes) (h : option bytes) (c : option node) (t : tree) : Prop :=
  match c with None => h = Some (thash t) ∧ stored db t | Some c => rep db c t end.

(** The children of a node, whatever its height and size fields say. *)
Definition links (db : gmap bytes bytes) (n : node) (k : bytes) (l r : tree) : Prop :=
  key n = k ∧ height n ≠ 0 ∧ ref db (leftHash n) (leftNode n) l ∧ ref db (rightHash n) (rightNode n) r.

(** A node that was not hashed or saved since it was made. *)
Definition fresh (n : node) : Prop := hash n = None ∧ persisted n = false.

Section Refine.
Context (db : gmap bytes bytes).

Lemma thash_length t : String.length (thash t) = sha256Len.
Proof using Type. destruct t; apply Sha256_length. Qed.

Lemma thash_nonempty t : thash t ≠ "".
Proof using Type. intros E. pose proof (thash_length t) as H. by rewrite E in H. Qed.

Lemma trim32_id h : String.length h = sha256Len → trim32 h = h.
Proof using Type. unfold trim32. intros ->. by rewrite Nat.ltb_irrefl. Qed.

Lemma theight_inner k l r : theight (Inner k l r) ≠ 0.
Proof using Type. pose proof (theight_nonneg l). pose proof (theight_nonneg r). simpl. lia. Qed.

Lemma stored_lookup t : stored db t → db !! thash t = Some (Encode (store_of t)).
Proof using Type. destruct t; by intros [? _]. Qed.

Lemma nonnil_thash t : nonnil (thash t) = Some (thash t).
Proof using Type.
  unfold nonnil. destruct (String.eqb_spec (thash t) "") as [E|E]; [|done].
  by apply thash_nonempty in E.
Qed.

(** A stored tree can be loaded by its hash. *)
Lemma GetNode_run t :
  stored db t → ∃ n, GetNode db (thash t) = Ret n ∧ rep db n t ∧ persisted n = true.
Proof using Type.
  intros Hs. unfold GetNode. rewrite (stored_lookup _ Hs).
  destruct (String.eqb_spec (Encode (store_of t)) "") as [E|_]; [|].
  { apply env_store_nonempty in E; [done|]. pose proof (tsize_pos t). destruct t; simpl in *; lia. }
  unfold MakeNode. rewrite Decode_Encode. eexists. split; [done|]. split; [|done].
  destruct t as [k v|k l r].
  - simpl. split_and!; try done. by right.
  - unfold store_of, sn_Height. rewrite (proj2 (Z.eqb_neq _ _)) by apply theight_inner.
    cbn [key value height size leftHash leftNode rightHash rightNode sn_Key sn_Size sn_LeftHash sn_RightHash].
    rewrite !nonnil_thash. destruct Hs as (H1 & H2 & H3).
    cbn [rep key value height size hash leftHash leftNode rightHash rightNode persisted].
    split_and!; try done. by right.
Qed.

Lemma child_run h c t : ref db h c t → ∃ n, child db h c = Ret n ∧ rep db n t.
Proof using Type.
  destruct c as [c|]; simpl; [by exists c|]. intros [-> Hs]. simpl.
  destruct (GetNode_run t Hs) as (n & -> & Hr & _). by exists n.
Qed.

Lemma rep_fields n t : rep db n t → height n = theight t ∧ size n = tsize t.
Proof using Type. destruct t; cbn [rep]; intros (H1 & H2 & _); done. Qed.

Lemma rep_leaf_fields n k v : rep db n (Leaf k v) → height n = 0 ∧ key n = k ∧ value n = v.
Proof using Type. cbn [rep]. intros (H1 & H2 & H3 & H4 & H5 & H6 & _). done. Qed.

Lemma rep_links n k l r : rep db n (Inner k l r) → links db n k l r.
Proof using Type.
  cbn [rep].   intros (H1 & H2 & H3 & H4 & H5 & H6 & H7 & H8). split; [done|]. split; [|done].
  rewrite H1. apply theight_inner.
Qed.

Lemma links_children n k l r :
  links db n k l r →
  (∃ nl, getLeftNode db n = Ret nl ∧ rep db nl l) ∧ (∃ nr, getRightNode db n = Ret nr ∧ rep db nr r).
Proof using Type. intros (_ & _ & Hl & Hr). split; by apply child_run. Qed.

Lemma copy_run n k l r :
  links db n k l r → ∃ n', copy_ n = Ret n' ∧ links db n' k l r ∧ fresh n' ∧
    height n' = height n ∧ size n' = size n.
Proof using Type.
  intros (Hk & Hh & Hl & Hr). unfold copy_. rewrite (proj2 (Z.eqb_neq _ _)) by done.
  by eexists.
Qed.

(** A fresh inner node with the right children, height and size. *)
Lemma rep_intro n k l r :
  links db n k l r → fresh n → height n = theight (Inner k l r) → size n = tsize (Inner k l r) →
  rep db n (Inner k l r).
Proof using Type.
  intros (Hk & Hh & Hl & Hr) [Hf1 Hf2] H1 H2. cbn [rep]. unfold hash_ok. rewrite Hf1, Hf2.
  split_and!; try done. by left.
Qed.

Lemma calc_run n k l r :
  links db n k l r → fresh n → tsize l + tsize r < 2 ^ 31 →
  ∃ n', calcHeightAndSize db n = Ret n' ∧ rep db n' (Inner k l r) ∧ fresh n'.
Proof using Type.
  intros Hn Hf Hb. destruct (links_children _ _ _ _ Hn) as [(nl & El & Rl) (nr & Er & Rr)].
  unfold calcHeightAndSize. rewrite El, Er. simpl. eexists. split; [done|]. split; [|done].
  destruct (rep_fields _ _ Rl) as [Hl1 Hl2], (rep_fields _ _ Rr) as [Hr1 Hr2].
  pose proof (theight_nonneg l). pose proof (theight_nonneg r).
  pose proof (theight_lt_size l). pose proof (theight_lt_size r).
  assert (Z.max (height nl) (height nr) +₃₂ 1 = theight (Inner k l r)) as E1.
  { rewrite Hl1, Hr1. simpl. apply wrap32_id. unfold in32. lia. }
  assert (size nl +₃₂ size nr = tsize (Inner k l r)) as E2.
  { rewrite Hl2, Hr2. simpl. apply wrap32_id. unfold in32. lia. }
  destruct Hn as (Hk & Hh & Hl & Hr).
  apply rep_intro; [|done|done|done]. rewrite E1. split; [done|]. split; [|done]. apply theight_inner.
Qed.

Lemma calcBalance_run n k l r : links db n k l r → calcBalance db n = Ret (theight l - theight r).
Proof using Type.
  intros Hn. destruct (links_children _ _ _ _ Hn) as [(nl & El & Rl) (nr & Er & Rr)].
  unfold calcBalance. rewrite El, Er. simpl.
  destruct (rep_fields _ _ Rl) as [-> _], (rep_fields _ _ Rr) as [-> _]. done.
Qed.

Lemma rotateRight_run n k k' a b c :
  links db n k (Inner k' a b) c → tsize a + tsize b + tsize c < 2 ^ 31 →
  ∃ n', rotateRight db n = Ret n' ∧ rep db n' (Inner k' a (Inner k b c)).
Proof using Type.
  intros Hn Hs. pose proof (tsize_pos a) as Pa. unfold rotateRight.
  destruct (copy_run n _ _ _ Hn) as (n1 & -> & Hn1 & Hf1 & _). cbn [mbind outcome_bind].
  destruct (links_children _ _ _ _ Hn1) as [(nl & El & Rl) _]. rewrite El. cbn [mbind outcome_bind].
  destruct (copy_run nl _ _ _ (rep_links _ _ _ _ Rl)) as (l1 & -> & Hl1 & Hf2 & _). cbn [mbind outcome_bind].
  destruct Hn1 as (Hk1 & Hh1 & HL & HR), Hl1 as (Hk2 & Hh2 & HA & HB).
  destruct (calc_run (set_left n1 (rightHash l1) (rightNode l1)) k b c) as (n2 & -> & R2 & _);
    [done|done|lia|]. cbn [mbind outcome_bind].
  destruct (calc_run (set_right l1 (hash n1) (Some n2)) k' a (Inner k b c)) as (n3 & -> & R3 & _);
    [done|done|simpl; lia|]. by exists n3.
Qed.

Lemma rotateLeft_run n k k' a b c :
  links db n k a (Inner k' b c) → tsize a + tsize b + tsize c < 2 ^ 31 →
  ∃ n', rotateLeft db n = Ret n' ∧ rep db n' (Inner k' (Inner k a b) c).
Proof using Type.
  intros Hn Hs. pose proof (tsize_pos c) as Pc. unfold rotateLeft.
  destruct (copy_run n _ _ _ Hn) as (n1 & -> & Hn1 & Hf1 & _). cbn [mbind outcome_bind].
  destruct (links_children _ _ _ _ Hn1) as [_ (nr & Er & Rr)]. rewrite Er. cbn [mbind outcome_bind].
  destruct (copy_run nr _ _ _ (rep_links _ _ _ _ Rr)) as (r1 & -> & Hr1 & Hf2 & _). cbn [mbind outcome_bind].
  destruct Hn1 as (Hk1 & Hh1 & HL & HR), Hr1 as (Hk2 & Hh2 & HA & HB).
  destruct (calc_run (set_right n1 (leftHash r1) (leftNode r1)) k a b) as (n2 & -> & R2 & _);
    [done|done|lia|]. cbn [mbind outcome_bind].
  destruct (calc_run (set_left r1 (hash n1) (Some n2)) k' (Inner k a b) c) as (n3 & -> & R3 & _);
    [done|done|simpl; lia|]. by exists n3.
Qed.

Lemma balance_run n k l r :
  rep db n (Inner k l r) → fresh n → tsize l + tsize r < 2 ^ 31 →
  ∃ n', balance db n = Ret n' ∧ rep db n' (t_balance (Inner k l r)).
Proof using Type.
  intros Hn [_ Hp] Hs. pose proof (rep_links _ _ _ _ Hn) as Hlk. unfold balance, t_balance. rewrite Hp.
  rewrite (calcBalance_run _ _ _ _ Hlk). cbn [mbind outcome_bind t_bal].
  destruct (links_children _ _ _ _ Hlk) as [(nl & El & Rl) (nr & Er & Rr)].
  pose proof (theight_nonneg l). pose proof (theight_nonneg r).
  destruct (Z.ltb_spec 1 (theight l - theight r)) as [G1|G1].
  - destruct l as [|k' a b]; [simpl in *; lia|]. rewrite El. cbn [mbind outcome_bind t_bal].
    rewrite (calcBalance_run _ _ _ _ (rep_links _ _ _ _ Rl)). cbn [mbind outcome_bind].
    destruct (Z.leb_spec 0 (theight a - theight b)) as [G2|G2].
    + apply (rotateRight_run n k k' a b r); [done|simpl in *; lia].
    + destruct b as [|k'' b1 b2]; [simpl in *; pose proof (theight_nonneg a); lia|]. simpl in Hs.
      pose proof (tsize_pos r).
      destruct (rotateLeft_run nl k' k'' a b1 b2 (rep_links _ _ _ _ Rl) ltac:(lia)) as (l' & -> & Rl').
      apply (rotateRight_run _ k k'' (Inner k' a b1) b2 r); [|simpl; lia].
      destruct Hlk as (Hk & Hh & _ & HR). done.
  - destruct (Z.ltb_spec (theight l - theight r) (-1)) as [G2|G2]; [|by exists n].
    destruct r as [|k' a b]; [simpl in *; lia|]. rewrite Er. cbn [mbind outcome_bind t_bal].
    rewrite (calcBalance_run _ _ _ _ (rep_links _ _ _ _ Rr)). cbn [mbind outcome_bind].
    destruct (Z.leb_spec (theight a - theight b) 0) as [G3|G3].
    + apply (rotateLeft_run n k k' l a b); [done|simpl in *; lia].
    + destruct a as [|k'' b1 b2]; [simpl in *; pose proof (theight_nonneg b); lia|]. simpl in Hs.
      pose proof (tsize_pos l).
      destruct (rotateRight_run nr k' k'' b1 b2 b (rep_links _ _ _ _ Rr) ltac:(lia)) as (r' & -> & Rr').
      apply (rotateLeft_run _ k k'' l b1 (Inner k' b2 b)); [|simpl; lia].
      destruct Hlk as (Hk & Hh & HL & _). done.
Qed.
Ltac step := cbn [mbind outcome_bind].

Lemma get_run k t : ∀ fuel n,
  rep db n t → (Z.to_nat (theight t) < fuel)%nat → tsize t < 2 ^ 31 →
  get db fuel n k = Ret (t_get k t) ∧ 0 <= (t_get k t).1 <= tsize t.
Proof using Type.
  induction t as [k' v'|k' l IHl r IHr]; intros [|fuel] n Hn Hf Hs; try lia.
  - apply rep_leaf_fields in Hn as (Hh & <- & <-). simpl. rewrite Hh. simpl.
    destruct (_ =? 0); [simpl; split; [done|lia]|]. destruct (_ =? -1); simpl; (split; [done|lia]).
  - pose proof (rep_links _ _ _ _ Hn) as Hlk. pose proof (rep_fields _ _ Hn) as [_ Hsz].
    destruct (links_children _ _ _ _ Hlk) as [(nl & El & Rl) (nr & Er & Rr)].
    destruct Hlk as (Hk & Hh & _). pose proof (theight_nonneg l). pose proof (theight_nonneg r).
    pose proof (tsize_pos l). pose proof (tsize_pos r). simpl in Hf, Hs.
    cbn [get t_get]. rewrite (proj2 (Z.eqb_neq _ _)) by done. rewrite Hk. fold (ltb k k').
    destruct (ltb k k').
    + rewrite El. step. destruct (IHl fuel nl Rl ltac:(lia) ltac:(lia)) as [-> Hb]. simpl. split; [done|lia].
    + rewrite Er. step. destruct (IHr fuel nr Rr ltac:(lia) ltac:(lia)) as [-> Hb].
      destruct (t_get k r) as [i v]. step. apply rep_fields in Rr as [_ Hsr]. rewrite Hsz, Hsr. simpl in *.
      rewrite (wrap32_id (_ - _)) by (unfold in32; lia).
      rewrite wrap32_id by (unfold in32; lia). split; [done|lia].
Qed.

Lemma has_run k t : ∀ fuel n,
  rep db n t → bst t → (Z.to_nat (theight t) < fuel)%nat →
  has db fuel n k = Ret (bool_decide (k ∈ keys_of t)).
Proof using Type.
  induction t as [k' v'|k' l IHl r IHr]; intros [|fuel] n Hn Hb Hf; try lia.
  - apply rep_leaf_fields in Hn as (Hh & <- & <-). simpl. rewrite Hh. simpl. unfold keys_of. simpl.
    destruct (String.eqb_spec (key n) k) as [->|Hne]; f_equal; symmetry.
    + apply bool_decide_eq_true. set_solver.
    + apply bool_decide_eq_false. set_solver.
  - pose proof (rep_links _ _ _ _ Hn) as Hlk.
    destruct (links_children _ _ _ _ Hlk) as [(nl & El & Rl) (nr & Er & Rr)].
    destruct Hlk as (Hk & Hh & _). pose proof (theight_nonneg l). pose proof (theight_nonneg r).
    simpl in Hf. pose proof Hb as (Bl & Br & Hlt & Hlm). cbn [has]. rewrite Hk.
    destruct (String.eqb_spec k' k) as [->|Hne].
    { f_equal. symmetry. apply bool_decide_eq_true. rewrite keys_of_inner. right.
      rewrite <-Hlm. apply leftmost_in. }
    rewrite (proj2 (Z.eqb_neq _ _)) by done. fold (ltb k k').
    destruct (ltb k k') eqn:Ek.
    + rewrite El. step. rewrite (IHl fuel nl Rl Bl) by lia. f_equal. apply bool_decide_ext.
      rewrite keys_of_inner. pose proof (not_in_right _ _ _ _ Hb Ek) as Hn'. apply tmap_None in Hn'. tauto.
    + rewrite Er. step. rewrite (IHr fuel nr Rr Br) by lia. f_equal. apply bool_decide_ext.
      rewrite keys_of_inner. pose proof (not_in_left _ _ _ _ Hb Ek) as Hn'. apply tmap_None in Hn'. tauto.
Qed.

(** The leaf at a position; an index out of range panics. *)
Lemma getByIndex_run t : ∀ fuel n i,
  rep db n t → (Z.to_nat (theight t) < fuel)%nat → tsize t < 2 ^ 31 → 0 <= i < 2 ^ 31 →
  getByIndex db fuel n i = match elements t !! Z.to_nat i with Some kv => Ret kv | None => Panic end.
Proof using Type.
  induction t as [k' v'|k' l IHl r IHr]; intros [|fuel] n i Hn Hf Hs Hi; try lia.
  - apply rep_leaf_fields in Hn as (Hh & <- & <-). simpl. rewrite Hh. simpl.
    destruct (Z.eqb_spec i 0) as [->|Hne]; [done|].
    destruct (Z.to_nat i) as [|[|j]] eqn:Ei; [lia|done|done].
  - pose proof (rep_links _ _ _ _ Hn) as Hlk.
    destruct (links_children _ _ _ _ Hlk) as [(nl & El & Rl) (nr & Er & Rr)].
    destruct Hlk as (Hk & Hh & _). pose proof (theight_nonneg l). pose proof (theight_nonneg r).
    pose proof (tsize_pos l). pose proof (tsize_pos r). simpl in Hf, Hs.
    cbn [getByIndex elements]. rewrite (proj2 (Z.eqb_neq _ _)) by done.
    rewrite El. step. destruct (rep_fields _ _ Rl) as [_ ->].
    pose proof (tsize_elements l) as Hsl. destruct (Z.ltb_spec i (tsize l)) as [G|G].
    + rewrite (IHl fuel nl i Rl) by lia. by rewrite lookup_app_l by lia.
    + rewrite Er. step. rewrite wrap32_id by (unfold in32; lia).
      rewrite (IHr fuel nr (i - tsize l) Rr) by lia. rewrite lookup_app_r by lia.
      by replace (Z.to_nat (i - tsize l)) with (Z.to_nat i - length (elements l))%nat by lia.
Qed.

Lemma set_finish_run n k l r b :
  links db n k l r → fresh n → tsize l + tsize r < 2 ^ 31 →
  (b = true → height n = theight (Inner k l r) ∧ size n = tsize (Inner k l r)) →
  ∃ n', set_finish db n b = Ret (n', b) ∧
    rep db n' (if b then Inner k l r else t_balance (Inner k l r)).
Proof using Type.
  intros Hn Hf Hs Hb. unfold set_finish. destruct b.
  - destruct Hb as [H1 H2]; [done|]. exists n. split; [done|]. by apply rep_intro.
  - destruct (calc_run n k l r Hn Hf Hs) as (n1 & -> & R1 & F1). step.
    destruct (balance_run n1 k l r R1 F1 Hs) as (n2 & -> & R2). by exists n2.
Qed.

Lemma rep_new k v : rep db (NewNode k v) (Leaf k v).
Proof using Type. cbn [rep]. split_and!; try done. by left. Qed.

Lemma set_run k v t : ∀ fuel n,
  rep db n t → balanced t → (Z.to_nat (theight t) < fuel)%nat → tsize t + 1 < 2 ^ 31 →
  ∃ n', set db fuel n k v = Ret (n', (t_set k v t).2) ∧ rep db n' (t_set k v t).1.
Proof using Type.
  induction t as [k' v'|k' l IHl r IHr]; intros [|fuel] n Hn Hb Hf Hs; try lia.
  - pose proof (rep_leaf_fields _ _ _ Hn) as (Hh & <- & <-). simpl. rewrite Hh. simpl.
    destruct (bytes_Compare_cases k (key n)) as [[-> _]|[[-> E]|[-> _]]]; cbv beta iota; simpl fst; simpl snd.
    + eexists. split; [done|]. apply rep_intro; [|done..]. split_and!; [done|done|apply rep_new|done].
    + eexists. split; [done|]. apply rep_new.
    + eexists. split; [done|]. apply rep_intro; [|done..]. split_and!; [done|done|done|apply rep_new].
  - pose proof (rep_links _ _ _ _ Hn) as Hlk. pose proof (rep_fields _ _ Hn) as [Hht Hsz].
    pose proof Hlk as (Hk & Hh & _). pose proof (theight_nonneg l). pose proof (theight_nonneg r).
    pose proof (tsize_pos l). pose proof (tsize_pos r). simpl in Hf, Hs. destruct Hb as (Bl & Br & Bd).
    cbn [set t_set]. rewrite (proj2 (Z.eqb_neq _ _)) by done.
    destruct (copy_run n _ _ _ Hlk) as (n1 & -> & Hn1 & Hf1 & Hh1 & Hs1). step.
    destruct (links_children _ _ _ _ Hn1) as [(nl & El & Rl) (nr & Er & Rr)].
    destruct Hn1 as (Hk1 & Hh' & HL & HR). rewrite Hk1. fold (ltb k k'). destruct (ltb k k').
    + rewrite El. step. destruct (IHl fuel nl Rl Bl ltac:(lia) ltac:(lia)) as (l' & -> & Rl'). step.
      pose proof (t_set_size k v l) as S1. destruct (t_set_balanced k v l Bl) as (_ & _ & S2).
      destruct (t_set k v l) as [tl u]. simpl in *.
      destruct (set_finish_run (set_left n1 None (Some l')) k' tl r u) as (n' & -> & R').
      * done.
      * done.
      * destruct u; simpl in *; lia.
      * intros ->. simpl. rewrite S2 by done. lia.
      * exists n'. by destruct u.
    + rewrite Er. step. destruct (IHr fuel nr Rr Br ltac:(lia) ltac:(lia)) as (r' & -> & Rr'). step.
      pose proof (t_set_size k v r) as S1. destruct (t_set_balanced k v r Br) as (_ & _ & S2).
      destruct (t_set k v r) as [tr u]. simpl in *.
      destruct (set_finish_run (set_right n1 None (Some r')) k' l tr u) as (n' & -> & R').
      * done.
      * done.
      * destruct u; simpl in *; lia.
      * intros ->. simpl. rewrite S2 by done. lia.
      * exists n'. by destruct u.
Qed.

(** What [remove] returns, against [t_remove]. *)
Definition remove_post (n : node) (res : removal) (o : outcome removed_ref) : Prop :=
  match res with
  | NotFound => o = Ret (hash n, Some n, None, None)
  | Removed None nk v => o = Ret (None, None, nk, Some v)
  | Removed (Some t') nk v => ∃ h c, o = Ret (h, c, nk, Some v) ∧ ref db h c t'
  end.

Lemma ref_some h c t : ref db h c t → (h, c) ≠ (None, None).
Proof using Type. destruct c as [c|]; simpl; [congruence|]. intros [-> _]. congruence. Qed.

Lemma remove_finish_run n k l r (nk v : option bytes) :
  links db n k l r → fresh n → tsize l + tsize r < 2 ^ 31 →
  ∃ h c, (n2 ← calcHeightAndSize db n; n3 ← balance db n2; Ret (hash n3, Some n3, nk, v)) = Ret (h, c, nk, v) ∧
    ref db h c (t_balance (Inner k l r)).
Proof using Type.
  intros Hn Hf Hs. destruct (calc_run n k l r Hn Hf Hs) as (n1 & -> & R1 & F1). step.
  destruct (balance_run n1 k l r R1 F1 Hs) as (n2 & -> & R2). step. by eexists _, (Some _).
Qed.

Lemma remove_run k t : ∀ fuel n,
  rep db n t → bst t → (Z.to_nat (theight t) < fuel)%nat → tsize t < 2 ^ 31 →
  remove_post n (t_remove k t) (remove db fuel n k).
Proof using Type.
  induction t as [k' v'|k' l IHl r IHr]; intros [|fuel] n Hn Hb Hf Hs; try lia.
  - pose proof (rep_leaf_fields _ _ _ Hn) as (Hh & <- & <-). simpl. rewrite Hh. simpl.
    by destruct (String.eqb k (key n)).
  - pose proof (rep_links _ _ _ _ Hn) as Hlk. pose proof Hlk as (Hk & Hh & HL0 & HR0).
    destruct (links_children _ _ _ _ Hlk) as [(nl & El & Rl) (nr & Er & Rr)].
    pose proof (theight_nonneg l). pose proof (theight_nonneg r).
    pose proof (tsize_pos l). pose proof (tsize_pos r). simpl in Hf, Hs. destruct Hb as (Bl & Br & Bd & Bk).
    cbn [remove t_remove]. rewrite (proj2 (Z.eqb_neq _ _)) by done. rewrite Hk. fold (ltb k k').
    destruct (copy_run n _ _ _ Hlk) as (n1 & Ec & (Hk1 & Hh1 & HL & HR) & Hf1 & _).
    destruct (ltb k k').
    + rewrite El. step. specialize (IHl fuel nl Rl Bl ltac:(lia) ltac:(lia)).
      pose proof (t_remove_spec k l Bl) as Hsp.
      destruct (t_remove k l) as [|[tl|] nk v]; cbn [remove_post] in *.
      * by rewrite IHl.
      * destruct IHl as (h & c & -> & Hc). step. destruct Hsp as (_ & _ & _ & _ & _ & Hsz & _).
        rewrite Ec. step.
        destruct (remove_finish_run (set_left n1 h c) k' tl r nk (Some v)) as (h' & c' & E & Hc');
          [done|done|lia|]. apply ref_some in Hc.
        destruct h, c; try done; eauto.
      * rewrite IHl. step. destruct Hsp as [-> ->]. by eexists _, _.
    + rewrite Er. step. specialize (IHr fuel nr Rr Br ltac:(lia) ltac:(lia)).
      pose proof (t_remove_spec k r Br) as Hsp.
      destruct (t_remove k r) as [|[tr|] nk v]; cbn [remove_post] in *.
      * by rewrite IHr.
      * destruct IHr as (h & c & -> & Hc). step. destruct Hsp as (_ & _ & _ & _ & _ & Hsz & _).
        rewrite Ec. step.
        destruct (remove_finish_run (match nk with Some nk => set_key (set_right n1 h c) nk | None => set_right n1 h c end)
                    (default k' nk) l tr None (Some v)) as (h' & c' & E & Hc');
          [by destruct nk|by destruct nk|lia|]. apply ref_some in Hc.
        destruct h, c; try done; eauto.
      * rewrite IHr. step. destruct Hsp as [-> ->]. by eexists _, _.
Qed.
End Refine.
End Tree.
