(* ===== verification/MavlTree.v ===== *)
(** The tree object of [system/store/mavl/db/tree.go] over the nodes of [Mavl]:
    hashing and saving nodes ([Node.Hash], [Node.save], [nodeDB.SaveNode],
    [nodeDB.Commit]), the operations of [Tree], and the store interface
    [SetKVPair] / [GetKVPair] / [DelKVPair], with their contracts over finite maps. *)

From Stdlib Require Import Ascii String.
From S2P Require Import Prelude MavlSpec Mavl.
Local Open Scope Z_scope.

Definition set_hash (n : node) (h : option bytes) : node :=
  mkNode (key n) (value n) (height n) (size n) h (leftHash n) (leftNode n) (rightHash n)
    (rightNode n) (persisted n).
Definition set_persisted (n : node) : node :=
  mkNode (key n) (value n) (height n) (size n) (hash n) (leftHash n) (leftNode n) (rightHash n)
    (rightNode n) true.

(** A pending batch; [None] once it was written. *)
Definition Batch : Type := option (list (bytes * bytes)).

Definition apply_batch (b : list (bytes * bytes)) (db : gmap bytes bytes) : gmap bytes bytes :=
  foldl (λ m kv, <[kv.1 := kv.2]> m) db b.

(** [type Tree struct] with its [nodeDB]. *)
Record Tree := mkTree { root : option node; ndb : gmap bytes bytes; batch : Batch; blockHeight : Z }.

Definition emptyRoot : bytes := String.concat "" (replicate 32 (String "000" "")).

Section Ops.
Context {ENV : MavlEnv}.

(** ** Hashing *)

(** [Node.Hash] keeps the hashes it computes in the nodes. *)
Fixpoint Hash (n : node) : outcome (node * bytes) :=
  match hash n with
  | Some h => Ret (n, h)
  | None =>
      if height n =? 0 then
        let h := LeafNode_Hash {| ln_Key := key n; ln_Value := value n;
                                  ln_Height := height n; ln_Size := size n |} in
        Ret (set_hash n (Some h), h)
      else
        n1 ← (match leftNode n with
              | Some c => '(c', lh) ← Hash c; Ret (set_left n (Some lh) (Some c'))
              | None => Ret n
              end);
        match leftHash n1 with
        | None => Panic
        | Some lh =>
            n2 ← (match rightNode n with
                  | Some c => '(c', rh) ← Hash c; Ret (set_right n1 (Some rh) (Some c'))
                  | None => Ret n1
                  end);
            match rightHash n2 with
            | None => Panic
            | Some rh =>
                let h := InnerNode_Hash {| in_LeftHash := lh; in_RightHash := rh;
                                           in_Height := height n; in_Size := size n |} in
                Ret (set_hash n2 (Some h), h)
            end
        end
  end.

(** ** Saving *)

Definition storeNode (n : node) : outcome bytes :=
  if height n =? 0 then
    Ret (Encode {| sn_Key := key n; sn_Value := value n; sn_LeftHash := ""; sn_RightHash := "";
                   sn_Height := height n; sn_Size := size n |})
  else
    match leftHash n, rightHash n with
    | Some lh, Some rh =>
        Ret (Encode {| sn_Key := key n; sn_Value := ""; sn_LeftHash := lh; sn_RightHash := rh;
                       sn_Height := height n; sn_Size := size n |})
    | _, _ => Panic
    end.

Definition SaveNode (n : node) (b : Batch) : outcome (node * Batch) :=
  match hash n with
  | None => Panic
  | Some h =>
      if persisted n then Panic
      else
        s ← storeNode n;
        match b with
        | None => Panic
        | Some l => Ret (set_persisted n, Some (l ++ [(h, s)]))
        end
  end.

Fixpoint save (fuel : nat) (n : node) (b : Batch) : outcome (node * Z * Batch) :=
  match fuel with
  | O => Panic
  | S fuel =>
      n1 ← (match hash n with None => '(n', _) ← Hash n; Ret n' | Some _ => Ret n end);
      if persisted n1 then Ret (n1, 0, b)
      else
        '(n2, lno, b) ← (match leftNode n1 with
                         | Some c => '(_, no, b') ← save fuel c b; Ret (set_left n1 (leftHash n1) None, no, b')
                         | None => Ret (n1, 0, b)
                         end : outcome (node * Z * Batch));
        '(n3, rno, b) ← (match rightNode n2 with
                         | Some c => '(_, no, b') ← save fuel c b; Ret (set_right n2 (rightHash n2) None, no, b')
                         | None => Ret (n2, 0, b)
                         end : outcome (node * Z * Batch));
        '(n4, b) ← SaveNode n3 b;
        Ret (n4, lno +₆₄ rno +₆₄ 1, b)
  end.

(** [nodeDB.Commit]: the batch is written in order ([ok]: the write succeeded) and dropped. *)
Definition Commit (ok : bool) (t : Tree) : outcome (Tree * bool) :=
  match batch t with
  | None => Panic
  | Some l =>
      Ret (mkTree (root t) (if ok then apply_batch l (ndb t) else ndb t) None (blockHeight t), ok)
  end.

(** ** Tree operations *)

Definition depth (n : node) : nat := S (Z.to_nat (height n)).
Definition with_root (t : Tree) (r : option node) : Tree := mkTree r (ndb t) (batch t) (blockHeight t).

Definition NewTree (db : gmap bytes bytes) : Tree := mkTree None db (Some []) 0.
Definition SetBlockHeight (t : Tree) (h : Z) : Tree := mkTree (root t) (ndb t) (batch t) h.

Definition Copy (t : Tree) : outcome Tree :=
  match root t with
  | None => Ret (mkTree None (ndb t) (batch t) 0)
  | Some n => if persisted n then Ret (mkTree (Some n) (ndb t) (batch t) 0) else Panic
  end.

Definition Size (t : Tree) : Z := match root t with None => 0 | Some n => size n end.
Definition Height (t : Tree) : Z := match root t with None => 0 | Some n => height n end.

Definition Has (t : Tree) (k : bytes) : outcome bool :=
  match root t with None => Ret false | Some n => has (ndb t) (depth n) n k end.

Definition Set_ (t : Tree) (k v : bytes) : outcome (Tree * bool) :=
  match root t with
  | None => Ret (with_root t (Some (NewNode k v)), false)
  | Some n =>
      '(n', updated) ← set (ndb t) (depth n) n k v;
      Ret (with_root t (Some n'), updated)
  end.

Definition Tree_Hash (t : Tree) : outcome (Tree * option bytes) :=
  match root t with
  | None => Ret (t, None)
  | Some n => '(n', h) ← Hash n; Ret (with_root t (Some n'), Some h)
  end.

Definition Save (ok : bool) (t : Tree) : outcome (Tree * option bytes) :=
  match root t with
  | None => Ret (t, None)
  | Some n =>
      '(n', _, b) ← save (depth n) n (batch t);
      '(t', written) ← Commit ok (mkTree (Some n') (ndb t) b (blockHeight t));
      Ret (t', if (written : bool) then hash n' else None)
  end.

Definition Load (t : Tree) (h : option bytes) : outcome Tree :=
  match h with
  | None => Ret t
  | Some h =>
      if String.eqb h emptyRoot then Ret t
      else n ← GetNode (ndb t) h; Ret (with_root t (Some n))
  end.

Definition Get (t : Tree) (k : bytes) : outcome (Z * option bytes) :=
  match root t with None => Ret (0, None) | Some n => get (ndb t) (depth n) n k end.

Definition GetHash (t : Tree) (k : bytes) : outcome (Z * option (option bytes)) :=
  match root t with None => Ret (0, None) | Some n => getHash (ndb t) (depth n) n k end.

Definition GetByIndex (t : Tree) (i : Z) : outcome (bytes * bytes) :=
  match root t with None => Ret ("", "") | Some n => getByIndex (ndb t) (depth n) n i end.

Definition Remove (t : Tree) (k : bytes) : outcome (Tree * option bytes) :=
  match root t with
  | None => Ret (t, None)
  | Some n =>
      '(newRootHash, newRoot, _, v) ← remove (ndb t) (depth n) n k;
      match v with
      | None => Ret (t, None)
      | Some _ =>
          match newRoot, newRootHash with
          | None, Some h =>
              match GetNode (ndb t) h with
              | Ret n' => Ret (with_root t (Some n'), v)
              | _ => Panic
              end
          | _, _ => Ret (with_root t newRoot, v)
          end
      end
  end.

(** ** The store interface: the new database and the result *)

Fixpoint set_all (t : Tree) (kvs : list (bytes * bytes)) : outcome Tree :=
  match kvs with
  | [] => Ret t
  | (k, v) :: kvs => '(t', _) ← Set_ t k v; set_all t' kvs
  end.

Definition SetKVPair (ok : bool) (db : gmap bytes bytes) (stateHash : option bytes) (h : Z)
    (kvs : list (bytes * bytes)) : outcome (gmap bytes bytes * option bytes) :=
  t ← Load (SetBlockHeight (NewTree db) h) stateHash;
  t ← set_all t kvs;
  '(t, hash) ← Save ok t;
  Ret (ndb t, hash).

(** The values read; absent keys read as the empty value. *)
Fixpoint get_all (t : Tree) (ks : list bytes) : outcome (list bytes) :=
  match ks with
  | [] => Ret []
  | k :: ks => '(_, v) ← Get t k; vs ← get_all t ks; Ret (default "" v :: vs)
  end.

Definition GetKVPair (db : gmap bytes bytes) (stateHash : option bytes) (ks : list bytes) :
    outcome (list bytes) :=
  t ← Load (NewTree db) stateHash; get_all t ks.

Fixpoint remove_all (t : Tree) (ks : list bytes) : outcome (Tree * list bytes) :=
  match ks with
  | [] => Ret (t, [])
  | k :: ks =>
      '(t, v) ← Remove t k;
      '(t, vs) ← remove_all t ks;
      Ret (t, default "" v :: vs)
  end.

Definition DelKVPair (ok : bool) (db : gmap bytes bytes) (stateHash : option bytes) (ks : list bytes) :
    outcome (gmap bytes bytes * option bytes * list bytes) :=
  t ← Load (NewTree db) stateHash;
  '(t, vs) ← remove_all t ks;
  '(t, hash) ← Save ok t;
  Ret (ndb t, hash, vs).
End Ops.

(** ** Hashing computes [thash] *)

Section HashSave.
Context {ENV : MavlEnv} (db : gmap bytes bytes).

Lemma Hash_known n h : hash n = Some h → Hash n = Ret (n, h).
Proof using Type. destruct n. simpl. by intros ->. Qed.

(** [hashed db n t]: [n] stands for [t] and so does its hash. *)
Definition hashed (n : node) (t : tree) : Prop := rep db n t ∧ hash n = Some (thash t).

Lemma rep_hash_some n t : rep db n t → hash n ≠ None → hash n = Some (thash t).
Proof using Type. intros Hn Hh. destruct t; destruct Hn as (_ & _ & [H|H] & _); done. Qed.

Lemma Hash_run t : ∀ n, rep db n t →
  ∃ n', Hash n = Ret (n', thash t) ∧ hashed n' t ∧ persisted n' = persisted n.
Proof using Type.
  induction t as [k v|k l IHl r IHr]; intros n Hn.
  - destruct (hash n) as [h|] eqn:Eh.
    { pose proof (rep_hash_some _ _ Hn ltac:(congruence)) as E. rewrite (Hash_known n _ E). by exists n. }
    destruct n as [kk vv hh ss hs lh ln rh rn p]. cbn [rep key value height size hash persisted leftNode rightNode] in *.
    destruct Hn as (H1 & H2 & H3 & H4 & <- & <- & -> & ->). subst hs hh ss. eexists. split; [done|]. split; [|done].
    split; [|done]. cbn [set_hash rep key value height size hash persisted leftNode rightNode].
    split_and!; try done; [by right|]. intros Hp. by destruct (H4 Hp).
  - destruct (hash n) as [h|] eqn:Eh.
    { pose proof (rep_hash_some _ _ Hn ltac:(congruence)) as E. rewrite (Hash_known n _ E). by exists n. }
    destruct n as [kk vv hh ss hs lh ln rh rn p].
    cbn [rep key value height size hash persisted leftHash rightHash leftNode rightNode] in *.
    destruct Hn as (H1 & H2 & _ & H4 & <- & _ & HL & HR). subst hs hh ss.
    set (hh := theight (Inner kk l r)). set (ss := tsize (Inner kk l r)).
    assert (p = false) as -> by (destruct p; [by destruct (H4 eq_refl)|done]). clear H4.
    cbn [Hash hash height leftNode rightNode]. rewrite (proj2 (Z.eqb_neq hh 0)) by apply theight_inner.
    assert (∃ ln', (match ln with
                    | Some c => '(c', lh0) ← Hash c; Ret (set_left (mkNode kk vv hh ss None lh ln rh rn false) (Some lh0) (Some c'))
                    | None => Ret (mkNode kk vv hh ss None lh ln rh rn false) end)
                   = Ret (mkNode kk vv hh ss None (Some (thash l)) ln' rh rn false) ∧
                   match ln' with None => stored db l | Some c => hashed c l end) as (ln' & -> & HL').
    { destruct ln as [c|].
      - destruct (IHl c HL) as (c' & -> & Hc & _). by exists (Some c').
      - destruct HL as [-> HL]. by exists None. }
    cbn [mbind outcome_bind leftHash].
    assert (∃ rn', (match rn with
                    | Some c => '(c', rh0) ← Hash c; Ret (set_right (mkNode kk vv hh ss None (Some (thash l)) ln' rh rn false) (Some rh0) (Some c'))
                    | None => Ret (mkNode kk vv hh ss None (Some (thash l)) ln' rh rn false) end)
                   = Ret (mkNode kk vv hh ss None (Some (thash l)) ln' (Some (thash r)) rn' false) ∧
                   match rn' with None => stored db r | Some c => hashed c r end) as (rn' & -> & HR').
    { destruct rn as [c|].
      - destruct (IHr c HR) as (c' & -> & Hc & _). by exists (Some c').
      - destruct HR as [-> HR]. by exists None. }
    cbn [mbind outcome_bind rightHash size]. eexists. split; [done|]. split; [|done].
    split; [|done].
    cbn [set_hash rep key value height size hash persisted leftHash rightHash leftNode rightNode].
    split_and!; try done.
    + by right.
    + intros _. split_and!; [done|done| |].
      * destruct ln' as [c|]; [|done]. simpl. by destruct HL' as [_ ->].
      * destruct rn' as [c|]; [|done]. simpl. by destruct HR' as [_ ->].
    + destruct ln' as [c|]; [by destruct HL'|done].
    + destruct rn' as [c|]; [by destruct HR'|done].
Qed.

(** ** Saving writes the tree *)

Fixpoint subtrees (t : tree) : list tree :=
  t :: match t with Leaf _ _ => [] | Inner _ l r => subtrees l ++ subtrees r end.

Definition entry (t : tree) : bytes * bytes := (thash t, Encode (store_of t)).

Lemma stored_subtrees m t :
  stored m t ↔ ∀ s, s ∈ subtrees t → m !! thash s = Some (Encode (store_of s)).
Proof using Type.
  induction t as [k v|k l IHl r IHr]; cbn [stored subtrees].
  - set_solver.
  - rewrite IHl, IHr. set_solver.
Qed.

(** The entries [b] bring [db] up to the whole tree [t]. *)
Definition covers (t : tree) (b : list (bytes * bytes)) : Prop :=
  (∀ e, e ∈ b → ∃ s, s ∈ subtrees t ∧ e = entry s) ∧
  (∀ s, s ∈ subtrees t → db !! thash s = Some (Encode (store_of s)) ∨ entry s ∈ b).

Lemma covers_stored t : stored db t → covers t [].
Proof using Type. rewrite stored_subtrees. intros H. split; [set_solver|]. intros s Hs. left. by apply H. Qed.

Lemma covers_inner k l r bl br :
  covers l bl → covers r br → covers (Inner k l r) (bl ++ br ++ [entry (Inner k l r)]).
Proof using Type.
  intros [H1 H2] [H3 H4]. split.
  - intros e. rewrite !elem_of_app, list_elem_of_singleton. cbn [subtrees].
    setoid_rewrite elem_of_cons. setoid_rewrite elem_of_app. naive_solver.
  - intros s. cbn [subtrees]. rewrite elem_of_cons, elem_of_app, !elem_of_app, list_elem_of_singleton. naive_solver.
Qed.

(** A saved node stands for [t] over every database that stores [t]. *)
Definition saved (n : node) (t : tree) : Prop :=
  hash n = Some (thash t) ∧ persisted n = true ∧ ∀ m, stored m t → rep m n t.

Lemma persisted_saved n t : rep db n t → persisted n = true → saved n t ∧ stored db t.
Proof using Type.
  intros Hn Hp. destruct t as [k v|k l r]; cbn [rep] in Hn.
  - destruct Hn as (H1 & H2 & H3 & H4 & H5 & H6 & H7 & H8). destruct (H4 Hp) as (G1 & G2 & G3 & G4).
    split; [|done]. split; [done|]. split; [done|]. intros m Hm. cbn [rep]. by split_and!.
  - destruct Hn as (H1 & H2 & H3 & H4 & H5 & H6 & H7 & H8). destruct (H4 Hp) as (G1 & G2 & G3 & G4).
    split; [|done]. split; [done|]. split; [done|]. intros m Hm. cbn [rep]. rewrite G3 in H7 |- *. rewrite G4 in H8 |- *.
    destruct Hm as (M1 & M2 & M3). destruct H7, H8. rewrite G3, G4 in H6. by split_and!.
Qed.

(** The last step of [save] on a hashed node whose children were saved. *)
Lemma SaveNode_run n t b :
  height n = theight t → size n = tsize t → hash n = Some (thash t) → persisted n = false →
  leftNode n = None → rightNode n = None →
  match t with
  | Leaf k v => key n = k ∧ value n = v
  | Inner k l r => key n = k ∧ leftHash n = Some (thash l) ∧ rightHash n = Some (thash r)
  end →
  SaveNode n (Some b) = Ret (set_persisted n, Some (b ++ [entry t])) ∧ saved (set_persisted n) t.
Proof using Type.
  intros H1 H2 H3 H4 H5 H6 H7. unfold SaveNode, storeNode. rewrite H3, H4. split.
  - destruct t as [k v|k l r].
    + destruct H7 as [-> ->]. rewrite H1, H2. done.
    + destruct H7 as (-> & -> & ->). rewrite H1, H2, (proj2 (Z.eqb_neq _ _)) by apply theight_inner. done.
  - split; [done|]. split; [done|]. intros m Hm.
    destruct t as [k v|k l r]; cbn [rep set_persisted height size hash persisted leftNode rightNode key value leftHash rightHash];
      rewrite H5, H6; (split; [done|]; split; [done|]; split; [by right|]; split; [done|]); [by destruct H7|].
    destruct H7 as (Hk & Hl & Hr), Hm as (M1 & M2 & M3). by split_and!.
Qed.

Lemma save_hash_run n t :
  rep db n t →
  ∃ n1, match hash n with None => '(n', _) ← Hash n; Ret n' | Some _ => Ret n end = Ret n1 ∧ hashed n1 t.
Proof using Type.
  intros Hn. destruct (hash n) eqn:Eh.
  - exists n. split; [done|]. split; [done|]. apply rep_hash_some; [done|congruence].
  - destruct (Hash_run _ n Hn) as (n' & -> & Hn' & _). by exists n'.
Qed.

Lemma save_run t : ∀ fuel n b,
  rep db n t → (Z.to_nat (theight t) < fuel)%nat →
  ∃ n' no b', save fuel n (Some b) = Ret (n', no, Some (b ++ b')) ∧ saved n' t ∧ covers t b'.
Proof using Type.
  induction t as [k v|k l IHl r IHr]; intros [|fuel] n b Hn0 Hf; try lia;
    (destruct (save_hash_run _ _ Hn0) as (n1 & E1 & Hn & Hh));
    cbn [save]; rewrite E1; cbn [mbind outcome_bind]; destruct (persisted n1) eqn:Hp.
  1, 3: destruct (persisted_saved _ _ Hn Hp) as [Hs Hd]; exists n1, 0, [];
    rewrite app_nil_r; split; [done|]; split; [done|]; by apply covers_stored.
  - destruct Hn as (H1 & H2 & H3 & H4 & H5 & H6 & H7 & H8). rewrite H7. cbn [mbind outcome_bind].
    rewrite H8. cbn [mbind outcome_bind].
    destruct (SaveNode_run n1 (Leaf k v) b) as [-> Hs]; try done. cbn [mbind outcome_bind].
    eexists _, _, _. split; [done|]. split; [done|]. split; cbn [subtrees]; set_solver.
  - destruct Hn as (H1 & H2 & H3 & H4 & H5 & H6 & HL & HR). destruct H6 as (Hlh & Hrh & _ & _); [congruence|].
    pose proof (theight_nonneg l). pose proof (theight_nonneg r). simpl in Hf.
    assert (∃ no bl, match leftNode n1 with
                     | Some c => '(_, no, b') ← save fuel c (Some b); Ret (set_left n1 (leftHash n1) None, no, b')
                     | None => Ret (n1, 0, Some b)
                     end = Ret (set_left n1 (leftHash n1) None, no, Some (b ++ bl)) ∧ covers l bl)
      as (no1 & bl & E & Hbl).
    { destruct n1 as [kk vv hh ss hs lh ln rh rn p]. cbn [leftNode leftHash] in *. destruct ln as [c|].
      - destruct (IHl fuel c b HL ltac:(lia)) as (c' & no & b' & -> & _ & Hb'). by exists no, b'.
      - exists 0, []. rewrite app_nil_r. split; [done|]. apply covers_stored. by destruct HL. }
    unfold Batch in *. rewrite E. cbn [mbind outcome_bind set_left rightNode rightHash]. clear E.
    assert (∃ no br, match rightNode n1 with
                     | Some c => '(_, no, b') ← save fuel c (Some (b ++ bl));
                         Ret (set_right (set_left n1 (leftHash n1) None) (rightHash n1) None, no, b')
                     | None => Ret (set_left n1 (leftHash n1) None, 0, Some (b ++ bl))
                     end = Ret (set_right (set_left n1 (leftHash n1) None) (rightHash n1) None, no, Some (b ++ bl ++ br)) ∧
                     covers r br)
      as (no2 & br & E & Hbr).
    { destruct n1 as [kk vv hh ss hs lh ln rh rn p]. cbn [rightNode rightHash] in *. destruct rn as [c|].
      - destruct (IHr fuel c (b ++ bl) HR ltac:(lia)) as (c' & no & b' & -> & _ & Hb').
        exists no, b'. by rewrite (assoc_L (++)).
      - exists 0, []. rewrite app_nil_r. split; [done|]. apply covers_stored. by destruct HR. }
    unfold Batch in *. rewrite E. cbn [mbind outcome_bind]. clear E.
    destruct (SaveNode_run (set_right (set_left n1 (leftHash n1) None) (rightHash n1) None)
                (Inner k l r) (b ++ bl ++ br)) as [-> Hs]; try done. cbn [mbind outcome_bind].
    eexists _, _, _. rewrite <-!(assoc_L (++)). split; [done|]. split; [done|]. by apply covers_inner.
Qed.

(** The hashes of [t] clash neither with each other nor with what [db] holds. *)
Definition no_clash (t : tree) : Prop :=
  ∀ s, s ∈ subtrees t →
    (∀ v, db !! thash s = Some v → v = Encode (store_of s)) ∧
    (∀ s', s' ∈ subtrees t → thash s = thash s' → store_of s = store_of s').

Lemma apply_batch_lookup (b : list (bytes * bytes)) (m : gmap bytes bytes) k v :
  (∀ v', (k, v') ∈ b → v' = v) → m !! k = Some v ∨ (k, v) ∈ b → apply_batch b m !! k = Some v.
Proof using Type.
  revert m. induction b as [|[k0 v0] b IH]; intros m Hu Hk; [set_solver|].
  apply IH; [set_solver|]. simpl. destruct (decide (k0 = k)) as [->|Hne].
  - left. rewrite (Hu v0) by set_solver. apply lookup_insert_eq.
  - rewrite lookup_insert_ne by done. destruct Hk as [Hk|Hk]; [by left|right]. set_solver.
Qed.

Lemma covers_apply t b :
  no_clash t → covers t b → stored (apply_batch b db) t ∧ db ⊆ apply_batch b db.
Proof using Type.
  intros Hc [H1 H2]. split.
  - apply stored_subtrees. intros s Hs. apply apply_batch_lookup; [|by apply H2].
    intros v' Hv. destruct (H1 _ Hv) as (s' & Hs' & [= E ->]). f_equal.
    symmetry. by apply (Hc s Hs).
  - apply map_subseteq_spec. intros k v Hk. apply apply_batch_lookup; [|by left].
    intros v' Hv. destruct (H1 _ Hv) as (s' & Hs' & [= -> ->]). symmetry. by apply (Hc s' Hs').
Qed.

Lemma stored_mono m m' t : m ⊆ m' → stored m t → stored m' t.
Proof using Type. rewrite !stored_subtrees. intros Hm H s Hs. eapply lookup_weaken; eauto. Qed.
End HashSave.

(** ** The tree object refines a finite map *)

Section Refinement.
Context {ENV : MavlEnv}.

Definition tree_rep (T : Tree) (ot : option tree) : Prop :=
  match root T, ot with
  | None, None => True
  | Some n, Some t => rep (ndb T) n t
  | _, _ => False
  end.

Definition owf (ot : option tree) : Prop :=
  match ot with None => True | Some t => bst t ∧ balanced t end.
Definition omap (ot : option tree) : gmap bytes bytes := match ot with None => ∅ | Some t => tmap t end.
Definition osize (ot : option tree) : Z := match ot with None => 0 | Some t => tsize t end.

(** What the tree object stands for: the abstract tree, balanced and in order, with
    room for [room] more keys. *)
Definition models (T : Tree) (ot : option tree) (room : Z) : Prop :=
  tree_rep T ot ∧ owf ot ∧ osize ot + room < 2 ^ 31.

(** The abstract operations on a possibly empty tree. *)
Definition oset (k v : bytes) (ot : option tree) : option tree :=
  Some (match ot with None => Leaf k v | Some t => (t_set k v t).1 end).
Definition oremove (k : bytes) (ot : option tree) : option tree :=
  match ot with
  | None => None
  | Some t => match t_remove k t with NotFound => Some t | Removed t' _ _ => t' end
  end.

Lemma oset_map k v ot : owf ot → omap (oset k v ot) = <[k := v]> (omap ot).
Proof using Type. destruct ot as [t|]; simpl; [|done]. intros [Hb _]. by apply t_set_map. Qed.

Lemma oremove_map k ot : owf ot → omap (oremove k ot) = delete k (omap ot).
Proof using Type.
  destruct ot as [t|]; simpl; [|by rewrite delete_empty]. intros [Hb _].
  pose proof (t_remove_spec k t Hb) as Hok.
  destruct (t_remove k t) as [|[t'|] nk v]; cbn [remove_ok] in Hok; simpl.
  - by rewrite delete_id.
  - by destruct Hok as (_ & -> & _).
  - destruct Hok as [-> _]. unfold tmap. simpl. by rewrite delete_insert_eq, delete_empty.
Qed.

Lemma depth_ok db n t : rep db n t → (Z.to_nat (theight t) < depth n)%nat.
Proof using Type. intros [H _]%rep_fields. unfold depth. rewrite H. lia. Qed.

Lemma elements_nodup t : bst t → NoDup (keys_of t).
Proof using Type.
  unfold keys_of. induction t as [k v|k l IHl r IHr]; intros Hb; simpl.
  - apply NoDup_singleton.
  - pose proof Hb as (Hl & Hr & Hlt & Hk). rewrite fmap_app. apply list.NoDup_app. split_and!; [by apply IHl| |by apply IHr].
    intros x Hx Hx'. assert (tmap l !! x = None) as Hn.
    { apply (not_in_left k l r x Hb). apply ltb_false. by apply (inner_sides k l r x Hb). }
    apply tmap_None in Hn. done.
Qed.

Lemma tmap_to_list t : bst t → map_to_list (tmap t) ≡ₚ elements t.
Proof using Type. intros Hb. apply map_to_list_to_map. by apply elements_nodup. Qed.

(** The number of keys of [m] below [k]. *)
Definition rank_in (k : bytes) (m : gmap bytes bytes) : Z :=
  Z.of_nat (length (filter (λ kv : bytes * bytes, ltb kv.1 k = true) (map_to_list m))).

Lemma rank_map k t : bst t → rank k t = rank_in k (tmap t).
Proof using Type. intros Hb. unfold rank, rank_in. by rewrite (tmap_to_list t Hb). Qed.

Lemma osize_card ot : owf ot → osize ot = Z.of_nat (base.size (omap ot)).
Proof using Type.
  destruct ot as [t|]; simpl; [|done]. intros [Hb _]. rewrite tsize_elements. f_equal.
  rewrite <-length_map_to_list. by rewrite (tmap_to_list t Hb).
Qed.

Lemma keys_of_map t k : k ∈ keys_of t ↔ is_Some (tmap t !! k).
Proof using Type. rewrite <-not_eq_None_Some, tmap_None. destruct (decide (k ∈ keys_of t)); tauto. Qed.

Lemma Size_models T ot room : models T ot room → Size T = Z.of_nat (base.size (omap ot)).
Proof using Type.
  intros (HT & Hw & Hs). rewrite <-osize_card by done. unfold Size, tree_rep in *.
  destruct (root T) as [n|], ot as [t|]; try done. by apply rep_fields in HT as [_ ?].
Qed.

(** The depth is at most twice the logarithm of the number of keys. *)
Lemma Height_models T ot room :
  models T ot room → ot ≠ None →
  2 ^ Height T <= Z.of_nat (base.size (omap ot)) * Z.of_nat (base.size (omap ot)).
Proof using Type.
  intros (HT & Hw & Hs) Hm. rewrite <-osize_card by done. unfold Height, tree_rep in *.
  destruct (root T) as [n|], ot as [t|]; try done. apply rep_fields in HT as [-> _].
  by apply balanced_depth, Hw.
Qed.

Lemma Get_models T ot room k :
  models T ot room → 0 <= room → Get T k = Ret (rank_in k (omap ot), omap ot !! k).
Proof using Type.
  intros (HT & Hw & Hs) Hr. unfold Get, tree_rep in *.
  destruct (root T) as [n|], ot as [t|]; try done. destruct Hw as [Hb _].
  destruct (get_run (ndb T) k t (depth n) n HT (depth_ok _ _ _ HT)) as [-> _]; [simpl in *; lia|].
  rewrite (t_get_spec k t Hb). simpl. by rewrite rank_map.
Qed.

Lemma Has_models T ot room k :
  models T ot room → Has T k = Ret (bool_decide (is_Some (omap ot !! k))).
Proof using Type.
  intros (HT & Hw & Hs). unfold Has, tree_rep in *.
  destruct (root T) as [n|], ot as [t|]; try done.
  - destruct Hw as [Hb _]. rewrite (has_run (ndb T) k t (depth n) n HT Hb (depth_ok _ _ _ HT)).
    f_equal. apply bool_decide_ext. apply keys_of_map.
Qed.

Lemma Set_models T ot room k v :
  models T ot room → 1 <= room →
  ∃ T', Set_ T k v = Ret (T', bool_decide (is_Some (omap ot !! k))) ∧ models T' (oset k v ot) (room - 1) ∧
    ndb T' = ndb T ∧ batch T' = batch T.
Proof using Type.
  intros (HT & Hw & Hs) Hr. unfold Set_, tree_rep in *.
  destruct (root T) as [n|], ot as [t|]; try done.
  - destruct Hw as [Hb Hbal]. simpl in Hs.
    destruct (set_run (ndb T) k v t (depth n) n HT Hbal (depth_ok _ _ _ HT)) as (n' & -> & Hn'); [lia|].
    cbn [mbind outcome_bind]. eexists. split.
    + do 2 f_equal. apply eq_iff_eq_true. cbn [omap]. rewrite bool_decide_eq_true, <-keys_of_map.
      apply (t_set_updated k v t Hb).
    + split; [|done]. split; [done|]. split.
      * split; [by apply t_set_bst|by apply t_set_balanced].
      * simpl. rewrite t_set_size. destruct (t_set k v t).2; lia.
  - eexists. split; [done|]. split; [|done]. simpl in *.
    split; [apply rep_new|]. split; [done|simpl; lia].
Qed.

Lemma Remove_models T ot room k :
  models T ot room → 0 <= room →
  ∃ T', Remove T k = Ret (T', omap ot !! k) ∧ models T' (oremove k ot) room ∧
    ndb T' = ndb T ∧ batch T' = batch T.
Proof using Type.
  intros (HT & Hw & Hs) Hr. unfold Remove, tree_rep in *.
  destruct (root T) as [n|] eqn:En, ot as [t|]; try done.
  2: { exists T. simpl in *. rewrite lookup_empty. split; [done|]. split; [|done].
       split; [|done]. unfold tree_rep. by rewrite En. }
  destruct Hw as [Hb Hbal]. simpl in Hs.
  pose proof (remove_run (ndb T) k t (depth n) n HT Hb (depth_ok _ _ _ HT) ltac:(lia)) as Hp.
  pose proof (t_remove_spec k t Hb) as Hok. cbn [omap oremove].
  destruct (t_remove k t) as [|[t'|] nk v]; cbn [remove_post remove_ok] in Hp, Hok.
  - rewrite Hp. cbn [mbind outcome_bind]. exists T. rewrite Hok.
    split; [done|]. split; [|done]. split; [|done]. unfold tree_rep. rewrite En. done.
  - destruct Hp as (h & c & -> & Hc). cbn [mbind outcome_bind].
    destruct Hok as (-> & _ & Hb' & _ & _ & Hs' & Hbal'). destruct (Hbal' Hbal) as [Hbal2 _].
    assert (∀ n', rep (ndb T) n' t' → models (with_root T (Some n')) (Some t') room) as Hm.
    { intros n' Hn'. split; [done|]. split; [done|]. simpl. lia. }
    destruct c as [c|].
    + destruct h; (eexists; split; [done|]; split; [by apply Hm|done]).
    + destruct Hc as [-> Hst]. destruct (GetNode_run _ _ Hst) as (n' & -> & Hn' & _).
      eexists. split; [done|]. split; [by apply Hm|done].
  - rewrite Hp. cbn [mbind outcome_bind]. destruct Hok as [-> ->].
    exists (with_root T None). unfold tmap. simpl. rewrite lookup_insert_eq. split; [done|]. split; [|done].
    simpl in *. split; [done|]. split; [done|]. simpl. lia.
Qed.

(** Saving: the database gains the nodes of the tree and keeps the ones it had. *)
Lemma Save_models T t room :
  models T (Some t) room → batch T = Some [] → no_clash (ndb T) t →
  ∃ T', Save true T = Ret (T', Some (thash t)) ∧ stored (ndb T') t ∧ ndb T ⊆ ndb T' ∧ models T' (Some t) room.
Proof using Type.
  intros (HT & Hw & Hs) Hb Hc. unfold Save, tree_rep in HT |- *. destruct (root T) as [n|]; [|done].
  destruct (save_run (ndb T) t (depth n) n [] HT (depth_ok _ _ _ HT)) as (n' & no & b & E & (Hh & Hp & Hsv) & Hcov).
  rewrite Hb, E. cbn [mbind outcome_bind Commit batch root ndb app]. rewrite Hh.
  destruct (covers_apply _ _ _ Hc Hcov) as [H1 H2].
  eexists. split; [done|]. split; [done|]. split; [done|]. split; [|done]. simpl. by apply Hsv.
Qed.

(** A failed write leaves the database as it was and returns no hash. *)
Lemma Save_failed T t room :
  models T (Some t) room → batch T = Some [] →
  ∃ T', Save false T = Ret (T', None) ∧ ndb T' = ndb T.
Proof using Type.
  intros (HT & Hw & Hs) Hb. unfold Save, tree_rep in HT |- *. destruct (root T) as [n|]; [|done].
  destruct (save_run (ndb T) t (depth n) n [] HT (depth_ok _ _ _ HT)) as (n' & no & b & E & _ & _).
  rewrite Hb, E. by eexists.
Qed.
End Refinement.
