(* ===== verification/MavlProof.v ===== *)
(** Membership proofs of the Merkle-AVL tree: [system/store/mavl/db/proof.go] and the
    proof functions of [tree.go]. *)

From Stdlib Require Import Ascii String.
From S2P Require Import Prelude MavlSpec Mavl MavlTree.
Local Open Scope Z_scope.

(** [type Proof struct] *)
Record Proof_ := mkProof { LeafHash : bytes; InnerNodes : list InnerNode; RootHash : bytes }.

Section Proofs.
Context {ENV : MavlEnv}.

(** ** Operations *)

Definition InnerNodeProofHash (childHash : bytes) (branch : InnerNode) : bytes :=
  InnerNode_Hash
    (if String.eqb (in_LeftHash branch) "" then
       {| in_LeftHash := childHash; in_RightHash := in_RightHash branch;
          in_Height := in_Height branch; in_Size := in_Size branch |}
     else
       {| in_LeftHash := in_LeftHash branch; in_RightHash := childHash;
          in_Height := in_Height branch; in_Size := in_Size branch |}).

Definition leaf_of (k v : bytes) : LeafNode := {| ln_Key := k; ln_Value := v; ln_Height := 0; ln_Size := 1 |}.

Definition Verify (p : Proof_) (k v root : bytes) : bool :=
  if negb (String.eqb (RootHash p) root) then false
  else
    let leafHash := LeafNode_Hash (leaf_of k v) in
    if negb (String.eqb leafHash (trim32 (LeafHash p))) then false
    else String.eqb (RootHash p) (foldl InnerNodeProofHash leafHash (InnerNodes p)).

Definition ReadProof (roothash leafhash data : bytes) : option Proof_ :=
  match Decode data with
  | None => None
  | Some m => Some (mkProof leafhash (mp_InnerNodes m) roothash)
  end.

(** Value, leaf hash and branches, from the leaf up; [None]: the key is absent. *)
Fixpoint constructProof (db : gmap bytes bytes) (fuel : nat) (n : node) (k : bytes) :
    outcome (option (bytes * bytes * list InnerNode)) :=
  match fuel with
  | O => Panic
  | S fuel =>
      if height n =? 0 then
        Ret (if String.eqb (key n) k then Some (value n, default "" (hash n), []) else None)
      else if bytes_Compare k (key n) <? 0 then
        l ← getLeftNode db n;
        res ← constructProof db fuel l k;
        match res with
        | None => Ret None
        | Some (v, lh, bs) =>
            r ← getRightNode db n;
            Ret (Some (v, lh, bs ++ [{| in_LeftHash := ""; in_RightHash := default "" (hash r);
                                        in_Height := height n; in_Size := size n |}]))
        end
      else
        r ← getRightNode db n;
        res ← constructProof db fuel r k;
        match res with
        | None => Ret None
        | Some (v, lh, bs) =>
            l ← getLeftNode db n;
            Ret (Some (v, lh, bs ++ [{| in_LeftHash := default "" (hash l); in_RightHash := "";
                                        in_Height := height n; in_Size := size n |}]))
        end
  end.

Definition ConstructProof (t : Tree) (k : bytes) : outcome (Tree * option (bytes * Proof_)) :=
  match root t with
  | None => Ret (t, None)
  | Some n =>
      '(n', h) ← Hash n;
      let t' := with_root t (Some n') in
      res ← constructProof (ndb t) (depth n') n' k;
      match res with
      | Some (v, lh, bs) => Ret (t', Some (v, mkProof lh bs (default "" (hash n'))))
      | None => Ret (t', None)
      end
  end.

(** [Tree.Proof]: the value and the encoded branches. *)
Definition Tree_Proof (t : Tree) (k : bytes) : outcome (Tree * option (bytes * bytes)) :=
  '(t', res) ← ConstructProof t k;
  match res with
  | None => Ret (t', None)
  | Some (v, p) =>
      Ret (t', Some (v, Encode {| mp_LeafHash := ""; mp_InnerNodes := InnerNodes p; mp_RootHash := "" |}))
  end.

Definition GetKVPairProof (db : gmap bytes bytes) (roothash : option bytes) (k : bytes) :
    outcome (option bytes) :=
  t ← Load (NewTree db) roothash;
  '(_, res) ← Tree_Proof t k;
  Ret (option_map (λ p : bytes * bytes, p.2) res).

(** A proof that does not decode leaves a nil [*Proof], whose use panics. *)
Definition VerifyKVPairProof (roothash k v proof : bytes) : outcome bool :=
  match ReadProof roothash (LeafNode_Hash (leaf_of k v)) proof with
  | None => Panic
  | Some p => Ret (Verify p k v roothash)
  end.

(** ** Soundness and completeness *)

(** Protobuf: two messages with the same encoding agree on field 3, the height. *)
Definition wire_compatible : Prop :=
  ∀ (l : LeafNode) (i : InnerNode), Encode l = Encode i → ln_Height l = in_Height i.

Definition trimmed (i : InnerNode) : InnerNode :=
  {| in_LeftHash := trim32 (in_LeftHash i); in_RightHash := trim32 (in_RightHash i);
     in_Height := in_Height i; in_Size := in_Size i |}.

(** The message whose hash identifies a tree. *)
Definition preimage (t : tree) : bytes :=
  match t with
  | Leaf k v => Encode (leaf_of k v)
  | Inner k l r =>
      Encode {| in_LeftHash := thash l; in_RightHash := thash r;
                in_Height := theight (Inner k l r); in_Size := tsize (Inner k l r) |}
  end.

Lemma thash_preimage t : thash t = Sha256 (preimage t).
Proof using Type.
  destruct t as [k v|k l r]; [done|]. cbn [thash preimage]. unfold InnerNode_Hash.
  cbn [in_LeftHash in_RightHash in_Height in_Size]. by rewrite !trim32_id by apply thash_length.
Qed.

Definition branch_node (child : bytes) (b : InnerNode) : InnerNode :=
  if String.eqb (in_LeftHash b) "" then
    {| in_LeftHash := child; in_RightHash := in_RightHash b; in_Height := in_Height b; in_Size := in_Size b |}
  else
    {| in_LeftHash := in_LeftHash b; in_RightHash := child; in_Height := in_Height b; in_Size := in_Size b |}.

(** The messages a verifier hashes, from the leaf up. *)
Fixpoint proof_preimages (x : bytes) (bs : list InnerNode) : list bytes :=
  x :: match bs with
       | [] => []
       | b :: bs => proof_preimages (Encode (trimmed (branch_node (Sha256 x) b))) bs
       end.

(** No collision of the hash function between the messages of [xs] and of [ys]. *)
Definition collision_free (xs ys : list bytes) : Prop :=
  ∀ x y, x ∈ xs → y ∈ ys → Sha256 x = Sha256 y → x = y.

Lemma proof_fold x bs b :
  foldl InnerNodeProofHash (Sha256 x) (bs ++ [b]) =
  Sha256 (Encode (trimmed (branch_node (foldl InnerNodeProofHash (Sha256 x) bs) b))).
Proof using Type. rewrite foldl_app. simpl. unfold InnerNodeProofHash, branch_node. by destruct (String.eqb _ _). Qed.

Lemma proof_preimages_snoc bs b : ∀ x,
  proof_preimages x (bs ++ [b]) =
  proof_preimages x bs ++ [Encode (trimmed (branch_node (foldl InnerNodeProofHash (Sha256 x) bs) b))].
Proof using Type.
  induction bs as [|b0 bs IH]; intros x; simpl; [done|]. rewrite IH. unfold InnerNodeProofHash, branch_node. by destruct (String.eqb _ _).
Qed.

Lemma Encode_inj {A} {C : Codec A} (a b : A) : Encode a = Encode b → a = b.
Proof using Type. intros E. apply (f_equal Decode) in E. rewrite !Decode_Encode in E. congruence. Qed.

Lemma fold_length x bs : String.length (foldl InnerNodeProofHash (Sha256 x) bs) = sha256Len.
Proof using Type.
  destruct bs as [|b bs _] using rev_ind; [apply Sha256_length|]. rewrite proof_fold. apply Sha256_length.
Qed.

(** A chain of branches that leads from the leaf [k, v] to the root of [t] follows
    a path of [t]. *)
Lemma path_sound k v t : ∀ bs,
  wire_compatible → Forall (λ b, in_Height b ≠ 0) bs →
  collision_free (preimage <$> subtrees t) (proof_preimages (Encode (leaf_of k v)) bs) →
  foldl InnerNodeProofHash (LeafNode_Hash (leaf_of k v)) bs = thash t → (k, v) ∈ elements t.
Proof using Type.
  intros bs Hw. revert t. unfold LeafNode_Hash. induction bs as [|b bs IH] using rev_ind; intros t Hb Hc E.
  - simpl in E. rewrite thash_preimage in E. assert (preimage t = Encode (leaf_of k v)) as E'.
    { apply Hc; [apply list_elem_of_fmap; exists t; split; [done|]; destruct t; simpl; set_solver
                |simpl; set_solver|done]. }
    destruct t as [k' v'|k' l r]; simpl in E'.
    + apply Encode_inj in E'. injection E' as -> ->. simpl. set_solver.
    + symmetry in E'. apply Hw in E'. cbn in E'. pose proof (theight_nonneg l). pose proof (theight_nonneg r). lia.
  - apply list.Forall_app in Hb as [Hb Hb1]. inversion Hb1 as [|? ? Hb2 _]; subst.
    rewrite proof_fold, thash_preimage in E. rewrite proof_preimages_snoc in Hc.
    assert (preimage t = Encode (trimmed (branch_node (foldl InnerNodeProofHash (Sha256 (Encode (leaf_of k v))) bs) b))) as E'.
    { apply Hc; [apply list_elem_of_fmap; exists t; split; [done|]; destruct t; simpl; set_solver
                |set_solver|done]. }
    pose proof (fold_length (Encode (leaf_of k v)) bs) as Hlen.
    destruct t as [k' v'|k' l r]; cbn [preimage] in E'.
    + apply Hw in E'. exfalso. apply Hb2. unfold trimmed, branch_node in E'.
      by destruct (String.eqb (in_LeftHash b) ""); simpl in E'.
    + apply Encode_inj in E'. cbn [elements]. rewrite elem_of_app.
      assert (∀ s, s ∈ [l; r] → collision_free (preimage <$> subtrees s) (proof_preimages (Encode (leaf_of k v)) bs)) as Hc'.
      { intros s Hs x y Hx Hy. apply Hc; [|set_solver]. apply list_elem_of_fmap in Hx as (u & -> & Hu).
        apply list_elem_of_fmap. exists u. split; [done|]. cbn [subtrees]. set_solver. }
      unfold trimmed, branch_node in E'. destruct (String.eqb (in_LeftHash b) ""); injection E' as E1 E2 E3 E4.
      * left. apply IH; [done|apply Hc'; set_solver|]. rewrite E1. symmetry. by apply trim32_id.
      * right. apply IH; [done|apply Hc'; set_solver|]. rewrite E2. symmetry. by apply trim32_id.
Qed.

(** The search path of a key, from the leaf up. *)
Fixpoint t_path (k : bytes) (t : tree) : option (bytes * list InnerNode) :=
  match t with
  | Leaf k' v => if String.eqb k' k then Some (v, []) else None
  | Inner k' l r =>
      let branch lh rh := {| in_LeftHash := lh; in_RightHash := rh; in_Height := theight t; in_Size := tsize t |} in
      if ltb k k' then
        match t_path k l with None => None | Some (v, bs) => Some (v, bs ++ [branch "" (thash r)]) end
      else
        match t_path k r with None => None | Some (v, bs) => Some (v, bs ++ [branch (thash l) ""]) end
  end.

Lemma t_path_lookup k t : bst t → tmap t !! k = fst <$> t_path k t.
Proof using Type.
  induction t as [k' v'|k' l IHl r IHr]; intros Hb.
  - unfold tmap. simpl. destruct (String.eqb_spec k' k) as [->|Hne].
    + by rewrite lookup_insert_eq.
    + by rewrite lookup_insert_ne, lookup_empty.
  - pose proof Hb as (Hl & Hr & _). rewrite tmap_inner. cbn [t_path]. destruct (ltb k k') eqn:Ek.
    + rewrite lookup_union_l by (by eapply not_in_right). rewrite (IHl Hl).
      by destruct (t_path k l) as [[v bs]|].
    + rewrite lookup_union_r by (by eapply not_in_left). rewrite (IHr Hr).
      by destruct (t_path k r) as [[v bs]|].
Qed.

Lemma t_path_hash k t : ∀ v bs,
  t_path k t = Some (v, bs) → foldl InnerNodeProofHash (LeafNode_Hash (leaf_of k v)) bs = thash t.
Proof using Type.
  induction t as [k' v'|k' l IHl r IHr]; intros v bs; cbn [t_path].
  - destruct (String.eqb_spec k' k) as [->|Hne]; [|done]. by intros [= <- <-].
  - destruct (ltb k k').
    + destruct (t_path k l) as [[v0 bs0]|]; [|done]. intros [= <- <-]. rewrite foldl_app, (IHl v0 bs0 eq_refl). done.
    + destruct (t_path k r) as [[v0 bs0]|]; [|done]. intros [= <- <-]. rewrite foldl_app, (IHr v0 bs0 eq_refl). simpl.
      unfold InnerNodeProofHash. simpl. pose proof (thash_nonempty l) as Hn.
      by destruct (String.eqb_spec (thash l) "").
Qed.

Lemma t_path_heights k t v bs : t_path k t = Some (v, bs) → Forall (λ b, in_Height b ≠ 0) bs.
Proof using Type.
  revert v bs. induction t as [k' v'|k' l IHl r IHr]; intros v bs; cbn [t_path].
  - destruct (String.eqb k' k); [|done]. by intros [= <- <-].
  - pose proof (theight_inner k' l r) as Hh. destruct (ltb k k').
    + destruct (t_path k l) as [[v0 bs0]|]; [|done]. intros [= <- <-].
      apply list.Forall_app. split; [by eapply IHl|]. by apply list.Forall_singleton.
    + destruct (t_path k r) as [[v0 bs0]|]; [|done]. intros [= <- <-].
      apply list.Forall_app. split; [by eapply IHr|]. by apply list.Forall_singleton.
Qed.

Section WithDB.
Context (db : gmap bytes bytes).

Lemma hashed_child h c t :
  match c with None => h = Some (thash t) ∧ stored db t | Some c => rep db c t end → kid_hashed c →
  ∃ n, child db h c = Ret n ∧ hashed db n t.
Proof using Type.
  destruct c as [c|]; simpl; intros Hc Hk.
  - exists c. split; [done|]. split; [done|]. by apply (rep_hash_some db).
  - destruct Hc as [-> Hs]. simpl. destruct (GetNode_run db t Hs) as (n & -> & Hr & Hp). exists n.
    split; [done|]. split; [done|]. by destruct (persisted_saved db n t Hr Hp) as [[? _] _].
Qed.

Lemma hashed_children n k l r :
  hashed db n (Inner k l r) →
  (∃ nl, getLeftNode db n = Ret nl ∧ hashed db nl l) ∧ (∃ nr, getRightNode db n = Ret nr ∧ hashed db nr r).
Proof using Type.
  intros [Hn Hh]. cbn [rep] in Hn. destruct Hn as (H1 & H2 & H3 & H4 & H5 & H6 & HL & HR).
  destruct H6 as (_ & _ & Kl & Kr); [congruence|]. split; by apply hashed_child.
Qed.

Lemma constructProof_run k t : ∀ fuel n,
  hashed db n t → (Z.to_nat (theight t) < fuel)%nat →
  constructProof db fuel n k =
    Ret (match t_path k t with
         | None => None
         | Some (v, bs) => Some (v, LeafNode_Hash (leaf_of k v), bs)
         end).
Proof using Type.
  induction t as [k' v'|k' l IHl r IHr]; intros [|fuel] n Hn Hf; try lia.
  - destruct Hn as [Hn Hh]. pose proof (rep_leaf_fields _ _ _ _ Hn) as (H0 & <- & <-).
    cbn [constructProof t_path]. rewrite H0, Hh. simpl. by destruct (String.eqb_spec (key n) k) as [->|].
  - destruct (hashed_children _ _ _ _ Hn) as [(nl & El & Hl) (nr & Er & Hr)].
    destruct Hn as [Hn Hh]. pose proof (rep_links _ _ _ _ _ Hn) as (Hk & H0 & _).
    pose proof (rep_fields _ _ _ Hn) as [F1 F2].
    pose proof (theight_nonneg l). pose proof (theight_nonneg r). simpl in Hf.
    cbn [constructProof t_path]. rewrite (proj2 (Z.eqb_neq _ _)) by done. rewrite Hk. fold (ltb k k').
    destruct (ltb k k').
    + rewrite El. cbn [mbind outcome_bind]. rewrite (IHl fuel nl Hl) by lia. cbn [mbind outcome_bind].
      destruct (t_path k l) as [[v bs]|]; [|done]. rewrite Er. cbn [mbind outcome_bind].
      destruct Hr as [_ ->]. by rewrite F1, F2.
    + rewrite Er. cbn [mbind outcome_bind]. rewrite (IHr fuel nr Hr) by lia. cbn [mbind outcome_bind].
      destruct (t_path k r) as [[v bs]|]; [|done]. rewrite El. cbn [mbind outcome_bind].
      destruct Hl as [_ ->]. by rewrite F1, F2.
Qed.
End WithDB.

Lemma Verify_path k v t bs :
  t_path k t = Some (v, bs) → Verify (mkProof (LeafNode_Hash (leaf_of k v)) bs (thash t)) k v (thash t) = true.
Proof using Type.
  intros E. unfold Verify. cbn [RootHash LeafHash InnerNodes]. rewrite String.eqb_refl.
  rewrite trim32_id by apply Sha256_length. rewrite String.eqb_refl. cbn [negb].
  rewrite (t_path_hash _ _ _ _ E). apply String.eqb_refl.
Qed.

Lemma ConstructProof_models T ot room k :
  models T ot room →
  ∃ T', models T' ot room ∧
    ConstructProof T k = Ret (T', match ot with
                                  | None => None
                                  | Some t => '(v, bs) ← t_path k t;
                                              Some (v, mkProof (LeafNode_Hash (leaf_of k v)) bs (thash t))
                                  end).
Proof using Type.
  intros (HT & Hw & Hs). unfold ConstructProof, models, tree_rep in *.
  destruct (root T) as [n|] eqn:En, ot as [t|]; try done.
  - destruct (Hash_run (ndb T) t n HT) as (n' & -> & Hn' & _). cbn [mbind outcome_bind].
    rewrite (constructProof_run (ndb T) k t (depth n') n' Hn' (depth_ok _ _ _ (proj1 Hn'))).
    destruct Hn' as [Hr ->]. cbn [mbind outcome_bind].
    exists (with_root T (Some n')). split; [done|]. by destruct (t_path k t) as [[v bs]|].
  - exists T. rewrite En. done.
Qed.
End Proofs.
