(* ===== verification/MavlIter.v ===== *)
(** Iteration over a key range of the Merkle-AVL tree: [Node.traverseInRange] with its
    pruning by the keys of the inner nodes, [Tree.Iterate], [Tree.IterateRange],
    [Tree.IterateRangeInclusive] and [IterateRangeByStateHash]. *)

From Stdlib Require Import Ascii String.
From Stdlib Require Import Sorted.
From stdpp Require Import sorting.
From S2P Require Import Prelude MavlSpec Mavl MavlTree.
Local Open Scope Z_scope.

Section Iter.
Context {ENV : MavlEnv} {St : Type}.

(** A callback: it may stop the iteration and change its own state. *)
Definition callback : Type := bytes → bytes → St → bool * St.

Definition after_start (start : option bytes) (k : bytes) : bool :=
  match start with None => true | Some s => bytes_Compare s k <=? 0 end.
Definition before_end (inclusive : bool) (end_ : option bytes) (k : bytes) : bool :=
  match end_ with
  | None => true
  | Some e => if inclusive then bytes_Compare k e <=? 0 else bytes_Compare k e <? 0
  end.

(** [depth] is a uint8. *)
Fixpoint traverseInRange (db : gmap bytes bytes) (fuel : nat) (n : node) (start end_ : option bytes)
    (ascending inclusive : bool) (depth : Z) (cb : node → Z → St → bool * St) (s : St) : outcome (bool * St) :=
  match fuel with
  | O => Panic
  | S fuel =>
      let afterStart := after_start start (key n) in
      let beforeEnd := before_end inclusive end_ (key n) in
      let '(stop, s) := if afterStart && beforeEnd then cb n depth s else (false, s) in
      if stop then Ret (true, s)
      else if height n =? 0 then Ret (false, s)
      else
        let go_left s :=
          l ← getLeftNode db n;
          traverseInRange db fuel l start end_ ascending inclusive ((depth + 1) mod 256) cb s in
        let go_right s :=
          r ← getRightNode db n;
          traverseInRange db fuel r start end_ ascending inclusive ((depth + 1) mod 256) cb s in
        if ascending then
          '(stop, s) ← (if afterStart then go_left s else Ret (false, s));
          if (stop : bool) then Ret (true, s)
          else if beforeEnd then go_right s else Ret (false, s)
        else
          '(stop, s) ← (if beforeEnd then go_right s else Ret (false, s));
          if (stop : bool) then Ret (true, s)
          else if afterStart then go_left s else Ret (false, s)
  end.

(** The callback on nodes ignores inner nodes. *)
Definition leaf_cb (fn : callback) (n : node) (_ : Z) (s : St) : bool * St :=
  if height n =? 0 then fn (key n) (value n) s else (false, s).

Definition iterate (t : Tree) (start end_ : option bytes) (ascending inclusive : bool) (fn : callback)
    (s : St) : outcome (bool * St) :=
  match root t with
  | None => Ret (false, s)
  | Some n => traverseInRange (ndb t) (depth n) n start end_ ascending inclusive 0 (leaf_cb fn) s
  end.

Definition Iterate (t : Tree) := iterate t None None true false.
Definition IterateRange (t : Tree) (start end_ : option bytes) (ascending : bool) :=
  iterate t start end_ ascending false.
Definition IterateRangeInclusive (t : Tree) (start end_ : option bytes) (ascending : bool) :=
  iterate t start end_ ascending true.

Definition IterateRangeByStateHash (db : gmap bytes bytes) (statehash start end_ : option bytes)
    (ascending : bool) (fn : callback) (s : St) : outcome St :=
  match Load (NewTree db) statehash with
  | Ret t => '(_, s) ← IterateRange t start end_ ascending fn s; Ret s
  | Err _ => Ret s
  | Panic => Panic
  end.

(** ** Contract: the callback sees the pairs in the range, in order, until it stops *)

Fixpoint visit (fn : callback) (l : list (bytes * bytes)) (s : St) : bool * St :=
  match l with
  | [] => (false, s)
  | (k, v) :: l => let '(stop, s) := fn k v s in if stop then (true, s) else visit fn l s
  end.

Definition in_range (start end_ : option bytes) (inclusive : bool) (kv : bytes * bytes) : Prop :=
  after_start start kv.1 && before_end inclusive end_ kv.1 = true.

#[export] Instance in_range_dec start end_ inclusive kv : Decision (in_range start end_ inclusive kv).
Proof using Type. unfold in_range. apply _. Defined.

Definition direction {A} (ascending : bool) (l : list A) : list A := if ascending then l else reverse l.

Lemma visit_app fn l1 l2 s :
  visit fn (l1 ++ l2) s = let '(stop, s) := visit fn l1 s in if stop then (true, s) else visit fn l2 s.
Proof using Type.
  revert s. induction l1 as [|[k v] l1 IH]; intros s; simpl; [done|].
  destruct (fn k v s) as [[] s']; [done|apply IH].
Qed.

Lemma compare_le_lt a b c : (bytes_Compare a b <=? 0) = false → bytes_lt c b → (bytes_Compare a c <=? 0) = false.
Proof using Type.
  intros H1 H2. destruct (bytes_Compare_cases a b) as [[E _]|[[E _]|[E Hba]]]; rewrite E in H1; try done.
  destruct (bytes_Compare_cases a c) as [[E' H]|[[E' ->]|[E' _]]]; rewrite E'; [|..|done]; exfalso.
  - apply (bytes_lt_irrefl a). by etrans; [|etrans].
  - apply (bytes_lt_irrefl c). by etrans.
Qed.

Lemma before_end_mono inclusive end_ k k' :
  before_end inclusive end_ k = false → k' = k ∨ bytes_lt k k' → before_end inclusive end_ k' = false.
Proof using Type.
  destruct end_ as [e|]; simpl; [|done]. intros H [->|Hk]; [done|].
  destruct (bytes_Compare_cases k e) as [[E _]|[[E ->]|[E Hek]]]; rewrite E in H; destruct inclusive; try done;
    (destruct (bytes_Compare_cases k' e) as [[E' H']|[[E' ->]|[E' _]]]; rewrite E'; try done; exfalso).
  - apply (bytes_lt_irrefl e). by etrans.
  - apply (bytes_lt_irrefl k'). etrans; [exact H'|]. by etrans.
  - apply (bytes_lt_irrefl e). by etrans.
  - apply (bytes_lt_irrefl k'). etrans; [exact H'|]. by etrans.
Qed.

Section Run.
Context (db : gmap bytes bytes) (start end_ : option bytes) (inclusive : bool) (fn : callback).

Abbreviation R := (in_range start end_ inclusive).

Lemma prune_left k l r :
  bst (Inner k l r) → after_start start k = false → filter R (elements l) = [].
Proof using Type.
  intros Hb Ha. apply filter_none. intros [x v] Hx Hin. unfold in_range in Hx. simpl in Hx.
  apply andb_true_iff in Hx as [Hx _]. destruct start as [a|]; simpl in *; [|done].
  rewrite (compare_le_lt _ _ _ Ha) in Hx; [done|]. apply (inner_sides k l r x Hb).
  unfold keys_of. apply list_elem_of_fmap. by exists (x, v).
Qed.

Lemma prune_right k l r :
  bst (Inner k l r) → before_end inclusive end_ k = false → filter R (elements r) = [].
Proof using Type.
  intros Hb Ha. apply filter_none. intros [x v] Hx Hin. unfold in_range in Hx. simpl in Hx.
  apply andb_true_iff in Hx as [_ Hx]. rewrite (before_end_mono _ _ k) in Hx; [done|done|].
  apply (inner_sides k l r x Hb). unfold keys_of. apply list_elem_of_fmap. by exists (x, v).
Qed.

Lemma traverse_run ascending t : ∀ fuel n d s,
  rep db n t → bst t → (Z.to_nat (theight t) < fuel)%nat →
  traverseInRange db fuel n start end_ ascending inclusive d (leaf_cb fn) s =
    Ret (visit fn (direction ascending (filter R (elements t))) s).
Proof using Type.
  induction t as [k' v'|k' l IHl r IHr]; intros [|fuel] n d s Hn Hb Hf; try lia.
  - apply rep_leaf_fields in Hn as (Hh & <- & <-). cbn [traverseInRange elements].
    rewrite filter_cons. unfold leaf_cb. rewrite Hh. cbn [Z.eqb].
    destruct (decide (in_range start end_ inclusive (key n, value n))) as [Hr|Hr]; unfold in_range in Hr; cbn [fst] in Hr.
    + rewrite Hr. destruct ascending; simpl; by destruct (fn (key n) (value n) s) as [[] s'].
    + rewrite (not_true_is_false _ Hr). by destruct ascending.
  - pose proof (rep_links _ _ _ _ _ Hn) as Hlk.
    destruct (links_children _ _ _ _ _ Hlk) as [(nl & El & Rl) (nr & Er & Rr)].
    destruct Hlk as (Hk & Hh & _). pose proof (theight_nonneg l). pose proof (theight_nonneg r).
    pose proof Hb as (Bl & Br & _). simpl in Hf. cbn [traverseInRange elements].
    assert ((if after_start start (key n) && before_end inclusive end_ (key n) then leaf_cb fn n d s else (false, s))
            = (false, s)) as ->.
    { unfold leaf_cb. rewrite (proj2 (Z.eqb_neq _ _)) by done. by destruct (_ && _). }
    rewrite (proj2 (Z.eqb_neq _ _)) by done. rewrite Hk, El, Er. cbn [mbind outcome_bind].
    rewrite list.filter_app.
    assert (∀ s', (if after_start start k'
                   then traverseInRange db fuel nl start end_ ascending inclusive ((d + 1) mod 256) (leaf_cb fn) s'
                   else Ret (false, s')) = Ret (visit fn (direction ascending (filter R (elements l))) s')) as HL.
    { intros s'. destruct (after_start start k') eqn:Ea; [apply IHl; [done|done|lia]|].
      rewrite (prune_left k' l r Hb Ea). by destruct ascending. }
    assert (∀ s', (if before_end inclusive end_ k'
                   then traverseInRange db fuel nr start end_ ascending inclusive ((d + 1) mod 256) (leaf_cb fn) s'
                   else Ret (false, s')) = Ret (visit fn (direction ascending (filter R (elements r))) s')) as HR.
    { intros s'. destruct (before_end inclusive end_ k') eqn:Ea; [apply IHr; [done|done|lia]|].
      rewrite (prune_right k' l r Hb Ea). by destruct ascending. }
    destruct ascending; [rewrite HL|rewrite HR]; cbn [mbind outcome_bind direction];
      rewrite ?reverse_app, visit_app.
    + destruct (visit fn _ s) as [[] s']; [done|]. apply HR.
    + destruct (visit fn _ s) as [[] s']; [done|]. apply HL.
Qed.
End Run.

(** The pairs of [m] in key order. *)
Definition sorted_pairs (ot : option tree) : list (bytes * bytes) :=
  match ot with None => [] | Some t => elements t end.

Lemma iterate_models T ot room start end_ ascending inclusive fn s :
  models T ot room →
  iterate T start end_ ascending inclusive fn s =
    Ret (visit fn (direction ascending (filter (in_range start end_ inclusive) (sorted_pairs ot))) s).
Proof using Type.
  intros (HT & Hw & Hs). unfold iterate, tree_rep in *. destruct (root T) as [n|], ot as [t|]; try done.
  - apply traverse_run; [done|by destruct Hw|by eapply depth_ok].
  - by destruct ascending.
Qed.
End Iter.

(** The leaves of a search tree are in strictly increasing key order. *)
Lemma elements_sorted t : bst t → StronglySorted bytes_lt (keys_of t).
Proof.
  unfold keys_of. induction t as [k v|k l IHl r IHr]; intros Hb; simpl; [repeat constructor|].
  pose proof Hb as (Hl & Hr & _). rewrite fmap_app. apply StronglySorted_app. split; [|split; [by apply IHl|by apply IHr]].
  intros x y Hx Hy. apply (inner_sides k l r x Hb) in Hx.
  apply (inner_sides k l r y Hb) in Hy as [->|Hy]; [done|]. by etrans.
Qed.
