(* ===== verification/MavlTheorems.v ===== *)
(** The promises of the Merkle-AVL state store: the tree behaves as a finite map, saved
    states stay readable, membership proofs are complete and sound, and iteration
    visits a range in key order. *)

From Stdlib Require Import Ascii String.
From Stdlib Require Import Sorted.
From S2P Require Import Prelude MavlSpec Mavl MavlTree MavlProof MavlIter.
Local Open Scope Z_scope.

(** ** A concrete environment for examples *)

Module MavlDemo.
Definition tagged {A} `{Countable A} : Codec A.
Proof.
  refine {| Encode a := String "p" (digits (encode a));
            Decode s := match s with String _ s => decode (undigits s) | EmptyString => None end |}.
  intros a. rewrite undigits_digits. apply decode_encode.
Defined.

(** Leaf and inner nodes share their wire format, as the protobuf messages do. *)
Definition quad_codec : Codec (bytes * bytes * Z * Z) := tagged.

Definition via {A B} (C : Codec B) (f : A → B) (g : B → A) (Hgf : ∀ a, g (f a) = a) : Codec A.
Proof.
  refine {| Encode a := Encode (f a); Decode s := option_map g (Decode s) |}.
  intros a. rewrite Decode_Encode. simpl. by rewrite Hgf.
Defined.

Definition leaf_codec : Codec LeafNode.
Proof.
  refine (via quad_codec (λ n, (ln_Key n, ln_Value n, ln_Height n, ln_Size n))
            (λ '(a, b, c, d), {| ln_Key := a; ln_Value := b; ln_Height := c; ln_Size := d |}) _).
  by intros [].
Defined.

Definition inner_to (n : InnerNode) : bytes * bytes * Z * Z :=
  (in_LeftHash n, in_RightHash n, in_Height n, in_Size n).
Definition inner_of (q : bytes * bytes * Z * Z) : InnerNode :=
  let '(a, b, c, d) := q in {| in_LeftHash := a; in_RightHash := b; in_Height := c; in_Size := d |}.
Lemma inner_of_to n : inner_of (inner_to n) = n.
Proof. by destruct n. Qed.
Definition inner_codec : Codec InnerNode := via quad_codec inner_to inner_of inner_of_to.

Definition store_codec : Codec StoreNode.
Proof.
  refine (via (tagged (A := bytes * bytes * bytes * bytes * Z * Z))
            (λ n, (sn_Key n, sn_Value n, sn_LeftHash n, sn_RightHash n, sn_Height n, sn_Size n))
            (λ '(a, b, c, d, e, f), {| sn_Key := a; sn_Value := b; sn_LeftHash := c; sn_RightHash := d;
                                       sn_Height := e; sn_Size := f |}) _).
  by intros [].
Defined.

Definition proof_codec : Codec MAVLProof.
Proof.
  refine (via (tagged (A := bytes * list (bytes * bytes * Z * Z) * bytes))
            (λ p, (mp_LeafHash p, map inner_to (mp_InnerNodes p), mp_RootHash p))
            (λ '(a, b, c), {| mp_LeafHash := a; mp_InnerNodes := map inner_of b; mp_RootHash := c |}) _).
  intros [a b c]. cbn [mp_LeafHash mp_InnerNodes mp_RootHash]. f_equal.
  induction b as [|n b IH]; cbn [map]; [done|]. by rewrite inner_of_to, IH.
Defined.

(** A checksum in place of SHA-256. *)
Fixpoint mix (s : string) (h : N) : N :=
  match s with
  | EmptyString => h
  | String c s => mix s (N.land (h * 16777619 + N_of_ascii c + 7) 18446744073709551615)
  end.
Fixpoint spread (n : nat) (h : N) : string :=
  match n with O => EmptyString | S n => String (ascii_of_N (h mod 256)) (spread n (h / 256)%N) end.
Lemma spread_length n h : String.length (spread n h) = n.
Proof. revert h. induction n as [|n IH]; intros h; simpl; [done|]. by rewrite IH. Qed.

Definition env : MavlEnv.
Proof.
  refine {| env_leaf := leaf_codec; env_inner := inner_codec; env_store := store_codec;
            env_proof := proof_codec; Sha256 s := spread 32 (mix s 1) |}.
  - done.
  - intros b. apply spread_length.
Defined.
End MavlDemo.

Section Claims.
Context {ENV : MavlEnv}.

(** ** The tree as a map *)

Inductive tree_op := TSet (k v : bytes) | TRemove (k : bytes) | TGet (k : bytes) | THas (k : bytes) | TSize.
Inductive tree_out :=
  | OSet (updated : bool) | ORemove (v : option bytes) | OGet (index : Z) (v : option bytes)
  | OHas (b : bool) | OSize (n : Z).

Definition run_op (T : Tree) (o : tree_op) : outcome (Tree * tree_out) :=
  match o with
  | TSet k v => '(T, u) ← Set_ T k v; Ret (T, OSet u)
  | TRemove k => '(T, v) ← Remove T k; Ret (T, ORemove v)
  | TGet k => '(i, v) ← Get T k; Ret (T, OGet i v)
  | THas k => b ← Has T k; Ret (T, OHas b)
  | TSize => Ret (T, OSize (Size T))
  end.

Fixpoint run_ops (T : Tree) (os : list tree_op) : outcome (Tree * list tree_out) :=
  match os with
  | [] => Ret (T, [])
  | o :: os => '(T, x) ← run_op T o; '(T, xs) ← run_ops T os; Ret (T, x :: xs)
  end.

(** The same operations on a finite map. *)
Definition spec_op (m : gmap bytes bytes) (o : tree_op) : gmap bytes bytes * tree_out :=
  match o with
  | TSet k v => (<[k := v]> m, OSet (bool_decide (is_Some (m !! k))))
  | TRemove k => (delete k m, ORemove (m !! k))
  | TGet k => (m, OGet (rank_in k m) (m !! k))
  | THas k => (m, OHas (bool_decide (is_Some (m !! k))))
  | TSize => (m, OSize (Z.of_nat (base.size m)))
  end.

Fixpoint spec_ops (m : gmap bytes bytes) (os : list tree_op) : gmap bytes bytes * list tree_out :=
  match os with
  | [] => (m, [])
  | o :: os => let '(m, x) := spec_op m o in let '(m, xs) := spec_ops m os in (m, x :: xs)
  end.

Lemma models_weaken T ot room room' : models T ot room → room' <= room → models T ot room'.
Proof using Type. intros (H1 & H2 & H3) Hr. split; [done|]. split; [done|lia]. Qed.

Lemma run_op_spec T ot room o :
  models T ot room → 1 <= room →
  ∃ T' ot', run_op T o = Ret (T', (spec_op (omap ot) o).2) ∧ models T' ot' (room - 1) ∧
    omap ot' = (spec_op (omap ot) o).1.
Proof using Type.
  intros HT Hr. pose proof HT as (_ & Hw & _). destruct o as [k v|k|k|k|]; simpl.
  - destruct (Set_models T ot room k v HT Hr) as (T' & -> & H1 & _). exists T', (oset k v ot).
    split; [done|]. split; [done|]. by apply oset_map.
  - destruct (Remove_models T ot room k HT ltac:(lia)) as (T' & -> & H1 & _). exists T', (oremove k ot).
    split; [done|]. split; [apply (models_weaken _ _ room); [done|lia]|]. by apply oremove_map.
  - rewrite (Get_models T ot room k HT ltac:(lia)). exists T, ot.
    split; [done|]. split; [apply (models_weaken _ _ room); [done|lia]|done].
  - rewrite (Has_models T ot room k HT). exists T, ot.
    split; [done|]. split; [apply (models_weaken _ _ room); [done|lia]|done].
  - rewrite (Size_models T ot room HT). exists T, ot.
    split; [done|]. split; [apply (models_weaken _ _ room); [done|lia]|done].
Qed.

Lemma run_ops_spec os : ∀ T ot room,
  models T ot room → Z.of_nat (length os) <= room →
  ∃ T' ot', run_ops T os = Ret (T', (spec_ops (omap ot) os).2) ∧
    models T' ot' (room - Z.of_nat (length os)) ∧ omap ot' = (spec_ops (omap ot) os).1.
Proof using Type.
  induction os as [|o os IH]; intros T ot room HT Hr.
  - exists T, ot. simpl. rewrite Z.sub_0_r. done.
  - cbn [length] in Hr. destruct (run_op_spec T ot room o HT ltac:(lia)) as (T1 & ot1 & E1 & HT1 & Hm1).
    destruct (IH T1 ot1 (room - 1) HT1 ltac:(lia)) as (T2 & ot2 & E2 & HT2 & Hm2).
    exists T2, ot2. cbn [run_ops spec_ops]. rewrite E1. cbn [mbind outcome_bind]. rewrite E2.
    destruct (spec_op (omap ot) o) as [m x]. simpl in Hm1. rewrite Hm1 in *.
    destruct (spec_ops m os) as [m' xs]. simpl in *. split; [done|]. split; [|done].
    apply (models_weaken _ _ (room - 1 - Z.of_nat (length os))); [done|lia].
Qed.

(** C7: any sequence of tree operations (set, remove, get with its index, has, size)
    from a well-formed tree, in memory or loaded lazily from the database, returns
    what the same sequence on a finite map returns, never panics as long as the
    number of keys fits an int32, and leaves a well-formed tree whose height is at
    most twice the logarithm of the number of keys. *)
Theorem mavl_refines_map T ot room os :
  models T ot room → Z.of_nat (length os) <= room →
  ∃ T' ot', run_ops T os = Ret (T', (spec_ops (omap ot) os).2) ∧
    models T' ot' (room - Z.of_nat (length os)) ∧ omap ot' = (spec_ops (omap ot) os).1 ∧
    (ot' ≠ None → 2 ^ Height T' <= Size T' * Size T').
Proof using Type.
  intros HT Hr. destruct (run_ops_spec os T ot room HT Hr) as (T' & ot' & H1 & H2 & H3).
  exists T', ot'. split_and!; try done. intros Hn. rewrite (Size_models _ _ _ H2). by eapply Height_models.
Qed.

(** ** The state store *)

(** State hash [oh] stands for the contents of [ot] in database [db]. *)
Definition root_of (db : gmap bytes bytes) (oh : option bytes) (ot : option tree) (room : Z) : Prop :=
  match ot with
  | None => (oh = None ∨ oh = Some emptyRoot) ∧ room < 2 ^ 31
  | Some t => oh = Some (thash t) ∧ thash t ≠ emptyRoot ∧ stored db t ∧ bst t ∧ balanced t ∧ tsize t + room < 2 ^ 31
  end.

Lemma Load_models db oh ot room T0 :
  root_of db oh ot room → root T0 = None → ndb T0 = db → batch T0 = Some [] →
  ∃ T, Load T0 oh = Ret T ∧ models T ot room ∧ ndb T = db ∧ batch T = Some [].
Proof using Type.
  intros Hr H0 <- Hb. destruct ot as [t|]; simpl in Hr.
  - destruct Hr as (-> & Hne & Hs & Hbst & Hbal & Hsz). simpl.
    destruct (String.eqb_spec (thash t) emptyRoot) as [Ee|_]; [done|].
    destruct (GetNode_run (ndb T0) t Hs) as (n & -> & Hn & _). cbn [mbind outcome_bind].
    eexists. split; [done|]. split; [|done]. done.
  - destruct Hr as [Hoh Hroom]. exists T0. split.
    + destruct Hoh as [->| ->]; [done|]. unfold Load. by rewrite String.eqb_refl.
    + split; [|done]. split; [unfold tree_rep; by rewrite H0|done].
Qed.

Lemma get_all_models T ot room ks :
  models T ot room → 0 <= room → get_all T ks = Ret (map (λ k, default "" (omap ot !! k)) ks).
Proof using Type.
  intros HT Hr. induction ks as [|k ks IH]; [done|]. cbn [get_all map].
  rewrite (Get_models T ot room k HT Hr). cbn [mbind outcome_bind]. by rewrite IH.
Qed.

Lemma GetKVPair_root db oh ot room ks :
  root_of db oh ot room → 0 <= room → GetKVPair db oh ks = Ret (map (λ k, default "" (omap ot !! k)) ks).
Proof using Type.
  intros Hr H0. unfold GetKVPair.
  destruct (Load_models db oh ot room (NewTree db) Hr) as (T & -> & HT & _); [done..|].
  by apply (get_all_models T ot room).
Qed.

Definition oset_all (ot : option tree) (kvs : list (bytes * bytes)) : option tree :=
  foldl (λ ot kv, oset kv.1 kv.2 ot) ot kvs.
Definition insert_all (m : gmap bytes bytes) (kvs : list (bytes * bytes)) : gmap bytes bytes :=
  foldl (λ m kv, <[kv.1 := kv.2]> m) m kvs.

Lemma set_all_models kvs : ∀ T ot room,
  models T ot room → Z.of_nat (length kvs) <= room →
  ∃ T', set_all T kvs = Ret T' ∧ models T' (oset_all ot kvs) (room - Z.of_nat (length kvs)) ∧
    omap (oset_all ot kvs) = insert_all (omap ot) kvs ∧ ndb T' = ndb T ∧ batch T' = batch T.
Proof using Type.
  induction kvs as [|[k v] kvs IH]; intros T ot room HT Hr.
  - exists T. simpl. by rewrite Z.sub_0_r.
  - cbn [length] in Hr. destruct (Set_models T ot room k v HT ltac:(lia)) as (T1 & E1 & HT1 & Hd1 & Hb1).
    destruct (IH T1 _ (room - 1) HT1 ltac:(lia)) as (T2 & E2 & HT2 & Hm2 & Hd2 & Hb2).
    exists T2. cbn [set_all]. rewrite E1. cbn [mbind outcome_bind]. rewrite E2. split; [done|].
    split; [apply (models_weaken _ _ (room - 1 - Z.of_nat (length kvs))); [done|cbn [length]; lia]|].
    split; [|by rewrite Hd2, Hb2]. cbn [oset_all insert_all foldl fst snd]. unfold oset_all in Hm2. rewrite Hm2.
    rewrite oset_map; [done|]. by destruct HT as (_ & ? & _).
Qed.

Lemma root_mono db db' oh ot room : db ⊆ db' → root_of db oh ot room → root_of db' oh ot room.
Proof using Type.
  intros Hd. destruct ot as [t|]; simpl; [|done]. intros (H1 & H2 & H3 & H4).
  split; [done|]. split; [done|]. split; [by eapply stored_mono|done].
Qed.

Lemma root_room db oh ot room room' : root_of db oh ot room → room' <= room → root_of db oh ot room'.
Proof using Type.
  destruct ot as [t|]; simpl; [|intros [? ?]; split; [done|lia]].
  intros (H1 & H2 & H3 & H4 & H5 & H6) Hr. split_and!; try done. lia.
Qed.

(** [SetKVPair] on a known state hash returns the hash of the updated tree; the
    new hash reads back the old contents with all the pairs applied in order, every
    state hash that was readable before still reads the same values, and a failed
    database write returns no hash and changes nothing. *)
Lemma mavl_set_kv db oh ot h kvs t' :
  root_of db oh ot (Z.of_nat (length kvs)) → oset_all ot kvs = Some t' →
  no_clash db t' → thash t' ≠ emptyRoot →
  ∃ db', SetKVPair true db oh h kvs = Ret (db', Some (thash t')) ∧
    SetKVPair false db oh h kvs = Ret (db, None) ∧
    (∀ ks, GetKVPair db' (Some (thash t')) ks =
             Ret (map (λ k, default "" (insert_all (omap ot) kvs !! k)) ks)) ∧
    (∀ oh0 ot0 ks, root_of db oh0 ot0 0 →
       GetKVPair db' oh0 ks = Ret (map (λ k, default "" (omap ot0 !! k)) ks)).
Proof using Type.
  intros Hr Hot Hc Hne.
  destruct (Load_models db oh ot _ (SetBlockHeight (NewTree db) h) Hr) as (T & EL & HT & Hd & Hb); [done..|].
  destruct (set_all_models kvs T ot _ HT ltac:(done)) as (T1 & ES & HT1 & Hm & Hd1 & Hb1).
  rewrite Z.sub_diag, Hot in HT1. rewrite Hot in Hm. rewrite Hd in Hd1. rewrite Hb in Hb1. rewrite <-Hd1 in Hc.
  destruct (Save_models T1 t' 0 HT1 Hb1 Hc) as (T2 & E2 & Hs2 & Hsub & HT2).
  exists (ndb T2). unfold SetKVPair. rewrite EL. cbn [mbind outcome_bind]. rewrite ES. cbn [mbind outcome_bind].
  rewrite E2. split; [done|]. split; [|split].
  - destruct (Save_failed T1 t' 0 HT1 Hb1) as (T3 & -> & E3). cbn [mbind outcome_bind]. by rewrite E3, Hd1.
  - intros ks. destruct HT2 as (_ & [Hbst Hbal] & Hsz).
    rewrite (GetKVPair_root (ndb T2) _ (Some t') 0); [by rewrite Hm|by split_and!|done].
  - intros oh0 ot0 ks Hr0. apply (GetKVPair_root _ _ _ 0); [|done]. apply (root_mono db); [by rewrite <-Hd1|done].
Qed.

Definition oremove_all (ot : option tree) (ks : list bytes) : option tree := foldl (λ ot k, oremove k ot) ot ks.

(** Deleting keys one after the other from a map: the values found, the map left. *)
Fixpoint delete_all (m : gmap bytes bytes) (ks : list bytes) : gmap bytes bytes * list bytes :=
  match ks with
  | [] => (m, [])
  | k :: ks => let '(m', vs) := delete_all (delete k m) ks in (m', default "" (m !! k) :: vs)
  end.

Lemma remove_all_models ks : ∀ T ot room,
  models T ot room → 0 <= room →
  ∃ T', remove_all T ks = Ret (T', (delete_all (omap ot) ks).2) ∧ models T' (oremove_all ot ks) room ∧
    omap (oremove_all ot ks) = (delete_all (omap ot) ks).1 ∧ ndb T' = ndb T ∧ batch T' = batch T.
Proof using Type.
  induction ks as [|k ks IH]; intros T ot room HT Hr; [by exists T|].
  destruct (Remove_models T ot room k HT Hr) as (T1 & E1 & HT1 & Hd1 & Hb1).
  destruct (IH T1 _ room HT1 Hr) as (T2 & E2 & HT2 & Hm2 & Hd2 & Hb2).
  exists T2. cbn [remove_all]. rewrite E1. cbn [mbind outcome_bind]. rewrite E2. cbn [mbind outcome_bind].
  rewrite oremove_map in Hm2 |- * by (by destruct HT as (_ & ? & _)).
  cbn [delete_all oremove_all foldl]. unfold oremove_all in *. rewrite Hm2.
  destruct (delete_all (delete k (omap ot)) ks) as [m' vs]. split_and!; try done; congruence.
Qed.

(** [DelKVPair] returns, in order, the values the keys had when they were deleted,
    and the hash of a tree that reads back the other keys; old state hashes still
    read the same values. *)
Lemma mavl_del_kv db oh ot ks t' :
  root_of db oh ot 0 → oremove_all ot ks = Some t' → no_clash db t' → thash t' ≠ emptyRoot →
  ∃ db', DelKVPair true db oh ks = Ret (db', Some (thash t'), (delete_all (omap ot) ks).2) ∧
    (∀ ks', GetKVPair db' (Some (thash t')) ks' =
              Ret (map (λ k, default "" ((delete_all (omap ot) ks).1 !! k)) ks')) ∧
    (∀ oh0 ot0 ks', root_of db oh0 ot0 0 →
       GetKVPair db' oh0 ks' = Ret (map (λ k, default "" (omap ot0 !! k)) ks')).
Proof using Type.
  intros Hr Hot Hc Hne.
  destruct (Load_models db oh ot _ (NewTree db) Hr) as (T & EL & HT & Hd & Hb); [done..|].
  destruct (remove_all_models ks T ot _ HT ltac:(done)) as (T1 & ES & HT1 & Hm & Hd1 & Hb1).
  rewrite Hot in HT1, Hm. rewrite Hd in Hd1. rewrite Hb in Hb1. rewrite <-Hd1 in Hc.
  destruct (Save_models T1 t' 0 HT1 Hb1 Hc) as (T2 & E2 & Hs2 & Hsub & HT2).
  exists (ndb T2). unfold DelKVPair. rewrite EL. cbn [mbind outcome_bind]. rewrite ES. cbn [mbind outcome_bind].
  rewrite E2. split; [done|]. split.
  - intros ks'. destruct HT2 as (_ & [Hbst Hbal] & Hsz).
    rewrite (GetKVPair_root (ndb T2) _ (Some t') 0); [by rewrite <-Hm|by split_and!|done].
  - intros oh0 ot0 ks' Hr0. apply (GetKVPair_root _ _ _ 0); [|done]. apply (root_mono db); [by rewrite <-Hd1|done].
Qed.

(** ** Membership proofs *)

Lemma GetKVPairProof_run db t room k :
  root_of db (Some (thash t)) (Some t) room →
  GetKVPairProof db (Some (thash t)) k =
    Ret (match t_path k t with
         | None => None
         | Some (_, bs) => Some (Encode {| mp_LeafHash := ""; mp_InnerNodes := bs; mp_RootHash := "" |})
         end).
Proof using Type.
  intros Hr. unfold GetKVPairProof.
  destruct (Load_models db _ (Some t) room (NewTree db) Hr) as (T & -> & HT & _); [done..|].
  cbn [mbind outcome_bind]. unfold Tree_Proof.
  destruct (ConstructProof_models T (Some t) room k HT) as (T' & _ & ->). cbn [mbind outcome_bind].
  by destruct (t_path k t) as [[v bs]|].
Qed.

(** C10: for every key of a stored state [GetKVPairProof] returns a proof that
    [VerifyKVPairProof] accepts for its value under the state hash, and for every
    other key it returns no proof. *)
Theorem mavl_proof_complete db t room k :
  root_of db (Some (thash t)) (Some t) room →
  match tmap t !! k with
  | Some v => ∃ proof, GetKVPairProof db (Some (thash t)) k = Ret (Some proof) ∧
                VerifyKVPairProof (thash t) k v proof = Ret true
  | None => GetKVPairProof db (Some (thash t)) k = Ret None
  end.
Proof using Type.
  intros Hr. rewrite (GetKVPairProof_run db t room k Hr). destruct Hr as (_ & _ & _ & Hb & _).
  rewrite (t_path_lookup k t Hb). destruct (t_path k t) as [[v bs]|] eqn:E; simpl; [|done].
  eexists. split; [done|]. unfold VerifyKVPairProof, ReadProof. rewrite Decode_Encode. f_equal.
  by apply (Verify_path k v t bs).
Qed.

(** C11: a proof that [VerifyKVPairProof] accepts for [k, v] under the hash of a
    search tree shows that the tree maps [k] to [v], provided that no branch of the
    proof claims height zero and that the hash function has no collision between the
    nodes of the tree and the messages the verifier hashes. *)
Theorem mavl_proof_sound t k v proof m :
  wire_compatible → bst t → Decode proof = Some m →
  Forall (λ b, in_Height b ≠ 0) (mp_InnerNodes m) →
  collision_free (preimage <$> subtrees t) (proof_preimages (Encode (leaf_of k v)) (mp_InnerNodes m)) →
  VerifyKVPairProof (thash t) k v proof = Ret true → tmap t !! k = Some v.
Proof using Type.
  intros Hw Hb Hd Hh Hc. unfold VerifyKVPairProof, ReadProof. rewrite Hd. unfold Verify.
  cbn [RootHash LeafHash InnerNodes]. rewrite String.eqb_refl, trim32_id by apply Sha256_length.
  rewrite String.eqb_refl. cbn [negb]. intros [= E%String.eqb_eq].
  apply elem_of_list_to_map; [by apply elements_nodup|].
  by apply (path_sound k v t (mp_InnerNodes m)).
Qed.

(** Protobuf: the two node messages have the same fields under the same numbers, so
    equal fields give equal encodings. *)
Definition wire_shared : Prop :=
  ∀ a b h n, Encode {| ln_Key := a; ln_Value := b; ln_Height := h; ln_Size := n |} =
             Encode {| in_LeftHash := a; in_RightHash := b; in_Height := h; in_Size := n |}.

(** The verifier does not check the heights of the branches, so a leaf whose key
    is the hash of a made-up pair [k, v] passes for an inner node: if the state maps
    that hash to a value of at most 32 bytes, a proof of [k, v] is accepted whatever
    the state holds for [k]. *)
Lemma mavl_proof_forgery t k v w :
  wire_shared → bst t → tmap t !! LeafNode_Hash (leaf_of k v) = Some w → (String.length w ≤ sha256Len)%nat →
  ∃ proof, VerifyKVPairProof (thash t) k v proof = Ret true.
Proof using Type.
  intros Hw Hb Hk Hl. rewrite (t_path_lookup _ t Hb) in Hk.
  destruct (t_path _ t) as [[w' bs]|] eqn:E; [|done]. injection Hk as ->. apply t_path_hash in E.
  exists (Encode {| mp_LeafHash := "";
    mp_InnerNodes := {| in_LeftHash := ""; in_RightHash := w; in_Height := 0; in_Size := 1 |} :: bs; mp_RootHash := "" |}).
  unfold VerifyKVPairProof, ReadProof. rewrite Decode_Encode. f_equal. unfold Verify.
  cbn [RootHash LeafHash InnerNodes mp_InnerNodes foldl]. rewrite String.eqb_refl, trim32_id by apply Sha256_length.
  rewrite String.eqb_refl. cbn [negb]. apply String.eqb_eq. rewrite <-E. f_equal.
  unfold InnerNodeProofHash, InnerNode_Hash, LeafNode_Hash at 1. cbn [in_LeftHash in_RightHash in_Height in_Size String.eqb].
  rewrite trim32_id by apply Sha256_length. unfold leaf_of at 1. rewrite Hw. do 2 f_equal.
  unfold trim32. by rewrite (proj2 (Nat.ltb_ge _ _)).
Qed.

(** Undecodable proof bytes make the verifier panic. *)
Lemma VerifyKVPairProof_undecodable roothash k v proof :
  Decode (A := MAVLProof) proof = None → VerifyKVPairProof roothash k v proof = Panic.
Proof using Type. intros E. unfold VerifyKVPairProof, ReadProof. by rewrite E. Qed.

(** ** Iteration *)

(** [IterateRange] (upper bound excluded) and [IterateRangeInclusive] call the
    callback exactly on the pairs of the tree in the range, in increasing or
    decreasing key order, until it asks to stop, and return whether it did; the
    pairs they draw from are those of the map, in strictly increasing order. *)
Lemma mavl_iterate {St} T ot room start end_ ascending (fn : callback) (s : St) :
  models T ot room →
  IterateRange T start end_ ascending fn s =
    Ret (visit fn (direction ascending (filter (in_range start end_ false) (sorted_pairs ot))) s) ∧
  IterateRangeInclusive T start end_ ascending fn s =
    Ret (visit fn (direction ascending (filter (in_range start end_ true) (sorted_pairs ot))) s) ∧
  StronglySorted bytes_lt (sorted_pairs ot).*1 ∧ list_to_map (sorted_pairs ot) = omap ot.
Proof using Type.
  intros HT. split; [by eapply iterate_models|]. split; [by eapply iterate_models|].
  destruct HT as (_ & Hw & _). destruct ot as [t|]; simpl.
  - split; [by apply elements_sorted; destruct Hw|done].
  - split; [constructor|done].
Qed.
End Claims.

(** ** Witnesses *)

#[local] Existing Instance MavlDemo.env.

(** Executable checks of the hypotheses on concrete trees. *)
Definition no_clash_b (db : gmap bytes bytes) (t : tree) : bool :=
  let es := map entry (subtrees t) in
  forallb (λ e, match db !! e.1 with None => true | Some v => String.eqb v e.2 end &&
                forallb (λ e', implb (String.eqb e.1 e'.1) (String.eqb e.2 e'.2)) es) es.

Lemma no_clash_check db t : no_clash_b db t = true → no_clash db t.
Proof.
  unfold no_clash_b. rewrite forallb_forall. intros H s Hs.
  apply list_elem_of_In, (in_map entry), H, andb_true_iff in Hs as [H1 H2]. cbn [entry fst snd] in *. split.
  - intros v Hv. rewrite Hv in H1. by apply String.eqb_eq.
  - intros s' Hs' E. rewrite forallb_forall in H2. apply list_elem_of_In, (in_map entry), H2 in Hs'.
    cbn [entry fst snd] in Hs'. rewrite E, String.eqb_refl in Hs'. apply String.eqb_eq in Hs'. by apply Encode_inj in Hs'.
Qed.

Definition collision_free_b (xs ys : list bytes) : bool :=
  forallb (λ x, forallb (λ y, implb (String.eqb (Sha256 x) (Sha256 y)) (String.eqb x y)) ys) xs.

Lemma collision_free_check xs ys : collision_free_b xs ys = true → collision_free xs ys.
Proof.
  unfold collision_free_b. rewrite forallb_forall. intros H x y Hx Hy E.
  apply list_elem_of_In, H in Hx. rewrite forallb_forall in Hx. apply list_elem_of_In, Hx in Hy.
  rewrite E, String.eqb_refl in Hy. by apply String.eqb_eq.
Qed.

Lemma demo_wire : wire_compatible ∧ wire_shared.
Proof.
  split; [|done]. intros [a b c d] [a' b' c' d'] E.
  apply (Encode_inj (C := MavlDemo.quad_codec) (a, b, c, d) (a', b', c', d')) in E. by injection E.
Qed.

Definition demo_kvs : list (bytes * bytes) := [("b", "1"); ("a", "2"); ("c", "3")].
Definition demo_tree : tree := (t_set "c" "3" (t_set "a" "2" (Leaf "b" "1")).1).1.
Definition demo_db : gmap bytes bytes := apply_batch (map entry (subtrees demo_tree)) ∅.

Lemma demo_bst : bst demo_tree ∧ balanced demo_tree.
Proof.
  split; [by apply t_set_bst, t_set_bst|]. by apply t_set_balanced, t_set_balanced.
Qed.

Lemma demo_root : root_of demo_db (Some (thash demo_tree)) (Some demo_tree) 0.
Proof.
  destruct demo_bst as [H1 H2]. split; [done|]. split; [vm_compute; discriminate|]. split; [|by split_and!].
  vm_compute. done.
Qed.

Lemma mavl_refines_map_witness :
  ∃ T, run_ops (NewTree ∅) [TSet "b" "1"; TSet "a" "2"; TGet "b"; TRemove "a"; TSize] =
    Ret (T, [OSet false; OSet false; OGet 1 (Some "1"); ORemove (Some "2"); OSize 1]).
Proof.
  destruct (mavl_refines_map (NewTree ∅) None 10 [TSet "b" "1"; TSet "a" "2"; TGet "b"; TRemove "a"; TSize])
    as (T & ot & E & _); [done|done|]. exists T. rewrite E. vm_compute. reflexivity.
Defined.

Lemma mavl_set_kv_witness :
  ∃ db', SetKVPair true ∅ None 1 demo_kvs = Ret (db', Some (thash demo_tree)) ∧
    GetKVPair db' (Some (thash demo_tree)) ["a"; "b"; "x"] = Ret ["2"; "1"; ""].
Proof.
  destruct (mavl_set_kv ∅ None None 1 demo_kvs demo_tree) as (db' & H1 & _ & H2 & _).
  - split; [by left|done].
  - reflexivity.
  - apply no_clash_check. vm_compute. reflexivity.
  - vm_compute. discriminate.
  - exists db'. split; [exact H1|]. rewrite H2. vm_compute. reflexivity.
Defined.

Lemma mavl_del_kv_witness :
  ∃ db' h, DelKVPair true demo_db (Some (thash demo_tree)) ["a"; "x"] = Ret (db', Some h, ["2"; ""]) ∧
    GetKVPair db' (Some h) ["a"; "b"] = Ret [""; "1"].
Proof.
  destruct (oremove_all (Some demo_tree) ["a"; "x"]) as [t'|] eqn:E; [|discriminate].
  destruct (mavl_del_kv demo_db _ _ ["a"; "x"] t' demo_root E) as (db' & H1 & H2 & _).
  - apply no_clash_check. vm_compute in E. injection E as <-. vm_compute. reflexivity.
  - vm_compute in E. injection E as <-. vm_compute. discriminate.
  - exists db', (thash t'). split; [exact H1|]. rewrite H2. vm_compute. reflexivity.
Defined.

Lemma mavl_proof_complete_witness :
  ∃ proof, GetKVPairProof demo_db (Some (thash demo_tree)) "a" = Ret (Some proof) ∧
    VerifyKVPairProof (thash demo_tree) "a" "2" proof = Ret true.
Proof. exact (mavl_proof_complete demo_db demo_tree 0 "a" demo_root). Defined.

Definition demo_proof : MAVLProof :=
  {| mp_LeafHash := ""; mp_RootHash := "";
     mp_InnerNodes := match t_path "a" demo_tree with Some (_, bs) => bs | None => [] end |}.

Lemma mavl_proof_sound_witness : tmap demo_tree !! "a" = Some "2".
Proof.
  apply (mavl_proof_sound demo_tree "a" "2" (Encode demo_proof) demo_proof).
  - apply demo_wire.
  - apply demo_bst.
  - apply Decode_Encode.
  - eapply (t_path_heights "a" demo_tree "2"). vm_compute. reflexivity.
  - apply collision_free_check. vm_compute. reflexivity.
  - vm_compute. reflexivity.
Defined.

Lemma mavl_proof_forgery_witness :
  let t := Leaf (LeafNode_Hash (leaf_of "a" "forged")) "x" in
  tmap t !! "a" = None ∧ ∃ proof, VerifyKVPairProof (thash t) "a" "forged" proof = Ret true.
Proof.
  split; [vm_compute; reflexivity|].
  apply (mavl_proof_forgery _ "a" "forged" "x"); [apply demo_wire|exact I|vm_compute; reflexivity|].
  vm_compute. lia.
Defined.

Lemma mavl_iterate_witness :
  IterateRange (NewTree ∅) None (Some "c") true (λ k v s, (false, s ++ [(k, v)])) [("z", "0")] = Ret (false, [("z", "0")]) ∧
  IterateRange (mkTree (Some (mkNode "b" "" 1 2 None None (Some (NewNode "a" "1")) None (Some (NewNode "b" "2")) false)) ∅ None 0)
    (Some "b") None false (λ k v s, (false, s ++ [(k, v)])) [] = Ret (false, [("b", "2")]).
Proof.
  split.
  - apply (mavl_iterate (NewTree ∅) None 0 None (Some "c") true (λ k v s, (false, s ++ [(k, v)])) [("z", "0")]). done.
  - apply (mavl_iterate (mkTree (Some (mkNode "b" "" 1 2 None None (Some (NewNode "a" "1")) None (Some (NewNode "b" "2")) false)) ∅ None 0)
      (Some (t_set "b" "2" (Leaf "a" "1")).1) 0 (Some "b") None false (λ k v s, (false, s ++ [(k, v)])) []).
    split; [|split; [split; [by apply t_set_bst|by apply t_set_balanced]|done]].
    apply rep_intro; [|done..]. split_and!; [done|done|apply rep_new|apply rep_new].
Defined.
