(* ===== verification/MavlStore.v ===== *)
(** The state store module: [Store] of [system/store/mavl/mavl.go] over the Merkle-AVL tree,
    with the messages of [system/store/base.go].  A state is first made in memory ([MemSet]),
    then written ([Commit]) or dropped ([Rollback]); the trees in memory share the database of
    the store.  Requests are taken one at a time. *)

From Stdlib Require Import Ascii String.
From S2P Require Import Prelude MavlSpec Mavl MavlTree MavlProof MavlIter Account.
Local Open Scope string_scope.
Local Open Scope Z_scope.
Local Open Scope list_scope.

Definition ErrHashNotFound : error := ErrOther "ErrHashNotFound".
Definition ErrDataBaseDamage : error := ErrOther "ErrDataBaseDamage".

(** [type Store struct]: the database, and the trees by hash.  A nil tree stands for a set of
    no pairs. *)
Record Store := mkStore { s_db : gmap bytes bytes; trees : gmap bytes (option Tree) }.

(** A tree reads the database as it is now. *)
Definition in_db (db : gmap bytes bytes) (T : Tree) : Tree := mkTree (root T) db (batch T) (blockHeight T).

Section Store.
Context {ENV : MavlEnv} {CA : Codec Account}.

Definition set_trees (ts : gmap bytes (option Tree)) (s : Store) : Store := mkStore (s_db s) ts.
Definition bytes_of (h : option bytes) : bytes := default "" h.

Definition store_Set (ok : bool) (stateHash : option bytes) (height : Z) (kvs : list (bytes * bytes)) : M Store (option bytes) := λ s,
  match SetKVPair ok (s_db s) stateHash height kvs with
  | Ret (db, hash) => (Ret hash, mkStore db (trees s))
  | Err e => (Err e, s)
  | Panic => (Panic, s)
  end.

(** A value without bytes is [None]: a key that is not there has a nil value, and so has a
    stored key whose value is empty, since the encoding of a node leaves an empty value out. *)
Definition no_bytes (v : option bytes) : option bytes := match v with Some EmptyString => None | v => v end.
Fixpoint get_values (t : Tree) (keys : list bytes) : outcome (list (option bytes)) :=
  match keys with
  | [] => Ret []
  | k :: keys => '(_, v) ← Get t k; vs ← get_values t keys; Ret (no_bytes v :: vs)
  end.
Definition store_Get (stateHash : option bytes) (keys : list bytes) : M Store (list (option bytes)) := λ s,
  (match trees s !! bytes_of stateHash with
   | Some (Some tree) => get_values (in_db (s_db s) tree) keys
   | _ =>
       match Load (NewTree (s_db s)) stateHash with
       | Ret tree => get_values tree keys
       | Err _ => Ret (map (λ _, None) keys)
       | Panic => Panic
       end
   end, s).

(** The tree of [MemSet] before it is stored. *)
Definition mem_tree (stateHash : option bytes) (height : Z) (kvs : list (bytes * bytes)) (db : gmap bytes bytes) :
    outcome (Tree * option bytes) :=
  tree ← Load (SetBlockHeight (NewTree db) height) stateHash;
  tree ← set_all tree kvs;
  Tree_Hash tree.

Definition no_pairs (stateHash : option bytes) : M Store (option bytes) := λ s,
  (Ret stateHash, set_trees (<[bytes_of stateHash := None]> (trees s)) s).

Definition MemSet (stateHash : option bytes) (height : Z) (kvs : list (bytes * bytes)) : M Store (option bytes) :=
  match kvs with
  | [] => no_pairs stateHash
  | _ => λ s,
      match mem_tree stateHash height kvs (s_db s) with
      | Ret (tree, hash) => (Ret hash, set_trees (<[bytes_of hash := Some tree]> (trees s)) s)
      | Err e => (Err e, s)
      | Panic => (Panic, s)
      end
  end.

Definition MemSetUpgrade (stateHash : option bytes) (height : Z) (kvs : list (bytes * bytes)) : M Store (option bytes) :=
  match kvs with
  | [] => no_pairs stateHash
  | _ => λ s, ('(_, hash) ← mem_tree stateHash height kvs (s_db s); Ret hash, s)
  end.

(** [ok] says whether the database takes the batch.  A tree that could not be written stays. *)
Definition store_Commit (ok : bool) (hash : option bytes) : M Store (option bytes) := λ s,
  match trees s !! bytes_of hash with
  | None => (Err ErrHashNotFound, s)
  | Some None => (Ret hash, set_trees (delete (bytes_of hash) (trees s)) s)
  | Some (Some tree) =>
      match Save ok (in_db (s_db s) tree) with
      | Ret (tree, Some _) => (Ret hash, mkStore (ndb tree) (delete (bytes_of hash) (trees s)))
      | Ret (tree, None) => (Err ErrDataBaseDamage, mkStore (ndb tree) (<[bytes_of hash := Some tree]> (trees s)))
      | Err e => (Err e, s)
      | Panic => (Panic, s)
      end
  end.

Definition CommitUpgrade (hash : option bytes) : M Store (option bytes) := mret hash.

Definition store_Rollback (hash : option bytes) : M Store (option bytes) := λ s,
  match trees s !! bytes_of hash with
  | None => (Err ErrHashNotFound, s)
  | Some _ => (Ret hash, set_trees (delete (bytes_of hash) (trees s)) s)
  end.

(** Not supported. *)
Definition store_Del : M Store (option bytes) := mret None.

Definition store_IterateRange {St} (stateHash start end_ : option bytes) (ascending : bool) (fn : bytes → bytes → St → bool * St) (x : St) :
    M Store St := λ s, (IterateRangeByStateHash (s_db s) stateHash start end_ ascending fn x, s).

(** ** Listing *)

(** [type StoreListReply]; [Start] and [End] are those of the request. *)
Record StoreListReply := mkReply {
  l_Suffix : bytes; l_Count : Z; l_Num : Z; l_NextKey : bytes; l_Keys : list bytes; l_Values : list bytes; l_Mode : Z }.

Definition took (t : StoreListReply) (k v : bytes) : StoreListReply :=
  mkReply (l_Suffix t) (l_Count t) (l_Num t +₆₄ 1) (l_NextKey t) (l_Keys t ++ [k]) (l_Values t ++ [v]) (l_Mode t).
Definition stopped (t : StoreListReply) (k : bytes) : StoreListReply :=
  mkReply (l_Suffix t) (l_Count t) (l_Num t) k (l_Keys t) (l_Values t) (l_Mode t).

Definition IterateCallBack (key value : bytes) (t : StoreListReply) : bool * StoreListReply :=
  if l_Mode t =? 1 then
    if l_Count t <=? l_Num t then (true, stopped t key) else (false, took t key value)
  else if l_Mode t =? 2 then
    if (String.length (l_Suffix t) <? String.length key)%nat then
      if String.eqb (str_last (String.length (l_Suffix t)) key) (l_Suffix t) then
        let t := took t key value in
        if l_Count t <=? l_Num t then (true, stopped t key) else (false, t)
      else (false, t)
    else (false, t)
  else (true, t).

Definition NewStoreListQuery (suffix : bytes) (count mode : Z) : StoreListReply := mkReply suffix count 0 "" [] [] mode.
Definition query_Run (stateHash start end_ : option bytes) (suffix : bytes) (count mode : Z) : M Store StoreListReply :=
  store_IterateRange stateHash start end_ true IterateCallBack (NewStoreListQuery suffix count mode).

(** [ReplyGetTotalCoins]. *)
Record ReplyGetTotalCoins := mkCoins { tc_Count : Z; tc_Num : Z; tc_Amount : Z; tc_NextKey : bytes }.
Definition coins_callback (key value : bytes) (t : ReplyGetTotalCoins) : bool * ReplyGetTotalCoins :=
  match Decode value with
  | None => (true, t)
  | Some acc =>
      if tc_Count t <=? tc_Num t then (true, mkCoins (tc_Count t) (tc_Num t) (tc_Amount t) key)
      else (false, mkCoins (tc_Count t) (tc_Num t +₆₄ 1) (tc_Amount t +₆₄ Balance acc) (tc_NextKey t))
  end.

(** ** Messages *)

Inductive store_msg :=
  | EventStoreSet (stateHash : option bytes) (height : Z) (kvs : list (bytes * bytes))
  | EventStoreGet (stateHash : option bytes) (keys : list bytes)
  | EventStoreMemSet (stateHash : option bytes) (height : Z) (kvs : list (bytes * bytes)) (upgrade : bool)
  | EventStoreCommit (hash : option bytes) (upgrade : bool)
  | EventStoreRollback (hash : option bytes)
  | EventStoreGetTotalCoins (stateHash start end_ : option bytes) (count : Z)
  | EventStoreDel
  | EventStoreList (stateHash start end_ : option bytes) (suffix : bytes) (count mode : Z)
  | EventOther.

Inductive store_reply :=
  | ReplyHash (hash : option bytes)
  | ReplyValues (values : list (option bytes))
  | ReplyTotalCoins (r : ReplyGetTotalCoins)
  | ReplyList (r : StoreListReply)
  | ReplyErr (e : error).

Definition reply {A} (m : M Store A) (f : A → store_reply) (g : error → store_reply) : M Store store_reply := λ s,
  match m s with
  | (Ret a, s) => (Ret (f a), s)
  | (Err e, s) => (Ret (g e), s)
  | (Panic, s) => (Panic, s)
  end.

(** [ok]: the database takes what is written for this message. *)
Definition processMessage (ok : bool) (msg : store_msg) : M Store store_reply :=
  match msg with
  | EventStoreSet h height kvs => reply (store_Set ok h height kvs) ReplyHash ReplyErr
  | EventStoreGet h keys => reply (store_Get h keys) ReplyValues ReplyErr
  | EventStoreMemSet h height kvs upgrade =>
      reply (if upgrade then MemSetUpgrade h height kvs else MemSet h height kvs) ReplyHash ReplyErr
  | EventStoreCommit h upgrade =>
      reply (if upgrade then CommitUpgrade h else store_Commit ok h)
        (λ hash, match hash with None => ReplyErr ErrHashNotFound | Some _ => ReplyHash hash end) (λ _, ReplyErr ErrHashNotFound)
  | EventStoreRollback h => reply (store_Rollback h) ReplyHash (λ _, ReplyErr ErrHashNotFound)
  | EventStoreGetTotalCoins h start end_ count =>
      reply (store_IterateRange h start end_ true coins_callback (mkCoins count 0 0 "")) ReplyTotalCoins ReplyErr
  | EventStoreDel => reply store_Del ReplyHash (λ _, ReplyErr ErrHashNotFound)
  | EventStoreList h start end_ suffix count mode => reply (query_Run h start end_ suffix count mode) ReplyList ReplyErr
  | EventOther => mret (ReplyErr ErrActionNotSupport)
  end.
End Store.
