(* ===== verification/MavlStoreTheorems.v ===== *)
(** What the state store promises: the states committed are known by their hashes for ever, a
    state in memory is read under its hash until it is committed or dropped, and dropping it
    leaves no trace.  The database may refuse what is written for a message.  The contract
    [spec_msg] keeps the trees committed and what is pending; [store_inv] ties it to the
    database and the trees in memory. *)

From Stdlib Require Import Ascii String Sorted.
From S2P Require Import Prelude MavlSpec Mavl MavlTree MavlProof MavlIter Account MavlTheorems MavlStore.
Local Open Scope string_scope.
Local Open Scope Z_scope.
Local Open Scope list_scope.

Section Facts.
Context {ENV : MavlEnv}.

(** ** Trees over a database that grows *)

Lemma rep_grows db db' t : db ⊆ db' → ∀ n, rep db n t → rep db' n t.
Proof using Type.
  intros Hd. induction t as [k v|k l IHl r IHr]; intros n; cbn [rep].
  - intros (H1 & H2 & H3 & H4 & H5). split_and!; try done; try naive_solver.
    intros Hp. destruct (H4 Hp) as (? & ? & ?). split; [done|]. split; [by eapply stored_mono|done].
  - intros (H1 & H2 & H3 & H4 & H5 & H6 & H7 & H8). split; [done|]. split; [done|]. split; [done|]. split.
    { intros Hp. destruct (H4 Hp) as (? & ? & ?). split; [done|]. split; [by eapply stored_mono|done]. }
    split; [done|]. split; [done|]. split.
    + destruct (leftNode n); [by apply IHl|]. destruct H7. split; [done|]. by eapply stored_mono.
    + destruct (rightNode n); [by apply IHr|]. destruct H8. split; [done|]. by eapply stored_mono.
Qed.

Lemma models_grows db db' T ot room : db ⊆ db' → models (in_db db T) ot room → models (in_db db' T) ot room.
Proof using Type.
  intros Hd (HT & Hw & Hs). split; [|done]. unfold tree_rep, in_db in *. simpl in *.
  destruct (root T), ot; try done. by eapply rep_grows.
Qed.

Lemma Hash_models T t room : models T (Some t) room →
  ∃ T', Tree_Hash T = Ret (T', Some (thash t)) ∧ models T' (Some t) room ∧ ndb T' = ndb T ∧ batch T' = batch T.
Proof using Type.
  intros (HT & Hw & Hs). unfold Tree_Hash, tree_rep in *. destruct (root T) as [n|]; [|done].
  destruct (Hash_run (ndb T) t n HT) as (n' & -> & [Hn _] & _). cbn [mbind outcome_bind].
  eexists. split; [done|]. split; [|done]. by split.
Qed.

(** Saving adds the nodes of the tree to the database and nothing else. *)
Lemma Save_exact T t room : models T (Some t) room → batch T = Some [] → no_clash (ndb T) t →
  ∃ T', Save true T = Ret (T', Some (thash t)) ∧ ndb T ⊆ ndb T' ∧
    ∀ k v, ndb T' !! k = Some v ↔ ndb T !! k = Some v ∨ ∃ s, s ∈ subtrees t ∧ (k, v) = entry s.
Proof using Type.
  intros (HT & Hw & Hs) Hb Hc. unfold Save, tree_rep in HT |- *. destruct (root T) as [n|]; [|done].
  destruct (save_run (ndb T) t (depth n) n [] HT (depth_ok _ _ _ HT)) as (n' & no & b & E & (Hh & Hp & Hsv) & Hcov).
  rewrite Hb, E. cbn [mbind outcome_bind Commit batch root ndb app]. rewrite Hh.
  destruct (covers_apply _ _ _ Hc Hcov) as [H1 H2].
  eexists. split; [done|]. cbn [ndb]. split; [done|]. intros k v. split.
  - assert (∀ m : gmap bytes bytes, apply_batch b m !! k = Some v → m !! k = Some v ∨ (k, v) ∈ b) as Hin.
    { clear. unfold apply_batch. induction b as [|[k' v'] b IH]; intros m; simpl; [by left|].
      intros [Hm|Hm]%IH; [|right; by right]. destruct (decide (k' = k)) as [->|Hne].
      - rewrite lookup_insert_eq in Hm. simplify_eq. right. by left.
      - rewrite lookup_insert_ne in Hm by done. by left. }
    intros [Hm|Hm]%Hin; [by left|]. right. destruct Hcov as [Hcov _]. destruct (Hcov _ Hm) as (s & ? & ?). eauto.
  - intros [Hm|(s & Hsub & [= -> ->])]; [by eapply lookup_weaken|]. rewrite stored_subtrees in H1. by apply H1.
Qed.

(** A batch the database refuses leaves it alone. *)
Lemma Save_refused T t room : models T (Some t) room → batch T = Some [] →
  ∃ T', Save false T = Ret (T', None) ∧ ndb T' = ndb T.
Proof using Type.
  intros (HT & Hw & Hs) Hb. unfold Save, tree_rep in HT |- *. destruct (root T) as [n|]; [|done].
  destruct (save_run (ndb T) t (depth n) n [] HT (depth_ok _ _ _ HT)) as (n' & no & b & E & _ & _).
  rewrite Hb, E. cbn [mbind outcome_bind Commit batch root ndb app]. by eexists.
Qed.

Lemma subtrees_self t : t ∈ subtrees t.
Proof. destruct t; left. Qed.

Lemma subtrees_trans s t u : s ∈ subtrees t → t ∈ subtrees u → s ∈ subtrees u.
Proof.
  intros Hs. induction u as [k v|k l IHl r IHr]; cbn [subtrees].
  - intros ->%list_elem_of_singleton. exact Hs.
  - intros [->|[H|H]%elem_of_app]%elem_of_cons; [exact Hs| |]; right; apply elem_of_app; [left; by apply IHl|right; by apply IHr].
Qed.

Lemma subtrees_wf s t : s ∈ subtrees t → bst t ∧ balanced t → (bst s ∧ balanced s) ∧ tsize s <= tsize t.
Proof.
  induction t as [k v|k l IHl r IHr]; cbn [subtrees]; intros Hs [Hb Hbal].
  - apply list_elem_of_singleton in Hs as ->. split; [done|lia].
  - pose proof (tsize_pos l). pose proof (tsize_pos r). cbn [tsize] in *.
    apply elem_of_cons in Hs as [->|[H1|H1]%elem_of_app]; [split; [done|simpl; lia]| |].
    + destruct IHl as [? ?]; [done|simpl in Hb, Hbal; naive_solver|]. split; [done|lia].
    + destruct IHr as [? ?]; [done|simpl in Hb, Hbal; naive_solver|]. split; [done|lia].
Qed.
End Facts.

(** ** The contract *)

(** What waits under a hash: a set of no pairs, a state, or a state whose commit failed. *)
Inductive waiting := WNothing | WTree (t : tree) | WDamaged.
Record store_spec := mkSpec { committed : list tree; pending : gmap bytes waiting }.

Section Spec.
Context {ENV : MavlEnv} {CA : Codec Account}.

(** The trees in the database are those committed and all their subtrees. *)
Definition in_store (A : store_spec) : list tree := committed A ≫= subtrees.

(** The contents a state hash stands for. *)
Definition known (A : store_spec) (oh : option bytes) : option (option tree) :=
  match oh with
  | None => Some None
  | Some h =>
      if String.eqb h emptyRoot then Some None
      else match List.find (λ s, String.eqb (thash s) h) (in_store A) with Some s => Some (Some s) | None => None end
  end.

Definition values_of (ot : option tree) (keys : list bytes) : list (option bytes) := map (λ k, no_bytes (omap ot !! k)) keys.
Definition wait (ot : option tree) : waiting := match ot with Some t => WTree t | None => WNothing end.
Definition set_pending (A : store_spec) (h : option bytes) (o : waiting) : store_spec :=
  mkSpec (committed A) (<[bytes_of h := o]> (pending A)).
Definition drop_pending (A : store_spec) (h : option bytes) : store_spec := mkSpec (committed A) (delete (bytes_of h) (pending A)).

Definition spec_read (A : store_spec) (oh : option bytes) (keys : list bytes) : list (option bytes) :=
  match pending A !! bytes_of oh with
  | Some (WTree t) => values_of (Some t) keys
  | _ => match known A oh with Some ot => values_of ot keys | None => map (λ _, None) keys end
  end.

(** The pairs that a callback sees. *)
Definition spec_iterate {St} (A : store_spec) (oh start end_ : option bytes) (fn : bytes → bytes → St → bool * St) (x : St) : St :=
  match known A oh with
  | Some ot => (visit fn (filter (in_range start end_ false) (sorted_pairs ot)) x).2
  | None => x
  end.

(** [ok]: the database takes what is written. *)
Definition spec_msg (A : store_spec) (ok : bool) (msg : store_msg) : store_reply * store_spec :=
  match msg with
  | EventStoreSet h _ kvs =>
      match known A h with
      | None => (ReplyErr ErrNodeNotExist, A)
      | Some ot =>
          match oset_all ot kvs with
          | None => (ReplyHash None, A)
          | Some t => if ok then (ReplyHash (Some (thash t)), mkSpec (committed A ++ [t]) (pending A)) else (ReplyHash None, A)
          end
      end
  | EventStoreGet h keys => (ReplyValues (spec_read A h keys), A)
  | EventStoreMemSet h _ [] _ => (ReplyHash h, set_pending A h WNothing)
  | EventStoreMemSet h _ kvs upgrade =>
      match known A h with
      | None => (ReplyErr ErrNodeNotExist, A)
      | Some ot =>
          let t := oset_all ot kvs in
          (ReplyHash (thash <$> t), if upgrade then A else set_pending A (thash <$> t) (wait t))
      end
  | EventStoreCommit h upgrade =>
      let done := match h with None => ReplyErr ErrHashNotFound | Some _ => ReplyHash h end in
      if upgrade then (done, A)
      else match pending A !! bytes_of h with
           | None => (ReplyErr ErrHashNotFound, A)
           | Some WNothing => (done, drop_pending A h)
           | Some (WTree t) =>
               if ok then (done, mkSpec (committed A ++ [t]) (delete (bytes_of h) (pending A)))
               else (ReplyErr ErrHashNotFound, set_pending A h WDamaged)
           | Some WDamaged => (ReplyErr ErrHashNotFound, A)
           end
  | EventStoreRollback h =>
      match pending A !! bytes_of h with
      | None => (ReplyErr ErrHashNotFound, A)
      | Some _ => (ReplyHash h, drop_pending A h)
      end
  | EventStoreGetTotalCoins h start end_ count => (ReplyTotalCoins (spec_iterate A h start end_ coins_callback (mkCoins count 0 0 "")), A)
  | EventStoreDel => (ReplyHash None, A)
  | EventStoreList h start end_ suffix count mode =>
      (ReplyList (spec_iterate A h start end_ IterateCallBack (NewStoreListQuery suffix count mode)), A)
  | EventOther => (ReplyErr ErrActionNotSupport, A)
  end.

(** The limits: the number of keys fits an int32, the hash function does not collide on the
    nodes written together, and a state whose commit failed is neither read nor committed
    again before it was dropped or made anew ([StoreDemo.commit_again_panics]). *)
Definition fits (A : store_spec) (h : option bytes) (kvs : list (bytes * bytes)) : bool :=
  match known A h with
  | Some ot => osize ot + Z.of_nat (length kvs) <? 2 ^ 31
  | None => true
  end.
Definition no_collision (A : store_spec) (ot : option tree) : bool :=
  match ot with
  | None => true
  | Some t =>
      forallb (λ s, forallb (λ s', implb (String.eqb (thash s) (thash s')) (String.eqb (Encode (store_of s)) (Encode (store_of s'))))
        (in_store A ++ subtrees t)) (subtrees t)
  end.
Definition admissible (A : store_spec) (msg : store_msg) : bool :=
  match msg with
  | EventStoreSet h _ kvs =>
      fits A h kvs && match known A h with Some ot => no_collision A (oset_all ot kvs) | None => true end
  | EventStoreMemSet h _ kvs _ => fits A h kvs
  | EventStoreCommit h false =>
      match pending A !! bytes_of h with Some (WTree t) => no_collision A (Some t) | Some WDamaged => false | _ => true end
  | EventStoreGet h _ => match pending A !! bytes_of h with Some WDamaged => false | _ => true end
  | _ => true
  end.

(** A run: for each message, whether the database takes what is written for it. *)
Fixpoint spec_run (A : store_spec) (msgs : list (bool * store_msg)) : list store_reply * store_spec :=
  match msgs with
  | [] => ([], A)
  | (ok, m) :: msgs => let '(r, A) := spec_msg A ok m in let '(rs, A) := spec_run A msgs in (r :: rs, A)
  end.
Fixpoint admissible_run (A : store_spec) (msgs : list (bool * store_msg)) : bool :=
  match msgs with [] => true | (ok, m) :: msgs => admissible A m && admissible_run (spec_msg A ok m).2 msgs end.

(** The service, message after message; it stops at a panic. *)
Fixpoint store_run (msgs : list (bool * store_msg)) : M Store (list store_reply) :=
  match msgs with
  | [] => mret []
  | (ok, m) :: msgs => r ← processMessage ok m; rs ← store_run msgs; mret (r :: rs)
  end.

(** ** The invariant *)

Definition mem_ok (db : gmap bytes bytes) (h : bytes) (o : option (option Tree)) (a : option waiting) : Prop :=
  match o, a with
  | None, None | Some None, Some WNothing | Some (Some _), Some WDamaged => True
  | Some (Some T), Some (WTree t) => thash t = h ∧ models (in_db db T) (Some t) 0 ∧ batch T = Some []
  | _, _ => False
  end.

Record store_inv (s : Store) (A : store_spec) : Prop := {
  si_wf : ∀ t, t ∈ committed A → (bst t ∧ balanced t) ∧ tsize t < 2 ^ 31;
  si_db : ∀ k v, s_db s !! k = Some v ↔ ∃ t, t ∈ in_store A ∧ (k, v) = entry t;
  si_mem : ∀ h, mem_ok (s_db s) h (trees s !! h) (pending A !! h)
}.

Lemma in_store_elem A s : s ∈ in_store A ↔ ∃ t, t ∈ committed A ∧ s ∈ subtrees t.
Proof. unfold in_store. rewrite list_elem_of_bind. naive_solver. Qed.

Lemma in_store_snoc cs ps t : in_store (mkSpec (cs ++ [t]) ps) = in_store (mkSpec cs ps) ++ subtrees t.
Proof. unfold in_store. simpl. rewrite bind_app. simpl. by rewrite app_nil_r. Qed.

Section Inv.
Context (s : Store) (A : store_spec).
Hypothesis H : store_inv s A.

Lemma store_stored t : t ∈ in_store A → stored (s_db s) t ∧ (bst t ∧ balanced t) ∧ tsize t < 2 ^ 31.
Proof using H.
  intros Ht. pose proof Ht as (u & Hu & Htu)%in_store_elem. destruct (si_wf _ _ H u Hu) as [Hw Hs].
  destruct (subtrees_wf t u Htu Hw) as [? ?]. split; [|split; [done|lia]].
  apply stored_subtrees. intros x Hx. apply (si_db _ _ H). exists x. split; [|done].
  apply in_store_elem. exists u. split; [done|]. by eapply subtrees_trans.
Qed.

(** A known hash stands for its contents, another one is not in the database. *)
Lemma known_root oh ot room : known A oh = Some ot → osize ot + room < 2 ^ 31 → root_of (s_db s) oh ot room.
Proof using H.
  unfold known. destruct oh as [h|]; [|intros [= <-] Hr; split; [by left|done]].
  destruct (String.eqb_spec h emptyRoot) as [->|Hne]; [intros [= <-] Hr; split; [by right|done]|].
  destruct (List.find _ _) as [t|] eqn:E; [|done]. intros [= <-] Hr.
  apply List.find_some in E as [Hin%list_elem_of_In <-%String.eqb_eq]. destruct (store_stored t Hin) as (? & [? ?] & ?). done.
Qed.

Lemma unknown_hash oh : known A oh = None → ∃ h, oh = Some h ∧ h ≠ emptyRoot ∧ s_db s !! h = None.
Proof using H.
  unfold known. destruct oh as [h|]; [|done]. destruct (String.eqb_spec h emptyRoot) as [|Hne]; [done|].
  destruct (List.find _ _) as [t|] eqn:E; [done|]. intros _. exists h. split; [done|]. split; [done|].
  apply eq_None_not_Some. intros [v (t & Hin & [= -> _])%(si_db _ _ H)].
  eapply List.find_none in E; [|by apply list_elem_of_In]. by rewrite String.eqb_refl in E.
Qed.

Lemma Load_unknown oh T : known A oh = None → ndb T = s_db s → Load T oh = Err ErrNodeNotExist.
Proof using H.
  intros (h & -> & Hne & Hdb)%unknown_hash Hd. unfold Load. rewrite (proj2 (String.eqb_neq _ _) Hne).
  unfold GetNode. by rewrite Hd, Hdb.
Qed.
End Inv.

(** ** Each message *)

Lemma get_values_models T ot room ks : models T ot room → 0 <= room → get_values T ks = Ret (values_of ot ks).
Proof.
  intros HT Hr. induction ks as [|k ks IH]; [done|]. cbn [get_values values_of map].
  rewrite (Get_models T ot room k HT Hr). cbn [mbind outcome_bind]. by rewrite IH.
Qed.

Lemma known_size s A oh ot : store_inv s A → known A oh = Some ot → osize ot + 0 < 2 ^ 31.
Proof.
  intros H Hk. destruct ot as [t|]; [|done]. unfold known in Hk. destruct oh as [h|]; [|done].
  destruct (String.eqb h emptyRoot); [done|]. destruct (List.find _ _) as [t'|] eqn:E; [|done]. injection Hk as ->.
  apply List.find_some in E as [Hin%list_elem_of_In _]. destruct (store_stored s A H t Hin) as (_ & _ & ?). simpl. lia.
Qed.

Lemma read_spec s A oh ks : store_inv s A → admissible A (EventStoreGet oh ks) = true → store_Get oh ks s = (Ret (spec_read A oh ks), s).
Proof.
  intros H Ha. unfold store_Get, spec_read. simpl in Ha. pose proof (si_mem _ _ H (bytes_of oh)) as Hm.
  assert (match Load (NewTree (s_db s)) oh with
          | Ret tree => get_values tree ks
          | Err _ => Ret (map (λ _, None) ks)
          | Panic => Panic
          end = Ret (match known A oh with Some ot => values_of ot ks | None => map (λ _, None) ks end)) as Hdb.
  { destruct (known A oh) as [ot|] eqn:Ek; [|by rewrite (Load_unknown s A H)].
    destruct (Load_models (s_db s) oh ot 0 (NewTree (s_db s))) as (T & -> & HT & _); [|done..|by apply (get_values_models _ _ 0)].
    apply (known_root s A H); [done|by apply (known_size s A oh)]. }
  destruct (trees s !! bytes_of oh) as [[T|]|], (pending A !! bytes_of oh) as [[|t|]|]; simpl in Hm; try done; try (by rewrite Hdb).
  destruct Hm as (_ & HT & _). by rewrite (get_values_models _ _ _ _ HT).
Qed.

Lemma oset_all_Some ot kvs : kvs ≠ [] → ∃ t, oset_all ot kvs = Some t.
Proof.
  destruct kvs as [|[k v] kvs]; [done|]. intros _. unfold oset_all. cbn [foldl fst snd].
  assert (∃ t, oset k v ot = Some t) as [t ->] by (unfold oset; eauto). revert t.
  induction kvs as [|[k' v'] kvs IH]; intros t; [by eauto|]. apply IH.
Qed.

Lemma mem_tree_spec s A oh ot h kvs t : store_inv s A → known A oh = Some ot → osize ot + Z.of_nat (length kvs) < 2 ^ 31 →
  oset_all ot kvs = Some t →
  ∃ T, mem_tree oh h kvs (s_db s) = Ret (T, Some (thash t)) ∧ models T (Some t) 0 ∧ ndb T = s_db s ∧ batch T = Some [].
Proof.
  intros H Hk Hsz Et. unfold mem_tree.
  destruct (Load_models (s_db s) oh ot _ (SetBlockHeight (NewTree (s_db s)) h) (known_root s A H oh ot _ Hk Hsz))
    as (T & -> & HT & Hd & Hb); [done..|]. cbn [mbind outcome_bind].
  destruct (set_all_models kvs T ot _ HT ltac:(done)) as (T1 & -> & HT1 & _ & Hd1 & Hb1). cbn [mbind outcome_bind].
  rewrite Z.sub_diag, Et in HT1. destruct (Hash_models T1 t 0 HT1) as (T2 & -> & HT2 & Hd2 & Hb2).
  exists T2. split; [done|]. split; [done|]. split; congruence.
Qed.

(** A change of the trees in memory at one hash. *)
Lemma inv_pending s A h o a : store_inv s A → mem_ok (s_db s) h o a →
  store_inv (set_trees (partial_alter (λ _, o) h (trees s)) s) (mkSpec (committed A) (partial_alter (λ _, a) h (pending A))).
Proof.
  intros H Ho. split; [apply (si_wf _ _ H)|apply (si_db _ _ H)|]. intros h'. simpl. destruct (decide (h' = h)) as [->|Hne].
  - by rewrite !lookup_partial_alter_eq.
  - rewrite !lookup_partial_alter_ne by done. apply (si_mem _ _ H).
Qed.

Lemma no_collision_clash s A t : store_inv s A → no_collision A (Some t) = true → no_clash (s_db s) t.
Proof.
  intros H Hc. unfold no_collision in Hc. rewrite forallb_forall in Hc.
  assert (∀ x y, x ∈ subtrees t → y ∈ in_store A ++ subtrees t → thash x = thash y → store_of x = store_of y) as Hxy.
  { intros x y Hx%list_elem_of_In Hy%list_elem_of_In E. apply Hc in Hx. rewrite forallb_forall in Hx. apply Hx in Hy.
    rewrite E, String.eqb_refl in Hy. by apply String.eqb_eq, Encode_inj in Hy. }
  intros x Hx. split.
  - intros v (y & Hy & [= E ->])%(si_db _ _ H). f_equal. symmetry. apply Hxy; [done|by apply elem_of_app; left|done].
  - intros y Hy E. apply Hxy; [done|by apply elem_of_app; right|done].
Qed.

(** A tree is written; the trees in memory live on over the database that grew. *)
Lemma inv_written s A t db' : store_inv s A → (bst t ∧ balanced t) ∧ tsize t < 2 ^ 31 → s_db s ⊆ db' →
  (∀ k v, db' !! k = Some v ↔ s_db s !! k = Some v ∨ ∃ x, x ∈ subtrees t ∧ (k, v) = entry x) →
  store_inv (mkStore db' (trees s)) (mkSpec (committed A ++ [t]) (pending A)).
Proof.
  intros H Hw Hsub Hdb. split.
  - intros u. simpl. rewrite elem_of_app, list_elem_of_singleton. intros [Hu| ->]; [by apply (si_wf _ _ H)|done].
  - intros k v. simpl. rewrite Hdb, (si_db _ _ H). rewrite in_store_snoc. destruct A as [cs ps]. simpl.
    setoid_rewrite elem_of_app. naive_solver.
  - intros h. simpl. pose proof (si_mem _ _ H h) as Hm. unfold mem_ok in *.
    destruct (trees s !! h) as [[T|]|], (pending A !! h) as [[|u|]|]; try done.
    destruct Hm as (E & HT & Hb). split; [done|]. split; [|done]. by eapply models_grows.
Qed.

Lemma models_wf T t : models T (Some t) 0 → (bst t ∧ balanced t) ∧ tsize t < 2 ^ 31.
Proof. intros (_ & Hw & Hs). simpl in *. split; [done|lia]. Qed.

Lemma iterate_spec {St} s A oh start end_ fn (x : St) : store_inv s A →
  store_IterateRange oh start end_ true fn x s = (Ret (spec_iterate A oh start end_ fn x), s).
Proof.
  intros H. unfold store_IterateRange, IterateRangeByStateHash, spec_iterate. f_equal.
  destruct (known A oh) as [ot|] eqn:Ek; [|by rewrite (Load_unknown s A H)].
  destruct (Load_models (s_db s) oh ot 0 (NewTree (s_db s))) as (T & -> & HT & _); [|done..|].
  { apply (known_root s A H); [done|]. by apply (known_size s A oh). }
  unfold IterateRange. rewrite (iterate_models T ot 0) by done. by destruct (visit _ _ _).
Qed.

Lemma set_sim s A ok h height kvs : store_inv s A → admissible A (EventStoreSet h height kvs) = true →
  ∃ s', processMessage ok (EventStoreSet h height kvs) s = (Ret (spec_msg A ok (EventStoreSet h height kvs)).1, s') ∧
    store_inv s' (spec_msg A ok (EventStoreSet h height kvs)).2.
Proof.
  intros H Ha. cbn [admissible processMessage spec_msg] in *. unfold fits in Ha.
  unfold reply, store_Set, SetKVPair. destruct (known A h) as [ot|] eqn:Ek.
  2:{ rewrite (Load_unknown s A H) by done. simpl. by eexists. }
  apply andb_true_iff in Ha as [Hsz%Z.ltb_lt Hc].
  destruct (Load_models (s_db s) h ot _ (SetBlockHeight (NewTree (s_db s)) height) (known_root s A H h ot _ Ek Hsz))
    as (T & -> & HT & Hd & Hb); [done..|]. cbn [mbind outcome_bind].
  destruct (set_all_models kvs T ot _ HT ltac:(done)) as (T1 & -> & HT1 & _ & Hd1 & Hb1). cbn [mbind outcome_bind].
  rewrite Z.sub_diag in HT1. rewrite Hd in Hd1. rewrite Hb in Hb1. destruct (oset_all ot kvs) as [t|].
  - destruct ok.
    2:{ destruct (Save_refused T1 t 0 HT1 Hb1) as (T2 & -> & Hd2). cbn [mbind outcome_bind fst snd]. eexists. split; [done|].
        rewrite Hd2, Hd1. by destruct s. }
    destruct (Save_exact T1 t 0 HT1 Hb1) as (T2 & -> & Hsub & Hdb); [rewrite Hd1; by apply (no_collision_clash s A)|].
    cbn [mbind outcome_bind fst snd]. rewrite Hd1 in *. eexists. split; [done|]. eapply inv_written; [done| |done|done]. by eapply models_wf.
  - destruct HT1 as (HT1 & _). unfold tree_rep in HT1. unfold Save. destruct (root T1); [done|]. cbn [mbind outcome_bind fst snd].
    rewrite Hd1. eexists. split; [done|]. by destruct s.
Qed.

Lemma memset_sim s A ok h height kvs up : store_inv s A → admissible A (EventStoreMemSet h height kvs up) = true →
  ∃ s', processMessage ok (EventStoreMemSet h height kvs up) s = (Ret (spec_msg A ok (EventStoreMemSet h height kvs up)).1, s') ∧
    store_inv s' (spec_msg A ok (EventStoreMemSet h height kvs up)).2.
Proof.
  intros H Ha. cbn [admissible processMessage] in *. unfold fits in Ha. destruct kvs as [|kv kvs].
  - assert (reply (no_pairs h) ReplyHash ReplyErr s = (Ret (ReplyHash h), set_trees (<[bytes_of h := None]> (trees s)) s)) as E by done.
    eexists. split; [by destruct up; exact E|]. by apply (inv_pending s A (bytes_of h) (Some None) (Some WNothing)).
  - cbn [spec_msg]. destruct (known A h) as [ot|] eqn:Ek.
    + apply Z.ltb_lt in Ha. destruct (oset_all_Some ot (kv :: kvs) ltac:(done)) as [t Et].
      destruct (mem_tree_spec s A h ot height (kv :: kvs) t H Ek Ha Et) as (T & E & HT & Hd & Hb). rewrite Et.
      unfold reply, MemSet, MemSetUpgrade. destruct up; rewrite E; cbn [mbind outcome_bind fst snd fmap option_fmap option_map].
      * by eexists.
      * eexists. split; [done|]. apply (inv_pending s A (thash t) (Some (Some T)) (Some (WTree t))); [done|].
        split; [done|]. split; [|done]. rewrite <-Hd. by destruct T.
    + assert (mem_tree h height (kv :: kvs) (s_db s) = Err ErrNodeNotExist) as E.
      { unfold mem_tree. by rewrite (Load_unknown s A H). }
      unfold reply, MemSet, MemSetUpgrade. destruct up; rewrite E; by eexists.
Qed.

Lemma commit_sim s A ok h up : store_inv s A → admissible A (EventStoreCommit h up) = true →
  ∃ s', processMessage ok (EventStoreCommit h up) s = (Ret (spec_msg A ok (EventStoreCommit h up)).1, s') ∧
    store_inv s' (spec_msg A ok (EventStoreCommit h up)).2.
Proof.
  intros H Ha. cbn [admissible processMessage spec_msg] in *. destruct up; [by eexists|].
  unfold reply, store_Commit. pose proof (si_mem _ _ H (bytes_of h)) as Hm.
  destruct (trees s !! bytes_of h) as [[T|]|], (pending A !! bytes_of h) as [[|t|]|]; simpl in Hm; try done; [| |by eexists].
  - destruct Hm as (Eh & HT & Hb). destruct ok.
    2:{ destruct (Save_refused (in_db (s_db s) T) t 0 HT Hb) as (T2 & -> & Hd2). eexists. split; [done|].
        rewrite Hd2. by apply (inv_pending s A (bytes_of h) (Some (Some T2)) (Some WDamaged)). }
    destruct (Save_exact (in_db (s_db s) T) t 0 HT Hb) as (T2 & -> & Hsub & Hdb); [by apply (no_collision_clash s A)|].
    eexists. split; [done|]. simpl in Hsub, Hdb.
    pose proof (inv_written s A t (ndb T2) H (models_wf _ _ HT) Hsub Hdb) as Hw.
    apply (inv_pending _ _ (bytes_of h) None None Hw). done.
  - eexists. split; [done|]. by apply (inv_pending s A (bytes_of h) None None).
Qed.

Lemma msg_sim s A ok m : store_inv s A → admissible A m = true →
  ∃ s', processMessage ok m s = (Ret (spec_msg A ok m).1, s') ∧ store_inv s' (spec_msg A ok m).2.
Proof.
  intros H Ha. destruct m; [by apply set_sim| |by apply memset_sim|by apply commit_sim| |..].
  - cbn [processMessage spec_msg fst snd]. unfold reply. rewrite (read_spec s A) by done. by eexists.
  - cbn [processMessage spec_msg]. unfold reply, store_Rollback. pose proof (si_mem _ _ H (bytes_of hash)) as Hm.
    destruct (trees s !! bytes_of hash) as [o|], (pending A !! bytes_of hash) as [a|]; try done; [| |].
    + eexists. split; [done|]. by apply (inv_pending s A (bytes_of hash) None None).
    + simpl in Hm. by destruct o.
    + by eexists.
  - cbn [processMessage spec_msg fst snd]. unfold reply. rewrite (iterate_spec s A) by done. by eexists.
  - by eexists.
  - cbn [processMessage spec_msg fst snd]. unfold reply, query_Run. rewrite (iterate_spec s A) by done. by eexists.
  - by eexists.
Qed.

Lemma known_stable A ok m oh ot : known A oh = Some ot → known (spec_msg A ok m).2 oh = Some ot.
Proof.
  assert (∀ cs t ps, known (mkSpec cs (pending A)) oh = Some ot → known (mkSpec (cs ++ [t]) ps) oh = Some ot) as Hgrow.
  { intros cs t ps. unfold known. destruct oh as [h|]; [|done]. destruct (String.eqb h emptyRoot); [done|].
    rewrite in_store_snoc. change (in_store (mkSpec cs (pending A))) with (in_store (mkSpec cs ps)).
    generalize (in_store (mkSpec cs ps)). intros l. induction l as [|x l IH]; simpl; [done|]. by destruct (String.eqb (thash x) h). }
  assert (∀ cs ps ps', known (mkSpec cs ps) oh = known (mkSpec cs ps') oh) as Hsame by done.
  intros Hk. destruct A as [cs ps], m as [h ht kvs| |h ht [|kv kvs] up|h [|]|h| | | |]; cbn [spec_msg snd]; try done.
  - destruct (known _ h) as [o|]; [|done]. destruct (oset_all o kvs); [|done]. destruct ok; [by apply Hgrow|done].
  - destruct (known _ h) as [o|]; [|done]. by destruct up.
  - destruct (pending _ !! _) as [[|t|]|]; [done| |done..]. destruct ok; [by apply Hgrow|done].
  - by destruct (pending _ !! _).
Qed.

(** C6: every sequence of messages to a state store that agrees with the contract, as a new
    one does, whatever writes the database refuses, gets the replies of the contract: states made in memory are read under their hash until
    they are dropped, a commit makes exactly the pending state durable, dropping it leaves no
    trace, unknown hashes are refused, a refused write is answered with an error or no hash
    and changes no state committed, and the store does not panic.  Every state hash that was
    known keeps its contents.  The hash function may not collide on the nodes written, the
    number of keys fits an int32, and after a refused commit the hash is neither read nor
    committed again before it was dropped or made anew: the code keeps a tree that is not
    usable and panics ([StoreDemo.commit_again_panics]).  Values without bytes read as
    absent. *)
Theorem store_service s A msgs : store_inv s A → admissible_run A msgs = true →
  ∃ s', store_run msgs s = (Ret (spec_run A msgs).1, s') ∧ store_inv s' (spec_run A msgs).2 ∧
    ∀ oh ot, known A oh = Some ot → known (spec_run A msgs).2 oh = Some ot.
Proof.
  revert s A. induction msgs as [|[ok m] msgs IH]; intros s A H Ha; [by exists s|].
  cbn [admissible_run] in Ha. apply andb_true_iff in Ha as [Hm Ha]. destruct (msg_sim s A ok m H Hm) as (s1 & E1 & H1).
  destruct (IH s1 _ H1 Ha) as (s2 & E2 & H2 & Hk). exists s2. cbn [store_run spec_run].
  unfold mbind, M_bind. rewrite E1, E2. pose proof (known_stable A ok m) as Hs.
  destruct (spec_msg A ok m) as [r A1]. cbn [fst snd] in *. destruct (spec_run A1 msgs) as [rs A2]. cbn [fst snd] in *. split; [done|]. split; [done|].
  intros oh ot Ho. apply Hk, Hs, Ho.
Qed.

(** ** Listing page by page *)

Lemma visit_pages L : ∀ t, l_Mode t = 1 → 0 <= l_Num t → l_Num t + Z.of_nat (length L) < 2 ^ 63 →
  let n := Z.to_nat (l_Count t - l_Num t) in
  let r := (visit IterateCallBack L t).2 in
  l_Keys r = l_Keys t ++ (take n L).*1 ∧ l_Values r = l_Values t ++ (take n L).*2 ∧
  l_NextKey r = match L !! n with Some kv => kv.1 | None => l_NextKey t end.
Proof.
  induction L as [|[k v] L IH]; intros t Hm Hn Hl n r.
  - unfold r. cbn [visit snd]. by rewrite take_nil, !app_nil_r.
  - unfold r. cbn [visit]. unfold IterateCallBack at 1 3 5. rewrite Hm. cbn [Z.eqb Pos.eqb]. cbn [length] in Hl.
    destruct (Z.leb_spec (l_Count t) (l_Num t)).
    + replace n with 0%nat by (unfold n; lia). simpl. by rewrite !app_nil_r.
    + destruct (IH (took t k v)) as (H1 & H2 & H3); cbn [took l_Mode l_Num]; rewrite ?wrap64_id by (unfold in64; lia); try done; try lia.
      cbn [took l_Keys l_Values l_NextKey l_Num l_Count] in *. rewrite wrap64_id in H1, H2, H3 by (unfold in64; lia).
      replace n with (S (Z.to_nat (l_Count t - (l_Num t + 1)))) by (unfold n; lia).
      rewrite H1, H2, H3, <-!app_assoc. done.
Qed.

(** A client that asks for the next page until there is none. *)
Fixpoint pages (fuel : nat) (oh start end_ : option bytes) (count : Z) : M Store (list (bytes * bytes)) :=
  match fuel with
  | O => panic
  | S fuel =>
      r ← query_Run oh start end_ "" count 1;
      let page := zip (l_Keys r) (l_Values r) in
      if String.eqb (l_NextKey r) "" then mret page
      else rest ← pages fuel oh (Some (l_NextKey r)) end_ count; mret (page ++ rest)
  end.

Definition key_lt (p q : bytes * bytes) : Prop := bytes_lt p.1 q.1.

Lemma sorted_filter_lt (P : bytes * bytes → Prop) `{∀ x, Decision (P x)} L : StronglySorted key_lt L → StronglySorted key_lt (filter P L).
Proof.
  intros Hs. induction Hs as [|x L Hs IH Hx]; [constructor|]. rewrite filter_cons. case_decide; [|done].
  constructor; [done|]. apply list.Forall_forall. intros y [_ Hy]%list_elem_of_filter. by apply (proj1 (list.Forall_forall _ _) Hx).
Qed.

Lemma sorted_lookup_lt L i j x y : StronglySorted key_lt L → L !! i = Some x → L !! j = Some y → (i < j)%nat → key_lt x y.
Proof.
  intros Hs. revert i j. induction Hs as [|z L Hs IH Hz]; intros i j Hi Hj Hij; [done|].
  destruct j as [|j]; [lia|]. destruct i as [|i]; simpl in *; [|by eapply IH; eauto; lia].
  simplify_eq. apply (proj1 (list.Forall_forall _ _) Hz). by eapply list_elem_of_lookup_2.
Qed.

Lemma after_start_le k x : after_start (Some k) x = true ↔ k = x ∨ bytes_lt k x.
Proof.
  simpl. rewrite Z.leb_le. destruct (bytes_Compare_cases k x) as [[-> ?]|[[-> ?]|[-> Hlt]]]; [by split; [right|]|by split; [left|]|].
  split; [lia|]. intros [->|Hlt']; exfalso; [by eapply bytes_lt_irrefl|]. by eapply bytes_lt_irrefl, (transitivity Hlt).
Qed.

Lemma range_start start end_ k x : in_range start end_ false k → in_range (Some k.1) end_ false x → in_range start end_ false x.
Proof.
  unfold in_range. rewrite !andb_true_iff, after_start_le. intros [Hk _] [Hx He]. split; [|done].
  destruct start as [st|]; [|done]. rewrite after_start_le in *. destruct Hk as [->|Hk]; [done|]. right.
  destruct Hx as [<-|Hx]; [done|]. by etrans.
Qed.

Lemma range_from L start end_ n k v : StronglySorted key_lt L →
  filter (in_range start end_ false) L !! n = Some (k, v) →
  filter (in_range (Some k) end_ false) L = drop n (filter (in_range start end_ false) L).
Proof.
  intros Hs. revert n. induction Hs as [|x L Hs IH Hx]; intros n Hn; [done|]. rewrite list.Forall_forall in Hx.
  assert (in_range start end_ false (k, v)) as Hkv.
  { apply list_elem_of_lookup_2 in Hn. by apply list_elem_of_filter in Hn as [? _]. }
  rewrite !filter_cons in *. destruct (decide (in_range start end_ false x)) as [Px|Px].
  - destruct n as [|n]; simpl in Hn.
    + injection Hn as ->. rewrite decide_True.
      2:{ unfold in_range in *. rewrite !andb_true_iff in *. rewrite after_start_le. destruct Hkv as [_ ?]. split; [by left|done]. }
      simpl. f_equal. apply filter_ext_in. intros y Hy. split; [by apply (range_start _ _ (k, v))|].
      apply Hx in Hy. unfold in_range. rewrite !andb_true_iff, after_start_le. intros [_ ?]. split; [by right|done].
    + rewrite decide_False; [by apply IH|]. unfold in_range. rewrite andb_true_iff, after_start_le. simpl. intros [Hle _].
      apply list_elem_of_lookup_2 in Hn. apply list_elem_of_filter in Hn as [_ Hin]. apply Hx in Hin. unfold key_lt in Hin. simpl in Hin.
      destruct Hle as [->|Hle]; [by eapply bytes_lt_irrefl|]. by eapply bytes_lt_irrefl, (transitivity Hin).
  - rewrite decide_False; [by apply IH|]. intros Hq. apply Px. by apply (range_start _ _ (k, v)).
Qed.

Lemma pages_spec s A oh ot end_ count : store_inv s A → known A oh = Some ot → 1 <= count →
  StronglySorted key_lt (sorted_pairs ot) → Z.of_nat (length (sorted_pairs ot)) < 2 ^ 63 →
  ∀ fuel start, (length (filter (in_range start end_ false) (sorted_pairs ot)) < fuel)%nat →
  pages fuel oh start end_ count s = (Ret (filter (in_range start end_ false) (sorted_pairs ot)), s).
Proof.
  intros H Hk Hc Hs Hlen. induction fuel as [|fuel IH]; intros start Hf; [lia|]. cbn [pages]. unfold mbind at 1, M_bind at 1.
  unfold query_Run. rewrite (iterate_spec s A) by done. unfold spec_iterate. rewrite Hk.
  set (L := filter (in_range start end_ false) (sorted_pairs ot)) in *.
  assert (length L ≤ length (sorted_pairs ot))%nat as HL by apply length_filter.
  destruct (visit_pages L (NewStoreListQuery "" count 1)) as (E1 & E2 & E3); [done|done|simpl; lia|].
  rewrite E1, E2, E3. cbn [NewStoreListQuery l_Keys l_Values l_NextKey l_Count l_Num app]. rewrite zip_fst_snd, Z.sub_0_r.
  destruct (L !! Z.to_nat count) as [[k v]|] eqn:En; cbn [fst].
  - pose proof (range_from _ _ _ _ _ _ Hs En) as Hr. fold L in Hr.
    assert (k ≠ "") as Hne.
    { intros ->. destruct (lookup_lt_is_Some_2 L 0) as [[k0 v0] E0]; [apply lookup_lt_Some in En; lia|].
      assert (bytes_lt k0 "") as Hlt; [|by destruct k0].
      assert (StronglySorted key_lt L) as HsL by (apply sorted_filter_lt, Hs).
      eapply (sorted_lookup_lt L 0 (Z.to_nat count) _ _ HsL E0 En). lia. }
    rewrite (proj2 (String.eqb_neq _ _) Hne). unfold mbind, M_bind. rewrite IH.
    + rewrite Hr. unfold mret, M_ret. by rewrite take_drop.
    + rewrite Hr, length_drop. apply lookup_lt_Some in En. lia.
  - apply lookup_ge_None in En. simpl. by rewrite take_ge.
Qed.

Lemma pairs_sorted ot : owf ot → StronglySorted key_lt (sorted_pairs ot).
Proof.
  destruct ot as [t|]; [|constructor]. intros [Hb _]. pose proof (elements_sorted t Hb) as Hs. unfold keys_of in Hs. simpl.
  revert Hs. generalize (elements t). induction l as [|x l IH]; simpl; intros Hs; [constructor|].
  apply StronglySorted_inv in Hs as [Hs Hx]. constructor; [by apply IH|]. apply list.Forall_forall. intros y Hy.
  apply (proj1 (list.Forall_forall _ _) Hx). by apply list_elem_of_fmap_2.
Qed.

(** C9: a client that lists the pairs of a known state in a range, page after page from the next
    key it was given, ends and gets every pair of the range exactly once and in key order,
    whatever the size of the pages. *)
Theorem store_pages s A oh ot start end_ count fuel :
  store_inv s A → known A oh = Some ot → 1 <= count → (length (filter (in_range start end_ false) (sorted_pairs ot)) < fuel)%nat →
  pages fuel oh start end_ count s = (Ret (filter (in_range start end_ false) (sorted_pairs ot)), s) ∧
  StronglySorted key_lt (sorted_pairs ot) ∧ list_to_map (sorted_pairs ot) = omap ot.
Proof.
  intros H Hk Hc Hf. pose proof (known_size s A oh ot H Hk) as Hsz.
  assert (owf ot) as Hw.
  { pose proof (known_root s A H oh ot 0 Hk Hsz) as Hr. destruct ot; [|done]. simpl in Hr |- *. naive_solver. }
  split; [|split; [by apply pairs_sorted|by destruct ot]].
  apply (pages_spec s A); [done|done|done|by apply pairs_sorted| |done].
  destruct ot as [t|]; [|done]. simpl in *. rewrite <-tsize_elements. lia.
Qed.
End Spec.

(** ** A run *)

Module StoreDemo.
#[local] Existing Instance MavlDemo.env.
#[local] Instance account_codec : Codec Account := countable_codec.

Definition s0 : Store := mkStore ∅ ∅.
Definition A0 : store_spec := mkSpec [] ∅.
Definition kvs1 : list (bytes * bytes) := [("b", "1"); ("a", "2")].
Definition h1 : option bytes := thash <$> oset_all None kvs1.
Definition h2 : option bytes := thash <$> oset_all (oset_all None kvs1) [("c", "3")].

Lemma start_inv : store_inv s0 A0.
Proof.
  split; simpl.
  - intros t Ht. by apply elem_of_nil in Ht.
  - intros k v. rewrite lookup_empty. split; [done|]. intros (t & Ht & _). by apply elem_of_nil in Ht.
  - intros h. by rewrite !lookup_empty.
Qed.

(** A state is committed; the commit of the next one is refused, it is dropped and made anew
    with an empty value. *)
Definition h3 : option bytes := thash <$> oset_all (oset_all None kvs1) [("c", "")].
Definition msgs : list (bool * store_msg) :=
  [(true, EventStoreMemSet None 1 kvs1 false); (true, EventStoreGet h1 ["a"; "x"]); (true, EventStoreCommit h1 false);
   (true, EventStoreMemSet h1 2 [("c", "3")] false); (true, EventStoreGet h2 ["c"]); (false, EventStoreCommit h2 false);
   (true, EventStoreRollback h2); (true, EventStoreGet h2 ["c"]); (true, EventStoreMemSet h1 2 [("c", "")] false);
   (true, EventStoreCommit h3 false); (true, EventStoreGet h3 ["a"; "b"; "c"])].

Definition replies : list store_reply :=
  [ReplyHash h1; ReplyValues [Some "2"; None]; ReplyHash h1; ReplyHash h2; ReplyValues [Some "3"]; ReplyErr ErrHashNotFound;
   ReplyHash h2; ReplyValues [None]; ReplyHash h3; ReplyHash h3; ReplyValues [Some "2"; Some "1"; None]].

Lemma msgs_admissible : admissible_run A0 msgs = true.
Proof. vm_compute. reflexivity. Qed.
Lemma msgs_replies : (spec_run A0 msgs).1 = replies.
Proof. vm_compute. reflexivity. Qed.

Lemma store_service_witness :
  ∃ s, store_run msgs s0 = (Ret replies, s) ∧ store_inv s (spec_run A0 msgs).2 ∧ known (spec_run A0 msgs).2 None = Some None.
Proof.
  destruct (store_service s0 A0 msgs start_inv msgs_admissible) as (s & E & Hi & Hk).
  exists s. split; [|split; [exact Hi|exact (Hk None None eq_refl)]].
  rewrite E, msgs_replies. reflexivity.
Defined.

Definition set1 : store_msg := EventStoreSet None 1 [("b", "1"); ("a", "2"); ("c", "3")].
Definition s1 : Store := (store_run [(true, set1)] s0).2.
Definition t1 : option tree := oset_all None [("b", "1"); ("a", "2"); ("c", "3")].
Definition A1 : store_spec := mkSpec (match t1 with Some t => [t] | None => [] end) ∅.

Lemma set1_admissible : admissible A0 set1 = true.
Proof. vm_compute. reflexivity. Qed.
Lemma set1_spec : (spec_msg A0 true set1).2 = A1.
Proof. vm_compute. reflexivity. Qed.

Lemma s1_inv : store_inv s1 A1.
Proof.
  destruct (msg_sim s0 A0 true set1 start_inv set1_admissible) as (s & E & H). rewrite set1_spec in H.
  unfold s1. cbn [store_run]. unfold mbind, M_bind. rewrite E. exact H.
Qed.

Lemma t1_known : known A1 (thash <$> t1) = Some t1.
Proof. vm_compute. reflexivity. Qed.

Lemma t1_range : filter (in_range (Some "a") (Some "c") false) (sorted_pairs t1) = [("a", "2"); ("b", "1")].
Proof. vm_compute. reflexivity. Qed.

Lemma store_pages_witness :
  pages 5 (thash <$> t1) (Some "a") (Some "c") 1 s1 = (Ret [("a", "2"); ("b", "1")], s1).
Proof.
  assert (length (filter (in_range (Some "a") (Some "c") false) (sorted_pairs t1)) < 5)%nat as Hlen by (rewrite t1_range; simpl; lia).
  pose proof (proj1 (store_pages s1 A1 (thash <$> t1) t1 (Some "a") (Some "c") 1 5 s1_inv t1_known ltac:(lia) Hlen)) as E.
  rewrite t1_range in E. exact E.
Defined.

(** ** Runs that go wrong *)

(** A message without pairs over a state that is still in memory replaces it by nothing: the
    commit is acknowledged, and the state is gone. *)
Lemma pending_lost :
  (store_run (pair true <$> [EventStoreMemSet None 1 kvs1 false; EventStoreMemSet h1 2 [] false; EventStoreCommit h1 false; EventStoreGet h1 ["a"]]) s0).1 =
    Ret [ReplyHash h1; ReplyHash h1; ReplyHash h1; ReplyValues [None]].
Proof. vm_compute. reflexivity. Qed.

(** After a failed write the state stays in memory, and committing it again is a panic. *)
Lemma commit_again_panics :
  let '(r, s) := store_Commit false h1 (MemSet None 1 kvs1 s0).2 in
  r = Err ErrDataBaseDamage ∧ (processMessage true (EventStoreCommit h1 false) s).1 = Panic.
Proof. vm_compute. split; reflexivity. Qed.
End StoreDemo.
