(* ===== verification/Fork.v ===== *)
(** The fork table of [types/fork.go]: which protocol change is active from which
    height, per chain title, and its initialisation from a configuration. *)

From Stdlib Require Import Ascii String.
From S2P Require Import Prelude.
Local Open Scope string_scope.
Local Open Scope Z_scope.

Definition MaxHeight : Z := 10000000000000000.

(** [type Forks struct]: title, then fork name, to height. *)
Abbreviation Forks := (gmap string (gmap string Z)).

Definition dot : ascii := ".".

Definition checkKey (key : string) : outcome unit := if has_char dot key then Panic else Ret tt.

Definition setFork (f : Forks) (title key : string) (height : Z) : outcome Forks :=
  let items := default ∅ (f !! title) in
  match items !! key with
  | Some _ => Panic
  | None => Ret (<[title := <[key := height]> items]> f)
  end.

Definition replaceFork (f : Forks) (title key : string) (height : Z) : outcome Forks :=
  match f !! title with
  | None => Panic
  | Some items =>
      match items !! key with
      | None => Panic
      | Some _ => Ret (<[title := <[key := height]> items]> f)
      end
  end.

Definition SetFork (f : Forks) (title key : string) (height : Z) : outcome Forks :=
  checkKey key ;; setFork f title key height.

Definition ReplaceFork (f : Forks) (title key : string) (height : Z) : outcome Forks :=
  checkKey key ;; replaceFork f title key height.

Definition dapp_key (dapp key : string) : string := dapp ++ String dot key.

Definition SetDappFork (f : Forks) (title dapp key : string) (height : Z) : outcome Forks :=
  checkKey key ;; setFork f title (dapp_key dapp key) height.

Definition ReplaceDappFork (f : Forks) (title dapp key : string) (height : Z) : outcome Forks :=
  checkKey key ;; replaceFork f title (dapp_key dapp key) height.

Definition GetFork (f : Forks) (title key : string) : outcome Z :=
  match f !! title with
  | None => if String.eqb title "local" then Panic else Ret MaxHeight
  | Some items =>
      match items !! key with
      | None => if String.eqb title "local" then Panic else Ret MaxHeight
      | Some h => Ret h
      end
  end.

Definition HasFork (f : Forks) (title key : string) : bool :=
  match f !! title with
  | None => false
  | Some items => bool_decide (is_Some (items !! key))
  end.

Definition GetDappFork (f : Forks) (title app key : string) : outcome Z := GetFork f title (dapp_key app key).

Definition Clone (f : Forks) (from to : string) : outcome Forks :=
  match f !! from with
  | None => Err (ErrOther "ErrCloneForkFrom")
  | Some items =>
      match f !! to with
      | Some _ => Err (ErrOther "ErrCloneForkToExist")
      | None => Ret (<[to := items]> f)
      end
  end.

Definition SetAllFork (f : Forks) (title : string) (height : Z) : Forks :=
  match f !! title with
  | None => f
  | Some items => <[title := (λ _, height) <$> items]> f
  end.

Definition CloneZero (f : Forks) (from to : string) : outcome Forks :=
  f ← Clone f from to; Ret (SetAllFork f to 0).

Definition CloneMaxHeight (f : Forks) (from to : string) : outcome Forks :=
  f ← Clone f from to; Ret (SetAllFork f to MaxHeight).

Definition GetAll (f : Forks) (title : string) : option (gmap string Z) := f !! title.

Definition IsFork (f : Forks) (title : string) (height : Z) (fork : string) : outcome bool :=
  ifork ← GetFork f title fork;
  Ret ((height =? -1) || (ifork <=? height)).

Definition IsDappFork (f : Forks) (title : string) (height : Z) (dapp fork : string) : outcome bool :=
  IsFork f title height (dapp_key dapp fork).

(** The forks of the test net, in the order the code sets them. *)
Definition testnet_forks : list (string * Z) :=
  [("ForkChainParamV1", 110000); ("ForkChainParamV2", 1692674); ("ForkCheckTxDup", 75260);
   ("ForkBlockHash", 209186); ("ForkMinerTime", 350000); ("ForkTransferExec", 408400);
   ("ForkExecKey", 408400); ("ForkWithdraw", 480000); ("ForkTxGroup", 408400);
   ("ForkResetTx0", 453400); ("ForkExecRollback", 706531); ("ForkTxHeight", 806578);
   ("ForkCheckBlockTime", 1200000); ("ForkMultiSignAddress", 1298600); ("ForkStateDBSet", 1572391);
   ("ForkBlockCheck", 1560000); ("ForkLocalDBAccess", 1572391); ("ForkTxGroupPara", 1687250);
   ("ForkBase58AddressCheck", 1800000)].

Fixpoint set_forks (f : Forks) (title : string) (l : list (string * Z)) : outcome Forks :=
  match l with
  | [] => Ret f
  | (k, h) :: l => f ← SetFork f title k h; set_forks f title l
  end.

Definition SetTestNetFork (f : Forks) : outcome Forks := set_forks f "chain33" testnet_forks.

(** A failed clone panics. *)
Definition setLocalFork (f : Forks) : outcome Forks :=
  match CloneZero f "chain33" "local" with
  | Ret f => ReplaceFork f "local" "ForkBlockHash" 1
  | _ => Panic
  end.

(** A failed clone is only logged. *)
Definition setForkForPara (f : Forks) (paraName : string) : outcome Forks :=
  match CloneZero f "chain33" paraName with
  | Ret f => ReplaceFork f paraName "ForkBlockHash" 1
  | Err _ => ReplaceFork f paraName "ForkBlockHash" 1
  | Panic => Panic
  end.

Definition IsEnableFork (f : Forks) (title : string) (height : Z) (fork : string) (enable : bool) : outcome bool :=
  if enable then IsFork f title height fork else Ret false.

(** ** Initialisation from a configuration *)

(** [types.ForkList] *)
Record ForkList := { System : gmap string Z; Sub : option (gmap string (gmap string Z)) }.

(** [strings.Split(k, ".")] *)
Fixpoint split_dot (s : string) : list string :=
  match s with
  | EmptyString => [""]
  | String c s =>
      if Ascii.eqb c dot then "" :: split_dot s
      else match split_dot s with
           | [] => [String c ""]
           | w :: ws => String c w :: ws
           end
  end.

(** The first two loops: forks of the default chain that the configuration lacks.
    The messages, or a panic on a name with too many dots. *)
Definition missing_system (l : ForkList) (k : string) : list string :=
  if negb (has_char dot k) && negb (bool_decide (is_Some (System l !! k)))
  then ["system fork " ++ k ++ " not config"] else [].

Definition missing_sub (l : ForkList) (k : string) : outcome (list string) :=
  match split_dot k with
  | [] => Panic
  | [_] => Ret []
  | [exec; name] =>
      let s := ["exec " ++ exec ++ " name " ++ name ++ " not config"] in
      match Sub l with
      | None => Ret s
      | Some sub =>
          match sub !! exec with
          | None => Ret []
          | Some items => if bool_decide (is_Some (items !! name)) then Ret [] else Ret s
          end
      end
  | _ => Panic
  end.

Fixpoint missing_subs (l : ForkList) (ks : list string) : outcome (list string) :=
  match ks with
  | [] => Ret []
  | k :: ks => s ← missing_sub l k; ss ← missing_subs l ks; Ret (s ++ ss)%list
  end.

Definition cfg_height (v : Z) : Z := if v =? -1 then MaxHeight else v.

(** The next two loops set the configured forks and note unknown names. *)
Fixpoint set_system (f : Forks) (title : string) (l : list (string * Z)) : outcome (Forks * list string) :=
  match l with
  | [] => Ret (f, [])
  | (k, v) :: l =>
      let s := if HasFork f "chain33" k then [] else ["system fork not exist : " ++ k] in
      f ← SetFork f title k (cfg_height v);
      '(f, ss) ← set_system f title l;
      Ret (f, (s ++ ss)%list)
  end.

Fixpoint set_dapp (f : Forks) (title dapp : string) (l : list (string * Z)) : outcome (Forks * list string) :=
  match l with
  | [] => Ret (f, [])
  | (k, v) :: l =>
      let s := if HasFork f "chain33" (dapp_key dapp k) then []
               else ["exec fork not exist : exec = " ++ dapp ++ " key = " ++ k] in
      f ← SetDappFork f title dapp k (cfg_height v);
      '(f, ss) ← set_dapp f title dapp l;
      Ret (f, (s ++ ss)%list)
  end.

Fixpoint set_sub (f : Forks) (title : string) (l : list (string * gmap string Z)) :
    outcome (Forks * list string) :=
  match l with
  | [] => Ret (f, [])
  | (dapp, items) :: l =>
      '(f, s) ← set_dapp f title dapp (map_to_list items);
      '(f, ss) ← set_sub f title l;
      Ret (f, (s ++ ss)%list)
  end.

(** The new table and the executors users may call (on top of [none]). *)
Definition initForkConfig (f : Forks) (allow : list string) (title : string) (l : ForkList) :
    outcome (Forks * list string) :=
  if String.eqb title "chain33" then Ret (f, allow)
  else
    match GetAll f "chain33" with
    | None => Panic
    | Some base =>
        let ks := (map_to_list base).*1 in
        let s1 := mjoin (missing_system l <$> ks) in
        s2 ← missing_subs l ks;
        '(f, s3) ← set_system f title (map_to_list (System l));
        let sub := map_to_list (default ∅ (Sub l)) in
        '(f, s4) ← set_sub f title sub;
        match (s1 ++ s2 ++ s3 ++ s4)%list with
        | [] => Ret (f, "none" :: sub.*1)
        | _ => Panic
        end
    end.

(** ** Contract of the initialisation *)

Lemma dapp_key_inj d k d' k' :
  has_char dot k = false → has_char dot k' = false → dapp_key d k = dapp_key d' k' → d = d' ∧ k = k'.
Proof.
  unfold dapp_key. intros Hk Hk'. revert d'. induction d as [|c d IH]; intros [|c' d']; simpl.
  - by intros [= ->].
  - intros [= <- E]. subst k. rewrite has_char_app in Hk. simpl in Hk.
    by rewrite orb_true_r in Hk.
  - intros [= -> E]. subst k'. rewrite has_char_app in Hk'. simpl in Hk'.
    by rewrite orb_true_r in Hk'.
  - intros [= <- E]. by destruct (IH d' E) as [-> ->].
Qed.

Lemma dapp_key_dot d k : has_char dot (dapp_key d k) = true.
Proof. unfold dapp_key. rewrite has_char_app. simpl. by rewrite orb_true_r. Qed.

Section Config.
Context (title : string) (base : gmap string Z).

Definition items (f : Forks) : gmap string Z := default ∅ (f !! title).
Definition cfg (l : list (string * Z)) : gmap string Z := list_to_map (prod_map id cfg_height <$> l).

(** Both loops that set forks, with the key they build and the message they leave. *)
Fixpoint set_gen (kf mf : string → string) (f : Forks) (l : list (string * Z)) : outcome (Forks * list string) :=
  match l with
  | [] => Ret (f, [])
  | (k, v) :: l =>
      let s := if HasFork f "chain33" (kf k) then [] else [mf k] in
      checkKey k ;;
      f ← setFork f title (kf k) (cfg_height v);
      '(f, ss) ← set_gen kf mf f l;
      Ret (f, (s ++ ss)%list)
  end.

Lemma set_system_gen f l :
  set_system f title l = set_gen id (λ k, "system fork not exist : " ++ k) f l.
Proof using Type.
  revert f. induction l as [|[k v] l IH]; intros f; simpl; [done|]. unfold SetFork, checkKey, id.
  destruct (has_char dot k); simpl; [done|]. destruct (setFork f title k (cfg_height v)); simpl; [|done..].
  by rewrite IH.
Qed.

Lemma set_dapp_gen dapp f l :
  set_dapp f title dapp l =
    set_gen (dapp_key dapp) (λ k, "exec fork not exist : exec = " ++ dapp ++ " key = " ++ k) f l.
Proof using Type.
  revert f. induction l as [|[k v] l IH]; intros f; simpl; [done|]. unfold SetDappFork, checkKey.
  destruct (has_char dot k); simpl; [done|].
  destruct (setFork f title (dapp_key dapp k) (cfg_height v)); simpl; [|done..]. by rewrite IH.
Qed.

(** What setting the entries [es] (full keys) does to the table: the messages [s] are
    empty when every key is a fork of the default chain. *)
Definition set_post (f : Forks) (es : list (string * Z)) (dotless : Prop) (o : outcome (Forks * list string)) : Prop :=
  match o with
  | Ret (f', s) =>
      dotless ∧ (∀ t, t ≠ title → f' !! t = f !! t) ∧ items f' = cfg es ∪ items f ∧
      (∀ k, k ∈ es.*1 → items f !! k = None) ∧ (s = [] ↔ ∀ k, k ∈ es.*1 → is_Some (base !! k))
  | Err _ => False
  | Panic => dotless → NoDup es.*1 → ∃ k, k ∈ es.*1 ∧ is_Some (items f !! k)
  end.

Lemma setFork_run f k h :
  setFork f title k h = match items f !! k with
                        | Some _ => Panic
                        | None => Ret (<[title := <[k := h]> (items f)]> f)
                        end.
Proof using Type. done. Qed.

Lemma items_insert f m : items (<[title := m]> f) = m.
Proof using Type. unfold items. by rewrite lookup_insert_eq. Qed.

Lemma HasFork_base f k : f !! "chain33" = Some base → HasFork f "chain33" k = bool_decide (is_Some (base !! k)).
Proof using Type. unfold HasFork. by intros ->. Qed.

Lemma set_post_seq f es1 es2 d1 d2 o1 (o2 : Forks → outcome (Forks * list string)) :
  set_post f es1 d1 o1 → (∀ f', (∀ t, t ≠ title → f' !! t = f !! t) → set_post f' es2 d2 (o2 f')) →
  set_post f (es1 ++ es2) (d1 ∧ d2) ('(f, s) ← o1; '(f, ss) ← o2 f; Ret (f, (s ++ ss)%list)).
Proof using Type.
  intros H1 H2. destruct o1 as [[f1 s1]|e|]; simpl in *; [|done|].
  - destruct H1 as (D1 & U1 & I1 & N1 & S1). specialize (H2 f1 U1).
    destruct (o2 f1) as [[f2 s2]|e|]; simpl in *; [|done|].
    + destruct H2 as (D2 & U2 & I2 & N2 & S2). split_and!; [done|done|..].
      * intros t Ht. rewrite U2, U1; done.
      * assert (cfg (es1 ++ es2) = cfg es1 ∪ cfg es2) as ->.
        { unfold cfg. rewrite fmap_app. apply list_to_map_app. }
        rewrite I2, I1, (assoc_L (∪)). f_equal. apply map_union_comm. apply map_disjoint_spec.
        intros k x y Hx Hy. assert (k ∈ es2.*1) as Hk.
        { apply elem_of_list_to_map_2 in Hx. apply list_elem_of_fmap in Hx as ([k' v'] & [= -> ->] & Hx).
          apply list_elem_of_fmap. by exists (k', v'). }
        apply N2 in Hk. rewrite I1 in Hk. apply lookup_union_None in Hk as [Hk _]. congruence.
      * intros k. rewrite fmap_app, elem_of_app. intros [Hk|Hk]; [by apply N1|]. apply N2 in Hk.
        rewrite I1 in Hk. by apply lookup_union_None in Hk as [_ ?].
      * rewrite fmap_app. setoid_rewrite elem_of_app. rewrite app_nil. naive_solver.
    + intros [D1' D2'] Hnd. rewrite fmap_app in Hnd |- *. apply list.NoDup_app in Hnd as (Hn1 & Hd & Hn2).
      destruct (H2 D2' Hn2) as (k & Hk & [v Hv]). exists k. split; [set_solver|]. rewrite I1 in Hv.
      apply lookup_union_Some_raw in Hv as [Hv|[_ Hv]]; [|by eexists]. exfalso.
      apply elem_of_list_to_map_2 in Hv. apply list_elem_of_fmap in Hv as ([k' v'] & [= -> ->] & Hv).
      apply (Hd k'); [|done]. apply list_elem_of_fmap. by exists (k', v').
  - intros [D1' D2'] Hnd. rewrite fmap_app in Hnd |- *. apply list.NoDup_app in Hnd as (Hn1 & Hd & Hn2).
    destruct (H1 D1' Hn1) as (k & Hk & Hv). exists k. split; [set_solver|done].
Qed.

Lemma set_one_post kf mf f k v :
  f !! "chain33" = Some base →
  set_post f [(kf k, v)] (has_char dot k = false) (
    let s := if HasFork f "chain33" (kf k) then [] else [mf k] in
    checkKey k ;; f ← setFork f title (kf k) (cfg_height v); Ret (f, s)).
Proof using Type.
  intros Hb. rewrite (HasFork_base f (kf k) Hb), setFork_run. unfold checkKey.
  destruct (has_char dot k); simpl; [congruence|].
  destruct (items f !! kf k) as [h|] eqn:Ek; simpl.
  - intros _ _. exists (kf k). rewrite Ek. split; [set_solver|done].
  - split_and!; [done|..].
    + intros t Ht. by rewrite lookup_insert_ne.
    + rewrite items_insert. unfold cfg. simpl. by rewrite insert_empty, <-insert_union_singleton_l.
    + intros k' ->%list_elem_of_singleton. done.
    + setoid_rewrite list_elem_of_singleton. case_bool_decide; naive_solver.
Qed.

Lemma set_gen_post kf mf l : ∀ f,
  title ≠ "chain33" → f !! "chain33" = Some base →
  set_post f (prod_map kf id <$> l) (∀ k, k ∈ l.*1 → has_char dot k = false) (set_gen kf mf f l).
Proof using Type.
  induction l as [|[k v] l IH]; intros f Ht Hb.
  - simpl. split; [set_solver|]. split; [done|]. split; [|split; set_solver].
    unfold cfg. simpl. by rewrite (left_id_L ∅ (∪)).
  - pose proof (set_post_seq f [(kf k, v)] (prod_map kf id <$> l) _ (∀ k, k ∈ l.*1 → has_char dot k = false) _
      (λ f, set_gen kf mf f l) (set_one_post kf mf f k v Hb)) as H.
    match type of H with ?A → _ => assert A as HA end.
    { intros f' U. apply IH; [done|]. by rewrite U. }
    specialize (H HA). clear HA. cbn [set_gen fmap list_fmap prod_map fst snd id app] in *.
    unfold checkKey in *. destruct (has_char dot k) eqn:Ek; simpl in *.
    + intros D. exfalso. specialize (D k ltac:(set_solver)). congruence.
    + destruct (setFork f title (kf k) (cfg_height v)) as [f1|e|]; simpl in *; [|done|].
      * destruct (set_gen kf mf f1 l) as [[f2 s2]|e|]; simpl in *; [|done|].
        -- destruct H as ((_ & D) & H). split; [|done]. set_solver.
        -- intros D. apply H. split; [done|]. set_solver.
      * intros D. apply H. split; [done|]. set_solver.
Qed.

Lemma set_post_iff f es (D D' : Prop) o : (D ↔ D') → set_post f es D o → set_post f es D' o.
Proof using Type. intros HD. destruct o as [[f' s]|e|]; simpl; [|done|]; rewrite HD; done. Qed.

(** The full keys of the executor forks. *)
Definition sub_entries (l : list (string * gmap string Z)) : list (string * Z) :=
  l ≫= λ di, prod_map (dapp_key di.1) id <$> map_to_list di.2.

Definition sub_dotless (l : list (string * gmap string Z)) : Prop :=
  ∀ di k, di ∈ l → k ∈ (map_to_list di.2).*1 → has_char dot k = false.

Lemma set_sub_post l : ∀ f,
  title ≠ "chain33" → f !! "chain33" = Some base →
  set_post f (sub_entries l) (sub_dotless l) (set_sub f title l).
Proof using Type.
  induction l as [|[d it] l IH]; intros f Ht Hb.
  - simpl. split; [unfold sub_dotless; set_solver|]. split; [done|]. split; [|split; set_solver].
    unfold cfg. simpl. by rewrite (left_id_L ∅ (∪)).
  - apply (set_post_iff f _ ((∀ k, k ∈ (map_to_list it).*1 → has_char dot k = false) ∧ sub_dotless l)).
    2: { cbn [set_sub sub_entries mbind list_bind]. rewrite set_dapp_gen.
         apply (set_post_seq f _ _ _ _ _ (λ f, set_sub f title l)); [by apply set_gen_post|].
         intros f' U. apply IH; [done|by rewrite U]. }
    unfold sub_dotless. simpl. split.
    + intros [H1 H2] di k [->|Hd]%elem_of_cons Hk; [by apply H1|by eapply H2].
    + intros H. split; [intros k Hk; apply (H (d, it) k); [set_solver|done]|].
      intros di k Hd. apply H. set_solver.
Qed.

Lemma sub_entries_elem l k :
  k ∈ (sub_entries l).*1 → ∃ di n, di ∈ l ∧ n ∈ (map_to_list di.2).*1 ∧ k = dapp_key di.1 n.
Proof using Type.
  unfold sub_entries. rewrite list_elem_of_fmap. intros ([k' v] & -> & H).
  apply list_elem_of_bind in H as (di & H & Hdi). apply list_elem_of_fmap in H as ([n v'] & [= -> ->] & H).
  exists di, n. split; [done|]. split; [|done]. apply list_elem_of_fmap. by exists (n, v').
Qed.

Lemma sub_entries_nodup (l : list (string * gmap string Z)) :
  NoDup l.*1 → sub_dotless l → NoDup (sub_entries l).*1.
Proof using Type.
  induction l as [|[d it] l IH]; intros Hnd Hdl; [constructor|].
  apply list.NoDup_cons in Hnd as [Hd Hnd]. cbn [sub_entries mbind list_bind fst snd]. rewrite fmap_app.
  apply list.NoDup_app. split_and!.
  - assert ((prod_map (dapp_key d) id <$> map_to_list it).*1 = dapp_key d <$> (map_to_list it).*1) as ->.
    { by rewrite <-!list_fmap_compose. }
    assert (∀ k, k ∈ (map_to_list it).*1 → has_char dot k = false) as Hk.
    { intros k. apply (Hdl (d, it) k). set_solver. }
    pose proof (NoDup_fst_map_to_list it) as Hn. induction ((map_to_list it).*1) as [|k ks IHk]; [constructor|].
    apply list.NoDup_cons in Hn as [Hn1 Hn2]. simpl. apply list.NoDup_cons. split; [|apply IHk; set_solver].
    rewrite list_elem_of_fmap. intros (k' & E & Hk'). apply dapp_key_inj in E as [_ ->]; [done|..]; apply Hk; set_solver.
  - intros k Hk1 Hk2. apply sub_entries_elem in Hk2 as ([d' it'] & n' & Hdi & Hn' & ->).
    rewrite <-list_fmap_compose in Hk1. apply list_elem_of_fmap in Hk1 as ([n v] & E & Hn). simpl in *.
    assert (n ∈ (map_to_list it).*1) as Hn1 by (apply list_elem_of_fmap; by exists (n, v)).
    apply dapp_key_inj in E as [-> _].
    + apply Hd. apply list_elem_of_fmap. by exists (d, it').
    + apply (Hdl (d', it') n'); [set_solver|done].
    + apply (Hdl (d, it) n); [set_solver|done].
  - apply IH; [done|]. intros di k Hdi. apply Hdl. set_solver.
Qed.

(** A configuration that names every fork of the default chain (executor forks only
    for the executors it enables) and no other. *)
Definition config_ok (l : ForkList) : Prop :=
  (∀ k, is_Some (base !! k) →
     (has_char dot k = false → is_Some (System l !! k)) ∧
     match split_dot k with
     | [_] => True
     | [exec; name] => ∃ sub, Sub l = Some sub ∧ ∀ it, sub !! exec = Some it → is_Some (it !! name)
     | _ => False
     end) ∧
  (∀ k, is_Some (System l !! k) → has_char dot k = false ∧ is_Some (base !! k)) ∧
  (∀ d it k, default ∅ (Sub l) !! d = Some it → is_Some (it !! k) →
     has_char dot k = false ∧ is_Some (base !! dapp_key d k)).

(** The table a configuration gives: every height as configured, -1 for never. *)
Definition cfg_table (l : ForkList) : gmap string Z :=
  cfg (map_to_list (System l) ++ sub_entries (map_to_list (default ∅ (Sub l)))).

Lemma missing_system_nil l ks :
  mjoin (missing_system l <$> ks) = [] ↔
    ∀ k, k ∈ ks → has_char dot k = false → is_Some (System l !! k).
Proof using Type.
  induction ks as [|k ks IH]; simpl; [set_solver|]. rewrite app_nil, IH. setoid_rewrite elem_of_cons.
  unfold missing_system. destruct (has_char dot k) eqn:Ek; simpl.
  - split; [|naive_solver]. intros [_ H] k' [->|Hk']; [congruence|by apply H].
  - case_bool_decide; simpl; naive_solver.
Qed.

Definition sub_configured (l : ForkList) (k : string) : Prop :=
  match split_dot k with
  | [_] => True
  | [exec; name] => ∃ sub, Sub l = Some sub ∧ ∀ it, sub !! exec = Some it → is_Some (it !! name)
  | _ => False
  end.

Lemma missing_sub_spec l k :
  match missing_sub l k with
  | Ret s => s = [] ↔ sub_configured l k
  | Err _ => False
  | Panic => ¬ sub_configured l k
  end.
Proof using Type.
  unfold missing_sub, sub_configured. destruct (split_dot k) as [|a [|b [|c r]]]; [tauto|done| |tauto].
  destruct (Sub l) as [sub|]; [|naive_solver]. destruct (sub !! a) as [it|] eqn:Ea; [|naive_solver].
  case_bool_decide as Hb; naive_solver.
Qed.

Lemma missing_subs_spec l ks :
  match missing_subs l ks with
  | Ret s => s = [] ↔ ∀ k, k ∈ ks → sub_configured l k
  | Err _ => False
  | Panic => ¬ ∀ k, k ∈ ks → sub_configured l k
  end.
Proof using Type.
  induction ks as [|k ks IH]; simpl; [set_solver|]. pose proof (missing_sub_spec l k) as Hk.
  destruct (missing_sub l k) as [s|e|]; simpl; [|done|set_solver].
  destruct (missing_subs l ks) as [ss|e|]; simpl; [|done|set_solver].
  rewrite app_nil, Hk, IH. set_solver.
Qed.
End Config.

Lemma map_keys_elem {A} (m : gmap string A) k : k ∈ (map_to_list m).*1 ↔ is_Some (m !! k).
Proof.
  rewrite list_elem_of_fmap. split.
  - intros ([k' v] & -> & H%elem_of_map_to_list). by eexists.
  - intros [v H]. exists (k, v). by rewrite elem_of_map_to_list.
Qed.

(** The two loops that set the configured forks, together. *)
Definition set_config (f : Forks) (title : string) (l : ForkList) : outcome (Forks * list string) :=
  '(f, s) ← set_system f title (map_to_list (System l));
  '(f, ss) ← set_sub f title (map_to_list (default ∅ (Sub l)));
  Ret (f, (s ++ ss)%list).

Definition config_entries (l : ForkList) : list (string * Z) :=
  map_to_list (System l) ++ sub_entries (map_to_list (default ∅ (Sub l))).

Definition config_dotless (l : ForkList) : Prop :=
  (∀ k, k ∈ (map_to_list (System l)).*1 → has_char dot k = false) ∧
  sub_dotless (map_to_list (default ∅ (Sub l))).

Lemma set_config_post f title base l :
  title ≠ "chain33" → f !! "chain33" = Some base →
  set_post title base f (config_entries l) (config_dotless l) (set_config f title l).
Proof.
  intros Ht Hb. unfold set_config. rewrite set_system_gen.
  apply (set_post_seq title base f _ _ _ _ _ (λ f, set_sub f title (map_to_list (default ∅ (Sub l))))).
  - pose proof (set_gen_post title base id (λ k, "system fork not exist : " ++ k) (map_to_list (System l)) f Ht Hb) as H.
    assert (prod_map id id <$> map_to_list (System l) = map_to_list (System l)) as E.
    { rewrite <-(list_fmap_id (map_to_list (System l))) at 2. apply list_fmap_ext. by intros ? [? ?] ?. }
    by rewrite E in H.
  - intros f' U. apply set_sub_post; [done|]. by rewrite U.
Qed.

Lemma config_entries_nodup l : config_dotless l → NoDup (config_entries l).*1.
Proof.
  intros [H1 H2]. unfold config_entries. rewrite fmap_app. apply list.NoDup_app. split_and!.
  - apply NoDup_fst_map_to_list.
  - intros k Hk (di & n & _ & _ & ->)%sub_entries_elem. apply H1 in Hk. by rewrite dapp_key_dot in Hk.
  - apply sub_entries_nodup; [apply NoDup_fst_map_to_list|done].
Qed.

(** Configured names have no extra dots and are forks of the default chain. *)
Lemma config_known (base : gmap string Z) l :
  config_dotless l ∧ (∀ k, k ∈ (config_entries l).*1 → is_Some (base !! k)) ↔
  (∀ k, is_Some (System l !! k) → has_char dot k = false ∧ is_Some (base !! k)) ∧
  (∀ d it k, default ∅ (Sub l) !! d = Some it → is_Some (it !! k) →
     has_char dot k = false ∧ is_Some (base !! dapp_key d k)).
Proof.
  unfold config_dotless, config_entries, sub_dotless. rewrite fmap_app. setoid_rewrite elem_of_app. split.
  - intros [[H1 H2] H3]. split.
    + intros k Hk%map_keys_elem. split; [by apply H1|]. apply H3. by left.
    + intros d it k Hd%elem_of_map_to_list Hk%map_keys_elem. split; [by apply (H2 (d, it))|]. apply H3. right.
      apply list_elem_of_fmap in Hk as ([k' v] & -> & Hk). apply list_elem_of_fmap.
      exists (dapp_key d k', v). split; [done|]. apply list_elem_of_bind. exists (d, it). split; [|done].
      apply list_elem_of_fmap. by exists (k', v).
  - intros [H1 H2]. split; [split|].
    + intros k Hk%map_keys_elem. by apply H1.
    + intros [d it] k Hd%elem_of_map_to_list Hk%map_keys_elem. by eapply H2.
    + intros k [Hk%map_keys_elem|Hk]; [by apply H1|].
      apply sub_entries_elem in Hk as ([d it] & n & Hd%elem_of_map_to_list & Hn%map_keys_elem & ->). by eapply H2.
Qed.

Lemma initForkConfig_unfold f allow title l base :
  title ≠ "chain33" → f !! "chain33" = Some base →
  initForkConfig f allow title l =
    (let ks := (map_to_list base).*1 in
     s2 ← missing_subs l ks;
     '(f', s) ← set_config f title l;
     if decide (mjoin (missing_system l <$> ks) ++ s2 ++ s = [])%list
     then Ret (f', "none" :: (map_to_list (default ∅ (Sub l))).*1) else Panic).
Proof.
  intros Ht Hb. unfold initForkConfig, GetAll, set_config. rewrite (proj2 (String.eqb_neq _ _)) by done. rewrite Hb.
  cbv zeta. destruct (missing_subs _ _) as [s2|e|]; simpl; [|done..].
  destruct (set_system _ _ _) as [[f1 s3]|e|]; simpl; [|done..].
  destruct (set_sub _ _ _) as [[f2 s4]|e|]; simpl; [|done..].
  destruct (decide _) as [E|E]; [by rewrite E|]. by destruct (_ ++ _)%list.
Qed.

(** C14: for a title other than the default chain's that has no table yet, a fork
    configuration is accepted exactly when it names every system fork of the default chain,
    every fork of each executor it enables (the forks of other executors may be missing, but
    a section of executors must exist if the default chain has forks of executors) and no
    name that is not a fork of the default chain, all without extra dots ([config_ok]); then the chain's table holds exactly the configured heights, with -1
    meaning never, the tables of other chains are unchanged, and users may call
    exactly [none] and the configured executors.  Otherwise initialisation panics. *)
Theorem fork_config f allow title l base :
  title ≠ "chain33" → f !! title = None → f !! "chain33" = Some base →
  (config_ok base l →
     ∃ f', initForkConfig f allow title l = Ret (f', "none" :: (map_to_list (default ∅ (Sub l))).*1) ∧
       default ∅ (f' !! title) = cfg_table l ∧ ∀ t, t ≠ title → f' !! t = f !! t) ∧
  (¬ config_ok base l → initForkConfig f allow title l = Panic).
Proof.
  intros Ht Hf Hb. rewrite (initForkConfig_unfold f allow title l base Ht Hb). cbv zeta.
  pose proof (set_config_post f title base l Ht Hb) as Hp.
  pose proof (missing_subs_spec l (map_to_list base).*1) as Hm.
  assert (config_ok base l ↔
    (mjoin (missing_system l <$> (map_to_list base).*1) = [] ∧
     (∀ k, k ∈ (map_to_list base).*1 → sub_configured l k)) ∧
    config_dotless l ∧ (∀ k, k ∈ (config_entries l).*1 → is_Some (base !! k))) as Hok.
  { rewrite config_known, missing_system_nil. setoid_rewrite map_keys_elem. unfold config_ok, sub_configured. naive_solver. }
  rewrite Hok. clear Hok.
  destruct (missing_subs l _) as [s2|e|]; cbn [mbind outcome_bind]; [|done|split; [tauto|done]].
  destruct (set_config f title l) as [[f' s]|e|]; cbn [mbind outcome_bind set_post] in *; [|done|].
  - destruct Hp as (D & U & I & _ & S). rewrite <-Hm, <-S, <-!app_nil.
    destruct (decide _) as [E|E]; split.
    + intros _. exists f'. split; [done|]. split; [|done]. unfold items in I. rewrite Hf in I.
      rewrite I. simpl. by rewrite (right_id_L ∅ (∪)).
    + apply app_nil in E as [E1 E2]. apply app_nil in E2 as [E2 E3]. rewrite !app_nil. tauto.
    + intros [H1 [_ ->]]. exfalso. apply E. apply app_nil in H1 as [-> ->]. done.
    + done.
  - split; [|done]. intros (_ & D & _). exfalso.
    destruct (Hp D (config_entries_nodup l D)) as (k & _ & Hk). unfold items in Hk. rewrite Hf in Hk.
    by apply is_Some_None in Hk.
Qed.

Definition demo_base : gmap string Z := {["ForkA" := 10; "dapp.ForkB" := 20]}.
Definition demo_cfg : ForkList := {| System := {["ForkA" := 7]}; Sub := Some {["dapp" := {["ForkB" := -1]}]} |}.

Lemma demo_cfg_ok : config_ok demo_base demo_cfg.
Proof.
  split; [|split].
  - intros k. unfold demo_base. destruct (decide (k = "ForkA")) as [->|H1]; [intros _; split; [|done]; intros _; exists 7; reflexivity|].
    rewrite lookup_insert_ne by done. destruct (decide (k = "dapp.ForkB")) as [->|H2].
    + intros _. split; [done|]. exists {["dapp" := {["ForkB" := -1]}]}. split; [done|].
      intros it. rewrite lookup_singleton_eq. intros [= <-]. eexists. by rewrite lookup_singleton_eq.
    + rewrite lookup_singleton_ne by done. by intros []%is_Some_None.
  - intros k. simpl. intros [v [<- _]%lookup_singleton_Some]. split; [done|]. exists 10. reflexivity.
  - intros d it k. simpl. intros [<- <-]%lookup_singleton_Some [v [<- _]%lookup_singleton_Some].
    split; [done|]. exists 20. vm_compute. reflexivity.
Qed.

Lemma fork_config_witness :
  ∃ f', initForkConfig {["chain33" := demo_base]} [] "mychain" demo_cfg = Ret (f', ["none"; "dapp"]) ∧
    default ∅ (f' !! "mychain") = cfg_table demo_cfg.
Proof.
  destruct (fork_config {["chain33" := demo_base]} [] "mychain" demo_cfg demo_base) as [H _].
  - discriminate.
  - reflexivity.
  - reflexivity.
  - destruct (H demo_cfg_ok) as (f' & E & Ht & _). exists f'. split; [|exact Ht]. exact E.
Defined.

(** ** The local chain and parallel chains *)

Definition setup (f : Forks) (title : string) : outcome Forks :=
  if String.eqb title "local" then setLocalFork f else setForkForPara f title.

(** On the local test chain and on a parallel chain every fork of the default
    chain is active from height 0 except [ForkBlockHash], which starts at height 1;
    a name that is not a fork panics on the local chain and is never active (below
    [MaxHeight]) on a parallel chain; other chains are unchanged. *)
Lemma fork_setup f title base h0 :
  title ≠ "chain33" → f !! "chain33" = Some base → f !! title = None → base !! "ForkBlockHash" = Some h0 →
  ∃ f', setup f title = Ret f' ∧ (∀ t, t ≠ title → f' !! t = f !! t) ∧
    ∀ k h, 0 <= h →
      IsFork f' title h k =
        match base !! k with
        | Some _ => Ret (if String.eqb k "ForkBlockHash" then 1 <=? h else true)
        | None => if String.eqb title "local" then Panic else Ret (MaxHeight <=? h)
        end.
Proof.
  intros Ht Hb Hn Hk.
  pose (f' := <[title := <["ForkBlockHash" := 1]> ((λ _, 0) <$> base)]> f).
  assert (CloneZero f "chain33" title = Ret (<[title := (λ _, 0) <$> base]> f)) as Ec.
  { unfold CloneZero, Clone, SetAllFork. rewrite Hb, Hn. simpl. rewrite lookup_insert_eq.
    by rewrite insert_insert_eq. }
  assert (ReplaceFork (<[title := (λ _, 0) <$> base]> f) title "ForkBlockHash" 1 = Ret f') as Er.
  { unfold ReplaceFork, replaceFork. simpl. rewrite lookup_insert_eq, lookup_fmap, Hk. simpl.
    unfold f'. by rewrite insert_insert_eq. }
  exists f'. split; [|split].
  - unfold setup, setLocalFork, setForkForPara.
    destruct (String.eqb_spec title "local") as [->|_]; rewrite Ec; exact Er.
  - intros t Hne. unfold f'. by rewrite lookup_insert_ne.
  - intros k h Hh. unfold IsFork, GetFork, f'. rewrite lookup_insert_eq.
    destruct (String.eqb_spec k "ForkBlockHash") as [->|Hne].
    + rewrite lookup_insert_eq, Hk. simpl. destruct (Z.eqb_spec h (-1)); [lia|done].
    + rewrite lookup_insert_ne, lookup_fmap by done. destruct (base !! k) as [v|]; simpl.
      * f_equal. apply orb_true_iff. right. by apply Z.leb_le.
      * destruct (String.eqb title "local"); simpl; [done|]. destruct (Z.eqb_spec h (-1)); [lia|done].
Qed.

Definition testnet : Forks := match SetTestNetFork ∅ with Ret f => f | _ => ∅ end.

Lemma fork_setup_witness :
  ∃ f', setup testnet "local" = Ret f' ∧ IsFork f' "local" 0 "ForkTxGroup" = Ret true ∧
    IsFork f' "local" 0 "ForkBlockHash" = Ret false ∧ IsFork f' "local" 0 "ForkNone" = Panic.
Proof.
  destruct (fork_setup testnet "local" (list_to_map testnet_forks) 209186) as (f' & E & _ & H).
  - discriminate.
  - vm_compute. reflexivity.
  - vm_compute. reflexivity.
  - vm_compute. reflexivity.
  - exists f'. split; [exact E|]. rewrite !H by lia. split; [|split]; vm_compute; reflexivity.
Defined.
