(* ===== verification/Coins.v ===== *)
(** The coins executor ([system/dapp/coins/executor]): its actions on the asset ledger,
    and the per-address received totals it keeps in the local database. *)

From Stdlib Require Import Ascii String.
From S2P Require Import Prelude KVStore Types Account Ledger LedgerInv Fork.
Local Open Scope string_scope.
Local Open Scope Z_scope.

(** ** Actions and transactions *)

Inductive CoinsAction :=
  | AssetsTransfer (Amount : Z)
  | AssetsTransferToExec (ExecName : string) (Amount : Z)
  | AssetsWithdraw (ExecName : string) (Amount : Z)
  | AssetsGenesis (ReturnAddress : string) (Amount : Z).

(** What the executor reads of a transaction: the address of its signer and the
    address its payload is for ([tx.From], [tx.GetRealToAddr]). *)
Record TxView := { From : string; RealToAddr : string }.

(** [execDrivers] of [system/dapp/register.go]: executor addresses and the heights
    they are enabled from. *)
Definition IsDriverAddress (execDrivers : gmap string Z) (addr : string) (height : Z) : bool :=
  match execDrivers !! addr with
  | None => false
  | Some h => (h <=? height) || (height =? -1)
  end.

Definition CheckTx (amount : outcome Z) : outcome unit :=
  a ← amount; if a <? 0 then Err ErrAmount else Ret tt.

Section Exec.
Context {S : Type} `{!KV S} `{!LedgerCodecs}.
(** The address of an executor name, the registered drivers, the fork table, the
    chain's title and the height of the block. *)
Context (ExecAddress : string → string) (execDrivers : gmap string Z) (forks : Forks)
  (title : string) (height : Z) (acc : DB).

Definition isExecAddrMatch (name to : string) : bool := String.eqb (ExecAddress name) to.

Definition Exec_Transfer (amount : Z) (tx : TxView) : M S Receipt :=
  if IsDriverAddress execDrivers (RealToAddr tx) height
  then TransferToExec acc (From tx) (RealToAddr tx) amount
  else Transfer acc (From tx) (RealToAddr tx) amount.

Definition Exec_TransferToExec (execName : string) (amount : Z) (tx : TxView) : M S Receipt :=
  b ← lift_outcome (IsFork forks title height "ForkTransferExec");
  if negb b then throw ErrActionNotSupport
  else if negb (isExecAddrMatch execName (RealToAddr tx)) then throw ErrToAddrNotSameToExecAddr
  else TransferToExec acc (From tx) (RealToAddr tx) amount.

Definition Exec_Withdraw (execName : string) (amount : Z) (tx : TxView) : M S Receipt :=
  b ← lift_outcome (IsFork forks title height "ForkWithdraw");
  let execName := if negb b then "" else execName in
  if IsDriverAddress execDrivers (RealToAddr tx) height || isExecAddrMatch execName (RealToAddr tx)
  then TransferWithdraw acc (From tx) (RealToAddr tx) amount
  else throw ErrActionNotSupport.

Definition Exec_Genesis (returnAddress : string) (amount : Z) (tx : TxView) : M S Receipt :=
  if height =? 0 then
    if IsDriverAddress execDrivers (RealToAddr tx) height
    then GenesisInitExec acc returnAddress amount (RealToAddr tx)
    else GenesisInit acc (RealToAddr tx) amount
  else throw ErrReRunGenesis.

Definition coins_Exec (a : CoinsAction) (tx : TxView) : M S Receipt :=
  match a with
  | AssetsTransfer n => Exec_Transfer n tx
  | AssetsTransferToExec e n => Exec_TransferToExec e n tx
  | AssetsWithdraw e n => Exec_Withdraw e n tx
  | AssetsGenesis r n => Exec_Genesis r n tx
  end.

(** An action is one of three ledger operations, or it is refused before it touches
    the store. *)
Lemma coins_Exec_cases U E a tx s :
  (∀ x, IsDriverAddress execDrivers x height = true → x ∈ E) → (∀ n, ExecAddress n ∈ U → ExecAddress n ∈ E) →
  From tx ∈ U → (From tx ∉ E) → RealToAddr tx ∈ U → height ≠ 0 →
  (∀ k, k ∈ ["ForkTransferExec"; "ForkWithdraw"] → IsFork forks title height k ≠ Panic) →
  (∃ o, allowed U E o ∧ coins_Exec a tx s = run acc o s) ∨ (∃ e, coins_Exec a tx s = (Err e, s)).
Proof using Type.
  intros HD HA HF HnF HT Hh Hforks.
  assert (∀ k, k ∈ ["ForkTransferExec"; "ForkWithdraw"] → ∃ b, IsFork forks title height k = Ret b) as Hf.
  { intros k Hk. specialize (Hforks k Hk). unfold IsFork, GetFork in *. repeat case_match; simpl in *; eauto; done. }
  destruct a as [n|e n|e n|r n]; simpl.
  - unfold Exec_Transfer. destruct (IsDriverAddress execDrivers (RealToAddr tx) height) eqn:Ed; left.
    + exists (OTransferToExec (From tx) (RealToAddr tx) n). simpl. auto.
    + exists (OTransfer (From tx) (RealToAddr tx) n). simpl. auto.
  - unfold Exec_TransferToExec. destruct (Hf "ForkTransferExec") as [b Eb]; [set_solver|].
    rewrite Eb. unfold mbind, M_bind, lift_outcome. destruct b; simpl; [|right; by eexists].
    unfold isExecAddrMatch. destruct (String.eqb_spec (ExecAddress e) (RealToAddr tx)) as [Ea|Ea]; simpl; [|right; by eexists].
    left. exists (OTransferToExec (From tx) (RealToAddr tx) n). simpl. rewrite <-Ea in *. auto.
  - unfold Exec_Withdraw. destruct (Hf "ForkWithdraw") as [b Eb]; [set_solver|].
    rewrite Eb. unfold mbind, M_bind, lift_outcome. simpl. destruct (_ || _) eqn:Eo; [|right; by eexists].
    left. exists (OTransferWithdraw (From tx) (RealToAddr tx) n). split; [|done]. simpl. split_and!; [done|done|].
    apply orb_true_iff in Eo as [Eo|Eo]; [by apply HD|]. apply String.eqb_eq in Eo. rewrite <-Eo in *. by apply HA.
  - unfold Exec_Genesis. destruct (Z.eqb_spec height 0); [done|]. right. by eexists.
Qed.
End Exec.

(** ** Received totals in the local database *)

Record Int64 := { Data : Z }.

Definition calcAddrKey (addr : string) : bytes := "LODB-coins-Addr:" ++ addr.

Section Local.
Context {S : Type} `{!KV S} {C : Codec Int64}.

Definition geAddrReciverKV (addr : string) (reciverAmount : Z) : bytes * bytes :=
  (calcAddrKey addr, Encode {| Data := reciverAmount |}).

Definition getAddrReciver (addr : string) : M S Z := λ s,
  match kv_Get (calcAddrKey addr) s with
  | (Err ErrNotFound, s') => (Ret 0, s')
  | (Err e, s') => (Err e, s')
  | (Panic, s') => (Panic, s')
  | (Ret v, s') =>
      if String.eqb v "" then (Ret 0, s')
      else match Decode v with
           | None => (Err (ErrOther "proto"), s')
           | Some r => (Ret (Data r), s')
           end
  end.

Definition setAddrReciver (addr : string) (reciverAmount : Z) : M S unit :=
  kv_Set (geAddrReciverKV addr reciverAmount).1 (geAddrReciverKV addr reciverAmount).2.

Definition updateAddrReciver (addr : string) (amount : Z) (isadd : bool) : M S (bytes * bytes) := λ s,
  let update recv s :=
    let recv := if isadd then recv +₆₄ amount else recv -₆₄ amount in
    (_ ← setAddrReciver addr recv; mret (geAddrReciverKV addr recv)) s in
  match getAddrReciver addr s with
  | (Ret recv, s') => update recv s'
  | (Err ErrNotFound, s') => update 0 s'
  | (Err e, s') => (Err e, s')
  | (Panic, s') => (Panic, s')
  end.

Definition local_set (r : M S (bytes * bytes)) : M S (list (bytes * bytes)) := kv ← r; mret [kv].

Definition ExecLocal_Transfer (amount : Z) (tx : TxView) := local_set (updateAddrReciver (RealToAddr tx) amount true).
Definition ExecLocal_TransferToExec (amount : Z) (tx : TxView) := local_set (updateAddrReciver (RealToAddr tx) amount true).
Definition ExecLocal_Withdraw (amount : Z) (tx : TxView) := local_set (updateAddrReciver (From tx) amount true).
Definition ExecLocal_Genesis (amount : Z) (tx : TxView) := local_set (updateAddrReciver (RealToAddr tx) amount true).
Definition ExecDelLocal_Transfer (amount : Z) (tx : TxView) := local_set (updateAddrReciver (RealToAddr tx) amount false).
Definition ExecDelLocal_TransferToExec (amount : Z) (tx : TxView) := local_set (updateAddrReciver (RealToAddr tx) amount false).
Definition ExecDelLocal_Withdraw (amount : Z) (tx : TxView) := local_set (updateAddrReciver (From tx) amount false).

(** The local effect of an action when its block is connected ([true]) or
    disconnected ([false]); a genesis block is never disconnected. *)
Definition coins_Local (a : CoinsAction) (tx : TxView) (connect : bool) : M S (list (bytes * bytes)) :=
  match a, connect with
  | AssetsTransfer n, true => ExecLocal_Transfer n tx
  | AssetsTransfer n, false => ExecDelLocal_Transfer n tx
  | AssetsTransferToExec _ n, true => ExecLocal_TransferToExec n tx
  | AssetsTransferToExec _ n, false => ExecDelLocal_TransferToExec n tx
  | AssetsWithdraw _ n, true => ExecLocal_Withdraw n tx
  | AssetsWithdraw _ n, false => ExecDelLocal_Withdraw n tx
  | AssetsGenesis _ n, true => ExecLocal_Genesis n tx
  | AssetsGenesis _ _, false => mret []
  end.
End Local.
