(* ===== verification/Manage.v ===== *)
(** The manage executor ([system/dapp/manage]): lists of strings under configuration keys,
    changed by the transactions of the super managers. *)

From Stdlib Require Import Ascii String Sorted.
From S2P Require Import Prelude KVStore Types Account Ledger Fork Coins Address.
Local Open Scope string_scope.
Local Open Scope Z_scope.

(** ** Messages *)

Inductive ConfigValue := ConfigItem_Arr (Value : list string) | ConfigItem_Str (Value : string) | ConfigItem_Int (Value : Z).
Record ConfigItem := mkConfigItem { ci_Key : string; ci_Addr : string; ci_Value : option ConfigValue; ci_Ty : Z }.
Record ModifyConfig := mkModify { mc_Key : string; mc_Value : string; mc_Op : string; mc_Addr : string }.
Record ReceiptConfig := mkReceiptConfig { rc_Prev : option ConfigItem; rc_Current : option ConfigItem }.
Record ReplyConfig := mkReplyConfig { rp_Key : string; rp_Value : string }.

(** What the executor reads of a transaction. *)
Record ManageTx := mkManageTx { mt_From : string; mt_To : string; mt_Execer : string }.

Definition GetArr (item : ConfigItem) : option (list string) :=
  match ci_Value item with Some (ConfigItem_Arr l) => Some l | _ => None end.

Definition ErrNoPrivilege : error := ErrOther "ErrNoPrivilege".
Definition ErrBadConfigKey : error := ErrOther "ErrBadConfigKey".
Definition ErrBadConfigOp : error := ErrOther "ErrBadConfigOp".
Definition ManageActionModifyConfig : Z := 0.
Definition TyLogModifyConfig : Z := 410.
Definition ConfigItemArrayConfig : Z := 0.

Definition ConfigPrefix : string := "mavl-config-".
Definition ConfigKey (key : string) : string := ConfigPrefix ++ "-" ++ key.
Definition ManagePrefix : string := "mavl-".
Definition ManageKey (key : string) : string := (ManagePrefix ++ "manage") ++ "-" ++ key.
Definition manage_localKey (key : string) : bytes := "LODB-manage-" ++ key.

(** [fmt.Sprint] of a list of strings. *)
Definition Sprint (l : list string) : string := "[" ++ String.concat " " l ++ "]".

(** ** The executor: its state is the state database and the address caches *)

Section Manage.
Context {S : Type} {K : KV S} {CI : Codec ConfigItem} {CR : Codec ReceiptConfig} {AE : AddressEnv} {LR : LRU}.
(** [conf.GStrList("superManager")], the registered drivers, the fork table and the chain's title. *)
Context (superManager : list string) (execDrivers : gmap string Z) (forks : Forks) (title : string).

Definition on_db {A} (m : M S A) : M (S * Caches) A := λ '(s, c), let '(r, s) := m s in (r, (s, c)).
Definition on_caches {A} (m : M Caches A) : M (S * Caches) A := λ '(s, c), let '(r, c) := m c in (r, (s, c)).

Definition IsSuperManager (addr : string) : bool := existsb (String.eqb addr) superManager.

Definition ManaeKeyWithHeigh (key : string) (height : Z) : outcome string :=
  b ← IsFork forks title height "ForkExecKey"; Ret (if b : bool then ManageKey key else ConfigKey key).

(** [value, err := db.Get(key); if err != nil { value = nil }]. *)
Definition get_or_nil (key : bytes) : M S (option bytes) := λ s,
  match kv_Get key s with
  | (Ret v, s) => (Ret (Some v), s)
  | (Err _, s) => (Ret None, s)
  | (Panic, s) => (Panic, s)
  end.
(** The item under the new key, or else under the old one. *)
Definition get_item (key : string) : M S (option bytes) :=
  value ← get_or_nil (ManageKey key);
  match value with Some v => mret (Some v) | None => get_or_nil (ConfigKey key) end.

Definition modifyConfig (fromaddr : string) (height : Z) (modify : ModifyConfig) : M S Receipt :=
  if negb (IsSuperManager fromaddr) then throw ErrNoPrivilege
  else if (String.length (mc_Key modify) =? 0)%nat then throw ErrBadConfigKey
  else if negb (String.eqb (mc_Op modify) "add") && negb (String.eqb (mc_Op modify) "delete") then throw ErrBadConfigOp
  else
    value ← get_item (mc_Key modify);
    item ← match value with
           | Some v => match Decode v with Some item => mret item | None => throw (ErrOther "proto") end
           | None => mret (mkConfigItem (mc_Key modify) (mc_Addr modify) (Some (ConfigItem_Arr [])) ConfigItemArrayConfig)
           end;
    match GetArr item with
    | None => panic
    | Some copyValue =>
        let copyItem := mkConfigItem (ci_Key item) (ci_Addr item) (Some (ConfigItem_Arr copyValue)) (ci_Ty item) in
        let new := if String.eqb (mc_Op modify) "add" then (copyValue ++ [mc_Value modify])%list
                   else foldl (λ acc value, if negb (String.eqb value (mc_Value modify)) then (acc ++ [value])%list else acc) [] copyValue in
        let item := mkConfigItem (ci_Key item) (mc_Addr modify) (Some (ConfigItem_Arr new)) (ci_Ty item) in
        key ← λ s, (ManaeKeyWithHeigh (mc_Key modify) height, s);
        let valueSave := Encode item in
        _ ← kv_Set key valueSave;
        mret {| Ty := ExecOk; KVs := [(key, valueSave)];
                Logs := [{| rl_Ty := TyLogModifyConfig; rl_Log := Encode (mkReceiptConfig (Some copyItem) (Some item)) |}] |}
    end.

(** [ManageType.GetRealToAddr]. *)
Definition manage_GetRealToAddr (tx : ManageTx) : M Caches string :=
  if (String.length (mt_To tx) =? 0)%nat then ExecAddress (mt_Execer tx) else mret (mt_To tx).

Definition manage_checkAddress (height : Z) (addr : string) : M Caches unit :=
  if IsDriverAddress execDrivers addr height then mret tt
  else e ← CheckAddress addr; match e with Some e => throw e | None => mret tt end.
Definition checkTxToAddress (height : Z) (tx : ManageTx) : M Caches unit :=
  addr ← manage_GetRealToAddr tx; manage_checkAddress height addr.

Definition Exec_Modify (height : Z) (manageAction : ModifyConfig) (tx : ManageTx) : M (S * Caches) Receipt :=
  b ← λ s, (IsDappFork forks title height "manage" "ForkManageExec", s);
  _ ← (if b : bool then on_caches (checkTxToAddress height tx) else mret tt);
  on_db (modifyConfig (mt_From tx) height manageAction).

Definition Query_GetConfigItem (in_ : string) : M S ReplyConfig :=
  value ← get_item in_;
  match value with
  | Some v =>
      match Decode v with
      | None => throw (ErrOther "proto")
      | Some item => match GetArr item with Some l => mret (mkReplyConfig in_ (Sprint l)) | None => panic end
      end
  | None => mret (mkReplyConfig in_ "")
  end.

(** The local data of the logs of a receipt, when its block is connected and disconnected. *)
Fixpoint ExecLocal_Modify (logs : list ReceiptLog) : outcome (list KeyValue) :=
  match logs with
  | [] => Ret []
  | item :: logs =>
      if rl_Ty item =? ManageActionModifyConfig then
        match Decode (rl_Log item) with
        | Some (mkReceiptConfig _ (Some current)) => kvs ← ExecLocal_Modify logs; Ret ((manage_localKey (ci_Key current), Encode current) :: kvs)
        | _ => Panic
        end
      else ExecLocal_Modify logs
  end.
Fixpoint ExecDelLocal_Modify (logs : list ReceiptLog) : outcome (list KeyValue) :=
  match logs with
  | [] => Ret []
  | item :: logs =>
      if rl_Ty item =? ManageActionModifyConfig then
        match Decode (rl_Log item) with
        | Some (mkReceiptConfig (Some prev) (Some current)) => kvs ← ExecDelLocal_Modify logs; Ret ((manage_localKey (ci_Key current), Encode prev) :: kvs)
        | _ => Panic
        end
      else ExecDelLocal_Modify logs
  end.

(** ** What it promises: a map from keys to lists of values, with the address last given *)

Abbreviation config := (gmap string (string * list string)).
Definition item_of (k : string) (v : string * list string) : ConfigItem := mkConfigItem k v.1 (Some (ConfigItem_Arr v.2)) ConfigItemArrayConfig.

(** The heights of the forks. *)
Context (keyFork execFork : Z) (HkF : GetFork forks title "ForkExecKey" = Ret keyFork)
  (HeF : GetFork forks title (dapp_key "manage" "ForkManageExec") = Ret execFork).

Definition to_spec (height : Z) (tx : ManageTx) : outcome unit :=
  match (if (String.length (mt_To tx) =? 0)%nat then pure_call (CExec (mt_Execer tx)) else Ret (AText (mt_To tx))) with
  | Ret (AText addr) =>
      if IsDriverAddress execDrivers addr height then Ret tt
      else match check_spec NormalVer addr with Some e => Err e | None => Ret tt end
  | _ => Panic
  end.

(** The item before and after, and the new configuration. *)
Definition modify_spec (height : Z) (tx : ManageTx) (m : ModifyConfig) (cfg : config) : outcome (ConfigItem * ConfigItem) * config :=
  match (if execFork <=? height then to_spec height tx else Ret tt) with
  | Err e => (Err e, cfg)
  | Panic => (Panic, cfg)
  | Ret _ =>
      if bool_decide (mt_From tx ∉ superManager) then (Err ErrNoPrivilege, cfg)
      else if bool_decide (mc_Key m = "") then (Err ErrBadConfigKey, cfg)
      else if bool_decide (mc_Op m ∉ ["add"; "delete"]) then (Err ErrBadConfigOp, cfg)
      else
        let old := default (mc_Addr m, []) (cfg !! mc_Key m) in
        let new := (mc_Addr m, if bool_decide (mc_Op m = "add") then (old.2 ++ [mc_Value m])%list else filter (λ v, v ≠ mc_Value m) old.2) in
        (Ret (item_of (mc_Key m) old, item_of (mc_Key m) new), <[mc_Key m := new]> cfg)
  end.

Definition receipt_of (height : Z) (k : string) (items : ConfigItem * ConfigItem) : Receipt :=
  {| Ty := ExecOk; KVs := [(if keyFork <=? height then ManageKey k else ConfigKey k, Encode items.2)];
     Logs := [{| rl_Ty := TyLogModifyConfig; rl_Log := Encode (mkReceiptConfig (Some items.1) (Some items.2)) |}] |}.

(** Transactions in the order of their blocks. *)
Definition request : Type := Z * ModifyConfig * ManageTx.
Fixpoint run_modify (qs : list request) (sc : S * Caches) : list (outcome Receipt) * (S * Caches) :=
  match qs with
  | [] => ([], sc)
  | (h, m, tx) :: qs => let '(r, sc) := Exec_Modify h m tx sc in let '(rs, sc) := run_modify qs sc in (r :: rs, sc)
  end.
Fixpoint run_spec (qs : list request) (cfg : config) : list (outcome Receipt) * config :=
  match qs with
  | [] => ([], cfg)
  | (h, m, tx) :: qs =>
      let '(r, cfg) := modify_spec h tx m cfg in let '(rs, cfg) := run_spec qs cfg in
      ((items ← r; Ret (receipt_of h (mc_Key m) items)) :: rs, cfg)
  end.

(** The bytes the executor finds for a key; before the fork there is nothing under a new key. *)
Definition item_view (s : S) (k : string) : option bytes :=
  match kv_view s (ManageKey k) with Some v => Some v | None => kv_view s (ConfigKey k) end.
Record holds (h : Z) (s : S) (cfg : config) : Prop := {
  ho_items : ∀ k, item_view s k = (λ v, Encode (item_of k v)) <$> cfg !! k;
  ho_keys : h < keyFork → ∀ k, kv_view s (ManageKey k) = None
}.

(** ** Proofs *)

Lemma ManageKey_inj : Inj (=) (=) ManageKey.
Proof using Type. intros a b H. by apply str_app_inj_l, str_app_inj_l in H. Qed.
Lemma ConfigKey_inj : Inj (=) (=) ConfigKey.
Proof using Type. intros a b H. by apply str_app_inj_l, str_app_inj_l in H. Qed.
Lemma Manage_Config a b : ManageKey a ≠ ConfigKey b.
Proof using Type. done. Qed.

Lemma IsFork_at h k x : GetFork forks title k = Ret x → 0 ≤ h → IsFork forks title h k = Ret (x <=? h).
Proof using Type. intros H Hh. unfold IsFork. rewrite H. simpl. by destruct (Z.eqb_spec h (-1)); [lia|]. Qed.

Lemma get_or_nil_spec k s : ∃ s', get_or_nil k s = (Ret (kv_view s k), s') ∧ s' ≈ s.
Proof using Type.
  unfold get_or_nil. destruct (kv_view s k) as [v|] eqn:E.
  - destruct (kv_Get_Some _ _ _ E) as (s' & -> & H). eauto.
  - destruct (kv_Get_None _ _ E) as (e & s' & -> & H). eauto.
Qed.

Lemma get_item_spec k s : ∃ s', get_item k s = (Ret (item_view s k), s') ∧ s' ≈ s.
Proof using Type.
  unfold get_item, mbind, M_bind, item_view. destruct (get_or_nil_spec (ManageKey k) s) as (s1 & -> & H1).
  destruct (kv_view s (ManageKey k)) as [v|]; [by exists s1|]. destruct (get_or_nil_spec (ConfigKey k) s1) as (s2 & -> & H2).
  exists s2. rewrite <-(H1 (ConfigKey k)). split; [done|]. by etrans.
Qed.

Lemma holds_equiv h s s' cfg : s' ≈ s → holds h s cfg → holds h s' cfg.
Proof using Type. intros H [H1 H2]. split; [intros k; unfold item_view; rewrite !H; apply H1|intros Hh k; rewrite H; auto]. Qed.

Lemma holds_later h h' s cfg : h ≤ h' → holds h s cfg → holds h' s cfg.
Proof using Type. intros Hh [H1 H2]. split; [done|]. intros. apply H2. lia. Qed.

(** Writing the item of a key under the key for the height. *)
Lemma holds_set h s s' cfg k v : holds h s cfg →
  (∀ k', kv_view s' k' = if decide (k' = if keyFork <=? h then ManageKey k else ConfigKey k) then Some (Encode (item_of k v)) else kv_view s k') →
  holds h s' (<[k := v]> cfg).
Proof using Type.
  intros [H1 H2] Hs. destruct (Z.leb_spec keyFork h) as [Hle|Hlt]; split; try lia.
  - intros k'. unfold item_view. rewrite !Hs. destruct (decide (k' = k)) as [->|Hne].
    + rewrite decide_True by done. by rewrite lookup_insert_eq.
    + rewrite lookup_insert_ne, <-H1, !decide_False by (first [done|by intros ?%ManageKey_inj]). done.
  - intros k'. unfold item_view. rewrite !Hs, decide_False by done. rewrite (H2 Hlt). destruct (decide (k' = k)) as [->|Hne].
    + rewrite decide_True by done. by rewrite lookup_insert_eq.
    + rewrite lookup_insert_ne, <-H1, decide_False by (first [done|by intros ?%ConfigKey_inj]). unfold item_view. by rewrite (H2 Hlt).
  - intros _ k'. rewrite Hs, decide_False by done. auto.
Qed.

Lemma delete_loop x l acc : foldl (λ acc v, if negb (String.eqb v x) then (acc ++ [v])%list else acc) acc l = (acc ++ filter (λ v, v ≠ x) l)%list.
Proof using Type.
  revert acc. induction l as [|v l IH]; intros acc; simpl; [by rewrite app_nil_r|]. rewrite IH, filter_cons.
  destruct (String.eqb_spec v x); simpl; [rewrite decide_False by naive_solver; done|]. rewrite decide_True by done. by rewrite <-app_assoc.
Qed.

Lemma IsSuperManager_spec a : negb (IsSuperManager a) = bool_decide (a ∉ superManager).
Proof using Type.
  unfold IsSuperManager. destruct (existsb _ _) eqn:E; simpl; symmetry.
  - apply bool_decide_eq_false. apply existsb_exists in E as (x & Hx & ->%String.eqb_eq). rewrite <-list_elem_of_In in Hx. naive_solver.
  - apply bool_decide_eq_true. intros Hx%list_elem_of_In. assert (existsb (String.eqb a) superManager = true) as E'; [|congruence].
    apply existsb_exists. exists a. by rewrite String.eqb_refl.
Qed.

(** The checks of the To address answer as without the caches. *)
Lemma checkTx_spec h tx c : caches_ok c → ∃ c', checkTxToAddress h tx c = (to_spec h tx, c') ∧ caches_ok c'.
Proof using Type.
  intros H. unfold checkTxToAddress, to_spec, manage_GetRealToAddr.
  assert (∀ addr c, caches_ok c → ∃ c', manage_checkAddress h addr c =
    (if IsDriverAddress execDrivers addr h then Ret tt else match check_spec NormalVer addr with Some e => Err e | None => Ret tt end, c') ∧ caches_ok c') as Hcheck.
  { clear c H. intros addr c H. unfold manage_checkAddress. destruct (IsDriverAddress _ _ _); [by exists c|].
    destruct (CheckAddress_ok addr c H) as (c' & E & Hc'). exists c'. rewrite (bind_Ret _ _ _ _ _ E). by destruct (check_spec _ _). }
  destruct (String.length (mt_To tx) =? 0)%nat; [|apply Hcheck, H].
  destruct (ExecAddress_ok (mt_Execer tx) c H) as (c' & E & Hc'). unfold mbind, M_bind. rewrite E. cbn [pure_call].
  destruct (MaxExecNameLength <? _)%nat; [by exists c'|]. by apply Hcheck.
Qed.

(** A change by a super manager with a key and a known operation. *)
Lemma modify_ok h from m s cfg : 0 ≤ h → holds h s cfg → from ∈ superManager → mc_Key m ≠ "" → mc_Op m ∈ ["add"; "delete"] →
  let old := default (mc_Addr m, []) (cfg !! mc_Key m) in
  let new := (mc_Addr m, if bool_decide (mc_Op m = "add") then (old.2 ++ [mc_Value m])%list else filter (λ v, v ≠ mc_Value m) old.2) in
  ∃ s', modifyConfig from h m s = (Ret (receipt_of h (mc_Key m) (item_of (mc_Key m) old, item_of (mc_Key m) new)), s') ∧
    holds h s' (<[mc_Key m := new]> cfg).
Proof using HkF.
  intros Hh Hs Hf Hk Ho old new. unfold modifyConfig. rewrite IsSuperManager_spec, bool_decide_eq_false_2 by naive_solver.
  destruct (Nat.eqb_spec (String.length (mc_Key m)) 0) as [E|_]; [by destruct (mc_Key m)|].
  replace (negb _ && negb _) with false by (apply elem_of_cons in Ho as [-> | ->%list_elem_of_singleton]; done).
  destruct (get_item_spec (mc_Key m) s) as (s1 & E1 & H1). rewrite (bind_Ret _ _ _ _ _ E1).
  assert (match item_view s (mc_Key m) with
          | Some v => match Decode v with Some item => mret item | None => throw (ErrOther "proto") end
          | None => mret (mkConfigItem (mc_Key m) (mc_Addr m) (Some (ConfigItem_Arr [])) ConfigItemArrayConfig)
          end s1 = (Ret (item_of (mc_Key m) old), s1)) as E2.
  { unfold old. rewrite (ho_items _ _ _ Hs). destruct (cfg !! mc_Key m) as [v|]; [|done]. cbn [fmap option_fmap option_map]. by rewrite Decode_Encode. }
  rewrite (bind_Ret _ _ _ _ _ E2). cbn [GetArr item_of ci_Value ci_Key ci_Addr ci_Ty].
  unfold ManaeKeyWithHeigh. rewrite (IsFork_at h _ _ HkF) by done. unfold mbind, M_bind. cbn [outcome_bind].
  set (key := if keyFork <=? h then _ else _). rewrite delete_loop.
  replace (String.eqb (mc_Op m) "add") with (bool_decide (mc_Op m = "add")) by (destruct (String.eqb_spec (mc_Op m) "add"); by case_bool_decide).
  destruct (kv_Set_law key (Encode (item_of (mc_Key m) new)) s1) as (s2 & E3 & H2). exists s2. split.
  - cbn [app]. change (mkConfigItem (mc_Key m) (mc_Addr m) (Some (ConfigItem_Arr ?l)) _) with (item_of (mc_Key m) (mc_Addr m, l)). fold new. rewrite E3.
    by destruct old.
  - apply (holds_set h s1); [by apply (holds_equiv _ s)|]. exact H2.
Qed.

Lemma modify_step h m tx s c cfg : 0 ≤ h → holds h s cfg → caches_ok c →
  ∃ s' c', Exec_Modify h m tx (s, c) = ((items ← (modify_spec h tx m cfg).1; Ret (receipt_of h (mc_Key m) items)), (s', c')) ∧
    holds h s' (modify_spec h tx m cfg).2 ∧ caches_ok c'.
Proof using HkF HeF.
  intros Hh Hs Hc. unfold Exec_Modify, modify_spec, IsDappFork. rewrite (IsFork_at h _ _ HeF) by done. unfold mbind at 1, M_bind at 1.
  assert (∃ c', (if execFork <=? h then on_caches (checkTxToAddress h tx) else mret tt) (s, c) =
    (if execFork <=? h then to_spec h tx else Ret tt, (s, c')) ∧ caches_ok c') as (c' & E & Hc').
  { destruct (execFork <=? h); [|by exists c]. destruct (checkTx_spec h tx c Hc) as (c' & E & Hc'). exists c'. by unfold on_caches; rewrite E. }
  unfold mbind at 1, M_bind at 1. rewrite E. destruct (if execFork <=? h then to_spec h tx else Ret tt) as [u|e|]; [|by exists s, c'..].
  unfold on_db. destruct (bool_decide (mt_From tx ∉ superManager)) eqn:E1.
  { unfold modifyConfig. rewrite IsSuperManager_spec, E1. by exists s, c'. }
  destruct (bool_decide (mc_Key m = "")) eqn:E2.
  { unfold modifyConfig. rewrite IsSuperManager_spec, E1. bool_to_prop. rewrite E2. by exists s, c'. }
  destruct (bool_decide (mc_Op m ∉ ["add"; "delete"])) eqn:E3.
  { unfold modifyConfig. rewrite IsSuperManager_spec, E1. bool_to_prop.
    destruct (Nat.eqb_spec (String.length (mc_Key m)) 0) as [E4|_]; [by destruct (mc_Key m)|].
    replace (negb _ && negb _) with true by (destruct (String.eqb_spec (mc_Op m) "add"), (String.eqb_spec (mc_Op m) "delete"); set_solver).
    by exists s, c'. }
  bool_to_prop. apply dec_stable in E1, E3. destruct (modify_ok h (mt_From tx) m s cfg Hh Hs E1 E2 E3) as (s' & Em & H').
  rewrite Em. by exists s', c'.
Qed.

(** No log of a receipt has the type that the local data is made of. *)
Lemma receipt_local h k items :
  ExecLocal_Modify (Logs (receipt_of h k items)) = Ret [] ∧ ExecDelLocal_Modify (Logs (receipt_of h k items)) = Ret [].
Proof using Type. done. Qed.

Lemma run_modify_ok qs h0 s c cfg : Sorted Z.le (h0 :: qs.*1.*1) → 0 ≤ h0 → holds h0 s cfg → caches_ok c →
  ∃ h s' c', run_modify qs (s, c) = ((run_spec qs cfg).1, (s', c')) ∧ holds h s' (run_spec qs cfg).2.
Proof using HkF HeF.
  revert h0 s c cfg. induction qs as [|[[h m] tx] qs IH]; intros h0 s c cfg Hsort Hh Hs Hc; [by exists h0, s, c|].
  apply Sorted_inv in Hsort as [Hsort Hle%HdRel_inv]. cbn [fst fmap list_fmap] in Hle. cbn [run_modify run_spec].
  destruct (modify_step h m tx s c cfg) as (s1 & c1 & E & H1 & Hc1); [lia|by apply (holds_later h0)|done|]. rewrite E.
  destruct (modify_spec h tx m cfg) as [r cfg1]. cbn [fst snd] in *. destruct (IH h s1 c1 cfg1) as (h' & s' & c' & E' & H'); [done|lia|done|done|].
  rewrite E'. destruct (run_spec qs cfg1) as [rs cfg2]. cbn [fst snd] in *. by exists h', s', c'.
Qed.

Lemma query_spec h s cfg k : holds h s cfg → ∃ s', s' ≈ s ∧
  Query_GetConfigItem k s = (Ret (mkReplyConfig k (match cfg !! k with Some v => Sprint v.2 | None => "" end)), s').
Proof using Type.
  intros Hs. unfold Query_GetConfigItem. destruct (get_item_spec k s) as (s1 & E1 & H1). exists s1. split; [done|].
  rewrite (bind_Ret _ _ _ _ _ E1), (ho_items _ _ _ Hs). destruct (cfg !! k) as [v|]; cbn [fmap option_fmap option_map]; [|done].
  by rewrite Decode_Encode.
Qed.

Lemma run_spec_local qs cfg r : Ret r ∈ (run_spec qs cfg).1 → ExecLocal_Modify (Logs r) = Ret [] ∧ ExecDelLocal_Modify (Logs r) = Ret [].
Proof using Type.
  revert cfg. induction qs as [|[[h m] tx] qs IH]; intros cfg; cbn [run_spec]; [by intros ?%elem_of_nil|].
  destruct (modify_spec h tx m cfg) as [o cfg1]. specialize (IH cfg1). destruct (run_spec qs cfg1) as [rs cfg2]. cbn [fst] in *.
  intros [E|?]%elem_of_cons; [|by apply IH]. destruct o as [items|e|]; simplify_eq/=. exact (receipt_local h (mc_Key m) items).
Qed.

(** C12: for every sequence of manage transactions in blocks of growing height, over any state
    that holds a configuration, the executor answers, receipts included, as the specification
    does: a super manager's addition appends the value to the list of the key, a deletion
    removes every occurrence of it, and everything else is refused with its error and changes
    nothing, also where the keys of the state change at a fork.  Afterwards every query
    reports the list of its key.  The receipts give no local data, in either direction. *)
Theorem manage_config qs h0 s c cfg : Sorted Z.le (h0 :: qs.*1.*1) → 0 ≤ h0 → holds h0 s cfg → caches_ok c →
  ∃ s' c', run_modify qs (s, c) = ((run_spec qs cfg).1, (s', c')) ∧
    (∀ k, (Query_GetConfigItem k s').1 = Ret (mkReplyConfig k (match (run_spec qs cfg).2 !! k with Some v => Sprint v.2 | None => "" end))) ∧
    ∀ r, Ret r ∈ (run_modify qs (s, c)).1 → ExecLocal_Modify (Logs r) = Ret [] ∧ ExecDelLocal_Modify (Logs r) = Ret [].
Proof using HkF HeF.
  intros Hsort Hh Hs Hc. destruct (run_modify_ok qs h0 s c cfg Hsort Hh Hs Hc) as (h & s' & c' & E & H'). exists s', c'. split; [done|].
  split; [|rewrite E; apply run_spec_local]. intros k. by destruct (query_spec h s' _ k H') as (s2 & _ & ->).
Qed.
End Manage.

(** ** A witness *)

#[export] Instance ConfigValue_eq_dec : EqDecision ConfigValue.
Proof. solve_decision. Defined.
#[export] Instance ConfigValue_countable : Countable ConfigValue.
Proof.
  refine (inj_countable' (λ v, match v with ConfigItem_Arr l => inl l | ConfigItem_Str s => inr (inl s) | ConfigItem_Int z => inr (inr z) end)
    (λ v, match v with inl l => ConfigItem_Arr l | inr (inl s) => ConfigItem_Str s | inr (inr z) => ConfigItem_Int z end) _).
  by intros [].
Defined.
#[export] Instance ConfigItem_eq_dec : EqDecision ConfigItem.
Proof. solve_decision. Defined.
#[export] Instance ConfigItem_countable : Countable ConfigItem.
Proof.
  refine (inj_countable' (λ i, (ci_Key i, ci_Addr i, ci_Value i, ci_Ty i)) (λ '(k, a, v, t), mkConfigItem k a v t) _). by intros [].
Defined.
#[export] Instance ReceiptConfig_eq_dec : EqDecision ReceiptConfig.
Proof. solve_decision. Defined.
#[export] Instance ReceiptConfig_countable : Countable ReceiptConfig.
Proof. refine (inj_countable' (λ r, (rc_Prev r, rc_Current r)) (λ '(p, c), mkReceiptConfig p c) _). by intros []. Defined.

Module ManageDemo.
#[local] Existing Instances AddressDemo.env AddressDemo.evict.
#[local] Instance codec_item : Codec ConfigItem := countable_codec.
#[local] Instance codec_receipt : Codec ReceiptConfig := countable_codec.

(** The keys change at height 10, the To address is checked from height 20. *)
Definition forks : Forks := {[ "chain" := {[ "ForkExecKey" := 10; dapp_key "manage" "ForkManageExec" := 20 ]} ]}.
Definition root := mkManageTx "root" "" "manage".
Definition qs : list request :=
  [(1, mkModify "fee" "a" "add" "root", root); (2, mkModify "fee" "a" "add" "eve", mkManageTx "eve" "" "manage");
   (11, mkModify "fee" "b" "add" "root", root); (12, mkModify "fee" "a" "delete" "root", root);
   (20, mkModify "fee" "c" "add" "root", mkManageTx "root" "x" "manage"); (21, mkModify "fee" "c" "put" "root", root);
   (22, mkModify "fee" "d" "add" "root", root)].

Lemma sorted : Sorted Z.le (0 :: qs.*1.*1).
Proof. repeat constructor; done. Qed.
Lemma empty_holds : holds 10 0 (∅ : gmap bytes bytes) ∅.
Proof. split; done. Qed.

Lemma manage_config_witness : ∃ s' c',
  run_modify ["root"] ∅ forks "chain" qs (∅, AddressDemo.none) = ((run_spec ["root"] ∅ 10 20 qs ∅).1, (s', c')) ∧
  (Query_GetConfigItem "fee" (s' : gmap bytes bytes)).1 = Ret (mkReplyConfig "fee" "[b d]").
Proof.
  destruct (manage_config ["root"] ∅ forks "chain" 10 20 eq_refl eq_refl qs 0 ∅ AddressDemo.none ∅ sorted (Z.le_refl 0) empty_holds AddressDemo.none_ok)
    as (s' & c' & E & Hq & _).
  exists s', c'. split; [exact E|]. rewrite Hq. vm_compute. reflexivity.
Defined.

(** The answers of the example: the refused transactions are those of a stranger, with a bad To
    address and with an unknown operation. *)
Lemma answers : (λ r, match r with Ret _ => None | Err e => Some e | Panic => Some ErrNotFound end) <$> (run_spec ["root"] ∅ 10 20 qs ∅).1 =
  [None; Some ErrNoPrivilege; None; None; Some (ErrB58 "x"); Some ErrBadConfigOp; None].
Proof. vm_compute. reflexivity. Qed.

(** An item that is not a list makes the change and the query panic. *)
Lemma not_a_list : let s : gmap bytes bytes := {[ ManageKey "fee" := Encode (mkConfigItem "fee" "root" (Some (ConfigItem_Int 3)) 0) ]} in
  (modifyConfig ["root"] forks "chain" "root" 1 (mkModify "fee" "a" "add" "root") s).1 = Panic ∧ (Query_GetConfigItem "fee" s).1 = Panic.
Proof. vm_compute. done. Qed.
End ManageDemo.
