(* ===== verification/CoinsTheorems.v ===== *)
(** The promises of the coins executor: its actions keep the ledger's invariants, and
    disconnecting blocks restores the received totals. *)

From Stdlib Require Import Ascii String.
From S2P Require Import Prelude KVStore Types Account Ledger LedgerInv LedgerTheorems Fork Coins.
Local Open Scope string_scope.
Local Open Scope Z_scope.

Section Ledger.
Context {S : Type} `{!KV S} `{!LedgerCodecs}.
Context (U E : list string) (ExecAddress : string → string) (execDrivers : gmap string Z)
  (forks : Forks) (title : string) (acc : DB).

(** The executor addresses are [E]: the registered drivers, and every address in use
    that is some executor's. *)
Definition exec_addresses (height : Z) : Prop :=
  (∀ x, IsDriverAddress execDrivers x height = true → x ∈ E) ∧ (∀ n, ExecAddress n ∈ U → ExecAddress n ∈ E).

(** One transaction of the coins executor after the genesis block, whatever its outcome:
    its signer is a user, not an executor. *)
Inductive coins_step : relation S :=
  | coins_tx a tx height s r s' :
      height ≠ 0 → exec_addresses height →
      (∀ k, k ∈ ["ForkTransferExec"; "ForkWithdraw"] → IsFork forks title height k ≠ Panic) →
      From tx ∈ U → (From tx ∉ E) → RealToAddr tx ∈ U →
      coins_Exec ExecAddress execDrivers forks title height acc a tx s = (r, s') → coins_step s s'.

Lemma coins_step_ledger s s' : coins_step s s' → s' = s ∨ lstep U E acc s s'.
Proof using Type.
  intros [a tx height s1 r s2 Hh [HD HA] Hf HF HnF HT Er].
  destruct (coins_Exec_cases ExecAddress execDrivers forks title height acc U E a tx s1) as [(o & Ho & Eo)|(e & Eo)];
    try done.
  - right. rewrite Er in Eo. by eapply lstep_op.
  - left. rewrite Er in Eo. congruence.
Qed.

(** C16: along every sequence of coins transactions after the genesis block (any
    action, any executor name, amount, height and outcome, signed by users) the
    total supply stays [T], no balance becomes negative and every executor covers
    what it owes; no transaction panics, and a genesis action is refused without
    touching the store. *)
Theorem coins_reachable T s s' :
  NoDup U → Forall valid_addr U → E ⊆ U → handle_ok acc → T <= MaxTokenBalance →
  ledger_inv U E acc T s → rtc coins_step s s' →
  ledger_inv U E acc T s' ∧
  ∀ a tx height, height ≠ 0 → exec_addresses height →
    (∀ k, k ∈ ["ForkTransferExec"; "ForkWithdraw"] → IsFork forks title height k ≠ Panic) →
    From tx ∈ U → (From tx ∉ E) → RealToAddr tx ∈ U →
    (coins_Exec ExecAddress execDrivers forks title height acc a tx s').1 ≠ Panic ∧
    (∀ r n, a = AssetsGenesis r n →
       coins_Exec ExecAddress execDrivers forks title height acc a tx s' = (Err ErrReRunGenesis, s')).
Proof using Type.
  intros HU HUv HE Ha HT Hi Hs.
  assert (ledger_inv U E acc T s') as Hi'.
  { induction Hs as [|s1 s2 s3 H1 _ IH]; [done|]. apply IH.
    apply coins_step_ledger in H1 as [->|H1]; [done|by eapply lstep_inv]. }
  split; [done|]. intros a tx height Hh [HD HA] Hf HF HnF HTo. split.
  - destruct (coins_Exec_cases ExecAddress execDrivers forks title height acc U E a tx s') as [(o & Ho & Eo)|(e & Eo)];
      try done; rewrite Eo; [|done]. by eapply run_no_panic.
  - intros r n ->. simpl. unfold Exec_Genesis. by destruct (Z.eqb_spec height 0).
Qed.
End Ledger.

#[local] Existing Instance Demo.codecs.

Lemma coins_reachable_witness :
  ledger_inv Demo.users Demo.execs Demo.coins 1000
    (coins_Exec (λ n, if String.eqb n "ticket" then "ticket" else "nobody") ∅ testnet "chain33" 500000 Demo.coins
       (AssetsTransferToExec "ticket" 400) {| From := "alice"; RealToAddr := "ticket" |} Demo.s0).2.
Proof.
  destruct Demo_users as (H1 & H2 & H3).
  eapply (coins_reachable Demo.users Demo.execs (λ n, if String.eqb n "ticket" then "ticket" else "nobody") ∅ testnet
    "chain33" Demo.coins 1000 Demo.s0 _ H1 H2 H3 Demo.coins_ok).
  - done.
  - exists Demo.genesis. split; [apply Demo_s0_repr|apply Demo_s0_good].
  - apply rtc_once. eapply (coins_tx _ _ _ _ _ _ _ (AssetsTransferToExec "ticket" 400)
      {| From := "alice"; RealToAddr := "ticket" |} 500000).
    + lia.
    + split; [done|]. intros n. destruct (String.eqb n "ticket"); [set_solver|]. intros Hn. exfalso.
      revert Hn. apply (bool_decide_unpack _). vm_compute. exact I.
    + intros k Hk. assert (k = "ForkTransferExec" ∨ k = "ForkWithdraw") as [->| ->] by set_solver; vm_compute; discriminate.
    + set_solver.
    + simpl. set_solver.
    + set_solver.
    + apply surjective_pairing.
Defined.

(** ** Received totals *)

Section Local.
Context {S : Type} `{!KV S} {C : Codec Int64}.

(** What the local database and the protobuf library promise: an absent key is
    reported as not found, and only the zero message has the empty encoding. *)
Context (get_absent : ∀ (s : S) k, kv_view s k = None → (kv_Get k s).1 = Err ErrNotFound)
        (encode_empty : ∀ r : Int64, Encode r = "" → Data r = 0).

(** The total recorded for an address. *)
Definition total (s : S) (a : string) (n : Z) : Prop :=
  in64 n ∧ match kv_view s (calcAddrKey a) with
           | None => n = 0
           | Some v => v = Encode {| Data := n |}
           end.

Lemma getAddrReciver_run s a n :
  total s a n → ∃ s', getAddrReciver a s = (Ret n, s') ∧ s' ≈ s.
Proof using get_absent encode_empty.
  intros [Hn Ht]. unfold getAddrReciver. pose proof (get_absent s (calcAddrKey a)) as Ha.
  destruct (kv_Get_law (calcAddrKey a) s) as (r & s' & Er & Hr & Hv). rewrite Er in *.
  destruct r as [v|e|]; [|rewrite Hr in Ht; specialize (Ha Hr); simpl in Ha; injection Ha as ->; subst n; by exists s'|done].
  rewrite Hr in Ht. subst v. destruct (String.eqb_spec (Encode {| Data := n |}) "") as [Ee|Ee].
  - apply encode_empty in Ee. simpl in Ee. subst n. by exists s'.
  - rewrite Decode_Encode. by exists s'.
Qed.

Lemma calcAddrKey_inj a b : calcAddrKey a = calcAddrKey b → a = b.
Proof using Type. unfold calcAddrKey. by intros [= ->]. Qed.

Definition delta (isadd : bool) (amount : Z) : Z := if isadd then amount else - amount.

Lemma updateAddrReciver_run s f a amount isadd :
  (∀ x, total s x (f x)) →
  ∃ kv s', updateAddrReciver a amount isadd s = (Ret kv, s') ∧
    (∀ x, total s' x (if decide (x = a) then wrap64 (f a + delta isadd amount) else f x)).
Proof using get_absent encode_empty.
  intros Hf. unfold updateAddrReciver. destruct (getAddrReciver_run s a (f a) (Hf a)) as (s1 & -> & Hs1).
  set (n := if isadd then f a +₆₄ amount else f a -₆₄ amount).
  destruct (kv_Set_law (calcAddrKey a) (Encode {| Data := n |}) s1) as (s2 & E2 & Hv).
  unfold setAddrReciver, geAddrReciverKV. simpl. unfold mbind, M_bind. rewrite E2.
  eexists _, s2. split; [done|]. intros x. unfold total. rewrite Hv.
  assert (n = wrap64 (f a + delta isadd amount)) as En by (unfold n, delta; by destruct isadd).
  destruct (decide (x = a)) as [->|Hne].
  - rewrite decide_True by done. rewrite <-En. split; [|done]. rewrite En. apply wrap64_range.
  - rewrite decide_False by (intros ?%calcAddrKey_inj; done). specialize (Hf x). unfold total in Hf.
    rewrite Hs1. done.
Qed.

(** The address whose total an action changes, and by how much. *)
Definition receiver (a : CoinsAction) (tx : TxView) : string :=
  match a with AssetsWithdraw _ _ => From tx | _ => RealToAddr tx end.
Definition amount_of (a : CoinsAction) : Z :=
  match a with
  | AssetsTransfer n | AssetsTransferToExec _ n | AssetsWithdraw _ n | AssetsGenesis _ n => n
  end.
Definition not_genesis (a : CoinsAction) : Prop := match a with AssetsGenesis _ _ => False | _ => True end.

Lemma coins_Local_run s f a tx connect :
  (∀ x, total s x (f x)) → not_genesis a →
  ∃ kvs s', coins_Local a tx connect s = (Ret kvs, s') ∧
    (∀ x, total s' x (if decide (x = receiver a tx) then wrap64 (f x + delta connect (amount_of a)) else f x)).
Proof using get_absent encode_empty.
  intros Hf Hg.
  destruct (updateAddrReciver_run s f (receiver a tx) (amount_of a) connect Hf) as (kv & s' & E & Ht).
  exists [kv], s'. split.
  - destruct a, connect; try done; simpl in *; unfold ExecLocal_Transfer, ExecDelLocal_Transfer, ExecLocal_TransferToExec,
      ExecDelLocal_TransferToExec, ExecLocal_Withdraw, ExecDelLocal_Withdraw, local_set, mbind, M_bind; by rewrite E.
  - intros x. specialize (Ht x). by destruct (decide (x = receiver a tx)) as [->|].
Qed.

(** The transactions of blocks, connected in order, then disconnected in reverse. *)
Fixpoint local_all (connect : bool) (txs : list (CoinsAction * TxView)) (s : S) : outcome S :=
  match txs with
  | [] => Ret s
  | (a, tx) :: txs =>
      match coins_Local a tx connect s with
      | (Ret _, s') => local_all connect txs s'
      | (Err e, _) => Err e
      | (Panic, _) => Panic
      end
  end.

Definition received (x : string) (txs : list (CoinsAction * TxView)) : Z :=
  sumZ (λ at_, if decide (x = receiver at_.1 at_.2) then amount_of at_.1 else 0) txs.

Lemma wrap64_add a b : wrap64 (wrap64 a + b) = wrap64 (a + b).
Proof using Type.
  destruct (wrap64_eq a) as [k ->]. unfold wrap64. f_equal.
  replace (a + k * 2 ^ 64 + b + 2 ^ 63) with (a + b + 2 ^ 63 + k * 2 ^ 64) by lia. apply Z_mod_plus_full.
Qed.

Lemma local_all_run connect txs : ∀ s f,
  (∀ x, total s x (f x)) → Forall (λ at_, not_genesis at_.1) txs →
  ∃ s', local_all connect txs s = Ret s' ∧
    ∀ x, total s' x (wrap64 (f x + delta connect (received x txs))).
Proof using get_absent encode_empty.
  induction txs as [|[a tx] txs IH]; intros s f Hf Hg.
  - exists s. split; [done|]. intros x. replace (f x + delta connect (received x [])) with (f x).
    + rewrite wrap64_id by apply Hf. apply Hf.
    + unfold received. simpl. destruct connect; simpl; lia.
  - apply list.Forall_cons in Hg as [Hg1 Hg2].
    destruct (coins_Local_run s f a tx connect Hf Hg1) as (kvs & s1 & E1 & H1). simpl. rewrite E1.
    destruct (IH s1 _ H1 Hg2) as (s2 & E2 & H2). exists s2. split; [done|].
    intros x. specialize (H2 x). unfold received in *. simpl. destruct (decide (x = receiver a tx)) as [->|].
    + rewrite wrap64_add in H2.
      match type of H2 with total _ _ (wrap64 ?x) => match goal with |- total _ _ (wrap64 ?y) => replace y with x end end;
        [done|]. destruct connect; simpl; lia.
    + done.
Qed.

(** Connecting the transactions of any blocks (other than genesis) records, for
    every address, the total it received modulo 2^64, and disconnecting them in
    reverse order restores every total. *)
Lemma coins_local_undo s f txs :
  (∀ x, total s x (f x)) → Forall (λ at_, not_genesis at_.1) txs →
  ∃ s1 s2, local_all true txs s = Ret s1 ∧ local_all false (reverse txs) s1 = Ret s2 ∧
    (∀ x, total s1 x (wrap64 (f x + received x txs))) ∧ (∀ x, total s2 x (f x)).
Proof using get_absent encode_empty.
  intros Hf Hg. destruct (local_all_run true txs s f Hf Hg) as (s1 & E1 & H1).
  destruct (local_all_run false (reverse txs) s1 _ H1) as (s2 & E2 & H2).
  { by rewrite reverse_Permutation. }
  exists s1, s2. split; [done|]. split; [done|]. split; [done|]. intros x. specialize (H2 x).
  rewrite wrap64_add in H2. simpl in H2. unfold received in H2.
  rewrite (sumZ_perm _ (reverse txs) txs) in H2 by apply reverse_Permutation.
  match type of H2 with total _ _ (wrap64 ?y) => replace y with (f x) in H2 by lia end.
  rewrite wrap64_id in H2 by apply Hf. done.
Qed.
End Local.

Definition int64_codec : Codec Int64.
Proof.
  refine {| Encode r := String "p" (digits (encode (Data r)));
            Decode s := match s with String _ s => (λ z, {| Data := z |}) <$> decode (undigits s) | EmptyString => None end |}.
  intros [z]. rewrite undigits_digits. cbn [Data]. by rewrite decode_encode.
Defined.
#[local] Existing Instance int64_codec.

Definition demo_txs : list (CoinsAction * TxView) :=
  [(AssetsTransfer 5, {| From := "a"; RealToAddr := "b" |});
   (AssetsWithdraw "e" 7, {| From := "a"; RealToAddr := "e" |});
   (AssetsTransferToExec "e" 9, {| From := "b"; RealToAddr := "e" |})].

Lemma coins_local_undo_witness :
  ∃ s1 s2 : gmap bytes bytes, local_all true demo_txs ∅ = Ret s1 ∧ local_all false (reverse demo_txs) s1 = Ret s2 ∧
    total s1 "b" 5 ∧ total s2 "b" 0.
Proof.
  destruct (coins_local_undo (S := gmap bytes bytes) (C := int64_codec)) with (s := (∅ : gmap bytes bytes)) (f := λ _ : string, 0) (txs := demo_txs)
    as (s1 & s2 & E1 & E2 & H1 & H2).
  - intros s k Hk. simpl in *. by rewrite Hk.
  - done.
  - done.
  - repeat constructor.
  - exists s1, s2. split; [exact E1|]. split; [exact E2|]. split; [exact (H1 "b")|exact (H2 "b")].
Defined.
