(* ===== verification/SkipList.v ===== *)
(** The skip list of [common/skiplist/skiplist.go]: nodes in a heap, linked on up to 32
    levels, the lowest level doubly.  The random level of an insertion is an argument.

    The abstract view of a list is the list of its values in descending order of score;
    equal scores are in order of insertion. *)

From Stdlib Require Import List.
From S2P Require Import Prelude.
Local Open Scope Z_scope.
Local Open Scope list_scope.

Section SkipList.
Context {V : Type}.

(** ** Data *)

Record SkipValue := mkSV { Score : Z; sv_Value : V }.

Definition Compare (v value : SkipValue) : Z :=
  if Score value <? Score v then -1 else if Score v =? Score value then 0 else 1.

(** Pointers are numbers, [None] is nil; node 0 is the header. *)
Record skipListNode := mkNode { next : list (option nat); prev : option nat; Value : SkipValue }.
Record SkipList := mkSL {
  nodes : gmap nat skipListNode; tail : option nat; findcount : Z; count : Z; level : nat; alloc : nat
}.
Definition header : nat := 0.
Definition maxLevel : nat := 32.
Abbreviation heap := (gmap nat skipListNode).

Definition newskipListNode (level : nat) (value : SkipValue) : skipListNode := mkNode (replicate level None) None value.
Definition NewSkipList (min : SkipValue) : SkipList := mkSL {[header := newskipListNode maxLevel min]} None 0 0 1 1.
Definition Len (sl : SkipList) : Z := count sl.
Definition Level (sl : SkipList) : nat := level sl.
Definition FindCount (sl : SkipList) : Z := findcount sl.

(** ** Pointers: following nil or an index out of range is a panic *)

Definition deref (h : heap) (x : nat) : outcome skipListNode := match h !! x with Some n => Ret n | None => Panic end.
Definition get_next (h : heap) (x i : nat) : outcome (option nat) :=
  n ← deref h x; match next n !! i with Some p => Ret p | None => Panic end.
Definition set_next (h : heap) (x i : nat) (p : option nat) : outcome heap :=
  n ← deref h x;
  match next n !! i with Some _ => Ret (<[x := mkNode (<[i := p]> (next n)) (prev n) (Value n)]> h) | None => Panic end.
Definition set_prev (h : heap) (x : nat) (p : option nat) : outcome heap :=
  n ← deref h x; Ret (<[x := mkNode (next n) p (Value n)]> h).

(** ** Searching *)

(** [for x.next[i] != nil && before(x.next[i].Value)], with the number of steps.  No walk is
    longer than the heap. *)
Fixpoint advance (fuel : nat) (before : SkipValue → bool) (h : heap) (i x : nat) : outcome (nat * Z) :=
  match fuel with
  | O => Panic
  | S fuel =>
      p ← get_next h x i;
      match p with
      | None => Ret (x, 0)
      | Some y =>
          ny ← deref h y;
          if before (Value ny) then '(z, n) ← advance fuel before h i y; Ret (z, n + 1) else Ret (x, 0)
      end
  end.

(** From level [i - 1] down to 0: the nodes where each level was left ([update]), the last
    node and the number of steps. *)
Fixpoint descend (before : SkipValue → bool) (h : heap) (i x : nat) : outcome (list nat * nat * Z) :=
  match i with
  | O => Ret ([], x, 0)
  | S i =>
      '(y, n) ← advance (S (size h)) before h i x;
      '(update, z, m) ← descend before h i y;
      Ret (update ++ [y], z, n + m)
  end.

Definition find (sl : SkipList) (value : SkipValue) : outcome (nat * SkipList) :=
  '(_, x, n) ← descend (λ v, Compare v value <? 0) (nodes sl) (level sl) header;
  Ret (x, mkSL (nodes sl) (tail sl) (findcount sl + n) (count sl) (level sl) (alloc sl)).

Definition Find (sl : SkipList) (value : SkipValue) : outcome (option SkipValue * SkipList) :=
  '(x, sl) ← find sl value;
  p ← get_next (nodes sl) x 0;
  match p with
  | None => Ret (None, sl)
  | Some y => ny ← deref (nodes sl) y; Ret (if Compare (Value ny) value =? 0 then Some (Value ny) else None, sl)
  end.

Definition FindGreaterOrEqual (sl : SkipList) (value : SkipValue) : outcome (option SkipValue * SkipList) :=
  '(x, sl) ← find sl value;
  p ← get_next (nodes sl) x 0;
  match p with
  | None => Ret (None, sl)
  | Some y => ny ← deref (nodes sl) y; Ret (Some (Value ny), sl)
  end.

(** ** Inserting and deleting *)

(** [x.next[i] = update[i].next[i]; update[i].next[i] = x], from level [i] up. *)
Fixpoint link_in (h : heap) (x i : nat) (update : list nat) : outcome heap :=
  match update with
  | [] => Ret h
  | u :: update =>
      p ← get_next h u i;
      h ← set_next h x i p;
      h ← set_next h u i (Some x);
      link_in h x (S i) update
  end.

Definition Insert (sl : SkipList) (value : SkipValue) (randomLevel : nat) : outcome (Z * SkipList) :=
  '(update, _, _) ← descend (λ v, Compare v value <=? 0) (nodes sl) (level sl) header;
  let update := update ++ replicate (randomLevel - level sl) header in
  let x := alloc sl in
  h ← link_in (<[x := newskipListNode randomLevel value]> (nodes sl)) x 0 (take randomLevel update);
  match update !! 0%nat with
  | None => Panic
  | Some u =>
      h ← (if decide (u = header) then Ret h else set_prev h x (Some u));
      p ← get_next h x 0;
      '(h, tail) ← match p with
                   | Some y => h ← set_prev h y (Some x); Ret (h, tail sl)
                   | None => Ret (h, Some x)
                   end;
      Ret (1, mkSL h tail (findcount sl) (count sl + 1) (Nat.max (level sl) randomLevel) (S (alloc sl)))
  end.

(** [if update[i].next[i] == x { update[i].next[i] = x.next[i] }] *)
Fixpoint link_out (h : heap) (x i : nat) (update : list nat) : outcome heap :=
  match update with
  | [] => Ret h
  | u :: update =>
      p ← get_next h u i;
      h ← (if decide (p = Some x) then q ← get_next h x i; set_next h u i q else Ret h);
      link_out h x (S i) update
  end.

(** [for sl.level > 1 && sl.header.next[sl.level-1] == nil { sl.level-- }] *)
Fixpoint lower (h : heap) (level : nat) : outcome nat :=
  match level with
  | O => Ret level
  | S l =>
      if (level <=? 1)%nat then Ret level
      else p ← get_next h header l; match p with None => lower h l | Some _ => Ret level end
  end.

Definition Delete (sl : SkipList) (value : SkipValue) : outcome (Z * SkipList) :=
  '(update, x, _) ← descend (λ v, Compare v value <? 0) (nodes sl) (level sl) header;
  p ← get_next (nodes sl) x 0;
  match p with
  | None => Ret (0, sl)
  | Some y =>
      ny ← deref (nodes sl) y;
      if negb (Compare (Value ny) value =? 0) then Ret (0, sl)
      else
        h ← link_out (nodes sl) y 0 update;
        ny ← deref h y;
        q ← get_next h y 0;
        '(h, tail) ← match q with
                     | Some z => h ← set_prev h z (prev ny); Ret (h, tail sl)
                     | None => Ret (h, prev ny)
                     end;
        l ← lower h (level sl);
        Ret (1, mkSL h tail (findcount sl) (count sl - 1) l (alloc sl))
  end.

(** ** Walking and iterators *)

Definition node_Next (h : heap) (x : option nat) : outcome (option nat) :=
  match x with None => Ret None | Some x => get_next h x 0 end.
Definition node_Prev (h : heap) (x : option nat) : outcome (option nat) :=
  match x with None => Ret None | Some x => n ← deref h x; Ret (prev n) end.

(** [WalkS]; the callback changes a state and says whether to go on. *)
Fixpoint walk_from {St} (fuel : nat) (h : heap) (e : option nat) (cb : SkipValue → St → bool * St) (s : St) : outcome St :=
  match e with
  | None => Ret s
  | Some x =>
      match fuel with
      | O => Panic
      | S fuel =>
          n ← deref h x;
          let '(go, s) := cb (Value n) s in
          if (go : bool) then e ← node_Next h e; walk_from fuel h e cb s else Ret s
      end
  end.
Definition WalkS {St} (sl : SkipList) (cb : option (SkipValue → St → bool * St)) (s : St) : outcome St :=
  e ← node_Next (nodes sl) (Some header);
  match cb with None => Ret s | Some cb => walk_from (size (nodes sl)) (nodes sl) e cb s end.
Definition Walk {St} (sl : SkipList) (cb : option (V → St → bool * St)) (s : St) : outcome St :=
  WalkS sl ((λ cb v, cb (sv_Value v)) <$> cb) s.

(** [type Iterator struct]: the list it belongs to is an argument. *)
Record Iterator := mkIter { it_node : option nat }.

Definition it_Value (sl : SkipList) (it : Iterator) : outcome SkipValue :=
  match it_node it with None => Panic | Some x => n ← deref (nodes sl) x; Ret (Value n) end.
Definition it_to (sl : SkipList) (it : Iterator) (p : option nat) : outcome (option SkipValue * Iterator) :=
  match p with
  | None => Ret (None, it)
  | Some x => n ← deref (nodes sl) x; Ret (Some (Value n), mkIter (Some x))
  end.
Definition it_First (sl : SkipList) (it : Iterator) : outcome (option SkipValue * Iterator) :=
  p ← get_next (nodes sl) header 0; it_to sl it p.
Definition it_Last (sl : SkipList) (it : Iterator) : outcome (option SkipValue * Iterator) := it_to sl it (tail sl).
Definition it_Next (sl : SkipList) (it : Iterator) : outcome Iterator :=
  p ← node_Next (nodes sl) (it_node it); Ret (mkIter p).
Definition it_Prev (sl : SkipList) (it : Iterator) : outcome Iterator :=
  p ← node_Prev (nodes sl) (it_node it); Ret (mkIter p).
Definition it_Seek (sl : SkipList) (it : Iterator) (value : SkipValue) : outcome (option SkipValue * Iterator * SkipList) :=
  '(x, sl) ← find sl value;
  p ← get_next (nodes sl) x 0;
  '(v, it) ← it_to sl it p;
  Ret (v, it, sl).
Definition GetIterator (sl : SkipList) : outcome Iterator :=
  '(_, it) ← it_First sl (mkIter None); Ret it.

(** ** The specification: a list in descending order of scores *)

Fixpoint ref_insert (v : SkipValue) (l : list SkipValue) : list SkipValue :=
  match l with
  | [] => [v]
  | w :: l' => if Score v <=? Score w then w :: ref_insert v l' else v :: l
  end.
Fixpoint ref_delete (v : SkipValue) (l : list SkipValue) : Z * list SkipValue :=
  match l with
  | [] => (0, [])
  | w :: l' => if Score w =? Score v then (1, l') else let '(r, l'') := ref_delete v l' in (r, w :: l'')
  end.
Definition ref_find (v : SkipValue) (l : list SkipValue) : option SkipValue := List.find (λ w, Score w =? Score v) l.
Definition ref_find_ge (v : SkipValue) (l : list SkipValue) : option SkipValue := List.find (λ w, Score w <=? Score v) l.
End SkipList.
Arguments SkipValue : clear implicits.
Arguments skipListNode : clear implicits.
Arguments SkipList : clear implicits.
