(* ===== verification/SkipListTheorems.v ===== *)
(** The skip list implements the sorted list of its specification. *)

From Stdlib Require Import List Sorted.
From S2P Require Import Prelude SkipList.
Local Open Scope Z_scope.
Local Open Scope list_scope.

Section Proofs.
Context {V : Type}.
Abbreviation sv := (SkipValue V).
Abbreviation heap := (gmap nat (skipListNode V)).

(** ** The heap *)

Definition link (h : heap) (x i : nat) : option (option nat) := n ← h !! x; next n !! i.
Definition prev_of (h : heap) (x : nat) : option (option nat) := prev <$> h !! x.
(** What never changes of a node: its number of levels and its value. *)
Definition info (h : heap) (x : nat) : option (nat * sv) := (λ n, (length (next n), Value n)) <$> h !! x.
Definition same_info (h h' : heap) : Prop := ∀ y, info h' y = info h y.
Definition same_prev (h h' : heap) : Prop := ∀ y, prev_of h' y = prev_of h y.

Lemma get_next_link h x i p : link h x i = Some p → get_next h x i = Ret p.
Proof using Type.
  unfold link, get_next, deref. destruct (h !! x) as [n|]; [|done]. simpl. by intros ->.
Qed.
Lemma deref_info h x k v : info h x = Some (k, v) → ∃ n, deref h x = Ret n ∧ length (next n) = k ∧ Value n = v.
Proof using Type. unfold info, deref. destruct (h !! x) as [n|]; [|done]. intros [= <- <-]. eauto. Qed.
Lemma link_info h x i p : link h x i = Some p → ∃ k v, info h x = Some (k, v) ∧ (i < k)%nat.
Proof using Type.
  unfold link, info. destruct (h !! x) as [n|]; [|done]. simpl. intros H%lookup_lt_Some. eauto.
Qed.
Lemma info_link h x k v i : info h x = Some (k, v) → (i < k)%nat → is_Some (link h x i).
Proof using Type.
  unfold link, info. destruct (h !! x) as [n|]; [|done]. intros [= <- <-] Hi. simpl. by apply lookup_lt_is_Some_2.
Qed.

Lemma set_next_spec h x i q p : link h x i = Some q → ∃ h', set_next h x i p = Ret h' ∧
  (∀ y j, link h' y j = if decide (y = x ∧ j = i) then Some p else link h y j) ∧ same_info h h' ∧ same_prev h h'.
Proof using Type.
  unfold link, set_next, deref. destruct (h !! x) as [n|] eqn:E; [|done]. simpl. intros Hq. rewrite Hq. eexists. split; [done|].
  pose proof (lookup_lt_Some _ _ _ Hq). split_and!.
  - intros y j. destruct (decide (y = x)) as [->|Hy].
    + rewrite lookup_insert_eq, E. simpl. case_decide as H1.
      * destruct H1 as [_ ->]. by apply list_lookup_insert_eq.
      * rewrite list_lookup_insert_ne; [done|]. intros ->. tauto.
    + rewrite lookup_insert_ne by done. by rewrite decide_False by tauto.
  - intros y. unfold info. destruct (decide (y = x)) as [->|Hy]; [|by rewrite lookup_insert_ne].
    rewrite lookup_insert_eq, E. simpl. by rewrite length_insert.
  - intros y. unfold prev_of. destruct (decide (y = x)) as [->|Hy]; [|by rewrite lookup_insert_ne]. by rewrite lookup_insert_eq, E.
Qed.

Lemma set_prev_spec h x p i : info h x = Some i → ∃ h', set_prev h x p = Ret h' ∧
  (∀ y j, link h' y j = link h y j) ∧ same_info h h' ∧ (∀ y, prev_of h' y = if decide (y = x) then Some p else prev_of h y).
Proof using Type.
  unfold info, set_prev, deref, link, prev_of, same_info. destruct (h !! x) as [n|] eqn:E; [|done]. intros _. eexists. split; [done|].
  split_and!.
  - intros y j. destruct (decide (y = x)) as [->|Hy]; [by rewrite lookup_insert_eq, E|by rewrite lookup_insert_ne].
  - intros y. unfold info. destruct (decide (y = x)) as [->|Hy]; [by rewrite lookup_insert_eq, E|by rewrite lookup_insert_ne].
  - intros y. case_decide as Hy; [subst; by rewrite lookup_insert_eq|by rewrite lookup_insert_ne].
Qed.

(** ** Segments: the nodes [ys] follow [x] on level [i], up to the end *)

Fixpoint seg (h : heap) (i x : nat) (ys : list nat) : Prop :=
  match ys with
  | [] => link h x i = Some None
  | y :: ys => link h x i = Some (Some y) ∧ seg h i y ys
  end.
Definition last_of (x : nat) (ys : list nat) : nat := default x (list.last ys).
Lemma last_of_cons x y ys : last_of x (y :: ys) = last_of y ys.
Proof using Type. unfold last_of. destruct ys as [|z ys] using rev_ind; [done|]. by rewrite app_comm_cons, !last_snoc. Qed.
Lemma last_of_app x ys zs : last_of x (ys ++ zs) = last_of (last_of x ys) zs.
Proof using Type. revert x. induction ys as [|y ys IH]; intros x; [done|]. by rewrite <-app_comm_cons, !last_of_cons. Qed.
Lemma last_of_elem x ys : last_of x ys ∈ x :: ys.
Proof using Type.
  revert x. induction ys as [|y ys IH]; intros x; [left|]. rewrite last_of_cons. right. apply IH.
Qed.

Lemma seg_app h i x ys zs : seg h i x (ys ++ zs) → seg h i (last_of x ys) zs.
Proof using Type. revert x. induction ys as [|y ys IH]; intros x; simpl; [done|]. intros [_ H]. rewrite last_of_cons. by apply IH. Qed.
Lemma seg_head h i x ys : seg h i x ys → link h x i = Some (head ys).
Proof using Type. by destruct ys; [|intros []]. Qed.
Lemma seg_frame h h' i x ys : (∀ y, y ∈ x :: ys → link h' y i = link h y i) → seg h i x ys → seg h' i x ys.
Proof using Type.
  revert x. induction ys as [|y ys IH]; intros x H; simpl; [rewrite H by left; done|]. intros [H1 H2].
  split; [by rewrite H by left|]. apply IH; [|done]. intros z Hz. apply H. by right.
Qed.

(** Putting a node in and taking one out, at the end of [A]. *)
Lemma seg_insert h h' i x A B n :
  NoDup (x :: A ++ B) → n ∉ x :: A ++ B → seg h i x (A ++ B) →
  (∀ y, y ≠ last_of x A → y ≠ n → link h' y i = link h y i) →
  link h' (last_of x A) i = Some (Some n) → link h' n i = link h (last_of x A) i → seg h' i x (A ++ n :: B).
Proof using Type.
  revert x. induction A as [|y A IH]; intros x Hnd Hn Hs Hf H1 H2; cbn [app] in *.
  - unfold last_of in *. simpl in *. split; [done|].
    assert (∀ y, y ∈ B → link h' y i = link h y i) as HB.
    { intros y Hy. apply list.NoDup_cons in Hnd as [Hx _]. apply not_elem_of_cons in Hn as [_ Hn]. apply Hf; intros ->; done. }
    destruct B as [|z B]; cbn [seg] in *; [by rewrite H2|]. destruct Hs as [Hl Hs]. split; [by rewrite H2|].
    eapply seg_frame; [|exact Hs]. exact HB.
  - destruct Hs as [Hl Hs]. rewrite last_of_cons in *. apply list.NoDup_cons in Hnd as [Hx Hnd]. apply not_elem_of_cons in Hn as [Hnx Hn].
    split; [|by apply IH]. rewrite Hf; [done| |done]. intros E. apply Hx. rewrite E.
    pose proof (last_of_elem y A) as [He|He]%elem_of_cons; [rewrite He; left|right; apply elem_of_app; by left].
Qed.

Lemma seg_delete h h' i x A B d :
  NoDup (x :: A ++ d :: B) → seg h i x (A ++ d :: B) →
  (∀ y, y ≠ last_of x A → link h' y i = link h y i) → link h' (last_of x A) i = link h d i → seg h' i x (A ++ B).
Proof using Type.
  revert x. induction A as [|y A IH]; intros x Hnd Hs Hf H1; cbn [app] in *.
  - unfold last_of in *. simpl in *. destruct Hs as [Hl Hs]. apply list.NoDup_cons in Hnd as [Hx _].
    assert (∀ y, y ∈ B → link h' y i = link h y i) as HB by (intros y Hy; apply Hf; intros ->; apply Hx; by right).
    destruct B as [|z B]; cbn [seg] in *; [by rewrite H1|]. destruct Hs as [Hl' Hs]. split; [by rewrite H1|].
    eapply seg_frame; [|exact Hs]. exact HB.
  - destruct Hs as [Hl Hs]. rewrite last_of_cons in *. apply list.NoDup_cons in Hnd as [Hx Hnd]. split; [|by apply IH].
    rewrite Hf; [done|]. intros E. apply Hx. rewrite E.
    pose proof (last_of_elem y A) as [He|He]%elem_of_cons; [rewrite He; left|right; apply elem_of_app; by left].
Qed.

(** ** Searching a level *)

Lemma advance_spec before h i fuel x A B :
  seg h i x (A ++ B) → (length A < fuel)%nat →
  (∀ y, y ∈ A → ∃ k v, info h y = Some (k, v) ∧ before v = true) →
  (∀ y, head B = Some y → ∃ k v, info h y = Some (k, v) ∧ before v = false) →
  advance fuel before h i x = Ret (last_of x A, Z.of_nat (length A)).
Proof using Type.
  revert x fuel. induction A as [|y A IH]; intros x [|fuel] Hs Hf HA HB; simpl in *; try lia.
  - rewrite (get_next_link _ _ _ _ (seg_head _ _ _ _ Hs)). simpl. destruct (head B) as [y|]; [|done].
    destruct (HB y eq_refl) as (k & v & Hi & Hv). destruct (deref_info _ _ _ _ Hi) as (n & -> & _ & En). simpl. by rewrite En, Hv.
  - destruct Hs as [Hl Hs]. rewrite (get_next_link _ _ _ _ Hl). simpl.
    destruct (HA y ltac:(left)) as (k & v & Hi & Hv). destruct (deref_info _ _ _ _ Hi) as (n & -> & _ & En). simpl. rewrite En, Hv.
    rewrite (IH y fuel Hs) by (try done; try lia; intros z Hz; apply HA; by right). simpl. rewrite last_of_cons. f_equal. f_equal. lia.
Qed.

(** ** The nodes of a list: pointer, number of levels, value *)

Record cell := mkCell { c_id : nat; c_h : nat; c_v : sv }.
Definition chain (i : nat) (L : list cell) : list nat := c_id <$> filter (λ c, (i < c_h c)%nat) L.
Definition values (L : list cell) : list sv := c_v <$> L.

Lemma chain_app i A B : chain i (A ++ B) = chain i A ++ chain i B.
Proof using Type. unfold chain. by rewrite list.filter_app, fmap_app. Qed.
Lemma chain_elem i L x : x ∈ chain i L ↔ ∃ c, c ∈ L ∧ c_id c = x ∧ (i < c_h c)%nat.
Proof using Type. unfold chain. rewrite list_elem_of_fmap. setoid_rewrite list_elem_of_filter. naive_solver. Qed.
Lemma chain_mono i j L x : (j ≤ i)%nat → x ∈ chain i L → x ∈ chain j L.
Proof using Type. rewrite !chain_elem. intros Hj (c & H1 & H2 & H3). exists c. split_and!; [done|done|lia]. Qed.
Lemma chain_sub i L : chain i L `sublist_of` (c_id <$> L).
Proof using Type.
  unfold chain. induction L as [|c L IH]; [done|]. rewrite filter_cons. cbn [fmap list_fmap].
  case_decide; cbn [fmap list_fmap]; by constructor.
Qed.
Lemma chain_NoDup i L : NoDup (0%nat :: (c_id <$> L)) → NoDup (0%nat :: chain i L).
Proof using Type. intros H. eapply sublist_NoDup; [exact H|]. apply sublist_skip, chain_sub. Qed.
Lemma chain_0 L : Forall (λ c, (1 ≤ c_h c)%nat) L → chain 0 L = c_id <$> L.
Proof using Type. unfold chain. intros H. f_equal. induction H; [done|]. rewrite filter_cons, decide_True by lia. by f_equal. Qed.

Lemma length_heap (h : heap) l : NoDup l → (∀ x, x ∈ l → is_Some (h !! x)) → (length l ≤ size h)%nat.
Proof using Type.
  intros Hnd Hl. rewrite <-size_dom, <-(size_list_to_set (C := gset nat) l Hnd). apply subseteq_size.
  intros x Hx%elem_of_list_to_set. apply elem_of_dom. by apply Hl.
Qed.

(** The links of the levels below [n] are those of the list. *)
Record linked (h : heap) (n : nat) (L : list cell) : Prop := {
  ln_cells : ∀ c, c ∈ L → info h (c_id c) = Some (c_h c, c_v c);
  ln_ids : NoDup (0%nat :: (c_id <$> L));
  ln_seg : ∀ i, (i < n)%nat → seg h i 0 (chain i L)
}.

(** The point where a search for [before] leaves level [i]. *)
Definition stop (i : nat) (A : list cell) : nat := last_of 0 (chain i A).
Definition splits (before : sv → bool) (A B : list cell) : Prop :=
  (∀ c, c ∈ A → before (c_v c) = true) ∧ (∀ c, c ∈ B → before (c_v c) = false).

Lemma advance_level before h n A B i x :
  linked h n (A ++ B) → splits before A B → (i < n)%nat → x ∈ 0%nat :: chain i A →
  ∃ k, advance (S (size h)) before h i x = Ret (stop i A, k).
Proof using Type.
  intros [Hc Hid Hs] [HA HB] Hi Hx. assert (∃ a1 a2, chain i A = a1 ++ a2 ∧ last_of 0 a1 = x) as (a1 & a2 & Ea & El).
  { apply elem_of_cons in Hx as [->|Hx]; [by exists [], (chain i A)|]. apply list_elem_of_split in Hx as (b1 & b2 & E).
    exists (b1 ++ [x]), b2. split; [by rewrite <-app_assoc|]. unfold last_of. by rewrite last_snoc. }
  specialize (Hs i Hi). rewrite chain_app, Ea, <-app_assoc in Hs. apply seg_app in Hs. rewrite El in Hs.
  assert (∀ y, y ∈ a2 → ∃ c, c ∈ A ∧ c_id c = y) as Hin.
  { intros y Hy. assert (y ∈ chain i A) as (c & H1 & H2 & _)%chain_elem by (rewrite Ea; apply elem_of_app; by right). eauto. }
  eexists. rewrite (advance_spec before h i _ x a2 (chain i B) Hs).
  - unfold stop. rewrite Ea, last_of_app, El. reflexivity.
  - apply Nat.lt_succ_r, length_heap.
    + pose proof (chain_NoDup i _ Hid) as Hnd. rewrite chain_app, Ea, <-app_assoc in Hnd. apply list.NoDup_cons in Hnd as [_ Hnd].
      apply list.NoDup_app in Hnd as (_ & _ & Hnd). by apply list.NoDup_app in Hnd as (? & _).
    + intros y (c & Hy & <-)%Hin. specialize (Hc c ltac:(apply elem_of_app; by left)). unfold info in Hc. by destruct (h !! c_id c).
  - intros y (c & Hy & <-)%Hin. exists (c_h c), (c_v c). split; [apply Hc, elem_of_app; by left|by apply HA].
  - intros y Hy. assert (y ∈ chain i B) as (c & H1 & <- & _)%chain_elem by (destruct (chain i B); [done|simpl in Hy; simplify_eq; left]).
    exists (c_h c), (c_v c). split; [apply Hc, elem_of_app; by right|by apply HB].
Qed.

Lemma descend_spec before h n A B i x :
  linked h n (A ++ B) → splits before A B → (i ≤ n)%nat → (i = 0%nat ∨ x ∈ 0%nat :: chain (i - 1) A) →
  ∃ k, descend before h i x = Ret ((λ j, stop j A) <$> seq 0 i, if decide (i = 0%nat) then x else stop 0 A, k).
Proof using Type.
  intros Hl Hsp. revert x. induction i as [|i IH]; intros x Hi Hx; [by exists 0|].
  destruct Hx as [?|Hx]; [lia|]. replace (S i - 1)%nat with i in Hx by lia.
  destruct (advance_level before h n A B i x Hl Hsp ltac:(lia) Hx) as (k & Ek).
  destruct (IH (stop i A)) as (k' & Ek'); [lia| |].
  { destruct i as [|i]; [by left|right]. replace (S i - 1)%nat with i by lia.
    unfold stop. pose proof (last_of_elem 0 (chain (S i) A)) as [->|H]%elem_of_cons; [left|right]. eapply chain_mono; [|exact H]. lia. }
  exists (k + k'). cbn [descend]. rewrite Ek. cbn [mbind outcome_bind]. rewrite Ek'. cbn [mbind outcome_bind].
  rewrite seq_S, fmap_app. rewrite (decide_False (P := S i = 0%nat)) by lia. do 2 f_equal. f_equal. case_decide; [by subst|done].
Qed.

(** ** Linking a node in and out *)

Definition level_of (i : nat) (us : list nat) (j : nat) : option nat := if decide (i ≤ j)%nat then us !! (j - i)%nat else None.

Lemma level_of_cons i u us j :
  level_of i (u :: us) j = if decide (j = i) then Some u else level_of (S i) us j.
Proof using Type.
  unfold level_of. case_decide as H1; case_decide as H2; try case_decide as H3; try lia; try done.
  - subst. by rewrite Nat.sub_diag.
  - by replace (j - i)%nat with (S (j - S i)) by lia.
Qed.
Lemma same_info_link h h' x i : same_info h h' → is_Some (link h x i) → is_Some (link h' x i).
Proof using Type. intros H [p Hp]. apply link_info in Hp as (k & v & Hi & Hk). rewrite <-H in Hi. by eapply info_link. Qed.

Lemma link_in_spec h x i us :
  (∀ k u, us !! k = Some u → is_Some (link h u (i + k)) ∧ is_Some (link h x (i + k)) ∧ u ≠ x) →
  ∃ h', link_in h x i us = Ret h' ∧ same_info h h' ∧ same_prev h h' ∧
    ∀ y j, link h' y j = match level_of i us j with
                         | Some u => if decide (y = x) then link h u j else if decide (y = u) then Some (Some x) else link h y j
                         | None => link h y j
                         end.
Proof using Type.
  revert h i. induction us as [|u us IH]; intros h i Hus; simpl.
  { exists h. split_and!; [done|done|done|]. intros y j. unfold level_of. by case_decide. }
  destruct (Hus 0%nat u eq_refl) as ([p Hp] & [q Hq] & Hux). rewrite Nat.add_0_r in Hp, Hq.
  rewrite (get_next_link _ _ _ _ Hp). simpl.
  destruct (set_next_spec h x i q p Hq) as (h1 & -> & L1 & I1 & P1). simpl.
  assert (link h1 u i = Some p) as Hp1 by (rewrite L1, decide_False by tauto; done).
  destruct (set_next_spec h1 u i p (Some x) Hp1) as (h2 & -> & L2 & I2 & P2). simpl.
  assert (same_info h h2) as I02 by (intros y; by rewrite I2, I1).
  destruct (IH h2 (S i)) as (h' & E & I3 & P3 & L3).
  { intros k u' Hk. destruct (Hus (S k) u' Hk) as (H1 & H2 & H3). replace (i + S k)%nat with (S i + k)%nat in * by lia.
    split_and!; [by eapply same_info_link|by eapply same_info_link|done]. }
  exists h'. split_and!; [done|intros y; by rewrite I3|intros y; by rewrite P3, P2, P1|].
  intros y j. rewrite L3, level_of_cons. destruct (decide (j = i)) as [->|Hj].
  - assert (level_of (S i) us i = None) as -> by (unfold level_of; by rewrite decide_False by lia).
    rewrite L2, L1. destruct (decide (y = x)) as [->|Hyx]; [rewrite decide_False by (intros [? _]; congruence); by rewrite decide_True|].
    destruct (decide (y = u)) as [->|Hyu]; [by rewrite decide_True|by rewrite !decide_False by tauto].
  - assert (∀ z, link h2 z j = link h z j) as Hz by (intros z; rewrite L2, L1, !decide_False by tauto; done).
    destruct (level_of (S i) us j); by rewrite !Hz.
Qed.

Lemma link_out_spec h x i us :
  (∀ k u, us !! k = Some u → is_Some (link h u (i + k)) ∧ u ≠ x ∧ (link h u (i + k) = Some (Some x) → is_Some (link h x (i + k)))) →
  ∃ h', link_out h x i us = Ret h' ∧ same_info h h' ∧ same_prev h h' ∧
    ∀ y j, link h' y j = match level_of i us j with
                         | Some u => if decide (y = u ∧ link h u j = Some (Some x)) then link h x j else link h y j
                         | None => link h y j
                         end.
Proof using Type.
  revert h i. induction us as [|u us IH]; intros h i Hus; simpl.
  { exists h. split_and!; [done|done|done|]. intros y j. unfold level_of. by case_decide. }
  destruct (Hus 0%nat u eq_refl) as ([p Hp] & Hux & Hx). rewrite Nat.add_0_r in Hp, Hx. rewrite (get_next_link _ _ _ _ Hp). simpl.
  assert (∃ h1, (if decide (p = Some x) then q ← get_next h x i; set_next h u i q else Ret h) = Ret h1 ∧ same_info h h1 ∧ same_prev h h1 ∧
    ∀ y j, link h1 y j = if decide (j = i ∧ y = u ∧ link h u j = Some (Some x)) then link h x j else link h y j) as (h1 & -> & I1 & P1 & L1).
  { case_decide as Hpx.
    - subst p. destruct (Hx Hp) as [q Hq]. rewrite (get_next_link _ _ _ _ Hq). simpl.
      destruct (set_next_spec h u i (Some x) q Hp) as (h1 & -> & L1 & I1 & P1). exists h1. split_and!; [done|done|done|].
      intros y j. rewrite L1. case_decide as H1; case_decide as H2; try done.
      + destruct H1 as [-> ->]. by rewrite Hq.
      + destruct H1 as [-> ->]. destruct H2. tauto.
      + destruct H1. tauto.
    - exists h. split_and!; [done|done|done|]. intros y j. rewrite decide_False; [done|]. intros (-> & -> & H). rewrite Hp in H. congruence. }
  simpl. assert (∀ z j, j ≠ i → link h1 z j = link h z j) as Hz by (intros z j Hj; rewrite L1, decide_False by tauto; done).
  destruct (IH h1 (S i)) as (h' & E & I3 & P3 & L3).
  { intros k u' Hk. destruct (Hus (S k) u' Hk) as (H1 & H2 & H3). replace (i + S k)%nat with (S i + k)%nat in * by lia.
    rewrite !Hz by lia. tauto. }
  exists h'. split_and!; [done|intros y; by rewrite I3|intros y; by rewrite P3, P1|].
  intros y j. rewrite L3, level_of_cons. destruct (decide (j = i)) as [->|Hj].
  - assert (level_of (S i) us i = None) as -> by (unfold level_of; by rewrite decide_False by lia). rewrite L1.
    apply decide_ext. tauto.
  - destruct (level_of (S i) us j); by rewrite !Hz.
Qed.

Lemma lower_spec h n :
  (1 ≤ n)%nat → (∀ j, (j < n)%nat → is_Some (link h 0 j)) →
  ∃ l, lower h n = Ret l ∧ (1 ≤ l ≤ n)%nat ∧ (l = 1%nat ∨ link h 0 (l - 1) ≠ Some None) ∧
    ∀ j, (l ≤ j < n)%nat → link h 0 j = Some None.
Proof using Type.
  induction n as [|n IH]; intros Hn Hh; [lia|]. cbn [lower]. destruct (Nat.leb_spec (S n) 1) as [H1|H1].
  { exists (S n). split_and!; [done|lia|lia|left; lia|lia]. }
  destruct (Hh n ltac:(lia)) as [p Hp]. unfold header. rewrite (get_next_link _ _ _ _ Hp). simpl. destruct p as [y|].
  - exists (S n). split_and!; [done|lia|lia| |lia]. right. replace (S n - 1)%nat with n by lia. by rewrite Hp.
  - destruct (IH ltac:(lia) ltac:(intros; apply Hh; lia)) as (l & -> & H2 & H3 & H4). exists l. split_and!; [done|lia|lia|done|].
    intros j Hj. destruct (decide (j = n)) as [->|]; [done|]. apply H4. lia.
Qed.

(** ** Backward links *)

Definition end_of (p : option nat) (A : list cell) : option nat := match list.last A with Some c => Some (c_id c) | None => p end.
Fixpoint prevs (h : heap) (p : option nat) (L : list cell) : Prop :=
  match L with
  | [] => True
  | c :: L => prev_of h (c_id c) = Some p ∧ prevs h (Some (c_id c)) L
  end.
Lemma end_of_cons p c A : end_of p (c :: A) = end_of (Some (c_id c)) A.
Proof using Type. unfold end_of. destruct A as [|d A] using rev_ind; [done|]. by rewrite app_comm_cons, !last_snoc. Qed.
Lemma prevs_app h p A B : prevs h p (A ++ B) ↔ prevs h p A ∧ prevs h (end_of p A) B.
Proof using Type.
  revert p. induction A as [|c A IH]; intros p; simpl; [by unfold end_of; simpl; tauto|]. rewrite IH, end_of_cons. tauto.
Qed.
Lemma prevs_frame h h' p L : (∀ c, c ∈ L → prev_of h' (c_id c) = prev_of h (c_id c)) → prevs h p L → prevs h' p L.
Proof using Type.
  revert p. induction L as [|c L IH]; intros p H; simpl; [done|]. intros [H1 H2]. split; [by rewrite H by left|].
  apply IH; [|done]. intros d Hd. apply H. by right.
Qed.
Lemma last_of_end A : c_id <$> list.last A = end_of None A.
Proof using Type. unfold end_of. by destruct (list.last A). Qed.

(** ** The invariant *)

Record inv (sl : SkipList V) (L : list cell) : Prop := {
  i_linked : linked (nodes sl) maxLevel L;
  i_head : ∃ v, info (nodes sl) 0 = Some (maxLevel, v);
  i_heights : ∀ c, c ∈ L → (1 ≤ c_h c ≤ level sl)%nat;
  i_level : (1 ≤ level sl ≤ maxLevel)%nat;
  i_alloc : ∀ x, is_Some (info (nodes sl) x) → (x < alloc sl)%nat;
  i_sorted : StronglySorted (λ a b, Score b <= Score a) (values L);
  i_count : count sl = Z.of_nat (length L);
  i_tail : tail sl = end_of None L;
  i_prev : prevs (nodes sl) None L
}.

Lemma inv_new min : inv (NewSkipList min) [].
Proof using Type.
  split; [split| | | | | | | |]; try done.
  - by intros c ?%elem_of_nil.
  - apply list.NoDup_singleton.
  - intros i Hi. simpl. unfold link. simpl. rewrite lookup_singleton_eq. cbn [mbind option_bind]. unfold newskipListNode. cbn [next].
    by apply lookup_replicate_2.
  - exists min. unfold info. simpl. by rewrite lookup_singleton_eq.
  - by intros c ?%elem_of_nil.
  - unfold maxLevel. simpl. lia.
  - intros x [[k v] H]. unfold info in H. simpl in *. destruct (decide (x = header)) as [->|Hx]; [unfold header; lia|].
    by rewrite lookup_singleton_ne in H.
  - constructor.
Qed.

(** A threshold on scores splits the list. *)
Lemma sorted_split (before : sv → bool) L :
  StronglySorted (λ a b, Score b <= Score a) (values L) →
  (∀ a b, before a = false → Score b <= Score a → before b = false) →
  ∃ A B, L = A ++ B ∧ splits before A B.
Proof using Type.
  intros Hs Hm. induction L as [|c L IH].
  { exists [], []. split; [done|]. split; by intros c ?%elem_of_nil. }
  inversion Hs as [|? ? Hs' HF]; subst. destruct (IH Hs') as (A & B & -> & HA & HB). destruct (before (c_v c)) eqn:E.
  - exists (c :: A), B. split; [done|]. split; [|done]. intros d [->|Hd]%elem_of_cons; [done|by apply HA].
  - exists [], (c :: A ++ B). split; [done|]. split; [by intros d ?%elem_of_nil|]. intros d [->|Hd]%elem_of_cons; [done|].
    eapply Hm; [exact E|]. rewrite list.Forall_forall in HF. apply HF. apply list_elem_of_fmap. by exists d.
Qed.

Lemma stop_lt i A B sl : inv sl (A ++ B) → (stop i A < alloc sl)%nat ∧ ((i < maxLevel)%nat → is_Some (link (nodes sl) (stop i A) i)).
Proof using Type.
  intros HI. destruct (i_head _ _ HI) as [v Hv]. unfold stop. pose proof (last_of_elem 0 (chain i A)) as [->|H]%elem_of_cons.
  - split; [apply (i_alloc _ _ HI); eauto|]. intros Hi. by eapply info_link.
  - apply chain_elem in H as (c & Hc & <- & Hi). pose proof (ln_cells _ _ _ (i_linked _ _ HI) c ltac:(apply elem_of_app; by left)) as Hl.
    split; [apply (i_alloc _ _ HI); eauto|]. intros _. by eapply info_link.
Qed.

(** What a search for [before] finds. *)
Lemma search sl before L : inv sl L →
  (∀ a b, before a = false → Score b <= Score a → before b = false) →
  ∃ A B k, L = A ++ B ∧ splits before A B ∧
    descend before (nodes sl) (level sl) header = Ret ((λ j, stop j A) <$> seq 0 (level sl), stop 0 A, k) ∧
    link (nodes sl) (stop 0 A) 0 = Some (c_id <$> head B).
Proof using Type.
  intros HI Hm. destruct (sorted_split before L (i_sorted _ _ HI) Hm) as (A & B & -> & Hsp).
  pose proof (i_level _ _ HI) as Hlv.
  destruct (descend_spec before (nodes sl) maxLevel A B (level sl) header (i_linked _ _ HI) Hsp ltac:(lia) ltac:(right; left)) as (k & Ek).
  exists A, B, k. split; [done|]. split; [done|]. split; [rewrite Ek; by rewrite decide_False by lia|].
  pose proof (ln_seg _ _ _ (i_linked _ _ HI) 0%nat ltac:(unfold maxLevel; lia)) as Hs. rewrite chain_app in Hs. apply seg_app, seg_head in Hs.
  unfold stop. rewrite Hs. f_equal. rewrite (chain_0 B).
  - by destruct B.
  - apply list.Forall_forall. intros c Hc. apply (i_heights _ _ HI), elem_of_app. by right.
Qed.

(** ** Comparing scores *)

Lemma Compare_le (v w : sv) : (Compare v w <=? 0) = (Score w <=? Score v).
Proof using Type. unfold Compare. destruct (Z.ltb_spec (Score w) (Score v)), (Z.eqb_spec (Score v) (Score w)), (Z.leb_spec (Score w) (Score v)); done || lia. Qed.
Lemma Compare_lt (v w : sv) : (Compare v w <? 0) = (Score w <? Score v).
Proof using Type. unfold Compare. destruct (Z.ltb_spec (Score w) (Score v)), (Z.eqb_spec (Score v) (Score w)); done || lia. Qed.
Lemma Compare_eq (v w : sv) : (Compare v w =? 0) = (Score v =? Score w).
Proof using Type. unfold Compare. destruct (Z.ltb_spec (Score w) (Score v)), (Z.eqb_spec (Score v) (Score w)); done || lia. Qed.

(** ** Insertion *)

Lemma update_list sl A B n : inv sl (A ++ B) →
  ((λ j, stop j A) <$> seq 0 (level sl)) ++ replicate (n - level sl) header = (λ j, stop j A) <$> seq 0 (Nat.max (level sl) n).
Proof using Type.
  intros HI. replace (Nat.max (level sl) n) with (level sl + (n - level sl))%nat by lia. rewrite seq_app, fmap_app. f_equal.
  assert (∀ k s, (level sl ≤ s)%nat → replicate k header = (λ j, stop j A) <$> seq s k) as H; [|apply H; lia].
  induction k as [|k IH]; intros s Hs; [done|]. cbn [replicate seq fmap list_fmap]. f_equal; [|apply IH; lia].
  unfold stop. assert (chain s A = []) as ->; [|done]. destruct (chain s A) as [|x l] eqn:E; [done|].
  assert (x ∈ chain s A) as (c & Hc & _ & Hh)%chain_elem by (rewrite E; left).
  pose proof (i_heights _ _ HI c ltac:(apply elem_of_app; by left)). lia.
Qed.

Lemma update_take A n k : (n ≤ k)%nat → take n ((λ j, stop j A) <$> seq 0 k) = (λ j, stop j A) <$> seq 0 n.
Proof using Type. intros H. rewrite <-fmap_take. f_equal. rewrite take_seq. by replace (n `min` k)%nat with n by lia. Qed.
Lemma update_level A n j : level_of 0 ((λ j, stop j A) <$> seq 0 n) j = if decide (j < n)%nat then Some (stop j A) else None.
Proof using Type.
  unfold level_of. rewrite decide_True by lia. rewrite Nat.sub_0_r, list_lookup_fmap. case_decide.
  - by rewrite lookup_seq_lt.
  - by rewrite lookup_seq_ge by lia.
Qed.

Lemma info_insert (h : heap) x n y : info (<[x := n]> h) y = if decide (y = x) then Some (length (next n), Value n) else info h y.
Proof using Type. unfold info. case_decide; [subst; by rewrite lookup_insert_eq|by rewrite lookup_insert_ne]. Qed.
Lemma link_insert (h : heap) x n y j : y ≠ x → link (<[x := n]> h) y j = link h y j.
Proof using Type. intros H. unfold link. by rewrite lookup_insert_ne. Qed.

(** The node before the place of a search on the lowest level. *)
Lemma stop_0 sl A B : inv sl (A ++ B) →
  stop 0 A = default 0%nat (end_of None A) ∧ (stop 0 A = 0%nat → end_of None A = None).
Proof using Type.
  intros HI. unfold stop. rewrite chain_0.
  2: { apply list.Forall_forall. intros c Hc. apply (i_heights _ _ HI), elem_of_app. by left. }
  unfold last_of. rewrite fmap_last. rewrite last_of_end. split; [done|]. unfold end_of.
  destruct (list.last A) as [c|] eqn:E; [|done]. simpl. intros Hc. exfalso.
  pose proof (ln_ids _ _ _ (i_linked _ _ HI)) as [Hn _]%list.NoDup_cons. apply Hn. rewrite <-Hc. apply list_elem_of_fmap_2, elem_of_app.
  left. by apply last_Some_elem_of in E.
Qed.

Lemma end_of_new A B c : end_of None (A ++ c :: B) = match head B with Some _ => end_of None (A ++ B) | None => Some (c_id c) end.
Proof using Type.
  unfold end_of. rewrite !last_app. destruct B as [|d B]; [done|]. cbn [head].
  replace (list.last (c :: d :: B)) with (list.last (d :: B)) by done. by destruct (list.last (d :: B)) eqn:E; [|apply last_None in E].
Qed.

Section Insert.
Context (sl : SkipList V) (A B : list cell) (value : sv) (lvl : nat).
Let x := alloc sl.
Let new := mkCell x lvl value.
Let h0 := <[x := newskipListNode lvl value]> (nodes sl).
Context (HI : inv sl (A ++ B)) (Hl : (1 ≤ lvl ≤ maxLevel)%nat).

Lemma fresh_id c : c ∈ A ++ B → c_id c ≠ x.
Proof using HI Hl.
  intros Hc E. pose proof (ln_cells _ _ _ (i_linked _ _ HI) c Hc) as H. rewrite E in H.
  pose proof (i_alloc _ _ HI x ltac:(eauto)). unfold x in *. lia.
Qed.
Lemma fresh_pos : (0 < x)%nat.
Proof using HI Hl. destruct (i_head _ _ HI) as [v Hv]. apply (i_alloc _ _ HI). eauto. Qed.
Lemma new_link j : (j < lvl)%nat → link h0 x j = Some None.
Proof using Type. intros Hj. unfold link, h0. rewrite lookup_insert_eq. simpl. by apply lookup_replicate_2. Qed.

Lemma insert_ids : NoDup (0%nat :: (c_id <$> A ++ new :: B)).
Proof using HI Hl.
  pose proof (ln_ids _ _ _ (i_linked _ _ HI)) as Hnd. rewrite fmap_app in *. cbn [fmap list_fmap] in *.
  assert (0%nat :: (c_id <$> A) ++ c_id new :: (c_id <$> B) ≡ₚ c_id new :: 0%nat :: (c_id <$> A) ++ (c_id <$> B)) as ->
    by (rewrite <-Permutation_middle; apply perm_swap).
  apply list.NoDup_cons. split; [|done]. cbn [c_id new]. pose proof fresh_pos. intros [E|Hin]%elem_of_cons; [lia|].
  rewrite <-fmap_app in Hin. apply list_elem_of_fmap in Hin as (c & E & Hc). by apply fresh_id in Hc.
Qed.

Lemma chain_new i : chain i (A ++ new :: B) = if decide (i < lvl)%nat then chain i A ++ x :: chain i B else chain i (A ++ B).
Proof using Type.
  rewrite !chain_app. unfold chain at 2. rewrite filter_cons. cbn [c_h new]. by case_decide.
Qed.

Lemma linked_insert h' :
  same_info h0 h' →
  (∀ y j, link h' y j = if decide (j < lvl)%nat
     then (if decide (y = x) then link h0 (stop j A) j else if decide (y = stop j A) then Some (Some x) else link h0 y j)
     else link h0 y j) →
  linked h' maxLevel (A ++ new :: B).
Proof using HI Hl.
  intros Hi Hk. destruct (i_linked _ _ HI) as [Hc Hid Hs]. split; [|apply insert_ids|].
  - intros c Hin. rewrite Hi. unfold h0. rewrite info_insert. apply elem_of_app in Hin as [Hin|[->|Hin]%elem_of_cons].
    + rewrite decide_False by (apply fresh_id, elem_of_app; by left). apply Hc, elem_of_app. by left.
    + cbn [c_id new]. rewrite decide_True by done. simpl. by rewrite length_replicate.
    + rewrite decide_False by (apply fresh_id, elem_of_app; by right). apply Hc, elem_of_app. by right.
  - intros i Hlt. specialize (Hs i Hlt). assert (x ∉ 0%nat :: chain i (A ++ B)) as Hx.
    { pose proof fresh_pos. intros [E|(c & H1 & H2 & _)%chain_elem]%elem_of_cons; [lia|by apply fresh_id in H1]. }
    rewrite chain_new. case_decide as Hj.
    + rewrite chain_app in *. pose proof (chain_NoDup i _ Hid) as Hnd. rewrite chain_app in Hnd.
      eapply (seg_insert (nodes sl)); [exact Hnd|exact Hx|exact Hs| | |].
      * intros y Hy Hyx. rewrite Hk, decide_True, !decide_False by done. by apply link_insert.
      * rewrite Hk, decide_True by done. rewrite decide_False; [by rewrite decide_True|].
        intros E. apply Hx. rewrite <-E. pose proof (last_of_elem 0 (chain i A)) as [->|H]%elem_of_cons; [left|right; apply elem_of_app; by left].
      * rewrite Hk, decide_True, decide_True by done. apply link_insert.
        intros E. apply Hx. rewrite <-E. pose proof (last_of_elem 0 (chain i A)) as [H|H]%elem_of_cons; [unfold stop; rewrite H; left|right; apply elem_of_app; by left].
    + eapply seg_frame; [|exact Hs]. intros y Hy. rewrite Hk, decide_False by done. apply link_insert. by intros ->.
Qed.

(** The backward links after the insertion. *)
Lemma prevs_insert h' :
  (∀ y, prev_of h' y = if decide (Some y = c_id <$> head B) then Some (Some x)
                       else if decide (y = x) then Some (end_of None A) else prev_of (nodes sl) y) →
  prevs h' None (A ++ new :: B).
Proof using HI Hl.
  intros Hp. pose proof fresh_id as Hfresh. pose proof (i_prev _ _ HI) as [HA HB]%prevs_app. pose proof (ln_ids _ _ _ (i_linked _ _ HI)) as Hnd.
  apply list.NoDup_cons in Hnd as [_ Hnd]. rewrite fmap_app in Hnd. apply list.NoDup_app in Hnd as (_ & Hdis & HndB).
  apply prevs_app. split; [|cbn [prevs]; split].
  - eapply prevs_frame; [|exact HA]. intros c Hc. rewrite Hp, decide_False, decide_False; [done|apply Hfresh, elem_of_app; by left|].
    intros E. apply (Hdis (c_id c)); [by apply list_elem_of_fmap_2|]. destruct B as [|d B']; [done|]. injection E as ->. left.
  - rewrite Hp. rewrite decide_False; [by rewrite decide_True|]. cbn [c_id new].
    intros E. destruct B as [|d B']; [done|]. injection E as E. apply (Hfresh d); [apply elem_of_app; right; left|done].
  - destruct B as [|d B']; [done|]. cbn [prevs] in *. destruct HB as [_ HB]. split; [rewrite Hp; by rewrite decide_True|].
    cbn [fmap list_fmap] in HndB. apply list.NoDup_cons in HndB as [Hd HndB]. eapply prevs_frame; [|exact HB].
    intros c Hc. rewrite Hp, decide_False, decide_False; [done|apply Hfresh, elem_of_app; right; by right|].
    intros [= E]. apply Hd. rewrite <-E. by apply list_elem_of_fmap_2.
Qed.

(** The two backward links that are set. *)
Lemma insert_prev_self h1 : same_info h0 h1 → same_prev h0 h1 →
  ∃ h2, (if decide (stop 0 A = header) then Ret h1 else set_prev h1 x (Some (stop 0 A))) = Ret h2 ∧ same_info h0 h2 ∧
    (∀ y j, link h2 y j = link h1 y j) ∧ ∀ y, prev_of h2 y = if decide (y = x) then Some (end_of None A) else prev_of (nodes sl) y.
Proof using HI Hl.
  intros I1 P1. destruct (stop_0 sl A B HI) as [Es E0].
  assert (info h1 x = Some (lvl, value)) as Hix by (rewrite I1; unfold h0; rewrite info_insert, decide_True by done; simpl; by rewrite length_replicate).
  assert (∀ y, y ≠ x → prev_of h1 y = prev_of (nodes sl) y) as Hp by (intros y Hy; rewrite P1; unfold h0, prev_of; by rewrite lookup_insert_ne).
  case_decide as Hu.
  - exists h1. split_and!; [done|done|done|]. intros y. case_decide as Hy; [|by apply Hp]. subst y. rewrite P1, E0 by done.
    unfold h0, prev_of. by rewrite lookup_insert_eq.
  - destruct (set_prev_spec h1 x (Some (stop 0 A)) _ Hix) as (h2 & -> & L2 & I2 & P2). exists h2. split_and!; [done|intros y; by rewrite I2|done|].
    intros y. rewrite P2. case_decide as Hy; [|by apply Hp]. do 2 f_equal. rewrite Es. destruct (end_of None A); [done|].
    by rewrite Es in Hu.
Qed.

Lemma insert_prev_next h2 : same_info h0 h2 →
  (∀ y, prev_of h2 y = if decide (y = x) then Some (end_of None A) else prev_of (nodes sl) y) →
  ∃ h3 t, match c_id <$> head B with Some y => h ← set_prev h2 y (Some x); Ret (h, tail sl) | None => Ret (h2, Some x) end = Ret (h3, t) ∧
    t = end_of None (A ++ new :: B) ∧ same_info h0 h3 ∧ (∀ y j, link h3 y j = link h2 y j) ∧
    ∀ y, prev_of h3 y = if decide (Some y = c_id <$> head B) then Some (Some x) else if decide (y = x) then Some (end_of None A) else prev_of (nodes sl) y.
Proof using HI Hl.
  intros I2 P2. rewrite end_of_new. destruct (head B) as [d|] eqn:EB; cbn [fmap option_fmap option_map].
  - assert (d ∈ A ++ B) as Hd by (apply elem_of_app; right; by apply head_Some_elem_of).
    assert (info h2 (c_id d) = Some (c_h d, c_v d)) as Hid.
    { rewrite I2. unfold h0. rewrite info_insert, decide_False by (by apply fresh_id). by apply (ln_cells _ _ _ (i_linked _ _ HI)). }
    destruct (set_prev_spec h2 (c_id d) (Some x) _ Hid) as (h3 & -> & L3 & I3 & P3). exists h3, (tail sl).
    split_and!; [done|apply (i_tail _ _ HI)|intros y; by rewrite I3|done|].
    intros y. rewrite P3. case_decide as Hy; case_decide as Hy'; try congruence. by rewrite P2.
  - exists h2, (Some x). split_and!; [done|done|done|done|]. intros y. rewrite decide_False by done. apply P2.
Qed.

Lemma values_insert : splits (λ v, Compare v value <=? 0) A B → values (A ++ new :: B) = ref_insert value (values (A ++ B)).
Proof using Type.
  clear HI Hl h0. intros [HA HB]. unfold values. rewrite !fmap_app. cbn [fmap list_fmap c_v new].
  induction A as [|a A' IH]; cbn [fmap list_fmap app ref_insert].
  - destruct B as [|b B']; [done|]. cbn [fmap list_fmap ref_insert]. specialize (HB b ltac:(left)). rewrite Compare_le in HB. by rewrite HB.
  - pose proof (HA a ltac:(left)) as Ha. rewrite Compare_le in Ha. rewrite Ha. f_equal. apply IH. intros c Hc. apply HA. by right.
Qed.
End Insert.

Lemma ref_insert_elem (v : sv) l w : w ∈ ref_insert v l ↔ w = v ∨ w ∈ l.
Proof using Type.
  induction l as [|u l IH]; simpl; [rewrite list_elem_of_singleton, elem_of_nil; tauto|].
  destruct (Score v <=? Score u); rewrite !elem_of_cons, ?IH, ?elem_of_cons; tauto.
Qed.
Lemma ref_insert_sorted (v : sv) l : StronglySorted (λ a b, Score b <= Score a) l → StronglySorted (λ a b, Score b <= Score a) (ref_insert v l).
Proof using Type.
  induction 1 as [|u l Hs IH HF]; simpl; [by repeat constructor|]. rewrite list.Forall_forall in HF.
  destruct (Z.leb_spec (Score v) (Score u)).
  - constructor; [done|]. apply list.Forall_forall. intros w [->|Hw]%ref_insert_elem; [done|by apply HF].
  - constructor; [by constructor; [|apply list.Forall_forall]|]. apply list.Forall_forall. intros w [->|Hw]%elem_of_cons; [lia|].
    specialize (HF w Hw). lia.
Qed.

Lemma Insert_spec sl L value lvl : inv sl L → (1 ≤ lvl ≤ maxLevel)%nat →
  ∃ sl' L', Insert sl value lvl = Ret (1, sl') ∧ inv sl' L' ∧ values L' = ref_insert value (values L).
Proof using Type.
  intros HI Hl. destruct (search sl (λ v, Compare v value <=? 0) L HI) as (A & B & k & -> & Hsp & Ed & Hn).
  { intros a b. rewrite !Compare_le, !Z.leb_gt. lia. }
  set (x := alloc sl). set (new := mkCell x lvl value). set (h0 := <[x := newskipListNode lvl value]> (nodes sl)).
  unfold Insert. rewrite Ed. cbn [mbind outcome_bind]. rewrite (update_list sl A B lvl HI).
  rewrite (update_take A lvl) by lia. fold x h0.
  assert (∀ j, stop j A ≠ x) as Hsx by (intros j E; pose proof (proj1 (stop_lt j A B sl HI)); unfold x in *; lia).
  destruct (link_in_spec h0 x 0 ((λ j, stop j A) <$> seq 0 lvl)) as (h1 & -> & I1 & P1 & L1).
  { intros j u Hj. rewrite list_lookup_fmap in Hj. destruct (seq 0 lvl !! j) as [j'|] eqn:E; [|done]. apply lookup_seq in E as [-> Hlt].
    injection Hj as <-. cbn [Nat.add]. split_and!; [|exists None; by apply (new_link sl value lvl)|done].
    unfold h0. rewrite link_insert by done. apply (stop_lt j A B sl HI). lia. }
  cbn [mbind outcome_bind]. setoid_rewrite update_level in L1.
  assert (((λ j, stop j A) <$> seq 0 (Nat.max (level sl) lvl)) !! 0%nat = Some (stop 0 A)) as ->.
  { rewrite list_lookup_fmap, lookup_seq_lt by lia. done. }
  pose proof (insert_prev_self sl A B value lvl HI Hl h1 I1 P1) as Hself. fold x h0 in Hself. destruct Hself as (h2 & -> & I2 & L2 & P2).
  cbn [mbind outcome_bind]. rewrite (get_next_link h2 x 0 (c_id <$> head B)).
  2: { rewrite L2, L1, decide_True by lia. rewrite decide_True by done. unfold h0. by rewrite link_insert. }
  cbn [mbind outcome_bind].
  pose proof (insert_prev_next sl A B value lvl HI Hl h2 I2 P2) as Hnext. fold x new h0 in Hnext. destruct Hnext as (h3 & t & -> & Et & I3 & L3 & P3).
  cbn [mbind outcome_bind]. eexists _, (A ++ new :: B). split; [reflexivity|].
  assert (values (A ++ new :: B) = ref_insert value (values (A ++ B))) as Ev by (apply (values_insert sl A B value lvl Hsp)).
  split; [|exact Ev].
  assert (∀ y, y ≠ x → info h3 y = info (nodes sl) y) as Hinfo by (intros y Hy; rewrite I3; unfold h0; by rewrite info_insert, decide_False).
  split; cbn [nodes tail count level alloc].
  - apply (linked_insert sl A B value lvl HI Hl h3 I3). intros y j. rewrite L3, L2, L1. by case_decide.
  - destruct (i_head _ _ HI) as [v Hv]. exists v. rewrite Hinfo; [done|]. pose proof (fresh_pos sl A B lvl HI Hl). unfold x. lia.
  - intros c [Hc|[->|Hc]%elem_of_cons]%elem_of_app; [|cbn [c_h new]; lia|].
    + pose proof (i_heights _ _ HI c ltac:(apply elem_of_app; by left)). lia.
    + pose proof (i_heights _ _ HI c ltac:(apply elem_of_app; by right)). lia.
  - pose proof (i_level _ _ HI). lia.
  - intros y Hy. destruct (decide (y = x)) as [->|Hne]; [unfold x; lia|]. rewrite Hinfo in Hy by done. pose proof (i_alloc _ _ HI y Hy). lia.
  - rewrite Ev. apply ref_insert_sorted, (i_sorted _ _ HI).
  - rewrite (i_count _ _ HI), !length_app. cbn [length]. lia.
  - exact Et.
  - apply (prevs_insert sl A B value lvl HI Hl h3). exact P3.
Qed.

(** ** Deletion *)

Lemma prev_deref h x p : prev_of h x = Some p → ∃ n, deref h x = Ret n ∧ prev n = p.
Proof using Type. unfold prev_of, deref. destruct (h !! x) as [n|]; [|done]. intros [= <-]. eauto. Qed.

Section Delete.
Context (sl : SkipList V) (A B : list cell) (d : cell) (HI : inv sl (A ++ d :: B)).

Lemma delete_ids : NoDup (0%nat :: (c_id <$> A ++ B)) ∧ c_id d ∉ 0%nat :: (c_id <$> A ++ B).
Proof using HI.
  pose proof (ln_ids _ _ _ (i_linked _ _ HI)) as Hnd. rewrite fmap_app in *. cbn [fmap list_fmap] in Hnd.
  assert (0%nat :: (c_id <$> A) ++ c_id d :: (c_id <$> B) ≡ₚ c_id d :: 0%nat :: (c_id <$> A) ++ (c_id <$> B)) as Hp
    by (rewrite <-Permutation_middle; apply perm_swap).
  rewrite Hp in Hnd. apply list.NoDup_cons in Hnd as [H1 H2]. done.
Qed.
Lemma other_id c : c ∈ A ++ B → c_id c ≠ c_id d.
Proof using HI. intros Hc E. apply (proj2 delete_ids). rewrite <-E. right. by apply list_elem_of_fmap_2. Qed.
Lemma stop_ne j : stop j A ≠ c_id d.
Proof using HI.
  unfold stop. intros E. pose proof (last_of_elem 0 (chain j A)) as [H|(c & Hc & Ec & _)%chain_elem]%elem_of_cons.
  - apply (proj2 delete_ids). rewrite <-E, H. left.
  - apply (other_id c); [apply elem_of_app; by left|congruence].
Qed.
Lemma stop_link j : (j < maxLevel)%nat → link (nodes sl) (stop j A) j = Some (head (chain j (d :: B))).
Proof using HI.
  intros Hj. pose proof (ln_seg _ _ _ (i_linked _ _ HI) j Hj) as Hs. rewrite chain_app in Hs. by apply seg_app, seg_head in Hs.
Qed.
Lemma chain_d j : chain j (d :: B) = if decide (j < c_h d)%nat then c_id d :: chain j B else chain j B.
Proof using Type. unfold chain. rewrite filter_cons. by case_decide. Qed.
Lemma out_link j : (j < maxLevel)%nat → link (nodes sl) (stop j A) j = Some (Some (c_id d)) ↔ (j < c_h d)%nat.
Proof using HI.
  intros Hj. rewrite stop_link, chain_d by done. case_decide as Hh; [done|]. split; [|lia]. intros [= E]. exfalso.
  assert (c_id d ∈ chain j B) as (c & Hc & Ec & _)%chain_elem by (destruct (chain j B); [done|]; simpl in E; simplify_eq; left).
  apply (other_id c); [apply elem_of_app; by right|done].
Qed.

Lemma linked_delete h' :
  same_info (nodes sl) h' →
  (∀ y j, (j < maxLevel)%nat → link h' y j = if decide (y = stop j A ∧ (j < c_h d)%nat) then link (nodes sl) (c_id d) j else link (nodes sl) y j) →
  linked h' maxLevel (A ++ B).
Proof using HI.
  intros Hi Hk. destruct (i_linked _ _ HI) as [Hc Hid Hs]. split; [|apply delete_ids|].
  - intros c Hin. rewrite Hi. apply Hc. apply elem_of_app in Hin as [Hin|Hin]; apply elem_of_app; [by left|right; by right].
  - intros j Hj. specialize (Hs j Hj). rewrite chain_app, chain_d in Hs. rewrite chain_app. case_decide as Hh.
    + pose proof (chain_NoDup j _ Hid) as Hnd. rewrite chain_app, chain_d, decide_True in Hnd by done.
      eapply (seg_delete (nodes sl)); [exact Hnd|exact Hs| |].
      * intros y Hy. rewrite Hk, decide_False by (done || tauto). done.
      * rewrite Hk, decide_True by done. done.
    + eapply seg_frame; [|exact Hs]. intros y _. rewrite Hk, decide_False by (done || lia). done.
Qed.

Lemma prevs_delete h' :
  (∀ y, prev_of h' y = if decide (Some y = c_id <$> head B) then Some (end_of None A) else prev_of (nodes sl) y) →
  prevs h' None (A ++ B).
Proof using HI.
  intros Hp. pose proof (i_prev _ _ HI) as [HA [_ HB]]%prevs_app. pose proof (proj1 delete_ids) as Hnd.
  apply list.NoDup_cons in Hnd as [_ Hnd]. rewrite fmap_app in Hnd. apply list.NoDup_app in Hnd as (_ & Hdis & HndB).
  apply prevs_app. split.
  - eapply prevs_frame; [|exact HA]. intros c Hc. rewrite Hp, decide_False; [done|]. intros E.
    apply (Hdis (c_id c)); [by apply list_elem_of_fmap_2|]. destruct (head B) as [b|] eqn:Eb; [|done]. injection E as ->.
    apply list_elem_of_fmap_2. by apply head_Some_elem_of.
  - clear HI. destruct B as [|b B']; [done|]. cbn [prevs] in *. destruct HB as [_ HB]. split; [rewrite Hp; by rewrite decide_True|].
    cbn [fmap list_fmap] in HndB. apply list.NoDup_cons in HndB as [Hb _]. eapply prevs_frame; [|exact HB].
    intros c Hc. rewrite Hp, decide_False; [done|]. intros [= E]. apply Hb. rewrite <-E. by apply list_elem_of_fmap_2.
Qed.

Lemma unlink_spec : ∃ h', link_out (nodes sl) (c_id d) 0 ((λ j, stop j A) <$> seq 0 (level sl)) = Ret h' ∧
  same_info (nodes sl) h' ∧ same_prev (nodes sl) h' ∧
  ∀ y j, (j < maxLevel)%nat → link h' y j = if decide (y = stop j A ∧ (j < c_h d)%nat) then link (nodes sl) (c_id d) j else link (nodes sl) y j.
Proof using HI.
  pose proof (i_level _ _ HI) as Hlv. assert (d ∈ A ++ d :: B) as Hd by (apply elem_of_app; right; left).
  pose proof (i_heights _ _ HI d Hd) as Hh. pose proof (ln_cells _ _ _ (i_linked _ _ HI) d Hd) as Hi.
  destruct (link_out_spec (nodes sl) (c_id d) 0 ((λ j, stop j A) <$> seq 0 (level sl))) as (h' & E & I & P & L).
  { intros j u Hj. rewrite list_lookup_fmap in Hj. destruct (seq 0 (level sl) !! j) as [j'|] eqn:E; [|done]. apply lookup_seq in E as [-> Hlt].
    injection Hj as <-. cbn [Nat.add]. split_and!; [apply (stop_lt j A (d :: B) sl HI); lia|apply stop_ne|].
    intros Ho. eapply info_link; [exact Hi|]. apply out_link; [lia|done]. }
  exists h'. split_and!; [done|done|done|]. intros y j Hj. rewrite L, update_level. case_decide as Hjl.
  - apply decide_ext. rewrite out_link by done. done.
  - by rewrite decide_False by lia.
Qed.
(** The node after [d], whose backward link is set. *)
Lemma delete_next h1 :
  (∀ y j, (j < maxLevel)%nat → link h1 y j = if decide (y = stop j A ∧ (j < c_h d)%nat) then link (nodes sl) (c_id d) j else link (nodes sl) y j) →
  link h1 (c_id d) 0 = Some (c_id <$> head B).
Proof using HI.
  intros L1. assert (d ∈ A ++ d :: B) as Hd by (apply elem_of_app; right; left).
  rewrite L1 by (unfold maxLevel; lia). rewrite decide_False by (intros [E _]; by eapply stop_ne).
  pose proof (ln_seg _ _ _ (i_linked _ _ HI) 0%nat ltac:(unfold maxLevel; lia)) as Hsg. rewrite chain_app, chain_d in Hsg.
  rewrite decide_True in Hsg by (apply (i_heights _ _ HI) in Hd; lia). apply seg_app in Hsg as [_ Hsg]. apply seg_head in Hsg.
  rewrite Hsg. f_equal. rewrite chain_0; [by destruct B|]. apply list.Forall_forall. intros c Hc. apply (i_heights _ _ HI), elem_of_app. right. by right.
Qed.

Lemma delete_prev_next h1 : linked h1 maxLevel (A ++ B) → same_info (nodes sl) h1 → same_prev (nodes sl) h1 →
  ∃ h2 t, match c_id <$> head B with Some z => h ← set_prev h1 z (end_of None A); Ret (h, tail sl) | None => Ret (h1, end_of None A) end = Ret (h2, t) ∧
    t = end_of None (A ++ B) ∧ same_info (nodes sl) h2 ∧ (∀ y j, link h2 y j = link h1 y j) ∧
    ∀ y, prev_of h2 y = if decide (Some y = c_id <$> head B) then Some (end_of None A) else prev_of (nodes sl) y.
Proof using HI.
  intros Hln I1 P1. pose proof (end_of_new A B d) as He. pose proof (i_tail _ _ HI) as Ht. destruct (head B) as [b|] eqn:EB; cbn [fmap option_fmap option_map].
  - assert (b ∈ A ++ B) as Hb by (apply elem_of_app; right; by apply head_Some_elem_of).
    destruct (set_prev_spec h1 (c_id b) (end_of None A) _ (ln_cells _ _ _ Hln b Hb)) as (h2 & -> & L2 & I2 & P2). exists h2, (tail sl).
    split_and!; [done|by rewrite Ht|intros y; by rewrite I2|done|]. intros y. rewrite P2.
    case_decide as Hy; case_decide as Hy'; congruence.
  - exists h1, (end_of None A). split_and!; [done| |done|done|]; [|intros y; by rewrite decide_False].
    clear -EB. destruct B; [by rewrite app_nil_r|done].
Qed.

(** Lowering the level leaves no node above it. *)
Lemma delete_heights h2 l : linked h2 maxLevel (A ++ B) → (1 ≤ l)%nat → (∀ j, (l ≤ j < level sl)%nat → link h2 0 j = Some None) →
  ∀ c, c ∈ A ++ B → (1 ≤ c_h c ≤ l)%nat.
Proof using HI.
  intros Hln Hl Hl2 c Hc. assert (c ∈ A ++ d :: B) as Hc' by (apply elem_of_app in Hc as [Hc|Hc]; apply elem_of_app; [by left|right; by right]).
  pose proof (i_heights _ _ HI c Hc') as Hh. split; [lia|]. destruct (decide (c_h c ≤ l)%nat) as [|Hgt]; [done|exfalso].
  specialize (Hl2 (c_h c - 1)%nat ltac:(lia)). pose proof (i_level _ _ HI). pose proof (ln_seg _ _ _ Hln (c_h c - 1)%nat ltac:(lia)) as Hsg.
  assert (c_id c ∈ chain (c_h c - 1) (A ++ B)) as Hin by (apply chain_elem; exists c; split_and!; [done|done|lia]).
  apply seg_head in Hsg. rewrite Hl2 in Hsg. by destruct (chain (c_h c - 1) (A ++ B)); [apply elem_of_nil in Hin|].
Qed.
End Delete.

Lemma ref_delete_none (v : sv) l : (∀ w, w ∈ l → Score w ≠ Score v) → ref_delete v l = (0, l).
Proof using Type.
  induction l as [|w l IH]; intros H; simpl; [done|]. rewrite (proj2 (Z.eqb_neq _ _)) by (apply H; left).
  rewrite IH; [done|]. intros u Hu. apply H. by right.
Qed.
Lemma ref_delete_app (v : sv) A B : (∀ w, w ∈ A → Score w ≠ Score v) → ref_delete v (A ++ B) = ((ref_delete v B).1, A ++ (ref_delete v B).2).
Proof using Type.
  induction A as [|w A IH]; intros H; simpl; [by destruct (ref_delete v B)|]. rewrite (proj2 (Z.eqb_neq _ _)) by (apply H; left).
  rewrite IH; [done|]. intros u Hu. apply H. by right.
Qed.
Lemma sorted_tail (l1 l2 : list sv) u w : StronglySorted (λ a b, Score b <= Score a) (l1 ++ u :: l2) → w ∈ l2 → Score w <= Score u.
Proof using Type.
  intros Hs Hw. induction l1 as [|x l IH]; inversion Hs as [|? ? H1 H2]; subst; [|by apply IH].
  rewrite list.Forall_forall in H2. by apply H2.
Qed.
Lemma sorted_delete (l1 l2 : list sv) w : StronglySorted (λ a b, Score b <= Score a) (l1 ++ w :: l2) → StronglySorted (λ a b, Score b <= Score a) (l1 ++ l2).
Proof using Type.
  induction l1 as [|u l1 IH]; simpl; inversion 1 as [|? ? Hs HF]; subst; [done|]. constructor; [by apply IH|].
  rewrite list.Forall_forall in *. intros x Hx. apply HF. apply elem_of_app in Hx as [Hx|Hx]; apply elem_of_app; [by left|right; by right].
Qed.

Lemma Delete_spec sl L value : inv sl L →
  ∃ r sl' L', Delete sl value = Ret (r, sl') ∧ inv sl' L' ∧ (r, values L') = ref_delete value (values L).
Proof using Type.
  intros HI. destruct (search sl (λ v, Compare v value <? 0) L HI) as (A & B & k & -> & [HA HB] & Ed & Hn).
  { intros a b. rewrite !Compare_lt, !Z.ltb_ge. lia. }
  unfold Delete. rewrite Ed. cbn [mbind outcome_bind]. rewrite (get_next_link _ _ _ _ Hn). cbn [mbind outcome_bind].
  assert (∀ w, w ∈ values A → Score w ≠ Score value) as HvA.
  { intros w (c & -> & Hc)%list_elem_of_fmap. specialize (HA c Hc). rewrite Compare_lt in HA. lia. }
  assert (ref_delete value (values (A ++ B)) = ((ref_delete value (values B)).1, values A ++ (ref_delete value (values B)).2)) as ->
    by (unfold values; rewrite fmap_app; by apply ref_delete_app).
  destruct B as [|d B]; cbn [head fmap option_fmap option_map].
  { exists 0, sl, (A ++ []). split_and!; [done|done|]. unfold values. by rewrite fmap_app. }
  assert (d ∈ A ++ d :: B) as Hd by (apply elem_of_app; right; left).
  pose proof (ln_cells _ _ _ (i_linked _ _ HI) d Hd) as Hi. destruct (deref_info _ _ _ _ Hi) as (nd & -> & _ & Hv). cbn [mbind outcome_bind].
  rewrite Hv, Compare_eq. change (values (d :: B)) with (c_v d :: values B). cbn [ref_delete]. destruct (Z.eqb_spec (Score (c_v d)) (Score value)) as [Hs|Hs]; cbn [negb].
  2: { exists 0, sl, (A ++ d :: B). split_and!; [done|done|]. rewrite ref_delete_none; [unfold values; by rewrite fmap_app|].
       intros w Hw E. specialize (HB d ltac:(left)). rewrite Compare_lt, Z.ltb_ge in HB.
       pose proof (i_sorted _ _ HI) as Hsort. unfold values in Hsort. rewrite fmap_app in Hsort.
       pose proof (sorted_tail _ _ _ w Hsort Hw). lia. }
  destruct (unlink_spec sl A B d HI) as (h1 & -> & I1 & P1 & L1). cbn [mbind outcome_bind].
  pose proof (i_prev _ _ HI) as [_ [Hpd _]]%prevs_app. destruct (prev_deref h1 (c_id d) (end_of None A)) as (n1 & -> & En1); [by rewrite P1|].
  cbn [mbind outcome_bind]. pose proof (linked_delete sl A B d HI h1 I1 L1) as Hln.
  pose proof (delete_next sl A B d HI h1 L1) as Hnd.
  rewrite (get_next_link _ _ _ _ Hnd). cbn [mbind outcome_bind]. rewrite En1.
  destruct (delete_prev_next sl A B d HI h1 Hln I1 P1) as (h2 & t & -> & Et & I2 & L2 & P2).
  cbn [mbind outcome_bind]. destruct (lower_spec h2 (level sl)) as (l & -> & Hl1 & _ & Hl2).
  { apply (i_level _ _ HI). }
  { intros j Hj. destruct (i_head _ _ HI) as [v0 Hv0]. eapply info_link; [rewrite I2; exact Hv0|]. pose proof (i_level _ _ HI). lia. }
  cbn [mbind outcome_bind]. assert (linked h2 maxLevel (A ++ B)) as Hln2.
  { apply (linked_delete sl A B d HI h2 I2). intros y j Hj. by rewrite L2, L1. }
  eexists 1, _, (A ++ B). split; [reflexivity|]. split; [|unfold values; by rewrite fmap_app].
  split; cbn [nodes tail count level alloc].
  - done.
  - destruct (i_head _ _ HI) as [v0 Hv0]. exists v0. by rewrite I2.
  - apply (delete_heights sl A B d HI h2 l Hln2); [lia|done].
  - pose proof (i_level _ _ HI). lia.
  - intros y Hy. apply (i_alloc _ _ HI). by rewrite <-I2.
  - pose proof (i_sorted _ _ HI) as Hsort. unfold values in *. rewrite fmap_app in *. cbn [fmap list_fmap] in Hsort. by eapply sorted_delete.
  - rewrite (i_count _ _ HI), !length_app. cbn [length]. lia.
  - exact Et.
  - apply (prevs_delete sl A B d HI h2 P2).
Qed.

(** ** Queries *)

Lemma find_skip (f : sv → bool) A B : (∀ w, w ∈ A → f w = false) → List.find f (A ++ B) = List.find f B.
Proof using Type.
  induction A as [|w A IH]; intros H; simpl; [done|]. rewrite H by left. apply IH. intros u Hu. apply H. by right.
Qed.
Lemma find_none (f : sv → bool) A : (∀ w, w ∈ A → f w = false) → List.find f A = None.
Proof using Type. intros H. rewrite <-(app_nil_r A). by rewrite find_skip. Qed.

Lemma find_spec sl L value : inv sl L → ∃ A B x sl', L = A ++ B ∧ find sl value = Ret (x, sl') ∧ inv sl' L ∧ nodes sl' = nodes sl ∧
  (∀ w, w ∈ values A → Score value < Score w) ∧ (∀ w, w ∈ values B → Score w <= Score value) ∧
  get_next (nodes sl') x 0 = Ret (c_id <$> head B).
Proof using Type.
  intros HI. destruct (search sl (λ v, Compare v value <? 0) L HI) as (A & B & k & -> & [HA HB] & Ed & Hn).
  { intros a b. rewrite !Compare_lt, !Z.ltb_ge. lia. }
  unfold find. rewrite Ed. cbn [mbind outcome_bind]. eexists A, B, _, _. split; [done|]. split; [reflexivity|]. cbn [nodes].
  split_and!; [destruct HI; by split|done| | |by apply get_next_link].
  - intros w (c & -> & Hc)%list_elem_of_fmap. specialize (HA c Hc). rewrite Compare_lt in HA. lia.
  - intros w (c & -> & Hc)%list_elem_of_fmap. specialize (HB c Hc). rewrite Compare_lt, Z.ltb_ge in HB. done.
Qed.

Lemma Find_spec sl L value : inv sl L → ∃ sl', Find sl value = Ret (ref_find value (values L), sl') ∧ inv sl' L.
Proof using Type.
  intros HI. destruct (find_spec sl L value HI) as (A & B & x & sl' & -> & Ef & HI' & _ & HA & HB & Hn).
  exists sl'. split; [|done]. unfold Find, ref_find. rewrite Ef. cbn [mbind outcome_bind]. rewrite Hn. cbn [mbind outcome_bind].
  unfold values. rewrite fmap_app, find_skip by (intros w Hw; specialize (HA w Hw); lia).
  destruct B as [|d B]; cbn [head fmap option_fmap option_map list_fmap List.find]; [done|].
  destruct (deref_info _ _ _ _ (ln_cells _ _ _ (i_linked _ _ HI') d ltac:(apply elem_of_app; right; left))) as (n & -> & _ & Ev).
  cbn [mbind outcome_bind]. rewrite Ev, Compare_eq. destruct (Z.eqb_spec (Score (c_v d)) (Score value)) as [E|E]; [done|].
  rewrite find_none; [done|]. intros w Hw. apply Z.eqb_neq. pose proof (i_sorted _ _ HI') as Hs. unfold values in Hs.
  rewrite fmap_app in Hs. cbn [fmap list_fmap] in Hs. pose proof (HB (c_v d) ltac:(left)) as Hd.
  pose proof (sorted_tail _ _ _ w Hs Hw). lia.
Qed.

Lemma FindGreaterOrEqual_spec sl L value : inv sl L →
  ∃ sl', FindGreaterOrEqual sl value = Ret (ref_find_ge value (values L), sl') ∧ inv sl' L.
Proof using Type.
  intros HI. destruct (find_spec sl L value HI) as (A & B & x & sl' & -> & Ef & HI' & _ & HA & HB & Hn).
  exists sl'. split; [|done]. unfold FindGreaterOrEqual, ref_find_ge. rewrite Ef. cbn [mbind outcome_bind]. rewrite Hn. cbn [mbind outcome_bind].
  unfold values. rewrite fmap_app, find_skip by (intros w Hw; specialize (HA w Hw); lia).
  destruct B as [|d B]; cbn [head fmap option_fmap option_map list_fmap List.find]; [done|].
  destruct (deref_info _ _ _ _ (ln_cells _ _ _ (i_linked _ _ HI') d ltac:(apply elem_of_app; right; left))) as (n & -> & _ & Ev).
  cbn [mbind outcome_bind]. rewrite Ev. rewrite (proj2 (Z.leb_le _ _)) by (apply HB; left). done.
Qed.

(** ** Walking *)

Fixpoint walk_ref {St} (cb : sv → St → bool * St) (l : list sv) (s : St) : St :=
  match l with
  | [] => s
  | v :: l => let '(go, s) := cb v s in if (go : bool) then walk_ref cb l s else s
  end.

(** Position [n] of the list, and beyond. *)
Definition at_ (L : list cell) (n : nat) : option nat := c_id <$> L !! n.

Section Walk.
Context (sl : SkipList V) (L : list cell) (HI : inv sl L).

Lemma chain_all : chain 0 L = c_id <$> L.
Proof using HI. apply chain_0, list.Forall_forall. intros c Hc. apply (i_heights _ _ HI c Hc). Qed.
Lemma first_link : get_next (nodes sl) header 0 = Ret (at_ L 0).
Proof using HI.
  pose proof (ln_seg _ _ _ (i_linked _ _ HI) 0%nat ltac:(unfold maxLevel; lia)) as Hs. rewrite chain_all in Hs.
  apply seg_head in Hs. apply get_next_link. unfold header. rewrite Hs. by destruct L.
Qed.
Lemma at_deref n c : L !! n = Some c → ∃ nd, deref (nodes sl) (c_id c) = Ret nd ∧ Value nd = c_v c.
Proof using HI.
  intros Hc%list_elem_of_lookup_2. destruct (deref_info _ _ _ _ (ln_cells _ _ _ (i_linked _ _ HI) c Hc)) as (nd & H & _ & E). eauto.
Qed.
Lemma next_at n : node_Next (nodes sl) (at_ L n) = Ret (at_ L (S n)).
Proof using HI.
  unfold at_. destruct (L !! n) as [c|] eqn:E; cbn [fmap option_fmap option_map node_Next].
  - pose proof (ln_seg _ _ _ (i_linked _ _ HI) 0%nat ltac:(unfold maxLevel; lia)) as Hs. rewrite chain_all in Hs.
    rewrite <-(take_drop_middle L n c E), fmap_app in Hs. cbn [fmap list_fmap] in Hs. apply seg_app in Hs as [_ Hs]. apply seg_head in Hs.
    rewrite (get_next_link _ _ _ _ Hs). f_equal. replace (L !! S n) with (drop (S n) L !! 0%nat) by (rewrite lookup_drop; f_equal; lia).
    by destruct (drop (S n) L).
  - rewrite (lookup_ge_None_2 L (S n)); [done|]. apply lookup_ge_None in E. lia.
Qed.
Lemma prev_at n : node_Prev (nodes sl) (at_ L n) = Ret (match n with O => None | S m => if decide (n < length L)%nat then at_ L m else None end).
Proof using HI.
  unfold at_. destruct (L !! n) as [c|] eqn:E; cbn [fmap option_fmap option_map node_Prev].
  - pose proof (i_prev _ _ HI) as Hp. rewrite <-(take_drop_middle L n c E) in Hp. apply prevs_app in Hp as [_ [Hp _]].
    destruct (prev_deref _ _ _ Hp) as (nd & -> & Ep). cbn [mbind outcome_bind]. rewrite Ep. f_equal. pose proof (lookup_lt_Some _ _ _ E).
    destruct n as [|m]; [done|]. rewrite decide_True by done. unfold end_of. rewrite last_lookup, length_take, lookup_take_lt by lia.
    replace (pred (S m `min` length L)) with m by lia. by destruct (L !! m).
  - destruct n as [|m]; [done|]. apply lookup_ge_None in E. by rewrite decide_False by lia.
Qed.

Lemma walk_at {St} (cb : sv → St → bool * St) fuel n s : (length L ≤ n + fuel)%nat →
  walk_from fuel (nodes sl) (at_ L n) cb s = Ret (walk_ref cb (values (drop n L)) s).
Proof using HI.
  revert n s. induction fuel as [|fuel IH]; intros n s Hf.
  { unfold at_. rewrite (lookup_ge_None_2 L n), (drop_ge L n) by lia. done. }
  destruct (L !! n) as [c|] eqn:E.
  - rewrite (drop_S L c n E). destruct (at_deref n c E) as (nd & Hd & Hv). unfold at_. rewrite E. cbn [fmap option_fmap option_map].
    unfold values. cbn [walk_from fmap list_fmap walk_ref]. rewrite Hd. cbn [mbind outcome_bind]. rewrite Hv.
    destruct (cb (c_v c) s) as [[] s']; [|done]. pose proof (next_at n) as Hn. unfold at_ in Hn. rewrite E in Hn. cbn [fmap option_fmap option_map] in Hn.
    rewrite Hn. cbn [mbind outcome_bind]. apply IH. lia.
  - unfold at_. rewrite E. rewrite (drop_ge L n) by (by apply lookup_ge_None in E). done.
Qed.

Lemma WalkS_spec {St} (cb : sv → St → bool * St) s : WalkS sl (Some cb) s = Ret (walk_ref cb (values L) s).
Proof using HI.
  unfold WalkS. cbn [node_Next]. rewrite first_link. cbn [mbind outcome_bind]. rewrite walk_at; [by rewrite drop_0|].
  destruct (i_linked _ _ HI) as [Hc [_ Hnd]%list.NoDup_cons _]. rewrite <-(length_fmap c_id L). apply length_heap; [done|].
  intros x (c & -> & Hin)%list_elem_of_fmap. specialize (Hc c Hin). unfold info in Hc. by destruct (nodes sl !! c_id c).
Qed.

(** *** Iterators: [n] steps from either end *)

Definition steps (f : Iterator → outcome Iterator) (n : nat) (it : outcome Iterator) : outcome Iterator :=
  Nat.iter n (λ r, it ← r; f it) it.
Definition forward (n : nat) : outcome Iterator := steps (it_Next sl) n (GetIterator sl).
Definition backward (n : nat) : outcome Iterator := steps (it_Prev sl) n ('(_, it) ← it_Last sl (mkIter None); Ret it).

Lemma to_at n : ∃ o, it_to sl (mkIter None) (at_ L n) = Ret (o, mkIter (at_ L n)).
Proof using HI.
  unfold at_, it_to. destruct (L !! n) as [c|] eqn:E; cbn [fmap option_fmap option_map]; [|by exists None].
  destruct (at_deref n c E) as (nd & -> & _). cbn [mbind outcome_bind]. eauto.
Qed.
Lemma forward_spec n : forward n = Ret (mkIter (at_ L n)).
Proof using HI.
  unfold forward, steps. induction n as [|n IH]; cbn [Nat.iter nat_rect].
  - unfold GetIterator, it_First. rewrite first_link. cbn [mbind outcome_bind]. destruct (to_at 0) as (o & ->). done.
  - unfold Nat.iter in IH. rewrite IH. cbn [mbind outcome_bind]. unfold it_Next. cbn [it_node]. by rewrite next_at.
Qed.
Lemma backward_spec n : backward n = Ret (mkIter (if decide (n < length L)%nat then at_ L (length L - 1 - n) else None)).
Proof using HI.
  unfold backward, steps. induction n as [|n IH]; cbn [Nat.iter nat_rect].
  - unfold it_Last. rewrite (i_tail _ _ HI). assert (end_of None L = if decide (0 < length L)%nat then at_ L (length L - 1 - 0) else None) as ->.
    { unfold end_of, at_. rewrite last_lookup. destruct L as [|c L']; [done|]. rewrite decide_True by (simpl; lia).
      replace (length (c :: L') - 1 - 0)%nat with (pred (length (c :: L'))) by lia. by destruct (_ !! _). }
    case_decide; [destruct (to_at (length L - 1 - 0)) as (o & ->)|]; done.
  - unfold Nat.iter in IH. rewrite IH. cbn [mbind outcome_bind]. unfold it_Prev. cbn [it_node].
    destruct (decide (n < length L)%nat) as [Hn|Hn]; [|by rewrite decide_False by lia]. rewrite prev_at.
    destruct (length L - 1 - n)%nat as [|m] eqn:Em; cbn [mbind outcome_bind].
    + by rewrite decide_False by lia.
    + rewrite !decide_True by lia. by replace (length L - 1 - S n)%nat with m by lia.
Qed.
Lemma Value_at n v : values L !! n = Some v → it_Value sl (mkIter (at_ L n)) = Ret v.
Proof using HI.
  unfold values. rewrite list_lookup_fmap. unfold it_Value, at_. cbn [it_node]. destruct (L !! n) as [c|] eqn:E; [|done]. intros [= <-].
  cbn [fmap option_fmap option_map]. destruct (at_deref n c E) as (nd & -> & Ev). cbn [mbind outcome_bind]. by rewrite Ev.
Qed.
End Walk.

(** ** Sequences of operations *)

Inductive op := OInsert (v : sv) (randomLevel : nat) | ODelete (v : sv) | OFind (v : sv) | OFindGE (v : sv).
Inductive answer := ANum (z : Z) | AVal (o : option sv).
Definition answering {A} (f : A → answer) (r : outcome (A * SkipList V)) : outcome (answer * SkipList V) := '(a, sl) ← r; Ret (f a, sl).
Definition step (o : op) (sl : SkipList V) : outcome (answer * SkipList V) :=
  match o with
  | OInsert v n => answering ANum (Insert sl v n)
  | ODelete v => answering ANum (Delete sl v)
  | OFind v => answering AVal (Find sl v)
  | OFindGE v => answering AVal (FindGreaterOrEqual sl v)
  end.
Definition ref_step (o : op) (l : list sv) : answer * list sv :=
  match o with
  | OInsert v _ => (ANum 1, ref_insert v l)
  | ODelete v => (ANum (ref_delete v l).1, (ref_delete v l).2)
  | OFind v => (AVal (ref_find v l), l)
  | OFindGE v => (AVal (ref_find_ge v l), l)
  end.
Fixpoint run (os : list op) (sl : SkipList V) : outcome (list answer * SkipList V) :=
  match os with
  | [] => Ret ([], sl)
  | o :: os => '(a, sl) ← step o sl; '(l, sl) ← run os sl; Ret (a :: l, sl)
  end.
Fixpoint ref_run (os : list op) (l : list sv) : list answer * list sv :=
  match os with
  | [] => ([], l)
  | o :: os => let '(a, l) := ref_step o l in let '(r, l) := ref_run os l in (a :: r, l)
  end.
(** [randomLevel] gives a level from 1 to 32. *)
Definition level_ok (o : op) : Prop := match o with OInsert _ n => (1 ≤ n ≤ maxLevel)%nat | _ => True end.

Lemma step_spec o sl L : inv sl L → level_ok o →
  ∃ sl' L', step o sl = Ret ((ref_step o (values L)).1, sl') ∧ inv sl' L' ∧ values L' = (ref_step o (values L)).2.
Proof using Type.
  intros HI Ho. destruct o as [v n|v|v|v]; simpl.
  - destruct (Insert_spec sl L v n HI Ho) as (sl' & L' & -> & H1 & H2). by exists sl', L'.
  - destruct (Delete_spec sl L v HI) as (r & sl' & L' & -> & H1 & H2). exists sl', L'. rewrite <-H2. done.
  - destruct (Find_spec sl L v HI) as (sl' & -> & H1). by exists sl', L.
  - destruct (FindGreaterOrEqual_spec sl L v HI) as (sl' & -> & H1). by exists sl', L.
Qed.
Lemma run_spec os sl L : inv sl L → Forall level_ok os →
  ∃ sl' L', run os sl = Ret ((ref_run os (values L)).1, sl') ∧ inv sl' L' ∧ values L' = (ref_run os (values L)).2.
Proof using Type.
  intros HI HF. revert sl L HI. induction HF as [|o os Ho HF IH]; intros sl L HI; [by exists sl, L|].
  destruct (step_spec o sl L HI Ho) as (sl1 & L1 & E1 & HI1 & V1). destruct (IH sl1 L1 HI1) as (sl2 & L2 & E2 & HI2 & V2).
  exists sl2, L2. cbn [run ref_run]. rewrite E1. cbn [mbind outcome_bind]. rewrite E2. cbn [mbind outcome_bind]. rewrite V1 in *.
  destruct (ref_step o (values L)) as [a l]. cbn [fst snd] in *. destruct (ref_run os l) as [r l']. done.
Qed.

(** C35. The skip list is a list in descending order of scores, whatever levels are drawn:
    every sequence of insertions, deletions and searches ends without panic and answers as
    the list does; then walking gives the values in order until the callback stops it, an
    iterator gives them from either end, and the length is that of the list. *)
Theorem skiplist_refines (min : sv) os : Forall level_ok os →
  let l := (ref_run os []).2 in
  ∃ sl, run os (NewSkipList min) = Ret ((ref_run os []).1, sl) ∧
    Len sl = Z.of_nat (length l) ∧ (1 ≤ Level sl ≤ maxLevel)%nat ∧ StronglySorted (λ a b, Score b <= Score a) l ∧
    (∀ St (cb : sv → St → bool * St) s, WalkS sl (Some cb) s = Ret (walk_ref cb l s)) ∧
    (∀ n v, l !! n = Some v → ∃ it, forward sl n = Ret it ∧ it_Value sl it = Ret v) ∧
    (∀ n v, reverse l !! n = Some v → ∃ it, backward sl n = Ret it ∧ it_Value sl it = Ret v) ∧
    (∀ n, (length l ≤ n)%nat → forward sl n = Ret (mkIter None) ∧ backward sl n = Ret (mkIter None)).
Proof using Type.
  intros HF l. destruct (run_spec os (NewSkipList min) [] (inv_new min) HF) as (sl & L & E & HI & EL).
  change (values []) with (@nil sv) in *. fold l in EL. assert (length L = length l) as Elen by (rewrite <-EL; unfold values; by rewrite length_fmap).
  exists sl. split_and!.
  - exact E.
  - unfold Len. by rewrite (i_count _ _ HI), Elen.
  - apply (i_level _ _ HI).
  - apply (i_level _ _ HI).
  - rewrite <-EL. apply (i_sorted _ _ HI).
  - intros St cb s. rewrite <-EL. by apply WalkS_spec.
  - intros n v Hv. rewrite (forward_spec sl L HI). eexists. split; [done|]. apply Value_at; [done|]. by rewrite EL.
  - intros n v Hv. rewrite (backward_spec sl L HI). eexists. split; [done|]. pose proof (lookup_lt_Some _ _ _ Hv) as Hlt.
    rewrite length_reverse in Hlt. rewrite decide_True by lia. apply Value_at; [done|]. rewrite EL, Elen.
    rewrite reverse_lookup in Hv by done. by replace (length l - 1 - n)%nat with (length l - S n)%nat by lia.
  - intros n Hn. rewrite (forward_spec sl L HI), (backward_spec sl L HI). unfold at_ at 1. rewrite lookup_ge_None_2 by lia.
    by rewrite decide_False by lia.
Qed.
End Proofs.

(** Levels 3, 1 and 2; two values of the same score keep their order. *)
Lemma skiplist_refines_witness :
  let os := [OInsert (mkSV 5 "a") 3; OInsert (mkSV 9 "b") 1; OInsert (mkSV 5 "c") 2; OFind (mkSV 5 ""); ODelete (mkSV 9 ""); OFindGE (mkSV 7 "")]%string in
  ∃ sl, run os (NewSkipList (mkSV 0 ""%string)) = Ret ([ANum 1; ANum 1; ANum 1; AVal (Some (mkSV 5 "a")); ANum 1; AVal (Some (mkSV 5 "a"))]%string, sl) ∧
    Len sl = 2 ∧ WalkS sl (Some (λ v s, (true, s ++ [sv_Value v]))) [] = Ret ["a"; "c"]%string.
Proof.
  destruct (skiplist_refines (mkSV 0 ""%string) [OInsert (mkSV 5 "a") 3; OInsert (mkSV 9 "b") 1; OInsert (mkSV 5 "c") 2; OFind (mkSV 5 ""); ODelete (mkSV 9 ""); OFindGE (mkSV 7 "")]%string)
    as (sl & E & Hl & _ & _ & Hw & _).
  { repeat constructor; unfold maxLevel; lia. }
  exists sl. split; [exact E|]. split; [exact Hl|]. exact (Hw _ _ _).
Defined.
