(* ===== verification/ListMap.v ===== *)
(** The insertion-ordered map of [common/listmap/listmap.go]: a map from keys to the
    elements of a doubly linked list, and its refinement to a list of pairs.

    List elements are shared between the map and the list; they are modelled by
    their identities. *)

From Stdlib Require Import Ascii String.
From S2P Require Import Prelude.

Section ListMap.
Context {V : Type}.

(** [type ListMap struct]: [l] lists the elements (identity and value) from front to
    back; [fresh_id] is an identity no element has had. *)
Record ListMap := mkListMap { m : gmap string nat; l : list (nat * V); fresh_id : nat }.

Definition New : ListMap := mkListMap ∅ [] 0.

Definition Size (lm : ListMap) : nat := base.size (m lm).

Definition Exist (lm : ListMap) (key : string) : bool := bool_decide (is_Some (m lm !! key)).

(** [elm.Value] *)
Definition elem_Value (lm : ListMap) (id : nat) : option V := list_to_map (M := gmap nat V) (l lm) !! id.

(** A map entry without its list element would be a nil dereference. *)
Definition GetItem (lm : ListMap) (key : string) : outcome V :=
  match m lm !! key with
  | None => Err ErrNotFound
  | Some id => match elem_Value lm id with Some v => Ret v | None => Panic end
  end.

Definition Push (lm : ListMap) (key : string) (value : V) : ListMap :=
  match m lm !! key with
  | Some id => mkListMap (m lm) ((λ e, if decide (e.1 = id) then (id, value) else e) <$> l lm) (fresh_id lm)
  | None => mkListMap (<[key := fresh_id lm]> (m lm)) (l lm ++ [(fresh_id lm, value)]) (S (fresh_id lm))
  end.

Definition GetTop (lm : ListMap) : option V := snd <$> head (l lm).

Definition Remove (lm : ListMap) (key : string) : option V * ListMap :=
  match m lm !! key with
  | Some id => (elem_Value lm id,
                mkListMap (delete key (m lm)) (filter (λ e, e.1 ≠ id) (l lm)) (fresh_id lm))
  | None => (None, lm)
  end.

(** [Walk] with a callback that has its own state and says whether to go on. *)
Fixpoint walk_list {St} (cb : V → St → bool * St) (vs : list V) (s : St) : St :=
  match vs with
  | [] => s
  | v :: vs => let '(go_on, s) := cb v s in if go_on then walk_list cb vs s else s
  end.
Definition Walk {St} (lm : ListMap) (cb : V → St → bool * St) (s : St) : St :=
  walk_list cb (l lm).*2 s.

(** ** Refinement to a list of pairs *)

(** The entries in insertion order: key, element identity, value. *)
Definition entry_ : Type := string * (nat * V).
Definition keys_ (es : list entry_) : list string := es.*1.
Definition ids_ (es : list entry_) : list nat := es.*2.*1.

Definition lm_rep (lm : ListMap) (es : list entry_) : Prop :=
  NoDup (keys_ es) ∧ NoDup (ids_ es) ∧ Forall (λ i, i < fresh_id lm) (ids_ es) ∧
  m lm = list_to_map (prod_map id fst <$> es) ∧ l lm = es.*2.

(** The pairs a list map holds. *)
Definition lm_pairs (lm : ListMap) (kvs : list (string * V)) : Prop :=
  ∃ es, lm_rep lm es ∧ kvs = prod_map id snd <$> es.

Lemma keys_map es : (prod_map id fst <$> es : list (string * nat)).*1 = keys_ es.
Proof using Type. unfold keys_. rewrite <-list_fmap_compose. by apply list_fmap_ext. Qed.

Lemma lm_lookup lm es k i :
  lm_rep lm es → m lm !! k = Some i → ∃ v, (k, (i, v)) ∈ es.
Proof using Type.
  intros (Hk & Hi & Hf & Hm & Hl) H. rewrite Hm in H. apply elem_of_list_to_map_2 in H.
  apply list_elem_of_fmap in H as ([k' [i' v]] & [= -> ->] & H). by exists v.
Qed.

Lemma lm_lookup_2 lm es k i v : lm_rep lm es → (k, (i, v)) ∈ es → m lm !! k = Some i ∧ elem_Value lm i = Some v.
Proof using Type.
  intros (Hk & Hi & Hf & Hm & Hl) H. split.
  - rewrite Hm. apply elem_of_list_to_map_1; [by rewrite keys_map|]. apply list_elem_of_fmap. by exists (k, (i, v)).
  - unfold elem_Value. rewrite Hl. apply elem_of_list_to_map_1; [done|]. apply list_elem_of_fmap. by exists (k, (i, v)).
Qed.

Lemma lm_None lm es k : lm_rep lm es → m lm !! k = None ↔ k ∉ keys_ es.
Proof using Type. intros (Hk & Hi & Hf & Hm & Hl). rewrite Hm, <-keys_map. symmetry. apply not_elem_of_list_to_map. Qed.

Lemma New_pairs : lm_pairs New [].
Proof using Type. exists []. split; [|done]. repeat split; constructor. Qed.

Lemma pairs_keys (es : list entry_) : (prod_map id snd <$> es : list (string * V)).*1 = keys_ es.
Proof using Type. unfold keys_. rewrite <-list_fmap_compose. by apply list_fmap_ext. Qed.

Lemma Exist_pairs lm kvs k : lm_pairs lm kvs → Exist lm k = bool_decide (k ∈ kvs.*1).
Proof using Type.
  intros (es & Hr & ->). unfold Exist. apply bool_decide_ext. rewrite pairs_keys.
  pose proof (lm_None lm es k Hr) as Hn. destruct (m lm !! k) as [i|] eqn:E.
  - split; [|by eexists]. intros _. destruct (decide (k ∈ keys_ es)) as [|Hk]; [done|]. by apply Hn in Hk.
  - split; [by intros []%is_Some_None|]. by destruct Hn as [Hn _]; intros Hk; destruct (Hn eq_refl).
Qed.

Lemma pairs_nodup lm kvs : lm_pairs lm kvs → NoDup kvs.*1.
Proof using Type. intros (es & Hr & ->). rewrite pairs_keys. by destruct Hr. Qed.

Lemma Size_pairs lm kvs : lm_pairs lm kvs → Size lm = length kvs.
Proof using Type.
  intros (es & (Hk & Hi & Hf & Hm & Hl) & ->). unfold Size. rewrite Hm, length_fmap.
  rewrite <-length_map_to_list, map_to_list_to_map by (by rewrite keys_map). by rewrite length_fmap.
Qed.

Lemma GetItem_pairs lm kvs k v : lm_pairs lm kvs → (k, v) ∈ kvs → GetItem lm k = Ret v.
Proof using Type.
  intros (es & Hr & ->) H. apply list_elem_of_fmap in H as ([k' [i v']] & [= -> ->] & H). unfold GetItem.
  destruct (lm_lookup_2 _ _ _ _ _ Hr H) as [-> ->]. done.
Qed.

Lemma GetItem_absent lm kvs k : lm_pairs lm kvs → k ∉ kvs.*1 → GetItem lm k = Err ErrNotFound.
Proof using Type.
  intros (es & Hr & ->) H. rewrite pairs_keys in H. apply (lm_None lm es k Hr) in H. unfold GetItem. by rewrite H.
Qed.

Lemma GetTop_pairs lm kvs : lm_pairs lm kvs → GetTop lm = snd <$> head kvs.
Proof using Type. intros (es & (Hk & Hi & Hf & Hm & Hl) & ->). unfold GetTop. rewrite Hl. by destruct es as [|[k [i v]] es]. Qed.

Lemma Walk_pairs {St} lm kvs (cb : V → St → bool * St) s : lm_pairs lm kvs → Walk lm cb s = walk_list cb kvs.*2 s.
Proof using Type.
  intros (es & (Hk & Hi & Hf & Hm & Hl) & ->). unfold Walk. rewrite Hl. f_equal.
  rewrite <-!list_fmap_compose. by apply list_fmap_ext.
Qed.

(** A new key goes to the back. *)
Lemma Push_new lm kvs k v : lm_pairs lm kvs → k ∉ kvs.*1 → lm_pairs (Push lm k v) (kvs ++ [(k, v)]).
Proof using Type.
  intros (es & Hr & ->) Hn. rewrite pairs_keys in Hn. pose proof (proj2 (lm_None lm es k Hr) Hn) as E.
  destruct Hr as (Hk & Hi & Hf & Hm & Hl).
  exists (es ++ [(k, (fresh_id lm, v))]). unfold Push. rewrite E. split; [|by rewrite fmap_app].
  unfold lm_rep, keys_, ids_. simpl. rewrite !fmap_app. simpl. split_and!.
  - apply list.NoDup_app. split_and!; [done| |apply NoDup_singleton]. intros x Hx ->%list_elem_of_singleton. done.
  - apply list.NoDup_app. split_and!; [done| |apply NoDup_singleton]. intros x Hx ->%list_elem_of_singleton.
    rewrite list.Forall_forall in Hf. apply Hf in Hx. lia.
  - apply list.Forall_app. split; [|by repeat constructor]. eapply list.Forall_impl; [exact Hf|]. simpl. lia.
  - rewrite list_to_map_app. simpl. rewrite insert_empty, <-Hm, map_union_comm.
    + apply insert_union_singleton_l.
    + by apply map_disjoint_singleton_r.
  - by rewrite Hl.
Qed.

Lemma nodup_fst_eq {A B} (es : list (A * B)) a b b' : NoDup es.*1 → (a, b) ∈ es → (a, b') ∈ es → b = b'.
Proof using Type.
  induction es as [|[x y] es IH]; [by intros _ ?%not_elem_of_nil|]. simpl. intros [H1 H2]%list.NoDup_cons.
  assert (∀ z, (x, z) ∉ es) as Hx. { intros z Hz. apply H1. apply list_elem_of_fmap. by exists (x, z). }
  intros [Ea|Ha]%elem_of_cons [Eb|Hb]%elem_of_cons; [congruence| | |by apply IH].
  - injection Ea as -> ->. by apply Hx in Hb.
  - injection Eb as -> ->. by apply Hx in Ha.
Qed.

Lemma nodup_fmap_filter {A B} (f : A → B) (P : A → Prop) `{∀ x, Decision (P x)} (xs : list A) :
  NoDup (f <$> xs) → NoDup (f <$> filter P xs).
Proof using Type.
  induction xs as [|x xs IH]; simpl; [done|]. intros [H1 H2]%list.NoDup_cons. rewrite filter_cons.
  case_decide; [|by apply IH]. simpl. apply list.NoDup_cons. split; [|by apply IH]. contradict H1.
  apply list_elem_of_fmap in H1 as (y & -> & [_ Hy]%list_elem_of_filter). apply list_elem_of_fmap. by exists y.
Qed.

Lemma ids_swap (es : list entry_) : ((λ e : entry_, (e.2.1, (e.1, e.2.2))) <$> es).*1 = ids_ es.
Proof using Type. unfold ids_. induction es as [|e es IH]; simpl; [done|]. f_equal; exact IH. Qed.

Lemma Remove_pairs lm kvs k :
  lm_pairs lm kvs → lm_pairs (Remove lm k).2 (filter (λ kv, kv.1 ≠ k) kvs).
Proof using Type.
  intros (es & Hr & ->). unfold Remove. destruct (m lm !! k) as [i|] eqn:E; simpl.
  - destruct (lm_lookup _ _ _ _ Hr E) as [v Hv]. destruct Hr as (Hk & Hi & Hf & Hm & Hl).
    assert (∀ e, e ∈ es → e.1 = k ↔ e.2.1 = i) as Hiff.
    { intros [k' [i' v']] He. simpl. split; intros ->.
      - by injection (nodup_fst_eq es k (i', v') (i, v) Hk He Hv) as ->.
      - assert ((i, (k', v')) ∈ (λ e : entry_, (e.2.1, (e.1, e.2.2))) <$> es) as H1
          by (apply list_elem_of_fmap; by exists (k', (i, v'))).
        assert ((i, (k, v)) ∈ (λ e : entry_, (e.2.1, (e.1, e.2.2))) <$> es) as H2
          by (apply list_elem_of_fmap; by exists (k, (i, v))).
        assert (NoDup ((λ e : entry_, (e.2.1, (e.1, e.2.2))) <$> es).*1) as Hi'.
        { by rewrite ids_swap. }
        by injection (nodup_fst_eq _ _ _ _ Hi' H1 H2) as ->. }
    exists (filter (λ e, e.1 ≠ k) es). split.
    + unfold lm_rep, keys_, ids_ in *. simpl. split_and!.
      * by apply nodup_fmap_filter.
      * rewrite <-list_fmap_compose in Hi |- *. by apply nodup_fmap_filter.
      * rewrite list.Forall_forall in Hf |- *. intros x Hx. apply Hf.
        apply list_elem_of_fmap in Hx as (y & -> & (e & -> & [_ He]%list_elem_of_filter)%list_elem_of_fmap).
        apply list_elem_of_fmap. exists e.2. split; [done|]. apply list_elem_of_fmap. by exists e.
      * rewrite Hm. clear -Hk. induction es as [|[k' [i' v']] es IH]; simpl; [apply delete_empty|].
        apply list.NoDup_cons in Hk as [H1 H2]. rewrite filter_cons. simpl. case_decide as Hd.
        -- simpl. rewrite delete_insert_ne by congruence. f_equal. by apply IH.
        -- subst k'. rewrite delete_insert_eq. by apply IH.
      * rewrite Hl. clear -Hiff. induction es as [|e es IH]; simpl; [done|]. rewrite !filter_cons.
        assert (∀ e', e' ∈ es → e'.1 = k ↔ e'.2.1 = i) as Hiff' by (intros e' He'; apply Hiff; set_solver).
        specialize (IH Hiff'). specialize (Hiff e ltac:(set_solver)).
        repeat case_decide; simpl; [f_equal; exact IH|tauto|tauto|exact IH].
    + clear. induction es as [|[k' [i' v']] es IH]; simpl; [done|]. rewrite !filter_cons. simpl.
      case_decide; simpl; [f_equal|]; exact IH.
  - pose proof (proj1 (lm_None lm es k Hr) E) as Hn. exists es. split; [done|].
    clear -Hn. unfold keys_ in Hn. induction es as [|[k' [i' v']] es IH]; simpl in *; [done|]. rewrite filter_cons_True; simpl; [|set_solver].
    f_equal. apply IH. set_solver.
Qed.
End ListMap.
#[global] Arguments ListMap : clear implicits.
