(* ===== verification/Mempool.v ===== *)
(** The transaction pool ([system/mempool]): the FIFO queue of [simplequeue.go], the
    per-account index of [accountindex.go], the recent-transaction cache of
    [lasttx.go], the cache that keeps the three together ([cache.go]), and the
    pool operations of [base.go], [check.go] and [eventprocess.go] that change it. *)

From Stdlib Require Import Ascii String.
From S2P Require Import Prelude ListMap.
Local Open Scope Z_scope.

(** ** Transactions as the pool sees them *)

Class TxOps (T : Type) := {
  tx_Hash : T → string;
  tx_From : T → string;
  tx_To : T → string;
  tx_Fee : T → Z;
  tx_Expire : T → Z;
  tx_Amount : T → outcome Z;
  tx_ActionName : T → string;
  tx_GroupCount : T → Z;
  tx_IsExpire : T → Z → Z → bool;
  tx_Check : T → Z → Z → Z → option error;
  (** the transaction that stands for a group *)
  txs_Tx : list T → T
}.

(** [type Item struct] *)
Record Item (T : Type) := mkItem { Value : T; Priority : Z; EnterTime : Z }.
Arguments mkItem {T}. Arguments Value {T}. Arguments Priority {T}. Arguments EnterTime {T}.

Definition mempoolExpiredInterval : Z := 600.

(** Visit items in order; stop when the callback says so or after [count] visits
    ([count] not positive: no limit). *)
Fixpoint walk_count {V St} (cb : V → St → bool * St) (i count : Z) (vs : list V) (s : St) : St :=
  match vs with
  | [] => s
  | v :: vs =>
      let '(go_on, s) := cb v s in
      if go_on then if i + 1 =? count then s else walk_count cb (i + 1) count vs s else s
  end.

(** ** The queue interface: [type QueueCache interface] *)

Class QueueCache (T : Type) `{!TxOps T} (Q : Type) := {
  qc_Exist : Q → string → bool;
  qc_GetItem : Q → string → outcome (Item T);
  qc_Push : Q → Item T → outcome Q;
  qc_Remove : Q → string → Q;
  qc_Size : Q → nat;
  qc_Walk : ∀ {St}, Q → Z → (Item T → St → bool * St) → St → St;
  qc_GetProperFee : Q → Z;
  (** the queue holds these items, in the order it walks them *)
  qc_items : Q → list (Item T) → Prop;
  qc_capacity : Q → Z;
  qc_items_nodup : ∀ q its, qc_items q its → NoDup ((tx_Hash ∘ Value) <$> its);
  qc_Exist_law : ∀ q its h, qc_items q its → qc_Exist q h = bool_decide (h ∈ (tx_Hash ∘ Value) <$> its);
  qc_GetItem_some : ∀ q its it, qc_items q its → it ∈ its → qc_GetItem q (tx_Hash (Value it)) = Ret it;
  qc_GetItem_none : ∀ q its h, qc_items q its → (h ∉ (tx_Hash ∘ Value) <$> its) → ∃ e, qc_GetItem q h = Err e;
  qc_Push_law : ∀ q its it, qc_items q its →
    match qc_Push q it with
    | Ret q' => (tx_Hash (Value it) ∉ (tx_Hash ∘ Value) <$> its) ∧ Z.of_nat (length its) < qc_capacity q ∧
                qc_capacity q' = qc_capacity q ∧ ∃ its', qc_items q' its' ∧ its' ≡ₚ it :: its
    | Err ErrTxExist => tx_Hash (Value it) ∈ (tx_Hash ∘ Value) <$> its
    | Err ErrMemFull => qc_capacity q <= Z.of_nat (length its)
    | _ => False
    end;
  qc_Remove_law : ∀ q its h, qc_items q its →
    qc_items (qc_Remove q h) (filter (λ it, tx_Hash (Value it) ≠ h) its) ∧
    qc_capacity (qc_Remove q h) = qc_capacity q;
  qc_Size_law : ∀ q its, qc_items q its → qc_Size q = length its;
  qc_Walk_law : ∀ {St} q its count (cb : Item T → St → bool * St) s,
    qc_items q its → qc_Walk q count cb s = walk_count cb 0 count its s
}.

(** ** The FIFO queue *)

Record SubConfig := { PoolCacheSize : Z; ProperFee : Z }.

Section SimpleQueue.
Context {T : Type} `{!TxOps T}.

Record SimpleQueue := mkSimpleQueue { txList : ListMap (Item T); subConfig : SubConfig }.

Definition NewSimpleQueue (cfg : SubConfig) : SimpleQueue := mkSimpleQueue New cfg.

Definition sq_Exist (q : SimpleQueue) (hash : string) : bool := Exist (txList q) hash.
Definition sq_GetItem (q : SimpleQueue) (hash : string) : outcome (Item T) := GetItem (txList q) hash.

Definition sq_Push (q : SimpleQueue) (tx : Item T) : outcome SimpleQueue :=
  let hash := tx_Hash (Value tx) in
  if sq_Exist q hash then Err ErrTxExist
  else if PoolCacheSize (subConfig q) <=? Z.of_nat (Size (txList q)) then Err ErrMemFull
  else Ret (mkSimpleQueue (Push (txList q) hash tx) (subConfig q)).

Definition sq_Remove (q : SimpleQueue) (hash : string) : SimpleQueue :=
  mkSimpleQueue (Remove (txList q) hash).2 (subConfig q).

Definition sq_Size (q : SimpleQueue) : nat := Size (txList q).

Definition sq_Walk {St} (q : SimpleQueue) (count : Z) (cb : Item T → St → bool * St) (s : St) : St :=
  (Walk (txList q) (λ item '(i, s),
     let '(go_on, s) := cb item s in
     if go_on then (negb (i + 1 =? count), (i + 1, s)) else (false, (i, s))) (0, s)).2.

Definition sq_GetProperFee (q : SimpleQueue) : Z := ProperFee (subConfig q).

(** The keys of the list are the hashes of its items. *)
Definition sq_items (q : SimpleQueue) (its : list (Item T)) : Prop :=
  lm_pairs (txList q) ((λ it, (tx_Hash (Value it), it)) <$> its).

Lemma sq_keys (its : list (Item T)) :
  ((λ it, (tx_Hash (Value it), it)) <$> its).*1 = (tx_Hash ∘ Value) <$> its.
Proof using Type. rewrite <-list_fmap_compose. by apply list_fmap_ext. Qed.

Lemma sq_Push_run q its it :
  sq_items q its →
  match sq_Push q it with
  | Ret q' => (tx_Hash (Value it) ∉ (tx_Hash ∘ Value) <$> its) ∧ Z.of_nat (length its) < PoolCacheSize (subConfig q) ∧
              subConfig q' = subConfig q ∧ sq_items q' (its ++ [it])
  | Err ErrTxExist => tx_Hash (Value it) ∈ (tx_Hash ∘ Value) <$> its
  | Err ErrMemFull => PoolCacheSize (subConfig q) <= Z.of_nat (length its)
  | _ => False
  end.
Proof using Type.
  intros Hq. unfold sq_Push, sq_Exist. rewrite (Exist_pairs _ _ _ Hq), sq_keys. case_bool_decide as Hb; [done|].
  rewrite (Size_pairs _ _ Hq), length_fmap.
  destruct (Z.leb_spec (PoolCacheSize (subConfig q)) (Z.of_nat (length its))) as [Hl|Hl]; [done|].
  split_and!; try done. unfold sq_items. simpl. rewrite fmap_app. apply Push_new; [done|by rewrite sq_keys].
Qed.

Lemma sq_walk_run {St} (cb : Item T → St → bool * St) count its : ∀ i s,
  (walk_list (λ item '(i, s),
     let '(go_on, s) := cb item s in
     if go_on then (negb (i + 1 =? count), (i + 1, s)) else (false, (i, s))) its (i, s)).2 =
  walk_count cb i count its s.
Proof using Type.
  induction its as [|it its IH]; intros i s; simpl; [done|]. destruct (cb it s) as [[] s']; [|done].
  destruct (i + 1 =? count); simpl; [done|]. apply IH.
Qed.

#[export] Instance SimpleQueue_QueueCache : QueueCache T SimpleQueue.
Proof using Type.
  refine {| qc_Exist := sq_Exist; qc_GetItem := sq_GetItem; qc_Push := sq_Push; qc_Remove := sq_Remove;
            qc_Size := sq_Size; qc_Walk := @sq_Walk; qc_GetProperFee := sq_GetProperFee;
            qc_items := sq_items; qc_capacity q := PoolCacheSize (subConfig q) |}.
  - intros q its Hq. rewrite <-sq_keys. by eapply pairs_nodup.
  - intros q its h Hq. unfold sq_Exist. by rewrite (Exist_pairs _ _ _ Hq), sq_keys.
  - intros q its it Hq Hit. apply (GetItem_pairs _ _ _ _ Hq). apply list_elem_of_fmap. by exists it.
  - intros q its h Hq Hh. exists ErrNotFound. apply (GetItem_absent _ _ _ Hq). by rewrite sq_keys.
  - intros q its it Hq. pose proof (sq_Push_run q its it Hq) as H. destruct (sq_Push q it) as [q'|e|]; try done.
    destruct H as (H1 & H2 & H3 & H4). split_and!; try done; [by rewrite H3|]. exists (its ++ [it]).
    split; [done|]. symmetry. apply Permutation_cons_append.
  - intros q its h Hq. split; [|done]. unfold sq_items, sq_Remove. simpl.
    pose proof (Remove_pairs _ _ h Hq) as H. eapply eq_ind; [exact H|]. clear. 
    induction its as [|it its IH]; simpl; [done|]. rewrite !filter_cons. simpl. case_decide; simpl; [f_equal|]; exact IH.
  - intros q its Hq. unfold sq_Size. by rewrite (Size_pairs _ _ Hq), length_fmap.
  - intros St q its count cb s Hq. unfold sq_Walk. rewrite (Walk_pairs _ _ _ _ Hq).
    rewrite <-list_fmap_compose. rewrite (list_fmap_ext _ id) by done. rewrite list_fmap_id. apply sq_walk_run.
Defined.
End SimpleQueue.
#[global] Arguments SimpleQueue : clear implicits.

(** ** The per-account index *)

Section AccountTxIndex.
Context {T : Type} `{!TxOps T}.

Record AccountTxIndex := mkIndex { maxperaccount : Z; accMap : gmap string (ListMap T) }.

Definition NewAccountTxIndex (max : Z) : AccountTxIndex := mkIndex max ∅.

Definition TxNumOfAccount (c : AccountTxIndex) (addr : string) : nat :=
  match accMap c !! addr with Some lm => Size lm | None => 0 end.

(** The transactions of the given accounts with their amount, sender and action. *)
Definition GetAccTxs (c : AccountTxIndex) (addrs : list string) : list (T * Z * string * string) :=
  addrs ≫= λ addr,
    match accMap c !! addr with
    | None => []
    | Some lm =>
        Walk lm (λ v acc,
          (true, acc ++ [(v, match tx_Amount v with Ret a => a | _ => 0 end, addr, tx_ActionName v)])) []
    end.

Definition ati_Remove (c : AccountTxIndex) (tx : T) : AccountTxIndex :=
  let addr := tx_From tx in
  match accMap c !! addr with
  | None => c
  | Some lm =>
      let lm := (Remove lm (tx_Hash tx)).2 in
      if (Size lm =? 0)%nat then mkIndex (maxperaccount c) (delete addr (accMap c))
      else mkIndex (maxperaccount c) (<[addr := lm]> (accMap c))
  end.

(** The new index, and the error if the account has too many transactions (an empty
    list for a new account stays). *)
Definition ati_Push (c : AccountTxIndex) (tx : T) : AccountTxIndex * outcome unit :=
  let addr := tx_From tx in
  let lm := default New (accMap c !! addr) in
  if maxperaccount c <=? Z.of_nat (Size lm)
  then (mkIndex (maxperaccount c) (<[addr := lm]> (accMap c)), Err ErrManyTx)
  else (mkIndex (maxperaccount c) (<[addr := Push lm (tx_Hash tx) tx]> (accMap c)), Ret tt).

Definition CanPush (c : AccountTxIndex) (tx : T) : bool :=
  match accMap c !! tx_From tx with
  | Some lm => Z.of_nat (Size lm) <? maxperaccount c
  | None => true
  end.

(** ** The most recent transactions *)

Record LastTxCache := mkLast { max_ : Z; last_l : ListMap T }.

Definition NewLastTxCache (size : Z) : LastTxCache := mkLast size New.

Definition GetLatestTx (c : LastTxCache) : list T := Walk (last_l c) (λ v acc, (true, acc ++ [v])) [].

Definition last_Remove (c : LastTxCache) (tx : T) : LastTxCache :=
  mkLast (max_ c) (Remove (last_l c) (tx_Hash tx)).2.

Definition last_Push (c : LastTxCache) (tx : T) : LastTxCache :=
  let c :=
    if max_ c <=? Z.of_nat (Size (last_l c)) then
      match GetTop (last_l c) with Some v => last_Remove c v | None => c end
    else c in
  mkLast (max_ c) (Push (last_l c) (tx_Hash tx) tx).
End AccountTxIndex.
#[global] Arguments AccountTxIndex : clear implicits.
#[global] Arguments LastTxCache : clear implicits.

(** ** The cache: the queue, the index and the recent transactions together *)

Section TxCache.
Context {T : Type} `{!TxOps T} {Q : Type} `{!QueueCache T Q}.

Record txCache := mkCache { index : AccountTxIndex T; last_ : LastTxCache T; qcache : option Q }.

Definition newCache (maxTxPerAccount sizeLast : Z) : txCache :=
  mkCache (NewAccountTxIndex maxTxPerAccount) (NewLastTxCache sizeLast) None.

Definition SetQueueCache (c : txCache) (q : Q) : txCache := mkCache (index c) (last_ c) (Some q).

(** Using a cache whose queue was not set is a nil dereference. *)
Definition cache_Remove (c : txCache) (hash : string) : outcome txCache :=
  match qcache c with
  | None => Panic
  | Some q =>
      match qc_GetItem q hash with
      | Ret item =>
          let tx := Value item in
          Ret (mkCache (ati_Remove (index c) tx) (last_Remove (last_ c) tx) (Some (qc_Remove q hash)))
      | Err _ => Ret c
      | Panic => Panic
      end
  end.

Definition cache_Exist (c : txCache) (hash : string) : bool :=
  match qcache c with None => false | Some q => qc_Exist q hash end.

Definition cache_Size (c : txCache) : nat := match qcache c with None => 0 | Some q => qc_Size q end.

Definition cache_Walk {St} (c : txCache) (count : Z) (cb : Item T → St → bool * St) (s : St) : St :=
  match qcache c with None => s | Some q => qc_Walk q count cb s end.

Fixpoint cache_RemoveTxs (c : txCache) (txs : list string) : outcome txCache :=
  match txs with
  | [] => Ret c
  | t :: txs => c ← cache_Remove c t; cache_RemoveTxs c txs
  end.

(** [now] is the time of the call. *)
Definition cache_Push (now : Z) (c : txCache) (tx : T) : txCache * outcome unit :=
  if negb (CanPush (index c) tx) then (c, Err ErrManyTx)
  else
    match qcache c with
    | None => (c, Panic)
    | Some q =>
        match qc_Push q (mkItem tx (tx_Fee tx) now) with
        | Err e => (c, Err e)
        | Panic => (c, Panic)
        | Ret q' =>
            let '(idx, r) := ati_Push (index c) tx in
            match r with
            | Ret _ => (mkCache idx (last_Push (last_ c) tx) (Some q'), Ret tt)
            | r => (mkCache idx (last_ c) (Some q'), r)
            end
        end
    end.

Definition isExpired (now : Z) (item : Item T) (height blockTime : Z) : bool :=
  (mempoolExpiredInterval <=? now - EnterTime item) || tx_IsExpire (Value item) height blockTime.

Definition removeExpiredTx (now : Z) (c : txCache) (height blocktime : Z) : outcome txCache :=
  match qcache c with
  | None => Panic
  | Some q =>
      let txs := qc_Walk q 0 (λ it acc,
        (true, if isExpired now it height blocktime then acc ++ [tx_Hash (Value it)] else acc)) [] in
      cache_RemoveTxs c txs
  end.

(** ** The pool *)

Record Header := { Height : Z; BlockTime : Z; StateHash : string }.
Record MempoolConfig := { MaxTxNumPerAccount : Z; MinTxFee : Z; MaxTxFee : Z }.

Record Mempool := mkMempool { header : option Header; sync : bool; cfg : MempoolConfig; cache : txCache }.

Definition set_cache (m : Mempool) (c : txCache) : Mempool := mkMempool (header m) (sync m) (cfg m) c.
Definition setHeader (m : Mempool) (h : Header) : Mempool := mkMempool (Some h) (sync m) (cfg m) (cache m).
Definition header_height (h : option Header) : Z := match h with Some h => Height h | None => 0 end.
Definition header_time (h : option Header) : Z := match h with Some h => BlockTime h | None => 0 end.

Definition PushTx (now : Z) (m : Mempool) (tx : T) : Mempool * outcome unit :=
  let '(c, r) := cache_Push now (cache m) tx in (set_cache m c, r).

(** Transactions for a block: skipped items (excluded or expired) count as visited. *)
Definition filterTxList (now : Z) (m : Mempool) (count : Z) (dupMap : option (gset string)) : list T :=
  cache_Walk (cache m) count (λ tx acc,
    if match dupMap with Some d => bool_decide (tx_Hash (Value tx) ∈ d) | None => false end then (true, acc)
    else if isExpired now tx (header_height (header m)) (header_time (header m)) then (true, acc)
    else (true, acc ++ [Value tx])) [].

Definition getTxList (now : Z) (m : Mempool) (count : Z) (hashes : list string) : list T :=
  filterTxList now m count (Some (list_to_set hashes)).

Fixpoint remove_existing (m : Mempool) (hashes : list string) : outcome Mempool :=
  match hashes with
  | [] => Ret m
  | h :: hashes =>
      if cache_Exist (cache m) h then c ← cache_Remove (cache m) h; remove_existing (set_cache m c) hashes
      else remove_existing m hashes
  end.

Definition RemoveTxs (m : Mempool) (hashes : list string) : outcome Mempool := remove_existing m hashes.
Definition RemoveTxsOfBlock (m : Mempool) (txs : list T) : outcome Mempool := remove_existing m (tx_Hash <$> txs).

Definition removeExpired (now : Z) (m : Mempool) : outcome Mempool :=
  c ← removeExpiredTx now (cache m) (header_height (header m)) (header_time (header m)); Ret (set_cache m c).

(** A nil header reads as height and time 0. *)
Definition checkExpireValid (now : Z) (m : Mempool) (tx : T) : bool :=
  if tx_IsExpire tx (header_height (header m)) (header_time (header m)) then false
  else if (1000000000 <? tx_Expire tx) && (tx_Expire tx <? now + 60) then false
  else true.

Definition CheckExpireValid (now : Z) (m : Mempool) (tx : T) : outcome unit :=
  match header m with
  | None => Err ErrHeaderNotSet
  | Some _ => if checkExpireValid now m tx then Ret tt else Err ErrTxExpire
  end.

(** [CheckAddress] is the address check of [common/address]. *)
Definition checkTx (CheckAddress : string → outcome unit) (now : Z) (m : Mempool) (tx : T) : outcome unit :=
  match CheckAddress (tx_To tx) with
  | Ret _ =>
      if MaxTxNumPerAccount (cfg m) <=? Z.of_nat (TxNumOfAccount (index (cache m)) (tx_From tx)) then Err ErrManyTx
      else CheckExpireValid now m tx
  | Err _ => Err ErrInvalidAddress
  | Panic => Panic
  end.

(** The transactions of a disconnected block go back to the pool; a miner transaction
    at the start is skipped and a group goes back as one transaction. *)
Fixpoint delBlock_loop (fuel : nat) (now : Z) (m : Mempool) (first : bool) (txs : list T) : outcome Mempool :=
  match fuel, txs with
  | O, _ | _, [] => Ret m
  | S fuel, tx :: rest =>
      if first && String.eqb (tx_ActionName tx) "miner" then delBlock_loop fuel now m false rest
      else
        let n := tx_GroupCount tx in
        let '(tx', rest) :=
          if (1 <? n) && (n <=? Z.of_nat (length txs))
          then (txs_Tx (take (Z.to_nat n) txs), drop (Z.to_nat n) txs) else (tx, rest) in
        match tx_Check tx' (header_height (header m)) (MinTxFee (cfg m)) (MaxTxFee (cfg m)) with
        | None =>
            if checkExpireValid now m tx' then
              match PushTx now m tx' with
              | (_, Panic) => Panic
              | (m', _) => delBlock_loop fuel now m' false rest
              end
            else delBlock_loop fuel now m false rest
        | Some _ => delBlock_loop fuel now m false rest
        end
  end.

Definition delBlock (now : Z) (m : Mempool) (txs : list T) : outcome Mempool :=
  delBlock_loop (length txs) now m true txs.

Definition mempool_Height (m : Mempool) : Z := match header m with None => -1 | Some h => Height h end.

Definition eventAddBlock (m : Mempool) (height blockTime : Z) (stateHash : string) (txs : list T) : outcome Mempool :=
  let m :=
    if (mempool_Height m <? height) || ((height =? 0) && (mempool_Height m =? 0))
    then setHeader m {| Height := height; BlockTime := blockTime; StateHash := stateHash |} else m in
  RemoveTxsOfBlock m txs.

(** [lastHeader]: the chain's reply to the request for its last header ([None]: an error). *)
Definition eventDelBlock (now : Z) (m : Mempool) (height : Z) (lastHeader : option Header) (txs : list T) :
    outcome Mempool :=
  if negb (height =? header_height (header m)) then Ret m
  else match lastHeader with
       | Some h => delBlock now (setHeader m h) txs
       | None => Ret m
       end.
End TxCache.
#[global] Arguments txCache : clear implicits.
#[global] Arguments Mempool : clear implicits.
