(* ===== verification/MempoolTheorems.v ===== *)
(** The promises of the transaction pool: its queue, its per-account index and its
    recent-transaction cache stay consistent and within their limits. *)

From Stdlib Require Import Ascii String.
From S2P Require Import Prelude ListMap Mempool.
Local Open Scope Z_scope.

Lemma nodup_fmap_inj {A B} (f : A → B) (xs : list A) x y :
  NoDup (f <$> xs) → x ∈ xs → y ∈ xs → f x = f y → x = y.
Proof.
  induction xs as [|z xs IH]; [by intros _ ?%not_elem_of_nil|]. simpl. intros [H1 H2]%list.NoDup_cons.
  assert (∀ u, u ∈ xs → f u ≠ f z) as Hz.
  { intros u Hu E. apply H1. rewrite <-E. apply list_elem_of_fmap. by exists u. }
  intros [->|Hx]%elem_of_cons [->|Hy]%elem_of_cons E; [done|by destruct (Hz y)|by destruct (Hz x)|by apply IH].
Qed.

Section Index.
Context {T : Type} `{!TxOps T}.

(** The list map holds these transactions, keyed by hash. *)
Definition txs_in (lm : ListMap T) (txs : list T) : Prop := lm_pairs lm ((λ t, (tx_Hash t, t)) <$> txs).

Lemma txs_keys (txs : list T) : ((λ t, (tx_Hash t, t)) <$> txs).*1 = tx_Hash <$> txs.
Proof using Type. rewrite <-list_fmap_compose. by apply list_fmap_ext. Qed.

Lemma txs_Size lm txs : txs_in lm txs → Size lm = length txs.
Proof using Type. intros H. by rewrite (Size_pairs _ _ H), length_fmap. Qed.

Lemma txs_Push lm txs t : txs_in lm txs → (tx_Hash t ∉ tx_Hash <$> txs) → txs_in (Push lm (tx_Hash t) t) (txs ++ [t]).
Proof using Type. intros H Hn. unfold txs_in. rewrite fmap_app. apply Push_new; [done|by rewrite txs_keys]. Qed.

Lemma txs_Remove lm txs h : txs_in lm txs → txs_in (Remove lm h).2 (filter (λ t, tx_Hash t ≠ h) txs).
Proof using Type.
  intros H%(Remove_pairs _ _ h). unfold txs_in. eapply eq_ind; [exact H|]. clear.
  induction txs as [|t txs IH]; simpl; [done|]. rewrite !filter_cons. simpl. case_decide; simpl; [f_equal|]; exact IH.
Qed.

Lemma txs_GetTop lm txs : txs_in lm txs → GetTop lm = head txs.
Proof using Type. intros H. rewrite (GetTop_pairs _ _ H). by destruct txs. Qed.

Lemma txs_nodup lm txs : txs_in lm txs → NoDup (tx_Hash <$> txs).
Proof using Type. intros H%pairs_nodup. by rewrite txs_keys in H. Qed.

(** The transactions of an account among the items of the queue. *)
Definition of_account (a : string) (its : list (Item T)) : list T :=
  filter (λ t, tx_From t = a) (Value <$> its).

(** The index holds, for every account, its queued transactions, and no empty list. *)
Definition index_ok (c : AccountTxIndex T) (its : list (Item T)) : Prop :=
  ∀ a, Z.of_nat (length (of_account a its)) <= maxperaccount c ∧
    match accMap c !! a with
    | None => of_account a its = []
    | Some lm => ∃ txs, txs_in lm txs ∧ txs ≡ₚ of_account a its ∧ txs ≠ []
    end.

#[export] Instance of_account_proper a : Proper ((≡ₚ) ==> (≡ₚ)) (of_account a).
Proof using Type. intros x y H. unfold of_account. by rewrite H. Qed.

Lemma index_ok_perm c its its' : its ≡ₚ its' → index_ok c its → index_ok c its'.
Proof using Type.
  intros Hp H a. destruct (H a) as [H1 H2]. assert (of_account a its ≡ₚ of_account a its') as Ha by by rewrite Hp.
  split; [by rewrite <-Ha|]. destruct (accMap c !! a) as [lm|].
  - destruct H2 as (txs & E1 & E2 & E3). exists txs. split_and!; try done. by rewrite E2.
  - rewrite H2 in Ha. by apply Permutation_nil in Ha.
Qed.

Lemma TxNum_ok c its a : index_ok c its → TxNumOfAccount c a = length (of_account a its).
Proof using Type.
  intros H. destruct (H a) as [_ H2]. unfold TxNumOfAccount. destruct (accMap c !! a) as [lm|].
  - destruct H2 as (txs & E1 & E2 & _). by rewrite (txs_Size _ _ E1), E2.
  - by rewrite H2.
Qed.

Lemma CanPush_ok c its t :
  index_ok c its → 1 <= maxperaccount c →
  CanPush c t = (Z.of_nat (length (of_account (tx_From t) its)) <? maxperaccount c).
Proof using Type.
  intros H Hm. destruct (H (tx_From t)) as [_ H2]. unfold CanPush. destruct (accMap c !! tx_From t) as [lm|].
  - destruct H2 as (txs & E1 & E2 & _). by rewrite (txs_Size _ _ E1), E2.
  - rewrite H2. simpl. symmetry. apply Z.ltb_lt. lia.
Qed.

Lemma of_account_cons a it its :
  of_account a (it :: its) = if decide (tx_From (Value it) = a) then Value it :: of_account a its else of_account a its.
Proof using Type. unfold of_account. simpl. by rewrite filter_cons. Qed.

Lemma of_account_hash a its h : (h ∉ (tx_Hash ∘ Value) <$> its) → (h ∉ tx_Hash <$> of_account a its).
Proof using Type.
  intros Hn Hh. apply Hn. unfold of_account in Hh. apply list_elem_of_fmap in Hh as (t & -> & [_ Ht]%list_elem_of_filter).
  apply list_elem_of_fmap in Ht as (it & -> & Hit). apply list_elem_of_fmap. by exists it.
Qed.

Lemma ati_Push_ok c its it :
  index_ok c its → (tx_Hash (Value it) ∉ (tx_Hash ∘ Value) <$> its) →
  Z.of_nat (length (of_account (tx_From (Value it)) its)) < maxperaccount c →
  ∃ c', ati_Push c (Value it) = (c', Ret tt) ∧ index_ok c' (it :: its) ∧ maxperaccount c' = maxperaccount c.
Proof using Type.
  intros H Hn Hl. unfold ati_Push. destruct (H (tx_From (Value it))) as [_ H2].
  assert (∃ txs, txs_in (default New (accMap c !! tx_From (Value it))) txs ∧ txs ≡ₚ of_account (tx_From (Value it)) its)
    as (txs & E1 & E2).
  { destruct (accMap c !! tx_From (Value it)) as [lm|]; simpl.
    - destruct H2 as (txs & E1 & E2 & _). by exists txs.
    - exists []. rewrite H2. split; [apply New_pairs|done]. }
  assert (length txs = length (of_account (tx_From (Value it)) its)) as El by by rewrite E2.
  rewrite (txs_Size _ _ E1), El, (proj2 (Z.leb_gt _ _)) by done.
  eexists. split; [done|]. split; [|done]. intros a. simpl. rewrite of_account_cons.
  destruct (decide (tx_From (Value it) = a)) as [<-|Hne].
  - split; [simpl; lia|]. rewrite lookup_insert_eq. exists (txs ++ [Value it]). split_and!.
    + apply txs_Push; [done|]. rewrite E2. by apply of_account_hash.
    + rewrite E2. symmetry. apply Permutation_cons_append.
    + by destruct txs.
  - rewrite lookup_insert_ne by done. apply H.
Qed.

Lemma filter_hash_id (txs : list T) h : (h ∉ tx_Hash <$> txs) → filter (λ t, tx_Hash t ≠ h) txs = txs.
Proof using Type.
  intros Hn. apply filter_all. intros t Ht <-. apply Hn. apply list_elem_of_fmap. by exists t.
Qed.

Lemma of_account_remove a its h :
  of_account a (filter (λ it, tx_Hash (Value it) ≠ h) its) = filter (λ t, tx_Hash t ≠ h) (of_account a its).
Proof using Type.
  unfold of_account. induction its as [|it its IH]; simpl; [done|]. rewrite !filter_cons.
  repeat (case_decide; simpl; rewrite ?filter_cons); try done; by rewrite IH || by f_equal.
Qed.

Lemma ati_Remove_ok c its it :
  index_ok c its → NoDup ((tx_Hash ∘ Value) <$> its) → it ∈ its →
  index_ok (ati_Remove c (Value it)) (filter (λ x, tx_Hash (Value x) ≠ tx_Hash (Value it)) its) ∧
  maxperaccount (ati_Remove c (Value it)) = maxperaccount c.
Proof using Type.
  intros H Hnd Hin. set (h := tx_Hash (Value it)). set (a0 := tx_From (Value it)).
  assert (∀ a, a ≠ a0 → of_account a (filter (λ x, tx_Hash (Value x) ≠ h) its) = of_account a its) as Hother.
  { intros a Ha. rewrite of_account_remove. apply filter_hash_id. intros Hh.
    apply list_elem_of_fmap in Hh as (t & Et & [Hf Ht]%list_elem_of_filter).
    apply list_elem_of_fmap in Ht as (it' & -> & Hit'). apply Ha. rewrite <-Hf. unfold a0.
    assert (it' = it) as ->; [|done].
    by apply (nodup_fmap_inj (tx_Hash ∘ Value) its). }
  destruct (H a0) as [Hl Ha0]. unfold ati_Remove. fold a0. fold h.
  assert (Value it ∈ of_account a0 its) as Hin'.
  { apply list_elem_of_filter. split; [done|]. apply list_elem_of_fmap. by exists it. }
  destruct (accMap c !! a0) as [lm|] eqn:Elm; [|rewrite Ha0 in Hin'; by apply not_elem_of_nil in Hin'].
  destruct Ha0 as (txs & E1 & E2 & E3). pose proof (txs_Remove lm txs h E1) as E1'.
  rewrite (txs_Size _ _ E1'). split; [|by destruct (_ =? _)%nat]. intros a.
  assert (length (of_account a (filter (λ x, tx_Hash (Value x) ≠ h) its)) ≤ length (of_account a its))%nat as Hlen.
  { rewrite of_account_remove. apply length_filter. }
  split; [destruct (H a) as [H1 _]; destruct (_ =? _)%nat; simpl; lia|].
  destruct (Nat.eqb_spec (length (filter (λ t, tx_Hash t ≠ h) txs)) 0) as [E0|E0]; simpl;
    (destruct (decide (a = a0)) as [->|Hne]; [|rewrite ?lookup_delete_ne, ?lookup_insert_ne by done; rewrite Hother by done; apply H]).
  - rewrite lookup_delete_eq, of_account_remove. apply Permutation_nil.
    rewrite <-E2. apply nil_length_inv in E0. by rewrite E0.
  - rewrite lookup_insert_eq. eexists. split; [exact E1'|]. split; [by rewrite of_account_remove, E2|].
    intros En. apply E0. by rewrite En.
Qed.
End Index.

Section Last.
Context {T : Type} `{!TxOps T}.

(** The recent transactions are in the queue, at most [max_] of them (at least one is kept). *)
Definition last_ok (c : LastTxCache T) (its : list (Item T)) : Prop :=
  ∃ lts, txs_in (last_l c) lts ∧ (∀ t, t ∈ lts → t ∈ Value <$> its) ∧ Z.of_nat (length lts) <= Z.max 1 (max_ c).

Lemma last_Remove_ok c its h t :
  tx_Hash t = h → last_ok c its → last_ok (last_Remove c t) (filter (λ x, tx_Hash (Value x) ≠ h) its).
Proof using Type.
  intros <- (lts & H1 & H2 & H3). exists (filter (λ x, tx_Hash x ≠ tx_Hash t) lts). split_and!.
  - by apply txs_Remove.
  - intros x [Hx1 Hx2]%list_elem_of_filter. apply H2, list_elem_of_fmap in Hx2 as (it & -> & Hit).
    apply list_elem_of_fmap. exists it. split; [done|]. by apply list_elem_of_filter.
  - pose proof (length_filter (λ x, tx_Hash x ≠ tx_Hash t) lts). simpl. lia.
Qed.

Lemma last_Push_ok c its it :
  (tx_Hash (Value it) ∉ (tx_Hash ∘ Value) <$> its) → last_ok c its → last_ok (last_Push c (Value it)) (it :: its).
Proof using Type.
  intros Hn (lts & H1 & H2 & H3). unfold last_Push.
  assert (∀ lm lts', txs_in lm lts' → (∀ t, t ∈ lts' → t ∈ lts) →
            txs_in (Push lm (tx_Hash (Value it)) (Value it)) (lts' ++ [Value it])) as Hpush.
  { intros lm lts' Hlm Hsub. apply txs_Push; [done|]. intros Hin.
    apply list_elem_of_fmap in Hin as (t & E & Ht%Hsub%H2). apply Hn. rewrite E.
    apply list_elem_of_fmap in Ht as (it' & -> & Hit'). apply list_elem_of_fmap. by exists it'. }
  rewrite (txs_Size _ _ H1). destruct (Z.leb_spec (max_ c) (Z.of_nat (length lts))) as [Hl|Hl].
  - rewrite (txs_GetTop _ _ H1). destruct lts as [|t0 lts]; simpl.
    + exists [Value it]. split; [by apply (Hpush _ [] H1)|]. split; [set_solver|]. simpl. lia.
    + pose proof (txs_nodup _ _ H1) as Hnd. apply list.NoDup_cons in Hnd as [Hn0 _].
      pose proof (txs_Remove _ _ (tx_Hash t0) H1) as H1'.
      rewrite filter_cons_False in H1' by tauto. rewrite filter_hash_id in H1' by done.
      exists (lts ++ [Value it]). split; [apply Hpush; [done|set_solver]|]. split; [set_solver|].
      rewrite length_app. simpl in *. lia.
  - exists (lts ++ [Value it]). split; [by apply Hpush|]. split; [set_solver|]. rewrite length_app. simpl in *. lia.
Qed.
End Last.

Section Cache.
Context {T : Type} `{!TxOps T} {Q : Type} `{!QueueCache T Q}.

(** The pool's invariant: the queue holds [its] within its capacity, the index holds
    exactly its transactions by account, within the limit per account, and the
    recent transactions are among them. *)
Definition cache_inv (c : txCache T Q) (its : list (Item T)) : Prop :=
  ∃ q, qcache c = Some q ∧ qc_items q its ∧ Z.of_nat (length its) <= Z.max 0 (qc_capacity q) ∧
    index_ok (index c) its ∧ 1 <= maxperaccount (index c) ∧ last_ok (last_ c) its.

Lemma cache_Push_spec now c its tx :
  cache_inv c its →
  match cache_Push now c tx with
  | (c', Ret _) => (tx_Hash tx ∉ (tx_Hash ∘ Value) <$> its) ∧
                   ∃ its', cache_inv c' its' ∧ its' ≡ₚ mkItem tx (tx_Fee tx) now :: its
  | (c', Err ErrManyTx) => c' = c ∧ Z.of_nat (length (of_account (tx_From tx) its)) = maxperaccount (index c)
  | (c', Err ErrTxExist) => c' = c ∧ tx_Hash tx ∈ (tx_Hash ∘ Value) <$> its
  | (c', Err ErrMemFull) => c' = c ∧ ∃ q, qcache c = Some q ∧ qc_capacity q <= Z.of_nat (length its)
  | _ => False
  end.
Proof using Type.
  intros (q & Eq & Hq & Hcap & Hidx & Hmax & Hlast). unfold cache_Push.
  rewrite (CanPush_ok _ _ tx Hidx Hmax).
  destruct (Z.ltb_spec (Z.of_nat (length (of_account (tx_From tx) its))) (maxperaccount (index c))) as [Hl|Hl]; simpl.
  2: { split; [done|]. destruct (Hidx (tx_From tx)). lia. }
  rewrite Eq. pose proof (qc_Push_law q its (mkItem tx (tx_Fee tx) now) Hq) as Hp.
  destruct (qc_Push q (mkItem tx (tx_Fee tx) now)) as [q'|e|]; [|destruct e; naive_solver|done].
  destruct Hp as (Hn & Hlen & Hcap' & its' & Hits' & Hperm). simpl in Hn.
  destruct (ati_Push_ok (index c) its (mkItem tx (tx_Fee tx) now) Hidx Hn Hl) as (idx & Ei & Hidx' & Hmax').
  simpl in Ei. rewrite Ei. split; [done|]. exists its'. split; [|done]. exists q'. simpl.
  split_and!; [done|done| | |lia|].
  - apply Permutation_length in Hperm. simpl in Hperm. rewrite Hcap'. lia.
  - eapply index_ok_perm; [symmetry; exact Hperm|done].
  - destruct (last_Push_ok (last_ c) its (mkItem tx (tx_Fee tx) now) Hn Hlast) as (lts & L1 & L2 & L3).
    exists lts. split; [done|]. split; [|done]. intros t Ht. rewrite Hperm. by apply L2.
Qed.

Lemma cache_Remove_spec c its h :
  cache_inv c its → ∃ c', cache_Remove c h = Ret c' ∧ cache_inv c' (filter (λ it, tx_Hash (Value it) ≠ h) its).
Proof using Type.
  intros (q & Eq & Hq & Hcap & Hidx & Hmax & Hlast). unfold cache_Remove. rewrite Eq.
  destruct (decide (h ∈ (tx_Hash ∘ Value) <$> its)) as [Hin|Hn].
  - apply list_elem_of_fmap in Hin as (it & -> & Hit). simpl. rewrite (qc_GetItem_some q its it Hq Hit).
    eexists. split; [done|]. destruct (qc_Remove_law q its (tx_Hash (Value it)) Hq) as [Hr Hc].
    destruct (ati_Remove_ok (index c) its it Hidx (qc_items_nodup q its Hq) Hit) as [Hi Hm].
    eexists. split; [done|]. simpl. split_and!; [done| |done|lia|by apply last_Remove_ok].
    pose proof (length_filter (λ x, tx_Hash (Value x) ≠ tx_Hash (Value it)) its). rewrite Hc. lia.
  - destruct (qc_GetItem_none q its h Hq Hn) as [e ->]. exists c. split; [done|].
    assert (filter (λ it, tx_Hash (Value it) ≠ h) its = its) as ->.
    { apply filter_all. intros it Hit <-. apply Hn. apply list_elem_of_fmap. by exists it. }
    by exists q.
Qed.

Lemma filter_filter_hashes (its : list (Item T)) h hs :
  filter (λ it, tx_Hash (Value it) ∉ hs) (filter (λ it, tx_Hash (Value it) ≠ h) its) =
  filter (λ it, tx_Hash (Value it) ∉ h :: hs) its.
Proof using Type.
  rewrite list_filter_filter. apply list_filter_iff. intros it. rewrite not_elem_of_cons. tauto.
Qed.

Lemma cache_RemoveTxs_spec hs : ∀ c its,
  cache_inv c its → ∃ c', cache_RemoveTxs c hs = Ret c' ∧ cache_inv c' (filter (λ it, tx_Hash (Value it) ∉ hs) its).
Proof using Type.
  induction hs as [|h hs IH]; intros c its Hc.
  - exists c. split; [done|]. rewrite filter_all; [done|]. intros x _. apply not_elem_of_nil.
  - destruct (cache_Remove_spec c its h Hc) as (c1 & E1 & H1). destruct (IH c1 _ H1) as (c2 & E2 & H2).
    exists c2. simpl. rewrite E1. simpl. split; [done|]. by rewrite <-filter_filter_hashes.
Qed.

Lemma walk_collect {V A} (P : V → bool) (f : V → A) (vs : list V) : ∀ i count acc,
  count <= i → 
  walk_count (λ v acc, (true, if P v then acc ++ [f v] else acc)) i count vs acc =
    acc ++ (f <$> filter (λ v, P v = true) vs).
Proof using Type.
  induction vs as [|v vs IH]; intros i count acc Hi; simpl; [by rewrite app_nil_r|].
  destruct (Z.eqb_spec (i + 1) count); [lia|]. rewrite IH by lia. rewrite filter_cons.
  destruct (P v); simpl; [by rewrite <-(assoc_L (++))|done].
Qed.

Lemma removeExpiredTx_spec now c its height blocktime :
  cache_inv c its →
  ∃ c', removeExpiredTx now c height blocktime = Ret c' ∧
    cache_inv c' (filter (λ it, isExpired now it height blocktime = false) its).
Proof using Type.
  intros Hc. pose proof Hc as (q & Eq & Hq & _). unfold removeExpiredTx. rewrite Eq, (qc_Walk_law q its _ _ _ Hq).
  rewrite walk_collect by lia. simpl.
  destruct (cache_RemoveTxs_spec ((tx_Hash ∘ Value) <$> filter (λ it, isExpired now it height blocktime = true) its)
    c its Hc) as (c' & E & H). exists c'. split; [exact E|].
  erewrite filter_ext_in; [exact H|]. intros it Hit. simpl. rewrite <-not_true_iff_false. split.
  - intros Hn Hh. apply list_elem_of_fmap in Hh as (it' & E' & [He Hit']%list_elem_of_filter). apply Hn.
    by rewrite (nodup_fmap_inj (tx_Hash ∘ Value) its it it' (qc_items_nodup q its Hq) Hit Hit' E').
  - intros Hn He. apply Hn. apply list_elem_of_fmap. exists it. split; [done|]. by apply list_elem_of_filter.
Qed.

Lemma remove_existing_spec hs : ∀ m its,
  cache_inv (cache m) its →
  ∃ c, remove_existing m hs = Ret (set_cache m c) ∧ cache_inv c (filter (λ it, tx_Hash (Value it) ∉ hs) its).
Proof using Type.
  induction hs as [|h hs IH]; intros m its Hc.
  - exists (cache m). split; [by destruct m|]. rewrite filter_all; [done|]. intros x _. apply not_elem_of_nil.
  - cbn [remove_existing]. pose proof Hc as (q & Eq & Hq & _). unfold cache_Exist. rewrite Eq, (qc_Exist_law q its h Hq).
    case_bool_decide as Hb.
    + destruct (cache_Remove_spec (cache m) its h Hc) as (c1 & -> & H1). cbn [mbind outcome_bind].
      destruct (IH (set_cache m c1) _ H1) as (c2 & E2 & H2). exists c2. split; [done|]. by rewrite <-filter_filter_hashes.
    + destruct (IH m its Hc) as (c2 & E2 & H2). exists c2. split; [done|].
      erewrite filter_ext_in; [exact H2|]. intros it Hit. rewrite not_elem_of_cons. split; [tauto|]. intros Hn.
      split; [|done]. intros <-. apply Hb. apply list_elem_of_fmap. by exists it.
Qed.

(** Items added by [delBlock] come after the ones the pool had. *)
Lemma delBlock_spec fuel now : ∀ m first txs its,
  cache_inv (cache m) its →
  ∃ m' its', delBlock_loop fuel now m first txs = Ret m' ∧ cache_inv (cache m') its' ∧ its ⊆ its' ∧ header m' = header m.
Proof using Type.
  induction fuel as [|fuel IH]; intros m first txs its Hc; [by exists m, its|].
  destruct txs as [|tx rest]; [by exists m, its|]. cbn [delBlock_loop].
  destruct (first && _); [by apply IH|].
  destruct (if (1 <? tx_GroupCount tx) && _ then _ else _) as [tx' rest'].
  destruct (tx_Check tx' _ _ _); [by apply IH|]. destruct (checkExpireValid now m tx'); [|by apply IH].
  unfold PushTx. pose proof (cache_Push_spec now (cache m) its tx' Hc) as Hp.
  destruct (cache_Push now (cache m) tx') as [c' [u|e|]]; [| |done].
  - destruct Hp as (_ & its1 & Hc1 & Hp1). destruct (IH (set_cache m c') false rest' its1 Hc1) as (m2 & its2 & E & H2 & H3 & H4).
    exists m2, its2. split_and!; try done. rewrite <-H3, Hp1. set_solver.
  - assert (c' = cache m) as -> by (destruct e; naive_solver). apply (IH (set_cache m (cache m))). done.
Qed.

(** ** Events that change the pool *)

Inductive event :=
  | EvPush (now : Z) (tx : T)
  | EvRemoveTxs (hashes : list string)
  | EvRemoveExpired (now : Z)
  | EvAddBlock (height blockTime : Z) (stateHash : string) (txs : list T)
  | EvDelBlock (now height : Z) (lastHeader : option Header) (txs : list T).

Definition run_event (m : Mempool T Q) (e : event) : outcome (Mempool T Q) :=
  match e with
  | EvPush now tx => match PushTx now m tx with (_, Panic) => Panic | (m', _) => Ret m' end
  | EvRemoveTxs hs => RemoveTxs m hs
  | EvRemoveExpired now => removeExpired now m
  | EvAddBlock h t sh txs => eventAddBlock m h t sh txs
  | EvDelBlock now h lh txs => eventDelBlock now m h lh txs
  end.

Inductive mstep : relation (Mempool T Q) :=
  | mstep_event e m m' : run_event m e = Ret m' → mstep m m'.

Definition pool_inv (m : Mempool T Q) : Prop := ∃ its, cache_inv (cache m) its.

Lemma run_event_inv m e : pool_inv m → ∃ m', run_event m e = Ret m' ∧ pool_inv m'.
Proof using Type.
  intros [its Hc]. destruct e as [now tx|hs|now|h t sh txs|now h lh txs]; cbn [run_event].
  - unfold PushTx. pose proof (cache_Push_spec now (cache m) its tx Hc) as Hp.
    destruct (cache_Push now (cache m) tx) as [c' [u|e|]]; [| |done].
    + destruct Hp as (_ & its' & Hc' & _). eexists. split; [done|]. by exists its'.
    + assert (c' = cache m) as -> by (destruct e; naive_solver). eexists. split; [done|]. by exists its.
  - destruct (remove_existing_spec hs m its Hc) as (c & E & H). eexists. split; [done|]. eexists. exact H.
  - destruct (removeExpiredTx_spec now (cache m) its (header_height (header m)) (header_time (header m)) Hc) as (c & E & H).
    unfold removeExpired. rewrite E. eexists. split; [done|]. eexists. exact H.
  - unfold eventAddBlock, RemoveTxsOfBlock. destruct (_ || _).
    + destruct (remove_existing_spec (tx_Hash <$> txs) (setHeader m {| Height := h; BlockTime := t; StateHash := sh |}) its Hc)
        as (c & -> & H). eexists. split; [done|]. eexists. exact H.
    + destruct (remove_existing_spec (tx_Hash <$> txs) m its Hc) as (c & -> & H).
      eexists. split; [done|]. eexists. exact H.
  - unfold eventDelBlock. destruct (negb _); [eexists; split; [done|]; by exists its|].
    destruct lh as [hd|]; [|eexists; split; [done|]; by exists its].
    destruct (delBlock_spec (length txs) now (setHeader m hd) true txs its Hc) as (m' & its' & E & H & _).
    exists m'. split; [done|]. by exists its'.
Qed.

(** C18: along every sequence of pool events (transactions pushed or refused, removals,
    expiry, blocks connected and disconnected) the queue never holds two transactions
    with the same hash nor more than its capacity, the account index lists exactly
    the queued transactions of each account and at most the limit per account, the
    recent transactions are queued ones, and no event panics. *)
Theorem mempool_reachable m m' :
  pool_inv m → rtc mstep m m' →
  (∃ q its, qcache (cache m') = Some q ∧ qc_items q its ∧ NoDup ((tx_Hash ∘ Value) <$> its) ∧
     Z.of_nat (length its) <= Z.max 0 (qc_capacity q) ∧
     (∀ a, TxNumOfAccount (index (cache m')) a = length (of_account a its) ∧
           Z.of_nat (length (of_account a its)) <= maxperaccount (index (cache m'))) ∧
     last_ok (last_ (cache m')) its) ∧
  ∀ e, run_event m' e ≠ Panic.
Proof using Type.
  intros Hi Hs. assert (pool_inv m') as Hi'.
  { induction Hs as [|m1 m2 m3 [e m1' m2' E] _ IH]; [done|]. apply IH.
    destruct (run_event_inv m1' e Hi) as (m4 & E4 & H4). congruence. }
  split.
  - destruct Hi' as (its & q & H1 & H2 & H3 & H4 & H5 & H6). exists q, its. split_and!; try done.
    + by eapply qc_items_nodup.
    + intros a. split; [by apply TxNum_ok|]. by apply H4.
  - intros e. destruct (run_event_inv m' e Hi') as (m4 & E4 & _). by rewrite E4.
Qed.

(** C19: pushing a transaction adds it to the queue, the index and the recent
    transactions, or refuses it and changes nothing: with [ErrManyTx] exactly when
    its account is at the limit, [ErrTxExist] when its hash is queued, [ErrMemFull]
    when the queue is full. *)
Theorem mempool_push now m its tx :
  cache_inv (cache m) its →
  match PushTx now m tx with
  | (m', Ret _) => (tx_Hash tx ∉ (tx_Hash ∘ Value) <$> its) ∧
      ∃ its', cache_inv (cache m') its' ∧ its' ≡ₚ mkItem tx (tx_Fee tx) now :: its
  | (m', Err ErrManyTx) => m' = m ∧ Z.of_nat (length (of_account (tx_From tx) its)) = maxperaccount (index (cache m))
  | (m', Err ErrTxExist) => m' = m ∧ tx_Hash tx ∈ (tx_Hash ∘ Value) <$> its
  | (m', Err ErrMemFull) => m' = m ∧ ∃ q, qcache (cache m) = Some q ∧ qc_capacity q <= Z.of_nat (length its)
  | _ => False
  end.
Proof using Type.
  intros Hc. pose proof (cache_Push_spec now (cache m) its tx Hc) as Hp. unfold PushTx.
  destruct (cache_Push now (cache m) tx) as [c' [u|e|]]; [done| |done].
  assert (set_cache m (cache m) = m) as Em by by destruct m.
  destruct e; try done; destruct Hp as [-> Hp]; by rewrite Em.
Qed.

(** C20: connecting a block removes exactly its transactions, keeps the others in
    their order, and moves the pool's header forward; expiry removes exactly the
    expired items. *)
Theorem mempool_block m its height blockTime stateHash txs now :
  cache_inv (cache m) its →
  (∃ m', eventAddBlock m height blockTime stateHash txs = Ret m' ∧
     cache_inv (cache m') (filter (λ it, tx_Hash (Value it) ∉ tx_Hash <$> txs) its) ∧
     (mempool_Height m < height → header m' = Some {| Height := height; BlockTime := blockTime; StateHash := stateHash |}) ∧
     mempool_Height m <= mempool_Height m') ∧
  (∃ m', removeExpired now m = Ret m' ∧
     cache_inv (cache m') (filter (λ it, isExpired now it (header_height (header m)) (header_time (header m)) = false) its)).
Proof using Type.
  intros Hc. split.
  - unfold eventAddBlock, RemoveTxsOfBlock. set (b := (_ || _)).
    destruct (remove_existing_spec (tx_Hash <$> txs)
      (if b then setHeader m {| Height := height; BlockTime := blockTime; StateHash := stateHash |} else m) its) as (c & -> & H).
    { by destruct b. }
    eexists. split; [done|]. split; [done|]. destruct b eqn:Eb; unfold b in Eb.
    + split; [done|]. unfold mempool_Height at 2. simpl.
      apply orb_true_iff in Eb as [Eb%Z.ltb_lt|[E1%Z.eqb_eq E2%Z.eqb_eq]%andb_true_iff]; lia.
    + apply orb_false_iff in Eb as [Eb%Z.ltb_ge _]. split; [lia|done].
  - destruct (removeExpiredTx_spec now (cache m) its (header_height (header m)) (header_time (header m)) Hc) as (c & E & H).
    unfold removeExpired. rewrite E. eexists. split; [done|]. exact H.
Qed.

(** ** Transactions for a block *)

Lemma walk_take {V A} (P : V → bool) (f : V → A) (vs : list V) : ∀ i count acc,
  i < count →
  walk_count (λ v acc, (true, if P v then acc ++ [f v] else acc)) i count vs acc =
    acc ++ (f <$> filter (λ v, P v = true) (take (Z.to_nat (count - i)) vs)).
Proof using Type.
  induction vs as [|v vs IH]; intros i count acc Hi.
  - rewrite take_nil. simpl. by rewrite app_nil_r.
  - replace (Z.to_nat (count - i)) with (S (Z.to_nat (count - (i + 1)))) by lia. cbn [walk_count take].
    rewrite filter_cons. destruct (Z.eqb_spec (i + 1) count) as [Ei|Ei].
    + replace (Z.to_nat (count - (i + 1))) with O by lia. simpl.
      destruct (P v); simpl; [done|by rewrite app_nil_r].
    + rewrite IH by lia. destruct (P v); simpl; [by rewrite <-(assoc_L (++))|done].
Qed.

Lemma walk_count_ext {V St} (cb cb' : V → St → bool * St) i count vs s :
  (∀ v s, cb v s = cb' v s) → walk_count cb i count vs s = walk_count cb' i count vs s.
Proof using Type.
  intros He. revert i s. induction vs as [|v vs IH]; intros i s; simpl; [done|]. rewrite He.
  destruct (cb' v s) as [[] s']; [|done]. by destruct (_ =? _).
Qed.

(** Whether an item may go into the next block. *)
Definition eligible (now : Z) (m : Mempool T Q) (dup : gset string) (it : Item T) : bool :=
  negb (bool_decide (tx_Hash (Value it) ∈ dup)) &&
  negb (isExpired now it (header_height (header m)) (header_time (header m))).

(** A request for [count] transactions returns, in queue order, the ones among
    the first [count] items of the queue that are neither excluded nor expired:
    never more than [count], but skipped items use up the count, so it can return
    fewer although later items are eligible; a count of zero stands for no limit. *)
Lemma mempool_txlist now m its hashes count :
  cache_inv (cache m) its →
  (0 < count → getTxList now m count hashes =
     Value <$> filter (λ it, eligible now m (list_to_set hashes) it = true) (take (Z.to_nat count) its)) ∧
  getTxList now m 0 hashes = Value <$> filter (λ it, eligible now m (list_to_set hashes) it = true) its.
Proof using Type.
  intros (q & Eq & Hq & _). unfold getTxList, filterTxList, cache_Walk. rewrite Eq, !(qc_Walk_law q its _ _ _ Hq).
  assert (∀ (it : Item T) acc,
    (if bool_decide (tx_Hash (Value it) ∈ (list_to_set hashes : gset string)) then (true, acc)
     else if isExpired now it (header_height (header m)) (header_time (header m)) then (true, acc)
     else (true, acc ++ [Value it])) =
    (true, if eligible now m (list_to_set hashes) it then acc ++ [Value it] else acc)) as He.
  { intros it acc. unfold eligible. destruct (bool_decide _); [done|]. by destruct (isExpired _ _ _ _). }
  split.
  - intros Hc. rewrite (walk_count_ext _ _ _ _ _ _ He), walk_take by done. by rewrite Z.sub_0_r.
  - rewrite (walk_count_ext _ _ _ _ _ _ He), walk_collect by lia. done.
Qed.
End Cache.

(** ** Witnesses: a pool of two transactions per account and three in all *)

Module PoolDemo.
#[export] Instance ops : TxOps (string * string) := {|
  tx_Hash t := t.1; tx_From t := t.2; tx_To t := ""; tx_Fee _ := 1; tx_Expire _ := 0; tx_Amount _ := Ret 0;
  tx_ActionName _ := ""; tx_GroupCount _ := 0; tx_IsExpire _ _ _ := false; tx_Check _ _ _ _ := None;
  txs_Tx ts := match ts with t :: _ => t | [] => ("", "") end
|}.

Definition pool : Mempool (string * string) (SimpleQueue (string * string)) :=
  mkMempool None true {| MaxTxNumPerAccount := 2; MinTxFee := 0; MaxTxFee := 10 |}
    (SetQueueCache (newCache 2 2) (NewSimpleQueue {| PoolCacheSize := 3; ProperFee := 1 |})).

Definition push (t : string * string) (m : Mempool (string * string) (SimpleQueue (string * string))) := (PushTx 0 m t).1.
Definition pool2 := push ("h2", "bob") (push ("h1", "alice") pool).
End PoolDemo.
Import PoolDemo.

Lemma pool_empty_inv : cache_inv (cache pool) [].
Proof.
  exists (NewSimpleQueue {| PoolCacheSize := 3; ProperFee := 1 |}). split; [done|]. split; [exact New_pairs|].
  split; [done|]. split; [intros a; split; [done|]; done|]. split; [done|].
  exists []. split; [exact New_pairs|]. split; [set_solver|done].
Qed.

Lemma pool2_inv : ∃ its, cache_inv (cache pool2) its ∧ Value <$> its ≡ₚ [("h2", "bob"); ("h1", "alice")].
Proof.
  pose proof (cache_Push_spec 0 (cache pool) [] ("h1", "alice") pool_empty_inv) as H1.
  destruct (cache_Push 0 (cache pool) ("h1", "alice")) as [c1 r1] eqn:E1.
  assert (r1 = Ret tt) as -> by (vm_compute in E1; by injection E1). destruct H1 as (_ & its1 & I1 & P1).
  pose proof (cache_Push_spec 0 c1 its1 ("h2", "bob") I1) as H2.
  destruct (cache_Push 0 c1 ("h2", "bob")) as [c2 r2] eqn:E2.
  assert (r2 = Ret tt) as -> by (vm_compute in E1; injection E1 as <-; vm_compute in E2; by injection E2).
  destruct H2 as (_ & its2 & I2 & P2).
  assert (cache pool2 = c2) as ->.
  { unfold pool2, push, PushTx. rewrite E1. simpl. by rewrite E2. }
  exists its2. split; [done|]. by rewrite P2, P1.
Qed.

Lemma mempool_reachable_witness :
  let m := push ("h1", "alice") pool in
  (∃ q its, qcache (cache m) = Some q ∧ qc_items q its ∧ NoDup ((tx_Hash ∘ Value) <$> its) ∧
     Z.of_nat (length its) <= Z.max 0 (qc_capacity q)) ∧
  ∀ e, run_event m e ≠ Panic.
Proof.
  destruct (mempool_reachable pool (push ("h1", "alice") pool)) as [(q & its & H1 & H2 & H3 & H4 & _) He].
  - exists []. exact pool_empty_inv.
  - apply rtc_once. apply (mstep_event (EvPush 0 ("h1", "alice"))). vm_compute. reflexivity.
  - split; [by exists q, its|exact He].
Defined.

Lemma mempool_push_witness :
  match PushTx 7 pool ("h1", "alice") with
  | (m', Ret _) => ∃ its', cache_inv (cache m') its' ∧ its' ≡ₚ [mkItem ("h1", "alice") 1 7]
  | _ => False
  end.
Proof.
  pose proof (mempool_push 7 pool [] ("h1", "alice") pool_empty_inv) as H.
  destruct (PushTx 7 pool ("h1", "alice")) as [m' [u|e|]] eqn:E; [|exfalso; vm_compute in E; discriminate|exact H].
  destruct H as [_ H]. exact H.
Defined.

Lemma mempool_block_witness :
  ∃ its m', cache_inv (cache pool2) its ∧ eventAddBlock pool2 5 100 "state" [("h1", "alice")] = Ret m' ∧
    cache_inv (cache m') (filter (λ it, tx_Hash (Value it) ∉ ["h1"]) its).
Proof.
  destruct pool2_inv as (its & H & _). exists its.
  destruct (mempool_block pool2 its 5 100 "state" [("h1", "alice")] 0 H) as [(m' & E & H' & _) _].
  exists m'. split; [exact H|]. split; [exact E|exact H'].
Defined.

Lemma mempool_txlist_witness :
  getTxList 0 pool2 1 ["h1"] = [] ∧ getTxList 0 pool2 0 ["h1"] = [("h2", "bob")].
Proof.
  destruct pool2_inv as (its & H & _).
  destruct (mempool_txlist 0 pool2 its ["h1"] 1 H) as [H1 H2]. rewrite H2, H1 by lia.
  rewrite <-H2, <-H1 by lia. vm_compute. split; reflexivity.
Defined.
