(* ===== verification/Difficulty.v ===== *)
(** Compact difficulty targets and block work ([common/difficulty/difficulty.go]). *)

From S2P Require Import Prelude.
Local Open Scope Z_scope.

(** ** Operations.  Big integers are [Z]; [compact] and [mantissa] are uint32. *)

Definition wrapu32 (z : Z) : Z := z mod 2 ^ 32.

Definition CompactToBig (compact : Z) : Z :=
  let mantissa := Z.land compact 8388607 in
  let isNegative := negb (Z.land compact 8388608 =? 0) in
  let exponent := Z.shiftr compact 24 in
  let bn :=
    if exponent <=? 3 then Z.shiftr mantissa (8 * (3 - exponent))
    else Z.shiftl mantissa (8 * (exponent - 3)) in
  if isNegative then - bn else bn.

(** [len(n.Bytes())]: the number of bytes of the magnitude. *)
Definition bytes_len (n : Z) : Z := if n =? 0 then 0 else Z.log2 (Z.abs n) / 8 + 1.

(** [uint32(n.Bits()[0])]: the low 32 bits of the magnitude. *)
Definition low32 (n : Z) : Z := wrapu32 (Z.abs n).

Definition BigToCompact (n : Z) : Z :=
  if n =? 0 then 0
  else
    let exponent := bytes_len n in
    let mantissa :=
      if exponent <=? 3 then wrapu32 (Z.shiftl (low32 n) (8 * (3 - exponent)))
      else low32 (Z.shiftr n (8 * (exponent - 3))) in
    let '(mantissa, exponent) :=
      if negb (Z.land mantissa 8388608 =? 0) then (Z.shiftr mantissa 8, exponent + 1)
      else (mantissa, exponent) in
    let compact := Z.lor (wrapu32 (Z.shiftl exponent 24)) mantissa in
    if n <? 0 then Z.lor compact 8388608 else compact.

Definition CalcWork (bits : Z) : Z :=
  let difficultyNum := CompactToBig bits in
  if difficultyNum <=? 0 then 0 else 2 ^ 256 / (difficultyNum + 1).

(** [HashToBig]: the number whose little-endian bytes are [buf], and the caller's slice,
    which is reversed in place. *)
Definition HashToBig (buf : list Z) : Z * list Z :=
  let buf := rev buf in (foldl (λ acc b, acc * 256 + b) 0 buf, buf).

(** ** Bit operations as arithmetic *)

Lemma land_ones23 c : 0 <= c → Z.land c 8388607 = c mod 2 ^ 23.
Proof. intros H. change 8388607 with (Z.ones 23). by rewrite Z.land_ones. Qed.

Lemma land_bit23 m : 0 <= m → (Z.land m 8388608 =? 0) = ((m / 2 ^ 23) mod 2 =? 0).
Proof.
  intros Hm. pose proof (Z.testbit_spec' m 23 ltac:(lia)) as Ht.
  assert (Z.land m 8388608 = if Z.testbit m 23 then 8388608 else 0) as ->.
  { change 8388608 with (2 ^ 23). apply Z.bits_inj'. intros i Hi. rewrite Z.land_spec, Z.pow2_bits_eqb by lia.
    destruct (Z.eqb_spec 23 i) as [<-|Hne].
    - rewrite andb_true_r. destruct (Z.testbit m 23); [by rewrite Z.pow2_bits_true|by rewrite Z.bits_0].
    - rewrite andb_false_r. destruct (Z.testbit m 23); [by rewrite Z.pow2_bits_false|by rewrite Z.bits_0]. }
  rewrite <-Ht. by destruct (Z.testbit m 23).
Qed.

Lemma pack_fields e m :
  0 <= e → 0 <= m < 2 ^ 24 →
  Z.lor (Z.shiftl e 24) m = e * 2 ^ 24 + m.
Proof.
  intros He Hm. rewrite Z.shiftl_mul_pow2 by lia. symmetry. apply Z.add_nocarry_lor.
  apply Z.bits_inj'. intros i Hi. rewrite Z.land_spec, Z.bits_0.
  destruct (decide (i < 24)) as [Hl|Hl].
  - by rewrite Z.mul_pow2_bits_low by lia.
  - destruct (decide (m = 0)) as [->|Hne]; [by rewrite Z.bits_0, andb_false_r|].
    rewrite (Z.bits_above_log2 m); [by rewrite andb_false_r|lia|].
    apply Z.lt_le_trans with 24; [|lia]. apply Z.log2_lt_pow2; lia.
Qed.

(** ** The encoding of a positive target *)

(** The exponent: the number of bytes, one more if the leading bit is set (the
    mantissa has 23 bits). *)
Definition cexp (n : Z) : Z :=
  if 2 ^ (8 * bytes_len n - 1) <=? n then bytes_len n + 1 else bytes_len n.

Definition cmant (e n : Z) : Z := if e <=? 3 then n * 2 ^ (8 * (3 - e)) else n / 2 ^ (8 * (e - 3)).

Lemma bytes_len_bounds n : 0 < n → 1 <= bytes_len n ∧ 2 ^ (8 * (bytes_len n - 1)) <= n < 2 ^ (8 * bytes_len n).
Proof.
  intros Hn. unfold bytes_len. rewrite (proj2 (Z.eqb_neq n 0)) by lia. rewrite Z.abs_eq by lia.
  pose proof (Z.log2_nonneg n). pose proof (Z.log2_spec n Hn) as [H1 H2].
  pose proof (Z.div_mod (Z.log2 n) 8 ltac:(lia)). pose proof (Z.mod_pos_bound (Z.log2 n) 8 ltac:(lia)).
  pose proof (Z.div_pos (Z.log2 n) 8 ltac:(lia) ltac:(lia)). split; [lia|]. split.
  - etrans; [|exact H1]. apply Z.pow_le_mono_r; lia.
  - eapply Z.lt_le_trans; [exact H2|]. apply Z.pow_le_mono_r; lia.
Qed.

Lemma bytes_len_unique n e : 1 <= e → 2 ^ (8 * (e - 1)) <= n < 2 ^ (8 * e) → bytes_len n = e.
Proof.
  intros He [H1 H2]. assert (0 < n) as Hn by (pose proof (Z.pow_pos_nonneg 2 (8 * (e - 1)) ltac:(lia) ltac:(lia)); lia).
  destruct (bytes_len_bounds n Hn) as (Hb & H3 & H4). set (b := bytes_len n) in *.
  destruct (Z.lt_trichotomy b e) as [H|[H|H]]; [|done|]; exfalso.
  - assert (2 ^ (8 * b) <= 2 ^ (8 * (e - 1))) by (apply Z.pow_le_mono_r; lia). lia.
  - assert (2 ^ (8 * e) <= 2 ^ (8 * (b - 1))) by (apply Z.pow_le_mono_r; lia). lia.
Qed.

(** The 24-bit mantissa before normalisation. *)
Lemma raw_mantissa n :
  0 < n →
  (if bytes_len n <=? 3 then wrapu32 (Z.shiftl (low32 n) (8 * (3 - bytes_len n)))
   else low32 (Z.shiftr n (8 * (bytes_len n - 3)))) = cmant (bytes_len n) n ∧
  2 ^ 16 <= cmant (bytes_len n) n < 2 ^ 24.
Proof.
  intros Hn. destruct (bytes_len_bounds n Hn) as (Hb & H1 & H2). set (e := bytes_len n) in *. unfold cmant.
  destruct (Z.leb_spec e 3) as [He|He].
  - assert (2 ^ (8 * e) * 2 ^ (8 * (3 - e)) = 2 ^ 24) as P1.
    { rewrite <-Z.pow_add_r by lia. f_equal. lia. }
    assert (2 ^ (8 * (e - 1)) * 2 ^ (8 * (3 - e)) = 2 ^ 16) as P2.
    { rewrite <-Z.pow_add_r by lia. f_equal. lia. }
    pose proof (Z.pow_pos_nonneg 2 (8 * (3 - e)) ltac:(lia) ltac:(lia)) as Hp.
    assert (2 ^ 16 <= n * 2 ^ (8 * (3 - e)) < 2 ^ 24) as Hm by nia.
    split; [|done]. assert (2 ^ (8 * e) <= 2 ^ 24) by (apply Z.pow_le_mono_r; lia).
    unfold low32, wrapu32. rewrite Z.abs_eq by lia. rewrite (Z.mod_small n) by lia.
    rewrite Z.shiftl_mul_pow2 by lia. apply Z.mod_small. lia.
  - assert (2 ^ (8 * e) = 2 ^ (8 * (e - 3)) * 2 ^ 24) as P1.
    { rewrite <-Z.pow_add_r by lia. f_equal. lia. }
    assert (2 ^ (8 * (e - 1)) = 2 ^ (8 * (e - 3)) * 2 ^ 16) as P2.
    { rewrite <-Z.pow_add_r by lia. f_equal. lia. }
    pose proof (Z.pow_pos_nonneg 2 (8 * (e - 3)) ltac:(lia) ltac:(lia)) as Hp.
    assert (2 ^ 16 <= n / 2 ^ (8 * (e - 3)) < 2 ^ 24) as Hm.
    { split; [apply Z.div_le_lower_bound; lia|apply Z.div_lt_upper_bound; lia]. }
    split; [|done]. unfold low32, wrapu32. rewrite Z.shiftr_div_pow2, Z.abs_eq by lia. apply Z.mod_small. lia.
Qed.

Lemma lead_bit n :
  0 < n → (Z.land (cmant (bytes_len n) n) 8388608 =? 0) = negb (2 ^ (8 * bytes_len n - 1) <=? n).
Proof.
  intros Hn. destruct (raw_mantissa n Hn) as [_ Hm]. rewrite land_bit23 by lia.
  destruct (bytes_len_bounds n Hn) as (Hb & H1 & H2). set (e := bytes_len n) in *.
  assert (2 ^ 23 <= cmant e n ↔ 2 ^ (8 * e - 1) <= n) as Hiff.
  { unfold cmant. destruct (Z.leb_spec e 3) as [He|He].
    - assert (2 ^ (8 * e - 1) * 2 ^ (8 * (3 - e)) = 2 ^ 23) as P.
      { rewrite <-Z.pow_add_r by lia. f_equal. lia. }
      pose proof (Z.pow_pos_nonneg 2 (8 * (3 - e)) ltac:(lia) ltac:(lia)). nia.
    - assert (2 ^ (8 * e - 1) = 2 ^ (8 * (e - 3)) * 2 ^ 23) as P.
      { rewrite <-Z.pow_add_r by lia. f_equal. lia. }
      pose proof (Z.pow_pos_nonneg 2 (8 * (e - 3)) ltac:(lia) ltac:(lia)). rewrite P.
      rewrite (Z.mul_comm (2 ^ (8 * (e - 3)))). split; intros Hle.
      + pose proof (Z.mul_div_le n (2 ^ (8 * (e - 3))) ltac:(lia)). nia.
      + apply Z.div_le_lower_bound; lia. }
  destruct (Z.leb_spec (2 ^ (8 * e - 1)) n) as [Hl|Hl]; simpl.
  - apply Hiff in Hl. assert (cmant e n / 2 ^ 23 = 1) as ->; [|done].
    symmetry. apply (Z.div_unique _ _ 1 (cmant e n - 2 ^ 23)); lia.
  - assert (cmant e n < 2 ^ 23) by lia. by rewrite Z.div_small by lia.
Qed.

Lemma cmant_step n : 0 < n → cmant (bytes_len n) n / 2 ^ 8 = cmant (bytes_len n + 1) n.
Proof.
  intros Hn. destruct (bytes_len_bounds n Hn) as (Hb & _). set (e := bytes_len n) in *. unfold cmant.
  destruct (Z.leb_spec e 3) as [He|He], (Z.leb_spec (e + 1) 3) as [He'|He']; try lia.
  - assert (2 ^ (8 * (3 - e)) = 2 ^ (8 * (3 - (e + 1))) * 2 ^ 8) as ->.
    { rewrite <-Z.pow_add_r by lia. f_equal. lia. }
    rewrite Z.mul_assoc. by apply Z.div_mul.
  - assert (e = 3) as -> by lia. simpl (8 * (3 - 3)). rewrite Z.mul_1_r. done.
  - rewrite Z.div_div by (try apply Z.pow_nonzero; try apply Z.pow_pos_nonneg; lia). f_equal.
    rewrite <-Z.pow_add_r by lia. f_equal. lia.
Qed.

(** The encoding of a positive target of at most 253 bytes. *)
Lemma BigToCompact_pos n :
  0 < n < 2 ^ (8 * 253) →
  BigToCompact n = cexp n * 2 ^ 24 + cmant (cexp n) n ∧ 0 <= cmant (cexp n) n < 2 ^ 23 ∧ 1 <= cexp n <= 254.
Proof.
  intros [Hn Hlt]. destruct (raw_mantissa n Hn) as [Hraw Hm]. pose proof (lead_bit n Hn) as Hlead.
  destruct (bytes_len_bounds n Hn) as (Hb & H1 & H2).
  assert (bytes_len n <= 253) as Hb2.
  { apply Z.lt_succ_r. apply Z.nle_gt. intros Hc.
    assert (2 ^ (8 * 253) <= 2 ^ (8 * (bytes_len n - 1))) by (apply Z.pow_le_mono_r; lia). lia. }
  unfold BigToCompact. rewrite (proj2 (Z.eqb_neq n 0)) by lia. rewrite Hraw, Hlead.
  rewrite (proj2 (Z.ltb_ge n 0)) by lia. rewrite land_bit23 in Hlead by lia. unfold cexp.
  destruct (Z.leb_spec (2 ^ (8 * bytes_len n - 1)) n) as [Hl|Hl]; simpl negb; cbv beta iota.
  - rewrite Z.shiftr_div_pow2, cmant_step by lia.
    assert (0 <= cmant (bytes_len n + 1) n < 2 ^ 23) as Hm'.
    { rewrite <-cmant_step by lia. split; [apply Z.div_pos; lia|apply Z.div_lt_upper_bound; lia]. }
    split; [|split; [done|lia]]. unfold wrapu32. rewrite Z.mod_small.
    + apply pack_fields; lia.
    + rewrite Z.shiftl_mul_pow2 by lia. lia.
  - assert (cmant (bytes_len n) n < 2 ^ 23) as Hm'.
    { simpl in Hlead. apply Z.eqb_eq in Hlead. apply Z.nle_gt. intros Hc.
      assert (cmant (bytes_len n) n / 2 ^ 23 = 1) as E.
      { symmetry. apply (Z.div_unique _ _ 1 (cmant (bytes_len n) n - 2 ^ 23)); lia. }
      by rewrite E in Hlead. }
    split; [|split; [lia|lia]]. unfold wrapu32. rewrite Z.mod_small.
    + apply pack_fields; lia.
    + rewrite Z.shiftl_mul_pow2 by lia. lia.
Qed.

Lemma CompactToBig_fields e m :
  0 <= e → 0 <= m < 2 ^ 23 →
  CompactToBig (e * 2 ^ 24 + m) = if e <=? 3 then m / 2 ^ (8 * (3 - e)) else m * 2 ^ (8 * (e - 3)).
Proof.
  intros He Hm. unfold CompactToBig. rewrite land_ones23, land_bit23 by lia.
  replace (e * 2 ^ 24 + m) with (m + (2 * e) * 2 ^ 23) by lia.
  rewrite Z_mod_plus_full, (Z.mod_small m), Z.div_add, (Z.div_small m) by lia.
  replace ((0 + 2 * e) mod 2) with 0 by (rewrite Z.add_0_l, Z.mul_comm; symmetry; apply Z_mod_mult). simpl negb.
  rewrite Z.shiftr_div_pow2 by lia. replace (m + 2 * e * 2 ^ 23) with (m + e * 2 ^ 24) by lia.
  rewrite Z.div_add, (Z.div_small m), Z.add_0_l by lia. cbv iota.
  destruct (Z.leb_spec e 3); [by rewrite Z.shiftr_div_pow2 by lia|by rewrite Z.shiftl_mul_pow2 by lia].
Qed.

(** The bits a compact target drops. *)
Definition dropped (n : Z) : Z := 8 * Z.max 0 (cexp n - 3).

Lemma decode_encode n :
  0 < n < 2 ^ (8 * 253) → CompactToBig (BigToCompact n) = n / 2 ^ dropped n * 2 ^ dropped n.
Proof.
  intros Hn. destruct (BigToCompact_pos n Hn) as (-> & Hm & He). rewrite CompactToBig_fields by lia.
  unfold dropped, cmant. destruct (Z.leb_spec (cexp n) 3) as [H|H].
  - rewrite Z.max_l by lia. rewrite Z.div_mul by (apply Z.pow_nonzero; lia). simpl. by rewrite Z.div_1_r, Z.mul_1_r.
  - by rewrite Z.max_r by lia.
Qed.

(** Rounding down keeps the number of bytes and the leading bit. *)
Lemma round_down n :
  0 < n < 2 ^ (8 * 253) →
  let v := n / 2 ^ dropped n * 2 ^ dropped n in
  v <= n < v + 2 ^ dropped n ∧ 2 ^ 15 * 2 ^ Z.max 0 (dropped n) <= n * 2 ^ (if dropped n =? 0 then 15 else 0) ∧
  bytes_len v = bytes_len n ∧ cexp v = cexp n.
Proof.
  intros Hn v. pose proof Hn as [Hn0 _]. destruct (bytes_len_bounds n Hn0) as (Hb & H1 & H2).
  assert (0 <= dropped n) as Hd by (unfold dropped; lia).
  pose proof (Z.pow_pos_nonneg 2 (dropped n) ltac:(lia) Hd) as Hp.
  assert (v <= n < v + 2 ^ dropped n) as Hv.
  { unfold v. pose proof (Z.div_mod n (2 ^ dropped n) ltac:(lia)).
    pose proof (Z.mod_pos_bound n (2 ^ dropped n) Hp). lia. }
  assert (∀ k, 0 <= k → dropped n <= k → 2 ^ k <= n → 2 ^ k <= v) as Hmono.
  { intros k Hk Hdk Hkn. unfold v. replace (2 ^ k) with (2 ^ (k - dropped n) * 2 ^ dropped n).
    - apply Z.mul_le_mono_nonneg_r; [lia|]. apply Z.div_le_lower_bound; [lia|].
      rewrite <-Z.pow_add_r by lia. by replace (dropped n + (k - dropped n)) with k by lia.
    - rewrite <-Z.pow_add_r by lia. f_equal. lia. }
  assert (cexp n = bytes_len n ∧ n < 2 ^ (8 * bytes_len n - 1) ∨
          cexp n = bytes_len n + 1 ∧ 2 ^ (8 * bytes_len n - 1) <= n) as Hce.
  { unfold cexp. destruct (Z.leb_spec (2 ^ (8 * bytes_len n - 1)) n); [by right|by left]. }
  assert (bytes_len v = bytes_len n) as Hbl.
  { destruct (decide (dropped n = 0)) as [E0|Hne].
    - unfold v. by rewrite E0, Z.div_1_r, Z.mul_1_r.
    - apply bytes_len_unique; [done|]. split; [|lia]. apply Hmono; [lia| |done]. unfold dropped in *. lia. }
  split; [done|]. split; [|split; [done|]].
  - rewrite Z.max_r by lia. destruct (Z.eqb_spec (dropped n) 0) as [E0|E0]; [rewrite E0; lia|].
    rewrite Z.mul_1_r, <-Z.pow_add_r by lia. unfold dropped in *. rewrite Z.max_r in * by lia.
    destruct Hce as [[-> Hlt]|[-> Hle]].
    + etrans; [|exact H1]. apply Z.pow_le_mono_r; lia.
    + etrans; [|exact Hle]. apply Z.pow_le_mono_r; lia.
  - unfold cexp at 1. rewrite Hbl. destruct Hce as [[E Hlt]|[E Hle]]; rewrite E.
    + destruct (Z.leb_spec (2 ^ (8 * bytes_len n - 1)) v); [lia|done].
    + destruct (Z.leb_spec (2 ^ (8 * bytes_len n - 1)) v) as [|Hlt]; [done|]. exfalso.
      apply Z.lt_nge in Hlt. apply Hlt, Hmono; [lia| |done]. unfold dropped. lia.
Qed.

(** C22: encoding a positive target (of at most 253 bytes) and decoding it gives a
    target that is never larger, smaller by less than one part in 2^15, and with the
    same encoding; targets below 2^23 are exact. *)
Theorem difficulty_roundtrip n :
  0 < n < 2 ^ (8 * 253) →
  let v := CompactToBig (BigToCompact n) in
  v <= n ∧ 2 ^ 15 * (n - v) < n ∧ BigToCompact v = BigToCompact n ∧ (n < 2 ^ 23 → v = n).
Proof.
  intros Hn v. unfold v. rewrite (decode_encode n Hn).
  destruct (round_down n Hn) as (Hv & Hd & Hbl & Hce). cbv zeta in *.
  set (w := n / 2 ^ dropped n * 2 ^ dropped n) in *.
  assert (0 <= dropped n) as Hd0 by (unfold dropped; lia).
  assert (dropped n = 0 → w = n) as H0.
  { intros E. unfold w. by rewrite E, Z.div_1_r, Z.mul_1_r. }
  split; [lia|]. split; [|split].
  - destruct (Z.eqb_spec (dropped n) 0) as [E|E]; [rewrite (H0 E); lia|]. rewrite Z.max_r in Hd by lia. lia.
  - assert (0 < w) as Hw.
    { destruct (Z.eqb_spec (dropped n) 0) as [E|E]; [rewrite (H0 E); lia|].
      rewrite Z.max_r in Hd by lia. pose proof (Z.pow_pos_nonneg 2 (dropped n) ltac:(lia) Hd0). lia. }
    destruct (BigToCompact_pos n Hn) as (-> & _ & _).
    destruct (BigToCompact_pos w ltac:(lia)) as (-> & _ & _). rewrite Hce. f_equal.
    unfold cmant. destruct (Z.leb_spec (cexp n) 3) as [H|H].
    + rewrite H0; [done|]. unfold dropped. lia.
    + assert (8 * (cexp n - 3) = dropped n) as -> by (unfold dropped; lia). unfold w.
      rewrite Z.div_mul; [done|]. apply Z.pow_nonzero; lia.
  - intros Hlt. apply H0. unfold dropped. destruct (bytes_len_bounds n (proj1 Hn)) as (Hb & H1 & _).
    assert (cexp n <= 3); [|lia].
    assert (bytes_len n <= 3) as H3.
    { apply Z.nlt_ge. intros Hc. assert (2 ^ 24 <= 2 ^ (8 * (bytes_len n - 1))) by (apply Z.pow_le_mono_r; lia). lia. }
    unfold cexp. destruct (Z.leb_spec (2 ^ (8 * bytes_len n - 1)) n) as [Hl|Hl]; [|done].
    destruct (decide (bytes_len n = 3)) as [E|]; [|lia]. rewrite E in Hl. simpl in Hl. lia.
Qed.

Lemma difficulty_roundtrip_witness :
  CompactToBig (BigToCompact 1311768467463790320) <= 1311768467463790320 ∧
  BigToCompact (CompactToBig (BigToCompact 1311768467463790320)) = BigToCompact 1311768467463790320.
Proof.
  destruct (difficulty_roundtrip 1311768467463790320) as (H1 & _ & H2 & _); [lia|].
  split; [exact H1|exact H2].
Defined.

(** The work of a block is zero exactly for targets that are not positive or at
    least 2^256, positive otherwise, and a smaller positive target means at least as
    much work. *)
Lemma calc_work bits bits' :
  (CalcWork bits = 0 ↔ CompactToBig bits <= 0 ∨ 2 ^ 256 <= CompactToBig bits) ∧ 0 <= CalcWork bits ∧
  (0 < CompactToBig bits → CompactToBig bits <= CompactToBig bits' → CalcWork bits' <= CalcWork bits).
Proof.
  unfold CalcWork. set (t := CompactToBig bits). set (t' := CompactToBig bits').
  split; [|split].
  - destruct (Z.leb_spec t 0) as [H|H]; [split; [by left|done]|]. split.
    + intros E. right. apply Z.nlt_ge. intros Hlt. apply Z.div_small_iff in E; lia.
    + intros [Hc|Hc]; [lia|]. apply Z.div_small. lia.
  - destruct (Z.leb_spec t 0) as [H|H]; [done|]. apply Z.div_pos; lia.
  - intros H1 H2. rewrite !(proj2 (Z.leb_gt _ _)) by lia. apply Z.div_le_compat_l; lia.
Qed.

(** Negative numbers are rounded away from zero and can carry into the exponent. *)
Example BigToCompact_negative : CompactToBig (BigToCompact (-4294967295)) = 0.
Proof. reflexivity. Qed.
