(* ===== verification/Merkle.v ===== *)
(** Merkle roots of transaction hashes ([common/merkle/merkle.go]): the level-by-level
    root, and the parallel root that hashes groups of leaves separately. *)

From Stdlib Require Import Ascii String.
From S2P Require Import Prelude.
Local Open Scope Z_scope.

(** [Sha2Sum] of [common/hash.go] (double SHA-256) gives 32-byte digests. *)
Class MerkleEnv := {
  Sha2Sum : bytes → bytes;
  Sha2Sum_length : ∀ b, String.length (Sha2Sum b) = 32%nat
}.

(** [copy(dst[off:], src)]: overwrite the bytes of [dst] from [off] on. *)
Definition copy_at (off : nat) (dst src : bytes) : bytes :=
  (str_take off dst +:+ str_take (String.length dst - off) src +:+ str_drop (off + String.length src) dst)%string.

Section Merkle.
Context {ENV : MerkleEnv}.

(** A hash is nil ([None]) or bytes.  The parent hash and the new contents of the
    64-byte buffer. *)
Definition GetHashFromTwoHash (parent : bytes) (left_ right_ : option bytes) : option bytes * bytes :=
  match left_, right_ with
  | Some l, Some r =>
      let parent := copy_at 32 (copy_at 0 parent l) r in
      (Some (Sha2Sum parent), parent)
  | _, _ => (None, parent)
  end.

Definition new_cache : bytes := String.concat "" (replicate 64 (String "000" "")).

(** One pass over the hashes of a level, two at a time.  The code writes the parents over
    the front of the slice, at an index below the two it has just read, so that the pass
    reads the old hashes only. *)
Fixpoint level_pass (cache : bytes) (hashes : list (option bytes)) : list (option bytes) * bytes :=
  match hashes with
  | h1 :: h2 :: hashes =>
      let '(h, cache) := GetHashFromTwoHash cache h1 h2 in
      let '(hs, cache) := level_pass cache hashes in
      (h :: hs, cache)
  | _ => ([], cache)
  end.

(** The last hash of an odd level is repeated. *)
Definition pad_level (hashes : list (option bytes)) : list (option bytes) :=
  if Nat.odd (length hashes) then hashes ++ [last hashes None] else hashes.

Fixpoint root_loop (fuel : nat) (cache : bytes) (hashes : list (option bytes)) : option bytes :=
  match hashes with
  | [] => None
  | [h] => h
  | _ =>
      match fuel with
      | O => None
      | S fuel => let '(hs, cache) := level_pass cache (pad_level hashes) in root_loop fuel cache hs
      end
  end.

(** Every pass at least halves the level, so the number of hashes is fuel enough. *)
Definition getMerkleRoot (hashes : list (option bytes)) : option bytes :=
  root_loop (length hashes) new_cache hashes.

Fixpoint log2_loop (fuel : nat) (data level : Z) : Z :=
  match fuel with
  | O => level
  | S fuel => let data := data / 2 in if data <=? 1 then level else log2_loop fuel data (level + 1)
  end.
Definition log2 (data : Z) : Z := if data <=? 0 then 0 else log2_loop (Z.to_nat data) data 1.

Definition pow2 (d : Z) : Z := if d <=? 0 then 1 else Nat.iter (Z.to_nat d) (λ p, p * 2) 1.

Fixpoint calcLevel_loop (fuel : nat) (n level : Z) : Z :=
  match fuel with
  | O => level
  | S fuel =>
      if 1 <? n then
        let n := if Z.odd n then n + 1 else n in
        calcLevel_loop fuel (n / 2) (level + 1)
      else level
  end.
Definition calcLevel (n : Z) : Z := if n =? 1 then 1 else calcLevel_loop (Z.to_nat n) n 0.

(** Hash a root with itself [k] times. *)
Fixpoint self_hash (k : nat) (cache : bytes) (root : option bytes) : option bytes :=
  match k with
  | O => root
  | S k => let '(root, cache) := GetHashFromTwoHash cache root root in self_hash k cache root
  end.

Definition getMerkleRootPad (hashes : list (option bytes)) (step : Z) : option bytes :=
  let level1 := calcLevel (Z.of_nat (length hashes)) in
  let level2 := log2 step in
  let '(root, cache) :=
    match hashes with
    | [h] => GetHashFromTwoHash new_cache h h
    | _ => (getMerkleRoot hashes, new_cache)
    end in
  self_hash (Z.to_nat (level2 - level1)) cache root.

(** The groups of [step] leaves, the last one possibly shorter. *)
Fixpoint groups (fuel step : nat) (hashes : list (option bytes)) : list (list (option bytes)) :=
  match fuel, hashes with
  | O, _ | _, [] => []
  | S fuel, _ => take step hashes :: groups fuel step (drop step hashes)
  end.

(** The work of one goroutine.  The groups are disjoint parts of the slice and the hash
    repeated at the end of the last group lies beyond the slice, so a goroutine reads
    and overwrites its own group only. *)
Definition child_root (step : nat) (h : list (option bytes)) : option bytes :=
  if (length h =? step)%nat then getMerkleRoot h else getMerkleRootPad h (Z.of_nat step).

Definition group_step (n ncpu : Z) : Z :=
  let step := log2 (n / ncpu) in
  let step := if step <? 1 then 1 else step in
  let step := pow2 step in
  if 256 <? step then 256 else step.

(** The results arrive in the order [arrival] of their group numbers and are stored
    at their index. *)
Definition collect (l : nat) (arrival : list nat) (res : nat → option bytes) : list (option bytes) :=
  foldl (λ cl i, <[i := res i]> cl) (replicate l None) arrival.

Definition GetMerkleRoot (ncpu : Z) (arrival : list nat) (hashes : list (option bytes)) : option bytes :=
  let n := Z.of_nat (length hashes) in
  if (n <=? 80) || (ncpu <=? 1) then getMerkleRoot hashes
  else
    let step := Z.to_nat (group_step n ncpu) in
    let gs := groups (length hashes) step hashes in
    getMerkleRoot (collect (length gs) arrival (λ i, child_root step (default [] (gs !! i)))).

Definition zeroHash : bytes := String.concat "" (replicate 32 (String "000" "")).

(** [hashes]: the hashes of the transactions. *)
Definition CalcMerkleRoot (ncpu : Z) (arrival : list nat) (hashes : list (option bytes)) : outcome bytes :=
  match hashes with
  | [] => Ret zeroHash
  | _ => match GetMerkleRoot ncpu arrival hashes with Some h => Ret h | None => Panic end
  end.

(** ** Proof of a transaction *)

Fixpoint GetMerkleRootFromBranch_loop (cache : bytes) (merkleBranch : list (option bytes)) (hash : option bytes)
    (Index : Z) : option bytes :=
  match merkleBranch with
  | [] => hash
  | branch :: merkleBranch =>
      let '(hash, cache) :=
        if negb (Z.land Index 1 =? 0) then GetHashFromTwoHash cache branch hash
        else GetHashFromTwoHash cache hash branch in
      GetMerkleRootFromBranch_loop cache merkleBranch hash (Z.shiftr Index 1)
  end.
Definition GetMerkleRootFromBranch (merkleBranch : list (option bytes)) (leaf : option bytes) (Index : Z) : option bytes :=
  GetMerkleRootFromBranch_loop new_cache merkleBranch leaf Index.

(** ** The level-by-level root without the buffer *)

Definition digest (h : bytes) : Prop := String.length h = 32%nat.
Definition hash2 (l r : bytes) : bytes := Sha2Sum (l +:+ r).

Lemma hash2_digest l r : digest (hash2 l r).
Proof using Type. apply Sha2Sum_length. Qed.

(** For 32-byte hashes the old contents of the buffer do not matter. *)
Lemma two_hash cache l r :
  digest l → digest r → String.length cache = 64%nat →
  GetHashFromTwoHash cache (Some l) (Some r) = (Some (hash2 l r), (l +:+ r)%string).
Proof using Type.
  unfold digest. intros Hl Hr Hc. unfold GetHashFromTwoHash, hash2.
  assert (copy_at 32 (copy_at 0 cache l) r = (l +:+ r)%string) as ->; [|done].
  assert (copy_at 0 cache l = (l +:+ str_drop 32 cache)%string) as ->.
  { unfold copy_at. rewrite Hl, Hc, (str_take_all l) by lia. simpl. by destruct cache. }
  unfold copy_at. rewrite str_length_app, Hl, Hr, str_length_drop, Hc.
  rewrite (str_take_all r) by lia. rewrite (str_drop_all (l +:+ _)).
  - assert (32%nat = String.length l) as E by lia. rewrite E at 1. rewrite str_take_app. by rewrite str_app_nil_r.
  - rewrite str_length_app, str_length_drop. lia.
Qed.

Fixpoint next_level (hs : list bytes) : list bytes :=
  match hs with
  | [] => []
  | [a] => [hash2 a a]
  | a :: b :: hs => hash2 a b :: next_level hs
  end.

Fixpoint mroot (fuel : nat) (hs : list bytes) : option bytes :=
  match hs with
  | [] => None
  | [h] => Some h
  | _ => match fuel with O => None | S fuel => mroot fuel (next_level hs) end
  end.

Definition up (k : nat) (hs : list bytes) : list bytes := Nat.iter k next_level hs.

(** Induction two elements at a time. *)
Lemma pair_ind {A} (P : list A → Prop) :
  P [] → (∀ a, P [a]) → (∀ a b l, P l → P (a :: b :: l)) → ∀ l, P l.
Proof using Type.
  intros H0 H1 H2 l. enough (P l ∧ ∀ a, P (a :: l)) by tauto.
  induction l as [|b l [IH1 IH2]]; split; auto.
Qed.

Lemma next_level_length hs : length (next_level hs) = Nat.div2 (S (length hs)).
Proof using Type. induction hs as [| |a b l IH] using pair_ind; [done..|]. simpl in *. by rewrite IH. Qed.

Lemma next_level_digest hs : Forall digest (next_level hs).
Proof using Type. induction hs as [| |a b l IH] using pair_ind; simpl; constructor; auto using hash2_digest. Qed.

Lemma next_level_app a b : Nat.even (length a) = true → next_level (a ++ b) = next_level a ++ next_level b.
Proof using Type. induction a as [| |x y l IH] using pair_ind; simpl; intros H; try done. by rewrite IH. Qed.

Lemma level_pass_pure hs cache :
  Forall digest hs → String.length cache = 64%nat →
  ∃ cache', level_pass cache (pad_level (Some <$> hs)) = (Some <$> next_level hs, cache') ∧ String.length cache' = 64%nat.
Proof using Type.
  intros Hd. revert cache.
  assert (∀ l r : bytes, digest l → digest r → String.length (l +:+ r) = 64%nat) as H64
    by (unfold digest; intros l r Hl Hr; rewrite str_length_app; lia).
  induction hs as [|a|a b l IH] using pair_ind; intros cache Hc.
  - by exists cache.
  - apply list.Forall_cons in Hd as [Ha _]. exists (a +:+ a)%string. unfold pad_level. cbn -[GetHashFromTwoHash].
    rewrite two_hash by done. split; [done|]. by apply H64.
  - apply list.Forall_cons in Hd as [Ha Hd]. apply list.Forall_cons in Hd as [Hb Hd].
    destruct (IH Hd (a +:+ b)%string) as (c & E & Hc'); [by apply H64|]. exists c. split; [|done].
    assert (pad_level (Some <$> (a :: b :: l)) = Some a :: Some b :: pad_level (Some <$> l)) as ->.
    { unfold pad_level. cbn. destruct (Nat.odd _) eqn:Eo; [|done]. cbn. by destruct l. }
    cbn -[GetHashFromTwoHash pad_level fmap list_fmap]. rewrite two_hash by done. by rewrite E.
Qed.

Lemma root_loop_pure fuel cache hs :
  Forall digest hs → String.length cache = 64%nat → root_loop fuel cache (Some <$> hs) = mroot fuel hs.
Proof using Type.
  revert cache hs. induction fuel as [|fuel IH]; intros cache [|a [|b hs]] Hd Hc; try done.
  destruct (level_pass_pure _ cache Hd Hc) as (c & E & Hc').
  change (root_loop (S fuel) cache (Some <$> a :: b :: hs)) with
    (let '(hs, cache) := level_pass cache (pad_level (Some <$> a :: b :: hs)) in root_loop fuel cache hs).
  rewrite E. apply IH; auto using next_level_digest.
Qed.

Lemma getMerkleRoot_pure hs : Forall digest hs → getMerkleRoot (Some <$> hs) = mroot (length hs) hs.
Proof using Type. intros H. unfold getMerkleRoot. rewrite length_fmap. by apply root_loop_pure. Qed.

Lemma self_hash_pure k cache h :
  digest h → String.length cache = 64%nat → Some <$> up k [h] = [self_hash k cache (Some h)].
Proof using Type.
  intros Hh. unfold up. revert cache h Hh. induction k as [|k IH]; intros cache h Hh Hc; [done|].
  rewrite Nat.iter_succ_r. simpl next_level. cbn -[GetHashFromTwoHash fmap list_fmap Nat.iter].
  rewrite two_hash by done. rewrite <- IH; auto using hash2_digest.
  unfold digest in *. rewrite str_length_app. lia.
Qed.

(** ** Levels *)

Lemma div2_S_bound n : (2 ≤ n)%nat → (1 ≤ Nat.div2 (S n) < n)%nat.
Proof using Type. intros H. rewrite Nat.div2_div. pose proof (Nat.div_mod_eq (S n) 2). pose proof (Nat.mod_upper_bound (S n) 2). lia. Qed.

Lemma mroot_fuel hs f g : (length hs ≤ f)%nat → (length hs ≤ g)%nat → mroot f hs = mroot g hs.
Proof using Type.
  revert hs g. induction f as [|f IH]; intros [|a [|b hs]] [|g]; simpl length; intros Hf Hg; try done; try lia.
  cbn [mroot]. pose proof (div2_S_bound (length (a :: b :: hs)) ltac:(simpl; lia)) as Hn. rewrite <- next_level_length in Hn.
  apply IH; cbn [length] in *; lia.
Qed.

Definition Root (hs : list bytes) : option bytes := mroot (length hs) hs.

Lemma Root_next hs : (2 ≤ length hs)%nat → Root (next_level hs) = Root hs.
Proof using Type.
  intros H. pose proof (div2_S_bound _ H) as Hn. rewrite <- next_level_length in Hn.
  unfold Root. destruct hs as [|a [|b hs]]; simpl length in H; try lia.
  change (mroot (length (a :: b :: hs)) (a :: b :: hs)) with (mroot (S (length hs)) (next_level (a :: b :: hs))).
  apply mroot_fuel; cbn [length] in *; lia.
Qed.

Lemma up_S k hs : up (S k) hs = up k (next_level hs).
Proof using Type. unfold up. by rewrite Nat.iter_succ_r. Qed.

Lemma up_nil k : up k [] = [].
Proof using Type. induction k; [done|by rewrite up_S]. Qed.

Lemma up_add j k hs : up (j + k) hs = up j (up k hs).
Proof using Type. unfold up. apply Nat.iter_add. Qed.

Lemma up_digest k hs : Forall digest hs → Forall digest (up k hs).
Proof using Type. intros H. destruct k; [done|]. apply next_level_digest. Qed.

(** The pure length of a level: [⌈n / 2⌉]. *)
Definition half_up (n : Z) : Z := (n + 1) / 2.

Lemma next_level_lengthZ hs : Z.of_nat (length (next_level hs)) = half_up (Z.of_nat (length hs)).
Proof using Type. rewrite next_level_length, Nat.div2_div, Nat2Z.inj_div. unfold half_up. f_equal; lia. Qed.

Lemma calcLevel_step fuel n level :
  1 < n → calcLevel_loop (S fuel) n level = calcLevel_loop fuel (half_up n) (level + 1).
Proof using Type.
  intros H. simpl. rewrite (proj2 (Z.ltb_lt 1 n)) by lia. f_equal. unfold half_up.
  destruct (Z.odd n) eqn:E; [done|].
  rewrite (Z.div2_odd n), E at 1 2. simpl Z.b2z. Z.to_euclidean_division_equations; lia.
Qed.

Lemma calcLevel_done fuel level : calcLevel_loop fuel 1 level = level.
Proof using Type. by destruct fuel. Qed.

Lemma calcLevel_acc fuel n level : calcLevel_loop fuel n level = level + calcLevel_loop fuel n 0.
Proof using Type.
  revert n level. induction fuel as [|fuel IH]; intros n level; [simpl; lia|].
  simpl. destruct (1 <? n); [|lia]. rewrite (IH _ (level + 1)), (IH _ (0 + 1)). lia.
Qed.

(** [calcLevel] is the logarithm rounded up. *)
Lemma calcLevel_bounds fuel n k :
  1 ≤ n ≤ Z.of_nat fuel → 0 ≤ k →
  0 ≤ calcLevel_loop fuel n 0 ∧ (n ≤ 2 ^ k → calcLevel_loop fuel n 0 ≤ k) ∧ (2 ^ k ≤ n → k ≤ calcLevel_loop fuel n 0).
Proof using Type.
  revert n k. induction fuel as [|fuel IH]; intros n k Hn Hk; [lia|].
  destruct (Z.eq_dec n 1) as [->|Hn1].
  { rewrite calcLevel_done. split; [lia|]. split; [lia|]. intros H.
    destruct (Z.eq_dec k 0); [lia|]. pose proof (Z.pow_gt_1 2 k). lia. }
  rewrite calcLevel_step, calcLevel_acc by lia.
  assert (1 ≤ half_up n ≤ Z.of_nat fuel) as Hh.
  { unfold half_up. Z.to_euclidean_division_equations. lia. }
  destruct (Z.eq_dec k 0) as [->|Hk0].
  { destruct (IH (half_up n) 0 Hh ltac:(lia)) as (H & _). split_and!; simpl; lia. }
  destruct (IH (half_up n) (k - 1) Hh ltac:(lia)) as (H1 & H2 & H3).
  assert (2 ^ k = 2 * 2 ^ (k - 1)) as E by (rewrite <- Z.pow_succ_r by lia; f_equal; lia).
  split_and!; [lia| |]; intros H.
  - enough (half_up n ≤ 2 ^ (k - 1)) by lia. unfold half_up. Z.to_euclidean_division_equations. lia.
  - enough (2 ^ (k - 1) ≤ half_up n) by lia. unfold half_up. Z.to_euclidean_division_equations. lia.
Qed.

(** The root is the only hash of the level [calcLevel_loop] counts up to. *)
Lemma root_level fuel hs :
  (1 ≤ length hs ≤ fuel)%nat →
  ∃ h, Root hs = Some h ∧ up (Z.to_nat (calcLevel_loop fuel (Z.of_nat (length hs)) 0)) hs = [h].
Proof using Type.
  revert hs. induction fuel as [|fuel IH]; intros hs H; [lia|].
  destruct (decide (length hs = 1%nat)) as [E|Hne].
  { rewrite E, calcLevel_done. destruct hs as [|h [|]]; simplify_eq/=. by exists h. }
  pose proof (div2_S_bound (length hs) ltac:(lia)) as Hn. rewrite <- next_level_length in Hn.
  rewrite calcLevel_step, calcLevel_acc, <- next_level_lengthZ by lia.
  destruct (IH (next_level hs)) as (h & E1 & E2); [lia|]. exists h.
  rewrite Root_next in E1 by lia. split; [done|].
  pose proof (calcLevel_bounds fuel (Z.of_nat (length (next_level hs))) 0 ltac:(lia) ltac:(lia)) as (Hp & _).
  rewrite Z2Nat.inj_add by lia. change (Z.to_nat (0 + 1)) with 1%nat. by rewrite up_S.
Qed.

(** ** Groups *)

(** Inside a group of [2 ^ k] leaves, or a shorter one that is padded, the goroutine
    computes the hash at level [k]. *)
Lemma log2_loop_spec fuel data level :
  2 ≤ data ≤ Z.of_nat fuel → log2_loop fuel data level = level - 1 + Z.log2 data.
Proof using Type.
  revert data level. induction fuel as [|fuel IH]; intros data level H; [lia|]. simpl.
  assert (Z.log2 data = Z.log2 (data / 2) + 1) as E.
  { pose proof (Z.log2_shiftr data 1 ltac:(lia)) as E. rewrite Z.shiftr_div_pow2 in E by lia.
    change (2 ^ 1) with 2 in E. pose proof (Z.log2_pos data ltac:(lia)). lia. }
  destruct (data / 2 <=? 1) eqn:El.
  - assert (data / 2 = 1) as E1 by (Z.to_euclidean_division_equations; lia). rewrite E, E1. change (Z.log2 1) with 0. lia.
  - rewrite IH by (Z.to_euclidean_division_equations; lia). lia.
Qed.

Lemma log2_spec data : 2 ≤ data → log2 data = Z.log2 data.
Proof using Type.
  intros H. unfold log2. destruct (data <=? 0) eqn:E; [lia|]. rewrite log2_loop_spec by lia. lia.
Qed.

Lemma pow2_spec d : 0 ≤ d → pow2 d = 2 ^ d.
Proof using Type.
  intros H. unfold pow2. destruct (d <=? 0) eqn:E; [by replace d with 0 by lia|].
  rewrite <- (Z2Nat.id d) at 2 by lia. clear. induction (Z.to_nat d) as [|n IH]; [done|].
  rewrite Nat2Z.inj_succ, Z.pow_succ_r by lia. simpl. rewrite IH. lia.
Qed.

(** The group size is a power of two below the number of hashes. *)
Lemma group_step_spec n ncpu :
  80 < n → 1 < ncpu → ∃ k : nat, (1 ≤ k)%nat ∧ group_step n ncpu = 2 ^ Z.of_nat k ∧ 2 ^ Z.of_nat k < n.
Proof using Type.
  intros Hn Hc. unfold group_step. set (d := n / ncpu).
  assert (0 ≤ d ≤ n / 2) as Hd.
  { split; [apply Z.div_pos; lia|]. unfold d. apply Z.div_le_compat_l; lia. }
  assert (n / 2 < n) by (apply Z.div_lt; lia).
  assert (∃ s, 1 ≤ s ∧ (if log2 d <? 1 then 1 else log2 d) = s ∧ 2 ^ s < n) as (s & Hs & -> & Hlt).
  { destruct (decide (2 ≤ d)) as [H2|H2].
    - rewrite log2_spec by done. pose proof (Z.log2_pos d ltac:(lia)). pose proof (Z.log2_spec d ltac:(lia)).
      exists (Z.log2 d). destruct (_ <? 1) eqn:E; [lia|]. split_and!; lia.
    - exists 1. split; [lia|]. split; [|lia]. assert (d = 0 ∨ d = 1) as [-> | ->] by lia; done. }
  rewrite pow2_spec by lia. destruct (256 <? 2 ^ s) eqn:E.
  - exists 8%nat. split; [lia|]. split; [done|]. change (2 ^ Z.of_nat 8) with 256. lia.
  - exists (Z.to_nat s). rewrite Z2Nat.id by lia. split_and!; [lia|done|lia].
Qed.

Lemma calcLevel_loop_level n : 2 ≤ n → calcLevel n = calcLevel_loop (Z.to_nat n) n 0.
Proof using Type. intros H. unfold calcLevel. by destruct (Z.eqb_spec n 1); [lia|]. Qed.

Lemma new_cache_length : String.length new_cache = 64%nat.
Proof using Type. reflexivity. Qed.

Lemma child_root_up (k : nat) hs :
  (1 ≤ k)%nat → Forall digest hs → (1 ≤ length hs ≤ 2 ^ k)%nat → [child_root (2 ^ k) (Some <$> hs)] = Some <$> up k hs.
Proof using Type.
  intros Hk Hd Hl. set (m := Z.of_nat (length hs)).
  assert (Z.of_nat (2 ^ k) = 2 ^ Z.of_nat k) as Hp by (by rewrite Nat2Z.inj_pow).
  destruct (root_level (length hs) hs) as (h & Hr & Hu); [lia|]. fold m in Hu.
  destruct (calcLevel_bounds (length hs) m (Z.of_nat k)) as (H0 & Hup & Hlow); [lia..|].
  assert (getMerkleRoot (Some <$> hs) = Some h) as Hg by (by rewrite getMerkleRoot_pure).
  set (c := calcLevel_loop (length hs) m 0) in *.
  unfold child_root. rewrite length_fmap. destruct (Nat.eqb_spec (length hs) (2 ^ k)) as [E|Hne].
  { assert (Z.to_nat c = k) as <- by lia. by rewrite Hu, Hg. }
  unfold getMerkleRootPad. rewrite length_fmap. fold m. rewrite Hp.
  assert (2 ≤ 2 ^ Z.of_nat k) as Hk2 by (change 2 with (2 ^ 1) at 1; apply Z.pow_le_mono_r; lia).
  rewrite log2_spec, Z.log2_pow2 by lia.
  destruct hs as [|a [|b hs]]; [simpl in Hl; lia| |].
  - apply list.Forall_cons in Hd as [Ha _]. cbn [fmap list_fmap]. rewrite two_hash by (done || apply new_cache_length).
    rewrite <- self_hash_pure; [|apply hash2_digest|unfold digest in Ha; rewrite str_length_app; lia].
    destruct k as [|k]; [lia|]. rewrite up_S. simpl next_level. change (calcLevel m) with 1.
    by replace (Z.to_nat (Z.of_nat (S k) - 1)) with k by lia.
  - rewrite calcLevel_loop_level by (unfold m; simpl; lia).
    replace (Z.to_nat m) with (length (a :: b :: hs)) by lia. fold c.
    assert (digest h) as Hh. { pose proof (up_digest (Z.to_nat c) _ Hd) as Hf. rewrite Hu in Hf. by apply list.Forall_cons in Hf as [? _]. }
    cbn [fmap list_fmap] in *. rewrite Hg, <- self_hash_pure, <- Hu, <- up_add; [|done|apply new_cache_length].
    do 2 f_equal. lia.
Qed.

Lemma up_app k a b m : length a = (m * 2 ^ k)%nat → up k (a ++ b) = up k a ++ up k b.
Proof using Type.
  revert a b. induction k as [|k IH]; intros a b H; [done|]. rewrite !up_S, next_level_app.
  - apply IH. apply Nat2Z.inj. rewrite next_level_lengthZ, H. unfold half_up.
    rewrite Nat.pow_succ_r'. Z.to_euclidean_division_equations. nia.
  - rewrite H, Nat.pow_succ_r', Nat.even_mul, Nat.even_mul. by rewrite orb_true_r.
Qed.

Lemma Root_up k hs : (2 ^ k < length hs)%nat → Root (up k hs) = Root hs.
Proof using Type.
  revert hs. induction k as [|k IH]; intros hs H; [done|]. rewrite Nat.pow_succ_r' in H.
  rewrite up_S, IH.
  - apply Root_next. pose proof (Nat.pow_nonzero 2 k). lia.
  - rewrite next_level_length, Nat.div2_div. pose proof (Nat.div_mod_eq (S (length hs)) 2).
    pose proof (Nat.mod_upper_bound (S (length hs)) 2). lia.
Qed.

Lemma groups_children fuel (k : nat) hs :
  (1 ≤ k)%nat → Forall digest hs → (length hs ≤ fuel)%nat →
  child_root (2 ^ k) <$> groups fuel (2 ^ k) (Some <$> hs) = Some <$> up k hs.
Proof using Type.
  intros Hk. pose proof (Nat.pow_nonzero 2 k ltac:(lia)) as Hp. set (step := (2 ^ k)%nat) in *.
  revert hs. induction fuel as [|fuel IH]; intros hs Hd Hl.
  all: destruct (decide (hs = [])) as [->|Hne].
  1,3: by rewrite up_nil.
  1: destruct hs; simpl in Hl; [done|lia].
  assert (1 ≤ length hs)%nat as H1 by (destruct hs; simpl; [done|lia]).
  assert (groups (S fuel) step (Some <$> hs) =
          (Some <$> take step hs) :: groups fuel step (Some <$> drop step hs)) as ->.
  { rewrite fmap_take, fmap_drop. by destruct hs. }
  rewrite fmap_cons, IH; [|by apply Forall_drop|rewrite length_drop; lia].
  transitivity ([child_root step (Some <$> take step hs)] ++ (Some <$> up k (drop step hs))); [done|].
  unfold step. rewrite child_root_up; [|done|by apply Forall_take|rewrite length_take; fold step; lia].
  rewrite <- fmap_app. f_equal. destruct (decide (length hs ≤ step)%nat) as [Hs|Hs].
  - rewrite drop_ge, take_ge by done. rewrite up_nil.
    apply app_nil_r.
  - rewrite <- (up_app k _ _ 1), take_drop; [done|]. rewrite length_take. fold step. lia.
Qed.

Lemma collect_spec arrival l res :
  arrival ≡ₚ seq 0 l → collect l arrival res = res <$> seq 0 l.
Proof using Type.
  intros Hp. unfold collect.
  assert (∀ arr cl i, length cl = l → (i < l)%nat →
    foldl (λ cl i, <[i := res i]> cl) cl arr !! i = if decide (i ∈ arr) then Some (res i) else cl !! i) as H.
  { induction arr as [|j arr IH]; intros cl i Hl Hi; simpl; [done|]. rewrite IH by (rewrite ?length_insert; done).
    destruct (decide (i ∈ arr)); [by rewrite decide_True by set_solver|].
    destruct (decide (i = j)) as [->|Hij].
    - rewrite decide_True by set_solver. rewrite list_lookup_insert_eq by lia. done.
    - rewrite decide_False by set_solver. by rewrite list_lookup_insert_ne. }
  assert (∀ arr cl, length (foldl (λ cl i, <[i := res i]> cl) cl arr) = length cl) as Hlen.
  { induction arr as [|j arr IH]; intros cl; simpl; [done|]. by rewrite IH, length_insert. }
  apply list_eq_same_length with l; [by rewrite length_fmap, length_seq|by rewrite Hlen, length_replicate|].
  intros i x y Hi Hx Hy. rewrite H in Hx by (rewrite ?length_replicate; done).
  rewrite decide_True in Hx by (rewrite Hp; apply elem_of_seq; lia).
  rewrite list_lookup_fmap, lookup_seq_lt in Hy by done. simplify_eq/=. done.
Qed.

Lemma fmap_seq_lookup {A B} (f : list A → B) (gs : list (list A)) :
  (λ i, f (default [] (gs !! i))) <$> seq 0 (length gs) = f <$> gs.
Proof using Type.
  apply list_eq. intros i. rewrite !list_lookup_fmap. destruct (decide (i < length gs)%nat) as [Hi|Hi].
  - rewrite lookup_seq_lt by done. simpl. destruct (lookup_lt_is_Some_2 gs i Hi) as [g ->]. done.
  - rewrite lookup_seq_ge by lia. by rewrite lookup_ge_None_2 by lia.
Qed.

(** The number of groups [GetMerkleRoot] starts goroutines for. *)
Definition group_count (ncpu : Z) (hashes : list (option bytes)) : nat :=
  length (groups (length hashes) (Z.to_nat (group_step (Z.of_nat (length hashes)) ncpu)) hashes).

(** The root that is computed, however it is computed. *)
Lemma calc_root ncpu arrival hs :
  Forall digest hs →
  arrival ≡ₚ seq 0 (group_count ncpu (Some <$> hs)) →
  GetMerkleRoot ncpu arrival (Some <$> hs) = getMerkleRoot (Some <$> hs) ∧
  CalcMerkleRoot ncpu arrival (Some <$> hs) =
    Ret (match getMerkleRoot (Some <$> hs) with Some h => h | None => zeroHash end) ∧
  (hs ≠ [] → ∃ h, getMerkleRoot (Some <$> hs) = Some h ∧ digest h).
Proof using Type.
  intros Hd Ha.
  assert (GetMerkleRoot ncpu arrival (Some <$> hs) = getMerkleRoot (Some <$> hs)) as EQ.
  { unfold GetMerkleRoot. destruct (_ || _) eqn:E; [done|]. apply orb_false_iff in E as [E1 E2].
    unfold group_count in Ha. rewrite !length_fmap in *.
    destruct (group_step_spec (Z.of_nat (length hs)) ncpu) as (k & Hk & Eg & Hlt); [lia..|].
    rewrite Eg in *. replace (Z.to_nat (2 ^ Z.of_nat k)) with (2 ^ k)%nat in *
      by (rewrite <- (Nat2Z.id (2 ^ k)); f_equal; by rewrite Nat2Z.inj_pow).
    rewrite collect_spec by done. rewrite (fmap_seq_lookup (child_root (2 ^ k))), groups_children by done.
    rewrite !getMerkleRoot_pure by auto using up_digest. apply Root_up.
    apply Nat2Z.inj_lt. by rewrite Nat2Z.inj_pow. }
  assert (hs ≠ [] → ∃ h, getMerkleRoot (Some <$> hs) = Some h ∧ digest h) as HD.
  { intros Hne. destruct (root_level (length hs) hs) as (h & Hr & Hu); [destruct hs; simpl; [done|lia]|].
    exists h. rewrite getMerkleRoot_pure by done. split; [done|].
    pose proof (up_digest (Z.to_nat (calcLevel_loop (length hs) (Z.of_nat (length hs)) 0)) hs Hd) as Hf.
    rewrite Hu in Hf. by apply list.Forall_cons in Hf as [? _]. }
  split; [done|]. split; [|done]. unfold CalcMerkleRoot. rewrite EQ.
  destruct hs as [|a hs]; [done|]. destruct HD as (h & -> & _); done.
Qed.

(** C24. The parallel root equals the sequential one: for any number of processors and
    whatever order the goroutines deliver their results in, splitting the hashes into
    groups of a power of two, hashing the groups separately (the last one padded to the
    height of a full group) and hashing the results gives the root that hashing level by
    level gives; it is a 32-byte digest whenever there is a transaction, so
    [CalcMerkleRoot] does not panic. *)
Theorem merkle_parallel ncpu arrival hs :
  Forall digest hs →
  arrival ≡ₚ seq 0 (group_count ncpu (Some <$> hs)) →
  GetMerkleRoot ncpu arrival (Some <$> hs) = getMerkleRoot (Some <$> hs) ∧
  CalcMerkleRoot ncpu arrival (Some <$> hs) =
    Ret (match getMerkleRoot (Some <$> hs) with Some h => h | None => zeroHash end) ∧
  (hs ≠ [] → ∃ h, getMerkleRoot (Some <$> hs) = Some h ∧ digest h).
Proof using Type. apply calc_root. Qed.
End Merkle.

(** A digest function to evaluate the definitions with: the middle of the padded input. *)
Definition middle32 (b : bytes) : bytes := str_take 32 (str_drop 16 b +:+ zeroHash).

Lemma middle32_length b : String.length (middle32 b) = 32%nat.
Proof. unfold middle32. rewrite str_length_take, str_length_app. change (String.length zeroHash) with 32%nat. lia. Qed.

Definition middle_env : MerkleEnv := {| Sha2Sum := middle32; Sha2Sum_length := middle32_length |}.

Definition leaf_of (i : nat) : bytes := String.concat "" (replicate 32 (String (ascii_of_nat i) "")).
Definition leaves85 : list bytes := leaf_of <$> seq 1 85.

Lemma merkle_parallel_witness :
  group_count 4 (Some <$> leaves85) = 6%nat ∧
  @GetMerkleRoot middle_env 4 [5; 3; 0; 1; 4; 2]%nat (Some <$> leaves85) = @getMerkleRoot middle_env (Some <$> leaves85).
Proof.
  split; [by vm_compute|].
  apply (@merkle_parallel middle_env 4 [5; 3; 0; 1; 4; 2]%nat leaves85).
  - apply (bool_decide_eq_true_1 _). by vm_compute.
  - apply NoDup_Permutation; [apply (bool_decide_eq_true_1 _); by vm_compute|apply NoDup_seq|].
    assert (group_count 4 (Some <$> leaves85) = 6%nat) as -> by by vm_compute.
    intros i. rewrite elem_of_seq. split; [|intros H; do 6 (destruct i as [|i]; [set_solver|]); lia].
    rewrite !elem_of_cons, elem_of_nil. lia.
Defined.
