(* ===== verification/MerkleBranch.v ===== *)
(** Merkle branches ([common/merkle/merkle.go]): [Computation], which makes the root and the
    branch of one leaf in a single pass that keeps one hash per level, and the check of a
    branch.  The pass agrees with the level-by-level root of [Merkle]. *)

From Stdlib Require Import Ascii String.
From S2P Require Import Prelude Merkle.
Local Open Scope Z_scope.

Section Branch.
Context {ENV : MerkleEnv}.

(** The variables of the pass: [inner], [branch], [matchlevel], [mutated] and the buffer. *)
Record pass := mkPass { inner : list (option bytes); branch : list (option bytes); matchlevel : Z; mutated : bool; p_cache : bytes }.

Definition bit (count : Z) (level : nat) : bool := negb (Z.land count (Z.shiftl 1 (Z.of_nat level)) =? 0).
Definition wants_branch (flage : Z) : bool := negb (Z.land flage 2 =? 0).

(** [if (flage & 2) != 0 { if matchh { ... } else if matchlevel == level { ... } }]. *)
Definition extend (flage : Z) (level : nat) (sibling h : option bytes) (matchh : bool) (st : pass) : bool * list (option bytes) :=
  if wants_branch flage then
    if matchh then (true, branch st ++ [sibling])
    else if matchlevel st =? Z.of_nat level then (true, branch st ++ [h])
    else (false, branch st)
  else (matchh, branch st).

(** [for ; 0 == count & (1 << level); level++]: the hash goes up.  The first loop of this form
    ([check]) also compares the two hashes.  [inner] has 32 places. *)
Fixpoint climb (fuel : nat) (check : bool) (flage count : Z) (level : nat) (h : option bytes) (matchh : bool) (st : pass) :
    outcome (nat * option bytes * bool * pass) :=
  match fuel with
  | O => Panic
  | S fuel =>
      if bit count level then Ret (level, h, matchh, st)
      else
        match inner st !! level with
        | None => Panic
        | Some sibling =>
            let '(matchh, branch) := extend flage level sibling h matchh st in
            let mutated := mutated st || (check && String.eqb (default ""%string sibling) (default ""%string h)) in
            let '(h, cache) := GetHashFromTwoHash (p_cache st) sibling h in
            climb fuel check flage count (S level) h matchh (mkPass (inner st) branch (matchlevel st) mutated cache)
        end
  end.

(** The body of the loop over the leaves. *)
Definition take_leaf (flage branchpos : Z) (count : Z) (h : option bytes) (st : pass) : outcome pass :=
  let matchh := (count =? branchpos) && wants_branch flage in
  '(level, h, matchh, st) ← climb 64 true flage (count + 1) 0 h matchh st;
  if (level <? length (inner st))%nat then
    Ret (mkPass (<[level := h]> (inner st)) (branch st) (if (matchh : bool) then Z.of_nat level else matchlevel st) (mutated st) (p_cache st))
  else Panic.

Fixpoint take_leaves (flage branchpos : Z) (count : Z) (leaves : list (option bytes)) (st : pass) : outcome pass :=
  match leaves with
  | [] => Ret st
  | h :: leaves => st ← take_leaf flage branchpos count h st; take_leaves flage branchpos (count + 1) leaves st
  end.

(** [for level = 0; 0 == (count & (1 << level)); level++ {}]. *)
Fixpoint lowest_bit (fuel : nat) (count : Z) (level : nat) : nat :=
  match fuel with O => level | S fuel => if bit count level then level else lowest_bit fuel count (S level) end.

(** [for count != (1 << level)]: the last hash of an odd level is paired with itself. *)
Fixpoint finish (fuel : nat) (flage count : Z) (level : nat) (h : option bytes) (matchh : bool) (st : pass) : outcome (option bytes * pass) :=
  match fuel with
  | O => Panic
  | S fuel =>
      if count =? Z.shiftl 1 (Z.of_nat level) then Ret (h, st)
      else
        let branch := if wants_branch flage && matchh then branch st ++ [h] else branch st in
        let '(h, cache) := GetHashFromTwoHash (p_cache st) h h in
        let count := count + Z.shiftl 1 (Z.of_nat level) in
        '(level, h, matchh, st) ← climb 64 false flage count (S level) h matchh (mkPass (inner st) branch (matchlevel st) (mutated st) cache);
        finish fuel flage count level h matchh st
  end.

(** [Computation]: the root, whether two equal hashes were paired, and the branch. *)
Definition Computation (leaves : list (option bytes)) (flage branchpos : Z) : outcome (option bytes * bool * list (option bytes)) :=
  if (length leaves =? 0)%nat then Ret (None, false, [])
  else if (flage <? 1) || (3 <? flage) then Ret (None, false, [])
  else
    st ← take_leaves flage branchpos 0 leaves (mkPass (replicate 32 None) [] 255 false new_cache);
    let count := Z.of_nat (length leaves) in
    let level := lowest_bit 64 count 0 in
    match inner st !! level with
    | None => Panic
    | Some h =>
        '(h, st) ← finish 64 flage count level h (matchlevel st =? Z.of_nat level) st;
        Ret (h, mutated st, branch st)
    end.

Definition GetMerkleBranch (leaves : list (option bytes)) (position : Z) : outcome (list (option bytes)) :=
  '(_, _, branchs) ← Computation leaves 2 position; Ret branchs.
Definition GetMerkleRootAndBranch (leaves : list (option bytes)) (position : Z) : outcome (option bytes * list (option bytes)) :=
  '(roothash, _, branchs) ← Computation leaves 3 position; Ret (roothash, branchs).

(** ** Bits and levels *)

Lemma odd_of_nat n : Z.odd (Z.of_nat n) = Nat.odd n.
Proof using Type.
  apply eq_true_iff_eq. rewrite Z.odd_spec, Nat.odd_spec. split; intros [k Hk].
  - exists (Z.to_nat k). lia.
  - exists (Z.of_nat k). lia.
Qed.

Lemma bit_odd c l : bit (Z.of_nat c) l = Nat.odd (c / 2 ^ l).
Proof using Type.
  assert (Nat.odd (c / 2 ^ l) = Z.testbit (Z.of_nat c) (Z.of_nat l)) as ->.
  { rewrite <-odd_of_nat, Nat2Z.inj_div, Nat2Z.inj_pow, Z.testbit_odd, Z.shiftr_div_pow2 by lia. done. }
  unfold bit. assert (Z.land (Z.of_nat c) (Z.shiftl 1 (Z.of_nat l)) = if Z.testbit (Z.of_nat c) (Z.of_nat l) then 2 ^ Z.of_nat l else 0) as ->.
  { rewrite Z.shiftl_1_l. apply Z.bits_inj'. intros i Hi. rewrite Z.land_spec, Z.pow2_bits_eqb by lia.
    destruct (Z.eqb_spec (Z.of_nat l) i) as [<-|Hne].
    - destruct (Z.testbit _ (Z.of_nat l)); rewrite ?Z.pow2_bits_true, ?Z.bits_0 by lia; done.
    - rewrite andb_false_r. destruct (Z.testbit _ (Z.of_nat l)); [by rewrite Z.pow2_bits_false|by rewrite Z.bits_0]. }
  destruct (Z.testbit _ _); [|done]. pose proof (Z.pow_pos_nonneg 2 (Z.of_nat l)). destruct (Z.eqb_spec (2 ^ Z.of_nat l) 0); [lia|done].
Qed.

Lemma shiftl_nat l : Z.shiftl 1 (Z.of_nat l) = Z.of_nat (2 ^ l).
Proof using Type. rewrite Z.shiftl_1_l, Nat2Z.inj_pow. done. Qed.

(** The quotients by a power of two before and after a step, for a multiple of it. *)
Lemma div_S c l : (c / 2 ^ S l = c / 2 ^ l / 2)%nat.
Proof using Type. rewrite Nat.pow_succ_r', Nat.Div0.div_div, Nat.mul_comm. done. Qed.

Lemma div_pred c l k : (c = k * 2 ^ l → 1 ≤ k → (c - 1) / 2 ^ l = k - 1)%nat.
Proof using Type.
  intros -> Hk. pose proof (Nat.pow_nonzero 2 l ltac:(lia)). symmetry. apply (Nat.div_unique _ _ _ (2 ^ l - 1)); [lia|nia].
Qed.

Lemma div_exact' c l k : (c = k * 2 ^ l → c / 2 ^ l = k)%nat.
Proof using Type. intros ->. apply Nat.div_mul. apply Nat.pow_nonzero. lia. Qed.

(** ** The nodes of a level *)

Section Leaves.
Context (hs : list bytes).
Hypothesis Hd : Forall digest hs.
Local Abbreviation n := (length hs).

Definition node (l i : nat) : option bytes := up l hs !! i.

Lemma next_level_lookup l i : next_level l !! i =
  match l !! (2 * i)%nat, l !! (2 * i + 1)%nat with
  | Some a, Some b => Some (hash2 a b)
  | Some a, None => Some (hash2 a a)
  | None, _ => None
  end.
Proof using Type.
  clear. revert i. induction l as [|a|a b l IH] using pair_ind; intros i.
  - done.
  - destruct i as [|i]; [done|]. replace (2 * S i)%nat with (S (2 * i + 1)) by lia. done.
  - destruct i as [|i]; [done|]. replace (2 * S i)%nat with (S (S (2 * i))) by lia. replace (S (S (2 * i)) + 1)%nat with (S (S (2 * i + 1))) by lia.
    apply IH.
Qed.

Lemma node_S l i : node (S l) i =
  match node l (2 * i), node l (2 * i + 1) with
  | Some a, Some b => Some (hash2 a b)
  | Some a, None => Some (hash2 a a)
  | None, _ => None
  end.
Proof using Type. unfold node, up. simpl Nat.iter. apply next_level_lookup. Qed.

Lemma node_digest l i a : node l i = Some a → digest a.
Proof using Hd. intros H. eapply (proj1 (list.Forall_forall _ _)); [by apply (up_digest l)|]. by eapply list_elem_of_lookup_2. Qed.

(** The length of a level: the least number of groups of [2^l] that cover the leaves. *)
Lemma up_length l k : (k * 2 ^ l < n + 2 ^ l → n ≤ k * 2 ^ l → length (up l hs) = k)%nat.
Proof using Type.
  revert k. induction l as [|l IH]; intros k H1 H2; [unfold up; simpl in *; lia|].
  assert (∃ j, (j * 2 ^ l < n + 2 ^ l ∧ n ≤ j * 2 ^ l)%nat) as (j & Hj1 & Hj2).
  { exists ((n + 2 ^ l - 1) / 2 ^ l)%nat. pose proof (Nat.pow_nonzero 2 l ltac:(lia)).
    pose proof (Nat.div_mod_eq (n + 2 ^ l - 1) (2 ^ l)). pose proof (Nat.mod_upper_bound (n + 2 ^ l - 1) (2 ^ l)). nia. }
  unfold up. simpl Nat.iter. rewrite next_level_length. fold (up l hs). rewrite (IH j Hj1 Hj2), Nat.div2_div.
  rewrite Nat.pow_succ_r' in *. pose proof (Nat.pow_nonzero 2 l ltac:(lia)).
  symmetry. destruct (Nat.Even_or_Odd j) as [[x ->]|[x ->]].
  - apply (Nat.div_unique _ _ _ 1); nia.
  - apply (Nat.div_unique _ _ _ 0); nia.
Qed.

Lemma node_some l i : (i * 2 ^ l < n)%nat → is_Some (node l i).
Proof using Type.
  intros Hi. unfold node. apply lookup_lt_is_Some. pose proof (Nat.pow_nonzero 2 l ltac:(lia)) as Hp.
  rewrite (up_length l ((n + 2 ^ l - 1) / 2 ^ l)%nat).
  - apply Nat.div_le_lower_bound; [done|nia].
  - pose proof (Nat.div_mod_eq (n + 2 ^ l - 1) (2 ^ l)). pose proof (Nat.mod_upper_bound (n + 2 ^ l - 1) (2 ^ l)). nia.
  - pose proof (Nat.div_mod_eq (n + 2 ^ l - 1) (2 ^ l)). pose proof (Nat.mod_upper_bound (n + 2 ^ l - 1) (2 ^ l)). nia.
Qed.

Lemma node_none l i : (n ≤ i * 2 ^ l)%nat → node l i = None.
Proof using Type.
  intros Hi. unfold node. apply lookup_ge_None. pose proof (Nat.pow_nonzero 2 l ltac:(lia)) as Hp.
  rewrite (up_length l ((n + 2 ^ l - 1) / 2 ^ l)%nat).
  - apply Nat.lt_succ_r, Nat.Div0.div_lt_upper_bound. nia.
  - pose proof (Nat.div_mod_eq (n + 2 ^ l - 1) (2 ^ l)). pose proof (Nat.mod_upper_bound (n + 2 ^ l - 1) (2 ^ l)). nia.
  - pose proof (Nat.div_mod_eq (n + 2 ^ l - 1) (2 ^ l)). pose proof (Nat.mod_upper_bound (n + 2 ^ l - 1) (2 ^ l)). nia.
Qed.

(** ** The path of one leaf *)

Context (flage : Z) (p : nat).

(** The hash that is paired with the node above leaf [p] at level [l]. *)
Definition sib (l : nat) : option bytes :=
  let i := (p / 2 ^ l)%nat in
  match node l (if Nat.even i then i + 1 else i - 1)%nat with Some x => Some x | None => node l i end.
Definition branch_to (l : nat) : list (option bytes) := map sib (seq 0 l).

Lemma branch_to_S l : branch_to (S l) = branch_to l ++ [sib l].
Proof using Type. unfold branch_to. by rewrite seq_S, map_app. Qed.

(** The hashes kept after [r] leaves: one for each bit of [r], the node that ends there. *)
Definition inner_ok (r : nat) (st : pass) : Prop :=
  length (inner st) = 32%nat ∧ String.length (p_cache st) = 64%nat ∧
  ∀ l, (l < 32)%nat → Nat.odd (r / 2 ^ l) = true → inner st !! l = Some (node l (r / 2 ^ l - 1)).

(** Where the path of leaf [p] is after [r] leaves, not below level [l]. *)
Definition path_at (r l : nat) (st : pass) : Prop :=
  (∃ ml, (l ≤ ml)%nat ∧ matchlevel st = Z.of_nat ml ∧ Nat.odd (r / 2 ^ ml) = true ∧ (r / 2 ^ ml - 1 = p / 2 ^ ml)%nat ∧
     branch st = branch_to ml) ∧ (p < r)%nat ∨
  (r ≤ p)%nat ∧ matchlevel st = 255 ∧ branch st = [].

(** The branch is wanted, of a leaf that exists. *)
Definition tracked : Prop := wants_branch flage = true ∧ (p < n)%nat.

(** A node on its way up: the [q]-th of level [l], after [r] leaves. *)
Record climbing (r l q : nat) (h : option bytes) (matchh : bool) (st : pass) : Prop := {
  cl_pos : (1 ≤ q)%nat;
  cl_r : ((q - 1) * 2 ^ l ≤ r < q * 2 ^ l)%nat;
  cl_n : ((q - 1) * 2 ^ l < n)%nat;
  cl_h : h = node l (q - 1);
  cl_inner : inner_ok r st;
  cl_low : l = 0%nat ∨ (2 ^ (l - 1) < n)%nat;
  cl_path : tracked →
    if matchh then (q - 1 = p / 2 ^ l)%nat ∧ branch st = branch_to l else (q - 1 ≠ p / 2 ^ l)%nat ∧ path_at r l st;
  cl_none : wants_branch flage = false → branch st = []
}.

Lemma sib_right l q : (q - 1 = p / 2 ^ l)%nat → Nat.even q = true → (1 ≤ q)%nat → is_Some (node l (q - 2)) → sib l = node l (q - 2).
Proof using Type.
  intros E He Hq [x Hx]. unfold sib. rewrite <-E. replace (Nat.even (q - 1)) with false.
  - replace (q - 1 - 1)%nat with (q - 2)%nat by lia. by rewrite Hx.
  - symmetry. apply not_true_is_false. rewrite Nat.even_spec. apply Nat.even_spec in He as [y ->]. intros [z Hz]. lia.
Qed.

Lemma sib_left l q : (q - 2 = p / 2 ^ l)%nat → Nat.even q = true → (2 ≤ q)%nat → is_Some (node l (q - 1)) → sib l = node l (q - 1).
Proof using Type.
  intros E He Hq [x Hx]. unfold sib. rewrite <-E. replace (Nat.even (q - 2)) with true.
  - replace (q - 2 + 1)%nat with (q - 1)%nat by lia. by rewrite Hx.
  - symmetry. apply Nat.even_spec in He as [y ->]. apply Nat.even_spec. exists (y - 1)%nat. lia.
Qed.

(** The sibling on the left is not above [p] when the path is higher up or further on. *)
Lemma other_node r l q y :
  (q = 2 * y)%nat → ((q - 1) * 2 ^ l ≤ r < q * 2 ^ l)%nat → (q - 1 ≠ p / 2 ^ l)%nat → (y - 1 = p / 2 ^ l / 2)%nat →
  (∃ ml, (l < ml)%nat ∧ Nat.odd (r / 2 ^ ml) = true ∧ (r / 2 ^ ml - 1 = p / 2 ^ ml)%nat) ∨ (r ≤ p)%nat → False.
Proof using Type.
  intros -> Hr Hne Hp Hc. pose proof (Nat.pow_nonzero 2 l ltac:(lia)) as Hpow.
  pose proof (Nat.div_mod_eq p (2 ^ l)) as Dp. pose proof (Nat.mod_upper_bound p (2 ^ l) Hpow) as Mp. set (x := (p / 2 ^ l)%nat) in *.
  pose proof (Nat.div_mod_eq x 2). pose proof (Nat.mod_upper_bound x 2 ltac:(lia)). assert (1 ≤ y)%nat by nia.
  assert (x = 2 * y - 2)%nat as Ex by lia.
  destruct Hc as [(ml & Hml & Ho & E)|Hc]; [|nia].
  assert (r / 2 ^ l = 2 * y - 1)%nat as Er by (symmetry; apply (Nat.div_unique _ _ _ (r - (2 * y - 1) * 2 ^ l)); nia).
  assert (∀ c, c / 2 ^ ml = c / 2 ^ l / 2 / 2 ^ (ml - l - 1))%nat as Hdiv.
  { intros c. rewrite !Nat.Div0.div_div. f_equal. rewrite (Nat.mul_comm (2 ^ l)), <-Nat.pow_succ_r', <-Nat.pow_add_r. f_equal. lia. }
  rewrite !Hdiv, Er in E, Ho. rewrite Hdiv in E. fold x in E. rewrite Ex in E.
  replace ((2 * y - 1) / 2)%nat with (y - 1)%nat in * by (apply (Nat.div_unique _ _ _ 1); lia).
  replace ((2 * y - 2) / 2)%nat with (y - 1)%nat in * by (apply (Nat.div_unique _ _ _ 0); lia).
  destruct ((y - 1) / 2 ^ (ml - l - 1))%nat; [done|lia].
Qed.

(** One step of [climb]. *)
Lemma climb_step r l q h matchh st :
  climbing r l q h matchh st → Nat.even q = true → (l < 32)%nat →
  ∃ sibling matchh' branch' h' cache',
    inner st !! l = Some sibling ∧ extend flage l sibling h matchh st = (matchh', branch') ∧
    GetHashFromTwoHash (p_cache st) sibling h = (h', cache') ∧
    ∀ mu, climbing r (S l) (q / 2) h' matchh' (mkPass (inner st) branch' (matchlevel st) mu cache').
Proof using Hd.
  intros [Hq Hr Hn Hh (Hl32 & Hc & Hin) Hlow Hp Hnone] He Hl. pose proof (Nat.pow_nonzero 2 l ltac:(lia)) as Hpow.
  pose proof (proj1 (Nat.even_spec q) He) as [y Ey]. assert (q / 2 = y)%nat as -> by (subst q; rewrite Nat.mul_comm; apply Nat.div_mul; lia).
  assert (r / 2 ^ l = q - 1)%nat as Er by (symmetry; apply (Nat.div_unique _ _ _ (r - (q - 1) * 2 ^ l)); nia).
  assert (Nat.odd (q - 1) = true) as Ho by (apply Nat.odd_spec; exists (y - 1)%nat; lia).
  pose proof (Hin l Hl) as Hs. rewrite Er in Hs. specialize (Hs Ho). replace (q - 1 - 1)%nat with (q - 2)%nat in Hs by lia.
  destruct (node_some l (q - 2)) as [a Ha]; [nia|]. destruct (node_some l (q - 1)) as [b Hb]; [done|].
  assert (p / 2 ^ S l = p / 2 ^ l / 2)%nat as Ediv by apply div_S.
  exists (node l (q - 2)).
  destruct (extend flage l (node l (q - 2)) h matchh st) as [matchh' branch'] eqn:Ex. exists matchh', branch'.
  rewrite Hh, Ha, Hb. rewrite two_hash by (done || by eapply node_digest). exists (Some (hash2 a b)), (a +:+ b)%string.
  split; [by rewrite <-Ha|]. split; [done|]. split; [done|]. intros mu. split.
  - lia.
  - rewrite Nat.pow_succ_r'. nia.
  - rewrite Nat.pow_succ_r'. nia.
  - rewrite node_S. replace (2 * (y - 1))%nat with (q - 2)%nat by lia. replace (q - 2 + 1)%nat with (q - 1)%nat by lia. by rewrite Ha, Hb.
  - split; [done|]. split; [|done]. simpl. rewrite str_length_app.
    pose proof (node_digest _ _ _ Ha). pose proof (node_digest _ _ _ Hb). unfold digest in *. lia.
  - right. replace (S l - 1)%nat with l by lia. nia.
  - intros Ht. specialize (Hp Ht). destruct Ht as [Hw Hpn]. unfold extend in Ex. rewrite Hw in Ex. destruct matchh.
    + injection Ex as <- <-. destruct Hp as [Eq Eb]. cbn [branch]. split; [rewrite Ediv, <-Eq; apply (Nat.div_unique _ _ _ 1); lia|].
      rewrite branch_to_S, Eb, (sib_right l q) by (first [done|lia|by rewrite Ha]). done.
    + destruct Hp as [Eq Hpath]. destruct (Z.eqb_spec (matchlevel st) (Z.of_nat l)) as [Em|Em]; injection Ex as <- <-; cbn [branch].
      * destruct Hpath as [[(ml & Hml & Eml & Hodd & Epos & Eb) Hpr]|(_ & E255 & _)]; [|lia].
        assert (ml = l) as -> by lia. rewrite Er in Epos. replace (q - 1 - 1)%nat with (q - 2)%nat in Epos by lia.
        split; [rewrite Ediv, <-Epos; apply (Nat.div_unique _ _ _ 0); lia|].
        rewrite branch_to_S, Eb, (sib_left l q), Hh by (first [done|lia|by rewrite Hb]). done.
      * split.
        { rewrite Ediv. intros E2. apply (other_node r l q y); [lia|lia|done|done|]. destruct Hpath as [[(ml & ? & ? & ? & ? & _) _]|(? & _)].
          - left. exists ml. split; [destruct (decide (ml = l)); [subst; lia|lia]|done].
          - by right. }
        { destruct Hpath as [[(ml & Hml & Eml & Hodd & Epos & Eb) Hpr]|?]; [left|by right]. split; [|done]. exists ml.
          split; [destruct (decide (ml = l)); [subst; lia|lia]|done]. }
  - intros Hw. simpl. unfold extend in Ex. rewrite Hw in Ex. injection Ex as <- <-. by apply Hnone.
Qed.

Lemma climb_run fuel check r c : ∀ l q h matchh st,
  climbing r l q h matchh st → (c = q * 2 ^ l)%nat → Z.of_nat c < 2 ^ 32 → (32 < fuel + l)%nat →
  ∃ l' q' h' matchh' st', climb fuel check flage (Z.of_nat c) l h matchh st = Ret (l', h', matchh', st') ∧
    climbing r l' q' h' matchh' st' ∧ (c = q' * 2 ^ l')%nat ∧ Nat.odd q' = true ∧ (l ≤ l' < 32)%nat ∧
    inner st' = inner st ∧ matchlevel st' = matchlevel st.
Proof using Hd.
  induction fuel as [|fuel IH]; intros l q h matchh st H Ec Hc Hf.
  all: assert (l < 32)%nat as Hl by (destruct (Nat.lt_ge_cases l 32) as [|Hge]; [done|]; exfalso;
    pose proof (Nat.pow_le_mono_r 2 32 l ltac:(lia) Hge) as Hp; pose proof (cl_pos _ _ _ _ _ _ H);
    assert (Z.of_nat (2 ^ 32) = 2 ^ 32) by (by rewrite Nat2Z.inj_pow); nia).
  - lia.
  - cbn [climb]. rewrite bit_odd, (div_exact' c l q Ec). destruct (Nat.odd q) eqn:Eo; [by eauto 15|].
    destruct (climb_step r l q h matchh st H) as (sb & m' & b' & h' & c' & E1 & E2 & E3 & H'); [by rewrite <-Nat.negb_odd, Eo|done|].
    rewrite E1, E2, E3.
    edestruct (IH (S l) (q / 2)%nat h' m') as (l2 & q2 & h2 & m2 & st2 & E & H2 & Ec2 & Eo2 & Hl2 & Ein & Em); [apply H'| |done|lia|].
    { rewrite Ec, Nat.pow_succ_r'. pose proof (Nat.div_mod_eq q 2). assert (q mod 2 = 0)%nat; [|nia].
      apply Nat.Div0.mod_divides. assert (Nat.even q = true) as He by (by rewrite <-Nat.negb_odd, Eo). apply Nat.even_spec in He as [y ->]. by exists y. }
    rewrite E. exists l2, q2, h2, m2, st2. split_and!; try done; lia.
Qed.

Lemma div_above c l m q : (c = q * 2 ^ l)%nat → Nat.odd q = true → (l < m)%nat → (c / 2 ^ m = (c - 1) / 2 ^ m)%nat.
Proof using Type.
  intros Ec [y Ey]%Nat.odd_spec Hm. pose proof (Nat.pow_nonzero 2 l ltac:(lia)).
  assert (∀ x, x / 2 ^ m = x / 2 ^ l / 2 / 2 ^ (m - l - 1))%nat as Hdiv.
  { intros x. rewrite !Nat.Div0.div_div. f_equal. rewrite (Nat.mul_comm (2 ^ l)), <-Nat.pow_succ_r', <-Nat.pow_add_r. f_equal. lia. }
  rewrite !Hdiv. f_equal. rewrite (div_exact' c l q Ec), (div_pred c l q Ec) by lia. rewrite Ey.
  replace ((2 * y + 1) / 2)%nat with y by (apply (Nat.div_unique _ _ _ 1); lia).
  apply (Nat.div_unique _ _ _ 0); lia.
Qed.

Lemma div_below c l m q : (c = q * 2 ^ l)%nat → (m < l)%nat → Nat.odd (c / 2 ^ m) = false.
Proof using Type.
  intros Ec Hm. rewrite (div_exact' c m (q * 2 ^ (l - m))).
  - replace (l - m)%nat with (S (l - m - 1)) by lia. rewrite Nat.pow_succ_r', Nat.odd_mul, Nat.odd_mul. simpl. by rewrite andb_false_r.
  - rewrite <-Nat.mul_assoc, <-Nat.pow_add_r. by replace (l - m + m)%nat with l by lia.
Qed.

(** ** The loop over the leaves *)

Definition after (r : nat) (st : pass) : Prop :=
  inner_ok r st ∧ (tracked → path_at r 0 st) ∧ (wants_branch flage = false → branch st = []).

Lemma take_leaf_run r x st : hs !! r = Some x → Z.of_nat n <= 2 ^ 31 → after r st →
  ∃ st', take_leaf flage (Z.of_nat p) (Z.of_nat r) (Some x) st = Ret st' ∧ after (S r) st'.
Proof using Hd.
  intros Hx Hn31 (Hin & Hpath & Hnone). assert (r < n)%nat as Hr by by eapply lookup_lt_Some.
  set (m0 := (Z.of_nat r =? Z.of_nat p) && wants_branch flage).
  assert (climbing r 0 (S r) (Some x) m0 st) as H0.
  { split; try (simpl; lia).
    - unfold node. simpl. by rewrite Nat.sub_0_r.
    - done.
    - intros Ht. specialize (Hpath Ht). destruct Ht as [Hw Hp]. unfold m0. rewrite Hw, andb_true_r, Nat.div_1_r.
      destruct (Z.eqb_spec (Z.of_nat r) (Z.of_nat p)); [|split; [lia|done]]. split; [lia|].
      destruct Hpath as [[_ ?]|(_ & _ & ->)]; [lia|done].
    - done. }
  unfold take_leaf. fold m0. replace (Z.of_nat r + 1) with (Z.of_nat (S r)) by lia.
  destruct (climb_run 64 true r (S r) 0 (S r) (Some x) m0 st H0) as (l & q & h & mh & st1 & -> & [C1 C2 C3 C4 C5 C6 C7 C8] & Ec & Eo & Hl & Ei & Em);
    [simpl; lia|lia|lia|]. cbn [mbind outcome_bind]. destruct C5 as (L32 & L64 & Lin). rewrite L32.
  destruct (Nat.ltb_spec l 32); [|lia]. eexists. split; [done|]. split; [split_and!; cbn [inner p_cache]|split; cbn [branch]].
  - by rewrite length_insert.
  - done.
  - intros m Hm Hodd. destruct (Nat.lt_trichotomy m l) as [Hlt|[->|Hgt]].
    + by rewrite (div_below _ l m q Ec Hlt) in Hodd.
    + rewrite list_lookup_insert_eq by lia. by rewrite (div_exact' _ l q Ec), <-C4.
    + rewrite list_lookup_insert_ne by lia. rewrite (div_above _ l m q Ec Eo Hgt) in Hodd |- *. replace (S r - 1)%nat with r in * by lia.
      by apply Lin.
  - intros Ht. specialize (C7 Ht). destruct mh; cbn [matchlevel].
    + destruct C7 as [Eq Eb]. left. split; [exists l; split_and!; [lia|done| | |done]|].
      * by rewrite (div_exact' _ l q Ec).
      * by rewrite (div_exact' _ l q Ec).
      * rewrite Ec. pose proof (Nat.div_mod_eq p (2 ^ l)). pose proof (Nat.mod_upper_bound p (2 ^ l) (Nat.pow_nonzero 2 l ltac:(lia))). nia.
    + destruct C7 as [Eq [[(ml & Hml & Eml & Hodd & Epos & Eb) Hpr]|(Hrp & E255 & Eb)]].
      * left. split; [|lia]. exists ml. assert (ml ≠ l) as Hne.
        { intros ->. replace r with (S r - 1)%nat in Hodd by lia. rewrite (div_pred _ l q Ec C1) in Hodd.
          apply Nat.odd_spec in Eo as [y ->], Hodd as [z Hz]. lia. }
        rewrite (div_above _ l ml q Ec Eo) by lia. replace (S r - 1)%nat with r by lia. split_and!; try done; lia.
      * right. split; [|done]. destruct (decide (p = r)) as [->|]; [|lia]. exfalso. apply Eq.
        replace r with (S r - 1)%nat by lia. by rewrite (div_pred _ l q Ec C1).
  - done.
Qed.

Lemma take_leaves_run k : ∀ r st, (r + k = n)%nat → Z.of_nat n <= 2 ^ 31 → after r st →
  ∃ st', take_leaves flage (Z.of_nat p) (Z.of_nat r) (Some <$> drop r hs) st = Ret st' ∧ after n st'.
Proof using Hd.
  induction k as [|k IH]; intros r st Hk Hn H.
  - rewrite drop_ge by lia. exists st. split; [done|]. by replace n with r by lia.
  - destruct (lookup_lt_is_Some_2 hs r) as [x Hx]; [lia|]. rewrite (drop_S _ _ _ Hx). cbn [fmap list_fmap take_leaves].
    destruct (take_leaf_run r x st Hx Hn H) as (st1 & -> & H1). cbn [mbind outcome_bind].
    replace (Z.of_nat r + 1) with (Z.of_nat (S r)) by lia. apply IH; [lia|done|done].
Qed.

Lemma start_after : after 0 (mkPass (replicate 32 None) [] 255 false new_cache).
Proof using Type.
  split; [split_and!; [done|apply new_cache_length|]|split; [|done]].
  - intros l _. by rewrite Nat.Div0.div_0_l.
  - intros _. right. split; [lia|done].
Qed.

(** ** The levels above *)

(** The last node of level [l], the [q]-th, with [q] odd. *)
Record heading (l q : nat) (h : option bytes) (matchh : bool) (st : pass) : Prop := {
  hd_n : ((q - 1) * 2 ^ l < n ≤ q * 2 ^ l)%nat;
  hd_odd : Nat.odd q = true;
  hd_h : h = node l (q - 1);
  hd_inner : inner_ok n st;
  hd_low : l = 0%nat ∨ (2 ^ (l - 1) < n)%nat;
  hd_path : tracked →
    if matchh then (q - 1 = p / 2 ^ l)%nat ∧ branch st = branch_to l
    else (q - 1 ≠ p / 2 ^ l)%nat ∧
      ∃ ml, (l < ml)%nat ∧ matchlevel st = Z.of_nat ml ∧ Nat.odd (n / 2 ^ ml) = true ∧ (n / 2 ^ ml - 1 = p / 2 ^ ml)%nat ∧ branch st = branch_to ml;
  hd_none : wants_branch flage = false → branch st = []
}.

Lemma odd_pos q : Nat.odd q = true → (1 ≤ q)%nat.
Proof using Type. destruct q; [done|lia]. Qed.

Lemma finish_step l q h matchh st : heading l q h matchh st → q ≠ 1%nat →
  ∃ h' cache', GetHashFromTwoHash (p_cache st) h h = (h', cache') ∧
    climbing n (S l) ((q + 1) / 2) h' matchh
      (mkPass (inner st) (if wants_branch flage && matchh then branch st ++ [h] else branch st) (matchlevel st) (mutated st) cache').
Proof using Hd.
  intros [H1 H2 H3 (H4 & H5 & H6) H7 H8 H9] Hq. pose proof (Nat.pow_nonzero 2 l ltac:(lia)) as Hpow.
  pose proof (proj1 (Nat.odd_spec q) H2) as [y Ey]. assert ((q + 1) / 2 = y + 1)%nat as -> by (subst q; symmetry; apply (Nat.div_unique _ _ _ 0); lia).
  destruct (node_some l (q - 1)) as [a Ha]; [nia|]. rewrite H3, Ha. rewrite two_hash by (done || by eapply node_digest).
  exists (Some (hash2 a a)), (a +:+ a)%string. split; [done|].
  assert (node l q = None) as Hnq by (apply node_none; nia). split.
  - lia.
  - rewrite Nat.pow_succ_r'. nia.
  - rewrite Nat.pow_succ_r'. nia.
  - rewrite node_S. replace (2 * (y + 1 - 1))%nat with (q - 1)%nat by lia. replace (q - 1 + 1)%nat with q by lia. by rewrite Ha, Hnq.
  - split; [done|]. split; [|done]. simpl. rewrite str_length_app. pose proof (node_digest _ _ _ Ha). unfold digest in *. lia.
  - right. replace (S l - 1)%nat with l by lia. nia.
  - intros Ht. specialize (H8 Ht). destruct Ht as [Hw Hpn]. rewrite Hw. cbn [andb]. destruct matchh; cbn [branch matchlevel].
    + destruct H8 as [Eq Eb]. rewrite div_S, <-Eq. split; [apply (Nat.div_unique _ _ _ 0); lia|].
      rewrite branch_to_S, Eb. f_equal. f_equal. unfold sib. rewrite <-Eq.
      replace (Nat.even (q - 1)) with true by (symmetry; apply Nat.even_spec; exists y; lia).
      replace (q - 1 + 1)%nat with q by lia. by rewrite Hnq, Ha.
    + destruct H8 as [Eq (ml & Hml & Eml & Hodd & Epos & Eb)]. split.
      * rewrite div_S. intros E. pose proof (Nat.div_mod_eq p (2 ^ l)). set (x := (p / 2 ^ l)%nat) in *.
        pose proof (Nat.div_mod_eq x 2). pose proof (Nat.mod_upper_bound x 2 ltac:(lia)). assert (x = q) by lia. nia.
      * left. split; [|done]. exists ml. split_and!; try done; lia.
  - intros Hw. rewrite Hw. cbn [andb branch]. by apply H9.
Qed.

Lemma climbed_heading l q h matchh st : climbing n l q h matchh st → Nat.odd q = true → heading l q h matchh st.
Proof using Type.
  intros [C1 C2 C3 C4 C5 C6 C7 C8] Ho. split; try done; [lia|]. intros Ht. specialize (C7 Ht). destruct Ht as [Hw Hpn].
  destruct matchh; [done|]. destruct C7 as [Eq [[(ml & Hml & Eml & Hodd & Epos & Eb) _]|(? & _)]]; [|lia]. split; [done|]. exists ml.
  split_and!; try done. destruct (decide (ml = l)) as [->|]; [|lia]. exfalso.
  assert (n / 2 ^ l = q - 1)%nat as E by (symmetry; apply (Nat.div_unique _ _ _ (n - (q - 1) * 2 ^ l)); nia).
  rewrite E in Hodd. apply Nat.odd_spec in Ho as [y ->], Hodd as [z Hz]. lia.
Qed.

Lemma finish_run fuel : ∀ l q h matchh st, Z.of_nat n <= 2 ^ 31 → heading l q h matchh st → (l < 32)%nat → (32 < fuel + l)%nat →
  ∃ l' h' st', finish fuel flage (Z.of_nat (q * 2 ^ l)) l h matchh st = Ret (h', st') ∧ (n ≤ 2 ^ l')%nat ∧
    (l' = 0%nat ∨ (2 ^ (l' - 1) < n)%nat) ∧ h' = node l' 0 ∧ (tracked → branch st' = branch_to l') ∧ (wants_branch flage = false → branch st' = []).
Proof using Hd.
  induction fuel as [|fuel IH]; intros l q h matchh st Hn H Hl Hf; [lia|]. cbn [finish]. rewrite shiftl_nat.
  pose proof (Nat.pow_nonzero 2 l ltac:(lia)) as Hpow. pose proof (odd_pos q (hd_odd _ _ _ _ _ H)) as Hq1.
  destruct (Z.eqb_spec (Z.of_nat (q * 2 ^ l)) (Z.of_nat (2 ^ l))) as [E|E].
  - assert (q = 1%nat) as -> by nia. destruct H as [H1 H2 H3 H4 H5 H6 H7]. exists l, h, st. split_and!; try done; [lia|].
    intros Ht. specialize (H6 Ht). destruct matchh; [by destruct H6|]. destruct Ht as [_ Hpn].
    destruct H6 as [Eq (ml & Hml & _ & Hodd & _)]. rewrite Nat.div_small in Hodd; [done|].
    pose proof (Nat.pow_lt_mono_r 2 l ml ltac:(lia) Hml). lia.
  - assert (q ≠ 1%nat) as Hq by (intros ->; lia). destruct (finish_step l q h matchh st H Hq) as (h' & c' & -> & Hc).
    pose proof (hd_n _ _ _ _ _ H) as Hqn. pose proof (proj1 (Nat.odd_spec q) (hd_odd _ _ _ _ _ H)) as [y Ey].
    assert ((q + 1) / 2 = y + 1)%nat as Eh by (subst q; symmetry; apply (Nat.div_unique _ _ _ 0); lia).
    replace (Z.of_nat (q * 2 ^ l) + Z.of_nat (2 ^ l)) with (Z.of_nat ((q + 1) / 2 * 2 ^ S l)) by (rewrite Eh, Nat.pow_succ_r'; nia).
    destruct (climb_run 64 false n _ _ _ _ _ _ Hc eq_refl) as (l2 & q2 & h2 & m2 & st2 & -> & C & Ec & Eo & Hl2 & _ & _).
    { rewrite Eh, Nat.pow_succ_r'. nia. }
    { lia. }
    cbn [mbind outcome_bind]. rewrite Ec. apply IH; [done|by apply climbed_heading|lia|lia].
Qed.

Lemma lowest_bit_run fuel : ∀ l, (1 ≤ n)%nat → (∃ q, n = q * 2 ^ l)%nat → Z.of_nat n < 2 ^ 32 → (32 < fuel + l)%nat →
  ∃ q, (n = q * 2 ^ lowest_bit fuel (Z.of_nat n) l)%nat ∧ Nat.odd q = true ∧ (lowest_bit fuel (Z.of_nat n) l < 32)%nat.
Proof using Type.
  induction fuel as [|fuel IH]; intros l Hn1 [q Eq] Hn Hf.
  all: assert (l < 32)%nat as Hl by (destruct (Nat.lt_ge_cases l 32) as [|Hge]; [done|]; exfalso;
    pose proof (Nat.pow_le_mono_r 2 32 l ltac:(lia) Hge) as Hp; assert (q ≠ 0)%nat by (intros ->; lia);
    assert (Z.of_nat (2 ^ 32) = 2 ^ 32) by (by rewrite Nat2Z.inj_pow); nia).
  - lia.
  - cbn [lowest_bit]. rewrite bit_odd, (div_exact' _ l q Eq). destruct (Nat.odd q) eqn:Eo; [by exists q|].
    apply IH; [done| |done|lia]. assert (Nat.even q = true) as [y Ey]%Nat.even_spec by (by rewrite <-Nat.negb_odd, Eo).
    exists y. rewrite Nat.pow_succ_r', Eq, Ey. lia.
Qed.

(** ** Checking a branch *)

Lemma sib_some l : (p < n)%nat → ∃ x, sib l = Some x ∧ digest x.
Proof using Hd.
  intros Hp. unfold sib. destruct (node l _) as [x|] eqn:E; [exists x; split; [done|by eapply node_digest]|].
  destruct (node_some l (p / 2 ^ l)) as [y Hy]; [|exists y; split; [done|by eapply node_digest]].
  pose proof (Nat.div_mod_eq p (2 ^ l)). nia.
Qed.

Lemma branch_loop k : ∀ j cache, (p < n)%nat → String.length cache = 64%nat →
  GetMerkleRootFromBranch_loop cache (map sib (seq j k)) (node j (p / 2 ^ j)) (Z.of_nat (p / 2 ^ j)) = node (j + k) (p / 2 ^ (j + k)).
Proof using Hd.
  induction k as [|k IH]; intros j cache Hp Hc; [by rewrite Nat.add_0_r|]. cbn [seq map GetMerkleRootFromBranch_loop].
  destruct (node_some j (p / 2 ^ j)) as [a Ha]; [pose proof (Nat.div_mod_eq p (2 ^ j)); nia|].
  destruct (sib_some j Hp) as (x & Ex & Hx). pose proof (node_digest _ _ _ Ha) as Hda.
  assert (Z.shiftr (Z.of_nat (p / 2 ^ j)) 1 = Z.of_nat (p / 2 ^ S j)) as ->.
  { rewrite div_S, Z.shiftr_div_pow2 by lia. rewrite (Nat2Z.inj_div (p / 2 ^ j) 2). done. }
  assert (negb (Z.land (Z.of_nat (p / 2 ^ j)) 1 =? 0) = Nat.odd (p / 2 ^ j)) as ->.
  { pose proof (bit_odd (p / 2 ^ j) 0) as Hb. rewrite Nat.pow_0_r, Nat.div_1_r in Hb. exact Hb. }
  assert (node (S j) (p / 2 ^ S j) = Some (if Nat.odd (p / 2 ^ j) then hash2 x a else hash2 a x)) as Hnext.
  { rewrite node_S, div_S. unfold sib in Ex. set (i := (p / 2 ^ j)%nat) in *. destruct (Nat.odd i) eqn:Eo.
    - pose proof (proj1 (Nat.odd_spec i) Eo) as [y Ey]. replace (2 * (i / 2))%nat with (2 * y)%nat by (rewrite Ey; f_equal; apply (Nat.div_unique _ _ _ 1); lia).
      replace (2 * y + 1)%nat with i by lia. rewrite Ha. rewrite <-Nat.negb_odd, Eo in Ex. cbn [negb] in Ex.
      replace (i - 1)%nat with (2 * y)%nat in Ex by lia. destruct (node_some j (2 * y)) as [z Hz].
      { apply (Nat.le_lt_trans _ (i * 2 ^ j)); [nia|]. unfold i. pose proof (Nat.div_mod_eq p (2 ^ j)). nia. }
      rewrite Hz in Ex |- *. by injection Ex as ->.
    - assert (Nat.even i = true) as Ee by (by rewrite <-Nat.negb_odd, Eo). pose proof (proj1 (Nat.even_spec i) Ee) as [y Ey].
      replace (2 * (i / 2))%nat with i by (rewrite Ey; rewrite (Nat.mul_comm 2 y), Nat.div_mul by lia; lia). rewrite Ha.
      rewrite Ee in Ex. destruct (node j (i + 1)) as [z|]; [by injection Ex as ->|]. rewrite Ha in Ex. by injection Ex as ->. }
  rewrite Ex, Ha. replace (j + S k)%nat with (S j + k)%nat by lia.
  destruct (Nat.odd (p / 2 ^ j)); rewrite two_hash by done; rewrite <-Hnext; apply IH; try done; rewrite str_length_app; unfold digest in *; lia.
Qed.

Lemma up_root l x : (n ≤ 2 ^ l)%nat → l = 0%nat ∨ (2 ^ (l - 1) < n)%nat → node l 0 = Some x → Root hs = Some x.
Proof using Type.
  intros Hl Hlow Hx. unfold node in Hx.
  assert (length (up l hs) = 1)%nat as H1.
  { destruct (up l hs) as [|a t] eqn:E; [done|]. destruct (decide (t = [])) as [->|Hne]; [done|]. exfalso.
    assert (node l 1 = None) as Hn by (apply node_none; lia). unfold node in Hn. rewrite E in Hn. by destruct t. }
  destruct (up l hs) as [|a [|b t]] eqn:E; try done. injection Hx as ->. destruct Hlow as [->|Hlow].
  - unfold up in E. simpl in E. by rewrite E.
  - destruct l as [|l]; [simpl in *; unfold up in E; simpl in E; by rewrite E|]. replace (S l - 1)%nat with l in Hlow by lia.
    rewrite <-(Root_up l) by done. rewrite <-Root_next.
    + change (next_level (up l hs)) with (up (S l) hs). by rewrite E.
    + destruct (node_some l 1) as [z Hz]; [lia|]. apply lookup_lt_Some in Hz. lia.
Qed.
End Leaves.

(** The messages that are hashed in the check of a branch. *)
Fixpoint branch_messages (b : list bytes) (h : bytes) (i : Z) : list bytes :=
  match b with
  | [] => []
  | x :: b => let m := (if negb (Z.land i 1 =? 0)%Z then x +:+ h else h +:+ x)%string in m :: branch_messages b (Sha2Sum m) (Z.shiftr i 1)
  end.

Lemma app_digest_inj a b c d : digest a → digest c → (a +:+ b = c +:+ d)%string → a = c ∧ b = d.
Proof using Type.
  unfold digest. intros Ha Hc E. assert (a = c) as ->; [|split; [done|by apply str_app_inj_l in E]].
  rewrite <-(str_take_app a b), <-(str_take_app c d), Ha, Hc. by rewrite E.
Qed.

Lemma branch_sound b b' : ∀ h h' i cache cache', length b = length b' →
  Forall digest b → Forall digest b' → digest h → digest h' → String.length cache = 64%nat → String.length cache' = 64%nat →
  (∀ x y, x ∈ branch_messages b h i → y ∈ branch_messages b' h' i → Sha2Sum x = Sha2Sum y → x = y) →
  GetMerkleRootFromBranch_loop cache (Some <$> b) (Some h) i = GetMerkleRootFromBranch_loop cache' (Some <$> b') (Some h') i →
  h = h' ∧ b = b'.
Proof using Type.
  revert b'. induction b as [|x b IH]; intros [|x' b'] h h' i cache cache' Hlen Hb Hb' Hh Hh' Hc Hc' Hcol E; try done.
  { simpl in E. by injection E as ->. }
  apply list.Forall_cons in Hb as [Hx Hb], Hb' as [Hx' Hb']. cbn [fmap list_fmap GetMerkleRootFromBranch_loop branch_messages] in *.
  assert (String.length (x +:+ h) = 64%nat ∧ String.length (h +:+ x) = 64%nat ∧ String.length (x' +:+ h') = 64%nat ∧ String.length (h' +:+ x') = 64%nat) as (L1 & L2 & L3 & L4).
  { unfold digest in *. rewrite !str_length_app. lia. }
  destruct (negb (Z.land i 1 =? 0)); rewrite !two_hash in E by done; unfold hash2 in E.
  - apply IH in E as [Em ->]; try done; try apply Sha2Sum_length; [|by simplify_eq/=|set_solver].
    apply Hcol in Em; [|left..]. by apply app_digest_inj in Em as [-> ->].
  - apply IH in E as [Em ->]; try done; try apply Sha2Sum_length; [|by simplify_eq/=|set_solver].
    apply Hcol in Em; [|left..]. by apply app_digest_inj in Em as [-> ->].
Qed.

(** ** The results *)

Lemma Computation_run hs flage p : Forall digest hs → (1 ≤ length hs)%nat → Z.of_nat (length hs) <= 2 ^ 31 → 1 <= flage <= 3 →
  ∃ l mu b, Computation (Some <$> hs) flage (Z.of_nat p) = Ret (node hs l 0, mu, b) ∧
    (length hs ≤ 2 ^ l)%nat ∧ (l = 0%nat ∨ (2 ^ (l - 1) < length hs)%nat) ∧
    (tracked hs flage p → b = branch_to hs p l) ∧ (wants_branch flage = false → b = []).
Proof using Type.
  intros Hd Hn1 Hn Hf. unfold Computation. rewrite length_fmap.
  destruct (Nat.eqb_spec (length hs) 0); [lia|].
  assert ((flage <? 1) || (3 <? flage) = false) as -> by (apply orb_false_iff; split; apply Z.ltb_ge; lia).
  destruct (take_leaves_run hs Hd flage p (length hs) 0 _ eq_refl Hn (start_after hs flage p)) as (st & E & Hin & Hpath & Hnone).
  rewrite drop_0 in E. change (Z.of_nat 0) with 0 in E. rewrite E. cbn [mbind outcome_bind].
  destruct (lowest_bit_run hs 64 0) as (q & Eq & Eo & Hl); [done|exists (length hs); simpl; lia|lia|lia|].
  set (l := lowest_bit 64 (Z.of_nat (length hs)) 0) in *. destruct Hin as (H32 & H64 & Hin).
  pose proof (div_exact' _ l q Eq) as Ediv. rewrite Hin by (done || by rewrite Ediv). rewrite Ediv.
  pose proof (Nat.pow_nonzero 2 l ltac:(lia)) as Hpow. pose proof (odd_pos q Eo) as Hq.
  assert (heading hs flage p l q (node hs l (q - 1)) (matchlevel st =? Z.of_nat l) st) as H.
  { split; try done.
    - nia.
    - destruct l as [|l']; [by left|right]. replace (S l' - 1)%nat with l' by lia. rewrite Nat.pow_succ_r' in Eq. nia.
    - intros Ht. specialize (Hpath Ht). destruct Ht as [Hw Hpn]. destruct Hpath as [[(ml & Hml & Eml & Hodd & Epos & Eb) _]|(? & _)]; [|lia].
      assert (l ≤ ml)%nat as Hge by (destruct (Nat.lt_ge_cases ml l) as [Hlt|]; [by rewrite (div_below _ l ml q Eq Hlt) in Hodd|done]).
      destruct (Z.eqb_spec (matchlevel st) (Z.of_nat l)) as [Em|Em].
      + assert (ml = l) as -> by lia. by rewrite Ediv in Epos.
      + split; [|exists ml; split_and!; try done; lia]. intros E'. assert (l < ml)%nat as Hlt by lia.
        assert (∀ x, x / 2 ^ ml = x / 2 ^ l / 2 ^ (ml - l))%nat as Hdiv.
        { intros x. rewrite Nat.Div0.div_div, <-Nat.pow_add_r. do 2 f_equal. lia. }
        pose proof (div_above _ l ml q Eq Eo Hlt) as Hab. rewrite (Hdiv p), <-E' in Epos. rewrite (Hdiv (_ - 1)%nat), (div_pred _ l q Eq Hq) in Hab.
        rewrite <-Hab in Epos. pose proof (odd_pos _ Hodd). lia. }
  destruct (finish_run hs Hd flage p 64 l q _ _ st Hn H Hl ltac:(lia)) as (l' & h' & st' & Ef & H1 & H2 & -> & H4 & H5).
  rewrite <-Eq in Ef. rewrite Ef.
  cbn [mbind outcome_bind]. by exists l', (mutated st'), (branch st').
Qed.

(** C21: the pass over the leaves gives the root of the level-by-level computation and the
    branch of the leaf asked for, whatever it is asked to compute, and that branch leads from
    the leaf to the root.  Another leaf and branch of that length that lead to the root from
    the same position need a collision of the hash function on the messages of the two checks. *)
Theorem merkle_branch hs p leaf :
  Forall digest hs → Z.of_nat (length hs) <= 2 ^ 31 → hs !! p = Some leaf →
  ∃ root b, getMerkleRoot (Some <$> hs) = Some root ∧
    GetMerkleRootAndBranch (Some <$> hs) (Z.of_nat p) = Ret (Some root, Some <$> b) ∧
    GetMerkleBranch (Some <$> hs) (Z.of_nat p) = Ret (Some <$> b) ∧
    (∃ mu, Computation (Some <$> hs) 1 (Z.of_nat p) = Ret (Some root, mu, [])) ∧
    GetMerkleRootFromBranch (Some <$> b) (Some leaf) (Z.of_nat p) = Some root ∧
    ∀ b' leaf', length b' = length b → Forall digest b' → digest leaf' →
      (∀ x y, x ∈ branch_messages b' leaf' (Z.of_nat p) → y ∈ branch_messages b leaf (Z.of_nat p) → Sha2Sum x = Sha2Sum y → x = y) →
      GetMerkleRootFromBranch (Some <$> b') (Some leaf') (Z.of_nat p) = Some root → leaf' = leaf ∧ b' = b.
Proof using Type.
  intros Hd Hn Hleaf. assert (p < length hs)%nat as Hp by by eapply lookup_lt_Some.
  destruct (Computation_run hs 3 p) as (l & mu3 & b3 & E3 & Hl & Hlow & Hb3 & _); [done|lia|done|lia|].
  destruct (Computation_run hs 2 p) as (l2 & mu2 & b2 & E2 & Hl2 & Hlow2 & Hb2 & _); [done|lia|done|lia|].
  destruct (Computation_run hs 1 p) as (l1 & mu1 & b1 & E1 & Hl1 & Hlow1 & _ & Hb1); [done|lia|done|lia|].
  assert (∀ k, (length hs ≤ 2 ^ k)%nat → k = 0%nat ∨ (2 ^ (k - 1) < length hs)%nat → k = l) as Hsame.
  { intros k Hk Hklow. destruct (Nat.lt_trichotomy k l) as [Hlt|[?|Hgt]]; [|done|]; exfalso.
    - destruct Hlow as [->|Hlow]; [lia|]. pose proof (Nat.pow_le_mono_r 2 k (l - 1) ltac:(lia) ltac:(lia)). lia.
    - destruct Hklow as [->|Hklow]; [lia|]. pose proof (Nat.pow_le_mono_r 2 l (k - 1) ltac:(lia) ltac:(lia)). lia. }
  rewrite (Hsame l2 Hl2 Hlow2) in *. rewrite (Hsame l1 Hl1 Hlow1) in *. rewrite Hb3, Hb2, Hb1 in * by done.
  destruct (node_some hs l 0) as [root Hroot]; [lia|]. rewrite Hroot in *.
  assert (∃ b, branch_to hs p l = Some <$> b ∧ Forall digest b) as (b & Eb & Hdb).
  { unfold branch_to. generalize 0%nat. clear -Hd Hp. induction l as [|l IH]; intros j; [by exists []|].
    destruct (IH (S j)) as (b & Eb & Hb). destruct (sib_some hs Hd p j Hp) as (x & Ex & Hx). exists (x :: b). cbn [seq map]. by rewrite Ex, Eb; split; [|constructor]. }
  assert (GetMerkleRootFromBranch (Some <$> b) (Some leaf) (Z.of_nat p) = Some root) as Hcheck.
  { pose proof (branch_loop hs Hd p l 0 new_cache Hp new_cache_length) as Hbl. unfold branch_to in Eb. rewrite Eb in Hbl.
    simpl Nat.pow in Hbl. rewrite Nat.div_1_r in Hbl. unfold GetMerkleRootFromBranch. rewrite <-Hleaf. change (hs !! p) with (node hs 0 p).
    rewrite Hbl. simpl Nat.add. rewrite Nat.div_small by lia. done. }
  exists root, b. unfold GetMerkleRootAndBranch, GetMerkleBranch. rewrite E3, E2, Eb. cbn [mbind outcome_bind].
  split_and!; try done; [|by eauto|].
  - rewrite getMerkleRoot_pure by done. by apply (up_root hs l).
  - intros b' leaf' Hlen Hdb' Hdl Hcol E. rewrite <-Hcheck in E.
    apply (branch_sound b' b _ _ (Z.of_nat p) new_cache new_cache) in E; try done; try apply new_cache_length.
    by apply (proj1 (list.Forall_forall _ _) Hd), (list_elem_of_lookup_2 _ p).
Qed.
End Branch.

(** ** A witness *)

#[local] Existing Instance middle_env.

Lemma merkle_branch_witness :
  ∃ root b, GetMerkleRootAndBranch (Some <$> take 11 leaves85) 9 = Ret (Some root, Some <$> b) ∧ length b = 4%nat ∧
    GetMerkleRootFromBranch (Some <$> b) (Some (leaf_of 10)) 9 = Some root.
Proof.
  destruct (merkle_branch (take 11 leaves85) 9 (leaf_of 10)) as (root & b & _ & E & _ & _ & Hc & _).
  - apply list.Forall_forall. intros x Hx. assert (forallb (λ x, String.length x =? 32)%nat (take 11 leaves85) = true) as Hall by (vm_compute; reflexivity).
    rewrite forallb_forall in Hall. apply list_elem_of_In, Hall in Hx. by apply Nat.eqb_eq.
  - vm_compute. discriminate.
  - vm_compute. reflexivity.
  - exists root, b. split; [exact E|]. split; [|exact Hc].
    assert (match GetMerkleRootAndBranch (Some <$> take 11 leaves85) 9 with Ret (_, b) => length b | _ => 0%nat end = 4%nat) as H by (vm_compute; reflexivity).
    change 9 with (Z.of_nat 9) in H. rewrite E in H. by rewrite length_fmap in H.
Defined.
