(* ===== verification/Tx.v ===== *)
(** Transactions and transaction groups ([types/tx.go]): hashes, fees, expiry, the
    checks of a group, its construction and its packing into one transaction, and the
    transaction cache.

    A transaction object is a value: the transactions of a group are distinct objects,
    and a transaction is not changed after it was put in a cache.  Fields a newer
    protocol version may have added to a message are not represented. *)

From Stdlib Require Import Ascii String.
From S2P Require Import Prelude Types Fork.
Local Open Scope Z_scope.

(** [type Signature struct] and [type Transaction struct]; a bytes field that is compared
    with nil is an option. *)
Record Signature := mkSig { sig_Ty : Z; Pubkey : bytes; sig_Bytes : bytes }.
Record Transaction := mkTx {
  Execer : bytes; Payload : bytes; Sig : option Signature; Fee : Z; Expire : Z; Nonce : Z;
  To : string; GroupCount : Z; Header : option bytes; Next : option bytes
}.

Definition set_Sig (t : Transaction) s := mkTx (Execer t) (Payload t) s (Fee t) (Expire t) (Nonce t) (To t) (GroupCount t) (Header t) (Next t).
Definition set_Fee (t : Transaction) f := mkTx (Execer t) (Payload t) (Sig t) f (Expire t) (Nonce t) (To t) (GroupCount t) (Header t) (Next t).
Definition set_Expire (t : Transaction) e := mkTx (Execer t) (Payload t) (Sig t) (Fee t) e (Nonce t) (To t) (GroupCount t) (Header t) (Next t).
Definition set_GroupCount (t : Transaction) n := mkTx (Execer t) (Payload t) (Sig t) (Fee t) (Expire t) (Nonce t) (To t) n (Header t) (Next t).
Definition set_Header (t : Transaction) h := mkTx (Execer t) (Payload t) (Sig t) (Fee t) (Expire t) (Nonce t) (To t) (GroupCount t) h (Next t).
Definition set_Next (t : Transaction) n := mkTx (Execer t) (Payload t) (Sig t) (Fee t) (Expire t) (Nonce t) (To t) (GroupCount t) (Header t) n.

(** An empty bytes field is not written to a message and reads back as nil. *)
Definition nilled (b : option bytes) : option bytes := match b with Some EmptyString => None | b => b end.
Definition norm (t : Transaction) : Transaction := set_Next (set_Header t (nilled (Header t))) (nilled (Next t)).

(** The wire format and the hash function.  The size of a message depends on the length
    of a bytes field only, and a smaller fee is not longer. *)
Class TxEnv := {
  tx_Encode : Transaction → bytes;
  tx_Encode_inj : ∀ a b, tx_Encode a = tx_Encode b → norm a = norm b;
  group_Encode : list Transaction → bytes;
  group_Decode : bytes → option (list Transaction);
  group_Decode_Encode : ∀ g, group_Decode (group_Encode g) = Some (norm <$> g);
  proto_Size : Transaction → Z;
  proto_Size_nonneg : ∀ t, 0 <= proto_Size t;
  proto_Size_header : ∀ t h h', String.length h = String.length h' →
    proto_Size (set_Header t (Some h)) = proto_Size (set_Header t (Some h'));
  proto_Size_fee : ∀ t f f', 0 <= f' <= f → proto_Size (set_Fee t f') <= proto_Size (set_Fee t f);
  tx_Sha256 : bytes → bytes;
  tx_Sha256_length : ∀ b, String.length (tx_Sha256 b) = 32%nat;
  (** verification of a signature of a message by an executor's signature scheme *)
  verify_sign : bytes → string → Signature → bool
}.

(** What the functions read of the configuration: the fork table, the title and the
    option [TxHeight]. *)
Record TxConfig := { tc_forks : Forks; tc_title : string; tc_TxHeight : bool }.

Definition MaxTxSize : Z := 100000.
Definition MaxTxGroupSize : Z := 20.
Definition TxHeightFlag : Z := 2 ^ 62.
Definition HighAllowPackHeight : Z := 90.
Definition LowAllowPackHeight : Z := 30.
Definition ExpireBound : Z := 1000000000.

(** [bytes.Equal]: nil and empty are equal. *)
Definition bytes_Equal (a b : option bytes) : bool := String.eqb (default "" a) (default "" b).

(** [GetParaExecTitleName] ([types/config.go]): the executor name up to the first dot
    after the prefix; [i] is the position of [rest]. *)
Fixpoint title_loop (exec rest : string) (i : nat) : option string :=
  match rest with
  | EmptyString => None
  | String c rest => if Ascii.eqb c "." then Some (str_take (i + 1) exec) else title_loop exec rest (i + 1)
  end.
Definition GetParaExecTitleName (exec : string) : option string :=
  let n := String.length ParaKeyX in
  if IsParaExecName exec then title_loop exec (str_drop n exec) n else None.

Section Tx.
Context {ENV : TxEnv} (C : TxConfig).

Definition is_fork (height : Z) (fork : string) : outcome bool := IsFork (tc_forks C) (tc_title C) height fork.

(** ** One transaction *)

Definition clone (tx : Transaction) : Transaction :=
  mkTx (Execer tx) (Payload tx) (Sig tx) (Fee tx) (Expire tx) (Nonce tx) (To tx) (GroupCount tx) (Header tx) (Next tx).

Definition Hash (tx : Transaction) : bytes :=
  let copytx := clone tx in
  let copytx := set_Sig copytx None in
  let copytx := set_Header copytx None in
  tx_Sha256 (tx_Encode copytx).

Definition HashSign (tx : Transaction) : bytes := tx_Sha256 (tx_Encode (set_Sig tx None)).

Definition checkSign (tx : Transaction) : bool :=
  let data := tx_Encode (set_Sig tx None) in
  match Sig tx with
  | None => false
  | Some s => verify_sign data (Execer tx) s
  end.

Definition realFee (txSize minfee : Z) : Z := wrap64 ((txSize / 1000 + 1) * minfee).

Definition check (tx : Transaction) (height minfee maxFee : Z) : outcome unit :=
  let txSize := proto_Size tx in
  _ ← check_that (txSize <=? MaxTxSize) ErrTxMsgSizeTooBig;
  if minfee =? 0 then Ret tt
  else
    _ ← check_that (realFee txSize minfee <=? Fee tx) ErrTxFeeTooLow;
    if (maxFee <? Fee tx) && (0 <? maxFee) then
      b ← is_fork height "ForkBlockCheck";
      check_that (negb b) ErrTxFeeTooHigh
    else Ret tt.

Definition GetRealFee (tx : Transaction) (minFee : Z) : outcome Z :=
  let txSize := proto_Size tx in
  let txSize := match Sig tx with None => txSize + 300 | Some _ => txSize end in
  if MaxTxSize <? txSize then Err ErrTxMsgSizeTooBig else Ret (realFee txSize minFee).

Definition SetRealFee (tx : Transaction) (minFee : Z) : outcome Transaction :=
  if Fee tx =? 0 then fee ← GetRealFee tx minFee; Ret (set_Fee tx fee) else Ret tx.

(** [expire] is a duration in nanoseconds, [now] the time in seconds. *)
Definition SetExpire (now : Z) (tx : Transaction) (expire : Z) : Transaction :=
  if tc_TxHeight C && (TxHeightFlag <? expire) then set_Expire tx expire
  else if ExpireBound <? expire then
    let expire := if expire <? 120 * 1000000000 then 120 * 1000000000 else expire in
    set_Expire tx (now +₆₄ expire / 1000000000)
  else set_Expire tx expire.

Definition GetTxHeight (valid height : Z) : outcome Z :=
  b ← IsEnableFork (tc_forks C) (tc_title C) height "ForkTxHeight" (tc_TxHeight C);
  Ret (if b && (TxHeightFlag <? valid) then valid - TxHeightFlag else -1).

Definition isExpire (tx : Transaction) (height blocktime : Z) : outcome bool :=
  let valid := Expire tx in
  if valid =? 0 then Ret false
  else if valid <=? ExpireBound then Ret (valid <=? height)
  else
    txHeight ← GetTxHeight valid height;
    if 0 <? txHeight then
      Ret (negb ((txHeight -₆₄ LowAllowPackHeight <=? height) && (height <=? txHeight +₆₄ HighAllowPackHeight)))
    else Ret (valid <=? blocktime).

(** ** Groups *)

(** The transaction that carries a whole group; [None] is nil. *)
Definition group_Tx (g : list Transaction) : option Transaction :=
  if (length g <? 2)%nat then None
  else match g with headtx :: _ => Some (set_Header headtx (Some (group_Encode g))) | [] => None end.

(** The group a transaction carries, if any. *)
Definition GetTxGroup (tx : Transaction) : outcome (option (list Transaction)) :=
  if (GroupCount tx <? 0) || (GroupCount tx =? 1) || (20 <? GroupCount tx) then Err ErrTxGroupCount
  else if 0 <? GroupCount tx then
    match group_Decode (default "" (Header tx)) with
    | None => Err (ErrOther "proto: cannot parse")
    | Some txs => Ret (Some txs)
    end
  else
    match Next tx, Header tx with
    | None, None => Ret None
    | _, _ => Err ErrNomalTx
    end.

Definition group_CheckSign (g : list Transaction) : bool := forallb checkSign g.

Fixpoint group_IsExpire (g : list Transaction) (height blocktime : Z) : outcome bool :=
  match g with
  | [] => Ret false
  | tx :: g =>
      b ← isExpire tx height blocktime;
      if (b : bool) then Ret true else group_IsExpire g height blocktime
  end.

(** The first loop of [Transactions.Check]: the transactions, none of them nil ([None]),
    and the titles of their parallel chains. *)
Fixpoint check_each (height maxFee : Z) (g : list (option Transaction)) (para : gset string) :
    outcome (list Transaction * gset string) :=
  match g with
  | [] => Ret ([], para)
  | None :: _ => Err ErrTxGroupEmpty
  | Some tx :: g =>
      _ ← check tx height 0 maxFee;
      let para := match GetParaExecTitleName (Execer tx) with Some title => {[title]} ∪ para | None => para end in
      '(txs, para) ← check_each height maxFee g para;
      Ret (tx :: txs, para)
  end.

Fixpoint total_fee (minfee acc : Z) (txs : list Transaction) : outcome Z :=
  match txs with
  | [] => Ret acc
  | tx :: txs => fee ← GetRealFee tx minfee; total_fee minfee (acc +₆₄ fee) txs
  end.

(** The last loop: header, group count and next hash of each transaction. *)
Fixpoint check_links (header : option bytes) (n : Z) (first : bool) (txs : list Transaction) : outcome unit :=
  match txs with
  | [] => Ret tt
  | tx :: rest =>
      _ ← check_that (if first then bytes_Equal (Some (Hash tx)) (Header tx) else bytes_Equal header (Header tx))
            ErrTxGroupHeader;
      _ ← check_that (GroupCount tx <=? MaxTxGroupSize) ErrTxGroupCountBigThanMaxSize;
      _ ← check_that (GroupCount tx =? n) ErrTxGroupCount;
      _ ← check_that (match rest with
                      | next :: _ => bytes_Equal (Next tx) (Some (Hash next))
                      | [] => match Next tx with None => true | Some _ => false end
                      end) ErrTxGroupNext;
      check_links header n false rest
  end.

Definition group_Check (g : list (option Transaction)) (height minfee maxFee : Z) : outcome unit :=
  if (length g <? 2)%nat then Err ErrTxGroupCountLessThanTwo
  else
    '(txs, para) ← (check_each height maxFee g ∅ : outcome (list Transaction * gset string));
    b ← is_fork height "ForkTxGroupPara";
    _ ← (if (b : bool) then
           _ ← check_that (size para <=? 1)%nat ErrTxGroupParaCount;
           check_that ((size para =? 0)%nat || forallb (λ tx, IsParaExecName (Execer tx)) txs) ErrTxGroupParaMainMixed
         else Ret tt);
    _ ← check_that (forallb (λ tx, Fee tx =? 0) (tail txs)) ErrTxGroupFeeNotZero;
    totalfee ← total_fee minfee 0 txs;
    match txs with
    | [] => Panic
    | tx0 :: _ =>
        _ ← check_that (totalfee <=? Fee tx0) ErrTxFeeTooLow;
        _ ← (if (maxFee <? Fee tx0) && (0 <? maxFee) then
               b ← is_fork height "ForkBlockCheck";
               check_that (negb b) ErrTxFeeTooHigh
             else Ret tt);
        check_links (Header tx0) (Z.of_nat (length txs)) true txs
    end.

Definition Check (tx : Transaction) (height minfee maxFee : Z) : outcome unit :=
  group ← GetTxGroup tx;
  match group with
  | None => check tx height minfee maxFee
  | Some g => group_Check (Some <$> g) height minfee maxFee
  end.

(** The error of [GetTxGroup] is ignored; a panic of the configuration is not. *)
Definition IsExpire (tx : Transaction) (height blocktime : Z) : outcome bool :=
  match GetTxGroup tx with
  | Ret (Some g) => group_IsExpire g height blocktime
  | _ => isExpire tx height blocktime
  end.

Definition GetTxFee (tx : Transaction) : outcome Z :=
  match GetTxGroup tx with
  | Ret (Some []) => Panic
  | Ret (Some (t :: _)) => Ret (Fee t)
  | _ => Ret (Fee tx)
  end.

(** ** Making a group *)

(** The body of the loop of [CreateTxGroup] for the transactions after the first, from
    the last to the first of them: the transactions, [totalfee] and [minfee]. *)
Fixpoint create_tail (n minFee : Z) (header : bytes) (txs : list Transaction) :
    outcome (list Transaction * Z * Z) :=
  match txs with
  | [] => Ret ([], 0, 0)
  | tx :: rest =>
      '(rest, totalfee, minfee) ← (create_tail n minFee header rest : outcome (list Transaction * Z * Z));
      let tx := match rest with next :: _ => set_Next tx (Some (Hash next)) | [] => tx end in
      let totalfee := totalfee +₆₄ Fee tx in
      let tx := set_Fee (set_Header (set_GroupCount tx n) (Some header)) 0 in
      realfee ← GetRealFee tx minFee;
      Ret (tx :: rest, totalfee, minfee +₆₄ realfee)
  end.

(** [minFee] is [GInt("MinFee")]. *)
Definition CreateTxGroup (minFee : Z) (txs : list Transaction) : outcome (list Transaction) :=
  match txs with
  | tx0 :: ((_ :: _) as rest) =>
      let n := wrap32 (Z.of_nat (length txs)) in
      let header := Hash tx0 in
      '(rest, totalfee, minfee) ← (create_tail n minFee header rest : outcome (list Transaction * Z * Z));
      let tx0 := match rest with next :: _ => set_Next tx0 (Some (Hash next)) | [] => tx0 end in
      let totalfee := totalfee +₆₄ Fee tx0 in
      let tx0 := set_Fee (set_Header (set_GroupCount tx0 n) (Some header)) (2 ^ 62) in
      realfee ← GetRealFee tx0 minFee;
      let minfee := minfee +₆₄ realfee in
      let totalfee := if totalfee <? minfee then minfee else totalfee in
      let tx0 := set_Fee tx0 totalfee in
      let header := Hash tx0 in
      Ret ((λ tx, set_Header tx (Some header)) <$> tx0 :: rest)
  | _ => Err ErrTxGroupCountLessThanTwo
  end.

(** Recompute the links after the contents changed: the transactions after the first,
    from the last on. *)
Fixpoint rebuilt_links (header : bytes) (txs : list Transaction) : list Transaction :=
  match txs with
  | [] => []
  | tx :: rest =>
      let rest := rebuilt_links header rest in
      let tx := match rest with next :: _ => set_Next tx (Some (Hash next)) | [] => tx end in
      set_Header tx (Some header) :: rest
  end.
Definition RebuiltGroup (txs : list Transaction) : outcome (list Transaction) :=
  match txs with
  | [] => Panic
  | tx0 :: _ =>
      let txs := rebuilt_links (Hash tx0) txs in
      match txs with
      | [] => Panic
      | tx0 :: _ => let header := Hash tx0 in Ret ((λ tx, set_Header tx (Some header)) <$> txs)
      end
  end.

(** ** The transaction cache *)

(** [signok]: 0 unknown, 1 good, 2 bad; the payload fields are not modelled. *)
Record TransactionCache := mkTC {
  tcx : Transaction; txGroup : option (list Transaction); tc_hash : option bytes; tc_size : Z;
  signok : Z; checkok : outcome unit; checked : bool
}.

Definition NewTransactionCache (tx : Transaction) : TransactionCache := mkTC tx None None 0 0 (Ret tt) false.

Definition tc_Hash (c : TransactionCache) : bytes * TransactionCache :=
  match tc_hash c with
  | Some h => (h, c)
  | None => let h := Hash (tcx c) in (h, mkTC (tcx c) (txGroup c) (Some h) (tc_size c) (signok c) (checkok c) (checked c))
  end.

Definition tc_Size (c : TransactionCache) : Z * TransactionCache :=
  if tc_size c =? 0 then
    let n := proto_Size (tcx c) in
    (n, mkTC (tcx c) (txGroup c) (tc_hash c) n (signok c) (checkok c) (checked c))
  else (tc_size c, c).

Definition tc_GetTxGroup (c : TransactionCache) : outcome (option (list Transaction)) * TransactionCache :=
  match txGroup c with
  | Some g => (Ret (Some g), c)
  | None =>
      match GetTxGroup (tcx c) with
      | Ret g => (Ret g, mkTC (tcx c) g (tc_hash c) (tc_size c) (signok c) (checkok c) (checked c))
      | r => (r, c)
      end
  end.

Definition set_checkok (c : TransactionCache) (r : outcome unit) : TransactionCache :=
  mkTC (tcx c) (txGroup c) (tc_hash c) (tc_size c) (signok c) r (checked c).
Definition set_checked (c : TransactionCache) : TransactionCache :=
  mkTC (tcx c) (txGroup c) (tc_hash c) (tc_size c) (signok c) (checkok c) true.
Definition set_signok (c : TransactionCache) (n : Z) : TransactionCache :=
  mkTC (tcx c) (txGroup c) (tc_hash c) (tc_size c) n (checkok c) (checked c).

(** A panic leaves [checkok] as it was. *)
Definition tc_Check (c : TransactionCache) (height minfee maxFee : Z) : outcome unit * TransactionCache :=
  if checked c then (checkok c, c)
  else
    let '(g, c) := tc_GetTxGroup (set_checked c) in
    match g with
    | Err e => (Err e, set_checkok c (Err e))
    | Panic => (Panic, c)
    | Ret g =>
        let r := match g with
                 | None => check (tcx c) height minfee maxFee
                 | Some txs => group_Check (Some <$> txs) height minfee maxFee
                 end in
        match r with Panic => (Panic, c) | r => (r, set_checkok c r) end
    end.

Definition tc_CheckSign (c : TransactionCache) : bool * TransactionCache :=
  if signok c =? 0 then
    let '(g, c) := tc_GetTxGroup (set_signok c 2) in
    match g with
    | Ret g =>
        let ok := match g with None => checkSign (tcx c) | Some txs => group_CheckSign txs end in
        let c := if ok then set_signok c 1 else c in
        (signok c =? 1, c)
    | _ => (false, c)
    end
  else (signok c =? 1, c).
End Tx.
