(* ===== verification/TxTheorems.v ===== *)
(** The promises of transactions and transaction groups: a group is determined by its
    header hash, a group made by [CreateTxGroup] passes the checks, packing a group into
    one transaction loses nothing, expiry is final, and the cache is transparent. *)

From Stdlib Require Import Ascii String.
From S2P Require Import Prelude Types Fork Tx.
Local Open Scope Z_scope.

Section TxLemmas.
Context {ENV : TxEnv} (C : TxConfig).

(** The part of a transaction its hash covers. *)
Definition core (t : Transaction) : Transaction := set_Header (set_Sig t None) None.

Lemma Hash_core t : Hash t = tx_Sha256 (tx_Encode (core t)).
Proof using Type. done. Qed.

Lemma Hash_set_Header t h : Hash (set_Header t h) = Hash t.
Proof using Type. done. Qed.

Lemma Hash_set_Sig t s : Hash (set_Sig t s) = Hash t.
Proof using Type. done. Qed.

Lemma Hash_nonempty t : Hash t ≠ "".
Proof using Type. intros H. pose proof (tx_Sha256_length (tx_Encode (core t))) as Hl. rewrite <- Hash_core, H in Hl. done. Qed.

Lemma bytes_Equal_hash b t : bytes_Equal b (Some (Hash t)) = true ↔ b = Some (Hash t).
Proof using Type.
  unfold bytes_Equal. rewrite String.eqb_eq. simpl. split; [|by intros ->].
  destruct b; simpl; [by intros ->|]. intros H. by destruct (Hash_nonempty t).
Qed.

(** ** What [group_Check] accepts *)

(** The links of a group: each transaction names the hash of the next one, the last one
    none, and all carry the number of transactions. *)
Fixpoint linked (n : Z) (txs : list Transaction) : Prop :=
  match txs with
  | [] => True
  | tx :: rest =>
      GroupCount tx = n ∧ Next tx = match rest with next :: _ => Some (Hash next) | [] => None end ∧ linked n rest
  end.

Lemma check_links_spec header n first txs :
  check_links header n first txs = Ret tt ↔
  linked n txs ∧ (n <= MaxTxGroupSize ∨ txs = []) ∧
  match txs with
  | [] => True
  | tx :: rest =>
      (if first then bytes_Equal (Some (Hash tx)) (Header tx) = true else bytes_Equal header (Header tx) = true) ∧
      Forall (λ t, bytes_Equal header (Header t) = true) rest
  end.
Proof using Type.
  revert first. induction txs as [|tx rest IH]; intros first; simpl; [tauto|].
  assert (∀ b e (k : outcome unit), (check_that b e ≫= λ _, k) = Ret tt ↔ b = true ∧ k = Ret tt) as Hb.
  { intros [] e k; simpl; [tauto|]. split; [done|by intros []]. }
  rewrite !Hb, IH, Z.leb_le, Z.eqb_eq.
  assert (match rest with next :: _ => bytes_Equal (Next tx) (Some (Hash next)) | [] => match Next tx with Some _ => false | None => true end end = true
    ↔ Next tx = match rest with next :: _ => Some (Hash next) | [] => None end) as ->.
  { destruct rest; [by destruct (Next tx)|apply bytes_Equal_hash]. }
  assert (match rest with [] => True | t :: rest => bytes_Equal header (Header t) = true ∧ Forall (λ t, bytes_Equal header (Header t) = true) rest end
    ↔ Forall (λ t, bytes_Equal header (Header t) = true) rest) as ->.
  { destruct rest; [split; auto|]. by rewrite list.Forall_cons. }
  destruct first; intuition (subst; auto; try discriminate; try lia).
Qed.

(** The titles of the parallel chains the transactions run on. *)
Definition titles (txs : list Transaction) : gset string :=
  list_to_set (omap (λ tx, GetParaExecTitleName (Execer tx)) txs).

Lemma check_zero_fee t height maxFee : check C t height 0 maxFee = check_that (proto_Size t <=? MaxTxSize) ErrTxMsgSizeTooBig.
Proof using Type. unfold check, check_that. by destruct (proto_Size t <=? MaxTxSize). Qed.

Lemma check_each_run height maxFee txs para :
  Forall (λ t, proto_Size t <= MaxTxSize) txs →
  check_each C height maxFee (Some <$> txs) para = Ret (txs, titles txs ∪ para).
Proof using Type.
  intros H. revert para. induction H as [|t txs Ht H IH]; intros para.
  - simpl. unfold titles. simpl. by rewrite (left_id_L ∅ (∪)).
  - cbn -[check]. rewrite check_zero_fee. unfold check_that. rewrite (proj2 (Z.leb_le _ _) Ht). simpl. rewrite IH. simpl.
    do 2 f_equal. unfold titles. simpl. destruct (GetParaExecTitleName (Execer t)) as [title|]; simpl; [set_solver|done].
Qed.

Lemma check_each_inv height maxFee txs para l p :
  check_each C height maxFee (Some <$> txs) para = Ret (l, p) → l = txs.
Proof using Type.
  revert para l p. induction txs as [|t txs IH]; intros para l p; cbn -[check]; [by intros [= <- _]|].
  destruct (check C t height 0 maxFee); simpl; try done.
  destruct (check_each C height maxFee (Some <$> txs) _) as [[l' p']|e|] eqn:E; simpl; try done.
  intros [= <- _]. f_equal. eauto.
Qed.

Lemma bind_Ret_inv {A B} (m : outcome A) (k : A → outcome B) b : (m ≫= k) = Ret b → ∃ a, m = Ret a ∧ k a = Ret b.
Proof using Type. destruct m; simpl; try done. eauto. Qed.

(** An accepted group is linked, and every transaction carries the hash of the first. *)
Lemma group_Check_inv txs height minfee maxFee :
  group_Check C (Some <$> txs) height minfee maxFee = Ret tt →
  ∃ tx0 rest, txs = tx0 :: rest ∧ rest ≠ [] ∧ linked (Z.of_nat (length txs)) txs ∧
    Z.of_nat (length txs) <= MaxTxGroupSize ∧ Forall (λ t, Header t = Some (Hash tx0)) txs.
Proof using Type.
  unfold group_Check. rewrite length_fmap. destruct (length txs <? 2)%nat eqn:E2; [done|]. apply Nat.ltb_ge in E2.
  intros H. apply bind_Ret_inv in H as ([l p] & Hl & H). apply check_each_inv in Hl as ->.
  apply bind_Ret_inv in H as (b & _ & H). apply bind_Ret_inv in H as (_ & _ & H).
  apply bind_Ret_inv in H as (_ & _ & H). apply bind_Ret_inv in H as (tot & _ & H).
  destruct txs as [|tx0 rest]; [done|]. exists tx0, rest.
  apply bind_Ret_inv in H as (_ & _ & H). apply bind_Ret_inv in H as (_ & _ & H).
  apply check_links_spec in H as (Hl & Hn & H0 & Hf).
  assert (Header tx0 = Some (Hash tx0)) as Hh0.
  { apply bytes_Equal_hash. unfold bytes_Equal in *. rewrite String.eqb_eq in *. done. }
  split; [done|]. split; [by destruct rest; simpl in E2; [lia|]|]. split; [done|].
  split; [by destruct Hn|]. constructor; [done|]. apply (list.Forall_impl _ _ _ Hf). intros t Ht. simpl in Ht.
  rewrite Hh0 in Ht. apply bytes_Equal_hash. unfold bytes_Equal in *. rewrite String.eqb_eq in *. done.
Qed.

(** [S] contains no two messages with the same hash. *)
Definition no_collision (S : list bytes) : Prop := ∀ x y, x ∈ S → y ∈ S → tx_Sha256 x = tx_Sha256 y → x = y.

(** The contents of a transaction up to its signature and header. *)
Definition same_contents (a b : Transaction) : Prop := norm (core a) = norm (core b).

Lemma linked_unique n1 n2 a1 r1 a2 r2 :
  linked n1 (a1 :: r1) → linked n2 (a2 :: r2) → Hash a1 = Hash a2 →
  no_collision ((tx_Encode ∘ core) <$> (a1 :: r1) ++ (a2 :: r2)) →
  Forall2 same_contents (a1 :: r1) (a2 :: r2).
Proof using Type.
  revert a1 a2 r2. induction r1 as [|b1 r1 IH]; intros a1 a2 r2 (_ & Hn1 & H1) (_ & Hn2 & H2) Hh Hc.
  all: assert (same_contents a1 a2) as Hs
    by (apply tx_Encode_inj, Hc; [set_solver|rewrite fmap_app; set_solver|by rewrite <- !Hash_core]).
  all: assert (nilled (Next a1) = nilled (Next a2)) as Hn by exact (f_equal Next Hs).
  all: assert (∀ t, nilled (Some (Hash t)) = Some (Hash t)) as Hnil
    by (intros t; pose proof (Hash_nonempty t); simpl; by destruct (Hash t)).
  all: rewrite Hn1, Hn2 in Hn; destruct r2 as [|b2 r2]; rewrite ?Hnil in Hn; try done.
  - by repeat constructor.
  - injection Hn as Hn. constructor; [done|]. apply IH; try done. intros x y Hx Hy. apply Hc; set_solver.
Qed.

(** ** Making a group *)

(** The size [GetRealFee] charges for, and the fee. *)
Definition est (t : Transaction) : Z := match Sig t with None => proto_Size t + 300 | Some _ => proto_Size t end.
Definition fee_of (m : Z) (t : Transaction) : Z := (est t / 1000 + 1) * m.

Lemma est_nonneg t : 0 <= est t.
Proof using Type. pose proof (proto_Size_nonneg t). unfold est. destruct (Sig t); lia. Qed.

Lemma GetRealFee_run t m :
  0 <= m <= 2 ^ 40 →
  (GetRealFee t m = Ret (fee_of m t) ∧ est t <= MaxTxSize ∧ 0 <= fee_of m t <= 101 * m) ∨
  (GetRealFee t m = Err ErrTxMsgSizeTooBig ∧ MaxTxSize < est t).
Proof using Type.
  intros Hm. unfold GetRealFee. fold (est t). destruct (Z.ltb_spec MaxTxSize (est t)) as [H|H]; [by right|left].
  pose proof (est_nonneg t). unfold MaxTxSize in H.
  assert (0 <= fee_of m t <= 101 * m) as Hf.
  { unfold fee_of. assert (0 <= est t / 1000 <= 100) by (Z.to_euclidean_division_equations; lia). nia. }
  split; [|done]. unfold realFee. fold (fee_of m t). rewrite wrap64_id; [done|]. unfold in64. lia.
Qed.

Lemma fee_of_mono m m' t t' : 0 <= m' <= m → est t' <= est t → fee_of m' t' <= fee_of m t.
Proof using Type.
  intros Hm He. unfold fee_of. pose proof (est_nonneg t').
  assert (0 <= est t' / 1000 <= est t / 1000) by (split; [apply Z.div_pos; lia|apply Z.div_le_mono; lia]). nia.
Qed.

(** [t'] is [t] with the bookkeeping fields of a group set. *)
Definition regrouped (n fee : Z) (h : bytes) (t t' : Transaction) : Prop :=
  t' = set_Next (set_Fee (set_Header (set_GroupCount t n) (Some h)) fee) (Next t').

Definition last_open (txs : list Transaction) : Prop := match list.last txs with Some t => Next t = None | None => True end.

Lemma create_tail_spec n m h txs rest tot mn :
  0 <= m <= 2 ^ 40 → (length txs <= 20)%nat → Forall (λ t, 0 <= Fee t) txs → sumZ Fee txs <= 2 ^ 62 → last_open txs →
  create_tail n m h txs = Ret (rest, tot, mn) →
  Forall2 (regrouped n 0 h) txs rest ∧ linked n rest ∧ Forall (λ t, est t <= MaxTxSize) rest ∧
  tot = sumZ Fee txs ∧ mn = sumZ (fee_of m) rest ∧ 0 <= tot ∧ 0 <= mn <= 101 * m * Z.of_nat (length txs).
Proof using Type.
  intros Hm. revert rest tot mn. induction txs as [|t txs IH]; intros rest tot mn Hlen Hf Hs Hl H.
  { simpl in H. simplify_eq. simpl. split_and!; try constructor; lia. }
  simpl in H. apply bind_Ret_inv in H as ([[rest1 tot1] mn1] & H1 & H). apply bind_Ret_inv in H as (fee & Hg & H).
  apply list.Forall_cons in Hf as [Hft Hf]. simpl in Hs, Hlen.
  assert (0 <= sumZ Fee txs) as Hs0 by (apply sumZ_nonneg; intros x Hx; by eapply list.Forall_forall in Hf).
  assert (last_open txs) as Hl1. { destruct txs; [done|]. exact Hl. }
  destruct (IH rest1 tot1 mn1) as (HR & HL & HE & -> & -> & _ & Hmn); [lia|done|lia|done|done|].
  set (t1 := match rest1 with [] => t | next :: _ => set_Next t (Some (Hash next)) end) in *.
  set (t2 := set_Fee _ 0) in *.
  destruct (GetRealFee_run t2 m Hm) as [(Eg & He & Hfee)|(Eg & _)]; rewrite Eg in Hg; [|done].
  injection Hg as <-. injection H as <- <- <-.
  assert (Fee t1 = Fee t) as EF by (unfold t1; by destruct rest1).
  assert (Next t2 = match rest1 with next :: _ => Some (Hash next) | [] => None end) as EN.
  { unfold t2, t1. destruct rest1; [|done]. inversion HR; subst. exact Hl. }
  assert (101 * m * Z.of_nat (length txs) <= 101 * 2 ^ 40 * 20) as Hb by nia.
  rewrite EF, !wrap64_id by (unfold in64; lia). simpl length. split_and!; try (simpl; lia).
  - constructor; [|done]. unfold regrouped, t2, t1. by destruct rest1.
  - simpl. split_and!; [unfold t2, t1; by destruct rest1|done|done].
  - by constructor.
Qed.

Lemma forallb_Forall {A} (f : A → bool) l : forallb f l = true ↔ Forall (λ x, f x = true) l.
Proof using Type. rewrite forallb_forall, list.Forall_forall. by setoid_rewrite list_elem_of_In. Qed.

Lemma total_fee_run m txs acc :
  0 <= m <= 2 ^ 40 → (length txs <= 20)%nat → Forall (λ t, est t <= MaxTxSize) txs → 0 <= acc <= 2 ^ 62 →
  total_fee m acc txs = Ret (acc + sumZ (fee_of m) txs) ∧ 0 <= sumZ (fee_of m) txs <= 101 * m * Z.of_nat (length txs).
Proof using Type.
  intros Hm Hlen HE Ha.
  enough (∀ k : nat, (length txs + k <= 20)%nat → 0 <= acc <= 2 ^ 62 + 101 * m * Z.of_nat k →
    total_fee m acc txs = Ret (acc + sumZ (fee_of m) txs) ∧ 0 <= sumZ (fee_of m) txs <= 101 * m * Z.of_nat (length txs)) as H
    by (apply (H 0%nat); lia).
  clear Hlen Ha. revert acc. induction HE as [|t txs Ht HE IH]; intros acc k Hk Ha; simpl; [split; [f_equal; lia|lia]|].
  destruct (GetRealFee_run t m Hm) as [(-> & _ & Hf)|(_ & ?)]; [|lia]. simpl. simpl in Hk.
  assert (101 * m * Z.of_nat k <= 101 * 2 ^ 40 * 20) by nia.
  rewrite wrap64_id by (unfold in64; lia). destruct (IH (acc + fee_of m t) (S k)) as [-> Hs]; [lia|lia|].
  split; [f_equal; lia|lia].
Qed.

Definition para_ok (txs : list Transaction) : Prop :=
  (size (titles txs) <= 1)%nat ∧ (titles txs = ∅ ∨ Forall (λ t, IsParaExecName (Execer t) = true) txs).

Lemma group_Check_run tx0 rest height minfee maxFee b :
  let txs := tx0 :: rest in
  rest ≠ [] → (length txs <= 20)%nat → 0 <= minfee <= 2 ^ 40 →
  Forall (λ t, est t <= MaxTxSize) txs → is_fork C height "ForkTxGroupPara" = Ret b → para_ok txs →
  Forall (λ t, Fee t = 0) rest → sumZ (fee_of minfee) txs <= Fee tx0 → (Fee tx0 <= maxFee ∨ maxFee <= 0) →
  linked (Z.of_nat (length txs)) txs → Forall (λ t, Header t = Some (Hash tx0)) txs →
  group_Check C (Some <$> txs) height minfee maxFee = Ret tt.
Proof using Type.
  intros txs Hne Hlen Hm HE Hfk [Hp1 Hp2] Hz Hfee Hmax HL HH. unfold group_Check. rewrite length_fmap.
  assert ((length txs <? 2)%nat = false) as -> by (destruct rest; [done|]; apply Nat.ltb_ge; simpl; lia).
  assert (Forall (λ t, proto_Size t <= MaxTxSize) txs) as HS.
  { apply (list.Forall_impl _ _ _ HE). intros t. unfold est. destruct (Sig t); lia. }
  rewrite check_each_run by done. cbn -[check_that total_fee check_links titles txs]. rewrite Hfk, (right_id_L ∅ (∪)).
  assert ((size (titles txs) =? 0)%nat || forallb (λ tx, IsParaExecName (Execer tx)) txs = true) as Hpara.
  { apply orb_true_iff. destruct Hp2 as [-> |Hp]; [left; done|right]. by apply forallb_Forall. }
  assert (forallb (λ tx, Fee tx =? 0) (tail txs) = true) as Hzero.
  { apply forallb_Forall, (list.Forall_impl _ _ _ Hz). by intros t ->. }
  destruct (total_fee_run minfee txs 0 Hm Hlen HE ltac:(lia)) as [Ht _]. rewrite Z.add_0_l in Ht.
  cbn -[check_that total_fee check_links titles txs].
  replace (if b then _ else _) with (Ret tt : outcome unit).
  2: { destruct b; [|done]. unfold check_that. rewrite (proj2 (Nat.leb_le _ _) Hp1), Hpara. done. }
  rewrite Hzero, Ht. subst txs. unfold check_that. cbn -[check_links sumZ Z.of_nat length].
  rewrite (proj2 (Z.leb_le _ _) Hfee). cbn -[check_links Z.of_nat length].
  replace ((maxFee <? Fee tx0) && (0 <? maxFee)) with false by (symmetry; apply andb_false_iff; lia).
  cbn -[check_links length]. apply check_links_spec. split; [done|]. split; [left; unfold MaxTxGroupSize; lia|].
  apply list.Forall_cons in HH as [H0 HH]. rewrite H0. split; [apply bytes_Equal_hash; done|].
  apply (list.Forall_impl _ _ _ HH). intros t ->. by apply bytes_Equal_hash.
Qed.

(** Transactions that differ in signature and header only. *)
Definition core_eq (a b : Transaction) : Prop := core a = core b.

Lemma core_eq_fields a b :
  core_eq a b → GroupCount a = GroupCount b ∧ Next a = Next b ∧ Fee a = Fee b ∧ Execer a = Execer b ∧ Hash a = Hash b.
Proof using Type.
  intros H. pose proof (f_equal GroupCount H). pose proof (f_equal Next H). pose proof (f_equal Fee H).
  pose proof (f_equal Execer H). split_and!; try done. rewrite !Hash_core. congruence.
Qed.

Lemma linked_core n a b : Forall2 core_eq a b → linked n a → linked n b.
Proof using Type.
  induction 1 as [|x y a b Hxy Hab IH]; simpl; [done|]. intros (H1 & H2 & H3).
  destruct (core_eq_fields _ _ Hxy) as (E1 & E2 & _). rewrite <- E1, <- E2. split; [done|]. split; [|by apply IH].
  rewrite H2. destruct Hab as [|x' y' a' b' Hxy' _]; [done|]. by destruct (core_eq_fields _ _ Hxy') as (_ & _ & _ & _ & ->).
Qed.

Lemma para_ok_ext a b : Forall2 (λ x y, Execer x = Execer y) a b → para_ok a → para_ok b.
Proof using Type.
  intros H. assert (titles a = titles b) as E.
  { unfold titles. f_equal. induction H as [|x y a b Hxy Hab IH]; [done|]. csimpl. by rewrite Hxy, IH. }
  unfold para_ok. rewrite E. intros [H1 H2]. split; [done|]. destruct H2 as [H2|H2]; [by left|right].
  clear E H1. induction H as [|x y a b Hxy Hab IH]; [constructor|]. apply list.Forall_cons in H2 as [Hx H2].
  constructor; [by rewrite <- Hxy|auto].
Qed.

Lemma sumZ_fee_mono m m' a b :
  0 <= m' <= m → Forall2 (λ x y, est y <= est x) a b → sumZ (fee_of m') b <= sumZ (fee_of m) a.
Proof using Type.
  intros Hm. induction 1 as [|x y a b Hxy Hab IH]; simpl; [lia|].
  pose proof (fee_of_mono m m' x y Hm Hxy). lia.
Qed.

(** Replacing a header hash by another one keeps the size. *)
Lemma est_header t h h' : Header t = Some h → String.length h = String.length h' → est (set_Header t (Some h')) = est t.
Proof using Type.
  intros Ht Hl. assert (set_Header t (Some h) = t) as E by (destruct t; simpl in *; by rewrite <- Ht).
  pose proof (proto_Size_header t h h' Hl) as Hs. rewrite E in Hs. unfold est. simpl. by rewrite Hs.
Qed.

Lemma est_fee t f f' : 0 <= f' <= f → est (set_Fee t f') <= est (set_Fee t f).
Proof using Type. intros H. unfold est. simpl. pose proof (proto_Size_fee t f f' H). destruct (Sig t); lia. Qed.

Lemma Hash_length t : String.length (Hash t) = 32%nat.
Proof using Type. apply tx_Sha256_length. Qed.

Lemma rebuilt_links_id n h txs : linked n txs → rebuilt_links h txs = (λ t, set_Header t (Some h)) <$> txs.
Proof using Type.
  induction txs as [|t txs IH]; [done|]. intros (_ & Hn & HL). simpl. rewrite IH by done. f_equal.
  destruct txs as [|t' txs]; [done|]. simpl. rewrite Hash_set_Header. destruct t; simpl in *. by rewrite Hn.
Qed.

Lemma RebuiltGroup_id n t0 rest :
  linked n (t0 :: rest) → Forall (λ t, Header t = Some (Hash t0)) (t0 :: rest) → RebuiltGroup (t0 :: rest) = Ret (t0 :: rest).
Proof using Type.
  intros HL HH.
  assert ((λ t, set_Header t (Some (Hash t0))) <$> t0 :: rest = t0 :: rest) as HF.
  { rewrite <- (list_fmap_id (t0 :: rest)) at 2. apply list_fmap_ext.
    intros i t Ht. eapply Forall_lookup_1 in HH; [|exact Ht]. destruct t; simpl in *. by rewrite HH. }
  unfold RebuiltGroup. rewrite (rebuilt_links_id n), HF by done. f_equal. exact HF.
Qed.

(** The only error is a transaction that is too large with its bookkeeping fields set. *)
Definition too_big (txs : list Transaction) : Prop :=
  ∃ t t' n fee h, t ∈ txs ∧ regrouped n fee h t t' ∧ MaxTxSize < est t'.

Lemma regrouped_self n fee h t nx : regrouped n fee h t (set_Fee (set_Header (set_GroupCount (set_Next t nx) n) (Some h)) fee).
Proof using Type. done. Qed.

Lemma GetRealFee_cases t m :
  (∃ f, GetRealFee t m = Ret f) ∨ (GetRealFee t m = Err ErrTxMsgSizeTooBig ∧ MaxTxSize < est t).
Proof using Type. unfold GetRealFee. fold (est t). destruct (Z.ltb_spec MaxTxSize (est t)); eauto. Qed.

Lemma create_tail_err n m h txs :
  (∃ r, create_tail n m h txs = Ret r) ∨ (create_tail n m h txs = Err ErrTxMsgSizeTooBig ∧ too_big txs).
Proof using Type.
  induction txs as [|t txs IH]; [simpl; eauto|]. simpl.
  destruct IH as [[[[rest tot] mn] ->]|[-> (u & u' & x)]].
  2: { right. split; [done|]. exists u, u'. destruct x as (n' & fee & h' & Hu & H). exists n', fee, h'. split; [set_solver|done]. }
  simpl. set (t1 := match rest with [] => t | next :: _ => set_Next t (Some (Hash next)) end).
  destruct (GetRealFee_cases (set_Fee (set_Header (set_GroupCount t1 n) (Some h)) 0) m) as [[f ->]|[-> Hbig]].
  - simpl. eauto.
  - right. split; [done|]. eexists t, _, n, 0, h. split; [set_solver|]. split; [|exact Hbig].
    unfold t1. destruct rest; [by destruct t|apply regrouped_self].
Qed.

(** [t'] differs from [t] in fee, group count, header and next hash at most. *)
Definition kept (t t' : Transaction) : Prop :=
  t' = mkTx (Execer t) (Payload t) (Sig t) (Fee t') (Expire t) (Nonce t) (To t) (GroupCount t') (Header t') (Next t').

Lemma regrouped_kept n fee h t t' : regrouped n fee h t t' → kept t t'.
Proof using Type. unfold regrouped, kept. intros ->. done. Qed.

(** What [CreateTxGroup] makes: [pre] are the transactions as their fees were computed. *)
Definition created (minFee : Z) (txs g : list Transaction) : Prop :=
  ∃ pre t0 rest, g = t0 :: rest ∧ rest ≠ [] ∧ Forall2 kept txs g ∧
    linked (Z.of_nat (length g)) g ∧ Forall (λ t, Header t = Some (Hash t0)) g ∧
    Forall2 (λ x y, est y <= est x) pre g ∧ Forall (λ t, est t <= MaxTxSize) pre ∧
    sumZ (fee_of minFee) pre <= Fee t0 ∧ sumZ Fee txs <= Fee t0 ∧ Forall (λ t, Fee t = 0) rest.

Lemma created_intro minFee n tx0 txs h t0 rest totalfee :
  0 <= totalfee <= 2 ^ 62 → n = Z.of_nat (S (length txs)) → txs ≠ [] →
  t0 = set_Next tx0 (Some (Hash (default tx0 (head rest)))) → String.length h = 32%nat →
  Forall2 (regrouped n 0 h) txs rest → linked n rest →
  let pre0 := set_Fee (set_Header (set_GroupCount t0 n) (Some h)) (2 ^ 62) in
  Forall (λ t, est t <= MaxTxSize) (pre0 :: rest) →
  sumZ (fee_of minFee) (pre0 :: rest) <= totalfee → sumZ Fee (tx0 :: txs) <= totalfee →
  created minFee (tx0 :: txs)
    ((λ tx, set_Header tx (Some (Hash (set_Fee pre0 totalfee)))) <$> set_Fee pre0 totalfee :: rest).
Proof using Type.
  intros Htot -> Hne -> Hh HR HL pre0 HE Hfee Hsum. set (t0 := set_Fee pre0 totalfee). set (H := Hash t0).
  assert (length rest = length txs) as Hlen by (symmetry; by eapply Forall2_length).
  assert (String.length h = String.length H) as HH by (unfold H; by rewrite Hash_length).
  assert (∀ t, t ∈ rest → Header t = Some h ∧ Fee t = 0) as Hrest.
  { intros t Ht. apply list_elem_of_lookup in Ht as [i Ht]. destruct (Forall2_lookup_r _ _ _ _ _ HR Ht) as (u & _ & ->). done. }
  exists (pre0 :: rest), (set_Header t0 (Some H)), ((λ tx, set_Header tx (Some H)) <$> rest).
  split_and!; try done.
  - destruct rest; [by destruct txs|done].
  - constructor; [done|]. apply Forall2_fmap_r. apply (list.Forall2_impl _ _ _ _ HR).
    intros x y Hxy%regrouped_kept. unfold kept in *. rewrite Hxy. done.
  - apply (linked_core _ (t0 :: rest)).
    + constructor; [done|]. apply Forall2_fmap_r, Forall_Forall2_diag, list.Forall_forall. done.
    + rewrite length_fmap. simpl length. rewrite Hlen. split; [done|]. split; [|done]. by destruct rest; [destruct txs|].
  - constructor; [done|]. apply Forall_fmap, list.Forall_forall. done.
  - constructor.
    + rewrite (est_header _ h) by done. exact (est_fee pre0 (2 ^ 62) totalfee Htot).
    + apply Forall2_fmap_r, Forall_Forall2_diag, list.Forall_forall. intros t Ht. simpl.
      rewrite (est_header _ h); [lia|exact (proj1 (Hrest t Ht))|done].
  - apply Forall_fmap, list.Forall_forall. intros t Ht. exact (proj2 (Hrest t Ht)).
Qed.

Lemma CreateTxGroup_spec minFee txs :
  0 <= minFee <= 2 ^ 40 → (length txs <= 20)%nat → Forall (λ t, 0 <= Fee t) txs → sumZ Fee txs <= 2 ^ 62 → last_open txs →
  match CreateTxGroup minFee txs with
  | Ret g => created minFee txs g
  | Err e => (e = ErrTxMsgSizeTooBig ∧ too_big txs) ∨ (e = ErrTxGroupCountLessThanTwo ∧ (length txs < 2)%nat)
  | Panic => False
  end.
Proof using Type.
  intros Hm Hlen Hf Hs Hl. destruct txs as [|tx0 [|tx1 r]]; [right; split; [done|simpl; lia]..|].
  cbn [CreateTxGroup]. set (txs := tx1 :: r) in *. rewrite wrap32_id by (unfold in32; lia).
  set (n := Z.of_nat (length (tx0 :: txs))).
  destruct (create_tail_err n minFee (Hash tx0) txs) as [[[[rest tot] mn] Ec]|[Ec Hbig]]; rewrite Ec.
  2: { left. split; [done|]. destruct Hbig as (u & u' & n' & f & h & Hu & H). exists u, u', n', f, h. split; [set_solver|done]. }
  apply list.Forall_cons in Hf as [Hf0 Hf].
  assert (0 <= sumZ Fee txs) by (apply sumZ_nonneg; intros x Hx; by eapply list.Forall_forall in Hf).
  change (sumZ Fee (tx0 :: txs)) with (Fee tx0 + sumZ Fee txs) in Hs. simpl length in Hlen.
  destruct (create_tail_spec n minFee (Hash tx0) txs rest tot mn) as (HR & HL & HE & -> & -> & _ & Hmn); [lia|simpl; lia|done|lia|done|done|].
  destruct rest as [|next rest]; [by inversion HR|]. cbn -[GetRealFee wrap64 txs sumZ fmap list_fmap].
  set (pre0 := set_Fee _ (2 ^ 62)).
  destruct (GetRealFee_run pre0 minFee Hm) as [(-> & He & Hfee)|(-> & Hbig)].
  2: { left. split; [done|]. exists tx0, pre0, n, (2 ^ 62), (Hash tx0). split; [set_solver|]. split; [done|exact Hbig]. }
  cbn -[wrap64 txs sumZ fmap list_fmap].
  assert (101 * minFee * Z.of_nat (length txs) <= 101 * 2 ^ 40 * 20) by (simpl; nia).
  rewrite !wrap64_id by (unfold in64; lia).
  set (tf := if sumZ Fee txs + Fee tx0 <? sumZ (fee_of minFee) (next :: rest) + fee_of minFee pre0 then _ else _).
  assert (fee_of minFee pre0 + sumZ (fee_of minFee) (next :: rest) <= tf ∧ Fee tx0 + sumZ Fee txs <= tf ∧ 0 <= tf <= 2 ^ 62)
    as (Ht1 & Ht2 & Ht3) by (unfold tf; destruct (Z.ltb_spec (sumZ Fee txs + Fee tx0)
      (sumZ (fee_of minFee) (next :: rest) + fee_of minFee pre0)); lia).
  eapply (created_intro minFee n tx0 txs (Hash tx0)); try done; [apply Hash_length|by constructor].
Qed.
End TxLemmas.

(** C25: an accepted transaction group is determined by its header hash: two groups that
    pass [Check] (on any chain, at any heights, 0 included, where the code checks as
    anywhere else, and with any fees) and start with the same header
    have the same number of transactions with the same contents in the same order, up to
    signatures, unless SHA-256 collides on their messages.  No transaction of a group
    can be dropped, replaced or moved. *)
Theorem group_unique {ENV : TxEnv} C1 C2 g1 g2 height1 minfee1 maxFee1 height2 minfee2 maxFee2 :
  group_Check C1 (Some <$> g1) height1 minfee1 maxFee1 = Ret tt →
  group_Check C2 (Some <$> g2) height2 minfee2 maxFee2 = Ret tt →
  (Header <$> head g1) = (Header <$> head g2) →
  no_collision ((tx_Encode ∘ core) <$> g1 ++ g2) →
  Forall2 same_contents g1 g2 ∧
  ∃ h, Forall (λ t, Header t = Some h) (g1 ++ g2).
Proof.
  intros H1 H2 Hh Hc.
  apply group_Check_inv in H1 as (a1 & r1 & -> & _ & L1 & _ & F1).
  apply group_Check_inv in H2 as (a2 & r2 & -> & _ & L2 & _ & F2).
  simpl in Hh. injection Hh as Hh.
  pose proof (proj1 (proj1 (list.Forall_cons _ _ _) F1)) as E1. pose proof (proj1 (proj1 (list.Forall_cons _ _ _) F2)) as E2.
  simpl in E1, E2. assert (Hash a1 = Hash a2) as E by congruence.
  split; [by eapply linked_unique|]. exists (Hash a1). apply list.Forall_app. split; [done|]. by rewrite E.
Qed.

(** [t'] is [t] signed (again), with a signature for which the fee was computed. *)
Definition resigned {ENV : TxEnv} (t t' : Transaction) : Prop := t' = set_Sig t (Sig t') ∧ est t' <= est t.

(** [CreateTxGroup] on up to 20 transactions either makes a group or reports that
    there are fewer than two or that one is too large with the group's fields set.  The
    group keeps the transactions' contents and pays at least what they offered; it
    passes [Check] at every height and every minimum fee up to the configured one, also
    after its transactions were signed, unless its fee exceeds the maximum; rebuilding it
    changes nothing. *)
Lemma create_group {ENV : TxEnv} C minFee minfee maxFee height b txs :
  0 <= minfee <= minFee → minFee <= 2 ^ 40 → (length txs <= 20)%nat →
  Forall (λ t, 0 <= Fee t) txs → sumZ Fee txs <= 2 ^ 62 → last_open txs →
  para_ok txs → is_fork C height "ForkTxGroupPara" = Ret b →
  match CreateTxGroup minFee txs with
  | Ret g =>
      Forall2 kept txs g ∧ sumZ Fee txs <= sumZ Fee g ∧ RebuiltGroup g = Ret g ∧
      ∀ g', Forall2 resigned g g' → (maxFee <= 0 ∨ sumZ Fee g <= maxFee) →
        group_Check C (Some <$> g') height minfee maxFee = Ret tt
  | Err e => (e = ErrTxMsgSizeTooBig ∧ too_big txs) ∨ (e = ErrTxGroupCountLessThanTwo ∧ (length txs < 2)%nat)
  | Panic => False
  end.
Proof.
  intros Hm1 Hm2 Hlen Hf Hs Hl Hp Hfk.
  pose proof (CreateTxGroup_spec minFee txs ltac:(lia) Hlen Hf Hs Hl) as H.
  destruct (CreateTxGroup minFee txs) as [g|e|]; [|done..].
  destruct H as (pre & t0 & rest & -> & Hne & HK & HL & HH & HE & HM & Hfee & Hsum & Hz).
  assert (sumZ Fee (t0 :: rest) = Fee t0) as Hg.
  { simpl. rewrite (sumZ_ext Fee (λ _, 0)); [|intros a Ha; by eapply list.Forall_forall in Hz].
    clear. induction rest; simpl in *; lia. }
  rewrite Hg. split; [done|]. split; [done|]. split; [by eapply RebuiltGroup_id|].
  intros g' HR Hmax.
  assert (Forall2 core_eq (t0 :: rest) g') as HC by (apply (list.Forall2_impl _ _ _ _ HR); intros x y [-> _]; done).
  assert (length (t0 :: rest) = length g') as Hlg by (by eapply Forall2_length).
  assert (length txs = length (t0 :: rest)) as Hlt by (by eapply Forall2_length).
  inversion HR as [|? t0' ? rest' [Ht0 Het0] HRr]; subst. inversion HC as [|? ? ? ? Hc0 HCr]; subst.
  destruct (core_eq_fields _ _ Hc0) as (_ & _ & EF & _ & EH).
  apply (group_Check_run C t0' rest' height minfee maxFee b); try done.
  - intros ->. by inversion HRr.
  - simpl in *. lia.
  - lia.
  - apply list.Forall_forall. intros y Hy. apply list_elem_of_lookup in Hy as [i Hy].
    destruct (Forall2_lookup_r _ _ _ _ _ HR Hy) as (x & Hx & _ & Hxy).
    destruct (Forall2_lookup_r _ _ _ _ _ HE Hx) as (w & Hw & Hwx).
    eapply Forall_lookup_1 in HM; [|exact Hw]. simpl in *. lia.
  - apply (para_ok_ext (t0 :: rest)).
    + apply (list.Forall2_impl _ _ _ _ HC). intros x y Hxy. by destruct (core_eq_fields _ _ Hxy) as (_ & _ & _ & ? & _).
    + apply (para_ok_ext txs); [|done]. apply (list.Forall2_impl _ _ _ _ HK). intros x y ->. done.
  - apply list.Forall_forall. intros y Hy. apply list_elem_of_lookup in Hy as [i Hy].
    destruct (Forall2_lookup_r _ _ _ _ _ HCr Hy) as (x & Hx & Hxy). destruct (core_eq_fields _ _ Hxy) as (_ & _ & <- & _).
    by eapply Forall_lookup_1 in Hz.
  - rewrite <- EF. etransitivity; [|exact Hfee]. etransitivity; [|apply (sumZ_fee_mono minFee minFee _ _ ltac:(lia) HE)].
    apply sumZ_fee_mono; [lia|]. apply (list.Forall2_impl _ _ _ _ HR). intros x y [_ H]. exact H.
  - rewrite <- EF. lia.
  - rewrite <- Hlg. by apply (linked_core _ _ _ HC).
  - rewrite <- EH. apply list.Forall_forall. intros y Hy. apply list_elem_of_lookup in Hy as [i Hy].
    destruct (Forall2_lookup_r _ _ _ _ _ HR Hy) as (x & Hx & Hxy & _). rewrite Hxy. exact (Forall_lookup_1 _ _ _ _ HH Hx).
Qed.

(** C27: packing an accepted group into one transaction loses nothing: the packed
    transaction has the hash of the first one, its group, check, expiry, fee and
    signature check are those of the group; the check looks at its header and group
    count only. *)
Theorem group_packed {ENV : TxEnv} C g height minfee maxFee :
  group_Check C (Some <$> g) height minfee maxFee = Ret tt →
  ∃ t, group_Tx g = Some t ∧ (Hash <$> head g) = Some (Hash t) ∧
    GetTxGroup t = Ret (Some g) ∧
    (∀ h m x, Check C t h m x = group_Check C (Some <$> g) h m x) ∧
    (∀ h bt, IsExpire C t h bt = group_IsExpire C g h bt) ∧
    GetTxFee t = Ret (from_option Fee 0 (head g)) ∧
    (tc_CheckSign (NewTransactionCache t)).1 = group_CheckSign g ∧
    (∀ t' h m x, GroupCount t' = GroupCount t → Header t' = Header t → Check C t' h m x = Check C t h m x).
Proof.
  intros H. apply group_Check_inv in H as (t0 & rest & -> & Hne & HL & Hn & HH).
  assert (norm <$> t0 :: rest = t0 :: rest) as Hnorm.
  { rewrite <- (list_fmap_id (t0 :: rest)) at 2. apply list_fmap_ext. intros i t Ht.
    pose proof (Forall_lookup_1 _ _ _ _ HH Ht) as Eh. simpl in Eh.
    assert (nilled (Next t) = Next t) as En.
    { clear -HL Ht. revert HL Ht. generalize (Z.of_nat (length (t0 :: rest))) as n. generalize (t0 :: rest) as l. clear.
      revert t. induction i as [|i IH]; intros t [|a l] n HL Ht; simpl in *; simplify_eq; destruct HL as (_ & HN & HL); [|eauto].
      rewrite HN. destruct l as [|c l]; [done|]. pose proof (Hash_nonempty c). simpl. by destruct (Hash c). }
    unfold norm. rewrite En, Eh. pose proof (Hash_nonempty t0). destruct t; simpl in *. simplify_eq.
    by destruct (Hash t0). }
  exists (set_Header t0 (Some (group_Encode (t0 :: rest)))).
  assert (GroupCount t0 = Z.of_nat (length (t0 :: rest))) as Hc by (by destruct HL).
  assert (2 <= GroupCount t0 <= 20) as Hb by (rewrite Hc; unfold MaxTxGroupSize in Hn; destruct rest; simpl in *; [done|lia]).
  assert (∀ t', GroupCount t' = GroupCount t0 → Header t' = Some (group_Encode (t0 :: rest)) →
    GetTxGroup t' = Ret (Some (t0 :: rest))) as HG.
  { intros t' E1 E2. unfold GetTxGroup. rewrite E1, E2. simpl default. rewrite group_Decode_Encode, Hnorm.
    replace ((GroupCount t0 <? 0) || (GroupCount t0 =? 1) || (20 <? GroupCount t0)) with false
      by (symmetry; rewrite !orb_false_iff; lia).
    by rewrite (proj2 (Z.ltb_lt 0 _)) by lia. }
  split_and!; try done.
  - unfold group_Tx. by destruct rest.
  - by apply HG.
  - intros h m x. unfold Check. by rewrite HG.
  - intros h bt. unfold IsExpire. by rewrite HG.
  - unfold GetTxFee. by rewrite HG.
  - remember (group_CheckSign (t0 :: rest)) as ok eqn:Eok. unfold tc_CheckSign. simpl. unfold tc_GetTxGroup. simpl.
    rewrite HG by done. cbn -[group_CheckSign]. rewrite <- Eok. by destruct ok.
  - intros t' h m x E1 E2. simpl in E1, E2. unfold Check. by rewrite !HG.
Qed.

(** ** Expiry *)

Section Expiry.
Context {ENV : TxEnv} (C : TxConfig).

(** The expiry field is a height or a time, not a height window. *)
Definition not_txheight (t : Transaction) : Prop := tc_TxHeight C = false ∨ Expire t <= TxHeightFlag.

(** Whether the configuration answers does not depend on the height. *)
Lemma GetTxHeight_off t h :
  not_txheight t → GetTxHeight C (Expire t) h = Ret (-1) ∨ (∀ h', GetTxHeight C (Expire t) h' = Panic) ∨
  (∃ e, ∀ h', GetTxHeight C (Expire t) h' = Err e).
Proof using Type.
  intros Ht. unfold GetTxHeight, IsEnableFork, IsFork. destruct (tc_TxHeight C) eqn:Et; [|by left].
  destruct Ht as [?|Ht]; [congruence|]. destruct (GetFork _ _ _) as [f|e|]; simpl; [|by eauto..].
  left. rewrite (proj2 (Z.ltb_ge _ _) Ht). by rewrite andb_false_r.
Qed.

Lemma isExpire_later t h bt h' bt' v :
  h <= h' → bt <= bt' → not_txheight t → isExpire C t h bt = Ret v →
  ∃ v', isExpire C t h' bt' = Ret v' ∧ (v = true → v' = true).
Proof using Type.
  intros Hh Hb Ht. unfold isExpire. destruct (Expire t =? 0); [intros [= <-]; eauto|].
  destruct (Expire t <=? ExpireBound).
  { intros [= <-]. eexists. split; [done|]. lia. }
  destruct (GetTxHeight_off t h Ht) as [E|[E|[e E]]]; rewrite E; simpl; [|done..].
  destruct (GetTxHeight_off t h' Ht) as [E'|[E'|[e E']]].
  - rewrite E'. simpl. intros [= <-]. eexists. split; [done|]. lia.
  - by rewrite E' in E.
  - by rewrite E' in E.
Qed.

Lemma group_IsExpire_later g h bt h' bt' v :
  h <= h' → bt <= bt' → Forall not_txheight g → group_IsExpire C g h bt = Ret v →
  (v = true → group_IsExpire C g h' bt' = Ret true).
Proof using Type.
  intros Hh Hb Hg. revert v. induction Hg as [|t g Ht Hg IH]; intros v; simpl; [by intros [= <-]|].
  intros H. apply bind_Ret_inv in H as (b & Hb1 & H).
  destruct (isExpire_later t h bt h' bt' b Hh Hb Ht Hb1) as (b' & -> & Hb'). simpl.
  destruct b; [by rewrite (Hb' eq_refl)|]. destruct b'; [done|]. by apply IH.
Qed.
End Expiry.

(** Expiry is final: a group (or a single transaction) whose expiry fields are
    heights or times, once expired, is expired at every later height and time; a
    transaction with a height window can be packed exactly from 30 heights before to 90
    heights after its height. *)
Lemma expire_final {ENV : TxEnv} C g height blocktime height' blocktime' :
  height <= height' → blocktime <= blocktime' →
  (Forall (not_txheight C) g → group_IsExpire C g height blocktime = Ret true →
     group_IsExpire C g height' blocktime' = Ret true) ∧
  (∀ t txHeight, tc_TxHeight C = true → is_fork C height "ForkTxHeight" = Ret true →
     Expire t = TxHeightFlag + txHeight → 0 < txHeight < 2 ^ 62 →
     ∃ e, isExpire C t height blocktime = Ret e ∧
       (e = false ↔ txHeight - LowAllowPackHeight <= height <= txHeight + HighAllowPackHeight)).
Proof.
  intros Hh Hb. split; [intros Hg H; by eapply group_IsExpire_later|].
  intros t th HC HF HE Hth. unfold isExpire. unfold TxHeightFlag in *.
  destruct (Z.eqb_spec (Expire t) 0); [lia|]. destruct (Z.leb_spec (Expire t) ExpireBound); [unfold ExpireBound in *; lia|].
  unfold GetTxHeight, IsEnableFork. rewrite HC. unfold is_fork in HF. rewrite HF. cbn -[wrap64 Z.ltb Z.leb Z.pow].
  unfold TxHeightFlag. rewrite (proj2 (Z.ltb_lt (2 ^ 62) _)) by lia. rewrite (proj2 (Z.ltb_lt 0 _)) by lia.
  eexists. split; [done|]. replace (Expire t - 2 ^ 62) with th by lia.
  unfold LowAllowPackHeight, HighAllowPackHeight. rewrite !wrap64_id by (unfold in64; lia).
  rewrite negb_false_iff, andb_true_iff, !Z.leb_le. done.
Qed.

(** ** The cache *)

Section Cache.
Context {ENV : TxEnv} (C : TxConfig).

Inductive cache_op := CHash | CSize | CGroup | CCheck (height minfee maxFee : Z) | CSign.
Inductive cache_out :=
  | RHash (h : bytes) | RSize (n : Z) | RGroup (g : outcome (option (list Transaction)))
  | RCheck (r : outcome unit) | RSign (b : bool).

Definition run_cache (c : TransactionCache) (o : cache_op) : cache_out * TransactionCache :=
  match o with
  | CHash => let '(h, c) := tc_Hash c in (RHash h, c)
  | CSize => let '(n, c) := tc_Size c in (RSize n, c)
  | CGroup => let '(g, c) := tc_GetTxGroup c in (RGroup g, c)
  | CCheck h m x => let '(r, c) := tc_Check C c h m x in (RCheck r, c)
  | CSign => let '(b, c) := tc_CheckSign c in (RSign b, c)
  end.
Fixpoint run_caches (c : TransactionCache) (os : list cache_op) : list cache_out :=
  match os with [] => [] | o :: os => let '(r, c) := run_cache c o in r :: run_caches c os end.

(** The signatures of a transaction or of the group it carries. *)
Definition signed (tx : Transaction) : bool :=
  match GetTxGroup tx with
  | Ret None => checkSign tx
  | Ret (Some g) => group_CheckSign g
  | _ => false
  end.

(** What a caller may rely on: every answer is recomputed from the transaction, except
    that the first check decides all later ones. *)
Fixpoint spec_caches (tx : Transaction) (first : option (outcome unit)) (os : list cache_op) : list cache_out :=
  match os with
  | [] => []
  | CHash :: os => RHash (Hash tx) :: spec_caches tx first os
  | CSize :: os => RSize (proto_Size tx) :: spec_caches tx first os
  | CGroup :: os => RGroup (GetTxGroup tx) :: spec_caches tx first os
  | CCheck h m x :: os =>
      let r := default (Check C tx h m x) first in RCheck r :: spec_caches tx (Some r) os
  | CSign :: os => RSign (signed tx) :: spec_caches tx first os
  end.

Record cache_ok (tx : Transaction) (first : option (outcome unit)) (c : TransactionCache) : Prop := {
  ok_tx : tcx c = tx;
  ok_group : txGroup c = None ∨ GetTxGroup tx = Ret (txGroup c);
  ok_hash : tc_hash c = None ∨ tc_hash c = Some (Hash tx);
  ok_size : tc_size c = 0 ∨ tc_size c = proto_Size tx;
  ok_sign : signok c = 0 ∨ signok c = if signed tx then 1 else 2;
  ok_check : match first with None => checked c = false | Some r => checked c = true ∧ checkok c = r end
}.

Lemma tc_GetTxGroup_ok tx c :
  tcx c = tx → txGroup c = None ∨ GetTxGroup tx = Ret (txGroup c) → ∃ g', tc_GetTxGroup c = (GetTxGroup tx, mkTC tx g' (tc_hash c) (tc_size c) (signok c) (checkok c) (checked c)) ∧
    (g' = None ∨ GetTxGroup tx = Ret g').
Proof using Type.
  intros E1 E2. destruct c as [t g h n s k b]; simpl in *. subst t. unfold tc_GetTxGroup. simpl.
  destruct g as [g|].
  - destruct E2 as [?|E2]; [done|]. rewrite E2. exists (Some g). auto.
  - destruct (GetTxGroup tx) as [g'|e|]; eexists; split; eauto.
Qed.

Lemma run_cache_ok tx first c o os :
  (∀ h m x, Check C tx h m x ≠ Panic) → cache_ok tx first c →
  ∃ r first', (run_cache c o).1 = r ∧ cache_ok tx first' (run_cache c o).2 ∧
    spec_caches tx first (o :: os) = r :: spec_caches tx first' os.
Proof using Type.
  intros HP Hc. pose proof Hc as [E1 E2 E3 E4 E5 E6]. destruct o as [| | |h m x|]; simpl.
  - exists (RHash (Hash tx)), first. unfold tc_Hash. destruct E3 as [E3|E3]; rewrite E3; simpl; rewrite ?E1.
    + split_and!; [done| |done]. split; simpl; auto.
    + done.
  - exists (RSize (proto_Size tx)), first. unfold tc_Size. destruct (Z.eqb_spec (tc_size c) 0) as [E0|E0]; simpl; rewrite ?E1.
    + split_and!; [done| |done]. split; simpl; auto.
    + destruct E4 as [?|E4]; [done|]. by rewrite E4.
  - destruct (tc_GetTxGroup_ok tx c E1 E2) as (g' & -> & Hg'). eexists _, first. split; [done|]. split; [|done].
    split; simpl; auto.
  - unfold tc_Check. destruct first as [r|].
    { destruct E6 as [-> ->]. eexists _, (Some r). split_and!; done. }
    rewrite E6. eexists _, (Some (Check C tx h m x)). split; [done|].
    destruct c as [t g hh n s k b]; simpl in *. subst t b.
    destruct (tc_GetTxGroup_ok tx (set_checked (mkTC tx g hh n s k false)) eq_refl E2) as (g' & -> & Hg').
    specialize (HP h m x). unfold Check in *. destruct (GetTxGroup tx) as [gg|e|] eqn:EG; simpl in *; [|..|done].
    + destruct gg as [gg|]; [destruct (group_Check C (Some <$> gg) h m x)|destruct (check C tx h m x)]; simpl in *; try done.
      all: split; [split; simpl; rewrite ?EG; auto|done].
    + split; [split; simpl; rewrite ?EG; auto|done].
  - eexists (RSign (signed tx)), first. unfold tc_CheckSign. destruct (Z.eqb_spec (signok c) 0) as [E0|E0]; simpl.
    2: { destruct E5 as [?|E5]; [done|]. rewrite E5. split_and!; try done. by destruct (signed tx). }
    destruct (tc_GetTxGroup_ok tx (set_signok c 2) E1 E2) as (g' & -> & Hg').
    unfold signed. destruct (GetTxGroup tx) as [gg|e|] eqn:EG; simpl.
    2,3: split_and!; [done| |done]; split; simpl; rewrite ?EG; auto; right; unfold signed; by rewrite EG.
    destruct gg as [gg|]; [destruct (group_CheckSign gg) eqn:Eg|destruct (checkSign tx) eqn:Eg]; simpl.
    all: split_and!; [done| |done]; split; simpl; rewrite ?EG; auto; right; unfold signed; rewrite EG; by rewrite Eg.
Qed.
End Cache.

(** The transaction cache is transparent: whatever sequence of operations is asked of
    a new cache, hash, size, group and signature checks answer as if computed afresh (the
    signatures of all transactions of a group count), and every check repeats the answer
    of the first one, whatever height and fees it is asked for later. *)
Lemma cache_transparent {ENV : TxEnv} C tx os :
  (∀ h m x, Check C tx h m x ≠ Panic) →
  run_caches C (NewTransactionCache tx) os = spec_caches C tx None os.
Proof.
  intros HP. assert (cache_ok tx None (NewTransactionCache tx)) as H by (split; simpl; auto).
  revert H. generalize (NewTransactionCache tx) as c, (@None (outcome unit)) as first.
  induction os as [|o os IH]; intros c first H; [done|].
  destruct (run_cache_ok C tx first c o os HP H) as (r & first' & E & H' & ->). cbn [run_caches].
  destruct (run_cache C c o) as [r' c']. simpl in *. subst r'. f_equal. by apply IH.
Qed.

(** ** A concrete environment for examples *)

Module TxDemo.
(** Self-delimiting fields: each byte is preceded by 1, the field is closed by 0. *)
Fixpoint esc (a x : string) : string :=
  match a with EmptyString => String "0" x | String c a => String "1" (String c (esc a x)) end.
Fixpoint unesc (s : string) : option (string * string) :=
  match s with
  | String c s =>
      if Ascii.eqb c "0" then Some (EmptyString, s)
      else match s with
           | String d s => match unesc s with Some (a, x) => Some (String d a, x) | None => None end
           | EmptyString => None
           end
  | EmptyString => None
  end.
Lemma unesc_esc a x : unesc (esc a x) = Some (a, x).
Proof. induction a as [|c a IH]; simpl; [done|]. by rewrite IH. Qed.

Definition escz (z : Z) (x : string) : string := esc (digits (encode z)) x.
Definition unescz (s : string) : option (Z * string) :=
  '(a, x) ← unesc s; z ← decode (undigits a); Some (z, x).
Lemma unescz_escz z x : unescz (escz z x) = Some (z, x).
Proof. unfold unescz, escz. rewrite unesc_esc. cbn -[decode encode undigits digits]. rewrite undigits_digits, decode_encode. done. Qed.

Definition esc_sig (s : option Signature) (x : string) : string :=
  match s with None => esc "" x | Some s => esc "1" (escz (sig_Ty s) (esc (Pubkey s) (esc (sig_Bytes s) x))) end.
Definition unesc_sig (s : string) : option (option Signature * string) :=
  '(a, s) ← unesc s;
  if String.eqb a "" then Some (None, s)
  else '(ty, s) ← unescz s; '(pk, s) ← unesc s; '(b, s) ← unesc s; Some (Some (mkSig ty pk b), s).
Lemma unesc_esc_sig s x : unesc_sig (esc_sig s x) = Some (s, x).
Proof.
  unfold unesc_sig. destruct s as [[ty pk b]|]; [|done]. unfold esc_sig. rewrite unesc_esc. simpl.
  rewrite unescz_escz. simpl. rewrite unesc_esc. simpl. rewrite unesc_esc. done.
Qed.

Definition enc (t : Transaction) (x : string) : string :=
  esc (Execer t) (esc (Payload t) (esc_sig (Sig t) (escz (Fee t) (escz (Expire t) (escz (Nonce t)
    (esc (To t) (escz (GroupCount t) (esc (default "" (Header t)) (esc (default "" (Next t)) x))))))))).
Definition dec (s : string) : option (Transaction * string) :=
  '(e, s) ← unesc s; '(p, s) ← unesc s; '(g, s) ← unesc_sig s; '(f, s) ← unescz s; '(ex, s) ← unescz s;
  '(n, s) ← unescz s; '(to, s) ← unesc s; '(c, s) ← unescz s; '(h, s) ← unesc s; '(nx, s) ← unesc s;
  Some (mkTx e p g f ex n to c (nilled (Some h)) (nilled (Some nx)), s).
Lemma nilled_default b : nilled (Some (default "" b)) = nilled b.
Proof. by destruct b as [[]|]. Qed.
Lemma dec_enc t x : dec (enc t x) = Some (norm t, x).
Proof.
  unfold dec, enc.
  repeat (first [rewrite unesc_esc|rewrite unescz_escz|rewrite unesc_esc_sig]; cbv beta iota delta [mbind option_bind]).
  by rewrite !nilled_default.
Qed.

Fixpoint enc_group (g : list Transaction) : string :=
  match g with [] => String "0" "" | t :: g => String "1" (enc t (enc_group g)) end.
Fixpoint dec_group (fuel : nat) (s : string) : option (list Transaction) :=
  match fuel, s with
  | S fuel, String c s =>
      if Ascii.eqb c "0" then Some []
      else '(t, s) ← dec s; g ← dec_group fuel s; Some (t :: g)
  | _, _ => None
  end.
Lemma esc_length a x : (String.length x < String.length (esc a x))%nat.
Proof. induction a; simpl; lia. Qed.
Lemma esc_length_trans k a x : (k < String.length x)%nat → (k < String.length (esc a x))%nat.
Proof. pose proof (esc_length a x). lia. Qed.
Lemma enc_length t x : (String.length x < String.length (enc t x))%nat.
Proof.
  unfold enc, escz, esc_sig.
  destruct (Sig t); unfold escz; repeat first [apply esc_length | apply esc_length_trans].
Qed.
Lemma dec_enc_group g fuel : (String.length (enc_group g) <= fuel)%nat → dec_group fuel (enc_group g) = Some (norm <$> g).
Proof.
  revert fuel. induction g as [|t g IH]; intros [|fuel] H; simpl in *; try lia; [done|].
  rewrite dec_enc. simpl. rewrite IH; [done|]. pose proof (enc_length t (enc_group g)). lia.
Qed.

(** Sizes as in the wire format: a field takes a tag, a length and its bytes; a default
    value takes nothing. *)
Definition varint_size (z : Z) : Z := if z <? 0 then 10 else if z =? 0 then 0 else Z.log2 z / 7 + 1.
Definition bytes_size (b : string) : Z :=
  let n := Z.of_nat (String.length b) in if n =? 0 then 0 else 1 + varint_size n + n.
Definition int_size (z : Z) : Z := if z =? 0 then 0 else 1 + varint_size z.
Definition sig_size (s : option Signature) : Z :=
  match s with
  | None => 0
  | Some s => let n := int_size (sig_Ty s) + bytes_size (Pubkey s) + bytes_size (sig_Bytes s) in 2 + varint_size n + n
  end.
Definition tx_size (t : Transaction) : Z :=
  bytes_size (Execer t) + bytes_size (Payload t) + sig_size (Sig t) + int_size (Fee t) + int_size (Expire t) +
  int_size (Nonce t) + bytes_size (To t) + int_size (GroupCount t) + bytes_size (default "" (Header t)) +
  bytes_size (default "" (Next t)).

Lemma varint_size_nonneg z : 0 <= varint_size z.
Proof.
  unfold varint_size. destruct (z <? 0); [lia|]. destruct (z =? 0); [lia|]. pose proof (Z.log2_nonneg z).
  pose proof (Z.div_pos (Z.log2 z) 7). lia.
Qed.
Lemma bytes_size_nonneg b : 0 <= bytes_size b.
Proof. unfold bytes_size. cbv zeta. destruct (_ =? 0); [lia|]. pose proof (varint_size_nonneg (Z.of_nat (String.length b))). lia. Qed.
Lemma int_size_nonneg z : 0 <= int_size z.
Proof. unfold int_size. destruct (_ =? 0); [lia|]. pose proof (varint_size_nonneg z). lia. Qed.
Lemma tx_size_nonneg t : 0 <= tx_size t.
Proof.
  assert (0 <= sig_size (Sig t)).
  { unfold sig_size. destruct (Sig t) as [s|]; [|lia]. cbv zeta.
    pose proof (int_size_nonneg (sig_Ty s)). pose proof (bytes_size_nonneg (Pubkey s)). pose proof (bytes_size_nonneg (sig_Bytes s)).
    pose proof (varint_size_nonneg (int_size (sig_Ty s) + bytes_size (Pubkey s) + bytes_size (sig_Bytes s))). lia. }
  unfold tx_size. repeat match goal with |- context [bytes_size ?b] => pose proof (bytes_size_nonneg b); generalize dependent (bytes_size b); intros end.
  repeat match goal with |- context [int_size ?b] => pose proof (int_size_nonneg b); generalize dependent (int_size b); intros end. lia.
Qed.
Lemma int_size_mono z z' : 0 <= z' <= z → int_size z' <= int_size z.
Proof.
  intros H. unfold int_size. destruct (Z.eqb_spec z' 0) as [->|H0]; [apply int_size_nonneg|].
  destruct (Z.eqb_spec z 0) as [->|H1]; [lia|]. unfold varint_size.
  rewrite !(proj2 (Z.ltb_ge _ _)) by lia. rewrite !(proj2 (Z.eqb_neq _ _)) by lia.
  pose proof (Z.div_le_mono (Z.log2 z') (Z.log2 z) 7 ltac:(lia) ltac:(apply Z.log2_le_mono; lia)). lia.
Qed.

Fixpoint mix (s : string) (h : N) : N :=
  match s with
  | EmptyString => h
  | String c s => mix s (N.land (h * 16777619 + N_of_ascii c + 7) 18446744073709551615)
  end.
Fixpoint spread (n : nat) (h : N) : string :=
  match n with O => EmptyString | S n => String (ascii_of_N (h mod 256)) (spread n (h / 256)%N) end.
Lemma hash_length n h : String.length (spread n h) = n.
Proof. revert h. induction n as [|n IH]; intros h; simpl; [done|]. by rewrite IH. Qed.

Definition env : TxEnv.
Proof.
  refine {| tx_Encode t := enc t ""; group_Encode := enc_group; group_Decode s := dec_group (String.length s) s;
            proto_Size := tx_size; tx_Sha256 s := spread 32 (mix s 1);
            verify_sign _ _ s := String.eqb (Pubkey s) (sig_Bytes s) |}.
  - intros a b H. apply (f_equal dec) in H. rewrite !dec_enc in H. revert H. generalize (norm a), (norm b). intros u v H. by injection H.
  - intros g. by apply dec_enc_group.
  - apply tx_size_nonneg.
  - intros t h h' H. unfold tx_size, bytes_size. simpl. by rewrite H.
  - intros t f f' H. unfold tx_size. simpl. pose proof (int_size_mono f f' H). lia.
  - intros b. apply hash_length.
Defined.

Definition forks : Forks := {["mychain" := {["ForkTxGroupPara" := 0; "ForkBlockCheck" := 0; "ForkTxHeight" := 0]}]}.
Definition cfg : TxConfig := {| tc_forks := forks; tc_title := "mychain"; tc_TxHeight := true |}.
Definition tx1 : Transaction := mkTx "coins" "pay bob" None 100000 0 1 "bob" 0 None None.
Definition tx2 : Transaction := mkTx "coins" "pay carol" None 100000 500 2 "carol" 0 None None.
Definition group : list Transaction :=
  match @CreateTxGroup env 100000 [tx1; tx2] with Ret g => g | _ => [] end.
Definition sign (t : Transaction) : Transaction := set_Sig t (Some (mkSig 1 "key" "key")).
End TxDemo.

#[local] Existing Instance TxDemo.env.

Lemma demo_para : para_ok [TxDemo.tx1; TxDemo.tx2].
Proof. split; [vm_compute; lia|left; vm_compute; reflexivity]. Qed.

Lemma demo_fork : is_fork TxDemo.cfg 10 "ForkTxGroupPara" = Ret true.
Proof. vm_compute. reflexivity. Qed.

Lemma demo_resigned g :
  forallb (λ t, est (TxDemo.sign t) <=? est t) g = true → Forall2 resigned g (TxDemo.sign <$> g).
Proof.
  intros H. apply forallb_Forall in H. apply Forall2_fmap_r, Forall_Forall2_diag, (list.Forall_impl _ _ _ H).
  intros t Ht. split; [done|]. simpl in *. lia.
Qed.

Lemma demo_not_txheight g :
  forallb (λ t, Expire t <=? TxHeightFlag) g = true → Forall (not_txheight TxDemo.cfg) g.
Proof. intros H. apply forallb_Forall in H. apply (list.Forall_impl _ _ _ H). intros t Ht. right. lia. Qed.

Lemma demo_check t h m x : check TxDemo.cfg t h m x ≠ Panic.
Proof.
  assert (GetFork (tc_forks TxDemo.cfg) (tc_title TxDemo.cfg) "ForkBlockCheck" = Ret 0) as E by (vm_compute; reflexivity).
  unfold check, check_that, is_fork, IsFork. rewrite E. generalize (realFee (proto_Size t) m) as r. intros r.
  destruct (proto_Size t <=? MaxTxSize); [|discriminate]. cbn -[Z.leb Z.ltb Z.eqb]. destruct (m =? 0); [discriminate|].
  destruct (r <=? Fee t); [|discriminate]. cbn -[Z.leb Z.ltb Z.eqb].
  destruct ((x <? Fee t) && (0 <? x)); [|discriminate]. by destruct (negb _).
Qed.

Definition no_collision_b (S : list bytes) : bool :=
  forallb (λ x, forallb (λ y, implb (String.eqb (tx_Sha256 x) (tx_Sha256 y)) (String.eqb x y)) S) S.

Lemma no_collision_check S : no_collision_b S = true → no_collision S.
Proof.
  unfold no_collision_b. rewrite forallb_forall. intros H x y Hx Hy E.
  apply list_elem_of_In, H in Hx. rewrite forallb_forall in Hx. apply list_elem_of_In, Hx in Hy.
  rewrite E, String.eqb_refl in Hy. by apply String.eqb_eq.
Qed.

Lemma group_unique_witness :
  Forall2 same_contents TxDemo.group (TxDemo.sign <$> TxDemo.group) ∧
  group_Check TxDemo.cfg (Some <$> TxDemo.group) 10 100000 0 = Ret tt.
Proof.
  split; [|vm_compute; reflexivity].
  apply (group_unique TxDemo.cfg TxDemo.cfg TxDemo.group (TxDemo.sign <$> TxDemo.group) 10 100000 0 11 100000 0).
  - vm_compute. reflexivity.
  - vm_compute. reflexivity.
  - vm_compute. reflexivity.
  - apply no_collision_check. vm_compute. reflexivity.
Defined.

Lemma create_group_witness :
  CreateTxGroup 100000 [TxDemo.tx1; TxDemo.tx2] = Ret TxDemo.group ∧
  group_Check TxDemo.cfg (Some <$> (TxDemo.sign <$> TxDemo.group)) 10 100000 0 = Ret tt.
Proof.
  assert (CreateTxGroup 100000 [TxDemo.tx1; TxDemo.tx2] = Ret TxDemo.group) as E by (vm_compute; reflexivity).
  split; [exact E|].
  pose proof (create_group TxDemo.cfg 100000 100000 0 10 true [TxDemo.tx1; TxDemo.tx2]) as H. rewrite E in H.
  apply H; [lia|lia|simpl; lia|repeat constructor; simpl; lia|vm_compute; discriminate|reflexivity|exact demo_para|exact demo_fork| |lia].
  apply demo_resigned. vm_compute. reflexivity.
Defined.

Lemma group_packed_witness :
  ∃ t, group_Tx TxDemo.group = Some t ∧ GetTxGroup t = Ret (Some TxDemo.group) ∧
    Check TxDemo.cfg t 10 100000 0 = Ret tt ∧ GetTxFee t = Ret 200000.
Proof.
  destruct (group_packed TxDemo.cfg TxDemo.group 10 100000 0) as (t & H1 & _ & H2 & H3 & _ & H4 & _).
  - vm_compute. reflexivity.
  - exists t. split; [exact H1|]. split; [exact H2|]. split; [rewrite H3; vm_compute; reflexivity|].
    rewrite H4. vm_compute. reflexivity.
Defined.

Lemma expire_final_witness :
  group_IsExpire TxDemo.cfg TxDemo.group 500 0 = Ret true ∧ group_IsExpire TxDemo.cfg TxDemo.group 900 7 = Ret true.
Proof.
  split; [vm_compute; reflexivity|].
  apply (expire_final TxDemo.cfg TxDemo.group 500 0 900 7); [lia|lia| |vm_compute; reflexivity].
  apply demo_not_txheight. vm_compute. reflexivity.
Defined.

Lemma cache_transparent_witness :
  run_caches TxDemo.cfg (NewTransactionCache TxDemo.tx1) [CCheck 10 100000 0; CHash; CCheck 10 200000 0; CSign] =
    [RCheck (Ret tt); RHash (Hash TxDemo.tx1); RCheck (Ret tt); RSign false].
Proof.
  rewrite (cache_transparent TxDemo.cfg TxDemo.tx1); [vm_compute; reflexivity|].
  intros h m x. change (check TxDemo.cfg TxDemo.tx1 h m x ≠ Panic). apply demo_check.
Defined.
