(* ===== verification/Block.v ===== *)
(** Blocks ([types/block.go]) and their execution ([util/util.go], [util/exec.go]): header
    hashes, duplicate transactions and keys, and [ExecBlock], which runs the transactions
    of a block and checks or fills in its transaction and state hashes. *)

From Stdlib Require Import Ascii String.
From S2P Require Import Prelude Types KVStore Account Fork Tx TxTheorems Merkle.
Local Open Scope Z_scope.

(** [type Block struct], [type ReceiptData struct], [type BlockDetail struct]. *)
Record Block := mkBlock {
  Version : Z; ParentHash : bytes; TxHash : bytes; StateHash : bytes; b_Height : Z; BlockTime : Z;
  b_Difficulty : Z; MainHash : bytes; MainHeight : Z; b_Signature : option Signature; Txs : list Transaction
}.
Record ReceiptData := mkRD { rd_Ty : Z; rd_Logs : list ReceiptLog }.
Record BlockDetail := mkBD {
  bd_Block : Block; Receipts : list ReceiptData; bd_KV : list KeyValue; PrevStatusHash : bytes
}.
(** [type Header struct] *)
Record BHeader := mkHeader {
  h_Version : Z; h_ParentHash : bytes; h_TxHash : bytes; h_StateHash : bytes; h_Height : Z; h_BlockTime : Z;
  h_TxCount : Z; h_Hash : bytes; h_Difficulty : Z; h_Signature : option Signature
}.

Definition set_Txs (b : Block) t := mkBlock (Version b) (ParentHash b) (TxHash b) (StateHash b) (b_Height b) (BlockTime b) (b_Difficulty b) (MainHash b) (MainHeight b) (b_Signature b) t.
Definition set_TxHash (b : Block) h := mkBlock (Version b) (ParentHash b) h (StateHash b) (b_Height b) (BlockTime b) (b_Difficulty b) (MainHash b) (MainHeight b) (b_Signature b) (Txs b).
Definition set_StateHash (b : Block) h := mkBlock (Version b) (ParentHash b) (TxHash b) h (b_Height b) (BlockTime b) (b_Difficulty b) (MainHash b) (MainHeight b) (b_Signature b) (Txs b).

(** Encodings, hashes and forks of the chain; the number of processors and the order in
    which the goroutines of the Merkle root deliver. *)
Class BlockEnv := {
  ee_tx :: TxEnv;
  ee_merkle :: MerkleEnv;
  header_Encode : BHeader → bytes;
  ForkBlockHash : Z → bool;
  ForkCheckTxDup : Z → bool;
  ncpu : Z;
  arrival : nat → list nat
}.

(** The services asked by message about one block: the transactions the chain already
    has, the executor (receipts; local data to add or delete), the state store and the
    consensus. *)
Record Services := {
  ask_dup : list (bytes * Z) → Z → outcome (list bytes);
  ask_exec : bytes → Block → outcome (list Receipt);
  ask_memset : bytes → Z → list KeyValue → outcome bytes;
  ask_check : BlockDetail → outcome unit;
  ask_commit : bytes → outcome unit;
  ask_local : BlockDetail → outcome (list (bytes * option bytes));
  ask_del_local : BlockDetail → outcome (list (bytes * option bytes))
}.

Section ExecBlock.
Context {ENV : BlockEnv} (sv : Services).

Definition GetHeader (b : Block) : BHeader :=
  mkHeader (Version b) (ParentHash b) (TxHash b) (StateHash b) (b_Height b) (BlockTime b)
    (Z.of_nat (length (Txs b))) "" (b_Difficulty b) None.

Definition getHeaderHashOld (b : Block) : BHeader :=
  mkHeader (Version b) (ParentHash b) (TxHash b) "" (b_Height b) (BlockTime b) 0 "" 0 None.

Definition getHeaderHashNew (b : Block) : BHeader :=
  mkHeader (Version b) (ParentHash b) (TxHash b) (StateHash b) (b_Height b) (BlockTime b)
    (Z.of_nat (length (Txs b))) "" (b_Difficulty b) None.

Definition HashNew (b : Block) : bytes := tx_Sha256 (header_Encode (getHeaderHashNew b)).
Definition HashOld (b : Block) : bytes := tx_Sha256 (header_Encode (getHeaderHashOld b)).

Definition b_Hash (b : Block) : bytes := if ForkBlockHash (b_Height b) then HashNew b else HashOld b.
Definition HashByForkHeight (b : Block) (forkheight : Z) : bytes :=
  if forkheight <=? b_Height b then HashNew b else HashOld b.

(** The signatures of the transactions are checked by several goroutines; the answer is
    whether all of them are good. *)
Definition b_CheckSign (b : Block) : bool :=
  match b_Signature b with
  | Some sign => if verify_sign (b_Hash b) "" sign then forallb checkSign (Txs b) else false
  | None => forallb checkSign (Txs b)
  end.

(** ** Duplicates *)

(** The last position of each hash, and whether a hash occurs twice. *)
Fixpoint dup_index (i : nat) (txs : list Transaction) (dupindex : gmap bytes nat) (hasdup : bool) : gmap bytes nat * bool :=
  match txs with
  | [] => (dupindex, hasdup)
  | tx :: txs =>
      let hasdup := match dupindex !! Hash tx with Some _ => true | None => hasdup end in
      dup_index (S i) txs (<[Hash tx := i]> dupindex) hasdup
  end.

Fixpoint keep_last (i : nat) (dupindex : gmap bytes nat) (txs : list Transaction) : list Transaction :=
  match txs with
  | [] => []
  | tx :: txs =>
      let rest := keep_last (S i) dupindex txs in
      if bool_decide (dupindex !! Hash tx = Some i) then tx :: rest else rest
  end.

Definition DelDupTx (txs : list Transaction) : list Transaction :=
  let '(dupindex, hasdup) := dup_index 0 txs ∅ false in
  if hasdup then keep_last 0 dupindex txs else txs.

Definition CheckTxDup (txs : list Transaction) (height : Z) : outcome (list Transaction) :=
  let txs := if ForkCheckTxDup height then DelDupTx txs else txs in
  dupTxs ← ask_dup sv ((λ tx, (Hash tx, Expire tx)) <$> txs) height;
  let dupMap : gset bytes := list_to_set dupTxs in
  Ret (filter (λ tx, Hash tx ∉ dupMap) txs).

(** The pairs kept so far (the front of the slice), and where each key is in it. *)
Fixpoint del_dup_loop {V} (kvs front : list (bytes * V)) (dupindex : gmap bytes nat) : list (bytes * V) :=
  match kvs with
  | [] => front
  | kv :: kvs =>
      match dupindex !! kv.1 with
      | Some index => del_dup_loop kvs (<[index := kv]> front) dupindex
      | None => del_dup_loop kvs (front ++ [kv]) (<[kv.1 := length front]> dupindex)
      end
  end.
Definition DelDupKey {V} (kvs : list (bytes * V)) : list (bytes * V) := del_dup_loop kvs [] ∅.

(** ** Execution *)

(** The receipts of the transactions that did not fail: their data, their writes, and the
    positions of the failed ones. *)
Fixpoint split_receipts (errReturn : bool) (i : nat) (rs : list Receipt) :
    outcome (list ReceiptData * list KeyValue * gset nat) :=
  match rs with
  | [] => Ret ([], [], ∅)
  | r :: rs =>
      if Ty r =? ExecErr then
        if errReturn then Err (ErrOther "ErrBlockExec")
        else
          '(rd, kv, del) ← (split_receipts errReturn (S i) rs : outcome (list ReceiptData * list KeyValue * gset nat));
          Ret (rd, kv, {[i]} ∪ del)
      else
        '(rd, kv, del) ← (split_receipts errReturn (S i) rs : outcome (list ReceiptData * list KeyValue * gset nat));
        Ret (mkRD (Ty r) (Logs r) :: rd, KVs r ++ kv, del)
  end.

Fixpoint del_txs (i : nat) (del : gset nat) (txs : list Transaction) : list Transaction * list Transaction :=
  match txs with
  | [] => ([], [])
  | tx :: txs =>
      let '(keep, gone) := del_txs (S i) del txs in
      if bool_decide (i ∈ del) then (keep, tx :: gone) else (tx :: keep, gone)
  end.

Definition CalcMerkleRootCache (txs : list Transaction) : outcome bytes :=
  let hashes := (λ tx, Some (Hash tx)) <$> txs in
  CalcMerkleRoot ncpu (arrival (group_count ncpu hashes)) hashes.

(** [errReturn]: the block comes from someone else and must be exactly right.  A failed
    rollback of the state store is only logged. *)
Definition ExecBlock (prevStateRoot : bytes) (block : Block) (errReturn checkblock : bool) :
    outcome (BlockDetail * list Transaction) :=
  if errReturn && (0 <? b_Height block) && negb (b_CheckSign block) then Err (ErrOther "ErrSign")
  else
    txs ← CheckTxDup (Txs block) (b_Height block);
    if negb (length (Txs block) =? length txs)%nat && errReturn then Err (ErrOther "ErrTxDup")
    else
      let block := set_Txs block txs in
      receipts ← ask_exec sv prevStateRoot block;
      '(rdata, kvset, deltxlist) ← (split_receipts errReturn 0 receipts : outcome (list ReceiptData * list KeyValue * gset nat));
      let kvset := DelDupKey kvset in
      let '(keep, deltx) := del_txs 0 deltxlist (Txs block) in
      let block := set_Txs block keep in
      if negb (length deltx =? 0)%nat && errReturn then Err (ErrOther "ErrCheckTxHash")
      else
        calcHash ← CalcMerkleRootCache (Txs block);
        if errReturn && negb (String.eqb calcHash (TxHash block)) then Err (ErrOther "ErrCheckTxHash")
        else
          let block := set_TxHash block calcHash in
          calcHash ← ask_memset sv prevStateRoot (b_Height block) kvset;
          if errReturn && negb (String.eqb (StateHash block) calcHash) then Err (ErrOther "ErrCheckStateHash")
          else
            let block := set_StateHash block calcHash in
            let detail := mkBD block rdata [] "" in
            _ ← (if (0 <? b_Height block) && checkblock then ask_check sv detail else Ret tt);
            _ ← ask_commit sv (StateHash block);
            Ret (mkBD block rdata kvset prevStateRoot, deltx).

(** ** Duplicate keys *)

Lemma kvs_apply_replace {V} (front : list (bytes * V)) i kv v0 f k :
  NoDup front.*1 → front !! i = Some (kv.1, v0) → kvs_apply (<[i := kv]> front) f k = kvs_apply (front ++ [kv]) f k.
Proof using Type.
  intros Hn Hi. destruct kv as [k0 v]. simpl in Hi.
  pose proof (list_elem_of_split_length front i (k0, v0) Hi) as (a & b & -> & ->).
  rewrite insert_app_r_alt by lia. rewrite Nat.sub_diag. simpl.
  rewrite fmap_app in Hn. simpl in Hn. apply list.NoDup_app in Hn as (_ & Hab & Hb). apply list.NoDup_cons in Hb as [Hb _].
  rewrite <- app_assoc, !kvs_apply_app. change ((k0, v0) :: b) with ([(k0, v0)] ++ b). change ((k0, v) :: b) with ([(k0, v)] ++ b).
  rewrite kvs_apply_app, kvs_apply_one. destruct (decide (k = k0)) as [->|Hk].
  - rewrite kvs_apply_notin, kvs_apply_one by done. by rewrite decide_True.
  - rewrite kvs_apply_app. apply kvs_apply_at. rewrite !kvs_apply_one. by rewrite !decide_False.
Qed.

(** Where each key of the front is. *)
Definition indexed {V} (front : list (bytes * V)) (idx : gmap bytes nat) : Prop :=
  NoDup front.*1 ∧ ∀ k i, idx !! k = Some i ↔ ∃ v, front !! i = Some (k, v).

Lemma del_dup_loop_spec {V} (kvs front : list (bytes * V)) idx f :
  indexed front idx →
  NoDup (del_dup_loop kvs front idx).*1 ∧
  (∀ k, k ∈ (del_dup_loop kvs front idx).*1 ↔ k ∈ (front ++ kvs).*1) ∧
  ∀ k, kvs_apply (del_dup_loop kvs front idx) f k = kvs_apply (front ++ kvs) f k.
Proof using Type.
  revert front idx. induction kvs as [|kv kvs IH]; intros front idx [Hn Hi]; simpl; [rewrite app_nil_r; done|].
  destruct (idx !! kv.1) as [i|] eqn:E.
  - apply Hi in E as [v0 E].
    assert ((<[i := kv]> front).*1 = front.*1) as Ek.
    { rewrite list_fmap_insert. apply list_insert_id. by rewrite list_lookup_fmap, E. }
    destruct (IH (<[i := kv]> front) idx) as (H1 & H2 & H3).
    { split; [by rewrite Ek|]. intros k j. rewrite Hi. destruct (decide (j = i)) as [->|Hj].
      - rewrite list_lookup_insert_eq by (by eapply lookup_lt_Some). rewrite E. destruct kv as [k0 v]. simpl in *. naive_solver.
      - by rewrite list_lookup_insert_ne. }
    split; [done|]. split.
    + intros k. rewrite H2, !fmap_app, Ek. simpl. rewrite !elem_of_app, elem_of_cons. split; [tauto|].
      intros [?|[->|?]]; auto. left. apply list_elem_of_fmap. exists (kv.1, v0). split; [done|]. by eapply list_elem_of_lookup_2.
    + intros k. rewrite H3, !kvs_apply_app. change (kv :: kvs) with ([kv] ++ kvs). rewrite kvs_apply_app.
      apply kvs_apply_at. rewrite (kvs_apply_replace front i kv v0), kvs_apply_app by done. done.
  - destruct (IH (front ++ [kv]) (<[kv.1 := length front]> idx)) as (H1 & H2 & H3).
    { assert (∀ i v, front !! i ≠ Some (kv.1, v)) as Hno.
      { intros i v Hf. assert (idx !! kv.1 = Some i) as ? by (apply Hi; eauto). congruence. }
      split.
      - rewrite fmap_app. apply list.NoDup_app. split_and!; [done| |simpl; apply NoDup_singleton].
        intros k Hk Hk'. apply list_elem_of_singleton in Hk' as ->. apply list_elem_of_fmap in Hk as ([k0 v0] & E0 & Hk).
        simpl in E0. subst k0. apply list_elem_of_lookup in Hk as [i Hk]. by apply (Hno i v0).
      - intros k j. rewrite lookup_insert_Some, Hi. split.
        + intros [[<- <-]|[Hk [v Hv]]].
          * exists kv.2. rewrite lookup_app_r, Nat.sub_diag by lia. by destruct kv.
          * exists v. by apply lookup_app_l_Some.
        + intros [v Hv]. apply lookup_app_Some in Hv as [Hv|[Hl Hv]].
          * right. split; [|eauto]. intros <-. by apply (Hno j v).
          * apply list_lookup_singleton_Some in Hv as [? Hv]. left. destruct kv; simplify_eq/=. split; [done|lia]. }
    rewrite <- app_assoc in H2, H3. done.
Qed.

Lemma DelDupKey_spec {V} (kvs : list (bytes * V)) f :
  NoDup (DelDupKey kvs).*1 ∧ (∀ k, k ∈ (DelDupKey kvs).*1 ↔ k ∈ kvs.*1) ∧
  ∀ k, kvs_apply (DelDupKey kvs) f k = kvs_apply kvs f k.
Proof using Type.
  apply (del_dup_loop_spec kvs [] ∅). split; [constructor|]. intros k i. rewrite lookup_empty. split; [done|]. by intros [v ?].
Qed.

(** ** Duplicate transactions *)

Lemma dup_index_nodup i txs m b d :
  dup_index i txs m b = (d, false) →
  b = false ∧ NoDup (Hash <$> txs) ∧ ∀ h, h ∈ Hash <$> txs → m !! h = None.
Proof using Type.
  revert i m b. induction txs as [|tx txs IH]; intros i m b H; simpl in *.
  - injection H as _ ->. split_and!; [done|constructor|set_solver].
  - apply IH in H as (Hb & Hn & Hm). destruct (m !! Hash tx) eqn:E; [done|]. split; [done|]. split.
    + apply list.NoDup_cons. split; [|done]. intros Hin. apply Hm in Hin. by rewrite lookup_insert_eq in Hin.
    + intros h [->|Hin]%elem_of_cons; [done|]. pose proof (Hm _ Hin) as Hi. apply lookup_insert_None in Hi. tauto.
Qed.

(** The final map sends a hash to its last position. *)
Lemma dup_index_last i txs m b h :
  (h ∈ Hash <$> txs →
     ∃ j tx, txs !! j = Some tx ∧ Hash tx = h ∧ (dup_index i txs m b).1 !! h = Some (i + j)%nat) ∧
  ((h ∉ Hash <$> txs) → (dup_index i txs m b).1 !! h = m !! h).
Proof using Type.
  revert i m b. induction txs as [|tx txs IH]; intros i m b; simpl; [set_solver|].
  destruct (IH (S i) (<[Hash tx:=i]> m) (match m !! Hash tx with Some _ => true | None => b end)) as [H1 H2].
  split.
  - intros Hall. destruct (decide (h ∈ Hash <$> txs)) as [Hin|Hin].
    + destruct (H1 Hin) as (j & t & Hj & Ht & E). exists (S j), t. rewrite E. split_and!; [done|done|f_equal; lia].
    + rewrite H2 by done. destruct (decide (h = Hash tx)) as [->|Hne].
      * exists 0%nat, tx. rewrite lookup_insert_eq. split_and!; [done|done|f_equal; lia].
      * by apply elem_of_cons in Hall as [?|?].
  - intros Hin. rewrite H2 by set_solver. rewrite lookup_insert_ne; set_solver.
Qed.

Lemma keep_last_sublist i d txs : keep_last i d txs `sublist_of` txs.
Proof using Type. revert i. induction txs as [|tx txs IH]; intros i; simpl; [done|]. case_bool_decide; by constructor. Qed.

Lemma keep_last_spec i d txs :
  NoDup (Hash <$> keep_last i d txs) ∧
  (∀ tx, tx ∈ keep_last i d txs → ∃ j, (i <= j)%nat ∧ d !! Hash tx = Some j) ∧
  (∀ j tx, txs !! j = Some tx → d !! Hash tx = Some (i + j)%nat → tx ∈ keep_last i d txs).
Proof using Type.
  revert i. induction txs as [|tx txs IH]; intros i; simpl; [split_and!; [constructor|set_solver|done]|].
  destruct (IH (S i)) as (H1 & H2 & H3). case_bool_decide as Hd.
  - split_and!.
    + apply list.NoDup_cons. split; [|done]. intros (t & E & Ht)%list_elem_of_fmap.
      destruct (H2 t Ht) as (j & Hj & Hj'). rewrite <- E, Hd in Hj'. injection Hj' as ->. lia.
    + intros t [->|Ht]%elem_of_cons; [eauto|]. destruct (H2 t Ht) as (j & Hj & ?). exists j. split; [lia|done].
    + intros [|j] t Ht Hj; simpl in Ht; [simplify_eq; set_solver|]. apply elem_of_cons. right. apply (H3 j); [done|].
      rewrite Hj. f_equal. lia.
  - split_and!; [done| |].
    + intros t Ht. destruct (H2 t Ht) as (j & Hj & ?). exists j. split; [lia|done].
    + intros [|j] t Ht Hj; simpl in Ht; [simplify_eq; rewrite Nat.add_0_r in Hj; done|]. apply (H3 j); [done|].
      rewrite Hj. f_equal. lia.
Qed.

(** [DelDupTx] keeps one transaction per hash, in order. *)
Lemma DelDupTx_spec txs :
  DelDupTx txs `sublist_of` txs ∧ NoDup (Hash <$> DelDupTx txs) ∧
  ∀ h, h ∈ Hash <$> DelDupTx txs ↔ h ∈ Hash <$> txs.
Proof using Type.
  unfold DelDupTx. destruct (dup_index 0 txs ∅ false) as [d hasdup] eqn:E. destruct hasdup.
  2: { split; [done|]. split; [|done]. by apply dup_index_nodup in E as (_ & ? & _). }
  split; [apply keep_last_sublist|]. destruct (keep_last_spec 0 d txs) as (H1 & _ & H3). split; [done|].
  intros h. split.
  - intros (t & -> & Ht)%list_elem_of_fmap. apply list_elem_of_fmap. exists t. split; [done|].
    by eapply elem_of_submseteq, sublist_submseteq, keep_last_sublist.
  - intros Hh. destruct (proj1 (dup_index_last 0 txs ∅ false h) Hh) as (j & t & Hj & <- & Hd). rewrite E in Hd.
    apply list_elem_of_fmap. exists t. split; [done|]. by apply (H3 j).
Qed.

Lemma sublist_same_length {A} (l k : list A) : l `sublist_of` k → length k = length l → l = k.
Proof using Type.
  induction 1 as [|x l k H IH|x l k H IH]; simpl; intros E; [done|f_equal; apply IH; lia|].
  apply sublist_length in H. lia.
Qed.

(** What is left of a list once duplicates are removed: nothing was added, all of the list
    but repetitions was asked about, exactly the transactions answered to be in the chain are
    gone and, after the fork, no hash comes twice. *)
Definition fresh (txs : list Transaction) (height : Z) (txs' : list Transaction) : Prop :=
  txs' `sublist_of` txs ∧
  (ForkCheckTxDup height = true → NoDup (Hash <$> txs')) ∧
  ∃ asked dup, asked `sublist_of` txs ∧ (∀ tx, tx ∈ txs → Hash tx ∈ Hash <$> asked) ∧
    ask_dup sv ((λ tx, (Hash tx, Expire tx)) <$> asked) height = Ret dup ∧
    ∀ tx, tx ∈ txs' ↔ tx ∈ asked ∧ (Hash tx ∉ dup).

Lemma CheckTxDup_fresh txs height txs' : CheckTxDup txs height = Ret txs' → fresh txs height txs'.
Proof using Type.
  unfold CheckTxDup. set (asked := if ForkCheckTxDup height then DelDupTx txs else txs).
  assert (asked `sublist_of` txs ∧ (ForkCheckTxDup height = true → NoDup (Hash <$> asked)) ∧
    ∀ tx, tx ∈ txs → Hash tx ∈ Hash <$> asked) as (H1 & H2 & H3).
  { unfold asked. destruct (ForkCheckTxDup height); [|split_and!; [done|done|intros tx; apply list_elem_of_fmap_2]].
    destruct (DelDupTx_spec txs) as (? & ? & H3). split_and!; [done|done|]. intros tx Htx. by apply H3, list_elem_of_fmap_2. }
  destruct (ask_dup sv _ _) as [dup|e|] eqn:E; simpl; try done. intros [= <-]. split_and!.
  - etransitivity; [apply sublist_filter|done].
  - intros F. eapply sublist_NoDup; [by apply H2|]. apply fmap_sublist, sublist_filter.
  - exists asked, dup. split_and!; [done..|]. intros tx. rewrite list_elem_of_filter. set_solver.
Qed.

(** ** What an execution promises *)

Definition good (r : Receipt) : Prop := Ty r ≠ ExecErr.
#[local] Instance good_dec r : Decision (good r).
Proof using Type. unfold good. apply _. Defined.

Lemma split_receipts_spec e i rs rd kv del :
  split_receipts e i rs = Ret (rd, kv, del) →
  rd = (λ r, mkRD (Ty r) (Logs r)) <$> filter good rs ∧ kv = filter good rs ≫= KVs ∧
  (e = true → Forall good rs ∧ del = ∅) ∧
  (∀ j, j ∈ del ↔ ∃ r, (i <= j)%nat ∧ rs !! (j - i)%nat = Some r ∧ ¬ good r).
Proof using Type.
  revert i rd kv del. induction rs as [|r rs IH]; intros i rd kv del H; simpl in H.
  { simplify_eq. split_and!; [done|done|by intros; split|]. intros j. split; [set_solver|]. intros (r & _ & Hr & _). by rewrite lookup_nil in Hr. }
  destruct (Z.eqb_spec (Ty r) ExecErr) as [Hr|Hr].
  - destruct e; [done|].
    destruct (split_receipts false (S i) rs) as [[[rd' kv'] del']|er|] eqn:E; simpl in H; try done. injection H as <- <- <-.
    destruct (IH _ _ _ _ E) as (-> & -> & _ & Hd). rewrite filter_cons, decide_False by (unfold good; tauto).
    split_and!; [done|done|done|]. intros j. rewrite elem_of_union, elem_of_singleton, Hd. split.
    + intros [->|(r' & Hj & Hl & Hg)]; [exists r|exists r'].
      * rewrite Nat.sub_diag. split_and!; [lia|done|unfold good; tauto].
      * replace (j - i)%nat with (S (j - S i)) by lia. split_and!; [lia|done|done].
    + intros (r' & Hj & Hl & Hg). destruct (decide (j = i)) as [->|Hne]; [by left|right]. exists r'.
      replace (j - i)%nat with (S (j - S i)) in Hl by lia. split_and!; [lia|done|done].
  - destruct (split_receipts e (S i) rs) as [[[rd' kv'] del']|er|] eqn:E; simpl in H; try done. injection H as <- <- <-.
    destruct (IH _ _ _ _ E) as (-> & -> & He & Hd). rewrite filter_cons, decide_True by done.
    split_and!; [done|done|intros Ht; destruct (He Ht) as [? ->]; split; [by constructor|done]|].
    intros j. rewrite Hd. split.
    + intros (r' & Hj & Hl & Hg). exists r'. replace (j - i)%nat with (S (j - S i)) by lia. split_and!; [lia|done|done].
    + intros (r' & Hj & Hl & Hg). destruct (decide (j = i)) as [->|Hne].
      * rewrite Nat.sub_diag in Hl. simpl in Hl. by simplify_eq.
      * exists r'. replace (j - i)%nat with (S (j - S i)) in Hl by lia. split_and!; [lia|done|done].
Qed.

Lemma del_txs_spec i del txs keep gone :
  del_txs i del txs = (keep, gone) →
  keep `sublist_of` txs ∧ (length keep + length gone = length txs)%nat ∧ (del = ∅ → keep = txs ∧ gone = []).
Proof using Type.
  revert i keep gone. induction txs as [|tx txs IH]; intros i keep gone H; simpl in H; [by simplify_eq|].
  destruct (del_txs (S i) del txs) as [keep' gone'] eqn:E. destruct (IH _ _ _ E) as (H1 & H2 & H3).
  case_bool_decide as Hi; injection H as <- <-; simpl.
  - split; [by constructor|]. split; [lia|]. set_solver.
  - split; [by constructor|]. split; [lia|]. intros Hd. by destruct (H3 Hd) as [-> ->].
Qed.

Definition same_header (b b' : Block) : Prop :=
  Version b' = Version b ∧ ParentHash b' = ParentHash b ∧ b_Height b' = b_Height b ∧ BlockTime b' = BlockTime b ∧
  b_Difficulty b' = b_Difficulty b ∧ MainHash b' = MainHash b ∧ MainHeight b' = MainHeight b ∧ b_Signature b' = b_Signature b.

(** Everything an execution that succeeds has established. *)
Record executed (prev : bytes) (b : Block) (errReturn : bool) (d : BlockDetail) (deltx : list Transaction) : Prop := {
  ex_header : same_header b (bd_Block d);
  ex_txs : Txs (bd_Block d) `sublist_of` Txs b;
  ex_root : CalcMerkleRootCache (Txs (bd_Block d)) = Ret (TxHash (bd_Block d));
  ex_receipts : ∃ b1 rs, ask_exec sv prev b1 = Ret rs ∧ same_header b b1 ∧ fresh (Txs b) (b_Height b) (Txs b1) ∧
    Txs (bd_Block d) `sublist_of` Txs b1 ∧
    (length (Txs (bd_Block d)) + length deltx = length (Txs b1))%nat ∧
    Receipts d = (λ r, mkRD (Ty r) (Logs r)) <$> filter good rs ∧
    bd_KV d = DelDupKey (filter good rs ≫= KVs) ∧
    (errReturn = true → b1 = b ∧ Forall good rs);
  ex_state : ask_memset sv prev (b_Height b) (bd_KV d) = Ret (StateHash (bd_Block d));
  ex_commit : ask_commit sv (StateHash (bd_Block d)) = Ret tt;
  ex_exact : errReturn = true → bd_Block d = b ∧ deltx = [] ∧ (0 < b_Height b → b_CheckSign b = true)
}.

Lemma ExecBlock_spec prev b e c d deltx : ExecBlock prev b e c = Ret (d, deltx) → executed prev b e d deltx.
Proof using Type.
  unfold ExecBlock. intros H. destruct (e && (0 <? b_Height b) && negb (b_CheckSign b)) eqn:Esig; [done|].
  destruct (CheckTxDup (Txs b) (b_Height b)) as [txs|er|] eqn:Edup; simpl in H; try done.
  apply CheckTxDup_fresh in Edup as Hfresh. pose proof (proj1 Hfresh) as Hsub.
  destruct (negb (length (Txs b) =? length txs)%nat && e) eqn:Elen; [done|].
  destruct (ask_exec sv prev (set_Txs b txs)) as [rs|er|] eqn:Erun; simpl in H; try done.
  destruct (split_receipts e 0 rs) as [[[rd kv] del]|er|] eqn:Esplit; simpl in H; try done.
  destruct (split_receipts_spec _ _ _ _ _ _ Esplit) as (-> & -> & Hgood & _).
  destruct (del_txs 0 del txs) as [keep gone] eqn:Edel. destruct (del_txs_spec _ _ _ _ _ Edel) as (Hk & Hl & Hz). simpl in H.
  destruct (negb (length gone =? 0)%nat && e) eqn:Egone; [done|].
  destruct (CalcMerkleRootCache keep) as [root|er|] eqn:Eroot; simpl in H; try done.
  destruct (e && negb (String.eqb root (TxHash b))) eqn:Etx; [done|].
  destruct (ask_memset sv _ _ _) as [st|er|] eqn:Est; simpl in H; try done.
  destruct (e && negb (String.eqb (StateHash b) st)) eqn:Esth; [done|].
  destruct (if _ && c then _ else _) as [u|er|]; simpl in H; try done.
  destruct (ask_commit sv st) as [[]|er|] eqn:Ecommit; simpl in H; try done. injection H as <- <-.
  assert (keep `sublist_of` Txs b) as Hks by (by etransitivity).
  assert (e = true → set_StateHash (set_TxHash (set_Txs (set_Txs b txs) keep) root) st = b ∧ gone = [] ∧ txs = Txs b) as Hex.
  { intros ->. destruct (Hgood eq_refl) as [_ ->]. destruct (Hz eq_refl) as [-> ->].
    assert (txs = Txs b) as ->. { apply sublist_same_length; [done|]. rewrite andb_true_r in Elen. apply negb_false_iff, Nat.eqb_eq in Elen. lia. }
    simpl in Etx, Esth. apply negb_false_iff, String.eqb_eq in Etx, Esth. subst. by destruct b. }
  split; simpl.
  - done.
  - done.
  - done.
  - exists (set_Txs b txs), rs. split_and!; try done. intros He. destruct (Hex He) as (_ & _ & ->).
    destruct (Hgood He) as [? _]. split; [by destruct b|done].
  - done.
  - done.
  - intros He. destruct (Hex He) as (E1 & E2 & _). split_and!; [done|done|]. intros Hh. subst e.
    rewrite (proj2 (Z.ltb_lt _ _) Hh) in Esig. simpl in Esig. by apply negb_false_iff in Esig.
Qed.
End ExecBlock.

(** C30: a block that [ExecBlock] accepts has the transaction hash that is the Merkle root
    of its transactions and the state hash the store computed for the writes of its
    successful transactions, one write per key with the last value.  Only transactions the
    blockchain module does not report as being in the chain are executed, and once
    [ForkCheckTxDup] is active no two with the same hash.  Executing somebody else's block
    changes nothing in it (so its hash stays the same) and requires valid signatures, no
    duplicate and no failed transaction; executing one's own only drops transactions and
    fills in the two hashes. *)
Theorem exec_block {ENV : BlockEnv} sv prev b errReturn checkblock d deltx :
  ExecBlock sv prev b errReturn checkblock = Ret (d, deltx) →
  executed sv prev b errReturn d deltx ∧
  NoDup (bd_KV d).*1 ∧
  (ForkCheckTxDup (b_Height b) = true → NoDup (Hash <$> Txs (bd_Block d))) ∧
  (∃ asked dup, (∀ tx, tx ∈ Txs b → Hash tx ∈ Hash <$> asked) ∧
     ask_dup sv ((λ tx, (Hash tx, Expire tx)) <$> asked) (b_Height b) = Ret dup ∧
     ∀ tx, tx ∈ Txs (bd_Block d) → tx ∈ asked ∧ (Hash tx ∉ dup)) ∧
  (∃ rs, bd_KV d = DelDupKey (rs ≫= KVs) ∧ ∀ f k, kvs_apply (bd_KV d) f k = kvs_apply (rs ≫= KVs) f k) ∧
  (errReturn = true → b_Hash (bd_Block d) = b_Hash b).
Proof.
  intros H. apply ExecBlock_spec in H. split; [done|].
  destruct (ex_receipts _ _ _ _ _ _ H) as (b1 & rs & _ & _ & (_ & Hnd & asked & dup & _ & Hall & Hask & Hin) & Hs1 & _ & _ & EK & _). rewrite EK.
  split; [apply (DelDupKey_spec _ (λ _, None))|]. split; [|split; [|split]].
  - intros F. eapply sublist_NoDup; [by apply Hnd|]. by apply fmap_sublist.
  - exists asked, dup. split_and!; [done..|]. intros tx Htx. apply Hin. by eapply elem_of_submseteq, sublist_submseteq.
  - exists (filter good rs). split; [done|]. intros f k. apply DelDupKey_spec.
  - intros He. by destruct (ex_exact _ _ _ _ _ _ H He) as [-> _].
Qed.

(** ** A chain with concrete services, on which the theorems are applied *)

Module BlockDemo.
(** A header as its fields, each delimited. *)
Definition encode_header (h : BHeader) : bytes :=
  TxDemo.escz (h_Version h) (TxDemo.esc (h_ParentHash h) (TxDemo.esc (h_TxHash h) (TxDemo.esc (h_StateHash h)
    (TxDemo.escz (h_Height h) (TxDemo.escz (h_BlockTime h) (TxDemo.escz (h_TxCount h) (TxDemo.escz (h_Difficulty h) ""))))))).

(** Every transaction writes its payload under its receiver; one without receiver fails.
    The state hash is a hash of the previous one and the writes. *)
Definition run (tx : Transaction) : Receipt :=
  if String.eqb (To tx) "" then {| Ty := ExecErr; KVs := []; Logs := [] |} else {| Ty := ExecOk; KVs := [(To tx, Payload tx)]; Logs := [] |}.
Definition memset (prev : bytes) (height : Z) (kvs : list KeyValue) : bytes :=
  TxDemo.spread 32 (TxDemo.mix (TxDemo.esc prev (foldr (λ kv s, TxDemo.esc kv.1 (TxDemo.esc kv.2 s)) "" kvs)) 1).

Definition env : BlockEnv := {|
  ee_tx := TxDemo.env; ee_merkle := middle_env; header_Encode := encode_header;
  ForkBlockHash _ := true; ForkCheckTxDup _ := true; ncpu := 4; arrival n := seq 0 n |}.
Definition services : Services := {|
  ask_dup _ _ := Ret []; ask_exec _ b := Ret (run <$> Txs b); ask_memset prev h kvs := Ret (memset prev h kvs);
  ask_check _ := Ret tt; ask_commit _ := Ret tt; ask_local _ := Ret []; ask_del_local _ := Ret [] |}.

Definition tx (to p : string) (nonce : Z) : Transaction :=
  mkTx "coins" p (Some (mkSig 1 "key" "key")) 100000 0 nonce to 0 None None.
Definition genesis_root : bytes := TxDemo.spread 32 1.
(** A proposal with a failing transaction; the block it becomes. *)
Definition proposal : Block :=
  mkBlock 0 genesis_root "" "" 7 100 520159231 "" 0 None [tx "bob" "5" 1; tx "" "8" 2; tx "bob" "9" 3].
Definition sealed : Block :=
  match @ExecBlock env services genesis_root proposal false true with Ret (d, _) => bd_Block d | _ => proposal end.
End BlockDemo.

Lemma exec_block_witness :
  ∃ d, @ExecBlock BlockDemo.env BlockDemo.services BlockDemo.genesis_root BlockDemo.sealed true true = Ret (d, []) ∧
    bd_KV d = [("bob", "9")]%string ∧ NoDup (bd_KV d).*1 ∧
    @b_Hash BlockDemo.env (bd_Block d) = @b_Hash BlockDemo.env BlockDemo.sealed.
Proof.
  eexists. split; [vm_compute; reflexivity|]. split; [reflexivity|].
  destruct (@exec_block BlockDemo.env BlockDemo.services BlockDemo.genesis_root BlockDemo.sealed true true _ [] ltac:(vm_compute; reflexivity))
    as (_ & H1 & _ & _ & _ & H2).
  split; [exact H1|apply H2; reflexivity].
Defined.
