(* ===== verification/Consensus.v ===== *)
(** The consensus module ([system/consensus/base.go], [system/consensus/solo/solo.go]): the
    client every consensus algorithm is built on, with its checks of blocks and the packing of
    transactions, and the solo miner, which makes a block whenever the pool has transactions. *)

From Stdlib Require Import Ascii String.
From S2P Require Import Prelude Types Account Fork Tx TxTheorems Merkle Block.
Local Open Scope string_scope.
Local Open Scope Z_scope.

Definition ErrBlockHeight : error := ErrOther "ErrBlockHeight".
Definition ErrBlockTime : error := ErrOther "ErrBlockTime".
Definition ErrParentHash : error := ErrOther "ErrParentHash".
Definition ErrBlockSize : error := ErrOther "ErrBlockSize".
Definition ErrManyTx : error := ErrOther "ErrManyTx".
Definition ErrMinerIsStared : error := ErrOther "ErrMinerIsStared".
Definition ErrMinerNotStared : error := ErrOther "ErrMinerNotStared".
Definition MaxBlockSize : Z := 20000000.
Definition genesis_amount : Z := 100000000 * 100000000.

(** The size of a block's message: its fixed fields take less than 100 bytes besides the bytes
    of the hashes, and each transaction is preceded by its tag and length. *)
Class BlockSize `{!TxEnv} := {
  block_Size : Block → Z;
  block_Size_nonneg : ∀ b, 0 <= block_Size b;
  block_Size_law : ∀ b, b_Signature b = None →
    block_Size b <= 100 + Z.of_nat (String.length (ParentHash b) + String.length (TxHash b) + String.length (StateHash b) + String.length (MainHash b))
      + foldr (λ tx n, proto_Size tx + 6 + n) 0 (Txs b)
}.

(** The modules asked by message, in a world [W]: the pool for transactions and to delete
    some, the blockchain for blocks, whether it is synchronised, which transactions it has
    ([nb_services]) and to add a block. *)
Class Neighbours (W : Type) := {
  nb_services : W → Services;
  nb_txs : Z → W → outcome (list Transaction);
  nb_del : list bytes → M W unit;
  nb_sync : W → outcome bool;
  nb_last : W → outcome (option Block);
  nb_block : Z → W → outcome Block;
  nb_add : Block → M W BlockDetail
}.

(** What the chain's parameters say ([types.GetP]). *)
Record ChainParam := { MaxTxNumber : Z → Z; PowLimitBits : Z }.

(** [type BaseClient struct]; [once] tells whether [InitMiner] has run. *)
Record BaseClient := mkBC { minerStart : Z; isclosed : Z; currentBlock : option Block; isCaughtUp : Z; once : bool }.
Definition set_minerStart (c : BaseClient) x := mkBC x (isclosed c) (currentBlock c) (isCaughtUp c) (once c).
Definition set_current (c : BaseClient) b := mkBC (minerStart c) (isclosed c) b (isCaughtUp c) (once c).

Definition NewBaseClient (minerstart : bool) : BaseClient := mkBC (if minerstart then 1 else 0) 0 None 0 false.

(** The algorithm on top ([type Miner interface]), its block-making loop apart. *)
Record Miner := {
  CreateGenesisTx : list Transaction;
  GetGenesisBlockTime : Z;
  child_CheckBlock : Block → BlockDetail → outcome unit;
  child_ProcEvent : Z → bool
}.

Section Consensus.
Context {W : Type} {N : Neighbours W} {ENV : BlockEnv} {BSZ : BlockSize} (C : TxConfig) (P : ChainParam) (child : Miner).

Abbreviation St := (BaseClient * W)%type.

Definition ask {A} (f : W → outcome A) : M St A := λ s, (f s.2, s).
Definition ask_to {A} (f : M W A) : M St A := λ s, let '(r, w) := f s.2 in (r, (s.1, w)).
Definition on_client (f : BaseClient → BaseClient) : M St unit := λ s, (Ret tt, (f s.1, s.2)).

Definition IsClosed (c : BaseClient) : bool := isclosed c =? 1.
Definition IsMining (c : BaseClient) : bool := minerStart c =? 1.
Definition bc_Close (c : BaseClient) : BaseClient := mkBC 0 1 (currentBlock c) (isCaughtUp c) (once c).

Definition IsCaughtUp (w : W) : outcome bool := match nb_sync w with Ret b => Ret b | Err _ => Ret false | Panic => Panic end.
Definition RequestTx (listSize : Z) (w : W) : outcome (list Transaction) :=
  match nb_txs listSize w with Ret l => Ret l | Err _ => Ret [] | Panic => Panic end.

Definition bc_CheckTxDup (txs : list Transaction) (w : W) : outcome (list Transaction) :=
  match CheckTxDup (nb_services w) txs 0 with Ret l => Ret l | Err _ => Ret txs | Panic => Panic end.

(** [merkle.CalcMerkleRoot] of transactions. *)
Definition txs_root (txs : list Transaction) : outcome bytes :=
  let hashes := (λ tx, Some (Hash tx)) <$> txs in CalcMerkleRoot ncpu (arrival (group_count ncpu hashes)) hashes.

(** The transactions of the first list whose hash is not in the second. *)
Definition diffTx (tx1 tx2 : list Transaction) : list Transaction :=
  let txlist2 : gset bytes := list_to_set (Hash <$> tx2) in filter (λ tx, Hash tx ∉ txlist2) tx1.
Definition buildHashList (deltx : list Transaction) : list bytes := Hash <$> deltx.
Definition delMempoolTx (deltx : list Transaction) : M St unit := ask_to (nb_del (buildHashList deltx)).

Definition WriteBlock (block : Block) : M St unit :=
  let rawtxs := Txs block in
  blockdetail ← ask_to (nb_add block);
  let deltx := diffTx rawtxs (Txs (bd_Block blockdetail)) in
  _ ← (if (0 <? length deltx)%nat then delMempoolTx deltx else mret tt);
  on_client (λ c, set_current c (Some (bd_Block blockdetail))).

Definition InitBlock : M St unit :=
  block ← must (ask nb_last);
  match block with
  | None =>
      let tx := CreateGenesisTx child in
      root ← ask (λ _, txs_root tx);
      must (WriteBlock (mkBlock 0 zeroHash root "" 0 (GetGenesisBlockTime child) (PowLimitBits P) "" 0 None tx))
  | Some block => on_client (λ c, set_current c (Some block))
  end.
Definition InitMiner : M St unit := λ s,
  if once s.1 then (Ret tt, s)
  else InitBlock (mkBC (minerStart s.1) (isclosed s.1) (currentBlock s.1) (isCaughtUp s.1) true, s.2).

Definition UpdateCurrentBlock : M St unit := λ s,
  match nb_last s.2 with
  | Ret block => (Ret tt, (set_current s.1 block, s.2))
  | Err _ => (Ret tt, s)
  | Panic => (Panic, s)
  end.

Definition bc_CheckBlock (block : BlockDetail) (w : W) : outcome unit :=
  let b := bd_Block block in
  if b_Height b <=? 0 then Ret tt
  else
    parent ← nb_block (b_Height b -₆₄ 1) w;
    if negb (b_Height parent +₆₄ 1 =? b_Height b) then Err ErrBlockHeight
    else
      timeFork ← is_fork C (b_Height b) "ForkCheckBlockTime";
      if timeFork && (BlockTime b <? BlockTime parent) then Err ErrBlockTime
      else if negb (String.eqb (ParentHash b) (b_Hash parent)) then Err ErrParentHash
      else
        sizeFork ← is_fork C (b_Height b) "ForkBlockCheck";
        _ ← (if sizeFork : bool then
               if MaxBlockSize <? block_Size b then Err ErrBlockSize
               else if MaxTxNumber P (b_Height b) <? Z.of_nat (length (Txs b)) then Err ErrManyTx
               else Ret tt
             else Ret tt);
        child_CheckBlock child parent block.

(** The loop of [AddTxsToBlock]: what is left of the list, the count and the size so far, the
    transactions of the block and the transactions added. *)
Fixpoint add_loop (max maxTx : Z) (txs : list Transaction) (currentCount size : Z) (btxs addedTx : list Transaction) :
    outcome (list Transaction * list Transaction) :=
  match txs with
  | [] => Ret (btxs, addedTx)
  | tx :: txs =>
      match GetTxGroup tx with
      | Panic => Panic
      | Err _ => add_loop max maxTx txs currentCount size btxs addedTx
      | Ret None =>
          let currentCount := currentCount +₆₄ 1 in
          if maxTx <? currentCount then Ret (btxs, addedTx)
          else
            let size := size +₆₄ proto_Size tx in
            if max <? size then Ret (btxs, addedTx)
            else add_loop max maxTx txs currentCount size (btxs ++ [tx])%list (addedTx ++ [tx])%list
      | Ret (Some g) =>
          let currentCount := currentCount +₆₄ Z.of_nat (length g) in
          if maxTx <? currentCount then Ret (btxs, addedTx)
          else
            let size := foldl (λ size t, size +₆₄ proto_Size t) size g in
            if max <? size then Ret (btxs, addedTx)
            else add_loop max maxTx txs currentCount size (btxs ++ g)%list (addedTx ++ g)%list
      end
  end.
Definition AddTxsToBlock (block : Block) (txs : list Transaction) : outcome (Block * list Transaction) :=
  '(btxs, addedTx) ← add_loop (MaxBlockSize - 100000) (MaxTxNumber P (b_Height block)) txs
    (Z.of_nat (length (Txs block))) (block_Size block) (Txs block) [];
  Ret (set_Txs block btxs, addedTx).

(** ** The messages *)

Inductive cmsg :=
  | EventConsensusQuery (answer : outcome bytes) | EventAddBlock (d : BlockDetail) | EventCheckBlock (d : BlockDetail)
  | EventMinerStart | EventMinerStop | EventDelBlock (d : BlockDetail) | EventOther (ty : Z).
Inductive creply := RNothing | RErr (e : option error) | RAnswer (a : outcome bytes).

(** A query is answered by the method it names, found by reflection: the message carries the
    answer. *)
Definition bc_handle (msg : cmsg) : M St creply := λ s,
  match msg with
  | EventConsensusQuery answer => (Ret (RAnswer answer), s)
  | EventAddBlock d => (Ret RNothing, (set_current s.1 (Some (bd_Block d)), s.2))
  | EventCheckBlock d =>
      match bc_CheckBlock d s.2 with Ret _ => (Ret (RErr None), s) | Err e => (Ret (RErr (Some e)), s) | Panic => (Panic, s) end
  | EventMinerStart =>
      if negb (minerStart s.1 =? 0) then (Ret (RErr (Some ErrMinerIsStared)), s)
      else (_ ← InitMiner; mret (RErr None)) (set_minerStart s.1 1, s.2)
  | EventMinerStop =>
      if negb (minerStart s.1 =? 1) then (Ret (RErr (Some ErrMinerNotStared)), s)
      else (Ret (RErr None), (set_minerStart s.1 0, s.2))
  | EventDelBlock _ => (_ ← UpdateCurrentBlock; mret RNothing) s
  | EventOther ty => (Ret (if child_ProcEvent child ty then RNothing else RErr (Some ErrActionNotSupport)), s)
  end.

(** ** The solo miner: one turn of the loop of [CreateBlock], at the time [now] *)

Definition solo_block (now : Z) (lastBlock : Block) (txs : list Transaction) : outcome Block :=
  let newblock := mkBlock 0 (b_Hash lastBlock) "" "" (b_Height lastBlock +₆₄ 1) 0 0 "" 0 None [] in
  '(newblock, _) ← AddTxsToBlock newblock txs;
  root ← txs_root (Txs newblock);
  let time := if now <=? BlockTime lastBlock then BlockTime lastBlock +₆₄ 1 else now in
  Ret (mkBlock 0 (ParentHash newblock) root "" (b_Height newblock) time (PowLimitBits P) "" 0 None (Txs newblock)).

Inductive turn := TClosed | TWait | TMined | TFailed.

(** [err := client.WriteBlock(...)]: a turn that failed, or not. *)
Definition write_turn (newblock : Block) : M St turn := λ s,
  match WriteBlock newblock s with
  | (Ret _, s) => (Ret TMined, s)
  | (Err _, s) => (Ret TFailed, s)
  | (Panic, s) => (Panic, s)
  end.
Definition mine (now : Z) (lastBlock : Block) : M St turn :=
  txs ← ask (RequestTx (MaxTxNumber P (b_Height lastBlock +₆₄ 1)));
  if (length txs =? 0)%nat then mret TWait
  else
    txs ← ask (bc_CheckTxDup txs);
    newblock ← ask (λ _, solo_block now lastBlock txs);
    write_turn newblock.

Definition CreateBlock_turn (now : Z) : M St turn := λ s,
  if IsClosed s.1 then (Ret TClosed, s)
  else if negb (IsMining s.1) then (Ret TWait, s)
  else
    match IsCaughtUp s.2 with
    | Ret true =>
        match currentBlock s.1 with
        | None => (Panic, s)
        | Some lastBlock => mine now lastBlock s
        end
    | Ret false | Err _ => (Ret TWait, s)
    | Panic => (Panic, s)
    end.
End Consensus.

(** The solo algorithm takes every block; [payload] is the encoded genesis action. *)
Definition solo (genesis : string) (genesisTime : Z) (payload : Z → bytes) : Miner := {|
  CreateGenesisTx := [mkTx "coins" (payload genesis_amount) None 0 0 0 genesis 0 None None];
  GetGenesisBlockTime := genesisTime;
  child_CheckBlock _ _ := Ret tt;
  child_ProcEvent _ := false
|}.
