(* ===== verification/ConsensusTheorems.v ===== *)
(** The blocks of the solo miner: what they hold, that the consensus check takes them, and
    that mining empties the pool. *)

From Stdlib Require Import Ascii String.
From S2P Require Import Prelude Types Account Fork Tx TxTheorems Merkle Block Consensus.
Local Open Scope string_scope.
Local Open Scope Z_scope.

(** ** Packing *)

Section Packing.
Context {ENV : BlockEnv}.

(** The transactions an entry of the pool stands for: none when its group is broken. *)
Definition expand (tx : Transaction) : list Transaction :=
  match GetTxGroup tx with Ret None => [tx] | Ret (Some g) => g | _ => [] end.
Definition sizes (l : list Transaction) : Z := foldr (λ t n, proto_Size t + n) 0 l.
(** What messages cannot exceed. *)
Definition small (tx : Transaction) : Prop :=
  Z.of_nat (length (expand tx)) < 2 ^ 31 ∧ Forall (λ t, proto_Size t < 2 ^ 31) (expand tx).
Lemma sizes_app a b : sizes (a ++ b) = sizes a + sizes b.
Proof using Type. induction a as [|t a IH]; simpl; lia. Qed.
Lemma sizes_nonneg l : 0 <= sizes l.
Proof using Type. induction l as [|t l IH]; simpl; [lia|]. pose proof (proto_Size_nonneg t). lia. Qed.
Lemma sizes_bound l x : 0 <= x → Forall (λ t, proto_Size t <= x) l → sizes l <= x * Z.of_nat (length l).
Proof using Type. intros Hx. induction 1 as [|t l H _ IH]; simpl; lia. Qed.

Lemma sum_loop g size : 0 <= size → size + sizes g < 2 ^ 63 → foldl (λ size t, size +₆₄ proto_Size t) size g = size + sizes g.
Proof using Type.
  revert size. induction g as [|t g IH]; intros size H0 H; simpl in *; [lia|]. pose proof (proto_Size_nonneg t). pose proof (sizes_nonneg g).
  rewrite wrap64_id by (unfold in64; lia). rewrite IH by lia. lia.
Qed.

Lemma GetTxGroup_no_panic tx : GetTxGroup tx ≠ Panic.
Proof using Type. unfold GetTxGroup. by repeat case_match. Qed.

(** One turn of the loop, for a single transaction and a group alike. *)
Lemma add_loop_cons max maxTx tx txs c size b a :
  add_loop max maxTx (tx :: txs) c size b a =
    match GetTxGroup tx with
    | Err _ => add_loop max maxTx txs c size b a
    | _ =>
        if maxTx <? c +₆₄ Z.of_nat (length (expand tx)) then Ret (b, a)
        else
          let size' := foldl (λ size t, size +₆₄ proto_Size t) size (expand tx) in
          if max <? size' then Ret (b, a)
          else add_loop max maxTx txs (c +₆₄ Z.of_nat (length (expand tx))) size' (b ++ expand tx) (a ++ expand tx)
    end.
Proof using Type. pose proof (GetTxGroup_no_panic tx). cbn [add_loop]. unfold expand. by destruct (GetTxGroup tx) as [[g|]|e|]. Qed.

(** [l] are the transactions of the longest front of the list within the limits. *)
Record packs (max maxTx : Z) (txs : list Transaction) (c size : Z) (l : list Transaction) (n : nat) : Prop := {
  pk_take : (n <= length txs)%nat ∧ l = take n txs ≫= expand;
  pk_count : c + Z.of_nat (length l) <= maxTx;
  pk_size : size + sizes l <= max;
  pk_max : n = length txs ∨ ∃ tx, txs !! n = Some tx ∧
    ¬ (c + Z.of_nat (length (l ++ expand tx)) <= maxTx ∧ size + sizes (l ++ expand tx) <= max)
}.

Lemma packs_nil max maxTx txs c size : c <= maxTx → size <= max →
  (∀ tx rest, txs = tx :: rest → maxTx < c + Z.of_nat (length (expand tx)) ∨ max < size + sizes (expand tx)) →
  packs max maxTx txs c size [] 0.
Proof using Type.
  intros Hc Hs Hno. split; [by split; [lia|]|simpl; lia|simpl; lia|]. destruct txs as [|tx txs]; [by left|right]. exists tx. split; [done|].
  destruct (Hno tx txs eq_refl); simpl; lia.
Qed.

Lemma packs_cons max maxTx tx txs c size l n :
  packs max maxTx txs (c + Z.of_nat (length (expand tx))) (size + sizes (expand tx)) l n → packs max maxTx (tx :: txs) c size (expand tx ++ l) (S n).
Proof using Type.
  intros [[Hn ->] Hc Hs Hm]. split.
  - split; [simpl; lia|done].
  - rewrite length_app. lia.
  - rewrite sizes_app. lia.
  - destruct Hm as [->|(tx' & Htx & Hno)]; [by left|right]. exists tx'. split; [done|]. rewrite <-app_assoc, (length_app (expand tx)), (sizes_app (expand tx)). lia.
Qed.

Lemma add_loop_spec max maxTx txs c size b a : 0 <= c <= maxTx → 0 <= size <= max → maxTx < 2 ^ 31 → max < 2 ^ 31 → Forall small txs →
  ∃ l n, add_loop max maxTx txs c size b a = Ret ((b ++ l)%list, (a ++ l)%list) ∧ packs max maxTx txs c size l n.
Proof using Type.
  intros Hc Hs HT HM Hsm. revert c size b a Hc Hs. induction Hsm as [|tx txs [H1 H2] Hsm IH]; intros c size b a Hc Hs.
  { exists [], 0%nat. rewrite !app_nil_r. split; [done|]. by apply packs_nil; [lia..|]. }
  assert (sizes (expand tx) <= 2 ^ 31 * Z.of_nat (length (expand tx))) as Hb.
  { apply sizes_bound; [lia|]. eapply Forall_impl; [|exact H2]. simpl. lia. }
  pose proof (sizes_nonneg (expand tx)).
  assert (∀ c' s' b' a', c' = c + Z.of_nat (length (expand tx)) → s' = size + sizes (expand tx) → c' <= maxTx → s' <= max →
    b' = (b ++ expand tx)%list → a' = (a ++ expand tx)%list →
    ∃ l n, add_loop max maxTx txs c' s' b' a' = Ret ((b ++ l)%list, (a ++ l)%list) ∧ packs max maxTx (tx :: txs) c size l n) as Hgo.
  { intros ???? -> -> Hc' Hs' -> ->. destruct (IH (c + Z.of_nat (length (expand tx))) (size + sizes (expand tx)) (b ++ expand tx)%list (a ++ expand tx)%list)
      as (l & n & E & Hp); [lia..|]. exists (expand tx ++ l)%list, (S n). rewrite E, !app_assoc. split; [done|]. by apply packs_cons. }
  assert (maxTx < c + Z.of_nat (length (expand tx)) ∨ max < size + sizes (expand tx) →
    ∃ l n, Ret (b, a) = Ret ((b ++ l)%list, (a ++ l)%list) ∧ packs max maxTx (tx :: txs) c size l n) as Hstop.
  { intros Hlt. exists [], 0%nat. rewrite !app_nil_r. split; [done|]. apply packs_nil; [lia..|]. by intros ?? [= <- <-]. }
  rewrite add_loop_cons. pose proof (GetTxGroup_no_panic tx) as Hnp. destruct (GetTxGroup tx) as [o|e|] eqn:Hg; [| |done].
  - rewrite wrap64_id by (unfold in64; lia). destruct (Z.ltb_spec maxTx (c + Z.of_nat (length (expand tx)))); [apply Hstop; auto|].
    rewrite sum_loop by nia. cbn zeta. destruct (Z.ltb_spec max (size + sizes (expand tx))); [apply Hstop; auto|by apply Hgo].
  - assert (expand tx = []) as Hnil by (unfold expand; by rewrite Hg). apply Hgo; rewrite ?Hnil, ?app_nil_r; simpl; lia || done.
Qed.
End Packing.

(** ** The block of a turn *)

Section SoloBlock.
Context {W : Type} {N : Neighbours W} {ENV : BlockEnv} {BSZ : BlockSize} (C : TxConfig) (P : ChainParam).
Context (Harrival : ∀ n, arrival n ≡ₚ seq 0 n).

(** The limits of a block leave room for the tags of its transactions in the 100000 bytes that
    packing keeps free. *)
Definition roomy (height : Z) : Prop := 0 <= MaxTxNumber P height ∧ 6 * MaxTxNumber P height + 300 <= 100000.

Lemma txs_root_ok txs : ∃ root, txs_root txs = Ret root ∧ String.length root = 32%nat.
Proof using Harrival.
  unfold txs_root. set (hs := Hash <$> txs). replace ((λ tx, Some (Hash tx)) <$> txs) with (Some <$> hs) by (unfold hs; by rewrite <-list_fmap_compose).
  assert (Forall digest hs) as Hd by (apply Forall_fmap, Forall_true; intros; apply tx_Sha256_length).
  destruct (calc_root ncpu (arrival (group_count ncpu (Some <$> hs))) hs Hd (Harrival _)) as (_ & E & Hr). rewrite E. eexists. split; [done|].
  destruct (decide (hs = [])) as [->|Hne]; [done|]. destruct (Hr Hne) as (h & -> & Hh). exact Hh.
Qed.

Lemma calc_hash_length txs root : CalcMerkleRootCache txs = Ret root → String.length root = 32%nat.
Proof using Harrival. intros E. destruct (txs_root_ok txs) as (r & E' & H). unfold txs_root in E'. unfold CalcMerkleRootCache in E. congruence. Qed.
Lemma b_Hash_length b : String.length (b_Hash b) = 32%nat.
Proof using Type. unfold b_Hash, HashNew, HashOld. destruct (ForkBlockHash _); apply tx_Sha256_length. Qed.

Definition header_of (last : Block) : Block := mkBlock 0 (b_Hash last) "" "" (b_Height last +₆₄ 1) 0 0 "" 0 None [].

Lemma header_size last : block_Size (header_of last) <= 132.
Proof using Type.
  pose proof (block_Size_law (header_of last) eq_refl) as H. cbn [header_of ParentHash TxHash StateHash MainHash Txs foldr] in H.
  rewrite b_Hash_length in H. simpl in H. lia.
Qed.

Lemma solo_block_spec now last txs : roomy (b_Height last +₆₄ 1) → Forall small txs →
  ∃ b l n, solo_block P now last txs = Ret b ∧ Txs b = l ∧
    packs (MaxBlockSize - 100000) (MaxTxNumber P (b_Height last +₆₄ 1)) txs 0 (block_Size (header_of last)) l n ∧
    ParentHash b = b_Hash last ∧ b_Height b = b_Height last +₆₄ 1 ∧ b_Signature b = None ∧ MainHash b = "" ∧
    BlockTime b = if now <=? BlockTime last then BlockTime last +₆₄ 1 else now.
Proof using Harrival.
  intros [H0 H6] Hs. unfold solo_block, AddTxsToBlock. fold (header_of last). cbn [header_of b_Height Txs length].
  pose proof (header_size last). pose proof (block_Size_nonneg (header_of last)).
  destruct (add_loop_spec (MaxBlockSize - 100000) (MaxTxNumber P (b_Height last +₆₄ 1)) txs 0 (block_Size (header_of last)) [] [])
    as (l & n & E & Hp); [unfold MaxBlockSize in *; lia..|done|].
  change (Z.of_nat 0) with 0. rewrite E. cbn [mbind outcome_bind app set_Txs header_of Txs ParentHash b_Height].
  destruct (txs_root_ok l) as (root & -> & _). cbn [mbind outcome_bind]. eexists _, l, n. by split_and!.
Qed.

Lemma foldr_sizes l : foldr (λ tx n, proto_Size tx + 6 + n) 0 l = sizes l + 6 * Z.of_nat (length l).
Proof using Type. induction l as [|t l IH]; simpl in *; lia. Qed.
Lemma sizes_sublist l k : l `sublist_of` k → sizes l <= sizes k.
Proof using Type. induction 1 as [|t l k _ IH|t l k _ IH]; simpl; [done|lia|]. pose proof (proto_Size_nonneg t). lia. Qed.

(** The forks the check asks about. *)
Definition check_forks : list string := ["ForkCheckBlockTime"; "ForkBlockCheck"].

(** An executed block of the miner passes the check of the consensus. *)
Lemma solo_check genesis time payload now last txs b sv prev d del w : roomy (b_Height last +₆₄ 1) → Forall small txs →
  0 <= b_Height last < 2 ^ 62 → 0 <= BlockTime last < 2 ^ 62 →
  (∀ k, k ∈ check_forks → is_fork C (b_Height last + 1) k ≠ Panic) → solo_block P now last txs = Ret b →
  ExecBlock sv prev b false true = Ret (d, del) → (String.length (StateHash (bd_Block d)) <= 32)%nat → nb_block (b_Height last) w = Ret last →
  bc_CheckBlock C P (solo genesis time payload) d w = Ret tt.
Proof using Harrival.
  intros Hroom Hs Hh Ht Hf Eb Hex Hst Hw. destruct (solo_block_spec now last txs Hroom Hs) as (b' & l & n & Eb' & El & Hp & E1 & E2 & E3 & E4 & E5).
  rewrite Eb in Eb'. injection Eb' as <-. apply ExecBlock_spec in Hex. destruct Hex as [(_ & X1 & X2 & X3 & _ & X4 & _ & X5) X6 X7 _ _ _ _].
  rewrite wrap64_id in E2 by (unfold in64; lia). unfold bc_CheckBlock. rewrite X1, X2, X3, E1, E2.
  destruct (Z.leb_spec (b_Height last + 1) 0); [lia|]. rewrite (wrap64_id (b_Height last + 1 - 1)) by (unfold in64; lia). replace (b_Height last + 1 - 1) with (b_Height last) by lia.
  rewrite Hw. cbn [mbind outcome_bind]. rewrite (wrap64_id (b_Height last + 1)), Z.eqb_refl by (unfold in64; lia). cbn [negb].
  assert (∀ k, k ∈ check_forks → ∃ x, is_fork C (b_Height last + 1) k = Ret x) as Hfork.
  { intros k Hk. specialize (Hf k Hk). unfold is_fork, IsFork, GetFork in *. repeat case_match; simpl in *; eauto; done. }
  destruct (Hfork "ForkCheckBlockTime") as [x ->]; [set_solver|]. destruct (Hfork "ForkBlockCheck") as [y ->]; [set_solver|]. cbn [mbind outcome_bind].
  replace (BlockTime b <? BlockTime last) with false; [|rewrite E5; destruct (Z.leb_spec now (BlockTime last)); [rewrite wrap64_id by (unfold in64; lia)|]; lia].
  rewrite andb_false_r, String.eqb_refl. cbn [negb]. destruct y; [|done].
  pose proof (calc_hash_length _ _ X7) as Hth. destruct Hroom as [Hr0 Hr]. rewrite wrap64_id in Hr, Hr0 by (unfold in64; lia).
  pose proof (sublist_length _ _ X6) as Hl. rewrite El in Hl. pose proof (sizes_sublist _ _ X6) as Hsz. rewrite El in Hsz.
  destruct Hp as [_ P1 P2 _]. rewrite wrap64_id in P1 by (unfold in64; lia).
  pose proof (block_Size_law (bd_Block d)) as Hlaw. rewrite X5, X1, X4, E1, E4, foldr_sizes in Hlaw. specialize (Hlaw E3).
  pose proof (b_Hash_length last). pose proof (block_Size_nonneg (header_of last)). simpl String.length in Hlaw. unfold MaxBlockSize in *.
  rewrite (proj2 (Z.ltb_ge _ _)) by lia. by rewrite (proj2 (Z.ltb_ge _ _)) by lia.
Qed.

(** C40: the solo miner's block follows the last block, is later than it, and holds the
    transactions of the longest front of the list that stays within the number and size
    limits, groups as a whole and broken groups left out.  Once the block is executed, the
    check of the consensus takes it. *)
Theorem solo_blocks genesis time payload now last txs : roomy (b_Height last +₆₄ 1) → Forall small txs →
  0 <= b_Height last < 2 ^ 62 → 0 <= BlockTime last < 2 ^ 62 → (∀ k, k ∈ check_forks → is_fork C (b_Height last + 1) k ≠ Panic) →
  ∃ b n, solo_block P now last txs = Ret b ∧ ParentHash b = b_Hash last ∧ b_Height b = b_Height last + 1 ∧ BlockTime last < BlockTime b ∧
    packs (MaxBlockSize - 100000) (MaxTxNumber P (b_Height b)) txs 0 (block_Size (header_of last)) (Txs b) n ∧
    ∀ sv prev d del w, ExecBlock sv prev b false true = Ret (d, del) → (String.length (StateHash (bd_Block d)) <= 32)%nat →
      nb_block (b_Height last) w = Ret last → bc_CheckBlock C P (solo genesis time payload) d w = Ret tt.
Proof using Harrival.
  intros Hroom Hs Hh Ht Hf. destruct (solo_block_spec now last txs Hroom Hs) as (b & l & n & Eb & El & Hp & E1 & E2 & _ & _ & E5). exists b, n.
  rewrite wrap64_id in E2 by (unfold in64; lia). rewrite El, E2. rewrite wrap64_id in Hp by (unfold in64; lia).
  split_and!; [done|done|done| |done|]; [rewrite E5; destruct (Z.leb_spec now (BlockTime last)); [rewrite wrap64_id by (unfold in64; lia)|]; lia|].
  intros sv prev d del w Hex Hst Hw. exact (solo_check genesis time payload now last txs b sv prev d del w Hroom Hs Hh Ht Hf Eb Hex Hst Hw).
Qed.
End SoloBlock.

(** ** Mining empties the pool *)

(** Modules that oblige the miner.  The pool hands out some of its transactions, the
    blockchain knows none of them; it takes every block on top of the chain, possibly without
    some transactions, and the pool forgets the transactions of the block. *)
Class Obliging (W : Type) {N : Neighbours W} {ENV : BlockEnv} := {
  pool : W → list Transaction;
  chain : W → list Block;
  ob_sync w : nb_sync w = Ret true;
  ob_txs n w : ∃ l, nb_txs n w = Ret l ∧ l ⊆ pool w ∧ NoDup (Hash <$> l) ∧ (pool w ≠ [] → 0 < n → l ≠ []);
  ob_dup w l h : ∃ dups, ask_dup (nb_services w) l h = Ret dups ∧ ∀ tx, tx ∈ pool w → Hash tx ∉ dups;
  ob_add w b last rest : chain w = last :: rest → b_Height b = b_Height last + 1 → ParentHash b = b_Hash last →
    ∃ d w', nb_add b w = (Ret d, w') ∧ b_Height (bd_Block d) = b_Height b ∧ Txs (bd_Block d) `sublist_of` Txs b ∧
      chain w' = bd_Block d :: chain w ∧ pool w' = filter (λ tx, Hash tx ∉ Hash <$> Txs (bd_Block d)) (pool w);
  ob_del w hs : ∃ w', nb_del hs w = (Ret tt, w') ∧ chain w' = chain w ∧ pool w' = filter (λ tx, Hash tx ∉ hs) (pool w)
}.

Section Drain.
Context {W : Type} {N : Neighbours W} {ENV : BlockEnv} {BSZ : BlockSize} {OB : Obliging W} (P : ChainParam).
Context (Harrival : ∀ n, arrival n ≡ₚ seq 0 n) (Hroom : ∀ h, 20 <= MaxTxNumber P h ∧ roomy P h).

(** An entry of the pool: a transaction, or a group of at most 20 filed under its first hash,
    no member longer than a transaction may be. *)
Definition proper (e : Transaction) : Prop :=
  ∃ x g, expand e = x :: g ∧ Hash x = Hash e ∧ (length (expand e) <= 20)%nat ∧ Forall (λ t, proto_Size t <= MaxTxSize) (expand e).

Fixpoint turns (times : list Z) (s : BaseClient * W) : outcome (list turn) * (BaseClient * W) :=
  match times with
  | [] => (Ret [], s)
  | now :: times =>
      match CreateBlock_turn P now s with
      | (Ret t, s) => match turns times s with (Ret ts, s) => (Ret (t :: ts), s) | r => r end
      | (Err e, s) => (Err e, s)
      | (Panic, s) => (Panic, s)
      end
  end.

(** The miner is on and its current block is the last of the chain. *)
Definition mining (s : BaseClient * W) (last : Block) : Prop :=
  IsClosed s.1 = false ∧ IsMining s.1 = true ∧ currentBlock s.1 = Some last ∧ ∃ rest, chain s.2 = last :: rest.

Lemma proper_small e : proper e → small e.
Proof using Type.
  intros (x & g & _ & _ & Hl & Hs). split; [lia|]. eapply Forall_impl; [|exact Hs]. simpl. unfold MaxTxSize. lia.
Qed.

(** No transaction of the pool is taken for a duplicate. *)
Lemma check_dup_pool w l : l ⊆ pool w → NoDup (Hash <$> l) → bc_CheckTxDup l w = Ret l.
Proof using Type.
  intros Hl Hn. unfold bc_CheckTxDup, CheckTxDup.
  assert ((if ForkCheckTxDup 0 then DelDupTx l else l) = l) as ->.
  { destruct (ForkCheckTxDup 0); [|done]. destruct (DelDupTx_spec l) as (Hsub & _ & Hall). apply sublist_same_length; [done|].
    pose proof (sublist_length _ _ Hsub). assert (length (Hash <$> l) <= length (Hash <$> DelDupTx l))%nat; [|rewrite !length_fmap in *; lia].
    apply submseteq_length, NoDup_submseteq; [done|]. intros h. apply Hall. }
  destruct (ob_dup w ((λ tx, (Hash tx, Expire tx)) <$> l) 0) as (dups & -> & Hd). cbn [mbind outcome_bind]. f_equal.
  apply filter_all. intros tx Htx. rewrite elem_of_list_to_set. by apply Hd, Hl.
Qed.

(** Packing a list of proper entries takes at least its first one. *)
Lemma packs_first h e txs size l n : proper e → 0 <= size <= 132 →
  packs (MaxBlockSize - 100000) (MaxTxNumber P h) (e :: txs) 0 size l n → ∃ t, t ∈ l ∧ Hash t = Hash e.
Proof using Hroom.
  clear Harrival. intros (x & g & Ex & Hx & Hl & Hs) Hsz [[Hn ->] _ _ Hmax]. exists x. split; [|done]. destruct n as [|n].
  - exfalso. destruct Hmax as [Hnil|(tx & [= <-] & Hno)]; [done|]. destruct (Hroom h) as [H20 _]. apply Hno. cbn [take mbind list_bind app].
    apply sizes_bound in Hs; [|unfold MaxTxSize; lia]. unfold MaxTxSize, MaxBlockSize in Hs |- *. lia.
  - cbn [take mbind list_bind]. rewrite Ex. set_solver.
Qed.

Lemma packs_members max maxTx txs c size l n t : packs max maxTx txs c size l n → t ∈ l → ∃ e, e ∈ txs ∧ t ∈ expand e.
Proof using Type.
  intros [[_ ->] _ _ _] Ht. apply list_elem_of_bind in Ht as (e & Ht & He). exists e. split; [|done]. apply elem_of_take in He as (i & Hi & _). by eapply list_elem_of_lookup_2.
Qed.

(** Writing the block: the chain grows by it, and none of its transactions is left in the pool. *)
Lemma WriteBlock_ok b c w last rest : chain w = last :: rest → b_Height b = b_Height last + 1 → ParentHash b = b_Hash last →
  ∃ d w', WriteBlock b (c, w) = (Ret tt, (set_current c (Some (bd_Block d)), w')) ∧ chain w' = bd_Block d :: chain w ∧
    b_Height (bd_Block d) = b_Height b ∧ Txs (bd_Block d) `sublist_of` Txs b ∧
    pool w' = filter (λ tx, Hash tx ∉ Hash <$> Txs b) (pool w).
Proof using Type.
  clear Harrival Hroom P. intros Hc Hh Hp. destruct (ob_add w b last rest Hc Hh Hp) as (d & w1 & E & Hd & Hsub & Hch & Hpool). exists d.
  assert (∀ h, h ∈ Hash <$> Txs (bd_Block d) → h ∈ Hash <$> Txs b) as Hin.
  { intros h (t & -> & Ht)%list_elem_of_fmap. apply list_elem_of_fmap_2. by eapply elem_of_submseteq, sublist_submseteq. }
  unfold WriteBlock, mbind, M_bind, ask_to, delMempoolTx, on_client. cbn [fst snd]. rewrite E. set (del := diffTx (Txs b) (Txs (bd_Block d))).
  assert (∀ h, h ∈ Hash <$> Txs b ↔ h ∈ Hash <$> Txs (bd_Block d) ∨ h ∈ buildHashList del) as Hall.
  { intros h. unfold del, buildHashList, diffTx. split.
    - intros (t & -> & Ht)%list_elem_of_fmap. destruct (decide (Hash t ∈ Hash <$> Txs (bd_Block d))) as [?|Hno]; [by left|right].
      apply list_elem_of_fmap_2, list_elem_of_filter. by rewrite elem_of_list_to_set.
    - intros [?|(t & -> & [_ Ht]%list_elem_of_filter)%list_elem_of_fmap]; [by apply Hin|]. by apply list_elem_of_fmap_2. }
  destruct (Nat.ltb_spec 0 (length del)) as [_|Hz].
  - unfold ask_to. cbn [fst snd]. destruct (ob_del w1 (buildHashList del)) as (w2 & -> & Hch2 & Hpool2). cbn [fst snd]. exists w2. rewrite Hch2, Hpool2, Hpool, list_filter_filter.
    split_and!; [done|done|done|done|]. apply filter_ext_in. intros tx _. rewrite Hall. tauto.
  - exists w1. cbn [fst snd]. rewrite Hpool. split_and!; [done|done|done|done|]. apply filter_ext_in. intros tx _. rewrite Hall.
    destruct del; [|simpl in Hz; lia]. simpl. set_solver.
Qed.

(** One turn: nothing happens without transactions; otherwise a block is added that holds only
    transactions of the pool, and the pool loses at least one of its own. *)
Lemma turn_ok now c w last : mining (c, w) last → Forall proper (pool w) → 0 <= b_Height last < 2 ^ 62 →
  (pool w = [] ∧ CreateBlock_turn P now (c, w) = (Ret TWait, (c, w))) ∨
  ∃ b c' w' (keep : list bytes), CreateBlock_turn P now (c, w) = (Ret TMined, (c', w')) ∧ mining (c', w') b ∧ chain w' = b :: chain w ∧
    b_Height b = b_Height last + 1 ∧ (∀ t, t ∈ Txs b → ∃ e, e ∈ pool w ∧ t ∈ expand e) ∧
    pool w' = filter (λ tx, Hash tx ∉ keep) (pool w) ∧ (length (pool w') < length (pool w))%nat.
Proof using Harrival Hroom.
  intros (H1 & H2 & H3 & rest & H4) Hprop Hh. cbn [fst snd] in *. unfold CreateBlock_turn. cbn [fst snd]. rewrite H1, H2, H3. cbn [negb].
  unfold IsCaughtUp. rewrite ob_sync. unfold mine, mbind, M_bind, ask, RequestTx. cbn [fst snd].
  destruct (Hroom (b_Height last +₆₄ 1)) as [H20 Hr]. destruct (ob_txs (MaxTxNumber P (b_Height last +₆₄ 1)) w) as (l & -> & Hl & Hn & Hne).
  destruct l as [|e l].
  { left. split; [|done]. destruct (decide (pool w = [])) as [|Hp]; [done|]. exfalso. by apply Hne; [|lia|]. }
  right. cbn [length Nat.eqb]. cbn [fst snd]. rewrite (check_dup_pool w _ Hl Hn).
  assert (Forall proper (e :: l)) as Hpr by (rewrite list.Forall_forall in Hprop |- *; intros x Hx; by apply Hprop, Hl).
  destruct (solo_block_spec P Harrival now last (e :: l) Hr) as (b & k & n & -> & Ek & Hp & E1 & E2 & _).
  { eapply Forall_impl; [|exact Hpr]. intros. by apply proper_small. }
  rewrite wrap64_id in E2 by (unfold in64; lia). unfold write_turn.
  destruct (WriteBlock_ok b c w last rest H4 E2 E1) as (d & w' & -> & Hch & Hhd & Hsub & Hpool).
  exists (bd_Block d), (set_current c (Some (bd_Block d))), w', (Hash <$> Txs b). split; [done|]. split; [split_and!; try done; by eexists|].
  split; [done|]. split; [lia|]. split; [|split; [done|]].
  - intros t Ht. assert (t ∈ k) as Htk by (rewrite <-Ek; by eapply elem_of_submseteq, sublist_submseteq).
    destruct (packs_members _ _ _ _ _ _ _ _ Hp Htk) as (x & Hx & Hxt). exists x. split; [by apply Hl|done].
  - rewrite Hpool. destruct (packs_first _ _ _ _ _ _ (proj1 (list.Forall_cons_1 _ _ _ Hpr))
      (conj (block_Size_nonneg _) (header_size last)) Hp) as (t & Ht & Hte).
    apply (length_filter_lt _ _ e); [apply Hl; set_solver|]. intros Hno. apply Hno. rewrite <-Hte, Ek. by apply list_elem_of_fmap_2.
Qed.

(** C8: mining makes progress.  While the other modules oblige, every turn of the solo
    miner ends, and after as many turns as the pool had entries the pool is empty, the
    current block is the last of the chain, and the blocks added hold only transactions
    the pool had. *)
Theorem solo_drains times c w last : mining (c, w) last → Forall proper (pool w) →
  0 <= b_Height last → b_Height last + Z.of_nat (length times) < 2 ^ 62 → (length (pool w) <= length times)%nat →
  ∃ ts c' w' last' new, turns times (c, w) = (Ret ts, (c', w')) ∧ pool w' = [] ∧ mining (c', w') last' ∧ chain w' = (new ++ chain w)%list ∧
    ∀ b t, b ∈ new → t ∈ Txs b → ∃ e, e ∈ pool w ∧ t ∈ expand e.
Proof using Harrival Hroom.
  revert c w last. induction times as [|now times IH]; intros c w last Hm Hp Hh Hb Hlen.
  { exists [], c, w, last, []. split_and!; [done|by destruct (pool w); [|simpl in Hlen; lia]|done|done|set_solver]. }
  cbn [turns length] in *. destruct (turn_ok now c w last Hm Hp) as [[Hnil E]|(b & c1 & w1 & keep & E & Hm1 & Hch & Hhb & Hmem & Hpool & Hlt)]; [lia| |]; rewrite E.
  - destruct (IH c w last) as (ts & c' & w' & last' & new & E' & H'); [done|done|done|lia|rewrite Hnil; simpl; lia|].
    rewrite E'. by exists (TWait :: ts), c', w', last', new.
  - assert (∀ x, x ∈ pool w1 → x ∈ pool w) as Hsub by (rewrite Hpool; intros x Hx; by apply list_elem_of_filter in Hx as [_ ?]).
    destruct (IH c1 w1 b) as (ts & c' & w' & last' & new & E' & H1 & H2 & H3 & H4); [done| |lia|lia|lia|].
    { rewrite list.Forall_forall in Hp |- *. auto. }
    rewrite E'. exists (TMined :: ts), c', w', last', (new ++ [b])%list. split_and!; [done|done|done|by rewrite H3, Hch, <-app_assoc|].
    intros b' t [Hb'|Hb'%list_elem_of_singleton]%elem_of_app Ht; [|subst b'; by apply Hmem]. destruct (H4 b' t Hb' Ht) as (e & He & ?). eauto.
Qed.
End Drain.

(** ** Witnesses *)

Module ConsensusDemo.
#[local] Existing Instance BlockDemo.env.

(** A block as long as its parts allow. *)
#[local] Instance block_size : BlockSize.
Proof.
  refine {| block_Size b := 100 + Z.of_nat (String.length (ParentHash b) + String.length (TxHash b) + String.length (StateHash b) + String.length (MainHash b))
      + foldr (λ tx n, proto_Size tx + 6 + n) 0 (Txs b) |}.
  - intros b. rewrite foldr_sizes. pose proof (sizes_nonneg (Txs b)). lia.
  - intros b _. lia.
Defined.

(** The pool and the chain.  Transactions without receiver are dropped from a block. *)
Definition world : Type := list Transaction * list Block.
Definition kept (b : Block) : Block := set_Txs b (filter (λ tx, To tx ≠ "") (Txs b)).
#[local] Instance neighbours : Neighbours world := {|
  nb_services _ := BlockDemo.services;
  nb_txs n w := Ret (DelDupTx (take (Z.to_nat n) w.1));
  nb_del hs w := (Ret tt, (filter (λ tx, Hash tx ∉ hs) w.1, w.2));
  nb_sync _ := Ret true;
  nb_last w := Ret (head w.2);
  nb_block h w := match list_find (λ b, b_Height b = h) w.2 with Some (_, b) => Ret b | None => Err ErrNotFound end;
  nb_add b w := (Ret (mkBD (kept b) [] [] ""), (filter (λ tx, Hash tx ∉ Hash <$> Txs (kept b)) w.1, kept b :: w.2))
|}.

#[local] Instance obliging : Obliging world.
Proof.
  refine {| pool w := w.1; chain w := w.2 |}.
  - done.
  - intros n [p ch]. cbn [fst nb_txs neighbours]. destruct (DelDupTx_spec (take (Z.to_nat n) p)) as (H1 & H2 & H3). eexists. split; [done|].
    split; [|split; [done|]].
    + intros x Hx. assert (x ∈ take (Z.to_nat n) p) as Hx' by (by eapply elem_of_submseteq, sublist_submseteq).
      apply elem_of_take in Hx' as (i & Hi & _). by eapply list_elem_of_lookup_2.
    + intros Hp Hn E. destruct p as [|e p]; [done|]. destruct (Z.to_nat n) as [|k] eqn:En; [lia|].
      assert (Hash e ∈ Hash <$> DelDupTx (take (S k) (e :: p))) as He by (apply H3, list_elem_of_fmap_2; left).
      rewrite E in He. by apply elem_of_nil in He.
  - intros w l h. exists []. split; [done|]. intros tx _. apply not_elem_of_nil.
  - intros [p ch] b last rest _ _ _. eexists _, _. split; [done|]. split; [done|]. split; [apply sublist_filter|done].
  - intros w hs. by eexists.
Defined.

Definition P : ChainParam := {| MaxTxNumber _ := 100; PowLimitBits := 520159231 |}.
Definition C : TxConfig := {| tc_forks := ∅; tc_title := "chain"; tc_TxHeight := false |}.
Definition last : Block := mkBlock 0 BlockDemo.genesis_root "" "" 7 100 520159231 "" 0 None [].
Definition entries : list Transaction := [BlockDemo.tx "bob" "5" 1; BlockDemo.tx "" "8" 2; BlockDemo.tx "carol" "9" 3].
Definition client : BaseClient := mkBC 1 0 (Some last) 0 true.

Lemma arrives : ∀ n, arrival n ≡ₚ seq 0 n.
Proof. done. Qed.
Lemma room : ∀ h, 20 <= MaxTxNumber P h ∧ roomy P h.
Proof. intros h. split; [|split]; cbn; lia. Qed.
Lemma all_proper : Forall proper entries.
Proof.
  repeat apply list.Forall_cons_2; try apply list.Forall_nil_2; (eexists _, []; split; [reflexivity|]; split; [reflexivity|]; split; [cbn; lia|]);
    apply list.Forall_singleton; apply Z.leb_le; vm_compute; reflexivity.
Qed.
Lemma all_small : Forall small entries.
Proof. eapply Forall_impl; [|exact all_proper]. apply proper_small. Qed.
Lemma is_mining : mining (client, (entries, [last])) last.
Proof. split_and!; try done. by eexists. Qed.
Lemma forks_known : ∀ k, k ∈ check_forks → is_fork C (b_Height last + 1) k ≠ Panic.
Proof. done. Qed.

Lemma solo_drains_witness : ∃ ts c' w', turns P [200; 210; 220] (client, (entries, [last])) = (Ret ts, (c', w')) ∧ pool w' = [].
Proof.
  destruct (solo_drains P arrives room [200; 210; 220] client (entries, [last]) last is_mining all_proper) as (ts & c' & w' & l' & new & E & H & _);
    [vm_compute; discriminate|vm_compute; reflexivity|cbn; lia|]. exists ts, c', w'. exact (conj E H).
Defined.

Lemma solo_blocks_witness : ∃ b n, solo_block P 90 last entries = Ret b ∧ b_Height b = 8 ∧ BlockTime last < BlockTime b ∧
  packs (MaxBlockSize - 100000) (MaxTxNumber P (b_Height b)) entries 0 (block_Size (header_of last)) (Txs b) n.
Proof.
  destruct (solo_blocks (N := neighbours) C P arrives "bob" 1 (λ _, "") 90 last entries (proj2 (room _)) all_small) as (b & n & E1 & _ & E2 & E3 & E4 & _);
    [vm_compute; split; [discriminate|reflexivity]|vm_compute; split; [discriminate|reflexivity]|exact forks_known|].
  exists b, n. exact (conj E1 (conj E2 (conj E3 E4))).
Defined.

(** The block made, executed and checked. *)
Lemma check_taken : match solo_block P 90 last entries with
  | Ret b => match ExecBlock BlockDemo.services BlockDemo.genesis_root b false true with
             | Ret (d, _) => bc_CheckBlock C P (solo "bob" 1 (λ _, "")) d (entries, [last]) = Ret tt ∧ length (Txs (bd_Block d)) = 2%nat
             | _ => False
             end
  | _ => False
  end.
Proof. vm_compute. done. Qed.
End ConsensusDemo.
