(* ===== verification/Table.v ===== *)
(** Tables over a key-value database ([common/db/table/table.go], [query.go], [count.go]):
    rows with a primary key and indices, changed in a cache and saved as key-value pairs.

    Rows are shared between the list of changes and the map by primary key, so a row of the
    map is a position in the list.  The database is only read. *)

From Stdlib Require Import Ascii String.
From S2P Require Import Prelude DbIter ListHelper Mvcc Types KVStore Account Block.
Local Open Scope string_scope.
Local Open Scope Z_scope.
Local Open Scope list_scope.

(** ** Rows *)

(** [type RowMeta interface]: the value of a field of a payload.  The payload set last
    is an argument of [Get], and the row that [CreateRow] makes is filled by [Decode]. *)
Class RowMeta (D : Type) := {
  SetPayload : D → outcome unit;
  meta_Get : D → string → outcome bytes
}.

Inductive rowTy := RNone | RAdd | RUpdate | RDel.
#[export] Instance rowTy_eq_dec : EqDecision rowTy.
Proof. solve_decision. Defined.

Definition ErrDecode : error := ErrOther "ErrDecode".
Definition ErrEmptyPrimaryKey : error := ErrOther "ErrEmptyPrimaryKey".
Definition ErrPrimaryKey : error := ErrOther "ErrPrimaryKey".
Definition ErrIndexKey : error := ErrOther "ErrIndexKey".
Definition ErrTooManyIndex : error := ErrOther "ErrTooManyIndex".
Definition ErrTablePrefixOrTableName : error := ErrOther "ErrTablePrefixOrTableName".
Definition ErrDupPrimaryKey : error := ErrOther "ErrDupPrimaryKey".
Definition ErrNilValue : error := ErrOther "ErrNilValue".
Definition ErrInvalidParam : error := ErrOther "ErrInvalidParam".

(** [binary.LittleEndian] of an int64. *)
Fixpoint le_bytes (n : nat) (z : Z) : string :=
  match n with O => "" | S n => String (ascii_of_N (Z.to_N (z mod 256))) (le_bytes n (z / 256)) end.
Fixpoint le_value (s : string) : Z :=
  match s with EmptyString => 0 | String c s => Z.of_N (N_of_ascii c) + 256 * le_value s end.
Definition encodeInt64 (p : Z) : bytes := le_bytes 8 p.
Definition decodeInt64 (p : bytes) : Z := wrap64 (le_value p).

(** ** Options *)

Record Option_ := mkOption { o_Prefix : string; o_Name : string; o_Primary : string; o_Join : bool; o_Index : list string }.
Definition sep : string := "-".
Definition joinsep : string := "#".

Section Table.
Context {D K : Type} `{!EqDecision D} `{!RowMeta D} {CD : Codec D} {CZ : Codec Z} `{!KVDB K}.

Record Row := mkRow { r_Ty : rowTy; Primary : bytes; r_Data : D; r_old : option D }.

Definition Row_Encode (row : Row) : bytes :=
  encodeInt64 (Z.of_nat (String.length (Primary row))) +:+ Primary row +:+ Encode (r_Data row).

(** A length that is negative, or too big to add eight to it, is a panic. *)
Definition DecodeRow (data : bytes) : outcome (bytes * bytes) :=
  if (String.length data <=? 8)%nat then Err ErrDecode
  else
    let l := decodeInt64 (str_take 8 data) +₆₄ 8 in
    if Z.of_nat (String.length data) <? l then Err ErrDecode
    else if l <? 8 then Panic
    else Ret (str_slice 8 (Z.to_nat l) data, str_drop (Z.to_nat l) data).

Record Table := mkTable { t_rows : list Row; rowmap : gmap bytes nat; t_opt : Option_; t_num : Z }.

Section Ops.
Context (kvdb : K) (opt : Option_).

(** ** Keys *)

Definition dataprefix : string := o_Prefix opt +:+ sep +:+ o_Name opt +:+ "-d-".
Definition metaprefix : string := o_Prefix opt +:+ sep +:+ o_Name opt +:+ "-m-".
Definition getDataKey (primaryKey : bytes) : bytes := dataprefix +:+ primaryKey.
Definition primaryPrefix : bytes := dataprefix.
Definition indexPrefix (indexName : string) : bytes := metaprefix +:+ indexName +:+ sep.
Definition getIndexKey (indexName : string) (index primaryKey : bytes) : bytes :=
  indexPrefix indexName +:+ index +:+ sep +:+ primaryKey.

(** ** The counter: [count.go] *)

Definition MinInt64 : Z := - 2 ^ 63.
Definition count_key_data : bytes := o_Prefix opt +:+ sep +:+ o_Name opt +:+ sep +:+ "autoinc" +:+ sep.
Definition NewCount : Z := MinInt64.
(** Decoding nothing gives 0. *)
Definition count_Get : M Z Z := λ num,
  if num =? MinInt64 then
    match kvdb_Get kvdb count_key_data with
    | Ret data => match Decode data with Some n => (Ret n, n) | None => (Err (ErrOther "proto"), num) end
    | Err e => if decide (e = ErrNotFound) then (Ret 0, 0) else (Err e, num)
    | Panic => (Panic, num)
    end
  else (Ret num, num).
(** [c.num, err = c.Get()]: after an error the counter is 0. *)
Definition count_step (f : Z → Z) : M Z Z := λ num,
  match count_Get num with
  | (Ret n, _) => (Ret (f n), f n)
  | (Err e, _) => (Err e, 0)
  | (Panic, num) => (Panic, num)
  end.
Definition count_Inc : M Z Z := count_step (λ n, n +₆₄ 1).
Definition count_Dec : M Z Z := count_step (λ n, n -₆₄ 1).
Definition count_Set (i : Z) : M Z unit := λ _, (Ret tt, i).
Definition count_Save (num : Z) : list (bytes * option bytes) :=
  if num =? MinInt64 then [] else [(count_key_data, Some (Encode num))].

(** ** The table *)

(** With [auto] the key is not part of the payload. *)
Definition getPrimaryKey (payload : D) (primary : string) : outcome bytes :=
  if String.eqb primary "" then Err ErrEmptyPrimaryKey
  else if has_char "-" primary then Err ErrPrimaryKey
  else if negb (String.eqb primary "auto") then meta_Get payload primary
  else Ret "".

(** [NewTable] for a meta with the payload [payload]. *)
Definition default_primary : Option_ :=
  mkOption (o_Prefix opt) (o_Name opt) (if String.eqb (o_Primary opt) "" then "auto" else o_Primary opt) (o_Join opt) (o_Index opt).
Definition bad_index (index : string) : bool :=
  has_char "-" index || String.eqb index "primary" || (negb (o_Join opt) && has_char "#" index).
Definition NewTable (payload : D) : outcome Table :=
  if (16 <? length (o_Index opt))%nat then Err ErrTooManyIndex
  else if existsb bad_index (o_Index opt) then Err ErrIndexKey
  else
    _ ← getPrimaryKey payload (o_Primary default_primary);
    if has_char "-" (o_Name opt) then Err ErrTablePrefixOrTableName
    else if negb (o_Join opt) && has_char "#" (o_Name opt) then Err ErrTablePrefixOrTableName
    else Ret (mkTable [] ∅ default_primary NewCount).

Definition addRowCache (row : Row) (t : Table) : Table :=
  let i := length (t_rows t) in
  let rm := match r_Ty row with
            | RDel => delete (Primary row) (rowmap t)
            | RAdd | RUpdate => <[Primary row := i]> (rowmap t)
            | RNone => rowmap t
            end in
  mkTable (t_rows t ++ [row]) rm (t_opt t) (t_num t).

Definition set_row (i : nat) (row : Row) (t : Table) : Table := mkTable (<[i := row]> (t_rows t)) (rowmap t) (t_opt t) (t_num t).
Definition delRowCache (i : nat) (row : Row) (t : Table) : Table :=
  let t := set_row i (mkRow RNone (Primary row) (r_Data row) (r_old row)) t in
  mkTable (t_rows t) (delete (Primary row) (rowmap t)) (t_opt t) (t_num t).

Definition getData (primaryKey : bytes) : outcome bytes := kvdb_Get kvdb (getDataKey primaryKey).
Definition getRow (value : bytes) : outcome Row :=
  '(primary, data) ← DecodeRow value;
  match Decode data with Some d => Ret (mkRow RNone primary d None) | None => Err (ErrOther "proto") end.
Definition GetData (primaryKey : bytes) : outcome Row := value ← getData primaryKey; getRow value.

(** The row, and its place in the list when it is in the cache. *)
Definition findRow (primary : bytes) (t : Table) : outcome (Row * option nat) :=
  match rowmap t !! primary with
  | Some i => match t_rows t !! i with Some row => Ret (row, Some i) | None => Panic end
  | None => row ← GetData primary; Ret (row, None)
  end.

Definition checkIndex (data : D) : outcome unit :=
  _ ← SetPayload data;
  _ ← getPrimaryKey data (o_Primary opt);
  foldr (λ i r, _ ← meta_Get data i; r) (Ret tt) (o_Index opt).

Definition getPrimaryFromData (data : D) : outcome bytes := _ ← SetPayload data; getPrimaryKey data (o_Primary opt).
Definition ok {A} (o : outcome A) : M Table A := λ t, (o, t).
Definition getPrimaryAuto : M Table bytes := λ t,
  let '(r, num) := count_Inc (t_num t) in
  (i ← r; Ret (pad i), mkTable (t_rows t) (rowmap t) (t_opt t) num).
Definition primaryKey (data : D) : M Table bytes :=
  if String.eqb (o_Primary opt) "auto" then getPrimaryAuto else ok (getPrimaryFromData data).
Definition change (f : Table → Table) : M Table unit := λ t, (Ret tt, f t).

(** ** Changes *)

Definition with_data (row : Row) (data : D) : Row := mkRow (r_Ty row) (Primary row) data (r_old row).
(** [v, err := findRow(..)]: the error is a value. *)
Definition looking (primary : bytes) : M Table ((Row * option nat) + error) := λ t,
  match findRow primary t with
  | Ret r => (Ret (inl r), t)
  | Err e => (Ret (inr e), t)
  | Panic => (Panic, t)
  end.

(** An error of [findRow] other than "not found" leaves a nil row, whose use is a panic. *)
Definition Replace (data : D) : M Table unit :=
  _ ← ok (checkIndex data);
  primaryKey ← primaryKey data;
  if String.eqb (o_Primary opt) "auto" then change (addRowCache (mkRow RAdd primaryKey data None))
  else
    r ← looking primaryKey;
    match r with
    | inr e => if decide (e = ErrNotFound) then change (addRowCache (mkRow RAdd primaryKey data None)) else panic
    | inl (row, Some i) => change (set_row i (with_data row data))
    | inl (row, None) => change (addRowCache (mkRow RUpdate primaryKey data (Some (r_Data row))))
    end.

Definition Add (data : D) : M Table unit :=
  _ ← ok (checkIndex data);
  primaryKey ← primaryKey data;
  r ← looking primaryKey;
  match r with
  | inr e => if decide (e = ErrNotFound) then change (addRowCache (mkRow RAdd primaryKey data None)) else throw ErrDupPrimaryKey
  | inl _ => throw ErrDupPrimaryKey
  end.

Definition Update (primaryKey : bytes) (newdata : D) : M Table unit :=
  _ ← ok (checkIndex newdata);
  p1 ← ok (getPrimaryFromData newdata);
  if negb (String.eqb p1 primaryKey) then throw ErrInvalidParam
  else
    r ← looking primaryKey;
    match r with
    | inr e => throw e
    | inl (row, Some i) => change (set_row i (with_data row newdata))
    | inl (row, None) => change (addRowCache (mkRow RUpdate primaryKey newdata (Some (r_Data row))))
    end.

(** The row deleted is a copy of the one found, with the data it has now. *)
Definition Del (primaryKey : bytes) : M Table unit :=
  r ← looking primaryKey;
  match r with
  | inr e => throw e
  | inl (row, incache) =>
      let delrow := mkRow RDel (Primary row) (r_Data row) (r_old row) in
      match incache with
      | None => change (addRowCache delrow)
      | Some i =>
          _ ← change (delRowCache i row);
          if decide (r_Ty row = RAdd) then mret tt else change (addRowCache delrow)
      end
  end.
Definition DelRow (data : D) : M Table unit := primaryKey ← primaryKey data; Del primaryKey.

(** ** Saving *)

Definition index (row : Row) (indexName : string) : outcome bytes := _ ← SetPayload (r_Data row); meta_Get (r_Data row) indexName.

Fixpoint each_index (body : string → outcome (list (bytes * option bytes))) (l : list string) : outcome (list (bytes * option bytes)) :=
  match l with
  | [] => Ret []
  | i :: l => kvs ← body i; rest ← each_index body l; Ret (kvs ++ rest)
  end.
Definition data_kv (row : Row) (value : option bytes) : list (bytes * option bytes) :=
  if o_Join opt then [] else [(getDataKey (Primary row), value)].

Definition delRow (row : Row) : outcome (list (bytes * option bytes)) :=
  kvs ← each_index (λ i, indexkey ← index row i; Ret [(getIndexKey i indexkey (Primary row), None)]) (o_Index opt);
  Ret (data_kv row None ++ kvs).
Definition addRow (row : Row) : outcome (list (bytes * option bytes)) :=
  kvs ← each_index (λ i, indexkey ← index row i; Ret [(getIndexKey i indexkey (Primary row), Some (Primary row))]) (o_Index opt);
  Ret (data_kv row (Some (Row_Encode row)) ++ kvs).

Definition getModify (row : Row) (old : option D) (i : string) : outcome (bytes * bytes * bool) :=
  match old with
  | None => Err ErrNilValue
  | Some olddata =>
      indexkey ← index row i;
      oldkey ← index (mkRow RNone "" olddata None) i;
      Ret (indexkey, oldkey, negb (String.eqb indexkey oldkey))
  end.
Definition updateRow (row : Row) : outcome (list (bytes * option bytes)) :=
  if decide (r_old row = Some (r_Data row)) then Ret []
  else
    kvs ← each_index (λ i,
      '(indexkey, oldkey, ismodify) ← getModify row (r_old row) i;
      if negb ismodify then Ret []
      else Ret [(getIndexKey i oldkey (Primary row), None); (getIndexKey i indexkey (Primary row), Some (Primary row))]) (o_Index opt);
    Ret (data_kv row (Some (Row_Encode row)) ++ kvs).

Definition saveRow (row : Row) : outcome (list (bytes * option bytes)) :=
  match r_Ty row with
  | RDel => delRow row
  | RAdd => addRow row
  | RUpdate => updateRow row
  | RNone => Ret []
  end.
Fixpoint save_rows (rows : list Row) : outcome (list (bytes * option bytes)) :=
  match rows with
  | [] => Ret []
  | row :: rows => kvlist ← saveRow row; rest ← save_rows rows; Ret (kvlist ++ rest)
  end.

Definition Save : M Table (list (bytes * option bytes)) := λ t,
  match save_rows (t_rows t) with
  | Ret kvs => (Ret (DelDupKey (kvs ++ count_Save (t_num t))), mkTable [] ∅ (t_opt t) (t_num t))
  | Err e => (Err e, t)
  | Panic => (Panic, t)
  end.

(** ** Queries: [query.go] *)

Definition isPrimaryIndex (indexName : string) : bool :=
  String.eqb indexName "" || String.eqb indexName "auto" || String.eqb indexName "primary".
Fixpoint commonPrefix (key1 key2 : bytes) : bytes :=
  match key1, key2 with
  | String a key1, String b key2 => if Ascii.eqb a b then String a (commonPrefix key1 key2) else ""
  | _, _ => ""
  end.
Fixpoint read_rows {A} (get : A → outcome Row) (values : list A) : outcome (list Row) :=
  match values with
  | [] => Ret []
  | v :: values => row ← get v; rows ← read_rows get values; Ret (row :: rows)
  end.
Definition not_empty (rows : list Row) : outcome (list Row) := match rows with [] => Err ErrNotFound | _ => Ret rows end.

(** The prefix is put into the start key a second time. *)
Definition listPrimary (prefix primaryKey : option bytes) (count direction : Z) : outcome (list Row) :=
  '(p, k) ← match primaryKey with
            | Some pk =>
                p ← match prefix with
                    | Some prefix =>
                        let p2 := commonPrefix prefix pk in
                        if negb (String.length p2 =? String.length prefix)%nat then Err ErrNotFound else Ret (primaryPrefix +:+ p2)
                    | None => Ret primaryPrefix
                    end;
                Ret (p, p +:+ pk)
            | None => Ret (primaryPrefix +:+ default "" prefix, "")
            end;
  values ← kvdb_List kvdb p k count direction;
  rows ← read_rows getRow values;
  not_empty rows.

Definition ListIndex (indexName : string) (prefix primaryKey : option bytes) (count direction : Z) : outcome (list Row) :=
  if isPrimaryIndex indexName || String.eqb indexName (o_Primary opt) then listPrimary prefix primaryKey count direction
  else
    '(p, k) ← (if (0 <? String.length (default "" primaryKey))%nat then
                 row ← GetData (default "" primaryKey);
                 key ← index row indexName;
                 p ← match prefix with
                     | Some prefix =>
                         let p2 := commonPrefix prefix key in
                         if negb (String.length p2 =? String.length prefix)%nat then Err ErrNotFound else Ret (indexPrefix indexName +:+ p2)
                     | None => Ret (indexPrefix indexName)
                     end;
                 Ret (p, getIndexKey indexName key (Primary row))
               else Ret (indexPrefix indexName +:+ default "" prefix, ""));
    values ← kvdb_List kvdb p k count direction;
    rows ← read_rows GetData values;
    not_empty rows.

Definition query_List (indexName : string) (data : option D) (primaryKey : option bytes) (count direction : Z) : outcome (list Row) :=
  prefix ← match data with
           | None => Ret None
           | Some d =>
               _ ← SetPayload d;
               p ← meta_Get d (if isPrimaryIndex indexName then o_Primary opt else indexName);
               Ret (Some p)
           end;
  ListIndex indexName prefix primaryKey count direction.
Definition ListOne (indexName : string) (data : option D) (primaryKey : option bytes) : outcome Row :=
  rows ← query_List indexName data primaryKey 1 ListDESC;
  match rows with row :: _ => Ret row | [] => Panic end.
End Ops.
End Table.
Arguments Row : clear implicits.
Arguments Table : clear implicits.
