(* ===== verification/TableTheorems.v ===== *)
(** What a table of [common/db/table] promises: a map from primary keys to payloads, kept in the
    database as one data pair per row and one pair per row and index.  [rep m T] says that the
    database [m] holds the map [T]; a batch of changes followed by [Save] takes a database that
    holds [T] to one that holds [T] changed, and the index lists the rows in order. *)

From Stdlib Require Import Ascii String Sorted.
From stdpp Require Import sorting.
From S2P Require Import Prelude DbIter ListHelper Mvcc Types KVStore Account Block Table.
Local Open Scope string_scope.
Local Open Scope Z_scope.
Local Open Scope list_scope.

(** ** Encodings *)

Lemma le_bytes_length n z : String.length (le_bytes n z) = n.
Proof. revert z. induction n as [|n IH]; intros z; simpl; [done|]. by rewrite IH. Qed.

Lemma le_value_bytes n z : le_value (le_bytes n z) = z mod 256 ^ Z.of_nat n.
Proof.
  revert z. induction n as [|n IH]; intros z; [symmetry; apply Z.mod_1_r|]. cbn [le_bytes le_value].
  pose proof (Z.mod_pos_bound z 256 ltac:(lia)).
  rewrite IH, N_ascii_embedding, Z2N.id by lia. rewrite Nat2Z.inj_succ, Z.pow_succ_r by lia.
  rewrite (Z.rem_mul_r z 256) by (try apply Z.pow_pos_nonneg; lia). lia.
Qed.

Lemma decode_encodeInt64 z : in64 z → decodeInt64 (encodeInt64 z) = z.
Proof.
  intros H. unfold decodeInt64, encodeInt64. rewrite le_value_bytes. change (256 ^ Z.of_nat 8) with (2 ^ 64).
  unfold wrap64. rewrite Zplus_mod_idemp_l. unfold in64 in H. rewrite Z.mod_small; lia.
Qed.

(** The values of a field of a payload that make a key: neither empty nor huge, and free of
    the separator. *)
Definition good_key (p : bytes) : Prop :=
  p ≠ "" ∧ has_char "-" p = false ∧ Z.of_nat (String.length p) < 2 ^ 62.

Lemma DecodeRow_Encode {D} {CD : Codec D} (row : Row D) :
  good_key (Primary row) → DecodeRow (Row_Encode row) = Ret (Primary row, Encode (r_Data row)).
Proof.
  intros (H1 & _ & H2). unfold DecodeRow, Row_Encode.
  assert (1 <= String.length (Primary row))%nat as Hp by (destruct (Primary row); simpl; [done|lia]).
  set (lb := encodeInt64 _). assert (String.length lb = 8%nat) as H8 by apply le_bytes_length.
  assert (str_take 8 (lb +:+ Primary row +:+ Encode (r_Data row)) = lb) as -> by (rewrite <-H8; apply str_take_app).
  assert (decodeInt64 lb +₆₄ 8 = Z.of_nat (String.length (Primary row)) + 8) as ->.
  { unfold lb. rewrite decode_encodeInt64, wrap64_id; unfold in64; lia. }
  rewrite !str_length_app, H8. destruct (Nat.leb_spec (8 + (String.length (Primary row) + String.length (Encode (r_Data row)))) 8); [lia|].
  destruct (Z.ltb_spec (Z.of_nat (8 + (String.length (Primary row) + String.length (Encode (r_Data row))))) (Z.of_nat (String.length (Primary row)) + 8)); [lia|].
  destruct (Z.ltb_spec (Z.of_nat (String.length (Primary row)) + 8) 8); [lia|].
  replace (Z.to_nat (Z.of_nat (String.length (Primary row)) + 8)) with (String.length lb + String.length (Primary row))%nat by lia.
  clearbody lb. rewrite <-H8. rewrite str_slice_app. by rewrite str_drop_app_plus, str_drop_app.
Qed.

(** ** Keys *)

Lemma app_dash_inj a a' p p' :
  has_char "-" p = false → has_char "-" p' = false → a +:+ "-" +:+ p = a' +:+ "-" +:+ p' → a = a' ∧ p = p'.
Proof.
  intros Hp Hp'. revert a'. induction a as [|c a IH]; intros [|c' a'] E; simpl in E; simplify_eq.
  - done.
  - exfalso. rewrite has_char_app in Hp. simpl in Hp. by rewrite orb_true_r in Hp.
  - exfalso. rewrite has_char_app in Hp'. simpl in Hp'. by rewrite orb_true_r in Hp'.
  - match goal with H : _ = _ |- _ => destruct (IH a' H) as [-> ->] end. done.
Qed.

Section Keys.
Context (opt : Option_).

Lemma getDataKey_inj p p' : getDataKey opt p = getDataKey opt p' → p = p'.
Proof. apply str_app_inj_l. Qed.

Lemma data_index_ne p i s : getDataKey opt p ≠ indexPrefix opt i +:+ s.
Proof.
  unfold getDataKey, indexPrefix, dataprefix, metaprefix, sep. rewrite !str_app_assoc.
  intros E. by repeat apply str_app_inj_l in E.
Qed.

Lemma indexPrefix_inj i i' s s' :
  has_char "-" i = false → has_char "-" i' = false → indexPrefix opt i +:+ s = indexPrefix opt i' +:+ s' → i = i' ∧ s = s'.
Proof.
  unfold indexPrefix, sep. rewrite !str_app_assoc. intros Hi Hi' E%str_app_inj_l. simpl in E. by apply (str_split_inj "-").
Qed.
End Keys.

(** ** The specification *)

Section Batch.
Context {D K : Type} `{!EqDecision D} `{!RowMeta D} {CD : Codec D} {CZ : Codec Z} `{!KVDB K} `{!KVDBSpec K}.
Context (opt : Option_).

(** What [NewTable] checks of the options; the rows have a primary key of their own. *)
Record good_option : Prop := {
  go_join : o_Join opt = false;
  go_primary : o_Primary opt ≠ "" ∧ has_char "-" (o_Primary opt) = false ∧ o_Primary opt ≠ "auto";
  go_index : ∀ i, i ∈ o_Index opt → has_char "-" i = false
}.

(** A payload that [checkIndex] accepts, with primary key [p]. *)
Definition payload_ok (p : bytes) (d : D) : Prop :=
  SetPayload d = Ret tt ∧ meta_Get d (o_Primary opt) = Ret p ∧ ∀ i, i ∈ o_Index opt → ∃ v, meta_Get d i = Ret v.

Definition field (d : D) (i : string) : bytes := match meta_Get d i with Ret v => v | _ => "" end.

(** The database [m] holds the table [T]: exactly the data pair of each row, and under the
    prefix of an index exactly the pairs of the rows. *)
Record rep (m : gmap bytes bytes) (T : gmap bytes D) : Prop := {
  rep_ok : ∀ p d, T !! p = Some d → payload_ok p d;
  rep_data : ∀ p, m !! getDataKey opt p = (λ d, Row_Encode (mkRow RNone p d None)) <$> T !! p;
  rep_index : ∀ i s x, i ∈ o_Index opt →
    m !! (indexPrefix opt i +:+ s) = Some x ↔ ∃ d, T !! x = Some d ∧ s = field d i +:+ sep +:+ x
}.

(** The changes of a batch, on the table and on the map. *)
Inductive change_op := OAdd (d : D) | OReplace (d : D) | OUpdate (p : bytes) (d : D) | ODel (p : bytes) | ODelRow (d : D).

Definition table_op (kvdb : K) (o : change_op) : M (Table D) unit :=
  match o with
  | OAdd d => Add kvdb opt d
  | OReplace d => Replace kvdb opt d
  | OUpdate p d => Update kvdb opt p d
  | ODel p => Del kvdb opt p
  | ODelRow d => DelRow kvdb opt d
  end.

Definition pure {S A} (o : outcome A) : M S A := λ s, (o, s).
Definition spec_insert (p : bytes) (d : D) : M (gmap bytes D) unit := λ T, (Ret tt, <[p := d]> T).
Definition spec_add (p : bytes) (d : D) : M (gmap bytes D) unit := λ T,
  match T !! p with Some _ => (Err ErrDupPrimaryKey, T) | None => spec_insert p d T end.
Definition spec_update (p : bytes) (d : D) : M (gmap bytes D) unit := λ T,
  match T !! p with Some _ => spec_insert p d T | None => (Err ErrNotFound, T) end.
Definition spec_del (p : bytes) : M (gmap bytes D) unit := λ T,
  match T !! p with Some _ => (Ret tt, delete p T) | None => (Err ErrNotFound, T) end.
Definition spec_op (o : change_op) : M (gmap bytes D) unit :=
  match o with
  | OAdd d => _ ← pure (checkIndex opt d); p ← pure (getPrimaryFromData opt d); spec_add p d
  | OReplace d => _ ← pure (checkIndex opt d); p ← pure (getPrimaryFromData opt d); spec_insert p d
  | OUpdate p d =>
      _ ← pure (checkIndex opt d); p1 ← pure (getPrimaryFromData opt d);
      if negb (String.eqb p1 p) then throw ErrInvalidParam
      else spec_update p d
  | ODel p => spec_del p
  | ODelRow d => p ← pure (getPrimaryFromData opt d); spec_del p
  end.

(** Not every batch is: a stored row is not touched again once it is deleted, and it is not
    deleted after a change of its indices.  (The cache then loses the old row.) *)
Definition target (o : change_op) : option bytes :=
  match o with
  | OAdd d | OReplace d | ODelRow d => match getPrimaryFromData opt d with Ret p => Some p | _ => None end
  | OUpdate p _ | ODel p => Some p
  end.
Definition is_del (o : change_op) : bool := match o with ODel _ | ODelRow _ => true | _ => false end.
Definition same_fields (d d0 : D) : bool := forallb (λ i, String.eqb (field d i) (field d0 i)) (o_Index opt).
Definition safe (T0 T : gmap bytes D) (o : change_op) : bool :=
  match target o with
  | None => true
  | Some p =>
      match T0 !! p, T !! p with
      | Some _, None => false
      | Some d0, Some d => negb (is_del o) || same_fields d d0
      | None, _ => true
      end
  end.

Fixpoint run {S O} (f : O → M S unit) (os : list O) (s : S) : list (outcome unit) * S :=
  match os with
  | [] => ([], s)
  | o :: os => let '(r, s) := f o s in let '(rs, s) := run f os s in (r :: rs, s)
  end.
Fixpoint safe_run (T0 T : gmap bytes D) (os : list change_op) : bool :=
  match os with [] => true | o :: os => safe T0 T o && safe_run T0 (spec_op o T).2 os end.

(** ** The cache of changes *)

Definition live (p : bytes) (rows : list (Row D)) : list (Row D) := filter (λ r, Primary r = p ∧ r_Ty r ≠ RNone) rows.

Definition new_row (p : bytes) (o0 : option D) (d : D) : Row D :=
  match o0 with None => mkRow RAdd p d None | Some d0 => mkRow RUpdate p d (Some d0) end.

(** What the cache has of one primary key, stored as [o0] and now [o]: nothing, or one row. *)
Inductive cached (p : bytes) (rows : list (Row D)) : option D → option D → option nat → Prop :=
  | cached_none o : live p rows = [] → cached p rows o o None
  | cached_row o0 d i r :
      live p rows = [r] → rows !! i = Some r →
      r = new_row p o0 d →
      cached p rows o0 (Some d) (Some i)
  | cached_del d0 d old :
      live p rows = [mkRow RDel p d old] → payload_ok p d → (∀ i, i ∈ o_Index opt → field d i = field d0 i) →
      cached p rows (Some d0) None None.

Record cache_inv (T0 T : gmap bytes D) (t : Table D) : Prop := {
  ci_num : t_num t = NewCount;
  ci_opt : t_opt t = opt;
  ci_ok : ∀ p d, T !! p = Some d → payload_ok p d;
  ci_row : ∀ p, cached p (t_rows t) (T0 !! p) (T !! p) (rowmap t !! p)
}.

(** ** The list of rows *)

Lemma live_snoc p rows r :
  live p (rows ++ [r]) = live p rows ++ (if decide (Primary r = p ∧ r_Ty r ≠ RNone) then [r] else []).
Proof. unfold live. by rewrite list.filter_app. Qed.

Lemma live_set p rows i r r' :
  rows !! i = Some r → Primary r' = Primary r → p ≠ Primary r → live p (<[i := r']> rows) = live p rows.
Proof.
  intros H E Hp. rewrite <-(take_drop_middle rows i r H).
  assert (i < length rows)%nat by by eapply lookup_lt_Some.
  rewrite insert_app_r_alt by (rewrite length_take; lia). rewrite length_take, Nat.min_l, Nat.sub_diag by lia. simpl.
  unfold live. rewrite !list.filter_app, !filter_cons. rewrite !decide_False by naive_solver. done.
Qed.

Lemma live_set_one p rows i r r' :
  live p rows = [r] → rows !! i = Some r → Primary r' = p →
  live p (<[i := r']> rows) = if decide (r_Ty r' = RNone) then [] else [r'].
Proof.
  intros Hl H E. assert (Primary r = p ∧ r_Ty r ≠ RNone) as Hr.
  { assert (r ∈ live p rows) as Hin by (rewrite Hl; left). by apply list_elem_of_filter in Hin as [? _]. }
  assert (i < length rows)%nat by by eapply lookup_lt_Some.
  rewrite <-(take_drop_middle rows i r H) in Hl |- *.
  rewrite insert_app_r_alt by (rewrite length_take; lia). rewrite length_take, Nat.min_l, Nat.sub_diag by lia.
  unfold live in *. rewrite !list.filter_app in *. simpl in *. rewrite !filter_cons in *. rewrite decide_True in Hl by done.
  assert (filter (λ r, Primary r = p ∧ r_Ty r ≠ RNone) (take i rows) = [] ∧
          filter (λ r, Primary r = p ∧ r_Ty r ≠ RNone) (drop (S i) rows) = []) as [-> ->].
  { destruct (filter _ (take i rows)) as [|a [|b l]]; simplify_list_eq; done. }
  case_decide as H1; case_decide as H2; naive_solver.
Qed.

(** [frame p t t']: [t'] is [t] but for the primary key [p]. *)
Record frame (p : bytes) (t t' : Table D) : Prop := {
  fr_num : t_num t' = t_num t;
  fr_opt : t_opt t' = t_opt t;
  fr_live : ∀ q, q ≠ p → live q (t_rows t') = live q (t_rows t);
  fr_rows : ∀ i r, t_rows t !! i = Some r → Primary r ≠ p → t_rows t' !! i = Some r;
  fr_map : ∀ q, q ≠ p → rowmap t' !! q = rowmap t !! q
}.

Lemma frame_trans p t t' t'' : frame p t t' → frame p t' t'' → frame p t t''.
Proof.
  intros [n1 o1 l1 r1 m1] [n2 o2 l2 r2 m2]. split; [congruence..| | |].
  - intros q Hq. by rewrite l2, l1.
  - intros i r Hi Hr. by apply r2, Hr; apply r1.
  - intros q Hq. by rewrite m2, m1.
Qed.

Lemma frame_add (r : Row D) t : frame (Primary r) t (addRowCache r t).
Proof.
  split; try done; simpl.
  - intros q Hq. rewrite live_snoc, decide_False by naive_solver. apply app_nil_r.
  - intros i r' H _. by apply lookup_app_l_Some.
  - intros q Hq. destruct (r_Ty r); [done|by rewrite lookup_insert_ne..|by rewrite lookup_delete_ne].
Qed.

Lemma frame_set i (r r' : Row D) t : t_rows t !! i = Some r → Primary r' = Primary r → frame (Primary r) t (set_row i r' t).
Proof.
  intros H E. split; try done; simpl.
  - intros q Hq. by apply (live_set q _ i r).
  - intros j s Hj Hs. rewrite list_lookup_insert_ne; [done|]. intros ->. naive_solver.
Qed.

Lemma frame_del i (r : Row D) t : t_rows t !! i = Some r → frame (Primary r) t (delRowCache i r t).
Proof.
  intros H. unfold delRowCache. eapply (frame_trans _ _ (set_row i (mkRow RNone (Primary r) (r_Data r) (r_old r)) t)); [by apply (frame_set i r)|].
  split; try done; simpl. intros q Hq. by rewrite lookup_delete_ne.
Qed.

Lemma cached_frame p q t t' o0 o :
  frame p t t' → q ≠ p → cached q (t_rows t) o0 o (rowmap t !! q) → cached q (t_rows t') o0 o (rowmap t' !! q).
Proof.
  intros [_ _ Hl Hr Hm] Hq H. rewrite Hm by done. destruct H as [o1 H|o1 d i r H Hi ->|d0 d old H]; [| |].
  - constructor. by rewrite Hl.
  - econstructor; [by rewrite Hl|apply Hr; [done|by destruct o1]|done].
  - econstructor; [rewrite Hl; done|done..].
Qed.

(** A change of one row. *)
Lemma inv_change p o T0 T t t' :
  cache_inv T0 T t → frame p t t' →
  cached p (t_rows t') (T0 !! p) o (rowmap t' !! p) → (∀ d, o = Some d → payload_ok p d) →
  cache_inv T0 (partial_alter (λ _, o) p T) t'.
Proof.
  intros [Hn Ho Hok Hr] F Hp Hd. pose proof F as [Hn' Ho' _ _ _]. split; [congruence..| |].
  - intros q d. destruct (decide (q = p)) as [->|Hq].
    + rewrite lookup_partial_alter_eq. apply Hd.
    + rewrite lookup_partial_alter_ne by done. apply Hok.
  - intros q. destruct (decide (q = p)) as [->|Hq].
    + by rewrite lookup_partial_alter_eq.
    + rewrite lookup_partial_alter_ne by done. by eapply cached_frame.
Qed.

Lemma inv_insert T0 T t p d :
  cache_inv T0 T t → payload_ok p d → live p (t_rows t) = [] →
  cache_inv T0 (<[p := d]> T) (addRowCache (new_row p (T0 !! p) d) t).
Proof.
  intros H Hd Hl. set (r := new_row p (T0 !! p) d).
  assert (Primary r = p ∧ r_Ty r ≠ RNone ∧ rowmap (addRowCache r t) !! p = Some (length (t_rows t))) as (Hp & Hty & Hm).
  { unfold r. destruct (T0 !! p); simpl; by rewrite lookup_insert_eq. }
  apply (inv_change p (Some d) T0 T t); [done|rewrite <-Hp at 1; apply frame_add| |naive_solver].
  rewrite Hm. apply (cached_row p _ _ d _ r).
  - simpl. by rewrite live_snoc, Hl, decide_True.
  - simpl. by rewrite lookup_app_r, Nat.sub_diag.
  - done.
Qed.

Lemma new_row_primary p o0 d : Primary (new_row p o0 d) = p.
Proof. by destruct o0. Qed.

Lemma with_data_new p o0 d d' : with_data (new_row p o0 d) d' = new_row p o0 d'.
Proof. by destruct o0. Qed.

Lemma inv_set T0 T t p d d' i :
  cache_inv T0 T t → payload_ok p d' → live p (t_rows t) = [new_row p (T0 !! p) d] →
  t_rows t !! i = Some (new_row p (T0 !! p) d) → rowmap t !! p = Some i →
  cache_inv T0 (<[p := d']> T) (set_row i (new_row p (T0 !! p) d') t).
Proof.
  intros H Hd Hl Hi Hm. apply (inv_change p (Some d') T0 T t); [done| | |naive_solver].
  - rewrite <-(new_row_primary p (T0 !! p) d) at 1. apply frame_set; [done|]. by rewrite !new_row_primary.
  - simpl. rewrite Hm. apply (cached_row p _ _ d' i (new_row p (T0 !! p) d')); [| |done].
    + rewrite (live_set_one _ _ _ _ _ Hl Hi) by apply new_row_primary. by destruct (T0 !! p).
    + apply list_lookup_insert_eq. by eapply lookup_lt_Some.
Qed.

(** Deleting a stored row that is not in the cache, or one that is. *)
Lemma inv_del_stored T0 T t p d0 d old :
  cache_inv T0 T t → payload_ok p d → live p (t_rows t) = [] → T0 !! p = Some d0 →
  (∀ i, i ∈ o_Index opt → field d i = field d0 i) →
  cache_inv T0 (delete p T) (addRowCache (mkRow RDel p d old) t).
Proof.
  intros H Hd Hl H0 Hf. apply (inv_change p None T0 T t); [done|apply (frame_add (mkRow RDel p d old))| |done].
  simpl. rewrite lookup_delete_eq, H0. econstructor; [|done..]. by rewrite live_snoc, Hl, decide_True.
Qed.

Lemma live_del t i p o0 d :
  live p (t_rows t) = [new_row p o0 d] → t_rows t !! i = Some (new_row p o0 d) →
  live p (t_rows (delRowCache i (new_row p o0 d) t)) = [].
Proof.
  intros Hl Hi. simpl. rewrite (live_set_one _ _ _ _ _ Hl Hi) by (by destruct o0). by rewrite decide_True.
Qed.

Lemma inv_del_cached T0 T t p d i :
  cache_inv T0 T t → live p (t_rows t) = [new_row p (T0 !! p) d] →
  t_rows t !! i = Some (new_row p (T0 !! p) d) → T0 !! p = None →
  cache_inv T0 (delete p T) (delRowCache i (new_row p (T0 !! p) d) t).
Proof.
  intros H Hl Hi H0. apply (inv_change p None T0 T t); [done| | |done].
  - rewrite <-(new_row_primary p (T0 !! p) d) at 1. by apply frame_del.
  - rewrite H0 in *. simpl. rewrite lookup_delete_eq. constructor. by apply (live_del t i p None d).
Qed.

Lemma inv_del_updated T0 T t p d0 d i old :
  cache_inv T0 T t → payload_ok p d → live p (t_rows t) = [new_row p (T0 !! p) d] →
  t_rows t !! i = Some (new_row p (T0 !! p) d) → T0 !! p = Some d0 →
  (∀ i, i ∈ o_Index opt → field d i = field d0 i) →
  cache_inv T0 (delete p T) (addRowCache (mkRow RDel p d old) (delRowCache i (new_row p (T0 !! p) d) t)).
Proof.
  intros H Hd Hl Hi H0 Hf. apply (inv_change p None T0 T t); [done| | |done].
  - eapply frame_trans; [rewrite <-(new_row_primary p (T0 !! p) d) at 1; by apply frame_del|].
    apply (frame_add (mkRow RDel p d old)).
  - cbn [addRowCache rowmap t_rows Primary r_Ty]. rewrite lookup_delete_eq, H0 in *.
    econstructor; [|done..]. by rewrite live_snoc, (live_del t i p (Some d0) d), decide_True.
Qed.

(** ** The operations *)

Section Ops.
Context (kvdb : K) (m : gmap bytes bytes) (T0 : gmap bytes D).
Hypothesis Hopt : good_option.
Hypothesis Hkey : ∀ d p, meta_Get d (o_Primary opt) = Ret p → good_key p.
Hypothesis Hkv : kvdb_is kvdb m.
Hypothesis Hrep : rep m T0.

Lemma payload_key p d : payload_ok p d → good_key p.
Proof. intros (_ & H & _). by apply (Hkey d). Qed.

Lemma GetData_spec p :
  GetData kvdb opt p = match T0 !! p with Some d => Ret (mkRow RNone p d None) | None => Err ErrNotFound end.
Proof.
  unfold GetData, getData. rewrite (kvdb_get _ m) by done. rewrite (rep_data _ _ Hrep).
  destruct (T0 !! p) as [d|] eqn:E; [|done]. cbn [fmap option_fmap option_map mbind outcome_bind]. unfold getRow.
  rewrite DecodeRow_Encode by (eapply payload_key, (rep_ok _ _ Hrep), E). simpl. by rewrite Decode_Encode.
Qed.

Definition alive (T : gmap bytes D) (p : bytes) : Prop := is_Some (T0 !! p) → is_Some (T !! p).

(** What [findRow] finds. *)
Inductive found (T : gmap bytes D) (t : Table D) (p : bytes) : outcome (Row D * option nat) → Prop :=
  | found_none : T !! p = None → T0 !! p = None → live p (t_rows t) = [] → found T t p (Err ErrNotFound)
  | found_db d :
      T !! p = Some d → T0 !! p = Some d → live p (t_rows t) = [] → found T t p (Ret (mkRow RNone p d None, None))
  | found_cache d i :
      T !! p = Some d → live p (t_rows t) = [new_row p (T0 !! p) d] → t_rows t !! i = Some (new_row p (T0 !! p) d) →
      rowmap t !! p = Some i → found T t p (Ret (new_row p (T0 !! p) d, Some i)).

Lemma findRow_found T t p : cache_inv T0 T t → alive T p → found T t p (findRow kvdb opt p t).
Proof.
  intros H Ha. pose proof (ci_row _ _ _ H p) as Hc. unfold findRow. remember (rowmap t !! p) as mi eqn:Em.
  remember (T0 !! p) as o0 eqn:E0. remember (T !! p) as o eqn:E1.
  destruct Hc as [o Hl|o0 d i r Hl Hi ->|d0 d old Hl _ _].
  - rewrite GetData_spec, <-E0. destruct o as [d|]; simpl; by constructor.
  - rewrite Hi. rewrite E0 in *. by constructor.
  - destruct Ha as [d' ?]; [by rewrite <-E0|congruence].
Qed.

Lemma primary_ok d p : getPrimaryFromData opt d = Ret p → SetPayload d = Ret tt ∧ meta_Get d (o_Primary opt) = Ret p.
Proof using Hopt.
  destruct (go_primary Hopt) as (H1 & H2 & H3). unfold getPrimaryFromData, getPrimaryKey.
  destruct (SetPayload d) as [[]| |]; simpl; [|done..].
  rewrite (proj2 (String.eqb_neq _ _) H1), H2, (proj2 (String.eqb_neq _ _) H3). done.
Qed.

Lemma checkIndex_ok d p : checkIndex opt d = Ret tt → getPrimaryFromData opt d = Ret p → payload_ok p d.
Proof using Hopt.
  intros Hc (H1 & H2)%primary_ok. split; [done|]. split; [done|]. unfold checkIndex in Hc. rewrite H1 in Hc. simpl in Hc.
  destruct (getPrimaryKey d (o_Primary opt)); simpl in Hc; [|done..]. clear -Hc.
  induction (o_Index opt) as [|j l IH]; simpl in *; intros i Hi; [by apply elem_of_nil in Hi|].
  destruct (meta_Get d j) as [v| |] eqn:E; simpl in Hc; [|done..]. apply elem_of_cons in Hi as [->|Hi]; [by exists v|].
  by apply IH.
Qed.

Lemma primaryKey_pure d t : primaryKey kvdb opt d t = (getPrimaryFromData opt d, t).
Proof using Hopt.
  destruct (go_primary Hopt) as (_ & _ & H3). unfold primaryKey. by rewrite (proj2 (String.eqb_neq _ _) H3).
Qed.

(** The new data of a row that was found. *)
Definition put (p : bytes) (d : D) (r : Row D * option nat) : Table D → Table D :=
  match r.2 with
  | Some i => set_row i (with_data r.1 d)
  | None => addRowCache (mkRow RUpdate p d (Some (r_Data r.1)))
  end.

Lemma put_inv T t p d r : cache_inv T0 T t → payload_ok p d → found T t p (Ret r) → cache_inv T0 (<[p := d]> T) (put p d r t).
Proof.
  intros H Hd Hf. inversion Hf as [|d0 H1 H0 Hl Er|d0 i H1 Hl Hi Hm Er]; subst r; unfold put; cbn [fst snd].
  - pose proof (inv_insert T0 T t p d H Hd Hl) as Hn. by rewrite H0 in Hn.
  - rewrite with_data_new. by eapply inv_set.
Qed.

Lemma same_fields_spec d d0 : same_fields d d0 = true → ∀ i, i ∈ o_Index opt → field d i = field d0 i.
Proof.
  unfold same_fields. rewrite forallb_forall. intros H i Hi. by apply String.eqb_eq, H, list_elem_of_In.
Qed.

Lemma safe_alive T o p : safe T0 T o = true → target o = Some p → alive T p.
Proof. unfold safe, alive. intros H E [d0 H0]. rewrite E, H0 in H. by destruct (T !! p). Qed.

Lemma Del_sim T t p o :
  cache_inv T0 T t → target o = Some p → is_del o = true → safe T0 T o = true →
  (Del kvdb opt p t).1 = (spec_del p T).1 ∧ cache_inv T0 (spec_del p T).2 (Del kvdb opt p t).2.
Proof using Hrep Hkv Hkey.
  intros H Ht Hdel Hs. pose proof (findRow_found T t p H (safe_alive _ _ _ Hs Ht)) as Hf.
  unfold Del, looking, mbind, M_bind, spec_del. unfold safe in Hs. rewrite Ht, Hdel in Hs.
  inversion Hf as [H1 H0 Hl Er|d0 H1 H0 Hl Er|d0 i H1 Hl Hi Hm Er]; rewrite H1 in *; [done| |].
  - simpl. split; [done|]. eapply inv_del_stored; try done. by apply (ci_ok _ _ _ H).
  - pose proof (λ d1, inv_del_updated T0 T t p d1 d0 i (Some d1) H (ci_ok _ _ _ H _ _ H1) Hl Hi) as Hu.
    pose proof (inv_del_cached T0 T t p d0 i H Hl Hi) as Hc. clear Hl Hi Hf.
    destruct (T0 !! p) as [d1|]; simpl in *; (split; [done|]); [|by apply Hc].
    apply Hu; [done|by apply same_fields_spec].
Qed.

Lemma op_sim T t o :
  cache_inv T0 T t → safe T0 T o = true →
  (table_op kvdb o t).1 = (spec_op o T).1 ∧ cache_inv T0 (spec_op o T).2 (table_op kvdb o t).2.
Proof using Hrep Hkv Hkey Hopt.
  intros H Hs.
  assert (∀ p d, getPrimaryFromData opt d = Ret p → target o = Some p → found T t p (findRow kvdb opt p t)) as Hfind.
  { intros p d _ Ht. eapply findRow_found; [done|]. by eapply safe_alive. }
  destruct o as [d|d|p d|p|d]; cbn [table_op spec_op]; [| | |by apply (Del_sim T t p (ODel p))|].
  - unfold Add, ok, pure, mbind, M_bind. destruct (checkIndex opt d) as [[]|e|] eqn:Ec; [|done..].
    rewrite primaryKey_pure. destruct (getPrimaryFromData opt d) as [p|e|] eqn:Ep; [|done..].
    pose proof (checkIndex_ok d p Ec Ep) as Hd. unfold looking, spec_add.
    destruct (Hfind p d Ep) as [H1 H0 Hl|d0 H1|d0 i H1]; [simpl; by rewrite Ep| | |]; rewrite H1; [|done..].
    split; [done|]. pose proof (inv_insert T0 T t p d H Hd Hl) as Hn. by rewrite H0 in Hn.
  - unfold Replace, ok, pure, mbind, M_bind. destruct (checkIndex opt d) as [[]|e|] eqn:Ec; [|done..].
    rewrite primaryKey_pure. destruct (getPrimaryFromData opt d) as [p|e|] eqn:Ep; [|done..].
    pose proof (checkIndex_ok d p Ec Ep) as Hd. destruct (go_primary Hopt) as (_ & _ & H3).
    rewrite (proj2 (String.eqb_neq _ _) H3). unfold looking, spec_insert.
    pose proof (λ r, put_inv T t p d r H Hd) as Hput.
    destruct (Hfind p d Ep) as [H1 H0 Hl|d0 H1 H0 Hl|d0 i H1 Hl Hi Hm]; [simpl; by rewrite Ep| | |]; (split; [done|]).
    + pose proof (inv_insert T0 T t p d H Hd Hl) as Hn. by rewrite H0 in Hn.
    + apply (Hput (mkRow RNone p d0 None, None)). by constructor.
    + apply (Hput (new_row p (T0 !! p) d0, Some i)). by constructor.
  - unfold Update, ok, pure, mbind, M_bind. destruct (checkIndex opt d) as [[]|e|] eqn:Ec; [|done..].
    destruct (getPrimaryFromData opt d) as [p1|e|] eqn:Ep; [|done..].
    destruct (String.eqb_spec p1 p) as [->|]; [|done]. cbn [negb].
    pose proof (checkIndex_ok d p Ec Ep) as Hd. unfold looking, spec_update, spec_insert.
    pose proof (λ r, put_inv T t p d r H Hd) as Hput.
    destruct (Hfind p d Ep) as [H1 H0 Hl|d0 H1 H0 Hl|d0 i H1 Hl Hi Hm]; [done| | |]; rewrite H1; [done| |]; (split; [done|]).
    + apply (Hput (mkRow RNone p d0 None, None)). by constructor.
    + apply (Hput (new_row p (T0 !! p) d0, Some i)). by constructor.
  - unfold DelRow, pure, mbind, M_bind. rewrite primaryKey_pure.
    destruct (getPrimaryFromData opt d) as [p|e|] eqn:Ep; [|done..].
    apply (Del_sim T t p (ODelRow d)); [done| |done|done]. simpl. by rewrite Ep.
Qed.

Lemma run_sim os T t :
  cache_inv T0 T t → safe_run T0 T os = true →
  (run (table_op kvdb) os t).1 = (run spec_op os T).1 ∧ cache_inv T0 (run spec_op os T).2 (run (table_op kvdb) os t).2.
Proof using Hrep Hkv Hkey Hopt.
  revert T t. induction os as [|o os IH]; intros T t H Hs; [done|].
  simpl in Hs. apply andb_true_iff in Hs as [Hs Hr]. destruct (op_sim T t o H Hs) as [E Hi]. simpl.
  destruct (table_op kvdb o t) as [r t1], (spec_op o T) as [r' T1]. simpl in E, Hi, Hr. subst r'.
  destruct (IH T1 t1 Hi Hr) as [E' Hi']. destruct (run (table_op kvdb) os t1), (run spec_op os T1). simpl in *. by subst.
Qed.

(** ** Saving *)

(** The pairs of a row, when nothing fails. *)
Definition old_field (r : Row D) (i : string) : bytes := match r_old r with Some d0 => field d0 i | None => "" end.
Definition index_kvs (r : Row D) (i : string) : list (bytes * option bytes) :=
  let key v := getIndexKey opt i v (Primary r) in
  match r_Ty r with
  | RNone => []
  | RAdd => [(key (field (r_Data r) i), Some (Primary r))]
  | RDel => [(key (field (r_Data r) i), None)]
  | RUpdate =>
      if String.eqb (field (r_Data r) i) (old_field r i) then []
      else [(key (old_field r i), None); (key (field (r_Data r) i), Some (Primary r))]
  end.
Definition unchanged (r : Row D) : Prop := r_Ty r = RNone ∨ (r_Ty r = RUpdate ∧ r_old r = Some (r_Data r)).
#[local] Instance unchanged_dec r : Decision (unchanged r) := ltac:(unfold unchanged; apply _).
Definition row_kvs (r : Row D) : list (bytes * option bytes) :=
  if decide (unchanged r) then []
  else (getDataKey opt (Primary r), if decide (r_Ty r = RDel) then None else Some (Row_Encode r)) :: (o_Index opt ≫= index_kvs r).

(** A row that can be saved. *)
Definition row_ok (r : Row D) : Prop :=
  r_Ty r = RNone ∨
  payload_ok (Primary r) (r_Data r) ∧ (r_Ty r = RUpdate → ∃ d0, r_old r = Some d0 ∧ payload_ok (Primary r) d0).

Lemma each_index_Ret body f l : (∀ i, i ∈ l → body i = Ret (f i)) → each_index body l = Ret (l ≫= f).
Proof.
  induction l as [|i l IH]; intros H; simpl; [done|]. rewrite H by left. simpl.
  rewrite IH by (intros; apply H; by right). done.
Qed.

Lemma index_field p (r : Row D) i : payload_ok p (r_Data r) → i ∈ o_Index opt → index r i = Ret (field (r_Data r) i).
Proof. intros (H1 & _ & H2) Hi. unfold index, field. rewrite H1. simpl. by destruct (H2 i Hi) as [v ->]. Qed.

Lemma saveRow_kvs r : row_ok r → saveRow opt r = Ret (row_kvs r).
Proof using Hopt.
  intros Hr. pose proof (go_join Hopt) as HJ. unfold saveRow, row_kvs, data_kv.
  assert (∀ f, r_Ty r ≠ RNone → each_index (λ i, indexkey ← index r i; Ret (f i indexkey)) (o_Index opt) =
            Ret (o_Index opt ≫= λ i, f i (field (r_Data r) i))) as Hidx.
  { intros f Hn. destruct Hr as [|[Hd _]]; [done|]. apply each_index_Ret. intros i Hi. by rewrite (index_field _ _ _ Hd Hi). }
  destruct (r_Ty r) eqn:Ety.
  - by rewrite decide_True by (by left).
  - rewrite decide_False by (unfold unchanged; rewrite Ety; naive_solver). unfold addRow, data_kv. rewrite HJ, Hidx by done. simpl.
    do 2 f_equal. unfold index_kvs. rewrite Ety. done.
  - unfold updateRow. destruct Hr as [|[Hd Ho]]; [congruence|]. destruct Ho as (d0 & E0 & Hd0); [done|].
    destruct (decide (r_old r = Some (r_Data r))) as [Eo|Eo]; [by rewrite decide_True by (by right)|].
    rewrite (decide_False (P := unchanged r)) by (unfold unchanged; rewrite Ety; naive_solver).
    rewrite (each_index_Ret _ (index_kvs r)).
    { unfold data_kv. by rewrite HJ. }
    intros i Hi. unfold getModify, index_kvs, old_field. rewrite Ety, E0, (index_field _ _ _ Hd Hi). simpl.
    rewrite (index_field _ (mkRow RNone "" d0 None) _ Hd0 Hi). simpl. by destruct (String.eqb _ _).
  - rewrite decide_False by (unfold unchanged; rewrite Ety; naive_solver). unfold delRow, data_kv. rewrite HJ, Hidx by done. simpl.
    do 2 f_equal. unfold index_kvs. rewrite Ety. done.
Qed.

Lemma save_rows_kvs rows : (∀ r, r ∈ rows → row_ok r) → save_rows opt rows = Ret (rows ≫= row_kvs).
Proof using Hopt.
  induction rows as [|r rows IH]; intros H; simpl; [done|]. rewrite saveRow_kvs by (apply H; left). simpl.
  rewrite IH by (intros; apply H; by right). done.
Qed.

Lemma cache_rows_ok T t r : cache_inv T0 T t → r ∈ t_rows t → row_ok r.
Proof using Hrep.
  intros H Hin. destruct (decide (r_Ty r = RNone)) as [|Hty]; [by left|]. right.
  assert (r ∈ live (Primary r) (t_rows t)) as Hl by (by apply list_elem_of_filter).
  pose proof (ci_row _ _ _ H (Primary r)) as Hc. remember (Primary r) as p eqn:Ep.
  remember (T0 !! p) as o0 eqn:E0. remember (T !! p) as o eqn:E1. remember (rowmap t !! p) as mi.
  destruct Hc as [o E|o0 d i r' E _ ->|d0 d old E Hd _]; rewrite E in Hl.
  - by apply elem_of_nil in Hl.
  - apply list_elem_of_singleton in Hl. subst r. pose proof (ci_ok _ _ _ H _ _ (eq_sym E1)) as Hd.
    destruct o0 as [d0|]; simpl; (split; [done|]); [|done]. intros _. exists d0. split; [done|]. by apply (rep_ok _ _ Hrep).
  - apply list_elem_of_singleton in Hl. subst r. simpl. split; [done|]. done.
Qed.

(** ** Which pairs decide *)

Lemma index_kvs_in r i k w :
  (k, w) ∈ index_kvs r i → ∃ v, k = indexPrefix opt i +:+ v +:+ sep +:+ Primary r ∧
    match w with
    | Some x => x = Primary r ∧ v = field (r_Data r) i ∧ (r_Ty r = RAdd ∨ r_Ty r = RUpdate)
    | None => (r_Ty r = RDel ∧ v = field (r_Data r) i) ∨
              (r_Ty r = RUpdate ∧ v = old_field r i ∧ v ≠ field (r_Data r) i)
    end.
Proof.
  unfold index_kvs, getIndexKey. destruct (r_Ty r) eqn:E; [by intros ?%elem_of_nil|..].
  - intros Hin%list_elem_of_singleton. simplify_eq. eauto 6.
  - destruct (String.eqb_spec (field (r_Data r) i) (old_field r i)) as [|Hne]; [by intros ?%elem_of_nil|].
    intros [Hin|Hin%list_elem_of_singleton]%elem_of_cons; simplify_eq; [|by eauto 6]. eexists. split; [done|]. right. auto.
  - intros Hin%list_elem_of_singleton. simplify_eq. eauto 6.
Qed.

Lemma row_kvs_in r k w :
  (k, w) ∈ row_kvs r →
  ¬ unchanged r ∧ (k = getDataKey opt (Primary r) ∨ ∃ i, i ∈ o_Index opt ∧ (k, w) ∈ index_kvs r i).
Proof.
  unfold row_kvs. case_decide; [by intros ?%elem_of_nil|]. intros [Hin|Hin]%elem_of_cons; [simplify_eq; auto|].
  split; [done|]. right. apply list_elem_of_bind in Hin as (i & ? & ?). eauto.
Qed.

(** A key of the table belongs to the row of primary key [p]. *)
Definition owned (p k : bytes) : Prop :=
  k = getDataKey opt p ∨ ∃ i v, i ∈ o_Index opt ∧ k = indexPrefix opt i +:+ v +:+ sep +:+ p.

Lemma row_kvs_owned r k w : (k, w) ∈ row_kvs r → owned (Primary r) k.
Proof.
  intros (_ & [->|(i & Hi & Hin)])%row_kvs_in; [by left|]. right. apply index_kvs_in in Hin as (v & -> & _). eauto.
Qed.

Lemma owned_inj p p' k : has_char "-" p = false → has_char "-" p' = false → owned p k → owned p' k → p = p'.
Proof using Hopt.
  intros Hp Hp' [->|(i & v & Hi & ->)] [E|(i' & v' & Hi' & E)].
  - by apply getDataKey_inj in E.
  - by apply data_index_ne in E.
  - by apply (eq_sym), data_index_ne in E.
  - apply indexPrefix_inj in E as [_ E]; [|by apply (go_index Hopt)..]. by apply app_dash_inj in E as [_ ->].
Qed.

Lemma row_ok_key r : row_ok r → ¬ unchanged r → has_char "-" (Primary r) = false.
Proof using Hkey.
  intros [H|[Hd _]] Hu; [destruct Hu; by left|]. by destruct (payload_key _ _ Hd) as (_ & ? & _).
Qed.

(** Only the live row of [p] writes the keys of [p]. *)
Lemma last_write_live p k rows :
  has_char "-" p = false → owned p k → (∀ r, r ∈ rows → row_ok r) →
  GoMemDB.last_write k (rows ≫= row_kvs) = GoMemDB.last_write k (live p rows ≫= row_kvs).
Proof using Hopt Hkey.
  intros Hp Hk. induction rows as [|r rows IH]; intros Hok; [done|].
  change ((r :: rows) ≫= row_kvs) with (row_kvs r ++ (rows ≫= row_kvs)). rewrite GoMemDB.last_write_app.
  rewrite IH by (intros; apply Hok; by right). unfold live. rewrite filter_cons. fold (live p rows).
  case_decide as Hr.
  - change ((r :: live p rows) ≫= row_kvs) with (row_kvs r ++ (live p rows ≫= row_kvs)). by rewrite GoMemDB.last_write_app.
  - assert (GoMemDB.last_write k (row_kvs r) = None) as ->; [|destruct (GoMemDB.last_write k (live p rows ≫= row_kvs)); [reflexivity|reflexivity]].
    apply eq_None_not_Some. intros [w Hw%GoMemDB.last_write_Some]. pose proof (row_kvs_in _ _ _ Hw) as [Hu _].
    apply Hr. split; [|intros ?; apply Hu; by left].
    apply (owned_inj _ _ k); [apply row_ok_key; [apply Hok; left|done]|done|by eapply row_kvs_owned|done].
Qed.

Lemma last_write_one p k r rows :
  has_char "-" p = false → owned p k → (∀ r, r ∈ rows → row_ok r) → live p rows = [r] →
  GoMemDB.last_write k (rows ≫= row_kvs) = GoMemDB.last_write k (row_kvs r).
Proof using Hopt Hkey.
  intros Hp Hk Hok Hl. rewrite (last_write_live p) by done. rewrite Hl. simpl. by rewrite app_nil_r.
Qed.

Lemma last_write_in k kvs : k ∈ kvs.*1 → ∃ w, GoMemDB.last_write k kvs = Some w ∧ (k, w) ∈ kvs.
Proof.
  intros Hk. destruct (GoMemDB.last_write k kvs) as [w|] eqn:E.
  - exists w. split; [done|]. by apply GoMemDB.last_write_Some.
  - by apply GoMemDB.last_write_None in E.
Qed.

Lemma data_write r :
  GoMemDB.last_write (getDataKey opt (Primary r)) (row_kvs r) =
    if decide (unchanged r) then None else Some (if decide (r_Ty r = RDel) then None else Some (Row_Encode r)).
Proof.
  unfold row_kvs. case_decide as Hu; [done|]. simpl.
  assert (GoMemDB.last_write (getDataKey opt (Primary r)) (o_Index opt ≫= index_kvs r) = None) as ->; [|by rewrite decide_True].
  apply eq_None_not_Some. intros [w Hw%GoMemDB.last_write_Some]. apply list_elem_of_bind in Hw as (i & Hin & _).
  apply index_kvs_in in Hin as (v & E & _). by apply data_index_ne in E.
Qed.

(** ** The database after [Save] *)

Section After.
Context (T : gmap bytes D) (t : Table D).
Hypothesis Hinv : cache_inv T0 T t.
Local Abbreviation kvs := (t_rows t ≫= row_kvs).

Lemma rows_ok r : r ∈ t_rows t → row_ok r.
Proof using Hrep Hinv. by apply (cache_rows_ok T). Qed.

Lemma after_data p :
  GoMemDB.apply_kvs kvs m !! getDataKey opt p = (λ d, Row_Encode (mkRow RNone p d None)) <$> T !! p.
Proof using Hopt Hkey Hrep Hinv.
  rewrite GoMemDB.lookup_apply_kvs, (rep_data _ _ Hrep).
  assert (∀ r, live p (t_rows t) = [r] → has_char "-" p = false →
    GoMemDB.last_write (getDataKey opt p) kvs = GoMemDB.last_write (getDataKey opt (Primary r)) (row_kvs r)) as Hone.
  { intros r Hl Hp. rewrite (last_write_one p _ r) by (try done; try (by left); apply rows_ok).
    assert (r ∈ live p (t_rows t)) as Hin by (rewrite Hl; left). by apply list_elem_of_filter in Hin as [[-> _] _]. }
  assert (∀ d, payload_ok p d → has_char "-" p = false) as Hdash by (intros d Hd; by destruct (payload_key _ _ Hd) as (_ & ? & _)).
  pose proof (ci_row _ _ _ Hinv p) as Hc. remember (T0 !! p) as o0 eqn:E0. remember (T !! p) as o eqn:E1. remember (rowmap t !! p) as mi.
  destruct Hc as [o Hl|o0 d i r Hl _ ->|d0 d old Hl Hd _].
  - destruct (GoMemDB.last_write (getDataKey opt p) kvs) as [w|] eqn:E; [|done]. exfalso.
    apply GoMemDB.last_write_Some, list_elem_of_bind in E as (r & Hin & Hr). pose proof (row_kvs_in _ _ _ Hin) as [Hu [Ek|(i & Hi & Hk)]].
    + apply getDataKey_inj in Ek. assert (r ∈ live p (t_rows t)) as Hx; [|rewrite Hl in Hx; by apply elem_of_nil in Hx].
      apply list_elem_of_filter. split; [|done]. split; [done|]. intros ?. apply Hu. by left.
    + apply index_kvs_in in Hk as (v & Ek & _). by apply data_index_ne in Ek.
  - rewrite (Hone _ Hl), data_write by (eapply Hdash, (ci_ok _ _ _ Hinv _ _ (eq_sym E1))).
    case_decide as Hu; destruct o0 as [d0|]; simpl; try done.
    + destruct Hu as [Hu|[_ Hu]]; [done|]. simpl in Hu. by simplify_eq.
    + destruct Hu as [Hu|[Hu _]]; done.
  - rewrite (Hone _ Hl), data_write by (eapply Hdash, Hd). rewrite decide_False; [done|]. by intros [|[]].
Qed.

(** The pairs of index [i] at the row of primary key [x]. *)
Lemma index_key_in r i v : i ∈ o_Index opt → ¬ unchanged r →
  (∃ w, (indexPrefix opt i +:+ v +:+ sep +:+ Primary r, w) ∈ index_kvs r i) →
  indexPrefix opt i +:+ v +:+ sep +:+ Primary r ∈ (row_kvs r).*1.
Proof.
  intros Hi Hu [w Hw]. unfold row_kvs. rewrite decide_False by done. simpl. right. apply list_elem_of_fmap.
  eexists (_, w). split; [done|]. apply list_elem_of_bind. eauto.
Qed.

(** Every write of the key of [(i, v)] in the pairs of a row is one of index [i]. *)
Lemma index_key_unique r i v w : i ∈ o_Index opt → has_char "-" (Primary r) = false →
  (indexPrefix opt i +:+ v +:+ sep +:+ Primary r, w) ∈ row_kvs r →
  match w with
  | Some x => x = Primary r ∧ v = field (r_Data r) i ∧ (r_Ty r = RAdd ∨ r_Ty r = RUpdate)
  | None => (r_Ty r = RDel ∧ v = field (r_Data r) i) ∨ (r_Ty r = RUpdate ∧ v = old_field r i ∧ v ≠ field (r_Data r) i)
  end.
Proof using Hopt.
  intros Hi Hp (_ & [E|(j & Hj & Hin)])%row_kvs_in; [by apply eq_sym, data_index_ne in E|].
  apply index_kvs_in in Hin as (v' & E & Hw). apply indexPrefix_inj in E as [-> E]; [|by apply (go_index Hopt)..].
  by apply app_dash_inj in E as [-> _].
Qed.

Lemma live_written i v x r : i ∈ o_Index opt → has_char "-" x = false → live x (t_rows t) = [r] → Primary r = x → ¬ unchanged r →
  (∃ w, (indexPrefix opt i +:+ v +:+ sep +:+ x, w) ∈ index_kvs r i) →
  ∃ w, GoMemDB.last_write (indexPrefix opt i +:+ v +:+ sep +:+ x) kvs = Some w ∧
       (indexPrefix opt i +:+ v +:+ sep +:+ x, w) ∈ row_kvs r.
Proof using Hopt Hkey Hrep Hinv.
  intros Hi Hx Hl Er Hu Hw. rewrite (last_write_one x _ r) by (try done; try apply rows_ok; right; eauto).
  apply last_write_in. rewrite <-Er in *. by apply index_key_in.
Qed.

Lemma after_index_in i x d : i ∈ o_Index opt → T !! x = Some d →
  GoMemDB.apply_kvs kvs m !! (indexPrefix opt i +:+ field d i +:+ sep +:+ x) = Some x.
Proof using Hopt Hkey Hrep Hinv.
  intros Hi Hx. destruct (payload_key _ _ (ci_ok _ _ _ Hinv _ _ Hx)) as (_ & Hdash & _).
  rewrite GoMemDB.lookup_apply_kvs. pose proof (ci_row _ _ _ Hinv x) as Hc.
  assert (∀ d0, T0 !! x = Some d0 → m !! (indexPrefix opt i +:+ field d0 i +:+ sep +:+ x) = Some x) as Hm.
  { intros d0 H0. apply (rep_index _ _ Hrep); eauto. }
  rewrite Hx in Hc. remember (T0 !! x) as o0 eqn:E0. remember (rowmap t !! x) as mi.
  inversion Hc as [o Hl|o d' j r Hl _ Er|]; subst.
  - rewrite (last_write_live x) by (try done; try apply rows_ok; right; eauto). rewrite Hl. simpl. by apply Hm.
  - set (r := new_row x (T0 !! x) d) in *. assert (Primary r = x) as Ep by apply new_row_primary.
    assert (∀ w, (indexPrefix opt i +:+ field d i +:+ sep +:+ x, w) ∈ row_kvs r → w = Some x) as Hw.
    { intros w Hw. rewrite <-Ep in Hw, Hdash. apply index_key_unique in Hw; [|done..]. rewrite Ep in *.
      assert (r_Ty r ≠ RDel ∧ r_Data r = d) as [Hty Ed] by (unfold r; by destruct (T0 !! x)). rewrite Ed in Hw.
      destruct w; naive_solver. }
    destruct (GoMemDB.last_write _ kvs) as [w|] eqn:E.
    { rewrite (last_write_one x _ r) in E by (try done; try apply rows_ok; right; eauto). by apply Hw, GoMemDB.last_write_Some. }
    destruct (T0 !! x) as [d0|] eqn:E0; subst r; cbn [new_row] in *.
    + destruct (decide (field d i = field d0 i)) as [->|Hne]; [by apply Hm|]. exfalso.
      destruct (live_written i (field d i) x (mkRow RUpdate x d (Some d0))) as (w & E' & _); [done..| | |congruence].
      * intros [|[_ E']]; [done|]. simpl in E'. by simplify_eq.
      * exists (Some x). unfold index_kvs, old_field. simpl. rewrite (proj2 (String.eqb_neq _ _) Hne). right. by left.
    + exfalso. destruct (live_written i (field d i) x (mkRow RAdd x d None)) as (w & E' & _); [done..| | |congruence].
      * by intros [|[]].
      * exists (Some x). by left.
Qed.

Lemma after_index_out i s x : i ∈ o_Index opt →
  GoMemDB.apply_kvs kvs m !! (indexPrefix opt i +:+ s) = Some x → ∃ d, T !! x = Some d ∧ s = field d i +:+ sep +:+ x.
Proof using Hopt Hkey Hrep Hinv.
  intros Hi. rewrite GoMemDB.lookup_apply_kvs. destruct (GoMemDB.last_write _ kvs) as [w|] eqn:E.
  - intros ->. apply GoMemDB.last_write_Some, list_elem_of_bind in E as (r & Hin & Hr). pose proof (rows_ok r Hr) as Hok.
    pose proof (row_kvs_in _ _ _ Hin) as [Hu [Ek|(j & Hj & Hk)]]; [by apply eq_sym, data_index_ne in Ek|].
    apply index_kvs_in in Hk as (v & Ek & -> & -> & Hty). apply indexPrefix_inj in Ek as [-> ->]; [|by apply (go_index Hopt)..].
    exists (r_Data r). split; [|done]. assert (r ∈ live (Primary r) (t_rows t)) as Hl.
    { apply list_elem_of_filter. split; [|done]. split; [done|]. by destruct Hty as [-> | ->]. }
    pose proof (ci_row _ _ _ Hinv (Primary r)) as Hc.
    inversion Hc as [o E|o0 d i r' E _ Er|d0 d old E]; rewrite E in Hl; [by apply elem_of_nil in Hl|..];
      apply list_elem_of_singleton in Hl; subst; [|rewrite Hl in Hty; naive_solver].
    rewrite Er. by destruct (T0 !! Primary r').
  - intros (d0 & H0 & ->)%(rep_index _ _ Hrep); [|done]. pose proof (ci_row _ _ _ Hinv x) as Hc. rewrite H0 in Hc.
    destruct (payload_key _ _ (rep_ok _ _ Hrep _ _ H0)) as (_ & Hdash & _).
    inversion Hc as [o Hl|o0 d j r Hl _ Er|d1 d old Hl Hd Hf]; subst; [eauto|..].
    + exists d. split; [done|]. f_equal. destruct (decide (field d i = field d0 i)) as [|Hne]; [done|]. exfalso.
      destruct (live_written i (field d0 i) x (new_row x (Some d0) d)) as (w & E' & _); [done..| | |congruence].
      * intros [|[_ E']]; [done|]. simpl in E'. by simplify_eq.
      * exists None. unfold index_kvs, old_field. simpl. rewrite (proj2 (String.eqb_neq _ _) Hne). by left.
    + exfalso. destruct (live_written i (field d0 i) x (mkRow RDel x d old)) as (w & E' & _); [done..| | |congruence].
      * by intros [|[]].
      * exists None. unfold index_kvs. simpl. rewrite Hf by done. by left.
Qed.

Lemma after_rep : rep (GoMemDB.apply_kvs kvs m) T.
Proof using Hopt Hkey Hrep Hinv.
  split; [apply (ci_ok _ _ _ Hinv)|apply after_data|]. intros i s x Hi. split; [by apply after_index_out|].
  intros (d & Hx & ->). by apply after_index_in.
Qed.
End After.

Lemma last_write_kvs k l : GoMemDB.last_write k l = kvs_apply l (λ _, None) k.
Proof.
  induction l as [|[k' v] l IH] using rev_ind; [done|]. rewrite GoMemDB.last_write_app, kvs_apply_app, kvs_apply_one, <-IH. simpl.
  by case_decide.
Qed.

Lemma apply_kvs_DelDup l : GoMemDB.apply_kvs (DelDupKey l) m = GoMemDB.apply_kvs l m.
Proof.
  apply map_eq. intros k. rewrite !GoMemDB.lookup_apply_kvs, !last_write_kvs. by rewrite (proj2 (proj2 (DelDupKey_spec l _))).
Qed.

Lemma Save_rep T t : cache_inv T0 T t →
  ∃ kvs, Save opt t = (Ret kvs, mkTable [] ∅ opt NewCount) ∧ NoDup kvs.*1 ∧ rep (GoMemDB.apply_kvs kvs m) T.
Proof using Hopt Hkey Hrep.
  intros H. exists (DelDupKey (t_rows t ≫= row_kvs)). split.
  - unfold Save. rewrite save_rows_kvs by (intros r; by apply (cache_rows_ok T)). rewrite (ci_num _ _ _ H), (ci_opt _ _ _ H).
    by rewrite app_nil_r.
  - split; [apply (DelDupKey_spec _ (λ _, None))|]. rewrite apply_kvs_DelDup. by apply after_rep.
Qed.
End Ops.
End Batch.

(** ** The results *)

(** The options that [NewTable] accepts. *)
Lemma NewTable_good {D} `{!RowMeta D} opt payload t :
  NewTable opt payload = Ret t → o_Join opt = false → o_Primary opt ≠ "" → o_Primary opt ≠ "auto" →
  t = mkTable [] ∅ opt NewCount ∧ good_option opt.
Proof.
  intros H HJ Hp Ha. unfold NewTable in H. destruct (Nat.ltb _ _); [done|].
  destruct (existsb (bad_index opt) (o_Index opt)) eqn:Hi; [done|].
  assert (default_primary opt = opt) as Ed.
  { destruct opt as [a b c d e]. unfold default_primary. simpl in *. by rewrite (proj2 (String.eqb_neq _ _) Hp). }
  rewrite Ed in H. unfold getPrimaryKey in H. rewrite (proj2 (String.eqb_neq _ _) Hp) in H.
  rewrite (proj2 (String.eqb_neq _ _) Ha) in H.
  destruct (has_char "-" (o_Primary opt)) eqn:Hd; [done|]. simpl in H. destruct (meta_Get payload _) as [key|e|]; simpl in H; [|done..].
  destruct (has_char "-" (o_Name opt)); [done|]. destruct (_ && _); [done|]. simplify_eq. split; [done|]. split; [done|done|].
  intros i Hin%list_elem_of_In. apply not_true_is_false. intros Hc. apply not_true_iff_false in Hi. apply Hi, existsb_exists.
  exists i. split; [done|]. unfold bad_index. by rewrite Hc.
Qed.

(** C17: a table that is not a join and has its own primary keys, none of them empty, with a
    dash or of 2^62 bytes, is a map from primary keys to payloads.  A batch of
    [Add], [Replace], [Update], [Del] and [DelRow] over a database that holds the map returns
    what the map operations return, errors included, and [Save] then gives pairs with distinct
    keys that turn the database into one that holds the changed map: one data pair per row, and
    under each index exactly the rows, at their new index values.  The batch neither touches a
    stored row again after deleting it nor deletes one whose indices it changed. *)
Theorem table_refines {D K} `{!EqDecision D, !RowMeta D} {CD : Codec D} {CZ : Codec Z} `{!KVDB K, !KVDBSpec K}
    (opt : Option_) (payload : D) (t0 : Table D) (kvdb : K) (m : gmap bytes bytes) (T0 : gmap bytes D) (os : list change_op) :
  NewTable opt payload = Ret t0 → o_Join opt = false → o_Primary opt ≠ "" → o_Primary opt ≠ "auto" →
  (∀ d p, meta_Get d (o_Primary opt) = Ret p → good_key p) →
  kvdb_is kvdb m → rep opt m T0 → safe_run opt T0 T0 os = true →
  let '(rs, t) := run (table_op opt kvdb) os t0 in
  let '(rs', T) := run (spec_op opt) os T0 in
  rs = rs' ∧ ∃ kvs, Save opt t = (Ret kvs, t0) ∧ NoDup kvs.*1 ∧ rep opt (GoMemDB.apply_kvs kvs m) T.
Proof.
  intros Hn HJ Hp Ha Hkey Hkv Hrep Hs. destruct (NewTable_good _ _ _ Hn HJ Hp Ha) as [-> Hopt].
  assert (cache_inv opt T0 T0 (mkTable [] ∅ opt NewCount)) as Hi.
  { split; [done|done|apply (rep_ok _ _ _ Hrep)|]. intros p. simpl. rewrite lookup_empty. by constructor. }
  destruct (run_sim opt kvdb m T0 Hopt Hkey Hkv Hrep os T0 _ Hi Hs) as [E Hi'].
  destruct (run (table_op opt kvdb) os _) as [rs t], (run (spec_op opt) os T0) as [rs' T]. simpl in E, Hi'.
  split; [done|]. by apply (Save_rep opt m T0).
Qed.

(** ** Listing by an index *)

Lemma bytesPrefix_app a b : bytesPrefix (a +:+ b) = match bytesPrefix b with Some l => Some (a +:+ l) | None => bytesPrefix a end.
Proof.
  induction a as [|c a IH]; [change ("" +:+ b) with b; by destruct (bytesPrefix b)|]. change (String c a +:+ b) with (String c (a +:+ b)).
  cbn [bytesPrefix]. rewrite IH. by destruct (bytesPrefix b).
Qed.

Lemma index_limit opt i q : bytesPrefix (indexPrefix opt i +:+ q) ≠ Some EmptyValue.
Proof.
  unfold indexPrefix, metaprefix. rewrite !str_app_assoc. set (a := o_Prefix opt). set (s := o_Name opt +:+ _).
  rewrite bytesPrefix_app. assert (∃ l, bytesPrefix (sep +:+ s) = Some (String "-" l)) as [l ->].
  { unfold sep. assert (is_Some (bytesPrefix s)) as [l E].
    - unfold s. rewrite bytesPrefix_app. set (rest := "-m-" +:+ _). assert (is_Some (bytesPrefix rest)) as [? ->]; [|by eauto].
      unfold rest. cbn [String.append bytesPrefix]. match goal with |- context [bytesPrefix ?x] => destruct (bytesPrefix x) end; simpl; by eauto.
    - exists l. cbn [String.append bytesPrefix]. by rewrite E. }
  intros [= E]. assert (has_char "-" EmptyValue = true) as Hd; [|done]. rewrite <-E, has_char_app. simpl. by rewrite orb_true_r.
Qed.

Lemma prefix_app_l a b c : String.prefix (a +:+ b) (a +:+ c) = String.prefix b c.
Proof. induction a as [|x a IH]; [done|]. simpl. destruct (ascii_dec x x); [done|congruence]. Qed.

Lemma prefix_extend a b c : String.prefix a b = true → String.prefix a (b +:+ c) = true.
Proof. intros ->%str_prefix_drop. rewrite str_app_assoc. apply str_prefix_app. Qed.

Lemma commonPrefix_length a b : String.prefix a b = true → commonPrefix a b = a.
Proof.
  revert b. induction a as [|x a IH]; intros [|y b]; simpl; try done. destruct (ascii_dec x y) as [->|]; [|done].
  intros H. by rewrite Ascii.eqb_refl, IH.
Qed.

Lemma commonPrefix_full a b : String.length (commonPrefix a b) = String.length a → String.prefix a b = true.
Proof.
  revert b. induction a as [|x a IH]; intros [|y b]; simpl; try done. destruct (Ascii.eqb_spec x y) as [->|]; [|done].
  simpl. intros [= H]. destruct (ascii_dec y y); [by apply IH|done].
Qed.

Lemma start_prefix x (q : option bytes) key : String.prefix (default "" q) key = true →
  match q with
  | Some prefix =>
      if negb (String.length (commonPrefix prefix key) =? String.length prefix)%nat then Err ErrNotFound
      else Ret (x +:+ commonPrefix prefix key)
  | None => Ret x
  end = Ret (x +:+ default "" q).
Proof.
  destruct q as [q|]; intros Hq; [|by rewrite str_app_nil_r]. change (default "" (Some q)) with q in *.
  by rewrite (commonPrefix_length _ _ Hq), Nat.eqb_refl.
Qed.

Lemma seek_rest_present rev L1 k v L2 :
  StronglySorted (klt rev) (L1 ++ (k, v) :: L2) → seek_rest rev k (L1 ++ (k, v) :: L2) = (k, v) :: L2.
Proof.
  intros Hs. assert (∀ x, x ∈ L1 → klt rev x (k, v)) as H1.
  { intros x Hx. eapply StronglySorted_app_1_elem_of; [done|done|left]. }
  assert (∀ x, x ∈ L2 → klt rev (k, v) x) as H2.
  { apply StronglySorted_app_1_r in Hs. apply StronglySorted_inv in Hs as [_ Hs]. intros x Hx.
    by apply (proj1 (list.Forall_forall _ _) Hs). }
  unfold klt, dlt in *. simpl in H1, H2. unfold seek_rest.
  assert (ltb k k = false) as Hk by (apply ltb_false; by left).
  destruct rev.
  - rewrite !list.filter_app, !filter_cons. simpl. rewrite Hk.
    rewrite (filter_all _ L1) by (intros x Hx; apply ltb_false; right; by apply H1).
    rewrite (filter_none (λ p, ltb p.1 k = false) L2) by (intros x E Hx; apply H2, ltb_true in Hx; congruence).
    rewrite (filter_none (λ p, ltb p.1 k = true) L1) by (intros x E Hx; apply ltb_true in E; apply H1 in Hx;
      by eapply (irreflexivity bytes_lt), (transitivity E)).
    rewrite (filter_all _ L2) by (intros x Hx; apply ltb_true; by apply H2).
    rewrite decide_True by done. rewrite decide_False by done. rewrite last_snoc. done.
  - rewrite !list.filter_app, !filter_cons. simpl. rewrite Hk, decide_True by done.
    rewrite (filter_none _ L1) by (intros x E Hx; apply H1, ltb_true in Hx; congruence).
    rewrite (filter_all _ L2) by (intros x Hx; apply ltb_false; right; by apply H2). done.
Qed.

Lemma read_rows_map {D A} (get : A → outcome (Row D)) (f : A → option (Row D)) l :
  (∀ x, x ∈ l → ∃ r, get x = Ret r ∧ f x = Some r) → read_rows get l = Ret (omap f l).
Proof.
  induction l as [|x l IH]; intros H; simpl; [done|]. destruct (H x) as (r & -> & ->); [left|]. simpl.
  rewrite IH by (intros; apply H; by right). done.
Qed.

(** The rows of the primary keys listed. *)
Definition rows_of {D} (T : gmap bytes D) (L : list (bytes * bytes)) : list (Row D) :=
  omap (λ p, (λ d, mkRow RNone p d None) <$> T !! p) L.*2.

Section Listing.
Context {D K : Type} `{!EqDecision D, !RowMeta D} {CD : Codec D} `{!KVDB K, !KVDBSpec K}.
Context (opt : Option_) (kvdb : K) (m : gmap bytes bytes) (T : gmap bytes D) (i : string) (q : option bytes) (count : Z).
Hypothesis Hkey : ∀ d p, meta_Get d (o_Primary opt) = Ret p → good_key p.
Hypothesis Hkv : kvdb_is kvdb m.
Hypothesis Hrep : rep opt m T.
Hypothesis Hi : i ∈ o_Index opt.

Definition index_prefix : bytes := indexPrefix opt i +:+ default "" q.
Definition listing (rev : bool) : list (bytes * bytes) := slice_of rev (Some index_prefix) None m.

Lemma listing_sorted rev : StronglySorted (klt rev) (listing rev).
Proof. apply sorted_filter, dsorted_sorted. Qed.

Lemma listing_in rev k p : (k, p) ∈ listing rev ↔ ∃ d, T !! p = Some d ∧ k = getIndexKey opt i (field d i) p ∧
  String.prefix (default "" q) (field d i +:+ sep +:+ p) = true.
Proof using Hrep Hi.
  unfold listing, index_prefix. rewrite slice_prefix by apply index_limit. rewrite list_elem_of_filter, elem_of_dsorted. simpl. split.
  - intros [Hp Hm]. pose proof (str_prefix_drop _ _ Hp) as E. rewrite str_app_assoc in E. rewrite E in Hm, Hp.
    apply (rep_index _ _ _ Hrep) in Hm as (d & Hd & Es); [|done]. exists d. split; [done|].
    rewrite prefix_app_l in Hp. rewrite Es in Hp, E. done.
  - intros (d & Hd & -> & Hp). unfold getIndexKey. rewrite prefix_app_l. split; [done|]. apply (rep_index _ _ _ Hrep); eauto.
Qed.

Lemma read_listing rev l : (∀ x, x ∈ l → x ∈ listing rev) →
  (values ← match l.*2 with [] => Err ErrNotFound | l => Ret l end; rows ← read_rows (GetData kvdb opt) values; not_empty rows) =
  not_empty (rows_of T l).
Proof using Hkey Hkv Hrep Hi.
  intros Hl. assert (read_rows (GetData kvdb opt) l.*2 = Ret (rows_of T l)) as E; [|by destruct l as [|x l]; [|simpl in *; rewrite E]].
  apply read_rows_map. intros p (kp & -> & Hin)%list_elem_of_fmap. destruct kp as [k p]. simpl.
  apply Hl, listing_in in Hin as (d & Hd & _). rewrite (GetData_spec opt kvdb m T) by done. rewrite Hd. simpl. eauto.
Qed.

Lemma take_count_values {A B} (l : list (A * B)) : take_count count l.*2 = (take_count count l).*2.
Proof. unfold take_count. destruct (0 <? count); [by rewrite fmap_take|done]. Qed.

Lemma take_count_in {A} (l : list A) x : x ∈ take_count count l → x ∈ l.
Proof. unfold take_count. destruct (0 <? count); [|done]. rewrite <-(take_drop (Z.to_nat count) l) at 2. set_solver. Qed.

Hypothesis Hnot : isPrimaryIndex i = false ∧ i ≠ o_Primary opt.

Lemma list_start direction :
  ListIndex kvdb opt i q None count direction =
    not_empty (rows_of T (take_count count (listing (negb (direction =? ListASC))))).
Proof using Hkey Hkv Hrep Hi Hnot.
  destruct Hnot as [Hpi Hip]. unfold ListIndex. rewrite Hpi, (proj2 (String.eqb_neq _ _) Hip).
  cbn [orb default String.length Nat.ltb Nat.leb mbind outcome_bind]. fold index_prefix. rewrite (kvdb_list _ m) by done.
  unfold list_ref. rewrite decide_True by done. fold (listing (negb (direction =? ListASC))). rewrite take_count_values.
  eapply read_listing. intros x. apply take_count_in.
Qed.

Lemma list_missing p direction : p ≠ "" → T !! p = None → ListIndex kvdb opt i q (Some p) count direction = Err ErrNotFound.
Proof using Hkey Hkv Hrep Hi Hnot.
  intros Hp H0. destruct Hnot as [Hpi Hip]. unfold ListIndex. rewrite Hpi, (proj2 (String.eqb_neq _ _) Hip). cbn [orb]. change (default "" (Some p)) with p.
  destruct (Nat.ltb_spec 0 (String.length p)); [|destruct p; simpl in *; [done|lia]].
  rewrite (GetData_spec opt kvdb m T), H0 by done. done.
Qed.

(** A start row without the prefix. *)
Lemma list_outside p d direction : T !! p = Some d → String.prefix (default "" q) (field d i) = false →
  ListIndex kvdb opt i q (Some p) count direction = Err ErrNotFound.
Proof using Hkey Hkv Hrep Hi Hnot.
  intros Hd Hq. pose proof (rep_ok _ _ _ Hrep _ _ Hd) as Hok. destruct (payload_key opt Hkey p d Hok) as (Hp & _).
  destruct Hnot as [Hpi Hip]. unfold ListIndex. rewrite Hpi, (proj2 (String.eqb_neq _ _) Hip). cbn [orb]. change (default "" (Some p)) with p.
  destruct (Nat.ltb_spec 0 (String.length p)); [|destruct p; simpl in *; [done|lia]].
  rewrite (GetData_spec opt kvdb m T), Hd by done. cbn [mbind outcome_bind].
  rewrite (index_field opt p (mkRow RNone p d None) i Hok Hi). cbn [mbind outcome_bind r_Data].
  destruct q as [pre|]; [|by destruct (field d i)]. change (default "" (Some pre)) with pre in Hq.
  destruct (Nat.eqb_spec (String.length (commonPrefix pre (field d i))) (String.length pre)) as [E|]; [|done].
  apply commonPrefix_full in E. congruence.
Qed.

Lemma list_after p d direction : T !! p = Some d → String.prefix (default "" q) (field d i) = true →
  direction = ListASC ∨ direction = ListDESC →
  ∃ L1 L2, listing (direction =? ListDESC) = L1 ++ (getIndexKey opt i (field d i) p, p) :: L2 ∧
    ListIndex kvdb opt i q (Some p) count direction = not_empty (rows_of T (take_count count L2)).
Proof using Hkey Hkv Hrep Hi Hnot.
  intros Hd Hq Hdir. set (key := getIndexKey opt i (field d i) p).
  assert ((key, p) ∈ listing (direction =? ListDESC)) as Hin.
  { apply listing_in. exists d. split; [done|]. split; [done|]. by apply prefix_extend. }
  pose proof (rep_ok _ _ _ Hrep _ _ Hd) as Hok. destruct (payload_key opt Hkey p d Hok) as (Hp & _).
  apply list_elem_of_split in Hin as (L1 & L2 & HL). exists L1, L2. split; [done|]. destruct Hnot as [Hpi Hip].
  unfold ListIndex. rewrite Hpi, (proj2 (String.eqb_neq _ _) Hip). cbn [orb]. change (default "" (Some p)) with p.
  destruct (Nat.ltb_spec 0 (String.length p)); [|destruct p; simpl in *; [done|lia]].
  rewrite (GetData_spec opt kvdb m T), Hd by done. cbn [mbind outcome_bind].
  rewrite (index_field opt p (mkRow RNone p d None) i Hok Hi). cbn [mbind outcome_bind r_Data Primary].
  transitivity (values ← kvdb_List kvdb index_prefix key count direction; rows ← read_rows (GetData kvdb opt) values; not_empty rows).
  { by rewrite (start_prefix _ q _ Hq). }
  rewrite (kvdb_list _ m) by done. unfold list_ref. rewrite decide_False.
  2:{ unfold key, getIndexKey, indexPrefix, metaprefix. intros E%(f_equal String.length). rewrite !str_length_app in E. simpl in E. lia. }
  assert ((count =? 1) && (direction =? ListSeek) = false) as ->.
  { destruct Hdir as [-> | ->]; apply andb_false_r. }
  fold (listing (direction =? ListDESC)). rewrite HL, seek_rest_present by (rewrite <-HL; apply listing_sorted). cbn [tail].
  rewrite take_count_values. apply (read_listing (direction =? ListDESC)). intros x Hx%take_count_in. rewrite HL. set_solver.
Qed.
End Listing.

(** C28: listing by an index, forwards or backwards, over a database that holds a table with
    its own primary keys, none empty or with a dash: there is one list of the rows for which
    the index value followed by a dash and the primary key starts with the wanted prefix, in
    the order of those texts.  [ListIndex] without a start key gives the first [count] of
    them; with the primary key of a stored row whose index value has the prefix, the first
    [count] after that row; and the error "not found" when nothing is left, when no row has
    the start key, and when the index value of the start row does not have the prefix. *)
Theorem table_list {D K} `{!EqDecision D, !RowMeta D} {CD : Codec D} `{!KVDB K, !KVDBSpec K}
    (opt : Option_) (kvdb : K) (m : gmap bytes bytes) (T : gmap bytes D) (i : string) (q : option bytes) (count direction : Z) :
  good_option opt → (∀ d p, meta_Get d (o_Primary opt) = Ret p → good_key p) →
  kvdb_is kvdb m → rep opt m T → i ∈ o_Index opt → isPrimaryIndex i = false → i ≠ o_Primary opt →
  direction = ListASC ∨ direction = ListDESC →
  ∃ L, StronglySorted (klt (direction =? ListDESC)) L ∧
    (∀ k p, (k, p) ∈ L ↔ ∃ d, T !! p = Some d ∧ k = getIndexKey opt i (field d i) p ∧
      String.prefix (default "" q) (field d i +:+ sep +:+ p) = true) ∧
    (∀ start, start = None ∨ start = Some "" →
       ListIndex kvdb opt i q start count direction = not_empty (rows_of T (take_count count L))) ∧
    (∀ p d, T !! p = Some d → String.prefix (default "" q) (field d i) = true →
       ∃ L1 L2, L = L1 ++ (getIndexKey opt i (field d i) p, p) :: L2 ∧
         ListIndex kvdb opt i q (Some p) count direction = not_empty (rows_of T (take_count count L2))) ∧
    (∀ p, p ≠ "" → (∀ d, T !! p = Some d → String.prefix (default "" q) (field d i) = false) →
       ListIndex kvdb opt i q (Some p) count direction = Err ErrNotFound).
Proof.
  intros Hopt Hkey Hkv Hrep Hi Hpi Hip Hdir. exists (listing opt m i q (direction =? ListDESC)).
  split; [apply listing_sorted|]. split; [intros k p; by apply listing_in|]. split; [|split].
  - intros start Hst. transitivity (ListIndex kvdb opt i q None count direction).
    { destruct Hst as [-> | ->]; [done|]. unfold ListIndex. by rewrite Hpi, (proj2 (String.eqb_neq _ _) Hip). }
    rewrite (list_start opt kvdb m T i q count Hkey Hkv Hrep Hi (conj Hpi Hip)). by destruct Hdir as [-> | ->].
  - intros p d Hd Hq. by apply (list_after opt kvdb m T i q count Hkey Hkv Hrep Hi (conj Hpi Hip)).
  - intros p Hp Hq. destruct (T !! p) as [d|] eqn:E.
    + by apply (list_outside opt kvdb m T i q count Hkey Hkv Hrep Hi (conj Hpi Hip) p d); [|apply Hq].
    + by apply (list_missing opt kvdb m T i q count Hkey Hkv Hrep Hi (conj Hpi Hip)).
Qed.

(** ** A table of accounts, by owner *)

Module TableDemo.

Definition Acc : Type := string * string.
#[local] Instance Acc_codec : Codec Acc := countable_codec.
#[local] Instance Z_codec : Codec Z := countable_codec.
Definition key_ok (p : bytes) : bool := negb (String.eqb p "") && negb (has_char "-" p) && (Z.of_nat (String.length p) <? 2 ^ 62).
#[local] Instance Acc_meta : RowMeta Acc := {|
  SetPayload _ := Ret tt;
  meta_Get d f :=
    if String.eqb f "id" then (if key_ok d.1 then Ret d.1 else Err ErrDecode)
    else if String.eqb f "owner" then Ret d.2
    else Err ErrNotFound
|}.
Definition opt : Option_ := mkOption "LODB" "acc" "id" false ["owner"].
Definition t0 : Table Acc := mkTable [] ∅ opt NewCount.

Lemma keys_good (d : Acc) p : meta_Get d (o_Primary opt) = Ret p → good_key p.
Proof.
  simpl. destruct (key_ok d.1) eqn:E; [|done]. intros [= <-]. unfold key_ok in E. rewrite !andb_true_iff, !negb_true_iff in E.
  destruct E as [[E1 E2] E3]. split; [by apply String.eqb_neq|]. split; [done|]. by apply Z.ltb_lt.
Qed.

Lemma empty_rep : rep opt ∅ (∅ : gmap bytes Acc).
Proof.
  split.
  - intros p d. by rewrite lookup_empty.
  - intros p. by rewrite !lookup_empty.
  - intros i s x _. rewrite lookup_empty. split; [done|]. intros (d & Hd & _). by rewrite lookup_empty in Hd.
Qed.

Definition batch : list change_op :=
  [OAdd ("1", "ann"); OAdd ("2", "bob"); OAdd ("1", "eve"); OUpdate "2" ("2", "ann"); OReplace ("3", "bob");
   ODel "1"; ODel "9"; OUpdate "3" ("4", "bob"); OAdd ("a-b", "bob"); OAdd ("1", "tom")].

Lemma t0_new : NewTable opt (("x", "") : Acc) = Ret t0.
Proof. vm_compute. reflexivity. Qed.

Lemma batch_safe : safe_run (D := Acc) opt ∅ ∅ batch = true.
Proof. vm_compute. reflexivity. Qed.

Lemma empty_is : kvdb_is (∅ : gmap bytes bytes) ∅.
Proof. split; [reflexivity|]. by vm_compute. Qed.

Definition results : list (outcome unit) :=
  [Ret tt; Ret tt; Err ErrDupPrimaryKey; Ret tt; Ret tt; Ret tt; Err ErrNotFound; Err ErrInvalidParam; Err ErrDecode; Ret tt].
Definition T1 : gmap bytes Acc := list_to_map [("1", ("1", "tom")); ("2", ("2", "ann")); ("3", ("3", "bob"))].

Lemma batch_spec : run (spec_op (D := Acc) opt) batch (∅ : gmap bytes Acc) = (results, T1).
Proof. vm_compute. reflexivity. Qed.

Lemma table_refines_witness :
  let '(rs, t) := run (table_op opt (∅ : gmap bytes bytes)) batch t0 in
  rs = results ∧ ∃ kvs, Save opt t = (Ret kvs, t0) ∧ NoDup kvs.*1 ∧ rep opt (GoMemDB.apply_kvs kvs ∅) T1.
Proof.
  pose proof (table_refines opt (("x", "") : Acc) t0 (∅ : gmap bytes bytes) ∅ ∅ batch t0_new eq_refl
    ltac:(discriminate) ltac:(discriminate) keys_good empty_is empty_rep batch_safe) as H.
  rewrite batch_spec in H. exact H.
Defined.

(** The database after the batch. *)
Definition saved (db : gmap bytes bytes) (os : list change_op) : gmap bytes bytes :=
  match (Save opt (run (table_op opt db) os t0).2).1 with Ret kvs => GoMemDB.apply_kvs kvs db | _ => db end.
Definition db1 : gmap bytes bytes := saved ∅ batch.

Lemma opt_good : good_option opt.
Proof. apply (NewTable_good opt (("x", "") : Acc) t0 t0_new); [reflexivity|discriminate..]. Qed.

Lemma db1_rep : rep opt db1 T1.
Proof.
  assert (cache_inv (D := Acc) opt ∅ ∅ t0) as Hi.
  { split; [done|done|by intros p d Hd; rewrite lookup_empty in Hd|]. intros p. simpl. rewrite !lookup_empty. by constructor. }
  destruct (run_sim opt ∅ ∅ ∅ opt_good keys_good empty_is empty_rep batch ∅ t0 Hi batch_safe) as [_ Hi'].
  rewrite batch_spec in Hi'. destruct (Save_rep opt ∅ ∅ opt_good keys_good empty_rep T1 _ Hi') as (kvs & Hs & _ & Hr).
  unfold db1, saved. by rewrite Hs.
Qed.

Lemma db1_is : kvdb_is db1 db1.
Proof. split; [reflexivity|]. by vm_compute. Qed.

Definition row (p owner : string) : Row Acc := mkRow RNone p (p, owner) None.

Lemma table_list_witness :
  (∃ L, StronglySorted (klt false) L ∧
     (∀ k p, (k, p) ∈ L ↔ ∃ d, T1 !! p = Some d ∧ k = getIndexKey opt "owner" (field d "owner") p ∧
       String.prefix "" (field d "owner" +:+ sep +:+ p) = true) ∧
     ListIndex db1 opt "owner" None None 0 ListASC = not_empty (rows_of T1 (take_count 0 L))) ∧
  ListIndex db1 opt "owner" None None 0 ListASC = Ret [row "2" "ann"; row "3" "bob"; row "1" "tom"] ∧
  ListIndex db1 opt "owner" None (Some "2") 1 ListASC = Ret [row "3" "bob"] ∧
  ListIndex (D := Acc) db1 opt "owner" (Some "zoe") None 0 ListDESC = Err ErrNotFound ∧
  ListIndex (D := Acc) db1 opt "owner" (Some "b") (Some "2") 0 ListASC = Err ErrNotFound.
Proof.
  split; [|by vm_compute].
  destruct (table_list opt db1 db1 T1 "owner" None 0 ListASC opt_good keys_good db1_is db1_rep ltac:(left) eq_refl
    ltac:(discriminate) (or_introl eq_refl)) as (L & H1 & H2 & H3 & _).
  exists L. split; [exact H1|]. split; [exact H2|]. exact (H3 None (or_introl eq_refl)).
Defined.

(** ** What the cache gets wrong *)

(** An update of an index followed by the deletion of the row in one batch leaves the old pair
    of the index, and the index can then not be listed. *)
Lemma update_del_leaks :
  let db := saved db1 [OUpdate "1" ("1", "zoe"); ODel "1"] in
  db !! getDataKey opt "1" = None ∧ db !! getIndexKey opt "owner" "tom" "1" = Some "1" ∧
  ListIndex (D := Acc) db opt "owner" None None 0 ListASC = Err ErrNotFound.
Proof. by vm_compute. Qed.

(** A deleted row that is put back with the same data in one batch is lost, without an error. *)
Lemma del_replace_lost :
  let os := [ODel "1"; OReplace ("1", "tom")] in
  (run (table_op opt db1) os t0).1 = [Ret tt; Ret tt] ∧ saved db1 os !! getDataKey opt "1" = None.
Proof. by vm_compute. Qed.

(** [Add] of a key whose row was deleted in the same batch is refused. *)
Lemma del_add_refused : (run (table_op opt db1) [ODel "1"; OAdd ("1", "tom")] t0).1 = [Ret tt; Err ErrDupPrimaryKey].
Proof. by vm_compute. Qed.

(** Paging through the primary keys with a prefix: the second page is empty, since the start key
    has the prefix twice. *)
Lemma prefix_paging_lost :
  let db := saved ∅ [OAdd ("a1", "x"); OAdd ("a2", "x"); OAdd ("b1", "x")] in
  ListIndex db opt "primary" (Some "a") None 1 ListASC = Ret [row "a1" "x"] ∧
  ListIndex (D := Acc) db opt "primary" (Some "a") (Some "a1") 1 ListASC = Err ErrNotFound ∧
  ListIndex db opt "primary" None (Some "a1") 1 ListASC = Ret [row "a2" "x"].
Proof. by vm_compute. Qed.
End TableDemo.
