(* ===== verification/Executor.v ===== *)
(** The executor service ([executor/execenv.go], [executor/executor.go],
    [executor/allow.go]) and the loading of drivers ([system/dapp/register.go]): the
    transactions of a block run one after the other, alone or in groups, each inside a
    transaction of the two databases; fees are taken first and stay taken.

    A driver is what it does to the databases.  The values of receipts are not nil, and
    the executor has a local database ([disableLocal] is set in tests only). *)

From Stdlib Require Import Ascii String.
From S2P Require Import Prelude Types Api KVStore Account StateDB LocalDB Fork Coins Tx Merkle Block.
Local Open Scope string_scope.
Local Open Scope Z_scope.

(** ** Drivers *)

(** The two databases a driver works on. *)
Definition Dbs : Type := StateDB * LocalDB.
Definition LocalKV : Type := list (bytes * option bytes).

(** [type Driver interface], of a driver set up for a block: [Allow] says whether it
    returns no error, the writes of [ExecLocal] are [None] for nil. *)
Record Driver := mkDriver {
  GetDriverName : string;
  IsFree : bool;
  ExecutorOrder : Z;
  Allow : Transaction → Z → bool;
  IsFriend : bytes → bytes → Transaction → bool;
  d_CheckTx : Transaction → Z → M Dbs unit;
  d_Exec : Transaction → Z → M Dbs (option Receipt);
  d_ExecLocal : Transaction → ReceiptData → Z → M Dbs (option LocalKV);
  d_ExecDelLocal : Transaction → ReceiptData → Z → M Dbs (option LocalKV)
}.
Definition ExecLocalSameTime : Z := 1.

(** [type driverWithHeight struct]; the argument of [create] are the names given to the
    driver afterwards, if any. *)
Record driverWithHeight := { create : option (string * string) → Driver; d_height : Z }.

(** ** The environment *)

Class ExecEnv := {
  xe_block :: BlockEnv;
  xe_codecs :: LedgerCodecs;
  xe_config : TxConfig;
  (** what the state database asks *)
  xe_storeGet : option (bytes → bytes → outcome (option (list (option bytes))));
  xe_localGetV : bytes → Z → outcome bytes;
  xe_localGetVersion : bytes → outcome Z;
  (** every query is answered, with one value *)
  xe_answers : (∀ k v, xe_localGetV k v ≠ Panic) ∧
    (∀ send h k, xe_storeGet = Some send → send h k ≠ Panic ∧ send h k ≠ Ret (Some []));
  (** the answers of the blockchain module to the requests of the local database *)
  xe_local :: LocalApi;
  (** [registedExecDriver] and [execDrivers] *)
  registered : gmap string driverWithHeight;
  driver_addresses : gmap string Z;
  (** addresses: hashes of keys and names; a name that is too long is a panic ([None]) *)
  PubKeyToAddr : bytes → string;
  ExecPubkey : string → option bytes;
  dapp_ExecAddress : string → option string;
  address_CheckAddress : string → outcome unit;
  (** the address in the payload, by the executor's type *)
  GetRealToAddr : Transaction → string;
  (** configuration *)
  AllowUserExec : list string;
  MinFee : Z; MaxFee : Z; MinBalanceTransfer : Z; CoinSymbol : string;
  grpc_status : error → bool;
  error_text : error → bytes
}.

Section Executor.
Context {ENV : ExecEnv}.

Definition xe_title : string := tc_title xe_config.
Definition fork (height : Z) (name : string) : outcome bool := is_fork xe_config height name.
Definition backend : Backend := {|
  storeGet := xe_storeGet; localGetV := xe_localGetV; localGetVersion := xe_localGetVersion;
  isFork h f := match fork h f with Ret b => b | _ => false end
|}.

#[local] Instance state_kv : KV StateDB := StateDB_KV backend xe_answers.

(** [type executor struct]: the block's height and time do not change; [execCache] holds
    the drivers by executor name. *)
Record executor := mkX { x_dbs : Dbs; execCache : gmap string Driver }.

Section Block.
Context (height blocktime : Z).

Definition XM : Type → Type := M executor.
Definition on_dbs {A} (m : M Dbs A) : XM A := λ e,
  let '(r, d) := m (x_dbs e) in (r, mkX d (execCache e)).
Definition on_state {A} (m : M StateDB A) : XM A :=
  on_dbs (λ d, let '(r, s) := m d.1 in (r, (s, d.2))).
Definition map_state (f : StateDB → StateDB) : XM unit := on_state (λ s, (Ret tt, f s)).
Definition map_local (f : LocalDB → LocalDB) : XM unit := on_dbs (λ d, (Ret tt, (d.1, f d.2))).
Definition on_local_db {A} (m : M LocalDB A) : XM A := on_dbs (λ d, let '(r, l) := m d.2 in (r, (d.1, l))).
Definition pure {A} (o : outcome A) : XM A := λ e, (o, e).
Definition or_panic {A} (o : option A) : XM A := match o with Some a => mret a | None => panic end.
(** [v, err := m]: go on with the error as a value. *)
Definition attempt {A} (m : XM A) : XM (A + error) := λ e,
  match m e with
  | (Ret a, e') => (Ret (inl a), e')
  | (Err x, e') => (Ret (inr x), e')
  | (Panic, e') => (Panic, e')
  end.
(** [defer f()] *)
Definition finally {A} (m : XM A) (f : executor → executor) : XM A := λ e, let '(r, e') := m e in (r, f e').

(** ** Loading drivers *)

Definition LoadDriver (name : string) : outcome driverWithHeight :=
  match registered !! GetRealExecName name with
  | None => Err (ErrOther "ErrUnRegistedDriver")
  | Some c => if (d_height c <=? height) || (height =? -1) then Ret c else Err (ErrOther "ErrUnknowDriver")
  end.

(** A transaction no driver allows is handled by [none]. *)
Definition LoadDriverAllow (execer : bytes) (tx : Transaction) (index : Z) : outcome Driver :=
  match LoadDriver execer with
  | Ret c =>
      if Allow (create c None) tx index then Ret (create c (Some (GetRealExecName execer, execer)))
      else match LoadDriver "none" with Ret c => Ret (create c None) | _ => Panic end
  | _ => match LoadDriver "none" with Ret c => Ret (create c None) | _ => Panic end
  end.

Definition loadDriver (tx : Transaction) (index : Z) : XM Driver := λ e,
  match execCache e !! Execer tx with
  | Some d => (Ret d, e)
  | None =>
      match LoadDriverAllow (Execer tx) tx index with
      | Ret d => (Ret d, mkX (x_dbs e) (<[Execer tx := d]> (execCache e)))
      | Err x => (Err x, e)
      | Panic => (Panic, e)
      end
  end.

Definition getRealExecName (tx : Transaction) (index : Z) : XM bytes :=
  exec ← loadDriver tx index;
  mret (if String.eqb (GetDriverName exec) "none" then Execer tx else GetDriverName exec).

(** ** Checks *)

Definition checkTx (tx : Transaction) (index : Z) : XM unit :=
  expired ← (if (0 <? height) && (0 <? blocktime) then pure (IsExpire xe_config tx height blocktime) else mret false);
  _ ← guard_err expired ErrTxExpire;
  _ ← pure (Check xe_config tx height MinFee MaxFee);
  name ← getRealExecName tx index;
  guard_err (negb (IsAllowExecName AllowUserExec name (Execer tx))) ErrExecNameNotAllow.

Definition checkTxGroup (txs : list Transaction) : XM unit :=
  expired ← (if (0 <? height) && (0 <? blocktime) then pure (group_IsExpire xe_config txs height blocktime) else mret false);
  _ ← guard_err expired ErrTxExpire;
  pure (group_Check xe_config (Some <$> txs) height MinFee MaxFee).

(** [CheckAddress] of [system/dapp/driver.go]: both forks are looked up, whatever the
    check of the address said; the second one only when the first excuse does not apply. *)
Definition address_result (addr : string) : outcome (option error) :=
  match address_CheckAddress addr with Ret _ => Ret None | Err e => Ret (Some e) | Panic => Panic end.
Definition CheckAddress (addr : string) : outcome unit :=
  if IsDriverAddress driver_addresses addr height then Ret tt
  else
    err ← address_result addr;
    b1 ← fork height "ForkMultiSignAddress";
    if negb b1 && bool_decide (err = Some (ErrOther "ErrCheckVersion")) then Ret tt
    else
      b2 ← fork height "ForkBase58AddressCheck";
      if negb b2 && bool_decide (err = Some (ErrOther "ErrAddressChecksum")) then Ret tt
      else match err with Some e => Err e | None => Ret tt end.

(** ** Fees *)

Definition tx_pubkey (tx : Transaction) : bytes := match Sig tx with Some s => Pubkey s | None => EmptyString end.
Definition tx_From (tx : Transaction) : string := PubKeyToAddr (tx_pubkey tx).
Definition coinsAccount : DB := NewCoinsAccount CoinSymbol.
Definition TyLogErr : Z := 1.
Definition TyLogFee : Z := 2.

Definition cutFeeReceipt (kvset : list KeyValue) (receiptBalance : ReceiptAccountTransfer) : Receipt :=
  {| Ty := ExecPack; KVs := kvset; Logs := [ {| rl_Ty := TyLogFee; rl_Log := Encode receiptBalance |} ] |}.

Definition processFee (tx : Transaction) : XM Receipt :=
  accFrom ← on_state (LoadAccount coinsAccount (tx_From tx));
  if 0 <=? Balance accFrom -₆₄ Fee tx then
    let accFrom' := set_Balance accFrom (Balance accFrom -₆₄ Fee tx) in
    let receiptBalance := {| rat_Prev := accFrom; rat_Current := accFrom' |} in
    let set := GetKVSet coinsAccount accFrom' in
    _ ← on_state (SaveKVSet set);
    mret (cutFeeReceipt set receiptBalance)
  else throw ErrNoBalance.

Definition pack : Receipt := {| Ty := ExecPack; KVs := []; Logs := [] |}.

Definition execFee (tx : Transaction) (index : Z) : XM Receipt :=
  ex ← loadDriver tx index;
  key ← or_panic (ExecPubkey (Execer tx));
  _ ← (if String.eqb key (tx_pubkey tx) then on_dbs (d_CheckTx ex tx index) else mret tt);
  if negb (isPara xe_title) && (0 <? MinFee) && negb (IsFree ex) then processFee tx else mret pack.

(** ** Keys a transaction may write *)

Definition with_execer (execer : bytes) : Transaction := mkTx execer "" None 0 0 0 "" 0 None None.

Definition isAllowKeyWrite (key realExecer : bytes) (tx : Transaction) (index : Z) : XM bool :=
  match FindExecer key with
  | Err _ => mret false
  | Panic => panic
  | Ret keyExecer =>
      let exec := GetParaExec xe_title (Execer tx) in
      if String.eqb keyExecer exec then mret true
      else
        b ← pure (fork height "ForkExecKey");
        if negb b && ((String.eqb exec "manage" && String.eqb keyExecer "config") ||
                      (String.eqb exec "token" && String.prefix "mavl-create-token-" key)) then mret true
        else
          let '(keyExecAddr, ok) := GetExecKey key in
          same ← (if ok then a ← or_panic (dapp_ExecAddress (Execer tx)); mret (String.eqb keyExecAddr a) else mret false);
          if (same : bool) then mret true
          else
            real ← (if ok then a ← or_panic (dapp_ExecAddress realExecer); mret (String.eqb keyExecAddr a) else mret false);
            let execdriver := if (real : bool) then realExecer else keyExecer in
            c ← loadDriver (with_execer execdriver) index;
            mret (IsFriend c execdriver key tx)
  end.

Definition isAllowExec (key : bytes) (tx : Transaction) (index : Z) : XM bool :=
  realExecer ← getRealExecName tx index; isAllowKeyWrite key realExecer tx index.

Definition checkKV (memset : list bytes) (ks : list bytes) : bool :=
  forallb (λ key, bool_decide (key ∈ ks)) memset.

Fixpoint checkKeyAllow (tx : Transaction) (index : Z) (ks : list bytes) : XM bool :=
  match ks with
  | [] => mret true
  | k :: ks =>
      b ← isAllowExec k tx index;
      if (b : bool) then checkKeyAllow tx index ks else mret false
  end.

(** ** Local keys *)

Definition LocalPrefix : bytes := "LODB".
Definition ErrLocalPrefix : error := ErrOther "ErrLocalPrefix".
Definition char_is (n : nat) (c : ascii) (s : string) : bool :=
  match String.get n s with Some c' => Ascii.eqb c' c | None => false end.
Definition isAllowLocalKey2 (execer key : bytes) : outcome unit :=
  if (String.length execer <? 1)%nat then Err ErrLocalPrefix
  else
    let minkeylen := (String.length LocalPrefix + String.length execer + 2)%nat in
    if (String.length key <=? minkeylen)%nat then Err (ErrOther "ErrLocalKeyLen")
    else if negb (char_is (minkeylen - 1) "-" key) || negb (char_is (String.length LocalPrefix) "-" key) then Err ErrLocalPrefix
    else if negb (String.prefix LocalPrefix key) then Err ErrLocalPrefix
    else if negb (String.prefix execer (str_drop (String.length LocalPrefix + 1) key)) then Err ErrLocalPrefix
    else Ret tt.
Definition isAllowLocalKey (execer key : bytes) : outcome unit :=
  match isAllowLocalKey2 execer key with
  | Err e =>
      let realexec := GetRealExecName execer in
      if String.eqb realexec execer then Err e else isAllowLocalKey2 realexec key
  | r => r
  end.
(** The first key that is not allowed is a panic. *)
Definition checkPrefix (execer : bytes) (kvs : LocalKV) : XM unit :=
  if forallb (λ kv, match isAllowLocalKey execer kv.1 with Ret _ => true | _ => false end) kvs then mret tt else panic.

Definition local_StartTx (l : LocalDB) : LocalDB :=
  mkLocalDB (l_cache l) (l_txcache l) [] (l_intx l) (l_hasbegin l) (l_kvs l) (l_disableread l) (l_disablewrite l) (l_remote l).
Definition local_GetSetKeys (l : LocalDB) : list bytes := l_keys l.

Fixpoint set_local (kvs : LocalKV) : M Dbs unit :=
  match kvs with
  | [] => mret tt
  | kv :: kvs => _ ← must (λ d, let '(r, l) := local_Set kv.1 kv.2 d.2 in (r, (d.1, l))); set_local kvs
  end.

Definition execLocal (tx : Transaction) (r : ReceiptData) (index : Z) : XM (option LocalKV) :=
  exec ← loadDriver tx index; on_dbs (d_ExecLocal exec tx r index).

Definition execLocalTx (tx : Transaction) (r : ReceiptData) (index : Z) : XM (option LocalKV) :=
  res ← attempt (execLocal tx r index);
  match res with
  | inr e => if bool_decide (e = ErrActionNotSupport) then mret None else throw e
  | inl kv =>
      memkvset ← (λ e, (Ret (local_GetSetKeys (x_dbs e).2), e) : outcome (list bytes) * executor);
      match kv with
      | Some kvs =>
          _ ← guard_err (negb (checkKV memkvset kvs.*1)) (ErrOther "ErrNotAllowMemSetLocalKey");
          _ ← checkPrefix (Execer tx) kvs;
          _ ← on_dbs (set_local kvs);
          mret (Some kvs)
      | None =>
          _ ← guard_err (0 <? Z.of_nat (length memkvset)) (ErrOther "ErrNotAllowMemSetLocalKey");
          mret None
      end
  end.

Definition isExecLocalSameTime (tx : Transaction) (index : Z) : XM bool :=
  exec ← loadDriver tx index; mret (ExecutorOrder exec =? ExecLocalSameTime).

Definition execLocalSameTime (tx : Transaction) (receipt : Receipt) (index : Z) : XM unit :=
  b ← isExecLocalSameTime tx index;
  if (b : bool) then _ ← execLocalTx tx (mkRD (Ty receipt) (Logs receipt)) index; mret tt else mret tt.

(** ** Executing *)

(** After the fork a driver cannot write local data while it executes, and only reads it
    when it also makes its local data then. *)
Definition Exec (tx : Transaction) (index : Z) : XM (option Receipt) :=
  exec ← loadDriver tx index;
  _ ← pure (CheckAddress (GetRealToAddr tx));
  b ← pure (fork height "ForkLocalDBAccess");
  let same := ExecutorOrder exec =? ExecLocalSameTime in
  let run := _ ← on_dbs (d_CheckTx exec tx index); on_dbs (d_Exec exec tx index) in
  if (b : bool) then
    _ ← map_local (λ l, let l := DisableWrite l in if same then l else DisableRead l);
    finally run (λ e, mkX ((x_dbs e).1, let l := EnableWrite (x_dbs e).2 in if same then l else EnableRead l) (execCache e))
  else run.

Definition begin_ : XM unit :=
  b ← pure (fork height "ForkExecRollback");
  if (b : bool) then _ ← map_state (Begin backend); map_local local_Begin else mret tt.
(** The state database is committed first; the error of the local database is returned. *)
Definition commit : XM unit :=
  b ← pure (fork height "ForkExecRollback");
  if (b : bool) then _ ← map_state (Commit backend); on_local_db local_Commit else mret tt.
Definition startTx : XM unit := _ ← map_state StartTx; map_local local_StartTx.
Definition rollback : XM unit :=
  b ← pure (fork height "ForkExecRollback");
  if (b : bool) then _ ← map_state Rollback; on_local_db local_Rollback else mret tt.

Definition add_errlog (feelog : Receipt) (e : error) : Receipt :=
  {| Ty := Ty feelog; KVs := KVs feelog; Logs := (Logs feelog ++ [ {| rl_Ty := TyLogErr; rl_Log := error_text e |} ])%list |}.
Definition kvs_of (r : option Receipt) : list KeyValue := match r with Some r => KVs r | None => [] end.

(** The receipt, and the error if there is one. *)
Definition execTxOne (feelog : Receipt) (tx : Transaction) (index : Z) : XM (Receipt * option error) :=
  let fail e : XM (Receipt * option error) := mret (add_errlog feelog e, Some e) in
  _ ← startTx;
  res ← attempt (Exec tx index);
  match res with
  | inr e => fail e
  | inl receipt =>
      memkvset ← (λ e, (Ret (GetSetKeys (x_dbs e).1), e) : outcome (list bytes) * executor);
      if negb (checkKV memkvset (kvs_of receipt).*1) then fail (ErrOther "ErrNotAllowMemSetKey")
      else
        ok ← checkKeyAllow tx index (kvs_of receipt).*1;
        if negb ok then fail (ErrOther "ErrNotAllowKey")
        else
          res ← attempt (execLocalSameTime tx feelog index);
          match res with
          | inr e => fail e
          | inl _ =>
              let feelog :=
                match receipt with
                | Some r => {| Ty := Ty r; KVs := (KVs feelog ++ KVs r)%list; Logs := (Logs feelog ++ Logs r)%list |}
                | None => feelog
                end in
              b ← pure (fork height "ForkStateDBSet");
              _ ← (if (b : bool) then on_state (SaveKVSet (KVs feelog)) else mret tt);
              mret (feelog, None)
          end
  end.

Definition execTx (tx : Transaction) (index : Z) : XM Receipt :=
  if height =? 0 then
    receipt ← must (Exec tx index);
    match receipt with Some r => mret r | None => panic end
  else
    _ ← checkTx tx index;
    feelog ← execFee tx index;
    _ ← begin_;
    '(feelog, err) ← (execTxOne feelog tx index : XM (Receipt * option error));
    match err with
    | Some e => _ ← rollback; if IsAPIEnvError grpc_status e then throw e else mret feelog
    | None => _ ← commit; mret feelog
    end.

Definition copyReceipt (feelog : Receipt) : Receipt := {| Ty := Ty feelog; KVs := KVs feelog; Logs := Logs feelog |}.

(** The transactions of a group after the first, whose receipts so far are [receipts].
    When one fails the receipts of those before it are reset. *)
Fixpoint execRest (txs : list Transaction) (index : Z) (receipts : list Receipt) : XM (list Receipt * option error) :=
  match txs with
  | [] => mret (receipts, None)
  | tx :: txs =>
      '(receipt, err) ← (execTxOne pack tx index : XM (Receipt * option error));
      match err with
      | Some e => mret ((const pack <$> receipts) ++ receipt :: (const pack <$> txs), Some e)%list
      | None => execRest txs (index + 1) (receipts ++ [receipt])%list
      end
  end.

Definition execTxGroup (txs : list Transaction) (index : Z) : XM (list Receipt) :=
  _ ← checkTxGroup txs;
  match txs with
  | [] => panic
  | tx0 :: rest =>
      feelog ← execFee tx0 index;
      let rollbackLog := copyReceipt feelog in
      _ ← begin_;
      '(receipt0, err) ← (execTxOne feelog tx0 index : XM (Receipt * option error));
      match err with
      | Some e =>
          if IsAPIEnvError grpc_status e then throw e
          else
            b ← pure (fork height "ForkExecRollback");
            _ ← (if (b : bool) then rollback else mret tt);
            mret (receipt0 :: (const pack <$> rest))
      | None =>
          '(receipts, err) ← (execRest rest (index + 1) [] : XM (list Receipt * option error));
          match err with
          | Some e =>
              if IsAPIEnvError grpc_status e then throw e
              else
                b ← pure (fork height "ForkResetTx0");
                _ ← rollback;
                mret ((if (b : bool) then rollbackLog else receipt0) :: receipts)
          | None => _ ← commit; mret (receipt0 :: receipts)
          end
      end
  end.

(** ** The service *)

Definition NewErrReceipt (e : error) : Receipt :=
  {| Ty := ExecErr; KVs := []; Logs := [ {| rl_Ty := TyLogErr; rl_Log := error_text e |} ] |}.

(** The loop of [procExecTxList]: [skip] transactions belong to a group that was done,
    [index] counts the transactions that got into the block. *)
Fixpoint exec_list (txs : list Transaction) (skip : nat) (index : Z) : XM (list Receipt) :=
  match txs with
  | [] => mret []
  | tx :: rest =>
      match skip with
      | S skip => exec_list rest skip index
      | O =>
          let n := GroupCount tx in
          if (n <? 0) || (n =? 1) || (20 <? n) then
            rs ← exec_list rest 0 index; mret (NewErrReceipt ErrTxGroupCount :: rs)
          else if n =? 0 then
            res ← attempt (execTx tx index);
            match res with
            | inr e =>
                if IsAPIEnvError grpc_status e then throw e
                else rs ← exec_list rest 0 index; mret (NewErrReceipt e :: rs)
            | inl receipt => rs ← exec_list rest 0 (index + 1); mret (receipt :: rs)
            end
          else
            b ← pure (fork height "ForkTxGroup");
            if negb b then rs ← exec_list rest 0 index; mret (NewErrReceipt (ErrOther "ErrTxGroupNotSupport") :: rs)
            else if (length txs <? Z.to_nat n)%nat then
              rs ← exec_list rest 0 index; mret (NewErrReceipt ErrTxGroupCount :: rs)
            else
              res ← attempt (execTxGroup (take (Z.to_nat n) txs) index);
              match res with
              | inr e =>
                  if IsAPIEnvError grpc_status e then throw e
                  else
                    rs ← exec_list rest (Z.to_nat n - 1) index;
                    mret (replicate (Z.to_nat n) (NewErrReceipt e) ++ rs)%list
              | inl receiptlist =>
                  _ ← (if (0 <? length receiptlist)%nat && negb (length receiptlist =? Z.to_nat n)%nat then panic else mret tt);
                  rs ← exec_list rest (Z.to_nat n - 1) (index + n);
                  mret (receiptlist ++ rs)%list
              end
      end
  end.

(** [newExecutor] with its databases. *)
Definition newExecutor (stateHash : bytes) (local : LocalDB) : executor :=
  mkX (NewStateDB stateHash height, local) ∅.

(** A panic is answered as an error. *)
Definition procExecTxList (EnableMVCC : bool) (txs : list Transaction) (e : executor) : outcome (list Receipt) * executor :=
  match (_ ← on_state (enableMVCC backend EnableMVCC None); exec_list txs 0 0) e with
  | (Panic, e') => (Err (ErrOther "ErrExecPanic"), e')
  | r => r
  end.

(** [execCheckTx]: what the pool asks before it takes a transaction. *)
Definition execCheckTx (tx : Transaction) (index : Z) : XM unit :=
  _ ← checkTx tx index;
  _ ← pure (address_CheckAddress (To tx));
  exec ← loadDriver tx index;
  _ ← (if negb (IsFree exec) && (0 <? MinFee) then
         accFrom ← on_state (LoadAccount coinsAccount (tx_From tx));
         fee ← pure (GetTxFee tx);
         _ ← guard_err (Balance accFrom <? fee) ErrNoBalance;
         guard_err (Balance accFrom <? MinBalanceTransfer) (ErrOther "ErrBalanceLessThanTenTimesFee")
       else mret tt);
  on_dbs (d_CheckTx exec tx index).

Fixpoint check_list (isMempool : bool) (i : Z) (txs : list Transaction) : XM (list (option error)) :=
  match txs with
  | [] => mret []
  | tx :: txs =>
      res ← attempt (execCheckTx tx (if isMempool then -1 else i));
      rs ← check_list isMempool (i + 1) txs;
      mret ((match res with inl _ => None | inr e => Some e end) :: rs)
  end.
Definition procExecCheckTx (EnableMVCC isMempool : bool) (txs : list Transaction) (e : executor) : outcome (list (option error)) * executor :=
  match (_ ← on_state (enableMVCC backend EnableMVCC None); check_list isMempool 0 txs) e with
  | (Panic, e') => (Err (ErrOther "ErrExecPanic"), e')
  | r => r
  end.
End Block.
End Executor.
