(* ===== verification/ExecutorTheorems.v ===== *)
(** Theorems about the executor service: what the transactions of a block leave in the
    state database is what their receipts say, and a group takes effect as a whole or
    not at all. *)

From Stdlib Require Import Ascii String.
From S2P Require Import Prelude Types Api KVStore Account Ledger StateDB LedgerTx LocalDB Fork Coins Tx Merkle Block Executor.
Local Open Scope string_scope.
Local Open Scope Z_scope.

(** ** Accesses to the state database *)

Section Access.
Context (B : Backend) (HB : backend_ok B).

(** A read changes the layers, not what they show. *)
Lemma Get_keeps s k :
  let s' := (Get B k s).2 in
  intx s' = intx s ∧ StateDB.height s' = StateDB.height s ∧ keys s' = keys s ∧
  (∀ k', base_view B s' k' = base_view B s k') ∧ (∀ k', view B s' k' = view B s k').
Proof using HB.
  assert (∀ k', view B (Get B k s).2 k' = view B s k') as Hv.
  { destruct (Get_view B s k HB) as (r & s' & E & _ & H). by rewrite E. }
  simpl. revert Hv. unfold Get, get.
  destruct (if intx s then txcache s ≫= lookup k else None) as [w|]; [done|].
  destruct (cache s !! k) as [w|] eqn:Ec; [done|].
  destruct (get_backend_run B s k HB) as (r & s' & -> & _ & Hh & Hv' & Hi & _ & Hk & Hht & Hc). simpl.
  intros Hview. split_and!; try done. intros k'. destruct Hc as [->|(v & Hb & Hc)]; [done|].
  unfold base_view. rewrite Hc, (backend_view_same B s' s) by done.
  destruct (decide (k' = k)) as [->|Hne]; [by rewrite lookup_insert_eq, Ec|by rewrite lookup_insert_ne].
Qed.

Definition reads (l : list bytes) : list access := AGet <$> l.
Lemma reads_keep l s :
  let s' := do_accesses B (reads l) s in
  intx s' = intx s ∧ StateDB.height s' = StateDB.height s ∧ keys s' = keys s ∧
  (∀ k', base_view B s' k' = base_view B s k') ∧ (∀ k', view B s' k' = view B s k').
Proof using HB.
  revert s. induction l as [|k l IH]; intros s; simpl; [done|].
  destruct (Get_keeps s k) as (H1 & H2 & H3 & H4 & H5). destruct (IH (Get B k s).2) as (G1 & G2 & G3 & G4 & G5).
  split_and!; [congruence|congruence|congruence|intros k'; by rewrite G4, H4|intros k'; by rewrite G5, H5].
Qed.

(** Inside a transaction only the keys written look different. *)
Lemma access_other s a k : intx s = true → (k ∉ set_keys [a]) → view B (do_access B a s) k = view B s k.
Proof using HB.
  intros Hi Hk. destruct a as [k0|k0 v]; [apply Get_keeps|]. simpl in *. unfold Set_. rewrite Hi. simpl.
  unfold view. simpl. rewrite Hi, (backend_view_same B (mkStateDB _ _ _ _ _ _ _) s) by done.
  assert (k ≠ k0) as Hne by set_solver.
  assert (setmap (default ∅ (txcache s)) k0 v !! k = txcache s ≫= lookup k) as ->; [|done].
  unfold setmap. destruct v; [rewrite lookup_insert_ne by done|rewrite lookup_delete_ne by done].
  all: destruct (txcache s); simpl; [done|by rewrite lookup_empty].
Qed.
Lemma accesses_other s l k : intx s = true → (k ∉ set_keys l) → view B (do_accesses B l s) k = view B s k.
Proof using HB.
  revert s. induction l as [|a l IH]; intros s Hi Hk; simpl; [done|].
  assert (set_keys (a :: l) = set_keys [a] ++ set_keys l)%list as E by (by destruct a). rewrite E, not_elem_of_app in Hk.
  destruct Hk as [Hk1 Hk2]. destruct (do_access_tx B s a HB Hi) as (H1 & _).
  etrans; [apply (IH _ H1 Hk2)|by apply access_other].
Qed.
End Access.

(** ** Drivers *)

Section Laws.
Context {ENV : ExecEnv}.

(** What a driver may do to the state: check and make local data by reading it, execute by
    reading and writing it.  Its receipt is not the one of an error. *)
Record lawful (d : Driver) : Prop := {
  law_CheckTx tx i (s : Dbs) : ∃ l, (d_CheckTx d tx i s).2.1 = do_accesses backend (reads l) s.1;
  law_ExecLocal tx r i (s : Dbs) : ∃ l, (d_ExecLocal d tx r i s).2.1 = do_accesses backend (reads l) s.1;
  law_Exec tx i (s : Dbs) : ∃ l, (d_Exec d tx i s).2.1 = do_accesses backend l s.1;
  law_good tx i (s : Dbs) r s' : d_Exec d tx i s = (Ret (Some r), s') → good r
}.
Class Drivers := drivers_lawful n c o : registered !! n = Some c → lawful (create c o).
End Laws.

(** The requests of the local database fail with errors of the queue, which stop the
    execution of the block. *)
Class QueueErrors {ENV : ExecEnv} := queue_errors q r e b :
  local_reply q r = Some (e, b) → IsAPIEnvError grpc_status e = true.

Section Spec.
Context {ENV : ExecEnv} {DL : Drivers} {QE : QueueErrors} (height blocktime : Z).
#[local] Existing Instance state_kv.
Abbreviation state e := (x_dbs e).1.
Abbreviation V := (view backend).

Definition holds (P : Driver → Prop) (e : executor) : Prop := ∀ k d, execCache e !! k = Some d → P d.
Abbreviation cached := (holds lawful).

(** Programs that leave the databases alone and load registered drivers only, and programs
    that do not return an error. *)
Definition quiet {A} (m : XM A) : Prop := ∀ (P : Driver → Prop) e,
  (∀ n c o, registered !! n = Some c → P (create c o)) → holds P e → holds P (m e).2 ∧ x_dbs (m e).2 = x_dbs e.
Lemma quiet_on {A} (m : XM A) e : quiet m → cached e → cached (m e).2 ∧ x_dbs (m e).2 = x_dbs e.
Proof using DL. intros H. apply H. apply drivers_lawful. Qed.
Definition sure {A} (m : XM A) : Prop := ∀ e x, (m e).1 ≠ Err x.

Lemma quiet_bind {A B} (m : XM A) (f : A → XM B) : quiet m → (∀ a, quiet (f a)) → quiet (m ≫= f).
Proof using Type.
  intros Hm Hf P e HP Hc. destruct (Hm P e HP Hc) as [H1 H2]. unfold mbind, M_bind. destruct (m e) as [[a|x|] e']; simpl in *; [|done|done].
  destruct (Hf a P e' HP H1) as [H3 H4]. split; [done|congruence].
Qed.
Lemma sure_bind {A B} (m : XM A) (f : A → XM B) : sure m → (∀ a, sure (f a)) → sure (m ≫= f).
Proof using Type.
  intros Hm Hf e x. unfold mbind, M_bind. specialize (Hm e). destruct (m e) as [[a|y|] e']; simpl in *; [apply Hf|naive_solver|done].
Qed.
Lemma quiet_pure {A} (o : outcome A) : quiet (pure o).
Proof using Type. by intros P e HP H. Qed.
Lemma quiet_or_panic {A} (o : option A) : quiet (or_panic o).
Proof using Type. destruct o; by intros P e HP H. Qed.
Lemma sure_or_panic {A} (o : option A) : sure (or_panic o).
Proof using Type. by destruct o. Qed.
Lemma quiet_guard c x : quiet (guard_err c x).
Proof using Type. destruct c; by intros P e HP H. Qed.
Lemma sure_fork name : sure (pure (fork height name)).
Proof using Type. intros e x. simpl. unfold fork, is_fork, IsFork, GetFork. repeat case_match; simpl; done. Qed.

Lemma LoadDriverAllow_registered (P : Driver → Prop) execer tx i d :
  (∀ n c o, registered !! n = Some c → P (create c o)) → LoadDriverAllow height execer tx i = Ret d → P d.
Proof using Type.
  intros HP. unfold LoadDriverAllow. assert (∀ n c o, LoadDriver height n = Ret c → P (create c o)) as H.
  { intros n c o. unfold LoadDriver. destruct (registered !! _) as [c'|] eqn:E; [|done]. destruct (_ || _); [|done].
    intros [= <-]. by eapply HP. }
  destruct (LoadDriver height execer) as [c|x|] eqn:E1; [destruct (Allow _ _ _); [intros [= <-]; by eapply H|]|..];
    destruct (LoadDriver height "none") as [c'|x'|] eqn:E2; intros [= <-]; by eapply H.
Qed.
Lemma quiet_loadDriver tx i : quiet (loadDriver height tx i).
Proof using Type.
  intros P e HP Hc. unfold loadDriver. destruct (execCache e !! Execer tx) as [d|] eqn:E; [done|].
  destruct (LoadDriverAllow _ _ _ _) as [d|x|] eqn:El; [|done|done]. split; [|done].
  intros k d'. simpl. intros [[<- <-]|[_ H]]%lookup_insert_Some; [by eapply LoadDriverAllow_registered|by eapply Hc].
Qed.
Lemma sure_loadDriver tx i : sure (loadDriver height tx i).
Proof using Type.
  intros e x. unfold loadDriver. destruct (execCache e !! Execer tx) as [d|]; [done|].
  unfold LoadDriverAllow. destruct (LoadDriver height (Execer tx)) as [c|y|]; [destruct (Allow _ _ _); [done|]|..];
    destruct (LoadDriver height "none"); done.
Qed.
Lemma loadDriver_holds (P : Driver → Prop) tx i e d e' :
  (∀ n c o, registered !! n = Some c → P (create c o)) → holds P e → loadDriver height tx i e = (Ret d, e') → P d.
Proof using Type.
  intros HP Hc. unfold loadDriver. destruct (execCache e !! Execer tx) as [d'|] eqn:E; [intros [= <- <-]; by eapply Hc|].
  destruct (LoadDriverAllow _ _ _ _) as [d'|x|] eqn:El; [|done|done]. intros [= <- <-]. by eapply LoadDriverAllow_registered.
Qed.
Lemma loadDriver_lawful tx i e d e' : cached e → loadDriver height tx i e = (Ret d, e') → lawful d.
Proof using DL. apply loadDriver_holds, drivers_lawful. Qed.

Ltac quiet_step :=
  match goal with
  | |- quiet (_ ≫= _) => apply quiet_bind; [|intros ?]
  | |- sure (_ ≫= _) => apply sure_bind; [|intros ?]
  | |- quiet (guard_err _ _) => apply quiet_guard
  | |- quiet (loadDriver _ _ _) => apply quiet_loadDriver
  | |- sure (loadDriver _ _ _) => apply sure_loadDriver
  | |- quiet (or_panic _) => apply quiet_or_panic
  | |- sure (or_panic _) => apply sure_or_panic
  | |- sure (pure (fork _ _)) => apply sure_fork
  | |- quiet (if ?b then _ else _) => destruct b
  | |- sure (if ?b then _ else _) => destruct b
  | |- quiet (match ?o with _ => _ end) => destruct o
  | |- sure (match ?o with _ => _ end) => destruct o
  | |- quiet _ => by intros ? ? ? ?
  | |- sure _ => by intros ? ?
  end.

Lemma quiet_getRealExecName tx i : quiet (getRealExecName height tx i).
Proof using Type. unfold getRealExecName. repeat quiet_step. Qed.
Lemma sure_getRealExecName tx i : sure (getRealExecName height tx i).
Proof using Type. unfold getRealExecName. repeat quiet_step. Qed.
Lemma quiet_isAllowExec k tx i : quiet (isAllowExec height k tx i).
Proof using Type. unfold isAllowExec, isAllowKeyWrite. apply quiet_bind; [apply quiet_getRealExecName|intros ?]. repeat quiet_step. Qed.
Lemma sure_isAllowExec k tx i : sure (isAllowExec height k tx i).
Proof using Type. unfold isAllowExec, isAllowKeyWrite. apply sure_bind; [apply sure_getRealExecName|intros ?]. repeat quiet_step. Qed.
Lemma quiet_checkKeyAllow tx i ks : quiet (checkKeyAllow height tx i ks).
Proof using Type. induction ks as [|k ks IH]; simpl; repeat (apply quiet_isAllowExec || apply IH || quiet_step). Qed.
Lemma sure_checkKeyAllow tx i ks : sure (checkKeyAllow height tx i ks).
Proof using Type. induction ks as [|k ks IH]; simpl; repeat (apply sure_isAllowExec || apply IH || quiet_step). Qed.
Lemma quiet_checkTx tx i : quiet (checkTx height blocktime tx i).
Proof using Type. unfold checkTx. repeat (apply quiet_getRealExecName || quiet_step). Qed.
Lemma quiet_checkTxGroup txs : quiet (checkTxGroup height blocktime txs).
Proof using Type. unfold checkTxGroup. repeat quiet_step. Qed.

(** ** Programs that only read the state *)

Definition calm (s s' : StateDB) : Prop :=
  intx s' = intx s ∧ StateDB.height s' = StateDB.height s ∧ keys s' = keys s ∧
  (∀ k, base_view backend s' k = base_view backend s k) ∧ (∀ k, V s' k = V s k).
Lemma calm_refl s : calm s s.
Proof using Type. done. Qed.
Lemma calm_trans s1 s2 s3 : calm s1 s2 → calm s2 s3 → calm s1 s3.
Proof using Type.
  intros (A1 & A2 & A3 & A4 & A5) (B1 & B2 & B3 & B4 & B5).
  split_and!; [congruence|congruence|congruence|intros k; by rewrite B4|intros k; by rewrite B5].
Qed.

Definition reading {A} (m : XM A) : Prop := ∀ e, cached e → cached (m e).2 ∧ calm (state e) (state (m e).2).

Lemma quiet_reading {A} (m : XM A) : quiet m → reading m.
Proof using DL. intros H e Hc. destruct (quiet_on m e H Hc) as [H1 ->]. split; [done|apply calm_refl]. Qed.
Lemma reading_bind_on {A B} (m : XM A) (f : A → XM B) e :
  cached e → reading m → (∀ a e', m e = (Ret a, e') → reading (f a)) →
  cached ((m ≫= f) e).2 ∧ calm (state e) (state ((m ≫= f) e).2).
Proof using Type.
  intros Hc Hm Hf. destruct (Hm e Hc) as [H1 H2]. unfold mbind, M_bind. destruct (m e) as [[a|x|] e'] eqn:E; simpl in *; [|done|done].
  destruct (Hf a e' eq_refl e' H1) as [H3 H4]. split; [done|by eapply calm_trans].
Qed.
Lemma reading_bind {A B} (m : XM A) (f : A → XM B) : reading m → (∀ a, reading (f a)) → reading (m ≫= f).
Proof using Type. intros Hm Hf e Hc. apply reading_bind_on; [done|done|]. intros a e' _. apply Hf. Qed.
Lemma reading_attempt {A} (m : XM A) : reading m → reading (attempt m).
Proof using Type. intros Hm e Hc. specialize (Hm e Hc). unfold attempt. by destruct (m e) as [[a|x|] e']. Qed.
Lemma reading_dbs {A} (m : M Dbs A) : (∀ s, ∃ l, (m s).2.1 = do_accesses backend (reads l) s.1) → reading (on_dbs m).
Proof using Type.
  intros H e Hc. unfold on_dbs. destruct (H (x_dbs e)) as [l Hl]. destruct (m (x_dbs e)) as [r d]. simpl in *.
  split; [done|]. rewrite Hl. apply (reads_keep backend xe_answers).
Qed.
Lemma reading_local {A} (m : M Dbs A) : (∀ s, (m s).2.1 = s.1) → reading (on_dbs m).
Proof using Type. intros H. apply reading_dbs. intros s. exists []. by rewrite H. Qed.

Lemma reading_load addr : reading (on_state (LoadAccount coinsAccount addr)).
Proof using Type.
  apply reading_dbs. intros [s l]. unfold LoadAccount, load_at. change (@kv_Get _ state_kv) with (Get backend).
  generalize ((accountReadKey coinsAccount addr).1). intros k. exists [k]. simpl.
  destruct (Get backend k s) as [[v|x|] s']; [by destruct (Decode v)|done|done].
Qed.
Lemma set_local_state kvs s : (set_local kvs s).2.1 = s.1.
Proof using Type.
  revert s. induction kvs as [|kv kvs IH]; intros s; simpl; [done|]. unfold mbind, M_bind, must.
  destruct (local_Set kv.1 kv.2 s.2) as [[a|x|] l]; [by rewrite IH|done|done].
Qed.
Lemma reading_execLocal tx r i : reading (execLocal height tx r i).
Proof using DL.
  intros e Hc. unfold execLocal. apply reading_bind_on; [done|apply quiet_reading, quiet_loadDriver|].
  intros d e' E. apply reading_dbs. intros s. by apply (law_ExecLocal d (loadDriver_lawful _ _ _ _ _ Hc E)).
Qed.
Lemma reading_execLocalTx tx r i : reading (execLocalTx height tx r i).
Proof using DL.
  unfold execLocalTx. apply reading_bind; [apply reading_attempt, reading_execLocal|].
  intros [kv|x]; [|destruct (bool_decide _); by intros e Hc].
  apply reading_bind; [by intros e Hc|]. intros ms. destruct kv as [kvs|].
  - apply reading_bind; [apply quiet_reading, quiet_guard|intros ?]. apply reading_bind; [unfold checkPrefix; destruct (forallb _ _); by intros e Hc|intros ?].
    apply reading_bind; [apply reading_local, set_local_state|intros ?]. by intros e Hc.
  - apply reading_bind; [apply quiet_reading, quiet_guard|intros ?]. by intros e Hc.
Qed.
Lemma reading_sameTime tx r i : reading (execLocalSameTime height tx r i).
Proof using DL.
  unfold execLocalSameTime. apply reading_bind; [apply quiet_reading; unfold isExecLocalSameTime; apply quiet_bind; [apply quiet_loadDriver|]; by intros ? P e HP Hc|].
  intros [|]; [|by intros e Hc]. apply reading_bind; [apply reading_execLocalTx|]. by intros ? e Hc.
Qed.

(** ** Execution inside a transaction *)

(** [ks] were written. *)
Definition worked (ks : list bytes) (s s' : StateDB) : Prop :=
  intx s' = true ∧ StateDB.height s' = StateDB.height s ∧ keys s' = (keys s ++ ks)%list ∧
  (∀ k, base_view backend s' k = base_view backend s k) ∧ (∀ k, (k ∉ ks) → V s' k = V s k).

Lemma calm_worked s s' : intx s = true → calm s s' → worked [] s s'.
Proof using Type. intros Hi (A1 & A2 & A3 & A4 & A5). split_and!; [congruence|done|by rewrite app_nil_r|done|by intros k _]. Qed.
Lemma worked_trans ks1 ks2 s1 s2 s3 : worked ks1 s1 s2 → worked ks2 s2 s3 → worked (ks1 ++ ks2) s1 s3.
Proof using Type.
  intros (A1 & A2 & A3 & A4 & A5) (B1 & B2 & B3 & B4 & B5).
  split_and!; [done|congruence|rewrite B3, A3; by rewrite app_assoc|intros k; by rewrite B4|].
  intros k [H1 H2]%not_elem_of_app. by rewrite B5, A5.
Qed.
Lemma accesses_worked l s : intx s = true → worked (set_keys l) s (do_accesses backend l s).
Proof using Type.
  intros Hi. destruct (do_accesses_tx backend s l xe_answers Hi) as (H1 & H2 & H3 & H4 & H5 & H6).
  split_and!; [done|done|done|done|]. intros k. by apply accesses_other; [apply xe_answers|].
Qed.

Definition working {A} (m : XM A) : Prop :=
  ∀ e, cached e → intx (state e) = true → cached (m e).2 ∧ ∃ ks, worked ks (state e) (state (m e).2).
Lemma reading_working {A} (m : XM A) : reading m → working m.
Proof using Type. intros H e Hc Hi. destruct (H e Hc) as [H1 H2]. split; [done|]. exists []. by apply calm_worked. Qed.
Lemma working_bind_on {A B} (m : XM A) (f : A → XM B) e :
  cached e → intx (state e) = true → working m → (∀ a e', m e = (Ret a, e') → working (f a)) →
  cached ((m ≫= f) e).2 ∧ ∃ ks, worked ks (state e) (state ((m ≫= f) e).2).
Proof using Type.
  intros Hc Hi Hm Hf. destruct (Hm e Hc Hi) as (H1 & ks & H2). unfold mbind, M_bind.
  destruct (m e) as [[a|x|] e'] eqn:E; simpl in *; [|by eauto|by eauto].
  destruct (Hf a e' eq_refl e' H1 (proj1 H2)) as (H3 & ks' & H4). split; [done|]. exists (ks ++ ks')%list. by eapply worked_trans.
Qed.
Lemma working_bind {A B} (m : XM A) (f : A → XM B) : working m → (∀ a, working (f a)) → working (m ≫= f).
Proof using Type. intros Hm Hf e Hc Hi. apply working_bind_on; [done|done|done|]. intros a e' _. apply Hf. Qed.

Lemma working_Exec tx i : working (Exec height tx i).
Proof using DL.
  intros e Hc Hi. unfold Exec. apply working_bind_on; [done|done|apply reading_working, quiet_reading, quiet_loadDriver|].
  intros d e1 E. pose proof (loadDriver_lawful _ _ _ _ _ Hc E) as Hd.
  assert (working (_ ← on_dbs (d_CheckTx d tx i); on_dbs (d_Exec d tx i))) as Hrun.
  { apply working_bind; [apply reading_working, reading_dbs; intros s; by apply law_CheckTx|]. intros _ e2 Hc2 Hi2.
    unfold on_dbs. destruct (law_Exec d Hd tx i (x_dbs e2)) as [l Hl]. destruct (d_Exec d tx i (x_dbs e2)) as [r s]. simpl in *.
    split; [done|]. exists (set_keys l). rewrite Hl. by apply accesses_worked. }
  apply working_bind; [apply reading_working, quiet_reading, quiet_pure|intros _].
  apply working_bind; [apply reading_working, quiet_reading, quiet_pure|intros b]. destruct b; [|done].
  apply working_bind; [by apply reading_working; intros e2 H2|intros _].
  intros e2 Hc2 Hi2. destruct (Hrun e2 Hc2 Hi2) as (H1 & H2). unfold finally.
  destruct ((_ ← on_dbs (d_CheckTx d tx i); on_dbs (d_Exec d tx i)) e2) as [r e3]. done.
Qed.

Lemma Exec_good tx i e r e' : cached e → Exec height tx i e = (Ret (Some r), e') → good r.
Proof using DL.
  intros Hc H. unfold Exec in H. apply bind_inv in H as (d & e1 & E & H). pose proof (loadDriver_lawful _ _ _ _ _ Hc E) as Hd.
  assert (∀ e2 e3, (_ ← on_dbs (d_CheckTx d tx i); on_dbs (d_Exec d tx i)) e2 = (Ret (Some r), e3) → good r) as Hrun.
  { intros e2 e3 Hrun. apply bind_inv in Hrun as (u & e4 & _ & Hrun). unfold on_dbs in Hrun.
    destruct (d_Exec d tx i (x_dbs e4)) as [r' s] eqn:Ed. injection Hrun as -> _. by eapply law_good. }
  apply bind_inv in H as (u & e2 & _ & H). apply bind_inv in H as (b & e3 & _ & H). destruct b; [|by eapply Hrun].
  apply bind_inv in H as (u' & e4 & _ & H). unfold finally in H.
  destruct ((_ ← on_dbs (d_CheckTx d tx i); on_dbs (d_Exec d tx i)) e4) as [r' e5] eqn:E5. injection H as -> _. by eapply Hrun.
Qed.

(** Saving pairs in the state database. *)
Lemma save_state kvs s :
  ∃ s', SaveKVSet kvs s = (Ret tt, s') ∧ (∀ k, V s' k = kvs_apply kvs (V s) k) ∧
    intx s' = intx s ∧ StateDB.height s' = StateDB.height s ∧
    (intx s = true → ∀ k, base_view backend s' k = base_view backend s k).
Proof using Type.
  revert s. induction kvs as [|[k v] kvs IH]; intros s; simpl.
  { by exists s. }
  unfold mbind, M_bind, must. change (@kv_Set _ state_kv k v) with (Set_ k (Some v)).
  destruct (Set_view backend s k v) as (s1 & E1 & H1).
  assert (intx s1 = intx s ∧ StateDB.height s1 = StateDB.height s ∧
    (intx s = true → ∀ k, base_view backend s1 k = base_view backend s k)) as (I1 & I2 & I3).
  { revert E1. unfold Set_. destruct (intx s) eqn:Ei; intros [= <-]; simpl; split_and!; try done.
    intros _ k'. unfold base_view. simpl. by rewrite (backend_view_same backend (mkStateDB _ _ _ _ _ _ _) s). }
  rewrite E1. destruct (IH s1) as (s2 & -> & J1 & J2 & J3 & J4). exists s2. split_and!; [done| |congruence|congruence|].
  - intros k'. rewrite J1. unfold kvs_apply at 2. simpl. by apply kvs_apply_ext.
  - intros Hi k'. rewrite J4, I3; [done|done|congruence].
Qed.

(** [s] is a state of the transaction that was opened on [s0]. *)
Definition inside (s0 s : StateDB) : Prop :=
  intx s = true ∧ StateDB.height s = StateDB.height s0 ∧ ∀ k, base_view backend s k = base_view backend s0 k.
Lemma worked_inside s0 ks s s' : inside s0 s → worked ks s s' → inside s0 s'.
Proof using Type. intros (A1 & A2 & A3) (B1 & B2 & B3 & B4 & B5). split_and!; [done|congruence|intros k; by rewrite B4]. Qed.

(** What one transaction leaves: its receipt repeats the fee and, when it succeeded, says
    everything that was written, whatever [v0] the fee was written over. *)
Definition one_done (feelog : Receipt) (s s' : StateDB) (f : Receipt) (err : option error) : Prop :=
  match err with
  | Some _ => KVs f = KVs feelog ∧ Ty f = Ty feelog
  | None =>
      (∃ kvs, KVs f = KVs feelog ++ kvs)%list ∧ (good feelog → good f) ∧
      ∀ v0, (∀ k, (k ∉ (KVs feelog).*1) → V s k = v0 k) → ∀ k, V s' k = kvs_apply (KVs f) v0 k
  end.

Lemma startTx_state e : ∃ e1, startTx e = (Ret tt, e1) ∧ execCache e1 = execCache e ∧ state e1 = StartTx (state e).
Proof using Type. eexists. split; [reflexivity|]. done. Qed.

Lemma checkKV_incl ms ks : checkKV ms ks = true → ∀ k, k ∈ ms → k ∈ ks.
Proof using Type. unfold checkKV. rewrite forallb_forall. intros H k Hk. by apply list_elem_of_In, H, bool_decide_eq_true_1 in Hk. Qed.

Lemma one_spec s0 feelog tx i e r e' :
  fork height "ForkStateDBSet" = Ret true → cached e → inside s0 (state e) →
  execTxOne height feelog tx i e = (r, e') →
  cached e' ∧ inside s0 (state e') ∧ (∀ x, r ≠ Err x) ∧ ∀ f err, r = Ret (f, err) → one_done feelog (state e) (state e') f err.
Proof using DL.
  intros HS Hc Hin H. unfold execTxOne in H. destruct (startTx_state e) as (e1 & E1 & C1 & S1).
  unfold mbind at 1, M_bind at 1 in H. rewrite E1 in H. cbv beta iota zeta in H.
  assert (cached e1) as Hc1 by (intros k d; rewrite C1; apply Hc).
  assert (inside s0 (state e1)) as Hin1.
  { rewrite S1. destruct Hin as (A1 & A2 & A3). split_and!; [done|done|]. intros k. rewrite <-A3. unfold base_view. simpl.
    by rewrite (backend_view_same backend (StartTx (state e)) (state e)). }
  assert (∀ k, V (state e1) k = V (state e) k) as HV1.
  { intros k. rewrite S1. unfold view. simpl. by rewrite (backend_view_same backend (StartTx (state e)) (state e)). }
  unfold mbind at 1, M_bind at 1, attempt at 1 in H.
  destruct (working_Exec tx i e1 Hc1 (proj1 Hin1)) as (Hc2 & ks & W). pose proof (Exec_good tx i e1) as Hgood.
  destruct (Exec height tx i e1) as [[receipt|x|] e2]; simpl in Hc2, W.
  2: { injection H as <- <-. split_and!; [done|by eapply worked_inside|done|]. intros f err [= <- <-]. done. }
  2: { injection H as <- <-. split_and!; [done|by eapply worked_inside|done|done]. }
  pose proof (worked_inside _ _ _ _ Hin1 W) as Hin2.
  unfold mbind at 1, M_bind at 1 in H. cbv beta iota zeta in H.
  destruct (checkKV _ _) eqn:EK; cbn [negb] in H.
  2: { injection H as <- <-. split_and!; [done|done|done|]. intros f err [= <- <-]. done. }
  unfold mbind at 1, M_bind at 1 in H. destruct (quiet_on _ e2 (quiet_checkKeyAllow tx i (kvs_of receipt).*1) Hc2) as [Hc3 D3].
  pose proof (sure_checkKeyAllow tx i (kvs_of receipt).*1 e2) as Hs3.
  destruct (checkKeyAllow height tx i (kvs_of receipt).*1 e2) as [[ok|x|] e3]; simpl in Hc3, D3, Hs3; [|naive_solver|].
  2: { injection H as <- <-. rewrite D3. split_and!; done. }
  destruct ok; cbn [negb] in H.
  2: { injection H as <- <-. rewrite D3. split_and!; [done|done|done|]. intros f err [= <- <-]. done. }
  unfold mbind at 1, M_bind at 1, attempt at 1 in H.
  destruct (reading_sameTime tx feelog i e3 Hc3) as [Hc4 K4]. rewrite D3 in K4.
  destruct (execLocalSameTime height tx feelog i e3) as [[u|x|] e4]; simpl in Hc4, K4.
  all: pose proof (worked_inside _ _ _ _ Hin2 (calm_worked _ _ (proj1 Hin2) K4)) as Hin4.
  2: { injection H as <- <-. split_and!; [done|done|done|]. intros f err [= <- <-]. done. }
  2: { injection H as <- <-. split_and!; done. }
  unfold mbind at 1, M_bind at 1, pure in H. rewrite HS in H. cbv beta iota zeta in H.
  set (f := match receipt with Some r0 => _ | None => _ end) in H.
  assert (KVs f = KVs feelog ++ kvs_of receipt)%list as Ef by (unfold f; destruct receipt; simpl; by rewrite ?app_nil_r).
  unfold mbind, M_bind, on_state, on_dbs in H.
  destruct (save_state (KVs f) (state e4)) as (s5 & E5 & V5 & I5 & H5 & B5). rewrite E5 in H. injection H as <- <-.
  split; [done|]. simpl. split; [|split; [done|]].
  { destruct Hin4 as (A1 & A2 & A3). split_and!; [congruence|congruence|]. intros k. by rewrite B5. }
  intros f' err [= <- <-]. split; [by eexists|]. split; [unfold f; destruct receipt as [rc|]; [intros _; by eapply (Hgood rc)|done]|]. intros v0 Hv0 k. rewrite V5. apply kvs_apply_agree. rewrite Ef, fmap_app.
  intros [N1 N2]%not_elem_of_app. destruct W as (_ & _ & W3 & _ & W5), K4 as (_ & _ & _ & _ & K5). rewrite K5, W5.
  - by rewrite HV1, Hv0.
  - intros Hk. apply N2. apply (checkKV_incl _ _ EK). unfold GetSetKeys. rewrite W3, S1. by simpl.
Qed.

(** ** Fees *)

(** Between transactions. *)
Definition clean (e : executor) : Prop := cached e ∧ intx (state e) = false ∧ StateDB.height (state e) = height.
Lemma calm_clean e e' : clean e → cached e' → calm (state e) (state e') → clean e'.
Proof using Type. intros (A1 & A2 & A3) Hc (B1 & B2 & _). split_and!; [done|congruence|congruence]. Qed.

(** The coins account of an address in a state. *)
Definition account_at (v : bytes → option bytes) (addr : string) : option Account :=
  match v (accountReadKey coinsAccount addr).1 with None => Some (mkAccount 0 0 0 addr) | Some x => Decode x end.
(** A fee is due on the main chain when a minimal one is configured and the driver is not
    free; the sender's account then loses it and does not go below zero. Otherwise
    nothing is charged. *)
Definition fee_due (d : Driver) : bool := negb (isPara xe_title) && (0 <? MinFee) && negb (IsFree d).
Definition fee_receipt (tx : Transaction) (i : Z) (e : executor) (f : Receipt) : Prop :=
  ∃ d e1, loadDriver height tx i e = (Ret d, e1) ∧
    if fee_due d then
      ∃ a, account_at (V (state e)) (tx_From tx) = Some a ∧ 0 <= Balance a -₆₄ Fee tx ∧ Ty f = ExecPack ∧
           KVs f = GetKVSet coinsAccount (set_Balance a (Balance a -₆₄ Fee tx))
    else f = pack.

Lemma load_account addr s : 
  match (LoadAccount coinsAccount addr s).1 with Ret a => account_at (V s) addr = Some a | Err _ => False | Panic => True end.
Proof using Type.
  unfold LoadAccount, load_at, account_at. change (@kv_Get _ state_kv) with (Get backend).
  destruct (Get_view backend s (accountReadKey coinsAccount addr).1 xe_answers) as (r & s' & -> & Hr & _).
  destruct r as [v|x|]; [rewrite Hr; by destruct (Decode v)|by rewrite Hr|done].
Qed.

Lemma fee_spec tx i e r e' :
  clean e → execFee height tx i e = (r, e') →
  clean e' ∧ match r with
             | Ret f => fee_receipt tx i e f ∧ ∀ k, V (state e') k = kvs_apply (KVs f) (V (state e)) k
             | _ => ∀ k, V (state e') k = V (state e) k
             end.
Proof using DL.
  intros Hcl H. destruct (Hcl) as (Hc & Hi & Hh). unfold execFee in H. unfold mbind at 1, M_bind at 1 in H.
  destruct (quiet_on _ e (quiet_loadDriver tx i) Hc) as [Hc1 D1].
  destruct (loadDriver height tx i e) as [[ex|x|] e1] eqn:El; simpl in Hc1, D1.
  2,3: injection H as <- <-; rewrite D1; (split; [split_and!; [done|by rewrite D1|by rewrite D1]|done]).
  pose proof (loadDriver_lawful _ _ _ _ _ Hc El) as Hd.
  assert (clean e1) as Hcl1 by (split_and!; [done|by rewrite D1|by rewrite D1]).
  unfold mbind at 1, M_bind at 1 in H. destruct (ExecPubkey (Execer tx)) as [key|]; simpl in H.
  2: { injection H as <- <-. by rewrite D1. }
  unfold mbind at 1, M_bind at 1 in H.
  assert (reading (if String.eqb key (tx_pubkey tx) then on_dbs (d_CheckTx ex tx i) else mret tt)) as HR2.
  { destruct (String.eqb _ _); [apply reading_dbs; intros s; by apply law_CheckTx|by intros e2 H2]. }
  destruct (HR2 e1 Hc1) as [Hc2 K2].
  destruct ((if String.eqb key (tx_pubkey tx) then on_dbs (d_CheckTx ex tx i) else mret tt) e1) as [[u|x|] e2]; simpl in Hc2, K2.
  2,3: injection H as <- <-; (split; [by eapply calm_clean|]); intros k; rewrite <-D1; apply K2.
  pose proof (calm_clean _ _ Hcl1 Hc2 K2) as Hcl2.
  assert (∀ k, V (state e2) k = V (state e) k) as V2 by (intros k; rewrite <-D1; apply K2).
  change (negb (isPara xe_title) && (0 <? MinFee) && negb (IsFree ex)) with (fee_due ex) in H.
  destruct (fee_due ex) eqn:ED.
  2: { injection H as <- <-. split; [done|]. split; [exists ex, e1; by rewrite ED|]. intros k. apply V2. }
  unfold processFee in H. unfold mbind at 1, M_bind at 1 in H.
  destruct (reading_load (tx_From tx) e2 Hc2) as [Hc3 K3]. pose proof (load_account (tx_From tx) (state e2)) as HL.
  unfold on_state, on_dbs in H, Hc3, K3. destruct (LoadAccount coinsAccount (tx_From tx) (x_dbs e2).1) as [ra s3].
  simpl in HL, Hc3, K3. cbn [fst snd x_dbs execCache] in H. assert (∀ k, V s3 k = V (state e) k) as V3 by (intros k; rewrite <-V2; apply K3).
  pose proof (calm_clean _ (mkX (s3, (x_dbs e2).2) (execCache e2)) Hcl2 Hc3 K3) as Hcl3.
  destruct ra as [a|x|]; [|done|injection H as <- <-; done].
  destruct (Z.leb_spec 0 (Balance a -₆₄ Fee tx)) as [Hb|Hb]; [|injection H as <- <-; done].
  unfold mbind, M_bind in H. cbn [x_dbs fst snd execCache] in H.
  destruct (save_state (GetKVSet coinsAccount (set_Balance a (Balance a -₆₄ Fee tx))) s3) as (s4 & E4 & W4 & I4 & H4 & _).
  rewrite E4 in H. injection H as <- <-. destruct Hcl3 as (C1 & C2 & C3).
  split; [split_and!; [done|simpl in *; congruence|simpl in *; congruence]|]. split.
  - exists ex, e1. split; [done|]. rewrite ED. exists a. split_and!; [|done|done|done]. rewrite <-HL. unfold account_at. by rewrite V2.
  - intros k. etrans; [apply W4|]. by apply kvs_apply_ext.
Qed.

(** ** Transactions of the databases *)

Context (HR : fork height "ForkExecRollback" = Ret true).

Lemma local_Rollback_sure l x : (local_Rollback l).1 ≠ Err x.
Proof using Type. unfold local_Rollback. destruct (l_hasbegin l); [|done]. by destruct (remote_call _ _) as [[]?]. Qed.

Lemma remote_call_error q l e l' : remote_call q l = (Some e, l') → IsAPIEnvError grpc_status e = true.
Proof using QE.
  unfold remote_call. destruct (local_reply q (l_remote l)) as [[e' b]|] eqn:E; [|done]. intros [= <- _]. by eapply queue_errors.
Qed.
Lemma local_Commit_errors l x : (local_Commit l).1 = Err x → IsAPIEnvError grpc_status x = true.
Proof using QE.
  unfold local_Commit. destruct (save _) as [[u|y|] l1] eqn:E; simpl; [| |done].
  - destruct (l_hasbegin l1); [|done]. destruct (remote_call RCommit l1) as [[y|] l2] eqn:E2; [|done].
    intros [= <-]. by eapply remote_call_error.
  - intros [= <-]. revert E. unfold save. destruct (l_kvs _); [done|].
    destruct (if _ : bool then _ else _) as [[u|z|] l2] eqn:E1; [| |done].
    + destruct (remote_call _ _) as [[z|] l3] eqn:E2; [|done]. intros [= <- _]. by eapply remote_call_error.
    + intros _. revert E1. unfold remote_begin. destruct (l_hasbegin _); [done|]. by destruct (remote_call _ _) as [[]?].
Qed.

Lemma begin_spec e : clean e →
  ∃ e', begin_ height e = (Ret tt, e') ∧ cached e' ∧ inside (state e) (state e') ∧ ∀ k, V (state e') k = V (state e) k.
Proof using HR.
  intros (Hc & Hi & Hh). unfold begin_, mbind, M_bind, pure. rewrite HR. eexists. split; [reflexivity|]. split; [done|]. simpl.
  assert (isFork backend (StateDB.height (state e)) "ForkExecRollback" = true) as Hf by (simpl; by rewrite Hh, HR).
  split.
  - split_and!; [done|done|]. intros k. unfold base_view. simpl. by rewrite (backend_view_same backend (Begin backend (state e)) (state e)).
  - intros k. rewrite Begin_view by done. unfold view. by rewrite Hi.
Qed.
Lemma rollback_spec s0 e : cached e → StateDB.height s0 = height → inside s0 (state e) →
  ∃ r e', rollback height e = (r, e') ∧ (∀ x, r ≠ Err x) ∧ clean e' ∧ ∀ k, V (state e') k = base_view backend s0 k.
Proof using HR.
  intros Hc Hh (A1 & A2 & A3). unfold rollback, mbind, M_bind, pure. rewrite HR.
  unfold map_state, on_state, on_local_db, on_dbs. simpl. pose proof (local_Rollback_sure (x_dbs e).2) as Hs.
  destruct (local_Rollback (x_dbs e).2) as [r l]. do 2 eexists. split; [reflexivity|]. split; [exact Hs|].
  split; [split_and!; [done|done|simpl; congruence]|]. intros k. rewrite <-A3. apply Rollback_view.
Qed.
(** The state is committed before the local database is asked. *)
Lemma commit_spec s0 e : cached e → StateDB.height s0 = height → inside s0 (state e) →
  ∃ r e', commit height e = (r, e') ∧ (∀ x, r = Err x → IsAPIEnvError grpc_status x = true) ∧
    clean e' ∧ ∀ k, V (state e') k = V (state e) k.
Proof using HR QE.
  intros Hc Hh (A1 & A2 & A3). unfold commit, mbind, M_bind, pure. rewrite HR.
  unfold map_state, on_state, on_local_db, on_dbs. simpl. pose proof (local_Commit_errors (x_dbs e).2) as Hs.
  destruct (local_Commit (x_dbs e).2) as [r l]. do 2 eexists. split; [reflexivity|]. split; [exact Hs|].
  assert (isFork backend (StateDB.height (state e)) "ForkExecRollback" = true) as Hf by (simpl; by rewrite A2, Hh, HR).
  split; [|intros k; by apply Commit_view]. simpl in Hf. split_and!; [done|..]; simpl; unfold Commit; simpl; rewrite Hf; simpl; congruence.
Qed.
Lemma clean_base e k : clean e → base_view backend (state e) k = V (state e) k.
Proof using Type. intros (_ & Hi & _). unfold view. by rewrite Hi. Qed.

(** ** One transaction *)

Context (HS : fork height "ForkStateDBSet" = Ret true).

(** A receipt says what changed; an error that is no failure of an interface changed nothing. *)
Definition told (e e' : executor) (r : outcome (list KeyValue)) : Prop :=
  match r with
  | Ret kvs => ∀ k, V (state e') k = kvs_apply kvs (V (state e)) k
  | Err x => IsAPIEnvError grpc_status x = false → ∀ k, V (state e') k = V (state e) k
  | Panic => True
  end.

Lemma fee_pack tx i e f : fee_receipt tx i e f → Ty f = ExecPack.
Proof using Type. intros (d & e1 & _ & H). destruct (fee_due d); [|by subst]. by destruct H as (a & _ & _ & E & _). Qed.

Lemma tx_spec tx i e r e' :
  height ≠ 0 → clean e → execTx height blocktime tx i e = (r, e') → r ≠ Panic →
  (∃ x, r = Err x ∧ IsAPIEnvError grpc_status x = true) ∨
  clean e' ∧ told e e' (rc ← r; Ret (KVs rc)) ∧ ∀ rc, r = Ret rc → good rc.
Proof using DL QE HR HS.
  intros Hh Hcl H Hr. unfold execTx in H. destruct (Z.eqb_spec height 0); [done|].
  unfold mbind at 1, M_bind at 1 in H. destruct (Hcl) as (Hc & Hi & Hht).
  destruct (quiet_on _ e (quiet_checkTx tx i) Hc) as [Hc1 D1]. destruct (checkTx height blocktime tx i e) as [[u|x|] e1]; simpl in Hc1, D1.
  2: { injection H as <- <-. right. split; [split_and!; [done|by rewrite D1|by rewrite D1]|]. simpl. split; [|done]. intros _ k. by rewrite D1. }
  2: { injection H as <- <-. done. }
  assert (clean e1) as Hcl1 by (split_and!; [done|by rewrite D1|by rewrite D1]).
  unfold mbind at 1, M_bind at 1 in H. destruct (execFee height tx i e1) as [rf e2] eqn:EF.
  destruct (fee_spec tx i e1 rf e2 Hcl1 EF) as [Hcl2 F]. destruct rf as [feelog|x|].
  2: { injection H as <- <-. right. split; [done|]. simpl. split; [|done]. intros _ k. by rewrite F, D1. }
  2: { injection H as <- <-. done. }
  destruct F as [Hfee F]. destruct (begin_spec e2 Hcl2) as (e3 & E3 & Hc3 & Hin3 & V3).
  unfold mbind at 1, M_bind at 1 in H. rewrite E3 in H. unfold mbind at 1, M_bind at 1 in H.
  destruct (execTxOne height feelog tx i e3) as [r4 e4] eqn:E4.
  destruct (one_spec (state e2) feelog tx i e3 r4 e4 HS Hc3 Hin3 E4) as (Hc4 & Hin4 & Hne & Hdone).
  destruct r4 as [[f err]|x|]; [|by destruct (Hne x)|injection H as <- <-; done].
  specialize (Hdone f err eq_refl). destruct err as [x|].
  - destruct (rollback_spec (state e2) e4 Hc4 (proj2 (proj2 Hcl2)) Hin4) as (r5 & e5 & E5 & Hs5 & Hcl5 & V5).
    unfold mbind, M_bind in H. rewrite E5 in H. destruct r5 as [u5|y|]; [|by destruct (Hs5 y)|injection H as <- <-; done].
    destruct (IsAPIEnvError grpc_status x) eqn:EA; injection H as <- <-; [left; by exists x|]. right.
    split; [done|]. destruct Hdone as [Ek Et]. split; [simpl; intros k; rewrite Ek, V5, clean_base, F by done; by rewrite D1|].
    intros rc [= <-]. unfold good. by rewrite Et, (fee_pack _ _ _ _ Hfee).
  - destruct (commit_spec (state e2) e4 Hc4 (proj2 (proj2 Hcl2)) Hin4) as (r5 & e5 & E5 & Hs5 & Hcl5 & V5).
    unfold mbind, M_bind in H. rewrite E5 in H. destruct r5 as [u5|y|]; injection H as <- <-; [right|left; by eauto|done].
    split; [done|]. split.
    + simpl. intros k. rewrite V5. apply (proj2 (proj2 Hdone)). intros k' Hk'. rewrite V3, F, kvs_apply_notin by done. by rewrite D1.
    + intros rc [= <-]. apply (proj1 (proj2 Hdone)). unfold good. by rewrite (fee_pack _ _ _ _ Hfee).
Qed.

(** ** Groups *)

Abbreviation writes rs := (concat (KVs <$> rs)).
Definition reset (r : Receipt) : Prop := KVs r = [] ∧ Ty r = ExecPack.
Lemma packs_reset {A} (l : list A) : Forall reset (const pack <$> l).
Proof using Type. induction l; simpl; constructor; done. Qed.
Lemma reset_writes rs : Forall reset rs → writes rs = [].
Proof using Type. induction 1 as [|r rs [E _] _ IH]; simpl; [done|]. by rewrite E. Qed.

Lemma reset_good rs : Forall reset rs → Forall good rs.
Proof using Type. apply Forall_impl. intros r [_ E]. unfold good. by rewrite E. Qed.

(** Every transaction succeeds, one after the other. *)
Inductive each_ok : executor → list Transaction → Z → list Receipt → executor → Prop :=
  | each_nil e i : each_ok e [] i [] e
  | each_cons e tx txs i r rs e1 e2 :
      execTxOne height pack tx i e = (Ret (r, None), e1) → each_ok e1 txs (i + 1) rs e2 → each_ok e (tx :: txs) i (r :: rs) e2.

Lemma rest_spec s0 txs i rs0 e r e' :
  cached e → inside s0 (state e) → execRest height txs i rs0 e = (r, e') →
  cached e' ∧ inside s0 (state e') ∧ (∀ x, r ≠ Err x) ∧
  ∀ rs err, r = Ret (rs, err) → length rs = (length rs0 + length txs)%nat ∧
    match err with
    | Some _ => Forall reset rs
    | None => ∃ new, rs = (rs0 ++ new)%list ∧ each_ok e txs i new e' ∧ Forall good new ∧ ∀ k, V (state e') k = kvs_apply (writes new) (V (state e)) k
    end.
Proof using DL HS.
  revert i rs0 e. induction txs as [|tx txs IH]; intros i rs0 e Hc Hin H; cbn [execRest] in H.
  { injection H as <- <-. split_and!; [done|done|done|]. intros rs err [= <- <-]. split; [simpl; lia|]. exists [].
    rewrite app_nil_r. split_and!; [done|constructor|constructor|done]. }
  unfold mbind at 1, M_bind at 1 in H. destruct (execTxOne height pack tx i e) as [r1 e1] eqn:E1.
  destruct (one_spec s0 pack tx i e r1 e1 HS Hc Hin E1) as (Hc1 & Hin1 & Hne & Hdone).
  destruct r1 as [[f err]|x|]; [|by destruct (Hne x)|injection H as <- <-; done]. specialize (Hdone f err eq_refl).
  destruct err as [x|].
  - injection H as <- <-. split_and!; [done|done|done|]. intros rs err [= <- <-]. split.
    + rewrite length_app, length_fmap. simpl. rewrite length_fmap. done.
    + apply Forall_app. split; [apply packs_reset|]. constructor; [exact Hdone|apply packs_reset].
  - destruct (IH _ _ _ Hc1 Hin1 H) as (H1 & H2 & H3 & H4). split_and!; [done|done|done|]. intros rs err Er.
    destruct (H4 rs err Er) as [Hl Hm]. split; [rewrite Hl, length_app; simpl; lia|]. destruct err as [x|]; [done|].
    destruct Hm as (new & -> & He & Hg & Hv). exists (f :: new).
    split_and!; [by rewrite <-app_assoc|by econstructor|constructor; [by apply (proj1 (proj2 Hdone))|done]|].
    intros k. rewrite Hv. simpl. rewrite kvs_apply_app. apply kvs_apply_ext. intros k'. by apply (proj2 (proj2 Hdone)).
Qed.

(** How a group ends: all of its transactions took effect and are committed, or one failed,
    everything is rolled back and the receipts are reset but for the fee. *)
Definition failed (feelog : Receipt) (tx0 : Transaction) (rest : list Transaction) (i : Z) (e e' : executor) : Prop :=
  (∃ f x, execTxOne height feelog tx0 i e = (Ret (f, Some x), e')) ∨
  (∃ f e1 rs x, execTxOne height feelog tx0 i e = (Ret (f, None), e1) ∧ execRest height rest (i + 1) [] e1 = (Ret (rs, Some x), e')).
Definition group_shape (txs : list Transaction) (i : Z) (e : executor) (rs : list Receipt) (e' : executor) : Prop :=
  ∃ tx0 rest feelog e1 e2 r0 rs', txs = tx0 :: rest ∧ rs = r0 :: rs' ∧ length rs' = length rest ∧
    execFee height tx0 i e = (Ret feelog, e1) ∧ fee_receipt tx0 i e feelog ∧ begin_ height e1 = (Ret tt, e2) ∧
    (∀ k, V (state e2) k = kvs_apply (KVs feelog) (V (state e)) k) ∧
    ((∃ e3 e4, execTxOne height feelog tx0 i e2 = (Ret (r0, None), e3) ∧ each_ok e3 rest (i + 1) rs' e4 ∧
        commit height e4 = (Ret tt, e')) ∨
     (KVs r0 = KVs feelog ∧ Ty r0 = ExecPack ∧ Forall reset rs' ∧
        ∃ e3, failed feelog tx0 rest i e2 e3 ∧ rollback height e3 = (Ret tt, e'))).

Context (HT : fork height "ForkResetTx0" = Ret true).

Lemma checkTxGroup_same txs e : (checkTxGroup height blocktime txs e).2 = e.
Proof using Type.
  unfold checkTxGroup, mbind, M_bind, pure. destruct (_ && _).
  - destruct (group_IsExpire _ _ _ _) as [[]| |]; done.
  - done.
Qed.

Lemma group_spec txs i e r e' :
  clean e → execTxGroup height blocktime txs i e = (r, e') → r ≠ Panic →
  (∃ x, r = Err x ∧ IsAPIEnvError grpc_status x = true) ∨ clean e' ∧ told e e' (rs ← r; Ret (writes rs)) ∧
    ∀ rs, r = Ret rs → group_shape txs i e rs e' ∧ Forall good rs.
Proof using DL QE HR HS HT.
  intros Hcl H Hr. unfold execTxGroup in H. unfold mbind at 1, M_bind at 1 in H.
  pose proof (checkTxGroup_same txs e) as D1. destruct (checkTxGroup height blocktime txs e) as [[u|x|] e0]; simpl in D1; subst e0.
  2: { injection H as <- <-. right. split; [done|]. simpl. split; [by intros _ k|done]. }
  2: { injection H as <- <-. done. }
  destruct txs as [|tx0 rest]; [injection H as <- <-; done|].
  unfold mbind at 1, M_bind at 1 in H. destruct (execFee height tx0 i e) as [rf e2] eqn:EF.
  destruct (fee_spec tx0 i e rf e2 Hcl EF) as [Hcl2 F]. destruct rf as [feelog|x|].
  2: { injection H as <- <-. right. split; [done|]. simpl. split; [intros _ k; apply F|done]. }
  2: { injection H as <- <-. done. }
  destruct F as [Hfee F]. destruct (begin_spec e2 Hcl2) as (e3 & E3 & Hc3 & Hin3 & V3).
  assert (∀ k, V (state e3) k = kvs_apply (KVs feelog) (V (state e)) k) as V3' by (intros k; by rewrite V3, F).
  unfold mbind at 1, M_bind at 1 in H. rewrite E3 in H. unfold mbind at 1, M_bind at 1 in H.
  destruct (execTxOne height feelog tx0 i e3) as [r4 e4] eqn:E4.
  destruct (one_spec (state e2) feelog tx0 i e3 r4 e4 HS Hc3 Hin3 E4) as (Hc4 & Hin4 & Hne & Hdone).
  destruct r4 as [[f err]|x|]; [|by destruct (Hne x)|injection H as <- <-; done].
  specialize (Hdone f err eq_refl). destruct err as [x|].
  - destruct (IsAPIEnvError grpc_status x) eqn:EA; [injection H as <- <-; left; by exists x|].
    unfold mbind, M_bind, pure in H. rewrite HR in H.
    destruct (rollback_spec (state e2) e4 Hc4 (proj2 (proj2 Hcl2)) Hin4) as (r5 & e5 & E5 & Hs5 & Hcl5 & V5). rewrite E5 in H.
    destruct r5 as [[]|y|]; [|by destruct (Hs5 y)|injection H as <- <-; done].
    injection H as <- <-. right. split; [done|]. destruct Hdone as [Ek Et]. split.
    + simpl. intros k. rewrite (reset_writes (const pack <$> rest)) by apply packs_reset. rewrite app_nil_r, Ek, V5, clean_base, F by done. done.
    + intros rs [= <-]. split.
      2: { constructor; [unfold good; by rewrite Et, (fee_pack _ _ _ _ Hfee)|apply reset_good, packs_reset]. }
      exists tx0, rest, feelog, e2, e3, f, (const pack <$> rest). split_and!; [done|done|by rewrite length_fmap|done|done|done|done|].
      right. split_and!; [done| |apply packs_reset|exists e4; split; [left; by exists f, x|done]]. rewrite Et. by eapply fee_pack.
  - unfold mbind at 1, M_bind at 1 in H. destruct (execRest height rest (i + 1) [] e4) as [r5 e5] eqn:E5.
    destruct (rest_spec (state e2) rest (i + 1) [] e4 r5 e5 Hc4 Hin4 E5) as (Hc5 & Hin5 & Hne5 & Hrest).
    destruct r5 as [[rs5 err]|x|]; [|by destruct (Hne5 x)|injection H as <- <-; done].
    destruct (Hrest rs5 err eq_refl) as [Hlen Hm]. simpl in Hlen. destruct err as [x|].
    + destruct (IsAPIEnvError grpc_status x) eqn:EA; [injection H as <- <-; left; by exists x|].
      unfold mbind, M_bind, pure in H. rewrite HT in H.
      destruct (rollback_spec (state e2) e5 Hc5 (proj2 (proj2 Hcl2)) Hin5) as (r6 & e6 & E6 & Hs6 & Hcl6 & V6). rewrite E6 in H.
      destruct r6 as [[]|y|]; [|by destruct (Hs6 y)|injection H as <- <-; done].
      injection H as <- <-. right. split; [done|]. split.
      * intros k. change (writes (copyReceipt feelog :: rs5)) with (KVs feelog ++ writes rs5)%list.
        rewrite (reset_writes rs5) by done. rewrite app_nil_r, V6, clean_base, F by done. done.
      * intros rs [= <-]. split.
        2: { constructor; [unfold good; simpl; by rewrite (fee_pack _ _ _ _ Hfee)|by apply reset_good]. }
        exists tx0, rest, feelog, e2, e3, (copyReceipt feelog), rs5. split_and!; [done|done|done|done|done|done|done|].
        right. split_and!; [done|exact (fee_pack _ _ _ _ Hfee)|done|]. exists e5. split; [|done]. right. by exists f, e4, rs5, x.
    + destruct (commit_spec (state e2) e5 Hc5 (proj2 (proj2 Hcl2)) Hin5) as (r6 & e6 & E6 & Hs6 & Hcl6 & V6).
      unfold mbind, M_bind in H. rewrite E6 in H. destruct r6 as [[]|y|]; injection H as <- <-; [right|left; by eauto|done].
      split; [done|]. destruct Hm as (new & -> & He & Hg & Hv). split.
      * simpl. intros k. rewrite V6, Hv, (kvs_apply_app (V := bytes)). apply kvs_apply_ext. intros k'. apply (proj2 (proj2 Hdone)).
        intros k2 Hk2. by rewrite V3', kvs_apply_notin.
      * intros rs [= <-]. split.
        2: { constructor; [apply (proj1 (proj2 Hdone)); unfold good; by rewrite (fee_pack _ _ _ _ Hfee)|done]. }
        exists tx0, rest, feelog, e2, e3, f, new. split_and!; [done|done|done|done|done|done|done|]. left. by exists e4, e5.
Qed.

(** ** Lists *)

(** What the receipts of a list say. *)
Definition listed_ok (e : executor) (n : nat) (rs : list Receipt) (e' : executor) : Prop :=
  clean e' ∧ length rs = n ∧ Forall (λ r, good r ∨ KVs r = []) rs ∧ ∀ k, V (state e') k = kvs_apply (writes rs) (V (state e)) k.

Lemma listed_app e e1 e' n m rs1 rs2 :
  (∀ k, V (state e1) k = kvs_apply (writes rs1) (V (state e)) k) → length rs1 = n → Forall (λ r, good r ∨ KVs r = []) rs1 →
  listed_ok e1 m rs2 e' → listed_ok e (n + m) (rs1 ++ rs2) e'.
Proof using Type.
  intros Hv Hn Hg (H1 & H2 & H3 & H4). split_and!; [done|rewrite length_app; lia|by apply Forall_app|].
  intros k. rewrite H4, fmap_app, concat_app, (kvs_apply_app (V := bytes)). by apply kvs_apply_ext.
Qed.
Lemma err_writes n x : writes (replicate n (NewErrReceipt x)) = [] ∧ Forall (λ r, good r ∨ KVs r = []) (replicate n (NewErrReceipt x)).
Proof using Type. induction n as [|n [IH1 IH2]]; simpl; [done|]. split; [done|]. constructor; [by right|done]. Qed.

Context (Hh : height ≠ 0).

Lemma list_spec txs skip i e rs e' :
  clean e → exec_list height blocktime txs skip i e = (Ret rs, e') → listed_ok e (length txs - skip) rs e'.
Proof using DL QE HR HS HT Hh.
  revert skip i e rs. induction txs as [|tx rest IH]; intros skip i e rs Hcl H; cbn [exec_list] in H.
  { injection H as <- <-. split_and!; done. }
  destruct skip as [|skip]; [|by apply IH in H].
  (* one transaction refused *)
  assert (∀ x m e1 rs2, clean e1 → (∀ k, V (state e1) k = V (state e) k) → listed_ok e1 m rs2 e' →
    listed_ok e (1 + m) (NewErrReceipt x :: rs2) e') as Hone.
  { intros x m e1 rs2 _ Hv Hl. by apply (listed_app e e1 e' 1 m [NewErrReceipt x]); [intros k; by rewrite Hv|done|constructor; [by right|done]|]. }
  assert (S (length rest) - 0 = 1 + (length rest - 0))%nat as El by lia.
  destruct (_ || _ || _) eqn:Eg.
  { apply bind_inv in H as (rs2 & e1 & H2 & H). injection H as <- <-. apply IH in H2; [|done]. simpl length. rewrite El. by eapply (Hone _ _ e). }
  apply orb_false_iff in Eg as [[Eg1 Eg2]%orb_false_iff Eg3].
  destruct (Z.eqb_spec (GroupCount tx) 0) as [E0|E0].
  - apply bind_inv in H as (res & e1 & H1 & H). unfold attempt in H1.
    destruct (execTx height blocktime tx i e) as [r1 e2] eqn:Et. destruct r1 as [rc|x|]; [| |done]; injection H1 as <- <-.
    + destruct (tx_spec tx i e _ _ Hh Hcl Et ltac:(done)) as [(x & ? & _)|(Hcl1 & Hv & Hg)]; [done|].
      apply bind_inv in H as (rs2 & e3 & H2 & H). injection H as <- <-. apply IH in H2; [|done]. simpl length. rewrite El.
      apply (listed_app e e2 e3 1 _ [rc]); [|done|constructor; [left; by apply Hg|done]|done]. simpl in *. intros k. by rewrite app_nil_r.
    + destruct (IsAPIEnvError grpc_status x) eqn:EA; [done|].
      destruct (tx_spec tx i e _ _ Hh Hcl Et ltac:(done)) as [(y & [= <-] & Hy)|(Hcl1 & Hv & _)]; [congruence|].
      apply bind_inv in H as (rs2 & e3 & H2 & H). injection H as <- <-. apply IH in H2; [|done]. simpl length. rewrite El.
      eapply (Hone _ _ e2); [done|by apply Hv|done].
  - apply bind_inv in H as (b & e1 & H1 & H). injection H1 as H1 <-. destruct b; cbn [negb] in H.
    2: { apply bind_inv in H as (rs2 & e1 & H2 & H). injection H as <- <-. apply IH in H2; [|done]. simpl length. rewrite El. by eapply (Hone _ _ e). }
    destruct (Nat.ltb_spec (length (tx :: rest)) (Z.to_nat (GroupCount tx))) as [Hlen|Hlen].
    { apply bind_inv in H as (rs2 & e1 & H2 & H). injection H as <- <-. apply IH in H2; [|done]. simpl length. rewrite El. by eapply (Hone _ _ e). }
    set (n := Z.to_nat (GroupCount tx)) in *. assert (2 <= n)%nat as Hn by (unfold n; apply Z.ltb_ge in Eg1; apply Z.eqb_neq in Eg2; lia).
    assert (length (tx :: rest) - 0 = n + (length rest - (n - 1)))%nat as Eln by (simpl in *; lia).
    apply bind_inv in H as (res & e1 & H2 & H). unfold attempt in H2.
    destruct (execTxGroup height blocktime (take n (tx :: rest)) i e) as [r1 e2] eqn:Et. destruct r1 as [rl|x|]; [| |done]; injection H2 as <- <-.
    + destruct (group_spec _ i e _ _ Hcl Et ltac:(done)) as [(x & ? & _)|(Hcl1 & Hv & Hg)]; [done|].
      destruct (Hg rl eq_refl) as [(tx0 & rest' & feelog & e3 & e4 & r0 & rs' & Htk & -> & Hlr & _) Hgood]. clear e3 e4.
      assert (length (r0 :: rs') = n) as Hrl.
      { simpl. rewrite Hlr. assert (length (take n (tx :: rest)) = S (length rest')) as El' by (by rewrite Htk).
        rewrite length_take in El'. simpl in *. lia. }
      apply bind_inv in H as (u & e3 & H3 & H). rewrite Hrl in H3.
      rewrite Nat.eqb_refl, andb_false_r in H3. injection H3 as _ <-.
      apply bind_inv in H as (rs2 & e4 & H4 & H). injection H as <- <-. apply IH in H4; [|done]. rewrite Eln.
      apply (listed_app e e2 e4 n _ (r0 :: rs')); [exact Hv|done| |done].
      revert Hgood. apply Forall_impl. intros r Hr. by left.
    + destruct (IsAPIEnvError grpc_status x) eqn:EA; [done|].
      destruct (group_spec _ i e _ _ Hcl Et ltac:(done)) as [(y & [= <-] & Hy)|(Hcl1 & Hv & _)]; [congruence|].
      apply bind_inv in H as (rs2 & e4 & H4 & H). injection H as <- <-. apply IH in H4; [|done]. rewrite Eln.
      destruct (err_writes n x) as [W1 W2].
      apply (listed_app e e2 e4 n _ (replicate n (NewErrReceipt x))); [|apply length_replicate|done|done].
      intros k. etrans; [by apply Hv|]. symmetry. exact (f_equal (λ l, kvs_apply l (V (state e)) k) W1).
Qed.

(** ** The service *)

Lemma good_writes rs : Forall (λ r, good r ∨ KVs r = []) rs → (filter good rs ≫= KVs) = writes rs.
Proof using Type.
  induction 1 as [|r rs Hr _ IH]; [done|]. rewrite filter_cons, fmap_cons. cbn [concat]. case_decide as Hg.
  - rewrite bind_cons. by f_equal.
  - destruct Hr as [?|E]; [done|]. by rewrite E.
Qed.

Lemma mvcc_state mvcc hash s :
  enableMVCC backend mvcc None (NewStateDB hash height) = (Ret tt, s) →
  intx s = false ∧ StateDB.height s = height ∧ ∀ k, V s k = backend_view backend s k.
Proof using Type.
  unfold enableMVCC. intros H.
  assert (s = NewStateDB hash height ∨ ∃ v, s = set_version (NewStateDB hash height) v) as Hs.
  { clear -H. repeat case_match; simplify_eq; eauto. }
  destruct Hs as [->|[v ->]]; (split_and!; [done|done|]); intros k; unfold view; simpl; by rewrite lookup_empty.
Qed.

Lemma service_spec mvcc txs hash local rs e' :
  procExecTxList height blocktime mvcc txs (newExecutor height hash local) = (Ret rs, e') →
  ∃ s0, enableMVCC backend mvcc None (NewStateDB hash height) = (Ret tt, s0) ∧ length rs = length txs ∧
    Forall (λ r, good r ∨ KVs r = []) rs ∧ ∀ k, V (state e') k = kvs_apply (writes rs) (backend_view backend s0) k.
Proof using DL QE HR HS HT Hh.
  intros H. assert ((_ ← on_state (enableMVCC backend mvcc None); exec_list height blocktime txs 0 0) (newExecutor height hash local) = (Ret rs, e')) as E.
  { revert H. unfold procExecTxList. by destruct ((_ ← on_state (enableMVCC backend mvcc None); exec_list height blocktime txs 0 0) _) as [[]?]. }
  apply bind_inv in E as (u & e1 & E1 & E). unfold on_state, on_dbs, newExecutor in E1. cbn [x_dbs fst snd execCache] in E1.
  destruct (enableMVCC backend mvcc None (NewStateDB hash height)) as [r0 s0] eqn:Em. injection E1 as -> <-. destruct u.
  destruct (mvcc_state mvcc hash s0 Em) as (I1 & I2 & I3).
  assert (clean (mkX (s0, local) ∅)) as Hcl by (split_and!; [intros k d; simpl; by rewrite lookup_empty|done|done]).
  destruct (list_spec txs 0 0 _ _ _ Hcl E) as (_ & H2 & H3 & H4). exists s0. split_and!; [done|by rewrite H2, Nat.sub_0_r|done|].
  intros k. rewrite H4. apply kvs_apply_ext. apply I3.
Qed.
End Spec.

(** The forks of the executor the theorems need.  [ForkStateDBSet] is not active on the
    chains configured in [types/testdata/bityuan.toml] and [chain33.toml], where its height
    is -1. *)
Record forks_on {ENV : ExecEnv} (height : Z) : Prop := {
  on_rollback : fork height "ForkExecRollback" = Ret true;
  on_stateset : fork height "ForkStateDBSet" = Ret true;
  on_resettx0 : fork height "ForkResetTx0" = Ret true
}.

(** C38: a block that executes writes to the store what its transactions saw.  With the
    executor as the service that a block is executed by, for any drivers that only read
    the state in [CheckTx] and [ExecLocal], read and write it in [Exec] and return no
    receipt of an error from it ([lawful]), at a height above 0 at which [ForkExecRollback], [ForkStateDBSet] and [ForkResetTx0] are active,
    and while the requests of the local database are answered or fail with errors of the
    queue: when a block is executed, the state the executor ends with, the one the last
    transaction of the block sees, is the state the block started from with exactly the
    pairs that go to the state store; and there is a receipt for each transaction. *)
Theorem exec_state {ENV : ExecEnv} {DL : Drivers} {QE : QueueErrors} sv mvcc local prev b errReturn checkblock d deltx :
  (∀ p b', ask_exec sv p b' =
     (procExecTxList (b_Height b') (BlockTime b') mvcc (Txs b') (newExecutor (b_Height b') p local)).1) →
  b_Height b ≠ 0 → forks_on (b_Height b) →
  ExecBlock sv prev b errReturn checkblock = Ret (d, deltx) →
  ∃ b' rs e' s0,
    procExecTxList (b_Height b) (BlockTime b) mvcc (Txs b') (newExecutor (b_Height b) prev local) = (Ret rs, e') ∧
    length rs = length (Txs b') ∧ (errReturn = true → b' = b) ∧
    enableMVCC backend mvcc None (NewStateDB prev (b_Height b)) = (Ret tt, s0) ∧
    ∀ k, view backend (x_dbs e').1 k = kvs_apply (bd_KV d) (backend_view backend s0) k.
Proof.
  intros Hsv Hh [F1 F2 F3] H. apply ExecBlock_spec in H.
  destruct (ex_receipts _ _ _ _ _ _ H) as (b' & rs & E & (_ & _ & Hb1 & Hb2 & _) & _ & _ & _ & _ & Hkv & Hex).
  rewrite Hsv, Hb1, Hb2 in E. exists b', rs.
  destruct (procExecTxList (b_Height b) (BlockTime b) mvcc (Txs b') (newExecutor (b_Height b) prev local)) as [r e'] eqn:Ep.
  simpl in E. subst r. destruct (service_spec _ _ F1 F2 F3 Hh _ _ _ _ _ _ Ep) as (s0 & Em & Hlen & Hg & Hv).
  exists e', s0. split_and!; [done|done|intros He; by apply Hex|done|].
  intros k. etrans; [apply Hv|]. rewrite Hkv. symmetry. etrans; [apply DelDupKey_spec|].
  exact (f_equal (λ l, kvs_apply l (backend_view backend s0) k) (good_writes rs Hg)).
Qed.
