(* ===== verification/GroupAtomic.v ===== *)
(** Transaction groups of the executor service: a group takes effect as a whole or only its
    fee is paid, in the state and in what can be read from the local database. *)

From Stdlib Require Import Ascii String.
From S2P Require Import Prelude Types Api KVStore Account Ledger StateDB LedgerTx LocalDB Fork Coins Tx Merkle Block Executor ExecutorTheorems.
Local Open Scope string_scope.
Local Open Scope Z_scope.

(** ** What drivers do to the local database *)

Section Laws.
Context {ENV : ExecEnv}.

(** A driver checks by reading the local database, and executes and makes local data by
    reading and writing single keys of it. *)
Record local_lawful (d : Driver) : Prop := {
  loc_CheckTx tx i (s : Dbs) : ∃ l, (d_CheckTx d tx i s).2.2 = local_accesses (reads l) s.2;
  loc_Exec tx i (s : Dbs) : ∃ l, (d_Exec d tx i s).2.2 = local_accesses l s.2;
  loc_ExecLocal tx r i (s : Dbs) : ∃ l, (d_ExecLocal d tx r i s).2.2 = local_accesses l s.2
}.
Class LocalDrivers := drivers_local n c o : registered !! n = Some c → local_lawful (create c o).
End Laws.

(** Reads change the cache, not what is read. *)
Lemma local_reads_keep ks l :
  let l' := local_accesses (reads ks) l in
  l_intx l' = l_intx l ∧ l_disableread l' = l_disableread l ∧ l_hasbegin l' = l_hasbegin l ∧
  ∀ k, cached_view l' k = cached_view l k.
Proof.
  revert l. induction ks as [|k ks IH]; intros l; [done|]. simpl.
  assert (l_intx (local_Get k l).2 = l_intx l ∧ l_disableread (local_Get k l).2 = l_disableread l ∧
    l_hasbegin (local_Get k l).2 = l_hasbegin l ∧ ∀ k', cached_view (local_Get k l).2 k' = cached_view l k') as (A1 & A2 & A3 & A4).
  { destruct (l_disableread l) eqn:Hd; [unfold local_Get; by rewrite Hd|].
    pose proof (proj2 (local_Get_view l k Hd)) as Hv. revert Hv. unfold local_Get. rewrite Hd.
    destruct (if l_intx l then l_txcache l ≫= lookup k else None); [done|].
    destruct (l_cache l !! k) as [[v|]|]; [done|done|].
    destruct (Remote.localGet k (l_remote l)) as [[v|] r]; done. }
  destruct (IH (local_Get k l).2) as (B1 & B2 & B3 & B4).
  split_and!; [congruence|congruence|congruence|intros k'; by rewrite B4, A4].
Qed.

Section Group.
Context {ENV : ExecEnv} {DL : Drivers} {LD : LocalDrivers} {QE : QueueErrors} (height blocktime : Z).
#[local] Existing Instance state_kv.
Abbreviation state e := (x_dbs e).1.
Abbreviation local e := (x_dbs e).2.
Abbreviation lcached := (holds local_lawful).

(** ** Inside a transaction of the local database *)

(** [l] is a state of the transaction opened on [l0]: nothing has been sent, what lies below
    the transaction reads as before; [b] says whether reading is disabled. *)
Definition lin (l0 : LocalDB) (b : bool) (l : LocalDB) : Prop :=
  l_intx l = true ∧ l_hasbegin l = false ∧ l_disableread l = b ∧ ∀ k, cached_view l k = cached_view l0 k.

Definition lkeeps (b : bool) {A} (m : XM A) : Prop := ∀ l0 e,
  lcached e → lin l0 b (local e) → lcached (m e).2 ∧ lin l0 b (local (m e).2).

Lemma lin_accesses l0 b l acs : lin l0 b l → lin l0 b (local_accesses acs l).
Proof using Type.
  intros (A1 & A2 & A3 & A4). destruct (local_accesses_base l acs A1) as (B1 & B2 & B3 & B4).
  split_and!; [done|congruence|congruence|intros k; by rewrite B4].
Qed.
Lemma lkeeps_quiet b {A} (m : XM A) : quiet m → lkeeps b m.
Proof using LD. intros H l0 e Hc Hl. destruct (H local_lawful e drivers_local Hc) as [H1 ->]. done. Qed.
Lemma lkeeps_bind_on b {A B} (m : XM A) (f : A → XM B) l0 e :
  lcached e → lin l0 b (local e) → lkeeps b m → (∀ a e', m e = (Ret a, e') → lkeeps b (f a)) →
  lcached ((m ≫= f) e).2 ∧ lin l0 b (local ((m ≫= f) e).2).
Proof using Type.
  intros Hc Hl Hm Hf. destruct (Hm l0 e Hc Hl) as [H1 H2]. unfold mbind, M_bind.
  destruct (m e) as [[a|x|] e'] eqn:E; simpl in *; [|done|done]. by apply (Hf a e').
Qed.
Lemma lkeeps_bind b {A B} (m : XM A) (f : A → XM B) : lkeeps b m → (∀ a, lkeeps b (f a)) → lkeeps b (m ≫= f).
Proof using Type. intros Hm Hf l0 e Hc Hl. apply lkeeps_bind_on; [done|done|done|]. intros a e' _. apply Hf. Qed.
Lemma lkeeps_attempt b {A} (m : XM A) : lkeeps b m → lkeeps b (attempt m).
Proof using Type. intros Hm l0 e Hc Hl. specialize (Hm l0 e Hc Hl). unfold attempt. by destruct (m e) as [[a|x|] e']. Qed.
Lemma lkeeps_dbs b {A} (m : M Dbs A) : (∀ s, ∃ l, (m s).2.2 = local_accesses l s.2) → lkeeps b (on_dbs m).
Proof using Type.
  intros H l0 e Hc Hl. unfold on_dbs. destruct (H (x_dbs e)) as [l El]. destruct (m (x_dbs e)) as [r d]. simpl in *.
  split; [done|]. rewrite El. by apply lin_accesses.
Qed.
Lemma lkeeps_state b {A} (m : M StateDB A) : lkeeps b (on_state m).
Proof using Type. apply lkeeps_dbs. intros s. exists []. by destruct (m s.1). Qed.
Lemma lkeeps_here b {A} (f : executor → outcome A) : lkeeps b (λ e, (f e, e)).
Proof using Type. by intros l0 e Hc Hl. Qed.

Lemma set_local_accesses kvs s : ∃ l, (set_local kvs s).2.2 = local_accesses l s.2.
Proof using Type.
  revert s. induction kvs as [|[k v] kvs IH]; intros s; simpl; [by exists []|]. unfold mbind, M_bind, must.
  destruct (local_Set k v s.2) as [r l] eqn:E. assert (l = local_accesses [ASet k v] s.2) as -> by (simpl; by rewrite E).
  destruct r as [a|x|]; [|by eexists..]. destruct (IH (s.1, local_accesses [ASet k v] s.2)) as [l' ->].
  exists (ASet k v :: l'). done.
Qed.

Lemma lkeeps_execLocal b tx r i : lkeeps b (execLocal height tx r i).
Proof using LD.
  intros l0 e Hc Hl. unfold execLocal. apply lkeeps_bind_on; [done|done|apply lkeeps_quiet, quiet_loadDriver|].
  intros d e' E. apply lkeeps_dbs. intros s. by apply (loc_ExecLocal d (loadDriver_holds _ _ _ _ _ _ _ drivers_local Hc E)).
Qed.
Lemma lkeeps_execLocalTx b tx r i : lkeeps b (execLocalTx height tx r i).
Proof using LD.
  unfold execLocalTx. apply lkeeps_bind; [apply lkeeps_attempt, lkeeps_execLocal|].
  intros [kv|x]; [|destruct (bool_decide _); by intros l0 e Hc].
  apply lkeeps_bind; [apply lkeeps_here|]. intros ms. destruct kv as [kvs|].
  - apply lkeeps_bind; [apply lkeeps_quiet, quiet_guard|intros ?].
    apply lkeeps_bind; [unfold checkPrefix; destruct (forallb _ _); by intros l0 e Hc|intros ?].
    apply lkeeps_bind; [apply lkeeps_dbs, set_local_accesses|intros ?]. by intros l0 e Hc.
  - apply lkeeps_bind; [apply lkeeps_quiet, quiet_guard|intros ?]. by intros l0 e Hc.
Qed.
Lemma lkeeps_sameTime b tx r i : lkeeps b (execLocalSameTime height tx r i).
Proof using LD.
  unfold execLocalSameTime, isExecLocalSameTime. apply lkeeps_bind.
  - apply lkeeps_bind; [apply lkeeps_quiet, quiet_loadDriver|]. by intros ? l0 e Hc.
  - intros [|]; [|by intros l0 e Hc]. apply lkeeps_bind; [apply lkeeps_execLocalTx|]. by intros ? l0 e Hc.
Qed.

(** Reading is enabled again when the driver is done. *)
Lemma lkeeps_disabled {A} (same : bool) (run : XM A) : (∀ b, lkeeps b run) →
  lkeeps false (_ ← map_local (λ l, let l := DisableWrite l in if same then l else DisableRead l);
    finally run (λ e, mkX ((x_dbs e).1, let l := EnableWrite (x_dbs e).2 in if same then l else EnableRead l) (execCache e))).
Proof using Type.
  intros Hrun l1 e2 Hc2 (A1 & A2 & A3 & A4). unfold mbind, M_bind, map_local, on_dbs, finally. cbn [fst snd].
  set (e3 := mkX _ _). destruct (Hrun (negb same) l1 e3) as [H1 (B1 & B2 & B3 & B4)]; [done| |].
  { unfold e3. simpl. destruct same; (split_and!; [exact A1|exact A2| |exact A4]); [exact A3|done]. }
  destruct (run e3) as [r e4]. cbn [fst snd x_dbs] in *. split; [done|]. simpl.
  destruct same; (split_and!; [exact B1|exact B2| |exact B4]); [exact B3|done].
Qed.
Lemma lkeeps_Exec tx i : lkeeps false (Exec height tx i).
Proof using LD.
  intros l0 e Hc Hl. unfold Exec. apply lkeeps_bind_on; [done|done|apply lkeeps_quiet, quiet_loadDriver|].
  intros d e1 E. pose proof (loadDriver_holds _ _ _ _ _ _ _ drivers_local Hc E) as Hd.
  assert (∀ b, lkeeps b (_ ← on_dbs (d_CheckTx d tx i); on_dbs (d_Exec d tx i))) as Hrun.
  { intros b. apply lkeeps_bind; [|intros _]; apply lkeeps_dbs; intros s; [|by apply loc_Exec].
    destruct (loc_CheckTx d Hd tx i s) as [l Hl']. by eexists. }
  apply lkeeps_bind; [apply lkeeps_quiet, quiet_pure|intros _].
  apply lkeeps_bind; [apply lkeeps_quiet, quiet_pure|intros fk]. destruct fk; [|apply Hrun].
  by apply lkeeps_disabled.
Qed.

Lemma lkeeps_one feelog tx i : lkeeps false (execTxOne height feelog tx i).
Proof using LD.
  unfold execTxOne. apply lkeeps_bind; [intros l0 e Hc Hl; split; [exact Hc|exact Hl]|intros _].
  apply lkeeps_bind; [apply lkeeps_attempt, lkeeps_Exec|]. intros [receipt|x]; [|by intros l0 e Hc].
  apply lkeeps_bind; [apply lkeeps_here|]. intros ms. destruct (negb _); [by intros l0 e Hc|].
  apply lkeeps_bind; [apply lkeeps_quiet, quiet_checkKeyAllow|]. intros ok. destruct (negb ok); [by intros l0 e Hc|].
  apply lkeeps_bind; [apply lkeeps_attempt, lkeeps_sameTime|]. intros [u|x]; [|by intros l0 e Hc].
  apply lkeeps_bind; [apply lkeeps_quiet, quiet_pure|]. intros fk.
  apply lkeeps_bind; [destruct fk; [apply lkeeps_state|by intros l0 e Hc]|]. by intros _ l0 e Hc.
Qed.
Lemma lkeeps_rest txs i rs : lkeeps false (execRest height txs i rs).
Proof using LD.
  revert i rs. induction txs as [|tx txs IH]; intros i rs; cbn [execRest]; [by intros l0 e Hc|].
  apply lkeeps_bind; [apply lkeeps_one|]. intros [r [x|]]; [by intros l0 e Hc|apply IH].
Qed.
Lemma lkeeps_each l0 e txs i rs e' :
  each_ok height e txs i rs e' → lcached e → lin l0 false (local e) → lcached e' ∧ lin l0 false (local e').
Proof using LD.
  induction 1 as [|e tx txs i r rs e1 e2 H1 _ IH]; [done|]. intros Hc Hl.
  destruct (lkeeps_one pack tx i l0 e Hc Hl) as [Hc1 Hl1]. rewrite H1 in Hc1, Hl1. by apply IH.
Qed.

(** ** Before and after *)

(** No transaction is open on the local database and it can be read. *)
Definition lclean (e : executor) : Prop := lcached e ∧ l_intx (local e) = false ∧ l_disableread (local e) = false.

Lemma fee_local tx i e r e' : lclean e → execFee height tx i e = (r, e') →
  lclean e' ∧ ∀ k, cached_view (local e') k = cached_view (local e) k.
Proof using LD.
  intros (Hc & Hi & Hd) H. unfold execFee in H. unfold mbind at 1, M_bind at 1 in H.
  destruct (quiet_loadDriver height tx i local_lawful e drivers_local Hc) as [Hc1 D1].
  destruct (loadDriver height tx i e) as [[ex|x|] e1] eqn:El; simpl in Hc1, D1.
  2,3: injection H as <- <-; unfold lclean; by rewrite D1.
  pose proof (loadDriver_holds _ _ _ _ _ _ _ drivers_local Hc El) as Hx.
  unfold mbind at 1, M_bind at 1 in H. destruct (ExecPubkey (Execer tx)) as [key|]; simpl in H.
  2: { injection H as <- <-. unfold lclean. by rewrite D1. }
  unfold mbind at 1, M_bind at 1 in H.
  assert (∃ ks, local ((if String.eqb key (tx_pubkey tx) then on_dbs (d_CheckTx ex tx i) else mret tt) e1).2 =
      local_accesses (reads ks) (local e1) ∧
    execCache ((if String.eqb key (tx_pubkey tx) then on_dbs (d_CheckTx ex tx i) else mret tt) e1).2 = execCache e1) as (ks & K2 & C2).
  { destruct (String.eqb _ _); [|by exists []]. destruct (loc_CheckTx ex Hx tx i (x_dbs e1)) as [ks Hk]. exists ks.
    unfold on_dbs. by destruct (d_CheckTx ex tx i (x_dbs e1)). }
  destruct (local_reads_keep ks (local e1)) as (B1 & B2 & _ & B4). rewrite <-K2, D1 in B1, B2, B4.
  destruct ((if String.eqb key (tx_pubkey tx) then on_dbs (d_CheckTx ex tx i) else mret tt) e1) as [[u|x|] e2]; simpl in K2, C2, B1, B2, B4.
  all: assert (lclean e2) as Hcl2 by (split_and!; [intros k d; rewrite C2; apply Hc1|congruence|congruence]).
  2,3: injection H as <- <-; done.
  assert (∀ {A} (m : M StateDB A) e3, execCache (on_state m e3).2 = execCache e3 ∧ local (on_state m e3).2 = local e3) as Hst.
  { intros A m e3. unfold on_state, on_dbs. by destruct (m (state e3)). }
  destruct (_ && _ && _); [|by injection H as <- <-].
  assert (execCache e' = execCache e2 ∧ local e' = local e2) as [C3 L3].
  { unfold processFee in H. apply (f_equal snd) in H. simpl in H. subst e'. clear -Hst. unfold mbind, M_bind.
    destruct (Hst _ (LoadAccount coinsAccount (tx_From tx)) e2) as [S1 S2].
    destruct (on_state (LoadAccount coinsAccount (tx_From tx)) e2) as [[a|x|] e3]; simpl in *; [|done..].
    destruct (0 <=? _); [|done].
    match goal with |- context [on_state ?m e3] => destruct (Hst _ m e3) as [T1 T2]; destruct (on_state m e3) as [[]?] end;
      simpl in *; split; congruence. }
  split; [|intros k; by rewrite L3]. destruct Hcl2 as (X1 & X2 & X3). split_and!; [intros k d; rewrite C3; apply X1|by rewrite L3..].
Qed.

Lemma begin_local e : fork height "ForkExecRollback" = Ret true → lclean e →
  ∃ e', begin_ height e = (Ret tt, e') ∧ lcached e' ∧ lin (local e) false (local e').
Proof using Type.
  intros HR (Hc & Hi & Hd). unfold begin_, mbind, M_bind, pure. rewrite HR. eexists. split; [reflexivity|]. done.
Qed.

(** What a group leaves: all of its transactions took effect, one after the other, and what
    they wrote to the local database is read back, or the first has paid the fee and nothing
    else can be read. *)
Definition group_done (txs : list Transaction) (i : Z) (e : executor) (rs : list Receipt) (e' : executor) : Prop :=
  ∃ tx0 rest feelog r0 rs', txs = tx0 :: rest ∧ rs = r0 :: rs' ∧ length rs' = length rest ∧
    fee_receipt height tx0 i e feelog ∧
    ((∃ e1 e2 e3, (∀ k, view backend (state e1) k = kvs_apply (KVs feelog) (view backend (state e)) k) ∧
        execTxOne height feelog tx0 i e1 = (Ret (r0, None), e2) ∧ each_ok height e2 rest (i + 1) rs' e3 ∧
        ∀ k v, l_txcache (local e3) ≫= lookup k = Some v → (local_Get k (local e')).1 = Ret v) ∨
     (KVs r0 = KVs feelog ∧ Ty r0 = ExecPack ∧ Forall reset rs' ∧
        ∀ k v, (local_Get k (local e')).1 = Ret v ↔ (local_Get k (local e)).1 = Ret v)).

Lemma shape_done txs i e rs e' : fork height "ForkExecRollback" = Ret true →
  lclean e → group_shape height txs i e rs e' → lclean e' ∧ group_done txs i e rs e'.
Proof using LD.
  intros HR Hcl (tx0 & rest & feelog & e1 & e2 & r0 & rs' & -> & -> & Hlen & EF & Hfee & EB & HV & H).
  destruct (fee_local _ _ _ _ _ Hcl EF) as [Hcl1 V1].
  destruct (begin_local e1 HR Hcl1) as (e2' & EB' & Hc2 & Hl2). rewrite EB in EB'. injection EB' as <-.
  assert (lin (local e) false (local e2)) as Hl by (destruct Hl2 as (? & ? & ? & H4); split_and!; [done..|intros k; by rewrite H4, V1]).
  clear Hl2. destruct H as [(e3 & e4 & E3 & E4 & EC)|(Hk & Ht & Hr & e3 & Hf & ER)].
  - destruct (lkeeps_one feelog tx0 i _ _ Hc2 Hl) as [Hc3 Hl3]. rewrite E3 in Hc3, Hl3. simpl in Hc3, Hl3.
    destruct (lkeeps_each _ _ _ _ _ _ E4 Hc3 Hl3) as [Hc4 (A1 & A2 & A3 & A4)].
    unfold commit, mbind, M_bind, pure in EC. rewrite HR in EC. unfold map_state, on_state, on_local_db, on_dbs in EC. simpl in EC.
    destruct (local_Commit (local e4)) as [[[]|x|] l5] eqn:EL; [|done..]. injection EC as <-.
    assert (l_intx l5 = false ∧ l_disableread l5 = false) as [I5 D5] by (apply local_Commit_keeps in EL as (? & ? & _); split; congruence).
    split; [by split_and!|]. exists tx0, rest, feelog, r0, rs'. split_and!; [done..|]. left. exists e2, e3, e4. split_and!; [done..|].
    intros k v Hv. simpl. by eapply local_Commit_reads.
  - assert (lcached e3 ∧ lin (local e) false (local e3)) as [Hc3 (A1 & A2 & A3 & A4)].
    { destruct Hf as [(f & x & E3)|(f & e4 & rs & x & E3 & E4)];
        destruct (lkeeps_one feelog tx0 i _ _ Hc2 Hl) as [Hc3 Hl3]; rewrite E3 in Hc3, Hl3; simpl in Hc3, Hl3; [done|].
      destruct (lkeeps_rest rest (i + 1) [] _ _ Hc3 Hl3) as [Hc4 Hl4]. by rewrite E4 in Hc4, Hl4. }
    destruct (local_Rollback_reads _ A2) as [EL Hv].
    unfold rollback, mbind, M_bind, pure in ER. rewrite HR in ER. unfold map_state, on_state, on_local_db, on_dbs in ER.
    simpl in ER. rewrite EL in ER. injection ER as <-. split; [by split_and!|].
    exists tx0, rest, feelog, r0, rs'. split_and!; [done..|]. right. split_and!; [done..|]. intros k v. destruct Hcl as (_ & I0 & D0).
    simpl. rewrite (proj1 (local_Get_view _ k D0) v), (proj1 (local_Get_view (local_resetTx (local e3)) k A3) v), Hv, A4.
    unfold local_view. by rewrite I0.
Qed.
End Group.

