(* ===== verification/Drivers.v ===== *)
(** The drivers of the repository as the executor sees them: the methods shared by all
    ([system/dapp/driver.go], [system/dapp/allow.go]), [none] and [coins], and that they
    work on the state through reads and writes only. *)

From Stdlib Require Import Ascii String.
From S2P Require Import Prelude Types Api KVStore Account Ledger StateDB LedgerTx LocalDB Fork Coins Tx Merkle Block Executor ExecutorTheorems.
Local Open Scope string_scope.
Local Open Scope Z_scope.

(** ** The base driver *)

Section Base.
Context {ENV : ExecEnv} (driverName : string).

Definition AllowIsSame (execer : bytes) : bool := String.eqb driverName (GetParaExec xe_title execer).

Definition AllowIsUserDot1 (execer : bytes) : bool :=
  let execer := GetParaExec xe_title execer in
  if String.prefix UserKeyX execer then AllowIsSame (str_drop (String.length UserKeyX) execer) else false.

(** The number of dots from [i] on and the position of the last. *)
Fixpoint dots (rest : string) (i count index : nat) : nat * nat :=
  match rest with
  | EmptyString => (count, index)
  | String c rest => if Ascii.eqb c "." then dots rest (S i) (S count) i else dots rest (S i) count index
  end.
Definition AllowIsUserDot2 (execer : bytes) : bool :=
  let execer := GetParaExec xe_title execer in
  let s := String.length UserKeyX in
  if String.prefix UserKeyX execer then
    let '(count, index) := dots (str_drop s execer) s 0 0 in
    (count =? 1)%nat && AllowIsSame (str_slice s index execer)
  else false.

Definition base_Allow (tx : Transaction) (index : Z) : bool := AllowIsSame (Execer tx).

Definition base_CheckTx (tx : Transaction) (index : Z) : M Dbs unit :=
  match dapp_ExecAddress (Execer tx) with
  | None => panic
  | Some a => guard_err (negb (String.eqb a (To tx))) ErrToAddrNotSameToExecAddr
  end.

(** A panic of an action is an error of the transaction. *)
Definition recover {A} (m : M Dbs A) : M Dbs A := λ s,
  match m s with (Panic, s') => (Err ErrActionNotSupport, s') | r => r end.

(** [Exec]: an executor type decodes the payload to an action; [None] is an executor
    without type. *)
Definition base_Exec {Action} (ety : option (Transaction → outcome Action)) (call : Action → Transaction → M Dbs Receipt)
    (tx : Transaction) (index : Z) : M Dbs (option Receipt) :=
  match ety with
  | None => mret None
  | Some decode => recover (action ← (λ s, (decode tx, s)); r ← call action tx; mret (Some r))
  end.
End Base.

(** ** [none] *)

Section None_.
Context {ENV : ExecEnv}.
Definition none_driver (names : option (string * string)) : Driver := {|
  GetDriverName := "none"; IsFree := false; ExecutorOrder := 0;
  Allow := base_Allow "none"; IsFriend _ _ _ := false;
  d_CheckTx := base_CheckTx; d_Exec := base_Exec None (λ (_ : unit) _, panic);
  d_ExecLocal _ _ _ := mret None; d_ExecDelLocal _ _ _ := mret None
|}.

Lemma same_state {A} (m : M Dbs A) : (∀ s, (m s).2.1 = s.1) → ∀ s : Dbs, ∃ l, (m s).2.1 = do_accesses backend (reads l) s.1.
Proof using Type. intros H s. exists []. by rewrite H. Qed.
Lemma base_CheckTx_state tx i s : (base_CheckTx tx i s).2.1 = s.1.
Proof using Type. unfold base_CheckTx. destruct (dapp_ExecAddress _); [|done]. by destruct (negb _). Qed.

Lemma none_lawful names : lawful (none_driver names).
Proof using Type.
  split; [intros tx i s; apply same_state; intros t; apply base_CheckTx_state|by exists []|by exists []|done].
Qed.
End None_.

(** ** [coins] *)

Section Coins.
Context {ENV : ExecEnv} (height : Z).
#[local] Existing Instance state_kv.
(** The executor type: payload, amount and action name of a transaction; the executors
    that mine; the local data of the driver. *)
Context (decode : Transaction → outcome CoinsAction) (amount : Transaction → outcome Z) (ActionName : Transaction → string)
  (MinerExecs : list string) (exec_local exec_del_local : Transaction → ReceiptData → Z → M Dbs (option LocalKV)).
Context (Hlocal : ∀ tx r i s, (exec_local tx r i s).2.1 = s.1).

Definition coins_view (tx : Transaction) : TxView := {| From := tx_From tx; RealToAddr := GetRealToAddr tx |}.

(** The address of a name that is too long cannot be computed. *)
Definition coins_exec (a : CoinsAction) (tx : Transaction) : M StateDB Receipt :=
  let run := coins_Exec (λ n, default "" (dapp_ExecAddress n)) driver_addresses (tc_forks xe_config) xe_title height coinsAccount a (coins_view tx) in
  match a with
  | AssetsTransferToExec n _ => match dapp_ExecAddress n with None => panic | Some _ => run end
  | _ => run
  end.

Definition coins_IsFriend (myexec writekey : bytes) (othertx : Transaction) : bool :=
  AllowIsSame "coins" myexec && String.eqb (ActionName othertx) "miner" &&
  existsb (λ exec, String.eqb (ExecName xe_title exec) (Execer othertx)) MinerExecs.

Definition on_fst {A} (m : M StateDB A) : M Dbs A := λ d, let '(r, s) := m d.1 in (r, (s, d.2)).

Definition coins_driver (names : option (string * string)) : Driver := {|
  GetDriverName := "coins"; IsFree := false; ExecutorOrder := 0;
  Allow := base_Allow "coins"; IsFriend := coins_IsFriend;
  d_CheckTx tx _ := λ s, (CheckTx (amount tx), s);
  d_Exec := base_Exec (Some decode) (λ a tx, on_fst (coins_exec a tx));
  d_ExecLocal := exec_local; d_ExecDelLocal := exec_del_local
|}.

(** *** The actions read and write *)

Definition traced (s0 s : StateDB) : Prop := ∃ l, s = do_accesses backend l s0.
Lemma traced_Get s0 k s : traced s0 s → traced s0 (kv_Get k s).2.
Proof using Type. intros [l ->]. exists (l ++ [AGet k])%list. unfold do_accesses. by rewrite foldl_app. Qed.
Lemma traced_Set s0 k v s : traced s0 s → traced s0 (kv_Set k v s).2.
Proof using Type. intros [l ->]. exists (l ++ [ASet k (Some v)])%list. unfold do_accesses. by rewrite foldl_app. Qed.

Ltac traced_tac s0 :=
  repeat first
    [ apply (pres_load (traced s0) (traced_Get s0)) | apply (pres_save (traced s0) (traced_Set s0)) | apply pres_guard | apply pres_ret | apply pres_throw
    | apply pres_bind; [|intros ?] | apply pres_must
    | match goal with |- pres _ (if ?c then _ else _) => destruct c end
    | match goal with |- pres _ (lift_outcome _) => by intros ? ? end
    | match goal with |- pres _ panic => by intros ? ? end
    | match goal with |- pres _ (match ?c with _ => _ end) => destruct c end
    | progress unfold Exec_Transfer, Exec_TransferToExec, Exec_Withdraw, Exec_Genesis, GenesisInit, GenesisInitExec, SaveAccount,
        TransferToExec, TransferWithdraw, LoadAccount, LoadExecAccount, save_exec, SaveExecAccount, CheckTransfer, Transfer, ExecDeposit, ExecWithdraw ].

Lemma coins_traced s0 a tx : pres (traced s0) (coins_exec a tx).
Proof using Type. unfold coins_exec. destruct a; cbn [coins_Exec]; traced_tac s0. Qed.

(** *** Their receipts *)

(** Every result has the type [ExecOk]. *)
Definition yields (m : M StateDB Receipt) : Prop := ∀ s r s', m s = (Ret r, s') → Ty r = ExecOk.
Lemma yields_bind {A} (m : M StateDB A) f : (∀ a, yields (f a)) → yields (m ≫= f).
Proof using Type. intros H s r s' (a & s1 & _ & E)%bind_inv. by eapply H. Qed.
Lemma yields_merge (m : M StateDB Receipt) {A} (m2 : M StateDB A) f : yields m → yields (r ← m; r2 ← m2; mret (mergeReceipt r (f r2))).
Proof using Type.
  intros H s r s' (a & s1 & E & H1)%bind_inv. apply bind_inv in H1 as (b & s2 & _ & H2). injection H2 as <- <-. simpl. by eapply H.
Qed.
Ltac yields_tac :=
  repeat first
    [ apply yields_merge | apply yields_bind; intros ? | match goal with |- yields (if ?c then _ else _) => destruct c end
    | match goal with |- yields (mret _) => by intros ? ? ? [= <- <-] end
    | match goal with |- yields (throw _) => by intros ? ? ? ? end
    | match goal with |- yields panic => by intros ? ? ? ? end
    | match goal with |- yields (match ?c with _ => _ end) => destruct c end
    | progress unfold Exec_Transfer, Exec_TransferToExec, Exec_Withdraw, Exec_Genesis, GenesisInit,
        TransferToExec, save_exec, Transfer, ExecDeposit, ExecWithdraw ].
Lemma yields_Transfer acc from to n : yields (Transfer acc from to n).
Proof using Type. yields_tac. Qed.
Lemma yields_Withdraw acc from to n : yields (TransferWithdraw acc from to n).
Proof using Type. unfold TransferWithdraw. apply yields_bind. intros _. apply (yields_merge _ _ id). yields_tac. Qed.
Lemma yields_GenesisExec acc addr n x : yields (GenesisInitExec acc addr n x).
Proof using Type. unfold GenesisInitExec. do 3 (apply yields_bind; intros ?). apply yields_bind. intros r2 s r s' [= <- <-]. done. Qed.
Lemma coins_yields a tx : yields (coins_exec a tx).
Proof using Type.
  unfold coins_exec. destruct a; cbn [coins_Exec].
  all: repeat first [apply yields_Withdraw | apply yields_GenesisExec | apply (yields_merge _ _ id), yields_Transfer | progress yields_tac].
Qed.

Lemma coins_lawful names : lawful (coins_driver names).
Proof using Hlocal.
  split; simpl.
  - intros tx i s. by exists [].
  - intros tx r i s. exists []. by rewrite Hlocal.
  - intros tx i s. unfold recover, mbind, M_bind. destruct (decode tx) as [a|x|]; [|by exists []|by exists []].
    unfold on_fst. pose proof (coins_traced s.1 a tx s.1 (ex_intro _ [] eq_refl)) as H.
    destruct (coins_exec a tx s.1) as [[r|x|] s']; simpl in *; exact H.
  - intros tx i s r s'. unfold recover, mbind, M_bind. destruct (decode tx) as [a|x|]; [|done|done].
    unfold on_fst. destruct (coins_exec a tx s.1) as [[r0|x|] s1] eqn:E; [|done|done]. intros [= <- <-].
    unfold good. by rewrite (coins_yields a tx s.1 r0 s1 E).
Qed.
End Coins.
