(* ===== verification/ExecutorDemo.v ===== *)
(** A chain with the drivers [none] and [coins], on which the theorems about the executor
    are applied. *)

From Stdlib Require Import Ascii String.
From S2P Require Import Prelude Types Api KVStore Account Ledger LedgerTheorems StateDB LedgerTx LocalDB Fork Coins Tx TxTheorems Merkle Block Executor ExecutorTheorems GroupAtomic Drivers.
Local Open Scope string_scope.
Local Open Scope Z_scope.

Module ExecutorDemo.
#[export] Instance codecs : LedgerCodecs := LedgerTheorems.Demo.codecs.

(** The state before the block: alice has ten coins. *)
Definition alice0 : Account := mkAccount 0 (10 * Coin) 0 "alice".
Definition state0 : gmap bytes bytes := {["mavl-coins-bty-alice" := Encode alice0]}.

Definition forks : Forks := {["mychain" := {["ForkExecRollback" := 0; "ForkStateDBSet" := 0; "ForkResetTx0" := 0; "ForkTxGroup" := 0;
  "ForkTxGroupPara" := 0; "ForkBlockCheck" := 0; "ForkExecKey" := 0; "ForkLocalDBAccess" := 0; "ForkTransferExec" := 0; "ForkWithdraw" := 0]}]}.
Definition cfg : TxConfig := {| tc_forks := forks; tc_title := "mychain"; tc_TxHeight := true |}.

(** A payment is its amount in digits of a code. *)
Definition amount (tx : Transaction) : outcome Z :=
  match decode (undigits (Payload tx)) with Some n => Ret n | None => Err (ErrOther "proto") end.
Definition decode_tx (tx : Transaction) : outcome CoinsAction := n ← amount tx; Ret (AssetsTransfer n).

(** The environment without drivers, and with them. *)
Definition base (reg : gmap string driverWithHeight) : ExecEnv.
Proof.
  refine {| xe_block := BlockDemo.env; xe_codecs := codecs; xe_config := cfg;
    xe_storeGet := Some (λ _ k, Ret (Some [state0 !! k])); xe_localGetV _ _ := Err ErrNotFound; xe_localGetVersion _ := Err ErrNotFound;
    xe_local := calm_api; registered := reg; driver_addresses := ∅;
    PubKeyToAddr p := p; ExecPubkey n := Some ("key of " ++ n); dapp_ExecAddress n := Some ("address of " ++ n);
    address_CheckAddress a := if String.eqb a "" then Err (ErrOther "ErrInvalidAddress") else Ret tt;
    GetRealToAddr := To; AllowUserExec := ["coins"; "none"];
    MinFee := 100000; MaxFee := 0; MinBalanceTransfer := 1000000; CoinSymbol := "bty";
    grpc_status _ := false; error_text _ := "error" |}.
  split; [done|]. by intros send h k [= <-].
Defined.
(** No driver looks at the drivers. *)
Definition coins_create : option (string * string) → Driver :=
  @coins_driver (base ∅) 8 decode_tx amount (λ _, "") [] (λ _ _ _, mret None) (λ _ _ _, mret None).
#[export] Instance env : ExecEnv := base
  {["coins" := {| create := coins_create; d_height := 0 |}; "none" := {| create := @none_driver (base ∅); d_height := 0 |}]}.

#[export] Instance drivers : Drivers.
Proof.
  intros n c o H. simpl in H. apply lookup_insert_Some in H as [[_ <-]|[_ H]].
  - destruct (@coins_lawful (base ∅) 8 decode_tx amount (λ _, "") [] (λ _ _ _, mret None) (λ _ _ _, mret None) ltac:(done) o) as [H1 H2 H3 H4].
    split; [exact H1|exact H2|exact H3|exact H4].
  - apply lookup_singleton_Some in H as [_ <-]. destruct (@none_lawful (base ∅) o) as [H1 H2 H3 H4].
    split; [exact H1|exact H2|exact H3|exact H4].
Qed.

#[export] Instance local_drivers : LocalDrivers.
Proof.
  intros n c o H. simpl in H. apply lookup_insert_Some in H as [[_ <-]|[_ H]].
  - split; simpl; intros.
    + by exists [].
    + exists []. unfold recover, mbind, M_bind, on_fst. destruct (decode_tx tx); [|done..]. by destruct (coins_exec _ _ _ _) as [[]?].
    + by exists [].
  - apply lookup_singleton_Some in H as [_ <-]. split; simpl; intros; exists []; [|done..].
    unfold base_CheckTx. destruct (dapp_ExecAddress _); [|done]. by destruct (negb _).
Qed.
#[export] Instance queue_errors : QueueErrors.
Proof. by intros q r e b H. Qed.

Definition pay (to : string) (n nonce : Z) : Transaction :=
  mkTx "coins" (digits (encode n)) (Some (mkSig 1 "alice" "alice")) 100000 0 nonce to 0 None None.
Definition in_group (txs : list Transaction) : list Transaction :=
  (λ t, set_Sig t (Some (mkSig 1 "alice" "alice"))) <$> match CreateTxGroup 100000 txs with Ret g => g | _ => [] end.
(** One payment; a group whose second payment is too much; a transaction no driver knows. *)
Definition good_group : list Transaction := in_group [pay "carol" Coin 2; pay "dave" Coin 3].
Definition bad_group : list Transaction := in_group [pay "erin" Coin 4; pay "frank" (20 * Coin) 5].
Definition txs : list Transaction := pay "bob" (3 * Coin) 1 :: (good_group ++ bad_group)%list.

Definition local : LocalDB := NewLocalDB (Remote.NewLocalDB ∅).
Definition services : Services := {|
  ask_dup _ _ := Ret []; ask_exec p b := (procExecTxList (b_Height b) (BlockTime b) false (Txs b) (newExecutor (b_Height b) p local)).1;
  ask_memset prev h kvs := Ret (BlockDemo.memset prev h kvs); ask_check _ := Ret tt; ask_commit _ := Ret tt;
  ask_local _ := Ret []; ask_del_local _ := Ret [] |}.
Definition block : Block := mkBlock 0 "" "" "" 8 100 520159231 "" 0 None txs.
Abbreviation result := (@ExecBlock (@xe_block env) services "root" block false true).
Definition detail : BlockDetail := match result with Ret (d, _) => d | _ => mkBD block [] [] "" end.
Definition deleted : list Transaction := match result with Ret (_, l) => l | _ => [] end.
Lemma result_eq : result = Ret (detail, deleted).
Proof.
  assert (match result with Ret _ => true | _ => false end = true) as H by (vm_compute; reflexivity).
  revert H. unfold detail, deleted. by destruct result as [[d l]|x|].
Qed.
Lemma all_on : forks_on 8.
Proof. split; vm_compute; reflexivity. Qed.

Definition start : executor := newExecutor 8 "root" local.
Lemma start_clean : clean 8 start.
Proof. split_and!; [intros k d H; simpl in H; by rewrite lookup_empty in H|done|done]. Qed.
Lemma start_lclean : lclean start.
Proof. split_and!; [intros k d H; simpl in H; by rewrite lookup_empty in H|done|done]. Qed.
Definition run_group (g : list Transaction) : list Receipt * executor :=
  match execTxGroup 8 100 g 0 start with (Ret rs, e) => (rs, e) | (_, e) => ([], e) end.
Lemma run_group_eq g :
  match (execTxGroup 8 100 g 0 start).1 with Ret _ => true | _ => false end = true →
  execTxGroup 8 100 g 0 start = (Ret (run_group g).1, (run_group g).2).
Proof. unfold run_group. by destruct (execTxGroup 8 100 g 0 start) as [[rs|x|] e]. Qed.
End ExecutorDemo.
#[local] Existing Instances ExecutorDemo.env ExecutorDemo.drivers ExecutorDemo.local_drivers ExecutorDemo.queue_errors.

(** The block above: what it writes for alice, and that the executor ended with the same. *)
Lemma exec_state_witness :
  ∃ e' s0, enableMVCC (@backend ExecutorDemo.env) false None (NewStateDB "root" 8) = (Ret tt, s0) ∧
    view (@backend ExecutorDemo.env) (x_dbs e').1 "mavl-coins-bty-alice" = Some (Encode (mkAccount 0 499500000 0 "alice")).
Proof.
  destruct (@exec_state ExecutorDemo.env ExecutorDemo.drivers ExecutorDemo.queue_errors ExecutorDemo.services false ExecutorDemo.local "root"
    ExecutorDemo.block false true ExecutorDemo.detail ExecutorDemo.deleted ltac:(intros p b; reflexivity) ltac:(done)
    ExecutorDemo.all_on ExecutorDemo.result_eq) as (b' & rs & e' & s0 & _ & _ & _ & Em & Hv).
  exists e', s0. split; [exact Em|]. rewrite (Hv "mavl-coins-bty-alice"). clear Hv. unfold enableMVCC in Em. injection Em as <-.
  vm_compute. reflexivity.
Defined.

