(* ===== verification/Plugins.v ===== *)
(** The local data of a block: the executor's plugins ([executor/plugin.go],
    [plugin_txindex.go], [plugin_addrindex.go], [plugin_fee.go], [plugin_stat.go],
    [plugin_kvmvcc.go]), the keys of the local database ([types/localkv.go]) and the
    handlers that make the data of a block that is connected or disconnected
    ([executor/executor.go]). *)

From Stdlib Require Import Ascii String.
From S2P Require Import Prelude DbIter ListHelper Mvcc Types Api KVStore Account StateDB LocalDB Fork Coins Tx Merkle Block Executor.
Local Open Scope string_scope.
Local Open Scope Z_scope.

(** ** Data *)

(** [types.TotalFee], [types.Asset], [types.TxResult], [types.ReplyTxInfo]. *)
Record TotalFee := mkTotalFee { tf_Fee : Z; tf_TxCount : Z }.
Record Asset := mkAsset { as_Exec : string; as_Symbol : string; as_Amount : Z }.
Record TxResult := mkTxResult {
  tr_Height : Z; tr_Index : Z; tr_Tx : Transaction; tr_Receiptdate : ReceiptData; tr_Blocktime : Z; tr_ActionName : string
}.
Record ReplyTxInfo := mkReplyTxInfo { ri_Hash : bytes; ri_Height : Z; ri_Index : Z; ri_Assets : list Asset }.

(** The configuration, what the executor types say about a transaction, and the encodings.
    The encoding of a number is empty for 0 only. *)
Class PluginEnv := {
  quickIndex : bool;
  dbversion : Z;
  ActionName : Transaction → string;
  GetAssets : Transaction → list Asset;
  codec_Int64 :: Codec Z;
  codec_KeyList :: Codec (list bytes);
  codec_TotalFee :: Codec TotalFee;
  TxResult_Encode : TxResult → bytes;
  ReplyTxInfo_Encode : ReplyTxInfo → bytes;
  Int64_empty : ∀ z : Z, Encode z = "" → z = 0
}.

(** ** Keys: [types/localkv.go] *)

Section Keys.
Context {PE : PluginEnv}.

Definition FlagKeyMVCC : bytes := "FLAG:keyMVCCFlag".
Definition TxHashPerfix : bytes := "TX:".
Definition TxShortHashPerfix : bytes := "STX:".
Definition TxAddrHash : bytes := "TxAddrHash:".
Definition TxAddrDirHash : bytes := "TxAddrDirHash:".
Definition AddrTxsCount : bytes := "AddrTxsCount:".

Definition CalcTxKey (hash : bytes) : bytes := if quickIndex then TxHashPerfix +:+ hash else hash.
(** Slicing a hash of less than eight bytes panics. *)
Definition CalcTxShortKey (hash : bytes) : option bytes :=
  if (String.length hash <? 8)%nat then None else Some (TxShortHashPerfix +:+ str_take 8 hash).
Definition CalcTxAddrHashKey (addr heightindex : string) : bytes := TxAddrHash +:+ addr +:+ ":" +:+ heightindex.
(** The flags are one digit. *)
Definition CalcTxAddrDirHashKey (addr : string) (flag : Z) (heightindex : string) : bytes :=
  TxAddrDirHash +:+ addr +:+ ":" +:+ decw 1 flag +:+ ":" +:+ heightindex.
Definition CalcAddrTxsCountKey (addr : string) : bytes := AddrTxsCount +:+ addr.
Definition StatisticFlag : bytes := "Statistics:Flag".
Definition TotalFeeKey (hash : bytes) : bytes := "TotalFeeKey:" +:+ hash.
Definition FlagKV (key : bytes) (value : Z) : bytes * option bytes := (key, Some (Encode value)).
End Keys.

(** ** Plugins *)

(** The flags of the plugins that have one ([pluginBase.flag]) outlive a block. *)
Record flags := mkFlags { flag_stat : Z; flag_mvcc : Z }.

Section Plugins.
Context {ENV : ExecEnv} {PE : PluginEnv}.
Context (height blocktime : Z).

Definition PS : Type := flags * executor.
Definition PM : Type → Type := M PS.
Definition on_local {A} (m : M LocalDB A) : PM A := λ s,
  let '(r, l) := m (x_dbs s.2).2 in (r, (s.1, mkX ((x_dbs s.2).1, l) (execCache s.2))).
Definition on_exec {A} (m : XM A) : PM A := λ s, let '(r, e) := m s.2 in (r, (s.1, e)).

(** [type plugin interface] *)
Record plugin := mkPlugin {
  CheckEnable : bool → PM (LocalKV * bool);
  pl_ExecLocal : BlockDetail → PM LocalKV;
  pl_ExecDelLocal : BlockDetail → PM LocalKV
}.

Definition loadFlag (key : bytes) : M LocalDB Z := λ l,
  match local_Get key l with
  | (Ret flagBytes, l') => (match Decode flagBytes with Some flag => Ret flag | None => Err (ErrOther "proto") end, l')
  | (Err e, l') => (if decide (e = ErrNotFound) then Ret 0 else Err e, l')
  | (Panic, l') => (Panic, l')
  end.

(** [checkFlag] on the flag that [get] reads and [put] writes. *)
Definition ErrDBFlag : error := ErrOther "ErrDBFlag".
Definition load_base (get : flags → Z) (put : Z → flags → flags) (flagKey : bytes) : PM unit := λ s,
  if get s.1 =? 0 then
    match on_local (loadFlag flagKey) s with
    | (Ret flag, s') => (Ret tt, (put flag s'.1, s'.2))
    | (Err e, s') => (Err e, s')
    | (Panic, s') => (Panic, s')
    end
  else (Ret tt, s).
Definition flag_answer (get : flags → Z) (put : Z → flags → flags) (flagKey : bytes) : PM (LocalKV * bool) := λ s,
  if negb (height =? 0) && (get s.1 =? 0) then (Err ErrDBFlag, s)
  else if height =? 0 then (Ret ([FlagKV flagKey 1], true), (put 1 s.1, s.2))
  else (Ret ([], true), s).
Definition checkFlag (get : flags → Z) (put : Z → flags → flags) (flagKey : bytes) (enable : bool) : PM (LocalKV * bool) :=
  if negb enable then mret ([], false)
  else
    _ ← load_base get put flagKey;
    flag_answer get put flagKey.

(** *** [txindex] *)

Definition getTx (tx : Transaction) (receipt : ReceiptData) (index : Z) : outcome LocalKV :=
  let txhash := Hash tx in
  let txresult := mkTxResult height (wrap32 index) tx receipt blocktime (ActionName tx) in
  let kv := (CalcTxKey txhash, Some (TxResult_Encode txresult)) in
  if quickIndex then
    match CalcTxShortKey txhash with Some k => Ret [kv; (k, Some "1")] | None => Panic end
  else Ret [kv].

(** [for i := 0; i < len(data.Block.Txs); i++]: a missing receipt is a panic. *)
Fixpoint each_tx {A} (body : Transaction → ReceiptData → Z → PM (list A)) (index : Z) (txs : list Transaction)
    (receipts : list ReceiptData) : PM (list A) :=
  match txs with
  | [] => mret []
  | tx :: txs =>
      match receipts with
      | [] => panic
      | r :: receipts => kv ← body tx r index; kvs ← each_tx body (index + 1) txs receipts; mret (kv ++ kvs)%list
      end
  end.
Definition over_txs {A} (body : Transaction → ReceiptData → Z → PM (list A)) (data : BlockDetail) : PM (list A) :=
  each_tx body 0 (Txs (bd_Block data)) (Receipts data).
Definition now {A} (o : outcome A) : PM A := λ s, (o, s).

Definition txindex : plugin := {|
  CheckEnable _ := mret ([], true);
  pl_ExecLocal := over_txs (λ tx r i, now (getTx tx r i));
  pl_ExecDelLocal := over_txs (λ tx r i, kvdel ← now (getTx tx r i); mret (map (λ kv : bytes * option bytes, (kv.1, None)) kvdel))
|}.

(** *** [addrindex] *)

Definition MaxTxsPerBlock : Z := 100000.
(** [%018d] of an int64. *)
Definition pad18 (z : Z) : string :=
  let digits_of a := if 10 ^ 18 <=? a then 19%nat else if 10 ^ 17 <=? a then 18%nat else 17%nat in
  if z <? 0 then String "-" (decw (digits_of (- z)) (- z)) else decw (Nat.max 18 (digits_of z)) z.

Record txIndex := mkTxIndex { ti_from : string; ti_to : string; heightstr : string; ti_index : ReplyTxInfo }.
Definition getTxIndex (tx : Transaction) (index : Z) : txIndex :=
  mkTxIndex (tx_From tx) (GetRealToAddr tx) (pad18 (wrap64 (height * MaxTxsPerBlock) +₆₄ index))
    (mkReplyTxInfo (Hash tx) height index (GetAssets tx)).

Definition getAddrTxsCountKV (addr : string) (count : Z) : bytes * option bytes := (CalcAddrTxsCountKey addr, Some (Encode count)).

Definition getAddrTxsCount (addr : string) : M LocalDB Z := λ l,
  match local_Get (CalcAddrTxsCountKey addr) l with
  | (Ret TxsCount, l') =>
      (if decide (TxsCount = "") then Ret 0
       else match Decode TxsCount with Some count => Ret count | None => Err (ErrOther "proto") end, l')
  | (Err e, l') => (if decide (e = ErrNotFound) then Ret 0 else Err e, l')
  | (Panic, l') => (Panic, l')
  end.
Definition setAddrTxsCount (addr : string) (count : Z) : M LocalDB unit :=
  local_Set (getAddrTxsCountKV addr count).1 (getAddrTxsCountKV addr count).2.

Definition updateAddrTxsCount (addr : string) (amount : Z) (isadd : bool) : M LocalDB (bytes * option bytes) :=
  if dbversion =? 0 then throw ErrNotFound
  else
    txscount ← getAddrTxsCount addr;
    let txscount := if isadd then txscount +₆₄ amount else txscount -₆₄ amount in
    _ ← setAddrTxsCount addr txscount;
    mret (getAddrTxsCountKV addr txscount).

(** An error of the update is passed over. *)
Definition count_kv (addr : string) (isadd : bool) : PM LocalKV := λ s,
  match on_local (updateAddrTxsCount addr 1 isadd) s with
  | (Ret kv, s') => (Ret [kv], s')
  | (Err _, s') => (Ret [], s')
  | (Panic, s') => (Panic, s')
  end.

Definition TxIndexFrom : Z := 1.
Definition TxIndexTo : Z := 2.
Definition addr_kvs (addr : string) (flag : Z) (isadd : bool) (ti : txIndex) : PM LocalKV :=
  if (String.length addr =? 0)%nat then mret []
  else
    let value := if isadd then Some (ReplyTxInfo_Encode (ti_index ti)) else None in
    kv ← count_kv addr isadd;
    mret ((CalcTxAddrDirHashKey addr flag (heightstr ti), value) :: (CalcTxAddrHashKey addr (heightstr ti), value) :: kv).
Definition addr_body (isadd : bool) (tx : Transaction) (receipt : ReceiptData) (index : Z) : PM LocalKV :=
  let ti := getTxIndex tx index in
  from ← addr_kvs (ti_from ti) TxIndexFrom isadd ti;
  to ← addr_kvs (ti_to ti) TxIndexTo isadd ti;
  mret (from ++ to)%list.

Definition addrindex : plugin := {|
  CheckEnable enable := mret ([], enable);
  pl_ExecLocal := over_txs (addr_body true);
  pl_ExecDelLocal := over_txs (addr_body false)
|}.

(** *** [fee] *)

Definition saveFee (fee : TotalFee) (parentHash hash : bytes) : M LocalDB (bytes * option bytes) := λ l,
  let add (total : TotalFee) : outcome (bytes * option bytes) :=
    Ret (TotalFeeKey hash, Some (Encode (mkTotalFee (tf_Fee total +₆₄ tf_Fee fee) (tf_TxCount total +₆₄ tf_TxCount fee)))) in
  match local_Get (TotalFeeKey parentHash) l with
  | (Ret totalFeeBytes, l') => (match Decode totalFeeBytes with Some total => add total | None => Err (ErrOther "proto") end, l')
  | (Err e, l') => (if decide (e = ErrNotFound) then add (mkTotalFee 0 0) else Err e, l')
  | (Panic, l') => (Panic, l')
  end.
Definition delFee (hash : bytes) : bytes * option bytes := (TotalFeeKey hash, None).
Definition block_fee (txs : list Transaction) : TotalFee :=
  foldl (λ fee tx, mkTotalFee (tf_Fee fee +₆₄ Fee tx) (tf_TxCount fee +₆₄ 1)) (mkTotalFee 0 0) txs.

Definition fee : plugin := {|
  CheckEnable _ := mret ([], true);
  pl_ExecLocal data :=
    kv ← on_local (saveFee (block_fee (Txs (bd_Block data))) (ParentHash (bd_Block data)) (b_Hash (bd_Block data)));
    mret [kv];
  pl_ExecDelLocal data := mret [delFee (b_Hash (bd_Block data))]
|}.

(** *** [stat]: counting tickets was moved to another executor, the flag has stayed *)

Definition countInfo (data : BlockDetail) : PM LocalKV := mret [].
Definition delCountInfo (data : BlockDetail) : PM LocalKV := mret [].
(** [CheckEnable] of [stat] and [mvcc]: the flag must have been set at height 0. *)
Definition must_flag (m : PM (LocalKV * bool)) : PM (LocalKV * bool) := λ s,
  match m s with
  | (Err e, s') => (if decide (e = ErrDBFlag) then Panic else Err e, s')
  | r => r
  end.
Definition put_stat (z : Z) (f : flags) : flags := mkFlags z (flag_mvcc f).
Definition put_mvcc (z : Z) (f : flags) : flags := mkFlags (flag_stat f) z.

Definition stat : plugin := {|
  CheckEnable enable := must_flag (checkFlag flag_stat put_stat StatisticFlag enable);
  pl_ExecLocal := countInfo;
  pl_ExecDelLocal := delCountInfo
|}.

(** *** [mvcc] *)

#[export] Instance LocalDB_KVDB : KVDB LocalDB := {|
  kvdb_Get l k := (local_Get k l).1;
  kvdb_List l prefix key count direction := (local_List prefix key count direction l).1
|}.
(** A hash that is not there is nil. *)
Definition nil_hash (h : bytes) : option bytes := if decide (h = "") then None else Some h.

(** [AddMVCC] and [DelMVCC] of [execenv.go]; an error is a panic.  Reading leaves its traces
    in the caches of the local database: the reads are done in the order of [SimpleMVCC]. *)
Definition add_reads (prevHash : option bytes) (version : Z) (l : LocalDB) : LocalDB :=
  match prevHash with
  | Some p => if 0 <? version then (local_Get (getVersionHashKey p) l).2 else l
  | None => l
  end.
Definition del_reads (hash : bytes) (version : Z) (l : LocalDB) : LocalDB :=
  let l := (local_Get (getVersionKeyListKey version) l).2 in
  let '(r, l) := local_List mvccMetaVersion "" 1 ListDESC l in
  let l := match r with Ret (h :: _) => (local_Get (getVersionHashKey h) l).2 | _ => l end in
  (local_Get (getVersionHashKey hash) l).2.

Definition plugin_AddMVCC (detail : BlockDetail) : M LocalDB LocalKV := λ l,
  let prev := nil_hash (PrevStatusHash detail) in
  let version := b_Height (bd_Block detail) in
  match AddMVCC l (map (λ kv : KeyValue, (kv.1, Some kv.2)) (bd_KV detail)) (StateHash (bd_Block detail)) prev version with
  | Ret kvlist => (Ret kvlist, add_reads prev version l)
  | _ => (Panic, l)
  end.
Definition plugin_DelMVCC (detail : BlockDetail) : M LocalDB LocalKV := λ l,
  let hash := StateHash (bd_Block detail) in
  let version := b_Height (bd_Block detail) in
  match DelMVCC l hash version true with
  | Ret kvlist => (Ret kvlist, del_reads hash version l)
  | _ => (Panic, l)
  end.

Definition mvcc : plugin := {|
  CheckEnable enable := must_flag (checkFlag flag_mvcc put_mvcc FlagKeyMVCC enable);
  pl_ExecLocal data := on_local (plugin_AddMVCC data);
  pl_ExecDelLocal data := on_local (plugin_DelMVCC data)
|}.

Definition globalPlugins : list (string * plugin) :=
  [("addrindex", addrindex); ("fee", fee); ("mvcc", mvcc); ("stat", stat); ("txindex", txindex)].
End Plugins.

(** ** The handlers *)

Section Handlers.
Context {ENV : ExecEnv} {PE : PluginEnv}.
(** [pluginEnable] as [New] fills it. *)
Context (EnableStat EnableMVCC DisableAddrIndex : bool).

Definition pluginEnable (name : string) : bool :=
  if String.eqb name "stat" then EnableStat
  else if String.eqb name "mvcc" then EnableMVCC
  else if String.eqb name "addrindex" then negb DisableAddrIndex
  else String.eqb name "txindex" || String.eqb name "fee".

(** A Go map is gone through in any order: the order is an argument. *)
Definition plugin_order : Type := ∀ height blocktime : Z, list (string * plugin).

(** The plugins of a block that is added; what they return is also written to the local
    database of the executor. *)
Fixpoint add_plugins (ps : list (string * plugin)) (datas : BlockDetail) : PM LocalKV :=
  match ps with
  | [] => mret []
  | (name, p) :: ps =>
      '(kvs, ok) ← (must (CheckEnable p (pluginEnable name)) : PM (LocalKV * bool));
      if negb ok then add_plugins ps datas
      else
        kvs' ← pl_ExecLocal p datas;
        _ ← on_exec (on_dbs (set_local kvs'));
        rest ← add_plugins ps datas;
        mret (kvs ++ kvs' ++ rest)%list
  end.
Fixpoint del_plugins (ps : list (string * plugin)) (datas : BlockDetail) : PM LocalKV :=
  match ps with
  | [] => mret []
  | (name, p) :: ps =>
      '(kvs, ok) ← (must (CheckEnable p (pluginEnable name)) : PM (LocalKV * bool));
      if negb ok then del_plugins ps datas
      else
        kvs' ← pl_ExecDelLocal p datas;
        rest ← del_plugins ps datas;
        mret (kvs ++ kvs' ++ rest)%list
  end.

Section Block.
Context (height blocktime : Z).

Fixpoint add_txs (i : Z) (txs : list Transaction) (receipts : list ReceiptData) : PM LocalKV :=
  match txs with
  | [] => mret []
  | tx :: txs =>
      _ ← on_exec (map_local local_StartTx);
      match receipts with
      | [] => panic
      | r :: receipts =>
          kv ← on_exec (execLocalTx height tx r i);
          rest ← add_txs (i + 1) txs receipts;
          mret (default [] kv ++ rest)%list
      end
  end.

Definition execDelLocal (tx : Transaction) (r : ReceiptData) (index : Z) : XM (option LocalKV) :=
  exec ← loadDriver height tx index; on_dbs (d_ExecDelLocal exec tx r index).

(** [del_txs]: the transactions with their receipts and places, the last one first. *)
Fixpoint del_txs (txs : list (Z * Transaction * option ReceiptData)) : PM LocalKV :=
  match txs with
  | [] => mret []
  | (i, tx, r) :: txs =>
      r ← on_exec (or_panic r);
      res ← on_exec (attempt (execDelLocal tx r i));
      match res with
      | inr e => if decide (e = ErrActionNotSupport) then del_txs txs else throw e
      | inl kv =>
          _ ← on_exec (match kv with Some kvs => checkPrefix (Execer tx) kvs | None => mret tt end);
          rest ← del_txs txs;
          mret (default [] kv ++ rest)%list
      end
  end.
End Block.

Definition numbered (txs : list Transaction) (receipts : list ReceiptData) : list (Z * Transaction * option ReceiptData) :=
  imap (λ i tx, (Z.of_nat i, tx, receipts !! i)) txs.

(** A panic is answered as an error. *)
Definition recovered {A} (m : PM A) : PM A := λ s,
  match m s with (Panic, s') => (Err (ErrOther "ErrExecPanic"), s') | r => r end.

(** The executor of a block, in front of the local database of the blockchain module. *)
Definition block_executor (b : Block) (local : LocalDB) : executor := newExecutor (b_Height b) (StateHash b) local.

Definition set_state (kvs : list KeyValue) : XM unit :=
  foldr (λ (kv : KeyValue) m, _ ← must (on_state (Set_ kv.1 (Some kv.2))); m) (mret tt) kvs.

Definition procExecAddBlock (order : plugin_order) (datas : BlockDetail) (local : LocalDB) (f : flags) : outcome LocalKV * PS :=
  let b := bd_Block datas in
  recovered
    (_ ← on_exec (on_state (enableMVCC backend EnableMVCC (nil_hash (PrevStatusHash datas))));
     _ ← on_exec (set_state (bd_KV datas));
     kvs ← add_plugins (order (b_Height b) (BlockTime b)) datas;
     kvs' ← add_txs (b_Height b) 0 (Txs b) (Receipts datas);
     mret (kvs ++ kvs')%list)
    (f, block_executor b local).

Definition procExecDelBlock (order : plugin_order) (datas : BlockDetail) (local : LocalDB) (f : flags) : outcome LocalKV * PS :=
  let b := bd_Block datas in
  recovered
    (_ ← on_exec (on_state (enableMVCC backend EnableMVCC None));
     _ ← on_exec (set_state (bd_KV datas));
     kvs ← del_plugins (order (b_Height b) (BlockTime b)) datas;
     kvs' ← del_txs (b_Height b) (reverse (numbered (Txs b) (Receipts datas)));
     mret (kvs ++ kvs')%list)
    (f, block_executor b local).
End Handlers.
