(* ===== verification/PluginTheorems.v ===== *)
(** What the plugins leave in the local database: the pairs of a block that is connected,
    and that disconnecting it takes them away again. *)

From Stdlib Require Import Ascii String.
From S2P Require Import Prelude DbIter ListHelper Mvcc MvccTheorems Types Api KVStore Account StateDB LocalDB Fork Coins Tx Merkle Block Executor ExecutorTheorems Drivers ExecutorDemo Plugins.
Local Open Scope string_scope.
Local Open Scope Z_scope.
Local Open Scope list_scope.

(** ** The local database of the executor outside transactions *)

Definition plain_db (l : LocalDB) : Prop := l_disableread l = false ∧ l_disablewrite l = false ∧ l_intx l = false.

(** Nothing but caching has happened between [l] and [l']. *)
Definition same_db (l l' : LocalDB) : Prop :=
  plain_db l → plain_db l' ∧ l_kvs l' = l_kvs l ∧ ∀ k, cached_view l' k = cached_view l k.

#[export] Instance same_db_refl : Reflexive same_db.
Proof. by intros l. Qed.
#[export] Instance same_db_trans : Transitive same_db.
Proof.
  intros l1 l2 l3 H1 H2 Hp. destruct (H1 Hp) as (P1 & K1 & V1), (H2 P1) as (P2 & K2 & V2).
  split_and!; [done|by rewrite K2|]. intros k. by rewrite V2.
Qed.

Lemma same_db_Get k l : same_db l (local_Get k l).2.
Proof.
  intros (Hr & Hw & Hi). split_and!; [| |exact (proj2 (local_Get_view l k Hr))];
    unfold local_Get; rewrite Hr, Hi; destruct (l_cache l !! k) as [[v|]|]; try done;
    by destruct (Remote.localGet k (l_remote l)) as [[v|] r].
Qed.

Lemma plain_Get k l : plain_db l →
  (local_Get k l).1 = match cached_view l k with Some v => Ret v | None => Err ErrNotFound end.
Proof.
  intros (Hr & Hw & Hi). unfold local_Get, cached_view. rewrite Hr, Hi. destruct (l_cache l !! k) as [[v|]|]; [done|done|].
  destruct (Remote.localGet_view (l_remote l) k) as [<- _]. by destruct (Remote.localGet k (l_remote l)) as [[v|] r].
Qed.

Lemma plain_Set k v l : plain_db l → ∃ l', local_Set k v l = (Ret tt, l') ∧ plain_db l' ∧
  (∀ k', k' ≠ k → cached_view l' k' = cached_view l k') ∧ (∀ x, v = Some x → cached_view l' k = Some x).
Proof.
  intros (Hr & Hw & Hi). unfold local_Set. rewrite Hw, Hi. eexists. split; [done|]. split; [done|]. unfold cached_view. simpl. split.
  - intros k' Hk. destruct v; [by rewrite lookup_insert_ne|by rewrite lookup_delete_ne].
  - intros x ->. by rewrite lookup_insert_eq.
Qed.

(** Writing pairs: of a key whose last value is not nil, that value is read back. *)
Lemma plain_set_local kvs d : plain_db d.2 → ∃ l', set_local kvs d = (Ret tt, (d.1, l')) ∧ plain_db l' ∧
  ∀ k, match GoMemDB.last_write k kvs with
       | None => cached_view l' k = cached_view d.2 k
       | Some (Some v) => cached_view l' k = Some v
       | Some None => True
       end.
Proof.
  revert d. induction kvs as [|[k v] kvs IH]; intros [s l] Hp; cbn [set_local].
  { by exists l. }
  destruct (plain_Set k v l Hp) as (l1 & E1 & P1 & V1 & W1).
  destruct (IH (s, l1) P1) as (l2 & E2 & P2 & V2). exists l2. split_and!; [|done|].
  - erewrite bind_Ret; [exact E2|]. unfold must. cbn [snd fst]. by rewrite E1.
  - intros k'. specialize (V2 k'). cbn [GoMemDB.last_write]. destruct (GoMemDB.last_write k' kvs) as [w|]; [done|].
    cbn [snd] in *. case_decide as Hk; [subst k'|by rewrite V2, V1]. destruct v as [v|]; [|done]. by rewrite V2, (W1 v).
Qed.

(** ** Kinds of keys *)

Section Kinds.
Context {PE : PluginEnv}.

(** Keys of the drivers, of [mvcc] and the flags. *)
Definition special_key (k : bytes) : bool :=
  String.prefix "LODB" k || String.prefix mvccPrefix k || bool_decide (k = StatisticFlag) || bool_decide (k = FlagKeyMVCC).
Definition count_key (k : bytes) : bool := String.prefix AddrTxsCount k.
Definition fee_key (k : bytes) : bool := String.prefix "TotalFeeKey:" k.
(** Keys the plugins read back. *)
Definition read_key (k : bytes) : bool := count_key k || fee_key k.

Lemma count_key_inv k : count_key k = true → ∃ a, k = CalcAddrTxsCountKey a.
Proof using Type. intros H%str_prefix_drop. eexists. exact H. Qed.
Lemma count_key_eq a : count_key (CalcAddrTxsCountKey a) = true.
Proof using Type. apply str_prefix_app. Qed.
Lemma count_key_inj a b : CalcAddrTxsCountKey a = CalcAddrTxsCountKey b → a = b.
Proof using Type. by intros [= ?]. Qed.
Lemma fee_not_special h : special_key (TotalFeeKey h) = false.
Proof using Type.
  unfold special_key, TotalFeeKey. rewrite !bool_decide_false by (intros H; cbn in H; discriminate H). reflexivity.
Qed.
Lemma count_not_special a : special_key (CalcAddrTxsCountKey a) = false.
Proof using Type.
  unfold special_key, CalcAddrTxsCountKey, AddrTxsCount. rewrite !bool_decide_false by (intros H; cbn in H; discriminate H). reflexivity.
Qed.

(** [shape ps kvs]: apart from special keys and counts, [kvs] are the pairs [ps]; counts are
    never deleted. *)
Definition shape (ps kvs : LocalKV) : Prop :=
  (∀ k v, (k, v) ∈ kvs → special_key k = true ∨ (count_key k = true ∧ is_Some v) ∨ (k, v) ∈ ps) ∧
  (∀ p, p ∈ ps → p ∈ kvs).

Lemma shape_app ps qs a b : shape ps a → shape qs b → shape (ps ++ qs) (a ++ b).
Proof using Type.
  intros [H1 H2] [G1 G2]. split.
  - intros k v [Hk|Hk]%elem_of_app; [destruct (H1 k v Hk) as [?|[?|?]]|destruct (G1 k v Hk) as [?|[?|?]]];
      rewrite elem_of_app; tauto.
  - intros p. rewrite !elem_of_app. intros [?|?]; auto.
Qed.
Lemma shape_nil : shape [] [].
Proof using Type. split; [by intros k v ?%elem_of_nil|done]. Qed.
Lemma shape_exact ps : shape ps ps.
Proof using Type. split; [intros k v ?; by right; right|done]. Qed.
Lemma shape_special kvs : (∀ p, p ∈ kvs → special_key p.1 = true) → shape [] kvs.
Proof using Type. intros H. split; [intros k v Hk; left; exact (H _ Hk)|by intros p ?%elem_of_nil]. Qed.
End Kinds.

(** ** The plugins, one by one *)

Section Plugins.
Context {ENV : ExecEnv} {PE : PluginEnv}.
Context (height blocktime : Z).

Definition local_of (s : PS) : LocalDB := (x_dbs s.2).2.
Definition same (s s' : PS) : Prop := same_db (local_of s) (local_of s').

(** The local database reads like [m] where the plugins read. *)
Definition tracks (m : gmap bytes bytes) (s : PS) : Prop :=
  plain_db (local_of s) ∧ ∀ k, read_key k = true → cached_view (local_of s) k = m !! k.

Lemma tracks_same m s s' : same s s' → tracks m s → tracks m s'.
Proof using Type. intros H [Hp Hm]. destruct (H Hp) as (P & _ & V). split; [done|]. intros k Hk. by rewrite V, Hm. Qed.

Lemma on_local_inv {A} (m : M LocalDB A) s r s' : on_local m s = (r, s') →
  m (local_of s) = (r, local_of s').
Proof using Type. unfold on_local, local_of. destruct (m (x_dbs s.2).2) as [r0 l]. by intros [= <- <-]. Qed.

(** *** Counts *)

Definition addr_count (v : option bytes) : option Z :=
  match v with None => Some 0 | Some b => if decide (b = "") then Some 0 else Decode b end.
Definition bump (isadd : bool) (c : Z) : Z := if isadd then c +₆₄ 1 else c -₆₄ 1.
Definition bumps (isadd : bool) (n : nat) (c : Z) : Z := Nat.iter n (bump isadd) c.
Definition occ (a : string) (l : list string) : nat := length (filter (eq a) l).

(** From [m] to [m'] the count of every address has been moved once for each time the
    address is in [l]; counts that do not decode stay. *)
Definition counted (isadd : bool) (l : list string) (m m' : gmap bytes bytes) : Prop :=
  ∀ a, addr_count (m' !! CalcAddrTxsCountKey a) = bumps isadd (occ a l) <$> addr_count (m !! CalcAddrTxsCountKey a).

Lemma addr_count_Encode c : addr_count (Some (Encode c)) = Some c.
Proof using Type. unfold addr_count. case_decide as H; [by rewrite (Int64_empty c H)|apply Decode_Encode]. Qed.
Lemma bumps_0 isadd (o : option Z) : bumps isadd 0 <$> o = o.
Proof using Type. by destruct o. Qed.
Lemma counted_nil isadd m m' : (∀ a, m' !! CalcAddrTxsCountKey a = m !! CalcAddrTxsCountKey a) → counted isadd [] m m'.
Proof using Type. intros H a. by rewrite H, bumps_0. Qed.
Lemma counted_app isadd l1 l2 m1 m2 m3 : counted isadd l1 m1 m2 → counted isadd l2 m2 m3 → counted isadd (l1 ++ l2) m1 m3.
Proof using Type.
  intros H1 H2 a. rewrite H2, H1. unfold occ. rewrite list.filter_app, length_app, Nat.add_comm. unfold bumps.
  destruct (addr_count _) as [c|]; [|done]. simpl. by rewrite Nat.iter_add.
Qed.
Lemma bumps_undo n c : in64 c → bumps false n (bumps true n c) = c.
Proof using Type.
  intros Hc. assert (∀ n, in64 (bumps true n c)) as Hin.
  { intros [|k]; [exact Hc|]. unfold bumps. simpl. apply wrap64_range. }
  assert (∀ z, in64 z → bump false (bump true z) = z) as Hb.
  { intros z H. unfold bump. destruct (wrap64_eq (z + 1)) as (k & ->). unfold in64, wrap64 in *.
    replace (z + 1 + k * 2 ^ 64 - 1 + 2 ^ 63) with (z + 2 ^ 63 + k * 2 ^ 64) by lia. rewrite Z_mod_plus_full, Z.mod_small; lia. }
  induction n as [|n IH]; [done|]. unfold bumps in *. rewrite Nat.iter_succ_r. cbn [Nat.iter nat_rect].
  rewrite Hb by apply Hin. exact IH.
Qed.

Lemma getAddrTxsCount_spec a l : plain_db l →
  same_db l (getAddrTxsCount a l).2 ∧
  (getAddrTxsCount a l).1 = match addr_count (cached_view l (CalcAddrTxsCountKey a)) with
                            | Some c => Ret c | None => Err (ErrOther "proto") end.
Proof using Type.
  intros Hp. unfold getAddrTxsCount. pose proof (same_db_Get (CalcAddrTxsCountKey a) l) as Hs.
  pose proof (plain_Get (CalcAddrTxsCountKey a) l Hp) as Hg. destruct (local_Get _ l) as [r l']. cbn [fst snd] in *. subst r.
  unfold addr_count. destruct (cached_view l _) as [b|]; (split; [exact Hs|]); [|done]. cbn [fst]. case_decide; [done|]. by destruct (Decode b).
Qed.

Definition counting (l : list string) : list string := if dbversion =? 0 then [] else l.
Lemma counting_app l l' : counting (l ++ l') = counting l ++ counting l'.
Proof using Type. unfold counting. by destruct (dbversion =? 0). Qed.

(** One address: the pair, if there is one, and the local database agree. *)
Lemma count_kv_spec a isadd m s : tracks m s → ∃ kvs s', count_kv a isadd s = (Ret kvs, s') ∧
  tracks (GoMemDB.apply_kvs kvs m) s' ∧ shape [] kvs ∧ counted isadd (counting [a]) m (GoMemDB.apply_kvs kvs m).
Proof using Type.
  intros [Hp Hm]. unfold count_kv, on_local, counting.
  change (x_dbs s.2).2 with (local_of s). unfold updateAddrTxsCount. destruct (dbversion =? 0).
  { exists [], s. split; [by destruct s as [f [[st lo] c]]|]. split; [done|]. split; [apply shape_nil|]. by apply counted_nil. }
  destruct (getAddrTxsCount_spec a (local_of s) Hp) as [Hs Hc]. destruct (Hs Hp) as (P1 & _ & V1).
  unfold mbind, M_bind. destruct (getAddrTxsCount a (local_of s)) as [r l1]. cbn [fst snd] in *. subst r.
  rewrite (Hm (CalcAddrTxsCountKey a)) by (unfold read_key; by rewrite count_key_eq).
  destruct (addr_count (m !! CalcAddrTxsCountKey a)) as [c|] eqn:Ec.
  - set (c' := if isadd then c +₆₄ 1 else c -₆₄ 1).
    unfold setAddrTxsCount, getAddrTxsCountKV. cbn [fst snd].
    destruct (plain_Set (CalcAddrTxsCountKey a) (Some (Encode c')) l1 P1) as (l2 & -> & P2 & V2 & W2).
    unfold mret, M_ret. eexists _, _. split; [reflexivity|]. split; [|split].
    + split; [exact P2|]. unfold local_of. cbn [snd x_dbs]. intros k Hk. cbn [GoMemDB.apply_kvs foldl fst snd].
      destruct (decide (k = CalcAddrTxsCountKey a)) as [->|Hne]; [by rewrite lookup_insert_eq, (W2 (Encode c'))|].
      rewrite lookup_insert_ne by done. by rewrite V2, V1, Hm.
    + split; [|by intros p ?%elem_of_nil]. intros k v [= -> ->]%list_elem_of_singleton. right; left. split; [apply count_key_eq|eauto].
    + intros b. cbn [GoMemDB.apply_kvs foldl fst snd]. unfold occ. rewrite filter_cons, filter_nil.
      destruct (decide (b = a)) as [->|Hne].
      * rewrite lookup_insert_eq, Ec, addr_count_Encode. reflexivity.
      * rewrite lookup_insert_ne by (intros ?%count_key_inj; congruence). by rewrite bumps_0.
  - eexists _, _. split; [reflexivity|]. split; [|split; [apply shape_nil|]].
    + split; [exact P1|]. intros k Hk. unfold local_of. cbn [snd x_dbs]. by rewrite V1, Hm.
    + intros b. cbn [GoMemDB.apply_kvs foldl]. destruct (decide (b = a)) as [->|Hne]; [by rewrite Ec|].
      unfold occ. rewrite filter_cons, decide_False, filter_nil by done. by rewrite bumps_0.
Qed.

(** Only the values of the keys that are read matter. *)
Definition agree (m m' : gmap bytes bytes) : Prop := ∀ k, read_key k = true → m !! k = m' !! k.
Lemma tracks_agree m m' s : agree m m' → tracks m s → tracks m' s.
Proof using Type. intros H [Hp Hm]. split; [done|]. intros k Hk. by rewrite Hm, H. Qed.
Lemma counted_agree isadd l m m1 m2 : agree m1 m2 → counted isadd l m m1 → counted isadd l m m2.
Proof using Type. intros H Hc a. rewrite <-Hc. f_equal. symmetry. apply H. unfold read_key. by rewrite count_key_eq. Qed.
Lemma agree_unread kvs m : (∀ p, p ∈ kvs → read_key p.1 = false) → agree m (GoMemDB.apply_kvs kvs m).
Proof using Type.
  intros H k Hk. rewrite GoMemDB.lookup_apply_kvs. destruct (GoMemDB.last_write k kvs) as [w|] eqn:E; [|done].
  apply GoMemDB.last_write_Some in E. apply H in E. simpl in E. congruence.
Qed.

(** What a part of a plugin does: [tracked isadd ps l m run] - it ends, the local database
    reads as after its pairs, which are [ps] and the counts of [l]. *)
Definition tracked_run (isadd : bool) (ps : LocalKV) (l : list string) (m : gmap bytes bytes) (kvs : LocalKV) (s' : PS) : Prop :=
  tracks (GoMemDB.apply_kvs kvs m) s' ∧ shape ps kvs ∧ counted isadd l m (GoMemDB.apply_kvs kvs m).

Lemma tracked_app isadd ps1 ps2 l1 l2 m k1 k2 s1 s2 :
  tracked_run isadd ps1 l1 m k1 s1 → tracked_run isadd ps2 l2 (GoMemDB.apply_kvs k1 m) k2 s2 →
  tracked_run isadd (ps1 ++ ps2) (l1 ++ l2) m (k1 ++ k2) s2.
Proof using Type.
  intros (T1 & S1 & C1) (T2 & S2 & C2). unfold tracked_run. rewrite GoMemDB.apply_kvs_app.
  split_and!; [done|by apply shape_app|by eapply counted_app].
Qed.
Lemma tracked_nil isadd m s : tracks m s → tracked_run isadd [] [] m [] s.
Proof using Type. intros H. split_and!; [done|apply shape_nil|by apply counted_nil]. Qed.

(** *** [addrindex] *)

Definition addr_pair (isadd : bool) (addr : string) (flag : Z) (ti : txIndex) : LocalKV :=
  if (String.length addr =? 0)%nat then []
  else
    let value := if isadd then Some (ReplyTxInfo_Encode (ti_index ti)) else None in
    [(CalcTxAddrDirHashKey addr flag (heightstr ti), value); (CalcTxAddrHashKey addr (heightstr ti), value)].
Lemma addr_pair_elem isadd addr flag ti k v :
  (k, v) ∈ addr_pair isadd addr flag ti ↔
  addr ≠ "" ∧ v = (if isadd then Some (ReplyTxInfo_Encode (ti_index ti)) else None) ∧
  (k = CalcTxAddrDirHashKey addr flag (heightstr ti) ∨ k = CalcTxAddrHashKey addr (heightstr ti)).
Proof using Type.
  unfold addr_pair. destruct addr as [|c addr]; cbn [String.length Nat.eqb].
  { rewrite elem_of_nil. naive_solver. }
  rewrite elem_of_cons, list_elem_of_singleton. set (a := String c addr). split.
  - intros [[= -> ->]|[= -> ->]]; (split_and!; [done|done|tauto]).
  - intros (_ & -> & [->| ->]); tauto.
Qed.
Definition named (addr : string) : list string := if (String.length addr =? 0)%nat then [] else [addr].

Lemma addr_kvs_spec addr flag isadd ti m s : tracks m s → ∃ kvs s', addr_kvs addr flag isadd ti s = (Ret kvs, s') ∧
  tracked_run isadd (addr_pair isadd addr flag ti) (counting (named addr)) m kvs s'.
Proof using Type.
  intros Ht. unfold addr_kvs, addr_pair, named. destruct (String.length addr =? 0)%nat.
  { exists [], s. split; [done|]. unfold counting. destruct (dbversion =? 0); by apply tracked_nil. }
  destruct (count_kv_spec addr isadd m s Ht) as (kvs & s' & E & T & S & C).
  set (v := if isadd then Some (ReplyTxInfo_Encode (ti_index ti)) else None).
  set (two := [(CalcTxAddrDirHashKey addr flag (heightstr ti), v); (CalcTxAddrHashKey addr (heightstr ti), v)]).
  exists (two ++ kvs), s'. split; [unfold mbind, M_bind; by rewrite E|].
  assert (∀ p, p ∈ two → read_key p.1 = false) as Hu.
  { intros p [->| ->%list_elem_of_singleton]%elem_of_cons; reflexivity. }
  assert (agree (GoMemDB.apply_kvs kvs m) (GoMemDB.apply_kvs (two ++ kvs) m)) as Ha.
  { intros k Hk. rewrite !GoMemDB.lookup_apply_kvs, GoMemDB.last_write_app.
    destruct (GoMemDB.last_write k kvs) as [w|] eqn:E1; [done|]. destruct (GoMemDB.last_write k two) as [w|] eqn:E2; [|done].
    apply GoMemDB.last_write_Some, Hu in E2. simpl in E2. congruence. }
  split_and!; [by eapply tracks_agree| |by eapply counted_agree].
  change two with (two ++ []) at 1. apply shape_app; [apply shape_exact|done].
Qed.

Definition addr_pairs (isadd : bool) (tx : Transaction) (index : Z) : LocalKV :=
  let ti := getTxIndex height tx index in
  addr_pair isadd (ti_from ti) TxIndexFrom ti ++ addr_pair isadd (ti_to ti) TxIndexTo ti.
Definition addrs_of (tx : Transaction) : list string := named (tx_From tx) ++ named (GetRealToAddr tx).

Lemma addr_body_spec isadd tx r i m s : tracks m s → ∃ kvs s', addr_body height isadd tx r i s = (Ret kvs, s') ∧
  tracked_run isadd (addr_pairs isadd tx i) (counting (addrs_of tx)) m kvs s'.
Proof using Type.
  intros Ht. unfold addr_body, addr_pairs, addrs_of.
  destruct (addr_kvs_spec (ti_from (getTxIndex height tx i)) TxIndexFrom isadd (getTxIndex height tx i) m s Ht) as (k1 & s1 & E1 & H1).
  destruct (addr_kvs_spec (ti_to (getTxIndex height tx i)) TxIndexTo isadd (getTxIndex height tx i) _ s1 (proj1 H1)) as (k2 & s2 & E2 & H2).
  exists (k1 ++ k2), s2. split; [unfold mbind, M_bind; by rewrite E1, E2|].
  rewrite counting_app. by eapply tracked_app.
Qed.

(** *** The loop over the transactions *)

Fixpoint over {A} (f : Transaction → ReceiptData → Z → list A) (i : Z) (txs : list Transaction) (rs : list ReceiptData) : list A :=
  match txs, rs with
  | tx :: txs, r :: rs => f tx r i ++ over f (i + 1) txs rs
  | _, _ => []
  end.

Lemma each_tx_spec isadd body ps (ls : Transaction → list string) txs :
  (∀ tx r i m s kvs s', tx ∈ txs → tracks m s → body tx r i s = (Ret kvs, s') → tracked_run isadd (ps tx r i) (ls tx) m kvs s') →
  ∀ i rs m s kvs s', tracks m s → each_tx body i txs rs s = (Ret kvs, s') →
  (length txs ≤ length rs)%nat ∧ tracked_run isadd (over ps i txs rs) (txs ≫= ls) m kvs s'.
Proof using Type.
  intros Hb. induction txs as [|tx txs IH]; intros i rs m s kvs s' Ht E; cbn [each_tx over] in *.
  { injection E as <- <-. split; [simpl; lia|]. by apply tracked_nil. }
  destruct rs as [|r rs]; [done|]. apply bind_inv in E as (k1 & s1 & E1 & (k2 & s2 & E2 & E3)%bind_inv). injection E3 as <- <-.
  pose proof (Hb tx r i m s k1 s1 (list_elem_of_here _ _) Ht E1) as H1.
  destruct (IH ltac:(intros; eapply Hb; [by right|done|done]) _ _ _ _ _ _ (proj1 H1) E2) as [Hl H2].
  split; [simpl; lia|]. rewrite bind_cons. by eapply tracked_app.
Qed.

(** *** [txindex] *)

(** [getTx] is a panic for a hash that is too short, which hashes are not. *)
Definition short_key (hash : bytes) : bytes := TxShortHashPerfix +:+ str_take 8 hash.
Definition tx_pairs (isadd : bool) (tx : Transaction) (r : ReceiptData) (i : Z) : LocalKV :=
  let v x := if isadd then Some x else None in
  (CalcTxKey (Hash tx), v (TxResult_Encode (mkTxResult height (wrap32 i) tx r blocktime (ActionName tx)))) ::
  (if quickIndex then [(short_key (Hash tx), v "1")] else []).

Lemma getTx_inv tx r i kvs : getTx height blocktime tx r i = Ret kvs → kvs = tx_pairs true tx r i.
Proof using Type.
  unfold getTx, tx_pairs, CalcTxShortKey, short_key. destruct quickIndex; [|by intros [= <-]].
  destruct (String.length (Hash tx) <? 8)%nat; [done|]. by intros [= <-].
Qed.

Lemma tx_pairs_unread isadd tx r i p : read_key (CalcTxKey (Hash tx)) = false → p ∈ tx_pairs isadd tx r i → read_key p.1 = false.
Proof using Type.
  intros H. unfold tx_pairs. intros [->|Hp]%elem_of_cons; [exact H|]. destruct quickIndex; [|by apply elem_of_nil in Hp].
  apply list_elem_of_singleton in Hp as ->. reflexivity.
Qed.

Lemma unread_run isadd kvs m s : tracks m s → (∀ p, p ∈ kvs → read_key p.1 = false) → tracked_run isadd kvs [] m kvs s.
Proof using Type.
  intros Ht Hu. pose proof (agree_unread kvs m Hu) as Ha. split_and!; [by eapply tracks_agree|apply shape_exact|].
  eapply counted_agree; [exact Ha|]. by apply counted_nil.
Qed.

(** *** [mvcc] *)

Lemma mvcc_special k : String.prefix mvccPrefix k = true → special_key k = true.
Proof using Type. unfold special_key. intros ->. by rewrite orb_true_r. Qed.
Lemma mvcc_prefix_app a : String.prefix mvccPrefix (mvccPrefix +:+ a) = true.
Proof using Type. apply str_prefix_app. Qed.

Lemma Ret_inj {A} (a b : A) : Ret a = Ret b → a = b.
Proof using Type. congruence. Qed.

Lemma AddMVCC_special l kvs hash prev v kvlist p : AddMVCC (D := LocalDB) l kvs hash prev v = Ret kvlist → p ∈ kvlist → special_key p.1 = true.
Proof using Type.
  unfold AddMVCC, SetVersionKV. intros H Hp. apply mvcc_special.
  destruct (if 0 <? v then _ else _) as [?|?|]; [|done|done]. cbn [mbind outcome_bind] in H.
  destruct (v <? 0); [done|]. cbn [mbind outcome_bind] in H. apply Ret_inj in H. subst kvlist.
  apply elem_of_app in Hp as [[->|[->|[]%elem_of_nil]%elem_of_cons]%elem_of_cons|[(kv & -> & _)%list_elem_of_fmap|Hp]%elem_of_app];
    [reflexivity|reflexivity|reflexivity|]. by apply list_elem_of_singleton in Hp as ->.
Qed.

Lemma DelMVCC_special l hash v strict kvlist p : DelMVCC (D := LocalDB) l hash v strict = Ret kvlist → p ∈ kvlist → special_key p.1 = true.
Proof using Type.
  unfold DelMVCC, delMVCC, DelVersionKV, SetVersionKV. intros H Hp. apply mvcc_special.
  destruct (GetDelKVList l v) as [kvs|?|]; [|done|done]. cbn [mbind outcome_bind] in H.
  destruct (if strict then _ else _) as [?|?|]; [|done|done]. cbn [mbind outcome_bind] in H.
  destruct (GetVersion l hash) as [vdb|?|]; [|done|done]. cbn [mbind outcome_bind] in H.
  destruct (negb (vdb =? v)); [done|]. destruct (v <? 0); [done|]. cbn [mbind outcome_bind map] in H. apply Ret_inj in H. subst kvlist.
  apply elem_of_app in Hp as [[->|[->|[]%elem_of_nil]%elem_of_cons]%elem_of_cons|(kv & -> & _)%list_elem_of_fmap]; reflexivity.
Qed.

Lemma same_on_local {A} (m : M LocalDB A) s r s' : (∀ l, same_db l (m l).2) → on_local m s = (r, s') → same s s'.
Proof using Type. intros H E%on_local_inv. unfold same. specialize (H (local_of s)). by rewrite E in H. Qed.

Lemma same_plugin_AddMVCC d l : same_db l (plugin_AddMVCC d l).2.
Proof using Type.
  unfold plugin_AddMVCC, add_reads. destruct (AddMVCC _ _ _ _ _); [|done|done]. simpl.
  destruct (nil_hash _); [|done]. destruct (0 <? _); [apply same_db_Get|done].
Qed.
Lemma same_loadFlag k l : same_db l (loadFlag k l).2.
Proof using Type. unfold loadFlag. pose proof (same_db_Get k l) as H. by destruct (local_Get k l) as [[?|?|] l']. Qed.

(** *** Flags *)

Lemma flag_special : special_key StatisticFlag = true ∧ special_key FlagKeyMVCC = true.
Proof using Type. done. Qed.

Lemma checkFlag_spec get put key b s kvs ok s' :
  special_key key = true → must_flag (checkFlag height get put key b) s = (Ret (kvs, ok), s') →
  ok = b ∧ same s s' ∧ ∀ p, p ∈ kvs → special_key p.1 = true.
Proof using Type.
  intros Hk H. assert (checkFlag height get put key b s = (Ret (kvs, ok), s')) as E.
  { unfold must_flag in H. destruct (checkFlag height get put key b s) as [[?|e|] ?]; [done| |done]. by case_decide. }
  clear H. unfold checkFlag in E. destruct b; [|injection E as <- <- <-; split_and!; [done|by intros ?|by intros p ?%elem_of_nil]].
  apply bind_inv in E as (u & s1 & E1 & E2). assert (same s s1) as H1.
  { unfold load_base in E1. destruct (get s.1 =? 0); [|by injection E1 as _ <-].
    destruct (on_local (loadFlag key) s) as [[?|?|] s2] eqn:E3; simplify_eq.
    exact (same_on_local _ _ _ _ (same_loadFlag key) E3). }
  unfold flag_answer in E2. destruct (negb (height =? 0) && (get s1.1 =? 0)); [done|].
  destruct (height =? 0); injection E2 as <- <- <-; (split_and!; [done|exact H1|]).
  - by intros p ->%list_elem_of_singleton.
  - by intros p ?%elem_of_nil.
Qed.

Lemma CheckEnable_spec n p b s kvs ok s' :
  (n, p) ∈ globalPlugins height blocktime → CheckEnable p b s = (Ret (kvs, ok), s') →
  ok = (if String.eqb n "txindex" || String.eqb n "fee" then true else b) ∧ same s s' ∧ ∀ q, q ∈ kvs → special_key q.1 = true.
Proof using Type.
  destruct flag_special as [F1 F2]. unfold globalPlugins.
  intros [[= -> ->]|[[= -> ->]|[[= -> ->]|[[= -> ->]|[= -> ->]%list_elem_of_singleton]%elem_of_cons]%elem_of_cons]%elem_of_cons]%elem_of_cons H; simpl in *;
    try (injection H as <- <- <-; split_and!; [done|by intros ?|by intros q ?%elem_of_nil]);
    by eapply checkFlag_spec in H.
Qed.

(** A loop that does not touch the databases. *)
Lemma each_tx_pure {A} body (ps : Transaction → ReceiptData → Z → list A) :
  (∀ tx r i s kvs s', body tx r i s = (Ret kvs, s') → kvs = ps tx r i ∧ s' = s) →
  ∀ txs i rs s kvs s', each_tx body i txs rs s = (Ret kvs, s') → kvs = over ps i txs rs ∧ s' = s.
Proof using Type.
  intros Hb. induction txs as [|tx txs IH]; intros i rs s kvs s' E; cbn [each_tx over] in *; [by injection E as <- <-|].
  destruct rs as [|r rs]; [done|]. apply bind_inv in E as (k1 & s1 & E1 & (k2 & s2 & E2 & E3)%bind_inv). injection E3 as <- <-.
  apply Hb in E1 as [-> ->]. by apply IH in E2 as [-> ->].
Qed.

Lemma over_elem {A} (f : Transaction → ReceiptData → Z → list A) txs i rs x :
  x ∈ over f i txs rs ↔ ∃ j tx r, txs !! j = Some tx ∧ rs !! j = Some r ∧ x ∈ f tx r (i + Z.of_nat j).
Proof using Type.
  revert i rs. induction txs as [|tx txs IH]; intros i rs; cbn [over].
  { rewrite elem_of_nil. split; [done|]. intros (j & tx & r & H & _). by rewrite lookup_nil in H. }
  destruct rs as [|r rs].
  { rewrite elem_of_nil. split; [done|]. intros (j & tx' & r & _ & H & _). by rewrite lookup_nil in H. }
  rewrite elem_of_app, IH. split.
  - intros [H|(j & tx' & r' & H1 & H2 & H3)]; [exists 0%nat, tx, r; by rewrite Z.add_0_r|].
    exists (S j), tx', r'. split_and!; [done|done|]. by replace (i + Z.of_nat (S j)) with (i + 1 + Z.of_nat j) by lia.
  - intros ([|j] & tx' & r' & H1 & H2 & H3); simpl in H1, H2; [left; simplify_eq; by rewrite Z.add_0_r in H3|right].
    exists j, tx', r'. split_and!; [done|done|]. by replace (i + 1 + Z.of_nat j) with (i + Z.of_nat (S j)) by lia.
Qed.

(** ** The pairs of a block, by plugin *)

Section Block.
Context (datas : BlockDetail) (total : TotalFee).

Definition fee_total (v : option bytes) : option TotalFee :=
  match v with None => Some (mkTotalFee 0 0) | Some b => Decode b end.
Definition fee_sum : TotalFee :=
  let f := block_fee (Txs (bd_Block datas)) in mkTotalFee (tf_Fee total +₆₄ tf_Fee f) (tf_TxCount total +₆₄ tf_TxCount f).
Definition parent_key : bytes := TotalFeeKey (ParentHash (bd_Block datas)).

Definition plugin_pairs (isadd : bool) (n : string) : LocalKV :=
  if String.eqb n "txindex" then over (tx_pairs isadd) 0 (Txs (bd_Block datas)) (Receipts datas)
  else if String.eqb n "addrindex" then over (λ tx _ i, addr_pairs isadd tx i) 0 (Txs (bd_Block datas)) (Receipts datas)
  else if String.eqb n "fee" then [(TotalFeeKey (b_Hash (bd_Block datas)), if isadd then Some (Encode fee_sum) else None)]
  else [].
Definition block_addrs : list string := counting (Txs (bd_Block datas) ≫= addrs_of).
Definition plugin_addrs (n : string) : list string := if String.eqb n "addrindex" then block_addrs else [].

Lemma block_addrs_bind : block_addrs = Txs (bd_Block datas) ≫= (λ tx, counting (addrs_of tx)).
Proof using Type.
  unfold block_addrs. induction (Txs (bd_Block datas)) as [|tx txs IH]; [unfold counting; by destruct (dbversion =? 0)|].
  rewrite !bind_cons, counting_app. by f_equal.
Qed.

(** After a plugin has run on a local database that reads like [m], keys it does not
    return read as before. *)
Definition half (m : gmap bytes bytes) (kvs : LocalKV) (s : PS) : Prop :=
  plain_db (local_of s) ∧
  ∀ k, read_key k = true → GoMemDB.last_write k kvs = None → cached_view (local_of s) k = m !! k.
Lemma half_tracks m kvs s : tracks (GoMemDB.apply_kvs kvs m) s → half m kvs s.
Proof using Type. intros [Hp Hm]. split; [done|]. intros k Hk Hl. by rewrite Hm, GoMemDB.lookup_apply_kvs, Hl. Qed.
Lemma half_same m kvs s : tracks m s → half m kvs s.
Proof using Type. intros [Hp Hm]. split; [done|]. intros k Hk _. by apply Hm. Qed.

Definition plugin_ran (n : string) (m : gmap bytes bytes) (kvs : LocalKV) (s' : PS) : Prop :=
  half m kvs s' ∧ shape (plugin_pairs true n) kvs ∧ counted true (plugin_addrs n) m (GoMemDB.apply_kvs kvs m).

Lemma counted_uncounted isadd kvs m : (∀ p, p ∈ kvs → count_key p.1 = false) → counted isadd [] m (GoMemDB.apply_kvs kvs m).
Proof using Type.
  intros H. apply counted_nil. intros a. rewrite GoMemDB.lookup_apply_kvs.
  destruct (GoMemDB.last_write _ kvs) as [w|] eqn:E; [|done]. apply GoMemDB.last_write_Some, H in E. cbn [fst] in E.
  by rewrite count_key_eq in E.
Qed.

Context (hash_keys : ∀ tx, tx ∈ Txs (bd_Block datas) → read_key (CalcTxKey (Hash tx)) = false).

Lemma tx_pairs_block_unread isadd p : p ∈ over (tx_pairs isadd) 0 (Txs (bd_Block datas)) (Receipts datas) → read_key p.1 = false.
Proof using hash_keys.
  intros (j & tx & r & Hj & _ & Hp)%over_elem. eapply tx_pairs_unread; [|exact Hp]. eapply hash_keys, list_elem_of_lookup_2, Hj.
Qed.

Lemma txindex_add m s kvs s' : tracks m s → pl_ExecLocal (txindex height blocktime) datas s = (Ret kvs, s') →
  plugin_ran "txindex" m kvs s'.
Proof using hash_keys.
  intros Ht E. apply (each_tx_pure _ (tx_pairs true)) in E as [-> ->].
  - destruct (unread_run true _ m s Ht (tx_pairs_block_unread true)) as (T & S & C).
    split_and!; [by apply half_tracks|done|done].
  - intros tx r i s0 k0 s1. unfold now. intros [= Eg <-]. by apply getTx_inv in Eg.
Qed.

Lemma addrindex_add m s kvs s' : tracks m s → pl_ExecLocal (addrindex height) datas s = (Ret kvs, s') →
  plugin_ran "addrindex" m kvs s'.
Proof using Type.
  intros Ht E. unfold plugin_ran, plugin_addrs. rewrite block_addrs_bind.
  apply (each_tx_spec true _ (λ tx _ i, addr_pairs true tx i) (λ tx, counting (addrs_of tx))) with (m := m) in E as (_ & T & S & C); [| |done].
  - split_and!; [by apply half_tracks|done|done].
  - intros tx r i m0 s0 k0 s1 _ Ht0 E0. destruct (addr_body_spec true tx r i m0 s0 Ht0) as (k & s2 & E2 & H). rewrite E2 in E0. injection E0 as <- <-. exact H.
Qed.

Lemma saveFee_spec f m s kv s' : tracks m s →
  on_local (saveFee f (ParentHash (bd_Block datas)) (b_Hash (bd_Block datas))) s = (Ret kv, s') →
  same s s' ∧ ∃ t, fee_total (m !! parent_key) = Some t ∧
    kv = (TotalFeeKey (b_Hash (bd_Block datas)), Some (Encode (mkTotalFee (tf_Fee t +₆₄ tf_Fee f) (tf_TxCount t +₆₄ tf_TxCount f)))).
Proof using Type.
  intros [Hp Hm] E%on_local_inv. unfold saveFee in E.
  pose proof (same_db_Get parent_key (local_of s)) as Hs. pose proof (plain_Get parent_key (local_of s) Hp) as Hg.
  rewrite (Hm parent_key) in Hg by (unfold read_key, parent_key, fee_key; rewrite str_prefix_app; apply orb_true_r).
  unfold parent_key in *. destruct (local_Get _ (local_of s)) as [r l1]. cbn [fst snd] in *. subst r.
  unfold same, fee_total. destruct (m !! TotalFeeKey (ParentHash (bd_Block datas))) as [b|].
  - destruct (Decode b) as [t|] eqn:Ed; [|done]. injection E as <- <-. split; [exact Hs|]. by exists t.
  - rewrite decide_True in E by done. injection E as <- <-. split; [exact Hs|]. by eexists.
Qed.

Lemma fee_add m s kvs s' : tracks m s → pl_ExecLocal fee datas s = (Ret kvs, s') →
  (∀ t, fee_total (m !! parent_key) = Some t → t = total) →
  plugin_ran "fee" m kvs s' ∧ fee_total (m !! parent_key) = Some total.
Proof using Type.
  intros Ht E Hf. cbn [fee pl_ExecLocal] in E. apply bind_inv in E as (kv & s1 & E1 & E2). injection E2 as <- <-.
  destruct (saveFee_spec _ m s kv s1 Ht E1) as (Hs & t & Et & ->). pose proof (Hf t Et) as ->.
  split; [|done]. unfold plugin_ran, plugin_pairs, plugin_addrs. cbn [String.eqb Ascii.eqb Bool.eqb].
  split_and!; [by eapply half_same, tracks_same|apply shape_exact|apply counted_uncounted].
  by intros p ->%list_elem_of_singleton.
Qed.

(** Any plugin. *)
Lemma plugin_add n p m s kvs s' :
  (n, p) ∈ globalPlugins height blocktime → tracks m s → pl_ExecLocal p datas s = (Ret kvs, s') →
  (n = "fee" → ∀ t, fee_total (m !! parent_key) = Some t → t = total) →
  plugin_ran n m kvs s' ∧ (n = "fee" → fee_total (m !! parent_key) = Some total).
Proof using hash_keys.
  unfold globalPlugins. intros [[= -> ->]|[[= -> ->]|[[= -> ->]|[[= -> ->]|[= -> ->]%list_elem_of_singleton]%elem_of_cons]%elem_of_cons]%elem_of_cons]%elem_of_cons Ht E Hf.
  - split; [by eapply addrindex_add|done].
  - destruct (fee_add m s kvs s' Ht E (Hf eq_refl)). tauto.
  - split; [|done]. cbn [mvcc pl_ExecLocal] in E. pose proof (same_on_local _ _ _ _ (same_plugin_AddMVCC datas) E) as Hs.
    apply on_local_inv in E. unfold plugin_AddMVCC in E. destruct (AddMVCC _ _ _ _ _) as [k| |] eqn:Ea; [|done|done]. injection E as <- _.
    assert (∀ q, q ∈ k → special_key q.1 = true) as Hq by (intros q Hq; by eapply AddMVCC_special).
    split_and!; [by eapply half_same, tracks_same|by apply shape_special|apply counted_uncounted].
    intros q Hin. apply Hq in Hin. destruct (count_key q.1) eqn:Ec; [|done]. apply count_key_inv in Ec as (a & Ea').
    by rewrite Ea', count_not_special in Hin.
  - split; [|done]. injection E as <- <-. split_and!; [by apply half_same|apply shape_nil|by apply counted_nil].
  - split; [by eapply txindex_add|done].
Qed.

(** *** Disconnecting *)

Lemma same_plugin_DelMVCC l : plain_db l → l_kvs l = [] → same_db l (plugin_DelMVCC datas l).2.
Proof using Type.
  intros Hp Hk. unfold plugin_DelMVCC, del_reads. destruct (DelMVCC _ _ _ _); [|done|done]. cbn [snd].
  pose proof (same_db_Get (getVersionKeyListKey (b_Height (bd_Block datas))) l) as H1. revert H1.
  generalize (local_Get (getVersionKeyListKey (b_Height (bd_Block datas))) l).2. intros l1 H1.
  destruct (H1 Hp) as (P1 & K1 & _). unfold local_List, save. rewrite (proj1 P1), K1, Hk.
  etrans; [exact H1|]. destruct (Remote.List _ _ _ _ _) as [|h vs]; [apply same_db_Get|].
  etrans; apply same_db_Get.
Qed.

(** What a plugin other than [addrindex] deletes. *)
Lemma plugin_del n p s kvs s' :
  (n, p) ∈ globalPlugins height blocktime → n ≠ "addrindex" → pl_ExecDelLocal p datas s = (Ret kvs, s') →
  (plain_db (local_of s) → l_kvs (local_of s) = [] → same s s') ∧ shape (plugin_pairs false n) kvs ∧
  ∀ q, q ∈ kvs → count_key q.1 = false.
Proof using hash_keys.
  unfold globalPlugins. intros [[= -> ->]|[[= -> ->]|[[= -> ->]|[[= -> ->]|[= -> ->]%list_elem_of_singleton]%elem_of_cons]%elem_of_cons]%elem_of_cons]%elem_of_cons Hn E; [done|..].
  - injection E as <- <-. split_and!; [done|apply shape_exact|by intros q ->%list_elem_of_singleton].
  - cbn [mvcc pl_ExecDelLocal] in E. apply on_local_inv in E.
    assert (∀ q, q ∈ kvs → special_key q.1 = true) as Hq.
    { unfold plugin_DelMVCC in E. destruct (DelMVCC _ _ _ _) as [k| |] eqn:Ea; [|done|done]. injection E as <- _.
      intros q Hq. by eapply DelMVCC_special. }
    split_and!; [|by apply shape_special|].
    + intros Hp Hk. unfold same. pose proof (same_plugin_DelMVCC _ Hp Hk) as H. by rewrite E in H.
    + intros q Hin. apply Hq in Hin. destruct (count_key q.1) eqn:Ec; [|done]. apply count_key_inv in Ec as (a & Ea').
      by rewrite Ea', count_not_special in Hin.
  - injection E as <- <-. split_and!; [done|apply shape_nil|by intros q ?%elem_of_nil].
  - apply (each_tx_pure _ (tx_pairs false)) in E as [-> ->].
    + split_and!; [done|apply shape_exact|]. intros q Hq%tx_pairs_block_unread. unfold read_key in Hq.
      by apply orb_false_iff in Hq as [? _].
    + intros tx r i s0 k0 s1. intros (k & s2 & [= Eg <-] & [= <- <-])%bind_inv. apply getTx_inv in Eg as ->.
      split; [|done]. unfold tx_pairs. by destruct quickIndex.
Qed.

Lemma addrindex_del m s kvs s' : tracks m s → pl_ExecDelLocal (addrindex height) datas s = (Ret kvs, s') →
  shape (plugin_pairs false "addrindex") kvs ∧ counted false block_addrs m (GoMemDB.apply_kvs kvs m).
Proof using Type.
  intros Ht E. rewrite block_addrs_bind.
  apply (each_tx_spec false _ (λ tx _ i, addr_pairs false tx i) (λ tx, counting (addrs_of tx))) with (m := m) in E as (_ & T & S & C); [| |done].
  - by split.
  - intros tx r i m0 s0 k0 s1 _ Ht0 E0. destruct (addr_body_spec false tx r i m0 s0 Ht0) as (k & s2 & E2 & H).
    rewrite E2 in E0. injection E0 as <- <-. exact H.
Qed.
End Block.
End Plugins.

(** ** All plugins of a block *)

Section All.
Context {ENV : ExecEnv} {PE : PluginEnv} (EnableStat EnableMVCC DisableAddrIndex : bool).
Context (height blocktime : Z) (datas : BlockDetail) (total : TotalFee).
Context (hash_keys : ∀ tx, tx ∈ Txs (bd_Block datas) → read_key (CalcTxKey (Hash tx)) = false).

Abbreviation enabled := (pluginEnable EnableStat EnableMVCC DisableAddrIndex).
Abbreviation pairs := (plugin_pairs height blocktime datas total).
Definition all_pairs (isadd : bool) (ns : list string) : LocalKV := ns ≫= λ n, if enabled n then pairs isadd n else [].
Definition all_addrs (ns : list string) : list string := ns ≫= λ n, if enabled n then plugin_addrs datas n else [].

Lemma read_not_special k : read_key k = true → special_key k = false.
Proof using Type.
  unfold read_key. intros [(a & ->)%count_key_inv|H%str_prefix_drop]%orb_true_iff; [apply count_not_special|].
  rewrite H. apply fee_not_special.
Qed.
Lemma pairs_some n k v : (k, v) ∈ pairs true n → is_Some v.
Proof using Type.
  unfold plugin_pairs. destruct (String.eqb n "txindex"); [|destruct (String.eqb n "addrindex"); [|destruct (String.eqb n "fee")]].
  - intros (j & tx & r & _ & _ & Hp)%over_elem. unfold tx_pairs in Hp. apply elem_of_cons in Hp as [[= -> ->]|Hp]; [eauto|].
    destruct quickIndex; [|by apply elem_of_nil in Hp]. apply list_elem_of_singleton in Hp as [= -> ->]. eauto.
  - intros (j & tx & r & _ & _ & Hp)%over_elem. unfold addr_pairs in Hp.
    apply elem_of_app in Hp as [Hp|Hp]; apply addr_pair_elem in Hp as (_ & -> & _); eauto.
  - intros [= -> ->]%list_elem_of_singleton. eauto.
  - by intros ?%elem_of_nil.
Qed.

(** Writing what a plugin returned completes its run. *)
Lemma ran_set n m kvs s : plugin_ran height blocktime datas total n m kvs s →
  ∃ s', on_exec (on_dbs (set_local kvs)) s = (Ret tt, s') ∧ tracks (GoMemDB.apply_kvs kvs m) s'.
Proof using Type.
  intros ((Hp & Hm) & Hs & _). destruct (plain_set_local kvs (x_dbs s.2) Hp) as (l' & E & P & V).
  unfold on_exec, on_dbs. rewrite E. eexists. split; [reflexivity|]. split; [exact P|]. intros k Hk.
  unfold local_of. cbn [snd x_dbs]. specialize (V k). rewrite GoMemDB.lookup_apply_kvs.
  destruct (GoMemDB.last_write k kvs) as [[v|]|] eqn:El; [done| |by rewrite V, <-Hm].
  exfalso. apply GoMemDB.last_write_Some in El. destruct (proj1 Hs k None El) as [H|[[_ [x H]]|H]]; [|done|].
  - by rewrite read_not_special in H.
  - by apply pairs_some in H as [x H].
Qed.

Lemma special_unread (kvs : LocalKV) : (∀ q, q ∈ kvs → special_key q.1 = true) → ∀ q, q ∈ kvs → read_key q.1 = false.
Proof using Type. intros H q Hq%H. destruct (read_key q.1) eqn:E; [|done]. apply read_not_special in E. congruence. Qed.

Lemma pairs_not_fee isadd n k v : n ≠ "fee" → (k, v) ∈ pairs isadd n → fee_key k = false.
Proof using hash_keys.
  intros Hn. unfold plugin_pairs. destruct (String.eqb_spec n "txindex") as [->|H1]; [|destruct (String.eqb_spec n "addrindex") as [->|H2]].
  - intros Hp%tx_pairs_block_unread; [|done]. unfold read_key in Hp. by apply orb_false_iff in Hp as [_ ?].
  - intros (j & tx & r & _ & _ & Hp)%over_elem. unfold addr_pairs in Hp.
    apply elem_of_app in Hp as [Hp|Hp]; apply addr_pair_elem in Hp as (_ & _ & [->| ->]); reflexivity.
  - rewrite (proj2 (String.eqb_neq n "fee")) by done. by intros ?%elem_of_nil.
Qed.

Lemma enabled_always n p (b : bool) : (n, p) ∈ globalPlugins height blocktime →
  (if String.eqb n "txindex" || String.eqb n "fee" then true else enabled n) = enabled n.
Proof using Type.
  unfold globalPlugins. by intros [[= -> ->]|[[= -> ->]|[[= -> ->]|[[= -> ->]|[= -> ->]%list_elem_of_singleton]%elem_of_cons]%elem_of_cons]%elem_of_cons]%elem_of_cons.
Qed.

Lemma fee_key_kept n m k1 s : n ≠ "fee" → plugin_ran height blocktime datas total n m k1 s →
  GoMemDB.apply_kvs k1 m !! parent_key datas = m !! parent_key datas.
Proof using hash_keys.
  intros Hn (_ & Hs & _). rewrite GoMemDB.lookup_apply_kvs. destruct (GoMemDB.last_write _ k1) as [w|] eqn:E; [|done].
  apply GoMemDB.last_write_Some in E. destruct (proj1 Hs _ _ E) as [H|[[H _]|H]]; [|done|].
  - unfold parent_key in H. by rewrite fee_not_special in H.
  - apply pairs_not_fee in H; [|done]. unfold fee_key, parent_key, TotalFeeKey in H. by rewrite str_prefix_app in H.
Qed.

Lemma add_plugins_spec ps m s kvs s' :
  (∀ p, p ∈ ps → p ∈ globalPlugins height blocktime) → NoDup ps.*1 → tracks m s →
  add_plugins EnableStat EnableMVCC DisableAddrIndex ps datas s = (Ret kvs, s') →
  ("fee" ∈ ps.*1 → ∀ t, fee_total (m !! parent_key datas) = Some t → t = total) →
  shape (all_pairs true ps.*1) kvs ∧ counted true (all_addrs ps.*1) m (GoMemDB.apply_kvs kvs m) ∧
  ("fee" ∈ ps.*1 → fee_total (m !! parent_key datas) = Some total).
Proof using hash_keys.
  revert m s kvs. induction ps as [|[n p] ps IH]; intros m s kvs Hg Hnd Ht E Hf.
  { injection E as <- <-. split_and!; [apply shape_nil|by apply counted_nil|by intros ?%elem_of_nil]. }
  cbn [add_plugins] in E. apply bind_inv in E as ([k0 ok] & s1 & E1%must_inv & E).
  assert ((n, p) ∈ globalPlugins height blocktime) as Hn by (apply Hg; left).
  apply (CheckEnable_spec _ _ _ _ _ _ _ _ _ Hn) in E1 as (Hok & Hs1 & Hk0). rewrite (enabled_always n p true Hn) in Hok. subst ok.
  cbn [fmap list_fmap fst] in *. apply list.NoDup_cons in Hnd as [Hnn Hnd].
  pose proof (tracks_same _ _ _ Hs1 Ht) as Ht1. unfold all_pairs, all_addrs in *. rewrite !bind_cons.
  destruct (enabled n) eqn:En; cbn [negb] in E.
  - apply bind_inv in E as (k1 & s2 & E2 & (u & s3 & E3 & (rest & s4 & E4 & E5)%bind_inv)%bind_inv). injection E5 as <- <-.
    set (m0 := GoMemDB.apply_kvs k0 m).
    pose proof (agree_unread k0 m (special_unread k0 Hk0)) as Ha. fold m0 in Ha.
    assert (m0 !! parent_key datas = m !! parent_key datas) as Hpk.
    { symmetry. apply Ha. unfold read_key, fee_key, parent_key. rewrite str_prefix_app. apply orb_true_r. }
    destruct (plugin_add height blocktime datas total hash_keys n p m0 s1 k1 s2 Hn (tracks_agree _ _ _ Ha Ht1) E2) as [Hr Hfee].
    { intros ->. rewrite Hpk. apply Hf. left. }
    destruct (ran_set n m0 k1 s2 Hr) as (s3' & E3' & Ht3). rewrite E3 in E3'. injection E3' as _ <-.
    destruct (IH _ _ _ ltac:(intros; apply Hg; by right) Hnd Ht3 E4) as (Hs & Hc & Hfee').
    { intros Hin. rewrite (fee_key_kept n m0 k1 s2) by (done || congruence). rewrite Hpk. apply Hf. by right. }
    split_and!.
    + change (pairs true n) with ([] ++ pairs true n). rewrite <-app_assoc. apply shape_app; [by apply shape_special|].
      apply shape_app; [apply Hr|exact Hs].
    + rewrite !GoMemDB.apply_kvs_app. change (plugin_addrs datas n) with ([] ++ plugin_addrs datas n). rewrite <-app_assoc.
      eapply counted_app; [|eapply counted_app; [exact (proj2 (proj2 Hr))|exact Hc]].
      eapply counted_agree; [exact Ha|by apply counted_nil].
    + rewrite <-Hpk. intros [<-|Hin]%elem_of_cons; [by apply Hfee|].
      rewrite <-(fee_key_kept n m0 k1 s2) by (done || congruence). by apply Hfee'.
  - destruct (IH _ _ _ ltac:(intros; apply Hg; by right) Hnd Ht1 E ltac:(intros; eapply Hf; [by right|done])) as (Hs & Hc & Hfee').
    split_and!; [exact Hs|exact Hc|]. intros [<-|Hin]%elem_of_cons; [done|by apply Hfee'].
Qed.

(** Pairs without counts do not matter for counts. *)
Definition uncounted (kvs : LocalKV) : Prop := ∀ q, q ∈ kvs → count_key q.1 = false.
Lemma uncounted_write kvs a : uncounted kvs → GoMemDB.last_write (CalcAddrTxsCountKey a) kvs = None.
Proof using Type.
  intros H. destruct (GoMemDB.last_write _ kvs) as [w|] eqn:E; [|done]. apply GoMemDB.last_write_Some, H in E.
  cbn [fst] in E. by rewrite count_key_eq in E.
Qed.
Lemma counted_around isadd l m k0 k1 k2 : uncounted k0 → uncounted k2 → counted isadd l m (GoMemDB.apply_kvs k1 m) →
  counted isadd l m (GoMemDB.apply_kvs (k0 ++ k1 ++ k2) m).
Proof using Type.
  intros H0 H2 H a. rewrite <-(H a). f_equal. rewrite !GoMemDB.lookup_apply_kvs, !GoMemDB.last_write_app.
  rewrite (uncounted_write k2 a H2), (uncounted_write k0 a H0). by destruct (GoMemDB.last_write _ k1).
Qed.
Lemma all_addrs_none ns : "addrindex" ∉ ns → all_addrs ns = [].
Proof using Type.
  unfold all_addrs. induction ns as [|x l IHl]; [done|]. intros [Hx Hl]%not_elem_of_cons. rewrite bind_cons, IHl by done.
  unfold plugin_addrs. rewrite (proj2 (String.eqb_neq x "addrindex")) by done. by destruct (enabled x).
Qed.

(** Disconnecting: the counts are those of one pass of [addrindex]. *)
Lemma del_plugins_spec ps m s kvs s' :
  (∀ p, p ∈ ps → p ∈ globalPlugins height blocktime) → NoDup ps.*1 →
  ("addrindex" ∈ ps.*1 → tracks m s ∧ l_kvs (local_of s) = []) →
  del_plugins EnableStat EnableMVCC DisableAddrIndex ps datas s = (Ret kvs, s') →
  shape (all_pairs false ps.*1) kvs ∧ counted false (all_addrs ps.*1) m (GoMemDB.apply_kvs kvs m) ∧
  ("addrindex" ∉ ps.*1 → uncounted kvs).
Proof using hash_keys.
  revert s kvs. induction ps as [|[n p] ps IH]; intros s kvs Hg Hnd Ht E.
  { injection E as <- <-. split_and!; [apply shape_nil|by apply counted_nil|by intros _ q ?%elem_of_nil]. }
  cbn [del_plugins] in E. apply bind_inv in E as ([k0 ok] & s1 & E1%must_inv & E).
  assert ((n, p) ∈ globalPlugins height blocktime) as Hn by (apply Hg; left).
  apply (CheckEnable_spec _ _ _ _ _ _ _ _ _ Hn) in E1 as (Hok & Hs1 & Hk0). rewrite (enabled_always n p true Hn) in Hok. subst ok.
  cbn [fmap list_fmap fst] in *. apply list.NoDup_cons in Hnd as [Hnn Hnd].
  assert ("addrindex" ∈ n :: ps.*1 → tracks m s1 ∧ l_kvs (local_of s1) = []) as Ht1.
  { intros [T K]%Ht. split; [by eapply tracks_same|]. destruct (Hs1 (proj1 T)) as (_ & -> & _). exact K. }
  assert (uncounted k0) as Hc0.
  { intros q Hq%(special_unread k0 Hk0). unfold read_key in Hq. by apply orb_false_iff in Hq as [? _]. }
  unfold all_pairs, all_addrs in *. rewrite !bind_cons. destruct (enabled n) eqn:En; cbn [negb] in E.
  2: { destruct (IH _ _ ltac:(intros; apply Hg; by right) Hnd ltac:(intros; apply Ht1; by right) E) as (Hs & Hc & Hno).
       split_and!; [exact Hs|exact Hc|]. intros Hni. apply Hno. intros ?. apply Hni. by right. }
  apply bind_inv in E as (k1 & s2 & E2 & (rest & s4 & E4 & E5)%bind_inv). injection E5 as <- <-.
  destruct (decide (n = "addrindex")) as [->|Hna].
  - assert (p = addrindex height) as ->.
    { unfold globalPlugins in Hn. apply elem_of_cons in Hn as [[= ->]|Hn]; [done|].
      repeat (apply elem_of_cons in Hn as [Hn|Hn]; [done|]). by apply elem_of_nil in Hn. }
    destruct (Ht1 ltac:(left)) as [T1 _]. destruct (addrindex_del height blocktime datas total m s1 k1 s2 T1 E2) as [S1 C1].
    destruct (IH _ _ ltac:(intros; apply Hg; by right) Hnd ltac:(intros; done) E4) as (Hs & Hc & Hno). split_and!; [| |intros H; destruct H; left].
    + change (pairs false "addrindex") with ([] ++ pairs false "addrindex"). rewrite <-app_assoc. apply shape_app; [by apply shape_special|].
      by apply shape_app.
    + fold (all_addrs ps.*1). rewrite all_addrs_none, app_nil_r by done. apply counted_around; [done|by apply Hno|exact C1].
  - destruct (plugin_del height blocktime datas total hash_keys n p s1 k1 s2 Hn Hna E2) as (Hsame & S1 & C1).
    destruct (IH s2 rest ltac:(intros; apply Hg; by right) Hnd) as (Hs & Hc & Hno); [|done|].
    { intros Hin. destruct (Ht1 ltac:(by right)) as [T1 K1]. specialize (Hsame (proj1 T1) K1). split; [by eapply tracks_same|].
      destruct (Hsame (proj1 T1)) as (_ & -> & _). exact K1. }
    split_and!.
    + change (pairs false n) with ([] ++ pairs false n). rewrite <-app_assoc. apply shape_app; [by apply shape_special|]. by apply shape_app.
    + unfold plugin_addrs at 1. rewrite (proj2 (String.eqb_neq n "addrindex")) by done. cbn [app].
      rewrite app_assoc, <-(app_nil_r rest). apply counted_around; [|by intros q ?%elem_of_nil|exact Hc].
      intros q [Hq|Hq]%elem_of_app; [by apply Hc0|by apply C1].
    + intros Hni q. rewrite !elem_of_app. intros [Hq|[Hq|Hq]]; [by apply Hc0|by apply C1|]. apply Hno; [|done]. intros ?. apply Hni. by right.
Qed.
End All.

(** ** The handlers *)

Section Handlers.
Context {ENV : ExecEnv} {PE : PluginEnv} (EnableStat EnableMVCC DisableAddrIndex : bool).

(** Drivers write under the prefix of local keys only. *)
Lemma local_key_special execer key u : isAllowLocalKey execer key = Ret u → special_key key = true.
Proof using Type.
  assert (∀ e, isAllowLocalKey2 e key = Ret u → special_key key = true) as H.
  { unfold isAllowLocalKey2. intros e. destruct (String.length e <? 1)%nat; [done|].
    destruct (String.length key <=? _)%nat; [done|]. destruct (negb (char_is _ _ _) || negb (char_is _ _ _)); [done|].
    unfold LocalPrefix, special_key. destruct (String.prefix "LODB" key); [done|]. cbn [negb]. done. }
  unfold isAllowLocalKey. destruct (isAllowLocalKey2 execer key) as [u'|e|] eqn:E; [intros _; destruct u, u'; by eapply H| |done].
  destruct (String.eqb _ execer); [done|]. apply H.
Qed.

Lemma checkPrefix_special execer kvs e u e' : checkPrefix execer kvs e = (Ret u, e') → ∀ q, q ∈ kvs → special_key q.1 = true.
Proof using Type.
  unfold checkPrefix. destruct (forallb _ kvs) eqn:E; [|done]. intros _ q Hq. rewrite forallb_forall in E.
  specialize (E q ltac:(by apply list_elem_of_In)). destruct (isAllowLocalKey execer q.1) eqn:El; [|done|done]. by eapply local_key_special.
Qed.

Lemma execLocalTx_special height tx r i e kvs e' :
  execLocalTx height tx r i e = (Ret kvs, e') → ∀ q, q ∈ default [] kvs → special_key q.1 = true.
Proof using Type.
  unfold execLocalTx. intros (res & e1 & _ & E)%bind_inv. destruct res as [kv|x].
  - apply bind_inv in E as (mem & e2 & _ & E). destruct kv as [kv|].
    + apply bind_inv in E as (u1 & e3 & _ & (u2 & e4 & E2 & (u3 & e5 & _ & E3)%bind_inv)%bind_inv). injection E3 as <- _.
      by eapply checkPrefix_special.
    + apply bind_inv in E as (u1 & e3 & _ & E3). injection E3 as <- _. by intros q ?%elem_of_nil.
  - destruct (bool_decide _); [|done]. injection E as <- _. by intros q ?%elem_of_nil.
Qed.

Lemma add_txs_special height i txs rs s kvs s' :
  add_txs height i txs rs s = (Ret kvs, s') → ∀ q, q ∈ kvs → special_key q.1 = true.
Proof using Type.
  revert i rs s kvs s'. induction txs as [|tx txs IH]; intros i rs s kvs s' E; cbn [add_txs] in E.
  { injection E as <- _. by intros q ?%elem_of_nil. }
  apply bind_inv in E as (u & s1 & _ & E). destruct rs as [|r rs]; [done|].
  apply bind_inv in E as (kv & s2 & E1 & (rest & s3 & E2 & E3)%bind_inv). injection E3 as <- _.
  intros q [Hq|Hq]%elem_of_app; [|by eapply IH]. unfold on_exec in E1.
  destruct (execLocalTx height tx r i s1.2) as [o e] eqn:El. injection E1 as -> _. by eapply execLocalTx_special.
Qed.

Lemma add_txs_length height i txs rs s kvs s' : add_txs height i txs rs s = (Ret kvs, s') → (length txs ≤ length rs)%nat.
Proof using Type.
  revert i rs s kvs s'. induction txs as [|tx txs IH]; intros i rs s kvs s' E; cbn [add_txs length] in *; [lia|].
  apply bind_inv in E as (u & s1 & _ & E). destruct rs as [|r rs]; [done|].
  apply bind_inv in E as (kv & s2 & _ & (rest & s3 & E2 & _)%bind_inv). apply IH in E2. simpl. lia.
Qed.

Lemma del_txs_special height l s kvs s' :
  Plugins.del_txs height l s = (Ret kvs, s') → ∀ q, q ∈ kvs → special_key q.1 = true.
Proof using Type.
  revert s kvs s'. induction l as [|[[i tx] r] l IH]; intros s kvs s' E; cbn [Plugins.del_txs] in E.
  { injection E as <- _. by intros q ?%elem_of_nil. }
  apply bind_inv in E as (r' & s1 & _ & (res & s2 & _ & E)%bind_inv). destruct res as [kv|x].
  - apply bind_inv in E as (u & s3 & E1 & (rest & s4 & E2 & E3)%bind_inv). injection E3 as <- _.
    intros q [Hq|Hq]%elem_of_app; [|by eapply IH]. destruct kv as [kv|]; [|by apply elem_of_nil in Hq].
    unfold on_exec in E1. destruct (checkPrefix (Execer tx) kv s2.2) as [o e] eqn:El. injection E1 as -> _.
    by eapply checkPrefix_special.
  - case_decide; [by eapply IH|done].
Qed.

Lemma on_state_same {A} (m : M StateDB A) s r s' : on_exec (on_state m) s = (r, s') → local_of s' = local_of s.
Proof using Type.
  unfold on_exec, on_state, on_dbs, local_of. destruct (m (x_dbs s.2).1) as [o st] eqn:E. by intros [= <- <-].
Qed.
Lemma set_state_same kvs s r s' : on_exec (set_state kvs) s = (r, s') → local_of s' = local_of s.
Proof using Type.
  unfold on_exec, local_of, set_state. destruct s as [f e]. cbn [snd fst]. revert e r s'.
  induction kvs as [|kv kvs IH]; intros e r s'; cbn [foldr]; [by intros [= <- <-]|].
  unfold mbind, M_bind, must, on_state, on_dbs. destruct (StateDB.Set_ _ _ _) as [o st] eqn:E. cbn [snd fst].
  unfold StateDB.Set_ in E. destruct (intx (x_dbs e).1); injection E as <- <-; intros H; exact (IH _ _ _ H).
Qed.

Lemma recovered_inv {A} (m : PM A) s a s' : recovered m s = (Ret a, s') → m s = (Ret a, s').
Proof using Type. unfold recovered. destruct (m s) as [[?|?|] ?]; naive_solver. Qed.

Lemma fresh_tracks f b main : tracks main (f, block_executor b (NewLocalDB (Remote.NewLocalDB main))).
Proof using Type. split; [done|]. intros k _. unfold local_of, cached_view, Remote.view. simpl. by rewrite !lookup_empty. Qed.

Definition plugin_names : list string := ["addrindex"; "fee"; "mvcc"; "stat"; "txindex"].
Definition any_order (order : plugin_order) : Prop := ∀ h t, order h t ≡ₚ globalPlugins h t.

Lemma order_names order h t : any_order order →
  (∀ p, p ∈ order h t → p ∈ globalPlugins h t) ∧ (order h t).*1 ≡ₚ plugin_names ∧ NoDup (order h t).*1.
Proof using Type.
  intros H. specialize (H h t). assert ((order h t).*1 ≡ₚ plugin_names) as Hp by (by rewrite H).
  split_and!; [intros p; by rewrite H|done|]. rewrite Hp. apply (bool_decide_unpack _). reflexivity.
Qed.

Lemma shape_perm ps ps' kvs : ps ≡ₚ ps' → shape ps kvs → shape ps' kvs.
Proof using Type. intros Hp [H1 H2]. split; [intros k v; rewrite <-Hp; apply H1|intros p; rewrite <-Hp; apply H2]. Qed.
Lemma counted_perm isadd l l' m m' : l ≡ₚ l' → counted isadd l m m' → counted isadd l' m m'.
Proof using Type. intros Hp H a. rewrite (H a). unfold occ. by rewrite Hp. Qed.

Section Detail.
Context (datas : BlockDetail) (main : gmap bytes bytes).
Let b := bd_Block datas.
Context (hash_keys : ∀ tx, tx ∈ Txs b → read_key (CalcTxKey (Hash tx)) = false).

(** The pairs of the block: all but counts and the keys of drivers, [mvcc] and flags. *)
Definition total_before : TotalFee := default (mkTotalFee 0 0) (fee_total (main !! parent_key datas)).
Definition block_pairs (isadd : bool) : LocalKV :=
  all_pairs EnableStat EnableMVCC DisableAddrIndex (b_Height b) (BlockTime b) datas total_before isadd plugin_names.
Definition counted_addrs : list string := all_addrs EnableStat EnableMVCC DisableAddrIndex datas plugin_names.

Lemma special_uncounted (kvs : LocalKV) : (∀ q, q ∈ kvs → special_key q.1 = true) → uncounted kvs.
Proof using Type.
  intros H q Hq%(special_unread kvs H). unfold read_key in Hq. by apply orb_false_iff in Hq as [? _].
Qed.

Lemma add_block_shape order f kvs s' :
  any_order order →
  procExecAddBlock EnableStat EnableMVCC DisableAddrIndex order datas (NewLocalDB (Remote.NewLocalDB main)) f = (Ret kvs, s') →
  shape (block_pairs true) kvs ∧ counted true counted_addrs main (GoMemDB.apply_kvs kvs main) ∧
  is_Some (fee_total (main !! parent_key datas)) ∧ (length (Txs b) ≤ length (Receipts datas))%nat.
Proof using hash_keys.
  intros Ho E%recovered_inv. fold b in E. apply bind_inv in E as (u1 & s1 & E1%on_state_same & (u2 & s2 & E2%set_state_same & (kp & s3 & E3 & (kt & s4 & E4 & E5)%bind_inv)%bind_inv)%bind_inv).
  injection E5 as <- <-. rewrite E1 in E2. pose proof (add_txs_special _ _ _ _ _ _ _ E4) as Hkt.
  destruct (order_names order (b_Height b) (BlockTime b) Ho) as (Hg & Hp & Hnd).
  assert (tracks main s2) as Ht.
  { unfold tracks. rewrite E2. exact (fresh_tracks f b main). }
  destruct (add_plugins_spec EnableStat EnableMVCC DisableAddrIndex _ _ datas total_before hash_keys _ _ _ _ _ Hg Hnd Ht E3) as (Hs & Hc & Hf).
  { intros _ t Et. unfold total_before. by rewrite Et. }
  split_and!.
  - rewrite <-(app_nil_r (block_pairs true)). apply shape_app; [|by apply shape_special]. eapply shape_perm; [|exact Hs].
    unfold block_pairs, all_pairs. by rewrite Hp.
  - eapply counted_perm; [unfold counted_addrs, all_addrs; by rewrite <-Hp|].
    change kp with ([] ++ kp). rewrite <-app_assoc.
    apply counted_around; [by intros q ?%elem_of_nil|by apply special_uncounted|exact Hc].
  - rewrite Hf; [eauto|]. rewrite Hp. apply (bool_decide_unpack _). reflexivity.
  - by eapply add_txs_length.
Qed.

Lemma del_block_shape order main1 f kvs s' :
  any_order order →
  procExecDelBlock EnableStat EnableMVCC DisableAddrIndex order datas (NewLocalDB (Remote.NewLocalDB main1)) f = (Ret kvs, s') →
  shape (block_pairs false) kvs ∧ counted false counted_addrs main1 (GoMemDB.apply_kvs kvs main1).
Proof using hash_keys.
  intros Ho E%recovered_inv. fold b in E. apply bind_inv in E as (u1 & s1 & E1%on_state_same & (u2 & s2 & E2%set_state_same & (kp & s3 & E3 & (kt & s4 & E4 & E5)%bind_inv)%bind_inv)%bind_inv).
  injection E5 as <- <-. rewrite E1 in E2. pose proof (del_txs_special _ _ _ _ _ E4) as Hkt.
  destruct (order_names order (b_Height b) (BlockTime b) Ho) as (Hg & Hp & Hnd).
  assert (tracks main1 s2 ∧ l_kvs (local_of s2) = []) as Ht.
  { unfold tracks. rewrite E2. split; [exact (fresh_tracks f b main1)|done]. }
  destruct (del_plugins_spec EnableStat EnableMVCC DisableAddrIndex _ _ datas total_before hash_keys _ _ _ _ _ Hg Hnd (λ _, Ht) E3) as (Hs & Hc & _).
  split.
  - rewrite <-(app_nil_r (block_pairs false)). apply shape_app; [|by apply shape_special]. eapply shape_perm; [|exact Hs].
    unfold block_pairs, all_pairs. by rewrite Hp.
  - eapply counted_perm; [unfold counted_addrs, all_addrs; by rewrite <-Hp|].
    change kp with ([] ++ kp). rewrite <-app_assoc.
    apply counted_around; [by intros q ?%elem_of_nil|by apply special_uncounted|exact Hc].
Qed.

(** *** Undoing *)

Lemma plugin_pairs_keys h t tot n : (plugin_pairs h t datas tot true n).*1 = (plugin_pairs h t datas tot false n).*1.
Proof using Type.
  assert (∀ (f g : Transaction → ReceiptData → Z → LocalKV) txs i rs, (∀ tx r i, (f tx r i).*1 = (g tx r i).*1) →
    (over f i txs rs).*1 = (over g i txs rs).*1) as H.
  { intros f g txs. induction txs as [|tx txs IH]; intros i [|r rs] Hfg; cbn [over]; try done.
    rewrite !fmap_app, (Hfg tx r i). f_equal. by apply IH. }
  unfold plugin_pairs. destruct (String.eqb n "txindex"); [|destruct (String.eqb n "addrindex"); [|by destruct (String.eqb n "fee")]].
  - apply H. intros tx r i. unfold tx_pairs. by destruct quickIndex.
  - apply H. intros tx _ i. unfold addr_pairs, addr_pair. rewrite !fmap_app. f_equal; by destruct (String.length _ =? 0)%nat.
Qed.

Lemma block_pairs_keys : (block_pairs true).*1 = (block_pairs false).*1.
Proof using Type.
  unfold block_pairs, all_pairs. induction plugin_names as [|n ns IH]; [done|]. rewrite !bind_cons, !fmap_app, IH. f_equal.
  destruct (pluginEnable _ _ _ n); [apply plugin_pairs_keys|done].
Qed.

Lemma block_pairs_nil k v : (k, v) ∈ block_pairs false → v = None.
Proof using Type.
  unfold block_pairs, all_pairs. intros (n & Hn & _)%list_elem_of_bind.
  destruct (pluginEnable _ _ _ n); [|by apply elem_of_nil in Hn]. revert Hn. unfold plugin_pairs.
  destruct (String.eqb n "txindex"); [|destruct (String.eqb n "addrindex"); [|destruct (String.eqb n "fee")]].
  - intros (j & tx & r & _ & _ & Hp)%over_elem. unfold tx_pairs in Hp. apply elem_of_cons in Hp as [[= _ ->]|Hp]; [done|].
    destruct quickIndex; [|by apply elem_of_nil in Hp]. by apply list_elem_of_singleton in Hp as [= _ ->].
  - intros (j & tx & r & _ & _ & Hp)%over_elem. unfold addr_pairs in Hp.
    by apply elem_of_app in Hp as [Hp|Hp]; apply addr_pair_elem in Hp as (_ & -> & _).
  - by intros [= _ ->]%list_elem_of_singleton.
  - by intros ?%elem_of_nil.
Qed.

(** A pair of the block is stored, if nothing else is under its key. *)
Lemma shape_stored ps kvs m k v : shape ps kvs → (k, v) ∈ ps → special_key k = false → count_key k = false →
  (∀ v', (k, v') ∈ ps → v' = v) → GoMemDB.apply_kvs kvs m !! k = v.
Proof using Type.
  intros [H1 H2] Hin Hs Hc Hf. rewrite GoMemDB.lookup_apply_kvs. destruct (GoMemDB.last_write k kvs) as [w|] eqn:E.
  - apply GoMemDB.last_write_Some in E. destruct (H1 k w E) as [?|[[? _]|Hw]]; [congruence|congruence|by apply Hf].
  - apply GoMemDB.last_write_None in E. destruct E. apply list_elem_of_fmap. exists (k, v). auto.
Qed.
Lemma shape_kept ps kvs m k : shape ps kvs → k ∉ ps.*1 → special_key k = false → count_key k = false →
  GoMemDB.apply_kvs kvs m !! k = m !! k.
Proof using Type.
  intros [H1 _] Hn Hs Hc. rewrite GoMemDB.lookup_apply_kvs. destruct (GoMemDB.last_write k kvs) as [w|] eqn:E; [|done].
  apply GoMemDB.last_write_Some in E. destruct (H1 k w E) as [?|[[? _]|Hw]]; [congruence|congruence|].
  destruct Hn. apply list_elem_of_fmap. by exists (k, w).
Qed.
End Detail.

(** The keys under which the transactions and the fee of a block are filed. *)
Definition index_keys (datas : BlockDetail) : list bytes := (block_pairs datas ∅ false).*1.
Lemma index_keys_eq datas main isadd : (block_pairs datas main isadd).*1 = index_keys datas.
Proof using Type.
  assert (∀ m m', block_pairs datas m false = block_pairs datas m' false) as H by done.
  unfold index_keys. rewrite (H ∅ main). destruct isadd; [apply block_pairs_keys|done].
Qed.

(** C15. Disconnecting a block undoes the local data of connecting it, whatever the drivers
    do and in whichever order the plugins run: when the keys of its transactions are not yet
    in use, the pairs [procExecAddBlock] returns and then those [procExecDelBlock] returns,
    applied to the database, leave every key as it was - apart from the keys that belong to
    drivers, to [mvcc] and the flags - and every address has its old number of transactions. *)
Theorem local_data_undo order1 order2 datas main f1 f2 kvs1 kvs2 s1 s2 :
  any_order order1 → any_order order2 →
  (∀ tx, tx ∈ Txs (bd_Block datas) → read_key (CalcTxKey (Hash tx)) = false) →
  (∀ k, k ∈ index_keys datas → main !! k = None) →
  (∀ a c, addr_count (main !! CalcAddrTxsCountKey a) = Some c → in64 c) →
  let main1 := GoMemDB.apply_kvs kvs1 main in
  let main2 := GoMemDB.apply_kvs kvs2 main1 in
  procExecAddBlock EnableStat EnableMVCC DisableAddrIndex order1 datas (NewLocalDB (Remote.NewLocalDB main)) f1 = (Ret kvs1, s1) →
  procExecDelBlock EnableStat EnableMVCC DisableAddrIndex order2 datas (NewLocalDB (Remote.NewLocalDB main1)) f2 = (Ret kvs2, s2) →
  (∀ k, special_key k = false → count_key k = false → main2 !! k = main !! k) ∧
  (∀ a, addr_count (main2 !! CalcAddrTxsCountKey a) = addr_count (main !! CalcAddrTxsCountKey a)).
Proof using Type.
  intros Ho1 Ho2 Hk Hfresh Hin main1 main2 E1 E2.
  destruct (add_block_shape datas main Hk order1 f1 kvs1 s1 Ho1 E1) as (S1 & C1 & _ & _).
  destruct (del_block_shape datas main Hk order2 main1 f2 kvs2 s2 Ho2 E2) as (S2 & C2). split.
  - intros k Hs Hc. destruct (decide (k ∈ index_keys datas)) as [Hi|Hi].
    + rewrite (Hfresh k Hi). rewrite <-(index_keys_eq datas main false) in Hi.
      apply list_elem_of_fmap in Hi as ([k' v] & -> & Hi). pose proof (block_pairs_nil datas main k' v Hi) as ->.
      eapply shape_stored; [exact S2|exact Hi|done|done|]. intros v'. apply block_pairs_nil.
    + unfold main2. rewrite (shape_kept _ _ _ k S2) by (by rewrite ?index_keys_eq).
      unfold main1. by rewrite (shape_kept _ _ _ k S1) by (by rewrite ?index_keys_eq).
  - intros a. unfold main2. rewrite (C2 a). unfold main1. rewrite (C1 a). pose proof (Hin a) as Ha.
    destruct (addr_count (main !! CalcAddrTxsCountKey a)) as [c|]; [|done]. cbn [fmap option_fmap option_map].
    by rewrite bumps_undo by (by apply Ha).
Qed.

(** *** Reading the pairs of a block *)

Section Stored.
Context (datas : BlockDetail) (main : gmap bytes bytes).
Let b := bd_Block datas.
Context (quick : quickIndex = true) (unique : NoDup (Hash <$> Txs b)).
Context (low : 0 <= b_Height b ∧ (b_Height b + 1) * MaxTxsPerBlock <= 10 ^ 18) (few : Z.of_nat (length (Txs b)) <= MaxTxsPerBlock).

Definition tx_number (i : nat) : string := pad18 (b_Height b * MaxTxsPerBlock + Z.of_nat i).
Definition tx_value (i : nat) (tx : Transaction) (r : ReceiptData) : bytes :=
  TxResult_Encode (mkTxResult (b_Height b) (Z.of_nat i) tx r (BlockTime b) (ActionName tx)).
Definition info_value (i : nat) (tx : Transaction) : bytes :=
  ReplyTxInfo_Encode (mkReplyTxInfo (Hash tx) (b_Height b) (Z.of_nat i) (GetAssets tx)).

(** The forms of the pairs. *)
Definition pair_form (k : bytes) (v : option bytes) (i : nat) (tx : Transaction) (r : ReceiptData) : Prop :=
  (k = TxHashPerfix +:+ Hash tx ∧ v = Some (tx_value i tx r)) ∨ (k = short_key (Hash tx) ∧ v = Some "1") ∨
  (v = Some (info_value i tx) ∧ ∃ p, k = "TxAddr" +:+ p +:+ tx_number i).

Lemma number_range i tx : Txs b !! i = Some tx → 0 <= b_Height b * MaxTxsPerBlock + Z.of_nat i < 10 ^ 18 ∧ Z.of_nat i < 2 ^ 31 ∧
  wrap64 (b_Height b * MaxTxsPerBlock) +₆₄ (0 + Z.of_nat i) = b_Height b * MaxTxsPerBlock + Z.of_nat i.
Proof using few low.
  intros Hi%lookup_lt_Some. unfold MaxTxsPerBlock in *. split_and!; [lia|lia|lia|].
  rewrite (wrap64_id (b_Height b * 100000)) by (unfold in64; lia). rewrite wrap64_id; unfold in64; lia.
Qed.

Lemma index_eq i tx : Txs b !! i = Some tx →
  heightstr (getTxIndex (b_Height b) tx (0 + Z.of_nat i)) = tx_number i ∧
  ReplyTxInfo_Encode (ti_index (getTxIndex (b_Height b) tx (0 + Z.of_nat i))) = info_value i tx.
Proof using few low. intros Hi. destruct (number_range i tx Hi) as (_ & _ & E). unfold getTxIndex, tx_number, info_value. simpl in *. by rewrite E. Qed.

Lemma addr_key_form addr flag i :
  CalcTxAddrDirHashKey addr flag (tx_number i) = "TxAddr" +:+ ("DirHash:" +:+ addr +:+ ":" +:+ decw 1 flag +:+ ":") +:+ tx_number i ∧
  CalcTxAddrHashKey addr (tx_number i) = "TxAddr" +:+ ("Hash:" +:+ addr +:+ ":") +:+ tx_number i.
Proof using Type.
  unfold CalcTxAddrDirHashKey, CalcTxAddrHashKey, TxAddrDirHash, TxAddrHash. rewrite !str_app_assoc. split; reflexivity.
Qed.

Lemma addr_pair_form addr flag i tx r k v : Txs b !! i = Some tx →
  (k, v) ∈ addr_pair true addr flag (getTxIndex (b_Height b) tx (0 + Z.of_nat i)) → pair_form k v i tx r.
Proof using few low.
  intros Hi (_ & -> & Hk)%addr_pair_elem. destruct (index_eq i tx Hi) as [E1 E2]. rewrite E1 in Hk. rewrite E2.
  right; right. split; [done|]. destruct (addr_key_form addr flag i) as [F1 F2]. destruct Hk as [->| ->]; [rewrite F1|rewrite F2]; eauto.
Qed.

Lemma block_pairs_form k v : (k, v) ∈ block_pairs datas main true →
  (∃ i tx r, Txs b !! i = Some tx ∧ Receipts datas !! i = Some r ∧ pair_form k v i tx r) ∨
  (k = TotalFeeKey (b_Hash b) ∧ v = Some (Encode (fee_sum datas (total_before datas main)))).
Proof using few low quick.
  unfold block_pairs, all_pairs. intros (n & Hn & _)%list_elem_of_bind.
  destruct (pluginEnable _ _ _ n); [|by apply elem_of_nil in Hn]. revert Hn. unfold plugin_pairs.
  destruct (String.eqb n "txindex"); [|destruct (String.eqb n "addrindex"); [|destruct (String.eqb n "fee")]].
  - intros (i & tx & r & Hi & Hr & Hp)%over_elem. left. exists i, tx, r. split_and!; [done|done|].
    destruct (number_range i tx Hi) as (_ & H32 & _). unfold tx_pairs, CalcTxKey in Hp. rewrite quick in Hp.
    apply elem_of_cons in Hp as [[= -> ->]|[= -> ->]%list_elem_of_singleton].
    + left. split; [done|]. unfold tx_value. by rewrite wrap32_id by (unfold in32; lia).
    + right; by left.
  - intros (i & tx & r & Hi & Hr & Hp)%over_elem. left. exists i, tx, r. split_and!; [done|done|]. unfold addr_pairs in Hp.
    apply elem_of_app in Hp as [Hp|Hp]; by eapply addr_pair_form.
  - intros [= -> ->]%list_elem_of_singleton. by right.
  - by intros ?%elem_of_nil.
Qed.

Lemma tx_number_inj i j tx tx' : Txs b !! i = Some tx → Txs b !! j = Some tx' → tx_number i = tx_number j → i = j.
Proof using few low.
  intros Hi Hj. destruct (number_range i tx Hi) as (Ri & _), (number_range j tx' Hj) as (Rj & _). unfold tx_number, pad18.
  revert Ri Rj. generalize (b_Height b * MaxTxsPerBlock). intros z Ri Rj.
  rewrite !(proj2 (Z.ltb_ge _ _)), !(proj2 (Z.leb_gt (10 ^ 18) _)) by lia.
  assert (∀ x, Nat.max 18 (if 10 ^ 17 <=? x then 18 else 17) = 18%nat) as Hm by (intros x; by destruct (10 ^ 17 <=? x)).
  rewrite !Hm. intros E. pose proof (decw_lt 18 (z + Z.of_nat i) (z + Z.of_nat j) ltac:(lia) ltac:(lia)) as H1.
  pose proof (decw_lt 18 (z + Z.of_nat j) (z + Z.of_nat i) ltac:(lia) ltac:(lia)) as H2. rewrite E in H1, H2.
  assert (∀ x, ¬ bytes_lt x x) as Hirr by (intros x; exact (irreflexivity (dlt false) x)).
  specialize (Hirr (decw 18 (z + Z.of_nat j))). destruct (Z.lt_trichotomy (Z.of_nat i) (Z.of_nat j)) as [H|[H|H]]; [|lia|].
  - destruct Hirr. apply H1. lia.
  - destruct Hirr. apply H2. lia.
Qed.
Lemma tx_number_length i tx : Txs b !! i = Some tx → String.length (tx_number i) = 18%nat.
Proof using few low.
  intros Hi. destruct (number_range i tx Hi) as (Ri & _). unfold tx_number, pad18.
  rewrite (proj2 (Z.ltb_ge _ _)), (proj2 (Z.leb_gt (10 ^ 18) _)) by lia. rewrite decw_length. by destruct (10 ^ 17 <=? _).
Qed.

(** One value per key. *)
Lemma pair_form_fun k v v' i j tx tx' r r' :
  Txs b !! i = Some tx → Txs b !! j = Some tx' → Receipts datas !! i = Some r → Receipts datas !! j = Some r' →
  pair_form k v i tx r → pair_form k v' j tx' r' → v = v'.
Proof using few low unique.
  intros Hi Hj Hr Hr'. assert (Hash tx = Hash tx' → i = j) as Hh.
  { intros H. eapply (NoDup_lookup _ _ _ (Hash tx) unique); [by rewrite list_lookup_fmap, Hi|by rewrite list_lookup_fmap, Hj, H]. }
  intros [[-> ->]|[[-> ->]|[-> (p & ->)]]] [[E ->]|[[E ->]|[-> (q & E)]]]; try discriminate E; try done.
  - injection E as E. apply Hh in E as <-. by simplify_eq.
  - apply str_app_inj_l in E. apply str_app_inj_len in E as [_ E].
    + apply (tx_number_inj i j tx tx' Hi Hj) in E as <-. by simplify_eq.
    + by rewrite (tx_number_length i tx), (tx_number_length j tx').
Qed.
Lemma form_plain k v i tx r : pair_form k v i tx r → special_key k = false ∧ count_key k = false ∧ fee_key k = false.
Proof using Type.
  unfold special_key, count_key, fee_key. intros [[-> _]|[[-> _]|[_ (p & ->)]]];
    rewrite !bool_decide_false by (intros E; cbn in E; discriminate E); by split_and!.
Qed.

Lemma in_block_pairs n p : n ∈ plugin_names → pluginEnable EnableStat EnableMVCC DisableAddrIndex n = true →
  p ∈ plugin_pairs (b_Height b) (BlockTime b) datas (total_before datas main) true n → p ∈ block_pairs datas main true.
Proof using Type. intros Hn He Hp. unfold block_pairs, all_pairs. apply list_elem_of_bind. exists n. by rewrite He. Qed.

Lemma form_stored kvs k v i tx r :
  shape (block_pairs datas main true) kvs → Txs b !! i = Some tx → Receipts datas !! i = Some r → pair_form k v i tx r →
  (k, v) ∈ block_pairs datas main true → GoMemDB.apply_kvs kvs main !! k = v.
Proof using few low quick unique.
  intros Hs Hi Hr Hf Hin. destruct (form_plain k v i tx r Hf) as (H1 & H2 & H3). eapply shape_stored; [done|done|done|done|].
  intros v' [(j & tx' & r' & Hj & Hr' & Hf')|[-> _]]%block_pairs_form.
  - symmetry. exact (pair_form_fun k v v' i j tx tx' r r' Hi Hj Hr Hr' Hf Hf').
  - unfold fee_key, TotalFeeKey in H3. by rewrite str_prefix_app in H3.
Qed.

Lemma fee_stored kvs : shape (block_pairs datas main true) kvs →
  GoMemDB.apply_kvs kvs main !! TotalFeeKey (b_Hash b) = Some (Encode (fee_sum datas (total_before datas main))).
Proof using few low quick.
  intros Hs. eapply shape_stored; [exact Hs| |apply fee_not_special|reflexivity|].
  - apply (in_block_pairs "fee"); [apply (bool_decide_unpack _); reflexivity|done|]. by left.
  - intros v' [(j & tx' & r' & _ & _ & Hf)|[_ ->]]%block_pairs_form; [|done]. apply form_plain in Hf as (_ & _ & H).
    unfold fee_key, TotalFeeKey in H. by rewrite str_prefix_app in H.
Qed.

(** What is found for a transaction. *)
Record indexed (m : gmap bytes bytes) (i : nat) (tx : Transaction) (r : ReceiptData) : Prop := {
  ix_tx : m !! CalcTxKey (Hash tx) = Some (tx_value i tx r);
  ix_short : m !! short_key (Hash tx) = Some "1";
  ix_addr : DisableAddrIndex = false → ∀ a, a ∈ addrs_of tx → m !! CalcTxAddrHashKey a (tx_number i) = Some (info_value i tx);
  ix_from : DisableAddrIndex = false → tx_From tx ≠ "" → m !! CalcTxAddrDirHashKey (tx_From tx) TxIndexFrom (tx_number i) = Some (info_value i tx);
  ix_to : DisableAddrIndex = false → GetRealToAddr tx ≠ "" → m !! CalcTxAddrDirHashKey (GetRealToAddr tx) TxIndexTo (tx_number i) = Some (info_value i tx)
}.

Lemma tx_indexed kvs i tx r : shape (block_pairs datas main true) kvs → Txs b !! i = Some tx → Receipts datas !! i = Some r →
  indexed (GoMemDB.apply_kvs kvs main) i tx r.
Proof using few low quick unique.
  intros Hs Hi Hr. assert (∀ k v, (k, v) ∈ tx_pairs (b_Height b) (BlockTime b) true tx r (0 + Z.of_nat i) → pair_form k v i tx r →
      GoMemDB.apply_kvs kvs main !! k = v) as Htx.
  { intros k v Hp Hf. eapply form_stored; [done|done|done|exact Hf|]. apply (in_block_pairs "txindex"); [apply (bool_decide_unpack _); reflexivity|done|].
    unfold plugin_pairs. cbn [String.eqb Ascii.eqb Bool.eqb]. apply over_elem. eauto 6. }
  assert (DisableAddrIndex = false → ∀ k v, (k, v) ∈ addr_pairs (b_Height b) true tx (0 + Z.of_nat i) →
      GoMemDB.apply_kvs kvs main !! k = v) as Hax.
  { intros Hd k v Hp. eapply form_stored; [done|done|done| |].
    - unfold addr_pairs in Hp. apply elem_of_app in Hp as [Hp|Hp]; by eapply addr_pair_form.
    - apply (in_block_pairs "addrindex"); [apply (bool_decide_unpack _); reflexivity|by unfold pluginEnable; rewrite Hd|].
      unfold plugin_pairs. cbn [String.eqb Ascii.eqb Bool.eqb]. apply over_elem. eauto 6. }
  destruct (index_eq i tx Hi) as [E1 E2]. destruct (number_range i tx Hi) as (_ & H32 & _).
  split.
  - apply Htx; [|left; unfold CalcTxKey; by rewrite quick]. unfold tx_pairs, tx_value. rewrite wrap32_id by (unfold in32; lia). left.
  - apply Htx; [|right; by left]. unfold tx_pairs. rewrite quick. right. by left.
  - intros Hd a Ha. apply Hax; [done|]. unfold addr_pairs. unfold addrs_of, named in Ha. apply elem_of_app.
    apply elem_of_app in Ha as [Ha|Ha]; [left|right]; destruct (String.length _ =? 0)%nat eqn:El; try (by apply elem_of_nil in Ha);
      apply list_elem_of_singleton in Ha as ->; apply addr_pair_elem; rewrite E1, E2; (split_and!; [|done|by right]).
    + intros E. change (tx_From tx = "") in E. by rewrite E in El.
    + intros E. change (GetRealToAddr tx = "") in E. by rewrite E in El.
  - intros Hd Ha. apply Hax; [done|]. unfold addr_pairs. apply elem_of_app. left. apply addr_pair_elem. rewrite E1, E2. split_and!; [done|done|by left].
  - intros Hd Ha. apply Hax; [done|]. unfold addr_pairs. apply elem_of_app. right. apply addr_pair_elem. rewrite E1, E2. split_and!; [done|done|by left].
Qed.
End Stored.

Lemma counted_addrs_eq datas : counted_addrs datas = if DisableAddrIndex then [] else counting (Txs (bd_Block datas) ≫= addrs_of).
Proof using Type.
  unfold counted_addrs, all_addrs, plugin_names, pluginEnable, plugin_addrs. cbn. fold (block_addrs datas).
  destruct DisableAddrIndex, EnableStat, EnableMVCC; cbn; by rewrite ?app_nil_r.
Qed.

(** C23. The local data of a block that is connected: with the quick index, for a block of
    distinct transactions and in whichever order the plugins run, every transaction is found
    by its hash with its result, by its short hash, and - if the address index is enabled -
    under each of its addresses by height and place; the number of transactions of an address
    grows by the times it occurs; and the total fee is that of the parent block plus the fees
    of the block. *)
Theorem local_data_add order datas main f kvs s' :
  let b := bd_Block datas in
  let main1 := GoMemDB.apply_kvs kvs main in
  quickIndex = true → any_order order → NoDup (Hash <$> Txs b) →
  0 <= b_Height b ∧ (b_Height b + 1) * MaxTxsPerBlock <= 10 ^ 18 → Z.of_nat (length (Txs b)) <= MaxTxsPerBlock →
  procExecAddBlock EnableStat EnableMVCC DisableAddrIndex order datas (NewLocalDB (Remote.NewLocalDB main)) f = (Ret kvs, s') →
  (∀ i tx, Txs b !! i = Some tx → ∃ r, Receipts datas !! i = Some r ∧ indexed datas main1 i tx r) ∧
  (∀ a, addr_count (main1 !! CalcAddrTxsCountKey a) =
        bumps true (occ a (if DisableAddrIndex then [] else counting (Txs b ≫= addrs_of))) <$> addr_count (main !! CalcAddrTxsCountKey a)) ∧
  (∃ total, fee_total (main !! parent_key datas) = Some total ∧
     main1 !! TotalFeeKey (b_Hash b) = Some (Encode (fee_sum datas total))).
Proof using Type.
  intros b main1 Hq Ho Hu Hlow Hfew E.
  assert (∀ tx, tx ∈ Txs (bd_Block datas) → read_key (CalcTxKey (Hash tx)) = false) as Hk by (intros tx _; unfold CalcTxKey; by rewrite Hq).
  destruct (add_block_shape datas main Hk order f kvs s' Ho E) as (S & C & [t Ht] & Hl). split_and!.
  - intros i tx Hi. destruct (lookup_lt_is_Some_2 (Receipts datas) i) as [r Hr].
    { apply lookup_lt_Some in Hi. unfold b in Hi. lia. }
    exists r. split; [done|]. by apply tx_indexed.
  - intros a. unfold main1. by rewrite (C a), counted_addrs_eq.
  - exists t. split; [done|]. unfold main1, b. rewrite (fee_stored datas main Hq Hlow Hfew kvs S). unfold total_before. by rewrite Ht.
Qed.
End Handlers.

(** ** A concrete block: that of [ExecutorDemo], of five payments, on a database that knows
    the total fee of the parent block and seven transactions of bob *)

Module PluginDemo.
#[local] Existing Instance ExecutorDemo.env.
#[export] Instance TotalFee_eq_dec : EqDecision TotalFee.
Proof. solve_decision. Defined.
#[export] Instance TotalFee_countable : Countable TotalFee.
Proof. apply (inj_countable' (λ t, (tf_Fee t, tf_TxCount t)) (λ p, mkTotalFee p.1 p.2)). by intros []. Defined.

#[export] Instance penv : PluginEnv.
Proof.
  refine {| quickIndex := true; dbversion := 1; ActionName _ := "transfer"; GetAssets _ := []; codec_Int64 := countable_codec;
    codec_KeyList := countable_codec; codec_TotalFee := countable_codec;
    TxResult_Encode t := pad (tr_Height t) +:+ pad (tr_Index t) +:+ To (tr_Tx t); ReplyTxInfo_Encode t := pad (ri_Index t) +:+ ri_Hash t |}.
  intros z H. pose proof (@Decode_Encode _ countable_codec z) as H1. rewrite H in H1.
  pose proof (@Decode_Encode _ countable_codec 0) as H2. change (Encode (Codec := countable_codec) 0) with "" in H2. congruence.
Defined.

Definition datas : BlockDetail := Eval vm_compute in ExecutorDemo.detail.
Definition main : gmap bytes bytes :=
  {[TotalFeeKey (ParentHash (bd_Block datas)) := Encode (mkTotalFee 500 3); CalcAddrTxsCountKey "bob" := Encode 7]}.
Definition forwards : plugin_order := globalPlugins.
Definition backwards : plugin_order := λ h t, reverse (globalPlugins h t).
Definition added := procExecAddBlock false false false forwards datas (NewLocalDB (Remote.NewLocalDB main)) (mkFlags 0 0).
Definition kvs1 : LocalKV := match added.1 with Ret kvs => kvs | _ => [] end.
Definition main1 : gmap bytes bytes := GoMemDB.apply_kvs kvs1 main.
Definition deleted := procExecDelBlock false false false backwards datas (NewLocalDB (Remote.NewLocalDB main1)) (mkFlags 0 0).
Definition kvs2 : LocalKV := match deleted.1 with Ret kvs => kvs | _ => [] end.
Definition main2 : gmap bytes bytes := GoMemDB.apply_kvs kvs2 main1.

Lemma is_ret (p : outcome LocalKV * PS) : match p.1 with Ret _ => true | _ => false end = true →
  p = (Ret (match p.1 with Ret kvs => kvs | _ => [] end), p.2).
Proof. by destruct p as [[]]. Qed.
Lemma added_eq : added = (Ret kvs1, added.2).
Proof. apply is_ret. vm_compute. reflexivity. Qed.
Lemma deleted_eq : deleted = (Ret kvs2, deleted.2).
Proof. apply is_ret. vm_compute. reflexivity. Qed.
Lemma orders : any_order forwards ∧ any_order backwards.
Proof. split; intros h t; [done|]. unfold backwards. apply reverse_Permutation. Qed.
Lemma counts_ok a c : addr_count (main !! CalcAddrTxsCountKey a) = Some c → in64 c.
Proof.
  unfold main. rewrite lookup_insert_ne by (intros E; cbn in E; discriminate E).
  destruct (decide (a = "bob")) as [->|Hne].
  - rewrite lookup_singleton_eq, addr_count_Encode. intros [= <-]. unfold in64. lia.
  - rewrite lookup_singleton_ne by (intros ?%count_key_inj; congruence). intros [= <-]. unfold in64. lia.
Qed.
Lemma fresh_ok k : k ∈ index_keys false false false datas → main !! k = None.
Proof.
  revert k. apply list.Forall_forall. apply (bool_decide_unpack _). vm_compute. reflexivity.
Qed.

(** Connecting adds thirty-one index entries and the counts; disconnecting in another order
    of plugins takes them away. *)
Lemma local_data_undo_witness :
  (length (index_keys false false false datas) = 31)%nat ∧ main1 !! TotalFeeKey (b_Hash (bd_Block datas)) ≠ None ∧
  (∀ k, special_key k = false → count_key k = false → main2 !! k = main !! k) ∧
  addr_count (main1 !! CalcAddrTxsCountKey "bob") = Some 8 ∧ addr_count (main2 !! CalcAddrTxsCountKey "bob") = Some 7.
Proof.
  destruct (local_data_undo false false false forwards backwards datas main (mkFlags 0 0) (mkFlags 0 0) kvs1 kvs2 added.2 deleted.2
    (proj1 orders) (proj2 orders) ltac:(intros; reflexivity) fresh_ok counts_ok added_eq deleted_eq) as [H1 H2].
  split; [vm_compute; reflexivity|]. split; [vm_compute; discriminate|]. split; [exact H1|]. split; [vm_compute; reflexivity|].
  etrans; [exact (H2 "bob")|]. vm_compute. reflexivity.
Defined.

Lemma local_data_add_witness :
  ∃ tx r, Txs (bd_Block datas) !! 2%nat = Some tx ∧ To tx = "dave" ∧ indexed false datas main1 2 tx r ∧
    addr_count (main1 !! CalcAddrTxsCountKey "alice") = Some 5 ∧
    main1 !! TotalFeeKey (b_Hash (bd_Block datas)) = Some (Encode (mkTotalFee 500500 8)).
Proof.
  destruct (local_data_add false false false forwards datas main (mkFlags 0 0) kvs1 added.2 (eq_refl : @quickIndex penv = true) (proj1 orders)
    ltac:(apply (bool_decide_unpack _); vm_compute; reflexivity) ltac:(split; vm_compute; congruence) ltac:(vm_compute; congruence) added_eq)
    as (H1 & H2 & H3).
  destruct (H1 2%nat _ ltac:(vm_compute; reflexivity)) as (r & _ & Hr). eexists _, r.
  split; [vm_compute; reflexivity|]. split; [reflexivity|]. split; [exact Hr|]. split; vm_compute; reflexivity.
Defined.
End PluginDemo.
