(* ===== verification/BlockStore.v ===== *)
(** The block store ([blockchain/blockstore.go]): block headers and bodies by hash, the
    main chain by height, total difficulties, and the log of added and deleted blocks.

    Writes to disk succeed; a batch is the list of its operations. *)

From Stdlib Require Import Ascii String.
From stdpp Require Import pretty.
From S2P Require Import Prelude Types KVStore Account Tx Merkle Block Difficulty.
Local Open Scope Z_scope.

(** [type BlockBody struct], [type BlockSequence struct] *)
Record BlockBody := mkBody { bb_Txs : list Transaction; bb_Receipts : list ReceiptData; bb_MainHash : bytes; bb_MainHeight : Z }.
Record BlockSequence := mkSeq { bs_Hash : bytes; bs_Type : Z }.

Definition norm_body (b : BlockBody) : BlockBody :=
  mkBody (norm <$> bb_Txs b) (bb_Receipts b) (bb_MainHash b) (bb_MainHeight b).

(** Wire formats. *)
Class StoreEnv := {
  se_block :: BlockEnv;
  se_header :: Codec BHeader;
  (** an empty field of a transaction reads back as nil *)
  body_Encode : BlockBody → bytes;
  body_Decode : bytes → option BlockBody;
  body_Decode_Encode : ∀ b, body_Decode (body_Encode b) = Some (norm_body b);
  se_int64 :: Codec Z;
  se_seq :: Codec BlockSequence;
  (** integers in the format of old databases *)
  json_int : bytes → option Z
}.

(** The options of the chain; [IsPara] is the one of the chain's title. *)
Record ChainConfig := { isRecordBlockSequence : bool; isParaChain : bool; cc_IsPara : bool; quickIndex : bool }.

Definition AddBlock : Z := 1.
Definition DelBlock_ : Z := 2.

(** ** Keys *)

Definition blockLastHeight : bytes := "blockLastHeight".
Definition LastSequence : bytes := "LastSequence".
Definition calcHashToBlockBodyKey (hash : bytes) : bytes := ("Body:" +:+ hash)%string.
Definition calcHashToBlockHeaderKey (hash : bytes) : bytes := ("Header:" +:+ hash)%string.
Definition calcHashToHeightKey (hash : bytes) : bytes := ("Hash:" +:+ hash)%string.
Definition calcHashToTdKey (hash : bytes) : bytes := ("TD:" +:+ hash)%string.
Definition calcHeightToHashKey (height : Z) : bytes := ("Height:" +:+ pretty height)%string.
Definition calcSequenceToHashKey (sequence : Z) : bytes := ("Seq:" +:+ pretty sequence)%string.
Definition calcHashToSequenceKey (hash : bytes) : bytes := ("HashToSeq:" +:+ hash)%string.

(** [%012d] *)
Fixpoint zeros (n : nat) : string := match n with O => EmptyString | S n => String "0" (zeros n) end.
Definition pad (n : nat) (s : string) : string := (zeros (n - String.length s) +:+ s)%string.
Definition pad12 (z : Z) : string := if z <? 0 then String "-" (pad 11 (pretty (- z))) else pad 12 (pretty z).
Definition calcHeightToBlockHeaderKey (height : Z) : bytes := ("HH:" +:+ pad12 height)%string.

(** ** Batches *)

Inductive bop := BSet (k v : bytes) | BDel (k : bytes).
Definition apply_bop (db : gmap bytes bytes) (o : bop) : gmap bytes bytes :=
  match o with BSet k v => <[k := v]> db | BDel k => delete k db end.
Definition write (db : gmap bytes bytes) (batch : list bop) : gmap bytes bytes := foldl apply_bop db batch.

(** ** Big integers as bytes: [big.Int.Bytes] and [SetBytes] *)

Fixpoint big_bytes (fuel : nat) (n : N) (acc : bytes) : bytes :=
  match fuel with
  | O => acc
  | S fuel => if (n =? 0)%N then acc else big_bytes fuel (n / 256) (String (ascii_of_N (n mod 256)) acc)
  end.
Definition big_Bytes (z : Z) : bytes := big_bytes (N.size_nat (Z.abs_N z)) (Z.abs_N z) EmptyString.
Fixpoint big_set (acc : N) (s : bytes) : N :=
  match s with EmptyString => acc | String c s => big_set (acc * 256 + N_of_ascii c) s end.
Definition big_SetBytes (s : bytes) : Z := Z.of_N (big_set 0 s).

(** ** The store *)

(** [type BlockStore struct] *)
Record BlockStore := mkBS { bs_db : gmap bytes bytes; bs_height : Z; lastBlock : option Block }.

Section BlockStore.
Context {ENV : StoreEnv} (C : ChainConfig).

Definition decodeHeight (heightbytes : bytes) : outcome Z :=
  match Decode heightbytes with
  | Some height => Ret height
  | None => match json_int heightbytes with Some h => Ret h | None => Err (ErrOther "ErrUnmarshal") end
  end.

Definition LoadBlockStoreHeight (db : gmap bytes bytes) : outcome Z :=
  match db !! blockLastHeight with
  | None => Err (ErrOther "ErrHeightNotExist")
  | Some b => decodeHeight b
  end.

Definition LoadBlockLastSequence (bs : BlockStore) : outcome Z :=
  match bs_db bs !! LastSequence with
  | None => Err (ErrOther "ErrHeightNotExist")
  | Some b => decodeHeight b
  end.

Definition GetHeightByBlockHash (bs : BlockStore) (hash : bytes) : outcome Z :=
  match bs_db bs !! calcHashToHeightKey hash with
  | None => Err (ErrOther "ErrHashNotExist")
  | Some b => decodeHeight b
  end.

Definition GetBlockHashByHeight (bs : BlockStore) (height : Z) : outcome bytes :=
  match bs_db bs !! calcHeightToHashKey height with
  | None => Err (ErrOther "ErrHeightNotExist")
  | Some hash => Ret hash
  end.

Definition GetBlockHeaderByHash (bs : BlockStore) (hash : bytes) : outcome BHeader :=
  match bs_db bs !! calcHashToBlockHeaderKey hash with
  | None => Err (ErrOther "ErrHashNotExist")
  | Some b => match Decode b with Some h => Ret h | None => Err (ErrOther "proto") end
  end.

(** A header found under its hash only is stored under its height as well. *)
Definition GetBlockHeaderByHeight (bs : BlockStore) (height : Z) : outcome BHeader * BlockStore :=
  let found (b : bytes) (old : bool) : outcome BHeader * BlockStore :=
    match Decode b with
    | None => (Err (ErrOther "proto"), bs)
    | Some h =>
        (Ret h, if old then mkBS (<[calcHeightToBlockHeaderKey height := b]> (bs_db bs)) (bs_height bs) (lastBlock bs) else bs)
    end in
  match bs_db bs !! calcHeightToBlockHeaderKey height with
  | Some b => found b false
  | None =>
      match GetBlockHashByHeight bs height with
      | Ret hash =>
          match bs_db bs !! calcHashToBlockHeaderKey hash with
          | Some b => found b true
          | None => (Err (ErrOther "ErrHashNotExist"), bs)
          end
      | Err e => (Err e, bs)
      | Panic => (Panic, bs)
      end
  end.

Definition LoadBlockByHash (bs : BlockStore) (hash : bytes) : outcome BlockDetail :=
  match bs_db bs !! calcHashToBlockHeaderKey hash with
  | None => Err (ErrOther "ErrHashNotExist")
  | Some header =>
      match Decode header with
      | None => Err (ErrOther "proto")
      | Some h =>
          match bs_db bs !! calcHashToBlockBodyKey hash with
          | None => Err (ErrOther "ErrHashNotExist")
          | Some body =>
              match body_Decode body with
              | None => Err (ErrOther "proto")
              | Some b =>
                  Ret (mkBD (mkBlock (h_Version h) (h_ParentHash h) (h_TxHash h) (h_StateHash h) (h_Height h)
                               (h_BlockTime h) (h_Difficulty h) (bb_MainHash b) (bb_MainHeight b) (h_Signature h) (bb_Txs b))
                         (bb_Receipts b) [] "")
              end
          end
      end
  end.

Definition LoadBlockByHeight (bs : BlockStore) (height : Z) : outcome BlockDetail :=
  hash ← GetBlockHashByHeight bs height; LoadBlockByHash bs hash.

(** The body and the header of a block as they are stored. *)
Definition body_of (d : BlockDetail) : BlockBody :=
  let b := bd_Block d in
  mkBody (Txs b) (Receipts d) (if cc_IsPara C then MainHash b else b_Hash b) (if cc_IsPara C then MainHeight b else b_Height b).
Definition header_of (b : Block) : BHeader :=
  mkHeader (Version b) (ParentHash b) (TxHash b) (StateHash b) (b_Height b) (BlockTime b)
    (Z.of_nat (length (Txs b))) (b_Hash b) (b_Difficulty b) (b_Signature b).

(** The new sequence number and the writes.  Recording can only start with block 0. *)
Definition saveBlockSequence (bs : BlockStore) (hash : bytes) (height Type_ sequence : Z) : outcome (Z * list bop) :=
  newSequence ←
    (if isRecordBlockSequence C then
       match LoadBlockLastSequence bs with
       | Ret s => if (s +₆₄ 1 =? 0) && negb (height =? 0) then Panic else Ret (s +₆₄ 1)
       | Err (ErrOther "ErrHeightNotExist") => if negb (height =? 0) then Panic else Ret 0
       | _ => Panic
       end
     else if isParaChain C then Ret sequence else Ret 0);
  Ret (newSequence,
       [BSet (calcSequenceToHashKey newSequence) (Encode (mkSeq hash Type_))] ++
       (if Type_ =? AddBlock then [BSet (calcHashToSequenceKey hash) (Encode newSequence)] else []) ++
       [BSet LastSequence (Encode newSequence)]).

Definition SaveBlock (bs : BlockStore) (d : BlockDetail) (sequence : Z) : outcome (Z * list bop) :=
  let b := bd_Block d in
  let height := b_Height b in
  let hash := b_Hash b in
  let batch :=
    [BSet (calcHashToBlockBodyKey hash) (body_Encode (body_of d));
     BSet (calcHashToBlockHeaderKey hash) (Encode (header_of b));
     BSet (calcHeightToBlockHeaderKey height) (Encode (header_of b));
     BSet blockLastHeight (Encode height);
     BSet (calcHashToHeightKey hash) (Encode height);
     BSet (calcHeightToHashKey height) hash] in
  if isRecordBlockSequence C || isParaChain C then
    '(lastSequence, ops) ← saveBlockSequence bs hash height AddBlock sequence;
    Ret (lastSequence, batch ++ ops)
  else Ret (-1, batch).

(** The sequence number of the log entry is assigned to a variable of an inner block: the
    result is always -1. *)
Definition DelBlock (bs : BlockStore) (d : BlockDetail) (sequence : Z) : outcome (Z * list bop) :=
  let b := bd_Block d in
  let height := b_Height b in
  let hash := b_Hash b in
  let batch :=
    [BSet blockLastHeight (Encode (height -₆₄ 1));
     BDel (calcHashToHeightKey hash);
     BDel (calcHeightToHashKey height);
     BDel (calcHeightToBlockHeaderKey height)] in
  if isRecordBlockSequence C || isParaChain C then
    '(_, ops) ← saveBlockSequence bs hash height DelBlock_ sequence;
    Ret (-1, batch ++ ops)
  else Ret (-1, batch).

Definition GetTdByBlockHash (bs : BlockStore) (hash : bytes) : outcome Z :=
  match bs_db bs !! calcHashToTdKey hash with
  | None => Err (ErrOther "ErrHashNotExist")
  | Some b => Ret (big_SetBytes b)
  end.
Definition SaveTdByBlockHash (hash : bytes) (td : Z) : list bop := [BSet (calcHashToTdKey hash) (big_Bytes td)].

(** The total difficulty of a block. *)
Definition block_td (bs : BlockStore) (b : Block) : outcome Z :=
  let difficulty := CalcWork (b_Difficulty b) in
  if b_Height b =? 0 then Ret difficulty
  else parenttd ← GetTdByBlockHash bs (ParentHash b); Ret (difficulty + parenttd).

Definition set_db (bs : BlockStore) (db : gmap bytes bytes) : BlockStore := mkBS db (bs_height bs) (lastBlock bs).

Definition dbMaybeStoreBlock (damaged : bool) (bs : BlockStore) (d : BlockDetail) : outcome BlockStore :=
  let b := bd_Block d in
  let hash := b_Hash b in
  blocktd ← block_td bs b;
  if damaged then Err (ErrOther "ErrDataBaseDamage")
  else Ret (set_db bs (write (bs_db bs)
    ([BSet (calcHashToBlockBodyKey hash) (body_Encode (body_of d));
      BSet (calcHashToBlockHeaderKey hash) (Encode (header_of b))] ++ SaveTdByBlockHash hash blocktd))).

(** The writes of local data: no value means delete. *)
Definition local_ops (kvs : list (bytes * option bytes)) : list bop :=
  (λ kv, match kv.2 with None => BDel kv.1 | Some v => BSet kv.1 v end) <$> kvs.
Definition AddTxs (sv : Services) (d : BlockDetail) : outcome (list bop) := kv ← ask_local sv d; Ret (local_ops kv).
Definition DelTxs (sv : Services) (d : BlockDetail) : outcome (list bop) := kv ← ask_del_local sv d; Ret (local_ops kv).

Definition UpdateHeight (bs : BlockStore) : BlockStore :=
  match LoadBlockStoreHeight (bs_db bs) with
  | Ret height => mkBS (bs_db bs) height (lastBlock bs)
  | Err (ErrOther "ErrHeightNotExist") => mkBS (bs_db bs) (-1) (lastBlock bs)
  | _ => bs
  end.
Definition UpdateHeight2 (bs : BlockStore) (height : Z) : BlockStore := mkBS (bs_db bs) height (lastBlock bs).
Definition UpdateLastBlock (bs : BlockStore) (hash : bytes) : BlockStore :=
  match LoadBlockByHash bs hash with
  | Ret d => mkBS (bs_db bs) (bs_height bs) (Some (bd_Block d))
  | _ => bs
  end.
Definition UpdateLastBlock2 (bs : BlockStore) (b : Block) : BlockStore := mkBS (bs_db bs) (bs_height bs) (Some b).

Definition LastHeader (bs : BlockStore) : BHeader :=
  match lastBlock bs with
  | Some b => header_of b
  | None => mkHeader 0 "" "" "" 0 0 0 "" 0 None
  end.

Definition GetBlockSequence (bs : BlockStore) (Sequence : Z) : outcome BlockSequence :=
  match bs_db bs !! calcSequenceToHashKey Sequence with
  | None => Err (ErrOther "ErrHeightNotExist")
  | Some b => match Decode b with Some s => Ret s | None => Err (ErrOther "proto") end
  end.
Definition LoadBlockBySequence (bs : BlockStore) (Sequence : Z) : outcome BlockDetail :=
  s ← GetBlockSequence bs Sequence; LoadBlockByHash bs (bs_Hash s).
Definition GetSequenceByHash (bs : BlockStore) (hash : bytes) : outcome Z :=
  match bs_db bs !! calcHashToSequenceKey hash with
  | None => Err (ErrOther "ErrHashNotExist")
  | Some b => match Decode b with Some s => Ret s | None => Err (ErrOther "ErrUnmarshal") end
  end.

(** The check at start-up that the log fits the option. *)
Definition isRecordBlockSequenceValid (bs : BlockStore) : outcome unit :=
  lastSequence ← match LoadBlockLastSequence bs with
                 | Ret s => Ret s
                 | Err (ErrOther "ErrHeightNotExist") => Ret (-1)
                 | _ => Panic
                 end;
  if isRecordBlockSequence C then
    if (lastSequence =? -1) && negb (bs_height bs =? -1) then Panic
    else if lastSequence <? bs_height bs then Panic
    else if negb (lastSequence =? -1) then
      match GetBlockSequence bs lastSequence with
      | Ret s => if String.eqb (h_Hash (LastHeader bs)) (bs_Hash s) then Ret tt else Panic
      | _ => Panic
      end
    else Ret tt
  else if negb (lastSequence =? -1) then Panic else Ret tt.
End BlockStore.
