(* ===== verification/BlockStoreLemmas.v ===== *)
(** The block store implements a stack of blocks with a log: [store_ok] relates a store to
    the main chain and the log of its changes; adding and deleting the newest block
    preserve it, and the lookups read off the chain. *)

From Stdlib Require Import Ascii String.
From stdpp Require Import pretty.
From S2P Require Import Prelude Types KVStore Account Tx Merkle Block Difficulty BlockStore.
Local Open Scope Z_scope.

(** ** Keys *)

#[export] Instance height_key_inj : Inj (=) (=) calcHeightToHashKey.
Proof. intros a b H. unfold calcHeightToHashKey in H. simpl in H. simplify_eq. done. Qed.
#[export] Instance seq_key_inj : Inj (=) (=) calcSequenceToHashKey.
Proof. intros a b H. unfold calcSequenceToHashKey in H. simpl in H. simplify_eq. done. Qed.
#[export] Instance body_key_inj : Inj (=) (=) calcHashToBlockBodyKey.
Proof. intros a b H. unfold calcHashToBlockBodyKey in H. simpl in H. by simplify_eq. Qed.
#[export] Instance header_key_inj : Inj (=) (=) calcHashToBlockHeaderKey.
Proof. intros a b H. unfold calcHashToBlockHeaderKey in H. simpl in H. by simplify_eq. Qed.
#[export] Instance hash_key_inj : Inj (=) (=) calcHashToHeightKey.
Proof. intros a b H. unfold calcHashToHeightKey in H. simpl in H. by simplify_eq. Qed.
#[export] Instance td_key_inj : Inj (=) (=) calcHashToTdKey.
Proof. intros a b H. unfold calcHashToTdKey in H. simpl in H. by simplify_eq. Qed.
#[export] Instance hashseq_key_inj : Inj (=) (=) calcHashToSequenceKey.
Proof. intros a b H. unfold calcHashToSequenceKey in H. simpl in H. by simplify_eq. Qed.

(** Padding with zeros can be undone: [pretty] has no leading zero. *)
Fixpoint strip (s : string) : string :=
  match s with String c s' => if Ascii.eqb c "0" then strip s' else s | EmptyString => EmptyString end.
Lemma strip_zeros n s : strip (zeros n +:+ s) = strip s.
Proof. induction n as [|n IH]; simpl; done. Qed.

Lemma pretty_go_lead x s : (0 < x)%N → ∃ c s', pretty_N_go x s = String c s' ∧ Ascii.eqb c "0" = false.
Proof.
  revert s. induction (N.lt_wf_0 x) as [x _ IH]; intros s Hx. rewrite pretty_N_go_step by done.
  destruct (decide (0 < x `div` 10)%N) as [Hd|Hd].
  - apply IH; [by apply N.div_lt|done].
  - assert (x `div` 10 = 0)%N as E by (revert Hd; generalize (x `div` 10)%N; lia). rewrite E, pretty_N_go_0. eexists _, _. split; [done|].
    assert (x < 10)%N as Hlt. { by apply N.div_small_iff. }
    rewrite N.mod_small by done.
    assert (x = 1 ∨ x = 2 ∨ x = 3 ∨ x = 4 ∨ x = 5 ∨ x = 6 ∨ x = 7 ∨ x = 8 ∨ x = 9)%N by lia. naive_solver.
Qed.

Lemma strip_pretty z : 0 < z → strip (pretty z) = pretty z.
Proof.
  intros Hz. destruct z as [|p|p]; try lia. unfold pretty, pretty_Z, pretty, pretty_positive, pretty, pretty_N.
  rewrite decide_False by done. destruct (pretty_go_lead (N.pos p) "") as (c & s & -> & Hc); [lia|]. simpl. by rewrite Hc.
Qed.

Lemma strip_pad12 z : 0 <= z → strip (pad12 z) = if z =? 0 then EmptyString else pretty z.
Proof.
  intros Hz. unfold pad12, pad. rewrite (proj2 (Z.ltb_ge _ _)) by lia. rewrite strip_zeros.
  destruct (Z.eqb_spec z 0) as [->|]; [done|]. apply strip_pretty. lia.
Qed.

Lemma headers_key_inj a b :
  0 <= a → 0 <= b → calcHeightToBlockHeaderKey a = calcHeightToBlockHeaderKey b → a = b.
Proof.
  intros Ha Hb H. unfold calcHeightToBlockHeaderKey in H. simpl in H. simplify_eq.
  apply (f_equal strip) in H. rewrite !strip_pad12 in H by done.
  destruct (Z.eqb_spec a 0) as [->|Ha0], (Z.eqb_spec b 0) as [->|Hb0]; [done| | |by apply (inj pretty)].
  - exfalso. apply (f_equal (λ s, String.eqb s "")) in H. rewrite <- (strip_pretty b) in H by lia.
    destruct b as [|p|p]; try lia. unfold pretty, pretty_Z, pretty, pretty_positive, pretty, pretty_N in H.
    rewrite decide_False in H by done. destruct (pretty_go_lead (N.pos p) "") as (c & s & E & Hc); [lia|]. rewrite E in H. simpl in H.
    by rewrite Hc in H.
  - exfalso. apply (f_equal (λ s, String.eqb s "")) in H. rewrite <- (strip_pretty a) in H by lia.
    destruct a as [|p|p]; try lia. unfold pretty, pretty_Z, pretty, pretty_positive, pretty, pretty_N in H.
    rewrite decide_False in H by done. destruct (pretty_go_lead (N.pos p) "") as (c & s & E & Hc); [lia|]. rewrite E in H. simpl in H.
    by rewrite Hc in H.
Qed.

(** The keys the store uses itself; local data has other keys. *)
Definition store_key (k : bytes) : bool :=
  String.eqb k blockLastHeight || String.eqb k LastSequence ||
  existsb (λ p, String.prefix p k) ["Body:"; "Header:"; "Hash:"; "TD:"; "Height:"; "Seq:"; "HashToSeq:"; "HH:"]%string.

Ltac key_unfold :=
  unfold calcHashToBlockBodyKey, calcHashToBlockHeaderKey, calcHashToHeightKey, calcHashToTdKey, calcHeightToHashKey,
    calcSequenceToHashKey, calcHashToSequenceKey, calcHeightToBlockHeaderKey, blockLastHeight, LastSequence in *.
(** Keys of different kinds differ. *)
Ltac key_ne := key_unfold; simpl; congruence.
Ltac look := repeat first
  [ rewrite lookup_insert_eq | rewrite lookup_insert_ne by key_ne | rewrite lookup_delete_eq | rewrite lookup_delete_ne by key_ne ].

Lemma prefix_refl_app p s : String.prefix p (p +:+ s) = true.
Proof. apply str_prefix_app. Qed.
Lemma store_key_prefix p k :
  p ∈ ["Body:"; "Header:"; "Hash:"; "TD:"; "Height:"; "Seq:"; "HashToSeq:"; "HH:"]%string → store_key (p +:+ k) = true.
Proof.
  intros Hp. unfold store_key. apply orb_true_iff. right. apply existsb_exists. exists p.
  split; [by apply list_elem_of_In|apply prefix_refl_app].
Qed.

Lemma store_keys k :
  (∃ h, k = calcHashToBlockBodyKey h ∨ k = calcHashToBlockHeaderKey h ∨ k = calcHashToHeightKey h ∨
        k = calcHashToTdKey h ∨ k = calcHashToSequenceKey h) ∨
  (∃ z, k = calcHeightToHashKey z ∨ k = calcSequenceToHashKey z ∨ k = calcHeightToBlockHeaderKey z) ∨
  k = blockLastHeight ∨ k = LastSequence → store_key k = true.
Proof.
  intros H.
  destruct H as [(h & [->|[->|[->|[->| ->]]]])|[(z & [->|[->| ->]])|[->| ->]]]; try done; apply store_key_prefix; set_solver.
Qed.
(** Solve [store_key k = true] for one of the keys above. *)
Ltac is_store_key := apply store_keys; naive_solver.

(** ** Batches *)

Definition bop_key (o : bop) : bytes := match o with BSet k _ => k | BDel k => k end.

Lemma write_app db a b : write db (a ++ b) = write (write db a) b.
Proof. apply foldl_app. Qed.

Lemma write_other db ops k : (k ∉ bop_key <$> ops) → write db ops !! k = db !! k.
Proof.
  revert db. induction ops as [|o ops IH]; intros db H; [done|].
  change (write db (o :: ops)) with (write (apply_bop db o) ops). rewrite IH by set_solver.
  destruct o as [k' v|k']; simpl; [rewrite lookup_insert_ne|rewrite lookup_delete_ne]; set_solver.
Qed.

Definition foreign (kvs : list (bytes * option bytes)) : Prop := Forall (λ kv, store_key kv.1 = false) kvs.

Lemma write_local db kvs k : foreign kvs → store_key k = true → write db (local_ops kvs) !! k = db !! k.
Proof.
  intros Hf Hk. apply write_other. unfold local_ops. rewrite <- list_fmap_compose. intros (kv & -> & Hin)%list_elem_of_fmap.
  eapply list.Forall_forall in Hf; [|done]. simpl in *. unfold compose in Hk. by destruct (kv.2); simpl in Hk; rewrite Hf in Hk.
Qed.

(** ** Big integers *)

Lemma big_set_app acc a b : big_set acc (a +:+ b) = big_set (big_set acc a) b.
Proof. revert acc. induction a as [|c a IH]; intros acc; simpl; [done|]. apply IH. Qed.

Lemma big_bytes_acc fuel n acc : big_bytes fuel n acc = (big_bytes fuel n "" +:+ acc)%string.
Proof.
  revert n acc. induction fuel as [|fuel IH]; intros n acc; simpl; [done|].
  destruct (n =? 0)%N; [done|]. rewrite (IH _ (String _ acc)), (IH _ (String _ "")), str_app_assoc. done.
Qed.

Lemma big_set_bytes fuel n : (n < 2 ^ N.of_nat fuel)%N → big_set 0 (big_bytes fuel n "") = n.
Proof.
  revert n. induction fuel as [|fuel IH]; intros n Hn; [simpl in *; lia|].
  cbn [big_bytes]. destruct (N.eqb_spec n 0) as [->|Hn0]; [done|].
  rewrite big_bytes_acc, big_set_app, IH.
  - simpl. rewrite N_ascii_embedding by (apply N.mod_lt; lia). pose proof (N.div_mod n 256 ltac:(lia)). lia.
  - rewrite Nat2N.inj_succ, N.pow_succ_r' in Hn. apply N.Div0.div_lt_upper_bound. lia.
Qed.

Lemma big_roundtrip z : 0 <= z → big_SetBytes (big_Bytes z) = z.
Proof.
  intros Hz. unfold big_SetBytes, big_Bytes. rewrite big_set_bytes; [lia|].
  pose proof (N.size_gt (Z.abs_N z)) as H.
  replace (N.of_nat (N.size_nat (Z.abs_N z))) with (N.size (Z.abs_N z)); [done|].
  destruct (Z.abs_N z) as [|p]; [done|]. simpl. clear. induction p as [p IH|p IH|]; simpl in *; lia.
Qed.

(** ** The store as a stack of blocks *)

Section Store.
Context {ENV : StoreEnv} (C : ChainConfig).

Abbreviation hash_of d := (b_Hash (bd_Block d)).

(** A block as it is read back: no writes, and the main-chain fields of a chain that is
    not a parachain are its own hash and height. *)
Definition stored (d : BlockDetail) : BlockDetail :=
  let b := bd_Block d in
  mkBD (mkBlock (Version b) (ParentHash b) (TxHash b) (StateHash b) (b_Height b) (BlockTime b) (b_Difficulty b)
          (bb_MainHash (body_of C d)) (bb_MainHeight (body_of C d)) (b_Signature b) (norm <$> Txs b)) (Receipts d) [] "".

Lemma stored_hash d : hash_of (stored d) = hash_of d.
Proof using Type.
  unfold b_Hash, HashNew, HashOld, getHeaderHashNew, getHeaderHashOld. simpl. by rewrite length_fmap.
Qed.
Lemma stored_header d : header_of (bd_Block (stored d)) = header_of (bd_Block d).
Proof using Type. unfold header_of. rewrite stored_hash. simpl. by rewrite length_fmap. Qed.

Definition has_block (db : gmap bytes bytes) (h : bytes) (d : BlockDetail) : Prop :=
  db !! calcHashToBlockBodyKey h = Some (body_Encode (body_of C d)) ∧
  db !! calcHashToBlockHeaderKey h = Some (Encode (header_of (bd_Block d))).

Lemma load_has_block bs h d : has_block (bs_db bs) h d → LoadBlockByHash bs h = Ret (stored d).
Proof using Type. intros [H1 H2]. unfold LoadBlockByHash. by rewrite H2, Decode_Encode, H1, body_Decode_Encode. Qed.

(** What the log of additions and deletions says is on the chain, newest first. *)
Definition replay (log : list BlockSequence) : list bytes :=
  foldl (λ st e, if bs_Type e =? AddBlock then bs_Hash e :: st else tail st) [] log.

Record log_ok (db : gmap bytes bytes) (main : list BlockDetail) (log : list BlockSequence) : Prop := {
  lo_seq : ∀ i : nat, db !! calcSequenceToHashKey (Z.of_nat i) = Encode <$> log !! i;
  lo_last : db !! LastSequence = match log with [] => None | _ => Some (Encode (Z.of_nat (length log) - 1)) end;
  lo_replay : replay log = reverse ((λ d, hash_of d) <$> main);
  lo_hash : ∀ d, d ∈ main →
    ∃ i, db !! calcHashToSequenceKey (hash_of d) = Some (Encode (Z.of_nat i)) ∧ log !! i = Some (mkSeq (hash_of d) AddBlock)
}.

(** The store holds the blocks [main], genesis first. *)
Record store_ok (bs : BlockStore) (main : list BlockDetail) (log : list BlockSequence) : Prop := {
  so_heights : ∀ i d, main !! i = Some d → b_Height (bd_Block d) = Z.of_nat i;
  so_by_height : ∀ h, bs_db bs !! calcHeightToHashKey h = if 0 <=? h then (λ d, hash_of d) <$> main !! Z.to_nat h else None;
  so_headers : ∀ i : nat, bs_db bs !! calcHeightToBlockHeaderKey (Z.of_nat i) = (λ d, Encode (header_of (bd_Block d))) <$> main !! i;
  so_by_hash : ∀ h v, bs_db bs !! calcHashToHeightKey h = Some v ↔
    ∃ i d, main !! i = Some d ∧ hash_of d = h ∧ v = Encode (Z.of_nat i);
  so_blocks : ∀ d, d ∈ main → has_block (bs_db bs) (hash_of d) d;
  so_top : bs_height bs = Z.of_nat (length main) - 1;
  so_top_key : main ≠ [] → bs_db bs !! blockLastHeight = Some (Encode (Z.of_nat (length main) - 1));
  so_last : ∀ d, list.last main = Some d → ∃ b, lastBlock bs = Some b ∧ b_Hash b = hash_of d;
  so_log : isRecordBlockSequence C = true → log_ok (bs_db bs) main log
}.

Lemma decodeHeight_Encode z : decodeHeight (Encode z) = Ret z.
Proof using Type. unfold decodeHeight. by rewrite Decode_Encode. Qed.

Lemma encode_Z_inj (a b : Z) : Encode a = Encode b → a = b.
Proof using Type. intros H. assert (Some a = Some b) as [= ->] by (rewrite <- !Decode_Encode; by rewrite H). done. Qed.

Lemma store_nodup bs main log i j d d' :
  store_ok bs main log → main !! i = Some d → main !! j = Some d' → hash_of d = hash_of d' → i = j.
Proof using Type.
  intros H Hi Hj E. assert (bs_db bs !! calcHashToHeightKey (hash_of d) = Some (Encode (Z.of_nat i))) as H1.
  { apply (so_by_hash _ _ _ H). eauto. }
  assert (bs_db bs !! calcHashToHeightKey (hash_of d) = Some (Encode (Z.of_nat j))) as H2.
  { apply (so_by_hash _ _ _ H). eauto. }
  rewrite H1 in H2. injection H2 as H2. apply encode_Z_inj in H2. lia.
Qed.

Lemma log_nil_main db main : log_ok db main [] → main = [].
Proof using Type.
  intros H. apply lo_replay in H. unfold replay in H. simpl in H. apply (f_equal length) in H.
  rewrite length_reverse, length_fmap in H. simpl in H. by apply nil_length_inv.
Qed.

(** The writes of a log entry. *)
Definition seq_ops (n : Z) (hash : bytes) (ty : Z) : list bop :=
  [BSet (calcSequenceToHashKey n) (Encode (mkSeq hash ty))] ++
  (if ty =? AddBlock then [BSet (calcHashToSequenceKey hash) (Encode n)] else []) ++ [BSet LastSequence (Encode n)].

Lemma saveBlockSequence_shape bs hash height ty q n ops :
  saveBlockSequence C bs hash height ty q = Ret (n, ops) → ops = seq_ops n hash ty.
Proof using Type.
  unfold saveBlockSequence. intros H.
  match type of H with context [mbind _ ?m] => destruct m as [z|e|] end; simpl in H; try done. by injection H as <- <-.
Qed.

Lemma saveBlockSequence_runs bs main log hash ty q (n : nat) :
  store_ok bs main log → Z.of_nat (length log) < 2 ^ 63 → (ty = AddBlock → n = length main) → (main = [] → n = 0%nat) →
  ∃ k, saveBlockSequence C bs hash (Z.of_nat n) ty q = Ret (k, seq_ops k hash ty) ∧
    (isRecordBlockSequence C = true → k = Z.of_nat (length log)).
Proof using Type.
  intros H Hl Hn Hm. unfold saveBlockSequence.
  destruct (isRecordBlockSequence C) eqn:R.
  - pose proof (so_log _ _ _ H R) as L. unfold LoadBlockLastSequence. rewrite (lo_last _ _ _ L).
    destruct log as [|e log].
    + apply log_nil_main in L as ->. rewrite (Hm eq_refl). simpl. exists 0. done.
    + rewrite decodeHeight_Encode. replace ((Z.of_nat (length (e :: log)) - 1) +₆₄ 1) with (Z.of_nat (length (e :: log))).
      2: { rewrite wrap64_id; [lia|]. unfold in64. cbn [length] in *. lia. }
      rewrite (proj2 (Z.eqb_neq (Z.of_nat (length (e :: log))) 0)) by (cbn [length]; lia).
      eexists. split; [reflexivity|done].
  - destruct (isParaChain C); eexists; (split; [reflexivity|done]).
Qed.

(** ** Adding a block *)

Lemma replay_snoc log e : replay (log ++ [e]) = if bs_Type e =? AddBlock then bs_Hash e :: replay log else tail (replay log).
Proof using Type. unfold replay. by rewrite foldl_app. Qed.

(** The writes of a block without its log entry. *)
Definition save_ops (d : BlockDetail) : list bop :=
  let b := bd_Block d in
  [BSet (calcHashToBlockBodyKey (hash_of d)) (body_Encode (body_of C d));
   BSet (calcHashToBlockHeaderKey (hash_of d)) (Encode (header_of b));
   BSet (calcHeightToBlockHeaderKey (b_Height b)) (Encode (header_of b));
   BSet blockLastHeight (Encode (b_Height b));
   BSet (calcHashToHeightKey (hash_of d)) (Encode (b_Height b));
   BSet (calcHeightToHashKey (b_Height b)) (hash_of d)].
Definition del_ops (d : BlockDetail) : list bop :=
  let b := bd_Block d in
  [BSet blockLastHeight (Encode (b_Height b -₆₄ 1)); BDel (calcHashToHeightKey (hash_of d));
   BDel (calcHeightToHashKey (b_Height b)); BDel (calcHeightToBlockHeaderKey (b_Height b))].
Definition logged : bool := isRecordBlockSequence C || isParaChain C.
Definition log_ops (k : Z) (h : bytes) (ty : Z) : list bop := if logged then seq_ops k h ty else [].

Lemma SaveBlock_shape bs d q s ops :
  SaveBlock C bs d q = Ret (s, ops) → ∃ k, ops = save_ops d ++ log_ops k (hash_of d) AddBlock.
Proof using Type.
  unfold SaveBlock, log_ops. fold logged. intros H. destruct logged; [|injection H as <- <-; by exists 0].
  destruct (saveBlockSequence _ _ _ _ _ _) as [[k ops']|e|] eqn:E; simpl in H; try done.
  apply saveBlockSequence_shape in E as ->. injection H as <- <-. by exists k.
Qed.
Lemma SaveBlock_runs bs main log d q :
  store_ok bs main log → Z.of_nat (length log) < 2 ^ 63 → b_Height (bd_Block d) = Z.of_nat (length main) →
  ∃ s k, SaveBlock C bs d q = Ret (s, save_ops d ++ log_ops k (hash_of d) AddBlock) ∧
    (isRecordBlockSequence C = true → k = Z.of_nat (length log) ∧ s = k).
Proof using Type.
  intros H Hl Hh. unfold SaveBlock, log_ops. fold logged. destruct logged eqn:G.
  - destruct (saveBlockSequence_runs bs main log (hash_of d) AddBlock q (length main)) as (k & E & Hk); [done|done|done|by intros ->|].
    rewrite Hh, E. simpl. exists k, k. split; [by rewrite <- Hh|eauto].
  - exists (-1), 0. split; [done|]. intros R. unfold logged in G. by rewrite R in G.
Qed.
Lemma DelBlock_runs bs main log d q :
  store_ok bs (main ++ [d]) log → Z.of_nat (length log) < 2 ^ 63 →
  ∃ k, DelBlock C bs d q = Ret (-1, del_ops d ++ log_ops k (hash_of d) DelBlock_) ∧
    (isRecordBlockSequence C = true → k = Z.of_nat (length log)).
Proof using Type.
  intros H Hl. pose proof (so_heights _ _ _ H (length main) d) as Hh. rewrite lookup_app_r, Nat.sub_diag in Hh by lia.
  specialize (Hh eq_refl). unfold DelBlock, log_ops. fold logged. destruct logged eqn:G.
  - destruct (saveBlockSequence_runs bs (main ++ [d]) log (hash_of d) DelBlock_ q (length main)) as (k & E & Hk); [done|done|done|by destruct main|].
    rewrite Hh, E. simpl. exists k. split; [by rewrite <- Hh|done].
  - exists 0. split; [done|]. intros R. unfold logged in G. by rewrite R in G.
Qed.

(** Lookups after a batch of local data, store writes, a log entry and a difficulty. *)
Lemma log_ops_other db k h ty x :
  x ≠ calcSequenceToHashKey k → x ≠ calcHashToSequenceKey h → x ≠ LastSequence → write db (log_ops k h ty) !! x = db !! x.
Proof using Type.
  intros H1 H2 H3. apply write_other. unfold log_ops, seq_ops. destruct logged; [|set_solver].
  destruct (ty =? AddBlock); simpl; set_solver.
Qed.

Lemma write_td db h td x : write db (SaveTdByBlockHash h td) !! x = if decide (x = calcHashToTdKey h) then Some (big_Bytes td) else db !! x.
Proof using Type. simpl. case_decide; subst; [by rewrite lookup_insert_eq|by rewrite lookup_insert_ne]. Qed.

(** The database after a block is added or deleted. *)
Definition connect_db (db : gmap bytes bytes) kvs (d : BlockDetail) (k td : Z) : gmap bytes bytes :=
  write db (local_ops kvs ++ (save_ops d ++ log_ops k (hash_of d) AddBlock) ++ SaveTdByBlockHash (hash_of d) td).
Definition disconnect_db (db : gmap bytes bytes) kvs (d : BlockDetail) (k : Z) : gmap bytes bytes :=
  write db (local_ops kvs ++ del_ops d ++ log_ops k (hash_of d) DelBlock_).

(** Look a store key up in such a database. *)
Ltac batch_look :=
  unfold connect_db, disconnect_db; rewrite !write_app, ?write_td, ?decide_False by key_ne;
  rewrite ?log_ops_other by key_ne; unfold write at 1; simpl; look.

Section Lookup.
Variables (db : gmap bytes bytes) (kvs : list (bytes * option bytes)) (d : BlockDetail) (k td : Z).
Hypothesis F : foreign kvs.

Lemma conn_height z :
  connect_db db kvs d k td !! calcHeightToHashKey z =
  if decide (z = b_Height (bd_Block d)) then Some (hash_of d) else db !! calcHeightToHashKey z.
Proof using F.
  batch_look. case_decide as E; [subst; by rewrite lookup_insert_eq|].
  rewrite lookup_insert_ne by (intros H; by apply (inj _) in H). look. apply write_local; [done|is_store_key].
Qed.
Lemma conn_headers z :
  0 <= z → 0 <= b_Height (bd_Block d) →
  connect_db db kvs d k td !! calcHeightToBlockHeaderKey z =
  if decide (z = b_Height (bd_Block d)) then Some (Encode (header_of (bd_Block d))) else db !! calcHeightToBlockHeaderKey z.
Proof using F.
  intros Hz Hd. batch_look. case_decide as E; [subst; by rewrite lookup_insert_eq|].
  rewrite lookup_insert_ne by (intros H; apply headers_key_inj in H; done). look. apply write_local; [done|is_store_key].
Qed.
Lemma conn_hash h :
  connect_db db kvs d k td !! calcHashToHeightKey h =
  if decide (h = hash_of d) then Some (Encode (b_Height (bd_Block d))) else db !! calcHashToHeightKey h.
Proof using F.
  batch_look. case_decide as E; [subst; by rewrite lookup_insert_eq|].
  rewrite lookup_insert_ne by (intros H; by apply (inj _) in H). look. apply write_local; [done|is_store_key].
Qed.
Lemma conn_body h :
  connect_db db kvs d k td !! calcHashToBlockBodyKey h =
  if decide (h = hash_of d) then Some (body_Encode (body_of C d)) else db !! calcHashToBlockBodyKey h.
Proof using F.
  batch_look. case_decide as E; [subst; by rewrite lookup_insert_eq|].
  rewrite lookup_insert_ne by (intros H; by apply (inj _) in H). apply write_local; [done|is_store_key].
Qed.
Lemma conn_header h :
  connect_db db kvs d k td !! calcHashToBlockHeaderKey h =
  if decide (h = hash_of d) then Some (Encode (header_of (bd_Block d))) else db !! calcHashToBlockHeaderKey h.
Proof using F.
  batch_look. case_decide as E; [subst; by rewrite lookup_insert_eq|].
  rewrite lookup_insert_ne by (intros H; by apply (inj _) in H). look. apply write_local; [done|is_store_key].
Qed.
Lemma conn_td h :
  connect_db db kvs d k td !! calcHashToTdKey h = if decide (h = hash_of d) then Some (big_Bytes td) else db !! calcHashToTdKey h.
Proof using F.
  unfold connect_db. rewrite !write_app, write_td. destruct (decide (h = hash_of d)) as [->|Hne]; [by rewrite decide_True|].
  rewrite decide_False by (intros H; by apply (inj _) in H). rewrite log_ops_other by key_ne. unfold write at 1. simpl. look.
  apply write_local; [done|is_store_key].
Qed.
Lemma conn_last : connect_db db kvs d k td !! blockLastHeight = Some (Encode (b_Height (bd_Block d))).
Proof using F. batch_look. done. Qed.

Lemma disc_height z :
  disconnect_db db kvs d k !! calcHeightToHashKey z =
  if decide (z = b_Height (bd_Block d)) then None else db !! calcHeightToHashKey z.
Proof using F.
  batch_look. case_decide as E; [subst; by rewrite lookup_delete_eq|].
  rewrite lookup_delete_ne by (intros H; by apply (inj _) in H). look. apply write_local; [done|is_store_key].
Qed.
Lemma disc_headers z :
  0 <= z → 0 <= b_Height (bd_Block d) →
  disconnect_db db kvs d k !! calcHeightToBlockHeaderKey z =
  if decide (z = b_Height (bd_Block d)) then None else db !! calcHeightToBlockHeaderKey z.
Proof using F.
  intros Hz Hd. batch_look. case_decide as E; [subst; by rewrite lookup_delete_eq|].
  rewrite lookup_delete_ne by (intros H; apply headers_key_inj in H; done). look. apply write_local; [done|is_store_key].
Qed.
Lemma disc_hash h :
  disconnect_db db kvs d k !! calcHashToHeightKey h = if decide (h = hash_of d) then None else db !! calcHashToHeightKey h.
Proof using F.
  batch_look. case_decide as E; [subst; by rewrite lookup_delete_eq|].
  rewrite lookup_delete_ne by (intros H; by apply (inj _) in H). look. apply write_local; [done|is_store_key].
Qed.
Lemma disc_last : disconnect_db db kvs d k !! blockLastHeight = Some (Encode (b_Height (bd_Block d) -₆₄ 1)).
Proof using F. batch_look. done. Qed.
Lemma disc_same x :
  (∃ h, x = calcHashToBlockBodyKey h ∨ x = calcHashToBlockHeaderKey h ∨ x = calcHashToTdKey h) →
  disconnect_db db kvs d k !! x = db !! x.
Proof using F.
  intros (h & [->|[->| ->]]); batch_look; (apply write_local; [done|is_store_key]).
Qed.

Section Log.
Hypothesis R : isRecordBlockSequence C = true.

Lemma log_ops_on h ty : log_ops k h ty = seq_ops k h ty.
Proof using R. unfold log_ops, logged. by rewrite R. Qed.

Lemma log_tail x h ty (db' : gmap bytes bytes) :
  (∃ z, x = calcSequenceToHashKey z) ∨ x = LastSequence ∨ (∃ h', x = calcHashToSequenceKey h') →
  write db' (seq_ops k h ty) !! x =
  if decide (x = LastSequence) then Some (Encode k)
  else if decide (ty = AddBlock ∧ x = calcHashToSequenceKey h) then Some (Encode k)
  else if decide (x = calcSequenceToHashKey k) then Some (Encode (mkSeq h ty)) else db' !! x.
Proof using Type.
  intros Hx. unfold seq_ops. destruct (Z.eqb_spec ty AddBlock) as [E|E]; unfold write; simpl.
  - destruct Hx as [[z ->]|[->|[h' ->]]].
    + rewrite lookup_insert_ne, lookup_insert_ne by key_ne. rewrite decide_False by key_ne.
      rewrite decide_False by (intros [_ H]; revert H; key_ne). case_decide as Ez; [by rewrite Ez, lookup_insert_eq|by rewrite lookup_insert_ne].
    + rewrite lookup_insert_eq. by rewrite decide_True.
    + rewrite lookup_insert_ne by key_ne. rewrite decide_False by key_ne. case_decide as Eh.
      * destruct Eh as [_ ->]. by rewrite lookup_insert_eq.
      * rewrite lookup_insert_ne by naive_solver. rewrite lookup_insert_ne by key_ne. by rewrite decide_False by key_ne.
  - rewrite (decide_False (P := ty = AddBlock ∧ _)) by tauto. destruct Hx as [[z ->]|[->|[h' ->]]].
    + rewrite lookup_insert_ne by key_ne. rewrite decide_False by key_ne.
      case_decide as Ez; [by rewrite Ez, lookup_insert_eq|by rewrite lookup_insert_ne].
    + rewrite lookup_insert_eq. by rewrite decide_True.
    + rewrite lookup_insert_ne by key_ne. rewrite decide_False by key_ne. rewrite lookup_insert_ne by key_ne. by rewrite decide_False by key_ne.
Qed.

Lemma log_key x : (∃ z, x = calcSequenceToHashKey z) ∨ x = LastSequence ∨ (∃ h', x = calcHashToSequenceKey h') →
  write (write db (local_ops kvs)) (save_ops d) !! x = db !! x ∧ write (write db (local_ops kvs)) (del_ops d) !! x = db !! x.
Proof using F.
  intros Hx. assert (store_key x = true) as Hk by (apply store_keys; naive_solver).
  rewrite <- (write_local db kvs x F Hk). unfold save_ops, del_ops.
  destruct Hx as [[z ->]|[->|[h' ->]]]; (split; unfold write at 1; simpl; look; done).
Qed.

Lemma conn_log x : (∃ z, x = calcSequenceToHashKey z) ∨ x = LastSequence ∨ (∃ h', x = calcHashToSequenceKey h') →
  connect_db db kvs d k td !! x =
  if decide (x = LastSequence) then Some (Encode k)
  else if decide (AddBlock = AddBlock ∧ x = calcHashToSequenceKey (hash_of d)) then Some (Encode k)
  else if decide (x = calcSequenceToHashKey k) then Some (Encode (mkSeq (hash_of d) AddBlock)) else db !! x.
Proof using F R.
  intros Hx. unfold connect_db. rewrite !write_app, write_td, decide_False by (destruct Hx as [[z ->]|[->|[h' ->]]]; key_ne).
  by rewrite log_ops_on, log_tail, (proj1 (log_key x Hx)).
Qed.
Lemma disc_log x : (∃ z, x = calcSequenceToHashKey z) ∨ x = LastSequence ∨ (∃ h', x = calcHashToSequenceKey h') →
  disconnect_db db kvs d k !! x =
  if decide (x = LastSequence) then Some (Encode k)
  else if decide (x = calcSequenceToHashKey k) then Some (Encode (mkSeq (hash_of d) DelBlock_)) else db !! x.
Proof using F R.
  intros Hx. unfold disconnect_db. rewrite !write_app, log_ops_on, log_tail, (proj2 (log_key x Hx)) by done.
  case_decide; [done|]. rewrite decide_False; [done|]. by intros [? _].
Qed.
End Log.
End Lookup.

(** ** The two steps *)

Lemma log_connect db kvs d k td main log :
  foreign kvs → isRecordBlockSequence C = true → k = Z.of_nat (length log) → log_ok db main log →
  log_ok (connect_db db kvs d k td) (main ++ [d]) (log ++ [mkSeq (hash_of d) AddBlock]).
Proof using Type.
  intros F R -> L. split.
  - intros i. rewrite (conn_log _ _ _ _ _ F R) by eauto. rewrite decide_False by key_ne.
    rewrite decide_False by (intros [_ H]; revert H; key_ne). case_decide as E.
    + apply (inj _) in E. assert (i = length log) as -> by lia. rewrite lookup_app_r, Nat.sub_diag by lia. done.
    + rewrite (lo_seq _ _ _ L). destruct (decide (i < length log)%nat); [by rewrite lookup_app_l|].
      rewrite !lookup_ge_None_2; [done|rewrite length_app; simpl|]; [|lia]. destruct (decide (i = length log)) as [->|]; [done|lia].
  - rewrite (conn_log _ _ _ _ _ F R) by eauto. rewrite decide_True by done.
    destruct (log ++ [_]) eqn:E; [by destruct log|]. rewrite <- E, length_app. simpl. do 2 f_equal. lia.
  - rewrite replay_snoc, (lo_replay _ _ _ L), fmap_app, reverse_app. simpl. done.
  - intros d' Hd. rewrite (conn_log _ _ _ _ _ F R) by eauto. rewrite decide_False by key_ne. case_decide as E.
    + destruct E as [_ E]. apply (inj _) in E. exists (length log). split; [done|]. rewrite lookup_app_r, Nat.sub_diag by lia. by rewrite E.
    + rewrite decide_False by key_ne. apply elem_of_app in Hd as [Hd|Hd].
      * destruct (lo_hash _ _ _ L d' Hd) as (i & H1 & H2). exists i. split; [done|]. by apply lookup_app_l_Some.
      * apply list_elem_of_singleton in Hd as ->. exfalso. by apply E.
Qed.

Lemma log_disconnect db kvs d k main log :
  foreign kvs → isRecordBlockSequence C = true → k = Z.of_nat (length log) → log_ok db (main ++ [d]) log →
  log_ok (disconnect_db db kvs d k) main (log ++ [mkSeq (hash_of d) DelBlock_]).
Proof using Type.
  intros F R -> L. split.
  - intros i. rewrite (disc_log _ _ _ _ F R) by eauto. rewrite decide_False by key_ne. case_decide as E.
    + apply (inj _) in E. assert (i = length log) as -> by lia. rewrite lookup_app_r, Nat.sub_diag by lia. done.
    + rewrite (lo_seq _ _ _ L). destruct (decide (i < length log)%nat); [by rewrite lookup_app_l|].
      rewrite !lookup_ge_None_2; [done|rewrite length_app; simpl|]; [|lia]. destruct (decide (i = length log)) as [->|]; [done|lia].
  - rewrite (disc_log _ _ _ _ F R) by eauto. rewrite decide_True by done.
    destruct (log ++ [_]) eqn:E; [by destruct log|]. rewrite <- E, length_app. simpl. do 2 f_equal. lia.
  - rewrite replay_snoc, (lo_replay _ _ _ L), fmap_app, reverse_app. simpl. done.
  - intros d' Hd. rewrite (disc_log _ _ _ _ F R) by eauto. rewrite decide_False, decide_False by key_ne.
    destruct (lo_hash _ _ _ L d') as (i & H1 & H2); [set_solver|]. exists i. split; [done|]. by apply lookup_app_l_Some.
Qed.

Lemma lookup_snoc_Some {A} (l : list A) x i y :
  (l ++ [x]) !! i = Some y ↔ l !! i = Some y ∨ i = length l ∧ y = x.
Proof using Type.
  rewrite lookup_app_Some, list_lookup_singleton_Some. split; [|intros [?|[-> ->]]]; [|by left|right; split; [lia|split; [lia|done]]].
  intros [?|(? & ? & ->)]; [by left|right; split; [lia|done]].
Qed.
Lemma lookup_snoc_height {A} (l : list A) x (z : Z) :
  0 <= z → (l ++ [x]) !! Z.to_nat z = if decide (z = Z.of_nat (length l)) then Some x else l !! Z.to_nat z.
Proof using Type.
  intros Hz. case_decide as E.
  - subst. by rewrite Nat2Z.id, lookup_app_r, Nat.sub_diag by lia.
  - destruct (decide (Z.to_nat z < length l)%nat); [by rewrite lookup_app_l|].
    rewrite !lookup_ge_None_2; [done|lia|rewrite length_app; simpl; lia].
Qed.

Lemma store_connect bs main log d kvs k td :
  store_ok bs main log → b_Height (bd_Block d) = Z.of_nat (length main) → (∀ d', d' ∈ main → hash_of d' ≠ hash_of d) →
  foreign kvs → (isRecordBlockSequence C = true → k = Z.of_nat (length log)) →
  store_ok (mkBS (connect_db (bs_db bs) kvs d k td) (b_Height (bd_Block d)) (Some (bd_Block d)))
    (main ++ [d]) (log ++ [mkSeq (hash_of d) AddBlock]).
Proof using Type.
  intros H Hh Hnew F Hk. split; simpl.
  - intros i d' [Hi|[-> ->]]%lookup_snoc_Some; [by apply (so_heights _ _ _ H)|done].
  - intros z. rewrite conn_height by done. rewrite (so_by_height _ _ _ H). destruct (Z.leb_spec 0 z) as [Hz|Hz].
    + rewrite Hh, lookup_snoc_height by done. by case_decide.
    + rewrite decide_False; [done|lia].
  - intros i. rewrite conn_headers by (try done; lia). rewrite (so_headers _ _ _ H), Hh.
    pose proof (lookup_snoc_height main d (Z.of_nat i) ltac:(lia)) as E. rewrite Nat2Z.id in E. rewrite E. by case_decide.
  - intros h v. rewrite conn_hash by done. case_decide as E.
    + subst h. split.
      * intros [= <-]. exists (length main), d. rewrite Hh. split_and!; [|done|done]. apply lookup_snoc_Some. by right.
      * intros (i & d' & Hi & E & ->). apply lookup_snoc_Some in Hi as [Hi|[-> ->]]; [|by rewrite Hh].
        exfalso. apply (Hnew d'); [by eapply list_elem_of_lookup_2|done].
    + rewrite (so_by_hash _ _ _ H). split; intros (i & d' & Hi & E' & ->); exists i, d'; (split; [|done]).
      * apply lookup_snoc_Some. by left.
      * apply lookup_snoc_Some in Hi as [Hi|[-> ->]]; [done|by subst h].
  - intros d' Hd. unfold has_block. rewrite conn_body, conn_header by done.
    apply elem_of_app in Hd as [Hd|Hd%list_elem_of_singleton]; [|subst; by rewrite !decide_True].
    rewrite !decide_False by (by apply Hnew). by apply (so_blocks _ _ _ H).
  - rewrite length_app, Hh. simpl. lia.
  - intros _. rewrite conn_last by done. rewrite length_app, Hh. simpl. do 2 f_equal. lia.
  - intros d'. rewrite last_snoc. intros [= <-]. eauto.
  - intros R. apply log_connect; [done|done|by apply Hk|by apply (so_log _ _ _ H)].
Qed.

Lemma store_disconnect bs main log d kvs k :
  store_ok bs (main ++ [d]) log → foreign kvs → Z.of_nat (length main) < 2 ^ 63 →
  (isRecordBlockSequence C = true → k = Z.of_nat (length log)) →
  (∀ d', list.last main = Some d' → hash_of d' = ParentHash (bd_Block d)) →
  store_ok (UpdateLastBlock (UpdateHeight (set_db bs (disconnect_db (bs_db bs) kvs d k))) (ParentHash (bd_Block d)))
    main (log ++ [mkSeq (hash_of d) DelBlock_]).
Proof using Type.
  intros H F Hm Hk Hp.
  assert (b_Height (bd_Block d) = Z.of_nat (length main)) as Hh.
  { apply (so_heights _ _ _ H). apply lookup_snoc_Some. by right. }
  set (db' := disconnect_db (bs_db bs) kvs d k).
  assert (∀ d', d' ∈ main → has_block db' (hash_of d') d') as Hb.
  { intros d' Hd. unfold has_block, db'. rewrite !disc_same by naive_solver. apply (so_blocks _ _ _ H). set_solver. }
  assert (UpdateHeight (set_db bs db') = mkBS db' (Z.of_nat (length main) - 1) (lastBlock bs)) as EU.
  { unfold UpdateHeight, LoadBlockStoreHeight. simpl. unfold db' at 1. rewrite disc_last, decodeHeight_Encode by done.
    rewrite Hh, wrap64_id by (unfold in64; lia). done. }
  assert (∀ d', list.last main = Some d' → d' ∈ main) as Hin.
  { intros d' Hd. rewrite last_lookup in Hd. by eapply list_elem_of_lookup_2. }
  assert (∃ lb, UpdateLastBlock (mkBS db' (Z.of_nat (length main) - 1) (lastBlock bs)) (ParentHash (bd_Block d)) =
    mkBS db' (Z.of_nat (length main) - 1) lb ∧ ∀ d', list.last main = Some d' → ∃ b, lb = Some b ∧ b_Hash b = hash_of d') as (lb & EL & HL).
  { unfold UpdateLastBlock. destruct (list.last main) as [d'|] eqn:Em.
    - rewrite <- (Hp d' eq_refl). rewrite (load_has_block _ _ d') by (by apply Hb, Hin). eexists. split; [done|].
      intros d'' [= <-]. eexists. split; [done|apply stored_hash].
    - destruct (LoadBlockByHash _ _); eexists; (split; [done|done]). }
  rewrite EU, EL. split; simpl.
  - intros i d' Hi. apply (so_heights _ _ _ H). apply lookup_snoc_Some. by left.
  - intros z. unfold db'. rewrite disc_height by done. rewrite (so_by_height _ _ _ H), Hh. destruct (Z.leb_spec 0 z) as [Hz|Hz].
    + rewrite lookup_snoc_height by done. case_decide as E; [|done]. subst. by rewrite Nat2Z.id, lookup_ge_None_2.
    + by case_decide.
  - intros i. unfold db'. rewrite disc_headers by (try done; lia). rewrite (so_headers _ _ _ H), Hh.
    pose proof (lookup_snoc_height main d (Z.of_nat i) ltac:(lia)) as E. rewrite Nat2Z.id in E. rewrite E. case_decide; [|done].
    by rewrite lookup_ge_None_2 by lia.
  - intros h v. unfold db'. rewrite disc_hash by done. case_decide as E.
    + split; [done|]. intros (i & d' & Hi & E' & _). subst h. exfalso.
      assert (i = length main) as ->. { eapply store_nodup; [exact H| | |exact E']; apply lookup_snoc_Some; [by left|by right]. }
      apply lookup_lt_Some in Hi. lia.
    + rewrite (so_by_hash _ _ _ H). split; intros (i & d' & Hi & E' & ->); exists i, d'; (split; [|done]).
      * apply lookup_snoc_Some in Hi as [Hi|[-> ->]]; [done|by subst h].
      * apply lookup_snoc_Some. by left.
  - done.
  - done.
  - intros Hne. unfold db'. rewrite disc_last, Hh, wrap64_id by (done || (unfold in64; lia)). done.
  - done.
  - intros R. apply log_disconnect; [done|done|by apply Hk|by apply (so_log _ _ _ H)].
Qed.

(** Writing a block of a side chain. *)
Lemma store_side bs main log d td :
  store_ok bs main log → (∀ d', d' ∈ main → hash_of d' = hash_of d → body_of C d' = body_of C d ∧ header_of (bd_Block d') = header_of (bd_Block d)) →
  store_ok (set_db bs (write (bs_db bs)
    ([BSet (calcHashToBlockBodyKey (hash_of d)) (body_Encode (body_of C d));
      BSet (calcHashToBlockHeaderKey (hash_of d)) (Encode (header_of (bd_Block d)))] ++ SaveTdByBlockHash (hash_of d) td))) main log.
Proof using Type.
  intros H Hsame. unfold write. simpl. split; simpl; try apply H.
  - intros z. look. apply H.
  - intros i. look. apply H.
  - intros h v. look. apply H.
  - intros d' Hd. unfold has_block. look. destruct (so_blocks _ _ _ H d' Hd) as [H1 H2].
    destruct (decide (hash_of d' = hash_of d)) as [E|E].
    + destruct (Hsame d' Hd E) as [-> ->]. rewrite E. split; look; done.
    + split; look; done.
  - intros Hn. look. by apply H.
  - intros R. destruct (so_log _ _ _ H R) as [L1 L2 L3 L4]. split; [intros i; look; apply L1|look; apply L2|done|].
    intros d' Hd. look. by apply L4.
Qed.
End Store.
