(* ===== verification/BlockIndex.v ===== *)
(** Block nodes, the index of all known nodes ([blockchain/blockindex.go]) and the view of
    the main chain ([blockchain/chainview.go]).

    Nodes are shared and updated in place: a node is a position of a heap, and a pointer
    is such a position or nil.  A node is in each of the two lists at most once, so its
    list element is identified with it. *)

From Stdlib Require Import Ascii String.
From S2P Require Import Prelude Types Tx Block Difficulty.
Local Open Scope Z_scope.

(** [type blockNode struct] *)
Record blockNode := mkNode {
  parent : option nat; n_hash : bytes; n_Difficulty : Z; n_height : Z; statehash : bytes;
  n_broadcast : bool; n_pid : string; n_sequence : Z
}.
Abbreviation Heap := (list blockNode).

Definition set_parent (n : blockNode) p :=
  mkNode p (n_hash n) (n_Difficulty n) (n_height n) (statehash n) (n_broadcast n) (n_pid n) (n_sequence n).
Definition set_hashes (n : blockNode) h st :=
  mkNode (parent n) h (n_Difficulty n) (n_height n) st (n_broadcast n) (n_pid n) (n_sequence n).

(** [type blockIndex struct]; [type chainView struct], newest node first. *)
Record blockIndex := mkBI { bi_index : gmap bytes nat; bi_queue : list nat }.
Record chainView := mkCV { cv_nodes : gmap Z nat; cv_queue : list nat }.

Definition blockNodeCacheLimit : Z := 10240.
Definition indexCacheLimit : Z := 102400.
Definition sha256Len : nat := 32.
Definition zero_hash : bytes := String.concat "" (replicate sha256Len (String "000" "")).

(** ** Nodes *)

Section Nodes.
Context {ENV : BlockEnv}.

Definition newBlockNode (broadcast : bool) (b : Block) (pid : string) (sequence : Z) : blockNode :=
  mkNode None (b_Hash b) (CalcWork (b_Difficulty b)) (b_Height b) (StateHash b) broadcast pid sequence.
Definition newBlockNodeByHeader (broadcast : bool) (h : BHeader) (pid : string) (sequence : Z) : blockNode :=
  mkNode None (h_Hash h) (CalcWork (h_Difficulty h)) (h_Height h) (h_StateHash h) broadcast pid sequence.
Definition newPreGenBlockNode : blockNode := mkNode None zero_hash (-1) (-1) zero_hash false "self" 0.
End Nodes.

(** The walk along parent pointers until [stop]; a parent is older than its child, so
    [id] + 1 steps reach the root. *)
Fixpoint walk (fuel : nat) (hp : Heap) (stop : nat → blockNode → bool) (p : option nat) : option nat :=
  match fuel, p with
  | S fuel, Some id =>
      match hp !! id with
      | Some n => if stop id n then Some id else walk fuel hp stop (parent n)
      | None => None
      end
  | _, _ => None
  end.
Definition steps (p : option nat) : nat := match p with Some id => S id | None => 0 end.

(** The nodes from [p] back to the fork, newest first. *)
Fixpoint path_to (fuel : nat) (hp : Heap) (fork : option nat) (p : option nat) : list nat :=
  match fuel, p with
  | S fuel, Some id =>
      if bool_decide (Some id = fork) then []
      else match hp !! id with Some n => id :: path_to fuel hp fork (parent n) | None => [id] end
  | _, _ => []
  end.

Definition Ancestor (hp : Heap) (id : nat) (height : Z) : option nat :=
  match hp !! id with
  | Some n =>
      if (height <? 0) || (n_height n <? height) then None
      else walk (S id) hp (λ _ m, n_height m =? height) (Some id)
  | None => None
  end.
Definition RelativeAncestor (hp : Heap) (id : nat) (distance : Z) : option nat :=
  match hp !! id with Some n => Ancestor hp id (n_height n -₆₄ distance) | None => None end.

(** ** The index *)

Definition newBlockIndex : blockIndex := mkBI ∅ [].
Definition HaveBlock (bi : blockIndex) (hash : bytes) : bool := bool_decide (is_Some (bi_index bi !! hash)).
Definition LookupNode (bi : blockIndex) (hash : bytes) : option nat := bi_index bi !! hash.

(** The node removed from a full index loses its parent pointer. *)
Definition AddNode (hp : Heap) (bi : blockIndex) (id : nat) : Heap * blockIndex :=
  match hp !! id with
  | None => (hp, bi)
  | Some n =>
      let queue := bi_queue bi ++ [id] in
      let index := <[n_hash n := id]> (bi_index bi) in
      if indexCacheLimit <? Z.of_nat (length queue) then
        match queue with
        | del :: queue =>
            match hp !! del with
            | Some dn => (<[del := set_parent dn None]> hp, mkBI (delete (n_hash dn) index) queue)
            | None => (hp, mkBI index queue)
            end
        | [] => (hp, mkBI index queue)
        end
      else (hp, mkBI index queue)
  end.

Definition UpdateNode (hp : Heap) (bi : blockIndex) (hash : bytes) (id : nat) : blockIndex :=
  match bi_index bi !! hash, hp !! id with
  | Some elem, Some n =>
      mkBI (<[n_hash n := id]> (delete hash (bi_index bi))) ((λ e, if bool_decide (e = elem) then id else e) <$> bi_queue bi)
  | _, _ => bi
  end.

Definition DelNode (hp : Heap) (bi : blockIndex) (hash : bytes) : Heap * blockIndex :=
  match bi_index bi !! hash with
  | Some elem =>
      (alter (λ n, set_parent n None) elem hp, mkBI (delete hash (bi_index bi)) (filter (λ e, e ≠ elem) (bi_queue bi)))
  | None => (hp, bi)
  end.

(** ** The view *)

Section View.
Variable hp : Heap.

Definition Tip (c : chainView) : option nat := head (cv_queue c).

(** A node that does not extend the tip is logged and dropped. *)
Definition setTip (c : chainView) (id : nat) : chainView :=
  match hp !! id with
  | None => c
  | Some n =>
      if negb (length (cv_queue c) =? 0)%nat && negb (bool_decide (parent n = Tip c)) then c
      else
        let queue := id :: cv_queue c in
        let nodes := <[n_height n := id]> (cv_nodes c) in
        if blockNodeCacheLimit <? Z.of_nat (length queue) then
          match list.last queue ≫= λ del, hp !! del with
          | Some dn => mkCV (delete (n_height dn) nodes) (take (length queue - 1) queue)
          | None => mkCV nodes (take (length queue - 1) queue)
          end
        else mkCV nodes queue
  end.
Definition newChainView (id : nat) : chainView := setTip (mkCV ∅ []) id.

(** The element found under the node's height is removed, whatever node it is. *)
Definition delTip (c : chainView) (id : nat) : chainView :=
  match hp !! id with
  | None => c
  | Some n =>
      match cv_nodes c !! n_height n with
      | Some elem =>
          let delheight := match hp !! elem with Some e => n_height e | None => 0 end in
          mkCV (delete delheight (cv_nodes c)) (filter (λ e, e ≠ elem) (cv_queue c))
      | None => c
      end
  end.

Definition Height (c : chainView) : Z :=
  match Tip c ≫= λ t, hp !! t with Some n => n_height n | None => -1 end.

Definition nodeByHeight (c : chainView) (height : Z) : option nat :=
  if (height <? 0) || (Height c <? height) then None else cv_nodes c !! height.

Definition contains (c : chainView) (id : nat) : bool :=
  match hp !! id with
  | Some n => bool_decide (nodeByHeight c (n_height n) = Some id)
  | None => false
  end.

Definition Next (c : chainView) (p : option nat) : option nat :=
  match p with
  | None => None
  | Some id =>
      if contains c id then
        match hp !! id with Some n => nodeByHeight c (n_height n +₆₄ 1) | None => None end
      else None
  end.

Definition FindFork (c : chainView) (p : option nat) : option nat :=
  match p ≫= λ id, hp !! id with
  | None => None
  | Some n =>
      let start := if Height c <? n_height n then match p with Some id => Ancestor hp id (Height c) | None => None end else p in
      walk (steps start) hp (λ id _, contains c id) start
  end.

Definition view_HaveBlock (c : chainView) (hash : bytes) (height : Z) : bool :=
  match nodeByHeight c height ≫= λ id, hp !! id with
  | Some n => String.eqb hash (n_hash n)
  | None => false
  end.
End View.
