(* ===== verification/OrphanPool.v ===== *)
(** The pool of blocks whose parent is unknown ([blockchain/orphanpool.go]).

    Times are in nanoseconds.  [range] over the map visits its entries in some order,
    which is an argument, as are the readings of the clock. *)

From Stdlib Require Import Ascii String.
From S2P Require Import Prelude Types Tx Block.
Local Open Scope Z_scope.

(** [type orphanBlock struct] *)
Record orphanBlock := mkOrphan { o_block : Block; expiration : Z; o_broadcast : bool; o_pid : string; o_sequence : Z }.

(** [type OrphanPool struct].  A pool entry is never changed, so pointers to it are the
    entry itself. *)
Record OrphanPool := mkOP {
  orphans : gmap bytes orphanBlock; prevOrphans : gmap bytes (list orphanBlock); oldestOrphan : option orphanBlock
}.

Definition maxOrphanBlocks : Z := 10240.
Definition orphanExpirationTime : Z := 600 * 1000000000.

Section OrphanPool.
Context {ENV : BlockEnv}.

Definition NewOrphanPool : OrphanPool := mkOP ∅ ∅ None.
Definition IsKnownOrphan (op : OrphanPool) (hash : bytes) : bool := bool_decide (is_Some (orphans op !! hash)).

(** The walk stops at a hash that is not in the pool. *)
Fixpoint orphan_root (fuel : nat) (op : OrphanPool) (orphanRoot prevHash : bytes) : option bytes :=
  match fuel with
  | O => None
  | S fuel =>
      match orphans op !! prevHash with
      | None => Some orphanRoot
      | Some orphan => orphan_root fuel op prevHash (ParentHash (o_block orphan))
      end
  end.
Definition GetOrphanRoot (op : OrphanPool) (hash : bytes) : option bytes :=
  orphan_root (S (S (size (orphans op)))) op hash hash.

(** Every entry with the hash leaves the list of its parent; an empty list leaves the map. *)
Definition removeOrphanBlock (op : OrphanPool) (orphan : orphanBlock) : OrphanPool :=
  let orphanHash := b_Hash (o_block orphan) in
  let prevHash := ParentHash (o_block orphan) in
  let os := filter (λ o, b_Hash (o_block o) ≠ orphanHash) (default [] (prevOrphans op !! prevHash)) in
  mkOP (delete orphanHash (orphans op))
       (if (length os =? 0)%nat then delete prevHash (prevOrphans op) else <[prevHash := os]> (prevOrphans op))
       (oldestOrphan op).

(** [range op.orphans]: expired blocks are removed, the oldest of the others noted. *)
Fixpoint scan (now : nat → Z) (i : nat) (visit : list orphanBlock) (op : OrphanPool) : OrphanPool :=
  match visit with
  | [] => op
  | o :: visit =>
      if expiration o <? now i then scan now (S i) visit (removeOrphanBlock op o)
      else
        let old :=
          match oldestOrphan op with
          | None => Some o
          | Some x => if expiration o <? expiration x then Some o else Some x
          end in
        scan now (S i) visit (mkOP (orphans op) (prevOrphans op) old)
  end.

(** [limit] is [maxOrphanBlocks], a variable of the package. *)
Definition addOrphanBlock (limit : Z) (visit : list orphanBlock) (now : nat → Z)
    (op : OrphanPool) (broadcast : bool) (block : Block) (pid : string) (sequence : Z) : outcome OrphanPool :=
  let op := scan now 0 visit op in
  op ← (if limit <? Z.of_nat (size (orphans op)) + 1 then
          match oldestOrphan op with
          | None => Panic
          | Some x => let op := removeOrphanBlock op x in Ret (mkOP (orphans op) (prevOrphans op) None)
          end
        else Ret op);
  let o := mkOrphan block (now (length visit) + orphanExpirationTime) broadcast pid sequence in
  let prevHash := ParentHash block in
  Ret (mkOP (<[b_Hash block := o]> (orphans op))
            (<[prevHash := default [] (prevOrphans op !! prevHash) ++ [o]]> (prevOrphans op))
            (oldestOrphan op)).

Definition GetChildOrphanCount (op : OrphanPool) (hash : bytes) : nat := length (default [] (prevOrphans op !! hash)).
Definition getChildOrphan (op : OrphanPool) (hash : bytes) (index : nat) : option orphanBlock :=
  default [] (prevOrphans op !! hash) !! index.
End OrphanPool.
