(* ===== verification/OrphanTheorems.v ===== *)
(** The pool of orphans: it holds at most one block more than its limit, and adding a block
    never panics. *)

From Stdlib Require Import Ascii String.
From S2P Require Import Prelude Types Tx TxTheorems Merkle Block OrphanPool.
Local Open Scope Z_scope.

Section Pool.
Context {ENV : BlockEnv} (limit : Z).
Abbreviation ohash o := (b_Hash (o_block o)).

Definition keyed (op : OrphanPool) : Prop := ∀ h o, orphans op !! h = Some o → ohash o = h.
(** The order in which a walk over the pool visits its blocks. *)
Definition visits (op : OrphanPool) (visit : list orphanBlock) : Prop := visit ≡ₚ (map_to_list (orphans op)).*2.

(** What is done to a pool: a block that is not in it is added, or one that is in it is
    taken out. *)
Inductive pool_step (op : OrphanPool) : OrphanPool → Prop :=
  | pool_add visit now br b pid q op' :
      visits op visit → IsKnownOrphan op (b_Hash b) = false →
      addOrphanBlock limit visit now op br b pid q = Ret op' → pool_step op op'
  | pool_take o : orphans op !! ohash o = Some o → pool_step op (removeOrphanBlock op o).

(** The pool is over the limit by one only after it forgot its oldest block. *)
Definition bounded (op : OrphanPool) : Prop :=
  keyed op ∧ (Z.of_nat (size (orphans op)) <= limit ∨ Z.of_nat (size (orphans op)) = limit + 1 ∧ oldestOrphan op = None).

Lemma keyed_remove op o : keyed op → keyed (removeOrphanBlock op o).
Proof using Type. intros K h x. simpl. intros [_ H]%lookup_delete_Some. by apply K. Qed.

Lemma visits_in op visit : keyed op → visits op visit →
  (∀ o, o ∈ visit → orphans op !! ohash o = Some o) ∧ NoDup ((λ o, ohash o) <$> visit) ∧
  (∀ h o, orphans op !! h = Some o → o ∈ visit).
Proof using Type.
  intros K V. assert (∀ o, o ∈ visit ↔ ∃ h, orphans op !! h = Some o) as Hin.
  { intros o. rewrite V, list_elem_of_fmap. split.
    - intros ([h x] & -> & Hx%elem_of_map_to_list). eauto.
    - intros [h Hx]. exists (h, o). split; [done|]. by apply elem_of_map_to_list. }
  split_and!.
  - intros o [h Ho]%Hin. by rewrite (K h o Ho).
  - unfold visits in V. rewrite V. rewrite <- list_fmap_compose.
    assert (∀ l, (∀ p, p ∈ l → orphans op !! p.1 = Some p.2) → ((λ o, ohash o) ∘ snd) <$> l = l.*1) as El.
    { induction l as [|p l IH]; intros Hl; simpl; [done|]. f_equal; [|apply IH; set_solver].
      apply K. apply Hl. set_solver. }
    rewrite El; [apply NoDup_fst_map_to_list|]. intros [h o] Hp. by apply elem_of_map_to_list.
  - intros h o Ho. apply Hin. eauto.
Qed.

(** ** The walk over the pool *)

Lemma scan_keyed now i visit op : keyed op → keyed (scan now i visit op).
Proof using Type.
  revert i op. induction visit as [|o visit IH]; intros i op K; simpl; [done|].
  destruct (_ <? _); apply IH; [by apply keyed_remove|done].
Qed.
Lemma scan_size now i visit op : (size (orphans (scan now i visit op)) <= size (orphans op))%nat.
Proof using Type.
  revert i op. induction visit as [|o visit IH]; intros i op; simpl; [done|].
  destruct (_ <? _); (etransitivity; [apply IH|]); simpl; [|done]. rewrite map_size_delete. destruct (_ !! _); simpl; lia.
Qed.
Lemma scan_some now i visit op : oldestOrphan op ≠ None → oldestOrphan (scan now i visit op) ≠ None.
Proof using Type.
  revert i op. induction visit as [|o visit IH]; intros i op H; simpl; [done|].
  destruct (_ <? _); apply IH; simpl; [done|]. destruct (oldestOrphan op); [|done]. by destruct (_ <? _).
Qed.
(** A walk that notes no oldest block has emptied the pool of the blocks it visited. *)
Lemma scan_none now i visit op h :
  oldestOrphan (scan now i visit op) = None → h ∈ (λ o, ohash o) <$> visit → orphans (scan now i visit op) !! h = None.
Proof using Type.
  assert (∀ v j p k, orphans p !! k = None → orphans (scan now j v p) !! k = None) as Hgone.
  { induction v as [|x v IHv]; intros j p k Hk; simpl; [done|]. destruct (_ <? _); apply IHv; simpl; [|done].
    destruct (decide (k = ohash x)) as [->|]; [apply lookup_delete_eq|by rewrite lookup_delete_ne]. }
  revert i op. induction visit as [|o visit IH]; intros i op H Hin; simpl in *; [set_solver|].
  destruct (_ <? _).
  - apply elem_of_cons in Hin as [->|Hin]; [|by apply IH]. apply Hgone. simpl. apply lookup_delete_eq.
  - exfalso. revert H. apply scan_some. simpl. destruct (oldestOrphan op); [by destruct (_ <? _)|done].
Qed.
(** Starting without one, the oldest block it notes is still in the pool. *)
Lemma scan_live now i visit op :
  (∀ o, o ∈ visit → orphans op !! ohash o = Some o) → NoDup ((λ o, ohash o) <$> visit) →
  (∀ x, oldestOrphan op = Some x → orphans op !! ohash x = Some x ∧ (ohash x ∉ (λ o, ohash o) <$> visit)) →
  ∀ x, oldestOrphan (scan now i visit op) = Some x → orphans (scan now i visit op) !! ohash x = Some x.
Proof using Type.
  revert i op. induction visit as [|o visit IH]; intros i op Hin Hnd Hold x; simpl; [naive_solver|].
  simpl in Hnd. apply list.NoDup_cons in Hnd as [Hno Hnd].
  assert (∀ y, y ∈ visit → ohash y ≠ ohash o) as Hdiff.
  { intros y Hy E. apply Hno. rewrite <- E. apply list_elem_of_fmap. eauto. }
  destruct (_ <? _).
  - apply IH; [|done|].
    + intros y Hy. simpl. rewrite lookup_delete_ne by (intros E; by apply (Hdiff y Hy)). apply Hin. set_solver.
    + simpl. intros y Hy. destruct (Hold y Hy) as [H1 H2]. split; [|set_solver]. rewrite lookup_delete_ne; [done|]. set_solver.
  - apply IH; [|done|].
    + intros y Hy. simpl. apply Hin. set_solver.
    + simpl. intros y Hy. destruct (oldestOrphan op) as [z|] eqn:Ez.
      * destruct (_ <? _) in Hy; injection Hy as <-; [split; [apply Hin; set_solver|done]|].
        destruct (Hold z eq_refl) as [H1 H2]. split; [done|set_solver].
      * injection Hy as <-. split; [apply Hin; set_solver|done].
Qed.

(** ** The bound *)

Lemma size_insert_cases {V} (m : gmap bytes V) k v : size (<[k:=v]> m) = size m ∨ size (<[k:=v]> m) = S (size m).
Proof using Type. rewrite map_size_insert. destruct (m !! k); auto. Qed.

Lemma add_bounded visit now op br b pid q :
  0 < limit → bounded op → visits op visit →
  ∃ op', addOrphanBlock limit visit now op br b pid q = Ret op' ∧ bounded op'.
Proof using Type.
  intros Hpos [K B] V. destruct (visits_in op visit K V) as (V1 & V2 & V3). unfold addOrphanBlock.
  set (op1 := scan now 0 visit op). assert (keyed op1) as K1 by (by apply scan_keyed).
  assert (size (orphans op1) <= size (orphans op))%nat as S1 by apply scan_size.
  assert (∀ o m pv old, (∀ h x, m !! h = Some x → ohash x = h) → keyed (mkOP (<[ohash o := o]> m) pv old)) as Kins.
  { intros o m pv old Kp h x. simpl. intros [[<- <-]|[_ Hx]]%lookup_insert_Some; [done|by apply Kp]. }
  destruct (Z.ltb_spec limit (Z.of_nat (size (orphans op1)) + 1)) as [Hfull|Hroom].
  - destruct (oldestOrphan op1) as [x|] eqn:Ex.
    + eexists. split; [reflexivity|]. split; [apply (Kins (mkOrphan b _ br pid q)); by apply (keyed_remove op1 x)|]. simpl.
      set (m := delete (ohash x) (orphans op1)).
      assert (Z.of_nat (size m) <= limit) as Sm.
      { unfold m. rewrite map_size_delete. destruct B as [B|[B E0]].
        - destruct (orphans op1 !! ohash x); simpl; lia.
        - assert (orphans op1 !! ohash x = Some x) as ->; [|simpl; lia].
          apply (scan_live now 0 visit op V1 V2); [|done]. intros y Hy. congruence. }
      destruct (size_insert_cases m (b_Hash b) (mkOrphan b (now (length visit) + orphanExpirationTime) br pid q)) as [->| ->]; [left; lia|].
      destruct (decide (Z.of_nat (size m) = limit)); [right; split; [lia|done]|left; lia].
    + exfalso. assert (orphans op1 = ∅) as E.
      { apply map_empty. intros h. destruct (orphans op !! h) as [o|] eqn:Eo.
        - apply scan_none; [done|]. rewrite <- (K h o Eo). apply list_elem_of_fmap. exists o. split; [done|by eapply V3].
        - clear -Eo. unfold op1. revert Eo. generalize 0%nat. generalize op. induction visit as [|x v IH]; intros p i Hp; simpl; [done|].
          destruct (_ <? _); apply IH; simpl; [|done]. destruct (decide (h = ohash x)) as [->|]; [apply lookup_delete_eq|by rewrite lookup_delete_ne]. }
      rewrite E, map_size_empty in Hfull. lia.
  - eexists. split; [reflexivity|]. split; [by apply (Kins (mkOrphan b _ br pid q))|]. simpl. left.
    destruct (size_insert_cases (orphans op1) (b_Hash b) (mkOrphan b (now (length visit) + orphanExpirationTime) br pid q)) as [->| ->]; lia.
Qed.
End Pool.

Lemma reach_bounded {ENV : BlockEnv} limit op : 0 < limit → rtc (pool_step limit) NewOrphanPool op → bounded limit op.
Proof.
  intros Hpos. apply (rtc_ind_r (λ op, bounded limit op)).
  { split; [by intros h o|]. left. simpl. rewrite map_size_empty. lia. }
  intros x y _ [visit now br b pid q op' V _ E|o Ho] [K B].
  - destruct (add_bounded limit visit now x br b pid q Hpos (conj K B) V) as (op'' & E' & B'). rewrite E in E'. by injection E' as <-.
  - split; [by apply keyed_remove|]. simpl. rewrite map_size_delete, Ho.
    assert (size (orphans x) ≠ 0)%nat by (eapply map_size_ne_0_lookup_2; eauto). destruct B as [B|[B E]]; [left; lia|left; lia].
Qed.

(** C34: however orphans arrive, expire and are taken out, the pool never holds more than
    one block above its limit, and adding to it never panics. *)
Theorem orphan_bound {ENV : BlockEnv} limit op :
  0 < limit → rtc (pool_step limit) NewOrphanPool op →
  Z.of_nat (size (orphans op)) <= limit + 1 ∧
  ∀ visit now br b pid q, visits op visit →
    ∃ op', addOrphanBlock limit visit now op br b pid q = Ret op' ∧ Z.of_nat (size (orphans op')) <= limit + 1.
Proof.
  intros Hpos H. pose proof (reach_bounded limit op Hpos H) as B. split; [destruct B as [_ [?|[? _]]]; lia|].
  intros visit now br b pid q V. destruct (add_bounded limit visit now op br b pid q Hpos B V) as (op' & E & B').
  exists op'. split; [done|]. destruct B' as [_ [?|[? _]]]; lia.
Qed.

(** ** The limit can be exceeded *)

Module OrphanDemo.
#[local] Existing Instance BlockDemo.env.
Definition orphan (n : Z) : Block := mkBlock 0 "unknown" "" "" 5 n 520159231 "" 0 None [].
(** Clock readings of the n-th call. *)
Definition clock (n : Z) : nat → Z := λ _, n * 1000000000.
Definition add (limit n : Z) (op : OrphanPool) : OrphanPool :=
  match addOrphanBlock limit (map_to_list (orphans op)).*2 (clock n) op false (orphan n) "peer" 0 with Ret op' => op' | _ => op end.
Definition take_out (n : Z) (op : OrphanPool) : OrphanPool :=
  match orphans op !! b_Hash (orphan n) with Some o => removeOrphanBlock op o | None => op end.
(** Two orphans, of which the first, noted as the oldest, finds its parent; then two more. *)
Definition pool : OrphanPool := add 2 4 (add 2 3 (take_out 1 (add 2 2 (add 2 1 NewOrphanPool)))).

Lemma add_step limit n op :
  addOrphanBlock limit (map_to_list (orphans op)).*2 (clock n) op false (orphan n) "peer" 0 ≠ Panic →
  IsKnownOrphan op (b_Hash (orphan n)) = false → pool_step limit op (add limit n op).
Proof.
  intros Hp Hk. unfold add. destruct (addOrphanBlock _ _ _ _ _ _ _ _) as [op'|e|] eqn:E; [|exfalso|done].
  - eapply pool_add; [|exact Hk|exact E]. unfold visits. done.
  - unfold addOrphanBlock in E. destruct (_ <? _); [|done]. by destruct (oldestOrphan _).
Qed.
Lemma take_step limit n op o : orphans op !! b_Hash (orphan n) = Some o → b_Hash (o_block o) = b_Hash (orphan n) →
  pool_step limit op (take_out n op).
Proof. intros H E. unfold take_out. rewrite H. apply pool_take. by rewrite E. Qed.
End OrphanDemo.

(** A pool whose noted oldest block has left it grows over its limit. *)
Lemma orphan_over_limit :
  rtc (@pool_step BlockDemo.env 2) NewOrphanPool OrphanDemo.pool ∧ size (orphans OrphanDemo.pool) = 3%nat.
Proof.
  split; [|vm_compute; reflexivity]. unfold OrphanDemo.pool.
  apply (rtc_l _ _ (OrphanDemo.add 2 1 NewOrphanPool)).
  { apply OrphanDemo.add_step; [intros H; vm_compute in H; discriminate H|vm_compute; reflexivity]. }
  apply (rtc_l _ _ (OrphanDemo.add 2 2 (OrphanDemo.add 2 1 NewOrphanPool))).
  { apply OrphanDemo.add_step; [intros H; vm_compute in H; discriminate H|vm_compute; reflexivity]. }
  apply (rtc_l _ _ (OrphanDemo.take_out 1 (OrphanDemo.add 2 2 (OrphanDemo.add 2 1 NewOrphanPool)))).
  { eapply OrphanDemo.take_step; [vm_compute; reflexivity|reflexivity]. }
  apply (rtc_l _ _ (OrphanDemo.add 2 3 (OrphanDemo.take_out 1 (OrphanDemo.add 2 2 (OrphanDemo.add 2 1 NewOrphanPool))))).
  { apply OrphanDemo.add_step; [intros H; vm_compute in H; discriminate H|vm_compute; reflexivity]. }
  apply rtc_once. apply OrphanDemo.add_step; [intros H; vm_compute in H; discriminate H|vm_compute; reflexivity].
Qed.

Lemma orphan_bound_witness :
  0 < 2 ∧ rtc (@pool_step BlockDemo.env 2) NewOrphanPool OrphanDemo.pool ∧
  Z.of_nat (size (orphans OrphanDemo.pool)) <= 2 + 1.
Proof.
  split; [lia|]. split; [apply orphan_over_limit|].
  apply (@orphan_bound BlockDemo.env 2 OrphanDemo.pool); [lia|apply orphan_over_limit].
Defined.
