(* ===== verification/BlockCache.v ===== *)
(** The cache of the newest blocks and their transactions ([blockchain/cache.go]), and the
    query for duplicate transactions ([blockchain/query_tx.go]). *)

From Stdlib Require Import Ascii String.
From S2P Require Import Prelude Types Fork Tx Block.
Local Open Scope Z_scope.

(** [type BlockCache struct].  The list of blocks is oldest first; its elements have an
    identity, to which [cache] and [cacheHash] point. *)
Abbreviation elem := (nat * BlockDetail)%type.
Record BlockCache := mkBC {
  bc_cache : gmap Z elem; bc_cacheHash : gmap bytes elem; bc_cacheTxs : gset bytes;
  bc_cacheSize : Z; bc_queue : list elem; bc_maxHeight : Z; bc_next : nat
}.
Definition NewBlockCache (defCacheSize : Z) : BlockCache := mkBC ∅ ∅ ∅ defCacheSize [] 0 0.

Section BlockCache.
(** [Debug] is [types.Debug]. *)
Context {ENV : BlockEnv} (Debug : bool).

Definition detail_txs (d : BlockDetail) : gset bytes := list_to_set (Hash <$> Txs (bd_Block d)).

(** [list.Remove]: an element that is not in the list any more stays away. *)
Definition remove_elem (e : elem) (q : list elem) : list elem := filter (λ x, x.1 ≠ e.1) q.

Definition CheckcacheBlock (c : BlockCache) (height : Z) : option BlockDetail * BlockCache :=
  match bc_cache c !! height with
  | Some e =>
      let q := if bool_decide (e.1 ∈ (bc_queue c).*1) then remove_elem e (bc_queue c) ++ [e] else bc_queue c in
      (Some e.2, mkBC (bc_cache c) (bc_cacheHash c) (bc_cacheTxs c) (bc_cacheSize c) q (bc_maxHeight c) (bc_next c))
  | None => (None, c)
  end.
Definition GetCacheBlock (c : BlockCache) (hash : bytes) : option BlockDetail := snd <$> bc_cacheHash c !! hash.
Definition HasCacheTx (c : BlockCache) (hash : bytes) : bool := bool_decide (hash ∈ bc_cacheTxs c).

Definition addCacheBlock (c : BlockCache) (d : BlockDetail) : BlockCache :=
  let e : elem := (bc_next c, d) in
  mkBC (<[b_Height (bd_Block d) := e]> (bc_cache c)) (<[b_Hash (bd_Block d) := e]> (bc_cacheHash c))
    (detail_txs d ∪ bc_cacheTxs c) (bc_cacheSize c) (bc_queue c ++ [e]) (bc_maxHeight c) (S (bc_next c)).
Definition delCacheBlock (c : BlockCache) (d : BlockDetail) : BlockCache :=
  mkBC (delete (b_Height (bd_Block d)) (bc_cache c)) (delete (b_Hash (bd_Block d)) (bc_cacheHash c))
    (bc_cacheTxs c ∖ detail_txs d) (bc_cacheSize c) (bc_queue c) (bc_maxHeight c) (bc_next c).

Definition set_queue (c : BlockCache) q := mkBC (bc_cache c) (bc_cacheHash c) (bc_cacheTxs c) (bc_cacheSize c) q (bc_maxHeight c) (bc_next c).
Definition set_maxHeight (c : BlockCache) h := mkBC (bc_cache c) (bc_cacheHash c) (bc_cacheTxs c) (bc_cacheSize c) (bc_queue c) h (bc_next c).

Definition cacheBlock (c : BlockCache) (d : BlockDetail) : outcome BlockCache :=
  let height := b_Height (bd_Block d) in
  if (0 <? bc_maxHeight c) && negb (height =? bc_maxHeight c +₆₄ 1) && Debug then Panic
  else
    let c := addCacheBlock (set_maxHeight c height) d in
    Ret (if bc_cacheSize c <? Z.of_nat (length (bc_queue c)) then
           match bc_queue c with
           | front :: q => delCacheBlock (set_queue c q) front.2
           | [] => c
           end
         else c).

Definition delBlockFromCache (c : BlockCache) (height : Z) : outcome BlockCache :=
  if (0 <? bc_maxHeight c) && negb (height =? bc_maxHeight c) && Debug then Panic
  else
    let c := set_maxHeight c (height -₆₄ 1) in
    Ret match bc_cache c !! height with
        | Some e => delCacheBlock (set_queue c (remove_elem e (bc_queue c))) e.2
        | None => c
        end.
End BlockCache.
