(* ===== verification/DupTx.v ===== *)
(** Which transactions are already in the chain ([blockchain/query_tx.go], [HasTx] of
    [blockchain/blockstore.go]): the query behind the removal of duplicates, answered from the
    cache of the newest blocks and the index of transactions. *)

From Stdlib Require Import Ascii String.
From S2P Require Import Prelude DbIter Mvcc Types Account Fork Tx TxTheorems Block BlockCache LocalDB Executor ExecutorDemo Plugins PluginTheorems.
Local Open Scope string_scope.
Local Open Scope Z_scope.

Section DupTx.
Context {ENV : ExecEnv} {PE : PluginEnv} (C : TxConfig).

(** The short index with [quickIndex], or the index by hash; slicing a short hash panics. *)
Definition bs_HasTx (db : gmap bytes bytes) (key : bytes) : outcome bool :=
  if quickIndex then
    match CalcTxShortKey key with
    | None => Panic
    | Some k => match db !! k with Some _ => Ret true | None => Ret false end
    end
  else match db !! CalcTxKey key with Some _ => Ret true | None => Ret false end.

Definition HasTx (cache : BlockCache) (db : gmap bytes bytes) (txhash : bytes) (onlyquerycache : bool) : outcome bool :=
  if HasCacheTx cache txhash then Ret true
  else if onlyquerycache then Ret false
  else bs_HasTx db txhash.

(** The loop over hashes and expiries; [onlyquerycache] is kept from one turn to the next. *)
Fixpoint dup_loop (cache : BlockCache) (db : gmap bytes bytes) (count : Z) (onlyquerycache : bool) (l : list (bytes * Z)) : outcome (list bytes) :=
  match l with
  | [] => Ret []
  | (txhash, expire) :: l =>
      txHeight ← GetTxHeight C expire count;
      let onlyquerycache := (0 <? txHeight) || onlyquerycache in
      has ← match HasTx cache db txhash onlyquerycache with Ret b => Ret b | Err _ => Ret false | Panic => Panic end;
      rest ← dup_loop cache db count onlyquerycache l;
      Ret (if has : bool then txhash :: rest else rest)
  end.
(** [type TxHashList struct]: [expire] may be nil. *)
Definition GetDuplicateTxHashList (cache : BlockCache) (db : gmap bytes bytes) (hashes : list bytes) (expire : option (list Z)) (count : Z) : outcome (list bytes) :=
  let onlyquerycache := count =? -1 in
  match expire with
  | None => dup_loop cache db count onlyquerycache ((λ h, (h, 0)) <$> hashes)
  | Some es =>
      if negb (length es =? length hashes)%nat then Err (ErrOther "ErrInvalidParam")
      else dup_loop cache db count onlyquerycache (zip hashes es)
  end.

(** The blockchain module's answer to the query of [CheckTxDup]. *)
Definition answer_dup (cache : BlockCache) (db : gmap bytes bytes) (l : list (bytes * Z)) (count : Z) : outcome (list bytes) :=
  GetDuplicateTxHashList cache db l.*1 (Some l.*2) count.

(** ** What the chain holds *)

Definition in_chain (main : list BlockDetail) (h : bytes) : Prop := Exists (λ d, h ∈ Hash <$> Txs (bd_Block d)) main.
#[local] Instance in_chain_dec main h : Decision (in_chain main h).
Proof using Type. unfold in_chain. apply _. Defined.

(** *** The stored index *)

(** The pairs the plugin [txindex] made of the blocks of the chain, one block after the other. *)
Inductive chain_pairs : list BlockDetail → Executor.LocalKV → Prop :=
  | pairs_nil : chain_pairs [] []
  | pairs_snoc main kvs d s kvs' s' :
      chain_pairs main kvs →
      pl_ExecLocal (txindex (b_Height (bd_Block d)) (BlockTime (bd_Block d))) d s = (Ret kvs', s') →
      chain_pairs (main ++ [d])%list (kvs ++ kvs')%list.

(** At the keys a hash is looked up by, the store holds what those pairs left. *)
Definition stores_index (db : gmap bytes bytes) (main : list BlockDetail) : Prop :=
  ∃ kvs, chain_pairs main kvs ∧
    ∀ tx k, k = CalcTxKey (Hash tx) ∨ CalcTxShortKey (Hash tx) = Some k → db !! k = GoMemDB.apply_kvs kvs ∅ !! k.

(** With [quickIndex], no transaction of the chain shares the first eight bytes of its hash
    with a different hash [h]. *)
Definition short_unique (main : list BlockDetail) (h : bytes) : Prop :=
  quickIndex = true → ∀ d tx, d ∈ main → tx ∈ Txs (bd_Block d) → str_take 8 (Hash tx) = str_take 8 h → Hash tx = h.

(** The keys the plugin writes are those of the hashes of its transactions; nothing is deleted. *)
Lemma txindex_pairs height blocktime txs i rs s kvs s' :
  each_tx (λ tx r i, now (getTx height blocktime tx r i)) i txs rs s = (Ret kvs, s') →
  (∀ k v, (k, v) ∈ kvs → is_Some v ∧ ∃ tx, tx ∈ txs ∧ (k = CalcTxKey (Hash tx) ∨ quickIndex = true ∧ k = short_key (Hash tx))) ∧
  (∀ tx, tx ∈ txs → CalcTxKey (Hash tx) ∈ kvs.*1 ∧ (quickIndex = true → short_key (Hash tx) ∈ kvs.*1)).
Proof using Type.
  revert i rs kvs s. induction txs as [|tx txs IH]; intros i rs kvs s E; cbn [each_tx] in E.
  { injection E as <- <-. split; [by intros k v ?%elem_of_nil|by intros tx ?%elem_of_nil]. }
  destruct rs as [|r rs]; [done|]. apply bind_inv in E as (k1 & s1 & E1 & (k2 & s2 & E2 & E3)%bind_inv). injection E3 as <- <-.
  injection E1 as E1 _. apply getTx_inv in E1 as ->. destruct (IH _ _ _ _ E2) as [H1 H2]. split.
  - intros k v [Hk|Hk]%elem_of_app; [|destruct (H1 k v Hk) as (? & tx' & ? & ?); split; [done|exists tx'; split; [by right|done]]].
    unfold tx_pairs in Hk. apply elem_of_cons in Hk as [[= -> ->]|Hk]; [split; [by eexists|exists tx; split; [left|by left]]|].
    destruct quickIndex; [|by apply elem_of_nil in Hk]. apply list_elem_of_singleton in Hk as [= -> ->].
    split; [by eexists|]. exists tx. split; [left|by right].
  - intros tx' [->|Htx]%elem_of_cons; rewrite fmap_app.
    + unfold tx_pairs. split; [apply elem_of_app; left; left|]. intros ->. apply elem_of_app. left. right. left.
    + destruct (H2 tx' Htx) as [? H3]. split; [apply elem_of_app; by right|]. intros Hq. apply elem_of_app. right. by apply H3.
Qed.

Lemma chain_pairs_spec main kvs : chain_pairs main kvs →
  (∀ k v, (k, v) ∈ kvs → is_Some v ∧ ∃ d tx, d ∈ main ∧ tx ∈ Txs (bd_Block d) ∧ (k = CalcTxKey (Hash tx) ∨ quickIndex = true ∧ k = short_key (Hash tx))) ∧
  (∀ d tx, d ∈ main → tx ∈ Txs (bd_Block d) → CalcTxKey (Hash tx) ∈ kvs.*1 ∧ (quickIndex = true → short_key (Hash tx) ∈ kvs.*1)).
Proof using Type.
  induction 1 as [|main kvs d s kvs' s' _ [I1 I2] E]; [split; [by intros k v ?%elem_of_nil|by intros d tx ?%elem_of_nil]|].
  destruct (txindex_pairs _ _ _ _ _ _ _ _ E) as [J1 J2]. split.
  - intros k v [Hk|Hk]%elem_of_app.
    + destruct (I1 k v Hk) as (? & d' & tx & ? & ? & ?). split; [done|]. exists d', tx. split; [|done]. apply elem_of_app. by left.
    + destruct (J1 k v Hk) as (? & tx & ? & ?). split; [done|]. exists d, tx. split; [|done]. apply elem_of_app. right. left.
  - intros d' tx [Hd|Hd%list_elem_of_singleton]%elem_of_app Htx; rewrite fmap_app.
    + destruct (I2 d' tx Hd Htx) as [? H3]. split; [apply elem_of_app; by left|]. intros Hq. apply elem_of_app. left. by apply H3.
    + subst d'. destruct (J2 tx Htx) as [? H3]. split; [apply elem_of_app; by right|]. intros Hq. apply elem_of_app. right. by apply H3.
Qed.

(** A key is in the store when a pair of the plugin wrote it. *)
Lemma pairs_stored kvs k : (∀ k v, (k, v) ∈ kvs → is_Some v) → is_Some (GoMemDB.apply_kvs kvs ∅ !! k) ↔ k ∈ kvs.*1.
Proof using Type.
  intros Hs. rewrite GoMemDB.lookup_apply_kvs. destruct (GoMemDB.last_write k kvs) as [w|] eqn:E.
  - apply GoMemDB.last_write_Some in E. split; [|intros _; by apply (Hs k)]. intros _. apply list_elem_of_fmap. by exists (k, w).
  - apply GoMemDB.last_write_None in E. rewrite lookup_empty. split; [by intros [? ?]|done].
Qed.

Lemma short_key_inj h h' : short_key h = short_key h' → str_take 8 h = str_take 8 h'.
Proof using Type. unfold short_key. generalize (str_take 8 h) (str_take 8 h'). intros a b [= E]. exact E. Qed.
Lemma tx_short_key tx : CalcTxShortKey (Hash tx) = Some (short_key (Hash tx)).
Proof using Type. unfold CalcTxShortKey. by rewrite Hash_length. Qed.
Lemma CalcTxKey_inj h h' : CalcTxKey h = CalcTxKey h' → h = h'.
Proof using Type. unfold CalcTxKey, TxHashPerfix. destruct quickIndex; [|done]. simpl. by intros [= ->]. Qed.
Lemma CalcTxKey_short h h' : quickIndex = true → CalcTxKey h ≠ short_key h'.
Proof using Type. intros Hq. unfold CalcTxKey. by rewrite Hq. Qed.

(** The store knows a hash exactly when the chain has the transaction. *)
Lemma bs_HasTx_spec db main tx : stores_index db main → short_unique main (Hash tx) →
  bs_HasTx db (Hash tx) = Ret (bool_decide (in_chain main (Hash tx))).
Proof using Type.
  intros (kvs & Hc & Hdb) Hu. destruct (chain_pairs_spec main kvs Hc) as [H1 H2].
  assert (∀ k v, (k, v) ∈ kvs → is_Some v) as Hsome by (intros k v Hk; by apply (H1 k v)).
  assert (∀ k, k = CalcTxKey (Hash tx) ∨ CalcTxShortKey (Hash tx) = Some k → (k ∈ kvs.*1 ↔ in_chain main (Hash tx)) →
    match db !! k with Some _ => Ret true | None => Ret false end = Ret (bool_decide (in_chain main (Hash tx)))) as Hgo.
  { intros k Hk Hiff. rewrite (Hdb tx k Hk). rewrite <-(pairs_stored kvs k Hsome) in Hiff.
    destruct (GoMemDB.apply_kvs kvs ∅ !! k); f_equal; symmetry; [apply bool_decide_eq_true_2, Hiff; eauto|apply bool_decide_eq_false_2].
    intros [? ?]%Hiff. done. }
  unfold bs_HasTx. destruct quickIndex eqn:Hq.
  - rewrite tx_short_key. apply Hgo; [right; apply tx_short_key|]. split.
    + intros ([k v] & Ek' & Hk)%list_elem_of_fmap. simpl in Ek'. subst k.
      destruct (H1 _ _ Hk) as (_ & d & tx' & Hd & Ht & [Ek|[_ Ek]]); [by destruct (CalcTxKey_short (Hash tx') (Hash tx) Hq)|].
      apply list.Exists_exists. exists d. split; [done|]. apply short_key_inj in Ek.
      rewrite <-(Hu Hq d tx' Hd Ht (eq_sym Ek)). by apply list_elem_of_fmap_2.
    + intros (d & Hd & (tx' & E & Ht)%list_elem_of_fmap)%list.Exists_exists. rewrite E. by apply (H2 d tx').
  - apply Hgo; [by left|]. split.
    + intros ([k v] & Ek' & Hk)%list_elem_of_fmap. simpl in Ek'. subst k. destruct (H1 _ _ Hk) as (_ & d & tx' & Hd & Ht & [Ek|[? _]]); [|congruence].
      apply CalcTxKey_inj in Ek. apply list.Exists_exists. exists d. split; [done|]. rewrite Ek. by apply list_elem_of_fmap_2.
    + intros (d & Hd & (tx' & E & Ht)%list_elem_of_fmap)%list.Exists_exists. rewrite E. by apply (H2 d tx').
Qed.

(** *** The cache *)

(** The store's answer is right; it holds for the hash of a transaction by [bs_HasTx_spec]. *)
Definition index_ok (db : gmap bytes bytes) (main : list BlockDetail) (h : bytes) : Prop := bs_HasTx db h = Ret (bool_decide (in_chain main h)).
(** The cache holds only what the chain holds. *)
Definition cache_sound (cache : BlockCache) (main : list BlockDetail) : Prop := ∀ h, h ∈ bc_cacheTxs cache → in_chain main h.
(** All transactions of the newest [n] blocks are in the cache. *)
Definition cache_covers (n : Z) (cache : BlockCache) (main : list BlockDetail) : Prop :=
  ∀ i d h, main !! i = Some d → Z.of_nat (length main) - n <= Z.of_nat i → h ∈ Hash <$> Txs (bd_Block d) → h ∈ bc_cacheTxs cache.

(** A transaction that carries its height [th] was packed only near that height. *)
Definition near (main : list BlockDetail) (th : Z) (h : bytes) : Prop :=
  ∀ i d, main !! i = Some d → h ∈ Hash <$> Txs (bd_Block d) → th - LowAllowPackHeight <= Z.of_nat i.

(** ** Proofs *)

Definition known (cache : BlockCache) (main : list BlockDetail) (only : bool) (h : bytes) : Prop :=
  h ∈ bc_cacheTxs cache ∨ (only = false ∧ in_chain main h).
#[local] Instance known_dec cache main only h : Decision (known cache main only h).
Proof using Type. unfold known. apply _. Defined.

Lemma HasTx_spec cache db main only h : cache_sound cache main → index_ok db main h → HasTx cache db h only = Ret (bool_decide (known cache main only h)).
Proof using Type.
  intros Hc Hi. unfold HasTx, HasCacheTx, known. case_bool_decide as E; [by rewrite bool_decide_eq_true_2 by auto|].
  destruct only; [rewrite bool_decide_eq_false_2 by naive_solver; done|]. rewrite Hi. f_equal. apply bool_decide_ext. naive_solver.
Qed.

(** The heights the expiries stand for: positive for a transaction that carries its height. *)
Definition heights (count : Z) (l : list (bytes * Z)) (ths : list Z) : Prop := Forall2 (λ he th, GetTxHeight C he.2 count = Ret th) l ths.

(** Ordinary transactions, while none before carried its height: the whole chain counts. *)
Lemma dup_ordinary cache db main count l1 l2 ths :
  cache_sound cache main → (∀ h, h ∈ l1.*1 → index_ok db main h) → heights count l1 ths → Forall (λ th, th <= 0) ths →
  dup_loop cache db count false (l1 ++ l2) =
    (rest ← dup_loop cache db count false l2; Ret ((filter (in_chain main) l1.*1) ++ rest)%list).
Proof using Type.
  intros Hc Hi Hh. revert Hi. induction Hh as [|[h e] th l1 ths E Hh IH]; intros Hi Hths; simpl.
  { by destruct (dup_loop cache db count false l2). }
  apply list.Forall_cons_1 in Hths as [Hth Hths]. simpl in E. rewrite E. cbn [mbind outcome_bind].
  rewrite (proj2 (Z.ltb_ge 0 th)) by lia. cbn [orb]. rewrite (HasTx_spec cache db main false h Hc) by (apply Hi; set_solver).
  cbn [mbind outcome_bind]. rewrite IH by set_solver. rewrite filter_cons.
  assert (bool_decide (known cache main false h) = bool_decide (in_chain main h)) as -> by (apply bool_decide_ext; unfold known; naive_solver).
  destruct (dup_loop cache db count false l2) as [rest|err|]; cbn [mbind outcome_bind]; [|done|done].
  case_bool_decide; [rewrite decide_True by done|rewrite decide_False by done]; done.
Qed.

(** From the first transaction that carries its height on, only the cache counts. *)
Lemma dup_cached cache db main count only l ths :
  cache_sound cache main → heights count l ths → only = true ∨ Forall (λ th, 0 < th) ths →
  dup_loop cache db count only l = Ret (filter (λ h, h ∈ bc_cacheTxs cache) l.*1).
Proof using Type.
  intros Hc Hh. revert only. induction Hh as [|[h e] th l ths E Hh IH]; intros only Hpos; [done|].
  cbn [dup_loop fmap list_fmap fst]. simpl in E. rewrite E. cbn [mbind outcome_bind].
  assert ((0 <? th) || only = true) as -> by (destruct Hpos as [->|Hp]; [apply orb_true_r|apply list.Forall_cons_1 in Hp as [? _]; lia]).
  unfold HasTx, HasCacheTx. rewrite IH by auto. rewrite filter_cons. case_bool_decide; cbn [mbind outcome_bind];
    [rewrite decide_True by done|rewrite decide_False by done]; done.
Qed.

(** The hashes and expiries of transactions. *)
Definition asked (txs : list Transaction) : list (bytes * Z) := (λ tx, (Hash tx, Expire tx)) <$> txs.
Lemma asked_hashes txs : (asked txs).*1 = Hash <$> txs.
Proof using Type. unfold asked. by rewrite <-list_fmap_compose. Qed.

Lemma zip_back {A B} (l : list (A * B)) : zip l.*1 l.*2 = l.
Proof using Type. induction l as [|[a b] l IH]; simpl; [done|by f_equal]. Qed.

(** A transaction that carries a height that is still allowed is found in the newest 120 blocks. *)
Lemma covered cache main th h : cache_covers (LowAllowPackHeight + HighAllowPackHeight) cache main →
  near main th h → Z.of_nat (length main) <= th + HighAllowPackHeight → in_chain main h → h ∈ bc_cacheTxs cache.
Proof using Type.
  intros Hcov Hn Hth (d & Hd & Hh)%list.Exists_exists. apply list_elem_of_lookup in Hd as [i Hi].
  apply (Hcov i d h); [done| |done]. specialize (Hn i d Hi Hh). lia.
Qed.

(** C26: nothing is executed twice.  Given that
    - the store holds the pairs that the plugin [txindex] made of the blocks of the chain, and
      with [quickIndex] no other transaction of the chain shares the first eight bytes of an
      ordinary transaction's hash;
    - the cache holds transactions of the chain, and all of the newest 120 blocks;
    - the transactions of the new block that carry their height come after the others, may
      still be packed at this height, and were never packed more than 30 blocks before it;
    then [CheckTxDup], asking [GetDuplicateTxHashList], keeps exactly the transactions that are not in the chain. *)
Theorem no_replay sv cache db main txs ord carr ths ths' :
  let count := Z.of_nat (length main) in
  (∀ l n, ask_dup sv l n = answer_dup cache db l n) →
  (if ForkCheckTxDup count then DelDupTx txs else txs) = (ord ++ carr)%list →
  cache_sound cache main → cache_covers (LowAllowPackHeight + HighAllowPackHeight) cache main →
  stores_index db main → Forall (λ tx, short_unique main (Hash tx)) ord →
  heights count (asked ord) ths → Forall (λ th, th <= 0) ths →
  heights count (asked carr) ths' → Forall (λ th, 0 < th) ths' →
  Forall2 (λ tx th, near main th (Hash tx) ∧ count <= th + HighAllowPackHeight) carr ths' →
  CheckTxDup sv txs count = Ret (filter (λ tx, ¬ in_chain main (Hash tx)) (ord ++ carr)%list).
Proof using Type.
  intros count Hsv Htxs Hc Hcov Hst Hi Ho Ho' Hh Hh' Hnear. unfold CheckTxDup. rewrite Htxs. fold (asked (ord ++ carr)%list). rewrite Hsv. unfold answer_dup, GetDuplicateTxHashList.
  rewrite !length_fmap, Nat.eqb_refl, zip_back. cbn [negb]. destruct (Z.eqb_spec count (-1)) as [?|_]; [lia|].
  unfold asked at 1. rewrite fmap_app. fold (asked ord) (asked carr).
  assert (∀ h, h ∈ (asked ord).*1 → index_ok db main h) as Hi'.
  { rewrite asked_hashes. intros h (tx & -> & Htx)%list_elem_of_fmap. rewrite list.Forall_forall in Hi. by apply bs_HasTx_spec, Hi. }
  rewrite (dup_ordinary cache db main count _ _ ths Hc Hi' Ho Ho').
  rewrite (dup_cached cache db main count false _ ths' Hc Hh) by auto. cbn [mbind outcome_bind]. f_equal.
  apply filter_ext_in. intros tx Htx. rewrite elem_of_list_to_set, elem_of_app, !list_elem_of_filter, !asked_hashes.
  apply elem_of_app in Htx as [Htx|Htx].
  - split; [|naive_solver]. intros Hno Hin. apply Hno. left. split; [done|by apply list_elem_of_fmap_2].
  - split; [|naive_solver]. intros Hno Hin. apply Hno. right. split; [|by apply list_elem_of_fmap_2].
    apply list_elem_of_lookup in Htx as [i Htx]. destruct (Forall2_lookup_l _ _ _ _ _ Hnear Htx) as (th & _ & Hn & Hth).
    by apply (covered cache main th).
Qed.
End DupTx.

(** ** Witnesses *)

Module DupTxDemo.
#[local] Existing Instances ExecutorDemo.env PluginDemo.penv.

Definition C : TxConfig := {| tc_forks := {[ "chain" := {[ "ForkTxHeight" := 0 ]} ]}; tc_title := "chain"; tc_TxHeight := true |}.
Definition at_height (h : Z) (tx : Transaction) : Transaction := set_Expire tx (TxHeightFlag + h).
Definition old : Transaction := BlockDemo.tx "bob" "1" 1.
Definition late : Transaction := at_height 2 (BlockDemo.tx "bob" "2" 2).
Definition fresh : Transaction := BlockDemo.tx "bob" "3" 3.
Definition coming : Transaction := at_height 3 (BlockDemo.tx "bob" "4" 4).
Definition block (h : Z) (txs : list Transaction) : BlockDetail := mkBD (mkBlock 0 "" "" "" h 100 0 "" 0 None txs) ((λ _, mkRD ExecOk []) <$> txs) [] "".
Definition main : list BlockDetail := [block 0 [old]; block 1 []; block 2 [late]].
(** The index of the chain, and a record of something else. *)
Definition pairs (d : BlockDetail) : Executor.LocalKV :=
  match (pl_ExecLocal (txindex (b_Height (bd_Block d)) (BlockTime (bd_Block d))) d (mkFlags 0 0, ExecutorDemo.start)).1 with Ret kvs => kvs | _ => [] end.
Definition db : gmap bytes bytes := <["LastHeader" := "2"]> (GoMemDB.apply_kvs (main ≫= pairs) ∅).
Definition cache (size : Z) : BlockCache :=
  foldl (λ c d, match cacheBlock false c d with Ret c => c | _ => c end) (NewBlockCache size) main.

Definition sv (size : Z) : Services := {|
  ask_dup := answer_dup C (cache size) db; ask_exec := ask_exec BlockDemo.services; ask_memset := ask_memset BlockDemo.services;
  ask_check := ask_check BlockDemo.services; ask_commit := ask_commit BlockDemo.services;
  ask_local := ask_local BlockDemo.services; ask_del_local := ask_del_local BlockDemo.services |}.

Definition proposed : list Transaction := [old; fresh; late; coming].
Lemma whole_list : (if ForkCheckTxDup (Z.of_nat (length main)) then DelDupTx proposed else proposed) = ([old; fresh] ++ [late; coming])%list.
Proof. vm_compute. reflexivity. Qed.
Lemma sound : cache_sound (cache 128) main.
Proof.
  assert (set_Forall (in_chain main) (bc_cacheTxs (cache 128))) as H by (apply (bool_decide_unpack _); vm_compute; exact I). exact H.
Qed.
Lemma covers n : cache_covers n (cache 128) main.
Proof.
  assert (Forall (λ d, Forall (λ h, h ∈ bc_cacheTxs (cache 128)) (Hash <$> Txs (bd_Block d))) main) as H by (apply (bool_decide_unpack _); vm_compute; exact I).
  intros i d h Hi _ Hh. rewrite list.Forall_forall in H. specialize (H d (list_elem_of_lookup_2 _ _ _ Hi)). rewrite list.Forall_forall in H. by apply H.
Qed.
Lemma main_pairs : chain_pairs main (main ≫= pairs).
Proof.
  assert (∀ l kvs d, chain_pairs l kvs → match (pl_ExecLocal (txindex (b_Height (bd_Block d)) (BlockTime (bd_Block d))) d (mkFlags 0 0, ExecutorDemo.start)).1 with Ret _ => true | _ => false end = true →
    chain_pairs (l ++ [d])%list (kvs ++ pairs d)%list) as Hgo.
  { intros l kvs d H Hr. unfold pairs. destruct (pl_ExecLocal _ d _) as [[k|?|] s'] eqn:E; [|done..]. by eapply pairs_snoc. }
  assert ((main ≫= pairs) = ((([] ++ pairs (block 0 [old])) ++ pairs (block 1 [])) ++ pairs (block 2 [late])))%list as ->.
  { unfold main. cbn [mbind list_bind]. by rewrite app_nil_r, <-!app_assoc. }
  change main with ((([] ++ [block 0 [old]]) ++ [block 1 []]) ++ [block 2 [late]])%list.
  repeat (apply Hgo; [|vm_compute; reflexivity]). constructor.
Qed.
Lemma indexed : stores_index db main.
Proof.
  exists (main ≫= pairs). split; [exact main_pairs|]. intros tx k Hk. unfold db. apply lookup_insert_ne. intros <-.
  destruct Hk as [Hk|Hk]; [by unfold CalcTxKey in Hk|]. by rewrite tx_short_key in Hk.
Qed.
Lemma unique : Forall (λ tx, short_unique main (Hash tx)) [old; fresh].
Proof.
  assert (Forall (λ tx, Forall (λ d, Forall (λ tx', str_take 8 (Hash tx') = str_take 8 (Hash tx) → Hash tx' = Hash tx) (Txs (bd_Block d))) main) [old; fresh]) as H.
  { apply (bool_decide_unpack _). vm_compute. exact I. }
  revert H. apply Forall_impl. intros tx H _ d tx' Hd Ht. rewrite list.Forall_forall in H. specialize (H d Hd). rewrite list.Forall_forall in H. by apply H.
Qed.
Lemma ord_heights : heights C (Z.of_nat (length main)) (asked [old; fresh]) [-1; -1].
Proof. repeat (constructor; [vm_compute; reflexivity|]). constructor. Qed.
Lemma carr_heights : heights C (Z.of_nat (length main)) (asked [late; coming]) [2; 3].
Proof. repeat (constructor; [vm_compute; reflexivity|]). constructor. Qed.
Lemma allowed : Forall2 (λ tx th, near main th (Hash tx) ∧ Z.of_nat (length main) <= th + HighAllowPackHeight) [late; coming] [2; 3].
Proof.
  assert (∀ th h, th <= 30 → near main th h) as Hn by (intros th h Hth i d _ _; unfold LowAllowPackHeight; lia).
  repeat (constructor; [split; [apply Hn; lia|vm_compute; discriminate]|]). constructor.
Qed.

Lemma ord_low : Forall (λ th, th <= 0) [-1; -1].
Proof. repeat constructor; lia. Qed.
Lemma carr_high : Forall (λ th, 0 < th) [2; 3].
Proof. repeat constructor; lia. Qed.

Lemma no_replay_witness : CheckTxDup (sv 128) proposed (Z.of_nat (length main)) = Ret [fresh; coming].
Proof.
  etransitivity; [apply (no_replay C (sv 128) (cache 128) db main proposed [old; fresh] [late; coming] [-1; -1] [2; 3])|vm_compute; reflexivity].
  - reflexivity.
  - exact whole_list.
  - exact sound.
  - apply covers.
  - exact indexed.
  - exact unique.
  - exact ord_heights.
  - exact ord_low.
  - exact carr_heights.
  - exact carr_high.
  - exact allowed.
Defined.

(** Keeping the old transaction out works when the one that carries a height comes last, and fails when it
    comes first: the old one, no longer in the cache, would be executed again. *)
Lemma sticky_misses :
  CheckTxDup (sv 1) [old; coming] 3 = Ret [coming] ∧ CheckTxDup (sv 1) [coming; old] 3 = Ret [coming; old].
Proof. vm_compute. split; reflexivity. Qed.

(** Reading a block that is in the cache moves it behind the newer ones: the next block then
    drops a newer block, and the cache no longer covers the newest blocks. *)
Lemma read_drops_newer :
  let c := (CheckcacheBlock (cache 3) 0).2 in
  match cacheBlock false c (block 3 [fresh]) with
  | Ret c => HasCacheTx c (Hash old) = true ∧ (CheckcacheBlock c 1).1 = None
  | _ => False
  end.
Proof. vm_compute. split; reflexivity. Qed.
End DupTxDemo.
