(* ===== verification/ChainView.v ===== *)
(** Paths of block nodes, and what the view of the main chain and the block cache hold. *)

From Stdlib Require Import Ascii String.
From S2P Require Import Prelude Types KVStore Account Tx Merkle Block Difficulty BlockStore BlockStoreLemmas BlockIndex BlockCache.
Local Open Scope Z_scope.

(** ** Paths *)

(** [l] follows parent pointers and goes on to [e]. *)
Fixpoint linked (hp : Heap) (l : list nat) (e : option nat) : Prop :=
  match l with
  | [] => True
  | a :: l' => (∃ n, hp !! a = Some n ∧ parent n = match l' with [] => e | b :: _ => Some b end) ∧ linked hp l' e
  end.

(** A parent is older than its child and one lower. *)
Definition parents_ok (hp : Heap) : Prop :=
  ∀ id n p, hp !! id = Some n → parent n = Some p → (p < id)%nat ∧ ∃ m, hp !! p = Some m ∧ n_height n = n_height m + 1.

Definition hgt (hp : Heap) (id : nat) : Z := match hp !! id with Some n => n_height n | None => 0 end.

Lemma linked_app hp a b e :
  linked hp (a ++ b) e ↔ linked hp a (match b with [] => e | x :: _ => Some x end) ∧ linked hp b e.
Proof.
  induction a as [|x a IH]; simpl; [tauto|]. rewrite IH. destruct a as [|y a]; simpl; [|tauto]. tauto.
Qed.

Lemma linked_mono hp hp' l e :
  (∀ id n, hp !! id = Some n → ∃ n', hp' !! id = Some n' ∧ parent n' = parent n) → linked hp l e → linked hp' l e.
Proof.
  intros H. induction l as [|a l IH]; simpl; [done|]. intros [(n & Hn & E) Hl]. split; [|by apply IH].
  destruct (H _ _ Hn) as (n' & Hn' & E'). exists n'. split; [done|congruence].
Qed.

Lemma linked_in hp l e id : linked hp l e → id ∈ l → ∃ n, hp !! id = Some n.
Proof.
  induction l as [|a l IH]; simpl; [set_solver|]. intros [(n & Hn & _) Hl] [->|Hin]%elem_of_cons; eauto.
Qed.

(** Along a path the heights go down by one. *)
Lemma linked_height hp l e i a b :
  parents_ok hp → linked hp l e → head l = Some a → l !! i = Some b → hgt hp b = hgt hp a - Z.of_nat i.
Proof.
  intros P. revert i a. induction l as [|x l IH]; intros i a Hl Ha Hi; [done|].
  simpl in Ha. injection Ha as <-. destruct i as [|i]; simpl in Hi; [injection Hi as ->; lia|].
  destruct Hl as [(n & Hn & Ep) Hl]. destruct l as [|y l]; [done|].
  rewrite (IH i y Hl eq_refl Hi). destruct (P _ _ _ Hn Ep) as (_ & m & Hm & E).
  assert (hgt hp x = hgt hp y + 1) by (unfold hgt; by rewrite Hn, Hm). lia.
Qed.

Lemma linked_nodup hp l e : parents_ok hp → linked hp l e → NoDup l.
Proof.
  intros P Hl. apply NoDup_alt. intros i j a Hi Hj. destruct l as [|x l]; [done|].
  pose proof (linked_height hp _ e i x a P Hl eq_refl Hi). pose proof (linked_height hp _ e j x a P Hl eq_refl Hj). lia.
Qed.

Lemma linked_head_lower hp x l e b :
  parents_ok hp → linked hp (x :: l) e → b ∈ l → hgt hp b < hgt hp x.
Proof.
  intros P Hl [i Hi]%list_elem_of_lookup. pose proof (linked_height hp (x :: l) e (S i) x b P Hl eq_refl Hi). lia.
Qed.

(** ** Walks *)

Lemma walk_linked hp fuel stop p f :
  walk fuel hp stop p = Some f →
  ∃ l, linked hp l (Some f) ∧ head (l ++ [f]) = p ∧ (∃ n, hp !! f = Some n ∧ stop f n = true).
Proof.
  revert p. induction fuel as [|fuel IH]; intros [id|]; simpl; try done.
  destruct (hp !! id) as [n|] eqn:Hn; [|done]. destruct (stop id n) eqn:Es.
  - intros [= ->]. exists []. simpl. eauto.
  - intros (l & Hl & Hh & Hf)%IH. exists (id :: l). split_and!; [|done|done]. simpl. split; [|done].
    exists n. split; [done|]. rewrite <- Hh. by destruct l.
Qed.

(** Collecting the nodes of a path. *)
Lemma path_to_linked hp fuel f l p :
  parents_ok hp → linked hp l (Some f) → head (l ++ [f]) = p → (steps p <= fuel)%nat → path_to fuel hp (Some f) p = l.
Proof.
  intros P. revert fuel p. induction l as [|a l IH]; intros fuel p Hl Hh Hf; simpl in Hh; subst p.
  - simpl in Hf. destruct fuel; [lia|]. simpl. by rewrite bool_decide_eq_true_2.
  - simpl in Hf. destruct fuel as [|fuel]; [lia|]. simpl. destruct Hl as [(n & Hn & Ep) Hl].
    assert (head (l ++ [f]) = parent n) as Eh by (rewrite Ep; by destruct l).
    assert (a ≠ f) as Hne.
    { intros ->. assert (linked hp (f :: l) (Some f)) as Hc by (simpl; eauto).
      pose proof (linked_height hp (f :: l) (Some f) (length l)) as Hlh.
      destruct (list.last (f :: l)) as [z|] eqn:Ez; [|by apply last_None in Ez].
      assert ((f :: l) !! length l = Some z) as Hz by (rewrite last_lookup in Ez; exact Ez).
      specialize (Hlh f z P Hc eq_refl Hz).
      assert (hgt hp z = hgt hp f + 1) as Hz1.
      { clear -P Hc Ez. revert Hc Ez. generalize (f :: l) at 1 2. intros k. induction k as [|x k IH]; [done|].
        intros [(m & Hm & Em) Hk] Ez. destruct k as [|y k]; [|by apply IH].
        simpl in Ez. injection Ez as <-. destruct (P _ _ _ Hm Em) as (_ & m' & Hm' & E). unfold hgt. rewrite Hm, Hm'. lia. }
      lia. }
    rewrite bool_decide_eq_false_2 by congruence. rewrite Hn. f_equal. apply IH; [done|done|].
    destruct (parent n) as [b|] eqn:Eb; [|simpl; lia]. destruct (P _ _ _ Hn Eb) as [Hlt _]. simpl. lia.
Qed.

(** Without a fork the walk reaches the root. *)
Lemma path_to_root hp fuel l p :
  parents_ok hp → linked hp l None → head l = p → (steps p <= fuel)%nat → path_to fuel hp None p = l.
Proof.
  intros P. revert fuel p. induction l as [|a l IH]; intros fuel p Hl Hh Hf; simpl in Hh; subst p.
  - by destruct fuel.
  - simpl in Hf. destruct fuel as [|fuel]; [lia|]. simpl. destruct Hl as [(n & Hn & Ep) Hl].
    rewrite Hn. f_equal. apply IH; [done|rewrite Ep; by destruct l|].
    destruct (parent n) as [b|] eqn:Eb; [|simpl; lia]. destruct (P _ _ _ Hn Eb) as [Hlt _]. simpl. lia.
Qed.

(** ** The view *)

(** The view holds the newest nodes of the path to the tip, found by height. *)
Record view_ok (hp : Heap) (c : chainView) (path : list nat) : Prop := {
  vo_prefix : ∃ rest, path = cv_queue c ++ rest;
  vo_nodes : ∀ h id, cv_nodes c !! h = Some id ↔ id ∈ cv_queue c ∧ ∃ n, hp !! id = Some n ∧ n_height n = h
}.

Lemma view_tip hp c path : view_ok hp c path → cv_queue c ≠ [] → Tip c = head path.
Proof. intros [[rest ->] _] Hne. unfold Tip. by destruct (cv_queue c). Qed.

Lemma view_mono hp hp' c path :
  (∀ id n, hp !! id = Some n → ∃ n', hp' !! id = Some n' ∧ n_height n' = n_height n) →
  linked hp path None → view_ok hp c path → view_ok hp' c path.
Proof.
  intros H Hl [[rest E] Hn]. split; [eauto|]. intros h id. rewrite Hn. split; intros [Hin (n & Hid & Eh)]; (split; [done|]).
  - destruct (H _ _ Hid) as (n' & ? & ?). exists n'. split; [done|congruence].
  - destruct (linked_in hp path None id Hl) as [m Hm]; [rewrite E; set_solver|].
    destruct (H _ _ Hm) as (n' & ? & ?). exists m. split; [done|congruence].
Qed.

Lemma setTip_ok hp c path id n :
  parents_ok hp → linked hp (id :: path) None → hp !! id = Some n → path ≠ [] → cv_queue c ≠ [] → view_ok hp c path →
  view_ok hp (setTip hp c id) (id :: path) ∧ Tip (setTip hp c id) = Some id.
Proof.
  intros P Hl Hid Hp Hq V. pose proof (view_tip _ _ _ V Hq) as Ht. destruct V as [[rest E] Hn].
  assert (parent n = head path) as Epar.
  { destruct Hl as [(m & Hm & Em) _]. rewrite Hid in Hm. injection Hm as <-. rewrite Em. by destruct path. }
  unfold setTip. rewrite Hid, Ht, Epar. rewrite (bool_decide_eq_true_2 (head path = head path)) by done. rewrite andb_false_r. cbv zeta.
  assert (NoDup (id :: cv_queue c)) as Hnd.
  { pose proof (linked_nodup _ _ _ P Hl) as Hd. rewrite E in Hd. rewrite app_comm_cons in Hd. by apply list.NoDup_app in Hd as [Hd _]. }
  assert (∀ b m, b ∈ cv_queue c → hp !! b = Some m → n_height m < n_height n) as Hlow.
  { intros b m Hb Hm. pose proof (linked_head_lower hp id path None b P Hl) as H. unfold hgt in H. rewrite Hm, Hid in H.
    apply H. rewrite E. set_solver. }
  assert (∀ h x, (<[n_height n := id]> (cv_nodes c)) !! h = Some x ↔ x ∈ id :: cv_queue c ∧ ∃ m, hp !! x = Some m ∧ n_height m = h) as Hn1.
  { intros h x. rewrite lookup_insert_Some, Hn, elem_of_cons. split.
    - intros [[<- <-]|[Hne [? ?]]]; [eauto|]. auto.
    - intros [[->|Hin] (m & Hm & <-)]; [simplify_eq; auto|]. right. split; [|eauto]. pose proof (Hlow x m Hin Hm). lia. }
  destruct (blockNodeCacheLimit <? _) eqn:El; [|split; [split; [exists rest; simpl; by rewrite E|done]|done]].
  apply Z.ltb_lt in El. assert (length (cv_queue c) > 0)%nat as Hpos by (destruct (cv_queue c); [done|simpl; lia]).
  destruct (list.last (id :: cv_queue c)) as [del|] eqn:Elast; [|by apply last_None in Elast].
  apply last_Some in Elast as [q Eq]. assert (length (id :: cv_queue c) - 1 = length q)%nat as El' by (rewrite Eq, length_app; simpl; lia).
  rewrite El'. assert (take (length q) (id :: cv_queue c) = q) as Etk by (by rewrite Eq, take_app_length). rewrite Etk. simpl mbind.
  assert (q ≠ []) as Hqne by (intros ->; simpl in El'; lia).
  destruct (linked_in hp (id :: path) None del Hl) as [dn Hdn].
  { rewrite E, app_comm_cons, Eq. set_solver. }
  rewrite Hdn. destruct q as [|x q]; [done|]. injection Eq as <- Eq. split; [|done]. split; simpl.
  - exists (del :: rest). rewrite E, Eq. by rewrite <- app_assoc.
  - intros h y. rewrite lookup_delete_Some, Hn1, Eq. rewrite app_comm_cons in *.
    assert (∀ z m, z ∈ id :: q → hp !! z = Some m → n_height m ≠ n_height dn) as Hdiff.
    { intros z m [i Hi]%list_elem_of_lookup Hm Ee.
      assert ((id :: path) !! i = Some z) as H1. { rewrite E, Eq. rewrite !app_comm_cons. do 2 (apply lookup_app_l_Some). done. }
      assert ((id :: path) !! length (id :: q) = Some del) as H2.
      { rewrite E, Eq, !app_comm_cons. apply lookup_app_l_Some. by rewrite lookup_app_r, Nat.sub_diag. }
      pose proof (linked_height hp _ None i id z P Hl eq_refl H1) as G1. pose proof (linked_height hp _ None _ id del P Hl eq_refl H2) as G2.
      unfold hgt in G1, G2. rewrite Hm in G1. rewrite Hdn in G2. apply lookup_lt_Some in Hi. lia. }
    rewrite elem_of_app, list_elem_of_singleton. split.
    + intros [Hne [[Hin| ->] (m & Hm & <-)]]; [split; [done|eauto]|by simplify_eq].
    + intros [Hin (m & Hm & <-)]. split; [|split; [by left|eauto]]. intros Ee. by eapply Hdiff.
Qed.

Lemma delTip_ok hp c path id n :
  parents_ok hp → linked hp (id :: path) None → hp !! id = Some n → cv_queue c ≠ [] → view_ok hp c (id :: path) →
  view_ok hp (delTip hp c id) path ∧ cv_queue (delTip hp c id) = tail (cv_queue c).
Proof.
  intros P Hl Hid Hq [[rest E] Hn]. destruct (cv_queue c) as [|x q] eqn:Eq; [done|]. injection E as <- E.
  unfold delTip. rewrite Hid. assert (cv_nodes c !! n_height n = Some id) as Hx. { apply Hn. split; [set_solver|eauto]. }
  rewrite Hx, Hid, Eq. simpl.
  assert (id ∉ q) as Hnot.
  { pose proof (linked_nodup _ _ _ P Hl) as Hd. apply list.NoDup_cons in Hd as [Hd _]. rewrite E in Hd. set_solver. }
  assert (filter (λ e, e ≠ id) (id :: q) = q) as Ef.
  { rewrite filter_cons, decide_False by tauto. clear -Hnot.
    induction q as [|y q IH]; [done|]. rewrite filter_cons, decide_True by set_solver. f_equal. apply IH. set_solver. }
  rewrite Ef. split; [|done]. split; simpl; [eauto|].
  intros h y. rewrite lookup_delete_Some, Hn, elem_of_cons. split.
  - intros [Hne [[->|Hin] (m & Hm & <-)]]; [by simplify_eq|eauto].
  - intros [Hin (m & Hm & <-)]. split; [|eauto].
    pose proof (linked_head_lower hp id path None y P Hl) as H. unfold hgt in H. rewrite Hm, Hid in H.
    assert (n_height m < n_height n); [|lia]. apply H. rewrite E. set_solver.
Qed.

Lemma contains_view hp c path id : view_ok hp c path → contains hp c id = true → id ∈ cv_queue c ∧ 0 <= hgt hp id.
Proof.
  intros [_ Hn]. unfold contains. destruct (hp !! id) as [n|] eqn:Hid; [|done]. intros H%bool_decide_eq_true.
  unfold nodeByHeight in H. destruct ((n_height n <? 0) || _) eqn:Eb; [done|]. apply Hn in H as [Hin _].
  apply orb_false_iff in Eb as [Eb _]. apply Z.ltb_ge in Eb. unfold hgt. rewrite Hid. done.
Qed.

(** A fork found is in the view and an ancestor. *)
Lemma FindFork_spec hp c path id f :
  view_ok hp c path → FindFork hp c (Some id) = Some f →
  f ∈ cv_queue c ∧ 0 <= hgt hp f ∧ ∃ l, linked hp l (Some f) ∧ head (l ++ [f]) = Some id.
Proof.
  intros V. unfold FindFork. simpl. destruct (hp !! id) as [n|] eqn:Hid; [|done].
  set (start := if Height hp c <? n_height n then Ancestor hp id (Height hp c) else Some id).
  intros H. assert (∃ a l0, start = Some a ∧ linked hp l0 (Some a) ∧ head (l0 ++ [a]) = Some id) as (a & l0 & Es & Hl0 & Hh0).
  { unfold start in *. destruct (Height hp c <? n_height n); [|exists id, []; done].
    unfold Ancestor in *. rewrite Hid in *. destruct ((_ <? 0) || _); [done|].
    destruct (walk (S id) hp (λ _ m, n_height m =? Height hp c) (Some id)) as [a|] eqn:Ew; [|done].
    apply walk_linked in Ew as (l & Hl & Hh & _). eauto. }
  rewrite Es in H. apply walk_linked in H as (l & Hl & Hh & (m & Hm & Hc)).
  destruct (contains_view _ _ _ _ V Hc) as [H1 H2]. split_and!; [done|done|].
  exists (l0 ++ l). split.
  - apply linked_app. split; [|done]. destruct l as [|b l]; simpl in Hh; injection Hh as ->; done.
  - rewrite <- app_assoc. destruct l0 as [|b l0]; simpl in *; [injection Hh0 as ->; done|done].
Qed.

(** ** The block cache *)

Section Cache.
Context {ENV : BlockEnv}.
Abbreviation hash_of d := (b_Hash (bd_Block d)).

Definition uniq (main : list BlockDetail) : Prop :=
  ∀ d d', d ∈ main → d' ∈ main → b_Height (bd_Block d) = b_Height (bd_Block d') ∨ hash_of d = hash_of d' → d = d'.

(** Every cached block is on the main chain and is found by its height and by its hash. *)
Record cache_ok (c : BlockCache) (main : list BlockDetail) : Prop := {
  co_cache : ∀ h e, bc_cache c !! h = Some e ↔ e ∈ bc_queue c ∧ b_Height (bd_Block e.2) = h;
  co_hash : ∀ h e, bc_cacheHash c !! h = Some e ↔ e ∈ bc_queue c ∧ hash_of e.2 = h;
  co_main : ∀ e, e ∈ bc_queue c → e.2 ∈ main;
  co_ids : ∀ e, e ∈ bc_queue c → (e.1 < bc_next c)%nat;
  co_nodup : NoDup (bc_queue c).*1
}.

Lemma cache_elem_eq c main e e' :
  cache_ok c main → e ∈ bc_queue c → e' ∈ bc_queue c → b_Height (bd_Block e.2) = b_Height (bd_Block e'.2) → e = e'.
Proof using Type.
  intros H He He' E. assert (bc_cache c !! b_Height (bd_Block e.2) = Some e) as H1 by (apply (co_cache _ _ H); done).
  assert (bc_cache c !! b_Height (bd_Block e.2) = Some e') as H2 by (apply (co_cache _ _ H); done). congruence.
Qed.

(** Adding at the top. *)
Lemma addCacheBlock_ok c main d :
  cache_ok c main → uniq (main ++ [d]) → d ∉ main → cache_ok (addCacheBlock c d) (main ++ [d]).
Proof using Type.
  intros H U Hd. assert (∀ e, e ∈ bc_queue c → b_Height (bd_Block e.2) ≠ b_Height (bd_Block d) ∧ hash_of e.2 ≠ hash_of d) as Hne.
  { intros e He. pose proof (co_main _ _ H e He) as Hm.
    split; intros E; apply Hd; rewrite <- (U e.2 d); set_solver. }
  split; simpl.
  - intros h e. rewrite lookup_insert_Some, elem_of_app, list_elem_of_singleton, (co_cache _ _ H). split.
    + intros [[<- <-]|[? [? ?]]]; auto.
    + intros [[He| ->] <-]; [right|by left]. split; [|done]. intros E. by destruct (Hne e He).
  - intros h e. rewrite lookup_insert_Some, elem_of_app, list_elem_of_singleton, (co_hash _ _ H). split.
    + intros [[<- <-]|[? [? ?]]]; auto.
    + intros [[He| ->] <-]; [right|by left]. split; [|done]. intros E. by destruct (Hne e He).
  - intros e [He|He%list_elem_of_singleton]%elem_of_app; [|subst; set_solver]. apply elem_of_app. left. by apply (co_main _ _ H).
  - intros e [He|He%list_elem_of_singleton]%elem_of_app; [|subst; simpl; lia]. pose proof (co_ids _ _ H e He). lia.
  - rewrite fmap_app. apply list.NoDup_app. split_and!; [apply H| |apply NoDup_singleton].
    intros x (e & -> & He)%list_elem_of_fmap Hx. apply list_elem_of_singleton in Hx. simpl in Hx.
    pose proof (co_ids _ _ H e He). lia.
Qed.

(** Removing an element that is in the cache. *)
Lemma delCacheBlock_ok c main e q :
  cache_ok c main → (∀ x, x ∈ q ↔ x ∈ bc_queue c ∧ x ≠ e) → e ∈ bc_queue c → NoDup q.*1 → uniq main →
  cache_ok (delCacheBlock (set_queue c q) e.2) main.
Proof using Type.
  intros H Hq He Hn U. split; simpl.
  - intros h x. rewrite lookup_delete_Some, (co_cache _ _ H), Hq. split; intros Hx.
    + destruct Hx as (Hne & Hin & <-). split; [split; [done|]|done]. by intros ->.
    + destruct Hx as ([Hin Hne] & <-). split; [|done]. intros E. apply Hne. by eapply cache_elem_eq.
  - intros h x. rewrite lookup_delete_Some, (co_hash _ _ H), Hq. split; intros Hx.
    + destruct Hx as (Hne & Hin & <-). split; [split; [done|]|done]. by intros ->.
    + destruct Hx as ([Hin Hne] & <-). split; [|done]. intros E. apply Hne. eapply cache_elem_eq; [done|done|done|].
      f_equal. f_equal. symmetry. apply U; [by apply (co_main _ _ H)|by apply (co_main _ _ H)|by right].
  - intros x Hx. apply (co_main _ _ H). apply Hq in Hx. tauto.
  - intros x Hx. apply (co_ids _ _ H). apply Hq in Hx. tauto.
  - done.
Qed.

Lemma cacheBlock_ok dbg c main d c' :
  cache_ok c main → uniq (main ++ [d]) → d ∉ main → cacheBlock dbg c d = Ret c' → cache_ok c' (main ++ [d]).
Proof using Type.
  intros H U Hd. unfold cacheBlock. destruct (_ && _ && dbg); [done|]. intros [= <-].
  assert (cache_ok (addCacheBlock (set_maxHeight c (b_Height (bd_Block d))) d) (main ++ [d])) as H1.
  { apply addCacheBlock_ok; [|done|done]. by destruct H; split. }
  destruct (_ <? _); [|done]. set (c1 := addCacheBlock _ _) in *.
  change (bc_queue c ++ [(bc_next c, d)]) with (bc_queue c1). destruct (bc_queue c1) as [|front q] eqn:Eq; [exact H1|].
  pose proof (co_nodup _ _ H1) as Hnd. rewrite Eq in Hnd. simpl in Hnd. apply list.NoDup_cons in Hnd as [Hf Hnd].
  apply delCacheBlock_ok; [done| |rewrite Eq; set_solver|done|done].
  intros x. rewrite Eq, elem_of_cons. split; [|tauto]. intros Hx. split; [by right|]. intros ->. apply Hf.
  apply list_elem_of_fmap. eauto.
Qed.

Lemma delBlockFromCache_ok dbg c main d c' :
  cache_ok c (main ++ [d]) → uniq (main ++ [d]) → d ∉ main →
  delBlockFromCache dbg c (b_Height (bd_Block d)) = Ret c' → cache_ok c' main.
Proof using Type.
  intros H U Hd. unfold delBlockFromCache. destruct (_ && _ && dbg); [done|]. intros [= <-].
  set (c1 := set_maxHeight c _). assert (cache_ok c1 (main ++ [d])) as H1 by (by destruct H; split).
  assert (∀ c2, cache_ok c2 (main ++ [d]) → (∀ e, e ∈ bc_queue c2 → b_Height (bd_Block e.2) ≠ b_Height (bd_Block d)) → cache_ok c2 main) as Hlow.
  { intros c2 [A1 A2 A3 A4 A5] Hno. split; [done|done| |done|done]. intros e He. pose proof (A3 e He) as Hm.
    apply elem_of_app in Hm as [Hm|Hm%list_elem_of_singleton]; [done|]. exfalso. apply (Hno e He). by rewrite Hm. }
  change (bc_cache c) with (bc_cache c1). change (bc_queue c) with (bc_queue c1).
  destruct (bc_cache c1 !! b_Height (bd_Block d)) as [e|] eqn:Ee.
  - apply (co_cache _ _ H1) in Ee as [He Eh]. apply Hlow.
    + apply delCacheBlock_ok; [done| |done| |done].
      * intros x. unfold remove_elem. rewrite list_elem_of_filter. split; [intros [H2 H3]; split; [done|]; by intros ->|].
        intros [H2 H3]. split; [|done]. intros Ei. apply H3.
        pose proof (co_nodup _ _ H1) as Hnd. apply list_elem_of_lookup in H2 as [i Hi], He as [j Hj].
        assert (i = j) as ->; [|congruence]. eapply (NoDup_lookup (bc_queue c1).*1); [done| |]; rewrite list_lookup_fmap.
        -- by rewrite Hi.
        -- rewrite Hj. simpl. by rewrite Ei.
      * pose proof (co_nodup _ _ H1) as Hnd. eapply sublist_NoDup; [exact Hnd|]. apply fmap_sublist, sublist_filter.
    + intros x Hx Ex. unfold remove_elem in Hx. simpl in Hx. apply list_elem_of_filter in Hx as [Hx1 Hx2]. apply Hx1. f_equal.
      eapply cache_elem_eq; [exact H1|done|done|congruence].
  - apply Hlow; [done|]. intros e He E. assert (bc_cache c1 !! b_Height (bd_Block d) = Some e) by (apply (co_cache _ _ H1); done). congruence.
Qed.
End Cache.
