(* ===== verification/Chain.v ===== *)
(** Chain selection ([blockchain/process.go]): a block that arrives is stored, extends the
    main chain, waits as an orphan, stays on a side chain, or makes a heavier side chain
    the main chain.

    One chain lock serialises the calls.  The services asked by message may answer
    differently each time: the n-th block executed or withdrawn uses [services n].  What
    other modules are told is appended to [c_out]. *)

From Stdlib Require Import Ascii String.
From stdpp Require Import pretty.
From S2P Require Import Prelude Api Types KVStore Account Tx Merkle Block Difficulty BlockStore BlockIndex OrphanPool BlockCache.
Local Open Scope Z_scope.

(** Messages to mempool, consensus and wallet, the network, the delayed broadcast, the
    push service, and the synchronisation task. *)
Inductive notice :=
  | NAddBlock (d : BlockDetail)
  | NDelBlock (d : BlockDetail)
  | NBroadcast (b : Block)
  | NFuture (d : BlockDetail)
  | NSeq (lastSequence : Z)
  | NDone (height : Z).

(** The fields of [type BlockChain struct] the block processing uses; [c_peers] are the
    names of the known peers, [c_statehash] is the state that queries read. *)
Record BlockChain := mkChain {
  c_heap : Heap; c_index : blockIndex; c_best : chainView; c_orphans : OrphanPool; c_cache : BlockCache;
  c_store : BlockStore; c_closed : bool; c_peers : gset string; c_faults : gmap string (Z * bytes * error);
  c_statehash : bytes; c_calls : nat; c_out : list notice
}.

Definition upd_heap (s : BlockChain) h := mkChain h (c_index s) (c_best s) (c_orphans s) (c_cache s) (c_store s) (c_closed s) (c_peers s) (c_faults s) (c_statehash s) (c_calls s) (c_out s).
Definition upd_index (s : BlockChain) h i := mkChain h i (c_best s) (c_orphans s) (c_cache s) (c_store s) (c_closed s) (c_peers s) (c_faults s) (c_statehash s) (c_calls s) (c_out s).
Definition upd_best (s : BlockChain) b := mkChain (c_heap s) (c_index s) b (c_orphans s) (c_cache s) (c_store s) (c_closed s) (c_peers s) (c_faults s) (c_statehash s) (c_calls s) (c_out s).
Definition upd_orphans (s : BlockChain) o := mkChain (c_heap s) (c_index s) (c_best s) o (c_cache s) (c_store s) (c_closed s) (c_peers s) (c_faults s) (c_statehash s) (c_calls s) (c_out s).
Definition upd_cache (s : BlockChain) c := mkChain (c_heap s) (c_index s) (c_best s) (c_orphans s) c (c_store s) (c_closed s) (c_peers s) (c_faults s) (c_statehash s) (c_calls s) (c_out s).
Definition upd_store (s : BlockChain) b := mkChain (c_heap s) (c_index s) (c_best s) (c_orphans s) (c_cache s) b (c_closed s) (c_peers s) (c_faults s) (c_statehash s) (c_calls s) (c_out s).
Definition upd_faults (s : BlockChain) f := mkChain (c_heap s) (c_index s) (c_best s) (c_orphans s) (c_cache s) (c_store s) (c_closed s) (c_peers s) f (c_statehash s) (c_calls s) (c_out s).
Definition upd_statehash (s : BlockChain) h := mkChain (c_heap s) (c_index s) (c_best s) (c_orphans s) (c_cache s) (c_store s) (c_closed s) (c_peers s) (c_faults s) h (c_calls s) (c_out s).
Definition upd_calls (s : BlockChain) n := mkChain (c_heap s) (c_index s) (c_best s) (c_orphans s) (c_cache s) (c_store s) (c_closed s) (c_peers s) (c_faults s) (c_statehash s) n (c_out s).
Definition upd_out (s : BlockChain) o := mkChain (c_heap s) (c_index s) (c_best s) (c_orphans s) (c_cache s) (c_store s) (c_closed s) (c_peers s) (c_faults s) (c_statehash s) (c_calls s) (c_out s ++ o).

Class ChainEnv := {
  ce_store :: StoreEnv;
  services : nat → Services;
  (** seconds, when the n-th block has been executed *)
  unix_now : nat → Z;
  (** [grpc.Code(err) != codes.Unknown] *)
  grpc_status : error → bool;
  (** whether writing a batch fails: that of a block kept when n blocks have been executed
      or withdrawn, and those of the n-th when it is connected or disconnected *)
  store_damaged : nat → bool;
  add_Write : nat → option error;
  del_Write : nat → option error;
  Debug : bool
}.

Definition FutureBlockDelayTime : Z := 1.

Section Chain.
Context {ENV : ChainEnv} (C : ChainConfig).

Definition modify (f : BlockChain → BlockChain) : M BlockChain unit := λ s, (Ret tt, f s).
Definition get {A} (f : BlockChain → A) : M BlockChain A := λ s, (Ret (f s), s).
(** A pure function whose error or panic is passed on. *)
Definition lift {A} (f : BlockChain → outcome A) : M BlockChain A := λ s, (f s, s).
Definition notify (o : list notice) : M BlockChain unit := modify (λ s, upd_out s o).

(** Reading a field through a nil pointer panics. *)
Definition deref (p : option nat) : M BlockChain blockNode := λ s,
  match p ≫= λ id, c_heap s !! id with Some n => (Ret n, s) | None => (Panic, s) end.
Definition best_tip : M BlockChain blockNode := λ s, deref (Tip (c_best s)) s.

(** ** Faults *)

Definition IsRecordFaultErr (e : error) : bool :=
  negb (bool_decide (e = ErrOther "ErrFutureBlock")) && negb (IsGrpcError grpc_status e) && negb (IsQueueError e).

Definition IsErrExecBlock (s : BlockChain) (height : Z) (hash : bytes) : option error :=
  snd <$> head (filter (λ f, f.1.1 = height ∧ f.1.2 = hash) ((map_to_list (c_faults s)).*2)).
Definition RecordFaultPeer (pid : string) (height : Z) (hash : bytes) (e : error) : M BlockChain unit :=
  modify (λ s, if bool_decide (pid ∈ c_peers s) then upd_faults s (<[pid := (height, hash, e)]> (c_faults s)) else s).

(** ** Adding to and removing from the main chain *)

Definition blockExists (s : BlockChain) (hash : bytes) : bool :=
  if HaveBlock (c_index s) hash then true
  else
    match GetBlockHeaderByHash (c_store s) hash with
    | Ret _ => match GetHeightByBlockHash (c_store s) hash with Ret height => negb (height =? -1) | _ => false end
    | _ => false
    end.

Definition chain_LoadBlockByHash (s : BlockChain) (hash : bytes) : outcome BlockDetail :=
  match GetCacheBlock (c_cache s) hash with
  | Some d => Ret d
  | None => LoadBlockByHash (c_store s) hash
  end.

(** An own block gets its final hashes by being executed. *)
Definition update_own_node (id : nat) (d : BlockDetail) : M BlockChain unit := λ s,
  match c_heap s !! id with
  | None => (Panic, s)
  | Some n =>
      if String.eqb (n_pid n) "self" then
        let hp := <[id := set_hashes n (b_Hash (bd_Block d)) (StateHash (bd_Block d))]> (c_heap s) in
        (Ret tt, upd_index s hp (UpdateNode hp (c_index s) (n_hash n) id))
      else (Ret tt, s)
  end.

Definition next_call : M BlockChain nat := λ s, (Ret (c_calls s), upd_calls s (S (c_calls s))).

(** An execution that fails is recorded against the peer; for some errors an own block is
    forgotten instead, to be tried again. *)
Definition exec_node (k : nat) (tip node : blockNode) (block : Block) : M BlockChain BlockDetail := λ s,
  let errReturn := negb (String.eqb (n_pid node) "self") in
  match ExecBlock (services k) (statehash tip) block errReturn true with
  | Ret (d, _) => (Ret d, s)
  | Panic => (Panic, s)
  | Err e =>
      if IsRecordFaultErr e then (_ ← RecordFaultPeer (n_pid node) (b_Height block) (n_hash node) e; throw e) s
      else if String.eqb (n_pid node) "self" then
        (_ ← modify (λ s, let '(hp, bi) := DelNode (c_heap s) (c_index s) (n_hash node) in upd_index s hp bi); throw e) s
      else (Err e, s)
  end.

(** [newbatch.Write()]: all of the batch is written, or nothing. *)
Definition write_batch (answer : option error) (batch : list bop) : M BlockChain unit := λ s,
  match answer with
  | Some e => (Err e, s)
  | None => (Ret tt, upd_store s (set_db (c_store s) (write (bs_db (c_store s)) batch)))
  end.

Definition connectBlock (id : nat) (blockdetail : BlockDetail) : M BlockChain BlockDetail :=
  closed ← get c_closed;
  _ ← guard_err closed (ErrOther "ErrIsClosed");
  tip ← best_tip;
  let block := bd_Block blockdetail in
  _ ← guard_err (negb (String.eqb (ParentHash block) (n_hash tip))) (ErrOther "ErrBlockHashNoMatch");
  node ← deref (Some id);
  k ← next_call;
  blockdetail ← exec_node k tip node block;
  _ ← update_own_node id blockdetail;
  let b := bd_Block blockdetail in
  txops ← lift (λ _, AddTxs (services k) blockdetail);
  '(lastSequence, ops) ← (lift (λ s, SaveBlock C (c_store s) blockdetail (n_sequence node)) : M BlockChain (Z * list bop));
  c ← lift (λ s, cacheBlock Debug (c_cache s) blockdetail);
  _ ← modify (λ s, upd_cache s c);
  blocktd ← lift (λ s, block_td (c_store s) block);
  _ ← write_batch (add_Write k) (txops ++ ops ++ SaveTdByBlockHash (b_Hash b) blocktd);
  _ ← modify (λ s, upd_store s (UpdateLastBlock2 (UpdateHeight2 (c_store s) (b_Height b)) b));
  _ ← modify (λ s, upd_best s (setTip (c_heap s) (c_best s) id));
  _ ← modify (λ s, upd_statehash s (StateHash b));
  _ ← notify [NAddBlock blockdetail; NDone (b_Height b)];
  _ ← (if n_broadcast node then
         notify [if FutureBlockDelayTime <? BlockTime b -₆₄ unix_now k then NFuture blockdetail else NBroadcast b]
       else mret tt);
  _ ← (if isRecordBlockSequence C && negb (isParaChain C) then notify [NSeq lastSequence] else mret tt);
  mret blockdetail.

Definition disconnectBlock (id : nat) (blockdetail : BlockDetail) (sequence : Z) : M BlockChain unit :=
  node ← deref (Some id);
  tip ← best_tip;
  _ ← guard_err (negb (String.eqb (n_hash node) (n_hash tip))) (ErrOther "ErrBlockHashNoMatch");
  k ← next_call;
  let b := bd_Block blockdetail in
  txops ← lift (λ _, DelTxs (services k) blockdetail);
  '(lastSequence, ops) ← (lift (λ s, DelBlock C (c_store s) blockdetail sequence) : M BlockChain (Z * list bop));
  _ ← write_batch (del_Write k) (txops ++ ops);
  _ ← modify (λ s, upd_store s (UpdateLastBlock (UpdateHeight (c_store s)) (ParentHash b)));
  _ ← modify (λ s, upd_best s (delTip (c_heap s) (c_best s) id));
  _ ← notify [NDelBlock blockdetail];
  par ← deref (parent node);
  _ ← modify (λ s, upd_statehash s (statehash par));
  newtip ← get (λ s, Tip (c_best s));
  c ← lift (λ s, delBlockFromCache Debug (c_cache s) (b_Height b));
  _ ← modify (λ s, upd_cache s c);
  _ ← deref newtip;
  if isRecordBlockSequence C && negb (isParaChain C) then notify [NSeq lastSequence] else mret tt.

(** ** Reorganisation *)

(** To detach, newest first; to attach, oldest first. *)
Definition getReorganizeNodes (s : BlockChain) (id : nat) : list nat * list nat :=
  let hp := c_heap s in
  let forkNode := FindFork hp (c_best s) (Some id) in
  (path_to (steps (Tip (c_best s))) hp forkNode (Tip (c_best s)), rev (path_to (S id) hp forkNode (Some id))).

(** The blocks of the nodes; one that cannot be loaded is left out. *)
Definition load_blocks (s : BlockChain) (ids : list nat) : list BlockDetail :=
  omap (λ id, match c_heap s !! id with
              | Some n => match chain_LoadBlockByHash s (n_hash n) with Ret d => Some d | _ => None end
              | None => None
              end) ids.

(** The i-th block goes with the i-th node. *)
Fixpoint detach_all (ids : list nat) (blocks : list BlockDetail) : M BlockChain unit :=
  match ids, blocks with
  | [], _ => mret tt
  | _ :: _, [] => panic
  | id :: ids, d :: blocks =>
      n ← deref (Some id); _ ← disconnectBlock id d (n_sequence n); detach_all ids blocks
  end.
Fixpoint attach_all (ids : list nat) (blocks : list BlockDetail) : M BlockChain unit :=
  match ids, blocks with
  | [], _ => mret tt
  | _ :: _, [] => panic
  | id :: ids, d :: blocks => _ ← connectBlock id d; attach_all ids blocks
  end.

Definition reorganizeChain (detachNodes attachNodes : list nat) : M BlockChain unit :=
  detachBlocks ← get (λ s, load_blocks s detachNodes);
  attachBlocks ← get (λ s, load_blocks s attachNodes);
  _ ← detach_all detachNodes detachBlocks;
  attach_all attachNodes attachBlocks.

(** The block as it was executed, if it was, and whether the main chain changed. *)
Definition connectBestChain (id : nat) (block : BlockDetail) : M BlockChain (option BlockDetail * bool) :=
  let parentHash := ParentHash (bd_Block block) in
  tip ← best_tip;
  if String.eqb parentHash (n_hash tip) then
    d ← connectBlock id block; mret (Some d, true)
  else
    tiptd ← lift (λ s, GetTdByBlockHash (c_store s) (n_hash tip));
    parenttd ← lift (λ s, match GetTdByBlockHash (c_store s) parentHash with
                          | Err _ => Err (ErrOther "ErrParentTdNoExist") | r => r end);
    node ← deref (Some id);
    let blocktd := n_Difficulty node + parenttd in
    if blocktd <=? tiptd then
      fork ← get (λ s, FindFork (c_heap s) (c_best s) (Some id));
      _ ← deref fork;
      mret (None, false)
    else
      '(detachNodes, attachNodes) ← (get (λ s, getReorganizeNodes s id) : M BlockChain (list nat * list nat));
      _ ← reorganizeChain detachNodes attachNodes;
      mret (None, true).

(** A new node, in the index. *)
Definition add_node (n : blockNode) : M BlockChain nat :=
  id ← get (λ s, length (c_heap s));
  _ ← modify (λ s, upd_heap s (c_heap s ++ [n]));
  _ ← modify (λ s, let '(hp, bi) := AddNode (c_heap s) (c_index s) id in upd_index s hp bi);
  mret id.

Definition maybeAcceptBlock (broadcast : bool) (block : BlockDetail) (pid : string) (sequence : Z) :
    M BlockChain (option BlockDetail * bool) :=
  let b := bd_Block block in
  prev ← get (λ s, LookupNode (c_index s) (ParentHash b));
  match prev with
  | None => throw (ErrOther "ErrParentBlockNoExist")
  | Some prevId =>
      prevNode ← deref (Some prevId);
      _ ← guard_err (negb (b_Height b =? n_height prevNode +₆₄ 1)) (ErrOther "ErrBlockHeightNoMatch");
      bs ← lift (λ s, dbMaybeStoreBlock C (store_damaged (c_calls s)) (c_store s) block);
      _ ← modify (λ s, upd_store s bs);
      id ← add_node (set_parent (newBlockNode broadcast b pid sequence) (Some prevId));
      connectBestChain id block
  end.

(** ** Orphans *)

(** [for i := 0; i < count; i++]: a child that is accepted leaves the pool and [i] stays.
    [None] when the fuel runs out. *)
Fixpoint process_children (fuel : nat) (processHash : bytes) (count i : nat) (processHashes : list bytes) :
    M BlockChain (option (list bytes)) :=
  match fuel with
  | O => mret None
  | S fuel =>
      if (i <? count)%nat then
        orphan ← get (λ s, getChildOrphan (c_orphans s) processHash i);
        match orphan with
        | None => process_children fuel processHash count (S i) processHashes
        | Some o =>
            _ ← modify (λ s, upd_orphans s (removeOrphanBlock (c_orphans s) o));
            _ ← maybeAcceptBlock (o_broadcast o) (mkBD (o_block o) [] [] "") (o_pid o) (o_sequence o);
            process_children fuel processHash count i (processHashes ++ [b_Hash (o_block o)])
        end
      else mret (Some processHashes)
  end.

(** Each block of the pool is taken out once; the inner loop passes each child and each
    index once. *)
Definition pool_size (op : OrphanPool) : nat := size (orphans op).
Definition all_children (op : OrphanPool) : nat := sum_list_with (λ e, length e.2) (map_to_list (prevOrphans op)).

Fixpoint process_hashes (fuel : nat) (processHashes : list bytes) : M BlockChain (option unit) :=
  match fuel with
  | O => mret None
  | S fuel =>
      match processHashes with
      | [] => mret (Some tt)
      | processHash :: rest =>
          count ← get (λ s, GetChildOrphanCount (c_orphans s) processHash);
          total ← get (λ s, all_children (c_orphans s));
          r ← process_children (S (count + total)) processHash count 0 rest;
          match r with
          | None => mret None
          | Some rest => process_hashes fuel rest
          end
      end
  end.

(** [None]: out of fuel, which is excluded below. *)
Definition processOrphans (hash : bytes) : M BlockChain (option unit) :=
  total ← get (λ s, all_children (c_orphans s));
  process_hashes (S (S total)) [hash].

(** ** Entry points *)

Definition ProcessDelParaChainBlock (blockdetail : BlockDetail) (sequence : Z) : M BlockChain (option BlockDetail * bool * bool) :=
  let blockHash := b_Hash (bd_Block blockdetail) in
  tipnode ← get (λ s, Tip (c_best s));
  tip ← best_tip;
  _ ← guard_err (negb (String.eqb blockHash (n_hash tip))) (ErrOther "ErrBlockHashNoMatch");
  _ ← match tipnode with Some id => disconnectBlock id blockdetail sequence | None => panic end;
  _ ← modify (λ s, let '(hp, bi) := DelNode (c_heap s) (c_index s) blockHash in upd_index s hp bi);
  mret (None, true, false).

(** A call: the arguments, and the order and times of a walk over the orphans.  Answers:
    the executed block, whether the main chain changed, whether the block is an orphan. *)
Record event := mkEv {
  ev_broadcast : bool; ev_block : BlockDetail; ev_pid : string; ev_add : bool; ev_sequence : Z;
  ev_visit : list orphanBlock; ev_now : nat → Z
}.

Definition ProcessBlock (e : event) : M BlockChain (option BlockDetail * bool * bool) :=
  let block := ev_block e in
  let b := bd_Block block in
  let pid := ev_pid e in
  closed ← get c_closed;
  _ ← guard_err closed (ErrOther "ErrIsClosed");
  _ ← (if 0 <? b_Height b then
         let lastBlockHash := if ev_add e then ParentHash b else b_Hash b in
         if String.eqb pid "self" then
           tip ← best_tip;
           guard_err (negb (String.eqb lastBlockHash (n_hash tip))) (ErrOther "ErrBlockHashNoMatch")
         else mret tt
       else mret tt);
  let blockHash := b_Hash b in
  if negb (ev_add e) then ProcessDelParaChainBlock block (ev_sequence e)
  else
    exists_ ← get (λ s, blockExists s blockHash);
    if (exists_ : bool) then
      bad ← get (λ s, IsErrExecBlock s (b_Height b) blockHash);
      _ ← match bad with Some err => RecordFaultPeer pid (b_Height b) blockHash err | None => mret tt end;
      throw (ErrOther "ErrBlockExist")
    else
      known ← get (λ s, IsKnownOrphan (c_orphans s) blockHash);
      if (known : bool) then throw (ErrOther "ErrBlockExist")
      else
        prevHashExists ← get (λ s, if b_Height b =? 0 then String.eqb (ParentHash b) zero_hash else blockExists s (ParentHash b));
        if negb prevHashExists then
          op ← lift (λ s, addOrphanBlock maxOrphanBlocks (ev_visit e) (ev_now e) (c_orphans s) (ev_broadcast e) b pid (ev_sequence e));
          _ ← modify (λ s, upd_orphans s op);
          mret (None, false, true)
        else
          '(d, isMainChain) ← (maybeAcceptBlock (ev_broadcast e) block pid (ev_sequence e) : M BlockChain (option BlockDetail * bool));
          _ ← processOrphans blockHash;
          mret (d, isMainChain, false).

(** ** Start-up *)

(** The state before [InitIndexAndBestView], on a store. *)
Definition boot (bs : BlockStore) (peers : gset string) (defCacheSize : Z) (st : bytes) : BlockChain :=
  mkChain [] newBlockIndex (mkCV ∅ []) NewOrphanPool (NewBlockCache defCacheSize) bs false peers ∅ st 0 [].

(** One node per height, each the parent of the next. *)
Fixpoint load_nodes (count : nat) (height : Z) (prev : option nat) : M BlockChain unit :=
  match count with
  | O => mret tt
  | S count =>
      header ← (λ s, let '(r, bs) := GetBlockHeaderByHeight (c_store s) height in
                     (match r with Ret h => Ret h | _ => Panic end, upd_store s bs) : outcome BHeader * BlockChain);
      id ← add_node (set_parent (newBlockNodeByHeader false header "self" (-1)) prev);
      _ ← modify (λ s, upd_best s (match prev with None => newChainView (c_heap s) id | Some _ => setTip (c_heap s) (c_best s) id end));
      load_nodes count (height + 1) (Some id)
  end.

Definition InitBlockNum : Z := 10240.
Definition InitIndexAndBestView : M BlockChain unit :=
  curheight ← get (λ s, bs_height (c_store s));
  if curheight =? -1 then
    id ← add_node newPreGenBlockNode;
    modify (λ s, upd_best s (newChainView (c_heap s) id))
  else
    let height := if InitBlockNum <=? curheight then curheight - InitBlockNum else 0 in
    load_nodes (Z.to_nat (curheight - height + 1)) height None.
End Chain.
