(* ===== verification/ChainMono.v ===== *)
(** The index of block nodes only ever loses nodes: when every node that was created is in
    the index at the end of a run, it was in it all along.  [within] collects the bounds a
    run stays in; no operation leads from outside them to inside. *)

From Stdlib Require Import Ascii String.
From S2P Require Import Prelude Types KVStore Account Tx Merkle Block Difficulty BlockStore BlockIndex OrphanPool BlockCache Chain.
Local Open Scope Z_scope.

(** An entry of the index points to a node with that hash. *)
Definition indexed_ok (hp : Heap) (bi : blockIndex) : Prop :=
  ∀ h id, bi_index bi !! h = Some id → ∃ n, hp !! id = Some n ∧ n_hash n = h.

(** All nodes are in the index; the counters have not run over. *)
Definition full (hp : Heap) (bi : blockIndex) : Prop := size (bi_index bi) = length hp.
Definition within (s : BlockChain) : Prop :=
  full (c_heap s) (c_index s) ∧ Z.of_nat (c_calls s) < 2 ^ 63 ∧ Forall (λ n, n_height n < 2 ^ 63 - 1) (c_heap s).

Section Index.
Variables (hp : Heap) (bi : blockIndex).
Hypothesis J : indexed_ok hp bi.

Lemma index_ids_nodup : NoDup (map_to_list (bi_index bi)).*2.
Proof using J.
  apply NoDup_fmap_2_strong; [|apply NoDup_map_to_list].
  intros [h1 i1] [h2 i2] H1 H2 E. simpl in E. subst i2. apply elem_of_map_to_list in H1, H2.
  apply J in H1 as (n1 & E1 & <-), H2 as (n2 & E2 & <-). by simplify_eq.
Qed.
Lemma index_ids_subset : (map_to_list (bi_index bi)).*2 ⊆+ seq 0 (length hp).
Proof using J.
  apply NoDup_submseteq; [apply index_ids_nodup|]. intros i ([h i'] & -> & Hin)%list_elem_of_fmap.
  apply elem_of_map_to_list, J in Hin as (n & Hn & _). apply elem_of_seq. apply lookup_lt_Some in Hn. simpl. lia.
Qed.
Lemma index_size : (size (bi_index bi) <= length hp)%nat.
Proof using J.
  pose proof (submseteq_length _ _ index_ids_subset) as H. by rewrite length_fmap, length_map_to_list, length_seq in H.
Qed.

(** In a full index every node is found under its hash. *)
Lemma full_lookup id n : full hp bi → hp !! id = Some n → bi_index bi !! n_hash n = Some id.
Proof using J.
  intros F Hn. assert ((map_to_list (bi_index bi)).*2 ≡ₚ seq 0 (length hp)) as HP.
  { apply submseteq_length_Permutation; [apply index_ids_subset|]. rewrite length_fmap, length_map_to_list, length_seq. unfold full in F. lia. }
  assert (id ∈ (map_to_list (bi_index bi)).*2) as Hin.
  { rewrite HP. apply elem_of_seq. apply lookup_lt_Some in Hn. lia. }
  apply list_elem_of_fmap in Hin as ([h id'] & E & Hin). simpl in E. subst id'. apply elem_of_map_to_list in Hin.
  pose proof (J _ _ Hin) as (m & Hm & <-). by simplify_eq.
Qed.
End Index.

(** ** The operations of the index *)

Lemma size_insert_le {V} (m : gmap bytes V) k v : (size (<[k:=v]> m) <= S (size m))%nat.
Proof. rewrite map_size_insert. destruct (m !! k); simpl; lia. Qed.
Lemma size_delete_le {V} (m : gmap bytes V) k : (size (delete k m) <= size m)%nat.
Proof. rewrite map_size_delete. destruct (m !! k); simpl; lia. Qed.

Lemma indexed_app hp n bi : indexed_ok hp bi → indexed_ok (hp ++ [n]) bi.
Proof. intros J h id H. destruct (J _ _ H) as (m & Hm & E). exists m. split; [by apply lookup_app_l_Some|done]. Qed.

Lemma indexed_insert hp bi id n : indexed_ok hp bi → hp !! id = Some n → indexed_ok hp (mkBI (<[n_hash n := id]> (bi_index bi)) (bi_queue bi)).
Proof. intros J Hn h i. simpl. intros [[<- <-]|[_ H]]%lookup_insert_Some; [eauto|by apply J]. Qed.

Lemma indexed_delete hp bi k q : indexed_ok hp bi → indexed_ok hp (mkBI (delete k (bi_index bi)) q).
Proof. intros J h i. simpl. intros [_ H]%lookup_delete_Some. by apply J. Qed.

Lemma indexed_set_parent hp bi id p : indexed_ok hp bi → indexed_ok (alter (λ n, set_parent n p) id hp) bi.
Proof.
  intros J h i H. destruct (J _ _ H) as (n & Hn & E). destruct (decide (i = id)) as [->|Hne].
  - rewrite list_lookup_alter_eq, Hn. simpl. by exists (set_parent n p).
  - rewrite list_lookup_alter_ne by done. eauto.
Qed.

Lemma AddNode_spec hp bi n hp' bi' :
  indexed_ok hp bi → AddNode (hp ++ [n]) bi (length hp) = (hp', bi') →
  indexed_ok hp' bi' ∧ length hp' = S (length hp) ∧ (size (bi_index bi') <= S (size (bi_index bi)))%nat ∧
  n_height <$> hp' = n_height <$> (hp ++ [n]) ∧
  (full hp' bi' → hp' = hp ++ [n] ∧ bi_index bi' = <[n_hash n := length hp]> (bi_index bi) ∧ bi_index bi !! n_hash n = None).
Proof.
  intros J. unfold AddNode. rewrite lookup_app_r, Nat.sub_diag by lia. simpl.
  set (idx := <[n_hash n := length hp]> (bi_index bi)).
  assert ((hp ++ [n]) !! length hp = Some n) as Hn by (by rewrite lookup_app_r, Nat.sub_diag by lia).
  assert (∀ q, indexed_ok (hp ++ [n]) (mkBI idx q)) as J1.
  { intros q h i H. apply (indexed_insert (hp ++ [n]) bi (length hp) n); [by apply indexed_app|done|exact H]. }
  assert (full (hp ++ [n]) (mkBI idx []) → bi_index bi !! n_hash n = None) as Hnew.
  { unfold full. simpl. unfold idx. rewrite map_size_insert, length_app. simpl. intros H.
    destruct (bi_index bi !! n_hash n) eqn:E; [|done]. pose proof (index_size hp bi J). unfold id in *. simpl in *. lia. }
  assert ((size idx <= S (size (bi_index bi)))%nat) as Hsz by apply size_insert_le.
  destruct (indexCacheLimit <? _) eqn:El.
  2: { intros [= <- <-]. split_and!; [apply J1|rewrite length_app; simpl; lia|done|done|].
       intros F. split_and!; [done|done|]. by apply Hnew. }
  destruct (bi_queue bi ++ [length hp]) as [|del q] eqn:Eq; [by destruct (bi_queue bi)|].
  destruct ((hp ++ [n]) !! del) as [dn|] eqn:Ed; intros [= <- <-].
  - assert (<[del := set_parent dn None]> (hp ++ [n]) = alter (λ n, set_parent n None) del (hp ++ [n])) as ->.
    { apply list_eq. intros i. destruct (decide (i = del)) as [->|Hne].
      - rewrite list_lookup_alter_eq, Ed, list_lookup_insert_eq; [done|]. by eapply lookup_lt_Some.
      - by rewrite list_lookup_alter_ne, list_lookup_insert_ne. }
    split_and!.
    + apply indexed_set_parent. apply (indexed_delete (hp ++ [n]) (mkBI idx q)), J1.
    + rewrite length_alter, length_app. simpl. lia.
    + simpl. pose proof (size_delete_le idx (n_hash dn)). lia.
    + apply list_eq. intros i. rewrite !list_lookup_fmap.
      destruct (decide (i = del)) as [->|Hne]; [rewrite list_lookup_alter_eq|by rewrite list_lookup_alter_ne].
      by destruct (_ !! del).
    + intros F. exfalso. unfold full in F. simpl in F. rewrite length_alter in F.
      assert (full (hp ++ [n]) (mkBI idx [])) as F'.
      { unfold full. simpl. pose proof (size_delete_le idx (n_hash dn)). pose proof (index_size _ _ (J1 [])). simpl in *. lia. }
      pose proof (full_lookup _ _ (J1 []) _ _ F' Ed) as Hd. simpl in Hd.
      rewrite map_size_delete, Hd in F. unfold full in F'. simpl in F'. rewrite F', length_app in F. simpl in F. lia.
  - split_and!; [apply J1|rewrite length_app; simpl; lia|done|done|].
    intros F. split_and!; [done|done|]. by apply Hnew.
Qed.

Lemma DelNode_spec hp bi h hp' bi' :
  indexed_ok hp bi → DelNode hp bi h = (hp', bi') →
  indexed_ok hp' bi' ∧ length hp' = length hp ∧ (size (bi_index bi') <= size (bi_index bi))%nat ∧
  n_height <$> hp' = n_height <$> hp ∧ (is_Some (bi_index bi !! h) → ¬ full hp' bi').
Proof.
  intros J. unfold DelNode. destruct (bi_index bi !! h) as [e|] eqn:E; intros [= <- <-].
  - split_and!.
    + apply indexed_set_parent, indexed_delete, J.
    + apply length_alter.
    + simpl. apply size_delete_le.
    + apply list_eq. intros i. rewrite !list_lookup_fmap.
      destruct (decide (i = e)) as [->|Hne]; [rewrite list_lookup_alter_eq|by rewrite list_lookup_alter_ne]. by destruct (hp !! e).
    + intros _. unfold full. simpl. rewrite map_size_delete, E, length_alter. pose proof (index_size _ _ J).
      assert (size (bi_index bi) ≠ 0)%nat. { eapply map_size_ne_0_lookup_2. eauto. } lia.
  - split_and!; done.
Qed.

(** [update_own_node] on heap and index. *)
Lemma UpdateNode_spec hp bi id n h' st :
  indexed_ok hp bi → hp !! id = Some n →
  let hp' := <[id := set_hashes n h' st]> hp in
  let bi' := UpdateNode hp' bi (n_hash n) id in
  indexed_ok hp' bi' ∧ (size (bi_index bi') <= size (bi_index bi))%nat ∧ n_height <$> hp' = n_height <$> hp.
Proof.
  intros J Hn hp' bi'. assert (length hp > id)%nat as Hlt by (by eapply lookup_lt_Some).
  assert (hp' !! id = Some (set_hashes n h' st)) as Hid by (by apply list_lookup_insert_eq).
  assert (∀ k i, bi_index bi !! k = Some i → k ≠ n_hash n → ∃ m, hp' !! i = Some m ∧ n_hash m = k) as Hk.
  { intros k i H Hne. destruct (J _ _ H) as (m & Hm & E). exists m. split; [|done].
    unfold hp'. rewrite list_lookup_insert_ne; [done|]. intros <-. simplify_eq. }
  assert (n_height <$> hp' = n_height <$> hp) as Hh.
  { unfold hp'. rewrite list_fmap_insert. apply list_insert_id. by rewrite list_lookup_fmap, Hn. }
  unfold bi', UpdateNode. rewrite Hid. destruct (bi_index bi !! n_hash n) as [e|] eqn:E; simpl.
  - split_and!; [| |done].
    + intros k i. simpl. intros [[<- <-]|[_ [H1 H2]%lookup_delete_Some]]%lookup_insert_Some; [|by apply Hk]. eauto.
    + rewrite map_size_insert, map_size_delete, E. assert (size (bi_index bi) ≠ 0)%nat. { eapply map_size_ne_0_lookup_2. eauto. }
      destruct (delete _ _ !! h'); simpl; unfold Datatypes.id in *; lia.
  - split_and!; [|done|done]. intros k i H. apply Hk; [done|]. intros ->. by rewrite E in H.
Qed.

(** ** Monotone programs *)

Section Mono.
Context {ENV : ChainEnv} (C : ChainConfig).

Definition J (s : BlockChain) : Prop := indexed_ok (c_heap s) (c_index s).

(** [s'] may come after [s]. *)
Definition later (s s' : BlockChain) : Prop := J s → J s' ∧ (within s' → within s).
Definition mono {A} (m : M BlockChain A) : Prop := ∀ s, later s (m s).2.

Lemma later_refl s : later s s.
Proof using Type. by intros ?. Qed.
Lemma later_trans s1 s2 s3 : later s1 s2 → later s2 s3 → later s1 s3.
Proof using Type. intros H1 H2 HJ. destruct (H1 HJ) as [J2 W2]. destruct (H2 J2) as [J3 W3]. split; [done|]. auto. Qed.

Lemma mono_ret {A} (a : A) : mono (mret a).
Proof using Type. intros s. apply later_refl. Qed.
Lemma mono_bind {A B} (m : M BlockChain A) (f : A → M BlockChain B) : mono m → (∀ a, mono (f a)) → mono (m ≫= f).
Proof using Type.
  intros Hm Hf s. specialize (Hm s). unfold mbind, M_bind. destruct (m s) as [[a|e|] s']; simpl in *; [|done|done].
  eapply later_trans; [done|apply Hf].
Qed.
Lemma mono_throw {A} e : mono (throw e : M BlockChain A).
Proof using Type. intros s. apply later_refl. Qed.
Lemma mono_panic {A} : mono (panic : M BlockChain A).
Proof using Type. intros s. apply later_refl. Qed.
Lemma mono_guard c e : mono (guard_err c e).
Proof using Type. destruct c; intros s; apply later_refl. Qed.
Lemma mono_get {A} (f : BlockChain → A) : mono (get f).
Proof using Type. intros s. apply later_refl. Qed.
Lemma mono_lift {A} (f : BlockChain → outcome A) : mono (lift f).
Proof using Type. intros s. apply later_refl. Qed.
Lemma mono_deref p : mono (deref p).
Proof using Type. intros s. unfold deref. destruct (p ≫= _); apply later_refl. Qed.
Lemma mono_tip : mono best_tip.
Proof using Type. intros s. apply mono_deref. Qed.
Lemma mono_modify f :
  (∀ s, c_heap (f s) = c_heap s ∧ c_index (f s) = c_index s ∧ c_calls s <= c_calls (f s))%nat → mono (modify f).
Proof using Type.
  intros H s HJ. destruct (H s) as (E1 & E2 & E3). simpl. unfold J, within. rewrite E1, E2. split; [done|].
  intros (F & Hc & Hh). split_and!; [done|lia|done].
Qed.

Lemma later_index s hp bi :
  (J s → indexed_ok hp bi) → (J s → within (upd_index s hp bi) → within s) → later s (upd_index s hp bi).
Proof using Type. intros H1 H2 HJ. split; [by apply H1|by apply H2]. Qed.

(** Heights and sizes decide the bounds. *)
Lemma within_back s hp bi :
  indexed_ok (c_heap s) (c_index s) → length hp = length (c_heap s) → (size (bi_index bi) <= size (bi_index (c_index s)))%nat →
  n_height <$> hp = n_height <$> c_heap s → within (upd_index s hp bi) → within s.
Proof using Type.
  intros HJ Hl Hs Hh (F & Hc & Hf). unfold within, full in *. simpl in *. split_and!; [|done|].
  - pose proof (index_size _ _ HJ). lia.
  - apply Forall_fmap with (P := λ h, h < 2 ^ 63 - 1). rewrite <- Hh. by apply Forall_fmap.
Qed.

Lemma mono_del_node h : mono (modify (λ s, let '(hp, bi) := DelNode (c_heap s) (c_index s) h in upd_index s hp bi)).
Proof using Type.
  intros s. simpl. destruct (DelNode _ _ h) as [hp bi] eqn:E. apply later_index; intros HJ.
  - by eapply DelNode_spec.
  - destruct (DelNode_spec _ _ _ _ _ HJ E) as (_ & H1 & H2 & H3 & _). by apply within_back.
Qed.
Lemma mono_update_own id d : mono (update_own_node id d).
Proof using Type.
  intros s. unfold update_own_node. destruct (c_heap s !! id) as [n|] eqn:E; [|apply later_refl].
  destruct (String.eqb _ _); [|apply later_refl]. simpl. apply later_index; intros HJ;
    destruct (UpdateNode_spec _ _ _ _ (b_Hash (bd_Block d)) (StateHash (bd_Block d)) HJ E) as (H1 & H2 & H3); [done|].
  apply within_back; [done|apply length_insert|done|done].
Qed.
Lemma mono_add_node n : mono (add_node n).
Proof using Type.
  intros s HJ. unfold add_node, mbind, M_bind. simpl. destruct (AddNode _ _ _) as [hp bi] eqn:E. simpl.
  destruct (AddNode_spec _ _ _ _ _ HJ E) as (H1 & H2 & H3 & H4 & _). split; [done|].
  intros (F & Hc & Hf). unfold full in F. simpl in *. split_and!; [|done|].
  - unfold full. pose proof (index_size _ _ HJ). lia.
  - assert (Forall (λ h, h < 2 ^ 63 - 1) (n_height <$> (c_heap s ++ [n]))) as H.
    { rewrite <- H4. by apply Forall_fmap. }
    rewrite fmap_app, Forall_app in H. destruct H as [H _]. by apply Forall_fmap in H.
Qed.

Lemma mono_fault pid height hash e : mono (RecordFaultPeer pid height hash e).
Proof using Type. apply mono_modify. intros s. by destruct (bool_decide _). Qed.

Lemma mono_write answer batch : mono (write_batch answer batch).
Proof using Type. intros s. destruct answer; [apply later_refl|]. by apply (mono_modify (λ s, upd_store s _)). Qed.

(** Decompose a program; what is left are its own loops. *)
Ltac mono_step :=
  match goal with
  | |- mono (_ ≫= _) => apply mono_bind; [|intros ?]
  | |- mono (mret _) => apply mono_ret
  | |- mono (throw _) => apply mono_throw
  | |- mono panic => apply mono_panic
  | |- mono (guard_err _ _) => apply mono_guard
  | |- mono (get _) => apply mono_get
  | |- mono (lift _) => apply mono_lift
  | |- mono (deref _) => apply mono_deref
  | |- mono best_tip => apply mono_tip
  | |- mono (write_batch _ _) => apply mono_write
  | |- mono (notify _) => apply mono_modify; intros ?; done
  | |- mono (update_own_node _ _) => apply mono_update_own
  | |- mono (add_node _) => apply mono_add_node
  | |- mono (RecordFaultPeer _ _ _ _) => apply mono_fault
  | |- mono (modify (λ _, let '(_, _) := DelNode _ _ _ in _)) => apply mono_del_node
  | |- mono (modify _) => apply mono_modify; intros ?; simpl; split_and!; [done|done|lia]
  | |- mono (if ?b then _ else _) => destruct b
  | |- mono (match ?o with _ => _ end) => destruct o
  | |- mono (let '(_, _) := ?p in _) => destruct p
  end.

Lemma mono_exec k tip node block : mono (exec_node k tip node block).
Proof using Type.
  intros s. unfold exec_node. destruct (ExecBlock _ _ _ _ _) as [[d del]|e|]; [apply later_refl| |apply later_refl].
  destruct (IsRecordFaultErr e); [|destruct (String.eqb _ _)]; [| |apply later_refl].
  all: match goal with |- later ?x (?m ?x).2 => assert (mono m) as Hm; [repeat mono_step|apply Hm] end.
Qed.
Lemma mono_next : mono next_call.
Proof using Type. intros s HJ. split; [done|]. unfold within. simpl. intros (? & ? & ?). split_and!; [done|lia|done]. Qed.
Lemma mono_connect id d : mono (connectBlock C id d).
Proof using Type. unfold connectBlock. repeat mono_step; [apply mono_next|apply mono_exec]. Qed.
Lemma mono_disconnect id d q : mono (disconnectBlock C id d q).
Proof using Type. unfold disconnectBlock. repeat mono_step. apply mono_next. Qed.
Lemma mono_detach ids blocks : mono (detach_all C ids blocks).
Proof using Type. revert blocks. induction ids as [|id ids IH]; intros [|d blocks]; simpl; repeat mono_step; [apply mono_disconnect|apply IH]. Qed.
Lemma mono_attach ids blocks : mono (attach_all C ids blocks).
Proof using Type. revert blocks. induction ids as [|id ids IH]; intros [|d blocks]; simpl; repeat mono_step; [apply mono_connect|apply IH]. Qed.
Lemma mono_best id d : mono (connectBestChain C id d).
Proof using Type.
  unfold connectBestChain, reorganizeChain. repeat mono_step; [apply mono_connect|apply mono_detach|apply mono_attach].
Qed.
Lemma mono_accept br d pid q : mono (maybeAcceptBlock C br d pid q).
Proof using Type. unfold maybeAcceptBlock. repeat mono_step. apply mono_best. Qed.
Lemma mono_children fuel h count i hs : mono (process_children C fuel h count i hs).
Proof using Type.
  revert i hs. induction fuel as [|fuel IH]; intros i hs; cbn [process_children]; repeat mono_step; [apply mono_accept|apply IH|apply IH].
Qed.
Lemma mono_hashes fuel hs : mono (process_hashes C fuel hs).
Proof using Type.
  revert hs. induction fuel as [|fuel IH]; intros hs; cbn [process_hashes]; repeat mono_step; [apply mono_children|apply IH].
Qed.
Lemma mono_orphans h : mono (processOrphans C h).
Proof using Type. unfold processOrphans. repeat mono_step. apply mono_hashes. Qed.
End Mono.
