(* ===== verification/ChainInv.v ===== *)
(** The invariant of the chain: the store, the view, the cache and what other modules were
    told all describe the same main chain; every known block is stored with its total
    difficulty.  Connecting a block to the tip and disconnecting the tip keep it. *)

From Stdlib Require Import Ascii String.
From S2P Require Import Prelude Types KVStore Account Tx Merkle Block Difficulty BlockStore BlockStoreLemmas BlockIndex OrphanPool BlockCache ChainView Chain ChainMono.
Local Open Scope Z_scope.

(** ** Runs of stateful code, whatever they answer *)

Lemma bind_cases {S A B} (m : M S A) (f : A → M S B) s r s' :
  (m ≫= f) s = (r, s') →
  (∃ a s1, m s = (Ret a, s1) ∧ f a s1 = (r, s')) ∨ (∃ e, m s = (Err e, s') ∧ r = Err e) ∨ (m s = (Panic, s') ∧ r = Panic).
Proof. unfold mbind, M_bind. destruct (m s) as [[a|e|] s1]; intros H; [left; eauto|right; left|right; right]; simplify_eq; eauto. Qed.

Lemma guard_cases {S} c e (s : S) r s' :
  guard_err c e s = (r, s') → c = false ∧ r = Ret tt ∧ s' = s ∨ c = true ∧ r = Err e ∧ s' = s.
Proof. destruct c; intros [= <- <-]; auto. Qed.
Lemma deref_cases p s r s' :
  deref p s = (r, s') → s' = s ∧ match r with Ret n => ∃ id, p = Some id ∧ c_heap s !! id = Some n | Err _ => False | Panic => True end.
Proof. unfold deref. destruct p as [id|]; simpl; [destruct (c_heap s !! id) eqn:E|]; intros [= <- <-]; eauto. Qed.
Lemma write_cases answer batch s r s' :
  write_batch answer batch s = (r, s') →
  answer = None ∧ r = Ret tt ∧ s' = upd_store s (set_db (c_store s) (write (bs_db (c_store s)) batch)) ∨
  (∃ e, answer = Some e ∧ r = Err e ∧ s' = s).
Proof. unfold write_batch. destruct answer; intros [= <- <-]; eauto. Qed.
Lemma notify_run o s r s' : notify o s = (r, s') → r = Ret tt ∧ s' = upd_out s o.
Proof. by intros [= <- <-]. Qed.

(** Take one step of a run; the steps that only read or write the state are taken whole. *)
Ltac run_prim Hs :=
  lazymatch type of Hs with
  | get _ _ = _ => unfold get in Hs; first [discriminate Hs | injection Hs as <- <-]
  | modify _ _ = _ => unfold modify in Hs; first [discriminate Hs | injection Hs as <- <-]
  | notify _ _ = _ => unfold notify, modify in Hs; first [discriminate Hs | injection Hs as <- <-]
  | next_call _ = _ => unfold next_call in Hs; first [discriminate Hs | injection Hs as <- <-]
  | mret _ _ = _ => unfold mret, M_ret in Hs; first [discriminate Hs | injection Hs as <- <-]
  | lift _ _ = _ => unfold lift in Hs; injection Hs as Hs <-
  | guard_err _ _ _ = _ =>
      apply guard_cases in Hs as [(Hs & ? & ?)|(Hs & ? & ?)]; try discriminate; simplify_eq
  | write_batch _ _ _ = _ =>
      apply write_cases in Hs as [(Hs & ? & ?)|(? & Hs & ? & ?)]; try discriminate; simplify_eq
  | best_tip _ = _ => unfold best_tip in Hs; apply deref_cases in Hs as [? Hs]; subst; try contradiction
  | deref _ _ = _ => apply deref_cases in Hs as [? Hs]; subst; try contradiction
  | _ => idtac
  end.
Ltac run_step H Hs :=
  apply bind_cases in H as [(?a & ?s & Hs & H)|[(?e & Hs & ->)|[Hs ->]]];
  [run_prim Hs|run_prim Hs|try done; run_prim Hs].

Section Inv.
Context {ENV : ChainEnv} (C : ChainConfig).
Abbreviation hash_of d := (b_Hash (bd_Block d)).

(** ** What other modules are told *)

(** A module that follows the messages keeps a stack of block hashes; [None] if a block is
    withdrawn that is not its newest. *)
Definition follow (st : option (list bytes)) (o : notice) : option (list bytes) :=
  match o with
  | NAddBlock d => (λ l, hash_of d :: l) <$> st
  | NDelBlock d => st ≫= λ l, match l with h :: l => if String.eqb h (hash_of d) then Some l else None | [] => None end
  | _ => st
  end.
Definition hashes (main : list BlockDetail) : list bytes := reverse ((λ d, hash_of d) <$> main).

(** ** The invariant *)

(** A known block is stored under its hash. *)
Definition node_stored (db : gmap bytes bytes) (n : blockNode) : Prop :=
  ∃ d, has_block C db (n_hash n) d ∧ hash_of d = n_hash n ∧ b_Height (bd_Block d) = n_height n ∧
    CalcWork (b_Difficulty (bd_Block d)) = n_Difficulty n ∧ StateHash (bd_Block d) = statehash n.
(** Its total difficulty: its own and its parent's. *)
Definition node_td (s : BlockChain) (tds : list Z) (id : nat) (n : blockNode) : Prop :=
  ∃ td, tds !! id = Some td ∧ 0 <= td ∧ bs_db (c_store s) !! calcHashToTdKey (n_hash n) = Some (big_Bytes td) ∧
    (n_height n = 0 → td = n_Difficulty n) ∧
    (∀ p, 0 < n_height n → parent n = Some p → ∃ ptd, tds !! p = Some ptd ∧ td = n_Difficulty n + ptd).

Record Inv (main0 : list BlockDetail) (s : BlockChain) (main : list BlockDetail) (log : list BlockSequence)
    (tds : list Z) (path : list nat) : Prop := {
  iv_J : J s;
  iv_parents : parents_ok (c_heap s);
  iv_heights : ∀ id n, c_heap s !! id = Some n → -1 <= n_height n;
  iv_path : linked (c_heap s) path None;
  iv_view : view_ok (c_heap s) (c_best s) path;
  iv_nonempty : cv_queue (c_best s) ≠ [];
  iv_tip : ∀ t, head path = Some t → hgt (c_heap s) t = Z.of_nat (length main) - 1;
  iv_nodes : ∀ id n, id ∈ path → c_heap s !! id = Some n → 0 <= n_height n →
    ∃ d, main !! Z.to_nat (n_height n) = Some d ∧ hash_of d = n_hash n ∧ StateHash (bd_Block d) = statehash n;
  iv_cover : ∀ i d, main !! i = Some d → ∃ id n, id ∈ path ∧ c_heap s !! id = Some n ∧ n_height n = Z.of_nat i;
  iv_links : ∀ i d d', main !! i = Some d → main !! S i = Some d' → ParentHash (bd_Block d') = hash_of d;
  iv_store : store_ok C (c_store s) main log;
  iv_blocks : ∀ id n, c_heap s !! id = Some n → 0 <= n_height n → node_stored (bs_db (c_store s)) n;
  iv_tds : length tds = length (c_heap s) ∧ ∀ id n, c_heap s !! id = Some n → 0 <= n_height n → node_td s tds id n;
  iv_pregen : ∀ id n, c_heap s !! id = Some n → n_height n < 0 →
    tds !! id = Some (-1) ∧ bs_db (c_store s) !! calcHashToTdKey (n_hash n) = None;
  iv_cache : cache_ok (c_cache s) main;
  iv_calls : (length log <= c_calls s)%nat;
  iv_told : foldl follow (Some (hashes main0)) (c_out s) = Some (hashes main);
  iv_state : ∀ t n, head path = Some t → c_heap s !! t = Some n → c_statehash s = statehash n
}.

Lemma store_uniq bs main log : store_ok C bs main log → uniq main.
Proof using Type.
  intros H d d' [i Hi]%list_elem_of_lookup [j Hj]%list_elem_of_lookup E.
  assert (i = j) as ->; [|congruence]. destruct E as [E|E]; [|by eapply store_nodup].
  rewrite (so_heights _ _ _ _ H _ _ Hi), (so_heights _ _ _ _ H _ _ Hj) in E. lia.
Qed.

(** Errors before anything is written leave the state as it was, but for the counter and
    the list of faulty peers. *)
Definition idle (s s' : BlockChain) : Prop :=
  ∃ k f, (c_calls s <= k)%nat ∧ s' = upd_faults (upd_calls s k) f.

Lemma idle_refl s : idle s s.
Proof using Type. exists (c_calls s), (c_faults s). split; [done|by destruct s]. Qed.
Lemma Inv_idle main0 s s' main log tds path : idle s s' → Inv main0 s main log tds path → Inv main0 s' main log tds path.
Proof using Type. intros (k & f & Hk & ->) []. split; simpl; try done. lia. Qed.

Section Facts.
Variables (main0 : list BlockDetail) (s : BlockChain) (main : list BlockDetail) (log : list BlockSequence)
  (tds : list Z) (path : list nat).
Hypothesis I : Inv main0 s main log tds path.

Lemma path_ne : path ≠ [].
Proof using I. destruct (vo_prefix _ _ _ (iv_view _ _ _ _ _ _ I)) as [rest ->]. pose proof (iv_nonempty _ _ _ _ _ _ I). by destruct (cv_queue _). Qed.

Lemma tip_path : ∃ t tip, Tip (c_best s) = Some t ∧ head path = Some t ∧ c_heap s !! t = Some tip ∧
  n_height tip = Z.of_nat (length main) - 1.
Proof using I.
  pose proof path_ne as Hp. destruct path as [|t p] eqn:E; [done|].
  destruct (linked_in _ _ _ t (iv_path _ _ _ _ _ _ I)) as [tip Ht]; [set_solver|]. exists t, tip.
  rewrite (view_tip _ _ _ (iv_view _ _ _ _ _ _ I) (iv_nonempty _ _ _ _ _ _ I)). split_and!; [done|done|done|].
  pose proof (iv_tip _ _ _ _ _ _ I t eq_refl) as H. unfold hgt in H. by rewrite Ht in H.
Qed.

(** The tip's block is the newest one. *)
Lemma tip_block t tip : head path = Some t → c_heap s !! t = Some tip → 0 <= n_height tip →
  ∃ main' d, main = main' ++ [d] ∧ hash_of d = n_hash tip ∧ StateHash (bd_Block d) = statehash tip.
Proof using I.
  intros Ht Hn Hh. pose proof (iv_tip _ _ _ _ _ _ I t Ht) as E. unfold hgt in E. rewrite Hn in E.
  destruct (iv_nodes _ _ _ _ _ _ I t tip) as (d & Hd & H1 & H2); [destruct path; [done|set_solver]|done|done|].
  destruct (exists_last (l := main)) as (main' & d' & ->); [by intros ->|]. exists main', d'. split; [done|].
  rewrite length_app in E. simpl in E. replace (Z.to_nat (n_height tip)) with (length main') in Hd by lia.
  rewrite lookup_app_r, Nat.sub_diag in Hd by lia. simpl in Hd. by injection Hd as ->.
Qed.

(** The block of a known node can be loaded. *)
Lemma load_node id n : c_heap s !! id = Some n → 0 <= n_height n →
  ∃ d, chain_LoadBlockByHash s (n_hash n) = Ret d ∧ hash_of d = n_hash n ∧ b_Height (bd_Block d) = n_height n ∧
    CalcWork (b_Difficulty (bd_Block d)) = n_Difficulty n ∧ StateHash (bd_Block d) = statehash n.
Proof using I.
  intros Hn Hh. destruct (iv_blocks _ _ _ _ _ _ I id n Hn Hh) as (d & Hb & E1 & E2 & E3 & E4).
  unfold chain_LoadBlockByHash, GetCacheBlock. destruct (bc_cacheHash (c_cache s) !! n_hash n) as [e|] eqn:Ee; simpl.
  - apply (co_hash _ _ (iv_cache _ _ _ _ _ _ I)) in Ee as [He Eh]. apply (co_main _ _ (iv_cache _ _ _ _ _ _ I)) in He.
    pose proof (so_blocks _ _ _ _ (iv_store _ _ _ _ _ _ I) _ He) as [_ Hb']. destruct Hb as [_ Hb]. rewrite Eh in Hb'.
    rewrite Hb in Hb'. injection Hb' as Hx.
    assert (Some (header_of (bd_Block d)) = Some (header_of (bd_Block e.2))) as Hy by (rewrite <- !Decode_Encode; by rewrite Hx).
    injection Hy as _ _ _ Hy3 Hy1 _ _ _ Hy2 _. exists e.2. split_and!; [done|done|congruence..].
  - exists (stored C d). rewrite stored_hash. split; [by apply load_has_block|]. done.
Qed.
End Facts.

(** ** What a call of [connectBlock] does *)

(** What the chain relies on: the executor has local data for every block it executed,
    under keys of its own, and the batch of a block that is connected is written.  Without
    this the index and the cache keep a block that the store does not have
    ([local_data_failure] and [batch_failure] of [ChainDemo]); other batches may fail. *)
Class LocalData := {
  batch_written : ∀ k, add_Write k = None;
  local_total : ∀ k d, ∃ kvs, ask_local (services k) d = Ret kvs ∧ foreign kvs;
  local_del : ∀ k d kvs, ask_del_local (services k) d = Ret kvs → foreign kvs
}.
Context {LD : LocalData}.

Definition own (n : blockNode) : bool := String.eqb (n_pid n) "self".
Definition own_heap (hp : Heap) (id : nat) (n : blockNode) (d : BlockDetail) : Heap :=
  if own n then <[id := set_hashes n (hash_of d) (StateHash (bd_Block d))]> hp else hp.
Definition own_index (hp : Heap) (bi : blockIndex) (id : nat) (n : blockNode) : blockIndex :=
  if own n then UpdateNode hp bi (n_hash n) id else bi.

Definition other_notice (o : notice) : Prop := match o with NAddBlock _ | NDelBlock _ => False | _ => True end.

(** The state after block [d'] is connected as node [id]. *)
Definition connected (s : BlockChain) (id : nat) (n : blockNode) (d' : BlockDetail) (batch : list bop) (c : BlockCache)
    (o : list notice) : BlockChain :=
  let hp := own_heap (c_heap s) id n d' in
  mkChain hp (own_index hp (c_index s) id n) (setTip hp (c_best s) id) (c_orphans s) c
    (mkBS (write (bs_db (c_store s)) batch) (b_Height (bd_Block d')) (Some (bd_Block d')))
    (c_closed s) (c_peers s) (c_faults s) (StateHash (bd_Block d')) (S (c_calls s)) (c_out s ++ NAddBlock d' :: o).

Lemma idle_calls s s' : idle (upd_calls s (S (c_calls s))) s' → idle s s'.
Proof using Type. intros (k & f & Hk & ->). exists k, f. simpl in *. split; [lia|done]. Qed.

Lemma exec_node_ret s k tip n b d' s' :
  exec_node k tip n b s = (Ret d', s') →
  s' = s ∧ ∃ del, ExecBlock (services k) (statehash tip) b (negb (own n)) true = Ret (d', del).
Proof using Type.
  unfold exec_node. fold (own n). destruct (ExecBlock _ _ _ _ _) as [[d del]|e|]; [intros [= <- <-]; eauto| |done].
  destruct (IsRecordFaultErr e); [done|]. destruct (own n); done.
Qed.
Lemma exec_node_err s k tip n b e s' :
  J s → within s' → is_Some (bi_index (c_index s) !! n_hash n) → exec_node k tip n b s = (Err e, s') → idle s s'.
Proof using Type.
  intros HJ HW Hin H. unfold exec_node in H. fold (own n) in H.
  destruct (ExecBlock _ _ _ _ _) as [[d' del]|e'|]; [done| |done]. destruct (IsRecordFaultErr e').
  - unfold RecordFaultPeer, modify, throw, mbind, M_bind in H. injection H as <- <-.
    destruct (bool_decide _); [|apply idle_refl]. eexists (c_calls s), _. split; [done|]. by destruct s.
  - destruct (own n); [|injection H as _ <-; apply idle_refl]. exfalso. unfold modify, throw, mbind, M_bind in H.
    destruct (DelNode _ _ _) as [hp bi] eqn:E. injection H as _ <-.
    destruct (DelNode_spec _ _ _ _ _ HJ E) as (_ & _ & _ & _ & Hf). apply Hf; [done|]. by destruct HW.
Qed.

Lemma update_own_run s id n d : c_heap s !! id = Some n →
  update_own_node id d s =
  (Ret tt, upd_index s (own_heap (c_heap s) id n d) (own_index (own_heap (c_heap s) id n d) (c_index s) id n)).
Proof using Type.
  intros Hn. unfold update_own_node, own_heap, own_index. fold (own n). rewrite Hn. fold (own n).
  destruct (own n); [done|]. by destruct s.
Qed.

Lemma SaveBlock_no_err bs d q e : SaveBlock C bs d q ≠ Err e.
Proof using Type.
  unfold SaveBlock, saveBlockSequence. destruct (_ || _); [|done].
  destruct (isRecordBlockSequence C); [|by destruct (isParaChain C)].
  destruct (LoadBlockLastSequence bs) as [z|e'|]; [by destruct (_ && _)| |done]. repeat case_match; done.
Qed.
Lemma cacheBlock_no_err dbg c d e : cacheBlock dbg c d ≠ Err e.
Proof using Type. unfold cacheBlock. by destruct (_ && dbg). Qed.

Lemma connect_run s id n t tip d0 r s' :
  J s → within s' → c_heap s !! id = Some n → Tip (c_best s) = Some t → c_heap s !! t = Some tip →
  (ParentHash (bd_Block d0) = n_hash tip → ∃ td, block_td (c_store s) (bd_Block d0) = Ret td) →
  connectBlock C id d0 s = (r, s') → r ≠ Panic →
  (∃ e, r = Err e ∧ idle s s') ∨
  (∃ d' del kvs q ops c td o, r = Ret d' ∧
     ExecBlock (services (c_calls s)) (statehash tip) (bd_Block d0) (negb (own n)) true = Ret (d', del) ∧
     ParentHash (bd_Block d0) = n_hash tip ∧ foreign kvs ∧
     SaveBlock C (c_store s) d' (n_sequence n) = Ret (q, ops) ∧ cacheBlock Debug (c_cache s) d' = Ret c ∧
     block_td (c_store s) (bd_Block d0) = Ret td ∧ Forall other_notice o ∧
     s' = connected s id n d' (local_ops kvs ++ ops ++ SaveTdByBlockHash (hash_of d') td) c o).
Proof using LD.
  intros HJ HW Hn Ht Htip Htd H Hr.
  assert (within s) as W. { pose proof (mono_connect C id d0 s HJ) as [_ Hw]. rewrite H in Hw. auto. }
  assert (is_Some (bi_index (c_index s) !! n_hash n)) as Hidx. { exists id. apply (full_lookup _ _ HJ); [by destruct W|done]. }
  unfold connectBlock in H.
  run_step H Hs.
  run_step H Hs; [|left; eexists; split; [done|apply idle_refl]].
  run_step H Hs1. destruct Hs1 as (t' & Et & Et'). simplify_eq.
  run_step H Hs2; [|left; eexists; split; [done|apply idle_refl]].
  apply negb_false_iff, String.eqb_eq in Hs2. destruct (Htd Hs2) as [td Etd]. clear Htd.
  run_step H Hs1. destruct Hs1 as (id' & Ei & Ei'). simplify_eq.
  run_step H Hs1.
  assert (J (upd_calls s (S (c_calls s)))) as HJ1 by done.
  apply bind_cases in H as [(d' & s2 & Hs3 & H)|[(e & Hs3 & ->)|[_ ->]]]; [| |done].
  2: { left. exists e. split; [done|]. by eapply idle_calls, exec_node_err. }
  apply exec_node_ret in Hs3 as (-> & del & Hex).
  rewrite (bind_Ret _ _ _ _ _ (update_own_run (upd_calls s (S (c_calls s))) _ n d' Hn)) in H.
  destruct (local_total (c_calls s) d') as (kvs & Ek & Fk).
  unfold AddTxs in H. run_step H Ha; rewrite Ek in Ha; simplify_eq.
  run_step H Hb; [|by destruct (SaveBlock_no_err _ _ _ _ Hb)].
  match type of Hb with _ = Ret ?x => destruct x as [q ops] end.
  run_step H Hc; [|by destruct (cacheBlock_no_err _ _ _ _ Hc)].
  run_step H Hd. run_step H Hf; simpl in Hb, Hc, Hf; [|congruence].
  run_step H Hw; [|by rewrite batch_written in Hw]. clear Hw.
  simpl in Ha. injection Ha as <-. clear Ek. rename a0 into c, a1 into td'.
  assert (∃ o, Forall other_notice o ∧ r = Ret d' ∧
    s' = connected s id' n d' (local_ops kvs ++ ops ++ SaveTdByBlockHash (hash_of d') td') c o) as (o & Ho & -> & ->).
  { clear -H. unfold connected.
    destruct (n_broadcast n), (isRecordBlockSequence C && negb (isParaChain C)); repeat (run_step H Hm);
      injection H as <- <-; unfold upd_out; simpl; rewrite <- ?app_assoc; simpl;
      (eexists; split; [|split; [reflexivity|reflexivity]]); repeat constructor; by destruct (_ <? _). }
  right. exists d', del, kvs, q, ops, c, td', o. done.
Qed.

(** ** Connecting keeps the invariant *)

Section Connect.
Variables (main0 : list BlockDetail) (s : BlockChain) (main : list BlockDetail) (log : list BlockSequence)
  (tds : list Z) (path : list nat).
Hypothesis I : Inv main0 s main log tds path.
Variables (id : nat) (n : blockNode) (d0 : BlockDetail).
Hypothesis Hn : c_heap s !! id = Some n.
Hypothesis Hp : parent n = head path.

Lemma new_height : n_height n = Z.of_nat (length main).
Proof using Hn Hp I.
  destruct (tip_path _ _ _ _ _ _ I) as (t & tip & _ & Et & Ht & Hh). rewrite Et in Hp.
  destruct (iv_parents _ _ _ _ _ _ I _ _ _ Hn Hp) as (_ & m & Hm & E). simplify_eq. lia.
Qed.
Lemma new_not_in_path : id ∉ path.
Proof using Hn Hp I.
  intros Hin. pose proof new_height as Hh. destruct (tip_path _ _ _ _ _ _ I) as (t & tip & _ & Et & Ht & Htip).
  apply list_elem_of_lookup in Hin as [i Hi].
  pose proof (linked_height _ _ _ _ _ _ (iv_parents _ _ _ _ _ _ I) (iv_path _ _ _ _ _ _ I) Et Hi) as E.
  unfold hgt in E. rewrite Hn, Ht in E. lia.
Qed.

(** Its total difficulty is found. *)
Lemma new_td t tip : head path = Some t → c_heap s !! t = Some tip →
  b_Height (bd_Block d0) = n_height n → CalcWork (b_Difficulty (bd_Block d0)) = n_Difficulty n →
  ParentHash (bd_Block d0) = n_hash tip →
  ∃ td, tds !! id = Some td ∧ block_td (c_store s) (bd_Block d0) = Ret td.
Proof using Hn Hp I.
  intros Et Ht Eh Ed Epar. pose proof new_height as Hh.
  destruct (proj2 (iv_tds _ _ _ _ _ _ I) id n Hn) as (td & E1 & _ & _ & E0 & Ep); [lia|]. exists td. split; [done|].
  unfold block_td. rewrite Eh, Ed. destruct (Z.eqb_spec (n_height n) 0) as [Ez|Ez]; [by rewrite E0|].
  destruct (Ep t) as (ptd & E2 & ->); [lia|by rewrite Hp|]. unfold GetTdByBlockHash. rewrite Epar.
  destruct (iv_parents _ _ _ _ _ _ I id n t Hn) as (_ & m & Hm & Em); [by rewrite Hp|]. simplify_eq.
  destruct (proj2 (iv_tds _ _ _ _ _ _ I) t tip Ht) as (td' & E3 & Hpos & E4 & _); [lia|]. simplify_eq. rewrite E4. simpl.
  by rewrite big_roundtrip.
Qed.

(** The node as it is after an execution. *)
Definition sealed_node (d' : BlockDetail) : blockNode :=
  if own n then set_hashes n (hash_of d') (StateHash (bd_Block d')) else n.

Lemma own_heap_lookup d' j : own_heap (c_heap s) id n d' !! j = if decide (j = id) then Some (sealed_node d') else c_heap s !! j.
Proof using Hn.
  unfold own_heap, sealed_node. case_decide as E.
  - subst. destruct (own n); [|done]. apply list_lookup_insert_eq. by eapply lookup_lt_Some.
  - destruct (own n); [by rewrite list_lookup_insert_ne|done].
Qed.
Lemma own_heap_length d' : length (own_heap (c_heap s) id n d') = length (c_heap s).
Proof using Type. unfold own_heap. destruct (own n); [apply length_insert|done]. Qed.
Lemma sealed_fields d' : parent (sealed_node d') = parent n ∧ n_height (sealed_node d') = n_height n ∧ n_Difficulty (sealed_node d') = n_Difficulty n.
Proof using Type. unfold sealed_node. by destruct (own n). Qed.
Lemma own_heap_same d' j m : c_heap s !! j = Some m →
  ∃ m', own_heap (c_heap s) id n d' !! j = Some m' ∧ parent m' = parent m ∧ n_height m' = n_height m ∧ n_Difficulty m' = n_Difficulty m.
Proof using Hn.
  intros Hj. rewrite own_heap_lookup. case_decide as E; [|eauto]. subst. simplify_eq.
  eexists. split; [done|]. apply sealed_fields.
Qed.
Lemma own_heap_back d' j m' : own_heap (c_heap s) id n d' !! j = Some m' →
  ∃ m, c_heap s !! j = Some m ∧ parent m' = parent m ∧ n_height m' = n_height m ∧ n_Difficulty m' = n_Difficulty m.
Proof using Hn.
  rewrite own_heap_lookup. case_decide as E; [|eauto]. subst. intros [= <-]. exists n. split; [done|]. apply sealed_fields.
Qed.
Lemma own_parents d' : parents_ok (own_heap (c_heap s) id n d').
Proof using Hn I.
  intros j m' p (m & Hm & E1 & E2 & _)%own_heap_back Hpar. rewrite E1 in Hpar.
  destruct (iv_parents _ _ _ _ _ _ I _ _ _ Hm Hpar) as (Hlt & x & Hx & Ex). split; [done|].
  destruct (own_heap_same d' p x Hx) as (x' & Hx' & _ & Ex' & _). exists x'. split; [done|]. lia.
Qed.
Lemma own_linked d' l e : linked (c_heap s) l e → linked (own_heap (c_heap s) id n d') l e.
Proof using Hn. apply linked_mono. intros j m Hj. destruct (own_heap_same d' j m Hj) as (m' & ? & ? & _). eauto. Qed.

Lemma follow_other o st : Forall other_notice o → foldl follow st o = st.
Proof using Type. induction 1 as [|x o Hx _ IH]; simpl; [done|]. destruct x; done. Qed.
Lemma hashes_snoc d : hashes (main ++ [d]) = hash_of d :: hashes main.
Proof using Type. unfold hashes. by rewrite fmap_app, reverse_app. Qed.

Section Done.
Variables (t : nat) (tip : blockNode) (d' : BlockDetail) (del : list Transaction) (kvs : list (bytes * option bytes))
  (q : Z) (ops : list bop) (c : BlockCache) (td : Z) (o : list notice).
Let s' := connected s id n d' (local_ops kvs ++ ops ++ SaveTdByBlockHash (hash_of d') td) c o.
Hypothesis Et : head path = Some t.
Hypothesis Ht : c_heap s !! t = Some tip.
Hypothesis J' : J s'.
Hypothesis W' : within s'.
Hypothesis W : within s.
Hypothesis E0 : hash_of d0 = n_hash n.
Hypothesis Eh : b_Height (bd_Block d0) = n_height n.
Hypothesis Ed : CalcWork (b_Difficulty (bd_Block d0)) = n_Difficulty n.
Hypothesis Es : StateHash (bd_Block d0) = statehash n.
Hypothesis Hex : ExecBlock (services (c_calls s)) (statehash tip) (bd_Block d0) (negb (own n)) true = Ret (d', del).
Hypothesis Epar : ParentHash (bd_Block d0) = n_hash tip.
Hypothesis F : foreign kvs.
Hypothesis Hsave : SaveBlock C (c_store s) d' (n_sequence n) = Ret (q, ops).
Hypothesis Hcache : cacheBlock Debug (c_cache s) d' = Ret c.
Hypothesis Htd : block_td (c_store s) (bd_Block d0) = Ret td.
Hypothesis Ho : Forall other_notice o.

Lemma exec_fields :
  b_Height (bd_Block d') = n_height n ∧ ParentHash (bd_Block d') = n_hash tip ∧
  CalcWork (b_Difficulty (bd_Block d')) = n_Difficulty n ∧
  n_hash (sealed_node d') = hash_of d' ∧ statehash (sealed_node d') = StateHash (bd_Block d').
Proof using Hex Epar E0 Eh Ed Es.
  apply ExecBlock_spec in Hex. destruct (ex_header _ _ _ _ _ _ Hex) as (_ & H1 & H2 & _ & H3 & _).
  split_and!; [congruence|congruence|by rewrite H3| |]; unfold sealed_node; destruct (own n) eqn:Eo; try done;
    destruct (ex_exact _ _ _ _ _ _ Hex eq_refl) as [-> _]; congruence.
Qed.

(** No other node has its hash. *)
Lemma hash_new j m : c_heap s !! j = Some m → j ≠ id → n_hash m ≠ hash_of d'.
Proof using All.
  intros Hj Hne E. destruct exec_fields as (_ & _ & _ & Ehash & _).
  assert (c_heap s' !! j = Some m) as H1 by (simpl; by rewrite own_heap_lookup, decide_False).
  assert (c_heap s' !! id = Some (sealed_node d')) as H2 by (simpl; by rewrite own_heap_lookup, decide_True).
  pose proof (full_lookup _ _ J' _ _ (proj1 W') H1) as L1. pose proof (full_lookup _ _ J' _ _ (proj1 W') H2) as L2.
  rewrite Ehash, <- E, L1 in L2. by injection L2.
Qed.

Lemma main_new d : d ∈ main → hash_of d ≠ hash_of d'.
Proof using All.
  intros [i Hi]%list_elem_of_lookup. destruct (iv_cover _ _ _ _ _ _ I i d Hi) as (j & m & Hj & Hm & Eh').
  destruct (iv_nodes _ _ _ _ _ _ I j m Hj Hm) as (d1 & Hd1 & E1 & _); [lia|].
  replace (Z.to_nat (n_height m)) with i in Hd1 by lia. simplify_eq. rewrite E1. apply (hash_new j m Hm).
  intros ->. by apply new_not_in_path.
Qed.

Lemma batch_db : ∃ k, (isRecordBlockSequence C = true → k = Z.of_nat (length log)) ∧
  bs_db (c_store s') = connect_db C (bs_db (c_store s)) kvs d' k td.
Proof using All.
  destruct exec_fields as (H1 & _). pose proof new_height as H2. destruct W as (_ & Wc & _).
  destruct (SaveBlock_runs C (c_store s) main log d' (n_sequence n) (iv_store _ _ _ _ _ _ I)) as (q' & k & E & Hk).
  { pose proof (iv_calls _ _ _ _ _ _ I). lia. } { lia. }
  rewrite Hsave in E. injection E as <- ->. exists k. split; [|done]. intros R. by apply Hk.
Qed.

Lemma connect_store : ∃ k, store_ok C (c_store s') (main ++ [d']) (log ++ [mkSeq (hash_of d') AddBlock]) ∧
  bs_db (c_store s') = connect_db C (bs_db (c_store s)) kvs d' k td.
Proof using All.
  destruct batch_db as (k & Hk & E). exists k. split; [|done].
  assert (c_store s' = mkBS (connect_db C (bs_db (c_store s)) kvs d' k td) (b_Height (bd_Block d')) (Some (bd_Block d'))) as ->.
  { rewrite <- E. done. }
  apply store_connect; [apply I| |apply main_new|done|done].
  destruct exec_fields as (H1 & _). pose proof new_height. lia.
Qed.

Lemma connect_ok : Inv main0 s' (main ++ [d']) (log ++ [mkSeq (hash_of d') AddBlock]) tds (id :: path).
Proof using All.
  destruct exec_fields as (F1 & F2 & F3 & F4 & F5). pose proof new_height as Hh. pose proof (own_parents d') as P.
  destruct connect_store as (k & HS & Edb). set (hp := own_heap (c_heap s) id n d').
  assert (linked hp (id :: path) None) as HL.
  { split; [|apply own_linked, I]. exists (sealed_node d'). split; [unfold hp; by rewrite own_heap_lookup, decide_True|].
    destruct (sealed_fields d') as (-> & _). rewrite Hp. by destruct path. }
  assert (hp !! id = Some (sealed_node d')) as Hid by (unfold hp; by rewrite own_heap_lookup, decide_True).
  assert (view_ok hp (c_best s) path) as HV.
  { eapply view_mono; [|apply I|apply I]. intros j m Hj. destruct (own_heap_same d' j m Hj) as (m' & ? & _ & ? & _). eauto. }
  destruct (setTip_ok hp (c_best s) path id (sealed_node d') P HL Hid) as [HV' HT]; [by eapply path_ne|apply I|done|].
  assert (d' ∉ main) as Hnew by (intros Hd; by apply (main_new d' Hd)).
  split; simpl; fold hp.
  - done.
  - done.
  - intros j m' (m & Hm & _ & -> & _)%own_heap_back. by apply (iv_heights _ _ _ _ _ _ I _ _ Hm).
  - done.
  - done.
  - intros E. unfold Tip in HT. by rewrite E in HT.
  - intros x [= <-]. unfold hgt. rewrite Hid, length_app. destruct (sealed_fields d') as (_ & -> & _). simpl. lia.
  - intros j m Hj Hm Hpos. apply elem_of_cons in Hj as [->|Hj].
    + rewrite Hid in Hm. injection Hm as <-. exists d'. destruct (sealed_fields d') as (_ & -> & _).
      split_and!; [|done|done]. apply lookup_snoc_Some. right. split; [lia|done].
    + assert (j ≠ id) as Hne by (intros ->; by apply new_not_in_path). unfold hp in Hm. rewrite own_heap_lookup, decide_False in Hm by done.
      destruct (iv_nodes _ _ _ _ _ _ I j m Hj Hm Hpos) as (d & H1 & H2 & H3). exists d. split_and!; [|done|done].
      apply lookup_snoc_Some. by left.
  - intros i d [Hi|[-> ->]]%lookup_snoc_Some.
    + destruct (iv_cover _ _ _ _ _ _ I i d Hi) as (j & m & H1 & H2 & H3). destruct (own_heap_same d' j m H2) as (m' & H4 & _ & H5 & _).
      exists j, m'. split_and!; [set_solver|done|congruence].
    + exists id, (sealed_node d'). destruct (sealed_fields d') as (_ & E & _). split_and!; [set_solver|done|lia].
  - intros i d1 d2 H1 H2. apply lookup_snoc_Some in H2 as [H2|[E ->]].
    + apply lookup_snoc_Some in H1 as [H1|[-> _]]; [by eapply (iv_links _ _ _ _ _ _ I)|]. apply lookup_lt_Some in H2. lia.
    + apply lookup_snoc_Some in H1 as [H1|[-> _]]; [|lia]. rewrite F2.
      destruct (tip_block _ _ _ _ _ _ I t tip Et Ht) as (main' & d & -> & <- & _).
      { pose proof (iv_tip _ _ _ _ _ _ I t Et) as E'. unfold hgt in E'. rewrite Ht in E'. lia. }
      rewrite length_app in E. simpl in E. assert (i = length main') as -> by lia. rewrite lookup_app_r, Nat.sub_diag in H1 by lia. by simplify_eq/=.
  - done.
  - intros j m Hm Hpos. unfold node_stored, has_block. change (write _ _) with (bs_db (c_store s')). rewrite Edb.
    unfold hp in Hm. rewrite own_heap_lookup in Hm. case_decide as E.
    + injection Hm as <-. exists d'. rewrite F4, conn_body, conn_header, !decide_True by done. destruct (sealed_fields d') as (_ & -> & ->).
      split_and!; [done|done|done|done|done|done].
    + destruct (iv_blocks _ _ _ _ _ _ I j m Hm Hpos) as (d & [H1 H2] & H3). exists d.
      rewrite conn_body, conn_header, !decide_False by (try done; by apply (hash_new j)). done.
  - split; [unfold hp; rewrite own_heap_length; apply I|]. intros j m' Hm' Hpos. unfold node_td. change (write _ _) with (bs_db (c_store s')).
    destruct (own_heap_back _ _ _ Hm') as (m & Hm & P1 & P2 & P3). rewrite P1, P2, P3.
    destruct (proj2 (iv_tds _ _ _ _ _ _ I) j m Hm) as (tdj & T1 & T2 & T3 & T4); [lia|]. exists tdj. split_and!; [done|done| |apply T4..].
    rewrite Edb, conn_td by done. unfold hp in Hm'. rewrite own_heap_lookup in Hm'. case_decide as E.
    + injection Hm' as <-. rewrite F4, decide_True by done. subst j. simplify_eq.
      destruct (new_td t tip Et Ht Eh Ed Epar) as (td2 & T5 & T6). rewrite Htd in T6. by simplify_eq.
    + simplify_eq. by rewrite decide_False by (by apply (hash_new j)).
  - intros j m Hm Hneg. change (write _ _) with (bs_db (c_store s')). unfold hp in Hm. rewrite own_heap_lookup in Hm. case_decide as E.
    + injection Hm as <-. destruct (sealed_fields d') as (_ & E' & _). lia.
    + destruct (iv_pregen _ _ _ _ _ _ I j m Hm Hneg) as [H1 H2]. split; [done|].
      rewrite Edb, conn_td, decide_False by (try done; by apply (hash_new j)). done.
  - eapply cacheBlock_ok; [apply I|by eapply store_uniq|done|exact Hcache].
  - rewrite length_app. simpl. pose proof (iv_calls _ _ _ _ _ _ I). lia.
  - rewrite foldl_app, (iv_told _ _ _ _ _ _ I). simpl. rewrite follow_other by done. by rewrite hashes_snoc.
  - intros x m [= <-] Hm. rewrite Hid in Hm. injection Hm as <-. done.
Qed.
End Done.
End Connect.

Lemma connect_inv main0 s main log tds path id n d0 r s' :
  Inv main0 s main log tds path → within s' → c_heap s !! id = Some n → parent n = head path →
  hash_of d0 = n_hash n → b_Height (bd_Block d0) = n_height n → CalcWork (b_Difficulty (bd_Block d0)) = n_Difficulty n →
  StateHash (bd_Block d0) = statehash n → connectBlock C id d0 s = (r, s') → r ≠ Panic →
  (∃ e, r = Err e ∧ idle s s') ∨
  (∃ d' log', r = Ret d' ∧ Inv main0 s' (main ++ [d']) log' tds (id :: path) ∧ (∀ j, j ≠ id → c_heap s' !! j = c_heap s !! j)).
Proof using LD.
  intros I HW Hn Hp E0 Eh Ed Es H Hr. destruct (tip_path _ _ _ _ _ _ I) as (t & tip & HT & Et & Ht & _).
  pose proof (mono_connect C id d0 s (iv_J _ _ _ _ _ _ I)) as [J' Wb]. rewrite H in J', Wb. simpl in J', Wb.
  destruct (connect_run s id n t tip d0 r s') as [?|(d' & del & kvs & q & ops & c & td & o & -> & A1 & A2 & A3 & A4 & A5 & A6 & A7 & ->)];
    try done; [apply I| |by left|].
  { intros Epar. destruct (new_td _ _ _ _ _ _ I id n d0 Hn Hp t tip Et Ht Eh Ed Epar) as (td & _ & Etd). eauto. }
  right. eexists d', _. split; [done|]. split.
  - eapply connect_ok; try done. by apply Wb.
  - intros j Hj. simpl. rewrite (own_heap_lookup s id n Hn). by rewrite decide_False.
Qed.

(** ** Disconnecting the tip *)

Definition disconnected (s : BlockChain) (id : nat) (d0 : BlockDetail) (batch : list bop) (c : BlockCache) (par : blockNode)
    (o : list notice) : BlockChain :=
  mkChain (c_heap s) (c_index s) (delTip (c_heap s) (c_best s) id) (c_orphans s) c
    (UpdateLastBlock (UpdateHeight (set_db (c_store s) (write (bs_db (c_store s)) batch))) (ParentHash (bd_Block d0)))
    (c_closed s) (c_peers s) (c_faults s) (statehash par) (S (c_calls s)) (c_out s ++ NDelBlock d0 :: o).

Lemma DelBlock_no_err bs d q e : DelBlock C bs d q ≠ Err e.
Proof using Type.
  unfold DelBlock, saveBlockSequence. destruct (_ || _); [|done].
  destruct (isRecordBlockSequence C); [|by destruct (isParaChain C)].
  destruct (LoadBlockLastSequence bs) as [z|e'|]; [by destruct (_ && _)| |done]. repeat case_match; done.
Qed.
Lemma delCache_no_err dbg c h e : delBlockFromCache dbg c h ≠ Err e.
Proof using Type. unfold delBlockFromCache. by destruct (_ && dbg). Qed.

Lemma disconnect_run s id n d0 q r s' :
  c_heap s !! id = Some n → Tip (c_best s) = Some id → disconnectBlock C id d0 q s = (r, s') → r ≠ Panic →
  (∃ e, r = Err e ∧ idle s s') ∨
  (∃ kvs k ops c p par o, r = Ret tt ∧ ask_del_local (services (c_calls s)) d0 = Ret kvs ∧
     DelBlock C (c_store s) d0 q = Ret (k, ops) ∧ parent n = Some p ∧ c_heap s !! p = Some par ∧
     delBlockFromCache Debug (c_cache s) (b_Height (bd_Block d0)) = Ret c ∧
     is_Some (Tip (delTip (c_heap s) (c_best s) id)) ∧ Forall other_notice o ∧
     s' = disconnected s id d0 (local_ops kvs ++ ops) c par o).
Proof using Type.
  intros Hn Ht H Hr. unfold disconnectBlock in H.
  run_step H Hs. destruct Hs as (id' & [= <-] & Hs). simplify_eq.
  run_step H Hs1. destruct Hs1 as (id' & E1 & E2). rewrite Ht in E1. injection E1 as <-. rewrite Hn in E2. injection E2 as <-.
  run_step H Hs2; [|left; eexists; split; [done|apply idle_refl]].
  run_step H Hs3. unfold DelTxs in H. run_step H Hd.
  2: { left. eexists. split; [done|]. exists (S (c_calls s)), (c_faults s). split; [lia|done]. }
  destruct (ask_del_local (services (c_calls s)) d0) as [kvs|e|] eqn:Ek; simpl in Hd; try done. injection Hd as <-.
  run_step H Hb; [|by destruct (DelBlock_no_err _ _ _ _ Hb)]. match type of Hb with _ = Ret ?x => destruct x as [k ops] end. simpl in Hb.
  run_step H Hw.
  2: { left. eexists. split; [done|]. exists (S (c_calls s)), (c_faults s). split; [lia|done]. }
  do 3 (run_step H Hm). run_step H Hpar. destruct Hpar as (p & Ep & Hpn). simpl in Hpn.
  run_step H Hm. run_step H Hm. run_step H Hc; [|by destruct (delCache_no_err _ _ _ _ Hc)]. simpl in Hc.
  run_step H Hm. run_step H Hnt. destruct Hnt as (nt & Ent & Hnt). simpl in Ent, Hnt.
  match type of Hc with _ = Ret ?x => rename x into c end. match type of Hpn with _ = Some ?x => rename x into par end.
  assert (∃ o, Forall other_notice o ∧ r = Ret tt ∧ s' = disconnected s id d0 (local_ops kvs ++ ops) c par o) as (o & Ho & -> & ->).
  { clear -H. unfold disconnected. destruct (isRecordBlockSequence C && negb (isParaChain C)); [apply notify_run in H as [-> ->]|injection H as <- <-];
      unfold upd_out; simpl; rewrite <- ?app_assoc; simpl; (eexists; split; [|split; [reflexivity|reflexivity]]); repeat constructor. }
  right. exists kvs, k, ops, c, p, par, o. split_and!; done.
Qed.

Lemma header_eq d0 d : header_of (bd_Block d0) = header_of (bd_Block d) →
  hash_of d0 = hash_of d ∧ b_Height (bd_Block d0) = b_Height (bd_Block d) ∧ ParentHash (bd_Block d0) = ParentHash (bd_Block d).
Proof using Type. by intros [= _ ? _ _ ? _ _ ? _ _]. Qed.

Lemma disconnect_inv main0 s main d log tds id rest n d0 q r s' :
  Inv main0 s (main ++ [d]) log tds (id :: rest) → within s → c_heap s !! id = Some n →
  header_of (bd_Block d0) = header_of (bd_Block d) →
  disconnectBlock C id d0 q s = (r, s') → r ≠ Panic →
  (∃ e, r = Err e ∧ idle s s') ∨
  (∃ log', r = Ret tt ∧ Inv main0 s' main log' tds rest ∧ c_heap s' = c_heap s).
Proof using LD.
  intros I HW Hn Ehd H Hr. apply header_eq in Ehd as (X1 & X2 & X3).
  destruct (tip_path _ _ _ _ _ _ I) as (t & tip & HT & [= <-] & Ht & Htip). simplify_eq.
  destruct (disconnect_run s id n d0 q r s' Hn HT H Hr)
    as [?|(kvs & k & ops & c & p & par & o & -> & A1 & A2 & A3 & A4 & A5 & A6 & A7 & ->)]; [by left|]. right.
  assert (DelBlock C (c_store s) d q = Ret (k, ops)) as A2' by (rewrite <- A2; unfold DelBlock; by rewrite X1, X2).
  pose proof HW as (_ & Wc & Wh). pose proof (iv_calls _ _ _ _ _ _ I) as Hcalls.
  destruct (DelBlock_runs C (c_store s) main log d q (iv_store _ _ _ _ _ _ I)) as (k' & E & Hk); [lia|].
  rewrite A2' in E. injection E as _ ->. apply local_del in A1.
  assert (b_Height (bd_Block d) = Z.of_nat (length main)) as Hd.
  { apply (so_heights _ _ _ _ (iv_store _ _ _ _ _ _ I)). apply lookup_snoc_Some. by right. }
  rewrite length_app in Htip. simpl in Htip.
  pose proof (iv_path _ _ _ _ _ _ I) as [(x & Hx & Ex) HL]. simplify_eq. rewrite A3 in Ex.
  destruct rest as [|p' rest]; [done|]. injection Ex as <-.
  destruct (delTip_ok _ _ _ _ _ (iv_parents _ _ _ _ _ _ I) (iv_path _ _ _ _ _ _ I) Hn (iv_nonempty _ _ _ _ _ _ I) (iv_view _ _ _ _ _ _ I)) as [HV HQ].
  assert (∀ d1, list.last main = Some d1 → hash_of d1 = ParentHash (bd_Block d)) as Hlast.
  { intros d1 [main1 ->]%last_Some. symmetry. rewrite <- app_assoc in I. apply (iv_links _ _ _ _ _ _ I (length main1)).
    - by rewrite lookup_app_r, Nat.sub_diag by lia.
    - rewrite lookup_app_r by lia. by replace (S (length main1) - length main1)%nat with 1%nat by lia. }
  eexists. split; [done|]. split; [|done].
  assert (store_ok C (UpdateLastBlock (UpdateHeight (set_db (c_store s) (disconnect_db C (bs_db (c_store s)) kvs d k'))) (ParentHash (bd_Block d)))
    main (log ++ [mkSeq (hash_of d) DelBlock_])) as HS.
  { apply store_disconnect; [apply I|done| |done|done]. pose proof (Forall_lookup_1 _ _ _ _ Wh Hn) as Wn. simpl in Wn. lia. }
  assert (bs_db (UpdateLastBlock (UpdateHeight (set_db (c_store s) (disconnect_db C (bs_db (c_store s)) kvs d k'))) (ParentHash (bd_Block d))) =
    disconnect_db C (bs_db (c_store s)) kvs d k') as Edb.
  { unfold UpdateLastBlock, UpdateHeight. repeat case_match; done. }
  assert (∀ j, j ∈ p :: rest → hgt (c_heap s) j < Z.of_nat (length main)) as Hlow.
  { intros j Hj. pose proof (linked_head_lower _ _ _ _ _ (iv_parents _ _ _ _ _ _ I) (iv_path _ _ _ _ _ _ I) Hj) as Hx'.
    unfold hgt in Hx' at 2. rewrite Hn in Hx'. lia. }
  set (s1 := disconnected _ _ _ _ _ _ _).
  assert (c_store s1 = UpdateLastBlock (UpdateHeight (set_db (c_store s) (disconnect_db C (bs_db (c_store s)) kvs d k'))) (ParentHash (bd_Block d))) as Est.
  { unfold s1, disconnected. simpl. by rewrite X3. }
  split.
  - apply I.
  - apply I.
  - apply I.
  - done.
  - done.
  - intros E. unfold Tip in A6. simpl in E. rewrite E in A6. by destruct A6.
  - intros y [= <-]. destruct (iv_parents _ _ _ _ _ _ I _ _ _ Hn A3) as (_ & m & Hm & Eh). unfold hgt. simpl. rewrite Hm. lia.
  - intros j m Hj Hm Hpos. simpl in Hm. destruct (iv_nodes _ _ _ _ _ _ I j m) as (d1 & H1 & H2); [set_solver|done|done|]. exists d1. split; [|done].
    apply lookup_snoc_Some in H1 as [H1|[E _]]; [done|]. pose proof (Hlow j Hj) as Hl. unfold hgt in Hl. rewrite Hm in Hl. lia.
  - intros i d1 Hi. destruct (iv_cover _ _ _ _ _ _ I i d1) as (j & m & H1 & H2 & H3); [apply lookup_snoc_Some; by left|].
    exists j, m. split; [|done]. apply elem_of_cons in H1 as [->|H1]; [|done]. simplify_eq. apply lookup_lt_Some in Hi. lia.
  - intros i d1 d2 H1 H2. eapply (iv_links _ _ _ _ _ _ I); apply lookup_snoc_Some; left; done.
  - rewrite Est. exact HS.
  - intros j m Hm Hpos.
    destruct (iv_blocks _ _ _ _ _ _ I j m Hm Hpos) as (d1 & [B1 B2] & B3). exists d1. split; [|done]. unfold has_block.
    rewrite Est, Edb, !disc_same by naive_solver. done.
  - split; [apply I|]. intros j m Hm Hpos. destruct (proj2 (iv_tds _ _ _ _ _ _ I) j m Hm Hpos) as (td & T1 & T2 & T3 & T4).
    exists td. split_and!; [done|done| |apply T4..]. rewrite Est, Edb, disc_same by naive_solver. done.
  - intros j m Hm Hneg. destruct (iv_pregen _ _ _ _ _ _ I j m Hm Hneg) as [H1 H2]. split; [done|].
    rewrite Est, Edb, disc_same by naive_solver. done.
  - eapply delBlockFromCache_ok; [apply I|by eapply store_uniq, I| |rewrite <- X2; exact A5].
    intros [i Hi]%list_elem_of_lookup. assert (i = length main) as ->; [|apply lookup_lt_Some in Hi; lia].
    eapply (store_nodup C _ _ _ _ _ d d); [apply I|apply lookup_snoc_Some; by left|apply lookup_snoc_Some; by right|done].
  - rewrite length_app. simpl. lia.
  - unfold s1, disconnected. cbn [c_out]. rewrite foldl_app, (iv_told _ _ _ _ _ _ I). simpl. rewrite hashes_snoc. simpl. rewrite X1, String.eqb_refl. by apply follow_other.
  - intros y m [= <-] Hm. simpl in *. by simplify_eq.
Qed.
End Inv.
