(* ===== verification/ChainSteps.v ===== *)
(** Reorganisations and the acceptance of blocks keep the invariant of the chain. *)

From Stdlib Require Import Ascii String.
From S2P Require Import Prelude Types KVStore Account Tx Merkle Block Difficulty BlockStore BlockStoreLemmas BlockIndex OrphanPool BlockCache ChainView Chain ChainMono ChainInv.
Local Open Scope Z_scope.

Section Steps.
Context {ENV : ChainEnv} (C : ChainConfig) {LD : LocalData} (main0 : list BlockDetail).
Abbreviation hash_of d := (b_Hash (bd_Block d)).

Definition Good (s : BlockChain) : Prop := ∃ main log tds path, Inv C main0 s main log tds path.

Lemma Good_idle s s' main log tds path : Inv C main0 s main log tds path → idle s s' → Good s'.
Proof using Type. intros I Hi. exists main, log, tds, path. by eapply Inv_idle. Qed.

(** ** Loading the blocks of a list of nodes *)

Lemma omap_aligned {A B} (f : A → option B) l :
  (∀ i x, l !! i = Some x → (S i < length l)%nat → is_Some (f x)) →
  ∀ i y, omap f l !! i = Some y → ∃ x, l !! i = Some x ∧ f x = Some y.
Proof using Type.
  induction l as [|x l IH]; intros H i y Hy; [done|]. simpl in Hy.
  destruct (f x) as [z|] eqn:E.
  - destruct i as [|i]; simpl in Hy; [injection Hy as <-; by exists x|]. apply IH; [|done].
    intros j x' Hj Hlt. apply (H (S j)); [done|simpl; lia].
  - destruct l as [|x' l]; [done|]. destruct (H 0%nat x eq_refl) as [z Hz]; [simpl; lia|]. congruence.
Qed.

(** What a loaded block is known to be. *)
Definition block_of (n : blockNode) (d : BlockDetail) : Prop :=
  hash_of d = n_hash n ∧ b_Height (bd_Block d) = n_height n ∧ CalcWork (b_Difficulty (bd_Block d)) = n_Difficulty n ∧
  StateHash (bd_Block d) = statehash n.

Section Load.
Variables (s : BlockChain) (main : list BlockDetail) (log : list BlockSequence) (tds : list Z) (path : list nat).
Hypothesis I : Inv C main0 s main log tds path.

Lemma load_aligned l e i d0 :
  linked (c_heap s) l e → load_blocks s l !! i = Some d0 →
  ∃ id n, l !! i = Some id ∧ c_heap s !! id = Some n ∧ chain_LoadBlockByHash s (n_hash n) = Ret d0.
Proof using I LD.
  intros Hl Hi. apply omap_aligned in Hi as (id & Hid & Hd).
  - destruct (c_heap s !! id) as [n|] eqn:Hn; [|done]. exists id, n. split_and!; [done|done|].
    destruct (chain_LoadBlockByHash s (n_hash n)); simplify_eq. done.
  - intros j id' Hj Hlt. destruct (linked_in _ _ _ id' Hl) as [n Hn]; [by eapply list_elem_of_lookup_2|]. rewrite Hn.
    destruct (lookup_lt_is_Some_2 l (S j) Hlt) as [id2 Hid2]. destruct l as [|x l]; [done|].
    destruct (linked_in _ _ _ id2 Hl) as [n2 Hn2]; [by eapply list_elem_of_lookup_2|].
    pose proof (linked_height _ _ _ _ _ _ (iv_parents _ _ _ _ _ _ _ I) Hl eq_refl Hj) as G1.
    pose proof (linked_height _ _ _ _ _ _ (iv_parents _ _ _ _ _ _ _ I) Hl eq_refl Hid2) as G2.
    unfold hgt in G1, G2. rewrite Hn in G1. rewrite Hn2 in G2. pose proof (iv_heights _ _ _ _ _ _ _ I _ _ Hn2).
    destruct (load_node C _ _ _ _ _ _ I id' n Hn) as (d & -> & _); [lia|]. eauto.
Qed.

(** When every node has a block, as those above a fork have. *)
Lemma load_all l i id :
  (∀ id, id ∈ l → ∃ n, c_heap s !! id = Some n ∧ 0 <= n_height n) → l !! i = Some id →
  ∃ n d0, c_heap s !! id = Some n ∧ load_blocks s l !! i = Some d0 ∧ chain_LoadBlockByHash s (n_hash n) = Ret d0 ∧ block_of n d0.
Proof using I LD.
  revert i. induction l as [|x l IH]; intros i Hall Hi; [done|].
  destruct (Hall x) as (n & Hn & Hpos); [set_solver|]. destruct (load_node C _ _ _ _ _ _ I x n Hn Hpos) as (d & E & Hd).
  unfold load_blocks. simpl. rewrite Hn, E. destruct i as [|i]; simpl in *.
  - injection Hi as <-. exists n, d. done.
  - apply IH; [|done]. intros y Hy. apply Hall. set_solver.
Qed.

(** A block loaded for a node of the main chain has the header of the main chain's block. *)
Lemma block_header id n d0 :
  id ∈ path → c_heap s !! id = Some n → 0 <= n_height n → chain_LoadBlockByHash s (n_hash n) = Ret d0 →
  ∃ d, main !! Z.to_nat (n_height n) = Some d ∧ header_of (bd_Block d0) = header_of (bd_Block d).
Proof using I LD.
  intros Hin Hn Hpos HL. destruct (iv_nodes _ _ _ _ _ _ _ I id n Hin Hn Hpos) as (d & Hd & E & _). exists d. split; [done|].
  pose proof (so_blocks _ _ _ _ (iv_store _ _ _ _ _ _ _ I) d (list_elem_of_lookup_2 _ _ _ Hd)) as Hb. rewrite E in Hb.
  unfold chain_LoadBlockByHash, GetCacheBlock in HL. destruct (bc_cacheHash (c_cache s) !! n_hash n) as [e|] eqn:Ee; simpl in HL.
  - injection HL as <-. apply (co_hash _ _ (iv_cache _ _ _ _ _ _ _ I)) in Ee as [He Eh].
    pose proof (co_main _ _ (iv_cache _ _ _ _ _ _ _ I) _ He) as Hm.
    assert (e.2 = d) as ->; [|done]. eapply store_uniq; [apply I|done|by eapply list_elem_of_lookup_2|right; congruence].
  - rewrite (load_has_block C _ _ d Hb) in HL. injection HL as <-. apply stored_header.
Qed.
End Load.

(** ** Detaching *)

Lemma detach_inv a : ∀ s main log tds rest blocks r s',
  Inv C main0 s main log tds (a ++ rest) → within s' → detach_all C a blocks s = (r, s') → r ≠ Panic →
  (∀ i id d0 n, a !! i = Some id → blocks !! i = Some d0 → c_heap s !! id = Some n → 0 <= n_height n →
     ∃ d, main !! Z.to_nat (n_height n) = Some d ∧ header_of (bd_Block d0) = header_of (bd_Block d)) →
  match r with
  | Ret _ => ∃ main' log', Inv C main0 s' main' log' tds rest ∧ c_heap s' = c_heap s
  | _ => Good s'
  end.
Proof using LD.
  induction a as [|id a IH]; intros s main log tds rest blocks r s' I HW H Hr Hb.
  { destruct blocks; injection H as <- <-; by exists main, log. }
  assert (within s) as W. { pose proof (mono_detach C (id :: a) blocks s (iv_J _ _ _ _ _ _ _ I)) as [_ X]. rewrite H in X. auto. }
  destruct blocks as [|d0 blocks]; [injection H as <- <-; done|]. simpl in H.
  run_step H Hd. destruct Hd as (id' & [= <-] & Hn). rename a0 into n.
  apply bind_cases in H as [(u & s1 & H1 & H)|[(e & H1 & ->)|[_ ->]]]; [| |done].
  - destruct (Z.le_gt_cases 0 (n_height n)) as [Hpos|Hneg].
    + destruct (tip_block C _ _ _ _ _ _ I id n) as (main' & d & -> & _); [done|done|done|].
      destruct (Hb 0%nat id d0 n eq_refl eq_refl Hn Hpos) as (d1 & Hd1 & Ehd).
      pose proof (iv_tip _ _ _ _ _ _ _ I id eq_refl) as Htip. unfold hgt in Htip. rewrite Hn, length_app in Htip. simpl in Htip.
      replace (Z.to_nat (n_height n)) with (length main') in Hd1 by lia. apply lookup_snoc_Some in Hd1 as [Hd1|[_ ->]]; [apply lookup_lt_Some in Hd1; lia|].
      destruct (disconnect_inv C main0 s main' d log tds id (a ++ rest) n d0 (n_sequence n) (Ret u) s1) as [(e & ? & _)|(log' & _ & I1 & Eh)]; try done.
      destruct u. pose proof (IH s1 main' log' tds rest blocks r s' I1 HW H Hr) as IH'.
      assert (match r with Ret _ => ∃ m2 l2, Inv C main0 s' m2 l2 tds rest ∧ c_heap s' = c_heap s1 | _ => Good s' end) as IH2.
      { apply IH'. intros i j dj m Hi Hj Hm Hpm. rewrite Eh in Hm. destruct (Hb (S i) j dj m Hi Hj Hm Hpm) as (d2 & Hd2 & ?).
        exists d2. split; [|done]. apply lookup_snoc_Some in Hd2 as [?|[E _]]; [done|].
        pose proof (linked_head_lower _ _ _ _ j (iv_parents _ _ _ _ _ _ _ I) (iv_path _ _ _ _ _ _ _ I)) as Hl.
        unfold hgt in Hl. rewrite Hm, Hn in Hl. assert (n_height m < n_height n); [|lia]. apply Hl. apply elem_of_app. left.
        by eapply list_elem_of_lookup_2. }
      destruct r; [|done|done]. destruct IH2 as (m2 & l2 & I2 & E2). exists m2, l2. split; [done|congruence].
    + exfalso. destruct (tip_path C _ _ _ _ _ _ I) as (t & tip & HT & [= <-] & Ht & _).
      destruct (disconnect_run C s id n d0 (n_sequence n) (Ret u) s1 Hn HT H1) as [(e & ? & _)|(kvs & k & ops & c & p & par & o & _ & _ & _ & A3 & A4 & _)];
        [done|done|].
      destruct (iv_parents _ _ _ _ _ _ _ I _ _ _ Hn A3) as (_ & m & Hm & E). pose proof (iv_heights _ _ _ _ _ _ _ I _ _ Hm). lia.
  - destruct (tip_path C _ _ _ _ _ _ I) as (t & tip & HT & [= <-] & Ht & _).
    destruct (disconnect_run C s id n d0 (n_sequence n) (Err e) s' Hn HT H1) as [(e' & _ & Hi)|(? & ? & ? & ? & ? & ? & ? & ? & _)]; [done| |done].
    by eapply Good_idle.
Qed.

(** ** Attaching *)

Lemma attach_inv ids : ∀ s main log tds path blocks r s',
  Inv C main0 s main log tds path → within s' → attach_all C ids blocks s = (r, s') → r ≠ Panic →
  linked (c_heap s) (rev ids) (head path) →
  (∀ i id d0 n, ids !! i = Some id → blocks !! i = Some d0 → c_heap s !! id = Some n → block_of n d0) →
  match r with
  | Ret _ => ∃ main' log', Inv C main0 s' main' log' tds (rev ids ++ path)
  | _ => Good s'
  end.
Proof using LD.
  induction ids as [|id ids IH]; intros s main log tds path blocks r s' I HW H Hr HL Hb.
  { destruct blocks; injection H as <- <-; by exists main, log. }
  destruct blocks as [|d0 blocks]; [injection H as <- <-; done|]. simpl in H, HL.
  apply linked_app in HL as [HL [(n & Hn & Hp) _]].
  destruct (Hb 0%nat id d0 n eq_refl eq_refl Hn) as (B1 & B2 & B3 & B4).
  apply bind_cases in H as [(d' & s1 & H1 & H)|[(e & H1 & ->)|[_ ->]]]; [| |done].
  - assert (within s1) as W1. { pose proof (mono_connect C id d0 s (iv_J _ _ _ _ _ _ _ I)) as [J1 _]. rewrite H1 in J1.
      pose proof (mono_attach C ids blocks s1 J1) as [_ X]. rewrite H in X. auto. }
    destruct (connect_inv C main0 s main log tds path id n d0 (Ret d') s1) as [(e & ? & _)|(d2 & log' & _ & I1 & Ef)]; try done.
    assert (NoDup (rev ids ++ [id])) as Hnd.
    { eapply linked_nodup; [apply I|]. apply linked_app. split; [exact HL|]. simpl. eauto. }
    apply list.NoDup_app in Hnd as (_ & Hnd & _).
    assert (∀ j, j ∈ ids → c_heap s1 !! j = c_heap s !! j) as Ef'.
    { intros j Hj. apply Ef. intros ->. apply (Hnd id); [|set_solver]. apply list_elem_of_In, in_rev. rewrite rev_involutive. by apply list_elem_of_In. }
    specialize (IH s1 (main ++ [d2]) log' tds (id :: path) blocks r s' I1 HW H Hr). simpl.
    assert (match r with Ret _ => ∃ m2 l2, Inv C main0 s' m2 l2 tds (rev ids ++ id :: path) | _ => Good s' end) as IH'.
    { apply IH.
      - assert (∀ l e, linked (c_heap s) l e → (∀ j, j ∈ l → j ∈ ids) → linked (c_heap s1) l e) as Hlk.
        { intros l e. induction l as [|x l IHl]; simpl; [done|]. intros [(m & Hm & Em) Hl] Hin. split; [|apply IHl; set_solver].
          exists m. rewrite Ef' by set_solver. done. }
        apply Hlk; [done|]. intros j Hj. apply list_elem_of_In, in_rev. by apply list_elem_of_In.
      - intros i j dj m Hi Hj Hm. rewrite Ef' in Hm by (by eapply list_elem_of_lookup_2). by apply (Hb (S i) j). }
    destruct r; [|done|done]. rewrite <- app_assoc. exact IH'.
  - destruct (connect_inv C main0 s main log tds path id n d0 (Err e) s') as [(e' & _ & Hi)|(? & ? & ? & _)]; try done. by eapply Good_idle.
Qed.

(** ** Choosing the best chain *)

Lemma reorganize_inv s main log tds path id n r s' :
  Inv C main0 s main log tds path → within s' → c_heap s !! id = Some n →
  reorganizeChain C (getReorganizeNodes s id).1 (getReorganizeNodes s id).2 s = (r, s') → r ≠ Panic →
  match r with Ret _ => ∃ main' log' rest, Inv C main0 s' main' log' tds (id :: rest) | _ => Good s' end.
Proof using LD.
  intros I HW Hn H Hr. unfold reorganizeChain in H. destruct (getReorganizeNodes s id) as [det att] eqn:EG. cbn [fst snd] in H.
  run_step H Ha. run_step H Hb. destruct (tip_path C _ _ _ _ _ _ I) as (t & tip & HT & Et & Ht & _).
  assert (∀ a b, path = a ++ b →
    ∀ i j d0 m, a !! i = Some j → load_blocks s a !! i = Some d0 → c_heap s !! j = Some m → 0 <= n_height m →
     ∃ d, main !! Z.to_nat (n_height m) = Some d ∧ header_of (bd_Block d0) = header_of (bd_Block d)) as Hdet.
  { intros a b Ep i j d0 m Hi Hj Hm Hpos. pose proof (iv_path _ _ _ _ _ _ _ I) as HL. rewrite Ep in HL. apply linked_app in HL as [HL _].
    destruct (load_aligned _ _ _ _ _ I _ _ _ _ HL Hj) as (j' & m' & Hi' & Hm' & Hload). simplify_eq.
    eapply (block_header _ _ _ _ _ I); [|exact Hm|done|done]. apply elem_of_app. left. by eapply list_elem_of_lookup_2. }
  unfold getReorganizeNodes in EG. rewrite HT in EG.
  pose proof (f_equal fst EG) as E1. pose proof (f_equal snd EG) as E2. cbn [fst snd] in E1, E2. clear EG. subst det att.
  destruct (FindFork (c_heap s) (c_best s) (Some id)) as [f|] eqn:Ef.
  - destruct (FindFork_spec _ _ _ _ _ (iv_view _ _ _ _ _ _ _ I) Ef) as (Hfq & Hfpos & l & Hl & Hh).
    assert (f ∈ path) as Hfp. { destruct (vo_prefix _ _ _ (iv_view _ _ _ _ _ _ _ I)) as [rest ->]. set_solver. }
    apply list_elem_of_split in Hfp as (a & b & Ep).
    pose proof (iv_path _ _ _ _ _ _ _ I) as HL. rewrite Ep in HL. apply linked_app in HL as [HLa HLb].
    rewrite (path_to_linked _ _ f a (Some t) (iv_parents _ _ _ _ _ _ _ I) HLa) in H; [| |done].
    2: { rewrite <- Et, Ep. by destruct a. }
    rewrite (path_to_linked _ _ f l (Some id) (iv_parents _ _ _ _ _ _ _ I) Hl Hh) in H by done.
    apply bind_cases in H as [(u & s1 & H1 & H)|[(e & H1 & ->)|[_ ->]]]; [| |done].
    + assert (J s1 ∧ within s1) as [J1 W1].
      { pose proof (mono_detach C a (load_blocks s a) s (iv_J _ _ _ _ _ _ _ I)) as [J1 _]. rewrite H1 in J1. split; [done|].
        pose proof (mono_attach C (rev l) (load_blocks s (rev l)) s1 J1) as [_ X]. rewrite H in X. auto. }
      rewrite Ep in I. destruct (detach_inv a s main log tds (f :: b) _ (Ret u) s1 I W1 H1) as (m1 & l1 & I1 & Eh); [done|by eapply Hdet|].
      assert (∀ j, j ∈ l → ∃ m, c_heap s !! j = Some m ∧ 0 <= n_height m) as Hall.
      { intros j Hj. destruct (linked_in _ _ _ j Hl Hj) as [m Hm]. exists m. split; [done|].
        assert (linked (c_heap s) (l ++ f :: b) None) as Hlf by (apply linked_app; split; done).
        apply list_elem_of_lookup in Hj as [i Hi]. assert (head (l ++ f :: b) = Some id) as Hh' by (rewrite <- Hh; by destruct l).
        assert ((l ++ f :: b) !! i = Some j) as Hi' by (by apply lookup_app_l_Some).
        assert ((l ++ f :: b) !! length l = Some f) as Hf' by (by rewrite lookup_app_r, Nat.sub_diag by lia).
        pose proof (linked_height _ _ _ _ _ _ (iv_parents _ _ _ _ _ _ _ I) Hlf Hh' Hi') as G1.
        pose proof (linked_height _ _ _ _ _ _ (iv_parents _ _ _ _ _ _ _ I) Hlf Hh' Hf') as G2.
        unfold hgt in G1 at 1. rewrite Hm in G1. apply lookup_lt_Some in Hi. lia. }
      pose proof (attach_inv (rev l) s1 m1 l1 tds (f :: b) (load_blocks s (rev l)) r s' I1 HW H Hr) as HA.
      rewrite rev_involutive in HA.
      assert (match r with Ret _ => ∃ m2 l2, Inv C main0 s' m2 l2 tds (l ++ f :: b) | _ => Good s' end) as HA'.
      { apply HA; [by rewrite Eh|]. intros i j d0 m Hi Hj Hm. rewrite Eh in Hm.
        destruct (load_all _ _ _ _ _ I (rev l) i j) as (m' & d' & Hm' & Hd' & _ & Hbl); [|done|simplify_eq; done].
        intros x Hx. apply Hall. apply list_elem_of_In, in_rev. by apply list_elem_of_In. }
      destruct r; [|done|done]. destruct HA' as (m2 & l2 & I2). exists m2, l2. destruct l as [|x l]; simpl in Hh; injection Hh as ->; eauto.
    + rewrite Ep in I. apply (detach_inv a s main log tds (f :: b) _ (Err e) s' I HW H1); [done|by eapply Hdet].
  - rewrite (path_to_root _ _ path (Some t) (iv_parents _ _ _ _ _ _ _ I) (iv_path _ _ _ _ _ _ _ I) Et) in H by done.
    pose proof I as I'. rewrite <- (app_nil_r path) in I'.
    apply bind_cases in H as [(u & s1 & H1 & H)|[(e & H1 & ->)|[_ ->]]]; [| |done].
    + exfalso. assert (J s1 ∧ within s1) as [J1 W1].
      { pose proof (mono_detach C path (load_blocks s path) s (iv_J _ _ _ _ _ _ _ I)) as [J1 _]. rewrite H1 in J1. split; [done|].
        match type of H with attach_all C ?x ?y s1 = _ => pose proof (mono_attach C x y s1 J1) as [_ X] end. rewrite H in X. auto. }
      destruct (detach_inv path s main log tds [] _ (Ret u) s1 I' W1 H1) as (m1 & l1 & I1 & _); [done|eapply Hdet; by rewrite app_nil_r|].
      by apply (path_ne C _ _ _ _ _ _ I1).
    + apply (detach_inv path s main log tds [] _ (Err e) s' I' HW H1); [done|]. eapply Hdet. by rewrite app_nil_r.
Qed.

(** What the choice compares. *)
Definition td_of (tds : list Z) (id : nat) (td : Z) : Prop := tds !! id = Some td.

Lemma td_lookup s main log tds path id n td :
  Inv C main0 s main log tds path → c_heap s !! id = Some n → 0 <= n_height n → tds !! id = Some td →
  GetTdByBlockHash (c_store s) (n_hash n) = Ret td.
Proof using Type.
  intros I Hn Hpos Htd. destruct (proj2 (iv_tds _ _ _ _ _ _ _ I) id n Hn Hpos) as (td' & T1 & T2 & T3 & _). simplify_eq.
  unfold GetTdByBlockHash. rewrite T3. simpl. by rewrite big_roundtrip.
Qed.

Lemma CalcWork_nonneg bits : 0 <= CalcWork bits.
Proof using Type.
  unfold CalcWork. destruct (Z.leb_spec (CompactToBig bits) 0); [done|]. apply Z.div_pos; lia.
Qed.

(** A new node [id] is offered to the chain: it becomes the tip, or the tip is at least as
    heavy. *)
Definition chosen (tds : list Z) (path : list nat) (id : nat) (path' : list nat) : Prop :=
  head path' = Some id ∧ (∀ t ttd, head path = Some t → tds !! t = Some ttd → ∃ td, tds !! id = Some td ∧ ttd <= td) ∨
  path' = path ∧ (∃ t ttd td, head path = Some t ∧ tds !! t = Some ttd ∧ tds !! id = Some td ∧ td <= ttd).

Lemma best_inv s main log tds path id n p pn d0 r s' :
  Inv C main0 s main log tds path → within s' → c_heap s !! id = Some n → parent n = Some p → c_heap s !! p = Some pn →
  n_hash pn = ParentHash (bd_Block d0) → block_of n d0 → connectBestChain C id d0 s = (r, s') → r ≠ Panic →
  match r with Ret _ => ∃ main' log' path', Inv C main0 s' main' log' tds path' ∧ chosen tds path id path' | _ => Good s' end.
Proof using LD.
  intros I HW Hn Hp Hpn Ehash Hbl H Hr.
  assert (within s) as W. { pose proof (mono_best C id d0 s (iv_J _ _ _ _ _ _ _ I)) as [_ X]. rewrite H in X. auto. }
  destruct (tip_path C _ _ _ _ _ _ I) as (t & tip & HT & Et & Ht & Htip).
  destruct (iv_parents _ _ _ _ _ _ _ I _ _ _ Hn Hp) as (_ & pn' & Hpn' & Eh). rewrite Hpn in Hpn'. injection Hpn' as <-.
  pose proof (iv_heights _ _ _ _ _ _ _ I _ _ Hpn) as Hph.
  destruct (proj2 (iv_tds _ _ _ _ _ _ _ I) id n Hn) as (td & T1 & T2 & _ & T4 & T5); [lia|].
  pose proof Hbl as (B1 & B2 & B3 & B4). pose proof (CalcWork_nonneg (b_Difficulty (bd_Block d0))) as Hw.
  unfold connectBestChain in H. run_step H Htp. destruct Htp as (t' & E1 & E2). rewrite HT in E1. injection E1 as <-. rewrite Ht in E2. injection E2 as <-.
  destruct (String.eqb_spec (ParentHash (bd_Block d0)) (n_hash tip)) as [Epar|Epar].
  - assert (p = t) as ->.
    { pose proof (full_lookup _ _ (iv_J _ _ _ _ _ _ _ I) _ _ (proj1 W) Hpn) as L1.
      pose proof (full_lookup _ _ (iv_J _ _ _ _ _ _ _ I) _ _ (proj1 W) Ht) as L2. rewrite Ehash, Epar, L2 in L1. by injection L1. }
    apply bind_cases in H as [(d' & s1 & H1 & H)|[(e & H1 & ->)|[_ ->]]]; [| |done].
    + unfold mret, M_ret in H. injection H as <- <-.
      destruct (connect_inv C main0 s main log tds path id n d0 (Ret d') s1) as [(e & ? & _)|(d2 & log' & _ & I1 & _)]; try done.
      { by rewrite Et. }
      exists (main ++ [d2]), log', (id :: path). split; [done|]. left. split; [done|]. intros t' ttd E' Ettd.
      rewrite Et in E'. injection E' as <-. exists td. split; [done|]. rewrite Ht in Hpn. injection Hpn as <-.
      destruct (Z.le_gt_cases 0 (n_height tip)) as [Hpos|Hneg].
      * destruct (T5 t) as (ptd & P1 & ->); [lia|done|]. rewrite Ettd in P1. injection P1 as <-. lia.
      * rewrite (proj1 (iv_pregen _ _ _ _ _ _ _ I _ _ Ht Hneg)) in Ettd. injection Ettd as <-. lia.
    + destruct (connect_inv C main0 s main log tds path id n d0 (Err e) s') as [(e' & _ & Hi)|(? & ? & ? & _)]; try done; [by rewrite Et|].
      by eapply Good_idle.
  - apply bind_cases in H as [(tiptd & s1 & H1 & H)|[(e & H1 & ->)|[_ ->]]]; [| |done].
    2: { injection H1 as _ <-. by exists main, log, tds, path. }
    unfold lift in H1. injection H1 as H1 <-.
    apply bind_cases in H as [(parenttd & s1 & H2 & H)|[(e & H2 & ->)|[_ ->]]]; [| |done].
    2: { injection H2 as _ <-. by exists main, log, tds, path. }
    unfold lift in H2. injection H2 as H2 <-.
    run_step H Hnd. destruct Hnd as (id' & [= <-] & E2). rewrite Hn in E2. injection E2 as <-.
    assert (tds !! t = Some tiptd ∧ td = n_Difficulty n + parenttd) as [Ett Etd].
    { split.
      - destruct (Z.le_gt_cases 0 (n_height tip)) as [Hpos|Hneg].
        + destruct (proj2 (iv_tds _ _ _ _ _ _ _ I) t tip Ht Hpos) as (x & X1 & _).
          rewrite (td_lookup _ _ _ _ _ _ _ _ I Ht Hpos X1) in H1. by injection H1 as <-.
        + unfold GetTdByBlockHash in H1. by rewrite (proj2 (iv_pregen _ _ _ _ _ _ _ I _ _ Ht Hneg)) in H1.
      - rewrite <- Ehash in H2. destruct (Z.le_gt_cases 0 (n_height pn)) as [Hpos|Hneg].
        + destruct (T5 p) as (ptd & P1 & ->); [lia|done|]. rewrite (td_lookup _ _ _ _ _ _ _ _ I Hpn Hpos P1) in H2. by injection H2 as <-.
        + unfold GetTdByBlockHash in H2. by rewrite (proj2 (iv_pregen _ _ _ _ _ _ _ I _ _ Hpn Hneg)) in H2. }
    destruct (Z.leb_spec (n_Difficulty n + parenttd) tiptd) as [Hle|Hgt].
    + run_step H Hf. run_step H Hf. unfold mret, M_ret in H. injection H as <- <-. exists main, log, path. split; [done|].
      right. split; [done|]. exists t, tiptd, (n_Difficulty n + parenttd). split_and!; [done|done|done|lia].
    + apply bind_cases in H as [([det att] & s1 & H3 & H)|[(e & H3 & ->)|[_ ->]]]; [|by injection H3|done].
      unfold get in H3. pose proof (f_equal snd H3) as E3. pose proof (f_equal fst H3) as E4. cbn [fst snd] in E3, E4. subst s1.
      assert (getReorganizeNodes s id = (det, att)) as E5 by congruence. clear H3 E4. rename E5 into H3.
      apply bind_cases in H as [(u & s1 & H4 & H)|[(e & H4 & ->)|[_ ->]]]; [| |done].
      * unfold mret, M_ret in H. injection H as <- <-.
        pose proof (reorganize_inv s main log tds path id n (Ret u) s1 I HW Hn) as HR. rewrite H3 in HR.
        destruct (HR H4) as (m1 & l1 & rest & I1); [done|]. exists m1, l1, (id :: rest). split; [done|]. left. split; [done|].
        intros t' ttd E' Ettd. rewrite Et in E'. injection E' as <-. exists td. split; [done|]. rewrite Ett in Ettd. injection Ettd as <-. lia.
      * pose proof (reorganize_inv s main log tds path id n (Err e) s' I HW Hn) as HR. rewrite H3 in HR. by apply HR.
Qed.

(** ** Accepting a block *)

(** The state after a block was stored and its node added. *)
Definition with_block (s : BlockChain) (d : BlockDetail) (td : Z) : BlockChain :=
  upd_store s (set_db (c_store s) (write (bs_db (c_store s))
    ([BSet (calcHashToBlockBodyKey (hash_of d)) (body_Encode (body_of C d));
      BSet (calcHashToBlockHeaderKey (hash_of d)) (Encode (header_of (bd_Block d)))] ++ SaveTdByBlockHash (hash_of d) td))).

Lemma with_block_db s d td h :
  (h ≠ hash_of d →
     bs_db (c_store (with_block s d td)) !! calcHashToBlockBodyKey h = bs_db (c_store s) !! calcHashToBlockBodyKey h ∧
     bs_db (c_store (with_block s d td)) !! calcHashToBlockHeaderKey h = bs_db (c_store s) !! calcHashToBlockHeaderKey h ∧
     bs_db (c_store (with_block s d td)) !! calcHashToTdKey h = bs_db (c_store s) !! calcHashToTdKey h) ∧
  has_block C (bs_db (c_store (with_block s d td))) (hash_of d) d ∧
  bs_db (c_store (with_block s d td)) !! calcHashToTdKey (hash_of d) = Some (big_Bytes td).
Proof using Type. simpl. unfold has_block, write. simpl. split_and!; [intros Hne; split_and!|..]; look; done. Qed.

Lemma accept_node s main log tds path d prevId prev td node s2 id :
  Inv C main0 s main log tds path → LookupNode (c_index s) (ParentHash (bd_Block d)) = Some prevId → c_heap s !! prevId = Some prev →
  b_Height (bd_Block d) = n_height prev + 1 → block_td (c_store s) (bd_Block d) = Ret td →
  parent node = Some prevId → block_of node d →
  add_node node (with_block s d td) = (Ret id, s2) → within s2 →
  Inv C main0 s2 main log (tds ++ [td]) path ∧ c_heap s2 !! id = Some node ∧ c_heap s2 !! prevId = Some prev ∧
  id = length (c_heap s) ∧ n_hash prev = ParentHash (bd_Block d) ∧ c_heap s2 = c_heap s ++ [node].
Proof using LD.
  intros I Hlk Hprev Hh Htd Hpar (B1 & B2 & B3 & B4) H W.
  pose proof (iv_J _ _ _ _ _ _ _ I) as HJ. destruct (HJ _ _ Hlk) as (prev' & Hprev' & Ehash). rewrite Hprev in Hprev'. injection Hprev' as <-.
  unfold add_node, mbind, M_bind in H. simpl in H. destruct (AddNode _ _ _) as [hp bi] eqn:E. injection H as <- <-.
  destruct (AddNode_spec _ _ _ _ _ HJ E) as (J2 & _ & _ & _ & HF). destruct (HF (proj1 W)) as (-> & Ei & Hnew).
  assert (∀ j m, c_heap s !! j = Some m → n_hash m ≠ hash_of d) as Hfresh.
  { intros j m Hm Ee. rewrite <- B1, <- Ee in Hnew.
    assert (within s) as Ws.
    { pose proof (mono_add_node node (with_block s d td) HJ) as [_ X]. unfold add_node, mbind, M_bind in X. simpl in X. rewrite E in X. by apply X. }
    rewrite (full_lookup _ _ HJ _ _ (proj1 Ws) Hm) in Hnew. done. }
  pose proof (iv_heights _ _ _ _ _ _ _ I _ _ Hprev) as Hph.
  assert (∀ j m, (c_heap s ++ [node]) !! j = Some m → c_heap s !! j = Some m ∨ j = length (c_heap s) ∧ m = node) as Hcase.
  { intros j m Hm. by apply lookup_snoc_Some in Hm. }
  assert (0 <= td ∧ (n_height node = 0 → td = n_Difficulty node) ∧
    (0 < n_height node → ∃ ptd, tds !! prevId = Some ptd ∧ td = n_Difficulty node + ptd)) as (Td1 & Td2 & Td3).
  { unfold block_td in Htd. rewrite B2, B3 in Htd. pose proof (CalcWork_nonneg (b_Difficulty (bd_Block d))) as Hw. rewrite B3 in Hw.
    destruct (Z.eqb_spec (n_height node) 0) as [Ez|Ez].
    - injection Htd as <-. split_and!; [done|done|lia].
    - assert (0 <= n_height prev) as Hpp by lia. destruct (proj2 (iv_tds _ _ _ _ _ _ _ I) prevId prev Hprev Hpp) as (ptd & P1 & P2 & _).
      rewrite <- Ehash, (td_lookup _ _ _ _ _ _ _ _ I Hprev Hpp P1) in Htd. simpl in Htd. injection Htd as <-.
      split_and!; [lia|done|eauto]. }
  destruct (with_block_db s d td (hash_of d)) as (_ & WB1 & WB2).
  assert (∀ h, h ≠ hash_of d → _) as WB0 by (intros h; exact (proj1 (with_block_db s d td h))).
  assert (∀ l e, linked (c_heap s) l e → linked (c_heap s ++ [node]) l e) as Hlk'.
  { intros l e. apply linked_mono. intros j m Hm. exists m. split; [by apply lookup_app_l_Some|done]. }
  split; [|split_and!; [simpl; by rewrite lookup_app_r, Nat.sub_diag by lia|simpl; by apply lookup_app_l_Some|done|done|done]].
  split; simpl c_heap; simpl c_index; simpl c_best; simpl c_cache; simpl c_calls; simpl c_out; simpl c_statehash.
  - exact J2.
  - intros j m p Hm Hp. destruct (Hcase _ _ Hm) as [Hm'|[-> ->]].
    + destruct (iv_parents _ _ _ _ _ _ _ I _ _ _ Hm' Hp) as (? & x & Hx & ?). split; [done|]. exists x. split; [by apply lookup_app_l_Some|done].
    + rewrite Hpar in Hp. injection Hp as <-. split; [by eapply lookup_lt_Some|]. exists prev. split; [by apply lookup_app_l_Some|]. lia.
  - intros j m [Hm|[-> ->]]%Hcase; [by eapply (iv_heights _ _ _ _ _ _ _ I)|lia].
  - apply Hlk', I.
  - eapply view_mono; [|apply I|apply I]. intros j m Hm. exists m. split; [by apply lookup_app_l_Some|done].
  - apply I.
  - intros t Et. rewrite <- (iv_tip _ _ _ _ _ _ _ I t Et). unfold hgt.
    destruct (linked_in _ _ _ t (iv_path _ _ _ _ _ _ _ I)) as [m Hm]; [destruct path; [done|simplify_eq/=; set_solver]|].
    by rewrite (lookup_app_l_Some _ _ _ _ Hm), Hm.
  - intros j m Hj Hm Hpos. destruct (linked_in _ _ _ j (iv_path _ _ _ _ _ _ _ I) Hj) as [m' Hm'].
    rewrite (lookup_app_l_Some _ _ _ _ Hm') in Hm. injection Hm as <-. by apply (iv_nodes _ _ _ _ _ _ _ I j).
  - intros i di Hi. destruct (iv_cover _ _ _ _ _ _ _ I i di Hi) as (j & m & H1 & H2 & H3). exists j, m. split_and!; [done|by apply lookup_app_l_Some|done].
  - apply I.
  - apply store_side; [apply I|]. intros d' Hd' Ee. exfalso. apply list_elem_of_lookup in Hd' as [i Hi].
    destruct (iv_cover _ _ _ _ _ _ _ I i d' Hi) as (j & m & H1 & H2 & H3). destruct (iv_nodes _ _ _ _ _ _ _ I j m H1 H2) as (d2 & H4 & H5 & _); [lia|].
    rewrite H3, Nat2Z.id, Hi in H4. injection H4 as <-. apply (Hfresh j m H2). congruence.
  - intros j m Hm Hpos. change (node_stored C (bs_db (c_store (with_block s d td))) m). destruct (Hcase _ _ Hm) as [Hm'|[-> ->]].
    + destruct (iv_blocks _ _ _ _ _ _ _ I j m Hm' Hpos) as (d' & [X1 X2] & X3). exists d'. split; [|done].
      destruct (WB0 (n_hash m)) as (Y1 & Y2 & _); [by apply (Hfresh j)|]. split; congruence.
    + exists d. rewrite <- B1. split_and!; done.
  - split; [rewrite !length_app; simpl; f_equal; apply I|]. intros j m Hm Hpos. unfold node_td.
    change (bs_db _) with (bs_db (c_store (with_block s d td))). destruct (Hcase _ _ Hm) as [Hm'|[-> ->]].
    + destruct (proj2 (iv_tds _ _ _ _ _ _ _ I) j m Hm' Hpos) as (tdj & X1 & X2 & X3 & X4 & X5). exists tdj.
      destruct (WB0 (n_hash m)) as (_ & _ & Y3); [by apply (Hfresh j)|].
      split_and!; [by apply lookup_app_l_Some|done|congruence|done|]. intros p Hpos' Hp. destruct (X5 p Hpos' Hp) as (ptd & Z1 & Z2).
      exists ptd. split; [by apply lookup_app_l_Some|done].
    + exists td. rewrite <- B1. split_and!; [|done|done|done|].
      * rewrite <- (proj1 (iv_tds _ _ _ _ _ _ _ I)). by rewrite lookup_app_r, Nat.sub_diag by lia.
      * intros p Hpos' Hp. rewrite Hpar in Hp. injection Hp as <-. destruct (Td3 Hpos') as (ptd & Z1 & Z2). exists ptd. split; [by apply lookup_app_l_Some|done].
  - intros j m Hm Hneg. change (bs_db _) with (bs_db (c_store (with_block s d td))). destruct (Hcase _ _ Hm) as [Hm'|[-> ->]]; [|lia].
    destruct (iv_pregen _ _ _ _ _ _ _ I j m Hm' Hneg) as [X1 X2]. destruct (WB0 (n_hash m)) as (_ & _ & Y3); [by apply (Hfresh j)|].
    split; [by apply lookup_app_l_Some|congruence].
  - apply I.
  - apply I.
  - apply I.
  - intros t m Et Hm. destruct (linked_in _ _ _ t (iv_path _ _ _ _ _ _ _ I)) as [m' Hm']; [destruct path; [done|simplify_eq/=; set_solver]|].
    rewrite (lookup_app_l_Some _ _ _ _ Hm') in Hm. injection Hm as <-. by apply (iv_state _ _ _ _ _ _ _ I t).
Qed.

(** The tip is at least as heavy as every known block. *)
Definition heaviest (tds : list Z) (path : list nat) : Prop :=
  ∀ id td, tds !! id = Some td → ∃ t ttd, head path = Some t ∧ tds !! t = Some ttd ∧ td <= ttd.
Definition Best (s : BlockChain) : Prop := ∃ main log tds path, Inv C main0 s main log tds path ∧ heaviest tds path.

Lemma chosen_heaviest tds td path id path' :
  heaviest tds path → id = length tds → chosen (tds ++ [td]) path id path' → heaviest (tds ++ [td]) path'.
Proof using Type.
  intros Hh -> Hc j tdj Hj. assert ((tds ++ [td]) !! length tds = Some td) as Hlast by (by rewrite lookup_app_r, Nat.sub_diag by lia).
  assert (∀ k tdk, tds !! k = Some tdk → ∃ t ttd, head path = Some t ∧ (tds ++ [td]) !! t = Some ttd ∧ tdk <= ttd) as Hold.
  { intros k tdk Hk. destruct (Hh k tdk Hk) as (t & ttd & ? & ? & ?). exists t, ttd. split_and!; [done|by apply lookup_app_l_Some|done]. }
  apply lookup_snoc_Some in Hj. destruct Hc as [[E Hge]|[-> (t & ttd & tdx & E & Et & Ex & Hle)]].
  - exists (length tds), td. split_and!; [done|done|]. destruct Hj as [Hj|[-> ->]]; [|done].
    destruct (Hold j tdj Hj) as (t & ttd & E1 & E2 & Hle). destruct (Hge t ttd E1 E2) as (td' & E3 & Hle'). simplify_eq. lia.
  - destruct Hj as [Hj|[-> ->]]; [by apply Hold in Hj|]. exists t, ttd. simplify_eq. done.
Qed.

Lemma accept_cases s main log tds path br d pid q r s' :
  Inv C main0 s main log tds path → within s' → maybeAcceptBlock C br d pid q s = (r, s') → r ≠ Panic →
  match r with
  | Ret _ => ∃ main' log' td path', Inv C main0 s' main' log' (tds ++ [td]) path' ∧ chosen (tds ++ [td]) path (length tds) path'
  | _ => Good s'
  end.
Proof using LD.
  intros I HW H Hr. pose proof (iv_J _ _ _ _ _ _ _ I) as HJ.
  assert (within s) as W. { pose proof (mono_accept C br d pid q s HJ) as [_ X]. rewrite H in X. auto. }
  unfold maybeAcceptBlock in H. run_step H Hlk.
  destruct (LookupNode (c_index s) (ParentHash (bd_Block d))) as [prevId|] eqn:Elk.
  2: { injection H as <- <-. by exists main, log, tds, path. }
  run_step H Hpn. destruct Hpn as (prevId' & [= <-] & Hprev). rename a into prev.
  run_step H Hg; [|by exists main, log, tds, path]. apply negb_false_iff, Z.eqb_eq in Hg.
  rewrite wrap64_id in Hg. 2: { pose proof (iv_heights _ _ _ _ _ _ _ I _ _ Hprev). destruct W as (_ & _ & Wh).
    pose proof (Forall_lookup_1 _ _ _ _ Wh Hprev) as Wp. simpl in Wp. unfold in64. lia. }
  run_step H Hs; [|by exists main, log, tds, path].
  unfold dbMaybeStoreBlock in Hs. destruct (block_td (c_store s) (bd_Block d)) as [td|e|] eqn:Etd; [|done|done].
  simpl in Hs. destruct (store_damaged _); [done|].
  match type of Hs with _ = Ret ?x => assert (x = c_store (with_block s d td)) as -> by (unfold mbind, outcome_bind in Hs; injection Hs as <-; reflexivity) end.
  match type of H with (?m ≫= ?f) _ = _ => rewrite (bind_Ret m f s tt (with_block s d td) eq_refl) in H end.
  apply bind_cases in H as [(id & s2 & H2 & H)|[(e & H2 & ->)|[_ ->]]]; [|unfold add_node, mbind, M_bind in H2; simpl in H2; by destruct (AddNode _ _ _)|done].
  assert (within s2) as W2.
  { pose proof (mono_add_node (set_parent (newBlockNode br (bd_Block d) pid q) (Some prevId)) (with_block s d td) HJ) as [J2 _]. rewrite H2 in J2.
    pose proof (mono_best C id d s2 J2) as [_ X]. rewrite H in X. auto. }
  destruct (accept_node s main log tds path d prevId prev td (set_parent (newBlockNode br (bd_Block d) pid q) (Some prevId)) s2 id I Elk Hprev Hg Etd eq_refl ltac:(done) H2 W2) as (I2 & A1 & A2 & A3 & A4 & _).
  pose proof (best_inv s2 main log (tds ++ [td]) path id (set_parent (newBlockNode br (bd_Block d) pid q) (Some prevId)) prevId prev d r s' I2 HW A1 eq_refl A2 A4 ltac:(done) H Hr) as HB.
  destruct r; [|done|done]. destruct HB as (m1 & l1 & p1 & I3 & Hc). exists m1, l1, td, p1. split; [done|].
  by rewrite (proj1 (iv_tds _ _ _ _ _ _ _ I)), <- A3.
Qed.

(** ** Runs *)

(** A program keeps the invariant unless it panics; without an error it keeps the tip the
    heaviest. *)
Definition keeps {A} (m : M BlockChain A) : Prop :=
  mono m ∧ ∀ s r s', m s = (r, s') → within s' → r ≠ Panic →
    (Good s → Good s') ∧ (∀ a, r = Ret a → Best s → Best s').

Lemma Best_Good s : Best s → Good s.
Proof using Type. intros (m & l & t & p & I & _). by exists m, l, t, p. Qed.

Lemma keeps_bind {A B} (m : M BlockChain A) (f : A → M BlockChain B) : keeps m → (∀ a, keeps (f a)) → keeps (m ≫= f).
Proof using Type.
  intros [M1 K1] Hf. split; [apply mono_bind; [done|intros a; apply Hf]|].
  intros s r s' H HW Hr. apply bind_cases in H as [(a & s1 & H1 & H)|[(e & H1 & ->)|[H1 ->]]]; [| |done].
  - destruct (Hf a) as [M2 K2]. split.
    + intros G. assert (J s) as HJ by (destruct G as (? & ? & ? & ? & I); apply I).
      pose proof (M1 s HJ) as [J1 _]. rewrite H1 in J1. pose proof (M2 s1 J1) as [_ X]. rewrite H in X.
      apply (proj1 (K2 s1 r s' H HW Hr)). by apply (proj1 (K1 s (Ret a) s1 H1 (X HW) ltac:(done))).
    + intros b -> G. assert (J s) as HJ by (destruct G as (? & ? & ? & ? & I & _); apply I).
      pose proof (M1 s HJ) as [J1 _]. rewrite H1 in J1. pose proof (M2 s1 J1) as [_ X]. rewrite H in X.
      apply (proj2 (K2 s1 (Ret b) s' H HW Hr) b eq_refl). by apply (proj2 (K1 s (Ret a) s1 H1 (X HW) ltac:(done)) a).
  - split; [|done]. intros G. by apply (K1 s (Err e) s' H1).
Qed.

(** Programs that leave alone what the invariant is about. *)
Lemma keeps_pure {A} (m : M BlockChain A) :
  (∀ s, ∃ o f, (m s).2 = upd_faults (upd_orphans s o) f) → keeps m.
Proof using Type.
  intros H. split.
  - intros s HJ. destruct (H s) as (o & f & ->). done.
  - intros s r s' E _ _. destruct (H s) as (o & f & Eo). rewrite E in Eo. simpl in Eo. subst s'.
    split; [intros (m1 & l1 & t1 & p1 & I)|intros _ _ (m1 & l1 & t1 & p1 & I & Hh)]; exists m1, l1, t1, p1; [|split; [|done]]; destruct I; split; done.
Qed.
Lemma keeps_same {A} (m : M BlockChain A) : (∀ s, (m s).2 = s) → keeps m.
Proof using Type. intros H. apply keeps_pure. intros s. exists (c_orphans s), (c_faults s). rewrite H. by destruct s. Qed.
Lemma keeps_ret {A} (a : A) : keeps (mret a).
Proof using Type. by apply keeps_same. Qed.
Lemma keeps_get {A} (f : BlockChain → A) : keeps (get f).
Proof using Type. by apply keeps_same. Qed.
Lemma keeps_lift {A} (f : BlockChain → outcome A) : keeps (lift f).
Proof using Type. by apply keeps_same. Qed.
Lemma keeps_throw {A} e : keeps (throw e : M BlockChain A).
Proof using Type. by apply keeps_same. Qed.
Lemma keeps_guard c e : keeps (guard_err c e).
Proof using Type. apply keeps_same. by destruct c. Qed.
Lemma keeps_tip : keeps best_tip.
Proof using Type. apply keeps_same. intros s. unfold best_tip, deref. by destruct (_ ≫= _). Qed.
Lemma keeps_orphans f : keeps (modify (λ s, upd_orphans s (f s))).
Proof using Type. apply keeps_pure. intros s. exists (f s), (c_faults s). by destruct s. Qed.
Lemma keeps_fault pid h hash e : keeps (RecordFaultPeer pid h hash e).
Proof using Type.
  apply keeps_pure. intros s. simpl. exists (c_orphans s). destruct (bool_decide _); [eexists|exists (c_faults s)]; by destruct s.
Qed.

Lemma keeps_accept br d pid q : keeps (maybeAcceptBlock C br d pid q).
Proof using LD.
  split; [apply mono_accept|]. intros s r s' H HW Hr. split.
  - intros (m & l & t & p & I). pose proof (accept_cases s m l t p br d pid q r s' I HW H Hr) as HA. destruct r; [|done|done].
    destruct HA as (m1 & l1 & td & p1 & I1 & _). by exists m1, l1, (t ++ [td]), p1.
  - intros a -> (m & l & t & p & I & Hh). destruct (accept_cases s m l t p br d pid q (Ret a) s' I HW H Hr) as (m1 & l1 & td & p1 & I1 & Hc).
    exists m1, l1, (t ++ [td]), p1. split; [done|]. by eapply chosen_heaviest.
Qed.

Ltac keeps_step :=
  match goal with
  | |- keeps (_ ≫= _) => apply keeps_bind; [|intros ?]
  | |- keeps (mret _) => apply keeps_ret
  | |- keeps (get _) => apply keeps_get
  | |- keeps (lift _) => apply keeps_lift
  | |- keeps (throw _) => apply keeps_throw
  | |- keeps (guard_err _ _) => apply keeps_guard
  | |- keeps best_tip => apply keeps_tip
  | |- keeps (modify (λ s, upd_orphans s _)) => apply keeps_orphans
  | |- keeps (RecordFaultPeer _ _ _ _) => apply keeps_fault
  | |- keeps (maybeAcceptBlock _ _ _ _ _) => apply keeps_accept
  | |- keeps (if ?b then _ else _) => destruct b
  | |- keeps (match ?o with _ => _ end) => destruct o
  end.

Lemma keeps_children fuel h count i hs : keeps (process_children C fuel h count i hs).
Proof using LD. revert i hs. induction fuel as [|fuel IH]; intros i hs; cbn [process_children]; repeat keeps_step; apply IH. Qed.
Lemma keeps_hashes fuel hs : keeps (process_hashes C fuel hs).
Proof using LD. revert hs. induction fuel as [|fuel IH]; intros hs; cbn [process_hashes]; repeat keeps_step; [apply keeps_children|apply IH]. Qed.
Lemma keeps_process e : ev_add e = true → keeps (ProcessBlock C e).
Proof using LD.
  intros He. unfold ProcessBlock, processOrphans. rewrite He. simpl negb. cbv iota. repeat keeps_step. apply keeps_hashes.
Qed.
End Steps.
