(* ===== verification/ChainTheorems.v ===== *)
(** Theorems about the chain: every state a node reaches from an empty database has the
    invariant of [ChainInv]; what the store answers then; the tip is the heaviest known
    block as long as nothing fails. *)

From Stdlib Require Import Ascii String.
From S2P Require Import Prelude Types KVStore Account Tx Merkle Block Difficulty BlockStore BlockStoreLemmas BlockIndex OrphanPool BlockCache ChainView Chain ChainMono ChainInv ChainSteps.
Local Open Scope Z_scope.

Section Runs.
Context {ENV : ChainEnv} (C : ChainConfig).
Abbreviation hash_of d := (b_Hash (bd_Block d)).

(** A node that starts with an empty database. *)
Definition started (peers : gset string) (defCacheSize : Z) : BlockChain :=
  (InitIndexAndBestView (boot (mkBS ∅ (-1) None) peers defCacheSize zero_hash)).2.

(** The states it goes through when blocks are offered to it; a panic ends it. *)
Fixpoint run_events (es : list event) (s : BlockChain) : option BlockChain :=
  match es with
  | [] => Some s
  | e :: es => match ProcessBlock C e s with (Panic, _) => None | (_, s') => run_events es s' end
  end.
(** The same when every block is taken: connected, on a side chain, or an orphan. *)
Fixpoint run_accepted (es : list event) (s : BlockChain) : option BlockChain :=
  match es with
  | [] => Some s
  | e :: es => match ProcessBlock C e s with (Ret _, s') => run_accepted es s' | _ => None end
  end.
Definition offers (es : list event) : Prop := Forall (λ e, ev_add e = true) es.

Lemma started_inv peers size : Inv C [] (started peers size) [] [] [-1] [0%nat] ∧ heaviest [-1] [0%nat].
Proof using Type.
  split.
  2: { intros [|id] td H; [|done]. injection H as <-. exists 0%nat, (-1). done. }
  split; try done.
  - intros h id. simpl. intros [[<- <-]|[_ H]]%lookup_insert_Some; [|done]. by exists newPreGenBlockNode.
  - intros [|id] n p H Hp; [|done]. injection H as <-. done.
  - intros [|id] n H; [|done]. by injection H as <-.
  - split; [|done]. by exists newPreGenBlockNode.
  - split; [by exists []|]. intros h id. simpl. split.
    + intros [[<- <-]|[_ H]]%lookup_insert_Some; [|done]. split; [set_solver|]. by exists newPreGenBlockNode.
    + intros [->%list_elem_of_singleton (n & [= <-] & <-)]. by apply lookup_insert_eq.
  - intros t [= <-]. done.
  - intros id n ->%list_elem_of_singleton [= <-] H. done.
  - split; simpl; try done.
    + intros h. rewrite lookup_empty. by destruct (0 <=? h).
    + intros h v. rewrite lookup_empty. split; [done|]. by intros (i & d & ? & _).
    + intros d H. by apply elem_of_nil in H.
    + intros R. split; try done. intros d H. by apply elem_of_nil in H.
  - intros [|id] n H Hpos; [|done]. by injection H as <-.
  - split; [done|]. intros [|id] n H Hpos; [|done]. by injection H as <-.
  - intros [|id] n H Hneg; [|done]. by injection H as <-.
  - split; simpl; try done.
    + intros h e. rewrite lookup_empty. split; [done|]. intros [H _]. by apply elem_of_nil in H.
    + intros h e. rewrite lookup_empty. split; [done|]. intros [H _]. by apply elem_of_nil in H.
    + intros e H. by apply elem_of_nil in H.
    + intros e H. by apply elem_of_nil in H.
    + constructor.
  - intros t n [= <-] [= <-]. done.
Qed.

Context {LD : LocalData}.

Lemma run_mono es s s' : offers es → run_events es s = Some s' → later s s'.
Proof using LD.
  revert s. induction es as [|e es IH]; intros s He H; simpl in H; [injection H as ->; apply later_refl|].
  apply Forall_cons_1 in He as [He Hes]. pose proof (proj1 (keeps_process C [] e He) s) as HM.
  destruct (ProcessBlock C e s) as [[a|x|] s1]; [| |done]; (eapply later_trans; [exact HM|by apply IH]).
Qed.

Lemma run_good es s s' : offers es → run_events es s = Some s' → within s' → Good C [] s → Good C [] s'.
Proof using LD.
  revert s. induction es as [|e es IH]; intros s He H HW G; simpl in H; [by injection H as ->|].
  apply Forall_cons_1 in He as [He Hes]. destruct (keeps_process C [] e He) as [HM HK].
  assert (J s) as HJ by (destruct G as (? & ? & ? & ? & I); apply I). pose proof (HM s HJ) as [J1 _].
  destruct (ProcessBlock C e s) as [r s1] eqn:E. destruct r as [a|x|]; [| |done].
  all: destruct (run_mono es s1 s' Hes H J1) as [_ W1]; apply (IH s1 Hes H HW).
  all: apply (proj1 (HK s _ s1 E (W1 HW) ltac:(done)) G).
Qed.

Lemma accepted_run es s s' : run_accepted es s = Some s' → run_events es s = Some s'.
Proof using Type.
  revert s. induction es as [|e es IH]; intros s H; simpl in *; [done|]. destruct (ProcessBlock C e s) as [[a|x|] s1]; [|done|done]. by apply IH.
Qed.

Lemma run_best es s s' : offers es → run_accepted es s = Some s' → within s' → Best C [] s → Best C [] s'.
Proof using LD.
  revert s. induction es as [|e es IH]; intros s He H HW G; simpl in H; [by injection H as ->|].
  apply Forall_cons_1 in He as [He Hes]. destruct (keeps_process C [] e He) as [HM HK].
  assert (J s) as HJ by (destruct G as (? & ? & ? & ? & I & _); apply I). pose proof (HM s HJ) as [J1 _].
  destruct (ProcessBlock C e s) as [r s1] eqn:E. destruct r as [a|x|]; [|done|done].
  destruct (run_mono es s1 s' Hes (accepted_run _ _ _ H) J1) as [_ W1]. apply (IH s1 Hes H HW).
  by apply (proj2 (HK s _ s1 E (W1 HW) ltac:(done)) a).
Qed.

(** ** What is read from a store *)

Lemma store_read bs main log i d :
  store_ok C bs main log → main !! i = Some d →
  GetBlockHashByHeight bs (Z.of_nat i) = Ret (hash_of d) ∧ GetHeightByBlockHash bs (hash_of d) = Ret (Z.of_nat i) ∧
  LoadBlockByHeight bs (Z.of_nat i) = Ret (stored C d) ∧ GetBlockHeaderByHeight bs (Z.of_nat i) = (Ret (header_of (bd_Block d)), bs).
Proof using Type.
  intros H Hi. assert (GetBlockHashByHeight bs (Z.of_nat i) = Ret (hash_of d)) as E1.
  { unfold GetBlockHashByHeight. rewrite (so_by_height _ _ _ _ H), (proj2 (Z.leb_le _ _)), Nat2Z.id, Hi by lia. done. }
  split_and!; [done| | |].
  - unfold GetHeightByBlockHash.
    assert (bs_db bs !! calcHashToHeightKey (hash_of d) = Some (Encode (Z.of_nat i))) as -> by (apply (so_by_hash _ _ _ _ H); eauto).
    apply decodeHeight_Encode.
  - unfold LoadBlockByHeight. rewrite E1. simpl. apply load_has_block, (so_blocks _ _ _ _ H). by eapply list_elem_of_lookup_2.
  - unfold GetBlockHeaderByHeight. rewrite (so_headers _ _ _ _ H), Hi. simpl. by rewrite Decode_Encode.
Qed.

Lemma store_read_none bs main log h :
  store_ok C bs main log → ¬ (0 <= h < Z.of_nat (length main)) →
  GetBlockHashByHeight bs h = Err (ErrOther "ErrHeightNotExist") ∧ LoadBlockByHeight bs h = Err (ErrOther "ErrHeightNotExist").
Proof using Type.
  intros H Hh. assert (GetBlockHashByHeight bs h = Err (ErrOther "ErrHeightNotExist")) as E.
  { unfold GetBlockHashByHeight. rewrite (so_by_height _ _ _ _ H). destruct (Z.leb_spec 0 h); [|done].
    by rewrite lookup_ge_None_2 by lia. }
  unfold LoadBlockByHeight. by rewrite E.
Qed.

Lemma store_read_hash bs main log h :
  store_ok C bs main log → (h ∉ (λ d, hash_of d) <$> main) → GetHeightByBlockHash bs h = Err (ErrOther "ErrHashNotExist").
Proof using Type.
  intros H Hh. unfold GetHeightByBlockHash. destruct (bs_db bs !! calcHashToHeightKey h) as [v|] eqn:E; [|done].
  apply (so_by_hash _ _ _ _ H) in E as (i & d & Hi & <- & _). exfalso. apply Hh, list_elem_of_fmap. exists d.
  split; [done|by eapply list_elem_of_lookup_2].
Qed.
End Runs.

(** C31: in every state a node reaches from an empty database by being offered blocks (its
    own or of peers, in any order), the view of the main chain, the block store, the block
    cache, the notifications sent and the state queries read agree on one chain of linked
    blocks from genesis to the tip, and every known block is stored with its total
    difficulty.  Executions, checks, state commits, withdrawals of local data and the
    batches of kept and of disconnected blocks may succeed or fail.  Conditions
    ([LocalData]): the executor gives local data for every block that was executed, with
    keys other than the block store's, and the batch of a block that is connected is
    written; otherwise it fails ([local_data_failure], [batch_failure]).  And no call has
    panicked, no node was dropped from the index, no counter ran over ([within]). *)
Theorem chain_invariant {ENV : ChainEnv} (C : ChainConfig) {LD : LocalData} peers size es s :
  offers es → run_events C es (started peers size) = Some s → within s →
  ∃ main log tds path, Inv C [] s main log tds path.
Proof.
  intros He H HW. apply (run_good C es (started peers size) s He H HW). destruct (started_inv C peers size) as [I _].
  by exists [], [], [-1], [0%nat].
Qed.

(** C32: in every such state (under the conditions of the chain invariant: local data for
    executed blocks, connected blocks written, no dropped node) there is one chain of blocks, each naming its predecessor's
    hash, such that the store answers every lookup by height, by hash and for the newest
    block from it; when the change log is kept, replaying it gives this chain, as does
    following the notifications. *)
Theorem store_reads {ENV : ChainEnv} (C : ChainConfig) {LD : LocalData} peers size es s :
  offers es → run_events C es (started peers size) = Some s → within s →
  let bs := c_store s in
  ∃ main log,
    (∀ i d, main !! i = Some d →
       b_Height (bd_Block d) = Z.of_nat i ∧
       LoadBlockByHeight bs (Z.of_nat i) = Ret (stored C d) ∧ b_Hash (bd_Block (stored C d)) = b_Hash (bd_Block d) ∧
       GetBlockHeaderByHeight bs (Z.of_nat i) = (Ret (header_of (bd_Block d)), bs) ∧
       GetBlockHashByHeight bs (Z.of_nat i) = Ret (b_Hash (bd_Block d)) ∧
       GetHeightByBlockHash bs (b_Hash (bd_Block d)) = Ret (Z.of_nat i) ∧
       (∀ d', main !! S i = Some d' → ParentHash (bd_Block d') = b_Hash (bd_Block d))) ∧
    (∀ h, ¬ (0 <= h < Z.of_nat (length main)) → LoadBlockByHeight bs h = Err (ErrOther "ErrHeightNotExist")) ∧
    (∀ h, (h ∉ (λ d, b_Hash (bd_Block d)) <$> main) → GetHeightByBlockHash bs h = Err (ErrOther "ErrHashNotExist")) ∧
    bs_height bs = Z.of_nat (length main) - 1 ∧
    (∀ d, list.last main = Some d → h_Hash (LastHeader bs) = b_Hash (bd_Block d)) ∧
    (isRecordBlockSequence C = true →
       replay log = hashes main ∧ ∀ i e, log !! i = Some e → GetBlockSequence bs (Z.of_nat i) = Ret e) ∧
    foldl follow (Some []) (c_out s) = Some (hashes main).
Proof.
  intros He H HW bs. destruct (run_good C es (started peers size) s He H HW) as (main & log & tds & path & I).
  { destruct (started_inv C peers size) as [I _]. by exists [], [], [-1], [0%nat]. }
  pose proof (iv_store _ _ _ _ _ _ _ I) as HS. exists main, log. split_and!.
  - intros i d Hi. destruct (store_read C bs main log i d HS Hi) as (H1 & H2 & H3 & H4).
    split_and!; [by apply (so_heights _ _ _ _ HS)|done|apply stored_hash|done|done|done|].
    intros d' Hd'. by apply (iv_links _ _ _ _ _ _ _ I i).
  - intros h Hh. by apply (store_read_none C bs main log h HS Hh).
  - intros h Hh. by apply (store_read_hash C bs main log h HS Hh).
  - apply (so_top _ _ _ _ HS).
  - intros d Hd. destruct (so_last _ _ _ _ HS d Hd) as (b & Eb & <-). unfold LastHeader. unfold bs. by rewrite Eb.
  - intros R. destruct (so_log _ _ _ _ HS R) as [L1 _ L3 _]. split; [done|]. intros i e Hi.
    unfold GetBlockSequence. rewrite L1, Hi. simpl. by rewrite Decode_Encode.
  - apply (iv_told _ _ _ _ _ _ _ I).
Qed.

(** C33: as long as every block that arrives is taken (connected, kept on a side chain or
    as an orphan), the tip of the main chain has the greatest total difficulty of all
    blocks known; under the same conditions. *)
Theorem heaviest_chain {ENV : ChainEnv} (C : ChainConfig) {LD : LocalData} peers size es s :
  offers es → run_accepted C es (started peers size) = Some s → within s →
  ∃ t tip, Tip (c_best s) = Some t ∧ c_heap s !! t = Some tip ∧
    ∀ id n, c_heap s !! id = Some n → 0 <= n_height n →
      ∃ td ttd, GetTdByBlockHash (c_store s) (n_hash n) = Ret td ∧
        GetTdByBlockHash (c_store s) (n_hash tip) = Ret ttd ∧ td <= ttd.
Proof.
  intros He H HW. destruct (run_best C es (started peers size) s He H HW) as (main & log & tds & path & I & Hh).
  { destruct (started_inv C peers size) as [I Hh]. by exists [], [], [-1], [0%nat]. }
  destruct (tip_path C _ _ _ _ _ _ I) as (t & tip & HT & Et & Ht & Htip). exists t, tip. split_and!; [done|done|].
  intros id n Hn Hpos. destruct (proj2 (iv_tds _ _ _ _ _ _ _ I) id n Hn Hpos) as (td & T1 & T2 & _).
  destruct (Hh id td T1) as (t' & ttd & E & Ettd & Hle). rewrite Et in E. injection E as <-. exists td, ttd.
  assert (0 <= n_height tip) as Hpt.
  { destruct (Z.le_gt_cases 0 (n_height tip)) as [?|Hneg]; [done|].
    rewrite (proj1 (iv_pregen _ _ _ _ _ _ _ I _ _ Ht Hneg)) in Ettd. injection Ettd as <-. lia. }
  split_and!; [by eapply td_lookup|by eapply td_lookup|done].
Qed.
