(* ===== verification/OrphanAdopt.v ===== *)
(** Orphans whose parent arrives ([processOrphans] in [blockchain/process.go]): the loops
    end, and exactly the descendants of the new block leave the pool. *)

From Stdlib Require Import Ascii String.
From S2P Require Import Prelude Types KVStore Account Tx Merkle Block Difficulty BlockStore BlockIndex OrphanPool BlockCache Chain ChainTheorems.
Local Open Scope Z_scope.

(** ** The index by parent *)

Section Pool.
Context {ENV : BlockEnv}.
Abbreviation ohash o := (b_Hash (o_block o)).
Abbreviation oparent o := (ParentHash (o_block o)).

Definition kids (op : OrphanPool) (h : bytes) : list orphanBlock := default [] (prevOrphans op !! h).
Definition listed (op : OrphanPool) (o : orphanBlock) : Prop := o ∈ kids op (oparent o).
(** Blocks are filed under the parent they name. *)
Definition linked (op : OrphanPool) : Prop := ∀ h o, o ∈ kids op h → oparent o = h.

(** An orphan that comes after one of the blocks [q]. *)
Inductive descends (op : OrphanPool) (q : list bytes) : orphanBlock → Prop :=
  | descends_child o : listed op o → oparent o ∈ q → descends op q o
  | descends_step o p : listed op o → descends op q p → oparent o = ohash p → descends op q o.

Lemma descends_listed op q o : descends op q o → listed op o.
Proof using Type. by destruct 1. Qed.

Lemma descends_nil op o : ¬ descends op [] o.
Proof using Type. induction 1 as [? ? E|]; [by apply elem_of_nil in E|done]. Qed.

Lemma kids_remove op o h :
  kids (removeOrphanBlock op o) h =
    if decide (h = oparent o) then filter (λ x, ohash x ≠ ohash o) (kids op h) else kids op h.
Proof using Type.
  unfold kids, removeOrphanBlock. simpl. destruct (decide (h = oparent o)) as [->|Hne].
  - destruct (Nat.eqb_spec (length (filter (λ x, ohash x ≠ ohash o) (default [] (prevOrphans op !! oparent o)))) 0) as [E|E].
    + rewrite lookup_delete_eq. symmetry. by apply nil_length_inv.
    + by rewrite lookup_insert_eq.
  - destruct (_ =? 0)%nat; [by rewrite lookup_delete_ne|by rewrite lookup_insert_ne].
Qed.

Lemma linked_remove op o : linked op → linked (removeOrphanBlock op o).
Proof using Type.
  intros L h x. rewrite kids_remove. destruct (decide _); [|apply L]. intros [_ H]%list_elem_of_filter. by apply L.
Qed.
Lemma linked_scan now i visit op : linked op → linked (scan now i visit op).
Proof using Type.
  revert i op. induction visit as [|o visit IH]; intros i op L; simpl; [done|].
  destruct (_ <? _); apply IH; [by apply linked_remove|done].
Qed.
Lemma linked_add limit visit now op br b pid q op' :
  linked op → addOrphanBlock limit visit now op br b pid q = Ret op' → linked op'.
Proof using Type.
  intros L. unfold addOrphanBlock. pose proof (linked_scan now 0 visit op L) as L1.
  assert (∀ p o, linked p → linked (mkOP (<[ohash o := o]> (orphans p)) (<[oparent o := kids p (oparent o) ++ [o]]> (prevOrphans p)) (oldestOrphan p))) as Hins.
  { intros p o Lp h x. unfold kids at 1. simpl. destruct (decide (oparent o = h)) as [<-|Hne].
    - rewrite lookup_insert_eq. simpl. intros [H| ->%list_elem_of_singleton]%elem_of_app; [by apply Lp|done].
    - rewrite lookup_insert_ne by done. apply Lp. }
  destruct (_ <? _); [destruct (oldestOrphan _) as [x|]; [|done]|]; intros [= <-].
  - apply (Hins (mkOP (orphans (removeOrphanBlock (scan now 0 visit op) x)) (prevOrphans (removeOrphanBlock (scan now 0 visit op) x)) None)
      (mkOrphan b _ br pid q)). by apply (linked_remove (scan now 0 visit op) x).
  - by apply (Hins (scan now 0 visit op) (mkOrphan b _ br pid q)).
Qed.

(** The number of blocks filed. *)
Lemma all_children_lookup op h os :
  prevOrphans op !! h = Some os → all_children op = (length os + sum_list_with (λ e, length e.2) (map_to_list (delete h (prevOrphans op))))%nat.
Proof using Type. intros H. unfold all_children. by rewrite <- (map_to_list_delete _ _ _ H). Qed.
Lemma kids_all op h : (length (kids op h) <= all_children op)%nat.
Proof using Type.
  unfold kids. destruct (prevOrphans op !! h) as [os|] eqn:E; simpl; [|lia]. rewrite (all_children_lookup _ _ _ E). lia.
Qed.
Lemma all_remove op o :
  listed op o → (all_children (removeOrphanBlock op o) + length (kids op (oparent o)) =
                 all_children op + length (kids (removeOrphanBlock op o) (oparent o)))%nat.
Proof using Type.
  intros H. unfold listed, kids in H. destruct (prevOrphans op !! oparent o) as [os|] eqn:E; [|by apply elem_of_nil in H].
  simpl in H. rewrite (all_children_lookup _ _ _ E). rewrite kids_remove, decide_True by done. unfold kids. rewrite E. simpl.
  unfold removeOrphanBlock, all_children. rewrite E. simpl.
  set (os' := filter (λ x, ohash x ≠ ohash o) os). destruct (Nat.eqb_spec (length os') 0) as [E0|E0]; [simpl; lia|].
  simpl. rewrite <- insert_delete_eq, map_to_list_insert by apply lookup_delete_eq. simpl. lia.
Qed.
Lemma filter_out_length (l : list orphanBlock) x : x ∈ l → (length (filter (λ y, ohash y ≠ ohash x) l) < length l)%nat.
Proof using Type.
  intros H. apply (length_filter_lt _ _ x); [done|]. naive_solver.
Qed.
End Pool.

(** ** Programs that leave the pool alone *)

Section Adopt.
Context {ENV : ChainEnv} (C : ChainConfig).
Abbreviation ohash o := (b_Hash (o_block o)).
Abbreviation oparent o := (ParentHash (o_block o)).

Definition leaves {A} (m : M BlockChain A) : Prop := ∀ s, c_orphans (m s).2 = c_orphans s.

Lemma leaves_bind {A B} (m : M BlockChain A) (f : A → M BlockChain B) : leaves m → (∀ a, leaves (f a)) → leaves (m ≫= f).
Proof using Type.
  intros Hm Hf s. specialize (Hm s). unfold mbind, M_bind. destruct (m s) as [[a|e|] s']; simpl in *; [|done|done]. by rewrite Hf.
Qed.
Lemma leaves_guard c e : leaves (guard_err c e).
Proof using Type. by destruct c. Qed.
Lemma leaves_deref p : leaves (deref p).
Proof using Type. intros s. unfold deref. by destruct (p ≫= _). Qed.
Lemma leaves_modify f : (∀ s, c_orphans (f s) = c_orphans s) → leaves (modify f).
Proof using Type. intros H s. apply H. Qed.
Lemma leaves_update_own id d : leaves (update_own_node id d).
Proof using Type. intros s. unfold update_own_node. destruct (c_heap s !! id); [|done]. by destruct (String.eqb _ _). Qed.
Lemma leaves_fault pid height hash e : leaves (RecordFaultPeer pid height hash e).
Proof using Type. apply leaves_modify. intros s. by destruct (bool_decide _). Qed.

Lemma leaves_write answer batch : leaves (write_batch answer batch).
Proof using Type. intros s. by destruct answer. Qed.

Ltac leaves_step :=
  match goal with
  | |- leaves (_ ≫= _) => apply leaves_bind; [|intros ?]
  | |- leaves (guard_err _ _) => apply leaves_guard
  | |- leaves (deref _) => apply leaves_deref
  | |- leaves best_tip => intros ?; apply leaves_deref
  | |- leaves (write_batch _ _) => apply leaves_write
  | |- leaves (notify _) => by apply leaves_modify
  | |- leaves (update_own_node _ _) => apply leaves_update_own
  | |- leaves (RecordFaultPeer _ _ _ _) => apply leaves_fault
  | |- leaves (modify (λ _, let '(_, _) := ?p in _)) => apply leaves_modify; intros ?
  | |- leaves (modify _) => by apply leaves_modify
  | |- leaves (if ?b then _ else _) => destruct b
  | |- leaves (match ?o with _ => _ end) => destruct o
  | |- leaves _ => by intros ?
  end.

Lemma leaves_index f : leaves (modify (λ s, let '(hp, bi) := f s in upd_index s hp bi)).
Proof using Type. apply leaves_modify. intros s. by destruct (f s). Qed.
Lemma leaves_add_node n : leaves (add_node n).
Proof using Type. unfold add_node. repeat (apply leaves_bind; [|intros ?]); try done. apply leaves_index. Qed.
Lemma leaves_exec k tip node block : leaves (exec_node k tip node block).
Proof using Type.
  intros s. unfold exec_node. destruct (ExecBlock _ _ _ _ _) as [[d del]|e|]; [done| |done].
  destruct (IsRecordFaultErr e); [|destruct (String.eqb _ _); [|done]].
  all: match goal with |- c_orphans (?m ?x).2 = _ => assert (leaves m) as Hm; [|apply Hm] end.
  - apply leaves_bind; [apply leaves_fault|done].
  - apply leaves_bind; [apply leaves_index|done].
Qed.
Lemma leaves_connect id d : leaves (connectBlock C id d).
Proof using Type. unfold connectBlock. repeat leaves_step. apply leaves_exec. Qed.
Lemma leaves_disconnect id d q : leaves (disconnectBlock C id d q).
Proof using Type. unfold disconnectBlock. repeat leaves_step. Qed.
Lemma leaves_detach ids blocks : leaves (detach_all C ids blocks).
Proof using Type. revert blocks. induction ids as [|id ids IH]; intros [|d blocks]; simpl; repeat leaves_step; [apply leaves_disconnect|apply IH]. Qed.
Lemma leaves_attach ids blocks : leaves (attach_all C ids blocks).
Proof using Type. revert blocks. induction ids as [|id ids IH]; intros [|d blocks]; simpl; repeat leaves_step; [apply leaves_connect|apply IH]. Qed.
Lemma leaves_best id d : leaves (connectBestChain C id d).
Proof using Type. unfold connectBestChain, reorganizeChain. repeat leaves_step; [apply leaves_connect|apply leaves_detach|apply leaves_attach]. Qed.
Lemma leaves_accept br d pid q : leaves (maybeAcceptBlock C br d pid q).
Proof using Type. unfold maybeAcceptBlock. repeat leaves_step; [apply leaves_add_node|apply leaves_best]. Qed.

(** ** The loops *)

(** What a loop over the children of [ph] leaves of the pool. *)
Record took (ph : bytes) (taken : list orphanBlock) (op op' : OrphanPool) : Prop := {
  tk_linked : linked op';
  tk_kids h : kids op' h = if decide (h = ph) then [] else kids op h;
  tk_from o : o ∈ taken → o ∈ kids op ph;
  tk_all o : o ∈ kids op ph → ∃ x, x ∈ taken ∧ ohash x = ohash o;
  tk_gone o : o ∈ taken → orphans op' !! ohash o = None;
  tk_less h : orphans op !! h = None → orphans op' !! h = None;
  tk_count : (all_children op' + length taken <= all_children op)%nat
}.

Lemma took_nil ph op : linked op → kids op ph = [] → took ph [] op op.
Proof using Type.
  intros L E. split; [done| | | | | |simpl; lia]; rewrite ?E; try (intros ? H; by apply elem_of_nil in H); [|done].
  intros h. destruct (decide (h = ph)) as [->|]; [done|done].
Qed.

Lemma took_cons ph o taken op op' :
  linked op → o ∈ kids op ph → took ph taken (removeOrphanBlock op o) op' → took ph (o :: taken) op op'.
Proof using Type.
  intros L Ho T. pose proof (L _ _ Ho) as Hp.
  assert (listed op o) as Hlist by (unfold listed; by rewrite Hp).
  assert (∀ x, x ∈ kids (removeOrphanBlock op o) ph ↔ ohash x ≠ ohash o ∧ x ∈ kids op ph) as Hk.
  { intros x. rewrite kids_remove, decide_True by done. by rewrite list_elem_of_filter. }
  destruct T as [T1 T2 T3 T4 T5 T6 T7]. split; [done| | | | | |].
  - intros h. rewrite T2. destruct (decide (h = ph)); [done|]. rewrite kids_remove, decide_False by congruence. done.
  - intros x [->|H]%elem_of_cons; [done|]. by apply T3, Hk in H as [_ H].
  - intros x Hx. destruct (decide (ohash x = ohash o)) as [E|E]; [exists o; split; [set_solver|done]|].
    destruct (T4 x) as (y & Hy & Ey); [by apply Hk|]. exists y. split; [set_solver|done].
  - intros x [->|H]%elem_of_cons; [|by apply T5]. apply T6. simpl. apply lookup_delete_eq.
  - intros h Hh. apply T6. simpl. apply lookup_delete_None. by right.
  - pose proof (all_remove op o Hlist) as E. simpl.
    pose proof (filter_out_length _ _ Ho). rewrite (kids_remove op o), decide_True, Hp in E by done. lia.
Qed.

Lemma children_spec fuel ph count i q s r s' :
  linked (c_orphans s) → kids (c_orphans s) ph = [] ∨ i = 0%nat →
  (length (kids (c_orphans s) ph) <= count)%nat → (length (kids (c_orphans s) ph) + (count - i) < fuel)%nat →
  process_children C fuel ph count i q s = (Ret r, s') →
  ∃ taken, r = Some (q ++ ((λ o, ohash o) <$> taken)) ∧ took ph taken (c_orphans s) (c_orphans s').
Proof using Type.
  revert i q s. induction fuel as [|fuel IH]; intros i q s L Hi Hc Hf H; [lia|]. cbn [process_children] in H.
  destruct (Nat.ltb_spec i count) as [Hlt|Hge].
  2: { injection H as <- <-. exists []. simpl. rewrite app_nil_r. split; [done|]. apply took_nil; [done|].
       destruct Hi as [?| ->]; [done|]. destruct (kids _ _); simpl in *; [done|lia]. }
  unfold mbind at 1, M_bind at 1, get in H. simpl in H. unfold getChildOrphan in H. fold (kids (c_orphans s) ph) in H.
  destruct (kids (c_orphans s) ph) as [|o ks] eqn:Ek.
  { simpl in H. apply IH in H; rewrite ?Ek; simpl in *; [|done|by left|lia|lia]. done. }
  destruct Hi as [?| ->]; [done|]. simpl in H.
  assert (o ∈ kids (c_orphans s) ph) as Ho by (rewrite Ek; set_solver).
  unfold mbind at 1, M_bind at 1, modify in H. unfold mbind at 1, M_bind at 1 in H.
  set (s1 := upd_orphans s (removeOrphanBlock (c_orphans s) o)) in H.
  pose proof (leaves_accept (o_broadcast o) (mkBD (o_block o) [] [] "") (o_pid o) (o_sequence o) s1) as E1.
  destruct (maybeAcceptBlock _ _ _ _ _ s1) as [[a|e|] s2]; [|done|done]. simpl in E1.
  assert (length (kids (c_orphans s2) ph) < length (kids (c_orphans s) ph))%nat as Hless.
  { rewrite E1, kids_remove, decide_True by (symmetry; by apply L). by apply filter_out_length. }
  apply IH in H; [|rewrite E1; by apply linked_remove|by right|rewrite Ek in *; lia|rewrite Ek in *; lia].
  destruct H as (taken & -> & T). exists (o :: taken). split; [simpl; by rewrite <- app_assoc|].
  apply took_cons; [done|done|]. by rewrite E1 in T.
Qed.

Lemma took_listed ph taken op op1 o : took ph taken op op1 → listed op1 o ↔ listed op o ∧ oparent o ≠ ph.
Proof using Type.
  intros T. unfold listed. rewrite (tk_kids _ _ _ _ T). destruct (decide (oparent o = ph)) as [E|E]; [|naive_solver].
  split; [by intros ?%elem_of_nil|naive_solver].
Qed.
Lemma took_descends ph taken op op1 q o :
  linked op → took ph taken op op1 →
  descends op (ph :: q) o ↔ listed op o ∧ oparent o = ph ∨ descends op1 (q ++ ((λ o, ohash o) <$> taken)) o.
Proof using Type.
  intros L T. split.
  - induction 1 as [o Ho Hin|o p Ho Hp IH E].
    + destruct (decide (oparent o = ph)) as [|Hne]; [by left|]. right. apply descends_child; [by apply (took_listed _ _ _ _ _ T)|set_solver].
    + destruct (decide (oparent o = ph)) as [|Hne]; [by left|]. right.
      assert (listed op1 o) as Ho1 by (by apply (took_listed _ _ _ _ _ T)).
      destruct IH as [[Hp1 Hp2]|IH]; [|by eapply descends_step].
      apply descends_child; [done|]. rewrite E. apply elem_of_app. right. unfold listed in Hp1. rewrite Hp2 in Hp1.
      destruct (tk_all _ _ _ _ T p Hp1) as (x & Hx & <-). apply list_elem_of_fmap. eauto.
  - intros [[Ho E]|H]; [apply descends_child; [done|set_solver]|].
    induction H as [o Ho Hin|o p Ho Hp IH E]; apply (took_listed _ _ _ _ _ T) in Ho as [Ho _].
    + apply elem_of_app in Hin as [Hin|(x & E & Hx)%list_elem_of_fmap]; [apply descends_child; [done|set_solver]|].
      apply (tk_from _ _ _ _ T) in Hx. apply (descends_step _ _ o x); [done| |done].
      pose proof (L _ _ Hx) as Ex. apply descends_child; [unfold listed; by rewrite Ex|rewrite Ex; set_solver].
    + by eapply descends_step.
Qed.

(** The pool without the descendants of [q]. *)
Definition adopted (q : list bytes) (op op' : OrphanPool) : Prop :=
  linked op' ∧ (∀ o, listed op' o ↔ listed op o ∧ ¬ descends op q o) ∧
  (∀ o, descends op q o → orphans op' !! ohash o = None) ∧ (∀ h, orphans op !! h = None → orphans op' !! h = None).

Lemma adopted_step ph taken q op op1 op' :
  linked op → took ph taken op op1 → adopted (q ++ ((λ o, ohash o) <$> taken)) op1 op' → adopted (ph :: q) op op'.
Proof using Type.
  intros L T (A1 & A2 & A3 & A4). split_and!; [done| | |].
  - intros o. rewrite A2, (took_listed _ _ _ _ _ T), (took_descends _ _ _ _ _ _ L T). naive_solver.
  - intros o [[Ho E]|H]%(took_descends _ _ _ _ _ _ L T); [|by apply A3]. apply A4. unfold listed in Ho. rewrite E in Ho.
    destruct (tk_all _ _ _ _ T o Ho) as (x & Hx & <-). by apply (tk_gone _ _ _ _ T).
  - intros h Hh. by apply A4, (tk_less _ _ _ _ T).
Qed.

Lemma hashes_spec fuel q s r s' :
  linked (c_orphans s) → (length q + all_children (c_orphans s) < fuel)%nat →
  process_hashes C fuel q s = (Ret r, s') → r = Some tt ∧ adopted q (c_orphans s) (c_orphans s').
Proof using Type.
  revert q s. induction fuel as [|fuel IH]; intros q s L Hf H; [lia|]. cbn [process_hashes] in H. destruct q as [|ph q].
  { injection H as <- <-. split; [done|]. split_and!; [done| | |done].
    - intros o. split; [|naive_solver]. intros Ho. split; [done|apply descends_nil].
    - intros o []%descends_nil. }
  unfold mbind, M_bind, get in H. cbv beta iota zeta in H.
  destruct (process_children C _ ph _ 0 q s) as [[x|e|] s1] eqn:E; [|done|done].
  apply children_spec in E as (taken & -> & T); [|done|by right|by unfold GetChildOrphanCount, kids|].
  2: { pose proof (kids_all (c_orphans s) ph). unfold GetChildOrphanCount. fold (kids (c_orphans s) ph). lia. }
  apply IH in H as [-> A]; [|apply (tk_linked _ _ _ _ T)|].
  2: { pose proof (tk_count _ _ _ _ T). rewrite length_app, length_fmap. simpl in Hf. lia. }
  split; [done|]. by eapply adopted_step.
Qed.

Lemma orphans_spec hash s r s' :
  linked (c_orphans s) → processOrphans C hash s = (Ret r, s') → r = Some tt ∧ adopted [hash] (c_orphans s) (c_orphans s').
Proof using Type. intros L H. unfold processOrphans, mbind, M_bind, get in H. apply hashes_spec in H; [done|done|simpl; lia]. Qed.

(** ** Whole calls *)

Definition keeps_linked {A} (m : M BlockChain A) : Prop := ∀ s, linked (c_orphans s) → linked (c_orphans (m s).2).

Lemma leaves_linked {A} (m : M BlockChain A) : leaves m → keeps_linked m.
Proof using Type. intros H s L. by rewrite H. Qed.
Lemma linked_bind {A B} (m : M BlockChain A) (f : A → M BlockChain B) :
  keeps_linked m → (∀ a, keeps_linked (f a)) → keeps_linked (m ≫= f).
Proof using Type.
  intros Hm Hf s L. specialize (Hm s L). unfold mbind, M_bind. destruct (m s) as [[a|e|] s']; simpl in *; [|done|done]. by apply Hf.
Qed.

Ltac linked_step :=
  match goal with
  | |- keeps_linked (_ ≫= _) => apply linked_bind; [|intros ?]
  | |- keeps_linked (if ?b then _ else _) => destruct b
  | |- keeps_linked (match ?o with _ => _ end) => destruct o
  | |- keeps_linked (maybeAcceptBlock _ _ _ _ _) => apply leaves_linked, leaves_accept
  | |- keeps_linked (guard_err _ _) => apply leaves_linked, leaves_guard
  | |- keeps_linked (RecordFaultPeer _ _ _ _) => apply leaves_linked, leaves_fault
  | |- keeps_linked best_tip => apply leaves_linked; intros ?; apply leaves_deref
  | |- keeps_linked (modify (λ s, upd_orphans s (removeOrphanBlock _ _))) => intros ? L; by apply linked_remove
  | |- keeps_linked (mret _) => by intros ?
  | |- keeps_linked (throw _) => by intros ?
  | |- keeps_linked (get _) => by intros ?
  end.

Lemma linked_children fuel h count i q : keeps_linked (process_children C fuel h count i q).
Proof using Type. revert i q. induction fuel as [|fuel IH]; intros i q; cbn [process_children]; repeat (linked_step || apply IH). Qed.
Lemma linked_hashes fuel q : keeps_linked (process_hashes C fuel q).
Proof using Type. revert q. induction fuel as [|fuel IH]; intros q; cbn [process_hashes]; repeat (linked_step || apply IH || apply linked_children). Qed.

Lemma linked_orphans h : keeps_linked (processOrphans C h).
Proof using Type. unfold processOrphans. linked_step; [linked_step|apply linked_hashes]. Qed.

Lemma linked_process e : ev_add e = true → keeps_linked (ProcessBlock C e).
Proof using Type.
  intros He. unfold ProcessBlock. rewrite He. cbn [negb].
  repeat (apply linked_orphans ||
    match goal with |- keeps_linked (lift _ ≫= _) => fail 1 | _ => linked_step end).
  intros s L. unfold mbind, M_bind, lift, modify. destruct (addOrphanBlock _ _ _ _ _ _ _ _) as [op|x|] eqn:E; simpl; [|done|done].
  by eapply linked_add.
Qed.
Lemma linked_run es s s' : offers es → run_events C es s = Some s' → linked (c_orphans s) → linked (c_orphans s').
Proof using Type.
  revert s. induction es as [|e es IH]; intros s He H L; simpl in H; [by injection H as ->|].
  apply Forall_cons_1 in He as [He Hes]. pose proof (linked_process e He s L) as L1.
  destruct (ProcessBlock C e s) as [[a|x|] s1]; [by eapply IH|by eapply IH|done].
Qed.
Lemma started_linked peers size : linked (c_orphans (started peers size)).
Proof using Type. intros h o H. unfold kids in H. simpl in H. rewrite lookup_empty in H. by apply elem_of_nil in H. Qed.

(** A block that is taken and no orphan is accepted, then its orphans are looked for. *)
Lemma process_taken e d isMain s s' :
  ev_add e = true → ProcessBlock C e s = (Ret (d, isMain, false), s') →
  ∃ s1 r, c_orphans s1 = c_orphans s ∧ processOrphans C (b_Hash (bd_Block (ev_block e))) s1 = (Ret r, s').
Proof using Type.
  intros He H. unfold ProcessBlock in H. rewrite He in H. cbn [negb] in H. run_inv.
  assert (∀ A (f : BlockChain → A) x y z, get f x = (Ret y, z) → z = x) as Hget by (intros A f x y z [= _ <-]; done).
  match goal with H1 : get c_closed _ = _ |- _ => apply Hget in H1; subst end.
  match goal with H1 : (if 0 <? _ then _ else _) s = (_, ?z) |- _ => assert (z = s) as ->; [|clear H1] end.
  { destruct (0 <? _); [|by run_inv]. destruct (String.eqb _ _); [|by run_inv]. run_inv.
    unfold best_tip, deref in *. destruct (Tip _ ≫= _); by simplify_eq. }
  match goal with H1 : get _ _ = _ |- _ => apply Hget in H1; subst end. case_match; [run_inv; done|].
  run_inv. match goal with H1 : get _ _ = _ |- _ => apply Hget in H1; subst end. case_match; [run_inv; done|].
  run_inv. match goal with H1 : get _ _ = _ |- _ => apply Hget in H1; subst end. case_match; [run_inv; done|].
  run_inv. match type of H with (let '(_, _) := ?p in _) _ = _ => destruct p end. run_inv.
  match goal with H1 : maybeAcceptBlock _ _ _ _ _ _ = (_, ?z) |- _ => pose proof (leaves_accept (ev_broadcast e) (ev_block e) (ev_pid e) (ev_sequence e) s) as E; rewrite H1 in E; exists z end.
  eauto.
Qed.
End Adopt.

(** C37: in every state a node reaches, looking for orphans that follow a block ends.  When
    a block with a known parent has been taken without error, exactly the orphans that
    descend from it, directly or through other orphans, have left the pool. *)
Theorem orphans_adopted {ENV : ChainEnv} (C : ChainConfig) peers size es s :
  offers es → run_events C es (started peers size) = Some s →
  (∀ hash s', processOrphans C hash s ≠ (Ret None, s')) ∧
  ∀ e d isMain s', ev_add e = true → ProcessBlock C e s = (Ret (d, isMain, false), s') →
    let hash := b_Hash (bd_Block (ev_block e)) in
    ∀ o, (listed (c_orphans s') o ↔ listed (c_orphans s) o ∧ ¬ descends (c_orphans s) [hash] o) ∧
         (descends (c_orphans s) [hash] o → IsKnownOrphan (c_orphans s') (b_Hash (o_block o)) = false).
Proof.
  intros He H. pose proof (linked_run C _ _ _ He H (started_linked _ _)) as L. split.
  { intros hash s' E. apply orphans_spec in E as [E _]; [done|done]. }
  intros e d isMain s' Hadd E hash o. destruct (process_taken C e d isMain s s' Hadd E) as (s1 & r & E1 & H1).
  apply orphans_spec in H1 as (_ & _ & A2 & A3 & _); [|by rewrite E1]. rewrite E1 in A2, A3. split; [apply A2|].
  intros Hd. unfold IsKnownOrphan. by rewrite (A3 o Hd).
Qed.
