(* ===== verification/ChainDemo.v ===== *)
(** A chain with concrete wire formats and services, on which the theorems about chains are
    applied: blocks with payments, forks, orphans and a block that fails. *)

From Stdlib Require Import Ascii String.
From S2P Require Import Prelude Types KVStore Account Tx TxTheorems Merkle Block Difficulty BlockStore BlockStoreLemmas BlockIndex OrphanPool BlockCache ChainView Chain ChainMono ChainInv ChainSteps ChainTheorems OrphanAdopt.
Local Open Scope Z_scope.

Module ChainDemo.
Import TxDemo.

(** ** Wire formats: delimited fields, lists with their length *)

Definition enc_list {A} (f : A → string → string) (l : list A) (x : string) : string := escz (Z.of_nat (length l)) (foldr f x l).
Fixpoint dec_n {A} (g : string → option (A * string)) (n : nat) (s : string) : option (list A * string) :=
  match n with
  | O => Some ([], s)
  | S n => '(a, s) ← g s; '(l, s) ← dec_n g n s; Some (a :: l, s)
  end.
Definition dec_list {A} (g : string → option (A * string)) (s : string) : option (list A * string) :=
  '(n, s) ← unescz s; dec_n g (Z.to_nat n) s.

Lemma dec_enc_list {A} (f : A → string → string) g (h : A → A) l x :
  (∀ a x, g (f a x) = Some (h a, x)) → dec_list g (enc_list f l x) = Some (h <$> l, x).
Proof.
  intros H. unfold dec_list, enc_list. rewrite unescz_escz. simpl. rewrite Nat2Z.id.
  induction l as [|a l IH]; simpl; [done|]. rewrite H. simpl. by rewrite IH.
Qed.

(** Rewrite with the inverses of the field formats. *)
Ltac fields := repeat (first [rewrite unesc_esc|rewrite unescz_escz|rewrite unesc_esc_sig]; cbv beta iota delta [mbind option_bind]).

Definition enc_header (h : BHeader) : string :=
  escz (h_Version h) (esc (h_ParentHash h) (esc (h_TxHash h) (esc (h_StateHash h) (escz (h_Height h) (escz (h_BlockTime h)
    (escz (h_TxCount h) (esc (h_Hash h) (escz (h_Difficulty h) (esc_sig (h_Signature h) ""))))))))).
Definition dec_header (s : string) : option BHeader :=
  '(v, s) ← unescz s; '(p, s) ← unesc s; '(t, s) ← unesc s; '(st, s) ← unesc s; '(hh, s) ← unescz s; '(bt, s) ← unescz s;
  '(c, s) ← unescz s; '(hs, s) ← unesc s; '(df, s) ← unescz s; '(sg, s) ← unesc_sig s;
  Some (mkHeader v p t st hh bt c hs df sg).
#[local] Instance header_codec : Codec BHeader.
Proof. refine {| Encode := enc_header; Decode := dec_header |}. intros []. unfold dec_header, enc_header. by fields. Defined.

Definition enc_seq (e : BlockSequence) : string := esc (bs_Hash e) (escz (bs_Type e) "").
Definition dec_seq (s : string) : option BlockSequence := '(h, s) ← unesc s; '(t, s) ← unescz s; Some (mkSeq h t).
#[local] Instance seq_codec : Codec BlockSequence.
Proof. refine {| Encode := enc_seq; Decode := dec_seq |}. intros []. unfold dec_seq, enc_seq. by fields. Defined.

#[local] Instance int_codec : Codec Z := countable_codec.

Definition enc_log (l : ReceiptLog) (x : string) : string := escz (rl_Ty l) (esc (rl_Log l) x).
Definition dec_log (s : string) : option (ReceiptLog * string) :=
  '(t, s) ← unescz s; '(b, s) ← unesc s; Some ({| rl_Ty := t; rl_Log := b |}, s).
Lemma dec_enc_log l x : dec_log (enc_log l x) = Some (id l, x).
Proof. unfold dec_log, enc_log. destruct l. by fields. Qed.
Definition enc_receipt (r : ReceiptData) (x : string) : string := escz (rd_Ty r) (enc_list enc_log (rd_Logs r) x).
Definition dec_receipt (s : string) : option (ReceiptData * string) :=
  '(t, s) ← unescz s; '(l, s) ← dec_list dec_log s; Some (mkRD t l, s).
Lemma dec_enc_receipt r x : dec_receipt (enc_receipt r x) = Some (id r, x).
Proof.
  unfold dec_receipt, enc_receipt. rewrite unescz_escz. cbv beta iota delta [mbind option_bind].
  rewrite (dec_enc_list enc_log dec_log id) by apply dec_enc_log. rewrite list_fmap_id. by destruct r.
Qed.

Definition enc_body (b : BlockBody) : string :=
  enc_list enc (bb_Txs b) (enc_list enc_receipt (bb_Receipts b) (esc (bb_MainHash b) (escz (bb_MainHeight b) ""))).
Definition dec_body (s : string) : option BlockBody :=
  '(t, s) ← dec_list dec s; '(r, s) ← dec_list dec_receipt s; '(m, s) ← unesc s; '(h, s) ← unescz s; Some (mkBody t r m h).
Lemma dec_enc_body b : dec_body (enc_body b) = Some (norm_body b).
Proof.
  unfold dec_body, enc_body. rewrite (dec_enc_list enc dec norm) by apply dec_enc. cbv beta iota delta [mbind option_bind].
  rewrite (dec_enc_list enc_receipt dec_receipt id) by apply dec_enc_receipt. cbv beta iota delta [mbind option_bind].
  rewrite list_fmap_id. by fields.
Qed.

(** ** The environment *)

Definition store_env : StoreEnv := {|
  se_block := BlockDemo.env; se_header := header_codec; body_Encode := enc_body; body_Decode := dec_body;
  body_Decode_Encode := dec_enc_body; se_int64 := int_codec; se_seq := seq_codec; json_int _ := None |}.

(** The executor's local data for a block: one entry. *)
Definition services : Services := {|
  ask_dup := ask_dup BlockDemo.services; ask_exec := ask_exec BlockDemo.services; ask_memset := ask_memset BlockDemo.services;
  ask_check := ask_check BlockDemo.services; ask_commit := ask_commit BlockDemo.services;
  ask_local d := Ret [("LODB-coins-last", Some (StateHash (bd_Block d)))]%string;
  ask_del_local d := Ret [("LODB-coins-last", None)]%string |}.
#[export] Instance chain_env : ChainEnv := {|
  ce_store := store_env; Chain.services _ := services; unix_now _ := 1000; grpc_status _ := false;
  store_damaged _ := false; add_Write _ := None; del_Write _ := None; Debug := false |}.
#[export] Instance local_data : LocalData.
Proof.
  split.
  - done.
  - intros k d. eexists. split; [reflexivity|]. repeat constructor.
  - intros k d kvs [= <-]. repeat constructor.
Qed.
Definition cfg : ChainConfig := {| isRecordBlockSequence := true; isParaChain := false; cc_IsPara := false; quickIndex := false |}.

(** ** Blocks *)

Definition pay (to p : string) (nonce : Z) : Transaction := BlockDemo.tx to p nonce.
(** The block as its maker executes it. *)
Definition seal (prev : bytes) (b : Block) : Block :=
  match ExecBlock services prev b false true with Ret (d, _) => bd_Block d | _ => b end.
Definition child (p : Block) (time : Z) (txs : list Transaction) : Block :=
  mkBlock 0 (b_Hash p) "" "" (b_Height p + 1) time 520159231 "" 0 None txs.
Definition genesis : Block := seal zero_hash (mkBlock 0 zero_hash "" "" 0 1 520159231 "" 0 None [pay "bob" "100" 0]).
Definition next (p : Block) (time : Z) (txs : list Transaction) : Block := seal (StateHash p) (child p time txs).
Definition a1 : Block := next genesis 10 [pay "bob" "5" 1].
Definition a2 : Block := next a1 20 [pay "carol" "7" 2].
Definition b1 : Block := next genesis 11 [pay "dave" "5" 3].
Definition b2 : Block := next b1 21 [pay "bob" "7" 4].
Definition b3 : Block := next b2 31 [pay "erin" "9" 5].
(** A block with a transaction that fails, and its child. *)
Definition x2 : Block := child b1 22 [pay "" "1" 6].
Definition x3 : Block := child x2 32 [pay "bob" "1" 7].

Definition offer (b : Block) (pid : string) : event :=
  mkEv true (mkBD b [] [] "") pid true (-1) [] (λ _, 0).
(** An own block arrives without its hashes. *)
Definition own_offer (p : Block) (time : Z) (txs : list Transaction) : event := offer (child p time txs) "self".

Definition start : BlockChain := started {["peer"]} 128.
(** A side chain arrives, its last block before its second one, and replaces the main
    chain; then the node adds a block of its own. *)
Definition events : list event :=
  [offer genesis "self"; offer a1 "peer"; offer a2 "peer"; offer b1 "peer"; offer b3 "peer"; offer b2 "peer";
   own_offer b3 40 [pay "frank" "1" 8]].
Definition final : BlockChain := default start (run_accepted cfg events start).

Lemma is_some_default {A} (x : A) (r : option A) : match r with Some _ => true | None => false end = true → r = Some (default x r).
Proof. by destruct r. Qed.
Lemma final_run : run_accepted cfg events start = Some final.
Proof. apply is_some_default. vm_compute. reflexivity. Qed.
Lemma events_offers : offers events.
Proof. repeat constructor. Qed.
Definition within_b (s : BlockChain) : bool :=
  bool_decide (size (bi_index (c_index s)) = length (c_heap s)) && (Z.of_nat (c_calls s) <? 2 ^ 63) &&
  forallb (λ n, n_height n <? 2 ^ 63 - 1) (c_heap s).
Lemma within_b_within s : within_b s = true → within s.
Proof.
  intros [[H1%bool_decide_eq_true_1 H2%Z.ltb_lt]%andb_prop H3]%andb_prop. split_and!; [exact H1|exact H2|].
  apply list.Forall_forall. intros n Hn. apply Z.ltb_lt. rewrite forallb_forall in H3. by apply H3, list_elem_of_In.
Qed.
Lemma final_within : within final.
Proof. apply within_b_within. vm_compute. reflexivity. Qed.
(** The heights of the main chain, the hashes that were told, the newest block. *)
Lemma final_height : bs_height (c_store final) = 4 ∧ cv_queue (c_best final) = [7; 6; 5; 4; 1; 0]%nat.
Proof. split; vm_compute; reflexivity. Qed.
End ChainDemo.
#[local] Existing Instances ChainDemo.chain_env ChainDemo.local_data.

Lemma chain_invariant_witness :
  bs_height (c_store ChainDemo.final) = 4 ∧ ∃ main log tds path, Inv ChainDemo.cfg [] ChainDemo.final main log tds path.
Proof.
  split; [apply ChainDemo.final_height|].
  apply (chain_invariant ChainDemo.cfg {["peer"]} 128 ChainDemo.events ChainDemo.final ChainDemo.events_offers
    (accepted_run _ _ _ _ ChainDemo.final_run) ChainDemo.final_within).
Defined.
Lemma store_reads_witness :
  bs_height (c_store ChainDemo.final) = 4 ∧
  ∃ main log, length main = 5%nat ∧ replay log = hashes main ∧ foldl follow (Some []) (c_out ChainDemo.final) = Some (hashes main).
Proof.
  split; [apply ChainDemo.final_height|].
  destruct (store_reads ChainDemo.cfg {["peer"]} 128 ChainDemo.events ChainDemo.final ChainDemo.events_offers
    (accepted_run _ _ _ _ ChainDemo.final_run) ChainDemo.final_within) as (main & log & _ & _ & _ & Hh & _ & Hl & Hf).
  exists main, log. split_and!; [|by apply Hl|done].
  pose proof (proj1 ChainDemo.final_height) as Hf'. rewrite Hf' in Hh. lia.
Defined.
Lemma heaviest_chain_witness :
  length (c_heap ChainDemo.final) = 8%nat ∧ ∃ t tip, Tip (c_best ChainDemo.final) = Some t ∧ c_heap ChainDemo.final !! t = Some tip.
Proof.
  split; [vm_compute; reflexivity|].
  destruct (heaviest_chain ChainDemo.cfg {["peer"]} 128 ChainDemo.events ChainDemo.final ChainDemo.events_offers
    ChainDemo.final_run ChainDemo.final_within) as (t & tip & H1 & H2 & _).
  exists t, tip. by split.
Defined.

(** The hash of the newest block of the main chain. *)
Definition tip_hash (s : BlockChain) : option bytes := n_hash <$> (Tip (c_best s) ≫= λ t, c_heap s !! t).

(** A run of blocks of one peer, a last block after it, and the outcome of that. *)
Definition after (bs : list Block) : BlockChain :=
  default ChainDemo.start (run_accepted ChainDemo.cfg ((λ b, ChainDemo.offer b "peer") <$> bs) ChainDemo.start).
Definition offered (b : Block) (s : BlockChain) : outcome (option BlockDetail * bool * bool) * BlockChain :=
  ProcessBlock ChainDemo.cfg (ChainDemo.offer b "peer") s.

(** When a heavier side chain turns out to have a block that does not execute, the
    blocks of the old main chain that were taken back are not put back.  A chain of height
    2 is cut to height 1 and a lighter tip by two blocks of a peer, the call fails, and
    offering the old tip again is refused because it is known. *)
Lemma reorg_failure :
  let bs := [ChainDemo.genesis; ChainDemo.a1; ChainDemo.a2; ChainDemo.b1; ChainDemo.x2] in
  let s1 := after bs in
  let s2 := (offered ChainDemo.x3 s1).2 in
  run_accepted ChainDemo.cfg ((λ b, ChainDemo.offer b "peer") <$> bs) ChainDemo.start = Some s1 ∧
  bs_height (c_store s1) = 2 ∧ tip_hash s1 = Some (b_Hash ChainDemo.a2) ∧
  (offered ChainDemo.x3 s1).1 = Err (ErrOther "ErrBlockExec") ∧
  bs_height (c_store s2) = 1 ∧ tip_hash s2 = Some (b_Hash ChainDemo.b1) ∧
  (∃ td td', GetTdByBlockHash (c_store s2) (b_Hash ChainDemo.b1) = Ret td ∧
     GetTdByBlockHash (c_store s2) (b_Hash ChainDemo.a2) = Ret td' ∧ td < td') ∧
  (offered ChainDemo.a2 s2).1 = Err (ErrOther "ErrBlockExist").
Proof.
  intros bs s1 s2. split_and!; [apply ChainDemo.is_some_default|..]; try (vm_compute; reflexivity).
  exists 131074, 196611. split_and!; [vm_compute; reflexivity|vm_compute; reflexivity|lia].
Qed.

(** The same node when the second block is connected: the database fails, or the executor
    has no local data for it. *)
Definition failing_env (write : option error) (l : option error) : ChainEnv := {|
  ce_store := ChainDemo.store_env;
  Chain.services k := {|
    ask_dup := ask_dup ChainDemo.services; ask_exec := ask_exec ChainDemo.services; ask_memset := ask_memset ChainDemo.services;
    ask_check := ask_check ChainDemo.services; ask_commit := ask_commit ChainDemo.services;
    ask_local d := match l with Some e => if (k =? 1)%nat then Err e else ask_local ChainDemo.services d | None => ask_local ChainDemo.services d end;
    ask_del_local := ask_del_local ChainDemo.services |};
  unix_now _ := 1000; grpc_status _ := false; store_damaged _ := false;
  add_Write k := if (k =? 1)%nat then write else None; del_Write _ := None; Debug := false |}.

(** The block enters the cache before the batch is written.  When the write fails the call
    reports it, the store and the view keep the old tip, and the cache answers for the new
    height with a block that is not on the main chain. *)
Lemma batch_failure :
  let s1 := after [ChainDemo.genesis] in
  let full := ErrOther "no space left on device" in
  let p := @ProcessBlock (failing_env (Some full) None) ChainDemo.cfg (ChainDemo.offer ChainDemo.a1 "peer") s1 in
  p.1 = Err full ∧ bs_height (c_store p.2) = 0 ∧ tip_hash p.2 = Some (b_Hash ChainDemo.genesis) ∧
  LoadBlockByHeight (c_store p.2) 1 = Err (ErrOther "ErrHeightNotExist") ∧
  ((λ d, b_Hash (bd_Block d)) <$> (CheckcacheBlock (c_cache p.2) 1).1) = Some (b_Hash ChainDemo.a1).
Proof. intros s1 full p. split_and!; vm_compute; reflexivity. Qed.

(** An own block gets its final hash in the index before its local data is asked for.  When
    there is none the index has a block that is not stored under this hash. *)
Lemma local_data_failure :
  let s1 := after [ChainDemo.genesis] in
  let down := ErrOther "ErrQueueTimeout" in
  let e := ChainDemo.own_offer ChainDemo.genesis 10 [ChainDemo.pay "bob" "5" 1] in
  let p := @ProcessBlock (failing_env None (Some down)) ChainDemo.cfg e s1 in
  p.1 = Err down ∧ tip_hash p.2 = Some (b_Hash ChainDemo.genesis) ∧
  HaveBlock (c_index p.2) (b_Hash ChainDemo.a1) = true ∧
  LoadBlockByHash (c_store p.2) (b_Hash ChainDemo.a1) = Err (ErrOther "ErrHashNotExist").
Proof. intros s1 down e p. split_and!; vm_compute; reflexivity. Qed.

(** A node that began with an empty database still knows the parent of the genesis
    block, so a peer can offer a second block of height 0.  Its difficulty cannot be
    compared, which is reported, but it is in the index; its child then has no block in
    common with the main chain, which the code does not expect: it panics. *)
Lemma second_genesis :
  let g := ChainDemo.seal zero_hash (mkBlock 0 zero_hash "" "" 0 1 520159231 "" 0 None [ChainDemo.pay "bob" "200" 0]) in
  let bs := [ChainDemo.genesis; ChainDemo.a1; ChainDemo.a2] in
  let s1 := after bs in
  run_accepted ChainDemo.cfg ((λ b, ChainDemo.offer b "peer") <$> bs) ChainDemo.start = Some s1 ∧
  (offered g s1).1 = Err (ErrOther "ErrParentTdNoExist") ∧
  (offered (ChainDemo.next g 5 []) (offered g s1).2).1 = Panic.
Proof. intros g bs s1. split_and!; [apply ChainDemo.is_some_default|..]; vm_compute; reflexivity. Qed.

Lemma taken_b {A B S} (p : outcome (A * B * bool) * S) :
  match p.1 with Ret (_, _, false) => true | _ => false end = true → ∃ a b, p = (Ret (a, b, false), p.2).
Proof. destruct p as [[[[a b] []]|e|] s]; try done. by exists a, b. Qed.

(** Two orphans of which one follows the other; then the block before both. *)
Lemma orphans_adopted_witness :
  let bs := [ChainDemo.genesis; ChainDemo.b3; ChainDemo.b2] in
  let s := after bs in
  size (orphans (c_orphans s)) = 2%nat ∧ size (orphans (c_orphans (offered ChainDemo.b1 s).2)) = 0%nat ∧
  (∀ hash s', processOrphans ChainDemo.cfg hash s ≠ (Ret None, s')) ∧
  ∀ o, listed (c_orphans (offered ChainDemo.b1 s).2) o ↔
       listed (c_orphans s) o ∧ ¬ descends (c_orphans s) [b_Hash ChainDemo.b1] o.
Proof.
  intros bs s.
  assert (run_accepted ChainDemo.cfg ((λ b, ChainDemo.offer b "peer") <$> bs) ChainDemo.start = Some s) as E
    by (apply ChainDemo.is_some_default; vm_compute; reflexivity).
  assert (offers ((λ b, ChainDemo.offer b "peer") <$> bs)) as O by repeat constructor.
  destruct (orphans_adopted ChainDemo.cfg {["peer"]} 128 ((λ b, ChainDemo.offer b "peer") <$> bs) s O (accepted_run _ _ _ _ E)) as [H1 H2].
  split; [vm_compute; reflexivity|]. split; [vm_compute; reflexivity|]. split; [exact H1|].
  destruct (taken_b (offered ChainDemo.b1 s)) as (d & m & Ed); [vm_compute; reflexivity|].
  intros o. exact (proj1 (H2 (ChainDemo.offer ChainDemo.b1 "peer") d m (offered ChainDemo.b1 s).2 eq_refl Ed o)).
Defined.
